(* ===== verification/_CoqProject ===== *)
-Q . S2P
Prelude.v
Changeset.v
Allocator.v
ForkTree.v
System.v
Balances.v
BalancesInv.v
Currency.v
Vesting.v
Multisig.v
MultisigSafe.v
Era.v
BigUint.v
BigUintSpec.v
Helpers128.v
Authorities.v
HeaderMetadata.v
Epochs.v
PeersState.v
Peerset.v
PeersetInv.v
PeersetReach.v
StateDb.v
PruningSpec.v
NonCanonical.v
NonCanonicalSpec.v
NonCanonicalInv.v
OverlayJournal.v
StateDbSync.v
SyncSpec.v
SyncRecovery.v
TxPool.v
TxQueues.v
TxReady.v
TxIter.v
TxPoolSpec.v
TxPoolReach.v
TxEvents.v
TxValidated.v
TxValidatedSpec.v
TxValidatedReach.v
