(* ===== verification/Prelude.v ===== *)
(** * Verification of components of Substrate

    This library models parts of the Substrate node and runtime, written in
    Rust, as Rocq functions and proves what makes them correct.  The sources
    are under [src/]; each file names the one it translates.

    ** The parts and how they fit

    Storage: the runtime writes to an overlay of nested transactions
    ([Changeset]) and allocates its heap with the host's allocator
    ([Allocator]).  The nodes of the states of blocks are kept by the state
    database: those of blocks that are not yet canonical in memory
    ([NonCanonical]), those of canonical blocks on disk until the pruning window
    ([StateDb]) has moved past them; [StateDbSync] puts both together.

    Consensus: pending changes of consensus data are kept per fork in a tree
    ([ForkTree]); the authority set of the GRANDPA finality gadget
    ([Authorities]) keeps its scheduled changes in such a tree, and the engines
    with epochs the epochs that blocks announce ([Epochs]).  The ancestry of
    blocks that the tree asks for is computed from the headers of the client
    ([HeaderMetadata]).

    Network: the peer set manager ([PeersState], [Peerset]) chooses the peers
    to be connected to, by their reputations and the free slots, and tells the
    network, which reports back.

    Transactions: those that are not yet in a block wait in a pool ([TxPool]),
    in a queue of transactions whose dependencies are met, from which a block
    author takes them in order, and in one of those still waiting for others.
    Around it the validated pool ([TxValidated]) asks the runtime about each
    transaction, bans those that are invalid or stale, keeps the limits, and
    reports what happens to a transaction to its watchers ([TxEvents]).

    Runtime: accounts and their reference counters belong to the system pallet
    ([System]); the balances pallet ([Balances], [BalancesInv]) stores its data
    in them; pallets that lock or reserve funds see it through interfaces
    ([Currency]), of which the vesting pallet ([Vesting]) and the multisig pallet
    ([Multisig]) are clients; the latter has accounts made up of several
    signatories dispatch calls, its own among them.

    Primitives: transaction eras ([Era]); multi-limb integers ([BigUint],
    [BigUintSpec]) and the 128-bit helpers built on them ([Helpers128]).

    ** Files

    - [Prelude]: results ([res]: [Ok], [Err], [Panic]), the state and error
      monad [M], machine integers with the overflow behaviour of both build
      profiles ([OverflowChecks]), binary search, stable sorting, destructors
      ([Drop]), frame reasoning ([keeps]), hint databases [rust] and [frame].
    - [Changeset]: [primitives/state-machine/src/overlayed_changes/changeset.rs].
      State: a map of entries, each with the stack of its versions, the dirty
      keys of each open transaction, the number of client transactions and the
      execution mode.  Shown: reads, writes, [modify], [clear_where] and the
      operations on transactions refine a stack of full maps, one per open
      transaction, of which the committed one is drained; rollback and commit; the runtime cannot close the
      client's transactions; leaving the runtime rolls its transactions back.
    - [Allocator]: [client/allocator/src/freeing_bump.rs].  State: the free-list
      heads, the bump pointer, the statistics, the poison flag, and a linear
      memory behind a class with laws.  Shown: the behaviour of [allocate] and
      [deallocate] on every branch, disjointness of live blocks in every
      execution within a bound on the memory, poisoning, and the overflow near
      4 GiB that the bound excludes.
    - [StateDb], [PruningSpec]: [client/state-db/src/pruning.rs], the types of
      [client/state-db/src/lib.rs] and the application of a commit set to the
      columns of the database in [client/db/src/lib.rs].  State: the rows of
      nodes to delete, the index of the row of each node, the pending numbers;
      the database is a pair of maps, once on disk and once with the open
      transaction.  Shown: over canonicalization, pruning, commit, revert and
      restart the database holds the states of the window and nothing else, and
      the journal rebuilds the window.
    - [NonCanonical], [NonCanonicalSpec], [NonCanonicalInv]:
      [client/state-db/src/noncanonical.rs].  State: the levels of block
      overlays, parents, reference-counted values, pending insertions and
      canonicalizations, pins.  Shown: a value is found exactly as long as a
      block or a pin needs it, journal indices are unique, and a
      canonicalization discards exactly the other forks.  Examples at the end of
      [NonCanonicalInv] show where the code departs from its comments.
    - [OverlayJournal]: the journal records of the overlay follow its levels
      through every operation, and reading them back rebuilds the levels.
    - [StateDbSync], [SyncSpec], [SyncRecovery]: the operations of
      [client/state-db/src/lib.rs] in every pruning mode; pruning stops and
      spares pinned blocks; and the composition of overlay, window and database:
      every state the database claims to have can be read, also after restarts
      of the node at any moment, and a restart between transactions restores the
      blocks.  Examples at the end of [SyncRecovery] show two restarts that do
      not.
    - [ForkTree]: [utils/fork-tree/src/lib.rs].  State: a forest and the best
      finalized number; ancestry is a parameter with the laws of a block tree.
      Shown: import, search, finalization, pruning and rebalancing keep the
      forest the ancestry relation on its nodes and do what they document.
    - [Authorities]: [client/finality-grandpa/src/authorities.rs].  State: the
      current authorities, the set id, the pending changes and the history.
      Shown: the invariant over all executions, the enactment of standard and
      forced changes on every branch, and the lookup of the history.
    - [HeaderMetadata]: [primitives/blockchain/src/header_metadata.rs], the
      header metadata of [client/db/src/lib.rs] and the utilities of
      [client/api/src/lib.rs].  State: the headers and the cache of their
      metadata, whose links to ancestors the searches shorten.  Shown: common
      ancestors, routes and ancestry are those of the tree of headers, whatever
      links the cache holds; with this the client satisfies the laws of ancestry
      that [ForkTree] asks for.
    - [Epochs]: [client/consensus/epochs/src/lib.rs].  State: the tree of the
      headers of announced epochs and the map of their data.  Shown: which epoch
      the child of a block is in, and that importing and pruning change this as
      they should and nowhere else.
    - [PeersState]: [client/peerset/src/peersstate.rs].  State: the membership
      of each known peer in each set with its reputation, and the slots of each
      set.  Shown: the counters of slots are exact after every operation.
    - [Peerset], [PeersetInv], [PeersetReach]: [client/peerset/src/lib.rs].
      State: the peers, the reserved peers of each set, the channel of actions,
      the queue of messages and the time of the last update.  Shown: over all
      executions nothing panics, sets closed to others hold only reserved peers,
      the messages tell exactly of the connections, free slots are filled, slots
      stay within their limits unless a reserved peer is removed, and
      reputations fade to zero.  Examples at the end show a limit exceeded and a
      reserved peer that is not connected because of another one.
    - [TxPool]: [tracked_map.rs], [future.rs], [ready.rs] and [base_pool.rs] of
      [client/transaction-pool/src/graph].  State: the ready transactions with
      what each unlocks, the providers of tags and the best transactions; the
      waiting transactions with what each lacks; the tags pruned recently.
      [TxQueues], [TxReady] and [TxIter] hold the lemmas on the future queue, on
      the ready graph and on its iterator, [TxPoolSpec] the invariant of the pool
      and the behaviour of its operations, [TxPoolReach] their executions.  Shown:
      no assertion of the pool fails, as long as the tags of the transactions
      are sound, the order in which transactions are returned, importing and pruning on every branch, what a removal takes with
      it, and that the limits are enforced.  Examples at the end of [TxPoolReach]
      show where a hash that comes back, a transaction that requires its own tag
      and the replacement of a provider break these.
    - [TxEvents]: [rotator.rs], [watcher.rs] and [listener.rs] of the same
      directory.  State: the banned hashes with the end of their ban; the
      senders of each watched transaction, the blocks that wait for finality,
      and a log of everything sent on the channels.  Shown: the protocol of the
      status events over all sequences of operations.
    - [TxValidated], [TxValidatedSpec], [TxValidatedReach]: [validated_pool.rs]
      and [pool.rs] of the same directory, over the pool, the rotator and the
      listener.  Shown: no operation panics in an execution with transactions
      that the pool admits; what a batch of
      submissions does; that bans and known transactions are refused; what is
      stale leaves; and whoever watches a transaction that leaves is told.
      Examples at the end show where watchers are told wrongly or not at all.
    - [System]: the accounts of [frame/system/src/lib.rs], their counters, the
      stored-map interface and the event log.  Shown: a consumed account is
      never removed; insertion and removal on every branch.
    - [Balances], [BalancesInv]: [frame/balances/src/lib.rs].  State: the
      accounts of the system pallet, the total issuance, locks and named
      reserves; destructors of imbalances are explicit.  Shown: each operation
      on every branch, and conservation of funds over all executions but those
      in which an account that is still needed would be reaped, where the code
      loses issuance.
    - [Currency]: the traits of [frame/support/src/traits/tokens/currency.rs],
      [lockable.rs] and [reservable.rs] as classes with laws, which the balances
      pallet satisfies.
    - [Vesting]: [frame/vesting/src/lib.rs], proved against that interface:
      unvested funds stay, vesting completes, and defects of the removal of
      schedules and of vested transfers to oneself.
    - [Multisig], [MultisigSafe]: [frame/multisig/src/lib.rs], over a reservable
      currency.  State: the open operations, the stored calls, a log of the
      events and of the calls dispatched, and the rest of the runtime.  Shown: no
      call is dispatched without the approvals of the threshold, in every
      execution with nested calls; enough approvals dispatch it; a call that
      fails changes nothing; and the deposits of an operation that is opened and
      cancelled, with a defect when the call is stored.
    - [Era]: [primitives/runtime/src/generic/era.rs]: codec and window.
    - [BigUint], [BigUintSpec]: [primitives/arithmetic/src/biguint.rs]: the
      schoolbook operations and long division compute on values what they
      should, without overflow or panic.
    - [Helpers128]: [primitives/arithmetic/src/helpers_128bit.rs].

    ** Conditions of the executions

    The theorems about all executions of a component admit each operation under
    a condition on its arguments and the state: [node_allowed] of the state
    database, [op_allowed] and [vop_allowed] of the pools, [valid_input] of the
    peer set, [legal] of the authority set, [allowed] of the balances pallet,
    [call_ok] of the vesting pallet, [MAX_MEM] of the allocator.  The comment of
    each theorem lists what it requires.  Where the code fails outside of the
    condition, an example or a theorem next to it shows how.

    ** Conventions

    An operation on [&mut self] is a computation in [M]; an early return keeps
    the state reached so far, and a panic is the result [Panic], so that a
    theorem that an operation succeeds says also that it does not panic.
    Unsigned integers are integers with their width; unchecked arithmetic
    panics or wraps with the profile, and a theorem holds of both unless it
    fixes one.  Code outside the sources is a parameter: the ancestry test of
    the client, the linear memory, the voter set of another crate, the codec of
    the journals, the event type and the address lookup of the runtime.  A key
    of the state database is the hash of its node and so determines it;
    the specifications of the state database have this as a function from keys
    to contents.  The order in which a hash map or a hash set is iterated is a
    parameter ([HashOrder]); the time is an argument.  What the pool asks the
    runtime, the chain and the clock is a parameter whose answer may change with
    every question ([PoolEnv]), and so is whether a receiver still listens
    ([Receivers]); the linked hash map of another crate is a class with its laws
    ([LinkedHashMap]), as is the LRU cache of headers ([LruCache]).  The clock of
    the peer set manager is a sequence of readings that never decreases
    ([Clock]), its timer one of answers ([Timer]), and its execution meets fewer
    than [2 ^ 32] peers, the range of the counters.  The builder of the ancestry
    test with a block that is not yet imported is a parameter of [Epochs]; that
    the hash made up for a child is the hash of no block is a hypothesis there.
    That two lists of signatories with thresholds have no common account, which
    is their hash, is one of [MultisigSafe]; the calls of the other pallets, the
    filter of calls and the codec are parameters of [Multisig], and errors do not
    roll back the storage, as in the runtime.
    Asynchronous functions run to their end.

    ** Fuel

    Loops that are not structural take fuel: the number of nodes for the
    iterators and the finalization loop of the fork tree, the length of the
    slice for a binary search, 257 for the greatest common divisor of 128-bit
    integers, the base for the correction loop of a quotient digit, the number
    of journal entries plus one for reading a journal, the length of the window
    for pruning, the number of levels for discarding descendants, the number of
    pins for releasing them, the number of ready transactions for removing a
    subtree and for pruning, the number of waiting transactions plus one for
    an import with those it promotes, the number of best transactions for one
    step of the iterator, the number of transactions for enforcing a limit, the
    number of updated transactions for taking them out of the pool, the sizes of
    the table of bans and of the blocks that wait for finality for trimming
    them, the numbers of the blocks for the walks over headers, the number of
    known peers plus one for filling slots, and the number of actions in the
    channel plus one for a poll of the peer set manager.  The dispatch of calls
    takes the depth to which calls are nested, and its theorems hold for every
    depth.  The theorems about those operations show that the fuel is enough: out of fuel
    the model panics, and the theorems exclude a panic.  The iterator of the pool
    ends when it is out of fuel, and the theorem on its order characterises what
    is left then; the two loops that trim a table return it, and the theorems
    bound its size.

    ** Not modelled

    The transport of the network, RPC, block production and, but for the
    metadata of headers, the block database are input and output or concurrent
    tasks around third-party code.  Of the epoch changes the migration of their
    stored format and of the peer set manager its debug output are left out.
    The lock and the memory statistics of the state database are left out.
    Of the transaction pool the tasks that revalidate it in the background and
    maintain it with each block, its locks and its metrics are left out.
    That the states of discarded blocks that are pinned can be read is not
    proved.  The trie is a third-party library.  The Wasm executor binds third-party engines.
    Procedural macros generate code.  Most pallets are clients of the two
    modelled ones.  Weights, logging, telemetry, metadata and derived codecs
    are left out of the modelled parts. *)

From Stdlib Require Import ZArith Lia Permutation Sorted.
From stdpp Require Import gmap strings option list.

#[global] Set Warnings "-notation-overridden".

Local Open Scope Z_scope.

(** ** Results of Rust computations

    A Rust function that can fail or panic is modelled by a function into
    [res E A]: it returns [Ok a], it returns [Err e], or it panics (an
    [expect], an [assert!], an index out of range, or an arithmetic overflow
    with overflow checks on).  A function with no error type is polymorphic
    in [E]. *)
Inductive res (E A : Type) : Type :=
| Ok (a : A)
| Err (e : E)
| Panic.

Arguments Ok {E A} a.
Arguments Err {E A} e.
Arguments Panic {E A}.

#[export] Instance res_mret E : MRet (res E) := fun A a => Ok a.
#[export] Instance res_mbind E : MBind (res E) :=
  fun A B f m => match m with Ok a => f a | Err e => Err e | Panic => Panic end.
#[export] Instance res_fmap E : FMap (res E) :=
  fun A B f m => match m with Ok a => Ok (f a) | Err e => Err e | Panic => Panic end.

(** Rust's [Result::map_err]. *)
Definition map_err {E E' A} (f : E -> E') (m : res E A) : res E' A :=
  match m with Ok a => Ok a | Err e => Err (f e) | Panic => Panic end.

(** Rust's [Option::ok_or]. *)
Definition ok_or {E A} (o : option A) (e : E) : res E A :=
  match o with Some a => Ok a | None => Err e end.

(** Rust's [Option::expect] and [Option::unwrap]. *)
Definition expect {E A} (o : option A) : res E A :=
  match o with Some a => Ok a | None => Panic end.

(** Rust's [assert!]. *)
Definition assert_ {E} (b : bool) : res E unit := if b then Ok tt else Panic.

(** Rust's [ensure!] of frame_support. *)
Definition ensure {E} (b : bool) (e : E) : res E unit := if b then Ok tt else Err e.

Definition is_ok {E A} (m : res E A) : bool :=
  match m with Ok _ => true | _ => false end.

(** ** Stateful computations

    [M S E A]: a computation on a state [S].  An [Err] keeps the state the
    computation reached, as a Rust early return does. *)
Definition M (S E A : Type) : Type := S -> S * res E A.

#[export] Instance M_mret S E : MRet (M S E) := fun A a s => (s, Ok a).
#[export] Instance M_mbind S E : MBind (M S E) :=
  fun A B f m s =>
    match m s with
    | (s', Ok a) => f a s'
    | (s', Err e) => (s', Err e)
    | (s', Panic) => (s', Panic)
    end.

Definition get {S E} : M S E S := fun s => (s, Ok s).
Definition gets {S E A} (f : S -> A) : M S E A := fun s => (s, Ok (f s)).
Definition modify {S E} (f : S -> S) : M S E unit := fun s => (f s, Ok tt).
Definition lift {S E A} (r : res E A) : M S E A := fun s => (s, r).
Definition throw {S E A} (e : E) : M S E A := fun s => (s, Err e).

(** A Rust [match] on the [Result] a call returns: the state is the one the
    call left, a panic propagates. *)
Definition catch {S E E' A B} (m : M S E A)
    (on_ok : A -> M S E' B) (on_err : E -> M S E' B) : M S E' B :=
  fun s => match m s with
           | (s', Ok a) => on_ok a s'
           | (s', Err e) => on_err e s'
           | (s', Panic) => (s', Panic)
           end.

(** ** Machine integers

    A [w]-bit unsigned integer is a [Z] in [0, 2^w).  The unchecked operators
    [+], [-] and [*] of Rust panic on overflow when the program is compiled
    with overflow checks (the debug profile) and wrap around without them (the
    release profile): the mode is a parameter of every definition that uses
    them, so a theorem holds of both profiles unless it fixes the mode. *)
Class OverflowChecks : Type := overflow_checks : bool.

Definition is_u (w z : Z) : Prop := 0 <= z < 2 ^ w.

#[export] Instance is_u_dec w z : Decision (is_u w z).
Proof. unfold is_u. apply _. Defined.

Definition u_max (w : Z) : Z := 2 ^ w - 1.

Definition fits (w z : Z) : bool := (0 <=? z) && (z <? 2 ^ w).

Definition unchecked `{OverflowChecks} {E} (w z : Z) : res E Z :=
  if fits w z then Ok z else if overflow_checks then Panic else Ok (z mod 2 ^ w).

Definition uadd `{OverflowChecks} {E} (w a b : Z) : res E Z := unchecked w (a + b).
Definition usub `{OverflowChecks} {E} (w a b : Z) : res E Z := unchecked w (a - b).
Definition umul `{OverflowChecks} {E} (w a b : Z) : res E Z := unchecked w (a * b).

(** Rust's [debug_assert!], compiled by the profile that checks overflows. *)
Definition debug_assert `{OverflowChecks} {E} (b : bool) : res E unit :=
  if overflow_checks then assert_ b else Ok tt.

Definition checked (w z : Z) : option Z := if fits w z then Some z else None.
Definition checked_add (w a b : Z) : option Z := checked w (a + b).
Definition checked_sub (w a b : Z) : option Z := checked w (a - b).
Definition checked_mul (w a b : Z) : option Z := checked w (a * b).

Definition saturating (w z : Z) : Z :=
  if z <? 0 then 0 else if z <? 2 ^ w then z else u_max w.
Definition saturating_add (w a b : Z) : Z := saturating w (a + b).
Definition saturating_sub (w a b : Z) : Z := saturating w (a - b).
Definition saturating_mul (w a b : Z) : Z := saturating w (a * b).

(** Division and remainder panic at zero in every profile. *)
Definition udiv {E} (a b : Z) : res E Z := if b =? 0 then Panic else Ok (a / b).
Definition umod {E} (a b : Z) : res E Z := if b =? 0 then Panic else Ok (a mod b).

(** Rust's [as] cast to a [w]-bit unsigned integer. *)
Definition cast (w z : Z) : Z := z mod 2 ^ w.

(** [z ∈u w]: [z] is a [w]-bit unsigned integer. *)
Declare Scope rust_scope.
Delimit Scope rust_scope with rust.
Notation "z ∈u w" := (is_u w z) (at level 70, no associativity) : rust_scope.

(** Case analysis on every [if] and [match] of the goal, then linear
    arithmetic on the boolean tests. *)
Ltac case_ifs := repeat (case_match; simplify_eq/=).
Ltac ifs_lia := case_ifs; try lia.

Section machine_integers.
Context {OC : OverflowChecks} {E : Type}.
Implicit Types w a b z : Z.

Lemma fits_spec w z : fits w z = true <-> is_u w z.
Proof. unfold fits, is_u. lia. Qed.

Lemma fits_false w z : fits w z = false <-> ~ is_u w z.
Proof. unfold fits, is_u. lia. Qed.

Lemma unchecked_ok w z : is_u w z -> unchecked (E := E) w z = Ok z.
Proof. intros H. unfold unchecked. by rewrite (proj2 (fits_spec w z) H). Qed.

Lemma uadd_ok w a b : is_u w (a + b) -> uadd (E := E) w a b = Ok (a + b).
Proof. apply unchecked_ok. Qed.

Lemma usub_ok w a b : is_u w (a - b) -> usub (E := E) w a b = Ok (a - b).
Proof. apply unchecked_ok. Qed.

Lemma umul_ok w a b : is_u w (a * b) -> umul (E := E) w a b = Ok (a * b).
Proof. apply unchecked_ok. Qed.

Lemma checked_Some w z r : checked w z = Some r <-> r = z /\ is_u w z.
Proof.
  unfold checked. destruct (fits w z) eqn:F.
  - apply fits_spec in F. naive_solver.
  - apply fits_false in F. split; [done|by intros []].
Qed.

Lemma checked_ok w z : is_u w z -> checked w z = Some z.
Proof. intros. by apply checked_Some. Qed.

Lemma checked_None w z : checked w z = None <-> ~ is_u w z.
Proof.
  unfold checked. destruct (fits w z) eqn:F.
  - apply fits_spec in F. by split.
  - apply fits_false in F. by split.
Qed.

Lemma saturating_id w z : is_u w z -> saturating w z = z.
Proof. unfold saturating, is_u. intros. ifs_lia. Qed.

Lemma saturating_is_u w z : 0 <= w -> is_u w (saturating w z).
Proof.
  intros. pose proof (Z.pow_pos_nonneg 2 w). unfold saturating, is_u, u_max. ifs_lia.
Qed.

Lemma saturating_sub_max w a b : is_u w a -> 0 <= b -> saturating_sub w a b = Z.max 0 (a - b).
Proof. unfold saturating_sub, saturating, is_u. intros. ifs_lia. Qed.

Lemma cast_is_u w z : 0 <= w -> is_u w (cast w z).
Proof. intros. apply Z.mod_pos_bound. lia. Qed.

Lemma cast_id w z : is_u w z -> cast w z = z.
Proof. apply Z.mod_small. Qed.
End machine_integers.

(** Machine arithmetic that stays in range: [autorewrite with rust] removes the
    overflow checks whose bounds [lia] proves, [auto with rust] the range
    conditions of saturating and casting operations. *)
Create HintDb rust.
Create Rewrite HintDb rust.
#[export] Hint Resolve saturating_is_u cast_is_u : rust.
#[export] Hint Rewrite @uadd_ok @usub_ok @umul_ok using (unfold is_u in *; lia) : rust.

(** ** Loops

    [for_each f l] is a Rust [for] loop over the items [l] whose body changes
    the state and may return early with an error. *)
Fixpoint for_each {S E A} (f : A -> M S E unit) (l : list A) : M S E unit :=
  match l with
  | [] => mret tt
  | x :: l' => f x ≫= fun _ => for_each f l'
  end.

(** A [for] loop that also updates a local variable. *)
Fixpoint fold_each {S E A B} (f : B -> A -> M S E B) (b : B) (l : list A) : M S E B :=
  match l with
  | [] => mret b
  | x :: l' => f b x ≫= fun b' => fold_each f b' l'
  end.

(** A call of a method of a field. *)
Definition zoom {S T E A} (field : S -> T) (with_field : T -> S -> S) (m : M T E A) : M S E A :=
  fun s => let '(t, r) := m (field s) in (with_field t s, r).

(** ** Bit operations of the integer types *)
Fixpoint pos_trailing_zeros (p : positive) : Z :=
  match p with
  | xO p' => 1 + pos_trailing_zeros p'
  | _ => 0
  end.

(** [trailing_zeros] of a [w]-bit integer; it is [w] at zero. *)
Definition trailing_zeros (w z : Z) : Z :=
  match z with Zpos p => pos_trailing_zeros p | _ => w end.

(** [leading_zeros] of a [w]-bit integer. *)
Definition leading_zeros (w z : Z) : Z := if z =? 0 then w else w - 1 - Z.log2 z.

(** Bits that do not overlap are added. *)
Lemma lor_add k a b : 0 <= k -> 0 <= a < 2 ^ k -> Z.lor a (b * 2 ^ k) = a + b * 2 ^ k.
Proof.
  intros Hk Ha. rewrite <-Z.add_lor_land. enough (Z.land a (b * 2 ^ k) = 0) as -> by lia.
  rewrite <-Z.shiftl_mul_pow2 by lia. apply Z.bits_inj'. intros n Hn.
  rewrite Z.land_spec, Z.bits_0. destruct (Z.lt_ge_cases n k) as [Hlt|Hge].
  - rewrite (Z.shiftl_spec_low b k n) by done. apply andb_false_r.
  - enough (Z.testbit a n = false) as -> by done. destruct (Z.eq_dec a 0) as [->|]; [apply Z.bits_0|].
    apply Z.bits_above_log2; [lia|]. enough (Z.log2 a < k) by lia. apply Z.log2_lt_pow2; lia.
Qed.

(** [next_power_of_two]: the smallest power of two not below [z]. *)
Definition next_power_of_two (z : Z) : Z := 2 ^ Z.log2_up z.

(** [trailing_zeros] is the place of the lowest bit. *)
Lemma trailing_zeros_spec w z n : 0 <= z -> 0 <= n -> Z.testbit z n = true ->
  0 <= trailing_zeros w z /\ trailing_zeros w z <= n /\ Z.testbit z (trailing_zeros w z) = true.
Proof.
  intros Hz Hn Hb. destruct z as [|p|p]; [by rewrite Z.bits_0 in Hb| |lia]. simpl trailing_zeros. clear Hz.
  revert n Hn Hb. induction p as [p IH|p IH|]; intros n Hn Hb; simpl pos_trailing_zeros; [done| |done].
  destruct (Z.eq_dec n 0) as [->|Hn0]; [done|]. change (Z.pos p~0) with (2 * Z.pos p) in *.
  replace n with (Z.succ (n - 1)) in Hb by lia. rewrite Z.testbit_even_succ in Hb by lia.
  destruct (IH (n - 1) ltac:(lia) Hb) as (H1 & H2 & H3). split_and!; [lia..|].
  rewrite Z.add_comm. change (pos_trailing_zeros p + 1) with (Z.succ (pos_trailing_zeros p)). by rewrite Z.testbit_even_succ.
Qed.

Lemma trailing_zeros_pow2 w k : 0 <= k -> trailing_zeros w (2 ^ k) = k.
Proof.
  intros Hk. pattern k. apply natlike_ind; [done| |done].
  intros x Hx IH. rewrite Z.pow_succ_r by done.
  pose proof (Z.pow_pos_nonneg 2 x ltac:(lia) Hx) as Hp.
  destruct (2 ^ x) as [|p|p] eqn:E; [lia| |lia]. change (2 * Z.pos p) with (Z.pos p~0).
  cbn [trailing_zeros pos_trailing_zeros] in *. lia.
Qed.

Lemma next_power_of_two_ge z : z <= next_power_of_two z.
Proof.
  unfold next_power_of_two. destruct (Z.le_gt_cases z 1) as [Hz|Hz].
  - rewrite Z.log2_up_eqn0 by done. simpl. lia.
  - apply Z.log2_up_spec. done.
Qed.

Lemma next_power_of_two_tight z : 1 < z -> next_power_of_two z < 2 * z.
Proof.
  intros Hz. unfold next_power_of_two. pose proof (Z.log2_up_spec z Hz) as [Hlt _].
  pose proof (Z.log2_up_pos z Hz).
  replace (Z.log2_up z) with (Z.succ (Z.pred (Z.log2_up z))) by lia.
  rewrite Z.pow_succ_r by lia. lia.
Qed.

(** ** Stable sorting

    Rust's [sort_by_key] is stable: an insertion sort that puts an element
    before the first one it is not after. *)
Fixpoint insert_by {A} (before : A -> A -> bool) (x : A) (l : list A) : list A :=
  match l with
  | [] => [x]
  | y :: l' => if before x y then x :: l else y :: insert_by before x l'
  end.

Definition sort_by {A} (before : A -> A -> bool) (l : list A) : list A :=
  foldr (insert_by before) [] l.

Section sort_by.
Context {A : Type} (before : A -> A -> bool).

Lemma insert_by_perm x l : insert_by before x l ≡ₚ x :: l.
Proof.
  induction l as [|y l IH]; simpl; [done|]. case_match; [done|]. by rewrite IH, Permutation_swap.
Qed.

Lemma sort_by_perm l : sort_by before l ≡ₚ l.
Proof. induction l as [|x l IH]; simpl; [done|]. by rewrite insert_by_perm, IH. Qed.

Lemma elem_of_sort_by x l : x ∈ sort_by before l <-> x ∈ l.
Proof. by rewrite sort_by_perm. Qed.

(** A sorted list is left alone. *)
Lemma sort_by_sorted l : StronglySorted (fun x y => before x y = true) l -> sort_by before l = l.
Proof.
  induction 1 as [|x l Hl IH Hx]; simpl; [done|]. rewrite IH.
  destruct l as [|y l]; simpl; [done|]. by rewrite (Forall_inv Hx).
Qed.

Context (Htotal : forall x y, before x y = false -> before y x = true)
        (Htrans : forall x y z, before x y = true -> before y z = true -> before x z = true).

Lemma insert_by_StronglySorted x l :
  StronglySorted (fun x y => before x y = true) l ->
  StronglySorted (fun x y => before x y = true) (insert_by before x l).
Proof.
  induction 1 as [|y l Hl IH Hy]; simpl; [by repeat constructor|].
  destruct (before x y) eqn:Hxy.
  - constructor; [by constructor|]. constructor; [done|]. eapply Forall_impl; [done|]. eauto.
  - constructor; [done|]. rewrite insert_by_perm. constructor; [auto|done].
Qed.

Lemma sort_by_StronglySorted l : StronglySorted (fun x y => before x y = true) (sort_by before l).
Proof. induction l; simpl; [constructor|]. by apply insert_by_StronglySorted. Qed.
End sort_by.

Lemma insert_by_fmap {A B} (f : A -> B) (p : A -> A -> bool) (q : B -> B -> bool) x l :
  (forall a b, p a b = q (f a) (f b)) -> f <$> insert_by p x l = insert_by q (f x) (f <$> l).
Proof.
  intros Hpq. induction l as [|y l IH]; simpl; [done|]. rewrite Hpq. case_match; [done|]. csimpl. by rewrite IH.
Qed.

(** Sorting commutes with a map that keeps the order. *)
Lemma sort_by_fmap {A B} (f : A -> B) (p : A -> A -> bool) (q : B -> B -> bool) l :
  (forall a b, p a b = q (f a) (f b)) -> f <$> sort_by p l = sort_by q (f <$> l).
Proof.
  intros Hpq. induction l as [|x l IH]; simpl; [done|]. by rewrite (insert_by_fmap _ _ q), IH.
Qed.

Lemma filter_agree {A} (P Q : A -> Prop) `{!forall x, Decision (P x), !forall x, Decision (Q x)} (l : list A) :
  (forall x, x ∈ l -> P x <-> Q x) -> filter P l = filter Q l.
Proof.
  induction l as [|x l IH]; intros HPQ; [done|]. rewrite !filter_cons, IH by (intros; apply HPQ; by right).
  destruct (HPQ x ltac:(by left)). repeat case_decide; tauto.
Qed.

Lemma filter_id {A} (P : A -> Prop) `{!forall x, Decision (P x)} (l : list A) : Forall P l -> filter P l = l.
Proof. induction 1 as [|x l Hx Hl IH]; [done|]. rewrite filter_cons_True by done. by rewrite IH. Qed.

(** Rust's [Vec::swap_remove]: the last element takes the place of the
    removed one; an index out of range panics. *)
Definition swap_remove {E A} (i : nat) (l : list A) : res E (A * list A) :=
  x ← expect (l !! i);
  y ← expect (last l);
  Ok (x, take (pred (length l)) (<[i := y]> l)).

Lemma swap_remove_spec {E A} i (l : list A) x :
  l !! i = Some x ->
  exists l', swap_remove (E := E) i l = Ok (x, l') /\ l ≡ₚ x :: l' /\ take i l' = take i l.
Proof.
  intros Hi. destruct (last_is_Some l) as [_ Hlast]. destruct Hlast as [y Hy].
  { intros ->. done. }
  unfold swap_remove. rewrite Hi, Hy. simpl. eexists. split; [done|].
  apply last_Some in Hy as [l0 ->]. rewrite length_app. simpl.
  replace (pred (length l0 + 1)) with (length l0) by lia.
  destruct (decide (i < length l0)%nat) as [Hlt|Hge].
  - rewrite lookup_app_l in Hi by done.
    rewrite insert_app_l, take_app_length' by (rewrite ?length_insert; done).
    split.
    + rewrite <-(take_drop_middle l0 i x Hi) at 1. rewrite insert_take_drop by done.
      rewrite <-!app_assoc. simpl. rewrite <-Permutation_middle.
      constructor. apply Permutation_app_head. symmetry. apply Permutation_cons_append.
    + rewrite take_insert_ge by lia. by rewrite take_app_le by lia.
  - assert (i = length l0) as -> by (apply lookup_lt_Some in Hi; rewrite length_app in Hi; simpl in Hi; lia).
    rewrite list_lookup_middle in Hi by done. simplify_eq.
    rewrite insert_app_r_alt, take_app_length' by lia. split.
    + by rewrite Permutation_app_comm.
    + by rewrite take_app_length, firstn_all.
Qed.

(** Rust's [Vec::insert]: an index past the end panics. *)
Definition vec_insert {E A} (i : nat) (x : A) (l : list A) : res E (list A) :=
  if (i <=? length l)%nat then Ok (take i l ++ x :: drop i l) else Panic.

(** Rust's [Iterator::take_while]. *)
Fixpoint take_while {A} (f : A -> bool) (l : list A) : list A :=
  match l with
  | [] => []
  | x :: l' => if f x then x :: take_while f l' else []
  end.

(** ** Binary search

    [slice::binary_search_by]: [cmp] compares an element with the target.  The
    result is an index of an equal element, or as an error the index where the
    target would be inserted.  Every round shrinks the range, so the length is
    enough fuel. *)
Section binary_search.
Context {A : Type} (cmp : A -> comparison).

Fixpoint binary_search_loop (fuel : nat) (l : list A) (left right : nat) : res nat nat :=
  if (left <? right)%nat then
    match fuel with
    | O => Panic
    | S fuel =>
      let mid := (left + (right - left) / 2)%nat in
      x ← expect (l !! mid);
      match cmp x with
      | Lt => binary_search_loop fuel l (S mid) right
      | Gt => binary_search_loop fuel l left mid
      | Eq => Ok mid
      end
    end
  else Err left.

Definition binary_search_by (l : list A) : res nat nat := binary_search_loop (length l) l 0 (length l).

(** The list is sorted, as far as the target can tell. *)
Definition partitioned (l : list A) : Prop :=
  StronglySorted (fun x y => (cmp y = Lt -> cmp x = Lt) /\ (cmp x = Gt -> cmp y = Gt)) l.

Definition search_outcome (l : list A) (r : res nat nat) : Prop :=
  match r with
  | Ok i => exists x, l !! i = Some x /\ cmp x = Eq
  | Err i => (i <= length l)%nat /\ Forall (fun x => cmp x = Lt) (take i l) /\ Forall (fun x => cmp x = Gt) (drop i l)
  | Panic => False
  end.

Lemma StronglySorted_lookup (R : A -> A -> Prop) l i j x y :
  StronglySorted R l -> (i < j)%nat -> l !! i = Some x -> l !! j = Some y -> R x y.
Proof.
  intros Hs. revert i j. induction Hs as [|z l Hs IH Hz]; intros i j Hij Hi Hj; [done|].
  destruct j as [|j]; [lia|]. simpl in Hj. destruct i as [|i]; simpl in Hi; [|by apply (IH i j); [lia|..]].
  simplify_eq. rewrite Forall_lookup in Hz. eauto.
Qed.

Lemma binary_search_loop_spec fuel l left right :
  partitioned l -> (right - left <= fuel)%nat -> (left <= right <= length l)%nat ->
  Forall (fun x => cmp x = Lt) (take left l) -> Forall (fun x => cmp x = Gt) (drop right l) ->
  search_outcome l (binary_search_loop fuel l left right).
Proof.
  intros Hs. revert left right. induction fuel as [|fuel IH]; intros left right Hf Hb Hlo Hhi; cbn [binary_search_loop];
    destruct (Nat.ltb_spec left right) as [Hlt|Hge]; try lia.
  1,3: replace left with right in * by lia; simpl; split_and!; [lia|done..].
  set (mid := (left + (right - left) / 2)%nat).
  assert (left <= mid < right)%nat as Hm.
  { unfold mid. pose proof (Nat.div_lt (right - left) 2). lia. }
  destruct (lookup_lt_is_Some_2 l mid) as [x Hx]; [lia|]. rewrite Hx. simpl.
  destruct (cmp x) eqn:Hc; [by exists x|apply IH; [lia..| |done]|apply IH; [lia..|done|]];
    apply Forall_lookup; intros i y Hy.
  - apply lookup_take_Some in Hy as [Hy Hi]. destruct (decide (i = mid)) as [->|]; [congruence|].
    by apply (StronglySorted_lookup _ l i mid y x Hs ltac:(lia) Hy Hx).
  - rewrite lookup_drop in Hy. destruct i as [|i]; [rewrite Nat.add_0_r in Hy; congruence|].
    by apply (StronglySorted_lookup _ l mid (mid + S i) x y Hs ltac:(lia) Hx Hy).
Qed.

Lemma binary_search_by_spec l : partitioned l -> search_outcome l (binary_search_by l).
Proof.
  intros Hs. apply binary_search_loop_spec; [done|lia|lia|by rewrite take_0|by rewrite drop_all].
Qed.
End binary_search.

(** [unwrap_or_else(|i| i)] on the result of a search. *)
Definition search_index {E} (r : res nat nat) : res E nat :=
  match r with Ok i => Ok i | Err i => Ok i | Panic => Panic end.

(** ** Default values and destructors *)

(** Rust's [Default]. *)
Class Default (A : Type) : Type := dflt : A.

(** Rust's [Drop]: what happens to the state when a value goes out of scope.
    Plain data does nothing; a pair drops its parts in order. *)
Class Drop (S A : Type) : Type := drop_value : A -> S -> S.

#[export] Instance drop_unit S : Drop S unit := fun _ s => s.
#[export] Instance drop_Z S : Drop S Z := fun _ s => s.
#[export] Instance drop_bool S : Drop S bool := fun _ s => s.
#[export] Instance drop_option S A `{Drop S A} : Drop S (option A) :=
  fun o s => match o with Some a => drop_value a s | None => s end.
#[export] Instance drop_prod S A B `{Drop S A} `{Drop S B} : Drop S (A * B) :=
  fun p s => drop_value p.2 (drop_value p.1 s).

(** Rust's [drop] as a step. *)
Definition drop_ {S E A} `{Drop S A} (a : A) : M S E unit := modify (drop_value a).

(** Running a computation that starts by a binding. *)
Lemma bind_Ok {S E A B} (m : M S E A) (f : A -> M S E B) s s' a : m s = (s', Ok a) -> (m ≫= f) s = f a s'.
Proof. unfold mbind, M_mbind. by intros ->. Qed.

Lemma bind_Err {S E A B} (m : M S E A) (f : A -> M S E B) s s' e : m s = (s', Err e) -> (m ≫= f) s = (s', Err e).
Proof. unfold mbind, M_mbind. by intros ->. Qed.

(** ** Sorted lists *)
Section sorted_lists.
Context {A : Type} (R : A -> A -> Prop).

Lemma StronglySorted_take_drop i l : StronglySorted R l ->
  StronglySorted R (take i l) /\ StronglySorted R (drop i l).
Proof.
  intros Hs. revert i. induction Hs as [|x l Hs IH Hx]; intros [|i]; simpl; (try by repeat constructor).
  destruct (IH i) as [Ht Hd]. split; [|done]. constructor; [done|]. by apply Forall_take.
Qed.

Lemma StronglySorted_insert i x l : StronglySorted R l ->
  Forall (fun y => R y x) (take i l) -> Forall (R x) (drop i l) -> StronglySorted R (take i l ++ x :: drop i l).
Proof.
  intros Hs. revert i. induction Hs as [|y l Hs IH Hy]; intros [|i]; simpl; intros Ht Hd.
  - by repeat constructor.
  - by repeat constructor.
  - by constructor; [constructor|].
  - apply Forall_cons in Ht as [Hyx Ht]. constructor; [by apply IH|]. rewrite <-(take_drop i l) in Hy.
    apply Forall_app in Hy as [Hy1 Hy2]. apply Forall_app. by repeat constructor.
Qed.

Lemma StronglySorted_filter (P : A -> Prop) `{!forall x, Decision (P x)} l :
  StronglySorted R l -> StronglySorted R (filter P l).
Proof.
  induction 1 as [|x l Hs IH Hx]; [constructor|]. rewrite filter_cons. case_decide; [|done].
  constructor; [done|]. apply Forall_forall. intros y [_ Hy]%list_elem_of_filter. rewrite Forall_forall in Hx. auto.
Qed.
End sorted_lists.

Lemma StronglySorted_weaken {A} (R S : A -> A -> Prop) l :
  (forall x y, R x y -> S x y) -> StronglySorted R l -> StronglySorted S l.
Proof. intros HRS. induction 1; constructor; [done|]. eapply Forall_impl; eauto. Qed.

Lemma filter_none {A} (P : A -> Prop) `{!forall x, Decision (P x)} (l : list A) :
  Forall (fun x => ~ P x) l -> filter P l = [].
Proof. induction 1 as [|x l Hx Hl IH]; [done|]. by rewrite filter_cons_False by done. Qed.

(** A list split by a predicate: the first part is as long as the predicate is
    often true, the second part is the rest of the filter. *)
Lemma filter_split {A} (P : A -> Prop) `{!forall x, Decision (P x)} i (l : list A) : (i <= length l)%nat ->
  Forall P (take i l) -> Forall (fun x => ~ P x) (drop i l) ->
  length (filter P l) = i /\ filter (fun x => ~ P x) l = drop i l.
Proof.
  intros Hi Ht Hd. rewrite <-(take_drop i l) at 1 2. rewrite !filter_app. rewrite (filter_id P (take i l)) by done.
  rewrite (filter_id (fun x => ~ P x) (drop i l)) by done. rewrite (filter_none P (drop i l)) by done.
  rewrite (filter_none _ (take i l)) by (eapply Forall_impl; [done|]; naive_solver).
  rewrite app_nil_r, length_take. split; [lia|done].
Qed.

(** On a sorted list the tests that [take_while] stops at are all it misses. *)
Lemma filter_take_while {A} (f : A -> bool) (P : A -> Prop) `{!forall x, Decision (P x)} (l : list A) :
  StronglySorted (fun x y => f x = false -> f y = false) l -> (forall x, P x -> f x = true) ->
  filter P (take_while f l) = filter P l.
Proof.
  intros Hs HP. induction Hs as [|x l Hs IH Hx]; simpl; [done|]. destruct (f x) eqn:Hf.
  - rewrite !filter_cons, IH. done.
  - symmetry. apply filter_none. constructor; [intros Hp%HP; congruence|].
    eapply Forall_impl; [done|]. intros y Hy Hp%HP. rewrite Hy in Hp; done.
Qed.

(** ** What a computation leaves alone

    [keeps f m]: whatever the result, the part [f] of the state is as before.
    The hint database [frame] goes through the structure of a computation; the
    components add the lemmas of their operations. *)
Definition keeps {S B E A} (f : S -> B) (m : M S E A) : Prop := forall s, f (m s).1 = f s.

Create HintDb frame.

Section keeps.
Context {S B E : Type} (f : S -> B).

Lemma keeps_mret {A} (a : A) : keeps f (mret a : M S E A).
Proof. done. Qed.

Lemma keeps_bind {A C} (m : M S E A) (g : A -> M S E C) :
  keeps f m -> (forall a, keeps f (g a)) -> keeps f (m ≫= g).
Proof.
  intros Hm Hg s. specialize (Hm s). unfold mbind, M_mbind. destruct (m s) as [s' [a|e|]]; simpl in *; [|done..].
  by rewrite Hg.
Qed.

Lemma keeps_gets {A} (g : S -> A) : keeps f (gets (E := E) g).
Proof. done. Qed.

Lemma keeps_lift {A} (r : res E A) : keeps f (lift r).
Proof. done. Qed.

Lemma keeps_throw {A} (e : E) : keeps f (throw (A := A) e).
Proof. done. Qed.

Lemma keeps_modify (g : S -> S) : (forall s, f (g s) = f s) -> keeps f (modify (E := E) g).
Proof. intros Hg s. apply Hg. Qed.

Lemma keeps_catch {E' A C} (m : M S E' A) (g : A -> M S E C) (h : E' -> M S E C) :
  keeps f m -> (forall a, keeps f (g a)) -> (forall e, keeps f (h e)) -> keeps f (catch m g h).
Proof.
  intros Hm Hg Hh s. specialize (Hm s). unfold catch. destruct (m s) as [s' [a|e|]]; simpl in *; [by rewrite Hg|by rewrite Hh|done].
Qed.
End keeps.

(** Decides [keeps] goals by the shape of the computation. *)
Ltac frame_step :=
  match goal with
  | |- forall _, _ => intro
  | |- keeps _ (let '(_, _) := ?p in _) => destruct p
  | |- keeps _ (match ?x with _ => _ end) => destruct x
  | |- keeps _ (mret _) => apply keeps_mret
  | |- keeps _ (gets _) => apply keeps_gets
  | |- keeps _ (lift _) => apply keeps_lift
  | |- keeps _ (throw _) => apply keeps_throw
  | |- keeps _ (_ ≫= _) => apply keeps_bind
  | |- keeps _ (catch _ _ _) => apply keeps_catch
  | |- keeps _ _ => solve [auto with frame nocore]
  end.
Ltac frame := repeat frame_step.

(** ** Iteration of hash sets *)

(** The order in which a hash set, or the keys of a hash map, are iterated. *)
Class HashOrder (K : Type) `{Countable K} : Type := {
  hash_iter : gset K -> list K;
  hash_iter_perm X : hash_iter X ≡ₚ elements X }.

Definition hash_values {K V} `{HashOrder K} (m : gmap K V) : list V := omap (fun k => m !! k) (hash_iter (dom m)).

Section hash_order.
Context {K : Type} `{HashOrder K}.
Implicit Types X : gset K.

Lemma elem_of_hash_iter x X : x ∈ hash_iter X <-> x ∈ X.
Proof. by rewrite hash_iter_perm, elem_of_elements. Qed.

Lemma NoDup_hash_iter X : NoDup (hash_iter X).
Proof. rewrite hash_iter_perm. apply NoDup_elements. Qed.

Lemma elem_of_hash_values {V} (m : gmap K V) v : v ∈ hash_values m <-> exists k, m !! k = Some v.
Proof.
  unfold hash_values. rewrite list_elem_of_omap. split; [intros (k & _ & Hk); eauto|]. intros [k Hk].
  exists k. split; [|done]. apply elem_of_hash_iter, elem_of_dom. eauto.
Qed.
End hash_order.
