(* ===== verification/Changeset.v ===== *)
(** * The transactional storage overlay

    Model of [primitives/state-machine/src/overlayed_changes/changeset.rs]
    ([OverlayedEntry], [OverlayedMap], [OverlayedChangeSet]) and of the
    [Extrinsics] list of [overlayed_changes/mod.rs]: the versions of each
    value, the dirty keys of each open transaction, nested commit and
    rollback, and the protection of client transactions from the runtime.

    The [SmallVec] stacks ([transactions], [dirty_keys]) are lists with the
    last pushed item first.  A hash set of dirty keys is a [gset]; the loop of
    [close_transaction] visits it in the order of [elements]. *)

From Stdlib Require Import ZArith Lia.
From stdpp Require Import gmap option list.
From S2P Require Import Prelude.

Local Open Scope nat_scope.

Inductive NoOpenTransaction : Type := no_open_transaction.
Inductive AlreadyInRuntime : Type := already_in_runtime.
Inductive NotInRuntime : Type := not_in_runtime.

Inductive ExecutionMode : Type := Client | Runtime.

#[export] Instance ExecutionMode_eq_dec : EqDecision ExecutionMode.
Proof. solve_decision. Defined.

(** [Extrinsics(Vec<u32>)], in the order of the vector. *)
Definition Extrinsics : Type := list Z.

Definition Extrinsics_insert (self : Extrinsics) (ext : Z) : Extrinsics :=
  if decide (last self = Some ext) then self else self ++ [ext].

Definition Extrinsics_extend (self other : Extrinsics) : Extrinsics := self ++ other.

Definition copy_extrinsics_into (self : Extrinsics) (dest : gset Z) : gset Z :=
  dest ∪ list_to_set self.

Section entry.
Context {V : Type}.

Record InnerValue : Type := mkInner { value : V; extrinsics : Extrinsics }.

Record OverlayedEntry : Type := mkEntry { transactions : list InnerValue }.

Definition entry_default : OverlayedEntry := mkEntry [].

Definition value_ref {E} (self : OverlayedEntry) : res E V :=
  expect (value <$> head (transactions self)).

Definition entry_extrinsics (self : OverlayedEntry) : gset Z :=
  foldl (fun set t => copy_extrinsics_into (extrinsics t) set) ∅ (rev (transactions self)).

Definition pop_transaction {E} (self : OverlayedEntry) : res E (InnerValue * OverlayedEntry) :=
  match transactions self with
  | t :: ts => Ok (t, mkEntry ts)
  | [] => Panic
  end.

Definition into_value {E} (self : OverlayedEntry) : res E V :=
  p ← pop_transaction self; Ok (value p.1).

(** [*self.value_mut() = v] *)
Definition write_value_mut {E} (self : OverlayedEntry) (v : V) : res E OverlayedEntry :=
  match transactions self with
  | t :: ts => Ok (mkEntry (mkInner v (extrinsics t) :: ts))
  | [] => Panic
  end.

(** A change through [self.transaction_extrinsics_mut()]. *)
Definition with_transaction_extrinsics_mut {E} (self : OverlayedEntry)
    (f : Extrinsics -> Extrinsics) : res E OverlayedEntry :=
  match transactions self with
  | t :: ts => Ok (mkEntry (mkInner (value t) (f (extrinsics t)) :: ts))
  | [] => Panic
  end.

Definition entry_set {E} (self : OverlayedEntry) (v : V) (first_write_in_tx : bool)
    (at_extrinsic : option Z) : res E OverlayedEntry :=
  self1 ← (if first_write_in_tx || bool_decide (transactions self = [])
           then Ok (mkEntry (mkInner v [] :: transactions self))
           else write_value_mut self v);
  match at_extrinsic with
  | Some extrinsic => with_transaction_extrinsics_mut self1 (fun l => Extrinsics_insert l extrinsic)
  | None => Ok self1
  end.
End entry.

Arguments InnerValue V : clear implicits.
Arguments OverlayedEntry V : clear implicits.

Section overlayed_map.
Context {K V : Type} `{Countable K}.

Definition DirtyKeysSets : Type := list (gset K).

Record OverlayedMap : Type := mkMap {
  changes : gmap K (OverlayedEntry V);
  dirty_keys : DirtyKeysSets;
  num_client_transactions : nat;
  execution_mode : ExecutionMode }.

Definition map_default : OverlayedMap := mkMap ∅ [] 0 Client.

Definition with_changes (f : gmap K (OverlayedEntry V) -> gmap K (OverlayedEntry V))
    (m : OverlayedMap) : OverlayedMap :=
  mkMap (f (changes m)) (dirty_keys m) (num_client_transactions m) (execution_mode m).

Definition with_dirty_keys (f : DirtyKeysSets -> DirtyKeysSets) (m : OverlayedMap) : OverlayedMap :=
  mkMap (changes m) (f (dirty_keys m)) (num_client_transactions m) (execution_mode m).

Definition insert_dirty (set : DirtyKeysSets) (key : K) : DirtyKeysSets * bool :=
  match set with
  | dk :: rest => (({[key]} ∪ dk) :: rest, bool_decide (key ∉ dk))
  | [] => ([], false)
  end.

Definition transaction_depth (self : OverlayedMap) : nat := length (dirty_keys self).

Definition spawn_child (self : OverlayedMap) : OverlayedMap :=
  mkMap ∅ (replicate (transaction_depth self) ∅)
    (num_client_transactions self) (execution_mode self).

Definition is_empty (self : OverlayedMap) : bool := bool_decide (changes self = ∅).

Definition map_get (self : OverlayedMap) (key : K) : option (OverlayedEntry V) :=
  changes self !! key.

Definition map_set {E} (key : K) (v : V) (at_extrinsic : option Z) : M OverlayedMap E unit :=
  fun self =>
    let overlayed := default entry_default (changes self !! key) in
    let '(dk, first_write_in_tx) := insert_dirty (dirty_keys self) key in
    match entry_set overlayed v first_write_in_tx at_extrinsic with
    | Ok e => (with_changes <[key := e]> (with_dirty_keys (fun _ => dk) self), Ok tt)
    | Err err => (self, Err err)
    | Panic => (self, Panic)
    end.

Definition drain_commited {E} (self : OverlayedMap) : res E (list (K * V)) :=
  _ ← assert_ (bool_decide (transaction_depth self = 0));
  foldr (fun kv acc =>
           p ← pop_transaction kv.2;
           rest ← acc;
           Ok ((kv.1, value p.1) :: rest)) (Ok []) (map_to_list (changes self)).

Definition has_open_runtime_transactions (self : OverlayedMap) : bool :=
  bool_decide (num_client_transactions self < transaction_depth self).

Definition enter_runtime : M OverlayedMap AlreadyInRuntime unit :=
  fun self =>
    match execution_mode self with
    | Runtime => (self, Err already_in_runtime)
    | Client => (mkMap (changes self) (dirty_keys self) (transaction_depth self) Runtime, Ok tt)
    end.

Definition start_transaction {E} : M OverlayedMap E unit :=
  modify (with_dirty_keys (fun dk => ∅ :: dk)).

(** The body of the loop of [close_transaction], for one dirty [key]. *)
Definition close_key {E} (rollback : bool) (key : K) : M OverlayedMap E unit :=
  fun self =>
    match changes self !! key with
    | None => (self, Panic)
    | Some overlayed =>
      if rollback then
        match pop_transaction overlayed with
        | Ok (_, e) =>
          if decide (transactions e = [])
          then (with_changes (delete key) self, Ok tt)
          else (with_changes <[key := e]> self, Ok tt)
        | Err err => (self, Err err)
        | Panic => (self, Panic)
        end
      else
        let '(dk, has_predecessor) :=
          match dirty_keys self with
          | d :: rest => (({[key]} ∪ d) :: rest, bool_decide (key ∈ d))
          | [] => ([], bool_decide (1 < length (transactions overlayed)))
          end in
        let self1 := with_dirty_keys (fun _ => dk) self in
        if has_predecessor then
          match (p ← pop_transaction overlayed;
                 e1 ← write_value_mut p.2 (value p.1);
                 with_transaction_extrinsics_mut e1
                   (fun l => Extrinsics_extend l (extrinsics p.1))) with
          | Ok e => (with_changes <[key := e]> self1, Ok tt)
          | Err err => (self1, Err err)
          | Panic => (self1, Panic)
          end
        else (self1, Ok tt)
    end.

Definition close_transaction (rollback : bool) : M OverlayedMap NoOpenTransaction unit :=
  fun self =>
    if bool_decide (execution_mode self = Runtime) && negb (has_open_runtime_transactions self)
    then (self, Err no_open_transaction)
    else match dirty_keys self with
         | [] => (self, Err no_open_transaction)
         | d :: rest =>
           for_each (close_key rollback) (elements d) (with_dirty_keys (fun _ => rest) self)
         end.

Definition rollback_transaction : M OverlayedMap NoOpenTransaction unit := close_transaction true.
Definition commit_transaction : M OverlayedMap NoOpenTransaction unit := close_transaction false.

(** The [while] loop of [exit_runtime]; the fuel is the number of open
    transactions, of which every iteration closes one. *)
Fixpoint rollback_runtime_transactions {E} (fuel : nat) : M OverlayedMap E unit :=
  fun self =>
    if has_open_runtime_transactions self then
      match fuel with
      | 0 => (self, Panic)
      | S fuel' =>
        catch rollback_transaction
          (fun _ => rollback_runtime_transactions fuel')
          (fun _ => lift Panic) self
      end
    else (self, Ok tt).

Definition exit_runtime : M OverlayedMap NotInRuntime unit :=
  fun self =>
    match execution_mode self with
    | Client => (self, Err not_in_runtime)
    | Runtime =>
      rollback_runtime_transactions (transaction_depth self)
        (mkMap (changes self) (dirty_keys self) (num_client_transactions self) Client)
    end.
End overlayed_map.

Arguments OverlayedMap K V {_ _}.

(** [OverlayedChangeSet = OverlayedMap<StorageKey, Option<StorageValue>>] *)
Section overlayed_change_set.
Context {StorageKey StorageValue : Type} `{Countable StorageKey}.

(** [modify] returns a mutable reference to the current value, through which
    the caller writes: the caller's write is the argument [f]. *)
Definition map_modify {E} (key : StorageKey) (init : StorageValue) (at_extrinsic : option Z)
    (f : option StorageValue -> option StorageValue) :
    M (OverlayedMap StorageKey (option StorageValue)) E unit :=
  fun self =>
    let overlayed := default entry_default (changes self !! key) in
    let '(dk, first_write_in_tx) := insert_dirty (dirty_keys self) key in
    let clone_into_new_tx :=
      match head (transactions overlayed) with
      | Some tx => if first_write_in_tx then Some (value tx) else None
      | None => Some (Some init)
      end in
    match (e ← (match clone_into_new_tx with
                | Some cloned => entry_set overlayed cloned first_write_in_tx at_extrinsic
                | None => Ok overlayed
                end);
           v ← value_ref e;
           write_value_mut e (f v)) with
    | Ok e => (with_changes <[key := e]> (with_dirty_keys (fun _ => dk) self), Ok tt)
    | Err err => (self, Err err)
    | Panic => (self, Panic)
    end.

Definition clear_where {E} (predicate : StorageKey -> OverlayedEntry (option StorageValue) -> bool)
    (at_extrinsic : option Z) : M (OverlayedMap StorageKey (option StorageValue)) E unit :=
  fun self =>
    for_each (fun key => map_set key None at_extrinsic)
      (fst <$> filter (fun kv => predicate kv.1 kv.2 = true) (map_to_list (changes self))) self.
End overlayed_change_set.

(** ** Invariant *)
Section invariant.
Context {K V : Type} `{Countable K}.
Implicit Types (m : OverlayedMap K V) (k : K) (d : gset K).

(** In how many of the transactions [ds] the key was written. *)
Fixpoint dirty_count (k : K) (ds : list (gset K)) : nat :=
  match ds with
  | [] => 0
  | d :: ds' => (if decide (k ∈ d) then 1 else 0) + dirty_count k ds'
  end.

(** An entry holds one version per open transaction that wrote the key, and
    possibly one committed version below them; a key without an entry is
    dirty in no transaction. *)
Definition key_wf (oe : option (OverlayedEntry V)) (n : nat) : Prop :=
  match oe with
  | None => n = 0
  | Some e => 1 <= length (transactions e) /\ n <= length (transactions e) <= S n
  end.

Definition wf m : Prop := forall k, key_wf (changes m !! k) (dirty_count k (dirty_keys m)).

(** The view of the storage overlay after rolling back the [j] innermost
    open transactions. *)
Definition snapshot (j : nat) m : gmap K V :=
  map_imap (fun k e => value <$> (transactions e !! dirty_count k (take j (dirty_keys m))))
    (changes m).

Lemma lookup_snapshot j m k :
  snapshot j m !! k =
    e ← changes m !! k; value <$> (transactions e !! dirty_count k (take j (dirty_keys m))).
Proof. unfold snapshot. by rewrite map_lookup_imap. Qed.

Lemma dirty_count_take j k ds : dirty_count k (take j ds) <= dirty_count k ds.
Proof. revert j. induction ds as [|d ds IH]; intros [|j]; simpl; [lia..|]. specialize (IH j). lia. Qed.

Lemma wf_default : wf map_default.
Proof. intros k. done. Qed.
End invariant.

(** ** What one pass over the dirty keys does *)
Section close_loop.
Context {K V : Type} `{Countable K}.
Implicit Types (m : OverlayedMap K V) (k : K) (d : gset K) (l : list K).

Definition drop_top (e : OverlayedEntry V) : option (OverlayedEntry V) :=
  match transactions e with
  | _ :: t :: ts => Some (mkEntry (t :: ts))
  | _ => None
  end.

Definition merge_top (e : OverlayedEntry V) : OverlayedEntry V :=
  match transactions e with
  | t1 :: t2 :: ts => mkEntry (mkInner (value t1) (extrinsics t2 ++ extrinsics t1) :: ts)
  | ts => mkEntry ts
  end.

Lemma rollback_key_spec {E} m k e :
  changes m !! k = Some e -> transactions e <> [] ->
  close_key (E := E) true k m
    = (with_changes (partial_alter (fun _ => drop_top e) k) m, Ok tt).
Proof.
  intros Hk Hne. unfold close_key, pop_transaction, drop_top. rewrite Hk.
  destruct (transactions e) as [|t [|t2 ts]]; [done|..]; by case_decide.
Qed.

Lemma rollback_loop_spec {E} l m :
  NoDup l ->
  (forall k, k ∈ l -> exists e, changes m !! k = Some e /\ transactions e <> []) ->
  exists ch,
    for_each (close_key (E := E) true) l m = (with_changes (fun _ => ch) m, Ok tt) /\
    forall k, ch !! k = if decide (k ∈ l) then changes m !! k ≫= drop_top else changes m !! k.
Proof.
  revert m. induction l as [|k l IH]; intros m Hnd Hin.
  { exists (changes m). split; [by destruct m|]. intros k. by rewrite decide_False by set_solver. }
  apply NoDup_cons in Hnd as [Hk Hnd].
  destruct (Hin k ltac:(left)) as (e & He & Hne).
  destruct (IH (with_changes (partial_alter (fun _ => drop_top e) k) m)) as (ch & Hrun & Hch).
  - done.
  - intros k' Hk'. destruct (Hin k' ltac:(by right)) as (e' & ? & ?). exists e'.
    simpl. rewrite lookup_partial_alter_ne by (intros ->; done). done.
  - exists ch. split.
    + cbn [for_each]. unfold mbind, M_mbind. by rewrite (rollback_key_spec _ _ _ He Hne).
    + intros k'. rewrite Hch. simpl. destruct (decide (k' = k)) as [->|Hne'].
      * rewrite lookup_partial_alter_eq, decide_False, decide_True, He by set_solver. done.
      * rewrite lookup_partial_alter_ne by done.
        destruct (decide (k' ∈ l)); [rewrite decide_True by set_solver; done|].
        rewrite decide_False by set_solver. done.
Qed.

Definition has_predecessor (ds : list (gset K)) k (e : OverlayedEntry V) : bool :=
  match ds with
  | d :: _ => bool_decide (k ∈ d)
  | [] => bool_decide (1 < length (transactions e))
  end.

Definition add_dirty (l : list K) (ds : list (gset K)) : list (gset K) :=
  match ds with d :: r => (list_to_set l ∪ d) :: r | [] => [] end.

Lemma commit_key_spec {E} m k e :
  changes m !! k = Some e ->
  (has_predecessor (dirty_keys m) k e = true -> 2 <= length (transactions e)) ->
  close_key (E := E) false k m =
    (mkMap (if has_predecessor (dirty_keys m) k e then <[k := merge_top e]> (changes m) else changes m)
       (add_dirty [k] (dirty_keys m)) (num_client_transactions m) (execution_mode m), Ok tt).
Proof.
  intros Hk Hlen. unfold close_key, merge_top, has_predecessor in *. rewrite Hk.
  destruct (dirty_keys m) as [|d r] eqn:Hd; simpl in *.
  - case_bool_decide as Hb; [|done].
    unfold pop_transaction. destruct (transactions e) as [|t1 [|t2 ts]]; simpl in *; [lia..|].
    done.
  - rewrite (right_id_L ∅ (∪) {[k]}).
    case_bool_decide as Hb; [|done]. specialize (Hlen eq_refl).
    unfold pop_transaction. destruct (transactions e) as [|t1 [|t2 ts]]; simpl in *; [lia..|].
    done.
Qed.

Lemma commit_loop_spec {E} l m :
  NoDup l ->
  (forall k, k ∈ l -> exists e, changes m !! k = Some e /\
     (has_predecessor (dirty_keys m) k e = true -> 2 <= length (transactions e))) ->
  exists ch,
    for_each (close_key (E := E) false) l m =
      (mkMap ch (add_dirty l (dirty_keys m)) (num_client_transactions m) (execution_mode m), Ok tt) /\
    forall k, ch !! k =
      if decide (k ∈ l)
      then (fun e => if has_predecessor (dirty_keys m) k e then merge_top e else e) <$> changes m !! k
      else changes m !! k.
Proof.
  revert m. induction l as [|k l IH]; intros m Hnd Hin.
  { exists (changes m). split.
    - destruct m as [? [|d r] ? ?]; simpl; [done|]. by rewrite (left_id_L ∅ (∪)).
    - intros k. by rewrite decide_False by set_solver. }
  apply NoDup_cons in Hnd as [Hk Hnd].
  destruct (Hin k ltac:(left)) as (e & He & Hlen).
  pose proof (commit_key_spec (E := E) _ _ _ He Hlen) as Hstep.
  set (m1 := mkMap _ _ _ _) in Hstep.
  assert (Hpred : forall k' e', k' ∈ l ->
            has_predecessor (dirty_keys m1) k' e' = has_predecessor (dirty_keys m) k' e').
  { intros k' e' Hk'. unfold m1, has_predecessor; simpl. destruct (dirty_keys m) as [|d r]; [done|].
    simpl. apply bool_decide_ext. set_solver. }
  assert (Hch1 : forall k', k' <> k -> changes m1 !! k' = changes m !! k').
  { intros k' ?. unfold m1; simpl. case_match; [by rewrite lookup_insert_ne|done]. }
  destruct (IH m1) as (ch & Hrun & Hch).
  - done.
  - intros k' Hk'. destruct (Hin k' ltac:(by right)) as (e' & He' & Hl'). exists e'.
    rewrite Hch1 by (intros ->; done). rewrite Hpred by done. done.
  - exists ch. split.
    + cbn [for_each]. unfold mbind, M_mbind. rewrite Hstep, Hrun. f_equal. f_equal.
      unfold m1; simpl. destruct (dirty_keys m) as [|d r]; [done|]. simpl. f_equal. set_solver.
    + intros k'. rewrite Hch. destruct (decide (k' = k)) as [->|Hne].
      * rewrite decide_False, decide_True, He by set_solver. unfold m1; simpl.
        case_match; [by rewrite lookup_insert_eq|done].
      * rewrite Hch1 by done. destruct (decide (k' ∈ l)).
        -- rewrite decide_True by set_solver.
           destruct (changes m !! k') as [e'|]; [|done]. simpl. by rewrite Hpred.
        -- by rewrite decide_False by set_solver.
Qed.
End close_loop.

(** ** Abstract specification: a stack of storage views

    The head of [views] is the current view; below it, for every open
    transaction, the view to return to on rollback. *)
Section refinement.
Context {K V : Type} `{Countable K}.
Implicit Types (m : OverlayedMap K V) (k : K) (d : gset K) (v : V).

Record spec_state : Type := mkSpec {
  views : list (gmap K V);
  client_depth : nat;
  spec_mode : ExecutionMode }.

Inductive op : Type :=
| OpSet (k : K) (v : V) (at_extrinsic : option Z)
| OpStart
| OpRollback
| OpCommit
| OpEnterRuntime
| OpExitRuntime.

Definition spec_depth (s : spec_state) : nat := pred (length (views s)).

(** The runtime may close only the transactions it opened. *)
Definition spec_may_close (s : spec_state) : bool :=
  match spec_mode s with
  | Runtime => bool_decide (client_depth s < spec_depth s)
  | Client => true
  end.

Definition spec_op (o : op) (s : spec_state) : spec_state * bool :=
  let keep vs := mkSpec vs (client_depth s) (spec_mode s) in
  match o, views s with
  | OpSet k v _, cur :: rest => (keep (<[k := v]> cur :: rest), true)
  | OpStart, cur :: rest => (keep (cur :: cur :: rest), true)
  | OpRollback, cur :: old :: rest =>
      if spec_may_close s then (keep (old :: rest), true) else (s, false)
  | OpCommit, cur :: old :: rest =>
      if spec_may_close s then (keep (cur :: rest), true) else (s, false)
  | OpEnterRuntime, vs =>
      match spec_mode s with
      | Runtime => (s, false)
      | Client => (mkSpec vs (spec_depth s) Runtime, true)
      end
  | OpExitRuntime, vs =>
      match spec_mode s with
      | Client => (s, false)
      | Runtime => (mkSpec (drop (spec_depth s - client_depth s) vs) (client_depth s) Client, true)
      end
  | _, _ => (s, false)
  end.

Definition abs m : spec_state :=
  mkSpec ((fun j => snapshot j m) <$> seq 0 (S (transaction_depth m)))
    (num_client_transactions m) (execution_mode m).

(** One operation of the overlay; the error values carry no data. *)
Definition run_op (o : op) : M (OverlayedMap K V) unit unit :=
  let discard {E} (c : M (OverlayedMap K V) E unit) :=
    catch c (fun _ => mret tt) (fun _ => throw tt) in
  match o with
  | OpSet k v ext => map_set k v ext
  | OpStart => start_transaction
  | OpRollback => discard rollback_transaction
  | OpCommit => discard commit_transaction
  | OpEnterRuntime => discard enter_runtime
  | OpExitRuntime => discard exit_runtime
  end.

Fixpoint run_ops (os : list op) m : OverlayedMap K V * list (res unit unit) :=
  match os with
  | [] => (m, [])
  | o :: os' => let '(m1, r) := run_op o m in
                let '(m2, rs) := run_ops os' m1 in (m2, r :: rs)
  end.

Fixpoint spec_ops (os : list op) (s : spec_state) : spec_state * list bool :=
  match os with
  | [] => (s, [])
  | o :: os' => let '(s1, r) := spec_op o s in
                let '(s2, rs) := spec_ops os' s1 in (s2, r :: rs)
  end.

Lemma spec_depth_abs m : spec_depth (abs m) = transaction_depth m.
Proof. unfold spec_depth, abs; simpl. by rewrite length_fmap, length_seq. Qed.

(** The views of two overlays agree level by level. *)
Lemma abs_views_ext m m' f g n :
  (forall j, snapshot (f j) m = snapshot (g j) m') ->
  (fun j => snapshot (f j) m) <$> seq 0 n = (fun j => snapshot (g j) m') <$> seq 0 n.
Proof. intros Heq. apply list_fmap_ext. intros i j _. apply Heq. Qed.

Lemma entry_set_spec {E} (e : OverlayedEntry V) v first ext :
  exists t ts, entry_set (E := E) e v first ext = Ok (mkEntry (t :: ts)) /\ value t = v /\
    ts = (if first || bool_decide (transactions e = []) then transactions e
          else tail (transactions e)).
Proof.
  unfold entry_set, write_value_mut.
  destruct (first || bool_decide (transactions e = [])) eqn:Hf; simpl.
  - destruct ext; eexists _, _; split_and!; done.
  - apply orb_false_iff in Hf as [_ Hf]. apply bool_decide_eq_false in Hf.
    destruct (transactions e) as [|t ts]; [done|]. simpl.
    destruct ext; eexists _, _; split_and!; done.
Qed.

Lemma insert_dirty_count_ne ds k k' j : k' <> k ->
  dirty_count k' (take j (insert_dirty ds k).1) = dirty_count k' (take j ds).
Proof.
  intros Hne. destruct ds as [|d r]; [done|]. destruct j as [|j]; [done|]. simpl.
  rewrite (decide_ext (k' ∈ {[k]} ∪ d) (k' ∈ d)) by set_solver. done.
Qed.

Lemma length_insert_dirty ds k : length (insert_dirty ds k).1 = length ds.
Proof. by destruct ds. Qed.

Lemma tail_lookup {A} (l : list A) i : tail l !! i = l !! S i.
Proof. by destruct l. Qed.

(** A new version of the value of [k]: pushed when the key is first written in
    the innermost transaction, replacing the current version otherwise. *)
Lemma write_entry_refines m k v t ts dk first :
  wf m ->
  insert_dirty (dirty_keys m) k = (dk, first) ->
  let e0 := default entry_default (changes m !! k) in
  value t = v ->
  ts = (if first || bool_decide (transactions e0 = []) then transactions e0
        else tail (transactions e0)) ->
  let m' := with_changes <[k := mkEntry (t :: ts)]> (with_dirty_keys (fun _ => dk) m) in
  wf m' /\ abs m' = (spec_op (OpSet k v None) (abs m)).1.
Proof.
  intros Hwf Hid e0 Ht Hts m'.
  pose proof (Hwf k) as Hwfk.
  assert (Hne : forall k' j, k' <> k -> dirty_count k' (take j dk) = dirty_count k' (take j (dirty_keys m))).
  { intros k' j ?. replace dk with (insert_dirty (dirty_keys m) k).1 by (by rewrite Hid).
    by apply insert_dirty_count_ne. }
  assert (Hlen : length dk = length (dirty_keys m)).
  { rewrite <-(length_insert_dirty (dirty_keys m) k), Hid. done. }
  (* the levels below the current one are kept *)
  assert (Hk : forall d r j, dirty_keys m = d :: r ->
     ts !! dirty_count k (take j r) =
       transactions e0 !! dirty_count k (take (S j) (dirty_keys m))).
  { intros d r j Hd. rewrite Hd in Hid, Hwfk |- *. simpl in Hid. simplify_eq. simpl.
    case_bool_decide as Hb; simpl.
    - by rewrite decide_False.
    - rewrite decide_True by done. unfold key_wf in Hwfk.
      simpl in Hwfk. rewrite decide_True in Hwfk by done. subst e0.
      destruct (changes m !! k) as [e|]; [|lia]. simpl.
      rewrite bool_decide_false by (intros Heq; rewrite Heq in Hwfk; simpl in Hwfk; lia).
      by rewrite tail_lookup. }
  split.
  - intros k'. simpl. destruct (decide (k' = k)) as [->|Hn].
    + rewrite lookup_insert_eq. simpl. unfold key_wf in Hwfk.
      destruct (dirty_keys m) as [|d r] eqn:Hd; simpl in Hid; simplify_eq; simpl in *.
      * subst e0. destruct (changes m !! k) as [e|]; simpl in *; [|lia].
        case_bool_decide as Hb; [rewrite Hb in *; simpl; lia|].
        destruct (transactions e) as [|? ?]; simpl in *; [done|lia].
      * rewrite decide_True by set_solver. subst e0. case_bool_decide as Hb; simpl.
        -- rewrite decide_False in Hwfk by done. destruct (changes m !! k) as [e|]; simpl in *; lia.
        -- rewrite decide_True in Hwfk by done.
           destruct (changes m !! k) as [e|]; simpl in *; [|lia].
           case_bool_decide as He; [rewrite He in *; simpl in *; lia|].
           destruct (transactions e) as [|? ?]; simpl in *; [done|lia].
    + rewrite lookup_insert_ne by done. specialize (Hwf k').
      specialize (Hne k' (length dk) Hn). rewrite firstn_all in Hne. rewrite Hne, Hlen, firstn_all. done.
  - unfold abs, transaction_depth; simpl. rewrite Hlen. f_equal. f_equal.
    + apply map_eq. intros k'. rewrite lookup_snapshot. simpl.
      destruct (decide (k' = k)) as [->|Hn].
      * rewrite !lookup_insert_eq. simpl. by rewrite Ht.
      * rewrite !lookup_insert_ne by done. by rewrite lookup_snapshot.
    + rewrite <-!fmap_S_seq, <-!list_fmap_compose. apply list_fmap_ext. intros i j Hi; simpl.
      apply lookup_seq in Hi as [-> Hi]. simpl. apply map_eq. intros k'. rewrite !lookup_snapshot. simpl.
      destruct (decide (k' = k)) as [->|Hn].
      * rewrite lookup_insert_eq. simpl.
        destruct (dirty_keys m) as [|d r] eqn:Hd; [simpl in Hi; lia|].
        simpl in Hid. simplify_eq. simpl. rewrite decide_True by set_solver. simpl.
        rewrite (Hk d r i eq_refl). subst e0. destruct (changes m !! k) as [e|]; simpl; [done|].
        by destruct (decide (k ∈ d)), (dirty_count k (take i r)).
      * rewrite lookup_insert_ne by done. by rewrite Hne.
Qed.

Lemma map_set_refines {E} m k v ext :
  wf m ->
  exists m', map_set (E := E) k v ext m = (m', Ok tt) /\ wf m' /\
    abs m' = (spec_op (OpSet k v ext) (abs m)).1.
Proof.
  intros Hwf. unfold map_set.
  destruct (insert_dirty (dirty_keys m) k) as [dk first] eqn:Hid.
  destruct (entry_set_spec (E := E) (default entry_default (changes m !! k)) v first ext)
    as (t & ts & -> & Ht & Hts).
  eexists. split; [done|]. by apply (write_entry_refines m k v t ts dk first).
Qed.

Lemma wf_dirty_entry m d r k :
  wf m -> dirty_keys m = d :: r -> k ∈ d ->
  exists e, changes m !! k = Some e /\ transactions e <> [].
Proof.
  intros Hwf Hd Hk. specialize (Hwf k). rewrite Hd in Hwf. simpl in Hwf.
  rewrite decide_True in Hwf by done. unfold key_wf in Hwf.
  destruct (changes m !! k) as [e|]; [|lia]. exists e. split; [done|].
  intros He. rewrite He in Hwf. simpl in Hwf. lia.
Qed.

(** Rolling back pops the innermost level. *)
Lemma rollback_refines m d r :
  wf m -> dirty_keys m = d :: r ->
  (execution_mode m = Runtime -> has_open_runtime_transactions m = true) ->
  exists m', close_transaction true m = (m', Ok tt) /\ wf m' /\
    dirty_keys m' = r /\ num_client_transactions m' = num_client_transactions m /\
    execution_mode m' = execution_mode m /\
    (forall j, snapshot j m' = snapshot (S j) m).
Proof.
  intros Hwf Hd Hmode. unfold close_transaction.
  replace (_ && _) with false.
  2: { symmetry. apply andb_false_iff. destruct (execution_mode m); [by left|].
       right. by rewrite Hmode. }
  rewrite Hd.
  destruct (rollback_loop_spec (E := NoOpenTransaction) (elements d)
              (with_dirty_keys (fun _ => r) m)) as (ch & -> & Hch).
  { apply NoDup_elements. }
  { intros k Hk. apply elem_of_elements in Hk. exact (wf_dirty_entry m d r k Hwf Hd Hk). }
  eexists. split; [done|]. simpl in Hch |- *.
  assert (Hch' : forall k, ch !! k = if decide (k ∈ d) then changes m !! k ≫= drop_top else changes m !! k).
  { intros k. rewrite Hch. by rewrite (decide_ext (k ∈ elements d) (k ∈ d)) by apply elem_of_elements. }
  clear Hch. split_and!; try done.
  - intros k. simpl. rewrite Hch'. specialize (Hwf k). rewrite Hd in Hwf. simpl in Hwf.
    destruct (decide (k ∈ d)) as [Hkd|Hkd]; [|done]. unfold key_wf, drop_top in *.
    destruct (changes m !! k) as [e|]; simpl; [|lia].
    destruct (transactions e) as [|? [|? ?]]; simpl in *; lia.
  - intros j. apply map_eq. intros k. rewrite !lookup_snapshot. simpl. rewrite Hch', Hd. simpl.
    destruct (decide (k ∈ d)) as [Hkd|Hkd]; [|done].
    destruct (changes m !! k) as [e|]; [|done]. simpl. unfold drop_top.
    destruct (transactions e) as [|? [|? ?]]; simpl; by rewrite ?lookup_nil.
Qed.

(** Committing drops the level below the innermost one. *)
Lemma commit_refines m d r :
  wf m -> dirty_keys m = d :: r ->
  (execution_mode m = Runtime -> has_open_runtime_transactions m = true) ->
  exists m', close_transaction false m = (m', Ok tt) /\ wf m' /\
    length (dirty_keys m') = length r /\ num_client_transactions m' = num_client_transactions m /\
    execution_mode m' = execution_mode m /\
    snapshot 0 m' = snapshot 0 m /\
    (forall j, j < length r -> snapshot (S j) m' = snapshot (S (S j)) m).
Proof.
  intros Hwf Hd Hmode. unfold close_transaction.
  replace (_ && _) with false.
  2: { symmetry. apply andb_false_iff. destruct (execution_mode m); [by left|].
       right. by rewrite Hmode. }
  rewrite Hd.
  destruct (commit_loop_spec (E := NoOpenTransaction) (elements d)
              (with_dirty_keys (fun _ => r) m)) as (ch & -> & Hch).
  { apply NoDup_elements. }
  { intros k Hk. apply elem_of_elements in Hk.
    destruct (wf_dirty_entry m d r k) as (e & He & _); [done..|]. exists e. split; [done|].
    specialize (Hwf k). rewrite He, Hd in Hwf. simpl in Hwf. rewrite decide_True in Hwf by done.
    simpl. unfold has_predecessor. destruct r as [|d2 r2]; simpl in *.
    - by intros ?%bool_decide_eq_true.
    - intros ?%bool_decide_eq_true. rewrite decide_True in Hwf by done. lia. }
  eexists. split; [done|]. simpl in Hch |- *.
  assert (Hch' : forall k, ch !! k =
     if decide (k ∈ d) then (fun e => if has_predecessor r k e then merge_top e else e) <$> changes m !! k
     else changes m !! k).
  { intros k. rewrite Hch. by rewrite (decide_ext (k ∈ elements d) (k ∈ d)) by apply elem_of_elements. }
  clear Hch. split_and!; try done.
  - intros k. simpl. rewrite Hch'. specialize (Hwf k). rewrite Hd in Hwf. simpl in Hwf.
    unfold add_dirty. unfold key_wf, merge_top in *.
    destruct (decide (k ∈ d)) as [Hk|Hk]; destruct (changes m !! k) as [e|]; simpl in *;
      destruct r as [|d2 r2]; simpl in *; try lia.
    + case_bool_decide; destruct (transactions e) as [|? [|? ?]]; simpl in *; lia.
    + rewrite decide_True by set_solver. case_bool_decide.
      * rewrite decide_True in Hwf by done. destruct (transactions e) as [|? [|? ?]]; simpl in *; lia.
      * rewrite decide_False in Hwf by done. lia.
    + rewrite (decide_ext _ (k ∈ d2)) by set_solver. lia.
    + rewrite (decide_ext _ (k ∈ d2)) by set_solver. lia.
  - by destruct r.
  - apply map_eq. intros k. rewrite !lookup_snapshot. simpl. rewrite Hch'.
    destruct (decide (k ∈ d)) as [Hkd|Hkd]; [|done]. destruct (changes m !! k) as [e|]; [|done]. simpl.
    unfold merge_top. destruct (has_predecessor r k e); [|done].
    destruct (transactions e) as [|? [|? ?]]; done.
  - intros j Hj. destruct r as [|d2 r2]; simpl in Hj; [lia|].
    apply map_eq. intros k. rewrite !lookup_snapshot. simpl. rewrite Hch', Hd. simpl.
    unfold merge_top; simpl.
    destruct (decide (k ∈ d)) as [Hk|Hk]; simpl.
    + rewrite (decide_True (P := k ∈ list_to_set (elements d) ∪ d2)) by set_solver.
      destruct (changes m !! k) as [e|] eqn:He; [|done]. simpl.
      case_bool_decide as Hb; [rewrite decide_True by done|rewrite decide_False by done]; [|done].
      specialize (Hwf k). rewrite He, Hd in Hwf. simpl in Hwf. rewrite !decide_True in Hwf by done.
      destruct (transactions e) as [|? [|? ?]]; simpl in *; [lia..|done].
    + rewrite (decide_ext (k ∈ list_to_set (elements d) ∪ d2) (k ∈ d2)) by set_solver. done.
Qed.

Lemma start_refines {E} m :
  wf m ->
  exists m', start_transaction (E := E) m = (m', Ok tt) /\ wf m' /\
    abs m' = (spec_op OpStart (abs m)).1.
Proof.
  intros Hwf. eexists. split; [done|].
  assert (Hcount : forall k ds, dirty_count k (∅ :: ds) = dirty_count k ds).
  { intros k ds. simpl. by rewrite decide_False by set_solver. }
  split.
  - intros k. simpl. rewrite decide_False by set_solver. apply Hwf.
  - unfold abs, transaction_depth; simpl. f_equal. f_equal. f_equal.
    rewrite <-!fmap_S_seq, <-!list_fmap_compose. apply list_fmap_ext. intros i j _. simpl.
    unfold snapshot. apply map_imap_ext. intros k. simpl. by rewrite decide_False by set_solver.
Qed.

Lemma abs_shift m m' c :
  num_client_transactions m' = num_client_transactions m ->
  length (dirty_keys m') = length (dirty_keys m) - c -> c <= length (dirty_keys m) ->
  (forall j, snapshot j m' = snapshot (j + c) m) ->
  views (abs m') = drop c (views (abs m)).
Proof.
  intros Hc Hlen Hle Hsnap. unfold abs, transaction_depth; cbn [views].
  rewrite <-fmap_drop, drop_seq, Hlen.
  replace (S (length (dirty_keys m)) - c) with (S (length (dirty_keys m) - c)) by lia.
  simpl (0 + c). replace (seq c _) with (Nat.add c <$> seq 0 (S (length (dirty_keys m) - c)))
    by (by rewrite fmap_add_seq, Nat.add_0_r).
  rewrite <-list_fmap_compose. apply list_fmap_ext. intros i j _. simpl. rewrite Hsnap. f_equal. lia.
Qed.

Lemma rollback_runtime_transactions_spec {E} fuel m :
  wf m -> execution_mode m = Client -> transaction_depth m <= fuel ->
  let c := transaction_depth m - num_client_transactions m in
  exists m', rollback_runtime_transactions (E := E) fuel m = (m', Ok tt) /\ wf m' /\
    dirty_keys m' = drop c (dirty_keys m) /\
    num_client_transactions m' = num_client_transactions m /\
    execution_mode m' = Client /\ (forall j, snapshot j m' = snapshot (j + c) m).
Proof.
  revert m. induction fuel as [|fuel IH]; intros m Hwf Hmode Hfuel c; subst c.
  - exists m. simpl. unfold has_open_runtime_transactions.
    rewrite bool_decide_false by lia. replace (_ - _) with 0 by lia. split_and!; try done.
    intros j. by rewrite Nat.add_0_r.
  - simpl. unfold has_open_runtime_transactions at 1. case_bool_decide as Hopen; simpl.
    + destruct (dirty_keys m) as [|d r] eqn:Hd; [unfold transaction_depth in *; rewrite Hd in *; simpl in *; lia|].
      destruct (rollback_refines m d r) as (m1 & Hrun & Hwf1 & Hd1 & Hn1 & Hm1 & Hs1); [done..|by rewrite Hmode|].
      unfold catch, rollback_transaction. rewrite Hrun.
      destruct (IH m1) as (m2 & Hrun2 & Hwf2 & Hd2 & Hn2 & Hm2 & Hs2); [done|congruence|..].
      { unfold transaction_depth in *. rewrite Hd1. rewrite Hd in Hfuel. simpl in *. lia. }
      unfold transaction_depth in *. rewrite Hd1, Hn1 in *. rewrite Hd in *. simpl in *.
      exists m2. split_and!; [done..| | |done|].
      * rewrite Hd2. replace (S (length r) - num_client_transactions m)
          with (S (length r - num_client_transactions m)) by lia. done.
      * congruence.
      * intros j. rewrite Hs2, Hs1. f_equal. lia.
    + exists m. replace (_ - _) with 0 by (unfold transaction_depth in *; lia).
      split_and!; try done. intros j. by rewrite Nat.add_0_r.
Qed.

Lemma spec_may_close_abs m :
  spec_may_close (abs m) = true <->
  (execution_mode m = Runtime -> has_open_runtime_transactions m = true).
Proof.
  unfold spec_may_close, has_open_runtime_transactions. rewrite spec_depth_abs. simpl.
  destruct (execution_mode m); naive_solver.
Qed.

Lemma spec_may_close_abs_false m :
  spec_may_close (abs m) = false ->
  bool_decide (execution_mode m = Runtime) && negb (has_open_runtime_transactions m) = true.
Proof.
  unfold spec_may_close, has_open_runtime_transactions. rewrite spec_depth_abs. simpl.
  destruct (execution_mode m); [done|]. intros ->. done.
Qed.

Lemma views_abs_cons m d r :
  dirty_keys m = d :: r ->
  views (abs m) = snapshot 0 m :: snapshot 1 m
    :: ((fun j => snapshot (S (S j)) m) <$> seq 0 (length r)).
Proof.
  intros Hd. unfold abs, transaction_depth; cbn [views]. rewrite Hd. simpl.
  do 2 f_equal. by rewrite <-!fmap_S_seq, <-!list_fmap_compose.
Qed.

Lemma views_abs_nil m : dirty_keys m = [] -> views (abs m) = [snapshot 0 m].
Proof. intros Hd. unfold abs, transaction_depth; simpl. by rewrite Hd. Qed.

Lemma close_no_transaction m b : dirty_keys m = [] ->
  close_transaction b m = (m, Err no_open_transaction).
Proof. intros Hd. unfold close_transaction. rewrite Hd. by case_match. Qed.

Lemma close_forbidden m b : spec_may_close (abs m) = false ->
  close_transaction b m = (m, Err no_open_transaction).
Proof. intros Hc%spec_may_close_abs_false. unfold close_transaction. by rewrite Hc. Qed.

Lemma run_rollback_refines m : wf m ->
  exists m' r, run_op OpRollback m = (m', r) /\ r <> Panic /\ wf m' /\
    (abs m', is_ok r) = spec_op OpRollback (abs m).
Proof.
  intros Hwf. cbn [run_op spec_op]. unfold catch, rollback_transaction.
  destruct (dirty_keys m) as [|d r] eqn:Hd.
  { rewrite close_no_transaction, views_abs_nil by done. by eexists _, _. }
  rewrite (views_abs_cons m d r Hd).
  destruct (spec_may_close (abs m)) eqn:Hc; [|rewrite close_forbidden by done; by eexists _, _].
  destruct (rollback_refines m d r) as (m1 & -> & Hwf1 & Hd1 & Hn1 & Hm1 & Hs1);
    [done..|by apply spec_may_close_abs|].
  eexists _, _. split_and!; [done..|]. simpl. f_equal. unfold abs, transaction_depth; simpl.
  rewrite Hd1, Hn1, Hm1, Hs1. f_equal. f_equal.
  rewrite <-fmap_S_seq, <-list_fmap_compose. apply list_fmap_ext. intros i j _. simpl. apply Hs1.
Qed.

Lemma run_commit_refines m : wf m ->
  exists m' r, run_op OpCommit m = (m', r) /\ r <> Panic /\ wf m' /\
    (abs m', is_ok r) = spec_op OpCommit (abs m).
Proof.
  intros Hwf. cbn [run_op spec_op]. unfold catch, commit_transaction.
  destruct (dirty_keys m) as [|d r] eqn:Hd.
  { rewrite close_no_transaction, views_abs_nil by done. by eexists _, _. }
  rewrite (views_abs_cons m d r Hd).
  destruct (spec_may_close (abs m)) eqn:Hc; [|rewrite close_forbidden by done; by eexists _, _].
  destruct (commit_refines m d r) as (m1 & -> & Hwf1 & Hd1 & Hn1 & Hm1 & Hs0 & Hs1);
    [done..|by apply spec_may_close_abs|].
  eexists _, _. split_and!; [done..|]. simpl. f_equal. unfold abs, transaction_depth; simpl.
  rewrite Hd1, Hn1, Hm1, Hs0. f_equal. f_equal.
  rewrite <-fmap_S_seq, <-list_fmap_compose. apply list_fmap_ext. intros i j Hi. simpl.
  apply lookup_seq in Hi as [-> Hi]. by apply Hs1.
Qed.

Lemma run_exit_refines m : wf m ->
  exists m' r, run_op OpExitRuntime m = (m', r) /\ r <> Panic /\ wf m' /\
    (abs m', is_ok r) = spec_op OpExitRuntime (abs m).
Proof.
  intros Hwf. cbn [run_op spec_op]. unfold catch, exit_runtime. rewrite spec_depth_abs. simpl spec_mode.
  destruct (execution_mode m) eqn:Hmode; [by eexists _, _|].
  set (m0 := mkMap _ _ _ Client).
  destruct (rollback_runtime_transactions_spec (E := NotInRuntime) (transaction_depth m) m0)
    as (m1 & -> & Hwf1 & Hd1 & Hn1 & Hm1 & Hs1); [done..|].
  eexists _, _. split_and!; [done..|]. simpl is_ok. f_equal.
  pose proof (abs_shift m0 m1 (transaction_depth m0 - num_client_transactions m0) Hn1) as Hv.
  rewrite Hd1, length_drop in Hv. specialize (Hv eq_refl ltac:(unfold transaction_depth; lia) Hs1).
  change (views (abs m)) with (views (abs m0)). change (client_depth (abs m)) with (num_client_transactions m0).
  change (transaction_depth m) with (transaction_depth m0). rewrite <-Hv.
  unfold abs. simpl. by rewrite Hn1, Hm1.
Qed.

Lemma run_op_refines o m : wf m ->
  exists m' r, run_op o m = (m', r) /\ r <> Panic /\ wf m' /\
    (abs m', is_ok r) = spec_op o (abs m).
Proof.
  intros Hwf. destruct o.
  - destruct (map_set_refines (E := unit) m k v at_extrinsic Hwf) as (m' & Hrun & ? & Habs).
    eexists _, _. split_and!; [exact Hrun|done..|]. by rewrite Habs.
  - destruct (start_refines (E := unit) m Hwf) as (m' & Hrun & ? & Habs).
    eexists _, _. split_and!; [exact Hrun|done..|]. by rewrite Habs.
  - by apply run_rollback_refines.
  - by apply run_commit_refines.
  - cbn [run_op spec_op]. unfold catch, enter_runtime. rewrite spec_depth_abs. simpl spec_mode.
    destruct (execution_mode m); by eexists _, _.
  - by apply run_exit_refines.
Qed.

Lemma run_ops_refines os m : wf m ->
  exists m' rs, run_ops os m = (m', rs) /\ (Panic ∉ rs) /\ wf m' /\
    (abs m', (is_ok <$> rs)) = spec_ops os (abs m).
Proof.
  revert m. induction os as [|o os IH]; intros m Hwf; simpl.
  { eexists _, _. split_and!; [done|set_solver|done..]. }
  destruct (run_op_refines o m Hwf) as (m1 & r & Hrun & Hr & Hwf1 & Habs). rewrite Hrun.
  destruct (IH m1 Hwf1) as (m2 & rs & -> & Hrs & Hwf2 & Habs2).
  eexists _, _. split_and!; [done|set_solver|done|].
  destruct (spec_op o (abs m)) as [s1 b] eqn:Ho. simplify_eq.
  destruct (spec_ops os (abs m1)) as [s2 bs] eqn:Hos. simplify_eq. done.
Qed.
End refinement.

Arguments op K V : clear implicits.
Arguments spec_state K V {_ _}.

(** ** Nested transactions *)
Section nesting.
Context {K V : Type} `{Countable K}.
Implicit Types (m : OverlayedMap K V) (s : spec_state K V) (os : list (op K V)).

(** Operation sequences that close every transaction they open. *)
Inductive balanced : list (op K V) -> Prop :=
| balanced_nil : balanced []
| balanced_set k v ext : balanced [OpSet k v ext]
| balanced_commit os : balanced os -> balanced (OpStart :: os ++ [OpCommit])
| balanced_rollback os : balanced os -> balanced (OpStart :: os ++ [OpRollback])
| balanced_app os1 os2 : balanced os1 -> balanced os2 -> balanced (os1 ++ os2).

Definition with_views (vs : list (gmap K V)) s : spec_state K V :=
  mkSpec vs (client_depth s) (spec_mode s).

Definition protected_depth s : Prop := spec_mode s = Runtime -> client_depth s <= spec_depth s.

Lemma spec_ops_app os1 os2 s :
  (spec_ops (os1 ++ os2) s).1 = (spec_ops os2 (spec_ops os1 s).1).1.
Proof.
  revert s. induction os1 as [|o os1 IH]; intros s; [done|]. simpl.
  destruct (spec_op o s) as [s1 b]. specialize (IH s1).
  destruct (spec_ops (os1 ++ os2) s1), (spec_ops os1 s1). done.
Qed.

Lemma spec_ops_cons o os s : (spec_ops (o :: os) s).1 = (spec_ops os (spec_op o s).1).1.
Proof. cbn [spec_ops]. destruct (spec_op o s) as [s1 b]. cbn [fst]. by destruct (spec_ops os s1). Qed.

Lemma protected_start s c cur rest :
  protected_depth s -> views s = cur :: rest ->
  protected_depth (with_views (c :: cur :: rest) s) /\
  spec_may_close (with_views (c :: cur :: rest) s) = true.
Proof.
  intros Hp Hv. unfold protected_depth, spec_may_close, spec_depth, with_views in *; simpl.
  rewrite Hv in Hp; simpl in Hp. split; [intros Hm; specialize (Hp Hm); lia|].
  destruct (spec_mode s); [done|]. specialize (Hp eq_refl). apply bool_decide_true. lia.
Qed.

(** A balanced sequence changes only the current view, by a function of that
    view alone. *)
Lemma balanced_spec os : balanced os ->
  exists f : gmap K V -> gmap K V, forall s cur rest,
    views s = cur :: rest -> protected_depth s ->
    (spec_ops os s).1 = with_views (f cur :: rest) s.
Proof.
  induction 1 as [|k v ext|os Hb [f IH]|os Hb [f IH]|os1 os2 Hb1 [f1 IH1] Hb2 [f2 IH2]].
  - exists id. intros s cur rest Hv _. destruct s; simpl in *; by subst.
  - exists <[k := v]>. intros s cur rest Hv _. simpl. by rewrite Hv.
  - exists f. intros s cur rest Hv Hp. rewrite spec_ops_cons, spec_ops_app. cbn [spec_op]. rewrite Hv. cbn [fst].
    destruct (protected_start s cur cur rest Hp Hv) as [Hp' _].
    change (mkSpec (cur :: cur :: rest) (client_depth s) (spec_mode s)) with (with_views (cur :: cur :: rest) s).
    rewrite (IH (with_views (cur :: cur :: rest) s) cur (cur :: rest) eq_refl Hp'). simpl.
    destruct (protected_start s (f cur) cur rest Hp Hv) as [_ Hc]. unfold with_views in *; simpl.
    by rewrite Hc.
  - exists id. intros s cur rest Hv Hp. rewrite spec_ops_cons, spec_ops_app. cbn [spec_op]. rewrite Hv. cbn [fst].
    destruct (protected_start s cur cur rest Hp Hv) as [Hp' _].
    change (mkSpec (cur :: cur :: rest) (client_depth s) (spec_mode s)) with (with_views (cur :: cur :: rest) s).
    rewrite (IH (with_views (cur :: cur :: rest) s) cur (cur :: rest) eq_refl Hp'). simpl.
    destruct (protected_start s (f cur) cur rest Hp Hv) as [_ Hc]. unfold with_views in *; simpl.
    by rewrite Hc.
  - exists (f2 ∘ f1). intros s cur rest Hv Hp. rewrite spec_ops_app, (IH1 s cur rest Hv Hp).
    rewrite (IH2 _ (f1 cur) rest); [done..|].
    unfold protected_depth, spec_depth in *. rewrite Hv in Hp. done.
Qed.

(** Everything the runtime does between [enter_runtime] and [exit_runtime]
    keeps the [n] outermost views. *)
Definition bottom (n : nat) s : list (gmap K V) := drop (length (views s) - n) (views s).

Lemma bottom_cons n (x : gmap K V) (l : list (gmap K V)) :
  n <= length l -> drop (length (x :: l) - n) (x :: l) = drop (length l - n) l.
Proof. intros. replace (length (x :: l) - n) with (S (length l - n)) by (simpl; lia). done. Qed.

Lemma spec_op_bottom o s :
  spec_mode s = Runtime -> client_depth s < length (views s) -> o <> OpExitRuntime ->
  let s' := (spec_op o s).1 in
  spec_mode s' = Runtime /\ client_depth s' = client_depth s /\
  client_depth s < length (views s') /\ bottom (client_depth s) s' = bottom (client_depth s) s.
Proof.
  intros Hm Hlen Ho. destruct s as [vs n md]; simpl in *; subst md.
  unfold bottom.
  destruct o; try done; destruct vs as [|cur rest]; cbn [spec_op fst views client_depth spec_mode];
    try (simpl in Hlen; lia).
  - split_and!; [done..|]. by rewrite !bottom_cons by (simpl in Hlen; lia).
  - split_and!; [done..|simpl in *; lia|].
    by rewrite !(bottom_cons n) by (simpl in *; lia).
  - destruct rest as [|old rest]; [done|]. unfold spec_may_close, spec_depth.
    cbn [spec_mode client_depth views]. case_bool_decide as Hb; [|done].
    cbn [fst views client_depth spec_mode]. simpl in Hb.
    split_and!; [done..|simpl; lia|]. by rewrite (bottom_cons n cur) by (simpl; lia).
  - destruct rest as [|old rest]; [done|]. unfold spec_may_close, spec_depth.
    cbn [spec_mode client_depth views]. case_bool_decide as Hb; [|done].
    cbn [fst views client_depth spec_mode]. simpl in Hb.
    split_and!; [done..|simpl; lia|]. by rewrite !(bottom_cons n) by (simpl; lia).
Qed.

Lemma spec_ops_bottom os s :
  spec_mode s = Runtime -> client_depth s < length (views s) -> OpExitRuntime ∉ os ->
  let s' := (spec_ops os s).1 in
  spec_mode s' = Runtime /\ client_depth s' = client_depth s /\
  client_depth s < length (views s') /\ bottom (client_depth s) s' = bottom (client_depth s) s.
Proof.
  revert s. induction os as [|o os IH]; intros s Hm Hlen Ho; [done|]. rewrite spec_ops_cons.
  destruct (spec_op_bottom o s) as (Hm1 & Hc1 & Hl1 & Hb1); [done..|set_solver|].
  destruct (IH (spec_op o s).1) as (Hm2 & Hc2 & Hl2 & Hb2); [done|lia|set_solver|].
  rewrite Hc1 in *. split_and!; try done; congruence.
Qed.

Lemma length_views m : length (views (abs m)) = S (transaction_depth m).
Proof. unfold abs; simpl. by rewrite length_fmap, length_seq. Qed.

Lemma run_ops_abs os m : wf m -> abs (run_ops os m).1 = (spec_ops os (abs m)).1.
Proof.
  intros Hwf. destruct (run_ops_refines os m Hwf) as (m' & rs & -> & _ & _ & Habs).
  by rewrite <-Habs.
Qed.

Lemma abs_default : abs (map_default (K := K) (V := V)) = mkSpec [∅] 0 Client.
Proof. done. Qed.

Lemma abs_views_cons m : exists cur rest, views (abs m) = cur :: rest.
Proof. unfold abs; simpl. eauto. Qed.
End nesting.

(** ** Properties *)

(** C2. Rolling a transaction back restores every view, and committing it
    gives the views that its body gives without the transaction, whatever
    transactions the body opened and closed itself. *)
Theorem transaction_rollback_commit {K V} `{Countable K} (m : OverlayedMap K V) os :
  wf m ->
  (execution_mode m = Runtime -> num_client_transactions m <= transaction_depth m) ->
  balanced os ->
  abs (run_ops (OpStart :: os ++ [OpRollback]) m).1 = abs m /\
  abs (run_ops (OpStart :: os ++ [OpCommit]) m).1 = abs (run_ops os m).1.
Proof.
  intros Hwf Hp Hb. rewrite !run_ops_abs by done.
  assert (protected_depth (abs m)) as Hp'.
  { unfold protected_depth. rewrite spec_depth_abs. done. }
  destruct (abs_views_cons m) as (cur & rest & Hv).
  destruct (balanced_spec os Hb) as [f Hf].
  rewrite (Hf _ _ _ Hv Hp'), !spec_ops_cons, !spec_ops_app. cbn [spec_op fst].
  rewrite Hv. cbn [fst].
  change (mkSpec _ _ _) with (with_views (cur :: cur :: rest) (abs m)).
  destruct (protected_start (abs m) cur cur rest Hp' Hv) as [Hp2 _].
  destruct (protected_start (abs m) (f cur) cur rest Hp' Hv) as [_ Hc].
  rewrite (Hf (with_views (cur :: cur :: rest) (abs m)) cur (cur :: rest) eq_refl Hp2).
  unfold with_views in *; simpl in *. rewrite Hc. split; [|done].
  unfold abs in *; simpl in *. by rewrite <-Hv.
Qed.

Lemma transaction_rollback_commit_witness :
  let m := (run_ops [OpSet 1 10 None; OpStart; OpSet 2 20 (Some 7%Z)]
              (map_default (K := nat) (V := nat))).1 in
  let body := [OpSet 1 11 None; OpStart; OpSet 3 30 None; OpCommit] in
  abs (run_ops (OpStart :: body ++ [OpRollback]) m).1 = abs m /\
  abs (run_ops (OpStart :: body ++ [OpCommit]) m).1 = abs (run_ops body m).1.
Proof.
  cbv zeta. apply transaction_rollback_commit.
  - destruct (run_ops_refines [OpSet 1 10 None; OpStart; OpSet 2 20 (Some 7%Z)]
                map_default wf_default) as (m & rs & -> & _ & Hwf & _). exact Hwf.
  - vm_compute. discriminate.
  - apply (balanced_app [OpSet 1 11 None]); [constructor|].
    apply (balanced_commit [OpSet 3 30 None]). constructor.
Defined.

(** The runtime cannot close the transactions the client opened: after
    [enter_runtime], whatever the runtime does short of leaving, the client's
    transactions stay open and the views they return to are unchanged. *)
Theorem runtime_keeps_client_transactions {K V} `{Countable K} (m : OverlayedMap K V) os :
  wf m -> execution_mode m = Client -> OpExitRuntime ∉ os ->
  let m' := (run_ops (OpEnterRuntime :: os) m).1 in
  transaction_depth m <= transaction_depth m' /\
  bottom (transaction_depth m) (abs m') = bottom (transaction_depth m) (abs m).
Proof.
  intros Hwf Hm Ho m'. subst m'. rewrite <-(spec_depth_abs (run_ops _ m).1).
  rewrite run_ops_abs by done. rewrite spec_ops_cons. cbn [spec_op]. simpl spec_mode. rewrite Hm.
  rewrite spec_depth_abs. cbn [fst].
  destruct (spec_ops_bottom os (mkSpec (views (abs m)) (transaction_depth m) Runtime))
    as (_ & _ & Hl & Hb); [done| |done|].
  { cbn [client_depth views]. rewrite length_views. lia. }
  cbn [client_depth views] in Hl, Hb. split; [unfold spec_depth; lia|]. exact Hb.
Qed.

Lemma runtime_keeps_client_transactions_witness :
  let m := (run_ops [OpSet 1 10 None; OpStart] (map_default (K := nat) (V := nat))).1 in
  let m' := (run_ops (OpEnterRuntime :: [OpSet 1 11 None; OpRollback; OpCommit]) m).1 in
  transaction_depth m <= transaction_depth m' /\
  bottom (transaction_depth m) (abs m') = bottom (transaction_depth m) (abs m).
Proof.
  cbv zeta. apply runtime_keeps_client_transactions.
  - destruct (run_ops_refines [OpSet 1 10 None; OpStart] map_default wf_default)
      as (m & rs & -> & _ & Hwf & _). exact Hwf.
  - reflexivity.
  - rewrite !not_elem_of_cons. repeat split; try discriminate. apply not_elem_of_nil.
Defined.

(** [exit_runtime] rolls back what the runtime left open: a transaction
    the runtime started and did not close leaves no trace in any view (the
    doc comment of [exit_runtime] says such transactions are committed). *)
Theorem exit_runtime_rolls_back {K V} `{Countable K} (m : OverlayedMap K V) os :
  wf m -> execution_mode m = Client -> balanced os ->
  let m' := (run_ops (OpEnterRuntime :: OpStart :: os ++ [OpExitRuntime]) m).1 in
  views (abs m') = views (abs m) /\ execution_mode m' = Client.
Proof.
  intros Hwf Hm Hb m'. subst m'.
  enough (abs (run_ops (OpEnterRuntime :: OpStart :: os ++ [OpExitRuntime]) m).1
          = mkSpec (views (abs m)) (transaction_depth m) Client) as Heq.
  { split; [by rewrite Heq|]. by apply (f_equal spec_mode) in Heq. }
  rewrite run_ops_abs by done.
  destruct (abs_views_cons m) as (cur & rest & Hv).
  destruct (balanced_spec os Hb) as [f Hf].
  pose proof (length_views m) as Hl. rewrite Hv in Hl. simpl in Hl.
  rewrite !spec_ops_cons, spec_ops_app. cbn [spec_op]. simpl spec_mode. rewrite Hm, spec_depth_abs.
  cbn [fst views]. rewrite Hv. cbn [fst client_depth spec_mode].
  rewrite (Hf _ cur (cur :: rest)); [|done|unfold protected_depth, spec_depth; simpl; lia].
  unfold with_views; cbn [views client_depth spec_mode spec_ops spec_op fst].
  replace (spec_depth _ - transaction_depth m) with 1; [done|]. unfold spec_depth; simpl length. lia.
Qed.

Lemma exit_runtime_rolls_back_witness :
  let m := (run_ops [OpSet 1 10 None] (map_default (K := nat) (V := nat))).1 in
  let m' := (run_ops (OpEnterRuntime :: OpStart :: [OpSet 1 11 None] ++ [OpExitRuntime]) m).1 in
  views (abs m') = views (abs m) /\ execution_mode m' = Client.
Proof.
  cbv zeta. apply exit_runtime_rolls_back; [|reflexivity|constructor].
  destruct (run_ops_refines [OpSet 1 10 None] map_default wf_default)
    as (m & rs & -> & _ & Hwf & _). exact Hwf.
Defined.

Section change_set_properties.
Context {K SV : Type} `{Countable K}.
Implicit Types (m : OverlayedMap K (option SV)) (k : K).

Lemma lookup_snapshot_0 m k :
  snapshot 0 m !! k = changes m !! k ≫= (fun e => value <$> head (transactions e)).
Proof.
  rewrite lookup_snapshot. destruct (changes m !! k) as [e|]; [|done]. simpl.
  by destruct (transactions e).
Qed.

Lemma map_modify_refines {E} m k init ext f :
  wf m ->
  exists m', map_modify (E := E) k init ext f m = (m', Ok tt) /\ wf m' /\
    abs m' = (spec_op (OpSet k (f (default (Some init) (snapshot 0 m !! k))) ext) (abs m)).1.
Proof.
  intros Hwf. unfold map_modify. rewrite lookup_snapshot_0.
  destruct (insert_dirty (dirty_keys m) k) as [dk first] eqn:Hid.
  set (e0 := default entry_default (changes m !! k)).
  replace (changes m !! k ≫= (fun e => value <$> head (transactions e)))
    with (value <$> head (transactions e0)) by (unfold e0; by destruct (changes m !! k)).
  remember (default (Some init) (value <$> head (transactions e0))) as v0 eqn:Hv0.
  pose proof (write_entry_refines m k (f v0)) as Hw. fold e0 in Hw.
  destruct (entry_set_spec (E := E) e0 v0 first ext) as (t & ts & Hset & Ht & Hts).
  destruct (head (transactions e0)) as [tx|] eqn:Htx; simpl in Hv0.
  - destruct first.
    + rewrite <-Hv0, Hset. simpl. rewrite Ht. eexists. split; [done|].
      by apply (Hw (mkInner (f v0) (extrinsics t)) ts dk true).
    + simpl. unfold value_ref, write_value_mut. rewrite Htx. simpl.
      destruct (transactions e0) as [|tx' ts0] eqn:He0; simpl in Htx; simplify_eq.
      eexists. split; [done|].
      apply (Hw (mkInner (f (value tx)) (extrinsics tx)) ts0 dk false); [done..|]. by rewrite He0.
  - rewrite <-Hv0, Hset. simpl. rewrite Ht. eexists. split; [done|].
    by apply (Hw (mkInner (f v0) (extrinsics t)) ts dk first).
Qed.

Lemma set_none_loop {E} ext (l : list K) m cur rest :
  wf m -> views (abs m) = cur :: rest ->
  exists m', for_each (fun key => map_set (E := E) key None ext) l m = (m', Ok tt) /\ wf m' /\
    abs m' = with_views (foldl (fun c k => <[k := None]> c) cur l :: rest) (abs m).
Proof.
  revert m cur. induction l as [|k l IH]; intros m cur Hwf Hv.
  { exists m. split_and!; [done..|]. unfold abs, with_views in *; simpl in *. by rewrite <-Hv. }
  destruct (map_set_refines (E := E) m k None ext Hwf) as (m1 & Hrun & Hwf1 & Habs1).
  cbn [spec_op] in Habs1. rewrite Hv in Habs1. cbn [fst] in Habs1.
  destruct (IH m1 (<[k := None]> cur) Hwf1) as (m2 & Hrun2 & Hwf2 & Habs2); [by rewrite Habs1|].
  exists m2. split_and!; [|done|].
  - cbn [for_each]. unfold mbind, M_mbind. by rewrite Hrun, Hrun2.
  - by rewrite Habs2, Habs1.
Qed.

Lemma foldl_insert_none (l : list K) (c : gmap K (option SV)) k :
  foldl (fun c k => <[k := None]> c) c l !! k = if decide (k ∈ l) then Some None else c !! k.
Proof.
  revert c. induction l as [|k' l IH]; intros c; [done|]. simpl. rewrite IH.
  destruct (decide (k ∈ l)); [by rewrite decide_True by set_solver|].
  destruct (decide (k = k')) as [->|].
  - by rewrite lookup_insert_eq, decide_True by set_solver.
  - by rewrite lookup_insert_ne, decide_False by set_solver.
Qed.

Lemma clear_where_run {E} m (predicate : K -> OverlayedEntry (option SV) -> bool) ext : wf m ->
  exists m' cur, clear_where (E := E) predicate ext m = (m', Ok tt) /\ wf m' /\
    abs m' = with_views (cur :: tail (views (abs m))) (abs m) /\
    forall k, cur !! k =
      match changes m !! k with
      | Some e => if predicate k e then Some None else snapshot 0 m !! k
      | None => None
      end.
Proof.
  intros Hwf. destruct (abs_views_cons m) as (cur & rest & Hv).
  assert (Hcur : cur = snapshot 0 m) by (unfold abs in Hv; simpl in Hv; congruence).
  unfold clear_where. set (l := fst <$> _).
  destruct (set_none_loop (E := E) ext l m cur rest Hwf Hv) as (m' & Hrun & Hwf' & Habs).
  eexists m', _. split_and!; [done..|by rewrite Habs, Hv|]. intros k. rewrite foldl_insert_none.
  assert (k ∈ l <-> exists e, changes m !! k = Some e /\ predicate k e = true) as Hl.
  { unfold l. rewrite list_elem_of_fmap. split.
    - intros ([k' e] & -> & Hin). apply list_elem_of_filter in Hin as [Hp Hin].
      apply elem_of_map_to_list in Hin. by exists e.
    - intros (e & He & Hp). exists (k, e). split; [done|].
      apply list_elem_of_filter. split; [done|]. by apply elem_of_map_to_list. }
  subst cur. rewrite lookup_snapshot_0. case_decide as Hd; rewrite Hl in Hd.
  + destruct Hd as (e & -> & ->). done.
  + destruct (changes m !! k) as [e|]; [|done].
    destruct (predicate k e) eqn:Hp; [|done]. exfalso. apply Hd. eauto.
Qed.
End change_set_properties.

(** ** The operations of a change set

    The operations of the map, and those of [OverlayedChangeSet]: [modify] with
    what its caller writes, [clear_where] with a predicate on the key and the
    current value, and [get]. *)
Section change_ops.
Context {K SV : Type} `{Countable K}.
Implicit Types (m : OverlayedMap K (option SV)) (k : K).

Inductive change_op : Type :=
| OpMap (o : op K (option SV))
| OpModify (k : K) (init : SV) (at_extrinsic : option Z) (f : option SV -> option SV)
| OpClearWhere (p : K -> option SV -> bool) (at_extrinsic : option Z)
| OpGet (k : K).

(** The answer of [get] is the value found, if there is one. *)
Definition run_change_op (o : change_op) : M (OverlayedMap K (option SV)) unit (option (option SV)) :=
  match o with
  | OpMap o => _ ← run_op o; mret None
  | OpModify k init ext f => _ ← map_modify k init ext f; mret None
  | OpClearWhere p ext =>
    _ ← clear_where (fun k e => match transactions e with t :: _ => p k (value t) | [] => false end) ext; mret None
  | OpGet k =>
    self ← get;
    match map_get self k with
    | Some e => v ← lift (value_ref e); mret (Some v)
    | None => mret None
    end
  end.

(** On the stack of views, [None] is an error. *)
Definition spec_change_op (o : change_op) (s : spec_state K (option SV)) :
    spec_state K (option SV) * option (option (option SV)) :=
  match o, views s with
  | OpMap o, _ => let '(s', success) := spec_op o s in (s', if success : bool then Some None else None)
  | OpModify k init _ f, cur :: rest =>
    (with_views (<[k := f (default (Some init) (cur !! k))]> cur :: rest) s, Some None)
  | OpClearWhere p _, cur :: rest =>
    (with_views (map_imap (fun k v => Some (if p k v then None else v)) cur :: rest) s, Some None)
  | OpGet k, cur :: _ => (s, Some (cur !! k))
  | _, [] => (s, None)
  end.

Fixpoint run_change_ops (os : list change_op) m : OverlayedMap K (option SV) * list (res unit (option (option SV))) :=
  match os with
  | [] => (m, [])
  | o :: os' => let '(m1, r) := run_change_op o m in
                let '(m2, rs) := run_change_ops os' m1 in (m2, r :: rs)
  end.

Fixpoint spec_change_ops (os : list change_op) (s : spec_state K (option SV)) :
    spec_state K (option SV) * list (option (option (option SV))) :=
  match os with
  | [] => (s, [])
  | o :: os' => let '(s1, r) := spec_change_op o s in
                let '(s2, rs) := spec_change_ops os' s1 in (s2, r :: rs)
  end.

Definition answer {E A} (r : res E A) : option A := match r with Ok a => Some a | _ => None end.

Lemma views_snapshot m : exists rest, views (abs m) = snapshot 0 m :: rest.
Proof. unfold abs; simpl. eauto. Qed.

Lemma wf_entry m k e : wf m -> changes m !! k = Some e -> exists t ts, transactions e = t :: ts.
Proof.
  intros Hwf He. specialize (Hwf k). rewrite He in Hwf. cbn [key_wf] in Hwf.
  destruct (transactions e) as [|t ts]; [simpl in Hwf; lia|eauto].
Qed.

Lemma run_change_op_refines o m : wf m ->
  exists m' r, run_change_op o m = (m', r) /\ r <> Panic /\ wf m' /\
    (abs m', answer r) = spec_change_op o (abs m).
Proof.
  intros Hwf. destruct (views_snapshot m) as [rest Hv]. destruct o as [o|k init ext f|p ext|k]; cbn [run_change_op spec_change_op]; rewrite ?Hv.
  - destruct (run_op_refines o m Hwf) as (m' & r & Hrun & Hr & Hwf' & Habs). rewrite <-Habs.
    destruct r as [[]|e|]; [|by eexists m', (Err e); rewrite (bind_Err _ _ _ _ _ Hrun)|done].
    eexists m', (Ok None). by rewrite (bind_Ok _ _ _ _ _ Hrun).
  - destruct (map_modify_refines (E := unit) m k init ext f Hwf) as (m' & Hrun & Hwf' & Habs).
    exists m', (Ok None). rewrite (bind_Ok _ _ _ _ _ Hrun). split_and!; [done..|]. rewrite Habs. cbn [spec_op]. by rewrite Hv.
  - match goal with |- context [clear_where ?q ext] => destruct (clear_where_run (E := unit) m q ext Hwf) as (m' & cur & Hrun & Hwf' & Habs & Hcur) end.
    exists m', (Ok None). rewrite (bind_Ok _ _ _ _ _ Hrun). split_and!; [done..|]. rewrite Habs, Hv. cbn [answer tail].
    do 3 f_equal. apply map_eq. intros k. rewrite Hcur, map_lookup_imap, !lookup_snapshot_0.
    destruct (changes m !! k) as [e|] eqn:He; [|done]. destruct (wf_entry m k e Hwf He) as (t & ts & Ht).
    cbn. rewrite Ht. cbn. by destruct (p k (value t)).
  - eexists m, (Ok (snapshot 0 m !! k)). erewrite bind_Ok by reflexivity. split_and!; [|done..]. unfold map_get. rewrite lookup_snapshot_0.
    destruct (changes m !! k) as [e|] eqn:He; [|done]. destruct (wf_entry m k e Hwf He) as (t & ts & Ht).
    unfold value_ref. cbn. rewrite Ht. by erewrite bind_Ok by reflexivity.
Qed.

Lemma run_change_ops_refines os m : wf m ->
  exists m' rs, run_change_ops os m = (m', rs) /\ (Panic ∉ rs) /\ wf m' /\
    (abs m', answer <$> rs) = spec_change_ops os (abs m).
Proof.
  revert m. induction os as [|o os IH]; intros m Hwf; simpl.
  { eexists _, _. split_and!; [done|set_solver|done..]. }
  destruct (run_change_op_refines o m Hwf) as (m1 & r & Hrun & Hr & Hwf1 & Habs). rewrite Hrun.
  destruct (IH m1 Hwf1) as (m2 & rs & -> & Hrs & Hwf2 & Habs2).
  eexists _, _. split_and!; [done|set_solver|done|].
  destruct (spec_change_op o (abs m)) as [s1 b] eqn:Ho. simplify_eq.
  destruct (spec_change_ops os (abs m1)) as [s2 bs] eqn:Hos. simplify_eq. done.
Qed.

(** Without an open transaction, what is drained is the current view. *)
Lemma drain_run {E} m : wf m -> transaction_depth m = 0 ->
  exists l, drain_commited (E := E) m = Ok l /\ NoDup (fst <$> l) /\ list_to_map l = snapshot 0 m.
Proof.
  intros Hwf Hd. unfold drain_commited. rewrite bool_decide_true by done. cbn.
  assert (forall kes, (forall k e, (k, e) ∈ kes -> changes m !! k = Some e) -> exists l,
    foldr (fun kv acc => p ← pop_transaction kv.2; rest ← acc; Ok ((kv.1, value p.1) :: rest)) (Ok []) kes = (Ok l : res E _) /\
    fst <$> l = fst <$> kes /\ forall k v, (k, v) ∈ l <-> exists e, (k, e) ∈ kes /\ value <$> head (transactions e) = Some v) as Hfold.
  { induction kes as [|[k e] kes IH]; intros Hin.
    { exists []. split_and!; [done..|]. intros k v. split; [by intros ?%not_elem_of_nil|]. by intros (e & ?%not_elem_of_nil & _). }
    destruct IH as (l & Hl & Hk & Hel); [intros k' e' He'; apply Hin; by right|].
    destruct (wf_entry m k e Hwf (Hin k e ltac:(left))) as (t & ts & Ht). exists ((k, value t) :: l). cbn. rewrite Hl.
    unfold pop_transaction. rewrite Ht. split_and!; [done|by f_equal|]. intros k' v. rewrite elem_of_cons, Hel. split.
    - intros [[= -> ->]|(e' & He' & Hv)]; [exists e; split; [left|by rewrite Ht]|exists e'; split; [by right|done]].
    - intros (e' & [[= -> ->]|He']%elem_of_cons & Hv); [left; rewrite Ht in Hv; by injection Hv as ->|right; eauto]. }
  destruct (Hfold (map_to_list (changes m))) as (l & Hl & Hk & Hel); [by intros k e ?%elem_of_map_to_list|].
  assert (NoDup (fst <$> l)) as Hnd by (rewrite Hk; apply NoDup_fst_map_to_list).
  exists l. split_and!; [done..|]. apply map_eq. intros k. apply option_eq. intros v.
  rewrite <-elem_of_list_to_map by done. rewrite Hel, lookup_snapshot_0. setoid_rewrite elem_of_map_to_list.
  destruct (changes m !! k) as [e|]; [|split; [by intros (e & ? & _)|done]]. split; [by intros (? & [= <-] & ?)|eauto].
Qed.

Lemma spawn_child_empty m : wf (spawn_child m) /\
  abs (spawn_child m) = mkSpec (replicate (S (transaction_depth m)) ∅) (num_client_transactions m) (execution_mode m).
Proof.
  assert (forall k n, dirty_count k (replicate n (∅ : gset K)) = 0) as Hc.
  { intros k n. induction n as [|n IH]; [done|]. cbn. by rewrite decide_False by set_solver. }
  split; [intros k; cbn; by rewrite lookup_empty, Hc|]. unfold abs, spawn_child, transaction_depth. cbn [dirty_keys num_client_transactions execution_mode].
  rewrite length_replicate. f_equal. apply list_eq. intros i. rewrite list_lookup_fmap.
  assert (forall j, snapshot j (spawn_child m) = ∅) as Hs by (intros j; apply map_eq; intros k; by rewrite lookup_snapshot, !lookup_empty).
  destruct (decide (i < S (length (dirty_keys m)))%nat) as [Hi|Hi].
  - rewrite lookup_seq_lt, lookup_replicate_2 by done. cbn. by rewrite Hs.
  - rewrite lookup_seq_ge by lia. symmetry. apply lookup_ge_None_2. rewrite length_replicate. lia.
Qed.
End change_ops.

Arguments change_op K SV : clear implicits.


