(* ===== verification/Allocator.v ===== *)
(** * The freeing-bump heap allocator

    Model of [client/allocator/src/freeing_bump.rs] and of the error type of
    [client/allocator/src/error.rs]: orders and their free lists, the header
    word in front of each block, the bump pointer, and the poison flag that a
    failed call leaves behind.

    The allocator works on a linear memory behind the trait [Memory]; here a
    class with the same three operations, a class of laws that the allocator
    theorems assume, and the byte-slice instance of the source with a proof
    of the laws. *)

From Stdlib Require Import ZArith Lia String.
From coqutil Require Import Byte.
From coqutil Require Word.LittleEndianList.
From stdpp Require Import gmap option list.
From S2P Require Import Prelude.

Local Open Scope Z_scope.

(** ** Constants, errors, orders *)
Definition ALIGNMENT : Z := 8.
Definition HEADER_SIZE : Z := 8.
Definition N_ORDERS : nat := 23.
Definition MAX_POSSIBLE_ALLOCATION : Z := 33554432.
Definition MIN_POSSIBLE_ALLOCATION : Z := 8.

Inductive Error : Type :=
| RequestedAllocationTooLarge
| AllocatorOutOfSpace
| Other (msg : string).

Definition error (msg : string) : Error := Other msg.

(** [struct Order(u32)] *)
Definition Order : Type := Z.

Definition Order_from_raw (order : Z) : res Error Order :=
  if order <? Z.of_nat N_ORDERS then Ok order else Err (error "invalid order").

Definition Order_from_size `{OverflowChecks} (size : Z) : res Error Order :=
  if MAX_POSSIBLE_ALLOCATION <? size then Err RequestedAllocationTooLarge
  else
    let clamped_size := if size <? MIN_POSSIBLE_ALLOCATION then MIN_POSSIBLE_ALLOCATION else size in
    let power_of_two_size := next_power_of_two clamped_size in
    usub 32 (trailing_zeros 32 power_of_two_size) (trailing_zeros 32 MIN_POSSIBLE_ALLOCATION).

(** An order is below [N_ORDERS], so the shift loses no bit. *)
Definition Order_size (self : Order) : Z := Z.shiftl MIN_POSSIBLE_ALLOCATION self.

(** ** Links and headers *)
Definition NIL_MARKER : Z := u_max 32.

Inductive Link : Type :=
| Nil
| Ptr (p : Z).

Definition Link_from_raw (raw : Z) : Link :=
  if negb (raw =? NIL_MARKER) then Ptr raw else Nil.

Definition Link_into_raw (self : Link) : Z :=
  match self with Nil => NIL_MARKER | Ptr p => p end.

Inductive Header : Type :=
| Free (link : Link)
| Occupied (order : Order).

Definition into_occupied (self : Header) : option Order :=
  match self with Occupied order => Some order | _ => None end.

Definition into_free (self : Header) : option Link :=
  match self with Free link => Some link | _ => None end.

(** ** Linear memory *)
Class Memory (Mem : Type) : Type := {
  read_le_u64 : Mem -> Z -> res Error Z;
  write_le_u64 : Mem -> Z -> Z -> res Error Mem;
  mem_size : Mem -> res Error Z }.

(** What the allocator relies on.  [mem_len] is the length of the memory. *)
Class MemoryLaws (Mem : Type) `{Memory Mem} : Type := {
  mem_len : Mem -> Z;
  mem_len_nonneg m : 0 <= mem_len m;
  mem_size_spec m : mem_len m < 2 ^ 32 -> mem_size m = Ok (mem_len m);
  read_in m p : mem_len m < 2 ^ 32 -> 0 <= p -> p + 8 <= mem_len m ->
    exists v, is_u 64 v /\ read_le_u64 m p = Ok v;
  write_in m p v : mem_len m < 2 ^ 32 -> 0 <= p -> p + 8 <= mem_len m -> is_u 64 v ->
    exists m', write_le_u64 m p v = Ok m' /\ mem_len m' = mem_len m /\
      read_le_u64 m' p = Ok v /\
      forall q, 0 <= q -> q + 8 <= p \/ p + 8 <= q -> read_le_u64 m' q = read_le_u64 m q }.

Definition Header_read_from `{Memory Mem} (memory : Mem) (header_ptr : Z) : res Error Header :=
  raw_header ← read_le_u64 memory header_ptr;
  let occupied := negb (Z.land raw_header 0x0000000100000000 =? 0) in
  let header_data := cast 32 raw_header in
  if occupied : bool then Occupied <$> Order_from_raw header_data
  else Ok (Free (Link_from_raw header_data)).

Definition Header_write_into `{Memory Mem} (self : Header) (memory : Mem) (header_ptr : Z) :
    res Error Mem :=
  let '(header_data, occupied_mask) :=
    match self with
    | Occupied order => (order, 0x0000000100000000)
    | Free link => (Link_into_raw link, 0)
    end in
  let raw_header := Z.lor header_data occupied_mask in
  write_le_u64 memory header_ptr raw_header.

(** ** Free lists *)
Record FreeLists : Type := mkFreeLists { heads : list Link }.

Definition FreeLists_new : FreeLists := mkFreeLists (replicate N_ORDERS Nil).

(** [self[order]]; an order out of range panics. *)
Definition FreeLists_index {E} (self : FreeLists) (order : Order) : res E Link :=
  expect (heads self !! Z.to_nat order).

(** [self[order] = new] *)
Definition FreeLists_index_mut {E} (self : FreeLists) (order : Order) (new : Link) : res E FreeLists :=
  _ ← FreeLists_index self order;
  Ok (mkFreeLists (<[Z.to_nat order := new]> (heads self))).

Definition FreeLists_replace {E} (self : FreeLists) (order : Order) (new : Link) :
    res E (Link * FreeLists) :=
  prev ← FreeLists_index self order;
  self' ← FreeLists_index_mut self order new;
  Ok (prev, self').

(** ** The allocator *)
Record FreeingBumpHeapAllocator : Type := mkAllocator {
  bumper : Z;
  free_lists : FreeLists;
  total_size : Z;
  poisoned : bool;
  max_total_size : Z;
  max_bumper : Z }.

Definition FreeingBumpHeapAllocator_new `{OverflowChecks} {E} (heap_base : Z) :
    res E FreeingBumpHeapAllocator :=
  a ← uadd 32 heap_base ALIGNMENT;
  b ← usub 32 a 1;
  aligned_heap_base ← umul 32 (b / ALIGNMENT) ALIGNMENT;
  Ok (mkAllocator aligned_heap_base FreeLists_new 0 false 0 aligned_heap_base).

Definition bump `{OverflowChecks} (bumper size heap_end : Z) : res Error (Z * Z) :=
  new_bumper ← uadd 32 bumper size;
  if heap_end <? new_bumper then Err AllocatorOutOfSpace
  else
    let res := bumper in
    bumper' ← uadd 32 bumper size;
    Ok (res, bumper').

Section allocator.
Context `{OC : OverflowChecks} {Mem : Type} `{MM : Memory Mem}.

(** The allocator and the memory it is called with. *)
Definition Heap : Type := FreeingBumpHeapAllocator * Mem.

Definition with_bumper (b : Z) (a : FreeingBumpHeapAllocator) : FreeingBumpHeapAllocator :=
  mkAllocator b (free_lists a) (total_size a) (poisoned a) (max_total_size a) (max_bumper a).
Definition with_free_lists (f : FreeLists) (a : FreeingBumpHeapAllocator) : FreeingBumpHeapAllocator :=
  mkAllocator (bumper a) f (total_size a) (poisoned a) (max_total_size a) (max_bumper a).
Definition with_total_size (t : Z) (a : FreeingBumpHeapAllocator) : FreeingBumpHeapAllocator :=
  mkAllocator (bumper a) (free_lists a) t (poisoned a) (max_total_size a) (max_bumper a).
Definition with_poisoned (p : bool) (a : FreeingBumpHeapAllocator) : FreeingBumpHeapAllocator :=
  mkAllocator (bumper a) (free_lists a) (total_size a) p (max_total_size a) (max_bumper a).
Definition with_trackers (t b : Z) (a : FreeingBumpHeapAllocator) : FreeingBumpHeapAllocator :=
  mkAllocator (bumper a) (free_lists a) (total_size a) (poisoned a) t b.

Definition set_alloc (f : FreeingBumpHeapAllocator -> FreeingBumpHeapAllocator) : M Heap Error unit :=
  modify (fun h => (f h.1, h.2)).
Definition get_alloc : M Heap Error FreeingBumpHeapAllocator := gets fst.
Definition get_mem : M Heap Error Mem := gets snd.
Definition set_mem (m : Mem) : M Heap Error unit := modify (fun h => (h.1, m)).

(** [PoisonBomb]: the guard is created before [body] runs and disarmed at its
    successful end; on every other exit its destructor raises the flag. *)
Definition with_bomb {A} (body : M Heap Error A) : M Heap Error A :=
  fun h => match body h with
           | (h', Ok a) => (h', Ok a)
           | (h', r) => ((with_poisoned true h'.1, h'.2), r)
           end.

(** [allocate] between the creation of the bomb and its disarming. *)
Definition allocate_armed (size : Z) : M Heap Error Z :=
  order ← lift (Order_from_size size);
  a ← get_alloc;
  link ← lift (FreeLists_index (free_lists a) order);
  header_ptr ←
    (match link with
     | Ptr header_ptr =>
       mem ← get_mem;
       block_end ← lift (x ← uadd 32 header_ptr (Order_size order); uadd 32 x HEADER_SIZE);
       mem_size ← lift (mem_size mem);
       _ ← lift (assert_ (block_end <=? mem_size));
       header ← lift (Header_read_from mem header_ptr);
       next_free ← lift (ok_or (into_free header) (error "free list points to a occupied header"));
       fl ← lift (FreeLists_index_mut (free_lists a) order next_free);
       _ ← set_alloc (with_free_lists fl);
       mret header_ptr
     | Nil =>
       mem ← get_mem;
       block_size ← lift (uadd 32 (Order_size order) HEADER_SIZE);
       mem_size ← lift (mem_size mem);
       p ← lift (bump (bumper a) block_size mem_size);
       _ ← set_alloc (with_bumper p.2);
       mret p.1
     end);
  mem ← get_mem;
  mem' ← lift (Header_write_into (Occupied order) mem header_ptr);
  _ ← set_mem mem';
  a ← get_alloc;
  total ← lift (x ← uadd 32 (Order_size order) HEADER_SIZE; uadd 32 (total_size a) x);
  _ ← set_alloc (with_total_size total);
  a ← get_alloc;
  _ ← set_alloc (with_trackers
        (if max_total_size a <? total_size a then total_size a else max_total_size a)
        (if max_bumper a <? bumper a then bumper a else max_bumper a));
  mret header_ptr.

Definition allocate (size : Z) : M Heap Error Z :=
  a ← get_alloc;
  if poisoned a then throw (error "the allocator has been poisoned")
  else
    header_ptr ← with_bomb (allocate_armed size);
    lift (uadd 32 header_ptr HEADER_SIZE).

(** [deallocate] between the creation of the bomb and its disarming. *)
Definition deallocate_armed (ptr : Z) : M Heap Error unit :=
  header_ptr ← lift (ok_or (checked_sub 32 ptr HEADER_SIZE) (error "Invalid pointer for deallocation"));
  mem ← get_mem;
  header ← lift (Header_read_from mem header_ptr);
  order ← lift (ok_or (into_occupied header) (error "the allocation points to an empty header"));
  a ← get_alloc;
  p ← lift (FreeLists_replace (free_lists a) order (Ptr header_ptr));
  _ ← set_alloc (with_free_lists p.2);
  mem' ← lift (Header_write_into (Free p.1) mem header_ptr);
  _ ← set_mem mem';
  a ← get_alloc;
  block_size ← lift (uadd 32 (Order_size order) HEADER_SIZE);
  total ← lift (ok_or (checked_sub 32 (total_size a) block_size)
                  (error "Unable to subtract from total heap size without overflow"));
  set_alloc (with_total_size total).

Definition deallocate (ptr : Z) : M Heap Error unit :=
  a ← get_alloc;
  if poisoned a then throw (error "the allocator has been poisoned")
  else with_bomb (deallocate_armed ptr).
End allocator.

(** ** The byte-slice memory *)
Definition heap_range (offset length heap_len : Z) : option (Z * Z) :=
  end_ ← checked_add 32 offset length;
  if end_ <=? heap_len then Some (offset, end_) else None.

Definition slice_read_le_u64 (self : list byte) (ptr : Z) : res Error Z :=
  range ← ok_or (heap_range ptr 8 (Z.of_nat (length self))) (error "read out of heap bounds");
  Ok (LittleEndianList.le_combine
        (take (Z.to_nat (range.2 - range.1)) (drop (Z.to_nat range.1) self))).

Definition slice_write_le_u64 (self : list byte) (ptr val : Z) : res Error (list byte) :=
  range ← ok_or (heap_range ptr 8 (Z.of_nat (length self))) (error "write out of heap bounds");
  let bytes := LittleEndianList.le_split 8 val in
  Ok (take (Z.to_nat range.1) self ++ bytes ++ drop (Z.to_nat range.2) self).

Definition slice_size (self : list byte) : res Error Z :=
  expect (checked 32 (Z.of_nat (length self))).

#[export] Instance slice_Memory : Memory (list byte) := {
  read_le_u64 := slice_read_le_u64;
  write_le_u64 := slice_write_le_u64;
  mem_size := slice_size }.

Lemma heap_range_Some p n len :
  0 <= p -> 0 <= n -> p + n <= len -> len < 2 ^ 32 -> heap_range p n len = Some (p, p + n).
Proof.
  intros. unfold heap_range, checked_add. rewrite checked_ok by (unfold is_u; lia). simpl.
  by replace (p + n <=? len) with true by lia.
Qed.

Lemma heap_range_None p n len : len < p + n -> heap_range p n len = None.
Proof.
  intros. unfold heap_range, checked_add, checked. case_match; [|done]. simpl.
  by replace (p + n <=? len) with false by lia.
Qed.

Lemma slice_read_eq self p :
  Z.of_nat (length self) < 2 ^ 32 -> 0 <= p -> p + 8 <= Z.of_nat (length self) ->
  slice_read_le_u64 self p = Ok (LittleEndianList.le_combine (take 8 (drop (Z.to_nat p) self))).
Proof.
  intros. unfold slice_read_le_u64. rewrite heap_range_Some by lia. cbn -[Z.add].
  by replace (Z.to_nat (p + 8 - p)) with 8%nat by lia.
Qed.

Lemma slice_write_eq self p v :
  Z.of_nat (length self) < 2 ^ 32 -> 0 <= p -> p + 8 <= Z.of_nat (length self) ->
  slice_write_le_u64 self p v =
    Ok (take (Z.to_nat p) self ++ LittleEndianList.le_split 8 v ++ drop (Z.to_nat p + 8) self).
Proof.
  intros. unfold slice_write_le_u64. rewrite heap_range_Some by lia. cbn -[Z.add].
  by replace (Z.to_nat (p + 8)) with (Z.to_nat p + 8)%nat by lia.
Qed.

Lemma window_splice {A} (l b : list A) p q :
  (length b = 8)%nat -> (p + 8 <= length l)%nat -> (q + 8 <= p \/ p + 8 <= q)%nat ->
  take 8 (drop q (take p l ++ b ++ drop (p + 8) l)) = take 8 (drop q l).
Proof.
  intros Hb Hl Hq. apply list_eq. intros i.
  destruct (decide (i < 8)%nat); [|by rewrite !lookup_take_ge by lia].
  rewrite !lookup_take, !decide_True, !lookup_drop by lia.
  destruct Hq.
  - rewrite lookup_app_l by (rewrite length_take; lia). by rewrite lookup_take, decide_True by lia.
  - rewrite lookup_app_r by (rewrite length_take; lia).
    rewrite lookup_app_r by (rewrite length_take; lia).
    rewrite lookup_drop. f_equal. rewrite length_take. lia.
Qed.

#[export] Program Instance slice_MemoryLaws : MemoryLaws (list byte) := {
  mem_len m := Z.of_nat (length m) }.
Next Obligation. intros m. cbv beta. lia. Qed.
Next Obligation.
  cbv beta. intros m Hm. simpl. unfold slice_size. rewrite checked_ok by (unfold is_u; lia). done.
Qed.
Next Obligation.
  cbv beta. intros m p Hm Hp Hlen. simpl. rewrite slice_read_eq by done. eexists. split; [|done].
  pose proof (LittleEndianList.le_combine_bound (take 8 (drop (Z.to_nat p) m))) as Hb.
  rewrite length_take, length_drop in Hb. unfold is_u.
  replace (8 * Z.of_nat (8 `min` (length m - Z.to_nat p))) with 64 in Hb by lia. done.
Qed.
Next Obligation.
  cbv beta. intros m p v Hm Hp Hlen Hv. simpl.
  pose proof (LittleEndianList.length_le_split 8 v) as Hs.
  rewrite slice_write_eq by done. eexists. split; [done|].
  set (m' := _ ++ _ ++ _).
  assert (length m' = length m) as Hlen'.
  { unfold m'. rewrite !length_app, length_take, length_drop. lia. }
  rewrite Hlen'. split_and!; [done|..].
  - rewrite slice_read_eq by lia. unfold m'.
    rewrite drop_app_length' by (rewrite length_take; lia).
    rewrite take_app_length' by done. rewrite LittleEndianList.le_combine_split.
    f_equal. by apply Z.mod_small.
  - intros q Hq Hdis. destruct (Z.le_gt_cases (q + 8) (Z.of_nat (length m))).
    + rewrite !slice_read_eq by lia. unfold m'. by rewrite window_splice by lia.
    + unfold slice_read_le_u64. by rewrite Hlen', heap_range_None by lia.
Qed.

(** ** Orders *)
Section order_lemmas.
Context `{OC : OverflowChecks}.

Lemma Order_size_eq o : 0 <= o -> Order_size o = 8 * 2 ^ o.
Proof. intros. unfold Order_size, MIN_POSSIBLE_ALLOCATION. by rewrite Z.shiftl_mul_pow2. Qed.

Lemma Order_size_bounds o : 0 <= o < Z.of_nat N_ORDERS -> 8 <= Order_size o <= 2 ^ 25.
Proof.
  intros Ho. rewrite Order_size_eq by lia. unfold N_ORDERS in Ho.
  pose proof (Z.pow_le_mono_r 2 0 o ltac:(lia) ltac:(lia)).
  pose proof (Z.pow_le_mono_r 2 o 22 ltac:(lia) ltac:(lia)). simpl in *. lia.
Qed.

Lemma Order_size_mod o : 0 <= o -> Order_size o mod 8 = 0.
Proof. intros. rewrite Order_size_eq by done. rewrite Z.mul_comm. apply Z.mod_mul. done. Qed.

Lemma Order_from_size_ok size :
  0 <= size <= MAX_POSSIBLE_ALLOCATION ->
  exists o, Order_from_size size = Ok o /\ 0 <= o < Z.of_nat N_ORDERS /\
    Order_size o = next_power_of_two (Z.max 8 size).
Proof.
  intros Hs. unfold Order_from_size. unfold MAX_POSSIBLE_ALLOCATION, MIN_POSSIBLE_ALLOCATION in *.
  replace (_ <? size) with false by lia.
  replace (if size <? 8 then 8 else size) with (Z.max 8 size) by (destruct (size <? 8) eqn:?; lia).
  set (c := Z.max 8 size). unfold next_power_of_two.
  assert (3 <= Z.log2_up c <= 25) as Hl.
  { split; [apply (Z.log2_up_le_mono 8)|apply (Z.log2_up_le_mono _ 33554432)]; lia. }
  rewrite trailing_zeros_pow2 by lia. change (trailing_zeros 32 8) with 3.
  exists (Z.log2_up c - 3). rewrite usub_ok by (unfold is_u; lia). unfold N_ORDERS.
  split_and!; [done|lia..|]. rewrite Order_size_eq by lia.
  change 8 with (2 ^ 3). rewrite <-Z.pow_add_r by lia. f_equal. lia.
Qed.

Lemma Order_from_size_too_large size :
  MAX_POSSIBLE_ALLOCATION < size -> Order_from_size size = Err RequestedAllocationTooLarge.
Proof. intros. unfold Order_from_size. by replace (_ <? size) with true by lia. Qed.
End order_lemmas.

(** ** Headers in memory *)
Definition header_ok (h : Header) : Prop :=
  match h with
  | Free Nil => True
  | Free (Ptr p) => is_u 32 p /\ p <> NIL_MARKER
  | Occupied o => 0 <= o < Z.of_nat N_ORDERS
  end.

Lemma Link_roundtrip l :
  match l with Ptr p => p <> NIL_MARKER | Nil => True end -> Link_from_raw (Link_into_raw l) = l.
Proof. destruct l as [|p]; [done|]. intros Hp. unfold Link_from_raw; simpl. by replace (p =? NIL_MARKER) with false by lia. Qed.

Lemma mask_occupied d : is_u 32 d ->
  Z.land (Z.lor d (2 ^ 32)) (2 ^ 32) <> 0 /\ cast 32 (Z.lor d (2 ^ 32)) = d /\
  is_u 64 (Z.lor d (2 ^ 32)).
Proof.
  intros Hd. split_and!.
  - rewrite Z.land_lor_distr_l. intros [_ Hz]%Z.lor_eq_0_iff. done.
  - unfold cast. rewrite <-Z.land_ones, Z.land_lor_distr_l, Z.land_ones by done.
    rewrite Z.mod_small by exact Hd. by rewrite Z.lor_0_r.
  - unfold is_u in *. split; [apply Z.lor_nonneg; lia|].
    apply Z.log2_lt_cancel. rewrite Z.log2_lor by lia.
    rewrite (Z.log2_pow2 64), (Z.log2_pow2 32) by lia.
    destruct (decide (d = 0)) as [->|]; [simpl; lia|].
    assert (Z.log2 d < 32) by (apply Z.log2_lt_pow2; lia). lia.
Qed.

Lemma mask_free d : is_u 32 d ->
  Z.land (Z.lor d 0) (2 ^ 32) = 0 /\ cast 32 (Z.lor d 0) = d /\ is_u 64 (Z.lor d 0).
Proof.
  intros Hd. rewrite Z.lor_0_r. split_and!.
  - rewrite <-(Z.mod_small d (2 ^ 32)) by exact Hd. rewrite <-Z.land_ones, <-Z.land_assoc by done.
    by rewrite Z.land_0_r.
  - by apply cast_id.
  - unfold is_u in *. lia.
Qed.

Section headers.
Context {Mem : Type} `{MemoryLaws Mem}.

(** [m'] is [m] but for the word at [p]. *)
Definition word_frame (m : Mem) (p : Z) (m' : Mem) : Prop :=
  mem_len m' = mem_len m /\
  forall q, 0 <= q -> q + 8 <= p \/ p + 8 <= q -> read_le_u64 m' q = read_le_u64 m q.

Lemma Header_read_ext m m' q :
  read_le_u64 m' q = read_le_u64 m q -> Header_read_from m' q = Header_read_from m q.
Proof. intros Hq. unfold Header_read_from. by rewrite Hq. Qed.

Lemma Header_roundtrip h m p :
  mem_len m < 2 ^ 32 -> 0 <= p -> p + 8 <= mem_len m -> header_ok h ->
  exists m', Header_write_into h m p = Ok m' /\ Header_read_from m' p = Ok h /\ word_frame m p m'.
Proof.
  intros Hm Hp Hl Hok. unfold Header_write_into, Header_read_from.
  assert (exists raw mask, match h with Occupied o => (o, 0x100000000) | Free l => (Link_into_raw l, 0) end = (raw, mask)
    /\ is_u 64 (Z.lor raw mask) /\
    (if negb (Z.land (Z.lor raw mask) 0x100000000 =? 0) : bool
     then Occupied <$> Order_from_raw (cast 32 (Z.lor raw mask))
     else Ok (Free (Link_from_raw (cast 32 (Z.lor raw mask))))) = Ok h) as (raw & mask & -> & Hraw & Hdec).
  { destruct h as [l|o].
    - assert (is_u 32 (Link_into_raw l)) as Hu.
      { destruct l; [unfold is_u, Link_into_raw, NIL_MARKER, u_max; lia|]. apply Hok. }
      destruct (mask_free _ Hu) as (Hz & Hc & Hr). eexists _, _. split_and!; [done..|].
      change 0x100000000 with (2 ^ 32). rewrite Hz, Hc. simpl. rewrite Link_roundtrip; [done|].
      destruct l; [done|]. apply Hok.
    - simpl in Hok. assert (is_u 32 o) as Hu by (unfold is_u, N_ORDERS in *; lia).
      destruct (mask_occupied _ Hu) as (Hz & Hc & Hr). eexists _, _. split_and!; [done..|].
      change 0x100000000 with (2 ^ 32). rewrite Hc. replace (_ =? 0) with false by lia. simpl.
      unfold Order_from_raw. by replace (o <? _) with true by lia. }
  destruct (write_in m p (Z.lor raw mask)) as (m' & -> & Hlen & Hread & Hframe); [done..|].
  exists m'. split_and!; [done| |done]. rewrite Hread. cbn [mbind res_mbind]. exact Hdec.
Qed.
End headers.

(** ** Blocks

    A block [(p, o)] is the header at [p] and the [Order_size o] bytes after
    it.  The heap from its base to the bump pointer is a sequence of blocks
    without gaps. *)
Definition block : Type := Z * Z.

Definition block_len (b : block) : Z := Order_size b.2 + HEADER_SIZE.
Definition block_end (b : block) : Z := b.1 + block_len b.
Definition order_ok (o : Z) : Prop := 0 <= o < Z.of_nat N_ORDERS.

Definition disjoint_blocks (b b' : block) : Prop :=
  block_end b <= b'.1 \/ block_end b' <= b.1.

Fixpoint tiles (a : Z) (bs : list block) (e : Z) : Prop :=
  match bs with
  | [] => a = e
  | b :: bs' => b.1 = a /\ order_ok b.2 /\ tiles (block_end b) bs' e
  end.

Definition sum_len (bs : list block) : Z := foldr (fun b acc => block_len b + acc) 0 bs.

Lemma block_len_bounds b : order_ok b.2 -> 16 <= block_len b <= 2 ^ 25 + 8.
Proof. intros Ho. pose proof (Order_size_bounds _ Ho). unfold block_len, HEADER_SIZE. lia. Qed.

Lemma tiles_le a bs e : tiles a bs e -> a <= e.
Proof.
  revert a. induction bs as [|b bs IH]; simpl; intros a Ht; [lia|].
  destruct Ht as (<- & Ho & Ht). pose proof (block_len_bounds b Ho). apply IH in Ht.
  unfold block_end in Ht. lia.
Qed.

Lemma tiles_in a bs e b : tiles a bs e -> b ∈ bs ->
  a <= b.1 /\ block_end b <= e /\ order_ok b.2 /\ (b.1 - a) mod 8 = 0.
Proof.
  revert a. induction bs as [|b' bs IH]; simpl; intros a Ht Hin; [by apply not_elem_of_nil in Hin|].
  destruct Ht as (<- & Ho & Ht). pose proof (block_len_bounds b' Ho) as Hb.
  apply elem_of_cons in Hin as [->|Hin].
  - rewrite Z.sub_diag. split_and!; [lia|by eapply tiles_le|apply Ho..|done].
  - destruct (IH _ Ht Hin) as (H1 & H2 & H3 & H4). unfold block_end in *.
    split_and!; [lia|done|apply H3..|].
    replace (b.1 - b'.1) with (b.1 - (b'.1 + block_len b') + (Order_size b'.2 + 1 * 8))
      by (unfold block_len, HEADER_SIZE; lia).
    rewrite Z.add_mod, H4, Z.add_0_l, Z.mod_mod, Z.mod_add by done. apply Order_size_mod, Ho.
Qed.

Lemma tiles_disjoint a bs e b b' : tiles a bs e -> b ∈ bs -> b' ∈ bs -> b = b' \/ disjoint_blocks b b'.
Proof.
  revert a. induction bs as [|c bs IH]; simpl; intros a Ht Hb Hb'; [by apply not_elem_of_nil in Hb|].
  destruct Ht as (<- & Ho & Ht). unfold disjoint_blocks.
  apply elem_of_cons in Hb as [->|Hb]; apply elem_of_cons in Hb' as [->|Hb'].
  - by left.
  - right; left. by apply (tiles_in _ _ _ _ Ht Hb').
  - right; right. by apply (tiles_in _ _ _ _ Ht Hb).
  - by eapply IH.
Qed.

Lemma tiles_snoc a bs e o : tiles a bs e -> order_ok o ->
  tiles a (bs ++ [(e, o)]) (block_end (e, o)).
Proof.
  revert a. induction bs as [|b bs IH]; simpl; intros a Ht Ho; [by subst|].
  destruct Ht as (? & ? & ?). auto.
Qed.

Lemma tiles_sum a bs e : tiles a bs e -> sum_len bs = e - a.
Proof.
  revert a. induction bs as [|b bs IH]; simpl; intros a Ht; [lia|].
  destruct Ht as (<- & Ho & Ht). rewrite (IH _ Ht). unfold block_end. lia.
Qed.

Lemma sum_len_app l k : sum_len (l ++ k) = sum_len l + sum_len k.
Proof. induction l as [|b l IH]; simpl; lia. Qed.

Lemma sum_len_perm l k : l ≡ₚ k -> sum_len l = sum_len k.
Proof. induction 1; simpl; lia. Qed.

Lemma sum_len_nonneg l : (forall b, b ∈ l -> order_ok b.2) -> 0 <= sum_len l.
Proof.
  induction l as [|b l IH]; simpl; intros Hl; [lia|].
  pose proof (block_len_bounds b (Hl b ltac:(left))).
  enough (0 <= sum_len l) by lia. apply IH. intros. apply Hl. by right.
Qed.

Lemma sum_len_subset l k : NoDup l -> (forall b, b ∈ l -> b ∈ k) ->
  (forall b, b ∈ k -> order_ok b.2) -> sum_len l <= sum_len k.
Proof.
  intros Hnd Hsub Hok.
  pose proof (NoDup_submseteq l k Hnd Hsub) as Hs. apply submseteq_Permutation in Hs as [k' Hp].
  rewrite (sum_len_perm _ _ Hp), sum_len_app.
  enough (0 <= sum_len k') by lia. apply sum_len_nonneg. intros b Hb. apply Hok. rewrite Hp.
  apply elem_of_app. by right.
Qed.

(** ** Free lists in memory *)
Section inv.
Context `{OC : OverflowChecks} {Mem : Type} `{ML : MemoryLaws Mem}.
Implicit Types (m : Mem) (live bs : list block) (p o : Z).

Inductive linked m : Link -> list Z -> Prop :=
| linked_nil : linked m Nil []
| linked_cons p l ps :
    Header_read_from m p = Ok (Free l) -> linked m l ps -> linked m (Ptr p) (p :: ps).

Lemma linked_frame m m' l ps :
  (forall p, p ∈ ps -> Header_read_from m' p = Header_read_from m p) -> linked m l ps -> linked m' l ps.
Proof.
  intros Hf Hl. induction Hl as [|p l ps Hr Hl IH]; econstructor.
  - rewrite Hf; [exact Hr|left].
  - apply IH. intros q Hq. apply Hf. by right.
Qed.

Lemma linked_head m p ps : linked m (Ptr p) ps -> p ∈ ps.
Proof. inversion 1. left. Qed.

(** The invariant between the calls: the heap from [base] to the bump pointer
    is tiled by [bs]; the live blocks carry an occupied header with their
    order; the blocks that are not live are exactly those on the free list of
    their order; the book-kept total is the length of the live blocks.

    [MAX_MEM] bounds the memory so that the bump pointer plus one block fits
    in 32 bits. *)
Definition MAX_MEM : Z := 2 ^ 32 - 2 ^ 25 - 9.

Record inv_at (base : Z) live bs (fl : Z -> list Z) (h : Heap (Mem := Mem)) : Prop := {
  inv_poisoned : poisoned h.1 = false;
  inv_mem : mem_len h.2 <= MAX_MEM;
  inv_base : 0 <= base <= MAX_MEM;
  inv_aligned : base mod 8 = 0;
  inv_tiles : tiles base bs (bumper h.1);
  inv_bound : forall b, b ∈ bs -> block_end b <= mem_len h.2;
  inv_live_nodup : NoDup live;
  inv_live_sub : forall b, b ∈ live -> b ∈ bs;
  inv_live_hdr : forall b, b ∈ live -> Header_read_from h.2 b.1 = Ok (Occupied b.2);
  inv_heads : length (heads (free_lists h.1)) = N_ORDERS;
  inv_fl_nodup : forall o, NoDup (fl o);
  inv_fl : forall p o, order_ok o -> p ∈ fl o <-> (p, o) ∈ bs /\ (p, o) ∉ live;
  inv_linked : forall o l, order_ok o -> heads (free_lists h.1) !! Z.to_nat o = Some l ->
    linked h.2 l (fl o);
  inv_total : total_size h.1 = sum_len live }.

Definition inv (base : Z) live (h : Heap (Mem := Mem)) : Prop :=
  exists bs fl, inv_at base live bs fl h.

Lemma tiles_end a bs e : tiles a bs e -> bs = [] /\ e = a \/ exists b, b ∈ bs /\ block_end b = e.
Proof.
  revert a. induction bs as [|b bs IH]; simpl; intros a Ht; [by left|right].
  destruct Ht as (_ & _ & [[-> ->]|(b' & Hb' & <-)]%IH).
  - exists b. split; [left|done].
  - exists b'. split; [by right|done].
Qed.

Section with_inv.
Context {base : Z} {live bs : list block} {fl : Z -> list Z} {h : Heap (Mem := Mem)}.
Hypothesis I : inv_at base live bs fl h.

Lemma inv_bumper : base <= bumper h.1 <= MAX_MEM.
Proof.
  pose proof (tiles_le _ _ _ (inv_tiles _ _ _ _ _ I)). pose proof (inv_base _ _ _ _ _ I).
  pose proof (inv_mem _ _ _ _ _ I).
  destruct (tiles_end _ _ _ (inv_tiles _ _ _ _ _ I)) as [[_ He]|(b & Hb & He)]; [lia|].
  pose proof (inv_bound _ _ _ _ _ I b Hb). lia.
Qed.

(** A block of the heap is in bounds, aligned and of a valid order. *)
Lemma inv_block b : b ∈ bs ->
  0 <= b.1 /\ block_end b <= mem_len h.2 /\ order_ok b.2 /\ b.1 mod 8 = 0 /\ b.1 + 16 <= mem_len h.2.
Proof.
  intros Hb. destruct (tiles_in _ _ _ b (inv_tiles _ _ _ _ _ I) Hb) as (H1 & H2 & H3 & H4).
  pose proof (inv_base _ _ _ _ _ I). pose proof (inv_bound _ _ _ _ _ I b Hb) as Hend.
  pose proof (block_len_bounds b H3). split_and!; [lia|done|apply H3..| |unfold block_end in *; lia].
  replace b.1 with ((b.1 - base) + base) by lia.
  rewrite Z.add_mod, H4, (inv_aligned _ _ _ _ _ I) by done. done.
Qed.

(** The headers of two blocks do not overlap, nor do the blocks. *)
Lemma inv_apart b b' : b ∈ bs -> b' ∈ bs -> b <> b' ->
  disjoint_blocks b b' /\ (b.1 + 8 <= b'.1 \/ b'.1 + 8 <= b.1).
Proof.
  intros Hb Hb' Hne. destruct (tiles_disjoint _ _ _ b b' (inv_tiles _ _ _ _ _ I)) as [|Hd]; [done..|].
  split; [done|]. pose proof (block_len_bounds b) as L. pose proof (block_len_bounds b') as L'.
  destruct (inv_block b Hb) as (_ & _ & Ho & _). destruct (inv_block b' Hb') as (_ & _ & Ho' & _).
  specialize (L Ho). specialize (L' Ho'). unfold disjoint_blocks, block_end in Hd. lia.
Qed.

Lemma inv_total_bound : 0 <= total_size h.1 <= bumper h.1 - base.
Proof.
  rewrite (inv_total _ _ _ _ _ I), <-(tiles_sum _ _ _ (inv_tiles _ _ _ _ _ I)). split.
  - apply sum_len_nonneg. intros b Hb. by apply inv_block, (inv_live_sub _ _ _ _ _ I).
  - apply sum_len_subset; [apply I..|]. intros b Hb. by apply inv_block.
Qed.

Lemma inv_head o : order_ok o -> exists l, heads (free_lists h.1) !! Z.to_nat o = Some l /\ linked h.2 l (fl o).
Proof.
  intros Ho. destruct (lookup_lt_is_Some_2 (heads (free_lists h.1)) (Z.to_nat o)) as [l Hl].
  { rewrite (inv_heads _ _ _ _ _ I). unfold order_ok in Ho. lia. }
  exists l. split; [done|]. by eapply inv_linked.
Qed.

(** A header write at a block leaves the headers of the other blocks. *)
Lemma inv_frame m' b b' : b ∈ bs -> b' ∈ bs -> b <> b' -> word_frame h.2 b.1 m' ->
  Header_read_from m' b'.1 = Header_read_from h.2 b'.1.
Proof.
  intros Hb Hb' Hne [_ Hf]. apply Header_read_ext, Hf; [by apply inv_block|].
  destruct (inv_apart b b' Hb Hb' Hne) as [_ ?]. lia.
Qed.
End with_inv.

Definition fl_set (fl : Z -> list Z) (o : Z) (ps : list Z) : Z -> list Z :=
  fun o' => if decide (o' = o) then ps else fl o'.

(** Popping a block from its free list and marking it occupied. *)
Lemma inv_reuse base live bs fl h a' m' o p ps l :
  inv_at base live bs fl h -> order_ok o -> fl o = p :: ps -> linked h.2 l ps ->
  word_frame h.2 p m' -> Header_read_from m' p = Ok (Occupied o) ->
  poisoned a' = false -> bumper a' = bumper h.1 ->
  heads (free_lists a') = <[Z.to_nat o := l]> (heads (free_lists h.1)) ->
  total_size a' = total_size h.1 + block_len (p, o) ->
  inv_at base ((p, o) :: live) bs (fl_set fl o ps) (a', m').
Proof.
  intros I Ho Hfl Hl Hf Hocc Hpo Hbu Hhe Hto.
  assert ((p, o) ∈ bs /\ (p, o) ∉ live) as [Hb Hn].
  { apply (inv_fl _ _ _ _ _ I p o Ho). rewrite Hfl. left. }
  pose proof (inv_fl_nodup _ _ _ _ _ I o) as Hnd. rewrite Hfl in Hnd. apply NoDup_cons in Hnd as [Hp Hnd].
  assert (forall b', b' ∈ bs -> b' <> (p, o) -> Header_read_from m' b'.1 = Header_read_from h.2 b'.1) as Hfr.
  { intros b' Hb' Hne. by apply (inv_frame I m' (p, o)). }
  assert (forall q o', order_ok o' -> q ∈ fl o' -> (q, o') ∈ bs) as Hin by (intros; by apply (inv_fl _ _ _ _ _ I)).
  destruct Hf as [Hlen _]. split; simpl; rewrite ?Hlen, ?Hbu; try apply I; try done.
  - constructor; [done|apply I].
  - intros b [->|Hb']%elem_of_cons; [done|by apply I].
  - intros b [->|Hb']%elem_of_cons; [done|].
    rewrite Hfr; [by apply I|by apply I|by intros ->].
  - rewrite Hhe, length_insert. apply I.
  - intros o'. unfold fl_set. case_decide; [done|apply I].
  - intros q o' Ho'. pose proof (inv_fl _ _ _ _ _ I q o' Ho') as Hq. unfold fl_set.
    rewrite not_elem_of_cons. case_decide as Ho''; [subst o'|naive_solver].
    rewrite Hfl, elem_of_cons in Hq. split; [|naive_solver].
    intros Hps. split; [tauto|]. split; [|tauto]. intros [= ->]. done.
  - intros o' l' Ho' Hl'. rewrite Hhe in Hl'. unfold fl_set. case_decide as Heq.
    + subst o'. rewrite list_lookup_insert_eq in Hl' by (rewrite (inv_heads _ _ _ _ _ I); unfold order_ok in Ho; lia).
      simplify_eq. eapply linked_frame; [|done]. intros q Hq.
      apply (Hfr (q, o)); [apply Hin; [done|]; rewrite Hfl; by right|]. intros [= ->]. done.
    + rewrite list_lookup_insert_ne in Hl' by (unfold order_ok in *; lia).
      eapply linked_frame; [|by eapply inv_linked]. intros q Hq.
      apply (Hfr (q, o')); [by apply Hin|congruence].
  - rewrite Hto, (inv_total _ _ _ _ _ I). lia.
Qed.

(** A block of its own at the bump pointer. *)
Lemma inv_bump base live bs fl h a' m' o :
  inv_at base live bs fl h -> order_ok o -> block_end (bumper h.1, o) <= mem_len h.2 ->
  word_frame h.2 (bumper h.1) m' -> Header_read_from m' (bumper h.1) = Ok (Occupied o) ->
  poisoned a' = false -> bumper a' = block_end (bumper h.1, o) ->
  free_lists a' = free_lists h.1 ->
  total_size a' = total_size h.1 + block_len (bumper h.1, o) ->
  inv_at base ((bumper h.1, o) :: live) (bs ++ [(bumper h.1, o)]) fl (a', m').
Proof.
  intros I Ho Hend [Hlen Hf] Hocc Hpo Hbu Hhe Hto. pose proof (inv_bumper I) as Hbb.
  pose proof (inv_base _ _ _ _ _ I) as Hbase.
  assert (forall b, b ∈ bs -> b.1 + 16 <= bumper h.1) as Hold.
  { intros b Hb. destruct (tiles_in _ _ _ _ (inv_tiles _ _ _ _ _ I) Hb) as (_ & H2 & H3 & _).
    pose proof (block_len_bounds b H3). unfold block_end in H2. lia. }
  assert ((bumper h.1, o) ∉ bs) as Hnew by (intros Hb%Hold; simpl in Hb; lia).
  assert (forall b, b ∈ bs -> Header_read_from m' b.1 = Header_read_from h.2 b.1) as Hfr.
  { intros b Hb. pose proof (Hold b Hb). apply Header_read_ext, Hf; [by apply (inv_block I)|lia]. }
  split; simpl; rewrite ?Hlen, ?Hbu, ?Hhe; try apply I; try done.
  - apply tiles_snoc; [apply I|done].
  - intros b [Hb| ->%list_elem_of_singleton]%elem_of_app; [by apply I|done].
  - constructor; [|apply I]. intros Hb%(inv_live_sub _ _ _ _ _ I). done.
  - intros b [->|Hb]%elem_of_cons; apply elem_of_app; [right; apply list_elem_of_singleton; done|left; by apply I].
  - intros b [->|Hb]%elem_of_cons; [done|]. rewrite Hfr by (by apply I). by apply I.
  - intros q o' Ho'. rewrite (inv_fl _ _ _ _ _ I q o' Ho'), elem_of_app, list_elem_of_singleton, not_elem_of_cons.
    split; [|tauto]. intros [Hq Hl]. split_and!; [by left|by intros [= -> ->]|done].
  - intros o' l' Ho' Hl'. eapply linked_frame; [|by eapply inv_linked]. intros q Hq.
    apply (Hfr (q, o')). by apply (inv_fl _ _ _ _ _ I).
  - rewrite Hto, (inv_total _ _ _ _ _ I). lia.
Qed.

(** Putting a live block back on its free list. *)
Lemma inv_free base live live' bs fl h a' m' o p l :
  inv_at base live bs fl h -> live ≡ₚ (p, o) :: live' ->
  heads (free_lists h.1) !! Z.to_nat o = Some l ->
  word_frame h.2 p m' -> Header_read_from m' p = Ok (Free l) ->
  poisoned a' = false -> bumper a' = bumper h.1 ->
  heads (free_lists a') = <[Z.to_nat o := Ptr p]> (heads (free_lists h.1)) ->
  total_size a' = total_size h.1 - block_len (p, o) ->
  inv_at base live' bs (fl_set fl o (p :: fl o)) (a', m').
Proof.
  intros I Hperm Hl Hf Hfree Hpo Hbu Hhe Hto.
  assert ((p, o) ∈ live) as Hlive by (rewrite Hperm; left).
  assert ((p, o) ∈ bs) as Hb by (by apply I).
  assert (order_ok o) as Ho by (by apply (inv_block I (p, o))).
  pose proof (inv_live_nodup _ _ _ _ _ I) as Hnd. rewrite Hperm in Hnd. apply NoDup_cons in Hnd as [Hn Hnd].
  assert (forall b', b' ∈ bs -> b' <> (p, o) -> Header_read_from m' b'.1 = Header_read_from h.2 b'.1) as Hfr.
  { intros b' Hb' Hne. by apply (inv_frame I m' (p, o)). }
  assert (forall b, b ∈ live' -> b ∈ live) as Hsub by (intros; rewrite Hperm; by right).
  assert (forall q o', order_ok o' -> q ∈ fl o' -> (q, o') ∈ bs /\ (q, o') <> (p, o)) as Hin.
  { intros q o' Ho' [Hq Hq']%(inv_fl _ _ _ _ _ I); [|done]. split; [done|]. by intros [= -> ->]. }
  destruct Hf as [Hlen _]. split; simpl; rewrite ?Hlen, ?Hbu; try apply I; try done.
  - intros b Hb'. by apply (inv_live_sub _ _ _ _ _ I), Hsub.
  - intros b Hb'. rewrite Hfr; [by apply I, Hsub|by apply I, Hsub|by intros ->].
  - rewrite Hhe, length_insert. apply I.
  - intros o'. unfold fl_set. case_decide; [|apply I]. constructor; [|apply I].
    intros Hp%(Hin p o Ho). naive_solver.
  - intros q o' Ho'. pose proof (inv_fl _ _ _ _ _ I q o' Ho') as Hq. rewrite Hperm, not_elem_of_cons in Hq.
    unfold fl_set. case_decide as Ho''; [subst o'; rewrite elem_of_cons|naive_solver].
    destruct (decide (q = p)) as [->|]; naive_solver.
  - intros o' l' Ho' Hl'. rewrite Hhe in Hl'. unfold fl_set. case_decide as Heq.
    + subst o'. rewrite list_lookup_insert_eq in Hl' by (by eapply lookup_lt_Some). simplify_eq.
      econstructor; [done|]. eapply linked_frame; [|by eapply inv_linked].
      intros q Hq. by apply (Hfr (q, o)); apply Hin.
    + rewrite list_lookup_insert_ne in Hl' by (unfold order_ok in *; lia).
      eapply linked_frame; [|by eapply inv_linked]. intros q Hq. by apply (Hfr (q, o')); apply Hin.
  - rewrite Hto, (inv_total _ _ _ _ _ I), (sum_len_perm _ _ Hperm). simpl. lia.
Qed.

(** ** Runs of the two operations *)
Definition tracked (a : FreeingBumpHeapAllocator) : FreeingBumpHeapAllocator :=
  with_trackers (if max_total_size a <? total_size a then total_size a else max_total_size a)
                (if max_bumper a <? bumper a then bumper a else max_bumper a) a.

Ltac run := cbv [allocate allocate_armed deallocate deallocate_armed with_bomb tracked
  mbind M_mbind lift get_alloc gets get_mem set_alloc modify set_mem mret M_mret throw]; cbn beta iota zeta.

Lemma block_size_ok {E} o : order_ok o -> uadd (E := E) 32 (Order_size o) HEADER_SIZE = Ok (block_len (0, o)).
Proof.
  intros Ho. pose proof (block_len_bounds (0, o) Ho) as Hb. unfold block_len in *. simpl in *.
  apply uadd_ok. unfold is_u. lia.
Qed.

Lemma allocate_reuse_run a m m' o p l size :
  poisoned a = false -> Order_from_size size = Ok o -> order_ok o -> length (heads (free_lists a)) = N_ORDERS ->
  heads (free_lists a) !! Z.to_nat o = Some (Ptr p) -> 0 <= p -> block_end (p, o) <= mem_len m ->
  mem_len m < 2 ^ 32 -> Header_read_from m p = Ok (Free l) ->
  Header_write_into (Occupied o) m p = Ok m' -> is_u 32 (total_size a + block_len (p, o)) ->
  allocate size (a, m) =
    ((tracked (with_total_size (total_size a + block_len (p, o))
        (with_free_lists (mkFreeLists (<[Z.to_nat o := l]> (heads (free_lists a)))) a)), m'), Ok (p + 8)).
Proof.
  intros Hpo Hsz Ho Hlen Hh Hp Hend Hm Hr Hw Ht. pose proof (block_len_bounds (p, o) Ho) as Hb.
  unfold block_end, block_len in *. simpl in *. run. simpl. rewrite Hpo, Hsz. unfold FreeLists_index_mut, FreeLists_index.
  cbn [fst snd]. rewrite Hh. simpl. rewrite !uadd_ok by (unfold is_u, HEADER_SIZE in *; lia). simpl.
  rewrite uadd_ok by (unfold is_u, HEADER_SIZE in *; lia). rewrite mem_size_spec by done. simpl.
  replace (_ <=? _) with true by lia. simpl. rewrite Hr. simpl. rewrite Hw. simpl.
  rewrite !uadd_ok by (unfold is_u, HEADER_SIZE in *; lia). done.
Qed.

Lemma allocate_bump_run a m o size :
  poisoned a = false -> Order_from_size size = Ok o -> order_ok o ->
  heads (free_lists a) !! Z.to_nat o = Some Nil -> 0 <= bumper a <= MAX_MEM ->
  mem_len m < 2 ^ 32 -> is_u 32 (total_size a + block_len (bumper a, o)) ->
  allocate size (a, m) =
    if mem_len m <? block_end (bumper a, o) then ((with_poisoned true a, m), Err AllocatorOutOfSpace)
    else
      let a1 := with_bumper (block_end (bumper a, o)) a in
      match Header_write_into (Occupied o) m (bumper a) with
      | Ok m' => ((tracked (with_total_size (total_size a + block_len (bumper a, o)) a1), m'), Ok (bumper a + 8))
      | Err e => ((with_poisoned true a1, m), Err e)
      | Panic => ((with_poisoned true a1, m), Panic)
      end.
Proof.
  intros Hpo Hsz Ho Hh Hbu Hm Ht. pose proof (block_len_bounds (bumper a, o) Ho) as Hb.
  unfold block_end, block_len, MAX_MEM in *. simpl in *. run. simpl. rewrite Hpo, Hsz. unfold FreeLists_index.
  cbn [fst snd]. rewrite Hh. simpl. rewrite !(uadd_ok 32 (Order_size o)) by (unfold is_u, HEADER_SIZE in *; lia). simpl.
  rewrite mem_size_spec by done. simpl. unfold bump.
  rewrite !uadd_ok by (unfold is_u, HEADER_SIZE in *; lia). simpl.
  destruct (mem_len m <? _); [done|]. simpl. destruct (Header_write_into _ _ _) as [m'|e|]; [|done..]. simpl.
  rewrite !uadd_ok by (unfold is_u, HEADER_SIZE in *; lia). done.
Qed.

Lemma deallocate_run a m m' o p l :
  poisoned a = false -> order_ok o -> 0 <= p -> p + 8 < 2 ^ 32 ->
  heads (free_lists a) !! Z.to_nat o = Some l ->
  Header_read_from m p = Ok (Occupied o) -> Header_write_into (Free l) m p = Ok m' ->
  is_u 32 (total_size a - block_len (p, o)) ->
  deallocate (p + 8) (a, m) =
    ((with_total_size (total_size a - block_len (p, o))
        (with_free_lists (mkFreeLists (<[Z.to_nat o := Ptr p]> (heads (free_lists a)))) a), m'), Ok tt).
Proof.
  intros Hpo Ho Hp Hp' Hh Hr Hw Ht. pose proof (block_len_bounds (p, o) Ho) as Hb.
  unfold block_len in *. simpl in *. run. simpl. rewrite Hpo. unfold checked_sub.
  replace (p + 8 - HEADER_SIZE) with p by (unfold HEADER_SIZE; lia).
  rewrite checked_ok by (unfold is_u; lia). simpl. rewrite Hr. simpl.
  unfold FreeLists_replace, FreeLists_index_mut, FreeLists_index. rewrite Hh. simpl. rewrite Hw. simpl.
  rewrite uadd_ok by (unfold is_u, HEADER_SIZE in *; lia). simpl.
  rewrite checked_ok by (unfold is_u, HEADER_SIZE in *; lia). done.
Qed.

(** What a successful [allocate size] gives: a block of the order of [size],
    aligned, in bounds and apart from every live block, the rest of the memory
    as it was. *)
Definition allocated (base : Z) live (h : Heap (Mem := Mem)) (size ptr : Z) (h' : Heap (Mem := Mem)) (o : Z) : Prop :=
  Order_size o = next_power_of_two (Z.max 8 size) /\ inv base ((ptr - 8, o) :: live) h' /\
  (forall b, b ∈ live -> disjoint_blocks (ptr - 8, o) b) /\
  0 < ptr /\ ptr mod 8 = 0 /\ ptr + Order_size o <= mem_len h'.2 /\ word_frame h.2 (ptr - 8) h'.2.

Lemma inv_at_allocated base live bs fl h h' size p o :
  inv_at base ((p, o) :: live) bs fl h' -> Order_size o = next_power_of_two (Z.max 8 size) ->
  word_frame h.2 p h'.2 -> allocated base live h size (p + 8) h' o.
Proof.
  intros I Hs Hf. unfold allocated. replace (p + 8 - 8) with p by lia.
  assert ((p, o) ∈ bs) as Hb by (apply I; left).
  destruct (inv_block I _ Hb) as (Hp & Hend & Ho & Hal & Hin). unfold block_end, block_len, HEADER_SIZE in Hend. simpl in *.
  split_and!; [done|by exists bs, fl| |lia| |lia|done..].
  - intros b Hbl. pose proof (inv_live_nodup _ _ _ _ _ I) as [Hn _]%NoDup_cons.
    apply (inv_apart I); [done|apply I; by right|by intros <-].
  - rewrite Z.add_mod, Hal by done. done.
Qed.

Lemma allocate_reuse_spec base live bs fl h size o p :
  inv_at base live bs fl h -> Order_from_size size = Ok o -> order_ok o ->
  Order_size o = next_power_of_two (Z.max 8 size) ->
  heads (free_lists h.1) !! Z.to_nat o = Some (Ptr p) ->
  exists h', allocate size h = (h', Ok (p + 8)) /\ allocated base live h size (p + 8) h' o.
Proof.
  intros I Hsz Ho Hos Hh. pose proof (inv_linked _ _ _ _ _ I o _ Ho Hh) as Hl.
  inversion Hl as [|? l ps Hr Hl' Hp Hfl]; subst.
  pose proof (inv_mem _ _ _ _ _ I) as Hm. pose proof (inv_bumper I) as Hbu. pose proof (inv_base _ _ _ _ _ I).
  assert ((p, o) ∈ bs) as Hb. { apply (inv_fl _ _ _ _ _ I p o Ho). rewrite <-Hfl. left. }
  destruct (inv_block I _ Hb) as (Hp & Hend & _ & _ & Hin). unfold MAX_MEM in *. simpl in *.
  destruct (Header_roundtrip (Occupied o) h.2 p) as (m' & Hw & Hocc & Hf); [lia..|done|].
  pose proof (inv_total_bound I) as Ht. pose proof (block_len_bounds (p, o) Ho).
  destruct h as [a m]. simpl in *. eexists. split.
  - eapply allocate_reuse_run; try done; [apply I..|lia|unfold is_u; lia].
  - eapply (inv_at_allocated _ _ bs (fl_set fl o ps)); [|done|done].
    eapply (inv_reuse _ _ _ _ (a, m)); try done. apply I.
Qed.

Lemma allocate_bump_spec base live bs fl h size o :
  inv_at base live bs fl h -> Order_from_size size = Ok o -> order_ok o ->
  Order_size o = next_power_of_two (Z.max 8 size) ->
  heads (free_lists h.1) !! Z.to_nat o = Some Nil ->
  if mem_len h.2 <? block_end (bumper h.1, o)
  then allocate size h = ((with_poisoned true h.1, h.2), Err AllocatorOutOfSpace)
  else exists h', allocate size h = (h', Ok (bumper h.1 + 8)) /\
    allocated base live h size (bumper h.1 + 8) h' o.
Proof.
  intros I Hsz Ho Hos Hh. pose proof (inv_mem _ _ _ _ _ I) as Hm. pose proof (inv_bumper I) as Hbu.
  pose proof (inv_base _ _ _ _ _ I). pose proof (inv_total_bound I) as Ht.
  pose proof (block_len_bounds (bumper h.1, o) Ho). unfold MAX_MEM in *. destruct h as [a m]. simpl in *.
  rewrite (allocate_bump_run a m o size); [|apply I|done..|unfold MAX_MEM; lia|lia|unfold is_u; lia].
  destruct (Z.ltb_spec (mem_len m) (block_end (bumper a, o))) as [|Hend]; [done|].
  destruct (Header_roundtrip (Occupied o) m (bumper a)) as (m' & Hw & Hocc & Hf);
    [lia|lia|unfold block_end in Hend; simpl in Hend; lia|done|].
  rewrite Hw. eexists. split; [done|].
  eapply inv_at_allocated; [|done|done]. eapply (inv_bump _ _ _ _ (a, m)); try done. apply I.
Qed.

(** C18. Under the allocator's invariant, [allocate size] never panics.  A size
    above 32 MiB is refused; otherwise the free list of the order of [size]
    serves the request, or a block is taken at the bump pointer, or the heap
    is exhausted; each error poisons the allocator and changes nothing else.
    On success the block has the power-of-two size of its order, is aligned to
    8, lies inside the memory, overlaps no live block, and only its own header
    word was written; the invariant holds with the block added to the live
    ones. *)
Theorem allocate_spec base live h size :
  is_u 32 size -> inv base live h ->
  match allocate size h with
  | (h', Ok ptr) => size <= MAX_POSSIBLE_ALLOCATION /\ exists o, allocated base live h size ptr h' o
  | (h', Err e) => h' = (with_poisoned true h.1, h.2) /\
      (e = RequestedAllocationTooLarge /\ MAX_POSSIBLE_ALLOCATION < size \/
       e = AllocatorOutOfSpace /\ exists o, Order_size o = next_power_of_two (Z.max 8 size) /\
         heads (free_lists h.1) !! Z.to_nat o = Some Nil /\
         mem_len h.2 < block_end (bumper h.1, o))
  | (_, Panic) => False
  end.
Proof.
  intros Hu (bs & fl & I). destruct (Z.le_gt_cases size MAX_POSSIBLE_ALLOCATION) as [Hle|Hgt].
  - destruct (Order_from_size_ok size) as (o & Hsz & Ho & Hos); [unfold is_u in Hu; lia|].
    destruct (inv_head I o Ho) as ([|p] & Hh & _).
    + pose proof (allocate_bump_spec _ _ _ _ _ _ _ I Hsz Ho Hos Hh) as Hb.
      case_match eqn:Hlt.
      * rewrite Hb. split; [done|right]. apply Z.ltb_lt in Hlt. eauto.
      * destruct Hb as (h' & -> & Hall). eauto.
    + destruct (allocate_reuse_spec _ _ _ _ _ _ _ _ I Hsz Ho Hos Hh) as (h' & -> & Hall). eauto.
  - run. rewrite (inv_poisoned _ _ _ _ _ I), Order_from_size_too_large by lia. simpl. split; [done|left]. split; [done|lia].
Qed.

Lemma deallocate_live base live live' h p o :
  inv base live h -> live ≡ₚ (p, o) :: live' ->
  exists h', deallocate (p + 8) h = (h', Ok tt) /\ inv base live' h' /\ word_frame h.2 p h'.2 /\
    heads (free_lists h'.1) !! Z.to_nat o = Some (Ptr p).
Proof.
  intros (bs & fl & I) Hperm. assert ((p, o) ∈ live) as Hlive by (rewrite Hperm; left).
  assert ((p, o) ∈ bs) as Hb by (by apply I).
  destruct (inv_block I _ Hb) as (Hp & Hend & Ho & _ & Hin). destruct (inv_head I o Ho) as (l & Hh & Hl).
  pose proof (inv_mem _ _ _ _ _ I) as Hm. pose proof (inv_bumper I) as Hbu. pose proof (inv_base _ _ _ _ _ I).
  pose proof (inv_total_bound I) as Ht. pose proof (inv_total _ _ _ _ _ I) as Hto.
  rewrite (sum_len_perm _ _ Hperm) in Hto. pose proof (block_len_bounds (p, o) Ho). simpl in *.
  assert (0 <= sum_len live').
  { apply sum_len_nonneg. intros b Hb'. apply (inv_block I), I. rewrite Hperm. by right. }
  destruct (Header_roundtrip (Free l) h.2 p) as (m' & Hw & Hfree & Hf); [unfold MAX_MEM in *; lia..| |].
  { destruct l as [|q]; [done|]. assert ((q, o) ∈ bs) as Hq.
    { apply (inv_fl _ _ _ _ _ I q o Ho). by eapply linked_head. }
    destruct (inv_block I _ Hq) as (? & _ & _ & _ & ?). simpl in *.
    unfold is_u, NIL_MARKER, u_max, MAX_MEM in *. lia. }
  destruct h as [a m]. simpl in *. eexists. split_and!.
  - eapply deallocate_run; try done; [apply I|unfold MAX_MEM in *; lia| |unfold is_u, MAX_MEM in *; lia].
    by apply (inv_live_hdr _ _ _ _ _ I (p, o)).
  - eexists bs, _. eapply inv_free; try done; apply I.
  - done.
  - simpl. apply list_lookup_insert_eq. by eapply lookup_lt_Some.
Qed.

(** C19. Under the invariant, [deallocate] of the pointer of a live block
    succeeds, puts the block on its free list and leaves the invariant with
    the block removed from the live ones; only the block's header word is
    written. *)
Theorem deallocate_spec base live live' h p o :
  inv base live h -> live ≡ₚ (p, o) :: live' ->
  exists h', deallocate (p + 8) h = (h', Ok tt) /\ inv base live' h' /\ word_frame h.2 p h'.2 /\
    heads (free_lists h'.1) !! Z.to_nat o = Some (Ptr p).
Proof. apply deallocate_live. Qed.

(** ** Executions

    The host runs the two operations and, in between, the wasm code writes
    into the payloads of its live blocks and may grow the memory. *)
Inductive step : list block * Heap (Mem := Mem) -> list block * Heap (Mem := Mem) -> Prop :=
| step_allocate live h size o ptr h' :
    is_u 32 size -> Order_from_size size = Ok o -> allocate size h = (h', Ok ptr) ->
    step (live, h) ((ptr - 8, o) :: live, h')
| step_deallocate live live' h p o h' :
    live ≡ₚ (p, o) :: live' -> deallocate (p + 8) h = (h', Ok tt) -> step (live, h) (live', h')
| step_client live a m m' :
    mem_len m <= mem_len m' <= MAX_MEM ->
    (forall q, 0 <= q -> q + 8 <= mem_len m ->
       (forall b, b ∈ live -> q + 8 <= b.1 + 8 \/ block_end b <= q) ->
       read_le_u64 m' q = read_le_u64 m q) ->
    step (live, (a, m)) (live, (a, m')).

Lemma allocate_ok base live h size o h' ptr :
  is_u 32 size -> inv base live h -> Order_from_size size = Ok o -> allocate size h = (h', Ok ptr) ->
  allocated base live h size ptr h' o.
Proof.
  intros Hu (bs & fl & I) Hsz Hal.
  assert (size <= MAX_POSSIBLE_ALLOCATION) as Hle.
  { unfold Order_from_size in Hsz. destruct (Z.ltb_spec MAX_POSSIBLE_ALLOCATION size); [done|lia]. }
  destruct (Order_from_size_ok size) as (o' & Hsz' & Ho & Hos); [unfold is_u in Hu; lia|].
  rewrite Hsz in Hsz'. injection Hsz' as <-. destruct (inv_head I o Ho) as ([|p] & Hh & _).
  - pose proof (allocate_bump_spec _ _ _ _ _ _ _ I Hsz Ho Hos Hh) as Hb.
    case_match; rewrite Hal in Hb; [congruence|]. destruct Hb as (? & [= -> ->] & ?). done.
  - destruct (allocate_reuse_spec _ _ _ _ _ _ _ _ I Hsz Ho Hos Hh) as (h1 & Hal' & ?).
    rewrite Hal in Hal'. by injection Hal' as -> ->.
Qed.

Lemma inv_client base live a m m' :
  inv base live (a, m) -> mem_len m <= mem_len m' <= MAX_MEM ->
  (forall q, 0 <= q -> q + 8 <= mem_len m ->
     (forall b, b ∈ live -> q + 8 <= b.1 + 8 \/ block_end b <= q) -> read_le_u64 m' q = read_le_u64 m q) ->
  inv base live (a, m').
Proof.
  intros (bs & fl & I) Hlen Hw.
  assert (forall b, b ∈ bs -> Header_read_from m' b.1 = Header_read_from m b.1) as Hfr.
  { intros b Hb. destruct (inv_block I b Hb) as (? & ? & Hob & ? & ?). simpl in *.
    apply Header_read_ext, Hw; [lia..|]. intros b' Hb'. destruct (decide (b' = b)) as [->|Hne]; [lia|].
    apply (inv_live_sub _ _ _ _ _ I) in Hb'. destruct (inv_apart I b' b Hb' Hb Hne) as [Hd _].
    pose proof (inv_block I b' Hb') as (_ & _ & Ho & _). pose proof (block_len_bounds b' Ho).
    pose proof (block_len_bounds b Hob). unfold disjoint_blocks, block_end in *. lia. }
  exists bs, fl. destruct I. split; simpl in *; try done; try lia.
  - intros b Hb. specialize (inv_bound0 b Hb). lia.
  - intros b Hb. rewrite Hfr by auto. auto.
  - intros o l Ho Hl. eapply linked_frame; [|by eauto]. intros q Hq. apply (Hfr (q, o)).
    by apply inv_fl0.
Qed.

Lemma inv_step base s s' : step s s' -> inv base s.1 s.2 -> inv base s'.1 s'.2.
Proof.
  destruct 1 as [live h size o ptr h' Hu Hsz Hal|live live' h p o h' Hperm Hde|live a m m' Hl Hw]; simpl; intros I.
  - by destruct (allocate_ok _ _ _ _ _ _ _ Hu I Hsz Hal) as (_ & ? & _).
  - destruct (deallocate_live _ _ _ _ _ _ I Hperm) as (h1 & Hde' & ? & _).
    rewrite Hde in Hde'. by injection Hde' as <-.
  - by eapply inv_client.
Qed.

Definition aligned_base (heap_base : Z) : Z := (heap_base + 7) / 8 * 8.

Lemma aligned_base_spec b : b <= aligned_base b < b + 8 /\ aligned_base b mod 8 = 0.
Proof. unfold aligned_base. split; [pose proof (Z.div_mod (b + 7) 8); pose proof (Z.mod_pos_bound (b + 7) 8); lia|by apply Z.mod_mul]. Qed.

Lemma new_run {E} heap_base : 0 <= heap_base <= MAX_MEM - 7 ->
  FreeingBumpHeapAllocator_new (E := E) heap_base =
    Ok (mkAllocator (aligned_base heap_base) FreeLists_new 0 false 0 (aligned_base heap_base)).
Proof.
  intros Hb. pose proof (aligned_base_spec heap_base) as [Ha _]. unfold FreeingBumpHeapAllocator_new, aligned_base, MAX_MEM, ALIGNMENT in *.
  rewrite uadd_ok by (unfold is_u; lia). simpl. replace (heap_base + 8 - 1) with (heap_base + 7) by lia.
  rewrite usub_ok by (unfold is_u; lia). simpl. replace (heap_base + 8 - 1) with (heap_base + 7) by lia.
  by rewrite umul_ok by (unfold is_u; lia).
Qed.

Lemma inv_new heap_base m : 0 <= heap_base <= MAX_MEM - 7 -> mem_len m <= MAX_MEM ->
  inv (aligned_base heap_base) []
    (mkAllocator (aligned_base heap_base) FreeLists_new 0 false 0 (aligned_base heap_base), m).
Proof.
  intros Hb Hm. pose proof (aligned_base_spec heap_base) as [Ha Hal].
  exists [], (fun _ => []). split; simpl; try done; try lia; try set_solver; try (intros; apply NoDup_nil_2).
  intros o l Ho Hl. change (replicate N_ORDERS Nil !! Z.to_nat o = Some l) in Hl.
  apply lookup_replicate_1 in Hl as [-> _]. constructor.
Qed.

(** C20. Safety of every execution with a heap base and a memory of at most
    [MAX_MEM], that is 2^32 - 2^25 - 9 bytes (the base 7 less): from a fresh
    allocator, after any sequence of successful allocations, deallocations of
    live pointers, client writes into live payloads and memory growth up to
    that bound, the live blocks are pairwise disjoint, aligned to 8, above the
    heap base and below both the bump pointer and the end of the memory; and
    [total_size] is the exact sum of their lengths.  Closer to 4 GiB the sum
    of the bump pointer and a block wraps, and a block outside of the memory is
    handed out ([bump_overflow]). *)
Theorem reachable_safe heap_base a0 m0 live h :
  0 <= heap_base <= MAX_MEM - 7 -> mem_len m0 <= MAX_MEM ->
  FreeingBumpHeapAllocator_new (E := Error) heap_base = Ok a0 ->
  rtc step ([], (a0, m0)) (live, h) ->
  (forall i j b b', live !! i = Some b -> live !! j = Some b' -> i <> j -> disjoint_blocks b b') /\
  (forall b, b ∈ live -> heap_base <= b.1 /\ (b.1 + HEADER_SIZE) mod ALIGNMENT = 0 /\
     block_end b <= bumper h.1 /\ block_end b <= mem_len h.2) /\
  total_size h.1 = sum_len live /\ poisoned h.1 = false.
Proof.
  intros Hb Hm Hnew Hrtc. rewrite new_run in Hnew by done. injection Hnew as <-.
  assert (inv (aligned_base heap_base) live h) as (bs & fl & I).
  { refine (rtc_ind_r (fun s => inv _ s.1 s.2) _ _ _ _ Hrtc); [by apply inv_new|].
    intros s s' _ Hs. by apply inv_step. }
  pose proof (aligned_base_spec heap_base) as [Ha _]. split_and!; [|  |apply I..].
  - intros i j b b' Hi Hj Hij. apply (inv_apart I); [eapply I, list_elem_of_lookup_2; eassumption..|].
    intros <-. apply Hij. eapply NoDup_lookup; [apply I|done..].
  - intros b Hbl. apply (inv_live_sub _ _ _ _ _ I) in Hbl.
    destruct (inv_block I b Hbl) as (_ & Hend & _ & Hal & _).
    destruct (tiles_in _ _ _ b (inv_tiles _ _ _ _ _ I) Hbl) as (H1 & H2 & _).
    split_and!; [lia| |done..]. unfold HEADER_SIZE, ALIGNMENT. by rewrite Z.add_mod, Hal by done.
Qed.

(** A call that does not return [Ok] leaves the allocator poisoned, and a
    poisoned allocator refuses every further call with the same error and
    without touching the allocator or the memory. *)
Theorem poison_is_final size ptr (h : Heap (Mem := Mem)) :
  (poisoned h.1 = true ->
     allocate size h = (h, Err (error "the allocator has been poisoned")) /\
     deallocate ptr h = (h, Err (error "the allocator has been poisoned"))) /\
  (forall e h', allocate size h = (h', Err e) -> poisoned h'.1 = true) /\
  (forall e h', deallocate ptr h = (h', Err e) -> poisoned h'.1 = true).
Proof.
  split_and!.
  - intros Hp. unfold allocate, deallocate. unfold mbind, M_mbind, get_alloc, gets. by rewrite Hp.
  - intros e h'. unfold allocate, mbind, M_mbind, get_alloc, gets.
    destruct (poisoned h.1) eqn:Hp; [by intros [= <- _]|]. unfold with_bomb.
    destruct (allocate_armed size h) as [h1 [p|e'|]]; simpl; [|by intros [= <- _]|done].
    unfold lift, uadd, unchecked. intros; case_ifs.
  - intros e h'. unfold deallocate, mbind, M_mbind, get_alloc, gets.
    destruct (poisoned h.1) eqn:Hp; [by intros [= <- _]|]. unfold with_bomb.
    destruct (deallocate_armed ptr h) as [h1 [[]|e'|]]; simpl; by intros [= <- _].
Qed.
End inv.

(** The bound [MAX_MEM] is needed: [bump] adds in 32 bits.  When the bump
    pointer is within one block of 4 GiB, a release build wraps around and
    hands out a block that does not fit the memory, and a debug build panics,
    where the function promises [AllocatorOutOfSpace]. *)
Theorem bump_overflow bumper size heap_end :
  is_u 32 bumper -> is_u 32 size -> is_u 32 heap_end -> 2 ^ 32 <= bumper + size ->
  bump (H := true) bumper size heap_end = Panic /\
  (bumper + size - 2 ^ 32 <= heap_end ->
   bump (H := false) bumper size heap_end = Ok (bumper, bumper + size - 2 ^ 32)).
Proof.
  intros Hb Hs He Ho. unfold bump, uadd, unchecked, is_u in *.
  assert (fits 32 (bumper + size) = false) as -> by (apply fits_false; unfold is_u; lia).
  split; [done|]. intros Hle. simpl.
  replace ((bumper + size) mod 2 ^ 32) with (bumper + size - 2 ^ 32)
    by (apply (Z.mod_unique_pos _ _ 1); lia).
  by replace (heap_end <? _) with false by lia.
Qed.

(** ** Concrete runs *)
Definition mem0 : list byte := replicate 256 Byte.x00.
Definition heap0 : Heap (Mem := list byte) := (mkAllocator 16 FreeLists_new 0 false 0 16, mem0).
#[local] Instance release : OverflowChecks := false.

Lemma heap0_inv : inv 16 [] heap0.
Proof. apply (inv_new 13 mem0); [split|]; vm_compute; discriminate. Qed.

Definition heap1 : Heap (Mem := list byte) := Eval vm_compute in (allocate 10 heap0).1.

Lemma heap1_inv : inv 16 [(16, 1)] heap1.
Proof.
  apply (inv_step 16 ([], heap0) ([(16, 1)], heap1)); [|exact heap0_inv].
  apply (step_allocate [] heap0 10 1 24 heap1); [done|vm_compute; reflexivity..].
Qed.

Lemma allocate_spec_witness :
  is_u 32 10 /\ inv 16 [] heap0 /\ exists o, allocated 16 [] heap0 10 24 heap1 o.
Proof.
  split; [done|]. split; [exact heap0_inv|].
  pose proof (allocate_spec 16 [] heap0 10 ltac:(done) heap0_inv) as H.
  replace (allocate 10 heap0) with (heap1, @Ok Error Z 24) in H by (vm_compute; reflexivity).
  exact (proj2 H).
Defined.

Lemma deallocate_spec_witness :
  exists h', deallocate 24 heap1 = (h', Ok tt) /\ inv 16 [] h' /\ word_frame heap1.2 16 h'.2 /\
    heads (free_lists h'.1) !! 1%nat = Some (Ptr 16).
Proof. exact (deallocate_spec 16 [(16, 1)] [] heap1 16 1 heap1_inv (Permutation_refl _)). Defined.

Lemma reachable_safe_witness :
  rtc step ([], (mkAllocator 16 FreeLists_new 0 false 0 16, mem0)) ([(16, 1)], heap1) /\
  total_size heap1.1 = sum_len [(16, 1)] /\ poisoned heap1.1 = false.
Proof.
  assert (rtc step ([], (mkAllocator 16 FreeLists_new 0 false 0 16, mem0)) ([(16, 1)], heap1)) as Hr.
  { apply rtc_once. apply (step_allocate [] heap0 10 1 24 heap1); [done|vm_compute; reflexivity..]. }
  split; [exact Hr|].
  assert (mem_len mem0 <= MAX_MEM) as Hm by (vm_compute; discriminate).
  assert (0 <= 13 <= MAX_MEM - 7) as Hb by (split; vm_compute; discriminate).
  exact (proj2 (proj2 (reachable_safe 13 _ mem0 _ _ Hb Hm eq_refl Hr))).
Defined.

Lemma bump_overflow_witness :
  bump (H := true) 4294967280 24 4294967288 = Panic /\
  bump (H := false) 4294967280 24 4294967288 = Ok (4294967280, 8).
Proof.
  destruct (bump_overflow 4294967280 24 4294967288) as [H1 H2]; [done..|lia|].
  split; [exact H1|exact (H2 ltac:(lia))].
Defined.
