(* ===== verification/ForkTree.v ===== *)
(** * The fork tree

    Model of [utils/fork-tree/src/lib.rs]: a forest of blocks that consensus
    code keeps per pending change, with import, search of the deepest
    matching ancestor, finalization in its four forms, pruning, rebalancing
    and the stack-based iterators.

    Ancestry is decided by a function the caller passes in; it may fail.  The
    definitions take it as a parameter [is_descendent_of]; the correctness
    theorems assume, in the class [Ancestry], that it decides the ancestry of
    a block tree.  Hashes are any type with decidable equality, numbers are
    integers. *)

From Stdlib Require Import ZArith Lia Permutation Sorted.
From stdpp Require Import relations option list.
From S2P Require Import Prelude.

#[local] Set Warnings "-register-all".

Local Open Scope Z_scope.

(** ** Data *)
Inductive Error (E : Type) : Type :=
| Duplicate
| UnfinalizedAncestor
| Revert
| Client (e : E).

Arguments Duplicate {E}.
Arguments UnfinalizedAncestor {E}.
Arguments Revert {E}.
Arguments Client {E} e.

Inductive FinalizationResult (V : Type) : Type :=
| Changed (data : option V)
| Unchanged.

Arguments Changed {V} data.
Arguments Unchanged {V}.

Inductive FindOutcome (T : Type) : Type :=
| Found (t : T)
| Failure (was_descendent : bool)
| Abort.

Arguments Found {T} t.
Arguments Failure {T} was_descendent.
Arguments Abort {T}.

Inductive Node (H V : Type) : Type :=
  mkNode (hash : H) (number : Z) (data : V) (children : list (Node H V)).

Arguments mkNode {H V} hash number data children.

Record ForkTree (H V : Type) : Type := mkForkTree {
  roots : list (Node H V);
  best_finalized_number : option Z }.

Arguments mkForkTree {H V} roots best_finalized_number.
Arguments roots {H V} _.
Arguments best_finalized_number {H V} _.

Section data.
Context {H V : Type}.

Definition hash (n : Node H V) : H := let 'mkNode h _ _ _ := n in h.
Definition number (n : Node H V) : Z := let 'mkNode _ n _ _ := n in n.
Definition data (n : Node H V) : V := let 'mkNode _ _ d _ := n in d.
Definition children (n : Node H V) : list (Node H V) := let 'mkNode _ _ _ cs := n in cs.

(** The number of nodes. *)
Fixpoint node_size (n : Node H V) : nat :=
  let 'mkNode _ _ _ cs := n in S (foldr (fun c acc => (node_size c + acc)%nat) 0%nat cs).
Definition forest_size (ns : list (Node H V)) : nat :=
  foldr (fun c acc => (node_size c + acc)%nat) 0%nat ns.

(** ** Nodes *)
Fixpoint max_depth (self : Node H V) : nat :=
  let 'mkNode _ _ _ cs := self in
  (foldl (fun max node => Nat.max (max_depth node) max) 0%nat cs + 1)%nat.

(** [sort_by_key(|n| Reverse(n.max_depth()))]: a stable sort, deepest first. *)
Definition deeper (n m : Node H V) : bool := (max_depth m <=? max_depth n)%nat.

(** The children are sorted by their depth and then each is rebalanced.  The
    pairs make the recursive calls structural; [node_rebalance_eq] is the
    equation of the source. *)
Fixpoint node_rebalance (self : Node H V) : Node H V :=
  let 'mkNode h n d cs := self in
  mkNode h n d
    (snd <$> sort_by (fun p q => deeper p.1 q.1) ((fun c => (c, node_rebalance c)) <$> cs)).

End data.

(** [Node::map]: the closure is called on the children first, from left to
    right; it may carry state. *)
Fixpoint node_map {H V VT S} (f : H -> Z -> V -> S -> S * VT) (self : Node H V) (s : S) : S * Node H VT :=
  let 'mkNode h n d cs := self in
  let '(s1, cs') :=
    (fix go (cs : list (Node H V)) (s : S) : S * list (Node H VT) :=
       match cs with
       | [] => (s, [])
       | c :: cs => let '(s1, c') := node_map f c s in
                    let '(s2, cs') := go cs s1 in (s2, c' :: cs')
       end) cs s in
  let '(s2, vt) := f h n d s1 in
  (s2, mkNode h n vt cs').

Section node.
Context {H V E : Type} `{EqDecision H}.
Variable is_descendent_of : H -> H -> res E bool.

(** The early return of a client error. *)
Definition descends (base target : H) : res (Error E) bool :=
  map_err Client (is_descendent_of base target).

(** [a && f()?]: the call is made only if [a] holds. *)
Definition and_then (a : bool) (f : res (Error E) bool) : res (Error E) bool :=
  if a then f else Ok false.

(** A node that is not placed below [self] is handed back. *)
Fixpoint node_import (self : Node H V) (h : H) (n : Z) (d : V) :
    Node H V * res (Error E) (option (H * Z * V)) :=
  let 'mkNode sh sn sd cs := self in
  if decide (sh = h) then (self, Err Duplicate)
  else if n <=? sn then (self, Ok (Some (h, n, d)))
  else
    let '(cs', r) :=
      (fix go (cs : list (Node H V)) (h : H) (n : Z) (d : V) :
           list (Node H V) * res (Error E) (option (H * Z * V)) :=
         match cs with
         | [] => ([], Ok (Some (h, n, d)))
         | c :: cs =>
           match node_import c h n d with
           | (c', Ok (Some (h', n', d'))) => let '(cs', r) := go cs h' n' d' in (c' :: cs', r)
           | (c', r) => (c' :: cs, r)
           end
         end) cs h n d in
    match r with
    | Ok (Some (h', n', d')) =>
      match descends sh h' with
      | Ok true => (mkNode sh sn sd (cs' ++ [mkNode h' n' d' []]), Ok None)
      | Ok false => (mkNode sh sn sd cs', Ok (Some (h', n', d')))
      | Err e => (mkNode sh sn sd cs', Err e)
      | Panic => (mkNode sh sn sd cs', Panic)
      end
    | _ => (mkNode sh sn sd cs', r)
    end.

Variable predicate : V -> bool.

(** The indexes are from last to first. *)
Fixpoint node_find_node_index_where (self : Node H V) (h : H) (n : Z) :
    res (Error E) (FindOutcome (list nat)) :=
  let 'mkNode sh sn sd cs := self in
  if n <? sn then Ok (Failure false)
  else
    (* the loop over the children: an outcome to return, or the flag *)
    r ← (fix go (i : nat) (cs : list (Node H V)) : res (Error E) (FindOutcome (list nat) + bool) :=
           match cs with
           | [] => Ok (inr false)
           | c :: cs =>
             out ← node_find_node_index_where c h n;
             match out with
             | Abort => Ok (inl Abort)
             | Found x => Ok (inl (Found (x ++ [i])))
             | Failure true => Ok (inr true)
             | Failure false => go (S i) cs
             end
           end) 0%nat cs;
    match r with
    | inl out => Ok out
    | inr known_descendent_of =>
      is_desc ← (if known_descendent_of : bool then Ok true else descends sh h);
      if is_desc && predicate sd then Ok (Found []) else Ok (Failure is_desc)
    end.

(** [while let Some(i) = indexes.pop() { cur = &cur.children[i] }] on the
    reversed indexes. *)
Fixpoint follow (cur : Node H V) (path : list nat) : res (Error E) (Node H V) :=
  match path with
  | [] => Ok cur
  | i :: path => c ← expect (children cur !! i); follow c path
  end.

Definition node_find_node_where (self : Node H V) (h : H) (n : Z) :
    res (Error E) (FindOutcome (Node H V)) :=
  outcome ← node_find_node_index_where self h n;
  match outcome with
  | Abort => Ok Abort
  | Failure f => Ok (Failure f)
  | Found indexes => Found <$> follow self (rev indexes)
  end.
End node.

(** ** The tree *)
Section tree.
Context {H V E : Type} `{EqDecision H}.
Variable is_descendent_of : H -> H -> res E bool.

Abbreviation T := (ForkTree H V).
Abbreviation descends := (descends is_descendent_of).

Definition ForkTree_new : T := mkForkTree [] None.

Definition set_roots (ns : list (Node H V)) : M T (Error E) unit :=
  modify (fun t => mkForkTree ns (best_finalized_number t)).
Definition set_best_finalized_number (n : Z) : M T (Error E) unit :=
  modify (fun t => mkForkTree (roots t) (Some n)).

Definition rebalance (self : T) : T :=
  mkForkTree (node_rebalance <$> sort_by deeper (roots self)) (best_finalized_number self).

(** The check that opens [import] and the finalizing operations. *)
Definition check_revert (n : Z) : M T (Error E) unit :=
  best ← gets best_finalized_number;
  match best with
  | Some best => if n <=? best then throw Revert else mret tt
  | None => mret tt
  end.

(** The loop of [import] over the roots: [Ok (Some _)] hands the node back. *)
Fixpoint import_roots (rs : list (Node H V)) (h : H) (n : Z) (d : V) :
    list (Node H V) * res (Error E) (option (H * Z * V)) :=
  match rs with
  | [] => ([], Ok (Some (h, n, d)))
  | root :: rs =>
    if decide (hash root = h) then (root :: rs, Err Duplicate)
    else
      match node_import is_descendent_of root h n d with
      | (root', Ok (Some (h', n', d'))) =>
        let '(rs', r) := import_roots rs h' n' d' in (root' :: rs', r)
      | (root', r) => (root' :: rs, r)
      end
  end.

Definition import (h : H) (n : Z) (d : V) : M T (Error E) bool :=
  _ ← check_revert n;
  rs ← gets roots;
  let '(rs', r) := import_roots rs h n d in
  _ ← set_roots rs';
  back ← lift r;
  match back with
  | None => _ ← modify rebalance; mret false
  | Some (h', n', d') =>
    _ ← set_roots (rs' ++ [mkNode h' n' d' []]);
    _ ← modify rebalance;
    mret true
  end.

Definition tree_map {VT S} (f : H -> Z -> V -> S -> S * VT) (self : T) (s : S) : S * ForkTree H VT :=
  let '(s', rs) := (fix go (rs : list (Node H V)) (s : S) : S * list (Node H VT) :=
       match rs with
       | [] => (s, [])
       | r :: rs => let '(s1, r') := node_map f r s in
                    let '(s2, rs') := go rs s1 in (s2, r' :: rs')
       end) (roots self) s in
  (s', mkForkTree rs (best_finalized_number self)).

(** *** Iteration

    The iterator keeps a stack; its top is the last element of the vector,
    here the head of the list, so that extending the vector with the reversed
    children puts the children, in order, at the front. *)
Definition iter_next (stack : list (Node H V)) : option (Node H V * list (Node H V)) :=
  match stack with
  | [] => None
  | node :: stack => Some (node, children node ++ stack)
  end.

Fixpoint iter_collect (fuel : nat) (stack : list (Node H V)) : list (Node H V) :=
  match fuel with
  | O => []
  | S fuel =>
    match iter_next stack with
    | None => []
    | Some (node, stack') => node :: iter_collect fuel stack'
    end
  end.

(** All the nodes, in the order of [node_iter]; the fuel is the number of
    nodes ([iter_collect_preorder]). *)
Definition node_iter (self : T) : list (Node H V) :=
  iter_collect (forest_size (roots self)) (roots self).

Definition iter (self : T) : list (H * Z * V) :=
  (fun node => (hash node, number node, data node)) <$> node_iter self.

(** [RemovedIterator]: the stack starts with the removed vector, whose last
    element comes out first. *)
Definition removed_iter (removed : list (Node H V)) : list (H * Z * V) :=
  (fun node => (hash node, number node, data node)) <$>
    iter_collect (forest_size removed) (rev removed).

(** *** Search *)
Section predicate.
Variable predicate : V -> bool.

Fixpoint find_roots (rs : list (Node H V)) (h : H) (n : Z) : res (Error E) (option (Node H V)) :=
  match rs with
  | [] => Ok None
  | root :: rs =>
    node ← node_find_node_where is_descendent_of predicate root h n;
    match node with Found node => Ok (Some node) | _ => find_roots rs h n end
  end.

Definition find_node_where (self : T) (h : H) (n : Z) : res (Error E) (option (Node H V)) :=
  find_roots (roots self) h n.

Fixpoint find_index_roots (index : nat) (rs : list (Node H V)) (h : H) (n : Z) :
    res (Error E) (option (list nat)) :=
  match rs with
  | [] => Ok None
  | root :: rs =>
    node ← node_find_node_index_where is_descendent_of predicate root h n;
    match node with
    | Found node => Ok (Some (node ++ [index]))
    | _ => find_index_roots (S index) rs h n
    end
  end.

Definition find_node_index_where (self : T) (h : H) (n : Z) : res (Error E) (option (list nat)) :=
  find_index_roots 0 (roots self) h n.

(** *** Pruning

    [take_path ns path] removes the node at [path] from the forest [ns]: the
    loop of [prune] over the reversed indexes. *)
Fixpoint take_path (ns : list (Node H V)) (path : list nat) : res (Error E) (Node H V * list (Node H V)) :=
  match path with
  | [] => Panic
  | [i] => n ← expect (ns !! i); Ok (n, delete i ns)
  | i :: path =>
    n ← expect (ns !! i);
    let 'mkNode h k d cs := n in
    p ← take_path cs path;
    Ok (p.1, <[i := mkNode h k d p.2]> ns)
  end.

(** The split of the children of the new root: at most one is kept.  The
    pushes to [removed] are in the order of the loop. *)
Fixpoint split_children (is_first : bool) (cs : list (Node H V)) (h : H) (n : Z) :
    res (Error E) (list (Node H V) * list (Node H V)) :=
  match cs with
  | [] => Ok ([], [])
  | child :: cs =>
    keep ← and_then is_first
      (if (number child =? n) && bool_decide (hash child = h) then Ok true
       else and_then (number child <? n) (descends (hash child) h));
    if keep : bool
    then p ← split_children false cs h n; Ok (child :: p.1, p.2)
    else p ← split_children is_first cs h n; Ok (p.1, child :: p.2)
  end.

(** The vector of roots is taken out of the tree before the split, so an error
    of the client in the split leaves the tree without roots. *)
Definition prune (h : H) (n : Z) : M T (Error E) (list (H * Z * V)) :=
  self ← get;
  new_root_index ← lift (find_node_index_where self h n);
  removed ←
    (match new_root_index with
     | Some root_index =>
       let old_roots := roots self in
       _ ← set_roots [];
       p ← lift (take_path old_roots (rev root_index));
       let 'mkNode rh rn rd root_children := p.1 in
       q ← lift (split_children true root_children h n);
       _ ← set_roots [mkNode rh rn rd q.1];
       mret (p.2 ++ q.2)
     | None => mret []
     end);
  _ ← modify rebalance;
  mret (removed_iter removed).
End predicate.

(** *** Finalization *)
Definition finalize_root_at (position : nat) : M T (Error E) V :=
  rs ← gets roots;
  p ← lift (swap_remove position rs);
  _ ← set_roots (children p.1);
  _ ← set_best_finalized_number (number p.1);
  mret (data p.1).

Fixpoint position (f : Node H V -> bool) (ns : list (Node H V)) : option nat :=
  match ns with
  | [] => None
  | n :: ns => if f n then Some 0%nat else S <$> position f ns
  end.

Definition finalize_root (h : H) : M T (Error E) (option V) :=
  rs ← gets roots;
  match position (fun node => bool_decide (hash node = h)) rs with
  | Some i => v ← finalize_root_at i; mret (Some v)
  | None => mret None
  end.

(** A [for] loop that returns an error if a test holds of an item. *)
Fixpoint none_of (f : Node H V -> res (Error E) bool) (e : Error E) (ns : list (Node H V)) : res (Error E) unit :=
  match ns with
  | [] => Ok tt
  | n :: ns => b ← f n; if b : bool then Err e else none_of f e ns
  end.

(** The loop that moves the roots to keep from the taken vector back to the
    tree; an error of the client leaves those moved so far. *)
Fixpoint retain (f : Node H V -> res (Error E) bool) (ns kept : list (Node H V)) (changed : bool) :
    list (Node H V) * res (Error E) bool :=
  match ns with
  | [] => (kept, Ok changed)
  | n :: ns =>
    match f n with
    | Ok true => retain f ns (kept ++ [n]) changed
    | Ok false => retain f ns kept true
    | Err e => (kept, Err e)
    | Panic => (kept, Panic)
    end
  end.

Definition retain_roots (f : Node H V -> res (Error E) bool) : M T (Error E) bool :=
  rs ← gets roots;
  let '(kept, r) := retain f rs [] false in
  _ ← set_roots kept;
  lift r.

Definition changed_or_not (changed : bool) : FinalizationResult V :=
  if changed then Changed None else Unchanged.

Definition finalize (h : H) (n : Z) : M T (Error E) (FinalizationResult V) :=
  _ ← check_revert n;
  root ← finalize_root h;
  match root with
  | Some root => mret (Changed (Some root))
  | None =>
    rs ← gets roots;
    _ ← lift (none_of (fun root => and_then (number root <? n) (descends (hash root) h))
                UnfinalizedAncestor rs);
    changed ← retain_roots (fun root => and_then (n <? number root) (descends h (hash root)));
    _ ← set_best_finalized_number n;
    mret (changed_or_not changed)
  end.

(** The three tests of one iteration of [finalize_with_ancestors]. *)
Definition classify (h : H) (n : Z) (root : Node H V) : res (Error E) (bool * bool * bool) :=
  let is_finalized := bool_decide (hash root = h) in
  is_descendant ← and_then (negb is_finalized && (n <? number root)) (descends h (hash root));
  is_ancestor ← and_then (negb is_finalized && negb is_descendant && (number root <? n))
                  (descends (hash root) h);
  Ok (is_finalized, is_descendant, is_ancestor).

(** The [while] loop; [Some data] is its early return.  Every iteration moves
    past, removes or opens a root, so it runs at most once per node of the
    roots from [idx] on; that number is the fuel. *)
Fixpoint finalize_loop (fuel : nat) (h : H) (n : Z) (idx : nat) (changed : bool) :
    M T (Error E) (option V * bool) :=
  rs ← gets roots;
  if decide (idx = length rs) then mret (None, changed)
  else
    match fuel with
    | O => lift Panic
    | S fuel =>
      root ← lift (expect (rs !! idx));
      c ← lift (classify h n root);
      let '(is_finalized, is_descendant, is_ancestor) := c in
      if is_finalized : bool then v ← finalize_root_at idx; mret (Some v, changed)
      else if is_descendant : bool then finalize_loop fuel h n (S idx) changed
      else if is_ancestor : bool then
        p ← lift (swap_remove idx rs);
        _ ← set_roots (p.2 ++ children p.1);
        finalize_loop fuel h n idx true
      else
        p ← lift (swap_remove idx rs);
        _ ← set_roots p.2;
        finalize_loop fuel h n idx true
    end.

Definition finalize_with_ancestors (h : H) (n : Z) : M T (Error E) (FinalizationResult V) :=
  _ ← check_revert n;
  root ← finalize_root h;
  match root with
  | Some root => mret (Changed (Some root))
  | None =>
    rs ← gets roots;
    r ← finalize_loop (forest_size rs) h n 0 false;
    match r with
    | (Some v, _) => mret (Changed (Some v))
    | (None, changed) => _ ← set_best_finalized_number n; mret (changed_or_not changed)
    end
  end.

(** *** Finalization by a descendent *)
Section predicate.
Variable predicate : V -> bool.

(** The test on a node that both operations share: the node passes the
    predicate, is the finalized block or an ancestor of it, and no child of it
    is an ancestor of the finalized block. *)
Definition finalizes_node (h : H) (n : Z) (node : Node H V) : res (Error E) bool :=
  if predicate (data node) then
    below ← (if bool_decide (hash node = h) then Ok true else descends (hash node) h);
    if below : bool then
      _ ← none_of (fun child => and_then (number child <=? n) (descends (hash child) h))
            UnfinalizedAncestor (children node);
      Ok true
    else Ok false
  else Ok false.

(** The first node that [f] accepts, with its index. *)
Fixpoint find_first (f : Node H V -> res (Error E) bool) (i : nat) (ns : list (Node H V)) :
    res (Error E) (option (nat * Node H V)) :=
  match ns with
  | [] => Ok None
  | n :: ns => b ← f n; if b : bool then Ok (Some (i, n)) else find_first f (S i) ns
  end.

Definition finalizes_any_with_descendent_if (h : H) (n : Z) : M T (Error E) (option bool) :=
  _ ← check_revert n;
  self ← get;
  r ← lift (find_first (finalizes_node h n) 0 (node_iter self));
  match r with
  | Some (_, node) =>
    mret (Some (existsb (fun root => bool_decide (hash root = hash node)) (roots self)))
  | None => mret None
  end.

(** The condition [retain] of the last loop. *)
Definition retains_root (h : H) (n : Z) (root : Node H V) : res (Error E) bool :=
  b ← and_then (n <? number root) (descends h (hash root));
  if b : bool then Ok true
  else if (number root =? n) && bool_decide (hash root = h) then Ok true
  else descends (hash root) h.

Definition finalize_with_descendent_if (h : H) (n : Z) : M T (Error E) (FinalizationResult V) :=
  _ ← check_revert n;
  rs ← gets roots;
  position ← lift (find_first (finalizes_node h n) 0 rs);
  node_data ←
    (match position with
     | Some (i, _) =>
       p ← lift (swap_remove i rs);
       _ ← set_roots (children p.1);
       _ ← set_best_finalized_number (number p.1);
       mret (Some (data p.1))
     | None => mret None
     end);
  changed ← retain_roots (retains_root h n);
  _ ← set_best_finalized_number n;
  mret (match node_data with
        | Some data => Changed (Some data)
        | None => changed_or_not changed
        end).
End predicate.
End tree.

(** ** The nodes of a forest *)
Section items.
Context {H V : Type}.
Implicit Types (n c : Node H V) (ns cs : list (Node H V)).

Lemma Node_ind' (P : Node H V -> Prop) :
  (forall h k d cs, (forall c, c ∈ cs -> P c) -> P (mkNode h k d cs)) -> forall n, P n.
Proof.
  intros Hstep. fix IH 1. intros [h k d cs]. apply Hstep.
  induction cs as [|c cs IHcs]; intros c' Hc'; [destruct (not_elem_of_nil c' Hc')|].
  apply elem_of_cons in Hc' as [->|Hc']; [apply IH|exact (IHcs c' Hc')].
Qed.

(** The subtrees in pre-order. *)
Fixpoint node_nodes (n : Node H V) : list (Node H V) :=
  let 'mkNode _ _ _ cs := n in n :: foldr (fun c acc => node_nodes c ++ acc) [] cs.
Definition forest_nodes ns : list (Node H V) := foldr (fun c acc => node_nodes c ++ acc) [] ns.

Definition item n : H * Z * V := (hash n, number n, data n).
Definition items ns : list (H * Z * V) := item <$> forest_nodes ns.
Definition hashes ns : list H := hash <$> forest_nodes ns.

Lemma node_nodes_eq n : node_nodes n = n :: forest_nodes (children n).
Proof. by destruct n. Qed.

Lemma forest_nodes_app ns ns' : forest_nodes (ns ++ ns') = forest_nodes ns ++ forest_nodes ns'.
Proof. induction ns as [|n ns IH]; simpl; [done|]. by rewrite IH, app_assoc. Qed.

Lemma elem_of_forest_nodes x ns : x ∈ forest_nodes ns <-> exists n, n ∈ ns /\ x ∈ node_nodes n.
Proof.
  induction ns as [|n ns IH]; simpl; [set_solver|]. rewrite elem_of_app, IH. set_solver.
Qed.

Lemma items_app ns ns' : items (ns ++ ns') = items ns ++ items ns'.
Proof. unfold items. by rewrite forest_nodes_app, fmap_app. Qed.

Lemma items_cons n ns : items (n :: ns) = item n :: items (children n) ++ items ns.
Proof. unfold items. simpl. rewrite node_nodes_eq, fmap_app. done. Qed.

Lemma items_split n ns : items (n :: ns) = items [n] ++ items ns.
Proof. apply (items_app [n]). Qed.

Lemma hashes_items ns : hashes ns = (fun x => x.1.1) <$> items ns.
Proof. unfold hashes, items. by rewrite <-list_fmap_compose. Qed.

Lemma hashes_app ns ns' : hashes (ns ++ ns') = hashes ns ++ hashes ns'.
Proof. unfold hashes. by rewrite forest_nodes_app, fmap_app. Qed.

Lemma hashes_cons n ns : hashes (n :: ns) = hash n :: hashes (children n) ++ hashes ns.
Proof. unfold hashes. simpl. rewrite node_nodes_eq, fmap_app. done. Qed.

Lemma hashes_split n ns : hashes (n :: ns) = hashes [n] ++ hashes ns.
Proof. apply (hashes_app [n]). Qed.

Lemma elem_of_hashes y ns : y ∈ hashes ns <-> exists n, n ∈ ns /\ (y = hash n \/ y ∈ hashes (children n)).
Proof.
  induction ns as [|n ns IH]; [set_solver|]. rewrite hashes_cons. set_solver.
Qed.

Lemma hashes_perm ns ns' : items ns ≡ₚ items ns' -> hashes ns ≡ₚ hashes ns'.
Proof. intros Hp. rewrite !hashes_items. by apply fmap_Permutation. Qed.

#[global] Instance forest_nodes_Proper : Proper (Permutation ==> Permutation) forest_nodes.
Proof.
  intros ns ns' Hp. unfold forest_nodes. induction Hp; simpl; [done|by f_equiv| |by etrans].
  rewrite !app_assoc. f_equiv. apply Permutation_app_comm.
Qed.

#[global] Instance items_Proper : Proper (Permutation ==> Permutation) items.
Proof. intros ns ns' Hp. unfold items. by rewrite Hp. Qed.

#[global] Instance hashes_Proper : Proper (Permutation ==> Permutation) hashes.
Proof. intros ns ns' Hp. unfold hashes. by rewrite Hp. Qed.

Lemma forest_size_length ns : forest_size ns = length (forest_nodes ns).
Proof.
  assert (forall n, node_size n = length (node_nodes n)) as Hn.
  { induction n as [h k d cs IH] using Node_ind'. simpl. f_equal.
    induction cs as [|c cs IHcs]; simpl; [done|]. rewrite length_app, IH by left.
    rewrite IHcs; [done|]. intros. apply IH. by right. }
  induction ns as [|n ns IH]; simpl; [done|]. by rewrite length_app, Hn, IH.
Qed.

Lemma forest_size_app ns ns' : forest_size (ns ++ ns') = (forest_size ns + forest_size ns')%nat.
Proof. by rewrite !forest_size_length, forest_nodes_app, length_app. Qed.

Lemma forest_size_cons n ns : forest_size (n :: ns) = S (forest_size (children n) + forest_size ns).
Proof. rewrite !forest_size_length. simpl. by rewrite node_nodes_eq, length_app. Qed.

Lemma forest_size_perm ns ns' : ns ≡ₚ ns' -> forest_size ns = forest_size ns'.
Proof. intros Hp. rewrite !forest_size_length. by rewrite Hp. Qed.

(** *** Depth and rebalancing *)
Lemma max_depth_foldl cs a :
  foldl (fun max node => Nat.max (max_depth node) max) a cs =
    foldr (fun c acc => Nat.max (max_depth c) acc) a cs.
Proof.
  revert a. induction cs as [|c cs IH]; intros a; simpl; [done|]. rewrite IH.
  clear IH. induction cs as [|c' cs IH]; simpl; lia.
Qed.

Lemma max_depth_perm cs cs' a : cs ≡ₚ cs' ->
  foldr (fun c acc => Nat.max (max_depth c) acc) a cs =
  foldr (fun c acc => Nat.max (max_depth c) acc) a cs'.
Proof. induction 1; simpl; lia. Qed.

Lemma node_rebalance_spec n :
  max_depth (node_rebalance n) = max_depth n /\ item (node_rebalance n) = item n /\
  children (node_rebalance n) = node_rebalance <$> sort_by deeper (children n).
Proof.
  induction n as [h k d cs IH] using Node_ind'. simpl.
  assert (snd <$> sort_by (fun p q => deeper p.1 q.1) ((fun c => (c, node_rebalance c)) <$> cs)
    = node_rebalance <$> sort_by deeper cs) as Hsort.
  { rewrite <-(sort_by_fmap (fun c => (c, node_rebalance c)) deeper) by done.
    by rewrite <-list_fmap_compose. }
  rewrite Hsort. split_and!; [|done..]. f_equal. rewrite !max_depth_foldl.
  rewrite <-(max_depth_perm _ _ _ (sort_by_perm deeper cs)).
  assert (forall c, c ∈ sort_by deeper cs -> max_depth (node_rebalance c) = max_depth c) as Hd.
  { intros c Hc. apply IH. by apply elem_of_sort_by in Hc. }
  clear Hsort. induction (sort_by deeper cs) as [|c l IHl]; simpl; [done|].
  rewrite Hd by left. f_equal. apply IHl. intros. apply Hd. by right.
Qed.

(** The equation of the source. *)
Lemma node_rebalance_eq h k d cs :
  node_rebalance (mkNode h k d cs) = mkNode h k d (node_rebalance <$> sort_by deeper cs).
Proof.
  destruct (node_rebalance_spec (mkNode h k d cs)) as (_ & Hi & Hc).
  destruct (node_rebalance (mkNode h k d cs)). unfold item in Hi. simpl in *. by simplify_eq.
Qed.

Lemma items_rebalance ns : items (node_rebalance <$> sort_by deeper ns) ≡ₚ items ns.
Proof.
  assert (forall n, items [node_rebalance n] ≡ₚ items [n]) as Hn.
  { induction n as [h k d cs IH] using Node_ind'. rewrite node_rebalance_eq, !items_cons. simpl.
    f_equiv. f_equiv. rewrite <-(sort_by_perm deeper cs) at 2.
    assert (forall c, c ∈ sort_by deeper cs -> items [node_rebalance c] ≡ₚ items [c]) as IH'.
    { intros c Hc. apply IH. by apply elem_of_sort_by in Hc. }
    clear IH. induction (sort_by deeper cs) as [|c l IHl]; [done|].
    rewrite fmap_cons, items_split, (items_split c), IH' by left. f_equiv.
    apply IHl. intros. apply IH'. by right. }
  rewrite <-(sort_by_perm deeper ns) at 2. induction (sort_by deeper ns) as [|c l IHl]; [done|].
  by rewrite fmap_cons, items_split, (items_split c), Hn, IHl.
Qed.

(** Every list of siblings is sorted by decreasing depth. *)
Definition siblings_sorted ns : Prop := StronglySorted (fun c c' => deeper c c' = true) ns.
Definition balanced ns : Prop :=
  siblings_sorted ns /\ forall n, n ∈ forest_nodes ns -> siblings_sorted (children n).

Lemma siblings_sorted_rebalance ns : siblings_sorted (node_rebalance <$> sort_by deeper ns).
Proof.
  rewrite (sort_by_fmap node_rebalance deeper deeper).
  - apply sort_by_StronglySorted.
    + intros c c'. unfold deeper. rewrite Nat.leb_gt, Nat.leb_le. lia.
    + intros c c' c''. unfold deeper. rewrite !Nat.leb_le. lia.
  - intros c c'. unfold deeper. by rewrite !(proj1 (node_rebalance_spec _)).
Qed.

Lemma balanced_rebalance ns : balanced (node_rebalance <$> sort_by deeper ns).
Proof.
  split; [apply siblings_sorted_rebalance|].
  assert (forall n x, x ∈ node_nodes (node_rebalance n) -> siblings_sorted (children x)) as Hn.
  { induction n as [h k d cs IH] using Node_ind'. intros x. rewrite node_rebalance_eq, node_nodes_eq. simpl.
    intros [->|Hx]%elem_of_cons; [apply siblings_sorted_rebalance|].
    apply elem_of_forest_nodes in Hx as (y & (c & -> & Hc)%list_elem_of_fmap & Hx).
    apply (IH c); [by apply elem_of_sort_by in Hc|done]. }
  intros x (y & (c & -> & Hc)%list_elem_of_fmap & Hx)%elem_of_forest_nodes. by eapply Hn.
Qed.

Lemma rebalance_balanced ns : balanced ns -> node_rebalance <$> sort_by deeper ns = ns.
Proof.
  assert (forall n, (forall x, x ∈ node_nodes n -> siblings_sorted (children x)) -> node_rebalance n = n) as Hn.
  { induction n as [h k d cs IH] using Node_ind'. intros Hx. rewrite node_rebalance_eq. f_equal.
    rewrite sort_by_sorted by (apply (Hx (mkNode h k d cs)); rewrite node_nodes_eq; left).
    rewrite <-(list_fmap_id cs) at 2. apply list_fmap_ext. intros i c Hc%list_elem_of_lookup_2.
    apply IH; [done|]. intros x Hx'. apply Hx. rewrite node_nodes_eq. right.
    apply elem_of_forest_nodes. eauto. }
  intros [Hs Hb]. rewrite sort_by_sorted by done.
  rewrite <-(list_fmap_id ns) at 2. apply list_fmap_ext. intros i c Hc%list_elem_of_lookup_2.
  apply Hn. intros x Hx. apply Hb, elem_of_forest_nodes. eauto.
Qed.
End items.

(** ** Ancestry

    What the caller's function is documented to decide: the ancestry of a
    block tree, in which numbers grow along branches and the ancestors of a
    block form a chain. *)
Class Ancestry {H E : Type} (is_descendent_of : H -> H -> res E bool) : Type := {
  desc : H -> H -> bool;
  num : H -> Z;
  is_descendent_of_desc a b : is_descendent_of a b = Ok (desc a b);
  desc_num a b : desc a b = true -> num a < num b;
  desc_trans a b c : desc a b = true -> desc b c = true -> desc a c = true;
  desc_chain a b c : desc a c = true -> desc b c = true ->
    a = b \/ desc a b = true \/ desc b a = true }.

Section wf.
Context {H V E : Type} `{EqDecision H}.
Context (is_descendent_of : H -> H -> res E bool) {A : Ancestry is_descendent_of}.
Implicit Types (n c : Node H V) (ns cs : list (Node H V)) (h y : H) (t : ForkTree H V).

(** No two trees of a forest are on one branch. *)
Definition antichain ns : Prop :=
  NoDup (hash <$> ns) /\ forall c c', c ∈ ns -> c' ∈ ns -> desc (hash c) (hash c') = false.

Inductive wf_node : Node H V -> Prop :=
| wf_mkNode h k d cs :
    k = num h -> (forall c, c ∈ cs -> wf_node c /\ desc h (hash c) = true) -> antichain cs ->
    wf_node (mkNode h k d cs).

Definition wf_forest ns : Prop := (forall c, c ∈ ns -> wf_node c) /\ antichain ns.

(** The invariant: the forest is the ancestry relation on its nodes. *)
Definition wf t : Prop := wf_forest (roots t).

Lemma desc_irrefl h : desc h h = false.
Proof. destruct (desc h h) eqn:Hd; [|done]. apply desc_num in Hd. lia. Qed.

Lemma desc_asym a b : desc a b = true -> desc b a = false.
Proof. intros Hab. destruct (desc b a) eqn:Hba; [|done]. apply desc_num in Hab, Hba. lia. Qed.

Lemma wf_node_inv n : wf_node n ->
  number n = num (hash n) /\ wf_forest (children n) /\ forall c, c ∈ children n -> desc (hash n) (hash c) = true.
Proof. destruct 1 as [h k d cs Hk Hc Ha]. simpl. unfold wf_forest. naive_solver. Qed.

Lemma wf_node_intro n : number n = num (hash n) -> wf_forest (children n) ->
  (forall c, c ∈ children n -> desc (hash n) (hash c) = true) -> wf_node n.
Proof. destruct n as [h k d cs]. simpl. intros Hk [Hc Ha] Hd. constructor; auto. Qed.

Lemma antichain_sub ns ns' : NoDup (hash <$> ns') -> (forall c, c ∈ ns' -> c ∈ ns) -> antichain ns -> antichain ns'.
Proof. intros Hnd Hs [_ Ha]. split; [done|]. auto. Qed.

#[global] Instance antichain_Proper : Proper (Permutation ==> iff) antichain.
Proof.
  assert (forall ns ns', ns ≡ₚ ns' -> antichain ns -> antichain ns') as Hp.
  { intros ns ns' Hp Ha. apply (antichain_sub ns); [rewrite <-Hp; apply Ha| |done]. intros c. by rewrite Hp. }
  intros ns ns' Hns. split; by apply Hp.
Qed.

#[global] Instance wf_forest_Proper : Proper (Permutation ==> iff) wf_forest.
Proof. intros ns ns' Hp. unfold wf_forest. rewrite Hp. by setoid_rewrite Hp. Qed.

Lemma wf_forest_cons n ns : wf_forest (n :: ns) -> wf_node n /\ wf_forest ns.
Proof.
  intros [Hw [Hnd Ha]]. split; [apply Hw; left|]. split; [intros; apply Hw; by right|].
  csimpl in *. apply NoDup_cons in Hnd as [_ Hnd]. split; [done|]. intros. apply Ha; by right.
Qed.

Lemma wf_forest_app ns ns' : wf_forest (ns ++ ns') -> wf_forest ns /\ wf_forest ns'.
Proof.
  intros [Hw [Hnd Ha]]. rewrite fmap_app in Hnd. apply NoDup_app in Hnd as (Hnd & _ & Hnd').
  unfold wf_forest, antichain. setoid_rewrite elem_of_app in Hw. setoid_rewrite elem_of_app in Ha. naive_solver.
Qed.

(** Two trees of a forest that share a branch are the same. *)
Lemma antichain_eq ns c c' y : antichain ns -> c ∈ ns -> c' ∈ ns ->
  y = hash c \/ desc (hash c) y = true -> y = hash c' \/ desc (hash c') y = true -> c = c'.
Proof.
  intros [Hnd Ha] Hc Hc' Hy Hy'. assert (hash c = hash c') as Heq.
  { pose proof (Ha c c' Hc Hc'). pose proof (Ha c' c Hc' Hc).
    destruct Hy as [->|Hy], Hy' as [Hy'|Hy']; try congruence.
    destruct (desc_chain _ _ _ Hy Hy') as [?|[?|?]]; congruence. }
  apply list_elem_of_lookup in Hc as [i Hi], Hc' as [j Hj].
  assert (i = j) as <-; [|congruence]. eapply NoDup_lookup; [exact Hnd|..]; rewrite list_lookup_fmap.
  - rewrite Hi. done.
  - rewrite Hj. simpl. by rewrite Heq.
Qed.

(** Every node of a tree is the root or a descendent of it, is well formed,
    and so is its subtree. *)
Lemma wf_node_nodes n x : wf_node n -> x ∈ node_nodes n ->
  wf_node x /\ (x = n \/ desc (hash n) (hash x) = true).
Proof.
  revert x. induction n as [h k d cs IH] using Node_ind'. intros x Hw Hx.
  rewrite node_nodes_eq in Hx. apply elem_of_cons in Hx as [->|Hx]; [auto|].
  apply elem_of_forest_nodes in Hx as (c & Hc & Hx). simpl in Hc.
  destruct (wf_node_inv _ Hw) as (_ & [Hwc _] & Hd). destruct (IH c Hc x (Hwc c Hc) Hx) as [Hwx Hcx].
  specialize (Hd c Hc). split; [done|right]. destruct Hcx as [->|Hcx]; [done|]. by eapply desc_trans.
Qed.

Lemma wf_node_below n x : wf_node n -> x ∈ forest_nodes (children n) -> desc (hash n) (hash x) = true.
Proof.
  intros Hw (c & Hc & Hx)%elem_of_forest_nodes. destruct (wf_node_inv _ Hw) as (_ & [Hwc _] & Hd).
  destruct (wf_node_nodes c x (Hwc c Hc) Hx) as [_ [->|Hcx]]; [auto|]. eapply desc_trans; eauto.
Qed.

Lemma wf_hashes n y : wf_node n -> y ∈ hashes [n] -> y = hash n \/ desc (hash n) y = true.
Proof.
  intros Hw (x & -> & Hx)%list_elem_of_fmap. simpl in Hx. rewrite app_nil_r in Hx.
  destruct (wf_node_nodes n x Hw Hx) as [_ [->|?]]; auto.
Qed.

Lemma hashes_in y n ns : n ∈ ns -> y ∈ hashes [n] -> y ∈ hashes ns.
Proof. rewrite !elem_of_hashes. intros Hn (n' & ->%list_elem_of_singleton & Hy). eauto. Qed.

Lemma hashes_inv y ns : y ∈ hashes ns -> exists n, n ∈ ns /\ y ∈ hashes [n].
Proof.
  rewrite elem_of_hashes. intros (n & Hn & Hy). exists n. split; [done|]. apply elem_of_hashes.
  exists n. split; [by apply list_elem_of_singleton|done].
Qed.

(** The representation: among the nodes of the forest, those below [c] are
    exactly the descendents of [c]. *)
Lemma wf_below ns c y : wf_forest ns -> c ∈ ns -> y ∈ hashes ns ->
  y ∈ hashes [c] <-> y = hash c \/ desc (hash c) y = true.
Proof.
  intros [Hw Ha] Hc Hy. split; [apply wf_hashes; auto|]. intros Hcy.
  apply hashes_inv in Hy as (c' & Hc' & Hy). pose proof (wf_hashes c' y (Hw c' Hc') Hy) as Hcy'.
  by rewrite (antichain_eq ns c c' y).
Qed.

Lemma wf_forest_NoDup ns : wf_forest ns -> NoDup (hashes ns).
Proof.
  assert (forall ns, (forall c, c ∈ ns -> wf_node c -> NoDup (hashes [c])) -> wf_forest ns -> NoDup (hashes ns)) as Hns.
  { clear ns. intros ns. induction ns as [|c ns IH]; intros Hn Hw; [constructor|].
    rewrite hashes_split. destruct (wf_forest_cons _ _ Hw) as [Hc Hwns]. apply NoDup_app. split_and!.
    - apply Hn; [left|done].
    - intros y Hy (c' & Hc' & Hy')%hashes_inv. pose proof (wf_hashes _ _ Hc Hy).
      pose proof (wf_hashes c' _ (proj1 Hwns c' Hc') Hy').
      assert (c = c') as <- by (eapply (antichain_eq (c :: ns)); [apply Hw|left|by right|eauto..]).
      destruct Hw as [_ [Hnd _]]. csimpl in Hnd. apply NoDup_cons in Hnd as [Hnd _]. apply Hnd.
      apply list_elem_of_fmap. eauto.
    - apply IH; [|done]. intros. apply Hn; [by right|done]. }
  apply Hns. intros n _. induction n as [h k d cs IH] using Node_ind'. intros Hw. rewrite hashes_cons. simpl.
  destruct (wf_node_inv _ Hw) as (_ & Hwc & Hd). simpl in *. rewrite app_nil_r. constructor.
  - intros (c & Hc & Hy)%hashes_inv. specialize (Hd c Hc).
    destruct (wf_hashes c _ (proj1 Hwc c Hc) Hy) as [Heq|Hy']; [rewrite <-Heq, desc_irrefl in Hd; done|].
    apply desc_asym in Hd. congruence.
  - by apply Hns.
Qed.

(** ** Import *)
Abbreviation node_import := (node_import is_descendent_of).

(** The loop over the children in [node_import]. *)
Definition import_children := fix go (cs : list (Node H V)) (h : H) (k : Z) (d : V) :
    list (Node H V) * res (Error E) (option (H * Z * V)) :=
  match cs with
  | [] => ([], Ok (Some (h, k, d)))
  | c :: cs =>
    match node_import c h k d with
    | (c', Ok (Some (h', n', d'))) => let '(cs', r) := go cs h' n' d' in (c' :: cs', r)
    | (c', r) => (c' :: cs, r)
    end
  end.

Lemma node_import_eq sh sn sd cs h k d :
  node_import (mkNode sh sn sd cs) h k d =
  if decide (sh = h) then (mkNode sh sn sd cs, Err Duplicate)
  else if k <=? sn then (mkNode sh sn sd cs, Ok (Some (h, k, d)))
  else
    let '(cs', r) := import_children cs h k d in
    match r with
    | Ok (Some (h', n', d')) =>
      match descends is_descendent_of sh h' with
      | Ok true => (mkNode sh sn sd (cs' ++ [mkNode h' n' d' []]), Ok None)
      | Ok false => (mkNode sh sn sd cs', Ok (Some (h', n', d')))
      | Err e => (mkNode sh sn sd cs', Err e)
      | Panic => (mkNode sh sn sd cs', Panic)
      end
    | _ => (mkNode sh sn sd cs', r)
    end.
Proof. reflexivity. Qed.

Lemma descends_desc a b : descends is_descendent_of a b = Ok (desc a b).
Proof. unfold descends. by rewrite is_descendent_of_desc. Qed.

(** A forest [ns'] is [ns] with the node [(h, k, d)] added below one of its
    trees. *)
Definition grown ns ns' h k (d : V) : Prop :=
  wf_forest ns' /\ hash <$> ns' = hash <$> ns /\ items ns' ≡ₚ (h, k, d) :: items ns.

(** The outcome of the two import functions on a well-formed forest of which
    no node descends from the new one. *)
Definition import_outcome ns h k (d : V) (out : list (Node H V) * res (Error E) (option (H * Z * V))) : Prop :=
  (h ∈ hashes ns /\ out = (ns, Err Duplicate)) \/
  ((h ∉ hashes ns) /\ (exists c, c ∈ ns /\ desc (hash c) h = true) /\
     exists ns', out = (ns', Ok None) /\ grown ns ns' h k d) \/
  ((h ∉ hashes ns) /\ (forall c, c ∈ ns -> desc (hash c) h = false) /\ out = (ns, Ok (Some (h, k, d)))).

(** The root of the tree changes only in what is below it. *)
Lemma grown_cons c c' ns h k d :
  wf_forest (c :: ns) -> grown [c] [c'] h k d -> grown (c :: ns) (c' :: ns) h k d.
Proof.
  intros [Hw Ha] ([Hw' _] & Hh & Hi). csimpl in Hh. injection Hh as Hh. unfold grown. split_and!.
  - split.
    + intros x [->|Hx]%elem_of_cons; [apply Hw'; left|apply Hw; by right].
    + destruct Ha as [Hnd Ha]. split; [csimpl; by rewrite Hh|].
      intros x y [->|Hx]%elem_of_cons [->|Hy]%elem_of_cons; rewrite ?Hh; apply Ha; by (left || right).
  - csimpl. by rewrite Hh.
  - rewrite items_split, Hi, (items_split c ns). done.
Qed.

Lemma import_outcome_cons c ns h k d :
  wf_forest (c :: ns) -> k = num h ->
  import_outcome [c] h k d (let '(c', r) := node_import c h k d in ([c'], r)) ->
  import_outcome ns h k d (import_children ns h k d) ->
  import_outcome (c :: ns) h k d (import_children (c :: ns) h k d).
Proof.
  intros Hw Hk Hc Hns. simpl. destruct (node_import c h k d) as [c' r].
  unfold import_outcome in *. rewrite (hashes_split c ns), not_elem_of_app, elem_of_app.
  destruct Hc as [(Hin & [= -> ->])|[(Hin & (x & ->%list_elem_of_singleton & Hd) & ns' & [= <- ->] & Hg)
                 |(Hin & Hd & [= -> ->])]].
  - left. auto.
  - right; left. assert (h ∉ hashes ns) as Hnin.
    { intros (x & Hx & Hh)%hashes_inv. destruct (wf_forest_cons _ _ Hw) as [_ [Hwn _]].
      pose proof (wf_hashes x h (Hwn x Hx) Hh).
      assert (c = x) as <- by (eapply (antichain_eq (c :: ns)); [apply Hw|left|by right|eauto..]). done. }
    split_and!; [done..|exists c; split; [left|done]|]. eexists. split; [done|]. by apply grown_cons.
  - destruct Hns as [(Hin' & ->)|[(Hin' & (x & Hx & Hdx) & ns' & -> & Hg)|(Hin' & Hd' & ->)]].
    + left. auto.
    + right; left. split_and!; [done..|exists x; split; [by right|done]|]. eexists. split; [done|].
      destruct Hg as ([Hw' _] & Hh & Hi). destruct Hw as [Hw Ha]. unfold grown. split_and!.
      * split; [intros z [->|Hz]%elem_of_cons; [apply Hw; left|by apply Hw']|].
        assert (hash <$> c :: ns' = hash <$> c :: ns) as Hhc by (csimpl; by rewrite Hh).
        destruct Ha as [Hnd Ha]. split; [by rewrite Hhc|]. intros z z' Hz Hz'.
        apply (list_elem_of_fmap_2 hash) in Hz, Hz'. rewrite Hhc in Hz, Hz'.
        apply list_elem_of_fmap in Hz as (? & -> & ?), Hz' as (? & -> & ?). auto.
      * csimpl. by rewrite Hh.
      * rewrite items_split, Hi, (items_split c ns). symmetry. apply Permutation_middle.
    + right; right. split_and!; [done..| |done]. intros x [->|Hx]%elem_of_cons; [apply Hd; left|by apply Hd'].
Qed.

Lemma wf_leaf h d : wf_node (mkNode h (num h) d []).
Proof. constructor; [done|by intros c ?%not_elem_of_nil|]. split; [constructor|by intros c c' ?%not_elem_of_nil]. Qed.

(** A new leaf next to the trees it is unrelated to. *)
Lemma wf_forest_snoc ns h d :
  wf_forest ns -> (h ∉ hashes ns) -> (forall c, c ∈ ns -> desc (hash c) h = false /\ desc h (hash c) = false) ->
  wf_forest (ns ++ [mkNode h (num h) d []]).
Proof.
  intros [Hw [Hnd Ha]] Hin Hd. split; [|split].
  - intros c [Hc| ->%list_elem_of_singleton]%elem_of_app; [auto|apply wf_leaf].
  - rewrite fmap_app. apply NoDup_app. split_and!; [done| |apply NoDup_singleton].
    intros y (c & -> & Hc)%list_elem_of_fmap Heq%list_elem_of_singleton. simpl in Heq. apply Hin.
    rewrite <-Heq. apply elem_of_hashes. eauto.
  - intros c c' [Hc| ->%list_elem_of_singleton]%elem_of_app [Hc'| ->%list_elem_of_singleton]%elem_of_app; simpl.
    + auto.
    + by apply Hd.
    + by apply Hd.
    + apply desc_irrefl.
Qed.

Lemma grown_node n cs' h k d :
  wf_node n -> wf_forest cs' -> (forall c, c ∈ cs' -> desc (hash n) (hash c) = true) ->
  items cs' ≡ₚ (h, k, d) :: items (children n) ->
  grown [n] [mkNode (hash n) (number n) (data n) cs'] h k d.
Proof.
  intros Hn Hw Hd Hi. destruct (wf_node_inv _ Hn) as (Hk & _ & _). unfold grown. split_and!.
  - split; [intros c ->%list_elem_of_singleton; by apply wf_node_intro|].
    split; [apply NoDup_singleton|]. intros c c' ->%list_elem_of_singleton ->%list_elem_of_singleton. apply desc_irrefl.
  - done.
  - rewrite !items_cons. unfold item. simpl. rewrite Hi. simpl. apply Permutation_swap.
Qed.

Lemma node_import_outcome n h k d :
  wf_node n -> k = num h -> (forall y, y ∈ hashes [n] -> desc h y = false) ->
  import_outcome [n] h k d (let '(n', r) := node_import n h k d in ([n'], r)).
Proof.
  induction n as [sh sn sd cs IH] using Node_ind'. intros Hw Hk Hord.
  destruct (wf_node_inv _ Hw) as (Hsn & Hwc & Hdc). simpl in Hsn, Hwc, Hdc.
  assert (import_outcome cs h k d (import_children cs h k d)) as Hcs.
  { assert (forall c y, c ∈ cs -> y ∈ hashes [c] -> desc h y = false) as Hord'.
    { intros c y Hc Hy. apply Hord. rewrite hashes_cons. simpl. right. rewrite app_nil_r. by eapply hashes_in. }
    clear Hord Hdc Hw. induction cs as [|c cs IHcs].
    - right; right. split_and!; [by apply not_elem_of_nil|by intros c ?%not_elem_of_nil|done].
    - destruct (wf_forest_cons _ _ Hwc) as [Hc Hwc']. apply import_outcome_cons; [done..| |].
      + apply IH; [left|done..|]. intros. eapply Hord'; [left|done].
      + apply IHcs; [|done|]; intros; [apply IH; [by right|done..]|eapply Hord'; [by right|done]]. }
  rewrite node_import_eq. case_decide as Heq.
  { left. subst. split; [|done]. rewrite hashes_cons. left. }
  destruct (Z.leb_spec k sn) as [Hle|Hlt].
  { right; right. split_and!; [| |done].
    - intros [->|Hd]%wf_hashes; [done|apply desc_num in Hd; simpl in Hd; lia|done].
    - intros c ->%list_elem_of_singleton. simpl. destruct (desc sh h) eqn:Hd; [|done].
      apply desc_num in Hd. lia. }
  assert (h ∈ hashes [mkNode sh sn sd cs] <-> h ∈ hashes cs) as Hhash.
  { rewrite hashes_cons. simpl. rewrite app_nil_r, elem_of_cons. naive_solver. }
  unfold import_outcome. setoid_rewrite Hhash. setoid_rewrite list_elem_of_singleton.
  destruct Hcs as [(Hin & ->)|[(Hin & (c & Hc & Hdh) & cs' & -> & (Hw' & Hh & Hi))|(Hin & Hd & ->)]].
  - left. auto.
  - right; left. split; [done|]. split; [eexists; split; [done|by eapply desc_trans; [apply Hdc|]]|].
    eexists. split; [done|]. apply (grown_node (mkNode sh sn sd cs)); [done..| |done].
    intros x Hx%(list_elem_of_fmap_2 hash). rewrite Hh in Hx. apply list_elem_of_fmap in Hx as (z & -> & Hz). auto.
  - rewrite descends_desc. right. destruct (desc sh h) eqn:Hsh.
    + left. split; [done|]. split; [eexists; split; [done|done]|]. eexists. split; [done|]. subst k.
      apply (grown_node (mkNode sh sn sd cs)); [done| | |].
      * apply wf_forest_snoc; [done..|]. intros c Hc. split; [by apply Hd|]. apply Hord.
        rewrite hashes_cons. right. simpl. rewrite app_nil_r. apply elem_of_hashes. eauto.
      * intros c [Hc| ->%list_elem_of_singleton]%elem_of_app; [auto|done].
      * rewrite items_app, Permutation_app_comm. done.
    + right. split_and!; [done| |done]. by intros c ->.
Qed.

Lemma import_roots_outcome ns h k d :
  wf_forest ns -> k = num h -> (forall y, y ∈ hashes ns -> desc h y = false) ->
  import_outcome ns h k d (import_roots is_descendent_of ns h k d).
Proof.
  intros Hw Hk Hord. replace (import_roots is_descendent_of ns h k d) with (import_children ns h k d).
  - induction ns as [|c ns IH].
    + right; right. split_and!; [by apply not_elem_of_nil|by intros c ?%not_elem_of_nil|done].
    + destruct (wf_forest_cons _ _ Hw) as [Hc Hwc]. rewrite hashes_split in Hord.
      apply import_outcome_cons; [done..| |].
      * apply node_import_outcome; [done..|]. intros. apply Hord, elem_of_app. by left.
      * apply IH; [done|]. intros. apply Hord, elem_of_app. by right.
  - clear Hw Hk Hord. revert h k d. induction ns as [|c ns IH]; intros; [done|]. simpl.
    destruct c as [sh sn sd cs]. case_decide as Heq.
    + simpl in Heq. subst. rewrite node_import_eq. by rewrite decide_True.
    + destruct (node_import _ h k d) as [c' [[[[h' n'] d']|]|e|]]; [|done..]. by rewrite IH.
Qed.

Lemma wf_forest_rebalance ns : wf_forest ns -> wf_forest (node_rebalance <$> sort_by deeper ns).
Proof.
  assert (forall ns : list (Node H V), hash <$> (node_rebalance <$> ns) = hash <$> ns) as Hh.
  { clear ns. intros ns. rewrite <-list_fmap_compose. apply list_fmap_ext. intros i n _. simpl.
    destruct (node_rebalance_spec n) as (_ & Hi & _). unfold item in Hi. congruence. }
  assert (forall ns, (forall c, c ∈ ns -> wf_node (node_rebalance c)) -> wf_forest ns -> wf_forest (node_rebalance <$> ns)) as Hf.
  { clear ns. intros ns Hc [_ [Hnd Ha]]. split; [by intros c (c' & -> & Hc')%list_elem_of_fmap; auto|].
    split; [by rewrite Hh|]. intros c c' Hx Hx'. apply (list_elem_of_fmap_2 hash) in Hx, Hx'.
    rewrite Hh in Hx, Hx'. apply list_elem_of_fmap in Hx as (? & -> & ?), Hx' as (? & -> & ?). auto. }
  assert (forall n, wf_node n -> wf_node (node_rebalance n)) as Hn.
  { induction n as [h k d cs IH] using Node_ind'. intros Hw. rewrite node_rebalance_eq.
    destruct (wf_node_inv _ Hw) as (Hk & Hwc & Hd). simpl in *. apply wf_node_intro; simpl; [done| |].
    - apply Hf; [|by rewrite sort_by_perm]. intros c Hc%elem_of_sort_by. apply IH; [done|by apply Hwc].
    - intros c Hc%(list_elem_of_fmap_2 hash). rewrite Hh in Hc.
      apply list_elem_of_fmap in Hc as (c' & -> & Hc'%elem_of_sort_by). auto. }
  intros Hw. apply Hf; [|by rewrite sort_by_perm]. intros c Hc%elem_of_sort_by. apply Hn. by apply Hw.
Qed.

Lemma hashes_ancestor ns h : wf_forest ns ->
  (forall c, c ∈ ns -> desc (hash c) h = false) -> forall y, y ∈ hashes ns -> desc y h = false.
Proof.
  intros [Hw _] Hd y (c & Hc & Hy)%hashes_inv. destruct (wf_hashes c y (Hw c Hc) Hy) as [->|Hcy]; [auto|].
  destruct (desc y h) eqn:Hyh; [|done]. rewrite <-(Hd c Hc). symmetry. by eapply desc_trans.
Qed.

Definition reverts t k : bool :=
  match best_finalized_number t with Some b => k <=? b | None => false end.

Lemma check_revert_eq (t : ForkTree H V) k :
  check_revert (E := E) k t = (t, if reverts t k then Err Revert else Ok tt).
Proof.
  unfold check_revert, reverts, mbind, M_mbind, gets. destruct (best_finalized_number t) as [b|]; [|done].
  by destruct (k <=? b).
Qed.

Definition rebalanced ns : list (Node H V) := node_rebalance <$> sort_by deeper ns.

Lemma import_run t h k d :
  wf t -> k = num h -> (forall y, y ∈ hashes (roots t) -> desc h y = false) ->
  if reverts t k
  then import is_descendent_of h k d t = (t, Err Revert)
  else if decide (h ∈ hashes (roots t))
  then import is_descendent_of h k d t = (t, Err Duplicate)
  else exists t' is_root,
    import is_descendent_of h k d t = (t', Ok is_root) /\
    wf t' /\ balanced (roots t') /\ best_finalized_number t' = best_finalized_number t /\
    items (roots t') ≡ₚ (h, k, d) :: items (roots t) /\
    (is_root = true <-> forall y, y ∈ hashes (roots t) -> desc y h = false).
Proof.
  intros Hw Hk Hord. unfold import, mbind, M_mbind. rewrite check_revert_eq.
  destruct (reverts t k); [done|]. unfold gets.
  destruct (import_roots_outcome (roots t) h k d Hw Hk Hord)
    as [(Hin & ->)|[(Hin & (c & Hc & Hd) & ns' & -> & (Hw' & Hh & Hi))|(Hin & Hd & ->)]].
  - rewrite decide_True by done. unfold set_roots, modify, lift. by destruct t.
  - rewrite decide_False by done. eexists _, false. split; [reflexivity|]. simpl.
    rewrite items_rebalance. split_and!; [by apply wf_forest_rebalance|apply balanced_rebalance|done..|].
    split; [done|]. intros Hno. rewrite Hno in Hd; [done|]. apply elem_of_hashes. eauto.
  - rewrite decide_False by done. eexists _, true. split; [reflexivity|]. simpl. rewrite items_rebalance.
    split_and!; [|apply balanced_rebalance|done| |].
    + apply wf_forest_rebalance. subst k. apply wf_forest_snoc; [done..|]. intros c Hc. split; [auto|].
      apply Hord, elem_of_hashes. eauto.
    + by rewrite items_app, Permutation_app_comm.
    + split; [|done]. intros _. by apply hashes_ancestor.
Qed.

(** [import] of a block above the finalized number, when the blocks of a
    branch come in order (no node of the tree descends from it): a hash that
    is in the tree is refused as a duplicate and the tree stays as it is;
    otherwise the tree gains exactly the new node, stays the ancestry forest
    of its nodes (so the node is below its deepest ancestor), is balanced, and
    the result says whether the node became a root, that is whether no node
    of the tree is its ancestor.  A block at or below the finalized number is
    refused with [Revert]. *)
Theorem import_spec t h k d :
  wf t -> k = num h -> (forall y, y ∈ hashes (roots t) -> desc h y = false) ->
  if reverts t k
  then import is_descendent_of h k d t = (t, Err Revert)
  else if decide (h ∈ hashes (roots t))
  then import is_descendent_of h k d t = (t, Err Duplicate)
  else exists t' is_root,
    import is_descendent_of h k d t = (t', Ok is_root) /\
    wf t' /\ balanced (roots t') /\ best_finalized_number t' = best_finalized_number t /\
    items (roots t') ≡ₚ (h, k, d) :: items (roots t) /\
    (is_root = true <-> forall y, y ∈ hashes (roots t) -> desc y h = false).
Proof. apply import_run. Qed.

(** ** Search of the deepest ancestor *)
Section find.
Variable predicate : V -> bool.
Abbreviation find_index := (node_find_node_index_where is_descendent_of predicate).

(** A node of the forest that is an ancestor of [h] and passes the predicate;
    the deepest of them. *)
Definition candidate ns h (x : Node H V) : Prop :=
  x ∈ forest_nodes ns /\ desc (hash x) h = true /\ predicate (data x) = true.
Definition deepest_candidate ns h (x : Node H V) : Prop :=
  candidate ns h x /\ forall y : Node H V, candidate ns h y -> y = x \/ desc (hash y) (hash x) = true.

(** The loop over the children in the search. *)
Definition find_children h k := fix go (i : nat) (cs : list (Node H V)) : res (Error E) (FindOutcome (list nat) + bool) :=
  match cs with
  | [] => Ok (inr false)
  | c :: cs =>
    out ← find_index c h k;
    match out with
    | Abort => Ok (inl Abort)
    | Found x => Ok (inl (Found (x ++ [i])))
    | Failure true => Ok (inr true)
    | Failure false => go (S i) cs
    end
  end.

Lemma find_index_eq sh sn sd cs h k :
  find_index (mkNode sh sn sd cs) h k =
  if k <? sn then Ok (Failure false)
  else
    r ← find_children h k 0%nat cs;
    match r with
    | inl out => Ok out
    | inr known_descendent_of =>
      is_desc ← (if known_descendent_of : bool then Ok true else descends is_descendent_of sh h);
      if is_desc && predicate sd then Ok (Found []) else Ok (Failure is_desc)
    end.
Proof. reflexivity. Qed.

(** What the search below one node returns. *)
Definition searched n h (out : res (Error E) (FindOutcome (list nat))) : Prop :=
  (exists p x, out = Ok (Found p) /\ follow (E := E) n (rev p) = Ok x /\ deepest_candidate [n] h x) \/
  (out = Ok (Failure true) /\ forall y : Node H V, ~ candidate [n] h y).

Definition find_outcome n h out : Prop :=
  if desc (hash n) h then searched n h out else out = Ok (Failure false).

Lemma candidate_cons n h (y : Node H V) :
  candidate [n] h y <-> (y = n /\ desc (hash n) h = true /\ predicate (data n) = true) \/ candidate (children n) h y.
Proof.
  unfold candidate. simpl. rewrite app_nil_r, node_nodes_eq, elem_of_cons. naive_solver.
Qed.

Lemma candidate_in cs h (y : Node H V) : (forall c, c ∈ cs -> wf_node c) -> candidate cs h y ->
  exists c, c ∈ cs /\ desc (hash c) h = true /\ candidate [c] h y.
Proof.
  intros Hw ((c & Hc & Hy)%elem_of_forest_nodes & Hd & Hp). exists c. split; [done|].
  destruct (wf_node_nodes c y (Hw c Hc) Hy) as [_ Hcy]. split.
  - destruct Hcy as [->|Hcy]; [done|]. by eapply desc_trans.
  - split; [|done]. simpl. by rewrite app_nil_r.
Qed.

Lemma candidate_sub cs c h (y : Node H V) : c ∈ cs -> candidate [c] h y -> candidate cs h y.
Proof.
  intros Hc (Hy & Hd). split; [|done]. simpl in Hy. rewrite app_nil_r in Hy. apply elem_of_forest_nodes. eauto.
Qed.

(** The trees that the search enters: at most one is on the branch of [h]. *)
Lemma candidate_only cs c h (y : Node H V) : wf_forest cs -> c ∈ cs -> desc (hash c) h = true ->
  candidate cs h y -> candidate [c] h y.
Proof.
  intros Hw Hc Hd (c' & Hc' & Hd' & Hy)%candidate_in; [|apply Hw].
  assert (c = c') as ->; [|done]. eapply antichain_eq; [apply Hw|done..|by right|by right].
Qed.

Lemma deepest_only cs c h x : wf_forest cs -> c ∈ cs -> desc (hash c) h = true ->
  deepest_candidate [c] h x -> deepest_candidate cs h x.
Proof.
  intros Hw Hc Hd [Hx Hy]. split; [by eapply candidate_sub|]. intros y Hcy. apply Hy. by eapply candidate_only.
Qed.

Lemma find_children_outcome h k i cs :
  (forall c, c ∈ cs -> find_outcome c h (find_index c h k)) ->
  ((forall c, c ∈ cs -> desc (hash c) h = false) /\ find_children h k i cs = Ok (inr false)) \/
  exists j c, cs !! j = Some c /\ desc (hash c) h = true /\
    ((exists p x, find_children h k i cs = Ok (inl (Found (p ++ [(i + j)%nat]))) /\
        follow (E := E) c (rev p) = Ok x /\ deepest_candidate [c] h x) \/
     (find_children h k i cs = Ok (inr true) /\ forall y : Node H V, ~ candidate [c] h y)).
Proof.
  revert i. induction cs as [|c cs IH]; intros i Hcs; simpl.
  { left. split; [by intros c ?%not_elem_of_nil|done]. }
  pose proof (Hcs c ltac:(left)) as Hc. unfold find_outcome in Hc. destruct (desc (hash c) h) eqn:Hd.
  - right. exists 0%nat, c. split_and!; [done..|]. rewrite Nat.add_0_r.
    destruct Hc as [(p & x & -> & Hf & Hx)|(-> & Hno)]; [left; exists p, x|right]; done.
  - rewrite Hc. simpl. destruct (IH (S i)) as [(Hall & Hr)|(j & c' & Hj & Hd' & Hr)].
    + intros. apply Hcs. by right.
    + left. split; [|done]. intros x [->|Hx]%elem_of_cons; auto.
    + right. exists (S j), c'. split_and!; [done..|]. by replace (i + S j)%nat with (S i + j)%nat by lia.
Qed.

(** No candidate below the node: the node itself, if it passes. *)
Lemma searched_self n h :
  desc (hash n) h = true -> (forall y : Node H V, ~ candidate (children n) h y) ->
  searched n h (if predicate (data n) then Ok (Found []) else Ok (Failure true)).
Proof.
  intros Hd Hno. unfold searched. destruct (predicate (data n)) eqn:Hp; [left|right].
  - eexists _, _. split_and!; [done..|]. split; [apply candidate_cons; by left|].
    intros y [(-> & _)|Hy]%candidate_cons; [by left|]. by apply Hno in Hy.
  - split; [done|]. intros y [(-> & _ & Hpy)|Hy]%candidate_cons; [congruence|by eapply Hno].
Qed.

Lemma find_index_outcome n h k : wf_node n -> k = num h -> find_outcome n h (find_index n h k).
Proof.
  induction n as [sh sn sd cs IH] using Node_ind'. intros Hw Hk.
  destruct (wf_node_inv _ Hw) as (Hsn & Hwc & Hdc). simpl in Hsn, Hwc, Hdc.
  rewrite find_index_eq. unfold find_outcome. simpl.
  destruct (Z.ltb_spec k sn) as [Hlt|Hge].
  { destruct (desc sh h) eqn:Hd; [|done]. apply desc_num in Hd. lia. }
  destruct (find_children_outcome h k 0%nat cs) as [(Hall & ->)|(j & c & Hj & Hd & Hr)].
  { intros c Hc. apply IH; [done|by apply Hwc|done]. }
  - simpl. rewrite descends_desc. simpl. destruct (desc sh h) eqn:Hd; [|done].
    assert (forall y : Node H V, ~ candidate cs h y) as Hno.
    { intros y (c & Hc & Hd' & _)%candidate_in; [|apply Hwc]. rewrite Hall in Hd'; done. }
    by apply searched_self.
  - pose proof (list_elem_of_lookup_2 _ _ _ Hj) as Hc. simpl in Hr.
    assert (desc sh h = true) as Hsh by (eapply desc_trans; [by apply Hdc|done]). rewrite Hsh.
    destruct Hr as [(p & x & -> & Hf & Hx)|(-> & Hno)]; simpl.
    + left. exists (p ++ [j]), x. split_and!; [done| |].
      * rewrite rev_app_distr. simpl. by rewrite Hj.
      * apply (deepest_only cs) in Hx; [|done..]. destruct Hx as [Hx Hmax]. split.
        -- apply candidate_cons. by right.
        -- intros y [(-> & _)|Hy]%candidate_cons; [right|by apply Hmax].
           destruct Hx as (Hx & _). by apply (wf_node_below (mkNode sh sn sd cs)).
    + assert (forall y : Node H V, ~ candidate cs h y) as Hno'.
      { intros y Hy. apply (Hno y). by eapply candidate_only. }
      by apply searched_self.
Qed.
Abbreviation find_roots := (find_roots is_descendent_of predicate).
Abbreviation find_index_roots := (find_index_roots is_descendent_of predicate).

Lemma find_roots_none ns h k i : wf_forest ns -> k = num h ->
  (forall c, c ∈ ns -> desc (hash c) h = false) ->
  find_roots ns h k = Ok None /\ find_index_roots i ns h k = Ok None.
Proof.
  revert i. induction ns as [|c ns IH]; intros i Hw Hk Hd; [done|]. simpl.
  destruct (wf_forest_cons _ _ Hw) as [Hc Hwn]. pose proof (find_index_outcome c h k Hc Hk) as Ho.
  unfold find_outcome in Ho. rewrite Hd in Ho by left. unfold node_find_node_where. rewrite Ho. simpl.
  apply IH; [done..|]. intros. apply Hd. by right.
Qed.

Lemma find_roots_outcome ns h k i : wf_forest ns -> k = num h ->
  (exists j c p x, ns !! j = Some c /\ follow (E := E) c (rev p) = Ok x /\ deepest_candidate ns h x /\
     desc (hash c) h = true /\
     find_roots ns h k = Ok (Some x) /\ find_index_roots i ns h k = Ok (Some (p ++ [(i + j)%nat]))) \/
  ((forall y : Node H V, ~ candidate ns h y) /\
     find_roots ns h k = Ok None /\ find_index_roots i ns h k = Ok None).
Proof.
  revert i. induction ns as [|c ns IH]; intros i Hw Hk.
  { right. split; [|done]. intros y (Hy & _). by apply not_elem_of_nil in Hy. }
  destruct (wf_forest_cons _ _ Hw) as [Hc Hwn]. pose proof (find_index_outcome c h k Hc Hk) as Ho.
  unfold find_outcome in Ho. simpl. unfold node_find_node_where. destruct (desc (hash c) h) eqn:Hd.
  - destruct Ho as [(p & x & -> & Hf & Hx)|(-> & Hno)].
    + left. exists 0%nat, c, p, x. rewrite Nat.add_0_r. simpl. rewrite Hf.
      split_and!; [done..| |done|done|done]. apply (deepest_only (c :: ns) c); [done|left|done..].
    + right. simpl. assert (forall c', c' ∈ ns -> desc (hash c') h = false) as Hrest.
      { intros c' Hc'. destruct (desc (hash c') h) eqn:Hd'; [|done]. exfalso.
        assert (c = c') as <- by (eapply (antichain_eq (c :: ns)); [apply Hw|left|by right|by right|by right]).
        destruct Hw as [_ [Hnd _]]. csimpl in Hnd. apply NoDup_cons in Hnd as [Hnd _]. apply Hnd, list_elem_of_fmap.
        eauto. }
      destruct (find_roots_none ns h k (S i) Hwn Hk Hrest) as [-> ->]. split_and!; [|done..].
      intros y Hy. apply (Hno y). apply (candidate_only (c :: ns) c); [done|left|done..].
  - rewrite Ho. simpl. assert (forall y : Node H V, candidate (c :: ns) h y <-> candidate ns h y) as Hcand.
    { intros y. unfold candidate. simpl. rewrite elem_of_app. split; [|naive_solver]. intros [[Hy|Hy] Hdy]; [|done].
      destruct (wf_node_nodes c y Hc Hy) as [_ [->|Hcy]]; [naive_solver congruence|].
      destruct Hdy as [Hdy _]. rewrite (desc_trans _ _ _ Hcy Hdy) in Hd. done. }
    destruct (IH (S i) Hwn Hk) as [(j & c' & p & x & Hj & Hf & Hx & Hd' & Hr & Hi)|(Hno & Hr & Hi)].
    + left. exists (S j), c', p, x. replace (i + S j)%nat with (S i + j)%nat by lia.
      split_and!; [done..| |done|done|done]. destruct Hx as [Hx Hm]. split; [by apply Hcand|].
      intros y Hy. apply Hm. by apply Hcand.
    + right. split; [|done]. intros y Hy%Hcand. by eapply Hno.
Qed.

(** [find_node_where] returns the deepest ancestor of [h] in the tree that
    passes the predicate: every other passing ancestor in the tree is an
    ancestor of the node returned; it returns nothing only if the tree has no
    passing ancestor.  The backtracking never has to look at a second branch. *)
Theorem find_node_where_deepest t h k : wf t -> k = num h ->
  (exists x, find_node_where is_descendent_of predicate t h k = Ok (Some x) /\
     deepest_candidate (roots t) h x) \/
  (find_node_where is_descendent_of predicate t h k = Ok None /\
     forall y : Node H V, ~ candidate (roots t) h y).
Proof.
  intros Hw Hk. destruct (find_roots_outcome (roots t) h k 0%nat Hw Hk)
    as [(j & c & p & x & _ & _ & Hx & _ & Hr & _)|(Hno & Hr & _)]; [left|right]; eauto.
Qed.
End find.

(** ** Finalization *)
Lemma wf_below_node ns c (x : Node H V) : wf_forest ns -> c ∈ ns -> x ∈ forest_nodes ns ->
  x ∈ node_nodes c <-> x = c \/ desc (hash c) (hash x) = true.
Proof.
  intros [Hw Ha] Hc Hx. split; [by intros [_ ?]%wf_node_nodes; auto|]. intros Hcx.
  apply elem_of_forest_nodes in Hx as (c' & Hc' & Hx).
  destruct (wf_node_nodes c' x (Hw c' Hc') Hx) as [_ Hcx']. assert (c = c') as ->; [|done].
  apply (antichain_eq ns c c' (hash x)); [done..| |].
  - destruct Hcx as [->|]; auto.
  - destruct Hcx' as [->|]; auto.
Qed.

Lemma wf_forest_sublist ns ns' : ns' `sublist_of` ns -> wf_forest ns -> wf_forest ns'.
Proof.
  intros Hs [Hw [Hnd Ha]]. assert (forall c, c ∈ ns' -> c ∈ ns) as Hin by (intros; by eapply sublist_subseteq).
  split; [auto|]. apply (antichain_sub ns); [|done|done]. eapply sublist_NoDup; [exact Hnd|]. by apply fmap_sublist.
Qed.

(** Replacing a tree by its children. *)
Lemma wf_forest_open n ns : wf_forest (n :: ns) -> wf_forest (children n ++ ns).
Proof.
  intros Hw. destruct (wf_forest_cons _ _ Hw) as [Hn [Hwn [Hnd Ha]]].
  destruct (wf_node_inv _ Hn) as (_ & [Hwc [Hndc Hac]] & Hd). destruct Hw as [_ [Hnd' Ha']].
  csimpl in Hnd'. apply NoDup_cons in Hnd' as [Hn' _].
  assert (forall c c', c ∈ children n -> c' ∈ ns ->
    hash c <> hash c' /\ desc (hash c) (hash c') = false /\ desc (hash c') (hash c) = false) as Hx.
  { intros c c' Hc Hc'. specialize (Hd c Hc). pose proof (Ha' n c' ltac:(left) ltac:(by right)) as H1.
    pose proof (Ha' c' n ltac:(by right) ltac:(left)) as H2. split_and!.
    - congruence.
    - destruct (desc (hash c) (hash c')) eqn:Hcc; [|done]. by rewrite (desc_trans _ _ _ Hd Hcc) in H1.
    - destruct (desc (hash c') (hash c)) eqn:Hcc; [|done].
      destruct (desc_chain _ _ _ Hd Hcc) as [Heq|[?|?]]; [|congruence..]. exfalso. apply Hn'.
      rewrite Heq. by apply list_elem_of_fmap_2. }
  split; [intros c [Hc|Hc]%elem_of_app; auto|]. split.
  - rewrite fmap_app. apply NoDup_app. split_and!; [done| |done].
    intros y (c & -> & Hc)%list_elem_of_fmap (c' & Heq & Hc')%list_elem_of_fmap. by destruct (Hx c c' Hc Hc').
  - intros c c' [Hc|Hc]%elem_of_app [Hc'|Hc']%elem_of_app; [auto| | |auto].
    + by destruct (Hx c c' Hc Hc') as (_ & ? & _).
    + by destruct (Hx c' c Hc' Hc) as (_ & _ & ?).
Qed.

Lemma finalize_root_at_eq i t n : roots t !! i = Some n ->
  finalize_root_at (E := E) i t = (mkForkTree (children n) (Some (number n)), Ok (data n)).
Proof.
  intros Hi. destruct (swap_remove_spec (E := Error E) i (roots t) n Hi) as (l' & Hs & _).
  unfold finalize_root_at, mbind, M_mbind, gets, lift. by rewrite Hs.
Qed.

Lemma position_spec (f : Node H V -> bool) ns :
  match position f ns with
  | Some i => exists n, ns !! i = Some n /\ f n = true
  | None => forall n, n ∈ ns -> f n = false
  end.
Proof.
  induction ns as [|n ns IH]; simpl; [by intros n ?%not_elem_of_nil|]. destruct (f n) eqn:Hf; [by exists n|].
  destruct (position f ns) as [i|]; simpl; [done|]. intros x [->|Hx]%elem_of_cons; auto.
Qed.

Lemma finalize_root_eq h t :
  (exists n, n ∈ roots t /\ hash n = h /\
     finalize_root (E := E) h t = (mkForkTree (children n) (Some (number n)), Ok (Some (data n)))) \/
  ((forall n, n ∈ roots t -> hash n <> h) /\ finalize_root (E := E) h t = (t, Ok None)).
Proof.
  unfold finalize_root. unfold mbind, M_mbind, gets.
  pose proof (position_spec (fun node => bool_decide (hash node = h)) (roots t)) as Hp.
  destruct (position _ _) as [i|].
  - destruct Hp as (n & Hi & Hh%bool_decide_eq_true). left. exists n.
    split_and!; [by eapply list_elem_of_lookup_2|done|]. by rewrite (finalize_root_at_eq i t n).
  - right. split; [|done]. intros n Hn Heq. specialize (Hp n Hn). apply bool_decide_eq_false in Hp. done.
Qed.

Lemma none_of_pure (f : Node H V -> res (Error E) bool) (g : Node H V -> bool) e ns :
  (forall n, n ∈ ns -> f n = Ok (g n)) -> none_of f e ns = if existsb g ns then Err e else Ok tt.
Proof.
  induction ns as [|n ns IH]; intros Hf; simpl; [done|]. rewrite Hf by left. simpl.
  destruct (g n); [done|]. simpl. apply IH. intros. apply Hf. by right.
Qed.

Lemma retain_pure (f : Node H V -> res (Error E) bool) (g : Node H V -> bool) ns kept ch :
  (forall n, n ∈ ns -> f n = Ok (g n)) ->
  retain f ns kept ch = (kept ++ filter (fun n => g n = true) ns, Ok (ch || existsb (fun n => negb (g n)) ns)).
Proof.
  revert kept ch. induction ns as [|n ns IH]; intros kept ch Hf; simpl; [by rewrite app_nil_r, orb_false_r|].
  rewrite Hf by left. rewrite filter_cons. destruct (g n) eqn:Hg; simpl.
  - rewrite IH by (intros; apply Hf; by right). by rewrite <-app_assoc.
  - rewrite IH by (intros; apply Hf; by right). by rewrite orb_true_r.
Qed.

(** What a finalization of [h] returns and leaves, from the forest [ns] to
    [ns']: the subtrees of the descendents of [h], and the data of [h] if it
    was in the tree. *)
Definition finalized ns ns' h (r : FinalizationResult V) : Prop :=
  wf_forest ns' /\
  (forall x : Node H V, x ∈ forest_nodes ns' <-> x ∈ forest_nodes ns /\ desc h (hash x) = true) /\
  match r with
  | Changed (Some v) => exists x, x ∈ forest_nodes ns /\ hash x = h /\ data x = v
  | Changed None => (h ∉ hashes ns) /\ (forest_size ns' < forest_size ns)%nat
  | Unchanged => (h ∉ hashes ns) /\ ns' = ns
  end.

Lemma finalized_root ns n : wf_forest ns -> n ∈ ns -> finalized ns (children n) (hash n) (Changed (Some (data n))).
Proof.
  intros Hw Hn. pose proof (proj1 Hw n Hn) as Hwn. destruct (wf_node_inv _ Hwn) as (_ & Hwc & _).
  assert (n ∈ forest_nodes ns) as Hnn by (apply elem_of_forest_nodes; exists n; split; [done|rewrite node_nodes_eq; left]).
  split_and!; [done| |by exists n]. intros x. split.
  - intros Hx. split; [|by apply wf_node_below]. apply elem_of_forest_nodes. exists n. split; [done|].
    rewrite node_nodes_eq. by right.
  - intros [Hx Hd]. assert (x ∈ node_nodes n) as Hxn by (apply (wf_below_node ns); auto).
    rewrite node_nodes_eq in Hxn. apply elem_of_cons in Hxn as [->|Hxn]; [|done]. by rewrite desc_irrefl in Hd.
Qed.

Lemma forest_size_filter (P : Node H V -> Prop) `{!forall x, Decision (P x)} ns :
  (forest_size (filter P ns) <= forest_size ns)%nat /\
  ((exists n, n ∈ ns /\ ~ P n) -> (forest_size (filter P ns) < forest_size ns)%nat).
Proof.
  induction ns as [|n ns [IH1 IH2]]; [split; [done|by intros (n & ?%not_elem_of_nil & _)]|].
  rewrite filter_cons. case_decide; rewrite ?forest_size_cons.
  - split; [lia|]. intros (x & [->|Hx]%elem_of_cons & Hnx); [done|].
    assert (forest_size (filter P ns) < forest_size ns)%nat by (apply IH2; eauto). lia.
  - split; [lia|]. intros _. lia.
Qed.

(** Keeping the trees below [h], when no tree is [h] or an ancestor of it. *)
Lemma finalized_filter ns h :
  wf_forest ns -> (forall c, c ∈ ns -> hash c <> h /\ desc (hash c) h = false) ->
  finalized ns (filter (fun c => desc h (hash c) = true) ns) h
    (changed_or_not (existsb (fun c => negb (desc h (hash c))) ns)).
Proof.
  intros Hw Hno. assert (h ∉ hashes ns) as Hin.
  { intros (c & Hc & Hy)%hashes_inv. destruct (Hno c Hc) as [H1 H2].
    destruct (wf_hashes c h (proj1 Hw c Hc) Hy) as [->|?]; congruence. }
  split_and!.
  - eapply wf_forest_sublist; [apply sublist_filter|done].
  - intros x. rewrite !elem_of_forest_nodes. setoid_rewrite list_elem_of_filter. split.
    + intros (c & [Hd Hc] & Hx). split; [eauto|].
      destruct (wf_node_nodes c x (proj1 Hw c Hc) Hx) as [_ [->|Hcx]]; [done|by eapply desc_trans].
    + intros [(c & Hc & Hx) Hd]. exists c. split; [|done]. split; [|done]. destruct (Hno c Hc) as [H1 H2].
      destruct (wf_node_nodes c x (proj1 Hw c Hc) Hx) as [_ [->|Hcx]]; [done|].
      destruct (desc_chain _ _ _ Hd Hcx) as [?|[?|?]]; congruence.
  - unfold changed_or_not. destruct (existsb _ ns) eqn:Hex; (split; [done|]).
    + apply forest_size_filter. apply existsb_exists in Hex as (c & Hc & Hd). exists c.
      split; [by apply list_elem_of_In|]. by destruct (desc h (hash c)).
    + apply filter_id.
      apply Forall_forall. intros c Hc. destruct (desc h (hash c)) eqn:Hd; [done|].
      assert (existsb (fun c => negb (desc h (hash c))) ns = true); [|congruence].
      apply existsb_exists. exists c. split; [by apply list_elem_of_In|by rewrite Hd].
Qed.

Lemma and_then_num (b : bool) (f : res (Error E) bool) g :
  f = Ok g -> (g = true -> b = true) -> and_then b f = Ok g.
Proof. intros -> Hg. destruct b; [done|]. destruct g; [discriminate (Hg eq_refl)|done]. Qed.

(** The comparisons of numbers only save calls. *)
Lemma descends_below k h n : wf_node n -> k = num h ->
  and_then (k <? number n) (descends is_descendent_of h (hash n)) = Ok (desc h (hash n)).
Proof.
  intros Hw Hk. destruct (wf_node_inv _ Hw) as (Hn & _). apply and_then_num; [apply descends_desc|].
  intros Hd%desc_num. lia.
Qed.

Lemma descends_above k h n : wf_node n -> k = num h ->
  and_then (number n <? k) (descends is_descendent_of (hash n) h) = Ok (desc (hash n) h).
Proof.
  intros Hw Hk. destruct (wf_node_inv _ Hw) as (Hn & _). apply and_then_num; [apply descends_desc|].
  intros Hd%desc_num. lia.
Qed.

Lemma root_ancestor ns h : wf_forest ns ->
  existsb (fun c => desc (hash c) h) ns = existsb (fun y => desc y h) (hashes ns).
Proof.
  intros Hw. apply eq_bool_prop_intro. rewrite !Is_true_true, !existsb_exists.
  setoid_rewrite <-list_elem_of_In. split.
  - intros (c & Hc & Hd). exists (hash c). split; [apply elem_of_hashes; eauto|done].
  - intros (y & (c & Hc & Hy)%hashes_inv & Hd). exists c. split; [done|].
    destruct (wf_hashes c y (proj1 Hw c Hc) Hy) as [->|?]; [done|by eapply desc_trans].
Qed.

Lemma root_no_ancestor ns n : wf_forest ns -> n ∈ ns -> existsb (fun y => desc y (hash n)) (hashes ns) = false.
Proof.
  intros Hw Hn. rewrite <-root_ancestor by done. apply not_true_is_false. rewrite existsb_exists.
  intros (c & Hc%list_elem_of_In & Hd). destruct Hw as [_ [_ Ha]]. rewrite Ha in Hd; done.
Qed.

(** C21. [finalize] of a block above the finalized number: if a node of the
    tree is a proper ancestor of the block, nothing changes and the error is
    [UnfinalizedAncestor]; otherwise the tree keeps exactly the descendents of
    the block, with their subtrees, the finalized number is the block's, and
    the result carries the data of the block if it was in the tree and says
    whether the tree changed. *)
Theorem finalize_spec t h k : wf t -> k = num h ->
  if reverts t k then finalize is_descendent_of h k t = (t, Err Revert)
  else if existsb (fun y => desc y h) (hashes (roots t))
  then finalize is_descendent_of h k t = (t, Err UnfinalizedAncestor)
  else exists ns' r, finalize is_descendent_of h k t = (mkForkTree ns' (Some k), Ok r) /\
    finalized (roots t) ns' h r.
Proof.
  intros Hw Hk. unfold finalize, mbind, M_mbind. rewrite check_revert_eq. destruct (reverts t k); [done|].
  destruct (finalize_root_eq h t) as [(n & Hn & <- & ->)|(Hno & ->)].
  - rewrite root_no_ancestor by done. eexists _, _. split; [|by apply finalized_root].
    destruct (wf_node_inv _ (proj1 Hw n Hn)) as (Hnum & _). by rewrite Hk, Hnum.
  - unfold gets, lift.
    rewrite (none_of_pure _ (fun c => desc (hash c) h)) by (intros c Hc; apply descends_above; [by apply Hw|done]).
    rewrite <-root_ancestor by done. destruct (existsb _ (roots t)) eqn:Hex; [done|].
    unfold retain_roots, mbind, M_mbind, gets.
    rewrite (retain_pure _ (fun c => desc h (hash c))) by (intros c Hc; apply descends_below; [by apply Hw|done]).
    eexists _, _. split; [reflexivity|]. apply finalized_filter; [done|]. intros c Hc. split; [auto|].
    destruct (desc (hash c) h) eqn:Hd; [|done]. rewrite <-Hex. symmetry. apply existsb_exists. exists c.
    split; [by apply list_elem_of_In|done].
Qed.

Lemma classify_eq h k n : wf_node n -> k = num h ->
  classify is_descendent_of h k n =
    Ok (bool_decide (hash n = h), desc h (hash n), desc (hash n) h).
Proof.
  intros Hw Hk. unfold classify. destruct (wf_node_inv _ Hw) as (Hn & _). case_bool_decide as Heq; simpl.
  - by rewrite Heq, desc_irrefl.
  - rewrite descends_below by done. simpl. destruct (desc h (hash n)) eqn:Hd; simpl.
    + by rewrite desc_asym.
    + by rewrite descends_above.
Qed.

(** The invariant of the [while] loop: the roots before [idx] are below [h],
    and the tree still has [h] and everything below it. *)
Definition loop_inv ns0 h ns (idx : nat) (changed : bool) : Prop :=
  wf_forest ns /\ (forall c, c ∈ take idx ns -> desc h (hash c) = true) /\
  (forall x : Node H V, hash x = h \/ desc h (hash x) = true -> x ∈ forest_nodes ns <-> x ∈ forest_nodes ns0) /\
  (if changed then forest_size ns < forest_size ns0 else ns = ns0)%nat.

(** Removing the tree at [idx]: it and its node are gone from the rest, or its
    children take its place. *)
Lemma loop_inv_remove ns0 h ns idx changed n ns1 ext :
  loop_inv ns0 h ns idx changed -> ns ≡ₚ n :: ns1 -> take idx ns1 = take idx ns ->
  (idx <= length ns1)%nat -> hash n <> h -> desc h (hash n) = false ->
  (desc (hash n) h = true /\ ext = children n \/ desc (hash n) h = false /\ ext = []) ->
  loop_inv ns0 h (ns1 ++ ext) idx true.
Proof.
  intros (Hw & Hbefore & Hsame & Hch) Hperm Htake Hidx Hne Hnd Hext.
  rewrite Hperm in Hw. pose proof (wf_forest_cons _ _ Hw) as [Hn Hw1].
  assert (forest_size ns = S (forest_size (children n) + forest_size ns1)) as Hsize
    by (by rewrite (forest_size_perm _ _ Hperm), forest_size_cons).
  split_and!.
  - destruct Hext as [[_ ->]|[_ ->]]; [|by rewrite app_nil_r].
    rewrite Permutation_app_comm. by apply wf_forest_open.
  - intros c. rewrite take_app_le by done. rewrite Htake. apply Hbefore.
  - intros x Hx. rewrite <-Hsame by done. rewrite Hperm. simpl. rewrite forest_nodes_app, !elem_of_app, node_nodes_eq, elem_of_cons.
    assert (x <> n) as Hxn by (intros ->; destruct Hx as [?|?]; congruence).
    destruct Hext as [[_ ->]|[Hd ->]]; [tauto|]. split; [intros [?|?%not_elem_of_nil]; tauto|].
    intros [[?|Hxc]|?]; [done| |by left]. apply wf_node_below in Hxc; [|done].
    destruct Hx as [<-|Hx]; [congruence|]. destruct (desc_chain _ _ _ Hx Hxc) as [?|[?|?]]; congruence.
  - assert (forest_size ns <= forest_size ns0)%nat by (destruct changed; [lia|by subst]).
    rewrite forest_size_app. destruct Hext as [[_ ->]|[_ ->]]; simpl; lia.
Qed.

Lemma finalized_loop ns0 h ns n idx changed :
  loop_inv ns0 h ns idx changed -> n ∈ ns -> hash n = h ->
  finalized ns0 (children n) h (Changed (Some (data n))).
Proof.
  intros (Hw & _ & Hsame & _) Hn <-. destruct (finalized_root ns n Hw Hn) as (Hw' & Hx & (x & Hxn & Hh & Hd)).
  split_and!; [done| |].
  - intros y. rewrite Hx. split; intros [H1 H2]; (split; [|done]); apply Hsame; auto.
  - exists x. split_and!; [|done..]. apply Hsame; auto.
Qed.

Lemma finalized_loop_end ns0 h ns changed :
  loop_inv ns0 h ns (length ns) changed -> finalized ns0 ns h (changed_or_not changed).
Proof.
  intros (Hw & Hall & Hsame & Hch). rewrite firstn_all in Hall.
  assert (forall x, x ∈ forest_nodes ns -> desc h (hash x) = true) as Hbelow.
  { intros x (c & Hc & Hx)%elem_of_forest_nodes. specialize (Hall c Hc).
    destruct (wf_node_nodes c x (proj1 Hw c Hc) Hx) as [_ [->|?]]; [done|by eapply desc_trans]. }
  assert (h ∉ hashes ns0) as Hin.
  { intros (x & -> & Hx)%list_elem_of_fmap. apply Hsame in Hx; [|auto]. apply Hbelow in Hx.
    by rewrite desc_irrefl in Hx. }
  split_and!; [done| |by destruct changed]. intros x. split.
  - intros Hx. pose proof (Hbelow x Hx). split; [|done]. apply Hsame; auto.
  - intros [Hx Hd]. apply Hsame; auto.
Qed.

Lemma forest_size_removed ns n ns1 idx ext :
  ns !! idx = Some n -> ns ≡ₚ n :: ns1 -> take idx ns1 = take idx ns ->
  forest_size (drop idx (ns1 ++ ext)) = (forest_size (drop (S idx) ns) + forest_size ext)%nat.
Proof.
  intros Hn Hperm Htake. pose proof (Permutation_length Hperm) as Hpl. simpl in Hpl.
  apply lookup_lt_Some in Hn as Hlt. rewrite drop_app_le, forest_size_app by lia. f_equal. apply forest_size_perm.
  apply (Permutation_app_inv_l (n :: take idx ns1)). simpl. rewrite take_drop, <-Hperm, Htake.
  rewrite <-(take_drop_middle _ _ _ Hn) at 1. symmetry. apply Permutation_middle.
Qed.

Lemma finalize_loop_spec fuel ns0 h k idx changed t :
  k = num h -> loop_inv ns0 h (roots t) idx changed -> (idx <= length (roots t))%nat ->
  (forest_size (drop idx (roots t)) <= fuel)%nat ->
  exists t' v changed', finalize_loop is_descendent_of fuel h k idx changed t = (t', Ok (v, changed')) /\
    finalized ns0 (roots t') h (match v with Some v => Changed (Some v) | None => changed_or_not changed' end) /\
    (is_Some v -> best_finalized_number t' = Some k).
Proof.
  intros Hk. revert idx changed t. induction fuel as [|fuel IH]; intros idx changed t Hinv Hidx Hfuel; simpl;
    unfold mbind at 1, M_mbind at 1, gets; case_decide as Hlen.
  1, 3: eexists _, None, _; split; [reflexivity|]; split; [subst; by apply finalized_loop_end|by intros []].
  { exfalso. destruct (drop idx (roots t)) as [|c l] eqn:Hdrop; [|rewrite forest_size_cons in Hfuel; lia].
    apply (f_equal length) in Hdrop. rewrite length_drop in Hdrop. simpl in Hdrop. lia. }
  destruct (lookup_lt_is_Some_2 (roots t) idx) as [n Hn]; [lia|]. pose proof (list_elem_of_lookup_2 _ _ _ Hn) as Hin.
  assert (wf_node n) as Hwn by (by apply Hinv). rewrite (drop_S _ _ _ Hn), forest_size_cons in Hfuel.
  destruct (swap_remove_spec (E := Error E) idx (roots t) n Hn) as (ns1 & Hs & Hperm & Htake).
  pose proof (Permutation_length Hperm) as Hpl. simpl in Hpl.
  unfold mbind at 1, M_mbind at 1, lift at 1. rewrite Hn. simpl.
  unfold mbind at 1, M_mbind at 1, lift at 1. rewrite classify_eq by done.
  assert (forall ext, (forest_size ext <= forest_size (children n))%nat ->
    (forest_size (drop idx (ns1 ++ ext)) <= fuel)%nat) as Hfuel1.
  { intros ext Hext. rewrite (forest_size_removed (roots t) n) by done. lia. }
  case_bool_decide as Heq; [|destruct (desc h (hash n)) eqn:Hd1; [|destruct (desc (hash n) h) eqn:Hd2]].
  - unfold mbind, M_mbind. rewrite (finalize_root_at_eq idx t n Hn).
    eexists _, (Some _), _. split; [reflexivity|]. split; [by eapply finalized_loop|].
    intros _. simpl. destruct (wf_node_inv _ Hwn) as (Hnum & _). congruence.
  - apply IH; [|lia|lia]. destruct Hinv as (? & Hbefore & ?). split; [done|]. split; [|done].
    intros c. rewrite (take_S_r _ _ _ Hn). intros [Hc| ->%list_elem_of_singleton]%elem_of_app; auto.
  - unfold mbind, M_mbind, lift. rewrite Hs. simpl.
    apply IH; simpl; [|rewrite length_app; lia|by apply Hfuel1].
    eapply (loop_inv_remove ns0 h (roots t)); eauto. lia.
  - unfold mbind, M_mbind, lift. rewrite Hs. simpl.
    apply IH; simpl; [|lia|rewrite <-(app_nil_r ns1); apply Hfuel1; simpl; lia].
    rewrite <-(app_nil_r ns1). eapply (loop_inv_remove ns0 h (roots t)); eauto. lia.
Qed.

(** [finalize_with_ancestors] of a block above the finalized number always
    terminates and succeeds: the tree keeps exactly the descendents of the
    block with their subtrees, the finalized number is the block's, and the
    result carries the block's data if it was anywhere in the tree. *)
Theorem finalize_with_ancestors_spec t h k : wf t -> k = num h ->
  if reverts t k then finalize_with_ancestors is_descendent_of h k t = (t, Err Revert)
  else exists ns' r, finalize_with_ancestors is_descendent_of h k t = (mkForkTree ns' (Some k), Ok r) /\
    finalized (roots t) ns' h r.
Proof.
  intros Hw Hk. unfold finalize_with_ancestors, mbind, M_mbind. rewrite check_revert_eq.
  destruct (reverts t k); [done|].
  destruct (finalize_root_eq h t) as [(n & Hn & <- & ->)|(Hno & ->)].
  - eexists _, _. split; [|by apply finalized_root].
    destruct (wf_node_inv _ (proj1 Hw n Hn)) as (Hnum & _). by rewrite Hk, Hnum.
  - unfold gets.
    destruct (finalize_loop_spec (forest_size (roots t)) (roots t) h k 0%nat false t Hk)
      as (t' & v & changed & -> & Hfin & Hbest); [|lia|by rewrite drop_0|].
    { split_and!; [done|by intros c ?%not_elem_of_nil|done..]. }
    destruct v as [v|]; eexists _, _; (split; [|done]); [|reflexivity].
    rewrite <-Hbest by done. by destruct t'.
Qed.

(** ** Finalization by a descendent *)
Section descendent.
Variable predicate : V -> bool.

Definition on_branch h y : bool := bool_decide (y = h) || desc y h.

Lemma finalizes_node_eq h k n : wf_node n -> k = num h ->
  finalizes_node is_descendent_of predicate h k n =
    if predicate (data n) && on_branch h (hash n)
    then if existsb (fun c => desc (hash c) h) (children n) then Err UnfinalizedAncestor else Ok true
    else Ok false.
Proof.
  intros Hw Hk. unfold finalizes_node, on_branch. destruct (predicate (data n)); [|done]. simpl.
  destruct (wf_node_inv _ Hw) as (_ & [Hwc _] & _).
  rewrite (none_of_pure _ (fun c => desc (hash c) h)).
  - case_bool_decide; simpl; [|rewrite descends_desc; simpl; destruct (desc (hash n) h); [|done]];
      by destruct (existsb _ (children n)).
  - intros c Hc. apply and_then_num; [apply descends_desc|]. intros Hd%desc_num.
    destruct (wf_node_inv _ (Hwc c Hc)) as (Hn & _). lia.
Qed.

(** The first root on the branch of [h] that passes the predicate; the others
    are not on the branch. *)
Definition candidate_root h n : bool := predicate (data n) && on_branch h (hash n).

Lemma find_first_spec h k i ns : (forall n, n ∈ ns -> wf_node n) -> k = num h ->
  (exists j n, ns !! j = Some n /\ candidate_root h n = true /\
     find_first (finalizes_node is_descendent_of predicate h k) i ns =
       if existsb (fun c => desc (hash c) h) (children n) then Err UnfinalizedAncestor
       else Ok (Some ((i + j)%nat, n))) \/
  ((forall n, n ∈ ns -> candidate_root h n = false) /\
     find_first (finalizes_node is_descendent_of predicate h k) i ns = Ok None).
Proof.
  intros Hw Hk. revert i. induction ns as [|n ns IH]; intros i; simpl.
  { right. split; [by intros n ?%not_elem_of_nil|done]. }
  rewrite finalizes_node_eq by (first [apply Hw; left|done]). fold (candidate_root h n).
  destruct (candidate_root h n) eqn:Hc.
  - left. exists 0%nat, n. split_and!; [done..|]. rewrite Nat.add_0_r. by destruct (existsb _ _).
  - simpl. destruct (IH ltac:(intros; apply Hw; by right) (S i)) as [(j & m & Hj & Hm & ->)|(Hno & ->)].
    + left. exists (S j), m. split_and!; [done..|]. by replace (i + S j)%nat with (S i + j)%nat by lia.
    + right. split; [|done]. intros x [->|Hx]%elem_of_cons; auto.
Qed.

Lemma candidate_root_unique ns h n n' : wf_forest ns -> n ∈ ns -> n' ∈ ns ->
  candidate_root h n = true -> candidate_root h n' = true -> n = n'.
Proof.
  intros [_ Ha] Hn Hn' [_ Hc]%andb_prop [_ Hc']%andb_prop. apply (antichain_eq ns n n' h); [done..| |];
    unfold on_branch in *; [clear Hc'|clear Hc; rename Hc' into Hc];
    apply orb_prop in Hc as [?%bool_decide_eq_true|?]; auto.
Qed.

(** The roots that stay: those on the branch of [h] and those below it. *)
Definition related h n : bool := on_branch h (hash n) || desc h (hash n).

Lemma retain_related h k ns : (forall n, n ∈ ns -> wf_node n) -> k = num h ->
  retain (retains_root is_descendent_of h k) ns [] false
  = (filter (fun n => related h n = true) ns, Ok (existsb (fun n => negb (related h n)) ns)).
Proof.
  intros Hw Hk. rewrite (retain_pure _ (related h)); [done|]. intros n Hn. unfold retains_root.
  rewrite descends_below by auto. simpl. unfold related, on_branch. destruct (wf_node_inv _ (Hw n Hn)) as (Hnum & _).
  destruct (desc h (hash n)); [by rewrite orb_true_r|]. rewrite descends_desc, orb_false_r.
  case_bool_decide as Heq; simpl; [|by rewrite andb_false_r].
  replace (number n =? k) with true by (subst; lia). done.
Qed.

(** [finalize_with_descendent_if] of a block above the finalized number.
    If a root on the block's branch (the block or an ancestor of it) passes
    the predicate, it is finalized: with a child that is a proper ancestor of
    the block the call fails with [UnfinalizedAncestor] and changes nothing;
    otherwise its data is returned and, of its children, those related to the
    block become the roots.  If no such root exists, the roots related to the
    block stay.  The result is well formed and the finalized number is the
    block's. *)
Lemma finalize_with_descendent_if_run t h k : wf t -> k = num h -> reverts t k = false ->
  let run := finalize_with_descendent_if is_descendent_of predicate h k t in
  (forall n, n ∈ roots t -> candidate_root h n = true ->
     if existsb (fun c => desc (hash c) h) (children n)
     then run = (t, Err UnfinalizedAncestor)
     else let ns' := filter (fun c => related h c = true) (children n) in
       run = (mkForkTree ns' (Some k), Ok (Changed (Some (data n)))) /\ wf_forest ns') /\
  ((forall n, n ∈ roots t -> candidate_root h n = false) ->
     let ns' := filter (fun c => related h c = true) (roots t) in
     run = (mkForkTree ns' (Some k),
            Ok (changed_or_not (existsb (fun n => negb (related h n)) (roots t)))) /\ wf_forest ns').
Proof.
  intros Hw Hk Hr. unfold finalize_with_descendent_if, retain_roots, mbind, M_mbind.
  rewrite check_revert_eq, Hr. unfold gets, lift. cbv zeta.
  destruct (find_first_spec h k 0%nat (roots t) (proj1 Hw) Hk) as [(j & n & Hj & Hc & ->)|(Hno & ->)].
  - pose proof (list_elem_of_lookup_2 _ _ _ Hj) as Hn. split; [|intros Hno; rewrite Hno in Hc; done].
    intros n' Hn' Hc'. assert (n' = n) as -> by (by apply (candidate_root_unique (roots t) h)).
    destruct (existsb _ (children n)); [done|]. destruct (wf_node_inv _ (proj1 Hw n Hn)) as (_ & Hwc & _).
    destruct (swap_remove_spec (E := Error E) j (roots t) n Hj) as (ns1 & Hs & _). simpl. rewrite Hs. simpl.
    rewrite retain_related by (apply Hwc || done). split; [done|].
    eapply wf_forest_sublist; [apply sublist_filter|done].
  - split; [intros n Hn Hc; rewrite Hno in Hc; done|]. intros _. simpl.
    rewrite retain_related by (apply Hw || done). split; [done|].
    eapply wf_forest_sublist; [apply sublist_filter|done].
Qed.
End descendent.

(** ** Pruning *)
Lemma items_insert ns j c c' : ns !! j = Some c ->
  exists rest, items ns ≡ₚ items [c] ++ rest /\ items (<[j := c']> ns) ≡ₚ items [c'] ++ rest.
Proof.
  intros Hj. exists (items (take j ns) ++ items (drop (S j) ns)). split.
  - rewrite <-(take_drop_middle ns j c Hj) at 1. rewrite items_app, (items_split c (drop _ _)). solve_Permutation.
  - rewrite insert_take_drop by (by eapply lookup_lt_Some).
    rewrite items_app, (items_split c' (drop _ _)). solve_Permutation.
Qed.

Lemma take_path_spec path j ns c x :
  ns !! j = Some c -> follow (E := E) c path = Ok x ->
  exists ns', take_path (E := E) ns (j :: path) = Ok (x, ns') /\ items ns ≡ₚ items [x] ++ items ns'.
Proof.
  revert j ns c. induction path as [|i path IH]; intros j ns c Hj Hf.
  - simpl in Hf. simplify_eq. exists (delete j ns). cbn [take_path]. rewrite Hj. simpl. split; [done|].
    rewrite <-items_app. by rewrite <-(delete_Permutation ns j x Hj).
  - destruct c as [h k d cs]. simpl in Hf. destruct (cs !! i) as [c'|] eqn:Hi; [|done]. simpl in Hf.
    destruct (IH i cs c' Hi Hf) as (cs' & Htp & Hp). exists (<[j := mkNode h k d cs']> ns). split.
    + change (take_path (E := E) ns (j :: i :: path)) with
        (n ← expect (ns !! j); let 'mkNode h k d cs := n in
         p ← take_path (E := E) cs (i :: path); Ok (p.1, <[j := mkNode h k d p.2]> ns)).
      rewrite Hj. cbn [mbind res_mbind expect]. by rewrite Htp.
    + destruct (items_insert ns j (mkNode h k d cs) (mkNode h k d cs') Hj) as (rest & -> & ->).
      rewrite (items_cons (mkNode h k d cs)), (items_cons (mkNode h k d cs')). simpl.
      rewrite Hp. unfold item. simpl. rewrite !app_nil_r. solve_Permutation.
Qed.

(** The children of the new root: the one on the branch of [h] is kept. *)
Lemma split_children_spec (b : bool) cs h k :
  wf_forest cs -> k = num h -> (b = false -> forall c, c ∈ cs -> on_branch h (hash c) = false) ->
  split_children is_descendent_of b cs h k =
    Ok (filter (fun c => on_branch h (hash c) = true) cs, filter (fun c => on_branch h (hash c) = false) cs).
Proof.
  intros Hw Hk. revert b. induction cs as [|c cs IH]; intros b Hb; [done|].
  destruct (wf_forest_cons _ _ Hw) as [Hc Hwc]. destruct (wf_node_inv _ Hc) as (Hn & _).
  assert ((if (number c =? k) && bool_decide (hash c = h) then Ok true
       else and_then (number c <? k) (descends is_descendent_of (hash c) h)) = Ok (on_branch h (hash c))) as Hcond.
  { unfold on_branch. rewrite descends_above by done. case_bool_decide as Heq; simpl; [|by rewrite andb_false_r].
    replace (number c =? k) with true by (subst; lia). done. }
  simpl. rewrite Hcond. clear Hcond. rewrite !filter_cons. destruct b; simpl.
  - destruct (on_branch h (hash c)) eqn:Hoc; simpl.
    + rewrite IH; [done..|]. intros _ c' Hc'. destruct (on_branch h (hash c')) eqn:Hoc'; [|done]. exfalso.
      assert (c = c') as <-.
      { apply (antichain_eq (c :: cs) c c' h); [apply Hw|left|by right| |];
          unfold on_branch in *; [clear Hoc'|clear Hoc; rename Hoc' into Hoc];
          apply orb_prop in Hoc as [?%bool_decide_eq_true|?]; auto. }
      destruct Hw as [_ [Hnd _]]. csimpl in Hnd. apply NoDup_cons in Hnd as [Hnd _]. apply Hnd, list_elem_of_fmap. eauto.
    + rewrite IH; [done..|]. by intros.
  - rewrite Hb by (done || left). simpl. rewrite IH; [done..|]. intros _ c' Hc'. apply Hb; [done|by right].
Qed.

Lemma items_filter (P : Node H V -> bool) ns :
  items (filter (fun c => P c = true) ns) ++ items (filter (fun c => P c = false) ns) ≡ₚ items ns.
Proof.
  induction ns as [|c ns IH]; [done|]. rewrite !filter_cons, (items_split c ns), <-IH.
  destruct (P c); simpl; rewrite (items_split c (filter _ _)); solve_Permutation.
Qed.

Lemma iter_collect_preorder fuel (stack : list (Node H V)) :
  (forest_size stack <= fuel)%nat -> iter_collect fuel stack = forest_nodes stack.
Proof.
  revert stack. induction fuel as [|fuel IH]; intros [|n stack] Hf; simpl; [done| |done|].
  - rewrite forest_size_cons in Hf. lia.
  - rewrite node_nodes_eq. simpl. f_equal. rewrite <-forest_nodes_app. apply IH.
    rewrite forest_size_cons in Hf. rewrite forest_size_app. lia.
Qed.

Lemma removed_iter_items (ns : list (Node H V)) : removed_iter ns ≡ₚ items ns.
Proof.
  unfold removed_iter. rewrite iter_collect_preorder.
  - change (items (rev ns) ≡ₚ items ns). by rewrite <-Permutation_rev.
  - rewrite (forest_size_perm _ ns); [lia|]. symmetry. apply Permutation_rev.
Qed.

Lemma fork_prune_run (predicate : V -> bool) t h k : wf t -> k = num h ->
  ((forall y : Node H V, ~ candidate predicate (roots t) h y) /\
     prune is_descendent_of predicate h k t = (rebalance t, Ok [])) \/
  exists x x' removed, deepest_candidate predicate (roots t) h x /\
    prune is_descendent_of predicate h k t = (mkForkTree [x'] (best_finalized_number t), Ok removed) /\
    item x' = item x /\ items [x'] ++ removed ≡ₚ items (roots t) /\ wf_forest [x'] /\ balanced [x'] /\
    items (children x') ≡ₚ items (filter (fun c => on_branch h (hash c) = true) (children x)).
Proof.
  intros Hw Hk. unfold prune, mbind, M_mbind, find_node_index_where, get, lift.
  destruct (find_roots_outcome predicate (roots t) h k 0%nat Hw Hk)
    as [(j & c & p & x & Hj & Hf & Hx & _ & _ & ->)|(Hno & _ & ->)]; [right|by left].
  rewrite rev_app_distr. destruct (take_path_spec (rev p) j (roots t) c x Hj Hf) as (ns' & Htp & Hi).
  cbn [rev app Nat.add set_roots modify]. rewrite Htp. assert (wf_node x) as Hwx.
  { destruct Hx as [[(r & Hr & Hx)%elem_of_forest_nodes _] _]. by destruct (wf_node_nodes r x (proj1 Hw r Hr) Hx). }
  destruct (wf_node_inv _ Hwx) as (Hnum & Hwc & Hd). destruct x as [xh xn xd xcs]. simpl in Hnum, Hwc, Hd |- *.
  rewrite split_children_spec by done. set (kept := filter (fun c => on_branch h (hash c) = true) xcs).
  assert (wf_node (mkNode xh xn xd kept)) as Hwk.
  { apply wf_node_intro; simpl; [done| |intros y [_ Hy]%list_elem_of_filter; auto].
    eapply wf_forest_sublist; [apply sublist_filter|done]. }
  eexists _, (node_rebalance (mkNode xh xn xd kept)), _. split; [exact Hx|]. split; [reflexivity|].
  pose proof (items_rebalance [mkNode xh xn xd kept]) as Hreb. simpl in Hreb.
  pose proof (balanced_rebalance [mkNode xh xn xd kept]) as Hbal. simpl in Hbal.
  assert (wf_forest [mkNode xh xn xd kept]) as Hwf.
  { split; [by intros y ->%list_elem_of_singleton|]. split; [apply NoDup_singleton|].
    intros y y' ->%list_elem_of_singleton ->%list_elem_of_singleton. apply desc_irrefl. }
  apply wf_forest_rebalance in Hwf. split_and!; [by rewrite node_rebalance_eq| |exact Hwf|exact Hbal|].
  - rewrite Hreb, removed_iter_items, items_app, Hi, !items_cons. simpl.
    rewrite <-(items_filter (fun c => on_branch h (hash c)) xcs). fold kept. unfold item. simpl. solve_Permutation.
  - rewrite node_rebalance_eq. simpl. apply items_rebalance.
Qed.

(** [prune]: if no node passes the predicate and is an ancestor of the
    block, the tree keeps its nodes.  Otherwise the deepest such node becomes
    the only root; below it stay exactly the child that is the block or an
    ancestor of it, with its subtree, and every other node of the tree is
    returned.  The result is well formed and balanced.  So a child of the new
    root that descends from the block is removed, although it is canonical. *)
Theorem prune_spec (predicate : V -> bool) t h k : wf t -> k = num h ->
  ((forall y : Node H V, ~ candidate predicate (roots t) h y) /\
     prune is_descendent_of predicate h k t = (rebalance t, Ok [])) \/
  exists x x' removed, deepest_candidate predicate (roots t) h x /\
    prune is_descendent_of predicate h k t = (mkForkTree [x'] (best_finalized_number t), Ok removed) /\
    item x' = item x /\ items [x'] ++ removed ≡ₚ items (roots t) /\ wf_forest [x'] /\ balanced [x'] /\
    items (children x') ≡ₚ items (filter (fun c => on_branch h (hash c) = true) (children x)).
Proof. apply fork_prune_run. Qed.

(** [rebalance] keeps the nodes and the ancestry, and sorts every list of
    siblings by decreasing depth; a second call changes nothing. *)
Theorem rebalance_spec t :
  items (roots (rebalance t)) ≡ₚ items (roots t) /\
  best_finalized_number (rebalance t) = best_finalized_number t /\
  balanced (roots (rebalance t)) /\ rebalance (rebalance t) = rebalance t /\
  (wf t -> wf (rebalance t)).
Proof.
  split_and!; simpl.
  - apply items_rebalance.
  - done.
  - apply balanced_rebalance.
  - unfold rebalance. simpl. by rewrite rebalance_balanced by apply balanced_rebalance.
  - apply wf_forest_rebalance.
Qed.

(** The stack-based iterators visit every node once: [node_iter] in
    pre-order with the children in their order, [RemovedIterator] the same
    from the last removed tree to the first. *)
Theorem iter_preorder (t : ForkTree H V) (removed : list (Node H V)) :
  node_iter t = forest_nodes (roots t) /\ iter t = items (roots t) /\
  removed_iter removed = items (rev removed).
Proof.
  assert (node_iter t = forest_nodes (roots t)) as Hn by (by apply iter_collect_preorder).
  split_and!; [done|unfold iter; by rewrite Hn|].
  unfold removed_iter. rewrite iter_collect_preorder; [done|].
  rewrite (forest_size_perm _ removed); [lia|]. symmetry. apply Permutation_rev.
Qed.
End wf.

(** ** Errors of the client *)
Section errors.
Context {H V E : Type} `{EqDecision H}.
Variable is_descendent_of : H -> H -> res E bool.

Lemma node_import_unplaced (n : Node H V) h k d : forall n' r,
  node_import is_descendent_of n h k d = (n', r) -> r <> Ok None ->
  n' = n /\ forall x, r = Ok (Some x) -> x = (h, k, d).
Proof.
  induction n as [sh sn sd cs IH] using Node_ind'. intros n' r. rewrite node_import_eq.
  case_decide; [intros; simplify_eq; naive_solver|].
  destruct (k <=? sn); [intros; simplify_eq; naive_solver|].
  assert (forall cs', (forall c, c ∈ cs' -> c ∈ cs) -> forall cs1 r1, import_children is_descendent_of cs' h k d = (cs1, r1) -> r1 <> Ok None ->
    cs1 = cs' /\ forall x, r1 = Ok (Some x) -> x = (h, k, d)) as Hgo.
  { induction cs' as [|c cs' IHcs]; intros Hin cs1 r1; simpl; [intros; simplify_eq; naive_solver|].
    destruct (node_import is_descendent_of c h k d) as [c' rc] eqn:Hc. intros Heq Hr1.
    destruct rc as [[[[h' k'] d']|]|e|].
    - destruct (IH c (Hin c ltac:(left)) _ _ Hc) as [-> Hx]; [done|]. specialize (Hx _ eq_refl). simplify_eq.
      destruct (import_children is_descendent_of cs' h k d) as [cs2 r2] eqn:Hg. simplify_eq.
      destruct (IHcs (fun c Hc => Hin c (list_elem_of_further _ _ _ Hc)) _ _ eq_refl Hr1) as [-> ?]. done.
    - by simplify_eq.
    - simplify_eq. destruct (IH c (Hin c ltac:(left)) _ _ Hc) as [-> _]; done.
    - simplify_eq. destruct (IH c (Hin c ltac:(left)) _ _ Hc) as [-> _]; done. }
  destruct (import_children is_descendent_of cs h k d) as [cs1 r1] eqn:Hg.
  destruct r1 as [[[[h' k'] d']|]|e|]; [|by intros; simplify_eq|..];
    (destruct (Hgo cs (fun c Hc => Hc) _ _ Hg) as [-> Hx]; [done|]); [|intros; simplify_eq; naive_solver..].
  specialize (Hx _ eq_refl). simplify_eq. destruct (descends _ sh h) as [[]|e|]; intros; simplify_eq; naive_solver.
Qed.

Lemma import_roots_unplaced (ns : list (Node H V)) h k d ns' r :
  import_roots is_descendent_of ns h k d = (ns', r) -> r <> Ok None -> ns' = ns.
Proof.
  revert h k d ns' r. induction ns as [|n ns IH]; intros h k d ns' r; simpl; [by intros; simplify_eq|].
  case_decide; [by intros; simplify_eq|].
  destruct (node_import is_descendent_of n h k d) as [n' rn] eqn:Hn. intros Heq Hr.
  destruct rn as [[[[h' k'] d']|]|e|]; [|by simplify_eq|..];
    (destruct (node_import_unplaced _ _ _ _ _ _ Hn) as [-> _]; [done|]); [|by simplify_eq..].
  destruct (import_roots _ ns h' k' d') as [ns1 r1] eqn:H1. simplify_eq. by rewrite (IH _ _ _ _ _ H1).
Qed.

(** Whatever the caller's ancestry function answers, an [import] that
    returns an error leaves the tree unchanged: the search writes only when it
    places the node. *)
Theorem import_error_unchanged (t t' : ForkTree H V) h k d e :
  import is_descendent_of h k d t = (t', Err e) -> t' = t.
Proof.
  unfold import, mbind, M_mbind. rewrite check_revert_eq. destruct (reverts t k); [by intros [= ->]|].
  unfold gets. destruct (import_roots is_descendent_of (roots t) h k d) as [ns' r] eqn:Hr.
  unfold set_roots, modify, lift. destruct r as [[[[h' k'] d']|]|e'|]; [done..| |done].
  intros [= <- _]. apply import_roots_unplaced in Hr as ->; [|done]. by destruct t.
Qed.

Lemma retain_error (f : Node H V -> res (Error E) bool) g pre c post kept ch e :
  (forall n, n ∈ pre -> f n = Ok (g n)) -> f c = Err e ->
  retain f (pre ++ c :: post) kept ch = (kept ++ filter (fun n => g n = true) pre, Err e).
Proof.
  revert kept ch. induction pre as [|n pre IH]; intros kept ch Hf Hc; simpl; [by rewrite Hc, app_nil_r|].
  rewrite Hf by left. rewrite filter_cons. destruct (g n) eqn:Hg; simpl.
  - rewrite IH by (done || (intros; apply Hf; by right)). by rewrite <-app_assoc.
  - by rewrite IH by (done || (intros; apply Hf; by right)).
Qed.

(** [finalize] is not so careful: if the ancestry function fails on a root
    while the roots to keep are being selected, the error is returned but the
    tree has already lost that root, all the later ones, and the earlier ones
    that were not kept; the finalized number is still the old one. *)
Theorem finalize_error_drops_roots (t : ForkTree H V) h k pre c post g e :
  reverts t k = false -> roots t = pre ++ c :: post ->
  (forall n, n ∈ roots t -> hash n <> h /\ k < number n) ->
  (forall n, n ∈ pre -> is_descendent_of h (hash n) = Ok (g n)) -> is_descendent_of h (hash c) = Err e ->
  finalize is_descendent_of h k t =
    (mkForkTree (filter (fun n => g n = true) pre) (best_finalized_number t), Err (Client e)).
Proof.
  intros Hr Hroots Hn Hg Hc. unfold finalize, mbind, M_mbind. rewrite check_revert_eq, Hr.
  destruct (finalize_root_eq (E := E) h t) as [(n & Hin & <- & _)|(_ & ->)]; [by destruct (Hn n Hin)|].
  unfold gets, lift. rewrite (none_of_pure _ (fun _ => false)).
  2:{ intros n Hin. unfold and_then. by replace (number n <? k) with false by (specialize (Hn n Hin); lia). }
  replace (existsb _ (roots t)) with false by (clear; by induction (roots t)).
  unfold retain_roots, mbind, M_mbind, gets. rewrite Hroots, (retain_error _ g pre c post [] false (Client e)); [done|..].
  - intros n Hin. unfold and_then, descends. destruct (Hn n) as [_ Hlt]; [rewrite Hroots; set_solver|].
    replace (k <? number n) with true by lia. by rewrite Hg.
  - unfold and_then, descends. destruct (Hn c) as [_ Hlt]; [rewrite Hroots; set_solver|].
    replace (k <? number c) with true by lia. by rewrite Hc.
Qed.
End errors.

(** ** A concrete block tree

    A block is named by its path from the genesis block. *)
Definition path_desc (a b : list nat) : bool := bool_decide (a `prefix_of` b) && negb (bool_decide (a = b)).
Definition path_descendent_of (a b : list nat) : res unit bool := Ok (path_desc a b).

#[export] Program Instance path_Ancestry : Ancestry path_descendent_of := {
  desc := path_desc;
  num a := Z.of_nat (length a) }.
Next Obligation. done. Qed.
Next Obligation.
  cbv beta. intros a b [[k ->]%bool_decide_eq_true Hne]%andb_prop. rewrite length_app.
  destruct k; [|simpl; lia]. rewrite app_nil_r, bool_decide_true in Hne; done.
Qed.
Next Obligation.
  cbv beta. intros a b c [[k ->]%bool_decide_eq_true Hab]%andb_prop [[l ->]%bool_decide_eq_true Hbc]%andb_prop.
  unfold path_desc. rewrite bool_decide_true by (rewrite <-app_assoc; by apply prefix_app_r). simpl.
  rewrite bool_decide_false; [done|]. intros Heq%(f_equal length). rewrite !length_app in Heq.
  destruct k; [|simpl in Heq; lia]. rewrite app_nil_r, bool_decide_true in Hab; done.
Qed.
Next Obligation.
  cbv beta. intros a b c [Ha%bool_decide_eq_true _]%andb_prop [Hb%bool_decide_eq_true _]%andb_prop.
  unfold path_desc. destruct (decide (a = b)) as [|Hne]; [by left|right].
  destruct (prefix_weak_total a b c Ha Hb) as [Hp|Hp]; [left|right];
    rewrite bool_decide_true, bool_decide_false by done; done.
Qed.

Definition demo_tree : ForkTree (list nat) Z :=
  mkForkTree [mkNode [0%nat] 1 10 [mkNode [0%nat; 0%nat] 2 20 []; mkNode [0%nat; 1%nat] 2 21 []]] (Some 0).

Lemma demo_wf : wf path_descendent_of demo_tree.
Proof.
  split; [|split; [apply NoDup_singleton|by intros c c' ->%list_elem_of_singleton ->%list_elem_of_singleton]].
  intros c ->%list_elem_of_singleton. constructor; [done|..].
  - intros c. rewrite elem_of_cons, list_elem_of_singleton. intros [->| ->]; (split; [|done]);
      [exact (wf_leaf path_descendent_of [0; 0]%nat 20)|exact (wf_leaf path_descendent_of [0; 1]%nat 21)].
  - split; [|intros c c'; rewrite !elem_of_cons, !elem_of_nil; intros [->|[->|[]]] [->|[->|[]]]; done].
    repeat constructor; set_solver.
Qed.

Lemma import_spec_witness :
  exists t', import path_descendent_of [0; 1; 0]%nat 3 30 demo_tree = (t', Ok false) /\ wf path_descendent_of t' /\
    items (roots t') ≡ₚ ([0; 1; 0]%nat, 3, 30) :: items (roots demo_tree).
Proof.
  pose proof (import_spec path_descendent_of demo_tree [0; 1; 0]%nat 3 30 demo_wf eq_refl) as Hi.
  destruct Hi as (t' & b & Hr & Hw & _ & _ & Hp & _).
  - intros y. change (hashes (roots demo_tree)) with [[0]; [0; 0]; [0; 1]]%nat.
    rewrite !elem_of_cons, elem_of_nil. intros [->|[->|[->|[]]]]; reflexivity.
  - exists t'. assert (b = false) as -> by (vm_compute in Hr; congruence). done.
Defined.

Lemma find_node_where_deepest_witness :
  exists x, find_node_where path_descendent_of (fun _ => true) demo_tree [0; 1; 5]%nat 3 = Ok (Some x) /\
    deepest_candidate path_descendent_of (fun _ => true) (roots demo_tree) [0; 1; 5]%nat x /\ data x = 21.
Proof.
  destruct (find_node_where_deepest path_descendent_of (fun _ => true) demo_tree [0; 1; 5]%nat 3 demo_wf eq_refl)
    as [(x & Hf & Hx)|[Hf _]]; [|vm_compute in Hf; discriminate].
  exists x. split; [exact Hf|]. split; [exact Hx|]. vm_compute in Hf. by injection Hf as <-.
Defined.

Lemma finalize_spec_witness :
  exists ns' r, finalize path_descendent_of [0]%nat 1 demo_tree = (mkForkTree ns' (Some 1), Ok r) /\
    finalized path_descendent_of (roots demo_tree) ns' [0]%nat r.
Proof. exact (finalize_spec path_descendent_of demo_tree [0]%nat 1 demo_wf eq_refl). Defined.

Lemma finalize_with_ancestors_spec_witness :
  exists ns' r, finalize_with_ancestors path_descendent_of [0; 1]%nat 2 demo_tree = (mkForkTree ns' (Some 2), Ok r) /\
    finalized path_descendent_of (roots demo_tree) ns' [0; 1]%nat r.
Proof. exact (finalize_with_ancestors_spec path_descendent_of demo_tree [0; 1]%nat 2 demo_wf eq_refl). Defined.

Lemma prune_spec_witness :
  exists x x' removed, deepest_candidate path_descendent_of (fun _ => true) (roots demo_tree) [0; 1]%nat x /\
    prune path_descendent_of (fun _ => true) [0; 1]%nat 2 demo_tree = (mkForkTree [x'] (Some 0), Ok removed) /\
    items [x'] ++ removed ≡ₚ items (roots demo_tree).
Proof.
  destruct (prune_spec path_descendent_of (fun _ => true) demo_tree [0; 1]%nat 2 demo_wf eq_refl)
    as [[_ Hp]|(x & x' & removed & Hx & Hp & _ & Hi & _)]; [vm_compute in Hp; discriminate|].
  exists x, x', removed. done.
Defined.

Lemma import_error_unchanged_witness :
  (import path_descendent_of [0; 1]%nat 2 30 demo_tree).1 = demo_tree.
Proof.
  apply (import_error_unchanged path_descendent_of demo_tree _ [0; 1]%nat 2 30 Duplicate).
  vm_compute. reflexivity.
Defined.

Definition failing_descendent_of (a b : list nat) : res unit bool := Err tt.

Lemma finalize_error_drops_roots_witness :
  finalize failing_descendent_of [7]%nat 0 (mkForkTree (roots demo_tree) None) = (mkForkTree [] None, Err (Client tt)).
Proof.
  refine (finalize_error_drops_roots failing_descendent_of (mkForkTree (roots demo_tree) None) [7]%nat 0
    [] _ [] (fun _ => true) tt eq_refl eq_refl _ _ eq_refl).
  - by intros n ->%list_elem_of_singleton.
  - by intros n ?%not_elem_of_nil.
Defined.
