(* ===== verification/System.v ===== *)
(** * Accounts and their reference counters

    Model of the account part of [frame/system/src/lib.rs]: the account map,
    the provider, self-sufficient and consumer reference counters, the
    implementation of [StoredMap] that gives other pallets a piece of the
    account ([frame/support/src/traits/stored_map.rs] is the trait), and the
    deposit of events.

    The state of a runtime is [System * R]: the storage of this pallet and the
    storage [R] of the others.  The hooks [OnNewAccount] and [OnKilledAccount]
    are [()], as in [bin/node/runtime/src/lib.rs]. *)

From Stdlib Require Import ZArith Lia.
From stdpp Require Import gmap option list.
From S2P Require Import Prelude.

Local Open Scope Z_scope.

(** ** Data *)
Record AccountInfo (D : Type) : Type := mkAccountInfo {
  nonce : Z;
  consumers : Z;
  providers : Z;
  sufficients : Z;
  data : D }.

Arguments mkAccountInfo {D} nonce consumers providers sufficients data.
Arguments nonce {D} _.
Arguments consumers {D} _.
Arguments providers {D} _.
Arguments sufficients {D} _.
Arguments data {D} _.

Inductive IncRefStatus : Type := Created | Existed.
Inductive DecRefStatus : Type := Reaped | Exists.
Inductive DecRefError : Type := DecConsumerRemaining.
Inductive IncRefError : Type := IncNoProviders.
Inductive StoredMapError : Type := NoProviders | ConsumerRemaining.

(** [Phase], as far as event records carry it. *)
Inductive Phase : Type := ApplyExtrinsic (i : Z) | Finalization | Initialization.

Record EventRecord (Ev : Type) : Type := mkEventRecord {
  phase : Phase;
  event : Ev;
  topics : list Z }.

Arguments mkEventRecord {Ev} phase event topics.

Inductive SystemEvent (K : Type) : Type :=
| NewAccount (who : K)
| KilledAccount (who : K).

Arguments NewAccount {K} who.
Arguments KilledAccount {K} who.

Section system.
Context {K : Type} `{Countable K} {D : Type} `{EqDecision D} `{DD : Default D} {Ev R : Type}.
Context `{OC : OverflowChecks}.
(** [From<frame_system::Event>] for the event type of the runtime. *)
Context (from_event : SystemEvent K -> Ev).

Record System : Type := mkSystem {
  accounts : gmap K (AccountInfo D);
  block_number : Z;
  execution_phase : option Phase;
  event_count : Z;
  events : list (EventRecord Ev);
  event_topics : gmap Z (list (Z * Z)) }.

Definition Runtime : Type := System * R.

Definition set_accounts (m : gmap K (AccountInfo D)) (s : Runtime) : Runtime :=
  (mkSystem m (block_number s.1) (execution_phase s.1) (event_count s.1) (events s.1) (event_topics s.1), s.2).

Definition AccountInfo_default : AccountInfo D := mkAccountInfo 0 0 0 0 dflt.

Definition with_providers (n : Z) (a : AccountInfo D) : AccountInfo D :=
  mkAccountInfo (nonce a) (consumers a) n (sufficients a) (data a).
Definition with_sufficients (n : Z) (a : AccountInfo D) : AccountInfo D :=
  mkAccountInfo (nonce a) (consumers a) (providers a) n (data a).
Definition with_consumers (n : Z) (a : AccountInfo D) : AccountInfo D :=
  mkAccountInfo (nonce a) n (providers a) (sufficients a) (data a).
Definition with_data (d : D) (a : AccountInfo D) : AccountInfo D :=
  mkAccountInfo (nonce a) (consumers a) (providers a) (sufficients a) d.

(** ** The storage map [Account]

    [StorageMap] with [ValueQuery]: a missing key reads as the default, and
    [mutate] writes the value back even if it is the default.  The closure may
    change the rest of the storage. *)
Definition Account_get (who : K) (s : Runtime) : AccountInfo D :=
  default AccountInfo_default (accounts s.1 !! who).

Definition Account_put {E} (who : K) (a : AccountInfo D) : M Runtime E unit :=
  modify (fun s => set_accounts (<[who := a]> (accounts s.1)) s).

(** [mutate] and [try_mutate]: an error of the closure leaves the entry alone. *)
Definition Account_try_mutate {E A} (who : K) (f : AccountInfo D -> M Runtime E (AccountInfo D * A)) :
    M Runtime E A :=
  a ← gets (Account_get who);
  p ← f a;
  _ ← Account_put who p.1;
  mret p.2.

(** [try_mutate_exists] and [mutate_exists]: [None] removes the entry. *)
Definition Account_try_mutate_exists {E A} (who : K)
    (f : option (AccountInfo D) -> M Runtime E (option (AccountInfo D) * A)) : M Runtime E A :=
  a ← gets (fun s => accounts s.1 !! who);
  p ← f a;
  _ ← modify (fun s => set_accounts (partial_alter (fun _ => p.1) who (accounts s.1)) s);
  mret p.2.

(** ** Events *)
Definition append_topic (block idx : Z) (t : Z) (m : gmap Z (list (Z * Z))) : gmap Z (list (Z * Z)) :=
  <[t := default [] (m !! t) ++ [(block, idx)]]> m.

Definition deposit_event_indexed {E} (ts : list Z) (ev : Ev) : M Runtime E unit :=
  modify (fun s =>
    let sys := s.1 in
    if block_number sys =? 0 then s
    else
      let phase := default Initialization (execution_phase sys) in
      let old_event_count := event_count sys in
      match checked_add 32 old_event_count 1 with
      | None => s
      | Some new_event_count =>
        (mkSystem (accounts sys) (block_number sys) (execution_phase sys) new_event_count
           (events sys ++ [mkEventRecord phase ev ts])
           (foldl (fun m t => append_topic (block_number sys) old_event_count t m) (event_topics sys) ts), s.2)
      end).

Definition deposit_event {E} (ev : Ev) : M Runtime E unit := deposit_event_indexed [] ev.

Definition on_created_account {E} (who : K) : M Runtime E unit := deposit_event (from_event (NewAccount who)).
Definition on_killed_account {E} (who : K) : M Runtime E unit := deposit_event (from_event (KilledAccount who)).

(** ** Reference counters *)
Definition inc_providers {E} (who : K) : M Runtime E IncRefStatus :=
  Account_try_mutate who (fun a =>
    if (providers a =? 0) && (sufficients a =? 0) then
      _ ← on_created_account who;
      mret (with_providers 1 a, Created)
    else mret (with_providers (saturating_add 32 (providers a) 1) a, Existed)).

Definition dec_providers (who : K) : M Runtime DecRefError DecRefStatus :=
  Account_try_mutate_exists who (fun maybe_account =>
    match maybe_account with
    | Some account =>
      let account := if providers account =? 0 then with_providers 1 account else account in
      if (providers account =? 1) && (consumers account =? 0) && (sufficients account =? 0) then
        _ ← on_killed_account who;
        mret (None, Reaped)
      else if (providers account =? 1) && (0 <? consumers account) then throw DecConsumerRemaining
      else
        x ← lift (usub 32 (providers account) 1);
        mret (Some (with_providers x account), Exists)
    | None => mret (None, Reaped)
    end).

Definition inc_sufficients {E} (who : K) : M Runtime E IncRefStatus :=
  Account_try_mutate who (fun a =>
    n ← lift (uadd 32 (providers a) (sufficients a));
    if n =? 0 then
      _ ← on_created_account who;
      mret (with_sufficients 1 a, Created)
    else mret (with_sufficients (saturating_add 32 (sufficients a) 1) a, Existed)).

Definition dec_sufficients {E} (who : K) : M Runtime E DecRefStatus :=
  Account_try_mutate_exists who (fun maybe_account =>
    match maybe_account with
    | Some account =>
      if ((sufficients account =? 0) || (sufficients account =? 1)) && (providers account =? 0) then
        _ ← on_killed_account who;
        mret (None, Reaped)
      else
        x ← lift (usub 32 (sufficients account) 1);
        mret (Some (with_sufficients x account), Exists)
    | None => mret (None, Reaped)
    end).

Definition reference_count {E} (who : K) : M Runtime E Z :=
  a ← gets (Account_get who);
  lift (uadd 32 (providers a) (sufficients a)).

Definition inc_consumers (who : K) : M Runtime IncRefError unit :=
  Account_try_mutate who (fun a =>
    if 0 <? providers a
    then mret (with_consumers (saturating_add 32 (consumers a) 1) a, tt)
    else throw IncNoProviders).

Definition dec_consumers {E} (who : K) : M Runtime E unit :=
  Account_try_mutate who (fun a =>
    if 0 <? consumers a
    then n ← lift (usub 32 (consumers a) 1); mret (with_consumers n a, tt)
    else mret (a, tt)).

Definition is_provider_required (who : K) (s : Runtime) : bool := negb (consumers (Account_get who s) =? 0).

Definition can_dec_provider (who : K) (s : Runtime) : bool :=
  (consumers (Account_get who s) =? 0) || (1 <? providers (Account_get who s)).

Definition can_inc_consumer (who : K) (s : Runtime) : bool := 0 <? providers (Account_get who s).

(** ** [StoredMap]

    The data of an account provides for its existence when it is not the
    default.  The error of the caller includes that of the map, by
    [from_error]; when the map refuses the change after the closure has
    returned, the closure's result goes out of scope and is dropped. *)
Definition is_providing (d : D) : bool := negb (bool_decide (d = dflt)).

Definition StoredMap_get (k : K) (s : Runtime) : D := data (Account_get k s).

Definition StoredMap_try_mutate_exists {E A} `{Drop Runtime A} (from_error : StoredMapError -> E) (k : K)
    (f : option D -> M Runtime E (option D * A)) : M Runtime E A :=
  account ← gets (Account_get k);
  let was_providing := is_providing (data account) in
  p ← f (if was_providing then Some (data account) else None);
  let '(some_data, result) := p in
  let is_providing := bool_decide (is_Some some_data) in
  let update : M Runtime E A :=
    _ ← Account_try_mutate k (fun a => mret (with_data (default dflt some_data) a, tt));
    mret result in
  if negb was_providing && is_providing then _ ← inc_providers k; update
  else if was_providing && negb is_providing then
    catch (dec_providers k)
      (fun status => match status with Reaped => mret result | Exists => update end)
      (fun _ => _ ← drop_ result; throw (from_error ConsumerRemaining))
  else if negb was_providing && negb is_providing then mret result
  else update.

(** The default methods of the trait. *)
Definition StoredMap_mutate_exists {A} `{Drop Runtime A} (k : K) (f : option D -> M Runtime StoredMapError (option D * A)) :
    M Runtime StoredMapError A :=
  StoredMap_try_mutate_exists id k f.

Definition StoredMap_mutate {A} `{Drop Runtime A} (k : K) (f : D -> M Runtime StoredMapError (D * A)) :
    M Runtime StoredMapError A :=
  StoredMap_mutate_exists k (fun maybe =>
    p ← f (default dflt maybe); mret (Some p.1, p.2)).

Definition StoredMap_insert (k : K) (t : D) : M Runtime StoredMapError unit :=
  StoredMap_mutate k (fun _ => mret (t, tt)).

Definition StoredMap_remove (k : K) : M Runtime StoredMapError unit :=
  StoredMap_mutate_exists k (fun _ => mret (None, tt)).

(** ** Equality up to the event log *)
Definition same_storage (s s' : Runtime) : Prop := accounts s.1 = accounts s'.1 /\ s.2 = s'.2.

#[global] Instance same_storage_equiv : Equivalence same_storage.
Proof. unfold same_storage. split; [by intros s|intros s s' []; by split|intros s1 s2 s3 [] []; split; congruence]. Qed.

#[global] Instance set_accounts_Proper m : Proper (same_storage ==> same_storage) (set_accounts m).
Proof. intros s s' [_ Hr]. by split. Qed.

#[global] Instance Account_get_Proper who : Proper (same_storage ==> eq) (Account_get who).
Proof. intros s s' [Ha _]. unfold Account_get. by rewrite Ha. Qed.

Lemma set_accounts_twice m m' (s : Runtime) : set_accounts m (set_accounts m' s) = set_accounts m s.
Proof. done. Qed.

Lemma deposit_event_same {E} ev (s : Runtime) : exists s', deposit_event (E := E) ev s = (s', Ok tt) /\ same_storage s' s.
Proof.
  unfold deposit_event, deposit_event_indexed, modify. eexists. split; [done|].
  destruct (block_number s.1 =? 0); [done|]. by destruct (checked_add 32 (event_count s.1) 1).
Qed.

(** ** The counters as functions of one account *)
Definition inc_provider_of (a : AccountInfo D) : AccountInfo D :=
  if (providers a =? 0) && (sufficients a =? 0) then with_providers 1 a
  else with_providers (saturating_add 32 (providers a) 1) a.

(** The account after [dec_providers]: gone, refused, or kept. *)
Definition dec_provider_of (a : AccountInfo D) : option (option (AccountInfo D)) :=
  let a := if providers a =? 0 then with_providers 1 a else a in
  if (providers a =? 1) && (consumers a =? 0) && (sufficients a =? 0) then Some None
  else if (providers a =? 1) && (0 <? consumers a) then None
  else Some (Some (with_providers (providers a - 1) a)).

Lemma inc_providers_run {E} who (s : Runtime) :
  exists s' st, inc_providers (E := E) who s = (s', Ok st) /\
    same_storage s' (set_accounts (<[who := inc_provider_of (Account_get who s)]> (accounts s.1)) s).
Proof.
  unfold inc_providers, Account_try_mutate, inc_provider_of, mbind, M_mbind, gets.
  destruct ((providers (Account_get who s) =? 0) && (sufficients (Account_get who s) =? 0)).
  - destruct (deposit_event_same (E := E) (from_event (NewAccount who)) s) as (s1 & Hd & Ha & Hr).
    unfold on_created_account. rewrite Hd. eexists _, _. split; [reflexivity|].
    split; simpl; [by rewrite Ha|done].
  - eexists _, _. split; [reflexivity|]. done.
Qed.

Lemma dec_providers_run who (s : Runtime) a :
  accounts s.1 !! who = Some a -> is_u 32 (providers a) ->
  match dec_provider_of a with
  | Some o => exists s', dec_providers who s = (s', Ok (match o with Some _ => Exists | None => Reaped end)) /\
      same_storage s' (set_accounts (partial_alter (fun _ => o) who (accounts s.1)) s)
  | None => dec_providers who s = (s, Err DecConsumerRemaining)
  end.
Proof.
  intros Ha Hu. unfold dec_providers, Account_try_mutate_exists, dec_provider_of, mbind, M_mbind, gets. rewrite Ha.
  set (a1 := if providers a =? 0 then with_providers 1 a else a).
  assert (is_u 32 (providers a1 - 1)) as Hu1.
  { unfold a1, is_u in *. destruct (Z.eqb_spec (providers a) 0); simpl; lia. }
  destruct ((providers a1 =? 1) && (consumers a1 =? 0) && (sufficients a1 =? 0)).
  - destruct (deposit_event_same (E := DecRefError) (from_event (KilledAccount who)) s) as (s1 & Hd & Hacc & Hr).
    unfold on_killed_account. rewrite Hd. eexists. split; [reflexivity|]. split; simpl; [by rewrite Hacc|done].
  - destruct ((providers a1 =? 1) && (0 <? consumers a1)); [done|].
    unfold lift. rewrite usub_ok by done. eexists. by split.
Qed.

(** The account after the data provided by the closure is stored; [None] if
    the map refuses. *)
Definition store_data (o : option (AccountInfo D)) (d : option D) : option (option (AccountInfo D)) :=
  let a := default AccountInfo_default o in
  match is_providing (data a), d with
  | false, Some d => Some (Some (with_data d (inc_provider_of a)))
  | true, Some d => Some (Some (with_data d a))
  | false, None => Some o
  | true, None => option_map (option_map (with_data dflt)) (dec_provider_of a)
  end.

(** Writing the data after the counters were updated. *)
Lemma set_account_again s1 s2 k a (g : AccountInfo D -> AccountInfo D) :
  same_storage s2 (set_accounts (<[k := a]> (accounts s1.1)) s1) ->
  same_storage (set_accounts (<[k := g (Account_get k s2)]> (accounts s2.1)) s2)
    (set_accounts (<[k := g a]> (accounts s1.1)) s1).
Proof.
  intros [Ha Hr]. simpl in *. assert (Account_get k s2 = a) as ->.
  { unfold Account_get. by rewrite Ha, lookup_insert_eq. }
  split; simpl; [|done]. by rewrite Ha, insert_insert_eq.
Qed.

(** A run of the stored map: the closure may change anything but the entry. *)
Lemma StoredMap_run {E A} `{Drop Runtime A} (from_error : StoredMapError -> E) k
    (f : option D -> M Runtime E (option D * A)) s s1 d r :
  let cur := data (Account_get k s) in
  f (if is_providing cur then Some cur else None) s = (s1, Ok (d, r)) ->
  accounts s1.1 !! k = accounts s.1 !! k -> is_u 32 (providers (Account_get k s)) ->
  match store_data (accounts s.1 !! k) d with
  | Some o => exists s2, StoredMap_try_mutate_exists from_error k f s = (s2, Ok r) /\
      same_storage s2 (set_accounts (partial_alter (fun _ => o) k (accounts s1.1)) s1)
  | None => StoredMap_try_mutate_exists from_error k f s = (drop_value r s1, Err (from_error ConsumerRemaining))
  end.
Proof.
  intros cur Hf Hk Hu. unfold store_data.
  assert (Account_get k s1 = Account_get k s) as Hget by (unfold Account_get; by rewrite Hk).
  change (default AccountInfo_default (accounts s.1 !! k)) with (Account_get k s). fold cur.
  destruct (StoredMap_try_mutate_exists from_error k f s) as [s2 r2] eqn:Hrun.
  unfold StoredMap_try_mutate_exists, mbind at 1, M_mbind at 1, gets in Hrun. fold cur in Hrun.
  unfold mbind at 1, M_mbind at 1 in Hrun. rewrite Hf in Hrun.
  destruct (is_providing cur) eqn:Hp, d as [d|]; simpl in Hrun.
  - injection Hrun as <- <-. eexists. split; [reflexivity|]. rewrite Hget. done.
  - assert (accounts s1.1 !! k = Some (Account_get k s)) as Ha1.
    { rewrite Hk. unfold cur, Account_get in *. destruct (accounts s.1 !! k); [done|].
      unfold is_providing in Hp. simpl in Hp. by rewrite bool_decide_true in Hp. }
    pose proof (dec_providers_run k s1 _ Ha1 Hu) as Hdec. unfold catch in Hrun.
    destruct (dec_provider_of (Account_get k s)) as [o|]; simpl.
    + destruct Hdec as (s3 & Hdec & Hs3). rewrite Hdec in Hrun. destruct o as [a|]; injection Hrun as <- <-.
      * eexists. split; [reflexivity|]. by apply (set_account_again s1 s3 k a (with_data dflt)).
      * by exists s3.
    + by rewrite Hdec in Hrun; injection Hrun as <- <-.
  - destruct (inc_providers_run (E := E) k s1) as (s3 & st & Hinc & Hs3). rewrite Hget in Hs3.
    unfold mbind, M_mbind in Hrun. rewrite Hinc in Hrun. injection Hrun as <- <-. eexists. split; [reflexivity|].
    by apply (set_account_again s1 s3 k _ (with_data d)).
  - injection Hrun as <- <-. eexists. split; [reflexivity|]. rewrite <-Hk. split; [|done]. simpl. symmetry.
    apply map_eq. intros i. destruct (decide (i = k)) as [->|]; [by rewrite lookup_partial_alter_eq|by rewrite lookup_partial_alter_ne].
Qed.

(** ** The invariant of the counters *)
Definition refs_ok (a : AccountInfo D) : Prop :=
  is_u 32 (consumers a) /\ is_u 32 (providers a) /\ is_u 32 (sufficients a) /\
  (0 < consumers a -> 0 < providers a).

Definition refs_inv (s : Runtime) : Prop := forall k a, accounts s.1 !! k = Some a -> refs_ok a.

(** A consumed account stays: its entry is still there. *)
Definition keeps_consumed (s s' : Runtime) : Prop :=
  forall k a, accounts s.1 !! k = Some a -> 0 < consumers a -> is_Some (accounts s'.1 !! k).

Lemma default_refs_ok : refs_ok AccountInfo_default.
Proof. unfold refs_ok, is_u. simpl. lia. Qed.

Lemma Account_get_refs_ok k s : refs_inv s -> refs_ok (Account_get k s).
Proof.
  intros Hinv. unfold Account_get. destruct (accounts s.1 !! k) as [a|] eqn:Ha; [by eapply Hinv|apply default_refs_ok].
Qed.

(** One entry is written, or removed when it has no consumers. *)
Lemma refs_inv_update s s' s1 k o :
  refs_inv s -> same_storage s1 s -> same_storage s' (set_accounts (partial_alter (fun _ => o) k (accounts s1.1)) s1) ->
  match o with
  | Some a => refs_ok a
  | None => forall a, accounts s.1 !! k = Some a -> consumers a <= 0
  end ->
  refs_inv s' /\ keeps_consumed s s'.
Proof.
  intros Hinv [Ha1 _] [Ha' _] Ho. simpl in Ha'. rewrite Ha1 in Ha'. split.
  - intros k' a. rewrite Ha'. destruct (decide (k' = k)) as [->|].
    + rewrite lookup_partial_alter_eq. intros ->. done.
    + rewrite lookup_partial_alter_ne by done. apply Hinv.
  - intros k' a Hk Hc. rewrite Ha'. destruct (decide (k' = k)) as [->|].
    + rewrite lookup_partial_alter_eq. destruct o; [done|]. specialize (Ho a Hk). lia.
    + rewrite lookup_partial_alter_ne by done. eauto.
Qed.

Lemma refs_inv_same s s' : refs_inv s -> same_storage s' s -> refs_inv s' /\ keeps_consumed s s'.
Proof. intros Hinv [Ha _]. split; [intros k a; rewrite Ha; apply Hinv|intros k a Hk _; rewrite Ha; eauto]. Qed.

Lemma saturating_succ n : is_u 32 n -> is_u 32 (saturating_add 32 n 1) /\ 0 < saturating_add 32 n 1.
Proof. intros Hn. unfold saturating_add, saturating, u_max, is_u in *. ifs_lia. Qed.

Lemma inc_provider_of_ok a : refs_ok a -> refs_ok (inc_provider_of a).
Proof.
  intros (Hc & Hp & Hs & Hcp). destruct (saturating_succ _ Hp) as [H1 H2]. unfold inc_provider_of, refs_ok.
  destruct (_ && _); simpl; (split_and!; [done| |done|]); unfold is_u in *; lia.
Qed.

Lemma dec_provider_of_ok a : refs_ok a ->
  match dec_provider_of a with Some (Some a') => refs_ok a' | Some None => consumers a = 0 | None => 0 < consumers a end.
Proof.
  intros (Hc & Hp & Hs & Hcp). unfold dec_provider_of.
  assert (refs_ok (if providers a =? 0 then with_providers 1 a else a) /\
    1 <= providers (if providers a =? 0 then with_providers 1 a else a)) as [(H1 & H2 & H3 & H4) H5].
  { unfold refs_ok, is_u in *. destruct (Z.eqb_spec (providers a) 0); simpl; lia. }
  assert (consumers (if providers a =? 0 then with_providers 1 a else a) = consumers a) as Hcc by (by destruct (providers a =? 0)).
  set (a1 := if providers a =? 0 then with_providers 1 a else a) in *.
  destruct (Z.eqb_spec (providers a1) 1), (Z.eqb_spec (consumers a1) 0), (Z.eqb_spec (sufficients a1) 0), (Z.ltb_spec 0 (consumers a1));
    simpl; try lia; unfold refs_ok, is_u in *; simpl; lia.
Qed.

(** The operations on the counters and on the data, on any account. *)
Inductive ref_step (s s' : Runtime) : Prop :=
| step_inc_providers k r : inc_providers (E := unit) k s = (s', r) -> ref_step s s'
| step_dec_providers k r : dec_providers k s = (s', r) -> ref_step s s'
| step_inc_sufficients k r : inc_sufficients (E := unit) k s = (s', r) -> ref_step s s'
| step_dec_sufficients k r : dec_sufficients (E := unit) k s = (s', r) -> ref_step s s'
| step_inc_consumers k r : inc_consumers k s = (s', r) -> ref_step s s'
| step_dec_consumers k r : dec_consumers (E := unit) k s = (s', r) -> ref_step s s'
| step_insert k d r : StoredMap_insert k d s = (s', r) -> ref_step s s'
| step_remove k r : StoredMap_remove k s = (s', r) -> ref_step s s'.

Lemma StoredMap_const_step k (f : option D -> option D) s s' r :
  refs_inv s -> StoredMap_try_mutate_exists id k (fun o => mret (f o, tt)) s = (s', r) ->
  refs_inv s' /\ keeps_consumed s s'.
Proof.
  intros Hinv Hrun. pose proof (Account_get_refs_ok k s Hinv) as (Hc & Hp & Hs & Hcp).
  set (cur := data (Account_get k s)). set (d := f (if is_providing cur then Some cur else None)).
  pose proof (StoredMap_run id k (fun o => mret (f o, tt)) s s d tt eq_refl eq_refl Hp) as Hm.
  rewrite Hrun in Hm. unfold store_data in Hm.
  change (default AccountInfo_default (accounts s.1 !! k)) with (Account_get k s) in Hm.
  pose proof (dec_provider_of_ok _ (Account_get_refs_ok k s Hinv)) as Hdec. fold cur in Hm.
  destruct (is_providing cur) eqn:His, d as [d'|].
  - destruct Hm as (s2 & [= <- _] & Hs2). eapply (refs_inv_update s s' s); [done|done|exact Hs2|]. done.
  - destruct (dec_provider_of (Account_get k s)) as [o|]; simpl in Hm.
    + destruct Hm as (s2 & [= <- _] & Hs2). eapply (refs_inv_update s s' s); [done|done|exact Hs2|].
      destruct o as [a|]; simpl; [done|]. intros a Ha. unfold Account_get in Hdec. rewrite Ha in Hdec. simpl in Hdec. lia.
    + injection Hm as -> _. by apply refs_inv_same.
  - destruct Hm as (s2 & [= <- _] & Hs2). eapply (refs_inv_update s s' s); [done|done|exact Hs2|].
    by apply inc_provider_of_ok.
  - destruct Hm as (s2 & [= <- _] & Hs2). eapply (refs_inv_update s s' s); [done|done|exact Hs2|].
    destruct (accounts s.1 !! k) as [a|] eqn:Ha; [by eapply Hinv|done].
Qed.

(** A mutation whose closure at most logs events. *)
Lemma Account_try_mutate_step {E A} who (f : AccountInfo D -> M Runtime E (AccountInfo D * A)) s s' r :
  refs_inv s ->
  (forall s1 p, f (Account_get who s) s = (s1, p) ->
     same_storage s1 s /\ forall a x, p = Ok (a, x) -> refs_ok a) ->
  Account_try_mutate who f s = (s', r) -> refs_inv s' /\ keeps_consumed s s'.
Proof.
  intros Hinv Hf. unfold Account_try_mutate, mbind, M_mbind, gets, Account_put, modify.
  destruct (f (Account_get who s) s) as [s1 [[a x]|e|]]; destruct (Hf _ _ eq_refl) as [Hs1 Ha]; intros [= <- _].
  - eapply (refs_inv_update s _ s1 who (Some a)); [done|done|done|by eapply Ha].
  - by apply refs_inv_same.
  - by apply refs_inv_same.
Qed.

Lemma Account_try_mutate_exists_step {E A} who
    (f : option (AccountInfo D) -> M Runtime E (option (AccountInfo D) * A)) s s' r :
  refs_inv s ->
  (forall s1 p, f (accounts s.1 !! who) s = (s1, p) ->
     same_storage s1 s /\ forall o x, p = Ok (o, x) ->
       match o with Some a => refs_ok a | None => forall a, accounts s.1 !! who = Some a -> consumers a <= 0 end) ->
  Account_try_mutate_exists who f s = (s', r) -> refs_inv s' /\ keeps_consumed s s'.
Proof.
  intros Hinv Hf. unfold Account_try_mutate_exists, mbind, M_mbind, gets, modify.
  destruct (f (accounts s.1 !! who) s) as [s1 [[o x]|e|]]; destruct (Hf _ _ eq_refl) as [Hs1 Ho]; intros [= <- _].
  - eapply (refs_inv_update s _ s1 who o); [done|done|done|by eapply Ho].
  - by apply refs_inv_same.
  - by apply refs_inv_same.
Qed.

Lemma dec_consumers_step {E} who s s' r :
  refs_inv s -> dec_consumers (E := E) who s = (s', r) -> refs_inv s' /\ keeps_consumed s s'.
Proof.
  intros Hinv. apply Account_try_mutate_step; [done|].
  pose proof (Account_get_refs_ok who s Hinv) as (Hc & Hp & Hs & Hcp). intros s1 p.
  destruct (Z.ltb_spec 0 (consumers (Account_get who s))).
  - unfold lift, mbind, M_mbind. rewrite usub_ok by (unfold is_u in *; lia). intros [= <- <-]. split; [done|].
    intros a x [= <- _]. unfold refs_ok, is_u in *. simpl. lia.
  - intros [= <- <-]. split; [done|]. intros a x [= <- _]. done.
Qed.

Lemma inc_consumers_step who s s' r :
  refs_inv s -> inc_consumers who s = (s', r) -> refs_inv s' /\ keeps_consumed s s'.
Proof.
  intros Hinv. apply Account_try_mutate_step; [done|].
  pose proof (Account_get_refs_ok who s Hinv) as (Hc & Hp & Hs & Hcp). intros s1 p.
  destruct (Z.ltb_spec 0 (providers (Account_get who s))); [|intros [= <- <-]; by split].
  intros [= <- <-]. split; [done|]. intros a x [= <- _]. destruct (saturating_succ _ Hc).
  split_and!; done.
Qed.

Lemma inc_sufficients_step {E} who s s' r :
  refs_inv s -> inc_sufficients (E := E) who s = (s', r) -> refs_inv s' /\ keeps_consumed s s'.
Proof.
  intros Hinv. apply Account_try_mutate_step; [done|].
  pose proof (Account_get_refs_ok who s Hinv) as (Hc & Hp & Hs & Hcp). destruct (saturating_succ _ Hs).
  intros s1 p. unfold lift, mbind, M_mbind. destruct (uadd 32 _ _) as [n|e|]; [|intros [= <- <-]; by split..].
  destruct (n =? 0).
  - destruct (deposit_event_same (E := E) (from_event (NewAccount who)) s) as (s2 & Hd & Hs2).
    unfold on_created_account. rewrite Hd. intros [= <- <-]. split; [done|]. intros a x [= <- _].
    split_and!; [done..|unfold is_u; simpl; lia|done].
  - intros [= <- <-]. split; [done|]. intros a x [= <- _]. split_and!; done.
Qed.

Lemma dec_sufficients_step {E} who s s' r :
  refs_inv s -> dec_sufficients (E := E) who s = (s', r) -> refs_inv s' /\ keeps_consumed s s'.
Proof.
  intros Hinv. apply Account_try_mutate_exists_step; [done|]. intros s1 p.
  destruct (accounts s.1 !! who) as [a|] eqn:Ha; [|intros [= <- <-]; split; [done|]; by intros o x [= <- _]].
  destruct (Hinv _ _ Ha) as (Hc & Hp & Hs & Hcp).
  destruct (((sufficients a =? 0) || (sufficients a =? 1)) && (providers a =? 0)) eqn:Hcond.
  - destruct (deposit_event_same (E := E) (from_event (KilledAccount who)) s) as (s2 & Hd & Hs2).
    unfold on_killed_account, mbind, M_mbind. rewrite Hd. intros [= <- <-]. split; [done|].
    intros o x [= <- _] b [= <-]. apply andb_prop in Hcond as [_ ?%Z.eqb_eq]. unfold is_u in *. lia.
  - unfold lift, mbind, M_mbind, usub, unchecked.
    assert (forall n, is_u 32 n -> refs_ok (with_sufficients n a)) as Hn by (intros; by split_and!).
    destruct (fits 32 (sufficients a - 1)) eqn:Hf; [apply fits_spec in Hf|destruct overflow_checks];
      intros [= <- <-]; (split; [done|]); intros o x; [intros [= <- _]|done|intros [= <- _]]; apply Hn; [done|].
    by apply (cast_is_u 32).
Qed.

(** C27. The counters protect accounts in use: over any sequence of the
    operations on counters and data, a consumer reference always comes with a
    provider, every counter stays in 32 bits, and no step removes an account
    that has consumers. *)
Theorem reference_counts_protect s s' :
  refs_inv s -> rtc ref_step s s' ->
  refs_inv s' /\ (forall s'', ref_step s' s'' -> keeps_consumed s' s'').
Proof.
  assert (forall s s', refs_inv s -> ref_step s s' -> refs_inv s' /\ keeps_consumed s s') as Hstep.
  { clear s s'. intros s s' Hinv.
    destruct 1 as [k r Hr|k r Hr|k r Hr|k r Hr|k r Hr|k r Hr|k d r Hr|k r Hr].
    - destruct (inc_providers_run (E := unit) k s) as (s2 & st & Heq & Hs2). rewrite Heq in Hr. injection Hr as <- _.
      eapply (refs_inv_update s s2 s k (Some _)); [done..|]. by apply inc_provider_of_ok, Account_get_refs_ok.
    - destruct (accounts s.1 !! k) as [a|] eqn:Ha.
      + pose proof (Hinv _ _ Ha) as Hok. pose proof (dec_provider_of_ok a Hok) as Ho.
        pose proof (dec_providers_run k s a Ha (proj1 (proj2 Hok))) as Hd.
        destruct (dec_provider_of a) as [o|].
        * destruct Hd as (s2 & Heq & Hs2). rewrite Heq in Hr. injection Hr as <- _.
          eapply (refs_inv_update s s2 s k o); [done..|]. destruct o; [done|]. intros b Hb. simplify_eq. lia.
        * rewrite Hd in Hr. injection Hr as <- _. by apply refs_inv_same.
      + revert Hr. apply Account_try_mutate_exists_step; [done|]. rewrite Ha. intros s1 p [= <- <-].
        split; [done|]. by intros o x [= <- _].
    - by eapply inc_sufficients_step.
    - by eapply dec_sufficients_step.
    - by eapply inc_consumers_step.
    - by eapply dec_consumers_step.
    - by eapply (StoredMap_const_step k (fun _ => Some d)).
    - by eapply (StoredMap_const_step k (fun _ => None)). }
  intros Hinv Hrtc. assert (refs_inv s') as Hinv'.
  { induction Hrtc as [|s1 s2 s3 H1 _ IH]; [done|]. apply IH. by eapply Hstep. }
  split; [done|]. intros s'' Hs. by eapply Hstep.
Qed.

(** [StoredMap::insert] and [get]: storing data under a key makes it the
    data of the account, and the account gains a provider exactly when its
    data was the default before; no other account changes.  Removing the data
    gives the provider back, and is refused, without any change, only if the
    account is still consumed and this was its last provider. *)
Theorem stored_map_spec s k d : refs_inv s ->
  let a := Account_get k s in
  (exists s', StoredMap_insert k d s = (s', Ok tt) /\ StoredMap_get k s' = d /\
     providers (Account_get k s') =
       (if is_providing (data a) then providers a else providers (inc_provider_of a)) /\
     forall k', k' <> k -> accounts s'.1 !! k' = accounts s.1 !! k') /\
  (if is_providing (data a) && (providers a <=? 1) && (0 <? consumers a)
   then StoredMap_remove k s = (s, Err ConsumerRemaining)
   else exists s', StoredMap_remove k s = (s', Ok tt) /\ StoredMap_get k s' = dflt /\
     forall k', k' <> k -> accounts s'.1 !! k' = accounts s.1 !! k').
Proof.
  intros Hinv a. pose proof (Account_get_refs_ok k s Hinv) as (Hc & Hp & Hs & Hcp). fold a in Hc, Hp, Hs, Hcp.
  assert (forall s2 o, same_storage s2 (set_accounts (partial_alter (fun _ => o) k (accounts s.1)) s) ->
    Account_get k s2 = default AccountInfo_default o /\ forall k', k' <> k -> accounts s2.1 !! k' = accounts s.1 !! k') as Hread.
  { intros s2 o [Ha _]. simpl in Ha. unfold Account_get. rewrite Ha, lookup_partial_alter_eq. split; [done|].
    intros k' Hk'. by rewrite lookup_partial_alter_ne. }
  split.
  - pose proof (StoredMap_run id k (fun _ => mret (Some d, tt)) s s (Some d) tt eq_refl eq_refl Hp) as Hm.
    unfold store_data in Hm. change (default AccountInfo_default (accounts s.1 !! k)) with a in Hm.
    destruct (is_providing (data a)); destruct Hm as (s2 & Hr & [Hg Hoth]%Hread); exists s2;
      unfold StoredMap_get; rewrite Hg; simpl; by split_and!.
  - pose proof (StoredMap_run id k (fun _ => mret (None, tt)) s s None tt eq_refl eq_refl Hp) as Hm.
    unfold store_data in Hm. change (default AccountInfo_default (accounts s.1 !! k)) with a in Hm.
    destruct (is_providing (data a)) eqn:Hpr; simpl.
    + unfold dec_provider_of in Hm. unfold is_u in Hc, Hp, Hs. revert Hm.
      destruct (Z.eqb_spec (providers a) 0), (Z.leb_spec (providers a) 1), (Z.ltb_spec 0 (consumers a)); try lia;
        simpl; destruct (Z.eqb_spec (consumers a) 0), (Z.eqb_spec (providers a) 1), (Z.eqb_spec (sufficients a) 0);
        try lia; simpl; rewrite ?andb_false_r; try (replace (0 <? consumers a) with false by lia); simpl;
        (intros Hm; exact Hm) ||
        (intros (s2 & Hr & [Hg Hoth]%Hread); exists s2; unfold StoredMap_get; rewrite Hg; simpl; by split_and!).
    + destruct Hm as (s2 & Hr & [Hg Hoth]%Hread). exists s2. unfold StoredMap_get. rewrite Hg. split_and!; [done| |done].
      change (data a = dflt). unfold is_providing in Hpr. case_bool_decide; done.
Qed.

(** [dec_sufficients] on an account that has providers but no
    self-sufficient reference logs a logic error and then subtracts anyway: a
    debug build panics, a release build stores 2^32 - 1 references, after
    which the account cannot be reaped by any number of provider decrements.
    [dec_providers] guards the same case. *)
Theorem dec_sufficients_underflow s k a :
  accounts s.1 !! k = Some a -> sufficients a = 0 -> 0 < providers a ->
  dec_sufficients (E := unit) k s =
    if overflow_checks then (s, Panic)
    else (set_accounts (<[k := with_sufficients (2 ^ 32 - 1) a]> (accounts s.1)) s, Ok Exists).
Proof.
  intros Ha Hs Hp. unfold dec_sufficients, Account_try_mutate_exists, mbind, M_mbind, gets. rewrite Ha, Hs.
  replace (providers a =? 0) with false by lia. simpl. unfold lift, usub, unchecked. simpl. by destruct overflow_checks.
Qed.
End system.

(** ** A concrete runtime *)
#[local] Instance demo_default : Default Z := 0.
#[local] Instance demo_release : OverflowChecks := false.

Abbreviation demo_runtime := (Runtime (K := Z) (D := Z) (Ev := SystemEvent Z) (R := unit)).

Definition demo_accounts : gmap Z (AccountInfo Z) := {[ 1 := mkAccountInfo 0 1 1 0 50; 2 := mkAccountInfo 0 0 1 0 60 ]}.
Definition demo_state : demo_runtime := (mkSystem demo_accounts 5 None 0 [] ∅, tt).

Lemma demo_refs_inv : refs_inv demo_state.
Proof.
  intros k a Ha. simpl in Ha. unfold demo_accounts in Ha.
  apply lookup_insert_Some in Ha as [[_ <-]|[_ Ha]]; [unfold refs_ok, is_u; simpl; lia|].
  apply lookup_singleton_Some in Ha as [_ <-]. unfold refs_ok, is_u; simpl; lia.
Qed.

Lemma reference_counts_protect_witness :
  refs_inv (inc_consumers (R := unit) (Ev := SystemEvent Z) 2 demo_state).1.
Proof.
  apply (reference_counts_protect id demo_state _ demo_refs_inv).
  apply rtc_once. eapply step_inc_consumers. apply surjective_pairing.
Defined.

Lemma stored_map_spec_witness :
  StoredMap_remove id 1 demo_state = (demo_state, Err ConsumerRemaining) /\
  exists s', StoredMap_remove id 2 demo_state = (s', Ok tt) /\ StoredMap_get 2 s' = 0.
Proof.
  split; [exact (proj2 (stored_map_spec id demo_state 1 7 demo_refs_inv))|].
  destruct (proj2 (stored_map_spec id demo_state 2 7 demo_refs_inv)) as (s' & Hr & Hg & _).
  exists s'. split; [exact Hr|exact Hg].
Defined.

Lemma dec_sufficients_underflow_witness :
  dec_sufficients (E := unit) id 2 demo_state =
    (set_accounts (<[2 := mkAccountInfo 0 0 1 (2 ^ 32 - 1) 60]> demo_accounts) demo_state, Ok Exists).
Proof. exact (dec_sufficients_underflow id demo_state 2 _ eq_refl eq_refl eq_refl). Defined.
