(* ===== verification/Balances.v ===== *)
(** * The balances pallet

    Model of [frame/balances/src/lib.rs]: account data with free, reserved and
    frozen amounts, the existential deposit and the removal of dust, locks,
    named reserves, imbalances with their destructors, the implementations of
    the traits [Currency], [ReservableCurrency], [NamedReservableCurrency],
    [LockableCurrency] and of the fungible traits, the genesis and the
    dispatchable calls.

    The configuration is that of [bin/node/runtime/src/lib.rs]: a balance is a
    [u128], [AccountStore] is the system pallet (module System) and
    [DustRemoval] is [()].  The existential deposit, the bound on named
    reserves, the event type of the runtime and the address lookup are
    parameters. *)

From Stdlib Require Import ZArith Lia.
From stdpp Require Import gmap option list.
From S2P Require Import Prelude System.

Local Open Scope Z_scope.

(** ** Data *)
Definition bits : Z := 128.

Inductive Error : Type :=
| VestingBalance
| LiquidityRestrictions
| InsufficientBalance
| ExistentialDepositError
| KeepAliveError
| ExistingVestingSchedule
| DeadAccount
| TooManyReserves.

Inductive TokenError : Type :=
| NoFundsError
| WouldDieError
| BelowMinimumError
| CannotCreateError
| UnknownAssetError
| FrozenError.

Inductive ArithmeticError : Type := UnderflowError | OverflowError | DivisionByZero.

Inductive DispatchError : Type :=
| CannotLookup
| BadOrigin
| Module (e : Error)
| DispatchConsumerRemaining
| DispatchNoProviders
| Token (e : TokenError)
| Arithmetic (e : ArithmeticError).

(** [From<StoredMapError> for DispatchError] *)
Definition dispatch_error (e : StoredMapError) : DispatchError :=
  match e with NoProviders => DispatchNoProviders | ConsumerRemaining => DispatchConsumerRemaining end.

Inductive WithdrawConsequence : Type :=
| NoFunds
| WouldDie
| UnknownAsset
| Underflow
| Overflow
| Frozen
| ReducedToZero (b : Z)
| Success.

Definition withdraw_into_result (self : WithdrawConsequence) : res DispatchError Z :=
  match self with
  | NoFunds => Err (Token NoFundsError)
  | WouldDie => Err (Token WouldDieError)
  | UnknownAsset => Err (Token UnknownAssetError)
  | Underflow => Err (Arithmetic UnderflowError)
  | Overflow => Err (Arithmetic OverflowError)
  | Frozen => Err (Token FrozenError)
  | ReducedToZero result => Ok result
  | Success => Ok 0
  end.

Inductive DepositConsequence : Type :=
| DepositBelowMinimum
| DepositCannotCreate
| DepositUnknownAsset
| DepositOverflow
| DepositSuccess.

Definition deposit_into_result (self : DepositConsequence) : res DispatchError unit :=
  match self with
  | DepositBelowMinimum => Err (Token BelowMinimumError)
  | DepositCannotCreate => Err (Token CannotCreateError)
  | DepositUnknownAsset => Err (Token UnknownAssetError)
  | DepositOverflow => Err (Arithmetic OverflowError)
  | DepositSuccess => Ok tt
  end.

Inductive ExistenceRequirement : Type := KeepAlive | AllowDeath.

(** [BalanceStatus] *)
Inductive Status : Type := StatusFree | StatusReserved.

(** [WithdrawReasons]: a set of flags in a [u8]. *)
Definition TRANSACTION_PAYMENT : Z := 0x01.
Definition TRANSFER : Z := 0x02.
Definition RESERVE : Z := 0x04.
Definition FEE : Z := 0x08.
Definition TIP : Z := 0x10.

Inductive Reasons : Type := Fee | Misc | All.

#[export] Instance Reasons_eq : EqDecision Reasons.
Proof. solve_decision. Defined.

(** [From<WithdrawReasons> for Reasons] *)
Definition Reasons_from (r : Z) : Reasons :=
  if r =? TRANSACTION_PAYMENT then Fee
  else if Z.land r TRANSACTION_PAYMENT =? TRANSACTION_PAYMENT then All
  else Misc.

Definition Reasons_bitor (self other : Reasons) : Reasons :=
  if decide (self = other) then self else All.

Record BalanceLock : Type := mkLock {
  lock_id : Z;
  lock_amount : Z;
  lock_reasons : Reasons }.

Record ReserveData : Type := mkReserve {
  reserve_id : Z;
  reserve_amount : Z }.

Record AccountData : Type := mkAccountData {
  free : Z;
  reserved : Z;
  misc_frozen : Z;
  fee_frozen : Z }.

#[export] Instance AccountData_eq : EqDecision AccountData.
Proof. solve_decision. Defined.
#[export] Instance AccountData_default : Default AccountData := mkAccountData 0 0 0 0.
#[export] Instance AccountData_drop S : Drop S AccountData := fun _ s => s.

Definition with_free (z : Z) (a : AccountData) : AccountData :=
  mkAccountData z (reserved a) (misc_frozen a) (fee_frozen a).
Definition with_reserved (z : Z) (a : AccountData) : AccountData :=
  mkAccountData (free a) z (misc_frozen a) (fee_frozen a).

Definition frozen (self : AccountData) (reasons : Reasons) : Z :=
  match reasons with
  | All => Z.max (misc_frozen self) (fee_frozen self)
  | Misc => misc_frozen self
  | Fee => fee_frozen self
  end.

Definition usable (self : AccountData) (reasons : Reasons) : Z :=
  saturating_sub bits (free self) (frozen self reasons).

Definition total (self : AccountData) : Z := saturating_add bits (free self) (reserved self).

(** ** Imbalances *)
Inductive PositiveImbalance : Type := Positive (amount : Z).
Inductive NegativeImbalance : Type := Negative (amount : Z).

Definition positive (i : PositiveImbalance) : Z := let 'Positive a := i in a.
Definition negative (i : NegativeImbalance) : Z := let 'Negative a := i in a.

Inductive SignedImbalance : Type :=
| SignedPositive (i : PositiveImbalance)
| SignedNegative (i : NegativeImbalance).

Inductive SameOrOther (A B : Type) : Type := SameNone | Same (a : A) | Other (b : B).
Arguments SameNone {A B}.
Arguments Same {A B} a.
Arguments Other {A B} b.

Definition positive_split `{OverflowChecks} {E} (self : PositiveImbalance) (amount : Z) :
    res E (PositiveImbalance * PositiveImbalance) :=
  let first := Z.min (positive self) amount in
  second ← usub bits (positive self) first;
  Ok (Positive first, Positive second).

Definition negative_split `{OverflowChecks} {E} (self : NegativeImbalance) (amount : Z) :
    res E (NegativeImbalance * NegativeImbalance) :=
  let first := Z.min (negative self) amount in
  second ← usub bits (negative self) first;
  Ok (Negative first, Negative second).

(** [merge], and [subsume] in place. *)
Definition positive_merge (self other : PositiveImbalance) : PositiveImbalance :=
  Positive (saturating_add bits (positive self) (positive other)).
Definition negative_merge (self other : NegativeImbalance) : NegativeImbalance :=
  Negative (saturating_add bits (negative self) (negative other)).

Definition positive_offset `{OverflowChecks} {E} (self : PositiveImbalance) (other : NegativeImbalance) :
    res E (SameOrOther PositiveImbalance NegativeImbalance) :=
  let a := positive self in
  let b := negative other in
  if b <? a then d ← usub bits a b; Ok (Same (Positive d))
  else if a <? b then d ← usub bits b a; Ok (Other (Negative d))
  else Ok SameNone.

Definition negative_offset `{OverflowChecks} {E} (self : NegativeImbalance) (other : PositiveImbalance) :
    res E (SameOrOther NegativeImbalance PositiveImbalance) :=
  let a := negative self in
  let b := positive other in
  if b <? a then d ← usub bits a b; Ok (Same (Negative d))
  else if a <? b then d ← usub bits b a; Ok (Other (Positive d))
  else Ok SameNone.

(** ** Storage *)
Inductive Event (K : Type) : Type :=
| Endowed (who : K) (amount : Z)
| DustLost (who : K) (amount : Z)
| Transfer (from to : K) (amount : Z)
| BalanceSet (who : K) (free reserved : Z)
| Deposit (who : K) (amount : Z)
| Reserved (who : K) (amount : Z)
| Unreserved (who : K) (amount : Z)
| ReserveRepatriated (from to : K) (amount : Z) (status : Status).

Arguments Endowed {K} who amount.
Arguments DustLost {K} who amount.
Arguments Transfer {K} from to amount.
Arguments BalanceSet {K} who free reserved.
Arguments Deposit {K} who amount.
Arguments Reserved {K} who amount.
Arguments Unreserved {K} who amount.
Arguments ReserveRepatriated {K} from to amount status.

Record Balances (K : Type) `{Countable K} : Type := mkBalances {
  TotalIssuance : Z;
  Locks : gmap K (list BalanceLock);
  Reserves : gmap K (list ReserveData) }.

Arguments mkBalances {K _ _} TotalIssuance Locks Reserves.
Arguments TotalIssuance {K _ _} _.
Arguments Locks {K _ _} _.
Arguments Reserves {K _ _} _.

(** The constants of [Config]. *)
Class Config : Type := {
  ExistentialDeposit : Z;
  MaxReserves : nat }.

Section balances.
Context {K : Type} `{Countable K} {Ev R : Type} `{OC : OverflowChecks} `{Cfg : Config}.
Context (from_system : SystemEvent K -> Ev) (from_balances : Event K -> Ev).

(** The runtime: the system pallet, this pallet, and the others. *)
Definition St : Type := Runtime (K := K) (D := AccountData) (Ev := Ev) (R := Balances K * R).

Definition issuance (s : St) : Z := TotalIssuance s.2.1.
Definition set_issuance (t : Z) (s : St) : St :=
  (s.1, (mkBalances t (Locks s.2.1) (Reserves s.2.1), s.2.2)).
Definition set_locks (m : gmap K (list BalanceLock)) (s : St) : St :=
  (s.1, (mkBalances (TotalIssuance s.2.1) m (Reserves s.2.1), s.2.2)).
Definition set_reserves (m : gmap K (list ReserveData)) (s : St) : St :=
  (s.1, (mkBalances (TotalIssuance s.2.1) (Locks s.2.1) m, s.2.2)).

Definition emit {E} (ev : Event K) : M St E unit := deposit_event (from_balances ev).

(** [Drop] of the two imbalances squares up the total issuance. *)
#[global] Instance PositiveImbalance_drop : Drop St PositiveImbalance :=
  fun i s => set_issuance (saturating_add bits (issuance s) (positive i)) s.
#[global] Instance NegativeImbalance_drop : Drop St NegativeImbalance :=
  fun i s => set_issuance (saturating_sub bits (issuance s) (negative i)) s.
#[global] Instance SignedImbalance_drop : Drop St SignedImbalance :=
  fun i => match i with SignedPositive i => drop_value i | SignedNegative i => drop_value i end.

(** [OnUnbalanced for ()] *)
Definition on_unbalanced (amount : NegativeImbalance) : St -> St := drop_value amount.

Definition DustCleaner : Type := option (K * NegativeImbalance).

#[global] Instance DustCleaner_drop : Drop St DustCleaner :=
  fun d s => match d with
             | Some (who, dust) =>
               on_unbalanced dust (emit (E := unit) (DustLost who (negative dust)) s).1
             | None => s
             end.

(** ** Accounts *)
Definition account (who : K) (s : St) : AccountData := StoredMap_get who s.

Definition free_balance (who : K) (s : St) : Z := free (account who s).
Definition usable_balance (who : K) (s : St) : Z := usable (account who s) Misc.
Definition usable_balance_for_fees (who : K) (s : St) : Z := usable (account who s) Fee.
Definition reserved_balance (who : K) (s : St) : Z := reserved (account who s).
Definition total_balance (who : K) (s : St) : Z := total (account who s).

Definition post_mutation (new : AccountData) : option AccountData * option NegativeImbalance :=
  let t := total new in
  if t <? ExistentialDeposit then
    if t =? 0 then (None, None) else (None, Some (Negative t))
  else (Some new, None).

Definition deposit_consequence (amount : Z) (account : AccountData) (s : St) : DepositConsequence :=
  if amount =? 0 then DepositSuccess
  else match checked_add bits (issuance s) amount with
  | None => DepositOverflow
  | Some _ =>
    match checked_add bits (total account) amount with
    | None => DepositOverflow
    | Some new_total_balance =>
      if new_total_balance <? ExistentialDeposit then DepositBelowMinimum else DepositSuccess
    end
  end.

Definition withdraw_consequence (who : K) (amount : Z) (account : AccountData) (s : St) : WithdrawConsequence :=
  if amount =? 0 then Success
  else match checked_sub bits (issuance s) amount with
  | None => Underflow
  | Some _ =>
    match checked_sub bits (total account) amount with
    | None => NoFunds
    | Some new_total_balance =>
      let finish (success : WithdrawConsequence) :=
        match checked_sub bits (free account) amount with
        | None => NoFunds
        | Some new_free_balance =>
          let min_balance := frozen account All in
          if new_free_balance <? min_balance then Frozen else success
        end in
      if new_total_balance <? ExistentialDeposit then
        if can_dec_provider who s then finish (ReducedToZero new_total_balance) else WouldDie
      else finish Success
    end
  end.

(** The closure gets the account and whether it is new; it may change the rest
    of the storage. *)
Definition try_mutate_account_with_dust {E A} `{Drop St A} (from_error : StoredMapError -> E) (who : K)
    (f : AccountData -> bool -> M St E (AccountData * A)) : M St E (A * DustCleaner) :=
  r ← StoredMap_try_mutate_exists (A := option Z * option NegativeImbalance * A) from_system from_error who
    (fun maybe_account =>
       let is_new := bool_decide (maybe_account = None) in
       p ← f (default dflt maybe_account) is_new;
       let '(account, result) := p in
       let maybe_endowed := if is_new then Some (free account) else None in
       let '(maybe_account, maybe_dust) := post_mutation account in
       mret (maybe_account, (maybe_endowed, maybe_dust, result)));
  let '(maybe_endowed, maybe_dust, result) := r in
  _ ← (match maybe_endowed with Some endowed => emit (Endowed who endowed) | None => mret tt end);
  mret (result, (fun dust => (who, dust)) <$> maybe_dust).

Definition try_mutate_account {E A} `{Drop St A} (from_error : StoredMapError -> E) (who : K)
    (f : AccountData -> bool -> M St E (AccountData * A)) : M St E A :=
  p ← try_mutate_account_with_dust from_error who f;
  _ ← drop_ (p.2 : DustCleaner);
  mret p.1.

Definition mutate_account {A} `{Drop St A} (who : K)
    (f : AccountData -> M St StoredMapError (AccountData * A)) : M St StoredMapError A :=
  try_mutate_account id who (fun a _ => f a).

(** The result of a fallible call as a value, for a [match] on it. *)
Definition attempt {E E' A} (m : M St E A) : M St E' (A + E) :=
  catch m (fun a => mret (inl a)) (fun e => mret (inr e)).

(** ** Locks *)
Definition apply_lock (b : AccountData) (l : BalanceLock) : AccountData :=
  let b := if decide (lock_reasons l = All \/ lock_reasons l = Misc)
           then mkAccountData (free b) (reserved b) (Z.max (misc_frozen b) (lock_amount l)) (fee_frozen b) else b in
  if decide (lock_reasons l = All \/ lock_reasons l = Fee)
  then mkAccountData (free b) (reserved b) (misc_frozen b) (Z.max (fee_frozen b) (lock_amount l)) else b.

Definition update_locks {E} (who : K) (locks : list BalanceLock) : M St E unit :=
  res ← attempt (mutate_account who (fun b =>
    mret (foldl apply_lock (mkAccountData (free b) (reserved b) 0 0) locks, tt)));
  _ ← lift (debug_assert (match res with inl _ => true | inr _ => false end));
  existed ← gets (fun s => bool_decide (is_Some (Locks s.2.1 !! who)));
  match locks with
  | [] =>
    _ ← modify (fun s => set_locks (delete who (Locks s.2.1)) s);
    if existed : bool then dec_consumers who else mret tt
  | _ =>
    _ ← modify (fun s => set_locks (<[who := locks]> (Locks s.2.1)) s);
    if existed : bool then mret tt
    else _ ← attempt (inc_consumers who); mret tt
  end.

Definition locks_of (who : K) (s : St) : list BalanceLock := default [] (Locks s.2.1 !! who).

(** The [filter_map] of [set_lock]: the first lock with the id takes the new
    value, the others with the id go; what is left of the new lock comes
    back. *)
Fixpoint replace_lock (id : Z) (new : BalanceLock -> BalanceLock) (taken : bool) (ls : list BalanceLock) :
    list BalanceLock * bool :=
  match ls with
  | [] => ([], taken)
  | l :: ls =>
    if lock_id l =? id then
      let '(ls', t) := replace_lock id new true ls in
      (if taken then ls' else new l :: ls', t)
    else let '(ls', t) := replace_lock id new taken ls in (l :: ls', t)
  end.

Definition put_lock (id : Z) (new : BalanceLock -> BalanceLock) (new_lock : BalanceLock) (ls : list BalanceLock) :
    list BalanceLock :=
  let '(ls', taken) := replace_lock id new false ls in
  if taken then ls' else ls' ++ [new_lock].

Definition set_lock {E} (id : Z) (who : K) (amount reasons : Z) : M St E unit :=
  if (amount =? 0) || (reasons =? 0) then mret tt
  else
    let new_lock := mkLock id amount (Reasons_from reasons) in
    ls ← gets (locks_of who);
    update_locks who (put_lock id (fun _ => new_lock) new_lock ls).

Definition extend_lock {E} (id : Z) (who : K) (amount reasons : Z) : M St E unit :=
  if (amount =? 0) || (reasons =? 0) then mret tt
  else
    let new_lock := mkLock id amount (Reasons_from reasons) in
    ls ← gets (locks_of who);
    update_locks who
      (put_lock id (fun l => mkLock (lock_id l) (Z.max (lock_amount l) amount)
                               (Reasons_bitor (lock_reasons l) (Reasons_from reasons))) new_lock ls).

Definition remove_lock {E} (id : Z) (who : K) : M St E unit :=
  ls ← gets (locks_of who);
  update_locks who (List.filter (fun l => negb (lock_id l =? id)) ls).

(** ** [Currency] *)
Definition can_slash (who : K) (value : Z) (s : St) : bool :=
  if value =? 0 then true else value <=? free_balance who s.

Definition burn {E} (amount : Z) : M St E PositiveImbalance :=
  if amount =? 0 then mret (Positive 0)
  else
    issued ← gets issuance;
    match checked_sub bits issued amount with
    | Some x => _ ← modify (set_issuance x); mret (Positive amount)
    | None => _ ← modify (set_issuance 0); mret (Positive issued)
    end.

Definition issue {E} (amount : Z) : M St E NegativeImbalance :=
  if amount =? 0 then mret (Negative 0)
  else
    issued ← gets issuance;
    match checked_add bits issued amount with
    | Some x => _ ← modify (set_issuance x); mret (Negative amount)
    | None =>
      amount ← lift (usub bits (u_max bits) issued);
      _ ← modify (set_issuance (u_max bits));
      mret (Negative amount)
    end.

Definition ensure_can_withdraw (who : K) (amount reasons new_balance : Z) : M St DispatchError unit :=
  if amount =? 0 then mret tt
  else
    min_balance ← gets (fun s => frozen (account who s) (Reasons_from reasons));
    lift (ensure (min_balance <=? new_balance) (Module LiquidityRestrictions)).

(** The inner closure of [transfer]: it captures and changes [to_account],
    which is therefore part of its result. *)
Definition transfer_closure (transactor : K) (value : Z) (existence_requirement : ExistenceRequirement)
    (to_account from_account : AccountData) : M St DispatchError (AccountData * AccountData) :=
  from_free ← lift (ok_or (checked_sub bits (free from_account) value) (Module InsufficientBalance));
  let from_account := with_free from_free from_account in
  to_free ← lift (ok_or (checked_add bits (free to_account) value) (Arithmetic OverflowError));
  let to_account := with_free to_free to_account in
  let ed := ExistentialDeposit in
  _ ← lift (ensure (ed <=? total to_account) (Module ExistentialDepositError));
  _ ← catch (ensure_can_withdraw transactor value TRANSFER (free from_account))
        mret (fun _ => throw (Module LiquidityRestrictions));
  required ← gets (is_provider_required transactor);
  let allow_death := match existence_requirement with AllowDeath => true | KeepAlive => false end in
  let allow_death := allow_death && negb required in
  _ ← lift (ensure (allow_death || (ed <=? total from_account)) (Module KeepAliveError));
  mret (from_account, to_account).

Definition transfer (transactor dest : K) (value : Z) (existence_requirement : ExistenceRequirement) :
    M St DispatchError unit :=
  if (value =? 0) || bool_decide (transactor = dest) then mret tt
  else
    dusts ← try_mutate_account_with_dust (A := DustCleaner) dispatch_error dest (fun to_account _ =>
      p ← try_mutate_account_with_dust (A := AccountData) dispatch_error transactor (fun from_account _ =>
        transfer_closure transactor value existence_requirement to_account from_account);
      mret (p.1, p.2));
    _ ← drop_ (dusts.1 : DustCleaner);
    _ ← drop_ (dusts.2 : DustCleaner);
    emit (Transfer transactor dest value).

(** One attempt of [slash]: the first takes the full value, the second leaves
    the existential deposit. *)
Definition slash_closure (value : Z) (first : bool) (account : AccountData) :
    res StoredMapError (AccountData * (NegativeImbalance * Z)) :=
  best_value ← (if first then Ok value
                else t ← uadd bits (free account) (reserved account);
                     Ok (Z.min value (saturating_sub bits t ExistentialDeposit)));
  let free_slash := Z.min (free account) best_value in
  new_free ← usub bits (free account) free_slash;
  let account := with_free new_free account in
  remaining_slash ← usub bits best_value free_slash;
  if negb (remaining_slash =? 0) then
    let reserved_slash := Z.min (reserved account) remaining_slash in
    new_reserved ← usub bits (reserved account) reserved_slash;
    let account := with_reserved new_reserved account in
    slashed ← uadd bits free_slash reserved_slash;
    x ← usub bits value free_slash;
    left ← usub bits x reserved_slash;
    Ok (account, (Negative slashed, left))
  else
    left ← usub bits value free_slash;
    Ok (account, (Negative free_slash, left)).

Definition slash_attempt (who : K) (value : Z) (first : bool) :
    M St StoredMapError (NegativeImbalance * Z) :=
  try_mutate_account id who (fun account _ => lift (slash_closure value first account)).

Definition slash {E} (who : K) (value : Z) : M St E (NegativeImbalance * Z) :=
  if value =? 0 then mret (Negative 0, 0)
  else
    t ← gets (total_balance who);
    if t =? 0 then mret (Negative 0, value)
    else
      r ← attempt (slash_attempt who value true);
      match r with
      | inl r => mret r
      | inr _ =>
        r ← attempt (slash_attempt who value false);
        match r with
        | inl r => mret r
        | inr _ => mret (Negative 0, value)
        end
      end.

Definition deposit_into_existing (who : K) (value : Z) : M St DispatchError PositiveImbalance :=
  if value =? 0 then mret (Positive 0)
  else
    try_mutate_account dispatch_error who (fun account is_new =>
      _ ← lift (ensure (negb is_new) (Module DeadAccount));
      f ← lift (ok_or (checked_add bits (free account) value) (Arithmetic OverflowError));
      mret (with_free f account, Positive value)).

Definition deposit_creating {E} (who : K) (value : Z) : M St E PositiveImbalance :=
  if value =? 0 then mret (Positive 0)
  else
    r ← attempt (try_mutate_account dispatch_error who (fun account is_new =>
      let ed := ExistentialDeposit in
      _ ← lift (ensure ((ed <=? value) || negb is_new) (Module ExistentialDepositError));
      match checked_add bits (free account) value with
      | Some x => mret (with_free x account, Positive value)
      | None => mret (account, Positive 0)
      end));
    mret (match r with inl i => i | inr _ => Positive 0 end).

Definition withdraw_closure (who : K) (value reasons : Z) (liveness : ExistenceRequirement) (account : AccountData) :
    M St DispatchError (AccountData * NegativeImbalance) :=
  new_free_account ← lift (ok_or (checked_sub bits (free account) value) (Module InsufficientBalance));
  let ed := ExistentialDeposit in
  new_total ← lift (uadd bits new_free_account (reserved account));
  let would_be_dead := new_total <? ed in
  would_kill ← lift (if would_be_dead
                     then t ← uadd bits (free account) (reserved account); Ok (ed <=? t)
                     else Ok false);
  _ ← lift (ensure (match liveness with AllowDeath => true | KeepAlive => negb would_kill end) (Module KeepAliveError));
  _ ← ensure_can_withdraw who value reasons new_free_account;
  mret (with_free new_free_account account, Negative value).

Definition withdraw (who : K) (value reasons : Z) (liveness : ExistenceRequirement) :
    M St DispatchError NegativeImbalance :=
  if value =? 0 then mret (Negative 0)
  else try_mutate_account dispatch_error who (fun account _ => withdraw_closure who value reasons liveness account).

Definition make_free_balance_be {E} (who : K) (value : Z) : M St E SignedImbalance :=
  r ← attempt (try_mutate_account dispatch_error who (fun account is_new =>
    let ed := ExistentialDeposit in
    let t := saturating_add bits value (reserved account) in
    _ ← lift (ensure ((ed <=? t) || negb is_new) (Module ExistentialDepositError));
    imbalance ← lift (if free account <=? value
                      then d ← usub bits value (free account); Ok (SignedPositive (Positive d))
                      else d ← usub bits (free account) value; Ok (SignedNegative (Negative d)));
    mret (with_free value account, imbalance)));
  mret (match r with inl i => i | inr _ => SignedPositive (Positive 0) end).

(** ** [ReservableCurrency] *)
Definition can_reserve (who : K) (value : Z) (s : St) : bool :=
  if value =? 0 then true
  else match checked_sub bits (free (account who s)) value with
       | Some new_balance => is_ok (ensure_can_withdraw who value RESERVE new_balance s).2
       | None => false
       end.

Definition reserve_closure (who : K) (value : Z) (account : AccountData) : M St DispatchError (AccountData * unit) :=
  f ← lift (ok_or (checked_sub bits (free account) value) (Module InsufficientBalance));
  r ← lift (ok_or (checked_add bits (reserved account) value) (Arithmetic OverflowError));
  let account := with_reserved r (with_free f account) in
  _ ← ensure_can_withdraw who value RESERVE (free account);
  mret (account, tt).

Definition reserve (who : K) (value : Z) : M St DispatchError unit :=
  if value =? 0 then mret tt
  else
    _ ← try_mutate_account dispatch_error who (fun account _ => reserve_closure who value account);
    emit (Reserved who value).

Definition unreserve_closure (value : Z) (account : AccountData) : res StoredMapError (AccountData * Z) :=
  let actual := Z.min (reserved account) value in
  new_reserved ← usub bits (reserved account) actual;
  let account := with_free (saturating_add bits (free account) actual) (with_reserved new_reserved account) in
  Ok (account, actual).

Definition unreserve {E} (who : K) (value : Z) : M St E Z :=
  if value =? 0 then mret 0
  else
    t ← gets (total_balance who);
    if t =? 0 then mret value
    else
      r ← attempt (mutate_account who (fun account => lift (unreserve_closure value account)));
      match r with
      | inl actual => _ ← emit (Unreserved who actual); lift (usub bits value actual)
      | inr _ => mret value
      end.

Definition slash_reserved_attempt (who : K) (value : Z) (first : bool) :
    M St StoredMapError (NegativeImbalance * Z) :=
  mutate_account who (fun account =>
    best_value ← (if first then mret value
                  else t ← lift (uadd bits (free account) (reserved account));
                       mret (Z.min value (saturating_sub bits t ExistentialDeposit)));
    let actual := Z.min (reserved account) best_value in
    new_reserved ← lift (usub bits (reserved account) actual);
    left ← lift (usub bits value actual);
    mret (with_reserved new_reserved account, (Negative actual, left))).

Definition slash_reserved {E} (who : K) (value : Z) : M St E (NegativeImbalance * Z) :=
  if value =? 0 then mret (Negative 0, 0)
  else
    t ← gets (total_balance who);
    if t =? 0 then mret (Negative 0, value)
    else
      r ← attempt (slash_reserved_attempt who value true);
      match r with
      | inl r => mret r
      | inr _ =>
        r ← attempt (slash_reserved_attempt who value false);
        match r with
        | inl r => mret r
        | inr _ => mret (Negative 0, value)
        end
      end.

(** The dust cleaners live until the end of the function, after the event; the
    one bound last is dropped first. *)
Definition do_transfer_reserved (slashed beneficiary : K) (value : Z) (best_effort : bool) (status : Status) :
    M St DispatchError Z :=
  if value =? 0 then mret 0
  else if decide (slashed = beneficiary) then
    match status with
    | StatusFree => unreserve slashed value
    | StatusReserved => r ← gets (reserved_balance slashed); mret (saturating_sub bits value r)
    end
  else
    p ← try_mutate_account_with_dust (A := Z * DustCleaner) dispatch_error beneficiary (fun to_account is_new =>
      _ ← lift (ensure (negb is_new) (Module DeadAccount));
      q ← try_mutate_account_with_dust (A := Z * AccountData) dispatch_error slashed (fun from_account _ =>
        let actual := Z.min (reserved from_account) value in
        _ ← lift (ensure (best_effort || (actual =? value)) (Module InsufficientBalance));
        to_account ← lift
          (match status with
           | StatusFree =>
             f ← ok_or (checked_add bits (free to_account) actual) (Arithmetic OverflowError);
             Ok (with_free f to_account)
           | StatusReserved =>
             r ← ok_or (checked_add bits (reserved to_account) actual) (Arithmetic OverflowError);
             Ok (with_reserved r to_account)
           end);
        from_reserved ← lift (usub bits (reserved from_account) actual);
        mret (with_reserved from_reserved from_account, (actual, to_account)));
      mret (q.1.2, (q.1.1, q.2)));
    let '((actual, one_dust), other_dust) := p in
    _ ← emit (ReserveRepatriated slashed beneficiary actual status);
    _ ← drop_ (other_dust : DustCleaner);
    _ ← drop_ (one_dust : DustCleaner);
    mret actual.

Definition repatriate_reserved (slashed beneficiary : K) (value : Z) (status : Status) : M St DispatchError Z :=
  actual ← do_transfer_reserved slashed beneficiary value true status;
  mret (saturating_sub bits value actual).

(** ** [NamedReservableCurrency] *)
Definition reserves_of (who : K) (s : St) : list ReserveData := default [] (Reserves s.2.1 !! who).
Definition put_reserves {E} (who : K) (o : option (list ReserveData)) : M St E unit :=
  modify (fun s => set_reserves (partial_alter (fun _ => o) who (Reserves s.2.1)) s).

(** [binary_search_by_key]: the index of the entry, or where to insert it.  On
    a vector sorted by id, which the operations keep, the binary search of the
    standard library finds the same index as this scan. *)
Fixpoint search_reserve (id : Z) (i : nat) (l : list ReserveData) : nat + nat :=
  match l with
  | [] => inr i
  | d :: l =>
    if reserve_id d =? id then inl i
    else if id <? reserve_id d then inr i
    else search_reserve id (S i) l
  end.

Definition amount_at {E} (index : nat) (l : list ReserveData) : res E Z :=
  d ← expect (l !! index); Ok (reserve_amount d).
Definition set_amount (index : nat) (amount : Z) (l : list ReserveData) : list ReserveData :=
  alter (fun d => mkReserve (reserve_id d) amount) index l.

(** [BoundedVec::try_insert] *)
Definition try_insert (index : nat) (d : ReserveData) (l : list ReserveData) : res DispatchError (list ReserveData) :=
  if (length l <? MaxReserves)%nat then Ok (take index l ++ d :: drop index l) else Err (Module TooManyReserves).

Definition reserved_balance_named (id : Z) (who : K) (s : St) : Z :=
  let l := reserves_of who s in
  match search_reserve id 0 l with
  | inl index => default 0 (reserve_amount <$> l !! index)
  | inr _ => 0
  end.

Definition reserve_named (id : Z) (who : K) (value : Z) : M St DispatchError unit :=
  if value =? 0 then mret tt
  else
    l ← gets (reserves_of who);
    l ← (match search_reserve id 0 l with
         | inl index => a ← lift (amount_at index l); mret (set_amount index (saturating_add bits a value) l)
         | inr index => lift (try_insert index (mkReserve id value) l)
         end);
    _ ← reserve who value;
    put_reserves who (Some l).

Definition unreserve_named {E} (id : Z) (who : K) (value : Z) : M St E Z :=
  if value =? 0 then mret 0
  else
    maybe_reserves ← gets (fun s => Reserves s.2.1 !! who);
    p ← (match maybe_reserves with
         | Some l =>
           match search_reserve id 0 l with
           | inl index =>
             a ← lift (amount_at index l);
             let to_change := Z.min a value in
             remain ← unreserve who to_change;
             let actual := saturating_sub bits to_change remain in
             a' ← lift (usub bits a actual);
             let l' := set_amount index a' l in
             let maybe_reserves :=
               if a' =? 0 then if (length l' =? 1)%nat then None else Some (delete index l') else Some l' in
             rest ← lift (usub bits value actual);
             mret (maybe_reserves, rest)
           | inr _ => mret (Some l, value)
           end
         | None => mret (None, value)
         end);
    _ ← put_reserves who p.1;
    mret p.2.

Definition slash_reserved_named {E} (id : Z) (who : K) (value : Z) : M St E (NegativeImbalance * Z) :=
  if value =? 0 then mret (Negative 0, 0)
  else
    l ← gets (reserves_of who);
    p ← (match search_reserve id 0 l with
         | inl index =>
           a ← lift (amount_at index l);
           let to_change := Z.min a value in
           q ← slash_reserved who to_change;
           let actual := saturating_sub bits to_change q.2 in
           a' ← lift (usub bits a actual);
           rest ← lift (usub bits value actual);
           mret (set_amount index a' l, (q.1, rest))
         | inr _ => mret (l, (Negative 0, value))
         end);
    _ ← put_reserves who (Some p.1);
    mret p.2.

(** The reserve of the beneficiary under the same id. *)
Definition repatriate_to_named (id : Z) (slashed beneficiary : K) (to_change : Z) (status : Status) :
    M St DispatchError Z :=
  l ← gets (reserves_of beneficiary);
  p ← (match search_reserve id 0 l with
       | inl index =>
         remain ← repatriate_reserved slashed beneficiary to_change status;
         let actual := saturating_sub bits to_change remain in
         a ← lift (amount_at index l);
         mret (set_amount index (saturating_add bits a actual) l, actual)
       | inr index =>
         remain ← repatriate_reserved slashed beneficiary to_change status;
         let actual := saturating_sub bits to_change remain in
         l' ← lift (try_insert index (mkReserve id actual) l);
         mret (l', actual)
       end);
  _ ← put_reserves beneficiary (Some p.1);
  mret p.2.

Definition repatriate_reserved_named (id : Z) (slashed beneficiary : K) (value : Z) (status : Status) :
    M St DispatchError Z :=
  if value =? 0 then mret 0
  else if decide (slashed = beneficiary) then
    match status with
    | StatusFree => unreserve_named id slashed value
    | StatusReserved => r ← gets (reserved_balance_named id slashed); mret (saturating_sub bits value r)
    end
  else
    l ← gets (reserves_of slashed);
    p ← (match search_reserve id 0 l with
         | inl index =>
           a ← lift (amount_at index l);
           let to_change := Z.min a value in
           actual ← (match status with
                     | StatusReserved => repatriate_to_named id slashed beneficiary to_change status
                     | StatusFree =>
                       remain ← repatriate_reserved slashed beneficiary to_change status;
                       mret (saturating_sub bits to_change remain)
                     end);
           a' ← lift (usub bits a actual);
           rest ← lift (usub bits value actual);
           mret (set_amount index a' l, rest)
         | inr _ => mret (l, value)
         end);
    _ ← put_reserves slashed (Some p.1);
    mret p.2.

(** ** The fungible traits *)
Definition reducible_balance {E} (who : K) (keep_alive : bool) : M St E Z :=
  a ← gets (account who);
  let liquid := saturating_sub bits (free a) (Z.max (fee_frozen a) (misc_frozen a)) in
  can ← gets (can_dec_provider who);
  if can && negb keep_alive then mret liquid
  else
    d ← lift (usub bits (total a) liquid);
    let must_remain_to_exist := saturating_sub bits ExistentialDeposit d in
    mret (saturating_sub bits liquid must_remain_to_exist).

Definition can_deposit (who : K) (amount : Z) (s : St) : DepositConsequence :=
  deposit_consequence amount (account who s) s.
Definition can_withdraw (who : K) (amount : Z) (s : St) : WithdrawConsequence :=
  withdraw_consequence who amount (account who s) s.

Definition mint_into (who : K) (amount : Z) : M St DispatchError unit :=
  if amount =? 0 then mret tt
  else
    _ ← try_mutate_account dispatch_error who (fun account _ =>
      c ← gets (deposit_consequence amount account);
      _ ← lift (deposit_into_result c);
      f ← lift (uadd bits (free account) amount);
      mret (with_free f account, tt));
    t ← gets issuance;
    t' ← lift (uadd bits t amount);
    modify (set_issuance t').

Definition burn_closure (who : K) (amount : Z) (account : AccountData) : M St DispatchError (AccountData * Z) :=
  c ← gets (withdraw_consequence who amount account);
  extra ← lift (withdraw_into_result c);
  actual ← lift (uadd bits amount extra);
  f ← lift (usub bits (free account) actual);
  mret (with_free f account, actual).

Definition burn_from (who : K) (amount : Z) : M St DispatchError Z :=
  if amount =? 0 then mret 0
  else
    actual ← try_mutate_account dispatch_error who (fun account _ => burn_closure who amount account);
    t ← gets issuance;
    t' ← lift (usub bits t actual);
    _ ← modify (set_issuance t');
    mret actual.

Definition fungible_transfer (source dest : K) (amount : Z) (keep_alive : bool) : M St DispatchError Z :=
  _ ← transfer source dest amount (if keep_alive then KeepAlive else AllowDeath);
  mret amount.

Definition fungible_set_balance (who : K) (amount : Z) : M St DispatchError unit :=
  catch (mutate_account who (fun account => mret (with_free amount account, tt)))
    mret (fun e => throw (dispatch_error e)).

Definition set_total_issuance {E} (amount : Z) : M St E unit := modify (set_issuance amount).

Definition can_hold (who : K) (amount : Z) (s : St) : bool :=
  let a := account who s in
  let min_balance := Z.max ExistentialDeposit (frozen a All) in
  match checked_add bits (reserved a) amount with
  | None => false
  | Some _ =>
    match checked_add bits min_balance amount with
    | Some required_free => required_free <=? free a
    | None => false
    end
  end.

Definition hold (who : K) (amount : Z) : M St DispatchError unit :=
  if amount =? 0 then mret tt
  else
    can ← gets (can_reserve who amount);
    _ ← lift (ensure can (Module InsufficientBalance));
    catch (mutate_account who (fun a =>
      f ← lift (usub bits (free a) amount);
      r ← lift (uadd bits (reserved a) amount);
      mret (with_reserved r (with_free f a), tt)))
      mret (fun e => throw (dispatch_error e)).

Definition release (who : K) (amount : Z) (best_effort : bool) : M St DispatchError Z :=
  if amount =? 0 then mret amount
  else
    try_mutate_account dispatch_error who (fun a _ =>
      let new_free := saturating_add bits (free a) (Z.min amount (reserved a)) in
      actual ← lift (usub bits new_free (free a));
      _ ← lift (ensure (best_effort || (actual =? amount)) (Module InsufficientBalance));
      mret (with_reserved (saturating_sub bits (reserved a) actual) (with_free new_free a), actual)).

Definition transfer_held (source dest : K) (amount : Z) (best_effort on_hold : bool) : M St DispatchError Z :=
  do_transfer_reserved source dest amount best_effort (if on_hold then StatusReserved else StatusFree).

(** ** Genesis *)
Definition genesis_build {E} (balances : list (K * Z)) : M St E unit :=
  t ← lift (foldl (fun acc p => a ← acc; uadd bits a p.2) (Ok 0) balances);
  _ ← modify (set_issuance t);
  _ ← lift (assert_ (forallb (fun p => ExistentialDeposit <=? p.2) balances));
  _ ← lift (assert_ (size (list_to_set balances.*1 : gset K) =? length balances)%nat);
  for_each (fun p =>
    r ← attempt (StoredMap_insert from_system p.1 (mkAccountData p.2 0 0 0));
    lift (assert_ (match r with inl _ => true | inr _ => false end))) balances.

(** ** Calls *)
Inductive Origin : Type := Root | Signed (who : K) | Unsigned.

Definition ensure_signed (o : Origin) : res DispatchError K :=
  match o with Signed who => Ok who | _ => Err BadOrigin end.
Definition ensure_root (o : Origin) : res DispatchError unit :=
  match o with Root => Ok tt | _ => Err BadOrigin end.

Section calls.
Context {Source : Type} (lookup : Source -> St -> option K).

Definition lookup_account (who : Source) : M St DispatchError K :=
  o ← gets (lookup who); lift (ok_or o CannotLookup).

Definition call_transfer (origin : Origin) (dest : Source) (value : Z) : M St DispatchError unit :=
  transactor ← lift (ensure_signed origin);
  dest ← lookup_account dest;
  transfer transactor dest value AllowDeath.

(** The imbalance of each change is dropped at once. *)
Definition call_set_balance (origin : Origin) (who : Source) (new_free new_reserved : Z) : M St DispatchError unit :=
  _ ← lift (ensure_root origin);
  who ← lookup_account who;
  let existential_deposit := ExistentialDeposit in
  t ← lift (uadd bits new_free new_reserved);
  let wipeout := t <? existential_deposit in
  let new_free := if wipeout then 0 else new_free in
  let new_reserved := if wipeout then 0 else new_reserved in
  p ← catch (mutate_account who (fun account =>
    _ ← (if free account <? new_free then d ← lift (usub bits new_free (free account)); drop_ (Positive d)
         else if new_free <? free account then d ← lift (usub bits (free account) new_free); drop_ (Negative d)
         else mret tt);
    _ ← (if reserved account <? new_reserved then d ← lift (usub bits new_reserved (reserved account)); drop_ (Positive d)
         else if new_reserved <? reserved account then d ← lift (usub bits (reserved account) new_reserved); drop_ (Negative d)
         else mret tt);
    mret (with_reserved new_reserved (with_free new_free account), (new_free, new_reserved))))
    mret (fun e => throw (dispatch_error e));
  emit (BalanceSet who p.1 p.2).

Definition call_force_transfer (origin : Origin) (source dest : Source) (value : Z) : M St DispatchError unit :=
  _ ← lift (ensure_root origin);
  source ← lookup_account source;
  dest ← lookup_account dest;
  transfer source dest value AllowDeath.

Definition call_transfer_keep_alive (origin : Origin) (dest : Source) (value : Z) : M St DispatchError unit :=
  transactor ← lift (ensure_signed origin);
  dest ← lookup_account dest;
  transfer transactor dest value KeepAlive.

Definition call_transfer_all (origin : Origin) (dest : Source) (keep_alive : bool) : M St DispatchError unit :=
  transactor ← lift (ensure_signed origin);
  reducible_balance ← reducible_balance transactor keep_alive;
  dest ← lookup_account dest;
  transfer transactor dest reducible_balance (if keep_alive then KeepAlive else AllowDeath).
End calls.
End balances.
