(* ===== verification/BalancesInv.v ===== *)
(** * Invariants and specifications of the balances pallet

    The existential-deposit law, the equation between the total issuance, the
    balances of all accounts and the outstanding imbalances, and the
    behaviour of the operations of module Balances on every branch. *)

From Stdlib Require Import ZArith Lia.
From stdpp Require Import gmap option list.
From S2P Require Import Prelude System Balances.

Local Open Scope Z_scope.

(** ** The sum of all balances *)
Definition tot (d : AccountData) : Z := free d + reserved d.

Section sum.
Context {K : Type} `{Countable K}.

Definition sum_balances (m : gmap K (AccountInfo AccountData)) : Z :=
  map_fold (fun _ a z => tot (data a) + z) 0 m.

Definition tot_at (k : K) (m : gmap K (AccountInfo AccountData)) : Z :=
  tot (default dflt (data <$> m !! k)).

Lemma sum_balances_delete k m : sum_balances m = tot_at k m + sum_balances (delete k m).
Proof.
  unfold tot_at. destruct (m !! k) as [a|] eqn:Hk; simpl.
  - unfold sum_balances. rewrite (map_fold_delete_L (fun _ a z => tot (data a) + z) 0 k a m); [done| |done]. intros. lia.
  - by rewrite delete_id.
Qed.

Lemma sum_balances_update k o m :
  sum_balances (partial_alter (fun _ => o) k m) = sum_balances m - tot_at k m + tot (default dflt (data <$> o)).
Proof.
  rewrite (sum_balances_delete k (partial_alter _ _ _)), (sum_balances_delete k m).
  assert (delete k (partial_alter (fun _ => o) k m) = delete k m) as ->.
  { apply map_eq. intros i. destruct (decide (i = k)) as [->|]; [by rewrite !lookup_delete_eq|].
    by rewrite !lookup_delete_ne, lookup_partial_alter_ne. }
  unfold tot_at at 1. rewrite lookup_partial_alter_eq. lia.
Qed.

Lemma sum_balances_nonneg m :
  (forall k a, m !! k = Some a -> 0 <= tot (data a)) -> 0 <= sum_balances m.
Proof.
  unfold sum_balances. induction m as [|k a m Hk Hfirst IH] using map_first_key_ind; intros Hm; [by rewrite map_fold_empty|].
  rewrite map_fold_insert_first_key by done.
  assert (0 <= tot (data a)) by (apply (Hm k); apply lookup_insert_eq).
  enough (0 <= map_fold (fun _ a z => tot (data a) + z) 0 m) by lia.
  apply IH. intros k' a' Hk'. apply (Hm k'). rewrite lookup_insert_ne; [done|]. intros ->. congruence.
Qed.

Lemma sum_balances_at m k :
  (forall k a, m !! k = Some a -> 0 <= tot (data a)) -> tot_at k m <= sum_balances m.
Proof.
  intros Hm. rewrite (sum_balances_delete k). enough (0 <= sum_balances (delete k m)) by lia.
  apply sum_balances_nonneg. intros k' a [_ Hk']%lookup_delete_Some. by eapply Hm.
Qed.

(** Two accounts are two parts of the sum. *)
Lemma sum_balances_at2 m k k' : k <> k' ->
  (forall k a, m !! k = Some a -> 0 <= tot (data a)) -> tot_at k m + tot_at k' m <= sum_balances m.
Proof.
  intros Hne Hm. rewrite (sum_balances_delete k).
  assert (tot_at k' (delete k m) <= sum_balances (delete k m)) as Hle.
  { apply sum_balances_at. intros i a [_ Hi]%lookup_delete_Some. by eapply Hm. }
  unfold tot_at in Hle at 1. rewrite lookup_delete_ne in Hle by done. unfold tot_at. unfold tot_at in Hle. lia.
Qed.
End sum.

Section inv.
Context {K : Type} `{Countable K} {Ev R : Type} `{OC : OverflowChecks} `{Cfg : Config}.
Context (from_system : SystemEvent K -> Ev) (from_balances : Event K -> Ev).
Context (ED_pos : 0 < ExistentialDeposit) (ED_bits : is_u bits ExistentialDeposit).
Abbreviation St := (St (K := K) (Ev := Ev) (R := R)).
Implicit Types (s : St) (who k : K) (d : AccountData) (o : option (AccountInfo AccountData)).

#[local] Hint Extern 0 (Drop _ DustCleaner) => exact (DustCleaner_drop from_balances) : typeclass_instances.

(** ** Storing account data *)
Lemma store_data_spec o (d : option AccountData) o' :
  let a := default AccountInfo_default o in
  let a' := default AccountInfo_default o' in
  refs_ok a -> (data a <> dflt -> 0 < providers a) -> store_data o d = Some o' ->
  data a' = default dflt d /\ consumers a' = consumers a /\ refs_ok a' /\ (data a' <> dflt -> 0 < providers a').
Proof.
  intros a a' Hok Hprov. unfold store_data. fold a. destruct (is_providing (data a)) eqn:Hp, d as [d|].
  - intros [= <-]. unfold a'. simpl. split_and!; [done..|]. intros _. apply Hprov. intros Heq.
    unfold is_providing in Hp. rewrite bool_decide_true in Hp; done.
  - pose proof (dec_provider_of_ok a Hok) as Hdec.
    destruct (dec_provider_of a) as [[b|]|] eqn:Hd; simpl; intros [= <-]; unfold a'; simpl.
    + assert (consumers b = consumers a) as Hcb.
      { unfold dec_provider_of in Hd. destruct (providers a =? 0); simpl in Hd; case_ifs; done. }
      split_and!; [done..|]. by intros [].
    + split_and!; [done..| |by intros []]. apply default_refs_ok.
  - intros [= <-]. unfold a'. simpl. pose proof (inc_provider_of_ok a Hok) as Hinc.
    assert (consumers (inc_provider_of a) = consumers a) as Hc by (unfold inc_provider_of; by destruct (_ && _)).
    split_and!; [done..|]. intros _. simpl. unfold inc_provider_of.
    destruct Hok as (_ & Hpr & _ & _). destruct (saturating_succ _ Hpr). destruct (_ && _); simpl; lia.
  - intros [= <-]. unfold a'. fold a. split_and!; [|done..]. simpl. unfold is_providing in Hp. case_bool_decide; done.
Qed.

(** The map refuses only to remove the last provider of a consumed account. *)
Lemma store_data_None o (d : option AccountData) :
  let a := default AccountInfo_default o in
  refs_ok a ->
  store_data o d = None <-> d = None /\ data a <> dflt /\ 0 < consumers a /\ providers a <= 1.
Proof.
  intros a (Hc & Hp & Hs & Hcp). unfold store_data. fold a. unfold is_providing, is_u in *.
  case_bool_decide as Hd; simpl; destruct d as [d|]; try (split; [done|naive_solver]).
  unfold dec_provider_of. destruct (Z.eqb_spec (providers a) 0); simpl;
    destruct (Z.eqb_spec (consumers a) 0), (Z.eqb_spec (providers a) 1), (Z.eqb_spec (sufficients a) 0); simpl; try lia;
    destruct (Z.ltb_spec 0 (consumers a)); simpl; split; (done || naive_solver lia).
Qed.

(** The data of [who] becomes [d] and the storage of the other pallets [rest];
    nothing else changes but the event log and the provider counter of [who]. *)
Record stored who d (rest : Balances K * R) s s' : Prop := {
  stored_data : account who s' = d;
  stored_other : forall k, k <> who -> accounts s'.1 !! k = accounts s.1 !! k;
  stored_rest : s'.2 = rest;
  stored_refs : refs_ok (Account_get who s');
  stored_prov : d <> dflt -> 0 < providers (Account_get who s');
  stored_cons : consumers (Account_get who s') = consumers (Account_get who s) }.

Lemma stored_consumers who d rest s s' k : stored who d rest s s' ->
  consumers (Account_get k s') = consumers (Account_get k s).
Proof.
  intros Hst. destruct (decide (k = who)) as [->|Hne]; [by apply Hst|].
  unfold Account_get. by rewrite (stored_other _ _ _ _ _ Hst).
Qed.

(** What an account becomes after a mutation, and the dust it leaves. *)
Definition kept d : AccountData := if total d <? ExistentialDeposit then dflt else d.
Definition dust d : Z := if total d <? ExistentialDeposit then total d else 0.

Definition cleaner who d : DustCleaner (K := K) :=
  if (total d <? ExistentialDeposit) && negb (total d =? 0) then Some (who, Negative (total d)) else None.

Definition account_ok who s : Prop :=
  refs_ok (Account_get who s) /\ (account who s <> dflt -> 0 < providers (Account_get who s)).

(** The mutation is refused: the account would die while it is consumed. *)
Definition refused who d s : bool :=
  (total d <? ExistentialDeposit) && is_providing (account who s) && negb (can_dec_provider who s).

(** The result the closure leaves behind when the mutation is refused. *)
Definition leftover {A} (is_new : bool) d (r : A) : option Z * option NegativeImbalance * A :=
  (if is_new then Some (free d) else None, (post_mutation d).2, r).

Lemma refused_iff who d s : refs_ok (Account_get who s) ->
  refused who d s = bool_decide (store_data (accounts s.1 !! who) (post_mutation d).1 = None).
Proof.
  intros Hrefs. pose proof (store_data_None (accounts s.1 !! who) (post_mutation d).1 Hrefs) as Hnone.
  change (default AccountInfo_default (accounts s.1 !! who)) with (Account_get who s) in Hnone.
  destruct Hrefs as (Hc & Hp & _ & _). unfold is_u in *.
  apply eq_bool_prop_intro. rewrite bool_decide_spec, Hnone. unfold refused, is_providing, can_dec_provider, post_mutation.
  rewrite !andb_True, !negb_True, !orb_True, !Is_true_true, bool_decide_eq_true, Z.ltb_lt, Z.eqb_eq, Z.ltb_lt.
  fold (account who s). change (data (Account_get who s)) with (account who s).
  destruct (Z.ltb_spec (total d) ExistentialDeposit); [destruct (total d =? 0)|]; simpl; naive_solver lia.
Qed.

Lemma try_mutate_run {E A} `{Drop St A} (from_error : StoredMapError -> E) who
    (f : AccountData -> bool -> M St E (AccountData * A)) s s1 d r :
  account_ok who s ->
  f (account who s) (negb (is_providing (account who s))) s = (s1, Ok (d, r)) ->
  accounts s1.1 !! who = accounts s.1 !! who ->
  if refused who d s
  then try_mutate_account_with_dust from_system from_balances from_error who f s =
    (drop_value (leftover (negb (is_providing (account who s))) d r) s1, Err (from_error ConsumerRemaining))
  else exists s2, try_mutate_account_with_dust from_system from_balances from_error who f s = (s2, Ok (r, cleaner who d)) /\
    stored who (kept d) s1.2 s1 s2.
Proof.
  intros [Hrefs Hprov] Hf Hsame. unfold try_mutate_account_with_dust.
  match goal with |- context [StoredMap_try_mutate_exists _ _ _ ?g] => set (g0 := g) end.
  set (is_new := negb (is_providing (account who s))) in *.
  assert (g0 (if is_providing (account who s) then Some (account who s) else None) s =
    (s1, Ok ((post_mutation d).1, leftover is_new d r))) as Hg.
  { unfold g0, leftover, mbind, M_mbind, is_new in *. destruct (is_providing (account who s)) eqn:Hp; simpl in *.
    - change (bool_decide (Some (account who s) = None)) with false. rewrite Hf. by destruct (post_mutation d).
    - change (bool_decide (None = None)) with true.
      assert (account who s = dflt) as Hd by (unfold is_providing in Hp; case_bool_decide; done).
      rewrite Hd in Hf. rewrite Hf. by destruct (post_mutation d). }
  pose proof (StoredMap_run from_system from_error who g0 s s1 _ _ Hg Hsame (proj1 (proj2 Hrefs))) as Hrun.
  pose proof (store_data_None (accounts s.1 !! who) (post_mutation d).1 Hrefs) as Hnone.
  pose proof (store_data_spec (accounts s.1 !! who) (post_mutation d).1) as Hspec.
  assert (refused who d s = bool_decide (store_data (accounts s.1 !! who) (post_mutation d).1 = None)) as ->.
  { apply refused_iff; done. }
  destruct (store_data (accounts s.1 !! who) (post_mutation d).1) as [o'|] eqn:Hst; [rewrite bool_decide_false by done|rewrite bool_decide_true by done].
  - destruct Hrun as (s2 & Hr & Hs2). destruct (Hspec o' Hrefs Hprov eq_refl) as (H1 & H2 & H3 & H4).
    assert (forall s3, same_storage s3 s2 -> stored who (kept d) s1.2 s1 s3) as Hstored.
    { intros s3 Hs3. pose proof (transitivity Hs3 Hs2) as [Ha Hrest]. simpl in Ha, Hrest.
      assert (Account_get who s3 = default AccountInfo_default o') as Hget.
      { unfold Account_get. by rewrite Ha, lookup_partial_alter_eq. }
      assert (data (Account_get who s3) = kept d) as Hdata.
      { rewrite Hget, H1. unfold kept, post_mutation. destruct (total d <? _); [by destruct (total d =? 0)|done]. }
      split; [done| |done|by rewrite Hget| |].
      - intros k Hk. rewrite Ha. by rewrite lookup_partial_alter_ne.
      - intros Hne. rewrite Hget in *. apply H4. by rewrite Hdata.
      - rewrite Hget, H2. unfold Account_get. by rewrite Hsame. }
    unfold mbind, M_mbind. rewrite Hr. unfold leftover.
    assert ((fun dust => (who, dust)) <$> (post_mutation d).2 = cleaner who d) as ->.
    { unfold post_mutation, cleaner. destruct (total d <? _); [by destruct (total d =? 0)|done]. }
    destruct is_new; [|eexists; by split; [|apply Hstored]].
    destruct (deposit_event_same (E := E) (from_balances (Endowed who (free d))) s2) as (s3 & He & Hs3).
    unfold emit. rewrite He. eexists. split; [done|]. by apply Hstored.
  - unfold mbind, M_mbind. by rewrite Hrun.
Qed.

Definition with_issuance (t : Z) s : Balances K * R := (set_issuance t s).2.

Lemma drop_cleaner who d s : is_u bits (issuance s) ->
  accounts (drop_value (cleaner who d) s).1 = accounts s.1 /\
  (drop_value (cleaner who d) s).2 = with_issuance (saturating_sub bits (issuance s) (dust d)) s.
Proof.
  intros Hi. unfold cleaner, dust, drop_value, DustCleaner_drop, with_issuance.
  assert (saturating_sub bits (issuance s) 0 = issuance s) as H0.
  { unfold saturating_sub. rewrite Z.sub_0_r. by apply saturating_id. }
  destruct (total d <? _); cbn [andb negb]; [destruct (Z.eqb_spec (total d) 0) as [->|]; cbn [andb negb]|].
  - rewrite H0. split; [done|]. by destruct s as [? [[] ?]].
  - destruct (deposit_event_same (E := unit) (from_balances (DustLost who (total d))) s) as (s' & He & Ha & Hr).
    unfold emit. cbn [negative]. rewrite He. unfold on_unbalanced, drop_value, NegativeImbalance_drop, set_issuance, issuance.
    simpl. split; [done|]. by rewrite Hr.
  - rewrite H0. split; [done|]. by destruct s as [? [[] ?]].
Qed.

Lemma stored_drop who d rest rest' s s1 s2 :
  stored who d rest s s1 -> accounts s2.1 = accounts s1.1 -> s2.2 = rest' -> stored who d rest' s s2.
Proof.
  intros [Hd Ho Hr Hrefs Hp Hc] Ha H2.
  assert (Account_get who s2 = Account_get who s1) as Hget by (unfold Account_get; by rewrite Ha).
  split; rewrite ?Hget; try done.
  - unfold account, StoredMap_get. by rewrite Hget.
  - intros k Hk. rewrite Ha. auto.
Qed.

(** [try_mutate_account]: as above, and the dust is gone from the issuance. *)
Lemma try_mutate_account_run {E A} `{Drop St A} (from_error : StoredMapError -> E) who
    (f : AccountData -> bool -> M St E (AccountData * A)) s s1 d r :
  account_ok who s ->
  f (account who s) (negb (is_providing (account who s))) s = (s1, Ok (d, r)) ->
  accounts s1.1 !! who = accounts s.1 !! who -> is_u bits (issuance s1) ->
  if refused who d s
  then try_mutate_account from_system from_balances from_error who f s =
    (drop_value (leftover (negb (is_providing (account who s))) d r) s1, Err (from_error ConsumerRemaining))
  else exists s2, try_mutate_account from_system from_balances from_error who f s = (s2, Ok r) /\
    stored who (kept d) (with_issuance (saturating_sub bits (issuance s1) (dust d)) s1) s1 s2.
Proof.
  intros Hok Hf Hsame Hi. pose proof (try_mutate_run from_error who f s s1 d r Hok Hf Hsame) as Hrun.
  unfold try_mutate_account, mbind, M_mbind. destruct (refused who d s); [by rewrite Hrun|].
  destruct Hrun as (s2 & -> & Hst). unfold drop_, modify. eexists. split; [reflexivity|]. simpl.
  pose proof (stored_rest _ _ _ _ _ Hst) as Hr2. assert (issuance s2 = issuance s1) as Hi2 by (unfold issuance; by rewrite Hr2).
  destruct (drop_cleaner who d s2) as [Ha Hrest]; [by rewrite Hi2|].
  eapply stored_drop; [exact Hst|exact Ha|]. rewrite Hrest, Hi2. unfold with_issuance, set_issuance. simpl. by rewrite Hr2.
Qed.

Lemma try_mutate_account_err {E A} `{Drop St A} (from_error : StoredMapError -> E) who
    (f : AccountData -> bool -> M St E (AccountData * A)) s s1 e :
  f (account who s) (negb (is_providing (account who s))) s = (s1, Err e) ->
  try_mutate_account_with_dust from_system from_balances from_error who f s = (s1, Err e) /\
  try_mutate_account from_system from_balances from_error who f s = (s1, Err e).
Proof.
  intros Hf.
  assert (try_mutate_account_with_dust from_system from_balances from_error who f s = (s1, Err e)) as Hd.
  { unfold try_mutate_account_with_dust, StoredMap_try_mutate_exists, mbind, M_mbind, gets.
    change (data (Account_get who s)) with (account who s). destruct (is_providing (account who s)) eqn:Hp; simpl in *.
    - change (bool_decide (Some (account who s) = None)) with false. by rewrite Hf.
    - change (bool_decide (None = None)) with true.
      assert (account who s = dflt) as Hd by (unfold is_providing in Hp; case_bool_decide; done).
      rewrite Hd in Hf. by rewrite Hf. }
  split; [done|]. unfold try_mutate_account, mbind, M_mbind. by rewrite Hd.
Qed.

(** ** The invariant *)
Definition data_ok d : Prop :=
  is_u bits (free d) /\ is_u bits (reserved d) /\ is_u bits (misc_frozen d) /\ is_u bits (fee_frozen d) /\
  (d = dflt \/ ExistentialDeposit <= tot d).

Definition info_ok (a : AccountInfo AccountData) : Prop :=
  refs_ok a /\ (data a <> dflt -> 0 < providers a) /\ data_ok (data a).

(** [x] is the amount of the outstanding negative imbalances less that of the
    outstanding positive ones. *)
Record inv (x : Z) s : Prop := {
  inv_info : forall k a, accounts s.1 !! k = Some a -> info_ok a;
  inv_sum : sum_balances (accounts s.1) <= u_max bits;
  inv_issuance : issuance s = sum_balances (accounts s.1) + x;
  inv_issuance_u : is_u bits (issuance s) }.

Lemma default_info_ok : info_ok AccountInfo_default.
Proof. split_and!; [apply default_refs_ok|done|]. unfold data_ok, is_u, bits. simpl. split_and!; try lia. by left. Qed.

Section with_inv.
Context {x : Z} {s : St} (I : inv x s).

Lemma inv_get who : info_ok (Account_get who s).
Proof.
  unfold Account_get. destruct (accounts s.1 !! who) as [a|] eqn:Ha; [by eapply inv_info|apply default_info_ok].
Qed.

Lemma inv_account_ok who : account_ok who s.
Proof. destruct (inv_get who) as (H1 & H2 & _). by split. Qed.

Lemma inv_data who : data_ok (account who s).
Proof. by destruct (inv_get who) as (_ & _ & H3). Qed.

Lemma tot_at_account who : tot_at who (accounts s.1) = tot (account who s).
Proof. unfold tot_at, account, StoredMap_get, Account_get. by destruct (accounts s.1 !! who). Qed.

Lemma inv_tot_nonneg k a : accounts s.1 !! k = Some a -> 0 <= tot (data a).
Proof. intros Ha. destruct (inv_info _ _ I _ _ Ha) as (_ & _ & Hf & Hr & _). unfold tot, is_u in *. lia. Qed.

Lemma inv_tot who : 0 <= tot (account who s) <= sum_balances (accounts s.1).
Proof.
  rewrite <-tot_at_account. split; [|apply sum_balances_at, inv_tot_nonneg].
  rewrite tot_at_account. destruct (inv_data who) as (Hf & Hr & _). unfold tot, is_u in *. lia.
Qed.

Lemma inv_tot2 k k' : k <> k' -> tot (account k s) + tot (account k' s) <= sum_balances (accounts s.1).
Proof. intros Hne. rewrite <-!tot_at_account. apply sum_balances_at2; [done|apply inv_tot_nonneg]. Qed.

Lemma inv_total who : total (account who s) = tot (account who s).
Proof.
  pose proof (inv_tot who). pose proof (inv_sum _ _ I). unfold total, tot in *.
  apply saturating_id. unfold is_u, u_max in *. lia.
Qed.

Lemma inv_refs : refs_inv s.
Proof. intros k a Ha. by destruct (inv_info _ _ I _ _ Ha). Qed.
End with_inv.

(** The part of [data_ok] that does not speak about the deposit. *)
Definition fields_ok d : Prop :=
  is_u bits (free d) /\ is_u bits (reserved d) /\ is_u bits (misc_frozen d) /\ is_u bits (fee_frozen d).

Lemma total_tot d : fields_ok d -> tot d <= u_max bits -> total d = tot d.
Proof. intros (Hf & Hr & _) Ht. unfold total, saturating_add. apply saturating_id. unfold tot, is_u, u_max in *. lia. Qed.

Lemma kept_ok d : fields_ok d -> tot d <= u_max bits ->
  data_ok (kept d) /\ tot (kept d) = tot d - dust d /\ 0 <= dust d <= tot d.
Proof.
  intros Hd Ht. pose proof (total_tot d Hd Ht) as Htot. destruct Hd as (Hf & Hr & Hm & Hfe).
  unfold kept, dust, data_ok. rewrite Htot. unfold tot, is_u in *.
  destruct (Z.ltb_spec (free d + reserved d) ExistentialDeposit); simpl; unfold is_u, bits in *; split_and!; try lia.
  by left.
Qed.

Lemma kept_alive d : ExistentialDeposit <= total d -> kept d = d /\ dust d = 0.
Proof. intros Hd. unfold kept, dust. by replace (total d <? ExistentialDeposit) with false by lia. Qed.

Lemma sum_stored who d rest s s' : stored who d rest s s' ->
  sum_balances (accounts s'.1) = sum_balances (accounts s.1) - tot (account who s) + tot d.
Proof.
  intros [Hd Ho _ _ _ _].
  assert (accounts s'.1 = partial_alter (fun _ => accounts s'.1 !! who) who (accounts s.1)) as ->.
  { apply map_eq. intros k. destruct (decide (k = who)) as [->|Hk]; [by rewrite lookup_partial_alter_eq|].
    rewrite lookup_partial_alter_ne by done. auto. }
  rewrite sum_balances_update, tot_at_account. do 2 f_equal. rewrite <-Hd.
  unfold account, StoredMap_get, Account_get. by destruct (accounts s'.1 !! who).
Qed.

Lemma inv_stored x x' s s' who d rest :
  inv x s -> stored who d rest s s' -> data_ok d ->
  sum_balances (accounts s.1) - tot (account who s) + tot d <= u_max bits ->
  TotalIssuance rest.1 = sum_balances (accounts s.1) - tot (account who s) + tot d + x' ->
  is_u bits (TotalIssuance rest.1) -> inv x' s'.
Proof.
  intros I Hst Hd Hsum Hiss Hu. pose proof (sum_stored _ _ _ _ _ Hst) as Hs. destruct Hst as [Hdata Ho Hr Hrefs Hp Hc].
  split; rewrite ?Hs; try done.
  - intros k a Hk. destruct (decide (k = who)) as [->|Hne].
    + assert (Account_get who s' = a) as Ha by (unfold Account_get; by rewrite Hk).
      assert (data a = d) as Hda by (rewrite <-Ha; exact Hdata). rewrite Ha in Hrefs, Hp. unfold info_ok. by rewrite Hda.
    + rewrite Ho in Hk by done. by eapply inv_info.
  - unfold issuance. by rewrite Hr.
  - unfold issuance. by rewrite Hr.
Qed.

(** A mutation of one account with fields in range keeps the invariant, with
    the change of its balance as a new imbalance. *)
Lemma inv_mutated x s s' who d :
  inv x s -> fields_ok d -> sum_balances (accounts s.1) - tot (account who s) + tot d <= u_max bits ->
  dust d <= issuance s ->
  stored who (kept d) (with_issuance (saturating_sub bits (issuance s) (dust d)) s) s s' ->
  inv (x + tot (account who s) - tot d) s' /\ issuance s' = issuance s - dust d.
Proof.
  intros I Hd Hsum Hdust Hst. pose proof (inv_tot I who) as Htot. pose proof (inv_issuance_u _ _ I) as Hu.
  destruct (kept_ok d Hd) as (Hok & Hk & Hdu); [lia|].
  assert (saturating_sub bits (issuance s) (dust d) = issuance s - dust d) as Hsat.
  { unfold saturating_sub. apply saturating_id. unfold is_u in *. lia. }
  rewrite Hsat in Hst. split.
  - eapply inv_stored; [exact I|exact Hst|done|rewrite Hk; lia| |].
    + simpl. rewrite (inv_issuance _ _ I), Hk. lia.
    + simpl. unfold is_u in *. lia.
  - unfold issuance at 1. by rewrite (stored_rest _ _ _ _ _ Hst).
Qed.

(** The same for a mutation that does not drop its dust yet. *)
Lemma inv_mutated_dust x s s' who d :
  inv x s -> fields_ok d -> sum_balances (accounts s.1) - tot (account who s) + tot d <= u_max bits ->
  stored who (kept d) s.2 s s' ->
  inv (x + tot (account who s) - tot d + dust d) s' /\ issuance s' = issuance s.
Proof.
  intros I Hd Hsum Hst. pose proof (inv_tot I who) as Htot.
  destruct (kept_ok d Hd) as (Hok & Hk & Hdu); [lia|]. split.
  - eapply inv_stored; [exact I|exact Hst|done|rewrite Hk; lia| |apply I].
    change (TotalIssuance s.2.1) with (issuance s). rewrite (inv_issuance _ _ I), Hk. lia.
  - unfold issuance. by rewrite (stored_rest _ _ _ _ _ Hst).
Qed.

Lemma inv_ext x s s' : inv x s -> accounts s'.1 = accounts s.1 -> issuance s' = issuance s -> inv x s'.
Proof. intros [] Ha Hi. split; rewrite ?Ha, ?Hi; done. Qed.

Lemma inv_drop_cleaner x s who d : inv x s -> 0 <= dust d <= issuance s ->
  inv (x - dust d) (drop_value (cleaner who d) s).
Proof.
  intros I Hd. pose proof (inv_issuance_u _ _ I) as Hu. destruct (drop_cleaner who d s Hu) as [Ha Hr].
  assert (issuance (drop_value (cleaner who d) s) = issuance s - dust d) as Hi.
  { unfold issuance at 1. rewrite Hr. simpl. unfold saturating_sub. apply saturating_id. unfold is_u in *. lia. }
  destruct I as [I1 I2 I3 I4]. split; rewrite ?Ha, ?Hi; [done|done|lia|unfold is_u in *; lia].
Qed.

Lemma account_same k s s' : accounts s'.1 !! k = accounts s.1 !! k -> account k s' = account k s.
Proof. intros Hk. unfold account, StoredMap_get, Account_get. by rewrite Hk. Qed.

(** ** Transfer *)
Abbreviation transfer := (transfer from_system from_balances).

Definition debited (value : Z) d : AccountData := with_free (free d - value) d.
Definition credited (value : Z) d : AccountData := with_free (free d + value) d.

(** The checks of a transfer, in their order. *)
Definition transfer_check (from to : AccountData) (value : Z) (er : ExistenceRequirement) (required : bool) :
    option DispatchError :=
  if free from <? value then Some (Module InsufficientBalance)
  else if u_max bits <? free to + value then Some (Arithmetic OverflowError)
  else if total (credited value to) <? ExistentialDeposit then Some (Module ExistentialDepositError)
  else if free from - value <? misc_frozen from then Some (Module LiquidityRestrictions)
  else if negb (match er with AllowDeath => negb required | KeepAlive => false end)
          && (total (debited value from) <? ExistentialDeposit) then Some (Module KeepAliveError)
  else None.

Lemma transfer_closure_run transactor value er to s :
  fields_ok (account transactor s) -> fields_ok to -> 0 < value -> is_u bits value ->
  transfer_closure transactor value er to (account transactor s) s =
    (s, match transfer_check (account transactor s) to value er (is_provider_required transactor s) with
        | Some e => Err e
        | None => Ok (debited value (account transactor s), credited value to)
        end).
Proof.
  intros (Hf & Hr & Hm & _) (Ht & _) Hv Hvu. set (from := account transactor s) in *.
  unfold transfer_closure, transfer_check, checked_sub, checked_add, debited, credited, mbind, M_mbind, lift.
  destruct (Z.ltb_spec (free from) value) as [Hlt|Hge].
  { replace (checked bits (free from - value)) with (@None Z); [done|]. symmetry. apply checked_None. unfold is_u. lia. }
  rewrite checked_ok by (unfold is_u in *; lia). simpl.
  destruct (Z.ltb_spec (u_max bits) (free to + value)) as [Hov|Hnov].
  { replace (checked bits (free to + value)) with (@None Z); [done|]. symmetry. apply checked_None. unfold is_u, u_max in *. lia. }
  rewrite checked_ok by (unfold is_u, u_max in *; lia). simpl. unfold ensure.
  destruct (Z.ltb_spec (total (with_free (free to + value) to)) ExistentialDeposit) as [Hed|Hed].
  { by replace (ExistentialDeposit <=? _) with false by lia. }
  replace (ExistentialDeposit <=? total (with_free (free to + value) to)) with true by lia.
  unfold ensure_can_withdraw, catch, mbind, M_mbind, gets, lift, ensure. replace (value =? 0) with false by lia.
  change (frozen (account transactor s) (Reasons_from TRANSFER)) with (misc_frozen from).
  destruct (Z.ltb_spec (free from - value) (misc_frozen from)).
  { by replace (misc_frozen from <=? _) with false by lia. }
  replace (misc_frozen from <=? free from - value) with true by lia. simpl.
  replace (match er with KeepAlive => false | AllowDeath => true end && negb (is_provider_required transactor s))
    with (match er with AllowDeath => negb (is_provider_required transactor s) | KeepAlive => false end)
    by (by destruct er).
  destruct (match er with AllowDeath => _ | KeepAlive => _ end); simpl; [done|].
  destruct (Z.ltb_spec (total (with_free (free from - value) from)) ExistentialDeposit).
  - by replace (ExistentialDeposit <=? _) with false by lia.
  - by replace (ExistentialDeposit <=? _) with true by lia.
Qed.

(** The state after a successful transfer. *)
Record transferred (transactor dest : K) (value : Z) s s' : Prop := {
  transferred_from : account transactor s' = kept (debited value (account transactor s));
  transferred_to : account dest s' = credited value (account dest s);
  transferred_other : forall k, k <> transactor -> k <> dest -> accounts s'.1 !! k = accounts s.1 !! k;
  transferred_rest : s'.2 = with_issuance (issuance s - dust (debited value (account transactor s))) s;
  transferred_cons : forall k, consumers (Account_get k s') = consumers (Account_get k s) }.

Lemma data_fields d : data_ok d -> fields_ok d.
Proof. intros (? & ? & ? & ? & _). by split_and!. Qed.

Lemma transfer_check_None from to value er required : transfer_check from to value er required = None ->
  value <= free from /\ free to + value <= u_max bits /\ ExistentialDeposit <= total (credited value to) /\
  misc_frozen from <= free from - value /\
  (total (debited value from) < ExistentialDeposit -> er = AllowDeath /\ required = false).
Proof.
  unfold transfer_check.
  destruct (Z.ltb_spec (free from) value), (Z.ltb_spec (u_max bits) (free to + value)),
    (Z.ltb_spec (total (credited value to)) ExistentialDeposit), (Z.ltb_spec (free from - value) (misc_frozen from)),
    (Z.ltb_spec (total (debited value from)) ExistentialDeposit); try done; destruct er, required; simpl; intros; try done;
    split_and!; (done || lia || (intros; split; (done || lia))).
Qed.

Lemma required_can_dec who s : is_provider_required who s = false -> can_dec_provider who s = true.
Proof. unfold is_provider_required, can_dec_provider. by destruct (consumers (Account_get who s) =? 0). Qed.

Lemma debited_fields value d : fields_ok d -> 0 <= value <= free d -> fields_ok (debited value d).
Proof. intros (Hf & Hr & Hm & Hfe) Hv. split_and!; [|done..]. unfold is_u in *. simpl. lia. Qed.

Lemma credited_fields value d : fields_ok d -> 0 <= value -> free d + value <= u_max bits -> fields_ok (credited value d).
Proof. intros (Hf & Hr & Hm & Hfe) Hv Hle. split_and!; [|done..]. unfold is_u, u_max in *. simpl. lia. Qed.

Lemma tot_debited value d : tot (debited value d) = tot d - value.
Proof. unfold tot. simpl. lia. Qed.

Lemma tot_credited value d : tot (credited value d) = tot d + value.
Proof. unfold tot. simpl. lia. Qed.

(** The two mutations of a transfer and the drop of the sender's dust. *)
Lemma transfer_effect x s s1 s2 s3 transactor dest value :
  let from := account transactor s in
  let to := account dest s in
  inv x s -> 0 <= x -> transactor <> dest -> 0 < value <= free from -> free to + value <= u_max bits ->
  ExistentialDeposit <= total (credited value to) ->
  stored transactor (kept (debited value from)) s.2 s s1 ->
  stored dest (kept (credited value to)) s1.2 s1 s2 ->
  same_storage s3 (drop_value (cleaner transactor (debited value from)) s2) ->
  inv x s3 /\ transferred transactor dest value s s3.
Proof.
  intros from to I Hx Hne Hle Hov Hed Hst1 Hst2 [Ha3 Hr3].
  pose proof (data_fields _ (inv_data I transactor)) as Hff. pose proof (data_fields _ (inv_data I dest)) as Hft.
  pose proof (inv_tot2 I transactor dest Hne) as Hsum. fold from to in Hsum, Hff, Hft. pose proof (inv_sum _ _ I) as Hmax.
  pose proof (inv_issuance _ _ I) as Hiss. pose proof (inv_tot I transactor) as Hft1. fold from in Hft1.
  pose proof (inv_tot I dest) as Htt1. fold to in Htt1.
  pose proof (tot_debited value from) as Htd. pose proof (tot_credited value to) as Htc.
  assert (fields_ok (debited value from)) as Hfd by (apply debited_fields; [done|lia]).
  destruct (kept_ok _ Hfd) as (_ & Hkt & Hdu); [lia|].
  destruct (kept_alive _ Hed) as [Hk2 Hd2].
  destruct (inv_mutated_dust x s s1 transactor _ I Hfd) as [I1 Hi1]; [fold from; lia|done|]. fold from in I1.
  pose proof (sum_stored _ _ _ _ _ Hst1) as Hs1. fold from in Hs1.
  assert (account dest s1 = to) as Hto1 by (apply account_same; by apply (stored_other _ _ _ _ _ Hst1)).
  destruct (inv_mutated_dust _ s1 s2 dest (credited value to) I1) as [I2 Hi2];
    [apply credited_fields; [done|lia..]|rewrite Hto1; lia|done|].
  rewrite Hto1, Hd2 in I2. assert (inv x (drop_value (cleaner transactor (debited value from)) s2)) as I3.
  { replace x with (x + tot from - tot (debited value from) + dust (debited value from) + tot to
      - tot (credited value to) + 0 - dust (debited value from)) by lia.
    apply inv_drop_cleaner; [done|]. lia. }
  destruct (drop_cleaner transactor (debited value from) s2) as [Hda Hdr]; [apply I2|]. rewrite Hda in Ha3.
  split; [eapply inv_ext; [exact I3|by rewrite Ha3|unfold issuance; by rewrite Hr3]|].
  rewrite Hk2 in Hst2. split; fold from to.
  - rewrite <-(stored_data _ _ _ _ _ Hst1). apply account_same. rewrite Ha3. by apply (stored_other _ _ _ _ _ Hst2).
  - rewrite <-(stored_data _ _ _ _ _ Hst2). apply account_same. by rewrite Ha3.
  - intros k Hk Hk'. rewrite Ha3, (stored_other _ _ _ _ _ Hst2) by done. by apply (stored_other _ _ _ _ _ Hst1).
  - rewrite Hr3, Hdr, Hi2, Hi1. unfold with_issuance, set_issuance. simpl.
    rewrite (stored_rest _ _ _ _ _ Hst2), (stored_rest _ _ _ _ _ Hst1). do 3 f_equal.
    unfold saturating_sub. apply saturating_id. pose proof (inv_issuance_u _ _ I). unfold is_u in *. lia.
  - intros k. transitivity (consumers (Account_get k s2)); [unfold Account_get; by rewrite Ha3|].
    rewrite (stored_consumers _ _ _ _ _ k Hst2). by apply (stored_consumers _ _ _ _ _ k Hst1).
Qed.

Lemma transfer_run x s transactor dest value er :
  inv x s -> 0 <= x -> transactor <> dest -> 0 < value -> is_u bits value ->
  match transfer_check (account transactor s) (account dest s) value er (is_provider_required transactor s) with
  | Some e => transfer transactor dest value er s = (s, Err e)
  | None => exists s', transfer transactor dest value er s = (s', Ok tt) /\ inv x s' /\ transferred transactor dest value s s'
  end.
Proof.
  intros I Hx Hne Hv Hvu. set (from := account transactor s). set (to := account dest s).
  pose proof (data_fields _ (inv_data I transactor)) as Hff. pose proof (data_fields _ (inv_data I dest)) as Hft.
  fold from in Hff. fold to in Hft.
  pose proof (transfer_closure_run transactor value er to s Hff Hft Hv Hvu) as Hcl.
  fold from in Hcl. unfold Balances.transfer. replace (value =? 0) with false by lia. rewrite bool_decide_false by done. simpl.
  match goal with |- context [try_mutate_account_with_dust _ _ _ dest ?f] => set (outer := f) end.
  assert (forall b, outer to b = p ← try_mutate_account_with_dust from_system from_balances dispatch_error transactor
    (fun from_account _ => transfer_closure transactor value er to from_account); mret (p.1, p.2)) as Houter by done.
  destruct (transfer_check from to value er (is_provider_required transactor s)) as [e|] eqn:Hck.
  { destruct (try_mutate_account_err dispatch_error transactor
      (fun from_account _ => transfer_closure transactor value er to from_account) s s e Hcl) as [Hin _].
    unfold mbind at 1, M_mbind at 1.
    rewrite (proj1 (try_mutate_account_err dispatch_error dest outer s s e ltac:(rewrite Houter; by apply bind_Err))). done. }
  apply transfer_check_None in Hck as (Hle & Hov & Hed & Hfr & Hdead).
  pose proof (inv_tot2 I transactor dest Hne) as Hsum. fold from to in Hsum. pose proof (inv_sum _ _ I) as Hmax.
  pose proof (try_mutate_run dispatch_error transactor
    (fun from_account _ => transfer_closure transactor value er to from_account) s s _ _ (inv_account_ok I transactor) Hcl eq_refl) as Hin.
  assert (refused transactor (debited value from) s = false) as Hnr1.
  { unfold refused. destruct (Z.ltb_spec (total (debited value from)) ExistentialDeposit) as [Hd|]; [|done].
    destruct (Hdead Hd) as [_ Hreq]. rewrite required_can_dec by done. by rewrite andb_false_r. }
  rewrite Hnr1 in Hin. destruct Hin as (s1 & Hin & Hst1).
  pose proof (stored_other _ _ _ _ _ Hst1 dest (not_eq_sym Hne)) as Hsame.
  pose proof (try_mutate_run dispatch_error dest outer s s1 (credited value to) (cleaner transactor (debited value from))
    (inv_account_ok I dest) ltac:(fold to; rewrite Houter; exact (bind_Ok _ _ _ _ _ Hin)) Hsame) as Hout.
  assert (refused dest (credited value to) s = false) as Hnr2.
  { unfold refused. by replace (total (credited value to) <? ExistentialDeposit) with false by lia. }
  rewrite Hnr2 in Hout. destruct Hout as (s2 & Hout & Hst2).
  assert (cleaner dest (credited value to) = None) as Hnone.
  { unfold cleaner. by replace (total (credited value to) <? ExistentialDeposit) with false by lia. }
  unfold mbind, M_mbind. rewrite Hout. unfold drop_, modify. cbn [fst snd]. rewrite Hnone.
  destruct (deposit_event_same (E := DispatchError) (from_balances (Transfer transactor dest value))
    (drop_value (cleaner transactor (debited value from)) s2)) as (s3 & He & Hs3).
  exists s3. split; [exact He|]. by eapply transfer_effect.
Qed.

Lemma transfer_noop transactor dest value er s : value = 0 \/ transactor = dest ->
  transfer transactor dest value er s = (s, Ok tt).
Proof.
  intros Hno. unfold Balances.transfer. destruct (Z.eqb_spec value 0); [done|]. by rewrite bool_decide_true by tauto.
Qed.

(** C28. [transfer] of any amount between any two accounts, in any state with
    the invariant, for a positive existential deposit and without outstanding
    positive imbalances.  A transfer of nothing or to oneself
    succeeds and changes nothing, whatever the account holds.  Otherwise the
    checks are made in a fixed order; the first that fails is the error, and
    the state is then exactly as before.  If all pass, the value moves from
    one free balance to the other, which leaves the sender's locked part
    alone; a sender left below the existential deposit is reaped and the rest
    of its balance leaves the total issuance; no other account changes, and
    the invariant is kept. *)
Theorem transfer_spec x s transactor dest value er :
  inv x s -> 0 <= x -> is_u bits value ->
  if (value =? 0) || bool_decide (transactor = dest) then transfer transactor dest value er s = (s, Ok tt)
  else
    match transfer_check (account transactor s) (account dest s) value er (is_provider_required transactor s) with
    | Some e => transfer transactor dest value er s = (s, Err e)
    | None => exists s', transfer transactor dest value er s = (s', Ok tt) /\ inv x s' /\ transferred transactor dest value s s'
    end.
Proof.
  intros I Hx Hvu. destruct (Z.eqb_spec value 0) as [Hz|Hz]; [by apply transfer_noop; left|].
  case_bool_decide; [by apply transfer_noop; right|]. apply transfer_run; try done. unfold is_u in *. lia.
Qed.

(** ** Mutations of one account *)
Lemma mutate_spec {E A} `{Drop St A} (from_error : StoredMapError -> E) who
    (f : AccountData -> bool -> M St E (AccountData * A)) x s d r :
  inv x s -> f (account who s) (negb (is_providing (account who s))) s = (s, Ok (d, r)) ->
  fields_ok d -> sum_balances (accounts s.1) - tot (account who s) + tot d <= u_max bits -> dust d <= issuance s ->
  if refused who d s
  then try_mutate_account from_system from_balances from_error who f s =
    (drop_value (leftover (negb (is_providing (account who s))) d r) s, Err (from_error ConsumerRemaining))
  else exists s', try_mutate_account from_system from_balances from_error who f s = (s', Ok r) /\
    inv (x + tot (account who s) - tot d) s' /\
    stored who (kept d) (with_issuance (issuance s - dust d) s) s s'.
Proof.
  intros I Hf Hd Hsum Hdust.
  pose proof (try_mutate_account_run from_error who f s s d r (inv_account_ok I who) Hf eq_refl (inv_issuance_u _ _ I)) as Hrun.
  destruct (refused who d s); [done|]. destruct Hrun as (s' & Hr & Hst). exists s'. split; [done|].
  destruct (inv_mutated x s s' who d I Hd Hsum Hdust Hst) as [I' _]. split; [done|].
  destruct (kept_ok d Hd) as (_ & _ & Hdu); [pose proof (inv_tot I who); lia|].
  replace (issuance s - dust d) with (saturating_sub bits (issuance s) (dust d)); [done|].
  unfold saturating_sub. apply saturating_id. pose proof (inv_issuance_u _ _ I). unfold is_u in *. lia.
Qed.

Lemma not_refused_alive who d s : ExistentialDeposit <= total d -> refused who d s = false.
Proof. intros Hd. unfold refused. by replace (total d <? ExistentialDeposit) with false by lia. Qed.

(** A non-empty account holds at least the existential deposit. *)
Lemma inv_alive x s who : inv x s -> 0 < tot (account who s) -> ExistentialDeposit <= tot (account who s).
Proof.
  intros I Ht. destruct (inv_data I who) as (_ & _ & _ & _ & [Hd|Hd]); [|done]. rewrite Hd in Ht. unfold tot in Ht. simpl in Ht. lia.
Qed.

(** Dropping what a refused closure left: its imbalance and its dust are taken
    from the issuance although the account was not changed. *)
Lemma drop_leftover_negative is_new d v s :
  fields_ok d -> tot d <= u_max bits -> total d < ExistentialDeposit -> 0 <= v -> v + tot d <= issuance s -> is_u bits (issuance s) ->
  let s' := drop_value (leftover is_new d (Negative v)) s in
  accounts s'.1 = accounts s.1 /\ s'.2 = with_issuance (issuance s - (v + tot d)) s.
Proof.
  intros Hd Ht Hed Hv Hle Hu s'. pose proof (total_tot d Hd Ht) as Htot.
  assert (0 <= tot d) by (destruct Hd as (? & ? & _); unfold tot, is_u in *; lia).
  assert (forall z t, 0 <= t <= z -> is_u bits z -> saturating_sub bits z t = z - t) as Hsat.
  { intros z t Hz Hzu. unfold saturating_sub. apply saturating_id. unfold is_u in *. lia. }
  assert (s' = drop_value (Negative v) (drop_value (post_mutation d).2 s)) as ->.
  { unfold s', leftover. by destruct is_new. }
  unfold post_mutation. replace (total d <? ExistentialDeposit) with true by lia. rewrite Htot.
  destruct (Z.eqb_spec (tot d) 0) as [Hz|Hz]; cbn [snd];
    unfold drop_value, drop_option, drop_value, NegativeImbalance_drop, with_issuance, set_issuance, issuance in *; simpl in *;
    (split; [done|]); do 2 f_equal; rewrite ?(Hsat _ (tot d)) by (unfold is_u in *; lia); rewrite Hsat by (unfold is_u in *; lia); lia.
Qed.

(** ** Withdrawal *)
Definition withdraw_check (a : AccountData) (value reasons : Z) (liveness : ExistenceRequirement) : option DispatchError :=
  if free a <? value then Some (Module InsufficientBalance)
  else if match liveness with KeepAlive => tot a - value <? ExistentialDeposit | AllowDeath => false end
  then Some (Module KeepAliveError)
  else if free a - value <? frozen a (Reasons_from reasons) then Some (Module LiquidityRestrictions)
  else None.

Abbreviation withdraw := (withdraw from_system from_balances).

Lemma debited_sum x s who value : inv x s -> 0 <= value <= free (account who s) ->
  fields_ok (debited value (account who s)) /\
  sum_balances (accounts s.1) - tot (account who s) + tot (debited value (account who s)) <= u_max bits /\
  tot (debited value (account who s)) <= u_max bits /\
  0 <= dust (debited value (account who s)) <= tot (account who s) - value.
Proof.
  intros I Hv. pose proof (data_fields _ (inv_data I who)) as Hff. pose proof (inv_sum _ _ I) as Hmax.
  pose proof (inv_tot I who) as Ht. pose proof (tot_debited value (account who s)) as Htd.
  assert (fields_ok (debited value (account who s))) as Hfd by (apply debited_fields; [done|lia]).
  destruct (kept_ok _ Hfd) as (_ & _ & Hdu); [lia|]. split_and!; (done || lia).
Qed.

Lemma withdraw_closure_run x s who value reasons liveness :
  inv x s -> 0 < value -> is_u bits value ->
  let a := account who s in
  withdraw_closure who value reasons liveness a s =
    (s, match withdraw_check a value reasons liveness with
        | Some e => Err e
        | None => Ok (debited value a, Negative value)
        end).
Proof.
  intros I Hv Hvu a. pose proof (data_fields _ (inv_data I who)) as (Hf & Hr & Hm & Hfe). fold a in Hf, Hr, Hm, Hfe.
  pose proof (inv_sum _ _ I) as Hmax. pose proof (inv_tot I who) as Ht. fold a in Ht.
  unfold withdraw_closure, withdraw_check, checked_sub, mbind, M_mbind, lift, gets.
  destruct (Z.ltb_spec (free a) value) as [Hlt|Hge].
  { replace (checked bits (free a - value)) with (@None Z); [done|]. symmetry. apply checked_None. unfold is_u. lia. }
  rewrite checked_ok by (unfold is_u in *; lia). simpl.
  rewrite !uadd_ok by (unfold is_u, tot, u_max in *; lia). simpl.
  replace (free a - value + reserved a) with (tot a - value) by (unfold tot; lia).
  change (free a + reserved a) with (tot a).
  assert (ExistentialDeposit <= tot a) as Hal by (apply (inv_alive x s who I); unfold tot, is_u in *; fold a; lia).
  replace (ExistentialDeposit <=? tot a) with true by lia.
  unfold ensure, ensure_can_withdraw, mbind, M_mbind, gets, lift, ensure. replace (value =? 0) with false by lia. fold a.
  destruct (Z.ltb_spec (free a - value) (frozen a (Reasons_from reasons)));
    [replace (frozen _ _ <=? _) with false by lia|replace (frozen _ _ <=? _) with true by lia];
    destruct liveness, (tot a - value <? ExistentialDeposit); done.
Qed.

Lemma withdraw_run x s who value reasons liveness :
  inv x s -> 0 <= x -> 0 < value -> is_u bits value ->
  let a := account who s in
  match withdraw_check a value reasons liveness with
  | Some e => withdraw who value reasons liveness s = (s, Err e)
  | None =>
    if refused who (debited value a) s
    then exists s', withdraw who value reasons liveness s = (s', Err DispatchConsumerRemaining) /\
      accounts s'.1 = accounts s.1 /\ s'.2 = with_issuance (issuance s - tot a) s
    else exists s', withdraw who value reasons liveness s = (s', Ok (Negative value)) /\ inv (x + value) s' /\
      stored who (kept (debited value a)) (with_issuance (issuance s - dust (debited value a)) s) s s'
  end.
Proof.
  intros I Hx Hv Hvu a. pose proof (inv_data I who) as Hda. pose proof (data_fields _ Hda) as (Hf & Hr & Hm & Hfe).
  fold a in Hda, Hf, Hr, Hm, Hfe. pose proof (inv_sum _ _ I) as Hmax. pose proof (inv_tot I who) as Ht. fold a in Ht.
  pose proof (inv_issuance _ _ I) as Hiss. unfold Balances.withdraw. replace (value =? 0) with false by lia.
  pose proof (withdraw_closure_run x s who value reasons liveness I Hv Hvu) as Hcl. cbv zeta in Hcl. fold a in Hcl.
  destruct (withdraw_check a value reasons liveness) as [e|] eqn:Hck.
  { by destruct (try_mutate_account_err dispatch_error who
      (fun a _ => withdraw_closure who value reasons liveness a) s s e Hcl). }
  assert (value <= free a) as Hge by (unfold withdraw_check in Hck; destruct (Z.ltb_spec (free a) value); [done|lia]).
  destruct (debited_sum x s who value I) as (Hfd & Hsum & Htm & Hdu); [fold a; lia|]. fold a in Hfd, Hsum, Htm, Hdu.
  pose proof (mutate_spec dispatch_error who (fun a _ => withdraw_closure who value reasons liveness a)
    x s _ _ I Hcl Hfd Hsum ltac:(lia)) as Hrun. fold a in Hrun.
  pose proof (tot_debited value a) as Htd. destruct (refused who (debited value a) s) eqn:Href.
  - eexists. split; [exact Hrun|].
    assert (total (debited value a) < ExistentialDeposit) as Hlow.
    { unfold refused in Href. destruct (Z.ltb_spec (total (debited value a)) ExistentialDeposit); [done|discriminate]. }
    pose proof (drop_leftover_negative (negb (is_providing a)) (debited value a) value s Hfd Htm Hlow) as Hdrop.
    rewrite Htd in Hdrop. replace (value + (tot a - value)) with (tot a) in Hdrop by lia.
    apply Hdrop; [lia|lia|apply I].
  - destruct Hrun as (s' & Hr' & I' & Hst). exists s'. rewrite Htd in I'.
    replace (x + tot a - (tot a - value)) with (x + value) in I' by lia. done.
Qed.

(** [withdraw], without outstanding positive imbalances, of a non-zero
    value.  The first failed check is the error and the state is as before.
    Otherwise the account is debited (and reaped below the existential deposit)
    and the caller holds a negative imbalance of the value.  If the reaping is
    refused because the account is consumed, the call fails and no account
    changes, but the imbalance and the dust of the closure have been dropped:
    the total issuance has lost the whole balance of the account. *)
Theorem withdraw_spec x s who value reasons liveness :
  inv x s -> 0 <= x -> 0 < value -> is_u bits value ->
  let a := account who s in
  match withdraw_check a value reasons liveness with
  | Some e => withdraw who value reasons liveness s = (s, Err e)
  | None =>
    if refused who (debited value a) s
    then exists s', withdraw who value reasons liveness s = (s', Err DispatchConsumerRemaining) /\
      accounts s'.1 = accounts s.1 /\ s'.2 = with_issuance (issuance s - tot a) s
    else exists s', withdraw who value reasons liveness s = (s', Ok (Negative value)) /\ inv (x + value) s' /\
      stored who (kept (debited value a)) (with_issuance (issuance s - dust (debited value a)) s) s s'
  end.
Proof. apply withdraw_run. Qed.

Lemma attempt_Ok {E E' A} (m : M St E A) s s' a : m s = (s', Ok a) -> attempt (E' := E') m s = (s', Ok (inl a)).
Proof. intros Hm. unfold attempt, catch. by rewrite Hm. Qed.

Lemma attempt_Err {E E' A} (m : M St E A) s s' e : m s = (s', Err e) -> attempt (E' := E') m s = (s', Ok (inr e)).
Proof. intros Hm. unfold attempt, catch. by rewrite Hm. Qed.

(** ** Slashing *)
Abbreviation slash E := (slash (E := E) from_system from_balances).

(** [best] is taken from the free balance first, then from the reserved one. *)
Definition slashed (best : Z) d : AccountData :=
  with_reserved (reserved d - Z.min (reserved d) (best - Z.min (free d) best))
    (with_free (free d - Z.min (free d) best) d).

Lemma tot_slashed best d : 0 <= best -> 0 <= free d -> 0 <= reserved d -> tot (slashed best d) = tot d - Z.min best (tot d).
Proof. intros. unfold tot, slashed. simpl. lia. Qed.

Lemma slashed_fields best d : fields_ok d -> 0 <= best -> fields_ok (slashed best d).
Proof. intros (Hf & Hr & Hm & Hfe) Hb. split_and!; [| |done..]; unfold is_u in *; simpl; lia. Qed.

Lemma slash_closure_run value (first : bool) d :
  fields_ok d -> ExistentialDeposit <= tot d <= u_max bits -> 0 < value -> is_u bits value ->
  let best := if first then value else Z.min value (tot d - ExistentialDeposit) in
  slash_closure value first d =
    Ok (slashed best d, (Negative (Z.min best (tot d)), value - Z.min best (tot d))).
Proof.
  intros (Hf & Hr & _ & _) Ht Hv Hvu best. unfold slash_closure.
  match goal with |- context [if first then ?a else ?b] => assert ((if first then a else b) = Ok best) as -> end.
  { unfold best. destruct first; [done|]. rewrite uadd_ok by (unfold is_u, tot, u_max in *; lia). simpl.
    unfold saturating_sub. rewrite saturating_id by (unfold is_u, tot, u_max in *; lia). done. }
  assert (0 <= best <= value) as Hb by (unfold best; destruct first; unfold tot in *; lia). clearbody best.
  cbn [mbind res_mbind]. rewrite (usub_ok bits (free d)) by (unfold is_u in *; lia). cbn [mbind res_mbind].
  rewrite (usub_ok bits best) by (unfold is_u in *; lia). cbn [mbind res_mbind reserved with_free].
  destruct (Z.eqb_spec (best - Z.min (free d) best) 0) as [Hz|Hz]; cbn [negb].
  - rewrite usub_ok by (unfold is_u in *; lia). cbn [mbind res_mbind]. unfold slashed, tot, is_u in *. rewrite Hz.
    replace (Z.min (reserved d) 0) with 0 by lia. rewrite Z.sub_0_r.
    replace (Z.min best (free d + reserved d)) with (Z.min (free d) best) by lia. by destruct d.
  - rewrite (usub_ok bits (reserved d)) by (unfold is_u in *; lia). cbn [mbind res_mbind].
    rewrite uadd_ok by (unfold is_u, tot, u_max in *; lia). cbn [mbind res_mbind].
    rewrite (usub_ok bits value) by (unfold is_u in *; lia). cbn [mbind res_mbind].
    rewrite usub_ok by (unfold is_u in *; lia). cbn [mbind res_mbind]. unfold slashed, tot, is_u in *.
    replace (Z.min best (free d + reserved d))
      with (Z.min (free d) best + Z.min (reserved d) (best - Z.min (free d) best)) by lia.
    by rewrite Z.sub_add_distr.
Qed.

Lemma slashed_sum x s who best : inv x s -> 0 <= best ->
  let a := account who s in
  fields_ok (slashed best a) /\ tot (slashed best a) = tot a - Z.min best (tot a) /\
  sum_balances (accounts s.1) - tot a + tot (slashed best a) <= u_max bits /\
  tot (slashed best a) <= u_max bits /\
  0 <= dust (slashed best a) <= tot a - Z.min best (tot a).
Proof.
  intros I Hb a. pose proof (data_fields _ (inv_data I who)) as Hfa. fold a in Hfa.
  pose proof (inv_sum _ _ I) as Hmax. pose proof (inv_tot I who) as Ht. fold a in Ht.
  assert (tot (slashed best a) = tot a - Z.min best (tot a)) as Hts.
  { destruct Hfa as (Hf & Hr & _). apply tot_slashed; unfold is_u in *; lia. }
  pose proof (slashed_fields best a Hfa Hb) as Hfs.
  destruct (kept_ok _ Hfs) as (_ & _ & Hdu); [lia|]. split_and!; (done || lia).
Qed.

(** The attempt that leaves the existential deposit behind is never refused. *)
Lemma slash_second x s who value :
  inv x s -> 0 < value -> is_u bits value -> 0 < tot (account who s) ->
  let a := account who s in
  let best := Z.min value (tot a - ExistentialDeposit) in
  exists s', slash_attempt from_system from_balances who value false s = (s', Ok (Negative best, value - best)) /\
    inv (x + best) s' /\ stored who (slashed best a) s.2 s s'.
Proof.
  intros I Hv Hvu Hpos a best. pose proof (inv_alive x s who I Hpos) as Hal. fold a in Hal, Hpos.
  pose proof (inv_sum _ _ I) as Hmax. pose proof (inv_tot I who) as Ht. fold a in Ht.
  pose proof (data_fields _ (inv_data I who)) as Hfa. fold a in Hfa.
  pose proof (slash_closure_run value false a Hfa ltac:(lia) Hv Hvu) as Hcl. cbv zeta iota in Hcl. fold best in Hcl.
  replace (Z.min best (tot a)) with best in Hcl by lia.
  destruct (slashed_sum x s who best I) as (Hfs & Hts & Hsum & Htm & Hdu); [lia|]. fold a in Hfs, Hts, Hsum, Htm, Hdu.
  replace (Z.min best (tot a)) with best in Hts by lia.
  assert (ExistentialDeposit <= total (slashed best a)) as Hed by (rewrite total_tot; [lia|done..]).
  destruct (kept_alive _ Hed) as [Hk Hd].
  pose proof (mutate_spec id who (fun a _ => lift (slash_closure value false a)) x s (slashed best a) (Negative best, value - best) I) as Hrun.
  fold a in Hrun. rewrite Hk, Hd, (not_refused_alive _ _ _ Hed) in Hrun. destruct Hrun as (s' & Hr & I' & Hst).
  - unfold lift. by rewrite Hcl.
  - done.
  - done.
  - pose proof (inv_issuance_u _ _ I). unfold is_u in *. lia.
  - exists s'. split; [exact Hr|]. rewrite Hts in I'. replace (x + best) with (x + tot a - (tot a - best)) by lia.
    split; [done|]. rewrite Z.sub_0_r in Hst. destruct s as [? [[] ?]]. done.
Qed.

Lemma slash_first x s who value :
  inv x s -> 0 <= x -> 0 < value -> is_u bits value -> 0 < tot (account who s) ->
  let a := account who s in
  let v := Z.min value (tot a) in
  if refused who (slashed value a) s
  then exists s1, slash_attempt from_system from_balances who value true s = (s1, Err ConsumerRemaining) /\
    accounts s1.1 = accounts s.1 /\ s1.2 = with_issuance (issuance s - tot a) s
  else exists s', slash_attempt from_system from_balances who value true s = (s', Ok (Negative v, value - v)) /\
    inv (x + v) s' /\ stored who (kept (slashed value a)) (with_issuance (issuance s - dust (slashed value a)) s) s s'.
Proof.
  intros I Hx Hv Hvu Hpos a v. pose proof (inv_alive x s who I Hpos) as Hal. fold a in Hal, Hpos.
  pose proof (inv_sum _ _ I) as Hmax. pose proof (inv_tot I who) as Ht. fold a in Ht.
  pose proof (inv_issuance _ _ I) as Hiss. pose proof (data_fields _ (inv_data I who)) as Hfa. fold a in Hfa.
  pose proof (slash_closure_run value true a Hfa ltac:(lia) Hv Hvu) as Hcl. cbv zeta iota in Hcl. fold v in Hcl.
  destruct (slashed_sum x s who value I) as (Hfs & Hts & Hsum & Htm & Hdu); [lia|].
  fold a in Hfs, Hts, Hsum, Htm, Hdu. fold v in Hts, Hdu.
  pose proof (mutate_spec id who (fun a _ => lift (slash_closure value true a)) x s (slashed value a) (Negative v, value - v) I) as Hrun.
  fold a in Hrun. unfold lift in Hrun at 1. rewrite Hcl in Hrun.
  specialize (Hrun eq_refl Hfs Hsum ltac:(lia)). destruct (refused who (slashed value a) s) eqn:Href.
  - eexists. split; [exact Hrun|].
    assert (total (slashed value a) < ExistentialDeposit) as Hlow.
    { unfold refused in Href. destruct (Z.ltb_spec (total (slashed value a)) ExistentialDeposit); [done|discriminate]. }
    pose proof (drop_leftover_negative (negb (is_providing a)) (slashed value a) v s Hfs Htm Hlow) as Hdrop.
    rewrite Hts in Hdrop. replace (v + (tot a - v)) with (tot a) in Hdrop by lia.
    apply Hdrop; [lia|lia|apply I].
  - destruct Hrun as (s' & Hr & I' & Hst). exists s'. rewrite Hts in I'.
    replace (x + tot a - (tot a - v)) with (x + v) in I' by lia. by split_and!.
Qed.

Lemma inv_leak x s s' who : inv x s -> 0 <= x -> accounts s'.1 = accounts s.1 ->
  s'.2 = with_issuance (issuance s - tot (account who s)) s -> inv (x - tot (account who s)) s'.
Proof.
  intros I Hx Ha Hr. pose proof (inv_tot I who) as Ht. destruct I as [I1 I2 I3 I4].
  assert (issuance s' = issuance s - tot (account who s)) as Hi by (unfold issuance at 1; by rewrite Hr).
  split; rewrite ?Ha, ?Hi; [done|done|lia|unfold is_u in *; lia].
Qed.

Lemma slash_run {E} x s who value :
  inv x s -> 0 <= x -> 0 < value -> is_u bits value -> 0 < tot (account who s) ->
  let a := account who s in
  if refused who (slashed value a) s
  then let v := Z.min value (tot a - ExistentialDeposit) in
    exists s', slash E who value s = (s', Ok (Negative v, value - v)) /\ inv (x - tot a + v) s' /\
      stored who (slashed v a) (with_issuance (issuance s - tot a) s) s s'
  else let v := Z.min value (tot a) in
    exists s', slash E who value s = (s', Ok (Negative v, value - v)) /\ inv (x + v) s' /\
      stored who (kept (slashed value a)) (with_issuance (issuance s - dust (slashed value a)) s) s s'.
Proof.
  intros I Hx Hv Hvu Hpos a. pose proof (slash_first x s who value I Hx Hv Hvu Hpos) as Hfirst. cbv zeta in Hfirst. fold a in Hfirst.
  pose proof (inv_total I who) as Htot. unfold Balances.slash. replace (value =? 0) with false by lia.
  unfold mbind, M_mbind, gets, total_balance. rewrite Htot. replace (tot (account who s) =? 0) with false by lia.
  destruct (refused who (slashed value a) s); cbv zeta.
  - destruct Hfirst as (s1 & Hr0%(attempt_Err (E' := E)) & Ha1 & Hr1). rewrite Hr0. pose proof (inv_leak x s s1 who I Hx Ha1 Hr1) as I1. fold a in I1.
    assert (account who s1 = a) as Hacc by (apply account_same; by rewrite Ha1).
    destruct (slash_second _ s1 who value I1 Hv Hvu) as (s' & Hr & I' & Hst); [by rewrite Hacc|]. rewrite Hacc in Hr, I', Hst.
    apply (attempt_Ok (E' := E)) in Hr. rewrite Hr. exists s'. split_and!; [done|done|].
    rewrite Hr1 in Hst. destruct Hst as [S1 S2 S3 S4 S5 S6]. split; try done.
    + intros k Hk. rewrite S2 by done. by rewrite Ha1.
    + rewrite S6. unfold Account_get. by rewrite Ha1.
  - destruct Hfirst as (s' & Hr%(attempt_Ok (E' := E)) & I' & Hst). rewrite Hr. by exists s'.
Qed.

(** [slash], without outstanding positive imbalances, of a non-empty
    account.  What is taken and what is left to slash always add up to the
    value.  Unless reaping is refused, as much as possible is taken, from the
    free balance first, locks and reserves notwithstanding.  If it is refused
    because the account is consumed, a second attempt leaves the existential
    deposit; the first one has then already taken the whole balance of the
    account from the total issuance. *)
Theorem slash_spec {E} x s who value :
  inv x s -> 0 <= x -> 0 < value -> is_u bits value -> 0 < tot (account who s) ->
  let a := account who s in
  if refused who (slashed value a) s
  then let v := Z.min value (tot a - ExistentialDeposit) in
    exists s', slash E who value s = (s', Ok (Negative v, value - v)) /\ inv (x - tot a + v) s' /\
      stored who (slashed v a) (with_issuance (issuance s - tot a) s) s s'
  else let v := Z.min value (tot a) in
    exists s', slash E who value s = (s', Ok (Negative v, value - v)) /\ inv (x + v) s' /\
      stored who (kept (slashed value a)) (with_issuance (issuance s - dust (slashed value a)) s) s s'.
Proof. apply slash_run. Qed.

(** ** Deposits *)
Abbreviation deposit_into_existing := (deposit_into_existing from_system from_balances).
Abbreviation deposit_creating E := (deposit_creating (E := E) from_system from_balances).

Lemma is_providing_alive x s who : inv x s -> is_providing (account who s) = (0 <? tot (account who s)).
Proof.
  intros I. unfold is_providing. case_bool_decide as Hd; simpl.
  - rewrite Hd. done.
  - destruct (inv_data I who) as (_ & _ & _ & _ & [?|?]); [done|]. lia.
Qed.

(** A mutation that leaves at least the existential deposit is not refused and
    makes no dust. *)
Lemma mutate_alive {E A} `{Drop St A} (from_error : StoredMapError -> E) who
    (f : AccountData -> bool -> M St E (AccountData * A)) x s d r :
  inv x s -> f (account who s) (negb (is_providing (account who s))) s = (s, Ok (d, r)) ->
  fields_ok d -> sum_balances (accounts s.1) - tot (account who s) + tot d <= u_max bits -> ExistentialDeposit <= tot d ->
  exists s', try_mutate_account from_system from_balances from_error who f s = (s', Ok r) /\
    inv (x + tot (account who s) - tot d) s' /\ stored who d s.2 s s'.
Proof.
  intros I Hf Hd Hsum Hed. pose proof (inv_tot I who) as Ht.
  assert (ExistentialDeposit <= total d) as Hal by (rewrite total_tot; [done|done|lia]).
  destruct (kept_alive _ Hal) as [Hk Hdu].
  pose proof (mutate_spec from_error who f x s d r I Hf Hd Hsum) as Hrun.
  rewrite (not_refused_alive _ _ _ Hal), Hk, Hdu, Z.sub_0_r in Hrun.
  destruct Hrun as (s' & Hr & I' & Hst); [pose proof (inv_issuance_u _ _ I) as Hu; unfold is_u in Hu; lia|].
  exists s'. split_and!; [done..|]. by destruct s as [? [[] ?]].
Qed.

Lemma credit_run {E} (from_error : StoredMapError -> E) (f : AccountData -> bool -> M St E (AccountData * PositiveImbalance)) x s who value :
  inv x s -> 0 < value -> sum_balances (accounts s.1) + value <= u_max bits ->
  ExistentialDeposit <= tot (account who s) + value ->
  f (account who s) (negb (is_providing (account who s))) s =
    (s, Ok (credited value (account who s), Positive value)) ->
  exists s', try_mutate_account from_system from_balances from_error who f s = (s', Ok (Positive value)) /\
    inv (x - value) s' /\ stored who (credited value (account who s)) s.2 s s'.
Proof.
  intros I Hv Hsum Hed Hf. set (a := account who s) in *. pose proof (inv_tot I who) as Ht. fold a in Ht.
  pose proof (data_fields _ (inv_data I who)) as Hfa. fold a in Hfa. pose proof (tot_credited value a) as Htc.
  destruct (mutate_alive from_error who f x s _ _ I Hf) as (s' & Hr & I' & Hst); fold a.
  - apply credited_fields; [done|lia|]. destruct Hfa as (_ & Hr & _). unfold tot, is_u in *. lia.
  - lia.
  - lia.
  - exists s'. split_and!; [done| |done]. fold a in I'. rewrite Htc in I'.
    by replace (x - value) with (x + tot a - (tot a + value)) by lia.
Qed.

Lemma deposit_creating_run {E} x s who value :
  inv x s -> 0 < value -> sum_balances (accounts s.1) + value <= u_max bits ->
  let a := account who s in
  if (tot a =? 0) && (value <? ExistentialDeposit)
  then deposit_creating E who value s = (s, Ok (Positive 0))
  else exists s', deposit_creating E who value s = (s', Ok (Positive value)) /\ inv (x - value) s' /\
    stored who (credited value a) s.2 s s'.
Proof.
  intros I Hv Hsum a. pose proof (is_providing_alive x s who I) as Hp. pose proof (inv_tot I who) as Ht.
  pose proof (inv_alive x s who I) as Hal. fold a in Hp, Ht, Hal.
  destruct (inv_data I who) as (Hf & Hr & _). fold a in Hf, Hr.
  unfold Balances.deposit_creating. replace (value =? 0) with false by lia.
  match goal with |- context [try_mutate_account _ _ _ who ?f] => set (f0 := f) end.
  destruct (Z.eqb_spec (tot a) 0) as [Hz|Hz], (Z.ltb_spec value ExistentialDeposit) as [Hlt|Hge]; cbn [andb].
  1: { destruct (try_mutate_account_err dispatch_error who f0 s s (Module ExistentialDepositError)) as [_ Herr].
    - fold a. rewrite Hp, Hz. unfold f0, mbind, M_mbind, lift, ensure. simpl. by replace (ExistentialDeposit <=? value) with false by lia.
    - apply (attempt_Err (E' := E)) in Herr. unfold mbind at 1, M_mbind at 1. by rewrite Herr. }
  all: destruct (credit_run dispatch_error f0 x s who value I Hv Hsum) as (s' & Hrun%(attempt_Ok (E' := E)) & I' & Hst);
    [fold a; lia|fold a; rewrite Hp; unfold f0, mbind, M_mbind, lift, ensure
    |exists s'; unfold mbind at 1, M_mbind at 1; by rewrite Hrun].
  all: replace ((ExistentialDeposit <=? value) || negb (negb (0 <? tot a))) with true by (symmetry; apply orb_true_iff; rewrite negb_involutive; lia).
  all: unfold checked_add; rewrite checked_ok by (unfold tot, is_u, u_max in *; lia); done.
Qed.

Lemma deposit_into_existing_run x s who value :
  inv x s -> 0 < value -> sum_balances (accounts s.1) + value <= u_max bits ->
  let a := account who s in
  if tot a =? 0 then deposit_into_existing who value s = (s, Err (Module DeadAccount))
  else exists s', deposit_into_existing who value s = (s', Ok (Positive value)) /\ inv (x - value) s' /\
    stored who (credited value a) s.2 s s'.
Proof.
  intros I Hv Hsum a. pose proof (is_providing_alive x s who I) as Hp. pose proof (inv_tot I who) as Ht.
  pose proof (inv_alive x s who I) as Hal. fold a in Hp, Ht, Hal.
  destruct (inv_data I who) as (Hf & Hr & _). fold a in Hf, Hr.
  unfold Balances.deposit_into_existing. replace (value =? 0) with false by lia.
  match goal with |- context [try_mutate_account _ _ _ who ?f] => set (f0 := f) end.
  destruct (Z.eqb_spec (tot a) 0) as [Hz|Hz].
  - destruct (try_mutate_account_err dispatch_error who f0 s s (Module DeadAccount)) as [_ Herr]; [|done].
    fold a. by rewrite Hp, Hz.
  - apply (credit_run dispatch_error f0 x s who value I Hv Hsum); fold a; [lia|].
    rewrite Hp. replace (0 <? tot a) with true by lia. unfold f0, mbind, M_mbind, lift, ensure. simpl.
    unfold checked_add. by rewrite checked_ok by (unfold tot, is_u, u_max in *; lia).
Qed.

(** ** Reserving *)
Abbreviation reserve := (reserve from_system from_balances).
Abbreviation unreserve E := (unreserve (E := E) from_system from_balances).

(** [v] goes from the free to the reserved balance. *)
Definition moved (v : Z) d : AccountData := with_reserved (reserved d + v) (with_free (free d - v) d).

Lemma tot_moved v d : tot (moved v d) = tot d.
Proof. unfold tot, moved. simpl. lia. Qed.

Lemma moved_fields v d : fields_ok d -> tot d <= u_max bits -> - reserved d <= v <= free d -> fields_ok (moved v d).
Proof. intros (Hf & Hr & Hm & Hfe) Ht Hv. split_and!; [| |done..]; unfold is_u, tot, u_max in *; simpl; lia. Qed.

Definition reserve_check d (value : Z) : option DispatchError :=
  if free d <? value then Some (Module InsufficientBalance)
  else if free d - value <? misc_frozen d then Some (Module LiquidityRestrictions)
  else None.

Lemma emit_same {E} (e : Event K) s : exists s', emit from_balances (E := E) e s = (s', Ok tt) /\ same_storage s' s.
Proof. apply deposit_event_same. Qed.

Lemma stored_same who d rest s s1 s2 : stored who d rest s s1 -> same_storage s2 s1 -> stored who d rest s s2.
Proof. intros Hst [Ha Hr]. eapply stored_drop; [done..|]. rewrite Hr. by destruct Hst. Qed.

Lemma inv_same x s s' : inv x s -> same_storage s' s -> inv x s'.
Proof. intros I [Ha Hr]. eapply inv_ext; [done..|]. unfold issuance. by rewrite Hr. Qed.

(** A mutation that moves [v] and emits an event. *)
Lemma moved_run {E A} `{Drop St A} (from_error : StoredMapError -> E) who
    (f : AccountData -> bool -> M St E (AccountData * A)) x s v r :
  let a := account who s in
  inv x s -> 0 < tot a -> - reserved a <= v <= free a ->
  f a (negb (is_providing a)) s = (s, Ok (moved v a, r)) ->
  exists s', try_mutate_account from_system from_balances from_error who f s = (s', Ok r) /\ inv x s' /\
    stored who (moved v a) s.2 s s'.
Proof.
  intros a I Hpos Hv Hf. pose proof (inv_tot I who) as Ht. pose proof (inv_sum _ _ I) as Hmax. fold a in Ht.
  pose proof (inv_alive x s who I Hpos) as Hal. fold a in Hal.
  pose proof (data_fields _ (inv_data I who)) as Hfa. fold a in Hfa.
  destruct (mutate_alive from_error who f x s _ _ I Hf) as (s' & Hr & I' & Hst); fold a; rewrite ?tot_moved.
  - apply moved_fields; [done|lia..].
  - lia.
  - lia.
  - exists s'. fold a in I'. rewrite tot_moved in I'. replace (x + tot a - tot a) with x in I' by lia. done.
Qed.

Lemma reserve_run x s who value :
  inv x s -> 0 < value -> is_u bits value ->
  let a := account who s in
  match reserve_check a value with
  | Some e => reserve who value s = (s, Err e)
  | None => exists s', reserve who value s = (s', Ok tt) /\ inv x s' /\ stored who (moved value a) s.2 s s'
  end.
Proof.
  intros I Hv Hvu a. pose proof (inv_tot I who) as Ht. pose proof (inv_sum _ _ I) as Hmax. fold a in Ht.
  destruct (inv_data I who) as (Hf & Hr & Hm & _). fold a in Hf, Hr, Hm.
  unfold Balances.reserve. replace (value =? 0) with false by lia.
  set (f0 := fun account (_ : bool) => reserve_closure who value account).
  assert (forall b, f0 a b s = (s, match reserve_check a value with Some e => Err e | None => Ok (moved value a, tt) end)) as Hf0.
  { intros b. unfold f0, reserve_closure, reserve_check, checked_sub, checked_add, mbind, M_mbind, lift.
    destruct (Z.ltb_spec (free a) value).
    { replace (checked bits (free a - value)) with (@None Z); [done|]. symmetry. apply checked_None. unfold is_u. lia. }
    rewrite !checked_ok by (unfold is_u, tot, u_max in *; lia). simpl.
    unfold ensure_can_withdraw, mbind, M_mbind, gets, lift, ensure. replace (value =? 0) with false by lia. fold a.
    change (frozen a (Reasons_from RESERVE)) with (misc_frozen a).
    destruct (Z.ltb_spec (free a - value) (misc_frozen a));
      [replace (misc_frozen a <=? _) with false by lia|replace (misc_frozen a <=? _) with true by lia]; done. }
  destruct (reserve_check a value) as [e|] eqn:Hck.
  - destruct (try_mutate_account_err dispatch_error who f0 s s e) as [_ Herr]; [by rewrite Hf0|].
    unfold mbind at 1, M_mbind at 1. by rewrite Herr.
  - assert (value <= free a) by (unfold reserve_check in Hck; destruct (Z.ltb_spec (free a) value); [done|lia]).
    destruct (moved_run dispatch_error who f0 x s value tt I) as (s1 & Hr1 & I1 & Hst); fold a;
      [unfold tot, is_u in *; lia|unfold is_u in *; lia|apply Hf0|].
    unfold mbind at 1, M_mbind at 1. rewrite Hr1. destruct (emit_same (E := DispatchError) (Reserved who value) s1) as (s2 & He & Hs).
    exists s2. split_and!; [done|by eapply inv_same|by eapply stored_same].
Qed.

Lemma unreserve_run {E} x s who value :
  inv x s -> 0 < value -> is_u bits value ->
  let a := account who s in
  let actual := Z.min (reserved a) value in
  if tot a =? 0 then unreserve E who value s = (s, Ok value)
  else exists s', unreserve E who value s = (s', Ok (value - actual)) /\ inv x s' /\
    stored who (moved (- actual) a) s.2 s s'.
Proof.
  intros I Hv Hvu a actual. pose proof (inv_tot I who) as Ht. pose proof (inv_sum _ _ I) as Hmax.
  pose proof (inv_total I who) as Htot. fold a in Ht, Htot.
  destruct (inv_data I who) as (Hf & Hr & _). fold a in Hf, Hr.
  unfold Balances.unreserve. replace (value =? 0) with false by lia.
  erewrite !bind_Ok by reflexivity. unfold total_balance. fold a. rewrite Htot.
  destruct (Z.eqb_spec (tot a) 0) as [Hz|Hz]; [done|]. unfold mutate_account. cbv beta.
  set (f0 := fun account (_ : bool) => lift (unreserve_closure value account)).
  destruct (moved_run id who f0 x s (- actual) actual I) as (s1 & Hr1%(attempt_Ok (E' := E)) & I1 & Hst); fold a;
    [lia|unfold actual, is_u in *; lia| |].
  - unfold f0, lift, unreserve_closure. fold actual. rewrite usub_ok by (unfold actual, is_u in *; lia). simpl.
    unfold moved, saturating_add. rewrite saturating_id by (unfold actual, is_u, tot, u_max in *; lia). do 3 f_equal.
    destruct a; unfold with_free, with_reserved; simpl. f_equal; lia.
  - destruct (emit_same (E := E) (Unreserved who actual) s1) as (s2 & He & Hs).
    rewrite (bind_Ok _ _ _ _ _ Hr1), (bind_Ok _ _ _ _ _ He). exists s2. unfold lift.
    rewrite usub_ok by (unfold actual, is_u in *; lia).
    split_and!; [done|by eapply inv_same|by eapply stored_same].
Qed.

(** Reserving.  [reserve] fails, changing nothing, exactly when the free
    balance does not cover the value or what remains of it would not cover the
    locks; otherwise the value moves to the reserved balance, nothing else
    changes, and [unreserve] of it gives the account back what it had. *)
Theorem reserve_unreserve {E} x s who value :
  inv x s -> 0 < value -> is_u bits value ->
  let a := account who s in
  match reserve_check a value with
  | Some e => reserve who value s = (s, Err e)
  | None => exists s1 s2, reserve who value s = (s1, Ok tt) /\ inv x s1 /\ stored who (moved value a) s.2 s s1 /\
      unreserve E who value s1 = (s2, Ok 0) /\ inv x s2 /\ account who s2 = a /\ s2.2 = s.2 /\
      forall k, k <> who -> accounts s2.1 !! k = accounts s.1 !! k
  end.
Proof.
  intros I Hv Hvu a. pose proof (reserve_run x s who value I Hv Hvu) as Hres. cbv zeta in Hres. fold a in Hres.
  destruct (reserve_check a value) eqn:Hck; [done|]. destruct Hres as (s1 & Hr1 & I1 & St1). exists s1.
  assert (value <= free a) as Hle by (unfold reserve_check in Hck; destruct (Z.ltb_spec (free a) value); [done|lia]).
  destruct (inv_data I who) as (Hf & Hr & _). fold a in Hf, Hr.
  pose proof (stored_data _ _ _ _ _ St1) as Ha1.
  pose proof (unreserve_run (E := E) x s1 who value I1 Hv Hvu) as Hun. cbv zeta in Hun. rewrite Ha1, tot_moved in Hun.
  replace (tot a =? 0) with false in Hun by (unfold tot, is_u in *; lia).
  replace (Z.min (reserved (moved value a)) value) with value in Hun by (unfold moved, is_u in *; simpl; lia).
  destruct Hun as (s2 & Hr2 & I2 & St2). rewrite Z.sub_diag in Hr2. exists s2. split_and!; try done.
  - rewrite (stored_data _ _ _ _ _ St2). destruct a; unfold moved, with_free, with_reserved; simpl. f_equal; lia.
  - rewrite (stored_rest _ _ _ _ _ St2). apply St1.
  - intros k Hk. rewrite (stored_other _ _ _ _ _ St2) by done. by apply St1.
Qed.

(** [repatriate_reserved] from an account to itself returns the amount
    that was unreserved, where its contract is to return the amount that could
    not be moved: a full move reports everything as left, and a move of
    nothing reports nothing as left. *)
Theorem repatriate_self_inverted x s who value :
  inv x s -> 0 < value -> is_u bits value -> 0 < tot (account who s) ->
  let a := account who s in
  let actual := Z.min (reserved a) value in
  repatriate_reserved from_system from_balances who who value StatusReserved s = (s, Ok actual) /\
  exists s', repatriate_reserved from_system from_balances who who value StatusFree s = (s', Ok actual) /\
    stored who (moved (- actual) a) s.2 s s'.
Proof.
  intros I Hv Hvu Hpos a actual. destruct (inv_data I who) as (_ & Hr & _). fold a in Hr.
  unfold repatriate_reserved, do_transfer_reserved. replace (value =? 0) with false by lia.
  rewrite !decide_True by done. unfold mbind, M_mbind, gets, reserved_balance. fold a.
  assert (saturating_sub bits value (reserved a) = value - actual) as Hres.
  { rewrite saturating_sub_max by (unfold is_u in *; tauto). unfold actual. lia. }
  assert (saturating_sub bits value (value - actual) = actual) as Hsat.
  { rewrite saturating_sub_max by (unfold actual, is_u in *; lia). unfold actual, is_u in *. lia. }
  split.
  - simpl. by rewrite Hres, Hsat.
  - pose proof (unreserve_run (E := DispatchError) x s who value I Hv Hvu) as Hun. cbv zeta in Hun. fold a in Hun.
    replace (tot a =? 0) with false in Hun by (unfold a; lia). destruct Hun as (s' & Hrun & _ & Hst). fold actual in Hrun.
    exists s'. rewrite Hrun. split; [|done]. simpl. by rewrite Hsat.
Qed.

(** ** Locks *)
Definition applies (r : Reasons) (l : BalanceLock) : bool := bool_decide (lock_reasons l = All \/ lock_reasons l = r).

(** The largest lock that applies for [r]. *)
Fixpoint frozen_by (r : Reasons) (ls : list BalanceLock) : Z :=
  match ls with
  | [] => 0
  | l :: ls => if applies r l then Z.max (lock_amount l) (frozen_by r ls) else frozen_by r ls
  end.

Definition locked (ls : list BalanceLock) d : AccountData :=
  mkAccountData (free d) (reserved d) (frozen_by Misc ls) (frozen_by Fee ls).

Lemma foldl_apply_lock ls d : 0 <= misc_frozen d -> 0 <= fee_frozen d ->
  foldl apply_lock d ls = mkAccountData (free d) (reserved d) (Z.max (misc_frozen d) (frozen_by Misc ls))
                            (Z.max (fee_frozen d) (frozen_by Fee ls)).
Proof.
  revert d. induction ls as [|l ls IH]; intros d Hm Hf; simpl.
  { rewrite !Z.max_l by done. by destruct d. }
  rewrite IH; unfold apply_lock, applies; repeat case_decide; repeat case_bool_decide; simpl; try lia; try tauto;
    f_equal; lia.
Qed.

Lemma frozen_by_u r ls : Forall (fun l => is_u bits (lock_amount l)) ls -> is_u bits (frozen_by r ls).
Proof.
  induction 1 as [|l ls Hl _ IH]; simpl; [unfold is_u, bits; lia|]. destruct (applies r l); [|done].
  unfold is_u in *. lia.
Qed.

(** A change of the consumer counter only. *)
Lemma inv_consumers x s who n : inv x s -> is_u 32 n -> (0 < n -> 0 < providers (Account_get who s)) ->
  let s' := set_accounts (<[who := with_consumers n (Account_get who s)]> (accounts s.1)) s in
  inv x s' /\ (forall k, account k s' = account k s) /\ (forall k, k <> who -> accounts s'.1 !! k = accounts s.1 !! k) /\ s'.2 = s.2.
Proof.
  intros I Hn Hp s'. destruct (inv_get I who) as ((Hc & Hpr & Hs & Hcp) & Hd & Hok).
  assert (sum_balances (accounts s'.1) = sum_balances (accounts s.1)) as Hsum.
  { unfold s'. cbn [set_accounts accounts fst]. unfold insert, map_insert. rewrite sum_balances_update, tot_at_account. simpl.
    change (data (Account_get who s)) with (account who s). lia. }
  split_and!.
  - destruct I as [I1 I2 I3 I4]. split; rewrite ?Hsum; try done. intros k a. simpl.
    destruct (decide (k = who)) as [->|Hne]; [|rewrite lookup_insert_ne by done; apply I1].
    rewrite lookup_insert_eq. intros [= <-]. split_and!; try done.
  - intros k. unfold account, StoredMap_get, Account_get, s'. simpl.
    destruct (decide (k = who)) as [->|Hne]; [by rewrite lookup_insert_eq|by rewrite lookup_insert_ne].
  - intros k Hk. simpl. by rewrite lookup_insert_ne.
  - done.
Qed.

Lemma inc_consumers_run {E} x s who : inv x s ->
  exists s' r, attempt (E' := E) (inc_consumers who) s = (s', Ok r) /\ inv x s' /\
    (0 < providers (Account_get who s) -> 0 < consumers (Account_get who s')) /\
    (forall k, account k s' = account k s) /\ (forall k, k <> who -> accounts s'.1 !! k = accounts s.1 !! k) /\ s'.2 = s.2.
Proof.
  intros I. destruct (inv_get I who) as ((Hc & Hpr & Hs & Hcp) & _ & _).
  unfold attempt, catch, inc_consumers, Account_try_mutate, Account_put, mbind, M_mbind, gets, modify.
  destruct (Z.ltb_spec 0 (providers (Account_get who s))) as [Hp|Hp]; simpl; [|exists s, (inr IncNoProviders); split_and!; (done || lia)].
  destruct (saturating_succ _ Hc) as [Hn Hn0]. destruct (inv_consumers x s who _ I Hn (fun _ => Hp)) as (I' & Hrest).
  eexists _, (inl tt). split; [reflexivity|]. split; [done|]. split; [|done]. intros _.
  unfold Account_get at 1. simpl. by rewrite lookup_insert_eq.
Qed.

Lemma dec_consumers_run {E} x s who : inv x s ->
  exists s', dec_consumers (E := E) who s = (s', Ok tt) /\ inv x s' /\
    (forall k, account k s' = account k s) /\ (forall k, k <> who -> accounts s'.1 !! k = accounts s.1 !! k) /\ s'.2 = s.2.
Proof.
  intros I. destruct (inv_get I who) as ((Hc & Hpr & Hs & Hcp) & _ & _).
  unfold dec_consumers, Account_try_mutate, Account_put, mbind, M_mbind, gets, modify, lift.
  destruct (Z.ltb_spec 0 (consumers (Account_get who s))) as [Hp|Hp].
  - rewrite usub_ok by (unfold is_u in *; lia). simpl. eexists. split; [reflexivity|].
    apply inv_consumers; [done|unfold is_u in *; lia|auto with lia].
  - simpl. eexists. split; [reflexivity|].
    assert (Account_get who s = with_consumers (consumers (Account_get who s)) (Account_get who s)) as -> by by destruct (Account_get who s).
    by apply inv_consumers.
Qed.

(** What a new list of locks does to the account [who]. *)
Record relocked who (ls : list BalanceLock) s s' : Prop := {
  relocked_data : account who s' = locked ls (account who s);
  relocked_locks : Locks s'.2.1 = partial_alter (fun _ => match ls with [] => None | _ => Some ls end) who (Locks s.2.1);
  relocked_other : forall k, k <> who -> accounts s'.1 !! k = accounts s.1 !! k;
  relocked_issuance : issuance s' = issuance s;
  relocked_consumed : ls <> [] -> (is_Some (Locks s.2.1 !! who) -> 0 < consumers (Account_get who s)) ->
    0 < consumers (Account_get who s') }.

Lemma relock_data {E} x s who ls :
  inv x s -> 0 < tot (account who s) -> Forall (fun l => is_u bits (lock_amount l)) ls ->
  exists s', attempt (E' := E) (mutate_account from_system from_balances who (fun b =>
      mret (foldl apply_lock (mkAccountData (free b) (reserved b) 0 0) ls, tt))) s = (s', Ok (inl tt)) /\
    inv x s' /\ stored who (locked ls (account who s)) s.2 s s'.
Proof.
  intros I Hpos Hls. set (a := account who s) in *. pose proof (inv_sum _ _ I) as Hmax. pose proof (inv_tot I who) as Ht. fold a in Ht.
  pose proof (inv_alive x s who I Hpos) as Hal. fold a in Hal.
  assert (tot (locked ls a) = tot a) as Htl by done.
  destruct (inv_data I who) as (Hf & Hr & _). fold a in Hf, Hr. unfold mutate_account.
  match goal with |- context [try_mutate_account _ _ _ who ?f] => set (f0 := f) end.
  destruct (mutate_alive id who f0 x s (locked ls a) tt I) as (s' & Hrun%(attempt_Ok (E' := E)) & I' & Hst).
  - unfold f0. fold a. rewrite foldl_apply_lock by done. simpl. unfold locked.
    pose proof (frozen_by_u Misc ls Hls). pose proof (frozen_by_u Fee ls Hls). unfold is_u in *.
    by rewrite !Z.max_r by lia.
  - split_and!; [done|done|by apply frozen_by_u..].
  - fold a. lia.
  - lia.
  - exists s'. fold a in I'. rewrite Htl in I'. replace (x + tot a - tot a) with x in I' by lia. done.
Qed.

Lemma update_locks_run {E} x s who ls :
  inv x s -> 0 < tot (account who s) -> Forall (fun l => is_u bits (lock_amount l)) ls ->
  exists s', update_locks (E := E) from_system from_balances who ls s = (s', Ok tt) /\ inv x s' /\ relocked who ls s s'.
Proof.
  intros I Hpos Hls. destruct (relock_data (E := E) x s who ls I Hpos Hls) as (s1 & Hr1 & I1 & Hst).
  pose proof (stored_rest _ _ _ _ _ Hst) as Hrest.
  assert (0 < providers (Account_get who s1)) as Hprov.
  { apply (stored_prov _ _ _ _ _ Hst). intros Hd. assert (tot (locked ls (account who s)) = 0) as Hz by (by rewrite Hd).
    change (tot (account who s) = 0) in Hz. lia. }
  set (s2 := set_locks (partial_alter (fun _ => match ls with [] => None | _ => Some ls end) who (Locks s1.2.1)) s1).
  assert (inv x s2) as I2 by (by eapply inv_ext).
  assert (forall s', (forall k, account k s' = account k s2) -> (forall k, k <> who -> accounts s'.1 !! k = accounts s2.1 !! k) ->
    s'.2 = s2.2 -> (ls <> [] -> (is_Some (Locks s.2.1 !! who) -> 0 < consumers (Account_get who s)) ->
      0 < consumers (Account_get who s')) -> relocked who ls s s') as Hrel.
  { intros s' Ha Ho Hr Hc. split; [| | | |done].
    - rewrite Ha. apply Hst.
    - rewrite Hr. unfold s2. simpl. by rewrite Hrest.
    - intros k Hk. rewrite Ho by done. by apply Hst.
    - unfold issuance. rewrite Hr. simpl. by rewrite Hrest. }
  unfold update_locks. rewrite (bind_Ok _ _ _ _ _ Hr1). erewrite bind_Ok by (unfold debug_assert, lift; by destruct overflow_checks).
  erewrite bind_Ok by reflexivity. cbv beta. rewrite Hrest. destruct ls as [|l ls].
  - rewrite (bind_Ok _ _ _ s2 tt) by done. destruct (dec_consumers_run (E := E) x s2 who I2) as (s3 & Hd & I3 & H1 & H2 & H3).
    destruct (bool_decide _); [exists s3|exists s2]; (split_and!; [done|done|]); by apply Hrel.
  - rewrite (bind_Ok _ _ _ s2 tt) by done. destruct (inc_consumers_run (E := E) x s2 who I2) as (s3 & r & Hd & I3 & H0 & H1 & H2 & H3).
    case_bool_decide as Hex; [exists s2|exists s3].
    + split_and!; [done|done|]. apply Hrel; [done..|]. intros _ Hc. rewrite <-(stored_cons _ _ _ _ _ Hst) in Hc. by apply Hc.
    + rewrite (bind_Ok _ _ _ _ _ Hd). split_and!; [done|done|]. apply Hrel; [done..|]. intros _ _. by apply H0.
Qed.

Definition find_lock (id : Z) (ls : list BalanceLock) : option BalanceLock := List.find (fun l => lock_id l =? id) ls.

Lemma replace_lock_spec id f taken ls :
  let '(ls', t) := replace_lock id f taken ls in
  t = taken || bool_decide (is_Some (find_lock id ls)) /\
  forall l, l ∈ ls' <-> (l ∈ ls /\ lock_id l <> id) \/ (taken = false /\ exists l0, find_lock id ls = Some l0 /\ l = f l0).
Proof.
  revert taken. induction ls as [|m ls IH]; intros taken; simpl.
  { split; [by destruct taken|]. intros l. rewrite elem_of_nil. naive_solver. }
  destruct (Z.eqb_spec (lock_id m) id) as [Hm|Hm].
  - specialize (IH true). destruct (replace_lock id f true ls) as [ls' t]. destruct IH as [-> IH].
    split; [by destruct taken|]. intros l. destruct taken.
    + rewrite IH, elem_of_cons. naive_solver.
    + rewrite !elem_of_cons, IH. naive_solver.
  - specialize (IH taken). destruct (replace_lock id f taken ls) as [ls' t]. destruct IH as [-> IH].
    split; [done|]. intros l. rewrite !elem_of_cons, IH. naive_solver.
Qed.

Lemma put_lock_spec id f new ls l :
  l ∈ put_lock id f new ls <->
  (l ∈ ls /\ lock_id l <> id) \/ l = match find_lock id ls with Some l0 => f l0 | None => new end.
Proof.
  unfold put_lock. pose proof (replace_lock_spec id f false ls) as Hspec. destruct (replace_lock id f false ls) as [ls' t].
  destruct Hspec as [-> Hspec]. destruct (find_lock id ls) as [l0|] eqn:Hfind; cbn [orb].
  - rewrite bool_decide_true by done. rewrite Hspec. naive_solver.
  - rewrite bool_decide_false by (intros [? ?]; done). rewrite elem_of_app, list_elem_of_singleton, Hspec. naive_solver.
Qed.

Lemma find_lock_elem id ls l : find_lock id ls = Some l -> l ∈ ls.
Proof. intros [Hl _]%List.find_some. by apply list_elem_of_In. Qed.

Lemma put_lock_u id f new ls : is_u bits (lock_amount new) -> (forall l, is_u bits (lock_amount l) -> is_u bits (lock_amount (f l))) ->
  Forall (fun l => is_u bits (lock_amount l)) ls -> Forall (fun l => is_u bits (lock_amount l)) (put_lock id f new ls).
Proof.
  intros Hnew Hf Hls. rewrite Forall_forall in *. intros l [[Hl _]| ->]%put_lock_spec; [by apply Hls|].
  destruct (find_lock id ls) eqn:Hl; [|done]. by eapply Hf, Hls, find_lock_elem.
Qed.

(** The lock operations on a non-empty account succeed and touch nothing
    but its locks, its consumer reference and its frozen balances, which become
    the largest of the locks that apply for a reason.  [set_lock] replaces the
    lock of the same id, [extend_lock] takes the larger amount and the union of
    the reasons, [remove_lock] removes it; the other locks stay.  The first
    lock makes the account consumed. *)
Theorem lock_spec {E} x s who id amount reasons :
  inv x s -> 0 < tot (account who s) -> 0 < amount -> is_u bits amount -> reasons <> 0 ->
  Forall (fun l => is_u bits (lock_amount l)) (locks_of who s) ->
  let new := mkLock id amount (Reasons_from reasons) in
  let others l := l ∈ locks_of who s /\ lock_id l <> id in
  (exists s' ls, set_lock (E := E) from_system from_balances id who amount reasons s = (s', Ok tt) /\
     inv x s' /\ relocked who ls s s' /\ forall l, l ∈ ls <-> others l \/ l = new) /\
  (exists s' ls, extend_lock (E := E) from_system from_balances id who amount reasons s = (s', Ok tt) /\
     inv x s' /\ relocked who ls s s' /\
     forall l, l ∈ ls <-> others l \/ l = match find_lock id (locks_of who s) with
       | Some l0 => mkLock (lock_id l0) (Z.max (lock_amount l0) amount) (Reasons_bitor (lock_reasons l0) (Reasons_from reasons))
       | None => new
       end) /\
  (exists s' ls, remove_lock (E := E) from_system from_balances id who s = (s', Ok tt) /\
     inv x s' /\ relocked who ls s s' /\ forall l, l ∈ ls <-> others l).
Proof.
  intros I Hpos Ha Hau Hr Hls new others. unfold set_lock, extend_lock, remove_lock.
  replace (amount =? 0) with false by lia. replace (reasons =? 0) with false by lia. cbn [orb]. cbv zeta. fold new.
  erewrite !bind_Ok by reflexivity.
  split_and!; match goal with |- context [update_locks _ _ who ?ls s] =>
    destruct (update_locks_run (E := E) x s who ls I Hpos) as (s' & Hrun & I' & Hrel);
      [|exists s', ls; split_and!; [done..|]; intros l] end.
  - by apply put_lock_u.
  - rewrite put_lock_spec. by destruct (find_lock id (locks_of who s)).
  - apply put_lock_u; [done| |done]. intros l Hl. unfold is_u in *. simpl. lia.
  - apply put_lock_spec.
  - rewrite Forall_forall in *. intros l [Hl _]%list_elem_of_In%List.filter_In. by apply Hls, list_elem_of_In.
  - unfold others. rewrite !list_elem_of_In, List.filter_In, negb_true_iff, Z.eqb_neq. done.
Qed.

(** ** Sequences of calls *)
Inductive op : Type :=
| OpTransfer (transactor dest : K) (value : Z) (er : ExistenceRequirement)
| OpWithdraw (who : K) (value reasons : Z) (liveness : ExistenceRequirement)
| OpSlash (who : K) (value : Z)
| OpDepositCreating (who : K) (value : Z)
| OpDepositExisting (who : K) (value : Z)
| OpReserve (who : K) (value : Z)
| OpUnreserve (who : K) (value : Z)
| OpIssue (value : Z)
| OpDrop (value : Z).

(** A call, with the change of the imbalances its caller then holds. *)
Definition exec (o : op) : M St DispatchError Z :=
  match o with
  | OpTransfer a b v er => _ ← transfer a b v er; mret 0
  | OpWithdraw who v rs l => i ← withdraw who v rs l; mret (negative i)
  | OpSlash who v => p ← slash DispatchError who v; mret (negative p.1)
  | OpDepositCreating who v => p ← deposit_creating DispatchError who v; mret (- positive p)
  | OpDepositExisting who v => p ← deposit_into_existing who v; mret (- positive p)
  | OpReserve who v => _ ← reserve who v; mret 0
  | OpUnreserve who v => _ ← unreserve DispatchError who v; mret 0
  | OpIssue v => i ← issue v; mret (negative i)
  | OpDrop v => _ ← drop_ (Negative v); mret (- v)
  end.

(** The amount is a balance; a deposit or a drop is covered by the imbalances
    that are held; and a withdrawal or a slash is not one that would reap an
    account whose last provider reference is still needed (in
    [withdraw_spec] and [slash_spec], the branch where it is refused). *)
Definition allowed (o : op) (x : Z) s : bool :=
  match o with
  | OpTransfer _ _ v _ | OpReserve _ v | OpUnreserve _ v | OpIssue v => fits bits v
  | OpWithdraw who v rs l =>
    fits bits v &&
    match withdraw_check (account who s) v rs l with
    | Some _ => true
    | None => negb (refused who (debited v (account who s)) s)
    end
  | OpSlash who v => fits bits v && negb (refused who (slashed v (account who s)) s)
  | OpDepositCreating _ v | OpDepositExisting _ v | OpDrop v => fits bits v && (v <=? x)
  end.

Fixpoint exec_all (ops : list op) (x : Z) s : res unit (Z * St) :=
  match ops with
  | [] => Ok (x, s)
  | o :: ops =>
    if allowed o x s then
      match exec o s with
      | (s', Ok d) => exec_all ops (x + d) s'
      | (s', Err _) => exec_all ops x s'
      | (_, Panic) => Panic
      end
    else exec_all ops x s
  end.

(** [exec] ended without a panic and kept the books. *)
Definition booked (x : Z) (p : St * res DispatchError Z) : Prop :=
  match p.2 with
  | Ok d => 0 <= x + d /\ inv (x + d) p.1
  | Err _ => inv x p.1
  | Panic => False
  end.

Lemma booked_Ok {A} (m : M St DispatchError A) (f : A -> Z) x x' s s' a :
  m s = (s', Ok a) -> inv x' s' -> 0 <= x' -> x' = x + f a -> booked x ((a ← m; mret (f a)) s).
Proof. intros Hm I Hx ->. by rewrite (bind_Ok _ _ _ _ _ Hm). Qed.

Lemma booked_Err {A} (m : M St DispatchError A) (f : A -> Z) x s s' e :
  m s = (s', Err e) -> inv x s' -> booked x ((a ← m; mret (f a)) s).
Proof. intros Hm I. by rewrite (bind_Err _ _ _ _ _ Hm). Qed.

Section exec_one.
Context (x : Z) (s : St) (I : inv x s) (Hx : 0 <= x) (value : Z) (Hvu : is_u bits value).

Lemma exec_transfer transactor dest er : booked x (exec (OpTransfer transactor dest value er) s).
Proof.
  simpl. destruct (decide (value = 0 \/ transactor = dest)) as [Hno|Hgo].
  - pose proof (transfer_noop transactor dest value er s Hno) as Hrun.
    by apply (booked_Ok _ _ x x s s tt Hrun); [..|lia].
  - pose proof (transfer_run x s transactor dest value er I Hx) as Hrun.
    destruct (transfer_check _ _ _ _ _) as [e|].
    + by apply (booked_Err _ _ x s s e); [apply Hrun; unfold is_u in *; naive_solver lia|].
    + destruct Hrun as (s' & Hr & I' & _); [unfold is_u in *; naive_solver lia..|].
      by apply (booked_Ok _ _ x x s s' tt Hr); [..|lia].
Qed.

Lemma exec_withdraw who reasons liveness :
  match withdraw_check (account who s) value reasons liveness with
  | Some _ => true
  | None => negb (refused who (debited value (account who s)) s)
  end = true ->
  booked x (exec (OpWithdraw who value reasons liveness) s).
Proof.
  intros Hdec. simpl. destruct (Z.eqb_spec value 0) as [Hz|Hz].
  { apply (booked_Ok _ _ x x s s (Negative 0)); [|done|done|simpl; lia]. unfold Balances.withdraw. by rewrite Hz. }
  pose proof (withdraw_run x s who value reasons liveness I Hx) as Hrun. cbv zeta in Hrun.
  destruct (withdraw_check _ _ _ _) as [e|]; [|apply negb_true_iff in Hdec; rewrite Hdec in Hrun].
  - by apply (booked_Err _ _ x s s e); [apply Hrun; unfold is_u in *; lia|].
  - destruct Hrun as (s' & Hr & I' & _); [unfold is_u in *; lia|done|].
    apply (booked_Ok _ _ x _ s s' _ Hr I'); [unfold is_u in *; lia|done].
Qed.

Lemma exec_slash who : negb (refused who (slashed value (account who s)) s) = true -> booked x (exec (OpSlash who value) s).
Proof.
  intros Hdec. simpl. pose proof (inv_tot I who) as Ht. destruct (Z.eqb_spec value 0) as [Hz|Hz].
  { apply (booked_Ok _ _ x x s s (Negative 0, 0)); [|done|done|simpl; lia]. unfold Balances.slash. by rewrite Hz. }
  destruct (Z.eqb_spec (tot (account who s)) 0) as [Ht0|Ht0].
  { apply (booked_Ok _ _ x x s s (Negative 0, value)); [|done|done|simpl; lia]. unfold Balances.slash.
    replace (value =? 0) with false by lia. erewrite bind_Ok by reflexivity. unfold total_balance.
    by rewrite (inv_total I who), Ht0. }
  pose proof (slash_run (E := DispatchError) x s who value I Hx) as Hrun. cbv zeta in Hrun.
  apply negb_true_iff in Hdec. rewrite Hdec in Hrun. destruct Hrun as (s' & Hr & I' & _); [unfold is_u in *; lia|done|lia|].
  apply (booked_Ok _ _ x _ s s' _ Hr I'); [unfold is_u in *; lia|done].
Qed.

Lemma exec_deposit who : value <= x ->
  booked x (exec (OpDepositCreating who value) s) /\ booked x (exec (OpDepositExisting who value) s).
Proof.
  intros Hle. simpl. destruct (Z.eqb_spec value 0) as [Hz|Hz].
  { split; apply (booked_Ok _ _ x x s s (Positive 0)); try done; try (simpl; lia);
      unfold Balances.deposit_creating, Balances.deposit_into_existing; by rewrite Hz. }
  assert (sum_balances (accounts s.1) + value <= u_max bits) as Hsum.
  { pose proof (inv_issuance _ _ I). pose proof (inv_issuance_u _ _ I). unfold is_u, u_max in *. lia. }
  pose proof (deposit_creating_run (E := DispatchError) x s who value I) as Hcr. cbv zeta in Hcr.
  pose proof (deposit_into_existing_run x s who value I) as Hex. cbv zeta in Hex. split.
  - destruct (_ && _).
    + apply (booked_Ok _ _ x x s s (Positive 0)); [apply Hcr; unfold is_u in *; lia|done|done|simpl; lia].
    + destruct Hcr as (s' & Hr & I' & _); [unfold is_u in *; lia|done|].
      apply (booked_Ok _ _ x _ s s' _ Hr I'); [lia|simpl; lia].
  - destruct (_ =? _).
    + by apply (booked_Err _ _ x s s (Module DeadAccount)); [apply Hex; unfold is_u in *; lia|].
    + destruct Hex as (s' & Hr & I' & _); [unfold is_u in *; lia|done|].
      apply (booked_Ok _ _ x _ s s' _ Hr I'); [lia|simpl; lia].
Qed.

Lemma exec_reserve who :
  booked x (exec (OpReserve who value) s) /\ booked x (exec (OpUnreserve who value) s).
Proof.
  simpl. destruct (Z.eqb_spec value 0) as [Hz|Hz].
  { split; [apply (booked_Ok _ _ x x s s tt)|apply (booked_Ok _ _ x x s s 0)]; try done; try (simpl; lia);
      unfold Balances.reserve, Balances.unreserve; by rewrite Hz. }
  pose proof (reserve_run x s who value I) as Hre. cbv zeta in Hre.
  pose proof (unreserve_run (E := DispatchError) x s who value I) as Hun. cbv zeta in Hun. split.
  - destruct (reserve_check _ _) as [e|].
    + by apply (booked_Err _ _ x s s e); [apply Hre; unfold is_u in *; lia|].
    + destruct Hre as (s' & Hr & I' & _); [unfold is_u in *; lia|done|].
      by apply (booked_Ok _ _ x x s s' _ Hr); [..|lia].
  - destruct (_ =? _).
    + by apply (booked_Ok _ _ x x s s value); [apply Hun; unfold is_u in *; lia|..|lia].
    + destruct Hun as (s' & Hr & I' & _); [unfold is_u in *; lia|done|].
      by apply (booked_Ok _ _ x x s s' _ Hr); [..|lia].
Qed.

Lemma inv_set_issuance t x' : t = sum_balances (accounts s.1) + x' -> is_u bits t -> inv x' (set_issuance t s).
Proof. intros Ht Hu. destruct I as [I1 I2 _ _]. by split. Qed.

Lemma exec_issue : booked x (exec (OpIssue value) s).
Proof.
  simpl. pose proof (inv_issuance _ _ I) as Hi. pose proof (inv_issuance_u _ _ I) as Hu.
  destruct (Z.eqb_spec value 0) as [Hz|Hz].
  { apply (booked_Ok _ _ x x s s (Negative 0)); [|done|done|simpl; lia]. unfold issue. by rewrite Hz. }
  destruct (Z.ltb_spec (u_max bits) (issuance s + value)) as [Hov|Hok].
  - apply (booked_Ok _ _ x (x + (u_max bits - issuance s)) s (set_issuance (u_max bits) s) (Negative (u_max bits - issuance s)));
      [|apply inv_set_issuance|unfold is_u, u_max in *|]; try lia; try done.
    unfold issue. replace (value =? 0) with false by lia. erewrite bind_Ok by reflexivity. unfold checked_add.
    replace (checked bits (issuance s + value)) with (@None Z)
      by (symmetry; apply checked_None; unfold is_u, u_max in *; lia).
    erewrite bind_Ok by (unfold lift; rewrite usub_ok; [reflexivity|unfold is_u, u_max in *; lia]). done.
  - apply (booked_Ok _ _ x (x + value) s (set_issuance (issuance s + value) s) (Negative value));
      [|apply inv_set_issuance|unfold is_u in *|]; try lia; try done; [|unfold is_u, u_max in *; lia].
    unfold issue. replace (value =? 0) with false by lia. erewrite bind_Ok by reflexivity. unfold checked_add.
    by rewrite checked_ok by (unfold is_u, u_max in *; lia).
Qed.

Lemma exec_drop : value <= x -> booked x (exec (OpDrop value) s).
Proof.
  intros Hle. pose proof (inv_issuance _ _ I) as Hi. pose proof (inv_issuance_u _ _ I) as Hu. pose proof (inv_sum _ _ I) as Hm.
  assert (0 <= sum_balances (accounts s.1)) as Hs0 by (apply sum_balances_nonneg; intros k a; apply (inv_tot_nonneg I)).
  apply (booked_Ok _ _ x (x - value) s (set_issuance (issuance s - value) s) tt); [|apply inv_set_issuance| |];
    try (unfold is_u in *; lia).
  unfold drop_, modify, drop_value, NegativeImbalance_drop. simpl.
  by rewrite saturating_sub_max, Z.max_r by (unfold is_u in *; lia).
Qed.
End exec_one.

Lemma exec_booked (o : op) x s : inv x s -> 0 <= x -> allowed o x s = true -> booked x (exec o s).
Proof.
  intros I Hx Hall.
  destruct o; simpl in Hall; rewrite ?andb_true_iff, ?fits_spec, ?Z.leb_le in Hall; try destruct Hall as [Hu Hall].
  - by apply exec_transfer.
  - by apply exec_withdraw.
  - by apply exec_slash.
  - by apply exec_deposit.
  - by apply exec_deposit.
  - by apply exec_reserve.
  - by apply exec_reserve.
  - by apply exec_issue.
  - by apply exec_drop.
Qed.

(** C29. Conservation, over the currency operations of the pallet that move
    funds: transfers, withdrawals, slashes, both deposits, reserving and
    unreserving, issuing, and dropping a negative imbalance, with amounts that
    are balances and deposits and drops covered by the imbalances that are
    held.  One kind of call is left out (it is skipped): a withdrawal or slash
    that would reap an account whose provider reference other pallets still
    need.  The code fails or retries there after it has dropped the imbalance,
    so the issuance loses the balance of an account that keeps it
    ([withdraw_spec], [slash_spec]).  Over any sequence of the other calls,
    from any state with the invariant and for a positive existential deposit,
    no call panics, with overflow checks or without, and no failed call disturbs the books: the total issuance is the
    sum of all balances plus the imbalances the clients hold, every account is
    empty or holds the existential deposit, and every non-empty account has a
    provider reference. *)
Theorem conservation ops x s : inv x s -> 0 <= x ->
  exists x' s', exec_all ops x s = Ok (x', s') /\ 0 <= x' /\ inv x' s'.
Proof.
  revert x s. induction ops as [|o ops IH]; intros x s I Hx; simpl; [by exists x, s|].
  destruct (allowed o x s) eqn:Hall; [|by apply IH].
  pose proof (exec_booked o x s I Hx Hall) as Hb. destruct (exec o s) as [s' [d|e|]]; unfold booked in Hb; simpl in Hb.
  - destruct Hb. by apply IH.
  - by apply IH.
  - done.
Qed.

(** ** Burning *)
Lemma burn_extra x s who amount :
  let a := account who s in
  inv x s -> 0 <= x -> 0 < amount <= free a -> tot a - amount < ExistentialDeposit ->
  frozen a All <= free a - amount -> can_dec_provider who s = true ->
  withdraw_consequence who amount a s = ReducedToZero (tot a - amount).
Proof.
  intros a I Hx Ham Hlow Hfr Hdec. pose proof (inv_tot I who) as Ht. pose proof (inv_issuance _ _ I) as Hi.
  pose proof (inv_issuance_u _ _ I) as Hu. pose proof (inv_total I who) as Htot. fold a in Ht, Htot.
  destruct (inv_data I who) as (Hf & Hr & _). fold a in Hf, Hr.
  unfold withdraw_consequence, checked_sub. replace (amount =? 0) with false by lia. rewrite Htot.
  rewrite !checked_ok by (unfold is_u, tot in *; lia). replace (tot a - amount <? ExistentialDeposit) with true by lia.
  rewrite Hdec. by replace (free a - amount <? frozen a All) with false by lia.
Qed.

Lemma burn_closure_run x s who amount :
  let a := account who s in
  inv x s -> 0 <= x -> 0 < amount <= free a -> tot a - amount < ExistentialDeposit -> 0 < reserved a ->
  frozen a All <= free a - amount -> can_dec_provider who s = true ->
  burn_closure who amount a s = (s, if overflow_checks then Panic else Ok (with_free (2 ^ bits - reserved a) a, tot a)).
Proof.
  intros a I Hx Ham Hlow Hres Hfr Hdec. pose proof (burn_extra x s who amount I Hx Ham Hlow Hfr Hdec) as Hc. fold a in Hc.
  pose proof (inv_tot I who) as Ht. pose proof (inv_sum _ _ I) as Hsum.
  destruct (inv_data I who) as (Hf & Hr & _). fold a in Ht, Hf, Hr.
  unfold burn_closure. erewrite bind_Ok by reflexivity. cbv beta. rewrite Hc. erewrite bind_Ok by reflexivity.
  unfold lift, mbind, M_mbind. rewrite uadd_ok by (unfold is_u, tot, u_max in *; lia). cbv beta.
  replace (amount + (tot a - amount)) with (tot a) by lia. unfold usub, unchecked.
  replace (free a - tot a) with (- reserved a) by (unfold tot; lia).
  destruct (fits bits (- reserved a)) eqn:Hfit; [rewrite fits_spec in Hfit; unfold is_u in *; lia|].
  destruct overflow_checks; [done|]. unfold mret, M_mret. do 5 f_equal.
  symmetry. apply Z.mod_unique_pos with (q := -1); unfold is_u, bits in *; lia.
Qed.

(** [burn_from] of an account that keeps something reserved, when the
    burn leaves less than the existential deposit: the amount burnt becomes the
    whole balance, the reserved part included, but it is subtracted from the
    free balance alone.  With overflow checks the call panics; without, the
    free balance wraps around and the account ends up with almost 2^128. *)
Theorem burn_from_underflow x s who amount :
  let a := account who s in
  inv x s -> 0 <= x -> 0 < amount <= free a -> tot a - amount < ExistentialDeposit -> 0 < reserved a ->
  frozen a All <= free a - amount -> can_dec_provider who s = true ->
  let r := burn_from from_system from_balances who amount s in
  if overflow_checks then r.2 = Panic
  else r.2 = Ok (tot a) /\ account who r.1 = with_free (2 ^ bits - reserved a) a /\ issuance r.1 = issuance s - tot a.
Proof.
  intros a I Hx Ham Hlow Hres Hfr Hdec r. pose proof (burn_extra x s who amount I Hx Ham Hlow Hfr Hdec) as Hc. fold a in Hc.
  pose proof (inv_tot I who) as Ht. pose proof (inv_issuance _ _ I) as Hi. pose proof (inv_sum _ _ I) as Hsum.
  pose proof (inv_issuance_u _ _ I) as Hu. destruct (inv_data I who) as (Hf & Hr & _). fold a in Ht, Hf, Hr.
  unfold r, burn_from. replace (amount =? 0) with false by lia.
  match goal with |- context [try_mutate_account _ _ _ who ?f] => set (f0 := f) end.
  assert (forall b, f0 a b s = (s, if overflow_checks then Panic else Ok (with_free (2 ^ bits - reserved a) a, tot a))) as Hf0
    by (intros b; by apply (burn_closure_run x)).
  destruct overflow_checks.
  - unfold mbind, M_mbind, try_mutate_account, try_mutate_account_with_dust, StoredMap_try_mutate_exists, mbind, M_mbind, gets.
    change (data (Account_get who s)) with (account who s). fold a. destruct (is_providing a) eqn:Hp; simpl; [by rewrite Hf0|].
    pose proof (is_providing_alive x s who I) as Hal. fold a in Hal. rewrite Hal in Hp. unfold tot, is_u in *. lia.
  - assert (ExistentialDeposit <= total (with_free (2 ^ bits - reserved a) a)) as Hed.
    { unfold total, saturating_add, saturating. simpl. replace (_ <? 0) with false by (unfold bits; lia).
      replace (_ <? _) with false by lia. unfold is_u, u_max in *. lia. }
    pose proof (try_mutate_account_run dispatch_error who f0 s s _ _ (inv_account_ok I who) (Hf0 _) eq_refl Hu) as Hrun.
    rewrite (not_refused_alive _ _ _ Hed) in Hrun. destruct (kept_alive _ Hed) as [Hk Hd]. rewrite Hk, Hd in Hrun.
    destruct Hrun as (s1 & Hr1 & Hst). rewrite (bind_Ok _ _ _ _ _ Hr1). erewrite bind_Ok by reflexivity. cbv beta.
    assert (issuance s1 = issuance s) as Hi1.
    { unfold issuance at 1. rewrite (stored_rest _ _ _ _ _ Hst). simpl.
      rewrite saturating_sub_max by (done || lia). rewrite Z.sub_0_r, Z.max_r; [done|unfold is_u in *; lia]. }
    rewrite Hi1. unfold lift, mbind, M_mbind. rewrite usub_ok by (unfold is_u in *; lia). simpl.
    split_and!; [done| |done]. etransitivity; [|apply Hst]. by apply account_same.
Qed.
End inv.

(** The invariant of a given state is decided by evaluation. *)
#[export] Instance refs_ok_dec (a : AccountInfo AccountData) : Decision (refs_ok a).
Proof. unfold refs_ok. apply _. Defined.
#[export] Instance info_ok_dec `{Cfg : Config} a : Decision (info_ok a).
Proof. unfold info_ok, data_ok. apply _. Defined.

Lemma inv_compute {K} `{Countable K} {Ev R} `{Cfg : Config} x (s : St (K := K) (Ev := Ev) (R := R)) :
  bool_decide (map_Forall (fun _ a => info_ok a) (accounts s.1)) &&
  (sum_balances (accounts s.1) <=? u_max bits) && (issuance s =? sum_balances (accounts s.1) + x) && fits bits (issuance s) = true ->
  inv x s.
Proof. rewrite !andb_true_iff, bool_decide_eq_true, Z.leb_le, Z.eqb_eq, fits_spec. intros [[[? ?] ?] ?]. by split. Qed.

(** ** Concrete runtimes

    A ledger of the release profile with an existential deposit of 10. *)
Section demo.
#[local] Instance demo_checks : OverflowChecks := false.
#[local] Instance demo_config : Config := {| ExistentialDeposit := 10; MaxReserves := 4 |}.

Definition DemoEvent : Type := SystemEvent Z + Event Z.
Definition DemoSt : Type := St (K := Z) (Ev := DemoEvent) (R := unit).

Definition demo_empty : DemoSt := (mkSystem ∅ 1 None 0 [] ∅, (mkBalances 0 ∅ ∅, tt)).

Definition demo_after (ops : list (op (K := Z))) (s : DemoSt) : DemoSt :=
  match exec_all inl inr ops 0 s with Ok (_, s') => s' | _ => s end.

(** 1 holds 500, 2 holds 295 free and 5 reserved, 3 holds 12. *)
Definition demo_ledger : DemoSt :=
  demo_after [OpIssue 1000; OpDepositCreating 1 500; OpDepositCreating 2 300; OpDepositCreating 3 12;
              OpReserve 2 5; OpDrop 188] demo_empty.

(** 1 is consumed besides. *)
Definition demo_consumed : DemoSt := (inc_consumers 1 demo_ledger).1.

Lemma demo_ED_pos : 0 < ExistentialDeposit.
Proof. done. Qed.

Lemma demo_ED_bits : is_u bits ExistentialDeposit.
Proof. by vm_compute. Qed.

Lemma demo_ledger_inv : inv 0 demo_ledger.
Proof. apply inv_compute. by vm_compute. Qed.

Lemma demo_consumed_inv : inv 0 demo_consumed.
Proof. apply inv_compute. by vm_compute. Qed.

(** 3 sends 5 of its 12 to 2 and is reaped; a transfer of more than 3 has to
    itself is nothing. *)
Lemma transfer_spec_witness :
  transfer inl inr 3 3 99 KeepAlive demo_ledger = (demo_ledger, Ok tt) /\
  exists s', transfer inl inr 3 2 5 AllowDeath demo_ledger = (s', Ok tt) /\ inv 0 s' /\
    account 2 s' = mkAccountData 300 5 0 0 /\ account 3 s' = dflt /\ issuance s' = 805.
Proof.
  split; [apply (transfer_spec inl inr demo_ED_pos demo_ED_bits 0 demo_ledger 3 3 99 KeepAlive demo_ledger_inv); by vm_compute|].
  pose proof (transfer_spec inl inr demo_ED_pos demo_ED_bits 0 demo_ledger 3 2 5 AllowDeath demo_ledger_inv) as Hrun.
  cbn [Z.eqb orb] in Hrun. rewrite bool_decide_false in Hrun by done.
  replace (transfer_check _ _ _ _ _) with (@None DispatchError) in Hrun by (by vm_compute).
  destruct Hrun as (s' & Hr & I & [H1 H2 H3 H4]); [lia|by vm_compute|].
  exists s'. split_and!; [exact Hr|exact I|rewrite H2; by vm_compute|rewrite H1; by vm_compute|].
  unfold issuance. rewrite H4. by vm_compute.
Defined.

(** 1 is consumed: withdrawing 495 of its 500 fails, but costs the issuance 500. *)
Lemma withdraw_spec_witness :
  exists s', withdraw inl inr 1 495 FEE AllowDeath demo_consumed = (s', Err DispatchConsumerRemaining) /\
    account 1 s' = mkAccountData 500 0 0 0 /\ issuance demo_consumed = 812 /\ issuance s' = 312.
Proof.
  pose proof (withdraw_spec inl inr demo_ED_pos demo_ED_bits 0 demo_consumed 1 495 FEE AllowDeath demo_consumed_inv) as Hrun.
  cbv zeta in Hrun. replace (withdraw_check _ _ _ _) with (@None DispatchError) in Hrun by (by vm_compute).
  replace (refused _ _ _) with true in Hrun by (by vm_compute).
  destruct Hrun as (s' & Hr & Ha & Hs); [lia..|by vm_compute|]. exists s'. split_and!; [exact Hr| |by vm_compute|].
  - transitivity (account 1 demo_consumed); [apply account_same; by rewrite Ha|by vm_compute].
  - unfold issuance. rewrite Hs. by vm_compute.
Defined.

(** A slash of the whole of 1 leaves it the existential deposit. *)
Lemma slash_spec_witness :
  exists s', slash inl inr (E := unit) 1 600 demo_consumed = (s', Ok (Negative 490, 110)) /\
    account 1 s' = mkAccountData 10 0 0 0 /\ issuance s' = 312.
Proof.
  pose proof (slash_spec inl inr demo_ED_pos demo_ED_bits (E := unit) 0 demo_consumed 1 600 demo_consumed_inv) as Hrun.
  cbv zeta in Hrun. replace (refused _ _ _) with true in Hrun by (by vm_compute).
  replace (tot (account 1 demo_consumed)) with 500 in Hrun by (by vm_compute).
  destruct Hrun as (s' & Hr & _ & [H1 _ H3 _ _ _]); [lia..|by vm_compute|by vm_compute|]. exists s'. split_and!; [exact Hr| |].
  - rewrite H1. by vm_compute.
  - unfold issuance. rewrite H3. by vm_compute.
Defined.

Lemma reserve_unreserve_witness :
  exists s1 s2, reserve inl inr 2 100 demo_ledger = (s1, Ok tt) /\ account 2 s1 = mkAccountData 195 105 0 0 /\
    unreserve inl inr (E := unit) 2 100 s1 = (s2, Ok 0) /\ account 2 s2 = mkAccountData 295 5 0 0.
Proof.
  pose proof (reserve_unreserve inl inr demo_ED_pos demo_ED_bits (E := unit) 0 demo_ledger 2 100 demo_ledger_inv) as Hrun.
  cbv zeta in Hrun. replace (reserve_check _ _) with (@None DispatchError) in Hrun by (by vm_compute).
  destruct Hrun as (s1 & s2 & Hr1 & _ & [H1 _ _ _ _ _] & Hr2 & _ & H2 & _); [lia|by vm_compute|].
  exists s1, s2. split_and!; [exact Hr1|rewrite H1; by vm_compute|exact Hr2|rewrite H2; by vm_compute].
Defined.

(** All 5 that 2 has reserved become free, and 5 are reported as not moved. *)
Lemma repatriate_self_inverted_witness :
  exists s', repatriate_reserved inl inr 2 2 5 StatusFree demo_ledger = (s', Ok 5) /\
    account 2 s' = mkAccountData 300 0 0 0.
Proof.
  destruct (repatriate_self_inverted inl inr demo_ED_pos demo_ED_bits 0 demo_ledger 2 5 demo_ledger_inv)
    as (_ & s' & Hr & [H1 _ _ _ _ _]); [lia|by vm_compute|by vm_compute|].
  replace (reserved (account 2 demo_ledger)) with 5 in Hr by (by vm_compute).
  exists s'. split; [exact Hr|]. rewrite H1. by vm_compute.
Defined.

Lemma lock_spec_witness :
  exists s' ls, set_lock inl inr (E := unit) 7 1 200 FEE demo_ledger = (s', Ok tt) /\
    relocked 1 ls demo_ledger s' /\ mkLock 7 200 (Reasons_from FEE) ∈ ls.
Proof.
  destruct (lock_spec inl inr demo_ED_pos demo_ED_bits (E := unit) 0 demo_ledger 1 7 200 FEE demo_ledger_inv)
    as ((s' & ls & Hr & _ & Hrel & Hin) & _); [by vm_compute|lia|by vm_compute|done| |].
  { replace (locks_of 1 demo_ledger) with (@nil BalanceLock) by (by vm_compute). constructor. }
  exists s', ls. split_and!; [exact Hr|exact Hrel|]. rewrite Hin. by right.
Defined.

Lemma conservation_witness :
  exists x' s', exec_all inl inr [OpTransfer 1 4 30 KeepAlive; OpWithdraw 4 30 FEE AllowDeath; OpSlash 2 1000;
      OpDepositExisting 3 1; OpDrop 2] 0 demo_ledger = Ok (x', s') /\ 0 <= x' /\ inv x' s'.
Proof. apply (conservation inl inr demo_ED_pos demo_ED_bits _ 0 demo_ledger demo_ledger_inv). lia. Defined.

(** Burning 292 of the 295 that 2 has free. *)
Lemma burn_from_underflow_witness :
  account 2 (burn_from inl inr 2 292 demo_ledger).1 = mkAccountData (2 ^ 128 - 5) 5 0 0.
Proof.
  destruct (burn_from_underflow inl inr demo_ED_pos demo_ED_bits 0 demo_ledger 2 292 demo_ledger_inv)
    as (_ & Ha & _); [lia|by vm_compute..|]. rewrite Ha. by vm_compute.
Defined.
End demo.
