(* ===== verification/Currency.v ===== *)
(** * The currency interface of the pallets

    The traits [Currency], [LockableCurrency] and [ReservableCurrency] of
    [frame/support/src/traits/tokens/currency.rs], [currency/lockable.rs] and
    [currency/reservable.rs], as far as a pallet that locks or reserves funds uses
    them: classes of operations, and classes of the laws such a pallet relies on.  The balances pallet is shown to
    satisfy the laws, so that the theorems of a client proved against the
    interface hold of the runtime. *)

From Stdlib Require Import ZArith Lia.
From stdpp Require Import gmap option list.
From S2P Require Import Prelude System Balances BalancesInv.

Local Open Scope Z_scope.
Local Open Scope rust_scope.

(** ** Operations *)
Class LockableCurrency (S K : Type) : Type := {
  cur_free_balance : K -> S -> Z;
  cur_transfer : K -> K -> Z -> ExistenceRequirement -> M S DispatchError unit;
  cur_set_lock : Z -> K -> Z -> Z -> M S DispatchError unit;
  cur_extend_lock : Z -> K -> Z -> Z -> M S DispatchError unit;
  cur_remove_lock : Z -> K -> M S DispatchError unit }.

(** The reasons under which the clients lock. *)
Definition transfer_reserve : Z := Z.lor TRANSFER RESERVE.

(** ** Laws

    [cur_good] is the invariant of the implementation, [cur_alive] says that an
    account exists, and [cur_lock id who] is the amount that the lock [id] bars
    [who] from transferring.  [now] reads the block number. *)
Section observations.
Context {S K : Type} `{LockableCurrency S K}.
Context (lock : Z -> K -> S -> option Z) (alive : K -> S -> Prop) (now : S -> Z).

(** The lock [id] of [who] becomes [o]; nothing else changes. *)
Record relock (id : Z) (who : K) (o : option Z) (s s' : S) : Prop := {
  relock_at : lock id who s' = o;
  relock_other id' k : id' <> id \/ k <> who -> lock id' k s' = lock id' k s;
  relock_free k : cur_free_balance k s' = cur_free_balance k s;
  relock_alive k : alive k s -> alive k s';
  relock_now : now s' = now s }.

(** A transfer: the locked part of the sender stays. *)
Record moved_funds (from to : K) (value : Z) (s s' : S) : Prop := {
  moved_lock id k : lock id k s' = lock id k s;
  moved_now : now s' = now s;
  moved_alive k : k <> from -> alive k s -> alive k s';
  moved_to : alive to s' /\ cur_free_balance to s' = cur_free_balance to s + value;
  moved_from id a : lock id from s = Some a -> a <= cur_free_balance from s' /\ alive from s';
  moved_other k : k <> from -> k <> to -> cur_free_balance k s' = cur_free_balance k s }.
End observations.

Class LockableCurrencyLaws (S K : Type) `{LockableCurrency S K} (now : S -> Z) : Type := {
  cur_good : S -> Prop;
  cur_alive : K -> S -> Prop;
  cur_lock : Z -> K -> S -> option Z;
  cur_free_bits s who : cur_good s -> cur_free_balance who s ∈u bits;
  cur_free_alive s who : cur_good s -> 0 < cur_free_balance who s -> cur_alive who s;
  cur_lock_alive s id who a : cur_good s -> cur_lock id who s = Some a -> cur_alive who s;
  cur_set_lock_law s id who a : cur_good s -> cur_alive who s -> 0 < a -> a ∈u bits ->
    exists s', cur_set_lock id who a transfer_reserve s = (s', Ok tt) /\ cur_good s' /\
      relock cur_lock cur_alive now id who (Some a) s s';
  cur_remove_lock_law s id who : cur_good s -> cur_alive who s ->
    exists s', cur_remove_lock id who s = (s', Ok tt) /\ cur_good s' /\
      relock cur_lock cur_alive now id who None s s';
  cur_transfer_law s from to value er : cur_good s -> value ∈u bits ->
    match cur_transfer from to value er s with
    | (s', Ok _) =>
      cur_good s' /\ (value = 0 \/ from = to -> s' = s) /\
      (value <> 0 -> from <> to -> moved_funds cur_lock cur_alive now from to value s s')
    | (s', Err _) => s' = s
    | (_, Panic) => False
    end }.

(** *** Reserving funds *)
Class ReservableCurrency (S K : Type) : Type := {
  cur_reserve : K -> Z -> M S DispatchError unit;
  cur_unreserve : K -> Z -> M S DispatchError Z }.

(** The reserved balance of [who] changes by [v]; the others do not. *)
Definition rereserved {S K} (res_balance : K -> S -> Z) (who : K) (v : Z) (s s' : S) : Prop :=
  res_balance who s' = res_balance who s + v /\ forall k, k <> who -> res_balance k s' = res_balance k s.

Class ReservableCurrencyLaws (S K : Type) `{ReservableCurrency S K} : Type := {
  res_good : S -> Prop;
  res_balance : K -> S -> Z;
  res_balance_pos s who : res_good s -> 0 <= res_balance who s;
  cur_reserve_law s who v : res_good s -> v ∈u bits ->
    match cur_reserve who v s with
    | (s', Ok _) => res_good s' /\ rereserved res_balance who v s s'
    | (s', Err _) => s' = s
    | (_, Panic) => False
    end;
  cur_unreserve_law s who v : res_good s -> v ∈u bits -> let actual := Z.min (res_balance who s) v in
    exists s', cur_unreserve who v s = (s', Ok (v - actual)) /\ res_good s' /\ rereserved res_balance who (- actual) s s' }.

(** A step of another pallet that none of the observations can see. *)
Class Neutral {S K : Type} `{LockableCurrencyLaws S K now} (f : S -> S) : Prop := {
  neutral_good s : cur_good s -> cur_good (f s);
  neutral_alive k s : cur_alive k (f s) <-> cur_alive k s;
  neutral_lock id k s : cur_lock id k (f s) = cur_lock id k s;
  neutral_free k s : cur_free_balance k (f s) = cur_free_balance k s;
  neutral_now s : now (f s) = now s }.

(** ** The balances pallet *)
Section balances.
Context {K : Type} `{Countable K} {Ev R : Type} `{OC : OverflowChecks} `{Cfg : Config}.
Context (from_system : SystemEvent K -> Ev) (from_balances : Event K -> Ev).
Context (ED_pos : 0 < ExistentialDeposit) (ED_bits : ExistentialDeposit ∈u bits).
Abbreviation St := (St (K := K) (Ev := Ev) (R := R)).
Implicit Types (s : St) (who k : K) (ls : list BalanceLock).

#[local] Hint Extern 0 (Drop _ DustCleaner) => exact (DustCleaner_drop from_balances) : typeclass_instances.

#[local] Instance balances_currency : LockableCurrency St K := {
  cur_free_balance := free_balance;
  cur_transfer := transfer from_system from_balances;
  cur_set_lock := set_lock from_system from_balances;
  cur_extend_lock := extend_lock from_system from_balances;
  cur_remove_lock := remove_lock from_system from_balances }.

Definition now s : Z := block_number s.1.

(** *** No operation of the currency changes the block number *)
Lemma now_deposit_event {E} ev : keeps (E := E) now (deposit_event ev).
Proof.
  apply keeps_modify. intros s. unfold now. destruct (block_number s.1 =? 0); [done|]. by destruct (checked_add _ _ _).
Qed.

Lemma now_Account_put {E} who a : keeps (E := E) now (Account_put who a).
Proof. by apply keeps_modify. Qed.

#[local] Hint Resolve now_deposit_event now_Account_put : frame.

Lemma now_Account_try_mutate {E A} who (f : AccountInfo AccountData -> M St E (AccountInfo AccountData * A)) :
  (forall a, keeps now (f a)) -> keeps now (Account_try_mutate who f).
Proof. intros Hf. unfold Account_try_mutate. frame. Qed.

Lemma now_Account_try_mutate_exists {E A} who (f : option (AccountInfo AccountData) -> M St E (option (AccountInfo AccountData) * A)) :
  (forall a, keeps now (f a)) -> keeps now (Account_try_mutate_exists who f).
Proof. intros Hf. unfold Account_try_mutate_exists. frame. by apply keeps_modify. Qed.

#[local] Hint Resolve now_Account_try_mutate now_Account_try_mutate_exists : frame.

Lemma now_inc_providers {E} who : keeps (E := E) now (inc_providers from_system who).
Proof. unfold inc_providers. apply now_Account_try_mutate. unfold on_created_account. frame. Qed.

Lemma now_dec_providers who : keeps now (dec_providers from_system who).
Proof. unfold dec_providers. apply now_Account_try_mutate_exists. unfold on_killed_account. frame. Qed.

Lemma now_inc_consumers who : keeps now (inc_consumers who).
Proof. unfold inc_consumers. apply now_Account_try_mutate. frame. Qed.

Lemma now_dec_consumers {E} who : keeps (E := E) now (dec_consumers who).
Proof. unfold dec_consumers. apply now_Account_try_mutate. frame. Qed.

#[local] Hint Resolve now_inc_providers now_dec_providers now_inc_consumers now_dec_consumers : frame.

Lemma now_try_mutate_exists {E A} `{Drop St A} (from_error : StoredMapError -> E) who
    (f : option AccountData -> M St E (option AccountData * A)) :
  (forall (a : A) s, now (drop_value a s) = now s) -> (forall a, keeps now (f a)) ->
  keeps now (StoredMap_try_mutate_exists from_system from_error who f).
Proof.
  intros Hd Hf. unfold StoredMap_try_mutate_exists. frame; try (apply now_Account_try_mutate; frame).
  apply keeps_modify. auto.
Qed.

Lemma now_drop_issuance (o : option NegativeImbalance) s : now (drop_value o s) = now s.
Proof. by destruct o. Qed.

Lemma now_drop_cleaner (d : DustCleaner) s : now (drop_value d s) = now s.
Proof.
  destruct d as [[who dust]|]; [|done]. cbn [drop_value DustCleaner_drop].
  change (now (deposit_event (E := unit) (from_balances (DustLost who (negative dust))) s).1 = now s). apply now_deposit_event.
Qed.

Lemma now_with_dust {E A} `{Drop St A} (from_error : StoredMapError -> E) who
    (f : AccountData -> bool -> M St E (AccountData * A)) :
  (forall (a : A) s, now (drop_value a s) = now s) -> (forall a b, keeps now (f a b)) ->
  keeps now (try_mutate_account_with_dust from_system from_balances from_error who f).
Proof.
  intros Hd Hf. unfold try_mutate_account_with_dust, emit. frame. apply now_try_mutate_exists; [|frame].
  intros [[o1 o2] a] s. etransitivity; [apply (Hd a)|]. etransitivity; [apply (now_drop_issuance o2)|]. by destruct o1.
Qed.

Lemma now_transfer from to value er : keeps now (transfer from_system from_balances from to value er).
Proof.
  unfold transfer, emit. frame; try (by apply keeps_modify; intros; apply now_drop_cleaner).
  apply now_with_dust; [apply now_drop_cleaner|]. frame. apply now_with_dust; [done|].
  unfold transfer_closure, ensure_can_withdraw. frame.
Qed.

Lemma now_update_locks {E} who ls : keeps (E := E) now (update_locks from_system from_balances who ls).
Proof.
  unfold update_locks, attempt, mutate_account, try_mutate_account. frame; try by apply keeps_modify.
  - apply now_with_dust; [done|]. frame.
  - apply keeps_modify. apply now_drop_cleaner.
Qed.

(** *** The invariant with locks

    The locks of an account are in force: the account exists, it is consumed,
    so that no transfer can reap it, and its frozen balance covers them. *)
Definition bal_alive who s : Prop := 0 < tot (account who s).

Record locks_ok who ls s : Prop := {
  locks_some : ls <> [];
  locks_bits : Forall (fun l => lock_amount l ∈u bits) ls;
  locks_frozen : frozen_by Misc ls <= misc_frozen (account who s);
  locks_consumed : 0 < consumers (Account_get who s);
  locks_alive : bal_alive who s }.

Definition bal_good s : Prop := inv 0 s /\ forall who ls, Locks s.2.1 !! who = Some ls -> locks_ok who ls s.

Definition bal_lock (id : Z) who s : option Z :=
  match find_lock id (locks_of who s) with
  | Some l => if applies Misc l then Some (lock_amount l) else None
  | None => None
  end.

Lemma locks_ok_same who ls s s' : account who s' = account who s ->
  consumers (Account_get who s') = consumers (Account_get who s) -> locks_ok who ls s -> locks_ok who ls s'.
Proof. intros Ha Hc [H1 H2 H3 H4 H5]. split; [done..|by rewrite Ha|by rewrite Hc|unfold bal_alive; by rewrite Ha]. Qed.

Lemma locks_of_bits who s : bal_good s -> Forall (fun l => lock_amount l ∈u bits) (locks_of who s).
Proof.
  intros [_ Hl]. unfold locks_of. destruct (Locks s.2.1 !! who) as [ls|] eqn:E; simpl; [|constructor]. by eapply locks_bits, Hl.
Qed.

(** A lock is at most the frozen balance its list gives. *)
Lemma frozen_by_ge r ls l : l ∈ ls -> applies r l = true -> lock_amount l <= frozen_by r ls.
Proof.
  induction 1 as [l ls|l l' ls Hl IH]; intros Ha; simpl; [rewrite Ha; lia|]. specialize (IH Ha). destruct (applies r l'); lia.
Qed.

Lemma bal_lock_le id who s a : bal_good s -> bal_lock id who s = Some a ->
  exists ls, Locks s.2.1 !! who = Some ls /\ locks_ok who ls s /\ a <= misc_frozen (account who s).
Proof.
  intros [_ Hl]. unfold bal_lock, locks_of. destruct (Locks s.2.1 !! who) as [ls|] eqn:E; simpl; [|done].
  destruct (find_lock id ls) as [l|] eqn:Hf; [|done]. destruct (applies Misc l) eqn:Ha; [|done]. intros [= <-].
  exists ls. pose proof (Hl who ls E) as Hok. split_and!; [done..|].
  etransitivity; [|apply (locks_frozen _ _ _ Hok)]. apply frozen_by_ge; [by eapply find_lock_elem|done].
Qed.

(** *** Finding the locks of other ids *)
Lemma find_lock_cons id l ls : find_lock id (l :: ls) = if lock_id l =? id then Some l else find_lock id ls.
Proof. done. Qed.

Lemma find_lock_app id ls l : find_lock id (ls ++ [l]) =
  match find_lock id ls with Some l' => Some l' | None => find_lock id [l] end.
Proof. induction ls as [|l' ls IH]; [done|]. cbn [app]. rewrite !find_lock_cons. by destruct (lock_id l' =? id). Qed.

Lemma find_lock_replace id id' new taken ls : id' <> id -> lock_id new = id ->
  find_lock id' (replace_lock id (fun _ => new) taken ls).1 = find_lock id' ls.
Proof.
  intros Hne Hid. revert taken. induction ls as [|l ls IH]; intros taken; [done|]. cbn [replace_lock].
  rewrite find_lock_cons. destruct (Z.eqb_spec (lock_id l) id) as [Hl|Hl].
  - specialize (IH true). destruct (replace_lock id _ true ls) as [ls' t]. simpl in IH.
    replace (lock_id l =? id') with false by lia. destruct taken; cbn [fst]; [done|].
    rewrite find_lock_cons. by replace (lock_id new =? id') with false by lia.
  - specialize (IH taken). destruct (replace_lock id _ taken ls) as [ls' t]. cbn [fst] in *. rewrite find_lock_cons. by rewrite IH.
Qed.

Lemma find_lock_put id id' new ls : lock_id new = id ->
  find_lock id' (put_lock id (fun _ => new) new ls) = if id' =? id then Some new else find_lock id' ls.
Proof.
  intros Hid. destruct (Z.eqb_spec id' id) as [->|Hne].
  - pose proof (put_lock_spec id (fun _ => new) new ls) as Hs.
    destruct (find_lock id (put_lock id (fun _ => new) new ls)) as [l|] eqn:Hf.
    + pose proof (find_lock_elem _ _ _ Hf) as Hin. apply List.find_some in Hf as [_ Hl%Z.eqb_eq].
      apply Hs in Hin as [[_ Hne]|Heq]; [done|]. by destruct (find_lock id ls); subst.
    + exfalso. assert (In new (put_lock id (fun _ => new) new ls)) as Hin.
      { apply list_elem_of_In, Hs. right. by destruct (find_lock id ls). }
      pose proof (List.find_none _ _ Hf new Hin) as Hn. cbv beta in Hn. by rewrite Hid, Z.eqb_refl in Hn.
  - unfold put_lock. pose proof (find_lock_replace id id' new false ls Hne Hid) as Hr.
    destruct (replace_lock id _ false ls) as [ls' [|]]; cbn [fst] in Hr; [done|].
    rewrite find_lock_app, Hr. destruct (find_lock id' ls); [done|]. rewrite find_lock_cons. by replace (lock_id new =? id') with false by lia.
Qed.

Lemma find_lock_filter id id' ls :
  find_lock id' (List.filter (fun l => negb (lock_id l =? id)) ls) = if id' =? id then None else find_lock id' ls.
Proof.
  induction ls as [|l ls IH]; [by destruct (_ =? _)|]. cbn [List.filter]. rewrite find_lock_cons.
  destruct (Z.eqb_spec (lock_id l) id) as [Hl|Hl]; cbn [negb].
  - rewrite IH. destruct (Z.eqb_spec id' id); [done|]. by replace (lock_id l =? id') with false by lia.
  - rewrite find_lock_cons, IH. destruct (Z.eqb_spec id' id) as [->|]; [by replace (lock_id l =? id) with false by lia|done].
Qed.

(** *** The laws *)
Lemma relocked_good who ls s s' : bal_good s -> bal_alive who s -> Forall (fun l => lock_amount l ∈u bits) ls ->
  inv 0 s' -> relocked who ls s s' -> bal_good s'.
Proof.
  intros [I Hl] Hal Hls I' Hrel. split; [done|]. intros k ls' Hk. rewrite (relocked_locks _ _ _ _ Hrel) in Hk.
  destruct (decide (k = who)) as [->|Hne].
  - rewrite lookup_partial_alter_eq in Hk. destruct ls as [|l ls]; [done|]. injection Hk as <-.
    pose proof (relocked_data _ _ _ _ Hrel) as Hd. split; [done|done|by rewrite Hd| |unfold bal_alive; by rewrite Hd].
    apply (relocked_consumed _ _ _ _ Hrel); [done|]. intros [ls0 Hls0]. by apply (Hl who ls0).
  - rewrite lookup_partial_alter_ne in Hk by done. pose proof (relocked_other _ _ _ _ Hrel k Hne) as Hsame.
    apply (locks_ok_same k ls' s); [by apply account_same|unfold Account_get; by rewrite Hsame|by apply Hl].
Qed.

Lemma relocked_locks_of who ls s s' k : relocked who ls s s' ->
  locks_of k s' = if decide (k = who) then ls else locks_of k s.
Proof.
  intros Hrel. unfold locks_of. rewrite (relocked_locks _ _ _ _ Hrel). case_decide as Hk.
  - subst. rewrite lookup_partial_alter_eq. by destruct ls.
  - by rewrite lookup_partial_alter_ne.
Qed.

Lemma relocked_relock id who o ls s s' : relocked who ls s s' -> now s' = now s ->
  (forall id', find_lock id' ls = if id' =? id then o else find_lock id' (locks_of who s)) ->
  relock bal_lock bal_alive now id who
    (match o with Some l => if applies Misc l then Some (lock_amount l) else None | None => None end) s s'.
Proof.
  intros Hrel Hnow Hf.
  assert (forall k, account k s' = if decide (k = who) then locked ls (account who s) else account k s) as Hacc.
  { intros k. case_decide as Hk; [subst; apply Hrel|]. apply account_same. by apply Hrel. }
  split.
  - unfold bal_lock. rewrite (relocked_locks_of _ _ _ _ who Hrel), decide_True, Hf, Z.eqb_refl by done. done.
  - intros id' k Hne. unfold bal_lock. rewrite (relocked_locks_of _ _ _ _ k Hrel). case_decide as Hk; [|done]. subst k.
    rewrite Hf. destruct Hne as [Hne|]; [|done]. by replace (id' =? id) with false by lia.
  - intros k. cbn. unfold free_balance. rewrite Hacc. by case_decide as Hk; [subst|].
  - intros k. unfold bal_alive. rewrite Hacc. by case_decide as Hk; [subst|].
  - done.
Qed.

Lemma bal_set_lock_law s id who a : bal_good s -> bal_alive who s -> 0 < a -> a ∈u bits ->
  exists s', set_lock (E := DispatchError) from_system from_balances id who a transfer_reserve s = (s', Ok tt) /\ bal_good s' /\
    relock bal_lock bal_alive now id who (Some a) s s'.
Proof.
  intros Hg Hal Ha Hau. set (new := mkLock id a Misc). pose proof (locks_of_bits who s Hg) as Hls.
  assert (Forall (fun l => lock_amount l ∈u bits) (put_lock id (fun _ => new) new (locks_of who s))) as Hls' by by apply put_lock_u.
  destruct (update_locks_run from_system from_balances ED_pos ED_bits (E := DispatchError) 0 s who _ (proj1 Hg) Hal Hls') as (s' & Hrun & I' & Hrel).
  assert (now s' = now s) as Hnow by (rewrite <-(now_update_locks (E := DispatchError) who (put_lock id (fun _ => new) new (locks_of who s)) s); by rewrite Hrun).
  exists s'. split_and!; [|by eapply relocked_good|].
  - unfold set_lock. replace (a =? 0) with false by lia. exact Hrun.
  - apply (relocked_relock id who (Some new) _ s s' Hrel Hnow). intros id'. by apply find_lock_put.
Qed.

Lemma bal_remove_lock_law s id who : bal_good s -> bal_alive who s ->
  exists s', remove_lock (E := DispatchError) from_system from_balances id who s = (s', Ok tt) /\ bal_good s' /\
    relock bal_lock bal_alive now id who None s s'.
Proof.
  intros Hg Hal. set (ls := List.filter (fun l => negb (lock_id l =? id)) (locks_of who s)).
  assert (Forall (fun l => lock_amount l ∈u bits) ls) as Hls.
  { pose proof (locks_of_bits who s Hg) as Hls. rewrite Forall_forall in *. intros l [Hl _]%list_elem_of_In%List.filter_In.
    by apply Hls, list_elem_of_In. }
  destruct (update_locks_run from_system from_balances ED_pos ED_bits (E := DispatchError) 0 s who _ (proj1 Hg) Hal Hls) as (s' & Hrun & I' & Hrel).
  assert (now s' = now s) as Hnow by (rewrite <-(now_update_locks (E := DispatchError) who ls s); by rewrite Hrun).
  exists s'. split_and!; [exact Hrun|by eapply relocked_good|].
  apply (relocked_relock id who None ls s s' Hrel Hnow). intros id'. apply find_lock_filter.
Qed.

(** A consumed sender is left with the existential deposit. *)
Lemma transfer_keeps_consumed from to value er s : 0 < consumers (Account_get from s) ->
  transfer_check (account from s) (account to s) value er (is_provider_required from s) = None ->
  ExistentialDeposit <= total (debited value (account from s)).
Proof.
  intros Hc Hck. destruct (transfer_check_None _ _ _ _ _ Hck) as (_ & _ & _ & _ & Hd).
  destruct (Z.le_gt_cases ExistentialDeposit (total (debited value (account from s)))) as [|Hlt]; [done|].
  destruct (Hd ltac:(lia)) as [_ Hreq]. unfold is_provider_required in Hreq. lia.
Qed.

(** The accounts after a transfer, with their locks. *)
Lemma transferred_locks_ok s s' from to value er k ls : bal_good s -> inv 0 s' -> 0 < value ->
  transfer_check (account from s) (account to s) value er (is_provider_required from s) = None ->
  transferred from to value s s' -> Locks s.2.1 !! k = Some ls ->
  locks_ok k ls s' /\ (k = from -> free_balance from s' = free_balance from s - value).
Proof.
  intros [I Hl] I' Hv Hck Htr Hk. pose proof (Hl k ls Hk) as Hok. pose proof Hok as [H1 H2 H3 H4 H5].
  pose proof (transferred_cons _ _ _ _ _ Htr k) as Hcons.
  destruct (decide (k = from)) as [->|Hnf].
  - pose proof (transfer_keeps_consumed from to value er s H4 Hck) as Hed. destruct (kept_alive _ Hed) as [Hkept _].
    pose proof (transferred_from _ _ _ _ _ Htr) as Ha. rewrite Hkept in Ha. rewrite <-Ha, (inv_total I') in Hed.
    split; [|intros _; unfold free_balance; by rewrite Ha].
    split; [done..|by rewrite Ha|by rewrite Hcons|unfold bal_alive; lia].
  - split; [|done]. destruct (decide (k = to)) as [->|Hnt].
    + pose proof (transferred_to _ _ _ _ _ Htr) as Ha.
      split; [done..|by rewrite Ha|by rewrite Hcons|]. unfold bal_alive in *. rewrite Ha, tot_credited. lia.
    + apply (locks_ok_same k ls s); [|done|done]. apply account_same. by apply (transferred_other _ _ _ _ _ Htr).
Qed.

Lemma transferred_moved s s' from to value er : bal_good s -> inv 0 s' -> from <> to -> 0 < value -> now s' = now s ->
  transfer_check (account from s) (account to s) value er (is_provider_required from s) = None ->
  transferred from to value s s' ->
  bal_good s' /\ moved_funds bal_lock bal_alive now from to value s s'.
Proof.
  intros Hg I' Hne Hv Hnow Hck Htr. destruct (transfer_check_None _ _ _ _ _ Hck) as (_ & _ & Hed & Hfr & _).
  assert (Locks s'.2.1 = Locks s.2.1) as Hlk by (by rewrite (transferred_rest _ _ _ _ _ Htr)).
  assert (bal_good s') as Hg'.
  { split; [done|]. intros k ls Hk. rewrite Hlk in Hk. by eapply transferred_locks_ok. }
  pose proof (transferred_to _ _ _ _ _ Htr) as Ht. rewrite <-Ht, (inv_total I') in Hed.
  assert (forall k, k <> from -> k <> to -> account k s' = account k s) as Ho.
  { intros k Hk Hk'. apply account_same. by apply (transferred_other _ _ _ _ _ Htr). }
  split; [done|]. split.
  - intros id k. unfold bal_lock, locks_of. by rewrite Hlk.
  - done.
  - intros k Hk Hal. destruct (decide (k = to)) as [->|Hkt]; [unfold bal_alive; lia|]. unfold bal_alive. by rewrite Ho.
  - split; [unfold bal_alive; lia|]. cbn. unfold free_balance. by rewrite Ht.
  - intros id a Ha. destruct (bal_lock_le id from s a Hg Ha) as (ls & Hls & _ & Hle).
    destruct (transferred_locks_ok s s' from to value er from ls Hg I' Hv Hck Htr Hls) as [Hok Hfree].
    split; [|by apply (locks_alive _ _ _ Hok)]. cbn. rewrite Hfree by done. unfold free_balance. lia.
  - intros k Hk Hk'. cbn. unfold free_balance. by rewrite Ho.
Qed.

Lemma bal_transfer_law s from to value er : bal_good s -> value ∈u bits ->
  match transfer from_system from_balances from to value er s with
  | (s', Ok _) =>
    bal_good s' /\ (value = 0 \/ from = to -> s' = s) /\
    (value <> 0 -> from <> to -> moved_funds bal_lock bal_alive now from to value s s')
  | (s', Err _) => s' = s
  | (_, Panic) => False
  end.
Proof.
  intros Hg Hv. destruct (decide (value = 0 \/ from = to)) as [Hz|Hz].
  - unfold transfer. replace ((value =? 0) || bool_decide (from = to)) with true; [split_and!; [done|done|tauto]|].
    symmetry. apply orb_true_iff. rewrite Z.eqb_eq, bool_decide_eq_true. done.
  - assert (0 < value) as Hpos by (unfold is_u in Hv; lia). assert (from <> to) as Hne by tauto.
    pose proof (transfer_run from_system from_balances ED_pos ED_bits 0 s from to value er (proj1 Hg) ltac:(lia) Hne Hpos Hv) as Hrun.
    pose proof (now_transfer from to value er s) as Hnow.
    destruct (transfer_check _ _ _ _ _) eqn:Hck; [by rewrite Hrun|]. destruct Hrun as (s' & Hrun & I' & Htr).
    rewrite Hrun in Hnow |- *. destruct (transferred_moved s s' from to value er Hg I' Hne Hpos Hnow Hck Htr) as [Hg' Hm].
    split_and!; [done|tauto|done].
Qed.

#[local] Program Instance balances_currency_laws : LockableCurrencyLaws St K now := {
  cur_good := bal_good;
  cur_alive := bal_alive;
  cur_lock := bal_lock;
  cur_set_lock_law := bal_set_lock_law;
  cur_remove_lock_law := bal_remove_lock_law;
  cur_transfer_law := bal_transfer_law }.
Next Obligation. intros s who [I _]. cbn. unfold free_balance. by destruct (inv_data I who). Qed.
Next Obligation.
  intros s who [I _]. cbn. unfold free_balance, bal_alive, tot. destruct (inv_data I who) as (_ & Hr & _). unfold is_u in Hr. lia.
Qed.
Next Obligation. intros s id who a Hg Ha. destruct (bal_lock_le id who s a Hg Ha) as (ls & _ & Hok & _). apply Hok. Qed.

(** Depositing an event is invisible. *)
#[local] Instance deposit_neutral ev : Neutral (fun s => (deposit_event (E := unit) ev s).1).
Proof.
  assert (forall s, accounts (deposit_event (E := unit) ev s).1.1 = accounts s.1 /\ (deposit_event (E := unit) ev s).1.2 = s.2) as Hsame.
  { intros s. destruct (deposit_event_same (E := unit) ev s) as (s' & -> & Ha & Hr). done. }
  assert (forall k s, account k (deposit_event (E := unit) ev s).1 = account k s) as Hacc.
  { intros k s. destruct (Hsame s) as [Ha _]. by apply account_same; rewrite Ha. }
  split.
  - intros s [I Hl]. destruct (Hsame s) as [Ha Hr]. split; [eapply inv_ext; [done|done|unfold issuance; by rewrite Hr]|].
    intros who ls Hk. rewrite Hr in Hk. apply (locks_ok_same who ls s); [apply Hacc|unfold Account_get; by rewrite Ha|by apply Hl].
  - intros k s. cbn [cur_alive balances_currency_laws]. unfold bal_alive. by rewrite Hacc.
  - intros id k s. cbn [cur_lock balances_currency_laws]. unfold bal_lock, locks_of. destruct (Hsame s) as [_ Hr]. by rewrite Hr.
  - intros k s. cbn [cur_free_balance balances_currency]. unfold free_balance. by rewrite Hacc.
  - intros s. apply now_deposit_event.
Qed.

(** *** Reserving *)

#[local] Instance balances_reservable : ReservableCurrency St K := {
  cur_reserve := reserve from_system from_balances;
  cur_unreserve := unreserve from_system from_balances }.

Lemma stored_rereserved who d rest s s' : stored who d rest s s' -> rereserved reserved_balance who (reserved d - reserved_balance who s) s s'.
Proof.
  intros Hst. destruct Hst as [Hd Ho _ _ _ _]. split; [unfold reserved_balance; rewrite Hd; lia|].
  intros k Hk. unfold reserved_balance. f_equal. apply account_same. by apply Ho.
Qed.

Lemma bal_reserve_law s who v : inv 0 s -> v ∈u bits ->
  match reserve from_system from_balances who v s with
  | (s', Ok _) => inv 0 s' /\ rereserved reserved_balance who v s s'
  | (s', Err _) => s' = s
  | (_, Panic) => False
  end.
Proof.
  intros I Hv. destruct (decide (v = 0)) as [->|Hne]; [split; [done|]; split; [lia|done]|].
  pose proof (reserve_run from_system from_balances ED_pos ED_bits 0 s who v I ltac:(unfold is_u in Hv; lia) Hv) as Hrun. cbv zeta in Hrun.
  destruct (reserve_check (account who s) v); [by rewrite Hrun|]. destruct Hrun as (s' & Hrun & I' & Hst). rewrite Hrun. split; [done|].
  replace v with (reserved (moved v (account who s)) - reserved_balance who s) by (unfold reserved_balance; simpl; lia). by eapply stored_rereserved.
Qed.

Lemma bal_unreserve_law s who v : inv 0 s -> v ∈u bits -> let actual := Z.min (reserved_balance who s) v in
  exists s', unreserve (E := DispatchError) from_system from_balances who v s = (s', Ok (v - actual)) /\ inv 0 s' /\ rereserved reserved_balance who (- actual) s s'.
Proof.
  intros I Hv actual. destruct (inv_data I who) as (_ & Hr & _). destruct (decide (v = 0)) as [->|Hne].
  { exists s. assert (actual = 0) as -> by (unfold actual, reserved_balance, is_u in *; lia). split; [done|]. split; [done|]. split; [lia|done]. }
  pose proof (unreserve_run (E := DispatchError) from_system from_balances ED_pos ED_bits 0 s who v I ltac:(unfold is_u in Hv; lia) Hv) as Hrun. cbv zeta in Hrun.
  destruct (tot (account who s) =? 0) eqn:Hz.
  - apply Z.eqb_eq in Hz. pose proof (inv_data I who) as (Hf & _). assert (actual = 0) as -> by (unfold actual, reserved_balance, tot, is_u in *; lia).
    exists s. rewrite Z.sub_0_r. split; [done|]. split; [done|]. split; [lia|done].
  - destruct Hrun as (s' & Hrun & I' & Hst). exists s'. split; [done|]. split; [done|].
    replace (- actual) with (reserved (moved (- actual) (account who s)) - reserved_balance who s) by (unfold reserved_balance; simpl; lia). by eapply stored_rereserved.
Qed.

#[local] Program Instance balances_reservable_laws : ReservableCurrencyLaws St K := {
  res_good := inv 0;
  res_balance := reserved_balance;
  cur_reserve_law := bal_reserve_law;
  cur_unreserve_law := bal_unreserve_law }.
Next Obligation. intros s who I. destruct (inv_data I who) as (_ & Hr & _). unfold reserved_balance, is_u in *. lia. Qed.
End balances.
