(* ===== verification/Vesting.v ===== *)
(** * The vesting pallet

    Model of [frame/vesting/src/lib.rs]: schedules that unlock a fixed amount
    per block, kept by a lock on the account's currency.  The pallet is a
    client of the interface of module [Currency]: its theorems are proved from
    the laws of the interface and instantiated at the balances pallet.

    The state is that of the currency with the map of schedules.  The block
    number and the deposit of events belong to the system pallet; the
    conversion of block numbers to balances, the least vested transfer and the
    address lookup are the configuration. *)

From Stdlib Require Import ZArith Lia.
From stdpp Require Import gmap option list.
From S2P Require Import Prelude System Balances BalancesInv Currency.

Local Open Scope Z_scope.
Local Open Scope rust_scope.

(** ** Data *)
(** The eight bytes of "vesting ". *)
Definition VESTING_ID : Z := 0x76657374696e6720.

Record VestingInfo : Type := mkVesting {
  locked : Z;
  per_block : Z;
  starting_block : Z }.

Inductive Error : Type := NotVesting | ExistingVestingSchedule | AmountLow.

Inductive Event (K : Type) : Type :=
| VestingUpdated (who : K) (unvested : Z)
| VestingCompleted (who : K).

Arguments VestingUpdated {K} who unvested.
Arguments VestingCompleted {K} who.

(** The error of a call: one of this pallet or of what it calls. *)
Inductive CallError : Type :=
| VestingError (e : Error)
| OtherError (e : DispatchError).

(** The configuration; the node's is [ConvertInto] for the conversion. *)
Class VestingConfig : Type := {
  BlockNumberToBalance : Z -> Z;
  MinVestedTransfer : Z }.

(** [VestingInfo::locked_at]: block numbers have 32 bits. *)
Definition locked_at `{VestingConfig} (self : VestingInfo) (n : Z) : Z :=
  let vested_block_count := saturating_sub 32 n (starting_block self) in
  let vested_block_count := BlockNumberToBalance vested_block_count in
  match checked_mul bits vested_block_count (per_block self) with
  | Some balance => saturating_sub bits (locked self) balance
  | None => 0
  end.

(** ** The pallet *)
Section vesting.
Context {OC : OverflowChecks} {S K : Type} `{Countable K} {LC : LockableCurrency S K} {VC : VestingConfig}.
Context (block_number : S -> Z) (deposit : Event K -> S -> S).

(** The currency's state and the schedules. *)
Definition State : Type := S * gmap K VestingInfo.

Definition on_currency {A} (m : M S DispatchError A) : M State CallError A :=
  fun st => let '(s, r) := m st.1 in ((s, st.2), map_err OtherError r).

Definition deposit_event (e : Event K) : M State CallError unit :=
  modify (fun st => (deposit e st.1, st.2)).

Definition vesting (who : K) (st : State) : option VestingInfo := st.2 !! who.

Definition insert_schedule (who : K) (v : VestingInfo) : M State CallError unit :=
  modify (fun st => (st.1, <[who := v]> st.2)).
Definition remove_schedule (who : K) : M State CallError unit :=
  modify (fun st => (st.1, delete who st.2)).

Definition update_lock (who : K) : M State CallError unit :=
  o ← gets (vesting who);
  v ← lift (ok_or o (VestingError NotVesting));
  now ← gets (fun st => block_number st.1);
  let locked_now := locked_at v now in
  if locked_now =? 0 then
    _ ← on_currency (cur_remove_lock VESTING_ID who);
    _ ← remove_schedule who;
    deposit_event (VestingCompleted who)
  else
    let reasons := Z.lor TRANSFER RESERVE in
    _ ← on_currency (cur_set_lock VESTING_ID who locked_now reasons);
    deposit_event (VestingUpdated who locked_now).

(** [let res = ...; debug_assert!(res.is_ok())]: the result is not used. *)
Definition update_lock_unchecked (who : K) : M State CallError unit :=
  catch (update_lock who) (fun _ => lift (debug_assert true)) (fun _ => lift (debug_assert false)).

(** *** [VestingSchedule] *)
Definition vesting_balance (who : K) (st : State) : option Z :=
  match vesting who st with
  | Some v => Some (Z.min (cur_free_balance who st.1) (locked_at v (block_number st.1)))
  | None => None
  end.

Definition add_vesting_schedule (who : K) (locked per_block starting_block : Z) : M State CallError unit :=
  if locked =? 0 then mret tt
  else
    o ← gets (vesting who);
    match o with
    | Some _ => throw (VestingError ExistingVestingSchedule)
    | None =>
      _ ← insert_schedule who (mkVesting locked per_block starting_block);
      update_lock_unchecked who
    end.

Definition remove_vesting_schedule (who : K) : M State CallError unit :=
  _ ← remove_schedule who;
  update_lock_unchecked who.

(** *** Genesis *)
Definition genesis_entry (entry : K * Z * Z * Z) : M State CallError unit :=
  let '(who, begin, length, liquid) := entry in
  balance ← gets (fun st => cur_free_balance who st.1);
  _ ← lift (assert_ (negb (balance =? 0)));
  let locked := saturating_sub bits balance liquid in
  let length_as_balance := BlockNumberToBalance length in
  per_block ← lift (udiv locked (Z.max length_as_balance 1));
  _ ← insert_schedule who (mkVesting locked per_block begin);
  let reasons := Z.lor TRANSFER RESERVE in
  on_currency (cur_set_lock VESTING_ID who locked reasons).

Definition genesis_build (entries : list (K * Z * Z * Z)) : M State CallError unit :=
  for_each genesis_entry entries.

(** *** Calls *)
Section calls.
Context {Source : Type} (lookup : Source -> S -> option K).

Definition lookup_account (who : Source) : M State CallError K :=
  o ← gets (fun st => lookup who st.1); lift (ok_or o (OtherError CannotLookup)).

Definition vest (origin : Origin (K := K)) : M State CallError unit :=
  who ← lift (map_err OtherError (ensure_signed origin));
  update_lock who.

Definition vest_other (origin : Origin (K := K)) (target : Source) : M State CallError unit :=
  _ ← lift (map_err OtherError (ensure_signed origin));
  who ← lookup_account target;
  update_lock who.

(** The common end of the two transfers: [expect] panics on an error. *)
Definition transfer_and_vest (source target : K) (schedule : VestingInfo) : M State CallError unit :=
  o ← gets (vesting target);
  _ ← lift (ensure (negb (bool_decide (is_Some o))) (VestingError ExistingVestingSchedule));
  _ ← on_currency (cur_transfer source target (locked schedule) AllowDeath);
  catch (add_vesting_schedule target (locked schedule) (per_block schedule) (starting_block schedule))
    mret (fun _ => lift Panic).

Definition vested_transfer (origin : Origin (K := K)) (target : Source) (schedule : VestingInfo) : M State CallError unit :=
  transactor ← lift (map_err OtherError (ensure_signed origin));
  _ ← lift (ensure (MinVestedTransfer <=? locked schedule) (VestingError AmountLow));
  who ← lookup_account target;
  transfer_and_vest transactor who schedule.

Definition force_vested_transfer (origin : Origin (K := K)) (source target : Source) (schedule : VestingInfo) :
    M State CallError unit :=
  _ ← lift (map_err OtherError (ensure_root origin));
  _ ← lift (ensure (MinVestedTransfer <=? locked schedule) (VestingError AmountLow));
  target ← lookup_account target;
  source ← lookup_account source;
  transfer_and_vest source target schedule.
End calls.
End vesting.

(** ** Schedules *)
Section schedules.
Context {VC : VestingConfig} (convert_ok : forall n, n ∈u 32 -> BlockNumberToBalance n = n).

Definition valid (v : VestingInfo) : Prop := locked v ∈u bits /\ per_block v ∈u bits /\ starting_block v ∈u 32.

Lemma locked_at_eq v n : valid v -> n ∈u 32 ->
  locked_at v n = Z.max 0 (locked v - Z.max 0 (n - starting_block v) * per_block v).
Proof.
  intros (Hl & Hp & Hs) Hn. unfold locked_at, checked_mul. rewrite saturating_sub_max by (unfold is_u in *; lia).
  rewrite convert_ok by (unfold is_u in *; lia). set (c := Z.max 0 (n - starting_block v)).
  assert (0 <= c * per_block v) as Hc by (unfold is_u in *; apply Z.mul_nonneg_nonneg; lia).
  destruct (checked bits (c * per_block v)) as [b|] eqn:Hb.
  - apply checked_Some in Hb as [-> Hb]. by apply saturating_sub_max.
  - apply checked_None in Hb. unfold is_u in *. lia.
Qed.

Lemma locked_at_mono v n n' : valid v -> n ∈u 32 -> n' ∈u 32 -> n <= n' -> locked_at v n' <= locked_at v n.
Proof.
  intros Hv Hn Hn' Hle. rewrite !locked_at_eq by done. destruct Hv as (_ & [Hp _] & _).
  pose proof (Z.mul_le_mono_nonneg_r (Z.max 0 (n - starting_block v)) (Z.max 0 (n' - starting_block v)) (per_block v)). lia.
Qed.

Lemma locked_at_bits v n : valid v -> n ∈u 32 -> locked_at v n ∈u bits /\ locked_at v n <= locked v.
Proof.
  intros Hv Hn. rewrite locked_at_eq by done. destruct Hv as (Hl & [Hp _] & _).
  pose proof (Z.mul_nonneg_nonneg (Z.max 0 (n - starting_block v)) (per_block v)). unfold is_u in *. lia.
Qed.

(** The first block at which nothing is locked. *)
Definition end_block (v : VestingInfo) : Z := starting_block v + (locked v + per_block v - 1) / per_block v.

Lemma locked_at_zero v n : valid v -> n ∈u 32 -> 0 < locked v -> 0 < per_block v ->
  locked_at v n = 0 <-> end_block v <= n.
Proof.
  intros Hv Hn Hl Hp. rewrite locked_at_eq by done. unfold end_block. set (c := Z.max 0 (n - starting_block v)).
  set (q := (locked v + per_block v - 1) / per_block v).
  pose proof (Z.div_mod (locked v + per_block v - 1) (per_block v) ltac:(lia)) as Hdm. fold q in Hdm.
  pose proof (Z.mod_pos_bound (locked v + per_block v - 1) (per_block v) Hp) as Hm.
  assert (0 < q) as Hq by (apply Z.div_str_pos; lia).
  transitivity (q <= c); [|unfold c; lia]. split; intros Hc.
  - destruct (Z.le_gt_cases q c) as [|Hlt]; [done|]. pose proof (Z.mul_le_mono_nonneg_r c (q - 1) (per_block v)). lia.
  - pose proof (Z.mul_le_mono_nonneg_r q c (per_block v)). lia.
Qed.
End schedules.

(** ** Specification *)
Section spec.
Context {OC : OverflowChecks} {S K : Type} `{Countable K} {LC : LockableCurrency S K} {VC : VestingConfig}.
Context (block_number : S -> Z) (deposit : Event K -> S -> S).
Context {LL : LockableCurrencyLaws S K block_number} {Hdep : forall e, Neutral (deposit e)}.
Context (convert_ok : forall n, n ∈u 32 -> BlockNumberToBalance n = n).
Abbreviation State := (State (S := S) (K := K)).
Abbreviation relock := (relock cur_lock cur_alive block_number).
Abbreviation update_lock := (update_lock block_number deposit).
Implicit Types (s : S) (who : K) (st : State) (v : VestingInfo).

(** Every schedule is kept by a lock that covers the unvested amount, and the
    account holds what is locked. *)
Definition kept v who s : Prop :=
  valid v /\ exists a, cur_lock VESTING_ID who s = Some a /\ locked_at v (block_number s) <= a <= cur_free_balance who s.

Record vinv st : Prop := {
  vinv_good : cur_good st.1;
  vinv_now : block_number st.1 ∈u 32;
  vinv_kept who v : st.2 !! who = Some v -> kept v who st.1 }.

Lemma relock_neutral (f : S -> S) `{!Neutral f} id who o s s' : relock id who o s s' -> relock id who o s (f s').
Proof.
  intros [R1 R2 R3 R4 R5]. split.
  - by rewrite neutral_lock.
  - intros id' k Hne. rewrite neutral_lock. by apply R2.
  - intros k. by rewrite neutral_free.
  - intros k Hk. apply neutral_alive. auto.
  - by rewrite neutral_now.
Qed.

(** The effect of [update_lock] on a schedule. *)
Definition updated who v st st' : Prop :=
  cur_good st'.1 /\
  let left := locked_at v (block_number st.1) in
  if left =? 0 then relock VESTING_ID who None st.1 st'.1 /\ st'.2 = delete who st.2
  else relock VESTING_ID who (Some left) st.1 st'.1 /\ st'.2 = st.2.

Lemma on_currency_Ok {A B} (m : M S DispatchError A) (f : A -> M State CallError B) s (g : gmap K VestingInfo) s' a :
  m s = (s', Ok a) -> (on_currency m ≫= f) (s, g) = f a (s', g).
Proof. intros Hm. unfold mbind, M_mbind, on_currency. cbn [fst snd]. by rewrite Hm. Qed.

Lemma update_lock_run st who v : cur_good st.1 -> block_number st.1 ∈u 32 -> cur_alive who st.1 -> valid v ->
  st.2 !! who = Some v -> exists st', update_lock who st = (st', Ok tt) /\ updated who v st st'.
Proof.
  intros Hg Hn Hal Hv Hst. destruct st as [s g]. cbn [fst snd] in *. unfold Vesting.update_lock.
  erewrite bind_Ok by reflexivity. unfold vesting. cbn [snd]. rewrite Hst. erewrite !bind_Ok by reflexivity. cbn [fst].
  unfold updated. cbn [fst snd]. set (left := locked_at v (block_number s)).
  destruct (locked_at_bits convert_ok v _ Hv Hn) as [Hbits _]. fold left in Hbits.
  destruct (Z.eqb_spec left 0) as [Hz|Hz].
  - destruct (cur_remove_lock_law s VESTING_ID who Hg Hal) as (s' & Hrun & Hg' & Hrel). rewrite (on_currency_Ok _ _ _ _ _ _ Hrun).
    eexists. split; [reflexivity|]. cbn. split; [by apply neutral_good|]. split; [by apply relock_neutral|done].
  - destruct (cur_set_lock_law s VESTING_ID who left Hg Hal ltac:(unfold is_u in Hbits; lia) Hbits) as (s' & Hrun & Hg' & Hrel).
    rewrite (on_currency_Ok _ _ _ _ _ _ Hrun).
    eexists. split; [reflexivity|]. cbn. split; [by apply neutral_good|]. split; [by apply relock_neutral|done].
Qed.

(** A lock of another account does not matter to a schedule. *)
Lemma kept_relock id who k o s s' v : relock id who o s s' -> k <> who -> kept v k s -> kept v k s'.
Proof.
  intros [R1 R2 R3 R4 R5] Hne (Hv & a & Ha & Hle). split; [done|]. exists a. rewrite R2, R3, R5 by auto. done.
Qed.

Lemma updated_vinv who v st st' : cur_good st.1 -> block_number st.1 ∈u 32 -> valid v ->
  locked_at v (block_number st.1) <= cur_free_balance who st.1 -> st.2 !! who = Some v ->
  (forall k v', k <> who -> st.2 !! k = Some v' -> kept v' k st.1) -> updated who v st st' -> vinv st'.
Proof.
  intros Hg Hn Hv Hle Hst Hk [Hg' Hu]. cbv zeta in Hu.
  destruct (Z.eqb_spec (locked_at v (block_number st.1)) 0) as [Hz|Hz]; destruct Hu as [Hrel Hm];
    (split; [done|by rewrite (relock_now _ _ _ _ _ _ _ _ Hrel)|]); rewrite Hm; intros k v' Hk'.
  - apply lookup_delete_Some in Hk' as [Hne Hk']. eapply kept_relock; [done|done|by apply Hk].
  - destruct (decide (k = who)) as [->|Hne]; [|eapply kept_relock; [done|done|by apply Hk]].
    simplify_eq. split; [done|]. destruct Hrel as [R1 R2 R3 R4 R5]. eexists. split; [done|]. rewrite R3, R5. done.
Qed.

Lemma update_lock_vinv st who : vinv st ->
  match st.2 !! who with
  | None => update_lock who st = (st, Err (VestingError NotVesting))
  | Some v => exists st', update_lock who st = (st', Ok tt) /\ updated who v st st' /\ vinv st'
  end.
Proof.
  intros [Hg Hn Hk]. destruct (st.2 !! who) as [v|] eqn:Hv.
  - destruct (Hk who v Hv) as (Hval & a & Ha & Hle). pose proof (cur_lock_alive _ _ _ _ Hg Ha) as Hal.
    destruct (update_lock_run st who v Hg Hn Hal Hval Hv) as (st' & Hrun & Hu). exists st'. split_and!; [done..|].
    apply (updated_vinv who v st st'); [done..|lia|done|by intros; apply Hk|done].
  - unfold Vesting.update_lock. erewrite bind_Ok by reflexivity. unfold vesting. by rewrite Hv.
Qed.

(** *** Transfers *)
Lemma transfer_vinv st from to value er s' : vinv st -> value ∈u bits ->
  cur_transfer from to value er st.1 = (s', Ok tt) -> vinv (s', st.2).
Proof.
  intros [Hg Hn Hk] Hv Hrun. pose proof (cur_transfer_law st.1 from to value er Hg Hv) as Hlaw. rewrite Hrun in Hlaw.
  destruct Hlaw as (Hg' & Hsame & Hm). destruct (decide (value = 0 \/ from = to)) as [Hz|Hz].
  { rewrite (Hsame Hz). by split. }
  destruct Hm as [M1 M2 M3 M4 M5 M6]; [tauto..|]. split; cbn [fst snd]; [done|by rewrite M2|].
  intros k v Hkv. destruct (Hk k v Hkv) as (Hval & a & Ha & Hle). split; [done|]. exists a. rewrite M1, M2. split; [done|].
  destruct (decide (k = from)) as [->|Hnf]; [destruct (M5 _ _ Ha); lia|].
  destruct (decide (k = to)) as [->|Hnt]; [destruct M4 as [_ ->]; unfold is_u in Hv; lia|]. by rewrite M6.
Qed.

(** A new schedule on an account that holds its amount. *)
Lemma add_vesting_schedule_run st who v : vinv st -> valid v -> st.2 !! who = None ->
  (0 < locked v -> cur_alive who st.1 /\ locked v <= cur_free_balance who st.1) ->
  exists st', add_vesting_schedule block_number deposit who (locked v) (per_block v) (starting_block v) st = (st', Ok tt) /\ vinv st'.
Proof.
  intros Hi Hv Hno Hfree. pose proof Hi as [Hg Hn Hk]. unfold add_vesting_schedule.
  destruct (Z.eqb_spec (locked v) 0) as [Hz|Hz]; [by exists st|].
  destruct Hfree as [Hal Hle]; [destruct Hv as [Hl _]; unfold is_u in Hl; lia|].
  erewrite bind_Ok by reflexivity. unfold vesting. rewrite Hno. erewrite bind_Ok by reflexivity.
  set (st1 := (st.1, <[who := _]> st.2)). assert (st1.2 !! who = Some v) as Hv1 by (unfold st1; simpl; rewrite lookup_insert_eq; by destruct v).
  destruct (update_lock_run st1 who v Hg Hn Hal Hv Hv1) as (st' & Hrun & Hu). exists st'.
  unfold update_lock_unchecked, catch. rewrite Hrun. split; [unfold debug_assert, lift; by destruct overflow_checks|].
  apply (updated_vinv who v st1 st' Hg Hn Hv); [|done| |done].
  - destruct (locked_at_bits convert_ok v _ Hv Hn) as [_ Hb]. cbn [st1 fst]. lia.
  - intros k v' Hne Hk'. cbn [st1 snd fst] in *. rewrite lookup_insert_ne in Hk' by done. by apply Hk.
Qed.

(** What a call may do: succeed with the invariant, or fail with an error and
    change nothing. *)
Definition call_outcome st (r : State * res CallError unit) : Prop :=
  match r.2 with Ok _ => vinv r.1 | Err _ => r.1 = st | Panic => False end.

Lemma transfer_and_vest_outcome st source target v : vinv st -> valid v ->
  (source = target -> locked v <= cur_free_balance target st.1) ->
  call_outcome st (transfer_and_vest block_number deposit source target v st).
Proof.
  intros Hi Hv Hne. pose proof Hv as (Hl & _). unfold transfer_and_vest. erewrite bind_Ok by reflexivity. unfold vesting.
  destruct (st.2 !! target) as [v0|] eqn:Hno; [done|]. erewrite bind_Ok by (by rewrite bool_decide_false by (intros []; done)).
  pose proof (cur_transfer_law st.1 source target (locked v) AllowDeath (vinv_good _ Hi) Hl) as Hlaw.
  destruct (cur_transfer source target (locked v) AllowDeath st.1) as [s' r] eqn:Hrun.
  destruct r as [[]|e|]; [|unfold mbind, M_mbind, on_currency; rewrite Hrun; by destruct st; subst|done].
  pose proof (transfer_vinv st source target (locked v) AllowDeath s' Hi Hl Hrun) as Hi'.
  destruct Hlaw as (_ & Hsame & Hm). destruct (add_vesting_schedule_run (s', st.2) target v Hi' Hv Hno) as (st' & Hadd & Hi'').
  { intros Hpos. cbn [fst]. destruct (decide (source = target)) as [Heq|Hdiff].
    - rewrite Hsame by auto. specialize (Hne Heq). split; [|done]. apply cur_free_alive; [apply Hi|lia].
    - destruct Hm as [_ _ _ [Hal Hfr] _ _]; [lia|done|]. split; [done|]. rewrite Hfr.
      pose proof (cur_free_bits st.1 target (vinv_good _ Hi)) as Hb. unfold is_u in Hb. lia. }
  destruct st as [s g]. cbn [fst snd] in *. rewrite (on_currency_Ok _ _ _ _ _ _ Hrun). unfold catch. rewrite Hadd. done.
Qed.

(** *** Executions *)
Section executions.
Context {Source : Type} (lookup : Source -> S -> option K).

Inductive call : Type :=
| Vest (origin : Origin (K := K))
| VestOther (origin : Origin (K := K)) (target : Source)
| VestedTransfer (origin : Origin (K := K)) (target : Source) (schedule : VestingInfo)
| ForceVestedTransfer (origin : Origin (K := K)) (source target : Source) (schedule : VestingInfo).

Definition dispatch (c : call) : M State CallError unit :=
  match c with
  | Vest origin => vest block_number deposit origin
  | VestOther origin target => vest_other block_number deposit lookup origin target
  | VestedTransfer origin target schedule => vested_transfer block_number deposit lookup origin target schedule
  | ForceVestedTransfer origin source target schedule =>
    force_vested_transfer block_number deposit lookup origin source target schedule
  end.

(** Arguments in range.  A transfer to oneself moves nothing, and needs not be
    covered by the balance; a vested transfer to oneself is only admitted if it
    is. *)
Definition call_ok (c : call) st : Prop :=
  match c with
  | Vest _ | VestOther _ _ => True
  | VestedTransfer origin target v =>
    valid v /\ forall who, origin = Signed who -> lookup target st.1 = Some who -> locked v <= cur_free_balance who st.1
  | ForceVestedTransfer _ source target v =>
    valid v /\ forall who, lookup source st.1 = Some who -> lookup target st.1 = Some who -> locked v <= cur_free_balance who st.1
  end.

Lemma outcome_update st who : vinv st -> call_outcome st (update_lock who st).
Proof.
  intros Hi. pose proof (update_lock_vinv st who Hi) as Hu. destruct (st.2 !! who); [|by rewrite Hu].
  by destruct Hu as (st' & -> & _ & Hi').
Qed.

Lemma dispatch_outcome c st : vinv st -> call_ok c st -> call_outcome st (dispatch c st).
Proof.
  intros Hi Hc. destruct c as [o|o t|o t v|o src t v]; cbn [dispatch].
  - destruct o; [done|by apply outcome_update|done].
  - destruct o as [|w|]; [done| |done]. unfold vest_other, lookup_account. erewrite bind_Ok by reflexivity.
    unfold mbind, M_mbind, gets, lift. cbn. destruct (lookup t st.1); [by apply outcome_update|done].
  - destruct Hc as [Hv Hne]. destruct o as [|w|]; [done| |done]. unfold vested_transfer, lookup_account.
    unfold mbind, M_mbind, gets, lift, ensure. cbn. destruct (_ <=? _); [|done]. destruct (lookup t st.1) as [who|] eqn:Hl; [|done].
    apply transfer_and_vest_outcome; [done..|]. intros ->. by apply Hne.
  - destruct Hc as [Hv Hne]. destruct o; [|done..]. unfold force_vested_transfer, lookup_account.
    unfold mbind, M_mbind, gets, lift, ensure. cbn. destruct (_ <=? _); [|done]. destruct (lookup t st.1) as [who|] eqn:Hl; [|done].
    destruct (lookup src st.1) as [w|] eqn:Hs; [|done]. apply transfer_and_vest_outcome; [done..|]. intros ->. by apply Hne.
Qed.

(** A block passes: the number grows and the currency stays. *)
Record time_passes s s' : Prop := {
  time_good : cur_good s';
  time_lock id who : cur_lock id who s' = cur_lock id who s;
  time_free who : cur_free_balance who s' = cur_free_balance who s;
  time_now : block_number s <= block_number s' /\ block_number s' ∈u 32 }.

Inductive vstep : State -> State -> Prop :=
| step_call c st : call_ok c st -> vstep st (dispatch c st).1
| step_transfer st from to value er : value ∈u bits -> vstep st (on_currency (cur_transfer from to value er) st).1
| step_time st s' : time_passes st.1 s' -> vstep st (s', st.2).

Lemma vstep_vinv st st' : vinv st -> vstep st st' -> vinv st'.
Proof.
  intros Hi Hs. destruct Hs as [c st Hc|st from to value er Hv|st s' Ht].
  - pose proof (dispatch_outcome c st Hi Hc) as Ho. unfold call_outcome in Ho.
    destruct (dispatch c st) as [st' [a|e|]]; cbn [fst snd] in *; [done|by subst|done].
  - pose proof (cur_transfer_law st.1 from to value er (vinv_good _ Hi) Hv) as Hlaw. unfold on_currency.
    destruct (cur_transfer from to value er st.1) as [s' [[]|e|]] eqn:Hrun; cbn [fst]; [by eapply transfer_vinv| |done].
    subst. by destruct st.
  - destruct Ht as [T1 T2 T3 [T4 T5]]. destruct Hi as [Hg Hn Hk]. split; [done..|]. cbn [fst snd]. intros who v Hv.
    destruct (Hk who v Hv) as (Hval & a & Ha & Hle). split; [done|]. exists a. rewrite T2, T3. split; [done|].
    pose proof (locked_at_mono convert_ok v _ _ Hval Hn T5 T4). lia.
Qed.

Lemma rtc_vinv st st' : vinv st -> rtc vstep st st' -> vinv st'.
Proof. intros Hi Hr. induction Hr as [|st st1 st2 Hs Hr IH]; [done|]. eauto using vstep_vinv. Qed.
End executions.

(** *** Theorems *)
Lemma start_vinv s0 : cur_good s0 -> block_number s0 ∈u 32 -> vinv (s0, ∅).
Proof. intros Hg Hn. split; [done..|]. intros who v Hv. cbn in Hv. by rewrite lookup_empty in Hv. Qed.

(** C39. Unvested funds stay.  From a runtime without schedules, over any
    sequence of calls of the pallet, transfers of the currency and passing
    blocks, every account with a schedule carries the pallet's lock, for at
    least the amount that is unvested at the current block, and holds at least
    the locked amount in its free balance; [vesting_balance] reports exactly
    the unvested amount.  No call panics, and a call that fails changes
    nothing.  The calls are those whose schedule has amounts that are balances
    and a block number of 32 bits, without one kind: a vested transfer to
    oneself of more than one holds.  The currency takes it as a transfer that
    does nothing, so that the pallet locks more than the account has
    ([self_vested_transfer]). *)
Theorem unvested_funds_stay {Source} (lookup : Source -> S -> option K) s0 st :
  cur_good s0 -> block_number s0 ∈u 32 -> rtc (vstep lookup) (s0, ∅) st ->
  (forall c, call_ok lookup c st -> call_outcome st (dispatch lookup c st)) /\
  forall who v, st.2 !! who = Some v ->
    exists a, cur_lock VESTING_ID who st.1 = Some a /\
      locked_at v (block_number st.1) <= a <= cur_free_balance who st.1 /\
      vesting_balance block_number who st = Some (locked_at v (block_number st.1)).
Proof.
  intros Hg Hn Hr. pose proof (rtc_vinv lookup _ _ (start_vinv s0 Hg Hn) Hr) as Hi.
  split; [intros c; by apply dispatch_outcome|]. intros who v Hv. destruct (vinv_kept _ Hi who v Hv) as (_ & a & Ha & Hle).
  exists a. split_and!; [done|lia..|]. unfold vesting_balance, vesting. rewrite Hv. by rewrite Z.min_r by lia.
Qed.

(** C40. Vesting progresses and completes.  In every state reached as above,
    [vest] of an account with a schedule succeeds and sets the lock to exactly
    what is unvested at the current block: the initial amount less so much per
    block since the start.  When that is nothing the lock and the schedule are
    removed, and with a positive rate this happens from the block on at which
    the rate has covered the amount, rounded up, and not before; with a rate
    of zero the amount stays locked for ever.  Balances do not change. *)
Theorem vesting_completes {Source} (lookup : Source -> S -> option K) s0 st who v :
  cur_good s0 -> block_number s0 ∈u 32 -> rtc (vstep lookup) (s0, ∅) st -> st.2 !! who = Some v ->
  let now := block_number st.1 in
  let left := Z.max 0 (locked v - Z.max 0 (now - starting_block v) * per_block v) in
  exists st', vest block_number deposit (Signed who) st = (st', Ok tt) /\
    (if left =? 0 then cur_lock VESTING_ID who st'.1 = None /\ st'.2 = delete who st.2
     else cur_lock VESTING_ID who st'.1 = Some left /\ st'.2 = st.2) /\
    (forall k, cur_free_balance k st'.1 = cur_free_balance k st.1) /\
    (0 < locked v -> 0 < per_block v ->
       left = 0 <-> starting_block v + (locked v + per_block v - 1) / per_block v <= now) /\
    (per_block v = 0 -> left = locked v).
Proof.
  intros Hg Hn Hr Hv now left. pose proof (rtc_vinv lookup _ _ (start_vinv s0 Hg Hn) Hr) as Hi.
  pose proof (vinv_now _ Hi) as Hnow. destruct (vinv_kept _ Hi who v Hv) as [Hval _].
  pose proof (update_lock_vinv st who Hi) as Hu. rewrite Hv in Hu. destruct Hu as (st' & Hrun & [_ Hu] & _).
  cbv zeta in Hu. rewrite (locked_at_eq convert_ok v _ Hval Hnow) in Hu. fold now in Hu. fold left in Hu.
  exists st'. split; [exact Hrun|]. split_and!.
  - destruct (left =? 0); destruct Hu as [Hrel Hm]; (split; [apply Hrel|done]).
  - intros k. destruct (left =? 0); destruct Hu as [Hrel _]; apply Hrel.
  - intros Hl Hp. rewrite <-(locked_at_zero convert_ok v now Hval Hnow Hl Hp), (locked_at_eq convert_ok v now Hval Hnow). done.
  - intros Hp. unfold left. rewrite Hp, Z.mul_0_r. destruct Hval as [Hl _]. unfold is_u in Hl. lia.
Qed.

(** Removing a schedule does not remove the lock: [remove_vesting_schedule]
    deletes the schedule first and then updates the lock of an account that
    has none any more.  With debug assertions it panics; without, the lock
    stays as it was, and since the schedule is gone neither [vest] nor
    [vest_other] can ever lift it. *)
Theorem remove_keeps_lock st who a : cur_lock VESTING_ID who st.1 = Some a ->
  let st' := (st.1, delete who st.2) in
  remove_vesting_schedule block_number deposit who st = (st', if overflow_checks then Panic else Ok tt) /\
  cur_lock VESTING_ID who st'.1 = Some a /\
  vest block_number deposit (Signed who) st' = (st', Err (VestingError NotVesting)).
Proof.
  intros Ha st'.
  assert (update_lock who st' = (st', Err (VestingError NotVesting))) as Hu.
  { unfold Vesting.update_lock. erewrite bind_Ok by reflexivity. unfold vesting, st'. cbn [snd]. by rewrite lookup_delete_eq. }
  split_and!; [|done|exact Hu]. unfold remove_vesting_schedule. erewrite bind_Ok by reflexivity. fold st'.
  unfold update_lock_unchecked, catch. rewrite Hu. unfold lift, debug_assert. by destruct overflow_checks.
Qed.

(** A genesis entry vests at a rate rounded down, so that the schedule ends
    [length] blocks after its start only if [length] divides the amount; an
    amount below [length] never vests. *)
Lemma genesis_entry_run s g who begin length liquid : cur_good s -> cur_alive who s -> length ∈u 32 -> 0 < length ->
  0 <= liquid < cur_free_balance who s ->
  let amount := cur_free_balance who s - liquid in
  exists s', genesis_entry (who, begin, length, liquid) (s, g) = ((s', <[who := mkVesting amount (amount / length) begin]> g), Ok tt) /\
    cur_good s' /\ relock VESTING_ID who (Some amount) s s' /\
    (amount < length -> amount / length = 0) /\
    (length <= amount -> begin + length <= end_block (mkVesting amount (amount / length) begin)).
Proof.
  intros Hg Hal Hlen Hpos Hliq amount. pose proof (cur_free_bits s who Hg) as Hf. unfold genesis_entry.
  erewrite bind_Ok by reflexivity. cbn [fst]. replace (cur_free_balance who s =? 0) with false by lia. erewrite bind_Ok by reflexivity.
  rewrite saturating_sub_max by (done || lia). rewrite convert_ok by done. rewrite !Z.max_r, Z.max_l by lia.
  unfold udiv. replace (length =? 0) with false by lia. erewrite !bind_Ok by reflexivity. cbn [fst snd]. fold amount.
  assert (amount ∈u bits) as Hab by (unfold amount, is_u in *; lia).
  destruct (cur_set_lock_law s VESTING_ID who amount Hg Hal ltac:(unfold amount; lia) Hab) as (s' & Hrun & Hg' & Hrel).
  exists s'. split_and!; [|done|done| |].
  - unfold on_currency. cbn [fst snd]. change (Z.lor TRANSFER RESERVE) with transfer_reserve. by rewrite Hrun.
  - intros Hlt. apply Z.div_small. unfold amount, is_u in *; lia.
  - intros Hle. unfold end_block. cbn [starting_block locked per_block]. apply Z.add_le_mono_l.
    assert (0 < amount / length) as Hq by (apply Z.div_str_pos; lia).
    apply Z.div_le_lower_bound; [done|]. pose proof (Z.mul_div_le amount length Hpos). lia.
Qed.
End spec.

(** ** The runtime with balances and vesting *)
Module Demo.
#[local] Instance demo_checks : OverflowChecks := false.
#[local] Instance demo_config : Config := {| ExistentialDeposit := 10; MaxReserves := 4 |}.
#[local] Instance demo_vesting : VestingConfig := {| BlockNumberToBalance n := n; MinVestedTransfer := 20 |}.

Definition RuntimeEvent : Type := SystemEvent Z + (Balances.Event Z + Event Z).
Definition Ledger : Type := St (K := Z) (Ev := RuntimeEvent) (R := unit).

Definition from_balances (e : Balances.Event Z) : RuntimeEvent := inr (inl e).
Definition deposit (e : Event Z) (s : Ledger) : Ledger := (System.deposit_event (E := unit) (inr (inr e)) s).1.
Definition lookup (who : Z) (s : Ledger) : option Z := Some who.

#[local] Instance currency : LockableCurrency Ledger Z := balances_currency inl from_balances.
#[local] Instance laws : LockableCurrencyLaws Ledger Z now := balances_currency_laws inl from_balances eq_refl demo_ED_bits.
#[local] Instance neutral e : Neutral (deposit e) := deposit_neutral inl from_balances eq_refl demo_ED_bits (inr (inr e)).

(** 1 holds 500; block 5. *)
Definition genesis : Ledger :=
  (mkSystem {[1 := mkAccountInfo 0 0 1 0 (mkAccountData 500 0 0 0)]} 5 None 0 [] ∅, (mkBalances 500 ∅ ∅, tt)).

Lemma genesis_good : cur_good genesis.
Proof. split; [apply inv_compute; by vm_compute|]. intros who ls Hl. cbn [genesis fst snd Locks] in Hl. by rewrite lookup_empty in Hl. Qed.

(** 1 gives 100 to 2, vesting 30 per block from block 10 on. *)
Definition schedule : VestingInfo := mkVesting 100 30 10.
Definition granted : State (S := Ledger) (K := Z) :=
  (dispatch now deposit lookup (VestedTransfer (Signed 1) 2 schedule) (genesis, ∅)).1.

Definition at_block (n : Z) (s : Ledger) : Ledger :=
  (mkSystem (accounts s.1) n (execution_phase s.1) (event_count s.1) (events s.1) (event_topics s.1), s.2).
Definition later (n : Z) : State (S := Ledger) (K := Z) := (at_block n granted.1, granted.2).

Lemma granted_reachable : rtc (vstep now deposit lookup) (genesis, ∅) granted.
Proof. apply rtc_once. apply (step_call _ _ _ (VestedTransfer (Signed 1) 2 schedule)). split; [by vm_compute|]. by intros who [= <-] [=]. Qed.

Lemma convert_ok n : n ∈u 32 -> BlockNumberToBalance n = n.
Proof. done. Qed.

Lemma genesis_now : now genesis ∈u 32.
Proof. by vm_compute. Qed.

Lemma at_block_time s n : cur_good s -> now s <= n -> n ∈u 32 -> time_passes now s (at_block n s).
Proof.
  intros [I Hl] Hle Hn. split; [|done..]. split; [by eapply inv_ext|].
  intros who ls Hk. by apply (locks_ok_same who ls s), Hl.
Qed.

Lemma later_reachable n : 5 <= n -> n ∈u 32 -> rtc (vstep now deposit lookup) (genesis, ∅) (later n).
Proof.
  intros Hle Hn. eapply rtc_r; [apply granted_reachable|]. apply step_time, at_block_time; [|done..].
  apply (vinv_good now _ (rtc_vinv now deposit convert_ok lookup _ _ (start_vinv now genesis genesis_good genesis_now) granted_reachable)).
Qed.

(** At block 12 the lock of 100 still stands, and 40 are unvested. *)
Lemma unvested_funds_stay_witness :
  exists a, cur_lock VESTING_ID 2 (later 12).1 = Some a /\ 40 <= a <= cur_free_balance 2 (later 12).1.
Proof.
  destruct (unvested_funds_stay now deposit convert_ok lookup genesis (later 12) genesis_good genesis_now
    (later_reachable 12 ltac:(lia) ltac:(by vm_compute))) as [_ Hk].
  destruct (Hk 2 schedule ltac:(by vm_compute)) as (a & Ha & Hle & _). exists a. split; [exact Ha|]. exact Hle.
Defined.

Lemma later_schedule n : (later n).2 !! 2 = Some schedule.
Proof. change (granted.2 !! 2 = Some schedule). by vm_compute. Qed.

(** Three blocks leave 10 locked, the fourth completes the schedule. *)
Lemma vesting_completes_witness :
  exists st1 st2, vest now deposit (Signed 2) (later 13) = (st1, Ok tt) /\ cur_lock VESTING_ID 2 st1.1 = Some 10 /\
    vest now deposit (Signed 2) (later 14) = (st2, Ok tt) /\ cur_lock VESTING_ID 2 st2.1 = None /\ st2.2 = delete 2 (later 14).2.
Proof.
  pose proof (vesting_completes now deposit convert_ok lookup genesis (later 13) 2 schedule genesis_good genesis_now
    (later_reachable 13 ltac:(lia) ltac:(by vm_compute)) (later_schedule 13)) as H1.
  pose proof (vesting_completes now deposit convert_ok lookup genesis (later 14) 2 schedule genesis_good genesis_now
    (later_reachable 14 ltac:(lia) ltac:(by vm_compute)) (later_schedule 14)) as H2.
  cbv zeta in H1, H2. replace (now (later 13).1) with 13 in H1 by done. replace (now (later 14).1) with 14 in H2 by done.
  destruct H1 as (st1 & Hr1 & H1 & _), H2 as (st2 & Hr2 & H2 & _).
  exists st1, st2. split_and!; [exact Hr1|exact (proj1 H1)|exact Hr2|exact (proj1 H2)|exact (proj2 H2)].
Defined.

Lemma remove_keeps_lock_witness :
  cur_lock VESTING_ID 2 (remove_vesting_schedule now deposit 2 granted).1.1 = Some 100 /\
  (remove_vesting_schedule now deposit 2 granted).1.2 !! 2 = None.
Proof.
  destruct (remove_keeps_lock now deposit granted 2 100 ltac:(by vm_compute)) as (Hr & Hl & _).
  rewrite Hr. split; [exact Hl|by vm_compute].
Defined.

(** 1 holds 500 and makes a vested transfer of 600 to itself: it succeeds, and
    600 are locked. *)
Example self_vested_transfer :
  let '(st, r) := dispatch now deposit lookup (VestedTransfer (Signed 1) 1 (mkVesting 600 30 10)) (genesis, ∅) in
  r = Ok tt /\ cur_free_balance 1 st.1 = 500 /\ cur_lock VESTING_ID 1 st.1 = Some 600.
Proof. by vm_compute. Qed.
End Demo.
