(* ===== verification/Multisig.v ===== *)
(** * The multisig pallet

    Model of [frame/multisig/src/lib.rs]: calls that an account made up of
    several signatories dispatches once enough of them have approved.  The pallet
    uses the reservable currency of [Currency.v]; the rest of the runtime is a
    state of a parameter type.  The hash of a call, the account of a list of
    signatories and the codec of calls are parameters, as they are the work of
    the host and of another crate.  The pallet keeps a log of its outputs: the
    events it deposits and the calls it dispatches.  Weights are left out but for
    the limit on the weight of the call. *)

From Stdlib Require Import ZArith Lia Sorting.Sorted.
From stdpp Require Import gmap fin_maps option list sorting.
From S2P Require Import Prelude System Balances Currency.

Local Open Scope Z_scope.

(** ** Data *)

(** The order of account ids. *)
Class AccountOrd (K : Type) `{EqDecision K} : Type := {
  acc_lt : K -> K -> bool;
  acc_lt_irrefl a : acc_lt a a = false;
  acc_lt_trans a b c : acc_lt a b = true -> acc_lt b c = true -> acc_lt a c = true;
  acc_lt_total a b : a <> b -> acc_lt a b = true \/ acc_lt b a = true }.

Definition acc_cmp {K} `{AccountOrd K} (a b : K) : comparison := if decide (a = b) then Eq else if acc_lt a b then Lt else Gt.

(** The bytes of an encoded call. *)
Abbreviation OpaqueCall := (list Z).

Record Timepoint : Type := mkTimepoint { height : Z; index : Z }.

#[export] Instance Timepoint_eq_dec : EqDecision Timepoint.
Proof. solve_decision. Defined.

Record Multisig (K : Type) : Type := mkMultisig {
  when : Timepoint;
  deposit : Z;
  depositor : K;
  approvals : list K }.

Arguments mkMultisig {K} when deposit depositor approvals.
Arguments when {K} _.
Arguments deposit {K} _.
Arguments depositor {K} _.
Arguments approvals {K} _.

Inductive CallOrHash (CallHash : Type) : Type :=
| IsCall (call : OpaqueCall) (should_store : bool)
| IsHash (h : CallHash).

Arguments IsCall {CallHash} call should_store.
Arguments IsHash {CallHash} h.

Inductive MultisigError : Type :=
| MinimumThreshold | AlreadyApproved | NoApprovalsNeeded | TooFewSignatories | TooManySignatories | SignatoriesOutOfOrder
| SenderInSignatories | NotFound | NotOwner | NoTimepoint | WrongTimepoint | UnexpectedTimepoint | MaxWeightTooLow | AlreadyStored.

(** The error of a call: one of this pallet or of what it calls. *)
Inductive MultisigCallError : Type :=
| OfMultisig (e : MultisigError)
| OfRuntime (e : DispatchError).

Inductive MultisigEvent (K CallHash : Type) : Type :=
| NewMultisig (approving id : K) (h : CallHash)
| MultisigApproval (approving : K) (timepoint : Timepoint) (id : K) (h : CallHash)
| MultisigExecuted (approving : K) (timepoint : Timepoint) (id : K) (h : CallHash) (result : unit + MultisigCallError)
| MultisigCancelled (cancelling : K) (timepoint : Timepoint) (id : K) (h : CallHash).

Arguments NewMultisig {K CallHash} approving id h.
Arguments MultisigApproval {K CallHash} approving timepoint id h.
Arguments MultisigExecuted {K CallHash} approving timepoint id h result.
Arguments MultisigCancelled {K CallHash} cancelling timepoint id h.

(** What the pallet puts out.  [Dispatched by id h call]: the signatory [by] has
    the account [id] dispatch [call]; there is no hash with a threshold of one. *)
Inductive Output (K CallHash Call : Type) : Type :=
| Deposited (e : MultisigEvent K CallHash)
| Dispatched (by_ id : K) (h : option CallHash) (call : Call).

Arguments Deposited {K CallHash Call} e.
Arguments Dispatched {K CallHash Call} by_ id h call.

(** The calls of the runtime, those of this pallet among them. *)
Inductive RuntimeCall (K CallHash Other : Type) : Type :=
| AsMultiThreshold1 (other_signatories : list K) (call : RuntimeCall K CallHash Other)
| AsMulti (threshold : Z) (other_signatories : list K) (maybe_timepoint : option Timepoint) (call : OpaqueCall) (store_call : bool) (max_weight : Z)
| ApproveAsMulti (threshold : Z) (other_signatories : list K) (maybe_timepoint : option Timepoint) (call_hash : CallHash) (max_weight : Z)
| CancelAsMulti (threshold : Z) (other_signatories : list K) (timepoint : Timepoint) (call_hash : CallHash)
| OtherCall (call : Other).

Arguments AsMultiThreshold1 {K CallHash Other} other_signatories call.
Arguments AsMulti {K CallHash Other} threshold other_signatories maybe_timepoint call store_call max_weight.
Arguments ApproveAsMulti {K CallHash Other} threshold other_signatories maybe_timepoint call_hash max_weight.
Arguments CancelAsMulti {K CallHash Other} threshold other_signatories timepoint call_hash.
Arguments OtherCall {K CallHash Other} call.

(** The configuration, the hash of the host, the codec (of the tuple that an
    account of several is hashed from, of accounts, of calls) and what the pallet
    uses of the rest of the runtime. *)
Class MultisigConfig (S K CallHash Other : Type) : Type := {
  DepositBase : Z;
  DepositFactor : Z;
  MaxSignatories : Z;
  blake2_256 : list Z -> CallHash;
  encode_entropy : list Z -> list K -> Z -> list Z;
  decode_account : CallHash -> option K;
  default_account : K;
  decode_call : OpaqueCall -> option (RuntimeCall K CallHash Other);
  call_weight : RuntimeCall K CallHash Other -> Z;
  BaseCallFilter : RuntimeCall K CallHash Other -> bool;
  system_block_number : S -> Z;
  system_extrinsic_index : S -> option Z;
  dispatch_other : Other -> K -> M S DispatchError unit }.

(** The storage of the pallet, its outputs and the rest of the runtime. *)
Record MultisigState (S K CallHash Other : Type) `{Countable K} `{Countable CallHash} : Type := mkMultisigState {
  multisigs : gmap (K * CallHash) (Multisig K);
  calls : gmap CallHash (OpaqueCall * K * Z);
  outputs : list (Output K CallHash (RuntimeCall K CallHash Other));
  rest : S }.

Arguments mkMultisigState {S K CallHash Other _ _ _ _} multisigs calls outputs rest.
Arguments multisigs {S K CallHash Other _ _ _ _} _.
Arguments calls {S K CallHash Other _ _ _ _} _.
Arguments outputs {S K CallHash Other _ _ _ _} _.
Arguments rest {S K CallHash Other _ _ _ _} _.

(** [ensure_sorted_and_insert]: the loop of the checks, with the number of
    signatories below the sender, and the insertion. *)
Fixpoint check_signatories {K} `{AccountOrd K} (who : K) (maybe_last : option K) (l : list K) : res MultisigError nat :=
  match l with
  | [] => Ok 0%nat
  | item :: l =>
    _ ← ensure (match maybe_last with Some last => acc_lt last item | None => true end) SignatoriesOutOfOrder;
    _ ← ensure (negb (bool_decide (item = who))) SenderInSignatories;
    n ← check_signatories who (Some item) l;
    mret ((if acc_lt item who then 1 else 0) + n)%nat
  end.

Definition ensure_sorted_and_insert {K} `{AccountOrd K} (other_signatories : list K) (who : K) : res MultisigError (list K) :=
  index ← check_signatories who None other_signatories;
  mret (take index other_signatories ++ who :: drop index other_signatories).

Section pallet.
Context {OC : OverflowChecks} {S K CallHash Other : Type} `{Countable K} `{Countable CallHash} {AO : AccountOrd K}
  {RC : ReservableCurrency S K} {MC : MultisigConfig S K CallHash Other}.
Abbreviation Call := (RuntimeCall K CallHash Other).
Abbreviation State := (MultisigState S K CallHash Other).
Abbreviation MM := (M State MultisigCallError).
Implicit Types self : State.

(** The bytes of the prefix [modlpy/utilisuba]. *)
Definition multi_prefix : list Z := [109; 111; 100; 108; 112; 121; 47; 117; 116; 105; 108; 105; 115; 117; 98; 97].

Definition multi_account_id (who : list K) (threshold : Z) : K :=
  let entropy := blake2_256 (encode_entropy multi_prefix who threshold) in
  default default_account (decode_account entropy).

Definition timepoint (s : S) : Timepoint := mkTimepoint (system_block_number s) (default 0 (system_extrinsic_index s)).

Definition with_multisigs (f : gmap (K * CallHash) (Multisig K) -> gmap (K * CallHash) (Multisig K)) self : State :=
  mkMultisigState (f (multisigs self)) (calls self) (outputs self) (rest self).
Definition with_calls (f : gmap CallHash (OpaqueCall * K * Z) -> gmap CallHash (OpaqueCall * K * Z)) self : State :=
  mkMultisigState (multisigs self) (f (calls self)) (outputs self) (rest self).
Definition with_rest (r : S) self : State := mkMultisigState (multisigs self) (calls self) (outputs self) r.
Definition output (o : Output K CallHash Call) : MM unit :=
  modify (fun self => mkMultisigState (multisigs self) (calls self) (outputs self ++ [o]) (rest self)).

(** An operation of the rest of the runtime. *)
Definition on_rest {A} (m : M S DispatchError A) : MM A :=
  fun self => let '(r, x) := m (rest self) in (with_rest r self, map_err OfRuntime x).

Definition ensure_ (b : bool) (e : MultisigError) : MM unit := lift (ensure b (OfMultisig e)).

Definition deposit_event (e : MultisigEvent K CallHash) : MM unit := output (Deposited e).

(** ** Stored calls *)

Definition store_call_and_reserve (who : K) (hash : CallHash) (data : OpaqueCall) (other_deposit : Z) : MM unit :=
  self ← get;
  _ ← ensure_ (bool_decide (calls self !! hash = None)) AlreadyStored;
  base ← lift (uadd bits other_deposit DepositBase);
  per_word ← lift (umul bits DepositFactor (cast 32 ((Z.of_nat (length data) + 31) / 32)));
  deposit ← lift (uadd bits base per_word);
  _ ← on_rest (cur_reserve who deposit);
  modify (with_calls <[hash := (data, who, deposit)]>).

Definition get_call (hash : CallHash) (maybe_known : option OpaqueCall) self : option Call :=
  match maybe_known with
  | None => calls self !! hash ≫= fun '(data, _, _) => decode_call data
  | Some data => decode_call data
  end.

Definition clear_call (hash : CallHash) : MM unit :=
  self ← get;
  match calls self !! hash with
  | Some (_, who, deposit) => _ ← modify (with_calls (delete hash)); _ ← on_rest (cur_unreserve who deposit); mret tt
  | None => mret tt
  end.

(** ** Operations *)

Section dispatch.
(** [call.dispatch(RawOrigin::Signed(id))]. *)
Variable dispatch : Call -> K -> MM unit.

(** The call is made, and its result is a value. *)
Definition dispatch_as (who id : K) (h : option CallHash) (call : Call) : MM (unit + MultisigCallError) :=
  _ ← output (Dispatched who id h call);
  catch (dispatch call id) (fun r => mret (inl r)) (fun e => mret (inr e)).

(** The checks of the list of signatories, shared by the calls. *)
Definition signatories_of (other_signatories : list K) (who : K) : MM (list K) :=
  _ ← ensure_ (negb (bool_decide (other_signatories = []))) TooFewSignatories;
  _ ← ensure_ (Z.of_nat (length other_signatories) <? MaxSignatories) TooManySignatories;
  lift (map_err OfMultisig (ensure_sorted_and_insert other_signatories who)).

Definition as_multi_threshold_1 (who : K) (other_signatories : list K) (call : Call) : MM unit :=
  signatories ← signatories_of other_signatories who;
  let id := multi_account_id signatories 1 in
  result ← dispatch_as who id None call;
  match result with inl _ => mret tt | inr e => throw e end.

(** Where the approval goes, unless it was given or is not needed. *)
Definition approval_pos (m : Multisig K) (who : K) (threshold : Z) : res MultisigCallError (option nat) :=
  let n := cast 16 (Z.of_nat (length (approvals m))) in
  match binary_search_by (fun p => acc_cmp p who) (approvals m) with
  | Ok _ => Ok None
  | Err pos => Ok (if n <? threshold then Some pos else None)
  | Panic => Panic
  end.

(** The call is stored if that is wanted, and more is reserved for it. *)
Definition store_if_wanted (who : K) (hash : CallHash) (maybe_call : option OpaqueCall) (store : bool) (other_deposit : Z) : MM bool :=
  match maybe_call with
  | Some data => if store then _ ← store_call_and_reserve who hash data other_deposit; mret true else mret false
  | None => mret false
  end.

Definition execute (who id : K) (call_hash : CallHash) (m : Multisig K) (tp : Timepoint) (call : Call) (max_weight : Z) : MM unit :=
  _ ← ensure_ (call_weight call <=? max_weight) MaxWeightTooLow;
  _ ← modify (with_multisigs (delete (id, call_hash)));
  _ ← clear_call call_hash;
  _ ← on_rest (cur_unreserve (depositor m) (deposit m));
  result ← dispatch_as who id (Some call_hash) call;
  deposit_event (MultisigExecuted who tp id call_hash result).

Definition approve (who id : K) (call_hash : CallHash) (m : Multisig K) (tp : Timepoint) (maybe_pos : option nat) (stored : bool) : MM unit :=
  match maybe_pos with
  | Some pos =>
    let m := mkMultisig (when m) (deposit m) (depositor m) (take pos (approvals m) ++ who :: drop pos (approvals m)) in
    _ ← modify (with_multisigs <[(id, call_hash) := m]>);
    deposit_event (MultisigApproval who tp id call_hash)
  | None => ensure_ stored AlreadyApproved
  end.

(** The operation is open. *)
Definition continue_ (who id : K) (threshold : Z) (call_hash : CallHash) (maybe_call : option OpaqueCall) (store : bool)
    (maybe_timepoint : option Timepoint) (max_weight : Z) (m : Multisig K) : MM unit :=
  tp ← lift (ok_or maybe_timepoint (OfMultisig NoTimepoint));
  _ ← ensure_ (bool_decide (when m = tp)) WrongTimepoint;
  maybe_pos ← lift (approval_pos m who threshold);
  let n := cast 16 (Z.of_nat (length (approvals m))) in
  n ← (if maybe_pos is Some _ then lift (uadd 16 n 1) else mret n);
  self ← get;
  match (if threshold <=? n then get_call call_hash maybe_call self else None) with
  | Some call => execute who id call_hash m tp call max_weight
  | None =>
    stored ← store_if_wanted who call_hash maybe_call store 0;
    approve who id call_hash m tp maybe_pos stored
  end.

(** The operation is not open. *)
Definition open_ (who id : K) (threshold : Z) (call_hash : CallHash) (maybe_call : option OpaqueCall) (store : bool)
    (maybe_timepoint : option Timepoint) : MM unit :=
  _ ← ensure_ (bool_decide (maybe_timepoint = None)) UnexpectedTimepoint;
  per_approval ← lift (umul bits DepositFactor threshold);
  deposit ← lift (uadd bits DepositBase per_approval);
  stored ← store_if_wanted who call_hash maybe_call store deposit;
  _ ← (if stored : bool then mret tt else on_rest (cur_reserve who deposit));
  self ← get;
  _ ← modify (with_multisigs <[(id, call_hash) := mkMultisig (timepoint (rest self)) deposit who [who]]>);
  deposit_event (NewMultisig who id call_hash).

Definition operate (who : K) (threshold : Z) (other_signatories : list K) (maybe_timepoint : option Timepoint)
    (call_or_hash : CallOrHash CallHash) (max_weight : Z) : MM unit :=
  _ ← ensure_ (2 <=? threshold) MinimumThreshold;
  signatories ← signatories_of other_signatories who;
  let id := multi_account_id signatories threshold in
  let '(call_hash, maybe_call, store) :=
    match call_or_hash with
    | IsCall call should_store => (blake2_256 call, Some call, should_store)
    | IsHash h => (h, None, false)
    end in
  self ← get;
  match multisigs self !! (id, call_hash) with
  | Some m => continue_ who id threshold call_hash maybe_call store maybe_timepoint max_weight m
  | None => open_ who id threshold call_hash maybe_call store maybe_timepoint
  end.

Definition as_multi (who : K) (threshold : Z) (other_signatories : list K) (maybe_timepoint : option Timepoint)
    (call : OpaqueCall) (store_call : bool) (max_weight : Z) : MM unit :=
  operate who threshold other_signatories maybe_timepoint (IsCall call store_call) max_weight.

Definition approve_as_multi (who : K) (threshold : Z) (other_signatories : list K) (maybe_timepoint : option Timepoint)
    (call_hash : CallHash) (max_weight : Z) : MM unit :=
  operate who threshold other_signatories maybe_timepoint (IsHash call_hash) max_weight.
End dispatch.

Definition cancel_as_multi (who : K) (threshold : Z) (other_signatories : list K) (tp : Timepoint) (call_hash : CallHash) : MM unit :=
  _ ← ensure_ (2 <=? threshold) MinimumThreshold;
  signatories ← signatories_of other_signatories who;
  let id := multi_account_id signatories threshold in
  self ← get;
  m ← lift (ok_or (multisigs self !! (id, call_hash)) (OfMultisig NotFound));
  _ ← ensure_ (bool_decide (when m = tp)) WrongTimepoint;
  _ ← ensure_ (bool_decide (depositor m = who)) NotOwner;
  err_amount ← on_rest (cur_unreserve (depositor m) (deposit m));
  _ ← lift (debug_assert (err_amount =? 0));
  _ ← modify (with_multisigs (delete (id, call_hash)));
  _ ← clear_call call_hash;
  deposit_event (MultisigCancelled who tp id call_hash).

(** The dispatch of the calls of the runtime; the fuel bounds how deep calls
    are nested. *)
Fixpoint dispatch_call (depth : nat) (call : Call) (who : K) : MM unit :=
  match depth with
  | O => lift Panic
  | Datatypes.S depth =>
    if negb (BaseCallFilter call) then throw (OfRuntime BadOrigin)
    else match call with
    | AsMultiThreshold1 others call => as_multi_threshold_1 (dispatch_call depth) who others call
    | AsMulti threshold others maybe_timepoint call store_call max_weight =>
      as_multi (dispatch_call depth) who threshold others maybe_timepoint call store_call max_weight
    | ApproveAsMulti threshold others maybe_timepoint call_hash max_weight =>
      approve_as_multi (dispatch_call depth) who threshold others maybe_timepoint call_hash max_weight
    | CancelAsMulti threshold others tp call_hash => cancel_as_multi who threshold others tp call_hash
    | OtherCall call => on_rest (dispatch_other call who)
    end
  end.
End pallet.
