(* ===== verification/MultisigSafe.v ===== *)
(** * What the multisig pallet guarantees

    Theorems about the model of [Multisig.v].  The log of the outputs tells who
    has approved an operation since it was opened: in every execution, nested
    calls included, an account of several dispatches a call only if as many of
    its signatories as the threshold approved that call.  Conversely that many
    approvals do dispatch it.  A call that fails changes nothing, and what an
    operation that is opened and cancelled leaves of the deposits. *)

From Stdlib Require Import ZArith Lia Sorting.Sorted.
From stdpp Require Import gmap fin_maps option list sorting.
From S2P Require Import Prelude System Balances BalancesInv Currency Multisig.

Local Open Scope Z_scope.
Local Open Scope rust_scope.

(** ** Lists of signatories *)
Section signatories.
Context {K : Type} `{AO : AccountOrd K}.
Implicit Types (who a b : K) (l sigs : list K).

Definition below a b : Prop := acc_lt a b = true.

Lemma below_irrefl a : ~ below a a.
Proof. unfold below. by rewrite acc_lt_irrefl. Qed.

#[export] Instance below_trans : Transitive below.
Proof. intros a b c. apply acc_lt_trans. Qed.

Lemma acc_below_antisym a b : below a b -> below b a -> a = b.
Proof. intros H1 H2. destruct (below_irrefl a). by etrans. Qed.

Lemma not_below a b : acc_lt a b = false -> a <> b -> below b a.
Proof. intros Hf Hne. destruct (acc_lt_total a b Hne); [congruence|done]. Qed.

Lemma sorted_NoDup l : StronglySorted below l -> NoDup l.
Proof.
  induction 1 as [|a l Hs IH Ha]; constructor; [|done]. intros Hin. rewrite Forall_forall in Ha. by destruct (below_irrefl a (Ha a Hin)).
Qed.

Lemma sorted_perm_eq l l' : StronglySorted below l -> StronglySorted below l' -> l ≡ₚ l' -> l = l'.
Proof. intros H1 H2 Hp. apply (StronglySorted_unique_strong below); [intros a b _ _; apply acc_below_antisym|done|done|done]. Qed.

(** Inserting an account where it belongs. *)
Lemma insert_sorted i who l : StronglySorted below l -> Forall (fun a => below a who) (take i l) -> Forall (below who) (drop i l) ->
  StronglySorted below (take i l ++ who :: drop i l) /\ take i l ++ who :: drop i l ≡ₚ who :: l /\ who ∉ l.
Proof.
  intros Hs Ht Hd. split; [by apply StronglySorted_insert|]. split.
  - by rewrite <-Permutation_middle, take_drop.
  - rewrite <-(take_drop i l), elem_of_app. rewrite Forall_forall in Ht, Hd. intros [Hin|Hin]; by destruct (below_irrefl who); auto.
Qed.

Lemma check_sound who last l n : check_signatories who last l = Ok n ->
  StronglySorted below (option_list last ++ l) /\ Forall (fun a => below a who) (take n l) /\ Forall (below who) (drop n l).
Proof.
  revert last n. induction l as [|a l IH]; intros last n Hc; simpl in Hc.
  { simplify_eq. split; [destruct last; repeat constructor|done]. }
  destruct (match last with Some b => acc_lt b a | None => true end) eqn:Hlast; [|done]. simpl in Hc.
  case_bool_decide as Hne; [done|]. simpl in Hc. destruct (check_signatories who (Some a) l) as [k|e|] eqn:Hk; try done.
  injection Hc as <-. destruct (IH _ _ Hk) as (Hs & Ht & Hd). simpl in Hs. split.
  { destruct last as [b|]; [|done]. simpl. constructor; [done|]. apply StronglySorted_inv in Hs as [_ Hs].
    constructor; [done|]. eapply Forall_impl; [exact Hs|]. intros c Hc'. by etrans. }
  destruct (acc_lt a who) eqn:Haw; [by split; [constructor|]|]. apply not_below in Haw; [|done].
  apply StronglySorted_inv in Hs as [_ Ha]. assert (k = 0%nat) as ->.
  { destruct k as [|k]; [done|]. destruct l as [|c l]; [done|]. simpl in Ht. apply Forall_cons in Ht as [Hcw _].
    apply Forall_cons in Ha as [Hac _]. destruct (below_irrefl a). exact (below_trans _ _ _ Hac (below_trans _ _ _ Hcw Haw)). }
  split; [constructor|]. simpl. by constructor.
Qed.

Lemma check_complete who last l : StronglySorted below (option_list last ++ l) -> who ∉ l ->
  exists n, check_signatories who last l = Ok n.
Proof.
  revert last. induction l as [|a l IH]; intros last Hs Hin; [by eexists|]. rewrite not_elem_of_cons in Hin. destruct Hin as [Hne Hin]. simpl.
  assert ((match last with Some b => acc_lt b a | None => true end) = true) as ->.
  { destruct last as [b|]; [|done]. apply StronglySorted_inv in Hs as [_ Hs]. by apply Forall_cons in Hs as [? _]. }
  simpl. rewrite bool_decide_false by done. simpl. destruct (IH (Some a)) as [n Hn]; [|done|].
  { destruct last; [by apply StronglySorted_inv in Hs as [Hs _]|done]. }
  rewrite Hn. simpl. by eexists.
Qed.

Lemma ensure_sorted_and_insert_sound others who sigs : ensure_sorted_and_insert others who = Ok sigs ->
  StronglySorted below sigs /\ sigs ≡ₚ who :: others.
Proof.
  unfold ensure_sorted_and_insert. destruct (check_signatories who None others) as [n|e|] eqn:Hc; try done. simpl. intros [= <-].
  destruct (check_sound _ _ _ _ Hc) as (Hs & Ht & Hd). by destruct (insert_sorted n who others Hs Ht Hd) as (? & ? & _).
Qed.

(** A signatory that names the others is accepted, whichever it is. *)
Lemma ensure_sorted_and_insert_complete sigs who : StronglySorted below sigs -> who ∈ sigs ->
  ensure_sorted_and_insert (filter (.≠ who) sigs) who = Ok sigs.
Proof.
  intros Hs Hin. destruct (check_complete who None (filter (.≠ who) sigs)) as [n Hn].
  { by apply StronglySorted_filter. }
  { intros Hf. by apply list_elem_of_filter in Hf as [? _]. }
  assert (ensure_sorted_and_insert (filter (.≠ who) sigs) who
    = Ok (take n (filter (.≠ who) sigs) ++ who :: drop n (filter (.≠ who) sigs))) as Hrun.
  { unfold ensure_sorted_and_insert. by rewrite Hn. }
  rewrite Hrun. f_equal. destruct (ensure_sorted_and_insert_sound _ _ _ Hrun) as [Hs' Hp].
  apply sorted_perm_eq; [done|done|]. rewrite Hp. apply NoDup_Permutation.
  - constructor; [intros Hf; by apply list_elem_of_filter in Hf as [? _]|]. by apply NoDup_filter, sorted_NoDup.
  - by apply sorted_NoDup.
  - intros a. rewrite elem_of_cons, list_elem_of_filter. destruct (decide (a = who)) as [->|]; naive_solver.
Qed.

(** The search of an account in sorted approvals. *)
Lemma search_approvals who l : StronglySorted below l ->
  match binary_search_by (fun p => acc_cmp p who) l with
  | Ok _ => who ∈ l
  | Err i => StronglySorted below (take i l ++ who :: drop i l) /\ take i l ++ who :: drop i l ≡ₚ who :: l /\ who ∉ l
  | Panic => False
  end.
Proof.
  intros Hs. assert (partitioned (fun p => acc_cmp p who) l) as Hp.
  { unfold partitioned. eapply StronglySorted_weaken; [|exact Hs]. intros a b Hab. unfold acc_cmp. split.
    - destruct (decide (b = who)) as [->|]; [done|]. destruct (acc_lt b who) eqn:Hb; [|done]. intros _.
      assert (below a who) as Ha by (by etrans). rewrite decide_False by (intros ->; by destruct (below_irrefl who)). by rewrite Ha.
    - destruct (decide (a = who)) as [->|Hne]; [done|]. destruct (acc_lt a who) eqn:Ha; [done|]. intros _.
      assert (below who b) as Hb by (etrans; [by apply not_below|done]). rewrite decide_False by (intros ->; by destruct (below_irrefl who)).
      destruct (acc_lt b who) eqn:Hf; [|done]. destruct (below_irrefl b). by etrans. }
  pose proof (binary_search_by_spec _ l Hp) as Hsp. unfold search_outcome in Hsp.
  destruct (binary_search_by _ l) as [i|i|]; [| |done].
  - destruct Hsp as (a & Ha & Hc). unfold acc_cmp in Hc. destruct (decide (a = who)) as [->|]; [by eapply list_elem_of_lookup_2|].
    by destruct (acc_lt a who).
  - destruct Hsp as (_ & Ht & Hd). apply insert_sorted; [done| |].
    + eapply Forall_impl; [exact Ht|]. intros a. unfold acc_cmp. case_decide; [done|]. by destruct (acc_lt a who) eqn:?.
    + eapply Forall_impl; [exact Hd|]. intros a. unfold acc_cmp. case_decide; [done|]. destruct (acc_lt a who) eqn:?; [done|].
      intros _. by apply not_below.
Qed.
End signatories.

(** ** Safety *)
Section safety.
Context {OC : OverflowChecks} {S K CallHash Other : Type} `{Countable K} `{Countable CallHash} {AO : AccountOrd K}
  {RC : ReservableCurrency S K} {MC : MultisigConfig S K CallHash Other}.
Abbreviation Call := (RuntimeCall K CallHash Other).
Abbreviation State := (MultisigState S K CallHash Other).
Abbreviation Log := (list (Output K CallHash Call)).
Abbreviation MM := (M State MultisigCallError).
Implicit Types (self : State) (l : Log) (who id : K) (h : CallHash) (sigs : list K).

(** *** What the log tells *)

Definition approval_step id h (A : gset K) (o : Output K CallHash Call) : gset K :=
  match o with
  | Deposited (NewMultisig a id' h') => if decide ((id', h') = (id, h)) then {[a]} else A
  | Deposited (MultisigApproval a _ id' h') => if decide ((id', h') = (id, h)) then {[a]} ∪ A else A
  | Deposited (MultisigCancelled _ _ id' h') => if decide ((id', h') = (id, h)) then ∅ else A
  | Deposited (MultisigExecuted _ _ _ _ _) => A
  | Dispatched _ id' (Some h') _ => if decide ((id', h') = (id, h)) then ∅ else A
  | Dispatched _ _ None _ => A
  end.

(** Who approved the call of hash [h] for [id] since the operation was opened. *)
Definition approvers id h l : gset K := foldl (approval_step id h) ∅ l.

Definition signatories_ok sigs : Prop := StronglySorted below sigs /\ Z.of_nat (length sigs) <= MaxSignatories.

(** Enough signatories stand behind a call that is dispatched after [l]. *)
Definition justified l who id (oh : option CallHash) (c : Call) : Prop :=
  exists sigs threshold, signatories_ok sigs /\ id = multi_account_id sigs threshold /\ who ∈ sigs /\
    match oh with
    | None => threshold = 1
    | Some h =>
      2 <= threshold /\
      (exists A : list K, NoDup A /\ A ⊆ sigs /\ threshold <= Z.of_nat (length A) /\
        forall a, a ∈ A -> a = who \/ a ∈ approvers id h l) /\
      exists data, decode_call data = Some c /\ blake2_256 data = h
    end.

Definition log_ok l : Prop :=
  forall l1 who id oh c l2, l = l1 ++ Dispatched who id oh c :: l2 -> justified l1 who id oh c.

(** *** The invariant *)

Record record_ok l id h (m : Multisig K) : Prop := mk_record_ok {
  rec_sorted : StronglySorted below (approvals m);
  rec_signed : forall a, a ∈ approvals m -> a ∈ approvers id h l;
  rec_deposit : deposit m ∈u bits;
  rec_sigs : exists sigs threshold, signatories_ok sigs /\ id = multi_account_id sigs threshold /\ approvals m ⊆ sigs }.

Record multisig_inv self : Prop := mk_multisig_inv {
  inv_records : forall id h m, multisigs self !! (id, h) = Some m -> record_ok (outputs self) id h m;
  inv_calls : forall h data k d, calls self !! h = Some (data, k, d) -> blake2_256 data = h /\ d ∈u bits;
  inv_log : log_ok (outputs self) }.

(** The states of the runtime: extrinsics are dispatched one after the other, and
    between them the rest of the runtime may change. *)
Inductive multisig_reach : State -> Prop :=
| reach_genesis r : multisig_reach (mkMultisigState ∅ ∅ [] r)
| reach_rest self r : multisig_reach self -> multisig_reach (with_rest r self)
| reach_dispatch self depth call who : multisig_reach self -> multisig_reach (dispatch_call depth call who self).1.

(** *** Triples: the invariant holds however the computation ends *)
Definition triple {A} (P : State -> Prop) (m : MM A) (Q : A -> State -> Prop) : Prop :=
  forall self, P self -> match m self with (self', Ok a) => Q a self' | (self', _) => multisig_inv self' end.

Lemma triple_bind {A B} P (m : MM A) Q (f : A -> MM B) R : triple P m Q -> (forall a, triple (Q a) (f a) R) -> triple P (m ≫= f) R.
Proof.
  intros Hm Hf self HP. specialize (Hm self HP). unfold mbind, M_mbind. destruct (m self) as [self' [a|e|]]; [|done|done]. by apply Hf.
Qed.

Lemma triple_pre {A} (P P' : State -> Prop) (m : MM A) Q : (forall self, P self -> P' self) -> triple P' m Q -> triple P m Q.
Proof. intros HP Hm self Hs. apply Hm. auto. Qed.

Lemma triple_post {A} P (m : MM A) (Q Q' : A -> State -> Prop) : (forall a self, Q a self -> Q' a self) -> triple P m Q -> triple P m Q'.
Proof. intros HQ Hm self Hs. specialize (Hm self Hs). destruct (m self) as [self' [a|e|]]; auto. Qed.

(** A step that only reads the state, or computes a value. *)
Lemma triple_lift {A} (P : State -> Prop) (r : res MultisigCallError A) : (forall self, P self -> multisig_inv self) ->
  triple P (lift r) (fun a self => P self /\ r = Ok a).
Proof. intros HP self Hs. unfold lift. destruct r; auto. Qed.

Lemma triple_get (P : State -> Prop) : triple P (get : MM State) (fun s self => P self /\ P s).
Proof. by intros self Hs. Qed.

Lemma triple_mret {A} (a : A) (P : State -> Prop) : triple P (mret a) (fun _ => P).
Proof. by intros self Hs. Qed.

Lemma triple_modify (f : State -> State) (P Q : State -> Prop) : (forall self, P self -> Q (f self)) -> triple P (modify f : MM unit) (fun _ => Q).
Proof. intros Hf self Hs. by apply Hf. Qed.

Lemma triple_ensure (P : State -> Prop) b e : (forall self, P self -> multisig_inv self) ->
  triple P (ensure_ b e) (fun _ self => P self /\ b = true).
Proof. intros HP self Hs. unfold ensure_, ensure, lift. destruct b; auto. Qed.

(** The rest of the runtime does not matter. *)
Lemma triple_on_rest {A} (P : State -> Prop) (m : _ -> _ * res _ A) : (forall self, P self -> multisig_inv self) ->
  (forall self r, P self -> P (with_rest r self)) -> triple P (on_rest m) (fun _ => P).
Proof.
  intros HP Hr self Hs. unfold on_rest. destruct (m (rest self)) as [r [a|e|]]; simpl; auto.
Qed.

(** *** The log grows *)

Lemma approvers_snoc id h l o : approvers id h (l ++ [o]) = approval_step id h (approvers id h l) o.
Proof. unfold approvers. by rewrite foldl_app. Qed.

Lemma log_ok_snoc l o : log_ok l -> (forall who id oh c, o = Dispatched who id oh c -> justified l who id oh c) -> log_ok (l ++ [o]).
Proof.
  intros Hl Ho l1 who id oh c l2 Heq. destruct l2 as [|o' l2 _] using rev_ind.
  - apply app_inj_tail in Heq as [-> ->]. by apply Ho.
  - rewrite app_comm_cons, app_assoc in Heq. apply app_inj_tail in Heq as [-> _]. by eapply Hl.
Qed.

Lemma record_ok_log l l' id h m : approvers id h l ⊆ approvers id h l' -> record_ok l id h m -> record_ok l' id h m.
Proof. intros Hl [Hs Ha Hd Hsig]. split; [done| |done|done]. auto. Qed.

(** An output that takes no approval from a record that stays. *)
Lemma push_inv ms cs l r o : multisig_inv (mkMultisigState ms cs l r) ->
  (forall id h, is_Some (ms !! (id, h)) -> approvers id h l ⊆ approval_step id h (approvers id h l) o) ->
  (forall who id oh c, o = Dispatched who id oh c -> justified l who id oh c) ->
  multisig_inv (mkMultisigState ms cs (l ++ [o]) r).
Proof.
  intros [Hr Hc Hl] Ho Hj. split; [|done|by apply log_ok_snoc]. intros id h m Hm. simpl in *.
  eapply record_ok_log; [|by apply Hr]. rewrite approvers_snoc. apply Ho. by eexists.
Qed.

(** *** The steps of an operation *)

(** The invariant, with the records and the log that it is about. *)
Record frozen (ms : gmap (K * CallHash) (Multisig K)) l self : Prop := mk_frozen {
  fz_inv : multisig_inv self;
  fz_ms : multisigs self = ms;
  fz_log : outputs self = l }.

Lemma frozen_intro self : multisig_inv self -> frozen (multisigs self) (outputs self) self.
Proof. by split. Qed.

Lemma frozen_rest ms l self r : frozen ms l self -> frozen ms l (with_rest r self).
Proof. intros [[Hr Hc Hl] Hms Ho]. by split. Qed.

Lemma frozen_on_rest {A} ms l (m : M S DispatchError A) : triple (frozen ms l) (on_rest m) (fun _ => frozen ms l).
Proof. apply triple_on_rest; [by intros self []|]. intros. by apply frozen_rest. Qed.

Lemma frozen_lift {A} ms l (r : res MultisigCallError A) : triple (frozen ms l) (lift r) (fun a self => frozen ms l self /\ r = Ok a).
Proof. apply triple_lift. by intros self []. Qed.

Lemma frozen_ensure ms l b e : triple (frozen ms l) (ensure_ b e) (fun _ self => frozen ms l self /\ b = true).
Proof. apply triple_ensure. by intros self []. Qed.

(** A fact that does not speak of the state leaves the precondition. *)
Lemma triple_fact {A} (F : Prop) (P : State -> Prop) (m : MM A) Q : (F -> triple P m Q) -> triple (fun self => P self /\ F) m Q.
Proof. intros Hm self [Hs HF]. by apply Hm. Qed.

Lemma triple_inv {A} (m : MM A) Q : (forall self, multisig_inv self -> triple (frozen (multisigs self) (outputs self)) m Q) -> triple multisig_inv m Q.
Proof. intros Hm self Hs. apply (Hm self Hs). by apply frozen_intro. Qed.

Lemma unchecked_u {E} w z r : 0 <= w -> unchecked (E := E) w z = Ok r -> r ∈u w.
Proof.
  intros Hw. unfold unchecked. destruct (fits w z) eqn:Hf; [intros [= <-]; by apply fits_spec|].
  destruct overflow_checks; [done|]. intros [= <-]. apply Z.mod_pos_bound. lia.
Qed.

Lemma unchecked_le {E} w z r : 0 <= z -> 0 <= w -> unchecked (E := E) w z = Ok r -> r <= z.
Proof.
  intros Hz Hw. unfold unchecked. destruct (fits w z); [intros [= <-]; lia|]. destruct overflow_checks; [done|].
  intros [= <-]. apply Z.mod_le; lia.
Qed.

Lemma frozen_calls ms l self f : frozen ms l self ->
  (forall h data k d, f (calls self) !! h = Some (data, k, d) -> blake2_256 data = h /\ d ∈u bits) -> frozen ms l (with_calls f self).
Proof. intros [[Hr Hc Hl] Hms Ho] Hf. by split. Qed.

Lemma store_call_and_reserve_frozen ms l who data other : 
  triple (frozen ms l) (store_call_and_reserve who (blake2_256 data) data other) (fun _ => frozen ms l).
Proof.
  unfold store_call_and_reserve. eapply triple_bind; [apply triple_get|]. intros s. apply triple_fact. intros _.
  eapply triple_bind; [apply frozen_ensure|]. intros ?. apply triple_fact. intros _.
  eapply triple_bind; [apply frozen_lift|]. intros base. apply triple_fact. intros _.
  eapply triple_bind; [apply frozen_lift|]. intros per_word. apply triple_fact. intros _.
  eapply triple_bind; [apply frozen_lift|]. intros d. apply triple_fact. intros Hd.
  eapply triple_bind; [apply frozen_on_rest|]. intros ?. apply triple_modify. intros self Hs. apply frozen_calls; [done|].
  intros h data' k d'. rewrite lookup_insert_Some. intros [[<- [= <- <- <-]]|[_ Hh]].
  - split; [done|]. eapply unchecked_u; [|exact Hd]. done.
  - destruct Hs as [[_ Hc _] _ _]. by eapply Hc.
Qed.

Lemma store_if_wanted_frozen ms l who h maybe_call store other : (forall data, maybe_call = Some data -> blake2_256 data = h) ->
  triple (frozen ms l) (store_if_wanted who h maybe_call store other) (fun _ => frozen ms l).
Proof.
  intros Hh. unfold store_if_wanted. destruct maybe_call as [data|]; [|apply triple_mret]. destruct store; [|apply triple_mret].
  rewrite <-(Hh data eq_refl). eapply triple_bind; [apply store_call_and_reserve_frozen|]. intros ?. apply triple_mret.
Qed.

Lemma clear_call_frozen ms l h : triple (frozen ms l) (clear_call h) (fun _ => frozen ms l).
Proof.
  unfold clear_call. eapply triple_bind; [apply triple_get|]. intros s. apply triple_fact. intros _.
  destruct (calls s !! h) as [[[data k] d]|]; [|apply triple_mret].
  eapply triple_bind; [apply (triple_modify _ _ (frozen ms l))|intros ?; eapply triple_bind; [apply frozen_on_rest|intros ?; apply triple_mret]].
  intros self Hs. apply frozen_calls; [done|]. intros h' data' k' d' [_ Hh]%lookup_delete_Some.
  destruct Hs as [[_ Hc _] _ _]. by eapply Hc.
Qed.

Lemma signatories_of_frozen ms l others who :
  triple (frozen ms l) (signatories_of others who) (fun sigs self => frozen ms l self /\ (signatories_ok sigs /\ who ∈ sigs)).
Proof.
  unfold signatories_of. eapply triple_bind; [apply frozen_ensure|]. intros ?. apply triple_fact. intros _.
  eapply triple_bind; [apply frozen_ensure|]. intros ?. apply triple_fact. intros Hlt. apply Z.ltb_lt in Hlt.
  eapply triple_post; [|apply frozen_lift]. intros sigs self [Hs Hok]. split; [done|].
  destruct (ensure_sorted_and_insert others who) as [sigs'|e|] eqn:He; try done. injection Hok as ->.
  destruct (ensure_sorted_and_insert_sound _ _ _ He) as [Hsort Hp]. split; [split; [done|]|].
  - rewrite (Permutation_length Hp). simpl. lia.
  - rewrite Hp. by left.
Qed.

Lemma get_call_hash self h maybe_call c : multisig_inv self -> (forall data, maybe_call = Some data -> blake2_256 data = h) ->
  get_call h maybe_call self = Some c -> exists data, decode_call data = Some c /\ blake2_256 data = h.
Proof.
  intros [_ Hc _] Hh. unfold get_call. destruct maybe_call as [data|]; [by eauto|].
  destruct (calls self !! h) as [[[data k] d]|] eqn:Hl; [|done]. simpl. intros Hd. exists data. split; [done|]. by eapply Hc.
Qed.

Lemma frozen_delete ms l self id h : frozen ms l self -> frozen (delete (id, h) ms) l (with_multisigs (delete (id, h)) self).
Proof.
  intros [[Hr Hc Hl] <- Ho]. split; [|done|done]. split; [|done|done].
  intros id' h' m Hm. simpl in Hm. apply lookup_delete_Some in Hm as [_ Hm]. by apply Hr.
Qed.

(** Opening or approving: a record is written, and the log says who approved. *)
Lemma write_record ms l self id h m e : frozen ms l self -> record_ok (l ++ [Deposited e]) id h m ->
  (forall id' h', (id', h') <> (id, h) -> approvers id' h' l ⊆ approval_step id' h' (approvers id' h' l) (Deposited e)) ->
  multisig_inv (mkMultisigState (<[(id, h) := m]> (multisigs self)) (calls self) (outputs self ++ [Deposited e]) (rest self)).
Proof.
  intros [[Hr Hc Hl] <- <-] Hm He. split; [|done|by apply log_ok_snoc].
  intros id' h' m'. simpl. rewrite lookup_insert_Some. intros [[[= <- <-] <-]|[Hne Hm']]; [done|].
  eapply record_ok_log; [|by apply Hr]. rewrite approvers_snoc. by apply He.
Qed.

Lemma approve_inv ms l who id sigs threshold h m tp maybe_pos stored :
  ms !! (id, h) = Some m -> signatories_ok sigs -> who ∈ sigs -> id = multi_account_id sigs threshold -> approvals m ⊆ sigs ->
  (forall pos, maybe_pos = Some pos -> StronglySorted below (take pos (approvals m) ++ who :: drop pos (approvals m))) ->
  triple (frozen ms l) (approve who id h m tp maybe_pos stored) (fun _ => multisig_inv).
Proof.
  intros Hm Hok Hwho Hid Hsub Hpos. unfold approve. destruct maybe_pos as [pos|].
  2:{ eapply triple_post; [|apply frozen_ensure]. by intros _ self [[] _]. }
  intros self Hs. assert (record_ok l id h m) as [_ Ha Hd _] by (destruct Hs as [[Hr _ _] <- <-]; by apply Hr).
  refine (write_record ms l self id h _ _ Hs _ _).
  2:{ intros id' h' Hne. simpl. by rewrite decide_False by congruence. }
  assert (forall a, a ∈ take pos (approvals m) ++ who :: drop pos (approvals m) -> a = who \/ a ∈ approvals m) as Hin.
  { intros a. rewrite <-Permutation_middle, take_drop. by rewrite elem_of_cons. }
  split; simpl; [by apply Hpos| |done|].
  - intros a [->|Hma]%Hin; rewrite approvers_snoc; simpl; rewrite decide_True by done; set_solver.
  - exists sigs, threshold. split; [done|]. split; [done|]. intros a [->|Hma]%Hin; auto.
Qed.

(** *** The operations *)
Section dispatching.
Variable dispatch : Call -> K -> MM unit.
Hypothesis dispatch_inv : forall c id, triple multisig_inv (dispatch c id) (fun _ => multisig_inv).

Lemma dispatch_as_inv ms l who id oh c : justified l who id oh c -> (forall h, oh = Some h -> ms !! (id, h) = None) ->
  triple (frozen ms l) (dispatch_as dispatch who id oh c) (fun _ => multisig_inv).
Proof.
  intros Hj Hno. unfold dispatch_as. eapply triple_bind; [apply (triple_modify _ _ multisig_inv)|intros ?].
  - intros [ms' cs l' r] [Hs Hms Hl]. simpl in *. subst ms' l'. apply push_inv; [done| |by intros ? ? ? ? [= <- <- <- <-]].
    intros id' h' [m Hm]. simpl. destruct oh as [h|]; [|done]. case_decide as He; [|done]. simplify_eq. by rewrite (Hno _ eq_refl) in Hm.
  - intros self Hs. specialize (dispatch_inv c id self Hs). unfold catch. by destruct (dispatch c id self) as [self' [x|e|]].
Qed.

Lemma execute_inv ms l who id h m tp c max_weight : justified l who id (Some h) c ->
  triple (frozen ms l) (execute dispatch who id h m tp c max_weight) (fun _ => multisig_inv).
Proof.
  intros Hj. unfold execute. eapply triple_bind; [apply frozen_ensure|intros ?]. apply triple_fact. intros _.
  eapply triple_bind; [apply (triple_modify _ _ (frozen (delete (id, h) ms) l)); intros; by apply frozen_delete|intros ?].
  eapply triple_bind; [apply clear_call_frozen|intros ?]. eapply triple_bind; [apply frozen_on_rest|intros ?].
  eapply triple_bind; [apply dispatch_as_inv; [done|intros h' [= <-]; apply lookup_delete_eq]|intros ?].
  apply triple_modify. intros [ms' cs l' r] Hs. by apply push_inv.
Qed.

Lemma approval_pos_sorted m who threshold o : StronglySorted below (approvals m) -> approval_pos m who threshold = Ok o ->
  forall pos, o = Some pos -> (who ∉ approvals m) /\ StronglySorted below (take pos (approvals m) ++ who :: drop pos (approvals m)).
Proof.
  intros Hs Ho pos ->. unfold approval_pos in Ho. pose proof (search_approvals who _ Hs) as Hsearch.
  destruct (binary_search_by _ (approvals m)) as [i|i|]; simplify_eq. case_match; simplify_eq. by destruct Hsearch as (? & _ & ?).
Qed.

Hypothesis id_inj : forall sigs t sigs' t', multi_account_id sigs t = multi_account_id sigs' t' -> sigs = sigs' /\ t = t'.

(** The approvals that are counted are those of the log. *)
Lemma counted_justified l who sigs threshold h m c (maybe_pos : option nat) n (n' : Z) : 2 <= threshold -> signatories_ok sigs -> who ∈ sigs ->
  record_ok l (multi_account_id sigs threshold) h m -> (forall pos, maybe_pos = Some pos -> who ∉ approvals m) ->
  n = cast 16 (Z.of_nat (length (approvals m))) ->
  (if maybe_pos is Some _ then uadd (E := MultisigCallError) 16 n 1 else Ok n) = Ok n' -> threshold <= n' ->
  (exists data, decode_call data = Some c /\ blake2_256 data = h) -> justified l who (multi_account_id sigs threshold) (Some h) c.
Proof.
  intros Ht Hok Hwho [Hs Ha _ (sigs' & t' & _ & Hid & Hsub)] Hpos Hn Hn' Hle Hdata. apply id_inj in Hid as [<- <-].
  exists sigs, threshold. split; [done|]. split; [done|]. split; [done|]. split; [done|]. split; [|done].
  assert (0 <= n <= Z.of_nat (length (approvals m))) as Hlen.
  { pose proof (cast_is_u 16 (Z.of_nat (length (approvals m))) ltac:(lia)). subst n. unfold cast, is_u in *. split; [lia|]. apply Z.mod_le; lia. }
  destruct maybe_pos as [pos|]; simpl in Hn'.
  - exists (who :: approvals m). split; [constructor; [by eapply Hpos|by apply sorted_NoDup]|]. split; [set_solver|]. split.
    + apply unchecked_le in Hn'; simpl; lia.
    + intros a [->|Hin]%elem_of_cons; auto.
  - exists (approvals m). simplify_eq. split; [by apply sorted_NoDup|]. split; [done|]. split; [lia|]. auto.
Qed.

Lemma continue_inv ms l who sigs threshold h maybe_call store maybe_timepoint max_weight m :
  2 <= threshold -> signatories_ok sigs -> who ∈ sigs -> ms !! (multi_account_id sigs threshold, h) = Some m ->
  record_ok l (multi_account_id sigs threshold) h m -> (forall data, maybe_call = Some data -> blake2_256 data = h) ->
  triple (frozen ms l) (continue_ dispatch who (multi_account_id sigs threshold) threshold h maybe_call store maybe_timepoint max_weight m) (fun _ => multisig_inv).
Proof.
  intros Ht Hok Hwho Hm Hrec Hh. unfold continue_. eapply triple_bind; [apply frozen_lift|intros tp]. apply triple_fact. intros _.
  eapply triple_bind; [apply frozen_ensure|intros ?]. apply triple_fact. intros _.
  eapply triple_bind; [apply frozen_lift|intros maybe_pos]. apply triple_fact. intros Hpos.
  pose proof (approval_pos_sorted m who threshold maybe_pos (rec_sorted _ _ _ _ Hrec) Hpos) as Hp.
  set (n := cast 16 (Z.of_nat (length (approvals m)))).
  eapply triple_bind with (Q := fun n' self => frozen ms l self /\
    (if maybe_pos is Some _ then uadd (E := MultisigCallError) 16 n 1 else Ok n) = Ok n').
  { destruct maybe_pos; [apply frozen_lift|by intros self Hs]. }
  intros n'. apply triple_fact. intros Hn'. eapply triple_bind; [apply triple_get|intros s]. apply triple_fact. intros Hs.
  destruct (if threshold <=? n' then get_call h maybe_call s else None) as [c|] eqn:Hc.
  - destruct (threshold <=? n') eqn:Hle; [|done]. apply Z.leb_le in Hle. apply execute_inv.
    eapply counted_justified; try done; [intros pos Hq; by destruct (Hp pos Hq)|]. eapply get_call_hash; [by destruct Hs|done|done].
  - eapply triple_bind; [by apply store_if_wanted_frozen|intros stored].
    destruct (rec_sigs _ _ _ _ Hrec) as (sigs' & t' & _ & [<- <-]%id_inj & Hsub).
    eapply approve_inv; try done. intros pos Hq. by destruct (Hp pos Hq).
Qed.

Lemma open_inv ms l who sigs threshold h maybe_call store maybe_timepoint :
  signatories_ok sigs -> who ∈ sigs -> (forall data, maybe_call = Some data -> blake2_256 data = h) ->
  triple (frozen ms l) (open_ who (multi_account_id sigs threshold) threshold h maybe_call store maybe_timepoint) (fun _ => multisig_inv).
Proof.
  intros Hok Hwho Hh. unfold open_. eapply triple_bind; [apply frozen_ensure|intros ?]. apply triple_fact. intros _.
  eapply triple_bind; [apply frozen_lift|intros per_approval]. apply triple_fact. intros _.
  eapply triple_bind; [apply frozen_lift|intros d]. apply triple_fact. intros Hd.
  eapply triple_bind; [by apply store_if_wanted_frozen|intros stored].
  eapply triple_bind with (Q := fun _ => frozen ms l); [destruct stored; [apply triple_mret|apply frozen_on_rest]|intros ?].
  eapply triple_bind; [apply triple_get|intros s]. apply triple_fact. intros _. intros self Hs.
  refine (write_record ms l self _ h _ _ Hs _ _).
  - split; simpl; [by repeat constructor| |by eapply unchecked_u; [|exact Hd]|].
    + intros b ->%list_elem_of_singleton. rewrite approvers_snoc. simpl. rewrite decide_True by done. set_solver.
    + exists sigs, threshold. split; [done|]. split; [done|]. by intros b ->%list_elem_of_singleton.
  - intros id' h' Hne. simpl. by rewrite decide_False by congruence.
Qed.

Lemma operate_inv who threshold others maybe_timepoint call_or_hash max_weight :
  triple multisig_inv (operate dispatch who threshold others maybe_timepoint call_or_hash max_weight) (fun _ => multisig_inv).
Proof.
  apply triple_inv. intros self0 _. set (ms := multisigs self0). set (l := outputs self0). unfold operate.
  eapply triple_bind; [apply frozen_ensure|intros ?]. apply triple_fact. intros Ht. apply Z.leb_le in Ht.
  eapply triple_bind; [apply signatories_of_frozen|intros sigs]. apply triple_fact. intros [Hok Hwho].
  destruct (match call_or_hash with IsCall call should_store => _ | IsHash h => _ end) as [[h maybe_call] store] eqn:Hch.
  assert (forall data, maybe_call = Some data -> blake2_256 data = h) as Hh by (destruct call_or_hash; naive_solver).
  eapply triple_bind; [apply triple_get|intros s]. apply triple_fact. intros Hs.
  destruct (multisigs s !! _) as [m|] eqn:Hm; [|by apply open_inv].
  destruct Hs as [[Hr _ _] Hms Hl]. apply continue_inv; try done; [by rewrite <-Hms|]. rewrite <-Hl. by apply Hr.
Qed.

Lemma as_multi_threshold_1_inv who others c : triple multisig_inv (as_multi_threshold_1 dispatch who others c) (fun _ => multisig_inv).
Proof.
  apply triple_inv. intros self0 _. unfold as_multi_threshold_1.
  eapply triple_bind; [apply signatories_of_frozen|intros sigs]. apply triple_fact. intros [Hok Hwho].
  eapply triple_bind; [apply dispatch_as_inv; [by exists sigs, 1|done]|intros [[]|e]]; [apply triple_mret|by intros self Hs].
Qed.
End dispatching.

Lemma cancel_as_multi_inv who threshold others tp h : triple multisig_inv (cancel_as_multi who threshold others tp h) (fun _ => multisig_inv).
Proof.
  apply triple_inv. intros self0 _. set (ms := multisigs self0). set (l := outputs self0). unfold cancel_as_multi.
  eapply triple_bind; [apply frozen_ensure|intros ?]. apply triple_fact. intros _.
  eapply triple_bind; [apply signatories_of_frozen|intros sigs]. apply triple_fact. intros _.
  eapply triple_bind; [apply triple_get|intros s]. apply triple_fact. intros _.
  eapply triple_bind; [apply frozen_lift|intros m]. apply triple_fact. intros _.
  eapply triple_bind; [apply frozen_ensure|intros ?]. apply triple_fact. intros _.
  eapply triple_bind; [apply frozen_ensure|intros ?]. apply triple_fact. intros _.
  eapply triple_bind; [apply frozen_on_rest|intros err]. eapply triple_bind; [apply frozen_lift|intros ?]. apply triple_fact. intros _.
  set (id := multi_account_id sigs threshold).
  eapply triple_bind; [apply (triple_modify _ _ (frozen (delete (id, h) ms) l)); intros; by apply frozen_delete|intros ?].
  eapply triple_bind; [apply clear_call_frozen|intros ?]. apply triple_modify. intros [ms' cs l' r] [Hs Hms Hl]. simpl in *. subst ms' l'.
  apply push_inv; [done| |done]. intros id' h' [m' Hm']. simpl. case_decide as He; [|done]. simplify_eq. by rewrite lookup_delete_eq in Hm'.
Qed.

Section reachable.
Hypothesis id_inj : forall sigs t sigs' t', multi_account_id sigs t = multi_account_id sigs' t' -> sigs = sigs' /\ t = t'.

Lemma dispatch_call_inv depth call who : triple multisig_inv (dispatch_call depth call who) (fun _ => multisig_inv).
Proof.
  revert call who. induction depth as [|depth IH]; intros call who; [by intros self Hs|]. simpl.
  destruct (BaseCallFilter call); [|by intros self Hs]. simpl.
  destruct call; [by apply as_multi_threshold_1_inv|by apply operate_inv|by apply operate_inv|apply cancel_as_multi_inv|].
  apply triple_on_rest; [done|]. by intros self r [].
Qed.

Lemma reach_inv self : multisig_reach self -> multisig_inv self.
Proof.
  induction 1 as [r|self r _ [Hr Hc Hl]|self depth call who _ IH]; [|done|].
  - split; simpl; [intros id h m; by rewrite lookup_empty|intros h data k d; by rewrite lookup_empty|]. intros l1 who id oh c l2 Hl. by destruct l1.
  - pose proof (dispatch_call_inv depth call who self IH) as Hd. by destruct (dispatch_call depth call who self) as [self' [x|e|]].
Qed.

(** C30. The threshold is kept.  Whenever an account of several signatories
    dispatches a call in an execution (whatever the extrinsics, their errors, the
    calls nested in calls and the rest of the runtime do), the account is that of
    a sorted list of signatories and a threshold, the caller is one of them, the
    call decodes from data of the recorded hash, and as many distinct signatories
    as the threshold are behind it: each is the caller or has, by the events of
    the log, approved since the operation was opened, with no cancellation and no
    execution since. *)
Theorem multisig_threshold self l1 who id oh c l2 :
  multisig_reach self -> outputs self = l1 ++ Dispatched who id oh c :: l2 ->
  exists sigs threshold, signatories_ok sigs /\ id = multi_account_id sigs threshold /\ who ∈ sigs /\
    match oh with
    | None => threshold = 1
    | Some h =>
      2 <= threshold /\
      (exists A : list K, NoDup A /\ A ⊆ sigs /\ threshold <= Z.of_nat (length A) /\
        forall a, a ∈ A -> a = who \/ a ∈ approvers id h l1) /\
      exists data, decode_call data = Some c /\ blake2_256 data = h
    end.
Proof. intros [_ _ Hl]%reach_inv Ho. by apply (Hl l1 who id oh c l2). Qed.
End reachable.
End safety.

(** ** Deposits *)
Section deposits.
Context {OC : OverflowChecks} {S K CallHash Other : Type} `{Countable K} `{Countable CallHash} {AO : AccountOrd K}
  {RC : ReservableCurrency S K} {RL : ReservableCurrencyLaws S K} {MC : MultisigConfig S K CallHash Other}.
Abbreviation Call := (RuntimeCall K CallHash Other).
Abbreviation State := (MultisigState S K CallHash Other).
Abbreviation MM := (M State MultisigCallError).
Implicit Types (self : State) (who id : K) (h : CallHash) (sigs : list K).

(** *** The currency *)

Lemma with_rest_id self : with_rest (rest self) self = self.
Proof. by destruct self. Qed.

Lemma on_rest_reserve self who v : res_good (rest self) -> v ∈u bits ->
  match on_rest (cur_reserve who v) self with
  | (self', Ok _) => exists r, self' = with_rest r self /\ res_good r /\ rereserved res_balance who v (rest self) r
  | (self', Err _) => self' = self
  | (_, Panic) => False
  end.
Proof.
  intros Hg Hv. pose proof (cur_reserve_law (rest self) who v Hg Hv) as Hlaw. unfold on_rest.
  destruct (cur_reserve who v (rest self)) as [r [x|e|]]; simpl; [|subst r; apply with_rest_id|done]. by exists r.
Qed.

Lemma on_rest_unreserve self who v : res_good (rest self) -> v ∈u bits -> let actual := Z.min (res_balance who (rest self)) v in
  exists r, on_rest (cur_unreserve who v) self = (with_rest r self, Ok (v - actual)) /\ res_good r /\
    rereserved res_balance who (- actual) (rest self) r.
Proof.
  intros Hg Hv actual. destruct (cur_unreserve_law (rest self) who v Hg Hv) as (r & Hrun & Hg' & Hr). exists r.
  unfold on_rest. by rewrite Hrun.
Qed.

Lemma clear_call_run self h : res_good (rest self) -> (forall data k d, calls self !! h = Some (data, k, d) -> d ∈u bits) ->
  exists r, clear_call h self = (mkMultisigState (multisigs self) (delete h (calls self)) (outputs self) r, Ok tt) /\ res_good r /\
    match calls self !! h with
    | Some (_, k, d) => rereserved res_balance k (- Z.min (res_balance k (rest self)) d) (rest self) r
    | None => r = rest self
    end.
Proof.
  intros Hg Hd. unfold clear_call. rewrite (bind_Ok _ _ self self self) by done. destruct (calls self !! h) as [[[data k] d]|] eqn:Hc.
  - rewrite (bind_Ok _ _ self (with_calls (delete h) self) tt) by done.
    destruct (on_rest_unreserve (with_calls (delete h) self) k d Hg (Hd data k d eq_refl)) as (r & Hrun & Hg' & Hr).
    rewrite (bind_Ok _ _ _ _ _ Hrun). by exists r.
  - exists (rest self). rewrite delete_id by done. by destruct self.
Qed.

(** *** A call that fails changes nothing *)

Definition atomic {A} (m : MM A) self : Prop := match m self with (self', Err _) => self' = self | _ => True end.
Definition never_fails {A} (m : MM A) self : Prop := match m self with (_, Err _) => False | _ => True end.

Lemma never_fails_atomic {A} (m : MM A) self : never_fails m self -> atomic m self.
Proof. unfold never_fails, atomic. by destruct (m self) as [? []]. Qed.

Lemma never_fails_bind {A B} (m : MM A) (f : A -> MM B) self : never_fails m self ->
  (forall self' a, m self = (self', Ok a) -> never_fails (f a) self') -> never_fails (m ≫= f) self.
Proof. unfold never_fails, mbind, M_mbind. destruct (m self) as [self' [a|e|]]; [|done|done]. intros _ Hf. by apply Hf. Qed.

(** A step that can fail and is followed by steps that cannot. *)
Lemma atomic_bind {A B} (m : MM A) (f : A -> MM B) self : atomic m self ->
  (forall self' a, m self = (self', Ok a) -> self' = self /\ atomic (f a) self \/ never_fails (f a) self') -> atomic (m ≫= f) self.
Proof.
  unfold atomic, mbind, M_mbind. destruct (m self) as [self' [a|e|]]; [|done|done]. intros _ Hf.
  destruct (Hf self' a eq_refl) as [[-> Ha]|Ha]; [done|]. unfold never_fails in Ha. by destruct (f a self') as [? []].
Qed.

Lemma atomic_lift {A B} (r : res MultisigCallError A) (f : A -> MM B) self : (forall a, r = Ok a -> atomic (f a) self) -> atomic (lift r ≫= f) self.
Proof. intros Hf. unfold atomic, mbind, M_mbind, lift in *. destruct r; [by apply Hf|done|done]. Qed.

Lemma atomic_ensure {B} b e (f : unit -> MM B) self : (b = true -> atomic (f tt) self) -> atomic (ensure_ b e ≫= f) self.
Proof. intros Hf. unfold atomic, mbind, M_mbind, ensure_, ensure, lift in *. destruct b; [by apply Hf|done]. Qed.

Lemma atomic_get {B} (f : State -> MM B) self : atomic (f self) self -> atomic (get ≫= f) self.
Proof. done. Qed.

Lemma on_rest_reserve_atomic self who v : res_good (rest self) -> v ∈u bits -> atomic (on_rest (cur_reserve who v)) self.
Proof.
  intros Hg Hv. pose proof (on_rest_reserve self who v Hg Hv) as Hr. unfold atomic. by destruct (on_rest _ self) as [? []].
Qed.

Lemma store_call_and_reserve_atomic self who h data other : res_good (rest self) -> atomic (store_call_and_reserve who h data other) self.
Proof.
  intros Hg. unfold store_call_and_reserve. apply atomic_get, atomic_ensure. intros _.
  apply atomic_lift. intros base _. apply atomic_lift. intros per_word _. apply atomic_lift. intros d Hd.
  apply atomic_bind; [apply on_rest_reserve_atomic; [done|by eapply unchecked_u; [|exact Hd]]|]. intros self' [] _. by right.
Qed.

Lemma store_if_wanted_atomic self who h maybe_call store other : res_good (rest self) ->
  atomic (store_if_wanted who h maybe_call store other) self /\
  forall self', store_if_wanted who h maybe_call store other self = (self', Ok false) -> self' = self.
Proof.
  intros Hg. unfold store_if_wanted. destruct maybe_call as [data|], store; try by split; [done|intros ? [= <-]].
  split.
  - apply atomic_bind; [by apply store_call_and_reserve_atomic|]. intros self' a _. by right.
  - intros self'. unfold mbind, M_mbind. by destruct (store_call_and_reserve who h data other self) as [? [[]|e|]].
Qed.

Lemma dispatch_as_never_fails dispatch self who id oh c : never_fails (dispatch_as dispatch who id oh c) self.
Proof.
  unfold dispatch_as. apply never_fails_bind; [done|]. intros self' [] _. unfold never_fails, catch.
  by destruct (dispatch c id self') as [? []].
Qed.

Lemma execute_atomic dispatch self who id h m tp c max_weight : multisig_inv self -> res_good (rest self) -> deposit m ∈u bits ->
  atomic (execute dispatch who id h m tp c max_weight) self.
Proof.
  intros [_ Hcalls _] Hg Hd. unfold execute. apply atomic_ensure. intros _. apply never_fails_atomic, never_fails_bind; [done|].
  intros self1 [] [= <-]. destruct (clear_call_run (with_multisigs (delete (id, h)) self) h Hg) as (r & Hclear & Hg' & _).
  { intros data k d Hk. by eapply (Hcalls h data k d). }
  apply never_fails_bind; [unfold never_fails; by rewrite Hclear|]. intros self2 [] Hrun. rewrite Hclear in Hrun. injection Hrun as <-.
  match goal with |- never_fails _ ?s => destruct (on_rest_unreserve s (depositor m) (deposit m) Hg' Hd) as (r' & Hun & _) end.
  apply never_fails_bind; [unfold never_fails; by rewrite Hun|]. intros self3 x _.
  apply never_fails_bind; [apply dispatch_as_never_fails|]. done.
Qed.

Lemma continue_atomic dispatch self who id threshold h maybe_call store maybe_timepoint max_weight m :
  multisig_inv self -> res_good (rest self) -> deposit m ∈u bits ->
  atomic (continue_ dispatch who id threshold h maybe_call store maybe_timepoint max_weight m) self.
Proof.
  intros Hinv Hg Hd. unfold continue_. apply atomic_lift. intros tp _. apply atomic_ensure. intros _. apply atomic_lift. intros maybe_pos _.
  apply atomic_bind; [destruct maybe_pos; unfold atomic, lift; [by destruct (uadd _ _ _)|done]|]. intros self' n Hn. left. split; [destruct maybe_pos; by injection Hn|].
  apply atomic_get. destruct (if threshold <=? n then _ else None) as [c|]; [by apply execute_atomic|].
  destruct (store_if_wanted_atomic self who h maybe_call store 0 Hg) as [Hst Hfalse].
  apply atomic_bind; [done|]. intros self1 [] Hrun.
  - right. by destruct maybe_pos.
  - left. split; [by apply Hfalse|]. by destruct maybe_pos.
Qed.

Lemma open_atomic self who id threshold h maybe_call store maybe_timepoint : res_good (rest self) ->
  atomic (open_ who id threshold h maybe_call store maybe_timepoint) self.
Proof.
  intros Hg. unfold open_. apply atomic_ensure. intros _. apply atomic_lift. intros per_approval _. apply atomic_lift. intros d Hd.
  destruct (store_if_wanted_atomic self who h maybe_call store d Hg) as [Hst Hfalse].
  apply atomic_bind; [done|]. intros self1 [] Hrun; [by right|]. left. split; [by apply Hfalse|].
  apply atomic_bind; [apply on_rest_reserve_atomic; [done|by eapply unchecked_u; [|exact Hd]]|]. intros self2 [] _. by right.
Qed.

Lemma atomic_signatories {B} others who (f : list K -> MM B) self : (forall sigs, atomic (f sigs) self) -> atomic (signatories_of others who ≫= f) self.
Proof.
  intros Hf. apply atomic_bind.
  - unfold signatories_of. apply atomic_ensure. intros _. apply atomic_ensure. intros _. unfold atomic, lift. by destruct (map_err _ _).
  - intros self' sigs Hrun. left. split; [|done]. unfold signatories_of, ensure_, ensure, lift, mbind, M_mbind in Hrun. by repeat case_match; simplify_eq.
Qed.

Lemma operate_atomic dispatch self who threshold others maybe_timepoint call_or_hash max_weight :
  multisig_inv self -> res_good (rest self) -> atomic (operate dispatch who threshold others maybe_timepoint call_or_hash max_weight) self.
Proof.
  intros Hinv Hg. unfold operate. apply atomic_ensure. intros _. apply atomic_signatories. intros sigs.
  destruct (match call_or_hash with IsCall call should_store => _ | IsHash h => _ end) as [[h maybe_call] store].
  apply atomic_get. destruct (multisigs self !! _) as [m|] eqn:Hm; [|by apply open_atomic].
  apply continue_atomic; [done|done|]. destruct Hinv as [Hr _ _]. by destruct (Hr _ _ _ Hm).
Qed.

Lemma cancel_as_multi_atomic self who threshold others tp h : multisig_inv self -> res_good (rest self) ->
  atomic (cancel_as_multi who threshold others tp h) self.
Proof.
  intros [Hr Hcalls _] Hg. unfold cancel_as_multi. apply atomic_ensure. intros _. apply atomic_signatories. intros sigs. apply atomic_get.
  apply atomic_lift. intros m Hm. apply atomic_ensure. intros _. apply atomic_ensure. intros _.
  assert (deposit m ∈u bits) as Hd.
  { destruct (multisigs self !! _) as [m'|] eqn:Hl; [|done]. injection Hm as ->. by destruct (Hr _ _ _ Hl). }
  destruct (on_rest_unreserve self (depositor m) (deposit m) Hg Hd) as (r & Hun & Hg' & _).
  apply never_fails_atomic, never_fails_bind; [unfold never_fails; by rewrite Hun|]. intros self1 x Hrun. rewrite Hun in Hrun. injection Hrun as <- _.
  apply never_fails_bind; [unfold never_fails, lift, debug_assert, assert_; by repeat case_match; simplify_eq|]. intros self2 [] [= <- _].
  apply never_fails_bind; [done|]. intros self3 [] [= <-].
  match goal with |- never_fails _ ?s => destruct (clear_call_run s h Hg') as (r' & Hclear & _) end.
  { intros data k d Hk. by eapply (Hcalls h data k d). }
  apply never_fails_bind; [unfold never_fails; by rewrite Hclear|]. done.
Qed.

(** *** Opening and cancelling *)

(** What is reserved for an operation, and for a call that is stored. *)
Definition op_deposit (threshold : Z) : Z := DepositBase + DepositFactor * threshold.
Definition call_deposit (data : OpaqueCall) : Z := DepositBase + DepositFactor * cast 32 ((Z.of_nat (length data) + 31) / 32).

Definition others_of sigs who : list K := filter (.≠ who) sigs.

Lemma others_of_perm sigs who : StronglySorted below sigs -> who ∈ sigs -> sigs ≡ₚ who :: others_of sigs who.
Proof. intros Hs Hin. by apply ensure_sorted_and_insert_sound, ensure_sorted_and_insert_complete. Qed.

Lemma signatories_of_run sigs who self : signatories_ok sigs -> who ∈ sigs -> (2 <= length sigs)%nat ->
  signatories_of (others_of sigs who) who self = (self, Ok sigs).
Proof.
  intros [Hs Hlen] Hin H2. pose proof (others_of_perm sigs who Hs Hin) as Hp. apply Permutation_length in Hp. simpl in Hp.
  unfold signatories_of, ensure_. rewrite bool_decide_false by (intros He; rewrite He in Hp; simpl in Hp; lia).
  rewrite (bind_Ok _ _ self self tt) by done. rewrite (proj2 (Z.ltb_lt _ _)) by lia. rewrite (bind_Ok _ _ self self tt) by done.
  unfold others_of. by rewrite ensure_sorted_and_insert_complete.
Qed.

Section amounts.
Hypothesis base_pos : 0 <= DepositBase.
Hypothesis factor_pos : 0 <= DepositFactor.

Lemma call_deposit_pos data : 0 <= call_deposit data.
Proof. unfold call_deposit. pose proof (cast_is_u 32 ((Z.of_nat (length data) + 31) / 32) ltac:(lia)) as Hc. unfold is_u in Hc. nia. Qed.

Lemma store_call_and_reserve_run self who h data other : res_good (rest self) -> 0 <= other -> other + call_deposit data ∈u bits ->
  match store_call_and_reserve who h data other self with
  | (self', Ok _) => calls self !! h = None /\ exists r, res_good r /\
      self' = mkMultisigState (multisigs self) (<[h := (data, who, other + call_deposit data)]> (calls self)) (outputs self) r /\
      rereserved res_balance who (other + call_deposit data) (rest self) r
  | (self', Err _) => self' = self
  | (_, Panic) => False
  end.
Proof.
  intros Hg Ho Hd. unfold store_call_and_reserve. rewrite (bind_Ok _ _ self self self) by done.
  unfold ensure_. case_bool_decide as Hnone; [|done]. rewrite (bind_Ok _ _ self self tt) by done.
  set (words := cast 32 ((Z.of_nat (length data) + 31) / 32)).
  assert (0 <= words) as Hw by (by apply (cast_is_u 32)). unfold call_deposit in *. fold words in Hd |- *. unfold is_u in Hd.
  assert (0 <= DepositFactor * words) by nia.
  rewrite (bind_Ok _ _ self self (other + DepositBase)) by (unfold lift; by rewrite uadd_ok by (unfold is_u; lia)).
  rewrite (bind_Ok _ _ self self (DepositFactor * words)) by (unfold lift; by rewrite umul_ok by (unfold is_u; lia)).
  rewrite (bind_Ok _ _ self self (other + (DepositBase + DepositFactor * words))) by
    (unfold lift; rewrite uadd_ok by (unfold is_u; lia); do 2 f_equal; lia).
  pose proof (on_rest_reserve self who (other + (DepositBase + DepositFactor * words)) Hg Hd) as Hres.
  unfold mbind, M_mbind. destruct (on_rest _ self) as [self' [x|e|]]; [|done|done].
  destruct Hres as (r & -> & Hg' & Hr). split; [done|]. by exists r.
Qed.

(** What is taken for an operation that is opened. *)
Definition taken (threshold : Z) (data : OpaqueCall) (store : bool) : Z := op_deposit threshold + if store then call_deposit data else 0.

Lemma store_if_wanted_run self who h data store threshold : res_good (rest self) -> 0 <= threshold -> op_deposit threshold + call_deposit data ∈u bits ->
  match (stored ← store_if_wanted who h (Some data) store (op_deposit threshold);
         if stored : bool then mret tt else on_rest (cur_reserve who (op_deposit threshold))) self with
  | (self', Ok _) => exists r, res_good r /\ (store = true -> calls self !! h = None) /\
      self' = mkMultisigState (multisigs self) (if store then <[h := (data, who, taken threshold data store)]> (calls self) else calls self) (outputs self) r /\
      rereserved res_balance who (taken threshold data store) (rest self) r
  | (self', Err _) => self' = self
  | (_, Panic) => False
  end.
Proof.
  intros Hg Ht Hd. pose proof (call_deposit_pos data). assert (0 <= op_deposit threshold) as Hop by (unfold op_deposit; nia).
  unfold taken. destruct store; simpl.
  - pose proof (store_call_and_reserve_run self who h data (op_deposit threshold) Hg Hop Hd) as Hrun. unfold mbind, M_mbind.
    destruct (store_call_and_reserve _ _ _ _ self) as [self' [x|e|]]; [|done|done]. destruct Hrun as (Hnone & r & Hg' & -> & Hr). by exists r.
  - rewrite (bind_Ok _ _ self self false) by done. rewrite Z.add_0_r.
    pose proof (on_rest_reserve self who (op_deposit threshold) Hg ltac:(unfold is_u in *; lia)) as Hrun.
    destruct (on_rest _ self) as [self' [x|e|]]; [|done|done]. destruct Hrun as (r & -> & Hg' & Hr). by exists r.
Qed.

Section operation.
Context (sigs : list K) (threshold : Z) (data : OpaqueCall) (c : Call) (max_weight : Z).
Hypothesis sigs_ok : signatories_ok sigs.
Hypothesis sigs_two : (2 <= length sigs)%nat.
Hypothesis threshold_two : 2 <= threshold.
Hypothesis deposit_fits : op_deposit threshold + call_deposit data ∈u bits.
Variable dispatch : Call -> K -> MM unit.
Let id : K := multi_account_id sigs threshold.
Let h : CallHash := blake2_256 data.

(** A call of a signatory gets as far as the lookup of the operation. *)
Lemma as_multi_run self who maybe_timepoint store : who ∈ sigs ->
  as_multi dispatch who threshold (others_of sigs who) maybe_timepoint data store max_weight self =
  match multisigs self !! (id, h) with
  | Some m => continue_ dispatch who id threshold h (Some data) store maybe_timepoint max_weight m self
  | None => open_ who id threshold h (Some data) store maybe_timepoint self
  end.
Proof.
  intros Hwho. unfold as_multi, operate, ensure_. rewrite (proj2 (Z.leb_le _ _) threshold_two). rewrite (bind_Ok _ _ self self tt) by done.
  rewrite (bind_Ok _ _ _ _ _ (signatories_of_run sigs who self sigs_ok Hwho sigs_two)). rewrite (bind_Ok _ _ self self self) by done.
  fold id h. by destruct (multisigs self !! (id, h)).
Qed.

Lemma as_multi_opens self who store : who ∈ sigs -> res_good (rest self) -> multisigs self !! (id, h) = None ->
  match as_multi dispatch who threshold (others_of sigs who) None data store max_weight self with
  | (self', Ok _) => exists r, res_good r /\ (store = true -> calls self !! h = None) /\
      self' = mkMultisigState (<[(id, h) := mkMultisig (timepoint r) (op_deposit threshold) who [who]]> (multisigs self))
        (if store then <[h := (data, who, taken threshold data store)]> (calls self) else calls self)
        (outputs self ++ [Deposited (NewMultisig who id h)]) r /\
      rereserved res_balance who (taken threshold data store) (rest self) r
  | (self', Err _) => self' = self
  | (_, Panic) => False
  end.
Proof.
  intros Hwho Hg Hnone. rewrite as_multi_run, Hnone by done. unfold open_, ensure_. rewrite bool_decide_true by done.
  rewrite (bind_Ok _ _ self self tt) by done. pose proof (call_deposit_pos data) as Hcall. unfold is_u, op_deposit in deposit_fits.
  assert (0 <= DepositFactor * threshold) by nia.
  rewrite (bind_Ok _ _ self self (DepositFactor * threshold)) by (unfold lift; by rewrite umul_ok by (unfold is_u; lia)).
  rewrite (bind_Ok _ _ self self (op_deposit threshold)) by (unfold lift; by rewrite uadd_ok by (unfold is_u; lia)).
  pose proof (store_if_wanted_run self who h data store threshold Hg ltac:(lia) deposit_fits) as Hrun. unfold mbind, M_mbind in *.
  destruct (store_if_wanted who h (Some data) store (op_deposit threshold) self) as [self1 [stored|e|]]; [|done|done].
  destruct (_ self1) as [self2 [x|e|]] in Hrun |- *; [|done|done]. destruct Hrun as (r & Hg' & Hcalls & -> & Hr). by exists r.
Qed.

Lemma cancel_run self who m : who ∈ sigs -> res_good (rest self) -> multisigs self !! (id, h) = Some m -> depositor m = who ->
  deposit m ∈u bits -> deposit m <= res_balance who (rest self) -> (forall data' k d, calls self !! h = Some (data', k, d) -> d ∈u bits) ->
  exists r1 r2, cancel_as_multi who threshold (others_of sigs who) (when m) h self =
      (mkMultisigState (delete (id, h) (multisigs self)) (delete h (calls self)) (outputs self ++ [Deposited (MultisigCancelled who (when m) id h)]) r2, Ok tt) /\
    rereserved res_balance who (- deposit m) (rest self) r1 /\
    match calls self !! h with
    | Some (_, k, d) => rereserved res_balance k (- Z.min (res_balance k r1) d) r1 r2
    | None => r2 = r1
    end.
Proof.
  intros Hwho Hg Hm Hdep Hd Hle Hcalls. unfold cancel_as_multi, ensure_. rewrite (proj2 (Z.leb_le _ _) threshold_two). rewrite (bind_Ok _ _ self self tt) by done.
  rewrite (bind_Ok _ _ _ _ _ (signatories_of_run sigs who self sigs_ok Hwho sigs_two)). rewrite (bind_Ok _ _ self self self) by done.
  fold id. rewrite Hm. rewrite (bind_Ok _ _ self self m) by done. rewrite Hdep, !bool_decide_true by done. do 2 rewrite (bind_Ok _ _ self self tt) by done.
  destruct (on_rest_unreserve self who (deposit m) Hg Hd) as (r1 & Hun & Hg1 & Hr1). rewrite Z.min_r in Hun, Hr1 by done.
  rewrite (bind_Ok _ _ _ _ _ Hun). rewrite Z.sub_diag. rewrite (bind_Ok _ _ (with_rest r1 self) (with_rest r1 self) tt) by (unfold lift, debug_assert; by destruct overflow_checks).
  rewrite (bind_Ok _ _ _ (with_multisigs (delete (id, h)) (with_rest r1 self)) tt) by done.
  destruct (clear_call_run (with_multisigs (delete (id, h)) (with_rest r1 self)) h Hg1 Hcalls) as (r2 & Hclear & _ & Hr2).
  rewrite (bind_Ok _ _ _ _ _ Hclear). by exists r1, r2.
Qed.

(** *** Approving and executing *)
Hypothesis threshold_u16 : threshold ∈u 16.

(** The approval of a signatory that has not approved yet. *)
Lemma approval_pos_run m who : StronglySorted below (approvals m) -> who ∉ approvals m -> Z.of_nat (length (approvals m)) < threshold ->
  exists pos, approval_pos m who threshold = Ok (Some pos) /\
    StronglySorted below (take pos (approvals m) ++ who :: drop pos (approvals m)) /\
    take pos (approvals m) ++ who :: drop pos (approvals m) ≡ₚ who :: approvals m.
Proof.
  intros Hs Hin Hlt. pose proof (search_approvals who _ Hs) as Hsearch. unfold approval_pos.
  rewrite cast_id by (unfold is_u in *; lia). destruct (binary_search_by _ _) as [i|i|]; [done| |done].
  rewrite (proj2 (Z.ltb_lt _ _)) by lia. exists i. by destruct Hsearch as (? & ? & _).
Qed.

Lemma continue_run self who m store : StronglySorted below (approvals m) -> who ∉ approvals m -> Z.of_nat (length (approvals m)) < threshold ->
  exists pos, StronglySorted below (take pos (approvals m) ++ who :: drop pos (approvals m)) /\
    take pos (approvals m) ++ who :: drop pos (approvals m) ≡ₚ who :: approvals m /\
    continue_ dispatch who id threshold h (Some data) store (Some (when m)) max_weight m self =
    match (if threshold <=? Z.of_nat (length (approvals m)) + 1 then decode_call data else None) with
    | Some call => execute dispatch who id h m (when m) call max_weight self
    | None => (stored ← store_if_wanted who h (Some data) store 0; approve who id h m (when m) (Some pos) stored) self
    end.
Proof.
  intros Hs Hin Hlt. destruct (approval_pos_run m who Hs Hin Hlt) as (pos & Hpos & Hs' & Hp). exists pos. split; [done|]. split; [done|].
  unfold continue_. rewrite (bind_Ok _ _ self self (when m)) by done. unfold ensure_. rewrite bool_decide_true by done.
  rewrite (bind_Ok _ _ self self tt) by done. rewrite (bind_Ok _ _ self self (Some pos)) by (unfold lift; by rewrite Hpos).
  unfold is_u in threshold_u16. rewrite cast_id by (unfold is_u; lia).
  rewrite (bind_Ok _ _ self self (Z.of_nat (length (approvals m)) + 1)) by (unfold lift; by rewrite uadd_ok by (unfold is_u; lia)).
  rewrite (bind_Ok _ _ self self self) by done. unfold get_call. by destruct (if threshold <=? _ then _ else None).
Qed.

Lemma as_multi_approves self who m : who ∈ sigs -> multisigs self !! (id, h) = Some m ->
  StronglySorted below (approvals m) -> who ∉ approvals m -> Z.of_nat (length (approvals m)) + 1 < threshold ->
  exists ks, StronglySorted below ks /\ ks ≡ₚ who :: approvals m /\
    as_multi dispatch who threshold (others_of sigs who) (Some (when m)) data false max_weight self =
      (mkMultisigState (<[(id, h) := mkMultisig (when m) (deposit m) (depositor m) ks]> (multisigs self)) (calls self)
         (outputs self ++ [Deposited (MultisigApproval who (when m) id h)]) (rest self), Ok tt).
Proof.
  intros Hwho Hm Hs Hin Hlt. destruct (continue_run self who m false Hs Hin ltac:(lia)) as (pos & Hs' & Hp & Hrun).
  eexists. split; [exact Hs'|]. split; [exact Hp|]. rewrite as_multi_run, Hm, Hrun by done. by rewrite (proj2 (Z.leb_gt _ _)) by lia.
Qed.

Lemma as_multi_executes self who m : who ∈ sigs -> multisigs self !! (id, h) = Some m -> calls self !! h = None -> res_good (rest self) ->
  deposit m ∈u bits -> StronglySorted below (approvals m) -> who ∉ approvals m -> Z.of_nat (length (approvals m)) + 1 = threshold ->
  decode_call data = Some c -> call_weight c <= max_weight ->
  exists r, res_good r /\ rereserved res_balance (depositor m) (- Z.min (res_balance (depositor m) (rest self)) (deposit m)) (rest self) r /\
    as_multi dispatch who threshold (others_of sigs who) (Some (when m)) data false max_weight self =
      (result ← dispatch_as dispatch who id (Some h) c; deposit_event (MultisigExecuted who (when m) id h result))
        (mkMultisigState (delete (id, h) (multisigs self)) (calls self) (outputs self) r).
Proof.
  intros Hwho Hm Hcalls Hg Hd Hs Hin Hlen Hdec Hw. destruct (continue_run self who m false Hs Hin ltac:(lia)) as (pos & _ & _ & Hrun).
  destruct (clear_call_run (with_multisigs (delete (id, h)) self) h Hg) as (r0 & Hclear & _ & Hr0); [intros ? ? ?; simpl; by rewrite Hcalls|].
  simpl in Hr0, Hclear. rewrite Hcalls in Hr0. subst r0. rewrite (delete_id (calls self)) in Hclear by done.
  destruct (on_rest_unreserve (with_multisigs (delete (id, h)) self) (depositor m) (deposit m) Hg Hd) as (r & Hun & Hg' & Hr).
  exists r. split; [done|]. split; [done|]. rewrite as_multi_run, Hm, Hrun, (proj2 (Z.leb_le _ _)), Hdec by (done || lia).
  unfold execute, ensure_. rewrite (proj2 (Z.leb_le _ _) Hw). rewrite (bind_Ok _ _ self self tt) by done.
  rewrite (bind_Ok _ _ self (with_multisigs (delete (id, h)) self) tt) by done. rewrite (bind_Ok _ _ _ _ _ Hclear). by rewrite (bind_Ok _ _ _ _ _ Hun).
Qed.

Definition approve_each (ks : list K) (tp : Timepoint) : MM unit :=
  for_each (fun k => as_multi dispatch k threshold (others_of sigs k) (Some tp) data false max_weight) ks.

Lemma approve_each_run ks self m : ks ⊆ sigs -> multisigs self !! (id, h) = Some m -> StronglySorted below (approvals m) ->
  NoDup (ks ++ approvals m) -> Z.of_nat (length (ks ++ approvals m)) < threshold ->
  exists ks', StronglySorted below ks' /\ ks' ≡ₚ ks ++ approvals m /\
    approve_each ks (when m) self =
      (mkMultisigState (<[(id, h) := mkMultisig (when m) (deposit m) (depositor m) ks']> (multisigs self)) (calls self)
         (outputs self ++ map (fun k => Deposited (MultisigApproval k (when m) id h)) ks) (rest self), Ok tt).
Proof.
  revert self m. induction ks as [|k ks IH]; intros self m Hsub Hm Hs Hnd Hlen.
  { exists (approvals m). split; [done|]. split; [done|]. simpl. rewrite app_nil_r, insert_id by (by destruct m). by destruct self. }
  simpl in Hnd, Hlen. apply NoDup_cons in Hnd as [Hk Hnd]. rewrite length_app in Hlen.
  destruct (as_multi_approves self k m) as (ks1 & Hs1 & Hp1 & Hrun1); [set_solver|done|done|set_solver|lia|].
  unfold approve_each. simpl. rewrite (bind_Ok _ _ _ _ _ Hrun1).
  set (m1 := mkMultisig (when m) (deposit m) (depositor m) ks1).
  assert (ks ++ ks1 ≡ₚ k :: ks ++ approvals m) as Hp2 by (by rewrite Hp1, Permutation_middle).
  match goal with |- context [for_each _ _ ?s] => destruct (IH s m1) as (ks2 & Hs2 & Hp3 & Hrun2) end; simpl.
  - set_solver.
  - apply lookup_insert_eq.
  - done.
  - rewrite Hp2. by constructor.
  - rewrite Hp2. simpl. rewrite length_app. lia.
  - exists ks2. split; [done|]. split; [by etrans; [exact Hp3|exact Hp2]|]. unfold approve_each in Hrun2. simpl in Hrun2. rewrite Hrun2.
    by rewrite insert_insert_eq, <-app_assoc.
Qed.
End operation.
End amounts.

(** ** The theorems *)

(** C32. No call of the pallet that waits for approvals leaves a trace when it
    fails: [as_multi], [approve_as_multi] and [cancel_as_multi] return an error in
    the state they were called in (records, stored calls, deposits and outputs),
    although errors do not roll back the storage, and although an execution may
    fail in the call that it dispatches. *)
Theorem multisig_errors_change_nothing depth call who self self' e :
  (forall sigs t sigs' t', multi_account_id sigs t = multi_account_id sigs' t' -> sigs = sigs' /\ t = t') ->
  multisig_reach self -> res_good (rest self) ->
  match call with AsMulti _ _ _ _ _ _ | ApproveAsMulti _ _ _ _ _ | CancelAsMulti _ _ _ _ => True | _ => False end ->
  dispatch_call depth call who self = (self', Err e) -> self' = self.
Proof.
  intros Hinj Hreach Hg Hkind. apply (reach_inv Hinj) in Hreach. destruct depth as [|depth]; [done|]. simpl.
  destruct (BaseCallFilter call); simpl; [|by intros [= <- _]]. intros Hrun.
  assert (forall m : MM unit, atomic m self -> m self = (self', Err e) -> self' = self) as Hat by (intros m Ha Hm; unfold atomic in Ha; by rewrite Hm in Ha).
  destruct call; try done; eapply Hat; try exact Hrun; [by apply operate_atomic|by apply operate_atomic|by apply cancel_as_multi_atomic].
Qed.

(** C33. The deposits of an operation that a signatory opens, when no record for
    it exists, and cancels.  Opening reserves the deposit of the operation, and
    that of the call when it is stored.  Cancelling succeeds, removes the record
    and also the call stored for that hash, whoever stored it.  The reserved
    balances are then what they were before the opening, with one exception:
    when the call was stored by the opening, the deposit of the operation is
    returned twice, the second time from what the account had reserved before,
    as far as it had; when another account had stored the call before, that
    account gets its deposit back, as far as it is still reserved.  There are at
    least two signatories and a threshold of two, and the deposits are balances
    that do not overflow. *)
Theorem open_cancel_deposits dispatch sigs threshold data store max_weight who self self1 :
  signatories_ok sigs -> (2 <= length sigs)%nat -> 2 <= threshold -> who ∈ sigs -> 0 <= DepositBase -> 0 <= DepositFactor ->
  op_deposit threshold + call_deposit data ∈u bits -> res_good (rest self) ->
  (forall data' k d, calls self !! blake2_256 data = Some (data', k, d) -> d ∈u bits) ->
  multisigs self !! (multi_account_id sigs threshold, blake2_256 data) = None ->
  as_multi dispatch who threshold (others_of sigs who) None data store max_weight self = (self1, Ok tt) ->
  rereserved res_balance who (op_deposit threshold + if store then call_deposit data else 0) (rest self) (rest self1) /\
  exists self2, cancel_as_multi who threshold (others_of sigs who) (timepoint (rest self1)) (blake2_256 data) self1 = (self2, Ok tt) /\
    multisigs self2 = multisigs self /\ calls self2 = delete (blake2_256 data) (calls self) /\
    match (if store then Some ([], who, op_deposit threshold) else calls self !! blake2_256 data) with
    | Some (_, k, d) => rereserved res_balance k (- Z.min (res_balance k (rest self)) d) (rest self) (rest self2)
    | None => forall k, res_balance k (rest self2) = res_balance k (rest self)
    end.
Proof.
  intros Hok H2 Ht Hwho Hb Hf Hfits Hg Hcalls Hnone Hrun.
  pose proof (as_multi_opens Hb Hf sigs threshold data max_weight Hok H2 Ht Hfits dispatch self who store Hwho Hg Hnone) as Hopen.
  rewrite Hrun in Hopen. destruct Hopen as (r & Hgr & _ & -> & Hr). unfold taken in *. simpl. split; [done|].
  pose proof (call_deposit_pos Hb Hf data) as Hcp. pose proof (res_balance_pos (rest self) who Hg) as Hpos. unfold is_u in Hfits.
  assert (0 <= op_deposit threshold) as Hop by (unfold op_deposit; nia). destruct Hr as [Hrw Hro].
  set (m := mkMultisig (timepoint r) (op_deposit threshold) who [who]).
  match type of Hrun with _ = (?s, _) => destruct (cancel_run sigs threshold data Hok H2 Ht s who m) as (r1 & r2 & Hcancel & [Hr1 Ho1] & Hr2) end; try done; simpl.
  - apply lookup_insert_eq.
  - unfold is_u. simpl. destruct store; lia.
  - rewrite Hrw. destruct store; lia.
  - intros data' k d. destruct store; [|by apply Hcalls]. rewrite lookup_insert_eq. intros [= _ _ <-]. unfold is_u. lia.
  - eexists. split; [exact Hcancel|]. simpl in *. split; [by rewrite delete_insert_id|]. rewrite Hrw in Hr1. destruct store.
    + split; [by rewrite delete_insert_eq|]. rewrite lookup_insert_eq in Hr2. destruct Hr2 as [Hr2 Ho2]. split; [lia|].
      intros k Hk. by rewrite Ho2, Ho1, Hro.
    + split; [done|]. assert (forall k, res_balance k r1 = res_balance k (rest self)) as Heq.
      { intros k. destruct (decide (k = who)) as [->|Hk]; [lia|by rewrite Ho1, Hro]. }
      destruct (calls self !! blake2_256 data) as [[[data' k] d]|]; [|by subst r2]. destruct Hr2 as [Hr2 Ho2]. rewrite Heq in Hr2.
      split; [lia|]. intros k' Hk. by rewrite Ho2, Heq.
Qed.

(** C31. Enough approvals dispatch the call.  One signatory opens an operation,
    others approve and the last one, which makes up the threshold, has the call
    dispatched: each of the calls succeeds, the record is gone and the deposit
    back before the call is dispatched, and the log tells the approvals. *)
Theorem multisig_completes dispatch sigs threshold data c max_weight first ks last self self1 :
  let id := multi_account_id sigs threshold in let h := blake2_256 data in let tp := timepoint (rest self1) in
  signatories_ok sigs -> 2 <= threshold -> threshold ∈u 16 -> 0 <= DepositBase -> 0 <= DepositFactor ->
  op_deposit threshold + call_deposit data ∈u bits -> decode_call data = Some c -> call_weight c <= max_weight ->
  NoDup (first :: ks ++ [last]) -> first :: ks ++ [last] ⊆ sigs -> threshold = Z.of_nat (length (first :: ks ++ [last])) ->
  res_good (rest self) -> calls self !! h = None -> multisigs self !! (id, h) = None ->
  as_multi dispatch first threshold (others_of sigs first) None data false max_weight self = (self1, Ok tt) ->
  exists self2 r,
    for_each (fun k => as_multi dispatch k threshold (others_of sigs k) (Some tp) data false max_weight) ks self1 = (self2, Ok tt) /\
    (forall k, res_balance k r = res_balance k (rest self)) /\
    as_multi dispatch last threshold (others_of sigs last) (Some tp) data false max_weight self2 =
      (result ← dispatch_as dispatch last id (Some h) c; deposit_event (MultisigExecuted last tp id h result))
        (mkMultisigState (multisigs self) (calls self)
          (outputs self ++ Deposited (NewMultisig first id h) :: map (fun k => Deposited (MultisigApproval k tp id h)) ks) r).
Proof.
  intros id h tp Hok Ht Hu Hb Hf Hfits Hdec Hw Hnd Hsub Hlen Hg Hcalls Hnone Hrun. subst tp.
  assert (2 <= length sigs)%nat as H2 by (pose proof (submseteq_length _ _ (NoDup_submseteq _ _ Hnd Hsub)); lia).
  pose proof (as_multi_opens Hb Hf sigs threshold data max_weight Hok H2 Ht Hfits dispatch self first false ltac:(set_solver) Hg Hnone) as Hopen.
  rewrite Hrun in Hopen. destruct Hopen as (r & Hgr & _ & -> & Hr). unfold taken in Hr. rewrite Z.add_0_r in Hr.
  set (m := mkMultisig (timepoint r) (op_deposit threshold) first [first]). simpl in Hlen. rewrite length_app in Hlen. simpl in Hlen.
  apply NoDup_cons in Hnd as [Hfirst Hnd]. apply NoDup_app in Hnd as (Hndk & Hdisj & _).
  match type of Hrun with _ = (?s, _) =>
    destruct (approve_each_run Hb Hf sigs threshold data max_weight Hok H2 Ht Hfits dispatch Hu ks s m) as (ks' & Hs' & Hp & Happrove) end;
    [set_solver|apply lookup_insert_eq|by repeat constructor| |simpl; rewrite length_app; simpl; lia|].
  { simpl. apply NoDup_app. split; [done|]. split; [set_solver|]. apply NoDup_singleton. }
  unfold approve_each in Happrove. simpl in Happrove. rewrite insert_insert_eq in Happrove.
  set (m' := mkMultisig (timepoint r) (op_deposit threshold) first ks'). pose proof (call_deposit_pos Hb Hf data).
  assert (op_deposit threshold ∈u bits) as Hop by (unfold is_u, op_deposit in *; nia).
  match type of Happrove with _ = (?s, _) =>
    destruct (as_multi_executes sigs threshold data c max_weight Hok H2 Ht dispatch Hu s last m') as (r' & Hg' & Hr' & Hexec) end;
    try done; simpl.
  - set_solver.
  - apply lookup_insert_eq.
  - simpl in Hp. rewrite Hp. set_solver.
  - rewrite (Permutation_length Hp), length_app. simpl. lia.
  - simpl in *. rewrite delete_insert_id in Hexec by done. rewrite <-app_assoc in Hexec, Happrove.
    eexists _, r'. split; [exact Happrove|]. split; [|exact Hexec]. destruct Hr as [Hrf Hro], Hr' as [Hrf' Hro'].
    pose proof (res_balance_pos (rest self) first Hg). intros k. destruct (decide (k = first)) as [->|]; [lia|]. by rewrite Hro', Hro.
Qed.
End deposits.

(** ** Executions *)
Module MultisigDemo.
#[local] Instance demo_checks : OverflowChecks := false.
#[local] Instance demo_config : Config := {| ExistentialDeposit := 10; MaxReserves := 4 |}.

Definition RuntimeEvent : Type := SystemEvent Z + Balances.Event Z.
Definition Ledger : Type := St (K := Z) (Ev := RuntimeEvent) (R := unit).

#[local] Instance currency : ReservableCurrency Ledger Z := balances_reservable inl inr.
#[local] Instance laws : ReservableCurrencyLaws Ledger Z := balances_reservable_laws inl inr eq_refl demo_ED_bits.

#[local] Instance demo_order : AccountOrd Z.
Proof. refine {| acc_lt := Z.ltb |}; intros; lia. Defined.

(** A hash without collisions, and calls of one byte: a call above 100 fails. *)
#[local] Instance demo_multisig : MultisigConfig Ledger Z (list Z) Z := {|
  DepositBase := 5;
  DepositFactor := 3;
  MaxSignatories := 4;
  blake2_256 data := data;
  encode_entropy prefix who threshold := prefix ++ [Zpos (encode (who, threshold))];
  decode_account := last;
  default_account := 0;
  decode_call data := match data with [n] => Some (OtherCall n) | _ => None end;
  call_weight _ := 50;
  BaseCallFilter _ := true;
  system_block_number s := block_number s.1;
  system_extrinsic_index _ := Some 1;
  dispatch_other n _ := if 100 <? n then throw CannotLookup else mret tt |}.

(** The accounts 1, 2 and 3 hold 500 each; 30 more are reserved for 1. *)
Definition account_of (r : Z) : AccountInfo AccountData := mkAccountInfo 0 0 1 0 (mkAccountData 500 r 0 0).
Definition ledger : Ledger :=
  (mkSystem {[1 := account_of 30; 2 := account_of 0; 3 := account_of 0]} 5 None 0 [] ∅, (mkBalances 1530 ∅ ∅, tt)).
Definition genesis : MultisigState Ledger Z (list Z) Z := mkMultisigState ∅ ∅ [] ledger.

Lemma ledger_good : res_good ledger.
Proof. apply inv_compute; by vm_compute. Qed.

Lemma demo_inj sigs t sigs' t' : multi_account_id sigs t = multi_account_id sigs' t' -> sigs = sigs' /\ t = t'.
Proof.
  unfold multi_account_id. simpl. intros [= He]. apply (inj encode) in He. by injection He.
Qed.

(** 1 opens an operation for two of the three; 2 has it executed. *)
Definition tp : Timepoint := mkTimepoint 5 1.
Definition opened (data : list Z) (store : bool) : MultisigState Ledger Z (list Z) Z :=
  (dispatch_call 2 (AsMulti 2 [2; 3] None data store 50) 1 genesis).1.
Definition executed : MultisigState Ledger Z (list Z) Z :=
  (dispatch_call 2 (AsMulti 2 [1; 3] (Some tp) [7] false 50) 2 (opened [7] false)).1.

Lemma opened_reach data store : multisig_reach (opened data store).
Proof. apply reach_dispatch, reach_genesis. Qed.

Lemma executed_reach : multisig_reach executed.
Proof. apply reach_dispatch, opened_reach. Qed.

Definition demo_sigs : list Z := [1; 2; 3].

Lemma demo_sigs_ok : signatories_ok demo_sigs.
Proof. split; [by repeat constructor|done]. Qed.

(** The log of the execution; the account of the three has dispatched the call. *)
Lemma multisig_threshold_witness : exists l2, outputs executed = [Deposited (NewMultisig 1 (multi_account_id [1; 2; 3] 2) [7])]
    ++ Dispatched 2 (multi_account_id [1; 2; 3] 2) (Some [7]) (OtherCall 7) :: l2 /\
  exists sigs threshold, signatories_ok sigs /\ multi_account_id [1; 2; 3] 2 = multi_account_id sigs threshold /\ 2 <= threshold.
Proof.
  eexists. split; [by vm_compute|].
  edestruct (multisig_threshold demo_inj executed [Deposited (NewMultisig 1 (multi_account_id [1; 2; 3] 2) [7])] 2
    (multi_account_id [1; 2; 3] 2) (Some [7]) (OtherCall 7)) as (sigs & t & Hok & Hid & _ & Ht & _); [apply executed_reach|by vm_compute|].
  exists sigs, t. split; [exact Hok|]. split; [exact Hid|exact Ht].
Defined.

(** The same signatory approves twice. *)
Lemma multisig_errors_change_nothing_witness :
  (dispatch_call 2 (AsMulti 2 [2; 3] (Some tp) [7] false 50) 1 (opened [7] false)).1 = opened [7] false /\
  (dispatch_call 2 (AsMulti 2 [2; 3] (Some tp) [7] false 50) 1 (opened [7] false)).2 = Err (OfMultisig AlreadyApproved).
Proof.
  split; [|by vm_compute]. eapply (multisig_errors_change_nothing 2 (AsMulti 2 [2; 3] (Some tp) [7] false 50) 1 (opened [7] false));
    [exact demo_inj|apply opened_reach|apply inv_compute; by vm_compute|done|apply injective_projections; [done|by vm_compute]].
Defined.

(** 1 opens an operation with a stored call and cancels it: of the 30 that were
    reserved before, 11 are free after. *)
Lemma open_cancel_deposits_witness : exists self2,
  cancel_as_multi 1 2 [2; 3] tp [7] (opened [7] true) = (self2, Ok tt) /\
  res_balance 1 ledger = 30 /\ res_balance 1 (rest (opened [7] true)) = 49 /\ res_balance 1 (rest self2) = 19.
Proof.
  destruct (open_cancel_deposits (dispatch_call 1) demo_sigs 2 [7] true 50 1 genesis (opened [7] true)) as [[Hr _] (self2 & Hrun & _ & _ & [Hr2 _])];
    [apply demo_sigs_ok|simpl; lia|lia|by left|done|done|by vm_compute|apply ledger_good|by intros ???|done|by vm_compute|].
  exists self2. split; [exact Hrun|]. split; [done|]. split; [exact Hr|exact Hr2].
Defined.

(** All three sign an operation of threshold three. *)
Lemma multisig_completes_witness : exists self1 self2 r,
  as_multi (dispatch_call 1) 1 3 [2; 3] None [7] false 50 genesis = (self1, Ok tt) /\
  as_multi (dispatch_call 1) 2 3 [1; 3] (Some tp) [7] false 50 self1 = (self2, Ok tt) /\ res_balance 1 r = 30 /\
  as_multi (dispatch_call 1) 3 3 [1; 2] (Some tp) [7] false 50 self2 =
    (result ← dispatch_as (dispatch_call 1) 3 (multi_account_id [1; 2; 3] 3) (Some [7]) (OtherCall 7);
     deposit_event (MultisigExecuted 3 tp (multi_account_id [1; 2; 3] 3) [7] result))
      (mkMultisigState ∅ ∅ [Deposited (NewMultisig 1 (multi_account_id [1; 2; 3] 3) [7]);
        Deposited (MultisigApproval 2 tp (multi_account_id [1; 2; 3] 3) [7])] r).
Proof.
  set (self1 := (as_multi (dispatch_call 1) 1 3 [2; 3] None [7] false 50 genesis).1).
  destruct (multisig_completes (dispatch_call 1) demo_sigs 3 [7] (OtherCall 7) 50 1 [2] 3 genesis self1) as (self2 & r & Happrove & Hr & Hexec);
    [apply demo_sigs_ok|lia|done|done|done|by vm_compute|done|done|by apply (bool_decide_unpack _)|done|done|apply ledger_good|done|done|by vm_compute|].
  exists self1, self2, r. split; [by vm_compute|]. split; [|split; [exact (Hr 1)|exact Hexec]].
  simpl in Happrove. unfold mbind, M_mbind in Happrove. destruct (as_multi _ 2 _ _ _ _ _ _ self1) as [s [[]|e|]] eqn:Hrun in Happrove; [|done|done].
  injection Happrove as <-. exact Hrun.
Defined.

(** A failing call is told by the event, and the operation is over. *)
Example failed_call_is_told :
  let self := (dispatch_call 2 (AsMulti 2 [1; 3] (Some tp) [107] false 50) 2 (opened [107] false)).1 in
  last (outputs self) = Some (Deposited (MultisigExecuted 2 tp (multi_account_id [1; 2; 3] 2) [107] (inr (OfRuntime CannotLookup)))) /\
  multisigs self = ∅ /\ res_balance 1 (rest self) = 30.
Proof. by vm_compute. Qed.
End MultisigDemo.
