(* ===== verification/Era.v ===== *)
(** * Transaction eras

    [primitives/runtime/src/generic/era.rs]: the period in which a signed
    transaction is valid.  Construction, the block window ([birth], [death]) and
    the two-byte encoding, with the arithmetic of [u64], [u32] and [u16] as the
    source has it.  Bytes are integers below 256; [Input] is the list of bytes
    still to be read. *)

From Stdlib Require Import ZArith Lia List.
From S2P Require Import Prelude.
From stdpp Require Import base list.
Open Scope Z_scope.

Inductive Era : Type :=
| Immortal
| Mortal (period phase : Z).

(** The errors of [Decode]: the end of the input, and the message of [decode]. *)
Inductive CodecError : Type := NotEnoughData | InvalidPeriodAndPhase.

Section era.
Context `{OverflowChecks}.

Definition mortal (period current : Z) : Era :=
  let period := Z.min (Z.max (default (Z.shiftl 1 16) (checked 64 (next_power_of_two period))) 4) (Z.shiftl 1 16) in
  let phase := current mod period in
  let quantize_factor := Z.max (Z.shiftr period 12) 1 in
  let quantized_phase := phase / quantize_factor * quantize_factor in
  Mortal period quantized_phase.

Definition immortal : Era := Immortal.

Definition is_immortal (self : Era) : bool := match self with Immortal => true | _ => false end.

Definition birth {E} (self : Era) (current : Z) : res E Z :=
  match self with
  | Immortal => Ok 0
  | Mortal period phase =>
    d ← usub 64 (Z.max current phase) phase;
    q ← udiv d period;
    m ← umul 64 q period;
    uadd 64 m phase
  end.

Definition death {E} (self : Era) (current : Z) : res E Z :=
  match self with
  | Immortal => Ok (u_max 64)
  | Mortal period _ => b ← birth self current; uadd 64 b period
  end.

(** A [u16] in little-endian order. *)
Definition encode_u16 (n : Z) : list Z := [n mod 256; n / 256].

Definition encode_to {E} (self : Era) : res E (list Z) :=
  match self with
  | Immortal => Ok [0]
  | Mortal period phase =>
    let quantize_factor := Z.max (Z.shiftr period 12) 1 in
    t ← usub 32 (trailing_zeros 64 period) 1;
    q ← udiv phase quantize_factor;
    let encoded := Z.lor (cast 16 (Z.min (Z.max t 1) 15)) (cast 16 (cast 64 (Z.shiftl q 4))) in
    Ok (encode_u16 encoded)
  end.

Definition read_byte (input : list Z) : res CodecError (Z * list Z) :=
  match input with
  | [] => Err NotEnoughData
  | b :: input => Ok (b, input)
  end.

Definition decode (input : list Z) : res CodecError (Era * list Z) :=
  p ← read_byte input;
  let '(first, input) := p in
  if first =? 0 then Ok (Immortal, input)
  else
    p ← read_byte input;
    let '(second, input) := p in
    encoded ← uadd 64 first (cast 64 (Z.shiftl second 8));
    let period := cast 64 (Z.shiftl 2 (encoded mod (Z.shiftl 1 4))) in
    let quantize_factor := Z.max (Z.shiftr period 12) 1 in
    phase ← umul 64 (Z.shiftr encoded 4) quantize_factor;
    if (4 <=? period) && (phase <? period) then Ok (Mortal period phase, input)
    else Err InvalidPeriodAndPhase.
End era.

(** ** Well-formed eras *)
Definition quantum (period : Z) : Z := Z.max (Z.shiftr period 12) 1.

(** A power of two between 4 and 65536, and a phase the encoding can express. *)
Definition valid (e : Era) : Prop :=
  match e with
  | Immortal => True
  | Mortal period phase =>
    (exists k, 2 <= k <= 16 /\ period = 2 ^ k) /\ 0 <= phase < period /\ (quantum period | phase)
  end.

Lemma power_cases k : 2 <= k <= 16 ->
  k = 2 \/ k = 3 \/ k = 4 \/ k = 5 \/ k = 6 \/ k = 7 \/ k = 8 \/ k = 9 \/ k = 10 \/ k = 11 \/ k = 12 \/
  k = 13 \/ k = 14 \/ k = 15 \/ k = 16.
Proof. lia. Qed.

Ltac each_power k Hk := destruct (power_cases k Hk) as
  [->|[->|[->|[->|[->|[->|[->|[->|[->|[->|[->|[->|[->|[->| ->]]]]]]]]]]]]]].

(** The quantum divides the period, in at most 4096 steps. *)
Lemma quantum_spec k : 2 <= k <= 16 -> 0 < quantum (2 ^ k) /\ exists n, 0 < n <= 4096 /\ 2 ^ k = n * quantum (2 ^ k).
Proof.
  intros Hk. split; [unfold quantum; lia|].
  each_power k Hk; [exists 4|exists 8|exists 16|exists 32|exists 64|exists 128|exists 256|exists 512
    |exists 1024|exists 2048|exists 4096|exists 4096|exists 4096|exists 4096|exists 4096]; vm_compute; intuition discriminate.
Qed.

Lemma mortal_period `{OverflowChecks} period : 0 <= period ->
  exists k, 2 <= k <= 16 /\
    Z.min (Z.max (default (Z.shiftl 1 16) (checked 64 (next_power_of_two period))) 4) (Z.shiftl 1 16) = 2 ^ k.
Proof.
  intros Hp. unfold next_power_of_two. pose proof (Z.log2_up_nonneg period) as Hl. set (j := Z.log2_up period) in *.
  assert (forall i, 0 <= i -> Z.min (Z.max (2 ^ i) 4) (Z.shiftl 1 16) = 2 ^ Z.min (Z.max i 2) 16) as Hmm.
  { intros i Hi. change (Z.shiftl 1 16) with (2 ^ 16). change 4 with (2 ^ 2).
    destruct (Z.le_gt_cases i 2), (Z.le_gt_cases i 16); rewrite ?(Z.max_r i 2), ?(Z.max_l i 2) by lia;
      repeat match goal with
      | |- context [Z.max (2 ^ i) (2 ^ 2)] =>
        first [rewrite (Z.max_r (2 ^ i) (2 ^ 2)) by (apply Z.pow_le_mono_r; lia)
              |rewrite (Z.max_l (2 ^ i) (2 ^ 2)) by (apply Z.pow_le_mono_r; lia)]
      end; [done|lia| |];
      [rewrite (Z.min_l i 16) by lia; apply Z.min_l, Z.pow_le_mono_r; lia
      |rewrite (Z.min_r i 16) by lia; apply Z.min_r, Z.pow_le_mono_r; lia]. }
  exists (Z.min (Z.max (match checked 64 (2 ^ j) with Some _ => j | None => 16 end) 2) 16). split; [lia|].
  destruct (checked 64 (2 ^ j)) as [z|] eqn:Hc; simpl default.
  - apply checked_Some in Hc as [-> _]. by apply Hmm.
  - done.
Qed.

Section codec.
Context `{OverflowChecks}.

(** The code of the era of period [2 ^ k] and phase [m] quanta. *)
Definition code (k m : Z) : Z := (k - 1) + m * 16.

Lemma encode_code {E} k m : 2 <= k <= 16 -> 0 <= m < 4096 ->
  encode_to (E := E) (Mortal (2 ^ k) (m * quantum (2 ^ k))) = Ok (encode_u16 (code k m)).
Proof.
  intros Hk Hm. destruct (quantum_spec k Hk) as [Hq _]. unfold encode_to. fold (quantum (2 ^ k)).
  rewrite trailing_zeros_pow2 by lia. rewrite usub_ok by (unfold is_u; lia). simpl. unfold udiv.
  replace (quantum (2 ^ k) =? 0) with false by lia. rewrite Z.div_mul by lia. simpl.
  replace (Z.min (Z.max (k - 1) 1) 15) with (k - 1) by lia. rewrite Z.shiftl_mul_pow2 by lia. change (2 ^ 4) with 16.
  rewrite (cast_id 16 (k - 1)) by (unfold is_u; lia). rewrite (cast_id 64) by (unfold is_u; lia).
  rewrite cast_id by (unfold is_u; lia). by rewrite (lor_add 4) by lia.
Qed.

Lemma decode_code k m rest : 2 <= k <= 16 -> 0 <= m < 4096 -> m * quantum (2 ^ k) < 2 ^ k ->
  decode (encode_u16 (code k m) ++ rest) = Ok (Mortal (2 ^ k) (m * quantum (2 ^ k)), rest).
Proof.
  intros Hk Hm Hlt. set (c := code k m). assert (0 <= c < 65536) as Hc by (unfold c, code; lia).
  assert (c mod 16 = k - 1 /\ c / 16 = m) as [Hc1 Hc2].
  { unfold c, code. split; symmetry; [apply Z.mod_unique_pos with (q := m)|apply Z.div_unique_pos with (r := k - 1)]; lia. }
  unfold decode, encode_u16. cbn [app read_byte mbind res_mbind].
  assert (c mod 256 <> 0) as Hne.
  { intros Hz. assert (c mod 16 = 0) as H16; [|lia]. apply Z.mod_divide; [lia|].
    apply Z.mod_divide in Hz as [z Hz]; [|lia]. exists (z * 16). lia. }
  replace (c mod 256 =? 0) with false by lia.
  rewrite (Z.shiftl_mul_pow2 _ 8) by lia. change (2 ^ 8) with 256. pose proof (Z.div_mod c 256 ltac:(lia)) as Hdm.
  pose proof (Z.mod_pos_bound c 256 ltac:(lia)) as Hmb.
  assert (0 <= c / 256 < 256) as Hd256 by (split; [apply Z.div_pos|apply Z.div_lt_upper_bound]; lia).
  rewrite cast_id by (unfold is_u; lia). rewrite uadd_ok by (unfold is_u; lia). cbn [mbind res_mbind].
  replace (c mod 256 + c / 256 * 256) with c by lia. change (Z.shiftl 1 4) with 16. rewrite Hc1.
  rewrite Z.shiftl_mul_pow2 by lia. replace (2 * 2 ^ (k - 1)) with (2 ^ k)
    by (rewrite <-Z.pow_succ_r by lia; f_equal; lia).
  assert (4 <= 2 ^ k <= 65536) as Hpk by (change 4 with (2 ^ 2); change 65536 with (2 ^ 16); split; apply Z.pow_le_mono_r; lia).
  rewrite cast_id by (unfold is_u; lia). fold (quantum (2 ^ k)). rewrite Z.shiftr_div_pow2 by lia. change (2 ^ 4) with 16.
  rewrite Hc2. destruct (quantum_spec k Hk) as [Hq _]. rewrite umul_ok by (unfold is_u; nia). cbn [mbind res_mbind].
  replace (4 <=? 2 ^ k) with true by lia. by replace (m * quantum (2 ^ k) <? 2 ^ k) with true by lia.
Qed.

Lemma mortal_valid period current : 0 <= period -> 0 <= current -> valid (mortal period current).
Proof.
  intros Hp Hc. destruct (mortal_period period Hp) as (k & Hk & Heq). unfold mortal. rewrite Heq. fold (quantum (2 ^ k)).
  destruct (quantum_spec k Hk) as [Hq _]. pose proof (Z.mod_pos_bound current (2 ^ k) ltac:(apply Z.pow_pos_nonneg; lia)) as Hm.
  split; [by exists k|]. split; [|apply Z.divide_factor_r]. split.
  - apply Z.mul_nonneg_nonneg; [apply Z.div_pos; lia|lia].
  - pose proof (Z.mul_div_le (current mod 2 ^ k) (quantum (2 ^ k)) Hq). lia.
Qed.

Lemma valid_code k phase : 2 <= k <= 16 -> 0 <= phase < 2 ^ k -> (quantum (2 ^ k) | phase) ->
  exists m, 0 <= m < 4096 /\ phase = m * quantum (2 ^ k).
Proof.
  intros Hk Hp [m Hm]. destruct (quantum_spec k Hk) as [Hq (n & Hn & Heq)]. exists m. split; [nia|done].
Qed.

Lemma decode_short first rest : first <> 0 -> decode (first :: rest) =
  match rest with
  | [] => Err NotEnoughData
  | second :: rest =>
    encoded ← uadd 64 first (cast 64 (Z.shiftl second 8));
    let period := cast 64 (Z.shiftl 2 (encoded mod (Z.shiftl 1 4))) in
    phase ← umul 64 (Z.shiftr encoded 4) (quantum period);
    if (4 <=? period) && (phase <? period) then Ok (Mortal period phase, rest) else Err InvalidPeriodAndPhase
  end.
Proof.
  intros Hf. unfold decode. cbn [read_byte mbind res_mbind]. replace (first =? 0) with false by lia. by destruct rest.
Qed.

Lemma decode_inv first second rest e rest' :
  0 < first < 256 -> 0 <= second < 256 -> decode (first :: second :: rest) = Ok (e, rest') ->
  exists k m, 2 <= k <= 16 /\ 0 <= m < 4096 /\ m * quantum (2 ^ k) < 2 ^ k /\ e = Mortal (2 ^ k) (m * quantum (2 ^ k)) /\
    rest' = rest /\ first + second * 256 = code k m.
Proof.
  intros Hf Hs. rewrite decode_short by lia. rewrite (Z.shiftl_mul_pow2 _ 8) by lia. change (2 ^ 8) with 256.
  rewrite (cast_id 64 (second * 256)) by (unfold is_u; lia). rewrite uadd_ok by (unfold is_u; lia). cbn [mbind res_mbind].
  set (c := first + second * 256). assert (0 <= c < 65536) as Hc by (unfold c; lia). cbv zeta. change (Z.shiftl 1 4) with 16.
  pose proof (Z.mod_pos_bound c 16 ltac:(lia)) as Hn. pose proof (Z.div_mod c 16 ltac:(lia)) as Hdm.
  set (k := c mod 16 + 1). rewrite Z.shiftl_mul_pow2 by lia.
  replace (2 * 2 ^ (c mod 16)) with (2 ^ k) by (unfold k; rewrite Z.add_1_r, Z.pow_succ_r by lia; done).
  assert (2 ^ 1 <= 2 ^ k <= 2 ^ 16) as Hpk by (split; apply Z.pow_le_mono_r; lia). change (2 ^ 1) with 2 in Hpk. change (2 ^ 16) with 65536 in Hpk.
  rewrite cast_id by (unfold is_u; lia). rewrite Z.shiftr_div_pow2 by lia. change (2 ^ 4) with 16. set (m := c / 16).
  assert (0 <= m < 4096) as Hm by (unfold m; split; [apply Z.div_pos|apply Z.div_lt_upper_bound]; lia).
  assert (0 < quantum (2 ^ k) <= 65536) as Hq.
  { unfold quantum. rewrite Z.shiftr_div_pow2 by lia. pose proof (Z.div_le_upper_bound (2 ^ k) (2 ^ 12) 65536 ltac:(lia) ltac:(lia)). lia. }
  rewrite umul_ok by (unfold is_u; nia). cbn [mbind res_mbind].
  destruct (Z.leb_spec 4 (2 ^ k)) as [H4|H4], (Z.ltb_spec (m * quantum (2 ^ k)) (2 ^ k)) as [Hlt|Hlt]; try done.
  cbn [andb]. intros [= <- <-]. exists k, m. split_and!; try done; try lia; [|unfold k, m, code; lia].
  destruct (Z.eq_dec k 1) as [Hk1|Hk1]; [rewrite Hk1 in H4; simpl in H4; lia|unfold k in *; lia].
Qed.

(** C34. The codec of eras.  Whatever period and block number it is given,
    [mortal] makes a valid era: a power of two between 4 and 65536 and a phase
    that is a multiple of the quantum.  Encoding a valid era and decoding it
    gives it back and consumes exactly its bytes.  Conversely everything that
    decodes is a valid era, and the bytes that were read are its encoding: the
    encoding is canonical. *)
Theorem era_codec {E} :
  (forall period current, 0 <= period -> 0 <= current -> valid (mortal period current)) /\
  (forall e rest, valid e -> exists bytes, encode_to (E := E) e = Ok bytes /\ decode (bytes ++ rest) = Ok (e, rest)) /\
  (forall input e rest, Forall (is_u 8) input -> decode input = Ok (e, rest) ->
     valid e /\ exists bytes, encode_to (E := E) e = Ok bytes /\ input = bytes ++ rest).
Proof.
  split_and!; [apply mortal_valid| |].
  - intros [|period phase] rest Hv; [by exists [0]|]. destruct Hv as ((k & Hk & ->) & Hp & Hd).
    destruct (valid_code k phase Hk Hp Hd) as (m & Hm & ->). eexists. split; [by apply encode_code|apply decode_code; [done|done|apply Hp]].
  - intros input e rest Hin. destruct input as [|first input]; [done|]. apply Forall_cons in Hin as [Hf Hin].
    destruct (Z.eq_dec first 0) as [->|Hne]; [intros [= <- <-]; split; [done|by exists [0]]|].
    destruct input as [|second input]; [by rewrite decode_short|]. apply Forall_cons in Hin as [Hs _].
    unfold is_u in Hf, Hs. intros Hdec. destruct (decode_inv first second input e rest) as (k & m & Hk & Hm & Hlt & -> & -> & Hcode); [lia..|done|].
    destruct (quantum_spec k Hk) as [Hq _]. split; [split; [by exists k|split; [nia|apply Z.divide_factor_r]]|].
    eexists. split; [by apply encode_code|]. rewrite <-Hcode. unfold encode_u16. simpl. f_equal; [|f_equal].
    + apply Z.mod_unique_pos with (q := second); lia.
    + apply Z.div_unique_pos with (r := first); lia.
Qed.

(** ** The window of validity *)
Lemma birth_run {E} period phase current : 0 < period -> 0 <= phase < 2 ^ 64 -> 0 <= current < 2 ^ 64 ->
  birth (E := E) (Mortal period phase) current = Ok ((Z.max current phase - phase) / period * period + phase).
Proof.
  intros Hp Hph Hc. unfold birth. rewrite usub_ok by (unfold is_u; lia). cbn [mbind res_mbind]. unfold udiv.
  replace (period =? 0) with false by lia. cbn [mbind res_mbind]. set (d := Z.max current phase - phase).
  pose proof (Z.mul_div_le d period Hp) as Hle. assert (0 <= d / period * period) as H0.
  { apply Z.mul_nonneg_nonneg; [apply Z.div_pos; lia|lia]. }
  rewrite umul_ok by (unfold is_u; lia). cbn [mbind res_mbind]. apply uadd_ok. unfold is_u. lia.
Qed.

(** The window of a valid era.  [birth] never panics; from the phase on,
    it is the last block not after the current one that is congruent to the
    phase, so that the current block is in [birth, birth + period), [death] is
    the end of that window unless it does not fit 64 bits, and every other
    block of the window computes the same window: a transaction is valid in
    exactly one.  An era made for a block starts at most one quantum before
    it. *)
Theorem era_window {E} period phase current :
  valid (Mortal period phase) -> 0 <= current < 2 ^ 64 -> phase <= current ->
  exists b, birth (E := E) (Mortal period phase) current = Ok b /\ b <= current < b + period /\ b mod period = phase /\
    (b + period < 2 ^ 64 -> death (E := E) (Mortal period phase) current = Ok (b + period)) /\
    (forall c, b <= c < b + period -> c < 2 ^ 64 -> birth (E := E) (Mortal period phase) c = Ok b) /\
    (Mortal period phase = mortal period current -> current - quantum period < b).
Proof.
  intros ((k & Hk & ->) & Hph & Hd) Hc Hle. set (period := 2 ^ k) in *.
  assert (4 <= period <= 65536) as Hpk by (unfold period; change 4 with (2 ^ 2); change 65536 with (2 ^ 16); split; apply Z.pow_le_mono_r; lia).
  set (b := (current - phase) / period * period + phase). exists b.
  pose proof (Z.div_mod (current - phase) period ltac:(lia)) as Hdm. pose proof (Z.mod_pos_bound (current - phase) period ltac:(lia)) as Hmb.
  assert (b <= current < b + period) as Hb by (unfold b; lia).
  assert (birth (E := E) (Mortal period phase) current = Ok b) as Hbirth.
  { rewrite birth_run by lia. by rewrite Z.max_l by lia. }
  assert (0 <= (current - phase) / period) as Hq by (apply Z.div_pos; lia).
  split_and!; [done|lia|lia| | | |].
  - symmetry. apply Z.mod_unique_pos with (q := (current - phase) / period); unfold b; lia.
  - intros Hfit. unfold death. rewrite Hbirth. cbn [mbind res_mbind]. apply uadd_ok. unfold is_u, b in *. nia.
  - intros c Hcb Hc64. assert (phase <= c) by (unfold b in Hcb; nia). rewrite birth_run by lia. f_equal.
    rewrite Z.max_l by lia. unfold b. do 2 f_equal. symmetry. apply Z.div_unique_pos with (r := c - b); unfold b; lia.
  - intros Heq. unfold mortal in Heq. destruct (mortal_period period ltac:(lia)) as (k' & Hk' & Hper).
    rewrite Hper in Heq. injection Heq as Hkk Hph'. fold (quantum (2 ^ k')) in Hph'. rewrite <-Hkk in Hph'.
    destruct (quantum_spec k Hk) as [Hqp _]. fold period in Hqp.
    pose proof (Z.div_mod current period ltac:(lia)) as Hcm. pose proof (Z.mod_pos_bound current period ltac:(lia)) as Hcb.
    pose proof (Z.div_mod (current mod period) (quantum period) ltac:(lia)) as Hqm.
    pose proof (Z.mod_pos_bound (current mod period) (quantum period) Hqp) as Hqb.
    enough ((current - phase) / period = current / period) by (unfold b; lia).
    symmetry. apply Z.div_unique_pos with (r := current mod period - phase); lia.
Qed.
End codec.

Lemma era_window_witness : exists b, @birth true unit (Mortal 64 42) 100 = Ok b /\ b <= 100 < b + 64.
Proof.
  destruct (@era_window true unit 64 42 100) as (b & H1 & H2 & _); [|lia|lia|exists b; split; [exact H1|exact H2]].
  split; [exists 6; split; [lia|reflexivity]|]. split; [lia|]. exists 42. reflexivity.
Defined.
