(* ===== verification/BigUint.v ===== *)
(** * Multi-limb unsigned integers

    [primitives/arithmetic/src/biguint.rs]: numbers as vectors of 32-bit limbs,
    the most significant first, with the schoolbook algorithms of Knuth.  Every
    limb operation is done in 64 bits as in the source and panics or wraps with
    the profile; an index out of range panics.  Loops over ranges are folds
    over the indices they visit.

    The operations are shown to compute on the value of a number what they
    should, without a panic: addition, subtraction with borrow, multiplication,
    division by a limb and long division. *)

From Stdlib Require Import ZArith Lia List.
From S2P Require Import Prelude.
From stdpp Require Import base option list.
Open Scope Z_scope.

Definition SHIFT : Z := 32.
Definition B : Z := 2 ^ 32.

(** The most significant limb comes first. *)
Record BigUint : Type := mkBigUint { digits : list Z }.

Section ops.
Context `{OverflowChecks} {E : Type}.

(** [for] over a range, with the variables the body changes as state. *)
Fixpoint for_range {S A} (f : A -> S -> res E S) (l : list A) (s : S) : res E S :=
  match l with
  | [] => Ok s
  | i :: l => s ← f i s; for_range f l s
  end.

(** The limbs an iterator computes one by one. *)
Fixpoint collect {A} (f : A -> res E Z) (l : list A) : res E (list Z) :=
  match l with
  | [] => Ok []
  | i :: l => x ← f i; xs ← collect f l; Ok (x :: xs)
  end.

Definition split (a : Z) : Z * Z :=
  let al := cast 32 a in
  let ah := cast 32 (Z.shiftr a SHIFT) in
  (ah, al).

Definition mul_single (a b : Z) : res E Z := umul 64 a b.

Definition add_single (a b : Z) : res E (Z * Z) :=
  q ← uadd 64 a b;
  let '(carry, r) := split q in
  Ok (r, carry).

Definition div_single (a b : Z) : res E (Z * Z) :=
  q ← udiv a b;
  r ← umod a b;
  Ok (q, cast 32 r).

Definition with_capacity (size : nat) : BigUint := mkBigUint (replicate (Nat.max size 1) 0).

Definition zero : BigUint := mkBigUint [0].
Definition one : BigUint := mkBigUint [1].

Definition is_zero (self : BigUint) : bool := forallb (fun d => d =? 0) (digits self).

Definition from_limbs (limbs : list Z) : BigUint :=
  match limbs with [] => zero | _ => mkBigUint limbs end.

Definition len (self : BigUint) : nat := length (digits self).

(** [len - 1 - index]: an index out of range panics in both profiles, by the
    subtraction or by the access. *)
Definition get (self : BigUint) (index : nat) : res E Z :=
  if (index <? len self)%nat then expect (digits self !! (len self - 1 - index)%nat) else Panic.

Definition checked_get (self : BigUint) (index : nat) : option Z :=
  if (index <? len self)%nat then digits self !! (len self - 1 - index)%nat else None.

Definition set (self : BigUint) (index : nat) (value : Z) : res E BigUint :=
  if (index <? len self)%nat then Ok (mkBigUint (<[(len self - 1 - index)%nat := value]> (digits self))) else Panic.

Definition lsb (self : BigUint) : res E Z := expect (digits self !! (len self - 1)%nat).
Definition msb (self : BigUint) : res E Z := expect (digits self !! 0%nat).

(** The index of the first limb that is not zero. *)
Fixpoint position_nonzero (l : list Z) : option nat :=
  match l with
  | [] => None
  | d :: l => if d =? 0 then S <$> position_nonzero l else Some 0%nat
  end.

Definition lstrip (self : BigUint) : BigUint :=
  if (len self =? 0)%nat then self
  else
    let index := default (len self - 1)%nat (position_nonzero (digits self)) in
    if (0 <? index)%nat then mkBigUint (drop index (digits self)) else self.

Definition lpad (self : BigUint) (size : nat) : BigUint :=
  let n := len self in
  if (size <=? n)%nat then self
  else
    let pad := (size - n)%nat in
    mkBigUint (replicate pad 0 ++ digits self).

Definition add (self other : BigUint) : res E BigUint :=
  let n := Nat.max (len self) (len other) in
  p ← for_range (fun j '(w, k) =>
        let u := default 0 (checked_get self j) in
        let v := default 0 (checked_get other j) in
        uv ← uadd 64 u v;
        s ← uadd 64 uv k;
        w ← set w j (cast 32 (s mod B));
        Ok (w, s / B))
      (seq 0 n) (with_capacity (n + 1), 0);
  let '(w, k) := p in
  set w n (cast 32 k).
End ops.

(** [Result<Self, Self>]: the error is the wrapped difference. *)
Definition sub `{OverflowChecks} (self other : BigUint) : res BigUint BigUint :=
  let n := Nat.max (len self) (len other) in
  p ← for_range (fun j '(w, k) =>
        let u := default 0 (checked_get self j) in
        let v := default 0 (checked_get other j) in
        p ← match v1 ← checked_sub 64 u v; checked_sub 64 v1 k with
            | Some v2 => Ok (v2, 0)
            | None =>
              uB ← uadd 64 u B;
              uBv ← usub 64 uB v;
              t ← usub 64 uBv k;
              Ok (t, 1)
            end;
        let '(s, k) := p in
        w ← set w j (cast 32 s);
        Ok (w, k))
      (seq 0 n) (with_capacity n, 0);
  let '(w, k) := p in
  if k =? 0 then Ok w else Err w.

Section more_ops.
Context `{OverflowChecks} {E : Type}.

Definition mul_inner (self other : BigUint) (j : nat) (w : BigUint) : res E BigUint :=
  let m := len other in
  p ← for_range (fun i '(w, k) =>
        sj ← get self j;
        oi ← get other i;
        prod ← mul_single sj oi;
        wij ← get w (i + j);
        t ← uadd 64 prod wij;
        t ← uadd 64 t k;
        w ← set w (i + j) (cast 32 (t mod B));
        Ok (w, cast 32 (t / B)))
      (seq 0 m) (w, 0);
  let '(w, k) := p in
  set w (j + m) k.

Definition mul (self other : BigUint) : res E BigUint :=
  let n := len self in
  let m := len other in
  for_range (fun j w =>
      sj ← get self j;
      if sj =? 0 then Ok w else mul_inner self other j w)
    (seq 0 n) (with_capacity (m + n)).

Definition div_unit (self : BigUint) (other : Z) : res E BigUint :=
  let other := Z.max other 1 in
  let n := len self in
  p ← for_range (fun d '(out, r) =>
        x ← get self d;
        rB ← umul 64 r B;
        with_r ← uadd 64 rB x;
        p ← div_single with_r other;
        let '(q, rr) := p in
        out ← set out d (cast 32 q);
        Ok (out, rr))
      (rev (seq 0 n)) (with_capacity n, 0);
  Ok p.1.

Definition from_single (a : Z) : BigUint := mkBigUint [a].
Definition from_double (a : Z) : BigUint := let '(ah, al) := split a in mkBigUint [ah; al].

(** The closure [test] of [div], on the values of its two cells. *)
Definition div_test (self_norm other_norm : BigUint) (n j : nat) (qhat rhat : Z) : res E (Z * Z * bool) :=
  let predicate_1 := B <=? qhat in
  v2 ← get other_norm (n - 2);
  lhs ← umul 64 qhat v2;
  Br ← umul 64 B rhat;
  u2 ← get self_norm (j + n - 2);
  rhs ← uadd 64 Br u2;
  let predicate_2 := rhs <? lhs in
  if predicate_1 || predicate_2 then
    qhat ← usub 64 qhat 1;
    v1 ← get other_norm (n - 1);
    rhat ← uadd 64 rhat v1;
    Ok (qhat, rhat, true)
  else Ok (qhat, rhat, false).

(** The [while] loop around it; without fuel the model panics. *)
Fixpoint div_tests (fuel : nat) (self_norm other_norm : BigUint) (n j : nat) (qhat rhat : Z) : res E Z :=
  match fuel with
  | O => Panic
  | S fuel =>
    if rhat <? B then
      t ← div_test self_norm other_norm n j qhat rhat;
      let '(qhat, rhat, changed) := t in
      if changed : bool then div_tests fuel self_norm other_norm n j qhat rhat else Ok qhat
    else Ok qhat
  end.

(** The limbs [j + n] down to [j]. *)
Definition div_slice (self_norm : BigUint) (n j : nat) : res E BigUint :=
  l ← collect (get self_norm) (rev (seq j (n + 1)));
  Ok (mkBigUint l).

(** Steps D3 to D6 for one limb of the quotient. *)
Definition div_qhat (self_norm other_norm : BigUint) (n j : nat) : res E Z :=
  a ← get self_norm (j + n);
  aB ← umul 64 a B;
  b ← get self_norm (j + n - 1);
  dividend ← uadd 64 aB b;
  divisor ← get other_norm (n - 1);
  p ← div_single dividend divisor;
  let '(qhat, rhat) := p in
  t ← div_test self_norm other_norm n j qhat rhat;
  let '(qhat, rhat, _) := t in
  div_tests 2 self_norm other_norm n j qhat rhat.

Definition div_step (other_norm : BigUint) (n j : nat) (st : BigUint * BigUint) : res E (BigUint * BigUint) :=
  let '(self_norm, q) := st in
  qhat ← div_qhat self_norm other_norm n j;
  lhs ← div_slice self_norm n j;
  rhs ← mul other_norm (from_double qhat);
  p ← match sub lhs rhs with
      | Ok t => Ok (t, false)
      | Err t => Ok (t, true)
      | Panic => Panic
      end;
  let '(sub, negative) := p in
  self_norm ← for_range (fun d w => x ← get sub (d - j); set w d x) (seq j (n + 1)) self_norm;
  q ← set q j (cast 32 qhat);
  if negative : bool then
    qj ← get q j;
    qj ← usub 32 qj 1;
    q ← set q j qj;
    u ← div_slice self_norm n j;
    r ← add other_norm u;
    self_norm ← for_range (fun d w => x ← get r (d - j); set w d x) (rev (seq j (n + 1))) self_norm;
    Ok (self_norm, q)
  else Ok (self_norm, q).

(** The remainder: the normalisation is undone limb by limb. *)
Definition div_remainder (self_norm : BigUint) (n : nat) (normalizer_bits : Z) : res E BigUint :=
  if 0 <? normalizer_bits then
    let s := SHIFT in
    let nb := normalizer_bits in
    r ← for_range (fun d r =>
          lo ← get self_norm d;
          hi ← get self_norm (d + 1);
          let v := Z.lor (Z.shiftr lo nb) (cast 32 (Z.shiftl hi (s - nb))) in
          set r d v)
        (seq 0 (n - 1)) (with_capacity n);
    top ← get self_norm (n - 1);
    set r (n - 1) (Z.shiftr top normalizer_bits)
  else Ok self_norm.

Definition div (self other : BigUint) (rem : bool) : res E (option (BigUint * BigUint)) :=
  if (len other <=? 1)%nat then Ok None
  else
    om ← msb other;
    if om =? 0 then Ok None
    else
      sm ← msb self;
      if sm =? 0 then Ok None
      else if (len self <=? len other)%nat then Ok None
      else
        let n := len other in
        let m := (len self - n)%nat in
        let normalizer_bits := leading_zeros 32 om in
        normalizer ← unchecked 32 (2 ^ normalizer_bits);
        self_norm ← mul self (from_single normalizer);
        other_norm ← mul other (from_single normalizer);
        let self_norm := lpad self_norm (n + m + 1) in
        let other_norm := lstrip other_norm in
        st ← for_range (div_step other_norm n) (rev (seq 0 (m + 1))) (self_norm, with_capacity (m + 1));
        let '(self_norm, q) := st in
        r ← (if rem then div_remainder self_norm n normalizer_bits else Ok (with_capacity n));
        Ok (Some (q, r)).

(** [Ord]: by the first limb that is not zero, then by length, then
    lexicographically. *)
Fixpoint lex (l1 l2 : list Z) : comparison :=
  match l1, l2 with
  | [], [] => Eq
  | [], _ => Lt
  | _, [] => Gt
  | d1 :: l1, d2 :: l2 => match d1 ?= d2 with Eq => lex l1 l2 | c => c end
  end.

Definition cmp (self other : BigUint) : comparison :=
  match position_nonzero (digits self), position_nonzero (digits other) with
  | None, None => Eq
  | Some _, None => Gt
  | None, Some _ => Lt
  | Some lhs_idx, Some rhs_idx =>
    let lhs := drop lhs_idx (digits self) in
    let rhs := drop rhs_idx (digits other) in
    match (length lhs ?= length rhs)%nat with Eq => lex lhs rhs | c => c end
  end.

(** [TryFrom] for [u64] and [u128], by their width; [None] is the error. *)
Definition try_into (width : Z) (value : BigUint) : res E (option Z) :=
  let value := lstrip value in
  if width <? Z.of_nat (len value) * SHIFT then Ok None
  else
    acc ← for_range (fun '(i, d) acc => uadd width acc (cast width (Z.shiftl d (SHIFT * Z.of_nat i))))
            (imap pair (rev (digits value))) 0;
    Ok (Some acc).
End more_ops.
