(* ===== verification/BigUintSpec.v ===== *)
(** * The value of multi-limb integers

    What the operations of [BigUint] compute on the numbers the limbs stand
    for, and that none of them panics. *)

From Stdlib Require Import ZArith Lia List Psatz.
From S2P Require Import Prelude BigUint.
From stdpp Require Import base option list.
Open Scope Z_scope.

(** ** Positional values *)
Definition Bp (n : nat) : Z := B ^ Z.of_nat n.

Lemma B_val : B = 4294967296.
Proof. reflexivity. Qed.

Lemma Bp_0 : Bp 0 = 1.
Proof. reflexivity. Qed.

Lemma Bp_S n : Bp (S n) = B * Bp n.
Proof. unfold Bp. rewrite Nat2Z.inj_succ, Z.pow_succ_r by lia. reflexivity. Qed.

Lemma Bp_pos n : 0 < Bp n.
Proof. unfold Bp. apply Z.pow_pos_nonneg; [rewrite B_val; lia|lia]. Qed.

Lemma Bp_add n m : Bp (n + m) = Bp n * Bp m.
Proof. unfold Bp. rewrite Nat2Z.inj_add, Z.pow_add_r by lia. reflexivity. Qed.

Lemma Bp_le n m : (n <= m)%nat -> Bp n <= Bp m.
Proof. intros Hnm. unfold Bp. apply Z.pow_le_mono_r; [rewrite B_val; lia|lia]. Qed.

(** The value of the limbs [f 0] to [f (n - 1)]. *)
Fixpoint pv (f : nat -> Z) (n : nat) : Z :=
  match n with
  | O => 0
  | S n => pv f n + f n * Bp n
  end.

Lemma pv_ext f g n : (forall i, (i < n)%nat -> f i = g i) -> pv f n = pv g n.
Proof. induction n as [|n IH]; intros Hfg; simpl; [done|]. rewrite IH, Hfg; [done|lia|]. intros i Hi. apply Hfg. lia. Qed.

Lemma pv_bound f n : (forall i, (i < n)%nat -> 0 <= f i < B) -> 0 <= pv f n < Bp n.
Proof.
  induction n as [|n IH]; intros Hf; simpl; [rewrite Bp_0; lia|]. rewrite Bp_S.
  specialize (IH ltac:(intros i Hi; apply Hf; lia)). specialize (Hf n ltac:(lia)). pose proof (Bp_pos n). nia.
Qed.

Lemma pv_zeros f n m : (n <= m)%nat -> (forall i, (n <= i < m)%nat -> f i = 0) -> pv f m = pv f n.
Proof.
  intros Hnm Hf. induction m as [|m IH]; [by replace n with 0%nat by lia|].
  destruct (decide (n = S m)) as [->|Hne]; [done|]. simpl. rewrite IH, Hf by (lia || (intros i Hi; apply Hf; lia)). lia.
Qed.

(** The limbs from [n] on, as a number of their own. *)
Lemma pv_split f n m : pv f (n + m) = pv f n + Bp n * pv (fun i => f (n + i)%nat) m.
Proof.
  induction m as [|m IH]; [rewrite Nat.add_0_r; simpl; lia|]. rewrite Nat.add_succ_r. simpl. rewrite IH, Bp_add. lia.
Qed.

(** ** Limbs *)
Definition limb (w : BigUint) (i : nat) : Z := default 0 (checked_get w i).
Definition value (w : BigUint) : Z := pv (limb w) (len w).
Definition limbs_ok (w : BigUint) : Prop := Forall (fun d => 0 <= d < B) (digits w).

Lemma limb_bound w i : limbs_ok w -> 0 <= limb w i < B.
Proof.
  intros Hw. unfold limb, checked_get. destruct (i <? len w)%nat; [|simpl; rewrite B_val; lia].
  destruct (digits w !! _) as [d|] eqn:Hd; [|simpl; rewrite B_val; lia]. by eapply Forall_lookup in Hw.
Qed.

Lemma limb_out w i : (len w <= i)%nat -> limb w i = 0.
Proof. intros Hi. unfold limb, checked_get. destruct (Nat.ltb_spec i (len w)); [lia|done]. Qed.

Lemma value_pv w n : (len w <= n)%nat -> pv (limb w) n = value w.
Proof. intros Hn. apply pv_zeros; [done|]. intros i Hi. apply limb_out. lia. Qed.

Lemma value_bound w : limbs_ok w -> 0 <= value w < Bp (len w).
Proof. intros Hw. apply pv_bound. intros i _. by apply limb_bound. Qed.

Section limbs.
Context `{OverflowChecks} {E : Type}.

Lemma get_ok w i : (i < len w)%nat -> get (E := E) w i = Ok (limb w i).
Proof.
  intros Hi. unfold get, limb, checked_get. destruct (Nat.ltb_spec i (len w)); [|lia].
  destruct (lookup_lt_is_Some_2 (digits w) (len w - 1 - i)%nat) as [d Hd]; [unfold len in *; lia|]. by rewrite Hd.
Qed.

Lemma set_ok w i v : (i < len w)%nat ->
  exists w', set (E := E) w i v = Ok w' /\ len w' = len w /\ (limbs_ok w -> 0 <= v < B -> limbs_ok w') /\
    limb w' i = v /\ forall k, k <> i -> limb w' k = limb w k.
Proof.
  intros Hi. unfold set. destruct (Nat.ltb_spec i (len w)); [|lia]. eexists. split; [done|].
  unfold len, limb, checked_get, len in *. simpl. rewrite length_insert. split_and!; [done| | |].
  - intros Hw Hv. by apply Forall_insert.
  - destruct (Nat.ltb_spec i (length (digits w))); [|lia]. by rewrite list_lookup_insert_eq by lia.
  - intros k Hk. destruct (Nat.ltb_spec k (length (digits w))); [|done]. by rewrite list_lookup_insert_ne by lia.
Qed.

Lemma with_capacity_spec n : len (with_capacity n) = Nat.max n 1 /\ limbs_ok (with_capacity n) /\ forall i, limb (with_capacity n) i = 0.
Proof.
  unfold len, with_capacity. simpl. rewrite length_replicate. split_and!; [done| |].
  - apply Forall_replicate. rewrite B_val. lia.
  - intros i. unfold limb, checked_get. destruct (_ <? _)%nat; [|done]. cbn [digits].
    destruct (replicate _ _ !! _) as [d|] eqn:Hd; [|done]. by apply lookup_replicate in Hd as [-> _].
Qed.

(** Loops over ranges, by an invariant. *)
Lemma for_range_up {S} (P : nat -> S -> Prop) (f : nat -> S -> res E S) a n s :
  P a s -> (forall j s, (a <= j < a + n)%nat -> P j s -> exists s', f j s = Ok s' /\ P (j + 1)%nat s') ->
  exists s', for_range f (seq a n) s = Ok s' /\ P (a + n)%nat s'.
Proof.
  revert a s. induction n as [|n IH]; intros a s Hs Hstep; simpl.
  { exists s. by rewrite Nat.add_0_r. }
  destruct (Hstep a s ltac:(lia) Hs) as (s1 & Hf & H1). rewrite Hf. simpl.
  destruct (IH (a + 1)%nat s1 H1) as (s' & Hr & H2); [intros j s' Hj; apply Hstep; lia|].
  replace (a + 1)%nat with (Datatypes.S a) in * by lia. exists s'. split; [done|]. by replace (a + Datatypes.S n)%nat with (Datatypes.S a + n)%nat by lia.
Qed.

Lemma for_range_app {S A} (f : A -> S -> res E S) l1 l2 s : for_range f (l1 ++ l2) s = (s1 ← for_range f l1 s; for_range f l2 s1).
Proof. revert s. induction l1 as [|i l1 IH]; intros s; simpl; [done|]. destruct (f i s); simpl; [apply IH|done|done]. Qed.

Lemma for_range_down {S} (P : nat -> S -> Prop) (f : nat -> S -> res E S) a n s :
  P (a + n)%nat s -> (forall j s, (a <= j < a + n)%nat -> P (j + 1)%nat s -> exists s', f j s = Ok s' /\ P j s') ->
  exists s', for_range f (rev (seq a n)) s = Ok s' /\ P a s'.
Proof.
  revert s. induction n as [|n IH]; intros s Hs Hstep.
  { simpl. exists s. by rewrite Nat.add_0_r in Hs. }
  rewrite seq_S, rev_app_distr. simpl. destruct (Hstep (a + n)%nat s ltac:(lia)) as (s1 & Hf & H1).
  { by replace (a + n + 1)%nat with (a + Datatypes.S n)%nat by lia. }
  rewrite Hf. simpl. apply IH; [done|]. intros j s' Hj. apply Hstep. lia.
Qed.
End limbs.

Lemma BB : B * B = 2 ^ 64.
Proof. reflexivity. Qed.

Lemma divB s : 0 <= s -> s = s mod B + s / B * B /\ 0 <= s mod B < B /\ 0 <= s / B.
Proof.
  intros Hs. pose proof (Z.div_mod s B ltac:(rewrite B_val; lia)). pose proof (Z.mod_pos_bound s B ltac:(rewrite B_val; lia)).
  pose proof (Z.div_pos s B Hs ltac:(rewrite B_val; lia)). lia.
Qed.

Lemma cast_B z : 0 <= z < B -> cast 32 z = z.
Proof. intros Hz. by apply cast_id. Qed.

Section arithmetic.
Context `{OverflowChecks}.

(** ** Addition *)
Lemma add_run {E} (a b : BigUint) : limbs_ok a -> limbs_ok b ->
  exists w, add (E := E) a b = Ok w /\ limbs_ok w /\ len w = (Nat.max (len a) (len b) + 1)%nat /\ value w = value a + value b.
Proof.
  intros Ha Hb. unfold add. set (n := Nat.max (len a) (len b)).
  destruct (with_capacity_spec (n + 1)) as (Hl0 & Hok0 & _).
  match goal with |- context [for_range ?f _ _] => set (body := f) end.
  destruct (for_range_up (E := E) (fun j '(w, k) => len w = (n + 1)%nat /\ limbs_ok w /\ 0 <= k <= 1 /\
    pv (limb w) j + k * Bp j = pv (limb a) j + pv (limb b) j) body 0 n (with_capacity (n + 1), 0))
    as ([w k] & Hrun & Hl & Hok & Hk & Heq).
  - rewrite Hl0. split_and!; [lia|done|lia..|]. simpl. lia.
  - intros j [w k] Hj (Hl & Hok & Hk & Heq). unfold body.
    change (default 0 (checked_get a j)) with (limb a j). change (default 0 (checked_get b j)) with (limb b j).
    pose proof (limb_bound a j Ha) as HA. pose proof (limb_bound b j Hb) as HB. rewrite B_val in HA, HB.
    rewrite uadd_ok by (unfold is_u; lia). cbn [mbind res_mbind]. rewrite uadd_ok by (unfold is_u; lia). cbn [mbind res_mbind].
    set (s := limb a j + limb b j + k). destruct (divB s ltac:(unfold s; lia)) as (Hs & Hm & Hd).
    rewrite cast_B by done. destruct (set_ok (E := E) w j (s mod B)) as (w' & Hset & Hl' & Hok' & Hj' & Ho'); [lia|].
    rewrite Hset. cbn [mbind res_mbind]. eexists. split; [reflexivity|]. split_and!; [lia|auto|done| |].
    + assert (s < 2 * B) by (unfold s; rewrite B_val; lia). enough (s / B < 2) by lia. apply Z.div_lt_upper_bound; lia.
    + rewrite Nat.add_1_r. cbn [pv]. rewrite Hj', (pv_ext (limb w') (limb w)) by (intros i Hi; apply Ho'; lia).
      rewrite Bp_S. unfold s in *. pose proof (Bp_pos j). nia.
  - rewrite Hrun. cbn [mbind res_mbind]. rewrite cast_B by (rewrite B_val; lia). simpl Nat.add in Heq.
    destruct (set_ok (E := E) w n k) as (w' & Hset & Hl' & Hok' & Hj' & Ho'); [lia|]. exists w'.
    split_and!; [done|apply Hok'; [done|rewrite B_val; lia]|lia|].
    unfold value at 1. rewrite Hl', Hl, Nat.add_1_r. cbn [pv]. rewrite Hj', (pv_ext (limb w') (limb w)) by (intros i Hi; apply Ho'; lia).
    rewrite Heq. rewrite !value_pv by lia. lia.
Qed.

(** ** Subtraction *)
Lemma sub_run (a b : BigUint) : limbs_ok a -> limbs_ok b ->
  let n := Nat.max (len a) (len b) in
  exists w, limbs_ok w /\ len w = Nat.max n 1 /\
    if value b <=? value a
    then sub a b = Ok w /\ value w = value a - value b
    else sub a b = Err w /\ value w = value a - value b + Bp n.
Proof.
  intros Ha Hb n. unfold sub. fold n.
  destruct (with_capacity_spec n) as (Hl0 & Hok0 & Hz0).
  match goal with |- context [for_range ?f _ _] => set (body := f) end.
  destruct (for_range_up (E := BigUint) (fun j '(w, k) => len w = Nat.max n 1 /\ limbs_ok w /\ 0 <= k <= 1 /\
    (forall i, (j <= i)%nat -> limb w i = 0) /\
    pv (limb w) j = pv (limb a) j - pv (limb b) j + k * Bp j) body 0 n (with_capacity n, 0))
    as ([w k] & Hrun & Hl & Hok & Hk & Hz & Heq).
  - rewrite Hl0. split_and!; [done|done|lia..|done|]. simpl. lia.
  - intros j [w k] Hj (Hl & Hok & Hk & Hz & Heq). unfold body.
    change (default 0 (checked_get a j)) with (limb a j). change (default 0 (checked_get b j)) with (limb b j).
    pose proof (limb_bound a j Ha) as HA. pose proof (limb_bound b j Hb) as HB.
    set (d := limb a j - limb b j - k).
    match goal with |- context [mbind _ (match ?m with Some _ => _ | None => _ end)] => assert (m = if 0 <=? d then Some d else None) as -> end.
    { unfold checked_sub. rewrite B_val in HA, HB. cbn [mbind option_bind]. destruct (Z.leb_spec 0 d) as [Hd|Hd].
      - rewrite checked_ok by (unfold is_u, d in *; lia). cbn [mbind option_bind]. rewrite checked_ok; [done|unfold is_u, d in *; lia].
      - destruct (checked 64 (limb a j - limb b j)) as [z|] eqn:Hc; [|done]. apply checked_Some in Hc as [-> _].
        cbn [mbind option_bind]. apply checked_None. unfold is_u, d in *. lia. }
    set (t := if 0 <=? d then d else d + B). set (k' := if 0 <=? d then 0 else 1).
    assert (0 <= t < B /\ 0 <= k' <= 1 /\ t = d + k' * B) as (Ht & Hk' & Htk).
    { unfold t, k', d in *. destruct (Z.leb_spec 0 (limb a j - limb b j - k)); lia. }
    match goal with |- context [mbind _ ?m] => assert (m = Ok (t, k')) as -> end.
    { unfold t, k'. destruct (Z.leb_spec 0 d); [done|]. rewrite B_val in *. unfold d in *.
      rewrite uadd_ok by (unfold is_u; lia). cbn [mbind res_mbind]. rewrite usub_ok by (unfold is_u; lia). cbn [mbind res_mbind].
      rewrite usub_ok by (unfold is_u; lia). cbn [mbind res_mbind]. do 2 f_equal. lia. }
    cbn [mbind res_mbind]. rewrite cast_B by done.
    destruct (set_ok (E := BigUint) w j t) as (w' & Hset & Hl' & Hok' & Hj' & Ho'); [lia|].
    rewrite Hset. cbn [mbind res_mbind]. eexists. split; [reflexivity|]. split_and!; [lia|auto|lia..| |].
    + intros i Hi. rewrite Ho' by lia. apply Hz. lia.
    + rewrite Nat.add_1_r. cbn [pv]. rewrite Hj', (pv_ext (limb w') (limb w)) by (intros i Hi; apply Ho'; lia).
      rewrite Bp_S, Heq, Htk. unfold d. lia.
  - rewrite Hrun. cbn [mbind res_mbind]. simpl Nat.add in Heq, Hz. rewrite (value_pv a n), (value_pv b n) in Heq by lia.
    assert (value w = pv (limb w) n) as Hv by (apply pv_zeros; [lia|intros i Hi; apply Hz; lia]).
    exists w. split_and!; [done|done|]. pose proof (value_bound w Hok) as Hwb. rewrite Hv in *.
    pose proof (value_bound a Ha) as Hab. pose proof (value_bound b Hb) as Hbb.
    pose proof (Bp_le (len a) n ltac:(lia)). pose proof (Bp_le (len b) n ltac:(lia)). pose proof (Bp_pos n).
    pose proof (pv_bound (limb w) n (fun i _ => limb_bound w i Hok)) as Hpb.
    destruct (Z.leb_spec (value b) (value a)).
    + assert (k = 0) as -> by nia. split; [done|lia].
    + assert (k = 1) as -> by nia. split; [done|lia].
Qed.

(** ** Multiplication *)

(** One row: limb [j] of [a] times [b] is added at position [j]. *)
Lemma mul_row {E} (a b w : BigUint) j : limbs_ok a -> limbs_ok b -> limbs_ok w ->
  (j < len a)%nat -> (j + len b < len w)%nat -> (forall i, (j + len b <= i)%nat -> limb w i = 0) ->
  exists w', mul_inner (E := E) a b j w = Ok w' /\ limbs_ok w' /\ len w' = len w /\
    (forall i, (j + len b < i)%nat -> limb w' i = 0) /\
    pv (limb w') (j + len b + 1) = pv (limb w) (j + len b) + limb a j * Bp j * value b.
Proof.
  intros Ha Hb Hw Hj Hlen Hz. unfold mul_inner. set (m := len b) in *.
  match goal with |- context [for_range ?f _ _] => set (body := f) end.
  destruct (for_range_up (E := E) (fun i '(w1, k) => len w1 = len w /\ limbs_ok w1 /\ 0 <= k < B /\
    (forall p, (j + i <= p)%nat -> limb w1 p = limb w p) /\
    pv (limb w1) (j + i) + k * Bp (j + i) = pv (limb w) (j + i) + limb a j * Bp j * pv (limb b) i) body 0 m (w, 0))
    as ([w1 k] & Hrun & Hl & Hok & Hk & Hsame & Heq).
  - split_and!; [done|done|lia|rewrite B_val; lia|done|]. simpl. lia.
  - intros i [w1 k] Hi (Hl & Hok & Hk & Hsame & Heq). unfold body.
    rewrite (get_ok a), (get_ok b), (get_ok w1) by lia. cbn [mbind res_mbind]. unfold mul_single.
    pose proof (limb_bound a j Ha) as HA. pose proof (limb_bound b i Hb) as HB. pose proof (limb_bound w1 (i + j) Hok) as HW.
    pose proof BB as HBB. assert (limb a j * limb b i <= (B - 1) * (B - 1)) as Hprod by nia.
    rewrite umul_ok by (unfold is_u; nia). cbn [mbind res_mbind]. rewrite uadd_ok by (unfold is_u; nia). cbn [mbind res_mbind].
    rewrite uadd_ok by (unfold is_u; nia). cbn [mbind res_mbind].
    set (t := limb a j * limb b i + limb w1 (i + j) + k). assert (0 <= t < B * B) as Ht by (unfold t; nia).
    assert (t = limb a j * limb b i + limb w (j + i) + k) as Htd by (unfold t; rewrite (Nat.add_comm i j), Hsame; [done|lia]).
    clearbody t. destruct (divB t ltac:(lia)) as (Hs & Hm & Hd). assert (t / B < B) by (apply Z.div_lt_upper_bound; lia).
    rewrite !cast_B by lia.
    destruct (set_ok (E := E) w1 (i + j) (t mod B)) as (w' & Hset & Hl' & Hok' & Hj' & Ho'); [lia|].
    rewrite Hset. cbn [mbind res_mbind]. eexists. split; [reflexivity|]. split_and!; [lia|auto|lia..| |].
    + intros p Hp. rewrite Ho' by lia. apply Hsame. lia.
    + rewrite Nat.add_1_r, Nat.add_succ_r. cbn [pv]. rewrite (pv_ext (limb w') (limb w1)) by (intros q Hq; apply Ho'; lia).
      rewrite (Nat.add_comm i j) in Hj'. rewrite Hj', Bp_S.
      assert (t * Bp (j + i) = (t mod B + t / B * B) * Bp (j + i)) as Hts by congruence.
      rewrite Htd in Hts at 1. rewrite Bp_add in *. lia.
  - rewrite Hrun. cbn [mbind res_mbind]. simpl Nat.add in Heq, Hsame. change (pv (limb b) m) with (value b) in Heq.
    destruct (set_ok (E := E) w1 (j + m) k) as (w' & Hset & Hl' & Hok' & Hj' & Ho'); [lia|]. exists w'.
    split_and!; [done|by apply Hok'|lia| |].
    + intros i Hi. rewrite Ho' by lia. rewrite Hsame by lia. apply Hz. lia.
    + rewrite Nat.add_1_r. cbn [pv]. rewrite Hj', (pv_ext (limb w') (limb w1)) by (intros q Hq; apply Ho'; lia). lia.
Qed.

Lemma mul_run {E} (a b : BigUint) : limbs_ok a -> limbs_ok b ->
  exists w, mul (E := E) a b = Ok w /\ limbs_ok w /\ len w = Nat.max (len b + len a) 1 /\ value w = value a * value b.
Proof.
  intros Ha Hb. unfold mul. set (n := len a). set (m := len b).
  destruct (with_capacity_spec (m + n)) as (Hl0 & Hok0 & Hz0).
  match goal with |- context [for_range ?f _ _] => set (body := f) end.
  destruct (for_range_up (E := E) (fun j w => len w = Nat.max (m + n) 1 /\ limbs_ok w /\
    (forall i, (j + m <= i)%nat -> limb w i = 0) /\ pv (limb w) (j + m) = pv (limb a) j * value b) body 0 n (with_capacity (m + n)))
    as (w & Hrun & Hl & Hok & Hz & Heq).
  - split_and!; [done|done|done|]. simpl. rewrite (pv_zeros _ 0) by (lia || done). done.
  - intros j w Hj (Hl & Hok & Hz & Heq). unfold body. rewrite get_ok by lia. cbn [mbind res_mbind].
    destruct (Z.eqb_spec (limb a j) 0) as [Hz0'|Hnz].
    + exists w. split; [done|]. split_and!; [done|done|intros i Hi; apply Hz; lia|].
      rewrite Nat.add_1_r. cbn [pv Nat.add]. rewrite Hz0', (Hz (j + m)%nat) by lia. lia.
    + destruct (mul_row (E := E) a b w j Ha Hb Hok) as (w' & Hrow & Hok' & Hl' & Hz' & Heq'); [lia|lia|done|].
      exists w'. split; [done|]. fold m in Hz', Heq'. split_and!; [lia|done|intros i Hi; apply Hz'; lia|].
      replace (j + 1 + m)%nat with (j + m + 1)%nat by lia. rewrite Heq', Heq, Nat.add_1_r. cbn [pv]. lia.
  - exists w. split_and!; [done|done|done|]. simpl Nat.add in *. rewrite (Nat.add_comm n m) in *.
    unfold value at 1. rewrite Hl. rewrite (pv_zeros _ (m + n)) by (lia || (intros i Hi; apply Hz; lia)). rewrite Heq. done.
Qed.

(** ** Division by a limb *)
Lemma div_unit_run {E} (a : BigUint) d : limbs_ok a -> 0 < d < B ->
  exists w, div_unit (E := E) a d = Ok w /\ limbs_ok w /\ len w = Nat.max (len a) 1 /\ value w = value a / d.
Proof.
  intros Ha Hd. unfold div_unit. rewrite Z.max_l by lia. set (n := len a).
  destruct (with_capacity_spec n) as (Hl0 & Hok0 & Hz0).
  match goal with |- context [for_range ?f _ _] => set (body := f) end.
  destruct (for_range_down (E := E) (fun j '(w, r) => len w = Nat.max n 1 /\ limbs_ok w /\ 0 <= r < d /\
    (forall i, (i < j)%nat -> limb w i = 0) /\ (forall i, (n <= i)%nat -> limb w i = 0) /\
    pv (limb a) n = pv (limb w) n * d + r * Bp j + pv (limb a) j) body 0 n (with_capacity n, 0))
    as ([w r] & Hrun & Hl & Hok & Hr & Hlo & Hhi & Heq).
  - split_and!; [done|done|lia|lia|intros i _; apply Hz0|intros i _; apply Hz0|]. simpl Nat.add.
    rewrite (pv_zeros _ 0 n (Nat.le_0_l n) (fun i _ => Hz0 i)). simpl. lia.
  - intros j [w r] Hj (Hl & Hok & Hr & Hlo & Hhi & Heq). unfold body. rewrite get_ok by lia. cbn [mbind res_mbind].
    pose proof (limb_bound a j Ha) as HA. pose proof BB as HBB. rewrite umul_ok by (unfold is_u; nia). cbn [mbind res_mbind].
    rewrite uadd_ok by (unfold is_u; nia). cbn [mbind res_mbind]. unfold div_single, udiv, umod.
    replace (d =? 0) with false by lia. cbn [mbind res_mbind]. set (t := r * B + limb a j).
    pose proof (Z.div_mod t d ltac:(lia)) as Hdm. pose proof (Z.mod_pos_bound t d ltac:(lia)) as Hmb.
    assert (0 <= t / d < B) as Hq by (unfold t in *; split; [apply Z.div_pos; nia|apply Z.div_lt_upper_bound; nia]).
    rewrite !cast_B by lia.
    destruct (set_ok (E := E) w j (t / d)) as (w' & Hset & Hl' & Hok' & Hj' & Ho'); [lia|].
    rewrite Hset. cbn [mbind res_mbind]. eexists. split; [reflexivity|].
    assert (pv (limb w') n = pv (limb w) n + t / d * Bp j) as Hpv.
    { replace n with (j + (1 + (n - j - 1)))%nat by lia. rewrite !pv_split. simpl pv. rewrite !Nat.add_0_r, Hj', Bp_0.
      rewrite (Hlo j) by lia. rewrite (pv_ext (limb w') (limb w)) by (intros i Hi; apply Ho'; lia).
      rewrite (pv_ext (fun i => limb w' (j + S i)) (fun i => limb w (j + S i))) by (intros i Hi; apply Ho'; lia). lia. }
    split_and!; [lia|auto|lia|lia| | |].
    + intros i Hi. rewrite Ho' by lia. apply Hlo. lia.
    + intros i Hi. rewrite Ho' by lia. apply Hhi. lia.
    + rewrite Hpv, Heq, Nat.add_1_r, Bp_S. cbn [pv]. unfold t in *. pose proof (Bp_pos j). nia.
  - rewrite Hrun. cbn [mbind res_mbind fst]. exists w. split_and!; [done|done|done|].
    simpl in Heq. rewrite Bp_0 in Heq. change (pv (limb a) n) with (value a) in Heq.
    assert (value w = pv (limb w) n) as -> by (apply pv_zeros; [lia|intros i Hi; apply Hhi; lia]).
    apply Z.div_unique_pos with (r := r); lia.
Qed.

(** ** Long division

    [U] is a slice of the dividend with leading limbs [u2], [u1], [u0], and [V]
    the divisor with leading limbs [v1], [v2]; [X] is the weight of the limbs
    below these. *)
Section estimate.
Context (u2 u1 u0 v1 v2 X ulow vlow : Z).
Context (Hu2 : 0 <= u2 < B) (Hu1 : 0 <= u1 < B) (Hu0 : 0 <= u0 < B) (Hv1 : B <= 2 * v1) (Hv1' : v1 < B) (Hv2 : 0 <= v2 < B).
Context (HX : 0 < X) (Hul : 0 <= ulow < X) (Hvl : 0 <= vlow < X).
Let U := (u2 * (B * B) + u1 * B + u0) * X + ulow.
Let V := (v1 * B + v2) * X + vlow.
Context (HUV : U < B * V).

(** An estimate of the quotient that is not too small. *)
Definition estimate (qhat rhat : Z) : Prop :=
  0 <= qhat <= B + 1 /\ 0 <= rhat /\ qhat * v1 + rhat = u2 * B + u1 /\ U < (qhat + 1) * V.

Lemma v1_pos : 2 <= v1 /\ 4 <= B.
Proof. pose proof B_val. lia. Qed.

Lemma V_pos : 0 < V.
Proof. pose proof v1_pos. unfold V. assert (0 < v1 * B + v2) by nia. nia. Qed.

Lemma u2_v1 : u2 <= v1.
Proof.
  apply Z.lt_succ_r, Z.nle_gt. intros Hlt. assert (B * V <= U); [|lia]. pose proof v1_pos.
  pose proof (Z.mul_le_mono_nonneg_r (v1 + 1) u2 B ltac:(lia) ltac:(lia)) as F1.
  pose proof (Z.mul_le_mono_nonneg_r (v1 * B + v2 + 1) (u2 * B) X ltac:(lia) ltac:(lia)) as F2.
  assert (V <= u2 * B * X) as F3 by (unfold V; lia).
  pose proof (Z.mul_le_mono_nonneg_l V (u2 * B * X) B ltac:(lia) F3) as F4. unfold U.
  pose proof (Z.mul_nonneg_nonneg u1 B). pose proof (Z.mul_nonneg_nonneg (u1 * B + u0) X). lia.
Qed.

Lemma estimate_init : estimate ((u2 * B + u1) / v1) ((u2 * B + u1) mod v1) /\ (u2 * B + u1) mod v1 < B.
Proof.
  pose proof u2_v1 as Hle. pose proof v1_pos as [Hv HB4]. set (t := u2 * B + u1).
  pose proof (Z.div_mod t v1 ltac:(lia)) as Hdm. pose proof (Z.mod_pos_bound t v1 ltac:(lia)) as Hmb.
  set (q := t / v1) in *. set (r := t mod v1) in *. split; [|lia]. unfold estimate. fold t.
  pose proof (Z.mul_le_mono_nonneg_r u2 v1 B ltac:(lia) Hle) as F1.
  pose proof (Z.mul_nonneg_nonneg u2 B) as Hu2B. assert (0 <= t) as Ht by (unfold t; lia). assert (0 <= q) by (apply Z.div_pos; lia).
  assert (q <= B + 1).
  { apply Z.nlt_ge. intros Hlt. pose proof (Z.mul_le_mono_nonneg_l (B + 2) q v1 ltac:(lia) ltac:(lia)). unfold t in Hdm. lia. }
  split_and!; [lia|lia|lia|lia|].
  assert (t + 1 <= (q + 1) * v1) as F2 by lia.
  pose proof (Z.mul_nonneg_nonneg B X ltac:(lia) ltac:(lia)) as HBX. pose proof (Z.mul_nonneg_nonneg v2 X ltac:(lia) ltac:(lia)) as HvX.
  pose proof (Z.mul_le_mono_nonneg_r (t + 1) ((q + 1) * v1) (B * X) HBX F2) as F3.
  pose proof (Z.mul_le_mono_nonneg_r (u0 + 1) B X ltac:(lia) ltac:(lia)) as F4.
  pose proof (Z.mul_nonneg_nonneg (q + 1) (v2 * X + vlow) ltac:(lia) ltac:(lia)) as F5. unfold U, V, t in *. lia.
Qed.

(** A test that succeeds lowers an estimate that was too large. *)
Lemma estimate_test qhat rhat : estimate qhat rhat -> B <= qhat \/ B * rhat + u0 < qhat * v2 ->
  1 <= qhat /\ estimate (qhat - 1) (rhat + v1).
Proof.
  pose proof V_pos as HV. pose proof v1_pos. intros ((Hq0 & Hq1) & Hr & Heq & HU) Ht.
  assert (1 <= qhat) as Hq.
  { destruct Ht; [lia|]. destruct (Z.eq_dec qhat 0) as [->|]; [|lia]. pose proof (Z.mul_nonneg_nonneg B rhat). lia. }
  split; [done|]. unfold estimate. split_and!; [lia|lia|lia|lia|].
  replace (qhat - 1 + 1) with qhat by lia. destruct Ht as [Ht|Ht].
  - pose proof (Z.mul_le_mono_nonneg_r B qhat V ltac:(lia) Ht). lia.
  - assert (u2 * (B * B) + u1 * B + u0 + 1 <= qhat * (v1 * B + v2)) as F1.
    { replace (u2 * (B * B) + u1 * B) with ((u2 * B + u1) * B) by lia. rewrite <-Heq. lia. }
    pose proof (Z.mul_le_mono_nonneg_r _ _ X ltac:(lia) F1) as F2.
    pose proof (Z.mul_nonneg_nonneg qhat vlow ltac:(lia) ltac:(lia)). unfold U, V in *. lia.
Qed.

(** An estimate that passes the test is at most one too large. *)
Lemma estimate_final qhat rhat : estimate qhat rhat -> qhat < B -> B <= rhat \/ qhat * v2 <= B * rhat + u0 ->
  qhat * V < U + V.
Proof.
  pose proof v1_pos. intros ((Hq0 & Hq1) & Hr & Heq & HU) HqB Ht.
  assert (qhat * v2 <= B * rhat + u0) as Ht'.
  { destruct Ht as [Ht|Ht]; [|done]. pose proof (Z.mul_le_mono_nonneg qhat B v2 B ltac:(lia) ltac:(lia) ltac:(lia) ltac:(lia)).
    pose proof (Z.mul_le_mono_nonneg_l B rhat B ltac:(lia) Ht). lia. }
  assert (qhat * (v1 * B + v2) <= u2 * (B * B) + u1 * B + u0) as F1.
  { replace (u2 * (B * B) + u1 * B) with ((u2 * B + u1) * B) by lia. rewrite <-Heq. lia. }
  pose proof (Z.mul_le_mono_nonneg_r _ _ X ltac:(lia) F1) as F2.
  pose proof (Z.mul_le_mono_nonneg qhat (B - 1) vlow X ltac:(lia) ltac:(lia) ltac:(lia) ltac:(lia)) as F3.
  pose proof (Z.mul_nonneg_nonneg B X ltac:(lia) ltac:(lia)) as HBX.
  pose proof (Z.mul_le_mono_nonneg_r 1 v1 (B * X) HBX ltac:(lia)) as F4.
  pose proof (Z.mul_nonneg_nonneg v2 X ltac:(lia) ltac:(lia)). unfold U, V in *. lia.
Qed.
End estimate.

Lemma pv_top3 f p : pv f (p + 3) = (f (p + 2)%nat * (B * B) + f (p + 1)%nat * B + f p) * Bp p + pv f p.
Proof.
  replace (p + 3)%nat with (S (S (S p))) by lia. cbn [pv]. rewrite !Bp_S.
  replace (p + 2)%nat with (S (S p)) by lia. replace (p + 1)%nat with (S p) by lia. lia.
Qed.

Lemma pv_top2 f p : pv f (p + 2) = (f (p + 1)%nat * B + f p) * Bp p + pv f p.
Proof.
  replace (p + 2)%nat with (S (S p)) by lia. cbn [pv]. rewrite !Bp_S. replace (p + 1)%nat with (S p) by lia. lia.
Qed.

Lemma collect_ok {E A} (f : A -> res E Z) (g : A -> Z) l : Forall (fun i => f i = Ok (g i)) l -> collect f l = Ok (g <$> l).
Proof. induction 1 as [|i l Hi _ IH]; simpl; [done|]. rewrite Hi. simpl. by rewrite IH. Qed.

Lemma rev_lookup {A} (l : list A) i : (i < length l)%nat -> rev l !! i = l !! (length l - S i)%nat.
Proof. intros Hi. rewrite rev_alt. by apply reverse_lookup. Qed.

Lemma div_slice_run {E} un n j : limbs_ok un -> (j + n < len un)%nat ->
  exists l, div_slice (E := E) un n j = Ok l /\ limbs_ok l /\ len l = (n + 1)%nat /\ value l = pv (fun i => limb un (j + i)) (n + 1).
Proof.
  intros Hok Hlen. unfold div_slice. rewrite (collect_ok _ (limb un)).
  2: { apply Forall_forall. intros i [Hi1 Hi2]%list_elem_of_In%in_rev%in_seq. apply get_ok. lia. }
  cbn [mbind res_mbind]. eexists. split; [done|].
  assert (length (limb un <$> rev (seq j (n + 1))) = (n + 1)%nat) as Hl by (rewrite length_fmap, length_rev, length_seq; done).
  split_and!; [|done|].
  - apply Forall_fmap, Forall_forall. intros i _. by apply limb_bound.
  - unfold value, len. cbn [digits]. rewrite Hl. apply pv_ext. intros i Hi.
    unfold limb at 1, checked_get, len. cbn [digits]. rewrite Hl. destruct (Nat.ltb_spec i (n + 1)); [|lia].
    rewrite list_lookup_fmap, rev_lookup by (rewrite length_seq; lia). rewrite length_seq.
    rewrite lookup_seq_lt by lia. simpl. f_equal. lia.
Qed.

(** Copying the limbs of [src] over those of [w] from [j] on, in either order. *)
Lemma copy_limbs {E} (w src : BigUint) j m : limbs_ok w -> limbs_ok src -> (j + m <= len w)%nat -> (m <= len src)%nat ->
  let copied w' := limbs_ok w' /\ len w' = len w /\
    (forall i, (i < m)%nat -> limb w' (j + i) = limb src i) /\ (forall k, (k < j \/ j + m <= k)%nat -> limb w' k = limb w k) in
  (exists w', for_range (E := E) (fun d w => x ← get src (d - j); set w d x) (seq j m) w = Ok w' /\ copied w') /\
  (exists w', for_range (E := E) (fun d w => x ← get src (d - j); set w d x) (rev (seq j m)) w = Ok w' /\ copied w').
Proof.
  intros Hw Hsrc Hlw Hls copied. split.
  - destruct (for_range_up (E := E) (fun d w' => limbs_ok w' /\ len w' = len w /\
      forall k, limb w' k = if decide (j <= k < d)%nat then limb src (k - j) else limb w k)
      (fun d w => x ← get src (d - j); set w d x) j m w) as (w' & Hrun & Hok & Hl & Hk).
    + split_and!; [done|done|]. intros k. destruct (decide _); [lia|done].
    + intros d w' Hd (Hok & Hl & Hk). rewrite get_ok by lia. cbn [mbind res_mbind].
      destruct (set_ok (E := E) w' d (limb src (d - j))) as (w2 & Hset & Hl2 & Hok2 & Hd2 & Ho2); [lia|]. exists w2.
      split_and!; [done|apply Hok2; [done|by apply limb_bound]|lia|]. intros k. destruct (decide (k = d)) as [->|Hne].
      * rewrite Hd2. destruct (decide _); [done|lia].
      * rewrite Ho2, Hk by done. repeat destruct (decide _); (done || lia).
    + exists w'. split; [done|]. split_and!; [done|done| |]; intros k Hkb; rewrite Hk; destruct (decide _); (lia || done || (f_equal; lia)).
  - destruct (for_range_down (E := E) (fun d w' => limbs_ok w' /\ len w' = len w /\
      forall k, limb w' k = if decide (d <= k < j + m)%nat then limb src (k - j) else limb w k)
      (fun d w => x ← get src (d - j); set w d x) j m w) as (w' & Hrun & Hok & Hl & Hk).
    + split_and!; [done|done|]. intros k. destruct (decide _); [lia|done].
    + intros d w' Hd (Hok & Hl & Hk). rewrite get_ok by lia. cbn [mbind res_mbind].
      destruct (set_ok (E := E) w' d (limb src (d - j))) as (w2 & Hset & Hl2 & Hok2 & Hd2 & Ho2); [lia|]. exists w2.
      split_and!; [done|apply Hok2; [done|by apply limb_bound]|lia|]. intros k. destruct (decide (k = d)) as [->|Hne].
      * rewrite Hd2. destruct (decide _); [done|lia].
      * rewrite Ho2, Hk by done. repeat destruct (decide _); (done || lia).
    + exists w'. split; [done|]. split_and!; [done|done| |]; intros k Hkb; rewrite Hk; destruct (decide _); (lia || done || (f_equal; lia)).
Qed.

(** The low limbs are the value modulo a power of the base. *)
Lemma pv_mod w k : limbs_ok w -> pv (limb w) k = value w mod Bp k.
Proof.
  intros Hw. pose proof (pv_bound (limb w) k (fun i _ => limb_bound w i Hw)) as Hb. destruct (Nat.le_gt_cases (len w) k) as [Hle|Hgt].
  - rewrite (value_pv w k Hle) in *. symmetry. by apply Z.mod_small.
  - unfold value. replace (len w) with (k + (len w - k))%nat by lia. rewrite pv_split.
    apply Z.mod_unique_pos with (q := pv (fun i => limb w (k + i)) (len w - k)); lia.
Qed.

Lemma from_double_spec a : 0 <= a < B -> limbs_ok (from_double a) /\ len (from_double a) = 2%nat /\ value (from_double a) = a.
Proof.
  intros Ha. assert (Z.shiftr a 32 = 0) as Hs by (rewrite Z.shiftr_div_pow2 by lia; change (2 ^ 32) with B; by apply Z.div_small).
  unfold from_double, BigUint.split, SHIFT. rewrite Hs. change (cast 32 0) with 0. rewrite cast_B by done. split_and!; [|done|].
  - repeat constructor; try lia.
  - unfold value. cbn [len digits length pv]. rewrite Bp_0. unfold limb, checked_get. simpl. lia.
Qed.

(** Replacing the limbs [j] to [j + m - 1] changes the value by their weight. *)
Lemma value_replace w w' j m : len w' = len w -> (j + m <= len w)%nat ->
  (forall k, (k < j \/ j + m <= k)%nat -> limb w' k = limb w k) ->
  value w' = value w + Bp j * (pv (fun i => limb w' (j + i)) m - pv (fun i => limb w (j + i)) m).
Proof.
  intros Hl Hlen Hk. unfold value. rewrite Hl. replace (len w) with (j + (m + (len w - (j + m))))%nat by lia.
  rewrite !pv_split. rewrite (pv_ext (limb w') (limb w)) by (intros i Hi; apply Hk; lia).
  rewrite (pv_ext (fun i => limb w' (j + (m + i))%nat) (fun i => limb w (j + (m + i))%nat)) by (intros i Hi; apply Hk; lia). lia.
Qed.

(** The divisor has [p + 2] limbs and is normalised. *)
Section long_division.
Context (vn : BigUint) (p : nat) (Hvok : limbs_ok vn) (Hvlen : len vn = (p + 2)%nat) (Hvn : B <= 2 * limb vn (p + 1)).
Let n := (p + 2)%nat.
Let V := value vn.

Section quotient_limb.
Context {E : Type} (un : BigUint) (j : nat) (Huok : limbs_ok un) (Hulen : (j + n < len un)%nat).
Let U := pv (fun i => limb un (j + i)) (p + 3).
Context (HUV : U < B * V).

Let u2 := limb un (j + (p + 2)).
Let u1 := limb un (j + (p + 1)).
Let u0 := limb un (j + p).
Let v1 := limb vn (p + 1).
Let v2 := limb vn p.
Let ulow := pv (fun i => limb un (j + i)) p.
Let vlow := pv (limb vn) p.

Lemma U_eq : U = (u2 * (B * B) + u1 * B + u0) * Bp p + ulow.
Proof. unfold U. rewrite pv_top3. done. Qed.

Lemma V_eq : V = (v1 * B + v2) * Bp p + vlow.
Proof. unfold V, value. rewrite Hvlen, pv_top2. done. Qed.

Lemma ulow_bound : 0 <= ulow < Bp p.
Proof. apply pv_bound. intros i _. by apply limb_bound. Qed.

Lemma vlow_bound : 0 <= vlow < Bp p.
Proof. apply pv_bound. intros i _. by apply limb_bound. Qed.

Abbreviation est := (estimate u2 u1 u0 v1 v2 (Bp p) ulow vlow).

Lemma div_test_run qhat rhat : est qhat rhat -> rhat < B ->
  div_test (E := E) un vn n j qhat rhat =
    Ok (if (B <=? qhat) || (B * rhat + u0 <? qhat * v2) then (qhat - 1, rhat + v1, true) else (qhat, rhat, false)) /\
  ((B <=? qhat) || (B * rhat + u0 <? qhat * v2) = true -> 1 <= qhat /\ est (qhat - 1) (rhat + v1)).
Proof.
  intros He Hr. pose proof He as ((Hq0 & Hq1) & Hr0 & _ & _). pose proof BB as HBB. pose proof B_val as HBv.
  pose proof (limb_bound un (j + p) Huok) as Hu0. pose proof (limb_bound vn p Hvok) as Hv2. fold u0 in Hu0. fold v2 in Hv2.
  pose proof (limb_bound un (j + (p + 2)) Huok) as Hu2. pose proof (limb_bound un (j + (p + 1)) Huok) as Hu1.
  pose proof (limb_bound vn (p + 1) Hvok) as Hv1. fold u2 in Hu2. fold u1 in Hu1. fold v1 in Hv1, Hvn.
  pose proof (Z.mul_le_mono_nonneg qhat (B + 1) v2 (B - 1) ltac:(lia) ltac:(lia) ltac:(lia) ltac:(lia)) as F1.
  pose proof (Z.mul_nonneg_nonneg qhat v2 ltac:(lia) ltac:(lia)) as F1'.
  pose proof (Z.mul_le_mono_nonneg_l rhat (B - 1) B ltac:(lia) ltac:(lia)) as F2. pose proof (Z.mul_nonneg_nonneg B rhat ltac:(lia) ltac:(lia)) as F2'.
  assert ((B <=? qhat) || (B * rhat + u0 <? qhat * v2) = true -> 1 <= qhat /\ est (qhat - 1) (rhat + v1)) as Hnext.
  { intros Hc. rewrite orb_true_iff, Z.leb_le, Z.ltb_lt in Hc. apply estimate_test; try done; try lia; try apply Bp_pos;
      try apply ulow_bound; try apply vlow_bound. by rewrite <-U_eq, <-V_eq. }
  split; [|done]. unfold div_test, n. replace (p + 2 - 2)%nat with p by lia. replace (p + 2 - 1)%nat with (p + 1)%nat by lia.
  replace (j + (p + 2) - 2)%nat with (j + p)%nat by lia.
  rewrite (get_ok vn p) by lia. cbn [mbind res_mbind]. fold v2. rewrite umul_ok by (unfold is_u; lia). cbn [mbind res_mbind].
  rewrite umul_ok by (unfold is_u; lia). cbn [mbind res_mbind]. rewrite (get_ok un) by (unfold n in *; lia). cbn [mbind res_mbind]. fold u0.
  rewrite uadd_ok by (unfold is_u; lia). cbn [mbind res_mbind].
  destruct (_ || _); [|done]. destruct (Hnext eq_refl) as [Hq _].
  rewrite usub_ok by (unfold is_u; lia). cbn [mbind res_mbind]. rewrite (get_ok vn) by lia. cbn [mbind res_mbind]. fold v1.
  by rewrite uadd_ok by (unfold is_u; lia).
Qed.

Lemma div_qhat_run : exists qhat, div_qhat (E := E) un vn n j = Ok qhat /\ 0 <= qhat < B /\ U < (qhat + 1) * V /\ qhat * V < U + V.
Proof.
  pose proof (limb_bound un (j + p) Huok) as Hu0. pose proof (limb_bound vn p Hvok) as Hv2. fold u0 in Hu0. fold v2 in Hv2.
  pose proof (limb_bound un (j + (p + 2)) Huok) as Hu2. pose proof (limb_bound un (j + (p + 1)) Huok) as Hu1.
  pose proof (limb_bound vn (p + 1) Hvok) as Hv1. fold u2 in Hu2. fold u1 in Hu1. fold v1 in Hv1. pose proof Hvn as Hvn'. fold v1 in Hvn'.
  pose proof BB as HBB. pose proof B_val as HBv. pose proof HUV as HUV'. rewrite U_eq, V_eq in HUV'.
  pose proof (Bp_pos p) as HX. pose proof ulow_bound as Hul. pose proof vlow_bound as Hvl.
  destruct (estimate_init u2 u1 u0 v1 v2 (Bp p) ulow vlow) as [He Hr]; try done; try lia.
  assert (u2 <= v1) as Hle by (eapply (u2_v1 u2 u1 u0 v1 v2 (Bp p) ulow vlow); (done || lia)).
  unfold div_qhat. change (j + n)%nat with (j + (p + 2))%nat.
  replace (j + (p + 2) - 1)%nat with (j + (p + 1))%nat by lia. replace (n - 1)%nat with (p + 1)%nat by (unfold n; lia).
  rewrite (get_ok un (j + (p + 2))), (get_ok un (j + (p + 1))), (get_ok vn) by (unfold n in *; lia). cbn [mbind res_mbind]. fold u2 u1 v1.
  rewrite umul_ok by (unfold is_u; lia). cbn [mbind res_mbind].
  rewrite uadd_ok by (unfold is_u; lia). cbn [mbind res_mbind].
  unfold div_single, udiv, umod. replace (v1 =? 0) with false by lia. cbn [mbind res_mbind].
  pose proof (Z.mod_pos_bound (u2 * B + u1) v1 ltac:(lia)) as Hmb. rewrite cast_B by lia.
  set (q := (u2 * B + u1) / v1) in *. set (r := (u2 * B + u1) mod v1) in *.
  assert (forall qhat rhat, est qhat rhat -> qhat < B -> B <= rhat \/ qhat * v2 <= B * rhat + u0 ->
    0 <= qhat < B /\ U < (qhat + 1) * V /\ qhat * V < U + V) as Hfin.
  { intros qhat rhat He' Hq Hc. pose proof He' as ((Hq0 & _) & _ & _ & HU). rewrite U_eq, V_eq.
    split_and!; [done|done|done|]. eapply (estimate_final u2 u1 u0 v1 v2); try done; lia. }
  destruct (div_test_run q r He Hr) as [Ht Hnext]. rewrite Ht. cbn [mbind res_mbind].
  destruct ((B <=? q) || (B * r + u0 <? q * v2)) eqn:Hc.
  - destruct (Hnext eq_refl) as [Hq He1]. cbn [div_tests]. destruct (Z.ltb_spec (r + v1) B) as [Hr1|Hr1].
    + destruct (div_test_run (q - 1) (r + v1) He1 Hr1) as [Ht1 Hnext1]. rewrite Ht1. cbn [mbind res_mbind].
      destruct ((B <=? q - 1) || (B * (r + v1) + u0 <? (q - 1) * v2)) eqn:Hc1.
      * destruct (Hnext1 eq_refl) as [Hq2 He2]. replace (r + v1 + v1 <? B) with false by lia.
        eexists. split; [done|]. apply (Hfin _ _ He2); [destruct He as ((_ & ?) & _); lia|left; lia].
      * rewrite orb_false_iff, Z.leb_gt, Z.ltb_ge in Hc1. eexists. split; [done|]. apply (Hfin _ _ He1); [lia|right; lia].
    + eexists. split; [done|]. apply (Hfin _ _ He1); [|left; lia]. destruct He as ((_ & ?) & _ & Heq & _).
      destruct (Z.eq_dec q (B + 1)) as [Hq1|Hq1]; [|lia]. rewrite Hq1 in Heq.
      pose proof (Z.mul_le_mono_nonneg_r u2 v1 B ltac:(lia) Hle). lia.
  - cbn [div_tests]. replace (r <? B) with true by lia. rewrite Ht. cbn [mbind res_mbind].
    rewrite orb_false_iff, Z.leb_gt, Z.ltb_ge in Hc. eexists. split; [done|]. apply (Hfin _ _ He); [lia|right; lia].
Qed.

(** Multiply and subtract: the slice minus the product, modulo its width. *)
Lemma div_subtract qhat : 0 <= qhat < B -> qhat * V < U + V ->
  exists lhs rhs w (negative : bool), div_slice (E := E) un n j = Ok lhs /\ mul (E := E) vn (from_double qhat) = Ok rhs /\
    sub lhs rhs = (if negative then Err w else Ok w) /\ limbs_ok w /\ (n + 1 <= len w)%nat /\
    negative = (U <? qhat * V) /\
    pv (limb w) (n + 1) = U - qhat * V + (if negative then Bp (n + 1) else 0).
Proof.
  intros Hq Hqv. destruct (div_slice_run (E := E) un n j Huok Hulen) as (lhs & Hl & Hlok & Hllen & Hlv).
  destruct (from_double_spec qhat Hq) as (Hqok & Hqlen & Hqval).
  destruct (mul_run (E := E) vn (from_double qhat) Hvok Hqok) as (rhs & Hm & Hrok & Hrlen & Hrv).
  rewrite Hqlen, Hvlen in Hrlen. rewrite Hqval in Hrv. fold V in Hrv. unfold n in Hlv. replace (p + 2 + 1)%nat with (p + 3)%nat in Hlv by lia. fold U in Hlv.
  destruct (sub_run lhs rhs Hlok Hrok) as (w & Hwok & Hwlen & Hsub). rewrite Hrlen, Hllen in Hwlen, Hsub.
  exists lhs, rhs, w, (U <? qhat * V). rewrite Hlv, Hrv in Hsub. rewrite (Z.mul_comm V qhat) in Hsub.
  assert (0 <= V < Bp n) as HV by (unfold V, n; rewrite <-Hvlen; by apply value_bound).
  pose proof (Bp_pos n) as Hp. assert (Bp (n + 1) = B * Bp n) as HB1 by (rewrite Nat.add_1_r; apply Bp_S).
  assert (0 <= U < Bp (n + 1)) as HU.
  { unfold n. replace (p + 2 + 1)%nat with (p + 3)%nat by lia. apply pv_bound. intros i _. by apply limb_bound. }
  pose proof B_val as HBv. split_and!; [done|done| |done|unfold n in *; lia|done|].
  - destruct (Z.ltb_spec U (qhat * V)), (Z.leb_spec (qhat * V) U); try lia; apply Hsub.
  - rewrite pv_mod by done. destruct (Z.ltb_spec U (qhat * V)), (Z.leb_spec (qhat * V) U); try lia; destruct Hsub as [_ ->].
    + replace (Nat.max (n + 1) (Nat.max (2 + (p + 2)) 1)) with ((n + 1) + 1)%nat by (unfold n; lia). rewrite (Bp_add (n + 1) 1), (Bp_S 0), Bp_0.
      symmetry. apply Z.mod_unique_pos with (q := B - 1); lia.
    + rewrite Z.add_0_r. apply Z.mod_small. lia.
Qed.

(** One limb of the quotient. *)
Lemma div_step_run q : limbs_ok q -> (j < len q)%nat ->
  exists un' q', div_step (E := E) vn n j (un, q) = Ok (un', q') /\ limbs_ok un' /\ len un' = len un /\
    limbs_ok q' /\ len q' = len q /\ limb q' j = U / V /\ (forall k, k <> j -> limb q' k = limb q k) /\
    value un' = value un - U / V * V * Bp j /\ pv (fun i => limb un' (j + i)) (n + 1) = U mod V.
Proof.
  intros Hqok Hqlen. destruct div_qhat_run as (qhat & Hqh & Hqb & HU1 & HU2). unfold div_step. rewrite Hqh. cbn [mbind res_mbind].
  destruct (div_subtract qhat Hqb HU2) as (lhs & rhs & w & negative & Hl & Hm & Hs & Hwok & Hwlen & Hneg & Hwv).
  rewrite Hl, Hm. cbn [mbind res_mbind]. rewrite Hs.
  assert ((match (if negative then Err w else Ok w) with Ok t => Ok (t, false) | Err t => Ok (t, true) | Panic => Panic end) = @Ok E _ (w, negative)) as -> by by destruct negative.
  cbn [mbind res_mbind]. rewrite cast_B by done.
  destruct (copy_limbs (E := E) un w j (n + 1) Huok Hwok ltac:(lia) Hwlen) as [(un1 & Hc & Hok1 & Hlen1 & Hin1 & Hout1) _].
  rewrite Hc. cbn [mbind res_mbind]. destruct (set_ok (E := E) q j qhat Hqlen) as (q1 & Hset1 & Hql1 & Hqok1 & Hqj1 & Hqo1).
  rewrite Hset1. cbn [mbind res_mbind]. specialize (Hqok1 Hqok Hqb).
  assert (pv (fun i => limb un1 (j + i)) (n + 1) = pv (limb w) (n + 1)) as Hpv1 by (apply pv_ext; done).
  assert (pv (fun i => limb un (j + i)) (n + 1) = U) as HpU by (unfold U, n; f_equal; lia).
  pose proof (value_replace un un1 j (n + 1) Hlen1 ltac:(lia) Hout1) as Hval1. rewrite Hpv1, HpU, Hwv in Hval1.
  destruct negative.
  - symmetry in Hneg. apply Z.ltb_lt in Hneg. assert (U / V = qhat - 1) as Hdiv by (symmetry; apply Z.div_unique_pos with (r := U - (qhat - 1) * V); lia).
    assert (U mod V = U - (qhat - 1) * V) as Hmod by (symmetry; apply Z.mod_unique_pos with (q := qhat - 1); lia).
    assert (0 <= U) as HU0 by (apply pv_bound; intros i _; by apply limb_bound). assert (0 <= V < Bp n) as HVb by (unfold V, n; rewrite <-Hvlen; by apply value_bound).
    assert (1 <= qhat) as Hq1 by (destruct (Z.eq_dec qhat 0) as [->|]; lia).
    rewrite get_ok by lia. cbn [mbind res_mbind]. rewrite Hqj1. pose proof B_val as HBv. rewrite usub_ok by (unfold is_u; lia). cbn [mbind res_mbind].
    destruct (set_ok (E := E) q1 j (qhat - 1)) as (q2 & Hset2 & Hql2 & Hqok2 & Hqj2 & Hqo2); [lia|]. rewrite Hset2. cbn [mbind res_mbind].
    destruct (div_slice_run (E := E) un1 n j Hok1 ltac:(lia)) as (u & Hu & Huok' & Hulen' & Huv). rewrite Hu. cbn [mbind res_mbind].
    destruct (add_run (E := E) vn u Hvok Huok') as (r & Ha & Hrok & Hrlen & Hrv). rewrite Ha. cbn [mbind res_mbind].
    destruct (copy_limbs (E := E) un1 r j (n + 1) Hok1 Hrok ltac:(lia) ltac:(unfold n in *; lia)) as [_ (un2 & Hc2 & Hok2 & Hlen2 & Hin2 & Hout2)].
    rewrite Hc2. cbn [mbind res_mbind]. exists un2, q2.
    assert (pv (fun i => limb un2 (j + i)) (n + 1) = U mod V) as Hpv2.
    { rewrite (pv_ext _ (limb r)) by done. rewrite pv_mod by done. rewrite Hrv, Huv, Hpv1, Hwv. fold V. rewrite Hmod.
      symmetry. apply Z.mod_unique_pos with (q := 1); [|lia]. pose proof (Bp_le n (n + 1) ltac:(lia)). lia. }
    pose proof (value_replace un1 un2 j (n + 1) Hlen2 ltac:(lia) Hout2) as Hval2. rewrite Hpv1, Hpv2, Hwv in Hval2.
    split_and!; [done|done|lia|apply Hqok2; [done|lia]|lia|lia| |rewrite Hval2, Hval1, Hdiv, Hmod; lia|done].
    intros k Hk. rewrite Hqo2, Hqo1 by done. done.
  - symmetry in Hneg. apply Z.ltb_ge in Hneg. assert (U / V = qhat) as Hdiv by (symmetry; apply Z.div_unique_pos with (r := U - qhat * V); lia).
    assert (U mod V = U - qhat * V) as Hmod by (symmetry; apply Z.mod_unique_pos with (q := qhat); lia).
    exists un1, q1. split_and!; [done|done|lia|done|lia|lia|done|rewrite Hval1, Hdiv; lia|rewrite Hpv1, Hwv, Hmod; lia].
Qed.
End quotient_limb.

Lemma V_nonneg : 0 < V < Bp n.
Proof.
  split; [|unfold V, n; rewrite <-Hvlen; by apply value_bound]. unfold V, value. rewrite Hvlen, pv_top2.
  pose proof (pv_bound (limb vn) p (fun i _ => limb_bound vn i Hvok)). pose proof (limb_bound vn p Hvok) as Hl. pose proof (Bp_pos p). pose proof B_val.
  assert (0 < limb vn (p + 1) * B + limb vn p) by lia. nia.
Qed.

(** The slice at [j] is what is left of the dividend once the limbs above it
    are zero. *)
Lemma slice_value un j : limbs_ok un -> (j + n < len un)%nat -> value un < V * Bp (j + 1) ->
  let U := pv (fun i => limb un (j + i)) (p + 3) in
  U < B * V /\ value un = pv (limb un) j + Bp j * U.
Proof.
  intros Hok Hlen Hlt U. pose proof V_nonneg as HV. pose proof (Bp_pos j) as Hj.
  assert (value un = pv (limb un) j + Bp j * (U + Bp (p + 3) * pv (fun i => limb un (j + ((p + 3) + i))) (len un - (j + (p + 3))))) as Hval.
  { unfold value. replace (len un) with (j + ((p + 3) + (len un - (j + (p + 3)))))%nat at 1 by (unfold n in *; lia). rewrite (pv_split _ j), (pv_split _ (p + 3)). done. }
  set (rest := pv _ (len un - (j + (p + 3)))) in Hval.
  assert (0 <= rest) as Hrest by (apply pv_bound; intros i _; by apply limb_bound).
  assert (0 <= U) as HU by (apply pv_bound; intros i _; by apply limb_bound).
  pose proof (pv_bound (limb un) j (fun i _ => limb_bound un i Hok)) as Hlow.
  replace (Bp (j + 1)) with (B * Bp j) in Hlt by (rewrite Nat.add_1_r; symmetry; apply Bp_S).
  assert (U + Bp (p + 3) * rest < B * V) as Hb by (apply (Z.mul_lt_mono_pos_l (Bp j)); lia).
  assert (Bp (p + 3) = B * Bp n) as HBp by (unfold n; replace (p + 3)%nat with (S (p + 2)) by lia; apply Bp_S).
  assert (rest = 0) as Hr0.
  { pose proof B_val. pose proof (Z.mul_lt_mono_pos_l B V (Bp n)) as Hm. destruct (Z.eq_dec rest 0) as [|Hne]; [done|].
    pose proof (Z.mul_le_mono_nonneg_l 1 rest (Bp (p + 3)) ltac:(pose proof (Bp_pos (p + 3)); lia) ltac:(lia)). lia. }
  rewrite Hr0 in *. split; [lia|]. rewrite Hval. lia.
Qed.

Lemma div_loop_run {E} un m : limbs_ok un -> (m + n < len un)%nat -> value un < V * Bp (m + 1) ->
  exists un' q, for_range (div_step (E := E) vn n) (rev (seq 0 (m + 1))) (un, with_capacity (m + 1)) = Ok (un', q) /\
    limbs_ok un' /\ len un' = len un /\ limbs_ok q /\ len q = (m + 1)%nat /\
    value q = value un / V /\ value un' = value un mod V.
Proof.
  intros Hok Hlen Hlt. destruct (with_capacity_spec (m + 1)) as (Hl0 & Hok0 & Hz0). pose proof V_nonneg as HV.
  destruct (for_range_down (E := E) (fun j '(w, q) => limbs_ok w /\ len w = len un /\ limbs_ok q /\ len q = (m + 1)%nat /\
    (forall i, (i < j)%nat -> limb q i = 0) /\ value w < V * Bp j /\ value un = value w + V * value q)
    (div_step vn n) 0 (m + 1) (un, with_capacity (m + 1))) as ([w q] & Hrun & Hwok & Hwl & Hqok & Hql & _ & Hwlt & Heq).
  - split_and!; [done|done|done|lia|intros i _; apply Hz0|done|].
    assert (value (with_capacity (m + 1)) = 0) as ->; [|lia].
    unfold value. rewrite (pv_zeros _ 0 _ (Nat.le_0_l _) (fun i _ => Hz0 i)). done.
  - intros j [w q] Hj (Hwok & Hwl & Hqok & Hql & Hz & Hwlt & Heq).
    destruct (slice_value w j Hwok ltac:(lia) Hwlt) as [HU Hval]. set (U := pv _ (p + 3)) in *.
    destruct (div_step_run (E := E) w j Hwok ltac:(lia) HU q Hqok ltac:(lia)) as (w' & q' & Hs & Hwok' & Hwl' & Hqok' & Hql' & Hqj & Hqo & Hwv & _).
    fold U in Hqj, Hwv. exists (w', q'). split; [done|].
    pose proof (value_replace q q' j 1 Hql' ltac:(lia) ltac:(intros k Hk; apply Hqo; lia)) as Hqv. simpl in Hqv.
    rewrite Nat.add_0_r, Hqj, (Hz j), Bp_0 in Hqv by lia.
    pose proof (Z.div_mod U V ltac:(lia)) as Hdm. pose proof (Z.mod_pos_bound U V ltac:(lia)) as Hmb.
    pose proof (pv_bound (limb w) j (fun i _ => limb_bound w i Hwok)) as Hlow. pose proof (Bp_pos j) as Hj0.
    split_and!; [done|lia|done|lia|intros i Hi; rewrite Hqo by lia; apply Hz; lia| |].
    + rewrite Hwv, Hval, Hdm at 1. pose proof (Z.mul_le_mono_nonneg_l (U mod V + 1) V (Bp j) ltac:(lia) ltac:(lia)). lia.
    + rewrite Heq, Hwv, Hqv. lia.
  - rewrite Bp_0 in Hwlt. exists w, q. pose proof (value_bound w Hwok) as Hwb. split_and!; try done.
    + apply Z.div_unique_pos with (r := value w); lia.
    + apply Z.mod_unique_pos with (q := value q); lia.
Qed.
End long_division.

(** ** Stripping and normalising *)
Lemma limb_cons d l i : limb (mkBigUint (d :: l)) i = if decide (i = length l) then d else limb (mkBigUint l) i.
Proof.
  unfold limb, checked_get, len. cbn [digits length]. destruct (decide (i = length l)) as [->|Hne].
  - destruct (Nat.ltb_spec (length l) (S (length l))); [|lia]. by replace (S (length l) - 1 - length l)%nat with 0%nat by lia.
  - destruct (Nat.ltb_spec i (S (length l))), (Nat.ltb_spec i (length l)); try (done || lia).
    by replace (S (length l) - 1 - i)%nat with (S (length l - 1 - i))%nat by lia.
Qed.

Lemma value_cons d l : value (mkBigUint (d :: l)) = d * Bp (length l) + value (mkBigUint l).
Proof.
  unfold value, len. cbn [digits length pv]. rewrite limb_cons, decide_True by done.
  rewrite (pv_ext _ (limb (mkBigUint l))); [lia|]. intros i Hi. rewrite limb_cons, decide_False by lia. done.
Qed.

Lemma position_nonzero_spec l : Forall (fun d => 0 <= d < B) l ->
  match position_nonzero l with
  | Some i => (i < length l)%nat /\ value (mkBigUint (drop i l)) = value (mkBigUint l) /\ Bp (length l - i - 1) <= value (mkBigUint l)
  | None => value (mkBigUint l) = 0
  end.
Proof.
  induction 1 as [|d l Hd Hl IH]; simpl; [done|]. destruct (Z.eqb_spec d 0) as [->|Hd0].
  - rewrite value_cons, Z.mul_0_l, Z.add_0_l. destruct (position_nonzero l) as [i|]; simpl; [|done].
    destruct IH as (H1 & H2 & H3). split_and!; [lia|done|done].
  - rewrite drop_0. split_and!; [lia|done|]. rewrite Nat.sub_0_r, Nat.sub_1_r. simpl. rewrite value_cons.
    pose proof (value_bound (mkBigUint l) Hl) as [Hv _]. pose proof (Bp_pos (length l)). nia.
Qed.

Lemma lstrip_spec w : limbs_ok w -> limbs_ok (lstrip w) /\ value (lstrip w) = value w /\
  (0 < value w -> Bp (len (lstrip w) - 1) <= value w) /\ (value w = 0 -> (0 < len w)%nat -> len (lstrip w) = 1%nat).
Proof.
  destruct w as [l]. intros Hw. pose proof (position_nonzero_spec l Hw) as Hp. unfold lstrip.
  change (len (mkBigUint l)) with (length l). destruct (Nat.eqb_spec (length l) 0) as [Hl0|Hl0].
  { destruct l; [|done]. split_and!; [done|done|done|simpl; lia]. }
  cbn [digits]. destruct (position_nonzero l) as [i|]; simpl default.
  - destruct Hp as (H1 & H2 & H3). destruct (Nat.ltb_spec 0 i); cbn [len digits].
    + split_and!; [by apply Forall_drop|done|intros _|intros Hz; pose proof (Bp_pos (length l - i - 1)); lia].
      unfold len. cbn [digits]. by rewrite length_drop.
    + assert (i = 0%nat) as -> by lia. rewrite Nat.sub_0_r in H3. split_and!; [done|done|done|].
      intros Hz. pose proof (Bp_pos (length l - 1)). lia.
  - destruct (Nat.ltb_spec 0 (length l - 1)); cbn [len digits].
    + assert (value (mkBigUint (drop (length l - 1) l)) = 0) as Hd.
      { clear Hl0 H0. revert Hw Hp. induction l as [|d l IH]; [done|]. intros [Hd Hl]%Forall_cons. rewrite value_cons. intros Hv.
        pose proof (value_bound (mkBigUint l) Hl) as [Hv0 _]. pose proof (Bp_pos (length l)). assert (d = 0) by nia. subst d.
        simpl. rewrite Nat.sub_0_r. destruct l as [|e l]; [done|]. replace (length (e :: l)) with (S (length (e :: l) - 1)) by (simpl; lia).
        simpl drop at 1. apply IH; [done|lia]. }
      rewrite Hd, Hp. split_and!; [by apply Forall_drop|done|lia|]. intros _ _. unfold len. cbn [digits]. rewrite length_drop. lia.
    + split_and!; [done|done|lia|]. intros _ _. unfold len. cbn [digits]. lia.
Qed.

Lemma msb_ok {E} w : (0 < len w)%nat -> msb (E := E) w = Ok (limb w (len w - 1)).
Proof.
  intros Hw. unfold msb, limb, checked_get. destruct (Nat.ltb_spec (len w - 1) (len w)); [|lia].
  replace (len w - 1 - (len w - 1))%nat with 0%nat by lia. destruct (digits w) as [|d l] eqn:Hd; [|done].
  unfold len in Hw. rewrite Hd in Hw. simpl in Hw. lia.
Qed.

Lemma from_single_spec a : 0 <= a < B -> limbs_ok (from_single a) /\ len (from_single a) = 1%nat /\ value (from_single a) = a.
Proof. intros Ha. split_and!; [by apply Forall_singleton|done|]. unfold value. cbn. rewrite Bp_0. unfold limb. simpl. lia. Qed.

(** The leading limb bounds the value. *)
Lemma value_msb w : limbs_ok w -> (0 < len w)%nat ->
  limb w (len w - 1) * Bp (len w - 1) <= value w < (limb w (len w - 1) + 1) * Bp (len w - 1).
Proof.
  intros Hw Hl. unfold value. replace (len w) with (S (len w - 1)) at 3 4 by lia. cbn [pv].
  pose proof (pv_bound (limb w) (len w - 1) (fun i _ => limb_bound w i Hw)). lia.
Qed.

(** Normalising brings the leading bit of the divisor to the top of its limb. *)
Lemma leading_zeros_spec d : 0 < d < B ->
  let nb := leading_zeros 32 d in 0 <= nb <= 31 /\ 2 ^ 31 <= d * 2 ^ nb /\ (d + 1) * 2 ^ nb <= B.
Proof.
  intros Hd nb. unfold nb, leading_zeros. replace (d =? 0) with false by lia.
  pose proof (Z.log2_spec d ltac:(lia)) as [Hlo Hhi]. pose proof (Z.log2_nonneg d) as Hn.
  assert (Z.log2 d < 32) as Hl by (apply Z.log2_lt_pow2; [lia|apply Hd]).
  set (k := Z.log2 d) in *. assert (2 ^ 31 = 2 ^ k * 2 ^ (32 - 1 - k)) as H31 by (rewrite <-Z.pow_add_r by lia; f_equal; lia).
  assert (B = 2 ^ Z.succ k * 2 ^ (32 - 1 - k)) as HB by (unfold B; rewrite <-Z.pow_add_r by lia; f_equal; lia).
  pose proof (Z.pow_pos_nonneg 2 (32 - 1 - k) ltac:(lia) ltac:(lia)) as Hp. split_and!; [lia|lia| |].
  - rewrite H31. apply Z.mul_le_mono_nonneg_r; lia.
  - rewrite HB. apply Z.mul_le_mono_nonneg_r; lia.
Qed.

Lemma normalize_divisor other : limbs_ok other -> (2 <= len other)%nat -> 0 < limb other (len other - 1) ->
  let nb := leading_zeros 32 (limb other (len other - 1)) in
  forall w, limbs_ok w -> value w = value other * 2 ^ nb ->
  limbs_ok (lstrip w) /\ len (lstrip w) = len other /\ value (lstrip w) = value other * 2 ^ nb /\
  B <= 2 * limb (lstrip w) (len other - 1) /\ 2 ^ 31 * Bp (len other - 1) <= value other * 2 ^ nb.
Proof.
  intros Hok Hlen Hmsb nb w Hw Hv. set (n := len other) in *. set (d := limb other (n - 1)) in *.
  pose proof (limb_bound other (n - 1) Hok) as Hdb. fold d in Hdb.
  destruct (leading_zeros_spec d ltac:(lia)) as (Hnb & Hlo & Hhi). fold nb in Hnb, Hlo, Hhi.
  pose proof (value_msb other Hok ltac:(unfold n in *; lia)) as Hval. fold n d in Hval.
  pose proof (Bp_pos (n - 1)) as Hp. pose proof (Z.pow_pos_nonneg 2 nb ltac:(lia) ltac:(lia)) as H2.
  assert (2 ^ 31 * Bp (n - 1) <= value other * 2 ^ nb) as HVlo.
  { pose proof (Z.mul_le_mono_nonneg_r _ _ (Bp (n - 1)) ltac:(lia) Hlo). pose proof (Z.mul_le_mono_nonneg_r _ _ (2 ^ nb) ltac:(lia) (proj1 Hval)). lia. }
  assert (value other * 2 ^ nb < B * Bp (n - 1)) as HVhi.
  { pose proof (Z.mul_le_mono_nonneg_r _ _ (Bp (n - 1)) ltac:(lia) Hhi). pose proof (Zmult_lt_compat_r _ _ (2 ^ nb) H2 (proj2 Hval)). lia. }
  assert (Bp n = B * Bp (n - 1)) as HBn by (replace n with (S (n - 1)) at 1 by lia; apply Bp_S).
  destruct (lstrip_spec w Hw) as (Hsok & Hsv & Hslo & _). rewrite Hv in *. set (V := value other * 2 ^ nb) in *.
  pose proof (value_bound _ Hsok) as Hsb. rewrite Hsv in Hsb. specialize (Hslo ltac:(lia)).
  assert (len (lstrip w) = n) as Hsl.
  { destruct (lt_eq_lt_dec (len (lstrip w)) n) as [[Hlt|Heq]|Hgt]; [|done|].
    - pose proof (Bp_le (len (lstrip w)) (n - 1) ltac:(lia)). lia.
    - pose proof (Bp_le n (len (lstrip w) - 1) ltac:(lia)). lia. }
  split_and!; try done. pose proof (value_msb (lstrip w) Hsok ltac:(lia)) as [_ Hm]. rewrite Hsl, Hsv in Hm.
  assert (2 ^ 31 < limb (lstrip w) (n - 1) + 1) as Hlim by (apply (Z.mul_lt_mono_pos_r (Bp (n - 1))); lia).
  rewrite B_val. lia.
Qed.

(** The shift right by [nb] bits across limbs. *)
Lemma div_remainder_run {E} un n nb : limbs_ok un -> (1 <= n)%nat -> (n < len un)%nat -> value un < Bp n -> 0 <= nb <= 31 ->
  exists r, div_remainder (E := E) un n nb = Ok r /\ limbs_ok r /\ value r = value un / 2 ^ nb.
Proof.
  intros Hok Hn Hlen Hlt Hnb. unfold div_remainder. destruct (Z.ltb_spec 0 nb) as [Hpos|Hz].
  2: { assert (nb = 0) as -> by lia. exists un. split_and!; [done|done|]. by rewrite Z.div_1_r. }
  destruct (with_capacity_spec n) as (Hl0 & Hok0 & Hz0). set (c := 2 ^ nb).
  assert (0 < c) as Hc by (apply Z.pow_pos_nonneg; lia).
  assert (B = c * 2 ^ (32 - nb)) as HB by (unfold B, c; rewrite <-Z.pow_add_r by lia; f_equal; lia).
  pose proof (Z.pow_pos_nonneg 2 (32 - nb) ltac:(lia) ltac:(lia)) as Hc'. set (c' := 2 ^ (32 - nb)) in *.
  assert (forall d, Z.shiftr (limb un d) nb = limb un d / c /\ 0 <= limb un d / c < c' /\ limb un d = limb un d / c * c + limb un d mod c /\ 0 <= limb un d mod c < c) as Hsh.
  { intros d. pose proof (limb_bound un d Hok). pose proof (Z.div_mod (limb un d) c ltac:(lia)). pose proof (Z.mod_pos_bound (limb un d) c Hc).
    rewrite Z.shiftr_div_pow2 by lia. fold c. split_and!; [done|apply Z.div_pos; lia|apply Z.div_lt_upper_bound; lia|lia..]. }
  match goal with |- context [for_range ?f _ _] => set (body := f) end.
  destruct (for_range_up (E := E) (fun d r => limbs_ok r /\ len r = n /\
    pv (limb r) d * c = pv (limb un) d - limb un 0 mod c + (limb un d mod c) * Bp d) body 0 (n - 1) (with_capacity n))
    as (r & Hrun & Hrok & Hrl & Heq).
  - split_and!; [done|lia|]. simpl. rewrite Bp_0. lia.
  - intros d r Hd (Hrok & Hrl & Heq). unfold body. rewrite (get_ok un d), (get_ok un (d + 1)) by lia. cbn [mbind res_mbind].
    destruct (Hsh d) as (Hs1 & Hq1 & Hd1 & Hm1). destruct (Hsh (d + 1)%nat) as (_ & _ & _ & Hm2). rewrite Hs1. unfold SHIFT.
    assert (cast 32 (Z.shiftl (limb un (d + 1)) (32 - nb)) = limb un (d + 1) mod c * c') as ->.
    { unfold cast. rewrite Z.shiftl_mul_pow2 by lia. fold c'. change (2 ^ 32) with B. rewrite HB. apply Z.mul_mod_distr_r; lia. }
    unfold c'. rewrite lor_add by (fold c'; lia). fold c'. set (v := limb un d / c + limb un (d + 1) mod c * c').
    destruct (set_ok (E := E) r d v) as (r' & Hset & Hl' & Hok' & Hj' & Ho'); [lia|]. exists r'. rewrite Hset.
    split_and!; [done|apply Hok'; [done|]|lia|].
    + unfold v. rewrite HB. pose proof (Z.mul_le_mono_nonneg_r (limb un (d + 1) mod c) (c - 1) c' ltac:(lia) ltac:(lia)).
      pose proof (Z.mul_nonneg_nonneg (limb un (d + 1) mod c) c' ltac:(lia) ltac:(lia)). lia.
    + rewrite Nat.add_1_r. cbn [pv]. rewrite Hj', (pv_ext (limb r') (limb r)) by (intros k Hk; apply Ho'; lia).
      rewrite Z.mul_add_distr_r, Heq, Bp_S, HB. replace (S d) with (d + 1)%nat by lia. unfold v. rewrite Hd1 at 3. lia.
  - rewrite Hrun. cbn [mbind res_mbind]. simpl Nat.add in Heq. rewrite get_ok by lia. cbn [mbind res_mbind].
    destruct (Hsh (n - 1)%nat) as (Hs1 & Hq1 & Hd1 & Hm1). rewrite Hs1.
    destruct (set_ok (E := E) r (n - 1) (limb un (n - 1) / c)) as (r' & Hset & Hl' & Hok' & Hj' & Ho'); [lia|]. exists r'.
    split_and!; [done|apply Hok'; [done|rewrite HB; nia]|]. destruct (Hsh 0%nat) as (_ & _ & _ & Hm0).
    assert (value un = pv (limb un) n) as Hvu by (rewrite pv_mod by done; symmetry; apply Z.mod_small; pose proof (value_bound un Hok); lia).
    apply Z.div_unique_pos with (r := limb un 0 mod c); [done|]. rewrite Hvu. unfold value. rewrite Hl', Hrl.
    replace n with (S (n - 1)) by lia. cbn [pv]. replace (S (n - 1) - 1)%nat with (n - 1)%nat in * by lia.
    rewrite Hj', (pv_ext (limb r') (limb r)) by (intros k Hk; apply Ho'; lia). 
    rewrite Z.mul_add_distr_l, (Z.mul_comm c (pv (limb r) (n - 1))), Heq. rewrite Hd1 at 1. lia.
Qed.

Definition divisible_form (self other : BigUint) : bool :=
  (1 <? len other)%nat && negb (limb other (len other - 1) =? 0) && negb (limb self (len self - 1) =? 0) && (len other <? len self)%nat.

Lemma div_run {E} self other rem : limbs_ok self -> limbs_ok other -> (0 < len self)%nat ->
  if divisible_form self other
  then exists q r, div (E := E) self other rem = Ok (Some (q, r)) /\ limbs_ok q /\ limbs_ok r /\
    len q = (len self - len other + 1)%nat /\ value q = value self / value other /\
    value r = if rem then value self mod value other else 0
  else div (E := E) self other rem = Ok None.
Proof.
  intros Hs Ho Hlen. unfold divisible_form, div.
  destruct (Nat.ltb_spec 1 (len other)), (Nat.leb_spec (len other) 1); try lia; cbn [andb]; [|done].
  rewrite !msb_ok by lia. cbn [mbind res_mbind].
  destruct (Z.eqb_spec (limb other (len other - 1)) 0) as [Ho0|Ho0]; cbn [negb andb]; [done|].
  destruct (Z.eqb_spec (limb self (len self - 1)) 0) as [Hs0|Hs0]; cbn [negb andb]; [done|].
  destruct (Nat.ltb_spec (len other) (len self)), (Nat.leb_spec (len self) (len other)); try lia; [|done].
  set (n := len other) in *. set (m := (len self - n)%nat). set (nb := leading_zeros 32 (limb other (n - 1))).
  pose proof (limb_bound other (n - 1) Ho) as Hob. destruct (leading_zeros_spec (limb other (n - 1)) ltac:(lia)) as (Hnb & _ & Hnhi). fold nb in Hnb, Hnhi.
  pose proof (Z.pow_pos_nonneg 2 nb ltac:(lia) ltac:(lia)) as Hpow. pose proof (Z.pow_le_mono_r 2 nb 31 ltac:(lia) ltac:(lia)) as Hp31.
  pose proof B_val as HBv. change (2 ^ 31) with 2147483648 in Hp31.
  rewrite unchecked_ok by (unfold is_u; lia). cbn [mbind res_mbind].
  destruct (from_single_spec (2 ^ nb) ltac:(lia)) as (Hnok & Hnlen & Hnv).
  destruct (mul_run (E := E) self (from_single (2 ^ nb)) Hs Hnok) as (sn & Hsn & Hsnok & Hsnlen & Hsnv).
  destruct (mul_run (E := E) other (from_single (2 ^ nb)) Ho Hnok) as (on & Hon & Honok & Honlen & Honv).
  rewrite Hnlen in Hsnlen, Honlen. rewrite Hnv in Hsnv, Honv. rewrite Hsn, Hon. cbn [mbind res_mbind].
  assert (lpad sn (n + m + 1) = sn) as -> by (unfold lpad; destruct (Nat.leb_spec (n + m + 1) (len sn)); [done|unfold m in *; lia]).
  destruct (normalize_divisor other Ho ltac:(unfold n in *; lia) ltac:(fold n; lia) on Honok Honv) as (Hvok & Hvlen & Hvv & Hvn & Hvlo).
  fold n in Hvlen, Hvn, Hvlo, Hvv. fold nb in Hvv, Hvlo. set (vn := lstrip on) in *.
  pose proof (value_bound self Hs) as Hsb. replace (len self) with (n + m)%nat in Hsb by (unfold m; lia).
  assert (value sn < value vn * Bp (m + 1)) as Hlt.
  { rewrite Hsnv, Hvv. replace (Bp (n + m)) with (Bp (n - 1) * Bp (m + 1)) in Hsb by (rewrite <-Bp_add; f_equal; lia).
    pose proof (Z.mul_le_mono_nonneg_r _ _ (Bp (m + 1)) ltac:(pose proof (Bp_pos (m + 1)); lia) Hvlo) as F1. change (2 ^ 31) with 2147483648 in F1.
    pose proof (Z.mul_le_mono_nonneg_l _ _ (value self) ltac:(lia) Hp31) as F2. lia. }
  assert (len vn = (n - 2 + 2)%nat) as Hvlen2 by lia.
  assert (B <= 2 * limb vn (n - 2 + 1)) as Hvn2 by (by replace (n - 2 + 1)%nat with (n - 1)%nat by lia).
  destruct (div_loop_run vn (n - 2) Hvok Hvlen2 Hvn2 (E := E) sn m Hsnok) as (un & q & Hrun & Huok & Hulen & Hqok & Hqlen & Hqv & Huv);
    [unfold m in *; lia|done|].
  replace (n - 2 + 2)%nat with n in Hrun by lia. rewrite Hrun. cbn [mbind res_mbind].
    assert (value other <> 0) as Hvo by (intros Hz; rewrite Hz in Hvlo; pose proof (Bp_pos (n - 1)); change (2 ^ 31) with 2147483648 in Hvlo; lia).
    rewrite Hsnv, Hvv in Hqv, Huv. rewrite Z.div_mul_cancel_r in Hqv by lia. rewrite Z.mul_mod_distr_r in Huv by lia.
    pose proof (value_bound other Ho) as Hvb. fold n in Hvb. pose proof (value_bound vn Hvok) as Hvnb. rewrite Hvlen in Hvnb.
    pose proof (Z.mod_pos_bound (value self) (value other) ltac:(lia)) as Hmb.
    destruct rem.
    + destruct (div_remainder_run (E := E) un n nb Huok) as (r & Hr & Hrok & Hrv); [lia|unfold m in *; lia| |lia|].
      { rewrite Huv. rewrite Hvv in Hvnb. pose proof (Zmult_lt_compat_r _ _ (2 ^ nb) Hpow (proj2 Hmb)). lia. }
      rewrite Hr. cbn [mbind res_mbind]. exists q, r. rewrite Huv, Z.div_mul in Hrv by lia. unfold m in *. split_and!; try done; lia.
    + cbn [mbind res_mbind]. destruct (with_capacity_spec n) as (Hl0 & Hok0 & Hz0). exists q, (with_capacity n).
      split_and!; try done. unfold value. apply (pv_zeros _ 0 _ (Nat.le_0_l _) (fun i _ => Hz0 i)).
Qed.

(** ** Comparison *)
Lemma lex_value l1 l2 : Forall (fun d => 0 <= d < B) l1 -> Forall (fun d => 0 <= d < B) l2 -> length l1 = length l2 ->
  lex l1 l2 = (value (mkBigUint l1) ?= value (mkBigUint l2)).
Proof.
  intros Hl1. revert l2. induction Hl1 as [|d1 l1 Hd1 Hl1 IH]; intros [|d2 l2] Hl2 Hlen; try done.
  apply Forall_cons in Hl2 as [Hd2 Hl2]. injection Hlen as Hlen. rewrite !value_cons. cbn [lex].
  pose proof (value_bound (mkBigUint l1) Hl1) as Hv1. pose proof (value_bound (mkBigUint l2) Hl2) as Hv2.
  unfold len in Hv1, Hv2. cbn [digits] in Hv1, Hv2. rewrite Hlen in *. pose proof (Bp_pos (length l2)) as Hp.
  destruct (Z.compare_spec d1 d2) as [->|Hlt|Hgt].
  - rewrite IH by done. destruct (Z.compare_spec (value (mkBigUint l1)) (value (mkBigUint l2)));
      symmetry; [apply Z.compare_eq_iff|apply Z.compare_lt_iff|apply Z.compare_gt_iff]; lia.
  - symmetry. apply Z.compare_lt_iff. pose proof (Z.mul_le_mono_nonneg_r (d1 + 1) d2 (Bp (length l2)) ltac:(lia) ltac:(lia)). lia.
  - symmetry. apply Z.compare_gt_iff. pose proof (Z.mul_le_mono_nonneg_r (d2 + 1) d1 (Bp (length l2)) ltac:(lia) ltac:(lia)). lia.
Qed.

Lemma cmp_run a b : limbs_ok a -> limbs_ok b -> cmp a b = (value a ?= value b).
Proof.
  destruct a as [l1], b as [l2]. intros H1 H2. pose proof (position_nonzero_spec l1 H1) as P1. pose proof (position_nonzero_spec l2 H2) as P2.
  unfold cmp. cbn [digits]. destruct (position_nonzero l1) as [i|], (position_nonzero l2) as [j|].
  - destruct P1 as (L1 & V1 & B1), P2 as (L2 & V2 & B2).
    assert (Forall (fun d => 0 <= d < B) (drop i l1)) as F1 by by apply Forall_drop.
    assert (Forall (fun d => 0 <= d < B) (drop j l2)) as F2 by by apply Forall_drop.
    pose proof (value_bound (mkBigUint (drop i l1)) F1) as U1. pose proof (value_bound (mkBigUint (drop j l2)) F2) as U2.
    unfold len in U1, U2. cbn [digits] in U1, U2. rewrite length_drop in U1, U2 |- *. rewrite length_drop.
    destruct (Nat.compare_spec (length l1 - i) (length l2 - j)) as [Heq|Hlt|Hgt].
    + rewrite lex_value by (done || (rewrite !length_drop; done)). by rewrite V1, V2.
    + symmetry. apply Z.compare_lt_iff. pose proof (Bp_le (length l1 - i) (length l2 - j - 1) ltac:(lia)). lia.
    + symmetry. apply Z.compare_gt_iff. pose proof (Bp_le (length l2 - j) (length l1 - i - 1) ltac:(lia)). lia.
  - symmetry. apply Z.compare_gt_iff. pose proof (Bp_pos (length l1 - i - 1)). lia.
  - symmetry. apply Z.compare_lt_iff. pose proof (Bp_pos (length l2 - j - 1)). lia.
  - by rewrite P1, P2.
Qed.

(** The schoolbook operations.  On numbers with limbs in range none
    panics, the results have limbs in range and the documented number of limbs,
    and their values are the sum, the product and the quotient by a non-zero
    limb; [sub] returns the difference, or, if the subtrahend is larger, as an
    error the difference wrapped at the common length; [cmp] compares the
    values, whatever the leading zeros. *)
Theorem schoolbook_spec {E} a b d : limbs_ok a -> limbs_ok b -> 0 < d < B ->
  cmp a b = (value a ?= value b) /\
  (exists w, add (E := E) a b = Ok w /\ limbs_ok w /\ len w = (Nat.max (len a) (len b) + 1)%nat /\ value w = value a + value b) /\
  (exists w, mul (E := E) a b = Ok w /\ limbs_ok w /\ len w = Nat.max (len b + len a) 1 /\ value w = value a * value b) /\
  (exists w, div_unit (E := E) a d = Ok w /\ limbs_ok w /\ len w = Nat.max (len a) 1 /\ value w = value a / d) /\
  (let n := Nat.max (len a) (len b) in
   exists w, limbs_ok w /\ len w = Nat.max n 1 /\
     if value b <=? value a
     then sub a b = Ok w /\ value w = value a - value b
     else sub a b = Err w /\ value w = value a - value b + Bp n).
Proof. intros Ha Hb Hd. split_and!; [by apply cmp_run|by apply add_run|by apply mul_run|by apply div_unit_run|by apply sub_run]. Qed.

(** C35. Long division (Knuth's algorithm D).  [div] is [None] exactly when the
    form it requires is not met: a divisor of at least two limbs, no leading
    zero limb, and a longer dividend.  Otherwise it terminates without a panic
    or an overflow, and returns the exact quotient and, if asked for, the exact
    remainder. *)
Theorem div_spec {E} self other rem : limbs_ok self -> limbs_ok other -> (0 < len self)%nat ->
  if divisible_form self other
  then exists q r, div (E := E) self other rem = Ok (Some (q, r)) /\ limbs_ok q /\ limbs_ok r /\
    len q = (len self - len other + 1)%nat /\ value q = value self / value other /\
    value r = if rem then value self mod value other else 0
  else div (E := E) self other rem = Ok None.
Proof. apply div_run. Qed.
End arithmetic.

(** ** Concrete numbers *)
Lemma limbs_ok_compute w : forallb (fun d => (0 <=? d) && (d <? B)) (digits w) = true -> limbs_ok w.
Proof.
  intros Hw. unfold limbs_ok. rewrite List.forallb_forall in Hw. apply Forall_forall. intros d Hd%list_elem_of_In%Hw.
  rewrite andb_true_iff, Z.leb_le, Z.ltb_lt in Hd. done.
Qed.

Lemma schoolbook_spec_witness :
  exists w, @sub true (mkBigUint [1; 0]) (mkBigUint [7]) = Ok w /\ value w = B - 7.
Proof.
  destruct (@schoolbook_spec true unit (mkBigUint [1; 0]) (mkBigUint [7]) 5) as (_ & _ & _ & _ & w & _ & _ & Hs & Hv);
    [apply limbs_ok_compute; reflexivity|apply limbs_ok_compute; reflexivity|by vm_compute|].
  exists w. split; [exact Hs|]. rewrite Hv. reflexivity.
Defined.

Lemma div_spec_witness :
  exists q r, @div true unit (mkBigUint [5; 4; 3; 2]) (mkBigUint [7; 6]) true = Ok (Some (q, r)) /\
    value q = value (mkBigUint [5; 4; 3; 2]) / value (mkBigUint [7; 6]) /\
    value r = value (mkBigUint [5; 4; 3; 2]) mod value (mkBigUint [7; 6]).
Proof.
  destruct (@div_spec true unit (mkBigUint [5; 4; 3; 2]) (mkBigUint [7; 6]) true) as (q & r & Hd & _ & _ & _ & Hq & Hr);
    [apply limbs_ok_compute; reflexivity|apply limbs_ok_compute; reflexivity|by vm_compute; lia|].
  exists q, r. split; [exact Hd|]. split; [exact Hq|exact Hr].
Defined.
