(* ===== verification/Helpers128.v ===== *)
(** * Helpers for 128-bit arithmetic

    [primitives/arithmetic/src/helpers_128bit.rs]: the binary greatest common
    divisor and the multiplication of an integer by a fraction, which goes
    through the multi-limb integers when the product does not fit. *)

From Stdlib Require Import ZArith Lia List.
From S2P Require Import Prelude BigUint BigUintSpec.
From stdpp Require Import base option list.
Open Scope Z_scope.

(** The arms are tried in order; out of fuel, and in the arm the source marks
    unreachable, the model panics.  A step halves one of the arguments, so that
    257 steps are enough for 128-bit integers. *)
Fixpoint gcd_fuel (fuel : nat) (a b : Z) : res unit Z :=
  match fuel with
  | O => Panic
  | S fuel =>
    if a =? b then Ok b
    else if a =? 0 then Ok b
    else if b =? 0 then Ok a
    else match Z.land a 1, Z.land b 1 with
    | 0, 1 => gcd_fuel fuel (Z.shiftr a 1) b
    | 1, 0 => gcd_fuel fuel (Z.shiftr b 1) a
    | 0, 0 => g ← gcd_fuel fuel (Z.shiftr a 1) (Z.shiftr b 1); Ok (cast 128 (Z.shiftl g 1))
    | 1, 1 => let x := Z.min a b in let y := Z.max a b in gcd_fuel fuel (Z.shiftr (y - x) 1) x
    | _, _ => Panic
    end
  end.

Definition gcd (a b : Z) : res unit Z := gcd_fuel 257 a b.

Definition split128 (a : Z) : Z * Z :=
  let al := cast 64 a in
  let ah := cast 64 (Z.shiftr a 64) in
  (ah, al).

Definition to_big_uint (x : Z) : BigUint :=
  let '(xh, xl) := split128 x in
  let '(xhh, xhl) := BigUint.split xh in
  let '(xlh, xll) := BigUint.split xl in
  let n := from_limbs [xhh; xhl; xlh; xll] in
  lstrip n.

Section rational.
Context `{OverflowChecks}.

(** The part for products that do not fit: the quotient by a one-limb divisor
    is rounded down, the one by a longer divisor to the nearest. *)
Definition multiply_big (a b c : Z) : res unit Z :=
  let a_num := to_big_uint a in
  let b_num := to_big_uint b in
  let c_num := to_big_uint c in
  ab ← mul a_num b_num;
  let ab := lstrip ab in
  q ← (if (len c_num =? 1)%nat then div_unit ab (cast 32 c)
       else
         o ← div ab c_num true;
         let '(q, r) := default (zero, zero) o in
         r ← try_into 128 r;
         r ← expect r;
         if c / 2 <? r then add q (to_big_uint 1) else Ok q);
  let q := lstrip q in
  x ← try_into 128 q;
  ok_or x tt.

(** [Err] is the message "result cannot fit in u128". *)
Definition multiply_by_rational (a b c : Z) : res unit Z :=
  if (a =? 0) || (b =? 0) then Ok 0
  else
    let c := Z.max c 1 in
    let '(a, b) := if a <? b then (b, a) else (a, b) in
    let '(a, b, c) :=
      if a mod c =? 0 then (a / c, b, 1)
      else if b mod c =? 0 then (a, b / c, 1)
      else (a, b, c) in
    match checked_mul 128 a b with
    | Some x => Ok (x / c)
    | None => multiply_big a b c
    end.
End rational.

(** ** The greatest common divisor *)
Lemma land_1 a : 0 <= a -> Z.land a 1 = a mod 2.
Proof. intros Ha. change 1 with (Z.ones 1). rewrite Z.land_ones by lia. done. Qed.

Lemma gcd_odd_half a b : b mod 2 = 1 -> Z.gcd (2 * a) b = Z.gcd a b.
Proof.
  intros Hb. rewrite (Z.gcd_comm (2 * a)), (Z.gcd_comm a). apply Z.gcd_unique; [apply Z.gcd_nonneg|apply Z.gcd_divide_l| |].
  - apply Z.divide_mul_r, Z.gcd_divide_r.
  - intros q H1 H2. apply Z.gcd_greatest; [done|]. apply (Z.gauss q 2 a H2).
    apply Z.gcd_unique; [lia|apply Z.divide_1_l|apply Z.divide_1_l|]. intros r Hr1 Hr2.
    assert (r | 1) as H; [|done]. pose proof (Z.div_mod b 2 ltac:(lia)) as Hdm. rewrite Hb in Hdm.
    assert (r | b) as Hrb by (by transitivity q). replace 1 with (b - 2 * (b / 2)) by lia.
    apply Z.divide_sub_r; [done|]. by apply Z.divide_mul_l.
Qed.

Lemma gcd_fuel_spec fuel a b : 0 <= a < 2 ^ 128 -> 0 <= b < 2 ^ 128 -> a * b < 2 ^ Z.of_nat fuel ->
  (1 <= fuel)%nat -> gcd_fuel fuel a b = Ok (Z.gcd a b).
Proof.
  revert a b. induction fuel as [|fuel IH]; intros a b Ha Hb Hlt Hf; [lia|]. cbn [gcd_fuel].
  destruct (Z.eqb_spec a b) as [->|Hab]; [by rewrite Z.gcd_diag, Z.abs_eq by lia|].
  destruct (Z.eqb_spec a 0) as [->|Ha0]; [by rewrite Z.gcd_0_l, Z.abs_eq by lia|].
  destruct (Z.eqb_spec b 0) as [->|Hb0]; [by rewrite Z.gcd_0_r, Z.abs_eq by lia|].
  rewrite Nat2Z.inj_succ, Z.pow_succ_r in Hlt by lia.
  assert (1 <= fuel)%nat as Hf'.
  { destruct fuel; [|lia]. simpl in Hlt. nia. }
  rewrite !land_1 by lia. rewrite !Z.shiftr_div_pow2 by lia. change (2 ^ 1) with 2.
  pose proof (Z.div_mod a 2 ltac:(lia)) as Da. pose proof (Z.div_mod b 2 ltac:(lia)) as Db.
  pose proof (Z.mod_pos_bound a 2 ltac:(lia)) as Ma. pose proof (Z.mod_pos_bound b 2 ltac:(lia)) as Mb.
  set (a2 := a / 2) in *. set (b2 := b / 2) in *. pose proof (Z.pow_pos_nonneg 2 (Z.of_nat fuel) ltac:(lia) ltac:(lia)) as Hp.
  assert (a mod 2 = 0 \/ a mod 2 = 1) as [Ea|Ea] by lia; assert (b mod 2 = 0 \/ b mod 2 = 1) as [Eb|Eb] by lia; rewrite Ea, Eb in *.
  - rewrite IH by (lia || nia). cbn [mbind res_mbind]. rewrite Z.shiftl_mul_pow2 by lia. change (2 ^ 1) with 2.
    replace (Z.gcd a b) with (2 * Z.gcd a2 b2) by (rewrite <-Z.gcd_mul_mono_l_nonneg by lia; f_equal; lia). f_equal.
    pose proof (Z.gcd_nonneg a2 b2). pose proof (Z.divide_pos_le (Z.gcd a2 b2) a2 ltac:(lia) (Z.gcd_divide_l a2 b2)).
    rewrite cast_id by (unfold is_u; lia). lia.
  - rewrite IH by (lia || nia). f_equal. replace a with (2 * a2) by lia. symmetry. by apply gcd_odd_half.
  - rewrite IH by (lia || nia). f_equal. rewrite (Z.gcd_comm a b). replace b with (2 * b2) by lia. symmetry. by apply gcd_odd_half.
  - assert (forall x y x2 y2, 0 < x -> x < y -> y < 2 ^ 128 -> x = 2 * x2 + 1 -> y = 2 * y2 + 1 -> x * y < 2 * 2 ^ Z.of_nat fuel ->
      gcd_fuel fuel ((y - x) / 2) x = Ok (Z.gcd x y)) as Hodd.
    { intros x y x2 y2 Hx Hxy Hy Dx Dy Hxl. replace ((y - x) / 2) with (y2 - x2) by (apply Z.div_unique_pos with (r := 0); lia).
      pose proof (Z.mul_le_mono_nonneg_l (2 * (y2 - x2)) y x ltac:(lia) ltac:(lia)) as Hm.
      rewrite IH by lia. f_equal. rewrite <-(gcd_odd_half (y2 - x2) x) by (rewrite Dx, Z.add_comm, Z.mul_comm, Z.mod_add by lia; done).
      replace (2 * (y2 - x2)) with (y - x) by lia. by rewrite Z.gcd_comm, Z.gcd_sub_diag_r. }
    destruct (Z.lt_ge_cases a b).
    + rewrite Z.min_l, Z.max_r by lia. apply (Hodd a b a2 b2); lia.
    + rewrite Z.min_r, Z.max_l by lia. rewrite (Z.gcd_comm a b). apply (Hodd b a b2 a2); lia.
Qed.

(** The binary algorithm computes the greatest common divisor of any two
    128-bit integers, within the fuel it is given. *)
Theorem gcd_spec a b : is_u 128 a -> is_u 128 b -> gcd a b = Ok (Z.gcd a b).
Proof.
  intros Ha Hb. apply gcd_fuel_spec; [done|done| |lia]. unfold is_u in *.
  pose proof (Z.mul_le_mono_nonneg a (2 ^ 128) b (2 ^ 128) ltac:(lia) ltac:(lia) ltac:(lia) ltac:(lia)). 
  change (2 ^ Z.of_nat 257) with (2 * (2 ^ 128 * 2 ^ 128)). lia.
Qed.

Lemma gcd_spec_witness : gcd 12345678901234567890 9876543210 = Ok (Z.gcd 12345678901234567890 9876543210).
Proof. apply (gcd_spec 12345678901234567890 9876543210); unfold is_u; lia. Defined.

(** ** Conversions *)
Lemma Bp_pow i : Bp i = 2 ^ (32 * Z.of_nat i).
Proof. unfold Bp, B. rewrite <-Z.pow_mul_r by lia. done. Qed.

Lemma limb_rev w i : limb w i = default 0 (rev (digits w) !! i).
Proof.
  unfold limb, checked_get, len. destruct (Nat.ltb_spec i (length (digits w))) as [Hi|Hi].
  - rewrite rev_lookup by done. do 2 f_equal. lia.
  - rewrite lookup_ge_None_2; [done|]. rewrite length_rev. done.
Qed.

Section conversions.
Context `{OverflowChecks}.

Lemma accumulate {E} (l : list Z) k acc : Forall (fun d => 0 <= d < B) l -> (k + length l <= 4)%nat -> 0 <= acc < Bp k ->
  for_range (E := E) (fun '(i, d) acc => uadd 128 acc (cast 128 (Z.shiftl d (SHIFT * Z.of_nat i))))
    (imap (fun i d => (k + i, d)%nat) l) acc = Ok (acc + Bp k * pv (fun i => default 0 (l !! i)) (length l)).
Proof.
  intros Hl. revert k acc. induction Hl as [|d l Hd Hl IH]; intros k acc Hk Hacc; [simpl; f_equal; lia|].
  cbn [imap for_range length]. rewrite Nat.add_0_r. simpl in Hk. unfold SHIFT. rewrite Z.shiftl_mul_pow2 by lia. rewrite <-Bp_pow.
  assert (Bp (S k) <= 2 ^ 128) as Hle by (change (2 ^ 128) with (Bp 4); apply Bp_le; lia).
  assert (acc + d * Bp k < Bp (S k)) as Hlt.
  { rewrite Bp_S. pose proof (Z.mul_le_mono_nonneg_r (d + 1) B (Bp k) ltac:(lia) ltac:(lia)). lia. }
  pose proof (Z.mul_nonneg_nonneg d (Bp k) ltac:(lia) ltac:(lia)) as Hnn.
  rewrite cast_id by (unfold is_u; lia). rewrite uadd_ok by (unfold is_u; lia). cbn [mbind res_mbind].
  rewrite (imap_ext _ (fun i d => (S k + i, d)%nat)) by (intros i x _; simpl; f_equal; lia).
  rewrite IH by lia. f_equal. change (S (length l)) with (1 + length l)%nat. rewrite pv_split, (Bp_S k), (Bp_S 0), Bp_0. simpl. rewrite Bp_0. lia.
Qed.

Lemma try_into_run {E} w : limbs_ok w ->
  try_into (E := E) 128 w = Ok (if value w <? 2 ^ 128 then Some (value w) else None).
Proof.
  intros Hw. destruct (lstrip_spec w Hw) as (Hok & Hv & Hlo & Hz). unfold try_into. set (s := lstrip w) in *.
  pose proof (value_bound s Hok) as Hsb. rewrite Hv in Hsb. unfold SHIFT.
  destruct (Z.ltb_spec 128 (Z.of_nat (len s) * 32)) as [Hbig|Hsmall].
  - destruct (Z.eq_dec (value w) 0) as [Hv0|Hv0]; [|].
    { destruct (Nat.eq_dec (len w) 0%nat) as [Hl0|Hl0]; [|rewrite (Hz Hv0) in Hbig by lia; lia].
      unfold s, lstrip in Hbig. rewrite Hl0 in Hbig. simpl in Hbig. lia. }
    specialize (Hlo ltac:(lia)).
    replace (value w <? 2 ^ 128) with false; [done|]. symmetry. apply Z.ltb_ge. change (2 ^ 128) with (Bp 4).
    pose proof (Bp_le 4 (len s - 1) ltac:(lia)). lia.
  - pose proof (Bp_le (len s) 4 ltac:(lia)) as Hle. change (Bp 4) with (2 ^ 128) in Hle.
    replace (value w <? 2 ^ 128) with true by (symmetry; apply Z.ltb_lt; lia).
    change (imap pair (rev (digits s))) with (imap (fun i d => (0 + i, d)%nat) (rev (digits s))).
    rewrite accumulate; [|by apply Forall_rev|rewrite length_rev; unfold len in *; lia|rewrite Bp_0; lia].
    cbn [mbind res_mbind]. rewrite Bp_0, length_rev. do 2 f_equal. rewrite <-Hv. unfold value, len.
    rewrite (pv_ext (limb s) (fun i => default 0 (rev (digits s) !! i))); [lia|]. intros i _. apply limb_rev.
Qed.

Lemma to_big_uint_spec x : is_u 128 x ->
  limbs_ok (to_big_uint x) /\ value (to_big_uint x) = x /\ (0 < x -> Bp (len (to_big_uint x) - 1) <= x) /\
  (0 < len (to_big_uint x) <= 4)%nat.
Proof.
  intros Hx. unfold is_u in Hx. unfold to_big_uint, split128, BigUint.split, SHIFT, cast. rewrite !Z.shiftr_div_pow2 by lia.
  set (h := x / 2 ^ 64). set (l := x mod 2 ^ 64).
  assert (x = h * 2 ^ 64 + l /\ 0 <= l < 2 ^ 64 /\ 0 <= h < 2 ^ 64) as (Dx & Hl & Hh).
  { pose proof (Z.div_mod x (2 ^ 64) ltac:(lia)). pose proof (Z.mod_pos_bound x (2 ^ 64) ltac:(lia)). unfold h, l.
    split_and!; [lia|lia..|apply Z.div_pos; lia|apply Z.div_lt_upper_bound; lia]. }
  rewrite (Z.mod_small h) by lia.
  assert (forall z, 0 <= z < 2 ^ 64 -> z = z / 2 ^ 32 * B + z mod 2 ^ 32 /\ 0 <= z / 2 ^ 32 < B /\ 0 <= z mod 2 ^ 32 < B) as Hsp.
  { intros z Hz. pose proof (Z.div_mod z (2 ^ 32) ltac:(lia)). pose proof (Z.mod_pos_bound z (2 ^ 32) ltac:(lia)). unfold B.
    split_and!; [lia|apply Z.div_pos; lia|apply Z.div_lt_upper_bound; lia|lia..]. }
  destruct (Hsp h Hh) as (Dh & Hh1 & Hh0). destruct (Hsp l Hl) as (Dl & Hl1 & Hl0).
  rewrite (Z.mod_small (h / 2 ^ 32)), (Z.mod_small (l / 2 ^ 32)) by done. cbn [from_limbs].
  set (w := mkBigUint _). assert (limbs_ok w) as Hw by (repeat (apply Forall_cons; split; [done|]); apply Forall_nil; done).
  assert (value w = x) as Hv.
  { unfold w. rewrite !value_cons. cbn [length]. change (value (mkBigUint [])) with 0. rewrite !Bp_S, Bp_0. rewrite Dx.
    change (2 ^ 64) with (B * B). rewrite Dh at 3. rewrite Dl at 3. lia. }
  destruct (lstrip_spec w Hw) as (Hok & Hsv & Hlo & Hz). rewrite Hv in *. split_and!; [done|done|done| |].
  - pose proof (value_bound _ Hok) as Hb. rewrite Hsv in Hb. destruct (Nat.eq_dec (len (lstrip w)) 0%nat) as [H0|]; [|lia].
    rewrite H0, Bp_0 in Hb. rewrite (Hz ltac:(lia)) in H0 by (unfold w, len; simpl; lia). lia.
  - destruct (Z.eq_dec x 0) as [Hx0|Hx0]; [rewrite (Hz Hx0) by (unfold w, len; simpl; lia); lia|]. specialize (Hlo ltac:(lia)).
    destruct (Nat.le_gt_cases (len (lstrip w)) 4) as [|Hgt]; [done|].
    pose proof (Bp_le 4 (len (lstrip w) - 1) ltac:(lia)). change (Bp 4) with (2 ^ 128) in *. lia.
Qed.

(** ** Multiplication by a fraction *)
Lemma stripped_msb w : limbs_ok w -> (0 < len w)%nat -> Bp (len w - 1) <= value w -> limb w (len w - 1) <> 0.
Proof.
  intros Hw Hl Hlo Hz. pose proof (value_msb w Hw Hl) as [_ Hhi]. rewrite Hz in Hhi. lia.
Qed.

Lemma big_quotient ab c : limbs_ok ab -> Bp (len ab - 1) <= value ab -> 2 ^ 128 <= value ab -> 0 < c -> is_u 128 c ->
  exists q, (if (len (to_big_uint c) =? 1)%nat then div_unit (E := unit) ab (cast 32 c)
    else
      o ← div ab (to_big_uint c) true;
      let '(q, r) := default (zero, zero) o in
      r ← try_into 128 r;
      r ← expect r;
      if c / 2 <? r then add q (to_big_uint 1) else Ok q) = Ok q /\ limbs_ok q /\
  value q = value ab / c + (if (B <=? c) && (c / 2 <? value ab mod c) then 1 else 0).
Proof.
  intros Hok Hlo Hbig Hc Hcu. destruct (to_big_uint_spec c Hcu) as (Hcok & Hcv & Hclo & Hcl). specialize (Hclo Hc).
  pose proof (value_bound (to_big_uint c) Hcok) as Hcb. rewrite Hcv in Hcb.
  destruct (Nat.eqb_spec (len (to_big_uint c)) 1) as [H1|H1].
  - rewrite H1 in Hcb. change (Bp 1) with B in Hcb. rewrite cast_B by lia.
    destruct (div_unit_run (E := unit) ab c Hok ltac:(lia)) as (q & Hq & Hqok & _ & Hqv). exists q.
    replace (B <=? c) with false by lia. split_and!; [done|done|]. cbn [andb]. lia.
  - pose proof (Bp_le 1 (len (to_big_uint c) - 1) ltac:(lia)) as HB. change (Bp 1) with B in HB. replace (B <=? c) with true by lia.
    pose proof (value_bound ab Hok) as Habb.
    assert (5 <= len ab)%nat as Hlen.
    { destruct (Nat.le_gt_cases 5 (len ab)); [done|]. pose proof (Bp_le (len ab) 4 ltac:(lia)). change (Bp 4) with (2 ^ 128) in *. lia. }
    pose proof (div_run (E := unit) ab (to_big_uint c) true Hok Hcok ltac:(lia)) as Hdiv.
    assert (divisible_form ab (to_big_uint c) = true) as Hform.
    { unfold divisible_form. rewrite !andb_true_iff, !negb_true_iff, !Z.eqb_neq, !Nat.ltb_lt.
      assert (limb (to_big_uint c) (len (to_big_uint c) - 1) <> 0) as Hm1 by (apply stripped_msb; [exact Hcok|lia|rewrite Hcv; exact Hclo]).
      assert (limb ab (len ab - 1) <> 0) as Hm2 by (apply stripped_msb; [exact Hok|lia|exact Hlo]).
      repeat split; [lia|exact Hm1|exact Hm2|lia]. }
    rewrite Hform in Hdiv. destruct Hdiv as (q & r & Hd & Hqok & Hrok & _ & Hqv & Hrv). rewrite Hcv in Hqv, Hrv.
    rewrite Hd. cbn [mbind res_mbind default from_option id]. rewrite try_into_run by done. rewrite Hrv.
    pose proof (Z.mod_pos_bound (value ab) c Hc) as Hmb. replace (value ab mod c <? 2 ^ 128) with true by (symmetry; apply Z.ltb_lt; unfold is_u in *; lia).
    cbn [mbind res_mbind expect andb]. destruct (c / 2 <? value ab mod c).
    + destruct (to_big_uint_spec 1) as (H1ok & H1v & _); [unfold is_u; lia|].
      destruct (add_run (E := unit) q (to_big_uint 1) Hqok H1ok) as (q' & Hq' & Hqok' & _ & Hqv'). exists q'. split_and!; [done|done|lia].
    + exists q. split_and!; [done|done|lia].
Qed.

Lemma multiply_big_run a b c : is_u 128 a -> is_u 128 b -> is_u 128 c -> 0 < c -> 2 ^ 128 <= a * b ->
  let x := a * b / c + (if (B <=? c) && (c / 2 <? a * b mod c) then 1 else 0) in
  multiply_big a b c = if x <? 2 ^ 128 then Ok x else Err tt.
Proof.
  intros Ha Hb Hcu Hc Hbig x. unfold multiply_big.
  destruct (to_big_uint_spec a Ha) as (Haok & Hav & _). destruct (to_big_uint_spec b Hb) as (Hbok & Hbv & _).
  destruct (mul_run (E := unit) (to_big_uint a) (to_big_uint b) Haok Hbok) as (w & Hw & Hwok & _ & Hwv). rewrite Hav, Hbv in Hwv.
  rewrite Hw. cbn [mbind res_mbind]. destruct (lstrip_spec w Hwok) as (Hsok & Hsv & Hslo & _). rewrite Hwv in *.
  destruct (big_quotient (lstrip w) c Hsok) as (q & Hq & Hqok & Hqv); [rewrite Hsv; apply Hslo; lia|lia|done|done|].
  rewrite Hq. cbn [mbind res_mbind]. rewrite Hsv in Hqv. fold x in Hqv.
  destruct (lstrip_spec q Hqok) as (Hqsok & Hqsv & _). rewrite try_into_run by done. rewrite Hqsv, Hqv. cbn [mbind res_mbind].
  by destruct (x <? 2 ^ 128).
Qed.

(** The number [multiply_by_rational] computes, and its result. *)
Definition rational_value (ab c : Z) : Z :=
  ab / c + (if (2 ^ 128 <=? ab) && (B <=? c) && (c / 2 <? ab mod c) then 1 else 0).

Definition rational_result (x : Z) : res unit Z := if x <? 2 ^ 128 then Ok x else Err tt.

Lemma product_too_big p q : is_u 128 p -> is_u 128 q -> checked_mul 128 p q = None -> 2 ^ 128 <= p * q.
Proof.
  unfold checked_mul, is_u. intros Hp Hq Hck%checked_None. apply Z.nlt_ge. intros Hlt. apply Hck.
  split; [apply Z.mul_nonneg_nonneg; lia|done].
Qed.

(** A factor that the divisor divides has been divided. *)
Lemma rational_exact p q c : is_u 128 p -> is_u 128 q -> 0 < c ->
  match checked_mul 128 p q with Some z => Ok (z / 1) | None => multiply_big p q 1 end =
  rational_result (rational_value (c * (p * q)) c).
Proof.
  intros Hp Hq Hc. assert (rational_value (c * (p * q)) c = p * q) as ->.
  { unfold rational_value. rewrite Z.mul_comm, Z.div_mul, Z.mod_mul by lia.
    replace (c / 2 <? 0) with false; [rewrite andb_false_r; lia|]. symmetry. apply Z.ltb_ge. apply Z.div_pos; lia. }
  unfold rational_result. destruct (checked_mul 128 p q) as [z|] eqn:Hck.
  - apply checked_Some in Hck as [-> Hu]. rewrite Z.div_1_r. unfold is_u in Hu.
    by replace (p * q <? 2 ^ 128) with true by (symmetry; apply Z.ltb_lt; lia).
  - pose proof (product_too_big p q Hp Hq Hck). rewrite multiply_big_run by (done || (unfold is_u; lia)).
    rewrite Z.div_1_r. cbn [andb]. by rewrite Z.add_0_r.
Qed.

Lemma div_is_u z c : 0 < c -> is_u 128 z -> is_u 128 (z / c).
Proof.
  unfold is_u. intros Hc Hz. split; [apply Z.div_pos; lia|]. apply Z.div_lt_upper_bound; [lia|].
  pose proof (Z.mul_le_mono_nonneg_r 1 c (2 ^ 128) ltac:(lia) ltac:(lia)). lia.
Qed.

Lemma rational_run p q c : is_u 128 p -> is_u 128 q -> is_u 128 c -> 0 < c ->
  (let '(p, q, d) := if p mod c =? 0 then (p / c, q, 1) else if q mod c =? 0 then (p, q / c, 1) else (p, q, c) in
   match checked_mul 128 p q with Some z => Ok (z / d) | None => multiply_big p q d end) =
  rational_result (rational_value (p * q) c).
Proof.
  intros Hp Hq Hcu Hc. pose proof (Z.div_mod p c ltac:(lia)) as Dp. pose proof (Z.div_mod q c ltac:(lia)) as Dq.
  destruct (Z.eqb_spec (p mod c) 0) as [Hp0|Hp0].
  { rewrite (rational_exact (p / c) q c) by (done || by apply div_is_u). do 2 f_equal. rewrite Dp at 2. rewrite Hp0. lia. }
  destruct (Z.eqb_spec (q mod c) 0) as [Hq0|Hq0].
  { rewrite (rational_exact p (q / c) c) by (done || by apply div_is_u). do 2 f_equal. rewrite Dq at 2. rewrite Hq0. lia. }
  unfold rational_result, rational_value. destruct (checked_mul 128 p q) as [z|] eqn:Hck.
  - apply checked_Some in Hck as [-> Hu]. destruct (div_is_u _ c Hc Hu) as [_ Hlt]. unfold is_u in Hu.
    replace (2 ^ 128 <=? p * q) with false by (symmetry; apply Z.leb_gt; lia). cbn [andb]. rewrite Z.add_0_r.
    by replace (p * q / c <? 2 ^ 128) with true by (symmetry; apply Z.ltb_lt; lia).
  - pose proof (product_too_big p q Hp Hq Hck).
    replace (2 ^ 128 <=? p * q) with true by (symmetry; apply Z.leb_le; lia). by rewrite multiply_big_run.
Qed.

(** C36. [multiply_by_rational] computes [a * b / c] for all 128-bit integers,
    with a zero divisor read as one: the quotient rounded down, except when the
    product does not fit 128 bits and the divisor does not fit 32, where it is
    rounded to the nearest.  It fails exactly when that number does not fit 128
    bits, and it never panics: the division it calls always succeeds. *)
Theorem multiply_by_rational_spec a b c : is_u 128 a -> is_u 128 b -> is_u 128 c ->
  let d := Z.max c 1 in
  let x := a * b / d + (if (2 ^ 128 <=? a * b) && (B <=? d) && (d / 2 <? a * b mod d) then 1 else 0) in
  multiply_by_rational a b c = if x <? 2 ^ 128 then Ok x else Err tt.
Proof.
  intros Ha Hb Hc d x. assert (0 < d) as Hd by (unfold d; lia). assert (is_u 128 d) as Hdu by (unfold d, is_u in *; lia).
  unfold multiply_by_rational. fold d. destruct (Z.eqb_spec a 0) as [->|_].
  { unfold x. rewrite Z.mul_0_l, Z.div_0_l by lia. done. }
  destruct (Z.eqb_spec b 0) as [->|_]; cbn [orb].
  { unfold x. rewrite Z.mul_0_r, Z.div_0_l by lia. done. }
  destruct (a <? b); [|by apply rational_run].
  etransitivity; [by apply rational_run|]. rewrite Z.mul_comm. done.
Qed.
End conversions.

Lemma multiply_by_rational_spec_witness :
  @multiply_by_rational true (2 ^ 128 - 1) (2 ^ 127) (2 ^ 127 + 1) = Ok (2 ^ 128 - 3).
Proof.
  rewrite (@multiply_by_rational_spec true (2 ^ 128 - 1) (2 ^ 127) (2 ^ 127 + 1)) by (unfold is_u; lia).
  vm_compute. reflexivity.
Defined.
