(* ===== verification/Authorities.v ===== *)
(** * The GRANDPA authority set

    Model of [client/finality-grandpa/src/authorities.rs]: the current
    authorities and the id of their set, the pending standard changes in a
    fork tree (module [ForkTree]), the pending forced changes in a vector
    ordered by effective block number, and the history of set changes.

    The block number type of the source is generic: here an integer with an
    addition [number_add] that is a parameter, so that the theorems hold for
    the wrapping addition of a release build as for the exact one.  A client
    function decides ancestry, as in [ForkTree].  The voter set that the
    shared handle builds comes from another crate and is a parameter.  Logging
    and telemetry are left out. *)

From Stdlib Require Import ZArith Lia Sorted.
From S2P Require Import Prelude ForkTree.
From stdpp Require Import base option list.

Local Open Scope Z_scope.
Local Open Scope rust_scope.

(** ** Data *)
Inductive DelayKind : Type :=
| Finalized
| Best (median_last_finalized : Z).

Inductive Error (E : Type) : Type :=
| InvalidAuthoritySet
| ClientError (e : E)
| DuplicateAuthoritySetChange
| MultiplePendingForcedAuthoritySetChanges
| ForcedAuthoritySetChangeDependencyUnsatisfied (n : Z)
| ForkTreeError (e : ForkTree.Error E).

Arguments InvalidAuthoritySet {E}.
Arguments ClientError {E} e.
Arguments DuplicateAuthoritySetChange {E}.
Arguments MultiplePendingForcedAuthoritySetChanges {E}.
Arguments ForcedAuthoritySetChangeDependencyUnsatisfied {E} n.
Arguments ForkTreeError {E} e.

(** [From<fork_tree::Error>], applied by the question mark operator. *)
Definition from_fork_tree {E} (err : ForkTree.Error E) : Error E :=
  match err with
  | ForkTree.Client err => ClientError err
  | ForkTree.Duplicate => DuplicateAuthoritySetChange
  | err => ForkTreeError err
  end.

(** An authority with its weight, a [u64]. *)
Abbreviation AuthorityList Id := (list (Id * Z)).

Record PendingChange (H Id : Type) : Type := mkPending {
  next_authorities : AuthorityList Id;
  delay : Z;
  canon_height : Z;
  canon_hash : H;
  delay_kind : DelayKind }.

Arguments mkPending {H Id} next_authorities delay canon_height canon_hash delay_kind.
Arguments next_authorities {H Id} _.
Arguments delay {H Id} _.
Arguments canon_height {H Id} _.
Arguments canon_hash {H Id} _.
Arguments delay_kind {H Id} _.

(** Set ids with the last block of each set, the oldest first. *)
Abbreviation AuthoritySetChanges := (list (Z * Z)).

Inductive AuthoritySetChangeId : Type :=
| Latest
| Set_ (set_id last : Z)
| Unknown.

Record AuthoritySet (H Id : Type) : Type := mkSet {
  current_authorities : AuthorityList Id;
  set_id : Z;
  pending_standard_changes : ForkTree H (PendingChange H Id);
  pending_forced_changes : list (PendingChange H Id);
  authority_set_changes : AuthoritySetChanges }.

Arguments mkSet {H Id} current_authorities set_id pending_standard_changes pending_forced_changes authority_set_changes.
Arguments current_authorities {H Id} _.
Arguments set_id {H Id} _.
Arguments pending_standard_changes {H Id} _.
Arguments pending_forced_changes {H Id} _.
Arguments authority_set_changes {H Id} _.

Record Status (H : Type) : Type := mkStatus {
  changed : bool;
  new_set_block : option (H * Z) }.

Arguments mkStatus {H} changed new_set_block.
Arguments changed {H} _.
Arguments new_set_block {H} _.

(** ** The history of set changes *)
Section history.
Context {E : Type}.

Definition append (self : AuthoritySetChanges) (set_id block_number : Z) : AuthoritySetChanges :=
  self ++ [(set_id, block_number)].

(** [binary_search_by_key(&block_number, |(_, n)| n)]. *)
Definition search_block (self : AuthoritySetChanges) (block_number : Z) : res nat nat :=
  binary_search_by (fun p => p.2 ?= block_number) self.

Definition get_set_id (self : AuthoritySetChanges) (block_number : Z) : res E AuthoritySetChangeId :=
  if match last self with Some p => p.2 <? block_number | None => false end then Ok Latest
  else
    idx ← search_index (search_block self block_number);
    if (idx <? length self)%nat then
      p ← expect (self !! idx);
      if (idx =? 0)%nat && negb (p.1 =? 0) then Ok Unknown
      else Ok (Set_ p.1 p.2)
    else Ok Unknown.

Definition iter_from (self : AuthoritySetChanges) (block_number : Z) : res E (option (list (Z * Z))) :=
  idx ← (match search_block self block_number with
         | Ok n => Ok (S n)
         | Err b => Ok b
         | Panic => Panic
         end);
  missing ← (if (idx <? length self)%nat then
               p ← expect (self !! idx);
               Ok ((idx =? 0)%nat && negb (p.1 =? 0))
             else Ok false);
  if missing : bool then Ok None
  else if (idx <=? length self)%nat then Ok (Some (drop idx self)) else Panic.
End history.

(** ** The authority set *)
Section authority_set.
Context {OC : OverflowChecks} {H Id E : Type} `{EqDecision H}.
Variable number_add : Z -> Z -> Z.
Variable is_descendent_of : H -> H -> res E bool.

Abbreviation Pending := (PendingChange H Id).
Abbreviation Auth := (AuthoritySet H Id).

Definition effective_number (self : Pending) : Z := number_add (canon_height self) (delay self).

Definition invalid_authority_list (authorities : AuthorityList Id) : bool :=
  match authorities with [] => true | _ => existsb (fun p => p.2 =? 0) authorities end.

Definition genesis (initial : AuthorityList Id) : option Auth :=
  if invalid_authority_list initial then None
  else Some (mkSet initial 0 ForkTree_new [] []).

Definition new (authorities : AuthorityList Id) (set_id : Z)
    (pending_standard_changes : ForkTree H Pending) (pending_forced_changes : list Pending)
    (authority_set_changes : AuthoritySetChanges) : option Auth :=
  if invalid_authority_list authorities then None
  else Some (mkSet authorities set_id pending_standard_changes pending_forced_changes authority_set_changes).

Definition current (self : Auth) : Z * AuthorityList Id := (set_id self, current_authorities self).

(** A call of the client in the code of this file: its error becomes
    [ClientError]. *)
Definition descends (base target : H) : res (Error E) bool :=
  map_err ClientError (is_descendent_of base target).

(** The first change that is on the branch of [best_hash]. *)
Fixpoint first_on_branch (best_hash : H) (changes : list Pending) : res (Error E) (option (H * Z)) :=
  match changes with
  | [] => Ok None
  | change :: changes =>
    b ← descends (canon_hash change) best_hash;
    if b : bool then Ok (Some (canon_hash change, canon_height change))
    else first_on_branch best_hash changes
  end.

Definition next_change (self : Auth) (best_hash : H) : res (Error E) (option (H * Z)) :=
  forced ← first_on_branch best_hash (pending_forced_changes self);
  standard ← first_on_branch best_hash (data <$> roots (pending_standard_changes self));
  Ok (match forced, standard with
      | Some forced, Some standard => Some (if forced.2 <? standard.2 then forced else standard)
      | Some forced, None => Some forced
      | None, standard => standard
      end).

(** An operation of the fork tree in place, with a conversion of its error. *)
Definition on_tree {A} (conv : ForkTree.Error E -> Error E)
    (m : M (ForkTree H Pending) (ForkTree.Error E) A) : M Auth (Error E) A :=
  fun s => let '(t, r) := m (pending_standard_changes s) in
    (mkSet (current_authorities s) (set_id s) t (pending_forced_changes s) (authority_set_changes s), map_err conv r).

Definition set_forced (l : list Pending) : M Auth (Error E) unit :=
  modify (fun s => mkSet (current_authorities s) (set_id s) (pending_standard_changes s) l (authority_set_changes s)).

Definition add_standard_change (pending : Pending) : M Auth (Error E) unit :=
  let hash := canon_hash pending in
  let number := canon_height pending in
  _ ← on_tree from_fork_tree (import is_descendent_of hash number pending);
  mret tt.

(** The loop that refuses a second forced change on a branch. *)
Fixpoint check_forced (pending : Pending) (changes : list Pending) : res (Error E) unit :=
  match changes with
  | [] => Ok tt
  | change :: changes =>
    if decide (canon_hash change = canon_hash pending) then Err DuplicateAuthoritySetChange
    else
      b ← descends (canon_hash change) (canon_hash pending);
      if b : bool then Err MultiplePendingForcedAuthoritySetChanges else check_forced pending changes
  end.

(** The order of pairs of numbers. *)
Definition pair_compare (p q : Z * Z) : comparison :=
  match p.1 ?= q.1 with Eq => p.2 ?= q.2 | c => c end.

Definition forced_key (change : Pending) : Z * Z := (effective_number change, canon_height change).

Definition add_forced_change (pending : Pending) : M Auth (Error E) unit :=
  changes ← gets pending_forced_changes;
  _ ← lift (check_forced pending changes);
  let key := forced_key pending in
  idx ← lift (search_index (binary_search_by (fun change => pair_compare (forced_key change) key) changes));
  changes' ← lift (vec_insert idx pending changes);
  set_forced changes'.

Definition add_pending_change (pending : Pending) : M Auth (Error E) unit :=
  if invalid_authority_list (next_authorities pending) then throw InvalidAuthoritySet
  else match delay_kind pending with
       | Best _ => add_forced_change pending
       | Finalized => add_standard_change pending
       end.

Definition pending_changes (self : Auth) : list Pending :=
  ((fun x => x.2) <$> ForkTree.iter (pending_standard_changes self)) ++ pending_forced_changes self.

(** [min_by_key] followed by the key: the least of the numbers. *)
Definition current_limit (self : Auth) (min : Z) : option Z :=
  match filter (fun x => min <= x) (effective_number <$> (data <$> roots (pending_standard_changes self))) with
  | [] => None
  | x :: l => Some (foldl Z.min x l)
  end.

(** The loop over the pending standard changes a forced one depends on. *)
Fixpoint check_dependencies (median_last_finalized : Z) (change : Pending) (standard : list Pending) :
    res (Error E) unit :=
  match standard with
  | [] => Ok tt
  | standard_change :: standard =>
    b ← (if effective_number standard_change <=? median_last_finalized
         then descends (canon_hash standard_change) (canon_hash change) else Ok false);
    if b : bool
    then Err (ForcedAuthoritySetChangeDependencyUnsatisfied (effective_number standard_change))
    else check_dependencies median_last_finalized change standard
  end.

(** The body of the loop of [apply_forced_changes] on the change to apply. *)
Definition force_change (self : Auth) (change : Pending) : res (Error E) (Z * Auth) :=
  median_last_finalized ← (match delay_kind change with Best m => Ok m | Finalized => Panic end);
  _ ← check_dependencies median_last_finalized change (data <$> roots (pending_standard_changes self));
  next_id ← uadd 64 (set_id self) 1;
  Ok (median_last_finalized,
      mkSet (next_authorities change) next_id ForkTree_new []
        (append (authority_set_changes self) (set_id self) median_last_finalized)).

Fixpoint force_first (self : Auth) (best_hash : H) (changes : list Pending) : res (Error E) (option (Z * Auth)) :=
  match changes with
  | [] => Ok None
  | change :: changes =>
    b ← (if bool_decide (canon_hash change = best_hash) then Ok true else descends (canon_hash change) best_hash);
    if b : bool then Some <$> force_change self change
    else force_first self best_hash changes
  end.

Definition apply_forced_changes (self : Auth) (best_hash : H) (best_number : Z) : res (Error E) (option (Z * Auth)) :=
  force_first self best_hash
    (filter (fun c => effective_number c = best_number)
       (take_while (fun c => effective_number c <=? best_number) (pending_forced_changes self))).

(** The loop that keeps the forced changes above the finalized block; an error
    of the client keeps those pushed so far. *)
Fixpoint keep_forced (finalized_hash : H) (finalized_number : Z) (changes kept : list Pending) :
    list Pending * res (Error E) unit :=
  match changes with
  | [] => (kept, Ok tt)
  | change :: changes =>
    match (if finalized_number <? effective_number change
           then descends finalized_hash (canon_hash change) else Ok false) with
    | Ok true => keep_forced finalized_hash finalized_number changes (kept ++ [change])
    | Ok false => keep_forced finalized_hash finalized_number changes kept
    | Err e => (kept, Err e)
    | Panic => (kept, Panic)
    end
  end.

Definition apply_standard_changes (finalized_hash : H) (finalized_number : Z) : M Auth (Error E) (Status H) :=
  r ← on_tree from_fork_tree
        (finalize_with_descendent_if is_descendent_of
           (fun change => effective_number change <=? finalized_number) finalized_hash finalized_number);
  match r with
  | Changed change =>
    forced ← gets pending_forced_changes;
    let '(kept, r) := keep_forced finalized_hash finalized_number forced [] in
    _ ← set_forced kept;
    _ ← lift r;
    match change with
    | Some change =>
      _ ← modify (fun s => mkSet (next_authorities change) (set_id s) (pending_standard_changes s)
                             (pending_forced_changes s)
                             (append (authority_set_changes s) (set_id s) finalized_number));
      id ← gets set_id;
      next_id ← lift (uadd 64 id 1);
      _ ← modify (fun s => mkSet (current_authorities s) next_id (pending_standard_changes s)
                             (pending_forced_changes s) (authority_set_changes s));
      mret (mkStatus true (Some (finalized_hash, finalized_number)))
    | None => mret (mkStatus true None)
    end
  | Unchanged => mret (mkStatus false None)
  end.

Definition enacts_standard_change (self : Auth) (finalized_hash : H) (finalized_number : Z) :
    res (Error E) (option bool) :=
  (on_tree ForkTreeError
     (finalizes_any_with_descendent_if is_descendent_of
        (fun change => effective_number change =? finalized_number) finalized_hash finalized_number) self).2.

(** [SharedAuthoritySet::current_authorities]; [VoterSet::new] is a parameter. *)
Definition shared_current_authorities {VS} (voter_set_new : AuthorityList Id -> option VS) (self : Auth) : res (Error E) VS :=
  expect (voter_set_new (current_authorities self)).
End authority_set.

(** ** Searching the history *)
Section history_spec.
Context {E : Type}.
Implicit Types (l : list (Z * Z)) (b : Z).

Definition history_sorted l : Prop := StronglySorted (fun p q => p.2 < q.2) l.

Lemma search_block_searched l b : history_sorted l -> search_outcome (fun p => p.2 ?= b) l (search_block l b).
Proof.
  intros Hs. apply binary_search_by_spec. eapply StronglySorted_weaken; [|done]. simpl.
  intros p q Hpq. rewrite !Z.compare_lt_iff, !Z.compare_gt_iff. lia.
Qed.

(** An element found splits the history at it. *)
Lemma history_split l i p : history_sorted l -> l !! i = Some p ->
  Forall (fun q => q.2 < p.2) (take i l) /\ Forall (fun q => p.2 < q.2) (drop (S i) l).
Proof.
  intros Hs Hi. split; apply Forall_lookup; intros j q Hq.
  - apply lookup_take_Some in Hq as [Hq Hj]. by apply (StronglySorted_lookup _ l j i q p Hs).
  - rewrite lookup_drop in Hq. by apply (StronglySorted_lookup _ l i (S i + j) p q Hs ltac:(lia)).
Qed.

(** The index of the set of a block: so many sets ended before it. *)
Lemma search_block_before l b : history_sorted l ->
  search_index (E := E) (search_block l b) = Ok (length (filter (fun p => p.2 < b) l)).
Proof.
  intros Hs. pose proof (search_block_searched l b Hs) as Hb. destruct (search_block l b) as [i|i|]; simpl in *; [| |done].
  - destruct Hb as (p & Hi & Hp%Z.compare_eq). destruct (history_split l i p Hs Hi) as [Ht Hd]. f_equal. symmetry.
    apply filter_split; [by apply Nat.lt_le_incl, (lookup_lt_Some _ _ _ Hi)|eapply Forall_impl; [done|]; simpl; lia|].
    rewrite (drop_S _ _ _ Hi). constructor; [lia|]. eapply Forall_impl; [done|]. simpl. lia.
  - destruct Hb as (Hi & Ht & Hd). f_equal. symmetry.
    apply filter_split; [done|eapply Forall_impl; [exact Ht|]|eapply Forall_impl; [exact Hd|]]; intros p;
      rewrite ?Z.compare_lt_iff, ?Z.compare_gt_iff; lia.
Qed.

Lemma search_block_after l b : history_sorted l ->
  let j := length (filter (fun p => p.2 <= b) l) in
  filter (fun p => ~ p.2 <= b) l = drop j l /\ (j <= length l)%nat /\
  match search_block l b with Ok n => S n = j | Err n => n = j | Panic => False end.
Proof.
  intros Hs j. pose proof (search_block_searched l b Hs) as Hb.
  assert (exists i, (i <= length l)%nat /\ Forall (fun p => p.2 <= b) (take i l) /\ Forall (fun p => ~ p.2 <= b) (drop i l) /\
    match search_block l b with Ok n => S n = i | Err n => n = i | Panic => False end) as (i & Hi & Ht & Hd & Hr).
  { destruct (search_block l b) as [i|i|]; [| |done].
    - destruct Hb as (p & Hi & Hp%Z.compare_eq). destruct (history_split l i p Hs Hi) as [Ht Hd]. exists (S i).
      rewrite (take_S_r _ _ _ Hi). split_and!; [by apply (lookup_lt_Some _ _ _ Hi)| | |done].
      + apply Forall_app. split; [eapply Forall_impl; [done|]; simpl; lia|]. constructor; [lia|done].
      + eapply Forall_impl; [done|]. simpl. lia.
    - destruct Hb as (Hi & Ht & Hd). exists i. split_and!; [done| | |done].
      all: eapply Forall_impl; [eassumption|]; intros p; rewrite ?Z.compare_lt_iff, ?Z.compare_gt_iff; simpl; lia. }
  destruct (filter_split (fun p : Z * Z => p.2 <= b) i l Hi Ht Hd) as [Hlen Hf].
  assert (j = i) as -> by exact Hlen. by split_and!.
Qed.

Lemma missing_eq (i : nat) (id : Z) : (i =? 0)%nat && negb (id =? 0) = bool_decide (i = 0%nat /\ id <> 0).
Proof. destruct (Nat.eqb_spec i 0), (Z.eqb_spec id 0); simpl; symmetry; rewrite ?bool_decide_eq_true, ?bool_decide_eq_false; tauto. Qed.

(** The last entry is before the block exactly if all are. *)
Lemma last_before l b : history_sorted l ->
  match last l with Some p => p.2 <? b | None => false end =
  bool_decide (l <> [] /\ l !! length (filter (fun p => p.2 < b) l) = None).
Proof.
  intros Hs. destruct (last l) as [p|] eqn:Hl; [|by apply last_None in Hl as ->].
  apply last_Some in Hl as [l' ->]. rewrite filter_app, filter_cons, filter_nil.
  destruct (Z.ltb_spec p.2 b) as [Hlt|Hge].
  - rewrite decide_True by done. symmetry. apply bool_decide_eq_true. split; [by destruct l'|].
    assert (Forall (fun q => q.2 < b) l') as Hall.
    { apply Forall_lookup. intros i q Hi. pose proof (lookup_lt_Some _ _ _ Hi). enough (q.2 < p.2) by lia.
      apply (StronglySorted_lookup _ (l' ++ [p]) i (length l') q p Hs); [done|by rewrite lookup_app_l|].
      by apply list_lookup_middle. }
    rewrite filter_id by done. by apply lookup_ge_None_2.
  - rewrite decide_False by lia. rewrite app_nil_r. symmetry. apply bool_decide_eq_false. intros [_ Hn].
    apply lookup_ge_None_1 in Hn. rewrite length_app in Hn. simpl in Hn. pose proof (length_filter (fun q : Z * Z => q.2 < b) l'). lia.
Qed.
(** Looking up the history by binary search.  On a history whose block
    numbers grow, [get_set_id] and [iter_from] never panic and return what a
    linear scan does: with [k] the number of sets that ended before the block,
    the [k]-th entry, or [Latest] past the last one; [iter_from] gives exactly
    the entries after the block.  A history that does not start with set 0
    gives [Unknown] or [None] before its first entry, and so does the empty
    history, although no data is missing from it.  When the ids are those of
    all the sets from 0 on, the id is [k] itself. *)
Theorem history_lookup_spec l b : history_sorted l ->
  let k := length (filter (fun p => p.2 < b) l) in
  let j := length (filter (fun p => p.2 <= b) l) in
  get_set_id (E := E) l b =
    Ok (match l !! k with
        | Some p => if bool_decide (k = 0%nat /\ p.1 <> 0) then Unknown else Set_ p.1 p.2
        | None => if decide (l = []) then Unknown else Latest
        end) /\
  iter_from (E := E) l b =
    Ok (match l !! j with
        | Some p => if bool_decide (j = 0%nat /\ p.1 <> 0) then None else Some (filter (fun p => b < p.2) l)
        | None => Some []
        end) /\
  (fst <$> l = seqZ 0 (Z.of_nat (length l)) ->
   get_set_id (E := E) l b =
     Ok (match l !! k with
         | Some p => Set_ (Z.of_nat k) p.2
         | None => if decide (l = []) then Unknown else Latest
         end)).
Proof.
  intros Hs k j. pose proof (search_block_after l b Hs) as Hj. fold j in Hj. cbv zeta in Hj. destruct Hj as (Hf & Hjl & Hj).
  assert (get_set_id (E := E) l b =
    Ok (match l !! k with
        | Some p => if bool_decide (k = 0%nat /\ p.1 <> 0) then Unknown else Set_ p.1 p.2
        | None => if decide (l = []) then Unknown else Latest
        end)) as Hget.
  { unfold get_set_id. rewrite last_before by done. fold k. rewrite search_block_before by done. fold k.
    destruct (l !! k) as [p|] eqn:Hk.
    - rewrite bool_decide_false by naive_solver. cbn [mbind res_mbind]. pose proof (lookup_lt_Some _ _ _ Hk).
      replace (k <? length l)%nat with true by (symmetry; by apply Nat.ltb_lt). rewrite Hk. cbn [mbind res_mbind expect].
      by rewrite missing_eq; case_bool_decide.
    - destruct (decide (l = [])) as [->|Hne]; [done|]. by rewrite bool_decide_true. }
  split_and!; [done| |].
  - unfold iter_from. replace (match search_block l b with Ok n => Ok (S n) | Err b => Ok b | Panic => Panic end)
      with (Ok (E := E) j) by (destruct (search_block l b); [by rewrite Hj..|done]).
    cbn [mbind res_mbind]. replace (j <=? length l)%nat with true by (symmetry; by apply Nat.leb_le).
    destruct (l !! j) as [p|] eqn:Hp.
    + replace (j <? length l)%nat with true by (symmetry; apply Nat.ltb_lt; by eapply lookup_lt_Some).
      cbn [mbind res_mbind expect]. rewrite missing_eq. case_bool_decide; [done|]. do 2 f_equal. rewrite <-Hf.
      apply list_filter_iff. intros. lia.
    + apply lookup_ge_None_1 in Hp. replace (j <? length l)%nat with false by (symmetry; by apply Nat.ltb_ge).
      cbn [mbind res_mbind]. by rewrite drop_ge.
  - intros Hids. rewrite Hget. destruct (l !! k) as [p|] eqn:Hk; [|done].
    assert (p.1 = Z.of_nat k) as Hid.
    { apply (f_equal (.!! k)) in Hids. rewrite list_lookup_fmap, Hk, lookup_seqZ_lt in Hids by (apply lookup_lt_Some in Hk; lia).
      simpl in Hids. injection Hids as ->. lia. }
    rewrite Hid, bool_decide_false by lia. done.
Qed.
End history_spec.

(** ** The invariant *)
Section spec.
Context {OC : OverflowChecks} {H Id E : Type} `{EqDecision H}.
Context (number_add : Z -> Z -> Z).
Context (is_descendent_of : H -> H -> res E bool) {A : Ancestry is_descendent_of}.

Abbreviation Pending := (PendingChange H Id).
Abbreviation Auth := (AuthoritySet H Id).
Abbreviation effective_number := (effective_number number_add).
Abbreviation forced_key := (forced_key number_add).
Implicit Types (s : Auth) (c : Pending) (h : H) (l : list Pending) (k : Z).

Lemma own_descends_desc a b : descends is_descendent_of a b = Ok (desc a b).
Proof. unfold descends. by rewrite is_descendent_of_desc. Qed.

(** A change as the block import builds it: valid authorities, and the number
    of the block that announced it. *)
Definition valid_change c : Prop :=
  invalid_authority_list (next_authorities c) = false /\ canon_height c = num (canon_hash c).

Definition forced c : Prop := exists m, delay_kind c = Best m.

Definition key_le c c' : Prop := pair_compare (forced_key c) (forced_key c') <> Gt.

(** No two changes are on one branch. *)
Definition one_per_fork l : Prop :=
  NoDup (canon_hash <$> l) /\ forall c c', c ∈ l -> c' ∈ l -> desc (canon_hash c) (canon_hash c') = false.

Record ok s : Prop := mkOk {
  ok_current : invalid_authority_list (current_authorities s) = false;
  ok_tree : wf is_descendent_of (pending_standard_changes s);
  ok_standard : forall h k c, (h, k, c) ∈ items (roots (pending_standard_changes s)) ->
    h = canon_hash c /\ k = canon_height c /\ delay_kind c = Finalized /\ valid_change c;
  ok_forced : Forall (fun c => forced c /\ valid_change c) (pending_forced_changes s);
  ok_sorted : StronglySorted key_le (pending_forced_changes s);
  ok_fork : one_per_fork (pending_forced_changes s);
  ok_id : 0 <= set_id s;
  ok_history : fst <$> authority_set_changes s = seqZ 0 (set_id s) }.

(** *** Keys *)
Lemma pair_compare_spec p q :
  match pair_compare p q with
  | Eq => p = q
  | Lt => p.1 < q.1 \/ (p.1 = q.1 /\ p.2 < q.2)
  | Gt => q.1 < p.1 \/ (p.1 = q.1 /\ q.2 < p.2)
  end.
Proof.
  destruct p as [p1 p2], q as [q1 q2]. unfold pair_compare. simpl.
  destruct (Z.compare_spec p1 q1); [destruct (Z.compare_spec p2 q2)|..]; subst; auto.
Qed.

Lemma pair_compare_le p q : pair_compare p q <> Gt <-> p.1 < q.1 \/ (p.1 = q.1 /\ p.2 <= q.2).
Proof. pose proof (pair_compare_spec p q) as Hc. destruct (pair_compare p q); subst; split; intros; (done || lia). Qed.

Lemma forced_partitioned key l : StronglySorted key_le l ->
  partitioned (fun c => pair_compare (forced_key c) key) l.
Proof.
  apply StronglySorted_weaken. intros c c' Hle%pair_compare_le.
  pose proof (pair_compare_spec (forced_key c) key) as Hc. pose proof (pair_compare_spec (forced_key c') key) as Hc'.
  destruct (pair_compare (forced_key c) key), (pair_compare (forced_key c') key); simpl; split; intros; (done || (exfalso; subst; simpl in *; lia)).
Qed.

(** The index found keeps the order when the change is inserted there. *)
Lemma forced_insert c l : StronglySorted key_le l ->
  exists i, search_index (E := Error E) (binary_search_by (fun c' => pair_compare (forced_key c') (forced_key c)) l) = Ok i /\
    (i <= length l)%nat /\ StronglySorted key_le (take i l ++ c :: drop i l).
Proof.
  intros Hs. pose proof (binary_search_by_spec _ l (forced_partitioned (forced_key c) l Hs)) as Hb.
  destruct (binary_search_by _ l) as [i|i|]; [| |done]; exists i; (split; [done|]).
  - destruct Hb as (c' & Hi & Heq). pose proof (pair_compare_spec (forced_key c') (forced_key c)) as Hk. rewrite Heq in Hk.
    pose proof (lookup_lt_Some _ _ _ Hi). split; [lia|]. apply StronglySorted_insert; [done| |]; apply Forall_lookup; intros j x Hx.
    + apply lookup_take_Some in Hx as [Hx Hj]. unfold key_le. rewrite <-Hk.
      by apply (StronglySorted_lookup key_le l j i x c').
    + rewrite lookup_drop in Hx. unfold key_le. rewrite <-Hk. destruct j as [|j].
      * rewrite Nat.add_0_r in Hx. simplify_eq. apply pair_compare_le. lia.
      * by apply (StronglySorted_lookup key_le l i (i + S j) c' x Hs ltac:(lia)).
  - destruct Hb as (Hi & Ht & Hd). split; [done|]. apply StronglySorted_insert; [done|..].
    + eapply Forall_impl; [exact Ht|]. unfold key_le. simpl. intros x ->. done.
    + eapply Forall_impl; [exact Hd|]. intros x Hx. apply pair_compare_le.
      pose proof (pair_compare_spec (forced_key x) (forced_key c)) as Hk. rewrite Hx in Hk. lia.
Qed.
(** *** Adding changes *)
Lemma one_per_fork_cons c l : one_per_fork (c :: l) ->
  one_per_fork l /\ forall c', c' ∈ l -> canon_hash c' <> canon_hash c /\ desc (canon_hash c) (canon_hash c') = false.
Proof.
  intros [Hnd Hd]. csimpl in Hnd. apply NoDup_cons in Hnd as [Hni Hnd]. split; [split; [done|]|].
  - intros c' c'' Hc' Hc''. apply Hd; by right.
  - intros c' Hc'. split; [|apply Hd; [left|by right]]. intros Heq. apply Hni. rewrite <-Heq. by apply list_elem_of_fmap_2.
Qed.

Lemma check_forced_run c l : one_per_fork l ->
  check_forced is_descendent_of c l =
    if decide (canon_hash c ∈ canon_hash <$> l) then Err DuplicateAuthoritySetChange
    else if existsb (fun c' => desc (canon_hash c') (canon_hash c)) l then Err MultiplePendingForcedAuthoritySetChanges
    else Ok tt.
Proof.
  induction l as [|c' l IH]; intros Hf; [done|]. apply one_per_fork_cons in Hf as [Hf Hc']. cbn [check_forced existsb].
  rewrite fmap_cons. destruct (decide (canon_hash c' = canon_hash c)) as [Heq|Hne].
  - rewrite decide_True; [done|]. rewrite Heq. left.
  - rewrite own_descends_desc. cbn [mbind res_mbind]. destruct (desc (canon_hash c') (canon_hash c)) eqn:Hd; cbn [orb].
    + rewrite decide_False; [done|]. intros [?|(c'' & Heq & Hin)%list_elem_of_fmap]%elem_of_cons; [done|].
      destruct (Hc' c'' Hin) as [_ Hno]. rewrite Heq in Hd. congruence.
    + rewrite IH by done. destruct (decide (canon_hash c ∈ canon_hash <$> l)).
      * rewrite decide_True; [done|]. by right.
      * rewrite decide_False; [done|]. rewrite elem_of_cons. naive_solver.
Qed.

Lemma one_per_fork_insert c l i : one_per_fork l -> (canon_hash c ∉ canon_hash <$> l) ->
  (forall c', c' ∈ l -> desc (canon_hash c') (canon_hash c) = false /\ desc (canon_hash c) (canon_hash c') = false) ->
  one_per_fork (take i l ++ c :: drop i l).
Proof.
  intros [Hnd Hd] Hni Hc. assert (take i l ++ c :: drop i l ≡ₚ c :: l) as Hp.
  { rewrite <-Permutation_middle. by rewrite take_drop. }
  split; [by rewrite Hp; csimpl; constructor|]. setoid_rewrite Hp. setoid_rewrite elem_of_cons.
  intros c1 c2 [->|H1] [->|H2]; [apply desc_irrefl|by apply Hc..|by apply Hd].
Qed.

(** Changes of one branch are added in order, as the source assumes. *)
Definition in_order s c : Prop :=
  match delay_kind c with
  | Finalized => forall y, y ∈ hashes (roots (pending_standard_changes s)) -> desc (canon_hash c) y = false
  | Best _ => forall c', c' ∈ pending_forced_changes s -> desc (canon_hash c) (canon_hash c') = false
  end.

(** What [add_pending_change] reports. *)
Definition add_error s c : option (Error E) :=
  if invalid_authority_list (next_authorities c) then Some InvalidAuthoritySet
  else match delay_kind c with
  | Finalized =>
    if reverts (pending_standard_changes s) (canon_height c) then Some (ForkTreeError Revert)
    else if decide (canon_hash c ∈ hashes (roots (pending_standard_changes s))) then Some DuplicateAuthoritySetChange
    else None
  | Best _ =>
    if decide (canon_hash c ∈ canon_hash <$> pending_forced_changes s) then Some DuplicateAuthoritySetChange
    else if existsb (fun c' => desc (canon_hash c') (canon_hash c)) (pending_forced_changes s)
    then Some MultiplePendingForcedAuthoritySetChanges
    else None
  end.

Lemma pending_changes_items s :
  pending_changes s = ((fun x => x.2) <$> items (roots (pending_standard_changes s))) ++ pending_forced_changes s.
Proof. unfold pending_changes, ForkTree.iter, node_iter. by rewrite iter_collect_preorder. Qed.

Lemma add_standard_run s c : ok s -> valid_change c -> in_order s c -> delay_kind c = Finalized ->
  if reverts (pending_standard_changes s) (canon_height c)
  then add_standard_change is_descendent_of c s = (s, Err (ForkTreeError Revert))
  else if decide (canon_hash c ∈ hashes (roots (pending_standard_changes s)))
  then add_standard_change is_descendent_of c s = (s, Err DuplicateAuthoritySetChange)
  else exists s', add_standard_change is_descendent_of c s = (s', Ok tt) /\ ok s' /\
    pending_changes s' ≡ₚ c :: pending_changes s /\ current s' = current s.
Proof.
  intros Hok [Hv Hk] Hord Hkind. unfold in_order in Hord. rewrite Hkind in Hord.
  pose proof (import_run is_descendent_of (pending_standard_changes s) (canon_hash c) (canon_height c) c (ok_tree s Hok) Hk Hord) as Hrun.
  unfold add_standard_change, on_tree, mbind, M_mbind. destruct (reverts _ _); [rewrite Hrun; by destruct s|].
  destruct (decide _); [rewrite Hrun; by destruct s|]. destruct Hrun as (t' & r & -> & Hw & _ & _ & Hi & _).
  eexists. split; [done|]. split_and!; [|rewrite !pending_changes_items; simpl; by rewrite Hi|done].
  destruct Hok. constructor; simpl; [done..| |done|done|done|done|done].
  intros h k c'. rewrite Hi. rewrite elem_of_cons. intros [[= -> -> ->]|Hin]; [done|eauto].
Qed.

Lemma add_forced_run s c : ok s -> valid_change c -> in_order s c -> forced c ->
  if decide (canon_hash c ∈ canon_hash <$> pending_forced_changes s)
  then add_forced_change number_add is_descendent_of c s = (s, Err DuplicateAuthoritySetChange)
  else if existsb (fun c' => desc (canon_hash c') (canon_hash c)) (pending_forced_changes s)
  then add_forced_change number_add is_descendent_of c s = (s, Err MultiplePendingForcedAuthoritySetChanges)
  else exists s', add_forced_change number_add is_descendent_of c s = (s', Ok tt) /\ ok s' /\
    pending_changes s' ≡ₚ c :: pending_changes s /\ current s' = current s.
Proof.
  intros Hok Hv Hord [m Hkind]. unfold in_order in Hord. rewrite Hkind in Hord.
  unfold add_forced_change, mbind, M_mbind, gets, lift. rewrite check_forced_run by apply Hok.
  destruct (decide _) as [|Hni]; [done|]. destruct (existsb _ _) eqn:Hex; [done|].
  destruct (forced_insert c (pending_forced_changes s) (ok_sorted s Hok)) as (i & -> & Hi & Hs).
  unfold vec_insert. replace (i <=? length _)%nat with true by (symmetry; by apply Nat.leb_le).
  eexists. split; [done|]. assert (forall c', c' ∈ pending_forced_changes s -> desc (canon_hash c') (canon_hash c) = false) as Hno.
  { intros c' Hc'. destruct (desc (canon_hash c') (canon_hash c)) eqn:Hd; [|done]. rewrite <-Hex. symmetry.
    apply existsb_exists. exists c'. by rewrite <-list_elem_of_In. }
  split_and!; [|rewrite !pending_changes_items; simpl; by rewrite <-Permutation_middle, take_drop, Permutation_middle|done].
  destruct Hok. constructor; simpl; [done..| |done| |done|done].
  - rewrite <-Permutation_middle, take_drop. constructor; [by split; [exists m|]|done].
  - apply one_per_fork_insert; [done..|]. auto.
Qed.

Lemma add_pending_change_run s c : ok s -> canon_height c = num (canon_hash c) -> in_order s c ->
  match add_error s c with
  | Some e => add_pending_change number_add is_descendent_of c s = (s, Err e)
  | None => exists s', add_pending_change number_add is_descendent_of c s = (s', Ok tt) /\ ok s' /\
      pending_changes s' ≡ₚ c :: pending_changes s /\ current s' = current s
  end.
Proof.
  intros Hok Hk Hord. unfold add_error, add_pending_change. destruct (invalid_authority_list _) eqn:Hv; [done|].
  destruct (delay_kind c) as [|m] eqn:Hkind.
  - pose proof (add_standard_run s c Hok (conj Hv Hk) Hord Hkind) as Hrun. repeat case_match; done.
  - pose proof (add_forced_run s c Hok (conj Hv Hk) Hord (ex_intro _ m Hkind)) as Hrun. repeat case_match; done.
Qed.

(** *** Finality *)
Definition kept_forced h k l : list Pending :=
  filter (fun c => k < effective_number c /\ desc h (canon_hash c) = true) l.

Lemma keep_forced_run h k l kept :
  keep_forced number_add is_descendent_of h k l kept = (kept ++ kept_forced h k l, Ok tt).
Proof.
  revert kept. induction l as [|c l IH]; intros kept; [by rewrite app_nil_r|]. unfold kept_forced.
  cbn [keep_forced]. rewrite own_descends_desc, filter_cons. destruct (Z.ltb_spec k (effective_number c)).
  - destruct (desc h (canon_hash c)) eqn:Hd.
    + rewrite decide_True by done. rewrite IH, <-app_assoc. done.
    + rewrite decide_False by naive_solver. apply IH.
  - rewrite decide_False by lia. apply IH.
Qed.

Lemma history_append id k (history : AuthoritySetChanges) : 0 <= id ->
  fst <$> history = seqZ 0 id -> fst <$> history ++ [(id, k)] = seqZ 0 (id + 1).
Proof. intros Hid Hh. by rewrite fmap_app, Hh, seqZ_app by lia. Qed.

(** The tree may lose nodes and the forced changes may be filtered. *)
Lemma ok_shrink s authorities id t l history : ok s ->
  invalid_authority_list authorities = false -> wf is_descendent_of t ->
  (forall x, x ∈ items (roots t) -> x ∈ items (roots (pending_standard_changes s))) ->
  (l = pending_forced_changes s \/ exists h k, l = kept_forced h k (pending_forced_changes s)) ->
  0 <= id -> fst <$> history = seqZ 0 id ->
  ok (mkSet authorities id t l history).
Proof.
  intros Hok Ha Hw Hi Hl Hid Hh. assert (Hsub : l `sublist_of` pending_forced_changes s).
  { destruct Hl as [->|(h & k & ->)]; [done|apply sublist_filter]. }
  destruct Hok as [_ _ Hst Hf Hs [Hnd Hd] _ _]. constructor; simpl; [done..| | | | |done|done].
  - eauto.
  - rewrite Forall_forall in *. intros c Hc. apply Hf. by eapply elem_of_sublist.
  - destruct Hl as [->|(h & k & ->)]; [done|by apply StronglySorted_filter].
  - assert (forall c, c ∈ l -> c ∈ pending_forced_changes s) as Hin by (intros c Hc; by eapply elem_of_sublist).
    split; [|auto]. eapply sublist_NoDup; [done|by apply fmap_sublist].
Qed.

Lemma items_children n ns (x : H * Z * Pending) : n ∈ ns -> x ∈ items (children n) -> x ∈ items ns.
Proof.
  intros Hn (y & -> & (c & Hc & Hy)%elem_of_forest_nodes)%list_elem_of_fmap. apply list_elem_of_fmap_2.
  apply elem_of_forest_nodes. exists n. split; [done|]. rewrite node_nodes_eq. right. apply elem_of_forest_nodes. eauto.
Qed.

Lemma items_filter_sub (P : Node H Pending -> Prop) `{!forall n, Decision (P n)} ns x : x ∈ items (filter P ns) -> x ∈ items ns.
Proof.
  intros (y & -> & (c & [_ Hc]%list_elem_of_filter & Hy)%elem_of_forest_nodes)%list_elem_of_fmap.
  apply list_elem_of_fmap_2, elem_of_forest_nodes. eauto.
Qed.

(** A root on the branch of the finalized block whose change is due. *)
Definition due h k (n : Node H Pending) : Prop :=
  effective_number (data n) <= k /\ on_branch is_descendent_of h (hash n) = true.

Definition standard_run s h k := apply_standard_changes number_add is_descendent_of h k s.

Lemma on_tree_run {B} (m : M (ForkTree H Pending) (ForkTree.Error E) B) (f : B -> M Auth (Error E) (Status H)) s t r :
  m (pending_standard_changes s) = (t, Ok r) ->
  (on_tree from_fork_tree m ≫= f) s = f r (mkSet (current_authorities s) (set_id s) t (pending_forced_changes s) (authority_set_changes s)).
Proof. intros Hm. unfold mbind, M_mbind, on_tree. by rewrite Hm. Qed.

Lemma on_tree_err {B} (m : M (ForkTree H Pending) (ForkTree.Error E) B) (f : B -> M Auth (Error E) (Status H)) s e :
  m (pending_standard_changes s) = (pending_standard_changes s, Err e) ->
  (on_tree from_fork_tree m ≫= f) s = (s, Err (from_fork_tree e)).
Proof. intros Hm. unfold mbind, M_mbind, on_tree. rewrite Hm. by destruct s. Qed.

Lemma apply_standard_reverts s h k : reverts (pending_standard_changes s) k = true ->
  standard_run s h k = (s, Err (ForkTreeError Revert)).
Proof.
  intros Hr. unfold standard_run, apply_standard_changes. rewrite (on_tree_err _ _ s Revert); [done|].
  unfold finalize_with_descendent_if, mbind, M_mbind. rewrite check_revert_eq, Hr. done.
Qed.

Lemma apply_standard_due s h k n : ok s -> k = num h -> reverts (pending_standard_changes s) k = false ->
  n ∈ roots (pending_standard_changes s) -> due h k n ->
  if existsb (fun n => desc (hash n) h) (children n)
  then standard_run s h k = (s, Err (ForkTreeError UnfinalizedAncestor))
  else let ns' := filter (fun n => related is_descendent_of h n = true) (children n) in
    let s' := mkSet (next_authorities (data n)) (set_id s + 1) (mkForkTree ns' (Some k))
                (kept_forced h k (pending_forced_changes s)) (authority_set_changes s ++ [(set_id s, k)]) in
    set_id s + 1 < 2 ^ 64 -> standard_run s h k = (s', Ok (mkStatus true (Some (h, k)))) /\ ok s'.
Proof.
  intros Hok Hk Hr Hn [Hle Hb].
  destruct (finalize_with_descendent_if_run is_descendent_of (fun c => effective_number c <=? k) _ h k (ok_tree s Hok) Hk Hr) as [Hf _].
  specialize (Hf n Hn). unfold candidate_root in Hf. rewrite Hb in Hf.
  specialize (Hf ltac:(rewrite andb_true_r; by apply Z.leb_le)).
  destruct (existsb _ _); [by unfold standard_run, apply_standard_changes; rewrite (on_tree_err _ _ s UnfinalizedAncestor)|].
  destruct Hf as [Hf Hwf]. intros ns' s' Hid. unfold standard_run, apply_standard_changes.
  pose proof (ok_id s Hok) as Hid0. split.
  - erewrite on_tree_run by exact Hf. cbn iota. erewrite bind_Ok by reflexivity. cbn [pending_forced_changes].
    rewrite keep_forced_run. cbn iota zeta. unfold mbind, M_mbind, lift. cbn. rewrite uadd_ok by (unfold is_u; lia). done.
  - apply (ok_shrink s); [done| |done| |right; by exists h, k|lia|].
    + apply (ok_standard s Hok (hash n) (number n) (data n)). apply list_elem_of_fmap. exists n. split; [done|].
      apply elem_of_forest_nodes. exists n. split; [done|]. rewrite node_nodes_eq. left.
    + intros x Hx%items_filter_sub. by eapply items_children.
    + by apply history_append, Hok.
Qed.

Lemma apply_standard_none s h k : ok s -> k = num h -> reverts (pending_standard_changes s) k = false ->
  (forall n, n ∈ roots (pending_standard_changes s) -> ~ due h k n) ->
  let ns := roots (pending_standard_changes s) in
  let ch := existsb (fun n => negb (related is_descendent_of h n)) ns in
  let s' := mkSet (current_authorities s) (set_id s)
              (mkForkTree (filter (fun n => related is_descendent_of h n = true) ns) (Some k))
              (if ch then kept_forced h k (pending_forced_changes s) else pending_forced_changes s)
              (authority_set_changes s) in
  standard_run s h k = (s', Ok (mkStatus ch None)) /\ ok s'.
Proof.
  intros Hok Hk Hr Hno ns ch s'.
  destruct (finalize_with_descendent_if_run is_descendent_of (fun c => effective_number c <=? k) _ h k (ok_tree s Hok) Hk Hr) as [_ Hf].
  destruct Hf as [Hf Hwf].
  { intros n Hn. specialize (Hno n Hn). unfold candidate_root, due in *. destruct (on_branch _ _ _); [|by rewrite andb_false_r].
    rewrite andb_true_r. apply Z.leb_gt. destruct (Z.lt_ge_cases k (effective_number (data n))); [done|naive_solver]. }
  unfold standard_run, apply_standard_changes. split.
  - erewrite on_tree_run by exact Hf. unfold s', ch, ns. destruct (existsb _ _); cbn [changed_or_not]; [|done].
    erewrite bind_Ok by reflexivity. cbn [pending_forced_changes]. by rewrite keep_forced_run.
  - apply (ok_shrink s); [done|apply Hok|done|intros x; apply items_filter_sub| |apply Hok|apply Hok].
    destruct ch; [right; by exists h, k|by left].
Qed.

Lemma wf_root_eq ns n n' : wf_forest is_descendent_of ns -> n ∈ ns -> n' ∈ forest_nodes ns ->
  hash n' = hash n -> n' = n :> Node H Pending.
Proof.
  intros Hw Hn Hn' Heq. assert (n ∈ forest_nodes ns) as Hn2.
  { apply elem_of_forest_nodes. exists n. split; [done|]. rewrite node_nodes_eq. left. }
  apply list_elem_of_lookup in Hn' as [j Hj], Hn2 as [j' Hj'].
  assert (j = j') as <-; [|congruence].
  eapply NoDup_lookup; [apply (wf_forest_NoDup _ _ Hw)|..]; unfold hashes; rewrite list_lookup_fmap.
  - rewrite Hj. simpl. by rewrite Heq.
  - by rewrite Hj'.
Qed.

(** If a change is announced to be enacted, it is that of a due root none of
    whose children stands between it and the finalized block. *)
Lemma enacts_true s h k : ok s -> k = num h ->
  enacts_standard_change number_add is_descendent_of s h k = Ok (Some true) ->
  reverts (pending_standard_changes s) k = false /\
  exists n, n ∈ roots (pending_standard_changes s) /\ effective_number (data n) = k /\ due h k n /\
    existsb (fun n => desc (hash n) h) (children n) = false.
Proof.
  intros Hok Hk. pose proof (ok_tree s Hok) as Hw. set (t := pending_standard_changes s) in *.
  unfold enacts_standard_change, on_tree, finalizes_any_with_descendent_if, mbind, M_mbind. fold t.
  rewrite check_revert_eq. destruct (reverts t k) eqn:Hr; [done|]. unfold get, lift. cbn.
  unfold node_iter. rewrite iter_collect_preorder by done.
  destruct (find_first_spec is_descendent_of (fun c => effective_number c =? k) h k 0%nat (forest_nodes (roots t)))
    as [(j & n & Hj & Hc & ->)|[_ ->]]; [|done| |done].
  { intros n (n0 & Hn0 & Hn)%elem_of_forest_nodes. eapply wf_node_nodes; [by apply Hw|done]. }
  destruct (existsb (fun n => desc (hash n) h) (children n)) eqn:Hex; [done|]. cbn. intros [= Hroot].
  split; [done|]. apply existsb_exists in Hroot as (r & Hr' & Heq%bool_decide_eq_true). apply list_elem_of_In in Hr'.
  assert (n = r) as <- by (by apply (wf_root_eq (roots t)); [| |eapply list_elem_of_lookup_2|]).
  unfold candidate_root in Hc. apply andb_prop in Hc as [He%Z.eqb_eq Hb].
  exists n. split_and!; [done|done|split; [lia|done]|done].
Qed.

(** Finality.  [apply_standard_changes] of a block at or below the last
    finalized number is refused.  Otherwise, if a root of the pending changes
    is on the branch of the finalized block and due, it is the change that is
    enacted: its authorities become current, the set id grows by one, the
    history records the block as the last of the old set, of its children
    those related to the block remain pending, and of the forced changes those
    above the block; unless a child of it is an ancestor of the block, in which
    case nothing changes and the call fails with [UnfinalizedAncestor].  If no
    root is due the authorities stay, and the changes on abandoned forks are
    dropped.  The invariant is kept in every case.  When
    [enacts_standard_change] announces a change, the call enacts it. *)
Theorem apply_standard_changes_spec s h k : ok s -> k = num h -> set_id s + 1 < 2 ^ 64 ->
  let t := pending_standard_changes s in
  let run := apply_standard_changes number_add is_descendent_of h k s in
  (reverts t k = true -> run = (s, Err (ForkTreeError Revert))) /\
  (reverts t k = false ->
   (forall n, n ∈ roots t -> due h k n ->
      if existsb (fun n => desc (hash n) h) (children n)
      then run = (s, Err (ForkTreeError UnfinalizedAncestor))
      else let ns' := filter (fun n => related is_descendent_of h n = true) (children n) in
        let s' := mkSet (next_authorities (data n)) (set_id s + 1) (mkForkTree ns' (Some k))
                    (kept_forced h k (pending_forced_changes s)) (authority_set_changes s ++ [(set_id s, k)]) in
        run = (s', Ok (mkStatus true (Some (h, k)))) /\ ok s') /\
   ((forall n, n ∈ roots t -> ~ due h k n) ->
      let ch := existsb (fun n => negb (related is_descendent_of h n)) (roots t) in
      let s' := mkSet (current_authorities s) (set_id s)
                  (mkForkTree (filter (fun n => related is_descendent_of h n = true) (roots t)) (Some k))
                  (if ch then kept_forced h k (pending_forced_changes s) else pending_forced_changes s)
                  (authority_set_changes s) in
      run = (s', Ok (mkStatus ch None)) /\ ok s')) /\
  (enacts_standard_change number_add is_descendent_of s h k = Ok (Some true) ->
   exists n, n ∈ roots t /\ effective_number (data n) = k /\
     run.2 = Ok (mkStatus true (Some (h, k))) /\ current run.1 = (set_id s + 1, next_authorities (data n))).
Proof.
  intros Hok Hk Hid t run. split_and!.
  - apply apply_standard_reverts.
  - intros Hr. split.
    + intros n Hn Hd. pose proof (apply_standard_due s h k n Hok Hk Hr Hn Hd) as Hrun.
      destruct (existsb _ _); [done|]. by apply Hrun.
    + by apply apply_standard_none.
  - intros (Hr & n & Hn & He & Hd & Hex)%enacts_true; [|done..]. exists n. split_and!; [done..| |];
      pose proof (apply_standard_due s h k n Hok Hk Hr Hn Hd) as Hrun; rewrite Hex in Hrun;
      destruct (Hrun Hid) as [Hr' _]; unfold run; unfold standard_run in Hr'; by rewrite Hr'.
Qed.

(** *** Forced changes *)
Definition blocks m c c' : bool := (effective_number c' <=? m) && desc (canon_hash c') (canon_hash c).

Lemma check_dependencies_run m c l :
  check_dependencies number_add is_descendent_of m c l =
    match filter (blocks m c) l with
    | [] => Ok tt
    | c' :: _ => Err (ForcedAuthoritySetChangeDependencyUnsatisfied (effective_number c'))
    end.
Proof.
  induction l as [|c' l IH]; [done|]. cbn [check_dependencies]. rewrite own_descends_desc, filter_cons.
  replace (if effective_number c' <=? m then Ok (desc (canon_hash c') (canon_hash c)) else Ok false)
    with (Ok (E := Error E) (blocks m c c')) by (unfold blocks; by destruct (_ <=? _)).
  cbn [mbind res_mbind]. destruct (decide (blocks m c c')) as [Hb%Is_true_true_1|Hb%Is_true_false_1]; by rewrite Hb.
Qed.

Lemma one_per_fork_unique l h c c' : one_per_fork l -> c ∈ l -> c' ∈ l ->
  on_branch is_descendent_of h (canon_hash c) = true -> on_branch is_descendent_of h (canon_hash c') = true -> c = c'.
Proof.
  intros [Hnd Hd] Hc Hc' Hb Hb'. assert (canon_hash c = canon_hash c') as Heq.
  { pose proof (Hd c c' Hc Hc'). pose proof (Hd c' c Hc' Hc). unfold on_branch in *.
    apply orb_prop in Hb as [Hb%bool_decide_eq_true|Hb], Hb' as [Hb'%bool_decide_eq_true|Hb']; try congruence.
    destruct (desc_chain _ _ _ Hb Hb') as [?|[?|?]]; congruence. }
  apply list_elem_of_lookup in Hc as [i Hi], Hc' as [j Hj].
  assert (i = j) as <-; [|congruence]. eapply NoDup_lookup; [exact Hnd|..]; rewrite list_lookup_fmap.
  - by rewrite Hi.
  - rewrite Hj. simpl. by rewrite Heq.
Qed.

Lemma force_first_run s h l :
  force_first number_add is_descendent_of s h l =
    match filter (fun c => on_branch is_descendent_of h (canon_hash c) = true) l with
    | [] => Ok None
    | c :: _ => Some <$> force_change number_add is_descendent_of s c
    end.
Proof.
  induction l as [|c l IH]; [done|]. cbn [force_first]. rewrite own_descends_desc, filter_cons.
  replace (if bool_decide (canon_hash c = h) then Ok true else Ok (desc (canon_hash c) h))
    with (Ok (E := Error E) (on_branch is_descendent_of h (canon_hash c))) by (unfold on_branch; by case_bool_decide).
  cbn [mbind res_mbind]. by destruct (on_branch _ _ _).
Qed.

(** On the sorted vector, stopping at the first later change misses nothing. *)
Lemma forced_at s k : ok s ->
  filter (fun c => effective_number c = k)
    (take_while (fun c => effective_number c <=? k) (pending_forced_changes s)) =
  filter (fun c => effective_number c = k) (pending_forced_changes s).
Proof.
  intros Hok. apply filter_take_while; [|intros; lia]. eapply StronglySorted_weaken; [|apply (ok_sorted s Hok)].
  intros c c' Hle%pair_compare_le. unfold Authorities.forced_key in Hle. simpl in Hle. lia.
Qed.

Definition forced_run s h k := apply_forced_changes number_add is_descendent_of s h k.

Lemma forced_run_eq s h k : ok s ->
  forced_run s h k =
    match filter (fun c => effective_number c = k /\ on_branch is_descendent_of h (canon_hash c) = true)
            (pending_forced_changes s) with
    | [] => Ok None
    | c :: _ => Some <$> force_change number_add is_descendent_of s c
    end.
Proof.
  intros Hok. unfold forced_run, apply_forced_changes. rewrite forced_at, force_first_run, list_filter_filter by done.
  erewrite list_filter_iff; [reflexivity|]. simpl. intros. tauto.
Qed.

Lemma ok_forced_set s c m : ok s -> c ∈ pending_forced_changes s ->
  ok (mkSet (next_authorities c) (set_id s + 1) ForkTree_new [] (authority_set_changes s ++ [(set_id s, m)])).
Proof.
  intros Hok Hc. pose proof (ok_id s Hok). destruct (proj1 (Forall_forall _ _) (ok_forced s Hok) c Hc) as [_ [Hv _]].
  constructor; simpl; [done| | |constructor|constructor| |lia|by apply history_append, Hok].
  - split; [by intros n ?%not_elem_of_nil|]. split; [constructor|]. by intros n n' ?%not_elem_of_nil.
  - by intros h k c' ?%not_elem_of_nil.
  - split; [constructor|]. by intros c1 c2 ?%not_elem_of_nil.
Qed.

Lemma apply_forced_due s h k c : ok s -> set_id s + 1 < 2 ^ 64 ->
  c ∈ pending_forced_changes s -> effective_number c = k -> on_branch is_descendent_of h (canon_hash c) = true ->
  exists m, delay_kind c = Best m /\
    match filter (blocks m c) (data <$> roots (pending_standard_changes s)) with
    | c' :: _ => forced_run s h k = Err (ForcedAuthoritySetChangeDependencyUnsatisfied (effective_number c'))
    | [] => forced_run s h k = Ok (Some (m, mkSet (next_authorities c) (set_id s + 1) ForkTree_new []
                                            (authority_set_changes s ++ [(set_id s, m)])))
    end.
Proof.
  intros Hok Hid Hc He Hb. destruct (proj1 (Forall_forall _ _) (ok_forced s Hok) c Hc) as [[m Hm] _]. exists m. split; [done|].
  rewrite forced_run_eq by done.
  destruct (filter _ (pending_forced_changes s)) as [|c0 l] eqn:Hf.
  { exfalso. apply (not_elem_of_nil c). rewrite <-Hf. by apply list_elem_of_filter. }
  assert (c0 ∈ c0 :: l) as Hc0 by left. rewrite <-Hf in Hc0. apply list_elem_of_filter in Hc0 as [[_ Hb0] Hc0].
  assert (c0 = c) as -> by (by eapply (one_per_fork_unique (pending_forced_changes s) h); [apply Hok|..]).
  unfold force_change. rewrite Hm. cbn [mbind res_mbind]. rewrite check_dependencies_run.
  destruct (filter (blocks m c) _); [|done]. cbn [mbind res_mbind]. pose proof (ok_id s Hok).
  by rewrite uadd_ok by (unfold is_u; lia).
Qed.

(** ** Executions *)
Inductive op : Type :=
| AddPendingChange (pending : Pending)
| FinalizedBlock (finalized_hash : H) (finalized_number : Z)
| BestBlock (best_hash : H) (best_number : Z).

(** What block import and finality do with the set: a forced change replaces
    it. *)
Definition exec (o : op) : M Auth (Error E) unit :=
  match o with
  | AddPendingChange pending => add_pending_change number_add is_descendent_of pending
  | FinalizedBlock h k => _ ← apply_standard_changes number_add is_descendent_of h k; mret tt
  | BestBlock h k =>
    self ← get;
    r ← lift (apply_forced_changes number_add is_descendent_of self h k);
    match r with Some (_, new_set) => modify (fun _ => new_set) | None => mret tt end
  end.

(** Blocks come with their numbers, the changes of a branch in order, and fewer
    than 2^64 - 1 changes have been enacted. *)
Definition legal s (o : op) : Prop :=
  set_id s + 1 < 2 ^ 64 /\
  match o with
  | AddPendingChange c => canon_height c = num (canon_hash c) /\ in_order s c
  | FinalizedBlock h k => k = num h
  | BestBlock h k => k = num h
  end.

Inductive reachable : Auth -> Prop :=
| reachable_genesis initial s : genesis initial = Some s -> reachable s
| reachable_step s o : reachable s -> legal s o -> reachable (exec o s).1.

Definition step_ok s (r : Auth * res (Error E) unit) : Prop :=
  match r.2 with
  | Ok _ => ok r.1 /\ set_id s <= set_id r.1 <= set_id s + 1
  | Err _ => r.1 = s
  | Panic => False
  end.

Lemma genesis_ok initial s : genesis initial = Some s -> ok s.
Proof.
  unfold genesis. destruct (invalid_authority_list initial) eqn:Hv; [done|]. intros [= <-].
  constructor; simpl; [done| | |constructor|constructor| |lia|done].
  - split; [by intros n ?%not_elem_of_nil|]. split; [constructor|]. by intros n n' ?%not_elem_of_nil.
  - by intros h k c' ?%not_elem_of_nil.
  - split; [constructor|]. by intros c1 c2 ?%not_elem_of_nil.
Qed.

Lemma due_dec h k (ns : list (Node H Pending)) :
  (exists n, n ∈ ns /\ due h k n) \/ (forall n, n ∈ ns -> ~ due h k n).
Proof.
  destruct (decide (Exists (due h k) ns)) as [He|Hne].
  - left. by apply Exists_exists in He.
  - right. intros n Hn Hd. apply Hne, Exists_exists. eauto.
Qed.

Lemma finalized_step s h k : ok s -> k = num h -> set_id s + 1 < 2 ^ 64 -> step_ok s (exec (FinalizedBlock h k) s).
Proof.
  intros Hok Hk Hid. cbn [exec]. destruct (reverts (pending_standard_changes s) k) eqn:Hr.
  { by rewrite (bind_Err _ _ _ _ _ (apply_standard_reverts s h k Hr)). }
  destruct (due_dec h k (roots (pending_standard_changes s))) as [(n & Hn & Hd)|Hno].
  - pose proof (apply_standard_due s h k n Hok Hk Hr Hn Hd) as Hrun. destruct (existsb _ _).
    + by rewrite (bind_Err _ _ _ _ _ Hrun).
    + destruct (Hrun Hid) as [Hrun' Hok']. rewrite (bind_Ok _ _ _ _ _ Hrun'). split; [done|]. simpl. lia.
  - destruct (apply_standard_none s h k Hok Hk Hr Hno) as [Hrun Hok']. rewrite (bind_Ok _ _ _ _ _ Hrun).
    split; [done|]. simpl. lia.
Qed.

Lemma best_step s h k : ok s -> set_id s + 1 < 2 ^ 64 -> step_ok s (exec (BestBlock h k) s).
Proof.
  intros Hok Hid. unfold exec, mbind, M_mbind, get, lift. fold (forced_run s h k).
  destruct (decide (Exists (fun c => effective_number c = k /\ on_branch is_descendent_of h (canon_hash c) = true)
    (pending_forced_changes s))) as [(c & Hc & He & Hb)%Exists_exists|Hno].
  - destruct (apply_forced_due s h k c Hok Hid Hc He Hb) as (m & _ & Hrun). destruct (filter _ _); rewrite Hrun; [|done].
    split; [by apply ok_forced_set|]. simpl. lia.
  - rewrite forced_run_eq by done. rewrite filter_none; [split; [done|simpl; lia]|].
    apply Forall_forall. intros c Hc Hcb. apply Hno, Exists_exists. eauto.
Qed.

Lemma exec_step s o : ok s -> legal s o -> step_ok s (exec o s).
Proof.
  intros Hok [Hid Hl]. destruct o as [c|h k|h k]; [|by apply finalized_step|by apply best_step].
  destruct Hl as [Hk Hord]. pose proof (add_pending_change_run s c Hok Hk Hord) as Hrun. cbn [exec].
  destruct (add_error s c); [by rewrite Hrun|]. destruct Hrun as (s' & -> & Hok' & _ & Hcur).
  split; [done|]. unfold current in Hcur. injection Hcur as Hid' _. simpl. lia.
Qed.

Lemma reachable_ok s : reachable s -> ok s.
Proof.
  induction 1 as [initial s Hg|s o _ IH Hl]; [by eapply genesis_ok|].
  pose proof (exec_step s o IH Hl) as Hs. unfold step_ok in Hs. destruct (exec o s) as [s' [a|e|]]; simpl in *; [apply Hs|by subst|done].
Qed.

(** C37. Safety of the authority set.  The executions are those from a genesis
    set in which changes are added, blocks become best and blocks are
    finalized, under these conditions: the client decides ancestry without
    errors and as a tree (an error in the middle of a finalization loses the
    pending changes, so it is excluded); each block comes with its number;
    the changes announced on one branch are added in order, as the
    documentation of [add_pending_change] assumes; and fewer than 2^64 - 1
    sets have been enacted.  Then the invariant holds: the current
    authorities and those of every pending change are non-empty with positive
    weights, the pending standard changes form the ancestry forest of the
    blocks that announced them, the forced changes are ordered and at most one
    per fork, and the history records every set from 0 to the one before the
    current.  No operation reaches an [unreachable!] or an index out of range,
    a failed operation changes nothing, and a successful one advances the set
    id by at most one.  Hence the handle that builds a voter set from the
    current authorities does not panic, provided that valid authorities whose
    weights sum below 2^64 make a voter set. *)
Theorem authority_set_safe s : reachable s ->
  ok s /\ (forall o, legal s o -> step_ok s (exec o s)) /\
  forall VS (voter_set_new : AuthorityList Id -> option VS),
    (forall ids : list (Id * Z), invalid_authority_list ids = false -> foldr Z.add 0 (snd <$> ids) < 2 ^ 64 ->
       is_Some (voter_set_new ids)) ->
    foldr Z.add 0 (snd <$> current_authorities s) < 2 ^ 64 ->
    exists v, shared_current_authorities (E := E) voter_set_new s = Ok v.
Proof.
  intros Hr. pose proof (reachable_ok s Hr) as Hok. split_and!; [done|intros o; by apply exec_step|].
  intros VS new Hnew Hsum. destruct (Hnew _ (ok_current s Hok) Hsum) as [v Hv]. exists v.
  unfold shared_current_authorities. by rewrite Hv.
Qed.

(** C38. Forced changes, of a set reached from genesis as in C37.  Two pending
    forced changes announced on the branch of a block, or on that block, are
    the same: there is at most one per fork, whatever their effective numbers.
    [apply_forced_changes] on a best block looks only at the front of the
    ordered vector, and finds what a search of all of it would: the change
    announced on the branch of the block and effective exactly at its number,
    and [None] if there is none.  If a root of the pending standard changes is
    on the branch of the announcing block and due at the median finalized
    block, the call fails and names its effective number; otherwise the new
    set has the authorities of the change, the next id, no pending changes,
    and a history that records the median block.  The new set is reached from
    genesis again, so that the same holds of it. *)
Theorem apply_forced_changes_spec s h : reachable s -> set_id s + 1 < 2 ^ 64 ->
  let run := apply_forced_changes number_add is_descendent_of s h (num h) in
  (forall c c', c ∈ pending_forced_changes s -> c' ∈ pending_forced_changes s ->
     on_branch is_descendent_of h (canon_hash c) = true -> on_branch is_descendent_of h (canon_hash c') = true -> c = c') /\
  (forall c, c ∈ pending_forced_changes s -> effective_number c = num h ->
     on_branch is_descendent_of h (canon_hash c) = true ->
     exists m, delay_kind c = Best m /\
       match filter (blocks m c) (data <$> roots (pending_standard_changes s)) with
       | c' :: _ => run = Err (ForcedAuthoritySetChangeDependencyUnsatisfied (effective_number c'))
       | [] => let s' := mkSet (next_authorities c) (set_id s + 1) ForkTree_new []
                           (authority_set_changes s ++ [(set_id s, m)]) in
               run = Ok (Some (m, s')) /\ reachable s'
       end) /\
  ((forall c, c ∈ pending_forced_changes s -> effective_number c = num h ->
      on_branch is_descendent_of h (canon_hash c) = false) -> run = Ok None).
Proof.
  intros Hr Hid run. pose proof (reachable_ok s Hr) as Hok. split_and!.
  - intros c c'. by apply one_per_fork_unique, Hok.
  - intros c Hc He Hb. destruct (apply_forced_due s h (num h) c Hok Hid Hc He Hb) as (m & Hm & Hrun). exists m. split; [done|].
    destruct (filter _ _); [|done]. split; [done|].
    pose proof (reachable_step s (BestBlock h (num h)) Hr (conj Hid eq_refl)) as Hs.
    unfold exec, mbind, M_mbind, get, lift in Hs. unfold forced_run in Hrun. by rewrite Hrun in Hs.
  - intros Hno. unfold run. fold (forced_run s h (num h)). rewrite forced_run_eq by done. rewrite filter_none; [done|].
    apply Forall_forall. intros c Hc [He Hb]. rewrite Hno in Hb; done.
Qed.
End spec.

(** ** A concrete chain

    Blocks are paths in a tree.  A standard change announced at height 1 is
    enacted by the finality of a block at height 2, and a forced change
    announced at height 3 by the block at height 4. *)
Section demo.
#[local] Instance demo_checks : OverflowChecks := true.

Definition demo_standard : PendingChange (list nat) nat := mkPending [(1%nat, 1); (2%nat, 5)] 1 1 [0%nat] Finalized.
Definition demo_forced : PendingChange (list nat) nat := mkPending [(3%nat, 7)] 1 3 [0; 0; 0]%nat (Best 2).

Definition demo_run (os : list (op (H := list nat) (Id := nat))) (s : AuthoritySet (list nat) nat) : AuthoritySet (list nat) nat :=
  foldl (fun s o => (exec Z.add path_descendent_of o s).1) s os.

Definition demo_start : AuthoritySet (list nat) nat := mkSet [(0%nat, 1)] 0 ForkTree_new [] [].
Definition demo_before : AuthoritySet (list nat) nat :=
  demo_run [AddPendingChange demo_standard] demo_start.
Definition demo_after : AuthoritySet (list nat) nat :=
  demo_run [AddPendingChange demo_standard; FinalizedBlock [0; 0]%nat 2; AddPendingChange demo_forced] demo_start.

Lemma demo_start_reachable : reachable Z.add path_descendent_of demo_start.
Proof. by apply (reachable_genesis _ _ [(0%nat, 1)]). Qed.

Lemma demo_before_reachable : reachable Z.add path_descendent_of demo_before.
Proof.
  apply reachable_step; [apply demo_start_reachable|]. split; [done|]. split; [done|]. by intros y ?%not_elem_of_nil.
Qed.

Lemma demo_after_reachable : reachable Z.add path_descendent_of demo_after.
Proof.
  apply (reachable_step _ _ (demo_run [FinalizedBlock [0; 0]%nat 2] demo_before) (AddPendingChange demo_forced)).
  - apply (reachable_step _ _ demo_before (FinalizedBlock [0; 0]%nat 2)); [apply demo_before_reachable|]. by split.
  - split; [done|]. split; [done|]. by intros c ?%not_elem_of_nil.
Qed.
End demo.

Lemma history_lookup_spec_witness :
  get_set_id (E := unit) [(0, 41); (1, 81); (2, 121)] 42 = Ok (Set_ 1 81) /\
  iter_from (E := unit) [(0, 41); (1, 81); (2, 121)] 81 = Ok (Some [(2, 121)]).
Proof.
  destruct (history_lookup_spec (E := unit) [(0, 41); (1, 81); (2, 121)] 42) as [Hg _].
  { by repeat constructor. }
  destruct (history_lookup_spec (E := unit) [(0, 41); (1, 81); (2, 121)] 81) as (_ & Hi & _).
  { by repeat constructor. }
  split; [exact Hg|exact Hi].
Defined.

Lemma apply_standard_changes_spec_witness :
  exists s', @apply_standard_changes true _ _ _ _ Z.add path_descendent_of [0; 0]%nat 2 demo_before =
      (s', Ok (mkStatus true (Some ([0; 0]%nat, 2)))) /\
    current s' = (1, [(1%nat, 1); (2%nat, 5)]) /\ authority_set_changes s' = [(0, 2)].
Proof.
  pose proof (@apply_standard_changes_spec true _ _ _ _ Z.add path_descendent_of _ demo_before [0; 0]%nat 2
    (reachable_ok _ _ _ demo_before_reachable) eq_refl eq_refl) as (_ & Hrun & _).
  destruct (Hrun eq_refl) as [Hdue _]. destruct (Hdue (mkNode [0%nat] 1 demo_standard []) ltac:(left) ltac:(by split)) as [Hr _].
  eexists. split; [exact Hr|]. by split.
Defined.

Lemma apply_forced_changes_spec_witness :
  @apply_forced_changes true _ _ _ _ Z.add path_descendent_of demo_after [0; 0; 0; 0]%nat 4 =
    Ok (Some (2, mkSet [(3%nat, 7)] 2 ForkTree_new [] [(0, 2); (1, 2)])).
Proof.
  destruct (@apply_forced_changes_spec true _ _ _ _ Z.add path_descendent_of _ demo_after [0; 0; 0; 0]%nat
    demo_after_reachable eq_refl) as (_ & Hrun & _).
  destruct (Hrun demo_forced ltac:(left) eq_refl eq_refl) as (m & Hm & Hr). injection Hm as <-. exact (proj1 Hr).
Defined.

Lemma authority_set_safe_witness :
  exists v, @shared_current_authorities _ _ unit _ (fun l => match l with [] => None | _ => Some (length l) end) demo_before = Ok v.
Proof.
  destruct (@authority_set_safe true _ _ _ _ Z.add path_descendent_of _ demo_before demo_before_reachable) as (_ & _ & Hv).
  apply (Hv nat); [|done]. intros [|p l]; [done|]. by exists (length (p :: l)).
Defined.
