(* ===== verification/HeaderMetadata.v ===== *)
(** * The tree of headers

    Model of [primitives/blockchain/src/header_metadata.rs]: the lowest common
    ancestor of two blocks, found with cached links to ancestors, and the route
    between two blocks; of the cache of header metadata of
    [client/db/src/lib.rs]; and of [is_descendent_of] of
    [client/api/src/lib.rs], the function the fork trees of consensus are given.

    The database of headers is a map from hashes to headers.  The cache is
    another crate's [LruCache], a class with its laws: it may forget anything.
    A loop that follows links takes as fuel the height it starts from. *)

From Stdlib Require Import ZArith Lia.
From stdpp Require Import gmap fin_maps option list relations.
From S2P Require Import Prelude ForkTree.

Local Open Scope Z_scope.

(** ** Metadata and its cache *)

Record Header (Hash : Type) : Type := mkHeader {
  h_number : Z;
  h_parent : Hash;
  h_state_root : Hash }.

Arguments mkHeader {Hash} h_number h_parent h_state_root.
Arguments h_number {Hash} _.
Arguments h_parent {Hash} _.
Arguments h_state_root {Hash} _.

Record CachedHeaderMetadata (Hash : Type) : Type := mkMetadata {
  m_hash : Hash;
  m_number : Z;
  m_parent : Hash;
  m_state_root : Hash;
  m_ancestor : Hash }.

Arguments mkMetadata {Hash} m_hash m_number m_parent m_state_root m_ancestor.
Arguments m_hash {Hash} _.
Arguments m_number {Hash} _.
Arguments m_parent {Hash} _.
Arguments m_state_root {Hash} _.
Arguments m_ancestor {Hash} _.

Definition from_header {Hash} (hash : Hash) (header : Header Hash) : CachedHeaderMetadata Hash :=
  mkMetadata hash (h_number header) (h_parent header) (h_state_root header) (h_parent header).

(** Rust's [lru::LruCache]: [put] may evict. *)
Class LruCache (K V T : Type) `{Countable K} : Type := {
  lru_items : T -> gmap K V;
  lru_new : Z -> T;
  lru_get : K -> T -> option V * T;
  lru_put : K -> V -> T -> T;
  lru_pop : K -> T -> T;
  lru_items_new capacity : lru_items (lru_new capacity) = ∅;
  lru_items_get k m : (lru_get k m).1 = lru_items m !! k /\ lru_items (lru_get k m).2 = lru_items m;
  lru_items_put k v m : lru_items (lru_put k v m) ⊆ <[k := v]> (lru_items m);
  lru_items_pop k m : lru_items (lru_pop k m) = delete k (lru_items m) }.

Definition LRU_CACHE_SIZE : Z := 5000.

(** The error of a hash that is not in the database. *)
Inductive BlockchainError (Hash : Type) : Type := UnknownBlock (hash : Hash).

Arguments UnknownBlock {Hash} hash.

Record BlockchainDb (Hash T : Type) `{Countable Hash} : Type := mkBlockchainDb {
  headers : gmap Hash (Header Hash);
  header_metadata_cache : T }.

Arguments mkBlockchainDb {Hash T _ _} headers header_metadata_cache.
Arguments headers {Hash T _ _} _.
Arguments header_metadata_cache {Hash T _ _} _.

Record HashAndNumber (Hash : Type) : Type := mkHashAndNumber { hn_number : Z; hn_hash : Hash }.

Arguments mkHashAndNumber {Hash} hn_number hn_hash.
Arguments hn_number {Hash} _.
Arguments hn_hash {Hash} _.

Record TreeRoute (Hash : Type) : Type := mkTreeRoute { route : list (HashAndNumber Hash); pivot : nat }.

Arguments mkTreeRoute {Hash} route pivot.
Arguments route {Hash} _.
Arguments pivot {Hash} _.

Section model.
Context {Hash T : Type} `{LruCache Hash (CachedHeaderMetadata Hash) T}.
Abbreviation Meta := (CachedHeaderMetadata Hash).
Abbreviation Db := (BlockchainDb Hash T).
Abbreviation DM := (M Db (BlockchainError Hash)).
Implicit Types self : Db.

(** A new database has an empty cache of the default size. *)
Definition BlockchainDb_new (hs : gmap Hash (Header Hash)) : Db := mkBlockchainDb hs (lru_new LRU_CACHE_SIZE).

Definition with_cache (c : T) self : Db := mkBlockchainDb (headers self) c.

Definition insert_header_metadata (hash : Hash) (metadata : Meta) : DM unit :=
  modify (fun self => with_cache (lru_put hash metadata (header_metadata_cache self)) self).

Definition remove_header_metadata (hash : Hash) : DM unit :=
  modify (fun self => with_cache (lru_pop hash (header_metadata_cache self)) self).

Definition header_metadata (hash : Hash) : DM Meta :=
  self ← get;
  let '(cached, c) := lru_get hash (header_metadata_cache self) in
  _ ← modify (with_cache c);
  match cached with
  | Some metadata => mret metadata
  | None =>
    header ← lift (ok_or (headers self !! hash) (UnknownBlock hash));
    let metadata := from_header hash header in
    _ ← insert_header_metadata (m_hash metadata) metadata;
    mret metadata
  end.

(** ** The lowest common ancestor *)

(** The loops over the cached links: down to the number of the other block. *)
Fixpoint jump (fuel : nat) (header : Meta) (floor : Z) : DM Meta :=
  if floor <? m_number header then
    match fuel with
    | O => lift Panic
    | S fuel =>
      ancestor ← header_metadata (m_ancestor header);
      if floor <=? m_number ancestor then jump fuel ancestor floor else mret header
    end
  else mret header.

(** The loop over the links to parents. *)
Fixpoint climb (fuel : nat) (one two : Meta) : DM (Meta * Meta) :=
  if decide (m_hash one = m_hash two) then mret (one, two)
  else
    match fuel with
    | O => lift Panic
    | S fuel =>
      if m_number two <? m_number one
      then one ← header_metadata (m_parent one); climb fuel one two
      else two ← header_metadata (m_parent two); climb fuel one two
    end.

Definition with_ancestor (ancestor : Hash) (m : Meta) : Meta :=
  mkMetadata (m_hash m) (m_number m) (m_parent m) (m_state_root m) ancestor.

(** The update of the cached link of one of the two blocks. *)
Definition update_ancestor (orig common : Meta) : DM unit :=
  if m_number common <? m_number orig
  then insert_header_metadata (m_hash orig) (with_ancestor (m_hash common) orig)
  else mret tt.

Definition lowest_common_ancestor (id_one id_two : Hash) : DM (HashAndNumber Hash) :=
  orig_one ← header_metadata id_one;
  orig_two ← header_metadata id_two;
  one ← jump (Z.to_nat (m_number orig_one)) orig_one (m_number orig_two);
  two ← jump (Z.to_nat (m_number orig_two)) orig_two (m_number one);
  '(one, two) ← climb (Z.to_nat (m_number one + m_number two)) one two;
  _ ← update_ancestor orig_one one;
  _ ← update_ancestor orig_two one;
  mret (mkHashAndNumber (m_number one) (m_hash one)).

(** ** The route between two blocks *)

Definition hash_and_number (m : Meta) : HashAndNumber Hash := mkHashAndNumber (m_number m) (m_hash m).

(** The first two loops: up to the number of the other block. *)
Fixpoint walk_to (fuel : nat) (floor : Z) (header : Meta) (branch : list (HashAndNumber Hash)) : DM (Meta * list (HashAndNumber Hash)) :=
  if floor <? m_number header then
    match fuel with
    | O => lift Panic
    | S fuel =>
      parent ← header_metadata (m_parent header);
      walk_to fuel floor parent (branch ++ [hash_and_number header])
    end
  else mret (header, branch).

(** The last loop: both branches until they meet. *)
Fixpoint walk_both (fuel : nat) (from to : Meta) (from_branch to_branch : list (HashAndNumber Hash)) :
    DM (Meta * list (HashAndNumber Hash) * list (HashAndNumber Hash)) :=
  if decide (m_hash to = m_hash from) then mret (to, from_branch, to_branch)
  else
    match fuel with
    | O => lift Panic
    | S fuel =>
      to' ← header_metadata (m_parent to);
      from' ← header_metadata (m_parent from);
      walk_both fuel from' to' (from_branch ++ [hash_and_number from]) (to_branch ++ [hash_and_number to])
    end.

Definition tree_route (from to : Hash) : DM (TreeRoute Hash) :=
  from ← header_metadata from;
  to ← header_metadata to;
  '(to, to_branch) ← walk_to (Z.to_nat (m_number to)) (m_number from) to [];
  '(from, from_branch) ← walk_to (Z.to_nat (m_number from)) (m_number to) from [];
  '(to, from_branch, to_branch) ← walk_both (Z.to_nat (m_number to)) from to from_branch to_branch;
  mret (mkTreeRoute (from_branch ++ hash_and_number to :: rev to_branch) (length from_branch)).

Definition retracted (r : TreeRoute Hash) : list (HashAndNumber Hash) := take (pivot r) (route r).
Definition common_block {E} (r : TreeRoute Hash) : res E (HashAndNumber Hash) := expect (route r !! pivot r).
Definition enacted (r : TreeRoute Hash) : list (HashAndNumber Hash) := drop (S (pivot r)) (route r).

(** ** Ancestry *)

(** [current] is a block that is not yet in the database, with its parent. *)
Definition is_descendent_of (current : option (Hash * Hash)) (base hash : Hash) : DM bool :=
  if decide (base = hash) then mret false
  else
    let search hash := ancestor ← lowest_common_ancestor hash base; mret (bool_decide (hn_hash ancestor = base)) in
    match current with
    | Some (current_hash, current_parent_hash) =>
      if decide (base = current_hash) then mret false
      else if decide (hash = current_hash) then
        if decide (base = current_parent_hash) then mret true else search current_parent_hash
      else search hash
    | None => search hash
    end.
End model.

(** ** The tree *)

Section spec.
Context {Hash T : Type} `{LruCache Hash (CachedHeaderMetadata Hash) T}.
Abbreviation Meta := (CachedHeaderMetadata Hash).
Abbreviation Db := (BlockchainDb Hash T).
Abbreviation Headers := (gmap Hash (Header Hash)).
Abbreviation DM := (M Db (BlockchainError Hash)).
Implicit Types (self db : Db) (hs : Headers) (a b c d h : Hash) (m one two : Meta).

(** The headers of a chain of blocks: every header but the one genesis has its
    parent in the database, with the number below. *)
Record tree_ok hs : Prop := {
  tr_number h hd : hs !! h = Some hd -> 0 <= h_number hd;
  tr_parent h hd : hs !! h = Some hd -> 0 < h_number hd -> exists p, hs !! h_parent hd = Some p /\ h_number p = h_number hd - 1;
  tr_genesis h h' hd hd' : hs !! h = Some hd -> hs !! h' = Some hd' -> h_number hd = 0 -> h_number hd' = 0 -> h = h' }.

Definition edge hs h p : Prop := exists hd, hs !! h = Some hd /\ 0 < h_number hd /\ h_parent hd = p.

(** [a] is [b] or an ancestor of it; [a] is an ancestor of [b]. *)
Definition below hs a b : Prop := rtc (edge hs) b a.
Definition ancestor hs a b : Prop := tc (edge hs) b a.

Definition num_of hs h : Z := match hs !! h with Some hd => h_number hd | None => 0 end.

Lemma edge_det hs h p p' : edge hs h p -> edge hs h p' -> p = p'.
Proof. intros (hd & Hh & _ & <-) (hd' & Hh' & _ & <-). congruence. Qed.

Lemma edge_num hs h p : tree_ok hs -> edge hs h p -> num_of hs p = num_of hs h - 1 /\ is_Some (hs !! p).
Proof.
  intros Ht (hd & Hh & Hpos & <-). destruct (tr_parent hs Ht h hd Hh Hpos) as (p & Hp & Hn). unfold num_of. rewrite Hh, Hp. eauto.
Qed.

Lemma below_trans hs a b c : below hs a b -> below hs b c -> below hs a c.
Proof. unfold below. intros Hab Hbc. by etrans. Qed.

Lemma ancestor_below hs a b : ancestor hs a b -> below hs a b.
Proof. apply tc_rtc. Qed.

Lemma below_cases hs a b : below hs a b -> a = b \/ ancestor hs a b.
Proof. intros [->|Hab]%rtc_tc; [by left|by right]. Qed.

Lemma ancestor_step hs a b : ancestor hs a b <-> exists q, edge hs b q /\ below hs a q.
Proof.
  split; [|intros (q & He & Ha); eapply tc_rtc_r; [by apply tc_once|done]].
  intros Hab. inversion Hab as [? ? He|? q ? He Hq]; subst; [exists a; split; [done|apply rtc_refl]|exists q; split; [done|by apply tc_rtc]].
Qed.

Lemma ancestor_num hs a b : tree_ok hs -> ancestor hs a b -> num_of hs a < num_of hs b /\ is_Some (hs !! a) /\ is_Some (hs !! b).
Proof.
  intros Ht. unfold ancestor. induction 1 as [b a He|b p a He _ IH]; destruct (edge_num hs _ _ Ht He) as [Hn Hs].
  - split_and!; [lia|done|]. destruct He as (hd & -> & _). eauto.
  - destruct IH as (Hn' & Ha & _). split_and!; [lia|done|]. destruct He as (hd & -> & _). eauto.
Qed.

Lemma below_num hs a b : tree_ok hs -> below hs a b -> num_of hs a <= num_of hs b.
Proof. intros Ht [->|Hab]%below_cases; [lia|]. apply (ancestor_num hs a b Ht) in Hab. lia. Qed.

(** The ancestors of a block are a chain, ordered by their numbers. *)
Lemma below_chain hs a b c : below hs a c -> below hs b c -> below hs a b \/ below hs b a.
Proof.
  unfold below. intros Ha. revert b. induction Ha as [c|c p a He Ha IH]; intros b Hb; [by right|].
  inversion Hb as [|? p' ? He' Hb']; subst; [left; by eapply rtc_l|]. rewrite (edge_det hs c p' p He' He) in Hb'. auto.
Qed.

Lemma below_lower hs a b c : tree_ok hs -> below hs a c -> below hs b c -> num_of hs a <= num_of hs b -> below hs a b.
Proof.
  intros Ht Ha Hb Hn. destruct (below_chain hs a b c Ha Hb) as [|[->|Hba]%below_cases]; [done|apply rtc_refl|].
  apply (ancestor_num hs b a Ht) in Hba. lia.
Qed.

Lemma below_antisym hs a b : tree_ok hs -> below hs a b -> below hs b a -> a = b.
Proof.
  intros Ht [->|Hab]%below_cases Hba; [done|]. apply (ancestor_num hs a b Ht) in Hab. apply (below_num hs b a Ht) in Hba. lia.
Qed.

(** An ancestor is below the parent. *)
Lemma below_parent hs a b p : edge hs b p -> below hs a b -> a <> b -> below hs a p.
Proof. intros He Ha Hne. inversion Ha as [|? p' ? He' Hb]; subst; [done|]. by rewrite (edge_det hs b p p' He He'). Qed.

(** ** The cache *)

(** What a header is cached with; the link is to an ancestor. *)
Record meta_ok hs h m : Prop := {
  mt_hash : m_hash m = h;
  mt_header : exists hd, hs !! h = Some hd /\ m_number m = h_number hd /\ m_parent m = h_parent hd /\ m_state_root m = h_state_root hd;
  mt_ancestor : 0 < m_number m -> ancestor hs (m_ancestor m) h }.

(** A database of the headers [hs] whose cache is right. *)
Record db_ok hs db : Prop := {
  db_headers : headers db = hs;
  db_cache h m : lru_items (header_metadata_cache db) !! h = Some m -> meta_ok hs h m }.

Lemma db_new_ok hs : db_ok hs (BlockchainDb_new hs).
Proof. split; [done|]. simpl. intros h m. by rewrite lru_items_new, lookup_empty. Qed.

Lemma meta_num hs h m : meta_ok hs h m -> m_number m = num_of hs h.
Proof. intros [_ (hd & Hh & -> & _) _]. unfold num_of. by rewrite Hh. Qed.

Lemma meta_edge hs h m : meta_ok hs h m -> 0 < m_number m -> edge hs h (m_parent m).
Proof. intros [_ (hd & Hh & Hn & -> & _) _] Hpos. exists hd. split_and!; [done|lia|done]. Qed.

Lemma meta_known hs h m : meta_ok hs h m -> is_Some (hs !! h).
Proof. intros [_ (hd & -> & _) _]. eauto. Qed.

Section loops.
Context {hs : Headers} (Ht : tree_ok hs).

Lemma meta_nonneg h m : meta_ok hs h m -> 0 <= m_number m.
Proof. intros [_ (hd & Hh & -> & _) _]. by eapply tr_number. Qed.

Lemma put_ok db h m : db_ok hs db -> meta_ok hs h m -> db_ok hs (with_cache (lru_put h m (header_metadata_cache db)) db).
Proof.
  intros [<- Hc] Hm. split; [done|]. cbn [with_cache headers header_metadata_cache]. intros k m' Hk.
  eapply lookup_weaken in Hk; [|apply lru_items_put]. apply lookup_insert_Some in Hk as [[<- <-]|[_ Hk]]; auto.
Qed.

Lemma from_header_ok h hd : hs !! h = Some hd -> meta_ok hs h (from_header h hd).
Proof. intros Hh. split; [done|by eauto 10|]. simpl. intros Hpos. apply tc_once. by exists hd. Qed.

Lemma header_metadata_run h db : db_ok hs db ->
  exists db', db_ok hs db' /\
    if decide (is_Some (hs !! h)) then exists m, header_metadata h db = (db', Ok m) /\ meta_ok hs h m else header_metadata h db = (db', Err (UnknownBlock h)).
Proof.
  intros Ho. unfold header_metadata. erewrite bind_Ok by reflexivity. destruct (lru_get h (header_metadata_cache db)) as [r c] eqn:Hg.
  pose proof (lru_items_get h (header_metadata_cache db)) as [Hr Hc]. rewrite Hg in Hr, Hc. simpl in Hr, Hc. rewrite (db_headers _ _ Ho). erewrite bind_Ok by reflexivity.
  assert (db_ok hs (with_cache c db)) as Ho1 by (split; [apply Ho|]; intros k m; simpl; rewrite Hc; apply Ho).
  destruct r as [m|].
  { symmetry in Hr. apply (db_cache _ _ Ho) in Hr. exists (with_cache c db). split; [done|]. rewrite decide_True by (by eapply meta_known). eauto. }
  destruct (decide (is_Some (hs !! h))) as [[hd Hh]|Hk].
  - rewrite Hh. erewrite bind_Ok by reflexivity. erewrite bind_Ok by reflexivity. eexists. split; [|eexists; split; [reflexivity|by apply from_header_ok]].
    apply (put_ok (with_cache c db)); [done|by apply from_header_ok].
  - exists (with_cache c db). split; [done|]. by rewrite (proj2 (eq_None_not_Some _) Hk).
Qed.

Lemma header_metadata_known h db : db_ok hs db -> is_Some (hs !! h) -> exists db' m, header_metadata h db = (db', Ok m) /\ db_ok hs db' /\ meta_ok hs h m.
Proof. intros Ho Hk. destruct (header_metadata_run h db Ho) as (db' & Ho' & Hr). rewrite decide_True in Hr by done. naive_solver. Qed.

(** The parent of a header above genesis. *)
Lemma parent_run h m db : db_ok hs db -> meta_ok hs h m -> 0 < m_number m ->
  exists db' m', header_metadata (m_parent m) db = (db', Ok m') /\ db_ok hs db' /\ meta_ok hs (m_parent m) m' /\ m_number m' = m_number m - 1 /\ edge hs h (m_parent m).
Proof.
  intros Ho Hm Hpos. pose proof (meta_edge _ _ _ Hm Hpos) as He. destruct (edge_num _ _ _ Ht He) as [Hn Hk].
  destruct (header_metadata_known _ db Ho Hk) as (db' & m' & Hrun & Ho' & Hm'). exists db', m'. rewrite (meta_num _ _ _ Hm'), (meta_num _ _ _ Hm). eauto.
Qed.

(** ** The lowest common ancestor *)

(** [c] is the lowest common ancestor of [a] and [b], either of which it may
    be. *)
Definition lca a b c : Prop := below hs c a /\ below hs c b /\ forall d, below hs d a -> below hs d b -> below hs d c.

Lemma lca_unique a b c c' : lca a b c -> lca a b c' -> c = c'.
Proof. intros (Ha & Hb & Hm) (Ha' & Hb' & Hm'). apply (below_antisym hs); auto. Qed.

Lemma lca_sym a b c : lca a b c -> lca b a c.
Proof. intros (Ha & Hb & Hm). split_and!; auto. Qed.

Lemma lca_refl a : lca a a a.
Proof. split_and!; [apply rtc_refl|apply rtc_refl|done]. Qed.

(** Going to the parent of the higher block, or of either of two at one height,
    keeps the lowest common ancestor. *)
Lemma lca_parent a b p c : edge hs a p -> a <> b -> num_of hs b <= num_of hs a -> lca p b c -> lca a b c.
Proof.
  intros He Hne Hn (Ha & Hb & Hmax). split_and!; [by eapply rtc_l|done|]. intros d Hda Hdb. apply Hmax; [|done]. apply (below_parent _ d a); [done..|].
  intros ->. apply Hne, (below_antisym hs); [done..|]. by apply (below_lower hs b a b); [done|apply rtc_refl|done|].
Qed.

(** Two different blocks are not both genesis. *)
Lemma higher_pos a b one two : meta_ok hs a one -> meta_ok hs b two -> a <> b -> m_number two <= m_number one -> 0 < m_number one.
Proof.
  intros Ha Hb Hne Hle. pose proof (meta_nonneg a one Ha). pose proof (meta_nonneg b two Hb). destruct (Z.eq_dec (m_number one) 0); [|lia]. destruct Hne.
  destruct Ha as [_ (ha & Ha & Hna & _) _], Hb as [_ (hb & Hb & Hnb & _) _]. apply (tr_genesis hs Ht a b ha hb); [done|done|lia|lia].
Qed.

Lemma jump_run fuel : forall db h m floor, db_ok hs db -> meta_ok hs h m -> 0 <= floor -> (Z.to_nat (m_number m) <= fuel)%nat ->
  exists db' h' m', jump fuel m floor db = (db', Ok m') /\ db_ok hs db' /\ meta_ok hs h' m' /\
    below hs h' h /\ (floor <= m_number m -> floor <= m_number m') /\ (m_number m <= floor -> h' = h).
Proof.
  induction fuel as [|fuel IH]; intros db h m floor Ho Hm Hf Hfuel; cbn [jump]; pose proof (meta_nonneg _ _ Hm) as Hnn.
  - replace (floor <? m_number m) with false by (symmetry; apply Z.ltb_ge; lia). exists db, h, m. split_and!; [done|done|done|apply rtc_refl|lia|done].
  - destruct (Z.ltb_spec floor (m_number m)) as [Hlt|Hge]; [|exists db, h, m; split_and!; [done|done|done|apply rtc_refl|lia|done]].
    pose proof (mt_ancestor _ _ _ Hm ltac:(lia)) as Hanc. destruct (ancestor_num _ _ _ Ht Hanc) as (Hnum & Hknown & _).
    destruct (header_metadata_known (m_ancestor m) db Ho Hknown) as (db1 & m1 & Hrun & Ho1 & Hm1). erewrite bind_Ok by exact Hrun.
    destruct (Z.leb_spec floor (m_number m1)); [|exists db1, h, m; split_and!; [done|done|done|apply rtc_refl|lia|lia]].
    rewrite (meta_num _ _ _ Hm) in Hfuel. pose proof (meta_num _ _ _ Hm1) as Hn1.
    destruct (IH db1 (m_ancestor m) m1 floor Ho1 Hm1 Hf ltac:(lia)) as (db2 & h2 & m2 & Hrun2 & Ho2 & Hm2 & Hb2 & Hfl & _).
    exists db2, h2, m2. split_and!; [done|done|done|eapply below_trans; [done|by apply ancestor_below]|lia|lia].
Qed.

Lemma climb_run fuel : forall db a b one two, db_ok hs db -> meta_ok hs a one -> meta_ok hs b two -> (Z.to_nat (m_number one + m_number two) <= fuel)%nat ->
  exists db' c m m', climb fuel one two db = (db', Ok (m, m')) /\ db_ok hs db' /\ meta_ok hs c m /\ lca a b c.
Proof.
  induction fuel as [|fuel IH]; intros db a b one two Ho Hone Htwo Hfuel; cbn [climb]; rewrite (mt_hash _ _ _ Hone), (mt_hash _ _ _ Htwo);
    pose proof (meta_nonneg _ _ Hone); pose proof (meta_nonneg _ _ Htwo);
    (destruct (decide (a = b)) as [<-|Hne]; [exists db, a, one, two; split_and!; [done|done|done|apply lca_refl]|]);
    pose proof (higher_pos a b one two Hone Htwo Hne) as Hpos1; pose proof (higher_pos b a two one Htwo Hone ltac:(done)) as Hpos2; [lia|].
  pose proof (meta_num _ _ _ Hone) as Hn1. pose proof (meta_num _ _ _ Htwo) as Hn2. destruct (Z.ltb_spec (m_number two) (m_number one)) as [Hlt|Hge].
  - destruct (parent_run a one db Ho Hone ltac:(lia)) as (db1 & m1 & Hrun & Ho1 & Hm1 & Hnm1 & He). erewrite bind_Ok by exact Hrun.
    destruct (IH db1 (m_parent one) b m1 two Ho1 Hm1 Htwo ltac:(lia)) as (db2 & c & m & m' & Hrun2 & Ho2 & Hm & Hlca).
    exists db2, c, m, m'. split_and!; [done|done|done|]. apply (lca_parent a b (m_parent one)); [done|done|lia|done].
  - destruct (parent_run b two db Ho Htwo ltac:(lia)) as (db1 & m1 & Hrun & Ho1 & Hm1 & Hnm1 & He). erewrite bind_Ok by exact Hrun.
    destruct (IH db1 a (m_parent two) one m1 Ho1 Hone Hm1 ltac:(lia)) as (db2 & c & m & m' & Hrun2 & Ho2 & Hm & Hlca).
    exists db2, c, m, m'. split_and!; [done|done|done|]. apply lca_sym, (lca_parent b a (m_parent two)); [done|done|lia|by apply lca_sym].
Qed.

Lemma update_ancestor_run orig common h c db : db_ok hs db -> meta_ok hs h orig -> meta_ok hs c common -> below hs c h ->
  exists db', update_ancestor orig common db = (db', Ok tt) /\ db_ok hs db'.
Proof.
  intros Ho Hm Hc Hb. unfold update_ancestor. destruct (Z.ltb_spec (m_number common) (m_number orig)) as [Hlt|]; [|eauto].
  eexists. split; [reflexivity|]. rewrite (mt_hash _ _ _ Hm). apply put_ok; [done|]. split; [apply Hm|apply Hm|]. simpl. intros _.
  rewrite (mt_hash _ _ _ Hc). apply below_cases in Hb as [->|]; [|done]. rewrite (meta_num _ _ _ Hm), (meta_num _ _ _ Hc) in Hlt. lia.
Qed.

(** Whatever is below both blocks is below the blocks the cached links lead to. *)
Lemma lca_jump a b a' b' c : below hs a' a -> below hs b' b -> (num_of hs b <= num_of hs a -> num_of hs b <= num_of hs a') ->
  (num_of hs a <= num_of hs b -> a' = a) -> (num_of hs a' <= num_of hs b -> num_of hs a' <= num_of hs b') -> (num_of hs b <= num_of hs a' -> b' = b) ->
  lca a' b' c -> lca a b c.
Proof.
  intros Ha Hb Hf1 Hs1 Hf2 Hs2 (Hca & Hcb & Hmax). split_and!; [exact (below_trans hs c a' a Hca Ha)|exact (below_trans hs c b' b Hcb Hb)|]. intros d Hda Hdb.
  assert (below hs d a') as Hda'.
  { destruct (Z.le_ge_cases (num_of hs a) (num_of hs b)); [by rewrite Hs1|]. apply (below_lower hs d a' a Ht Hda Ha). apply (below_num hs d b Ht) in Hdb. lia. }
  apply Hmax; [done|]. destruct (Z.le_ge_cases (num_of hs b) (num_of hs a')); [by rewrite Hs2|].
  apply (below_lower hs d b' b Ht Hdb Hb). apply (below_num hs d a' Ht) in Hda'. lia.
Qed.

Lemma lowest_common_ancestor_run a b db : db_ok hs db -> is_Some (hs !! a) -> is_Some (hs !! b) ->
  exists db' c, lowest_common_ancestor a b db = (db', Ok (mkHashAndNumber (num_of hs c) c)) /\ db_ok hs db' /\ lca a b c.
Proof.
  intros Ho Ha Hb. unfold lowest_common_ancestor.
  destruct (header_metadata_known a db Ho Ha) as (db1 & ma & Hr1 & Ho1 & Hma). erewrite bind_Ok by exact Hr1.
  destruct (header_metadata_known b db1 Ho1 Hb) as (db2 & mb & Hr2 & Ho2 & Hmb). erewrite bind_Ok by exact Hr2.
  destruct (jump_run _ db2 a ma (m_number mb) Ho2 Hma (meta_nonneg _ _ Hmb) (le_n _)) as (db3 & a' & ma' & Hr3 & Ho3 & Hma' & Hba & Hf1 & Hs1). erewrite bind_Ok by exact Hr3.
  destruct (jump_run _ db3 b mb (m_number ma') Ho3 Hmb (meta_nonneg _ _ Hma') (le_n _)) as (db4 & b' & mb' & Hr4 & Ho4 & Hmb' & Hbb & Hf2 & Hs2). erewrite bind_Ok by exact Hr4.
  destruct (climb_run _ db4 a' b' ma' mb' Ho4 Hma' Hmb' (le_n _)) as (db5 & c & m & m' & Hr5 & Ho5 & Hm & Hlca). erewrite bind_Ok by exact Hr5.
  assert (lca a b c) as Hl.
  { rewrite (meta_num _ _ _ Hma), (meta_num _ _ _ Hmb), (meta_num _ _ _ Hma') in *. rewrite (meta_num _ _ _ Hmb') in Hf2. by apply (lca_jump a b a' b'). }
  destruct (update_ancestor_run ma m a c db5 Ho5 Hma Hm (proj1 Hl)) as (db6 & Hr6 & Ho6). erewrite bind_Ok by exact Hr6.
  destruct (update_ancestor_run mb m b c db6 Ho6 Hmb Hm (proj1 (proj2 Hl))) as (db7 & Hr7 & Ho7). erewrite bind_Ok by exact Hr7.
  exists db7, c. split_and!; [|done|done]. by rewrite (meta_num _ _ _ Hm), (mt_hash _ _ _ Hm).
Qed.

(** ** Routes *)

(** The blocks from [a] up to [c], without [c]. *)
Fixpoint path a c (l : list (HashAndNumber Hash)) : Prop :=
  match l with
  | [] => a = c
  | x :: l => x = mkHashAndNumber (num_of hs a) a /\ exists p, edge hs a p /\ path p c l
  end.

Lemma path_app a b c l l' : path a b l -> path b c l' -> path a c (l ++ l').
Proof. revert a. induction l as [|x l IH]; intros a; simpl; [by intros ->|]. intros (-> & p & He & Hp) Hl. split; [done|]. eauto. Qed.

Lemma hash_and_number_ok h m : meta_ok hs h m -> hash_and_number m = mkHashAndNumber (num_of hs h) h.
Proof. intros Hm. unfold hash_and_number. by rewrite (meta_num _ _ _ Hm), (mt_hash _ _ _ Hm). Qed.

Lemma walk_to_run fuel : forall db h m floor branch, db_ok hs db -> meta_ok hs h m -> 0 <= floor -> (Z.to_nat (m_number m) <= fuel)%nat ->
  exists db' h' m' l, walk_to fuel floor m branch db = (db', Ok (m', branch ++ l)) /\ db_ok hs db' /\ meta_ok hs h' m' /\ path h h' l /\
    below hs h' h /\ m_number m' = Z.min floor (m_number m) /\ (m_number m <= floor -> h' = h).
Proof.
  induction fuel as [|fuel IH]; intros db h m floor branch Ho Hm Hf Hfuel; cbn [walk_to]; pose proof (meta_nonneg _ _ Hm) as Hnn;
    (destruct (Z.ltb_spec floor (m_number m)) as [Hlt|Hge]; [|exists db, h, m, []; rewrite app_nil_r; split_and!; [done|done|done|done|apply rtc_refl|lia|done]]); [lia|].
  destruct (parent_run h m db Ho Hm ltac:(lia)) as (db1 & m1 & Hrun & Ho1 & Hm1 & Hn1 & He). erewrite bind_Ok by exact Hrun.
  destruct (IH db1 (m_parent m) m1 floor (branch ++ [hash_and_number m]) Ho1 Hm1 Hf ltac:(lia)) as (db2 & h2 & m2 & l & Hrun2 & Ho2 & Hm2 & Hp & Hb & Hn & _).
  exists db2, h2, m2, (hash_and_number m :: l). rewrite Hrun2, <-app_assoc. split_and!; [done|done|done| |by eapply rtc_l|lia|lia].
  simpl. rewrite (hash_and_number_ok h m Hm). eauto.
Qed.

Lemma walk_both_run fuel : forall db a b from to fb tb, db_ok hs db -> meta_ok hs a from -> meta_ok hs b to -> m_number from = m_number to ->
  (Z.to_nat (m_number to) <= fuel)%nat ->
  exists db' c m l l', walk_both fuel from to fb tb db = (db', Ok (m, fb ++ l, tb ++ l')) /\ db_ok hs db' /\ meta_ok hs c m /\ lca a b c /\ path a c l /\ path b c l'.
Proof.
  induction fuel as [|fuel IH]; intros db a b from to fb tb Ho Hfrom Hto Heq Hfuel; cbn [walk_both]; rewrite (mt_hash _ _ _ Hfrom), (mt_hash _ _ _ Hto);
    (destruct (decide (b = a)) as [->|Hne]; [exists db, a, to, [], []; rewrite !app_nil_r; split_and!; [done|done|done|apply lca_refl|done|done]|]);
    pose proof (higher_pos b a to from Hto Hfrom Hne ltac:(lia)); [lia|].
  destruct (parent_run b to db Ho Hto ltac:(lia)) as (db1 & m1 & Hr1 & Ho1 & Hm1 & Hn1 & He1). erewrite bind_Ok by exact Hr1.
  destruct (parent_run a from db1 Ho1 Hfrom ltac:(lia)) as (db2 & m2 & Hr2 & Ho2 & Hm2 & Hn2 & He2). erewrite bind_Ok by exact Hr2.
  destruct (IH db2 (m_parent from) (m_parent to) m2 m1 (fb ++ [hash_and_number from]) (tb ++ [hash_and_number to]) Ho2 Hm2 Hm1 ltac:(lia) ltac:(lia))
    as (db3 & c & m & l & l' & Hr3 & Ho3 & Hm & Hlca & Hp & Hp').
  exists db3, c, m, (hash_and_number from :: l), (hash_and_number to :: l'). rewrite Hr3, <-!app_assoc. rewrite (meta_num _ _ _ Hfrom), (meta_num _ _ _ Hto) in *.
  rewrite (meta_num _ _ _ Hm1), (meta_num _ _ _ Hm2) in *. split_and!; [done|done|done| | |].
  - apply (lca_parent a b (m_parent from)); [done|done|lia|]. destruct (decide (m_parent from = b)) as [Hpb|Hpb]; [rewrite Hpb in *; lia|].
    apply lca_sym, (lca_parent b (m_parent from) (m_parent to)); [done|done|lia|by apply lca_sym].
  - simpl. rewrite (hash_and_number_ok a from Hfrom). eauto.
  - simpl. rewrite (hash_and_number_ok b to Hto). eauto.
Qed.

Lemma tree_route_run a b db : db_ok hs db -> is_Some (hs !! a) -> is_Some (hs !! b) ->
  exists db' c l l', tree_route a b db = (db', Ok (mkTreeRoute (l ++ mkHashAndNumber (num_of hs c) c :: rev l') (length l))) /\
    db_ok hs db' /\ lca a b c /\ path a c l /\ path b c l'.
Proof.
  intros Ho Ha Hb. unfold tree_route.
  destruct (header_metadata_known a db Ho Ha) as (db1 & ma & Hr1 & Ho1 & Hma). erewrite bind_Ok by exact Hr1.
  destruct (header_metadata_known b db1 Ho1 Hb) as (db2 & mb & Hr2 & Ho2 & Hmb). erewrite bind_Ok by exact Hr2.
  destruct (walk_to_run _ db2 b mb (m_number ma) [] Ho2 Hmb (meta_nonneg _ _ Hma) (le_n _)) as (db3 & b' & mb' & l' & Hr3 & Ho3 & Hmb' & Hpb & Hbb & Hnb & Hsb).
  erewrite bind_Ok by exact Hr3.
  destruct (walk_to_run _ db3 a ma (m_number mb') [] Ho3 Hma (meta_nonneg _ _ Hmb') (le_n _)) as (db4 & a' & ma' & l & Hr4 & Ho4 & Hma' & Hpa & Hba & Hna & Hsa).
  erewrite bind_Ok by exact Hr4. pose proof (meta_nonneg _ _ Hma). pose proof (meta_nonneg _ _ Hmb).
  destruct (walk_both_run _ db4 a' b' ma' mb' l l' Ho4 Hma' Hmb' ltac:(lia) (le_n _)) as (db5 & c & m & l1 & l1' & Hr5 & Ho5 & Hm & Hlca & Hp1 & Hp1').
  erewrite bind_Ok by exact Hr5. exists db5, c, (l ++ l1), (l' ++ l1'). rewrite (hash_and_number_ok c m Hm).
  split_and!; [done|done| |by eapply path_app|by eapply path_app].
  rewrite (meta_num _ _ _ Hma), (meta_num _ _ _ Hmb), (meta_num _ _ _ Hma'), (meta_num _ _ _ Hmb') in *.
  apply lca_sym, (lca_jump b a b' a'); [done|done|lia|done|lia|intros; apply Hsa; lia|by apply lca_sym].
Qed.

(** ** Ancestry *)

Lemma lca_base a b c : lca b a c -> a <> b -> c = a <-> ancestor hs a b.
Proof.
  intros (Hb & Ha & Hmax) Hne. split.
  - intros ->. by apply below_cases in Hb as [->|].
  - intros Hab. apply (below_antisym hs); [done..|]. apply Hmax; [by apply ancestor_below|apply rtc_refl].
Qed.

Lemma search_run a b db : db_ok hs db -> is_Some (hs !! a) -> is_Some (hs !! b) -> a <> b ->
  exists db' r, (ancestor ← lowest_common_ancestor b a; mret (bool_decide (hn_hash ancestor = a)) : DM bool) db = (db', Ok r) /\ db_ok hs db' /\ (r = true <-> ancestor hs a b).
Proof.
  intros Ho Ha Hb Hne. destruct (lowest_common_ancestor_run b a db Ho Hb Ha) as (db' & c & Hrun & Ho' & Hlca). erewrite bind_Ok by exact Hrun.
  eexists _, _. split; [reflexivity|]. split; [done|]. simpl. rewrite bool_decide_eq_true. by apply lca_base.
Qed.
End loops.

(** The headers with a block that is being imported. *)
Definition with_current (current : option (Hash * Hash)) hs : Headers :=
  match current with Some (c, p) => <[c := mkHeader (num_of hs p + 1) p p]> hs | None => hs end.

(** The block is new, and its parent is in the database. *)
Definition current_ok (current : option (Hash * Hash)) hs : Prop :=
  match current with Some (c, p) => hs !! c = None /\ is_Some (hs !! p) | None => True end.

Section current.
Context {hs : Headers} (Ht : tree_ok hs) (c p : Hash) (Hc : hs !! c = None) (Hp : is_Some (hs !! p)).

Lemma edge_current h q : edge (with_current (Some (c, p)) hs) h q <-> (h = c /\ q = p) \/ edge hs h q.
Proof.
  unfold edge, with_current. split.
  - intros (hd & [[<- <-]|[_ Hh]]%lookup_insert_Some & Hpos & <-); [by left|right; eauto].
  - intros [[-> ->]|(hd & Hh & Hpos & <-)].
    + eexists. split; [apply lookup_insert_eq|]. simpl. split; [|done]. destruct Hp as [hp Hhp]. unfold num_of. rewrite Hhp. apply (tr_number hs Ht) in Hhp. lia.
    + exists hd. rewrite lookup_insert_ne by congruence. done.
Qed.

Lemma below_current a b : b <> c -> below (with_current (Some (c, p)) hs) a b <-> below hs a b.
Proof.
  unfold below. split.
  - intros Hab. induction Hab as [b|b q a He _ IH]; [apply rtc_refl|]. apply edge_current in He as [[-> _]|He]; [done|].
    eapply rtc_l; [exact He|]. apply IH. intros ->. destruct (edge_num hs _ _ Ht He) as [_ [? Hk]]. congruence.
  - intros Hab. eapply rtc_subrel; [|exact Hab]. intros x y He. apply edge_current. by right.
Qed.

Lemma ancestor_current a b : ancestor (with_current (Some (c, p)) hs) a b <-> (b = c /\ below hs a p) \/ ancestor hs a b.
Proof.
  assert (p <> c) as Hne by (intros ->; destruct Hp; congruence). rewrite !ancestor_step. setoid_rewrite edge_current.
  assert (forall q, edge hs b q -> q <> c) as Hq by (intros q He ->; destruct (edge_num hs _ _ Ht He) as [_ [? Hk]]; congruence).
  split.
  - intros (q & [[-> ->]|He] & Ha); [left; split; [done|by apply below_current]|]. right. exists q. split; [done|]. apply below_current; auto.
  - intros [[-> Ha]|(q & He & Ha)]; [exists p; split; [by left|by apply below_current]|]. exists q. split; [by right|]. apply below_current; auto.
Qed.
End current.

(** ** Properties *)

(** C22. [lowest_common_ancestor] returns, for two blocks of the database, the
    one block that is below both and above every other block below both, with
    its number, whatever ancestors the cache links to, and the links it adds
    are right; an unknown block is an error.  Its loops stop. *)
Theorem lowest_common_ancestor_spec hs a b db : tree_ok hs -> db_ok hs db ->
  exists db', db_ok hs db' /\
    match hs !! a, hs !! b with
    | Some _, Some _ => exists c, lowest_common_ancestor a b db = (db', Ok (mkHashAndNumber (num_of hs c) c)) /\
        below hs c a /\ below hs c b /\ forall d, below hs d a -> below hs d b -> below hs d c
    | Some _, None => lowest_common_ancestor a b db = (db', Err (UnknownBlock b))
    | None, _ => lowest_common_ancestor a b db = (db', Err (UnknownBlock a))
    end.
Proof.
  intros Ht Ho. destruct (hs !! a) as [ha|] eqn:Ha; [destruct (hs !! b) as [hb|] eqn:Hb|].
  - destruct (lowest_common_ancestor_run Ht a b db Ho ltac:(eauto) ltac:(eauto)) as (db' & c & Hrun & Ho' & Hlca). eauto.
  - destruct (header_metadata_known Ht a db Ho ltac:(eauto)) as (db1 & ma & Hr1 & Ho1 & _). destruct (header_metadata_run Ht b db1 Ho1) as (db2 & Ho2 & Hr2).
    rewrite Hb, decide_False in Hr2 by (by intros [? ?]). exists db2. split; [done|]. unfold lowest_common_ancestor. erewrite bind_Ok by exact Hr1. by erewrite bind_Err by exact Hr2.
  - destruct (header_metadata_run Ht a db Ho) as (db1 & Ho1 & Hr1). rewrite Ha, decide_False in Hr1 by (by intros [? ?]).
    exists db1. split; [done|]. unfold lowest_common_ancestor. by erewrite bind_Err by exact Hr1.
Qed.

(** C23. [tree_route] between two blocks of the database: the retracted blocks
    lead from the first block, by parents, to the lowest common ancestor, which
    is the common block, and the enacted ones lead from there, by children, to
    the second block.  Its loops stop. *)
Theorem tree_route_spec hs a b db : tree_ok hs -> db_ok hs db -> is_Some (hs !! a) -> is_Some (hs !! b) ->
  exists db' r c, tree_route a b db = (db', Ok r) /\ db_ok hs db' /\ lca (hs := hs) a b c /\
    path (hs := hs) a c (retracted r) /\ common_block (E := unit) r = Ok (mkHashAndNumber (num_of hs c) c) /\ path (hs := hs) b c (rev (enacted r)).
Proof.
  intros Ht Ho Ha Hb. destruct (tree_route_run Ht a b db Ho Ha Hb) as (db' & c & l & l' & Hrun & Ho' & Hlca & Hp & Hp').
  eexists db', _, c. split; [exact Hrun|]. unfold retracted, enacted, common_block. cbn [route pivot].
  rewrite take_app_length, list_lookup_middle by done. replace (S (length l)) with (length l + 1)%nat by lia. rewrite drop_app_add. simpl. by rewrite drop_0, rev_involutive.
Qed.

(** [is_descendent_of] decides ancestry among the blocks of the database and
    the block that is being imported, if one is given, as if it were in the
    database; the cache stays right. *)
Theorem is_descendent_of_spec hs current a b db : tree_ok hs -> db_ok hs db -> current_ok current hs ->
  is_Some (with_current current hs !! a) -> is_Some (with_current current hs !! b) ->
  exists db' r, is_descendent_of current a b db = (db', Ok r) /\ db_ok hs db' /\ (r = true <-> ancestor (with_current current hs) a b).
Proof.
  intros Ht Ho Hc Ha Hb. unfold is_descendent_of. assert (forall h, ~ ancestor hs h h) as Hirr by (intros h Hh; apply (ancestor_num hs h h Ht) in Hh; lia).
  destruct current as [[c p]|]; cbn [with_current current_ok] in Hc, Ha, Hb; [|by case_decide as Hab; [subst b; exists db, false; naive_solver|apply search_run]].
  destruct Hc as [Hc Hp]. setoid_rewrite (ancestor_current Ht c p Hc Hp). case_decide as Hab.
  { subst b. exists db, false. split_and!; [done|done|]. split; [done|]. intros [[-> Hcp]|Hh]; [|by destruct (Hirr a)]. exfalso.
    apply below_cases in Hcp as [->|Hcp]; [destruct Hp; congruence|]. destruct (ancestor_num hs c p Ht Hcp) as (_ & [? ?] & _). congruence. }
  assert (forall h, h <> c -> is_Some (<[c := mkHeader (num_of hs p + 1) p p]> hs !! h) -> is_Some (hs !! h)) as Hk by (intros h Hne; by rewrite lookup_insert_ne).
  case_decide as Hac.
  { subst a. exists db, false. split_and!; [done|done|]. split; [done|]. intros [[-> _]|Hh]; [done|]. destruct (ancestor_num hs c b Ht Hh) as (_ & [? ?] & _). congruence. }
  case_decide as Hbc; [subst b; case_decide as Hap|].
  - subst a. exists db, true. split_and!; [done|done|]. split; [|done]. intros _. left. split; [done|apply rtc_refl].
  - destruct (search_run Ht a p db Ho (Hk a Hac Ha) Hp Hap) as (db' & r & Hrun & Ho' & Hr). exists db', r. split_and!; [done|done|]. rewrite Hr. split.
    + intros Hanc. left. split; [done|by apply ancestor_below].
    + intros [[_ Hb']|Hh]; [by apply below_cases in Hb' as [->|]|]. destruct (ancestor_num hs a c Ht Hh) as (_ & _ & [? ?]). congruence.
  - destruct (search_run Ht a b db Ho (Hk a Hac Ha) (Hk b Hbc Hb) Hab) as (db' & r & Hrun & Ho' & Hr). exists db', r. split_and!; [done|done|]. rewrite Hr. naive_solver.
Qed.

(** ** The ancestry of the fork trees

    On the blocks of the database the function of the client satisfies what the
    fork tree asks of its argument. *)

Definition known hs : Type := dsig (fun h => is_Some (hs !! h)).

Definition client_descends hs db (a b : known hs) : res (BlockchainError Hash) bool := (is_descendent_of None (`a) (`b) db).2.

Lemma client_descends_run hs db (a b : known hs) : tree_ok hs -> db_ok hs db ->
  exists r, client_descends hs db a b = Ok r /\ (r = true <-> ancestor hs (`a) (`b)).
Proof.
  intros Ht Ho. unfold client_descends, is_descendent_of. case_decide as Hab.
  - exists false. split; [done|]. split; [done|]. rewrite Hab. intros Hh. apply (ancestor_num hs _ _ Ht) in Hh. lia.
  - destruct (search_run Ht (`a) (`b) db Ho (proj2_dsig a) (proj2_dsig b) Hab) as (db' & r & Hrun & _ & Hr). exists r. by rewrite Hrun.
Qed.

Definition client_ancestry hs db (Ht : tree_ok hs) (Ho : db_ok hs db) : Ancestry (client_descends hs db).
Proof.
  refine {| desc (a b : known hs) := match client_descends hs db a b with Ok r => r | _ => false end; num (a : known hs) := num_of hs (`a) |}.
  - intros a b. by destruct (client_descends_run hs db a b Ht Ho) as (r & -> & _).
  - intros a b. destruct (client_descends_run hs db a b Ht Ho) as (r & -> & Hr). intros Hab%Hr. by apply (ancestor_num hs).
  - intros a b c. destruct (client_descends_run hs db a b Ht Ho) as (r1 & -> & Hr1), (client_descends_run hs db b c Ht Ho) as (r2 & -> & Hr2),
      (client_descends_run hs db a c Ht Ho) as (r3 & -> & Hr3). rewrite Hr1, Hr2, Hr3. unfold ancestor. intros Hab Hbc. by etrans.
  - intros a b c. destruct (client_descends_run hs db a b Ht Ho) as (r1 & -> & Hr1), (client_descends_run hs db b a Ht Ho) as (r2 & -> & Hr2),
      (client_descends_run hs db a c Ht Ho) as (r3 & -> & Hr3), (client_descends_run hs db b c Ht Ho) as (r4 & -> & Hr4).
    rewrite Hr1, Hr2, Hr3, Hr4. intros Hac%ancestor_below Hbc%ancestor_below.
    destruct (below_chain hs (`a) (`b) (`c) Hac Hbc) as [[Heq|Hh]%below_cases|[Heq|Hh]%below_cases]; [left; by apply dsig_eq|by right; left|left; by apply dsig_eq|by right; right].
Defined.
End spec.

(** ** A concrete tree *)

Module HeaderDemo.
(** A cache that forgets nothing. *)
#[local] Instance map_lru K V `{Countable K} : LruCache K V (gmap K V).
Proof.
  refine {| lru_items m := m; lru_new _ := ∅; lru_get k m := (m !! k, m); lru_put k v m := <[k := v]> m; lru_pop k m := delete k m |}; done.
Defined.

(** Two branches above block 12: 13, 14, 15 and 23, 24. *)
Definition demo_headers : gmap Z (Header Z) :=
  {[10 := mkHeader 0 0 0; 11 := mkHeader 1 10 0; 12 := mkHeader 2 11 0; 13 := mkHeader 3 12 0; 14 := mkHeader 4 13 0; 15 := mkHeader 5 14 0;
    23 := mkHeader 3 12 0; 24 := mkHeader 4 23 0]}.

Definition all_headers (f : Z -> Header Z -> bool) : bool := forallb (fun kv => f kv.1 kv.2) (map_to_list demo_headers).

Lemma all_headers_spec f : all_headers f = true -> forall h hd, demo_headers !! h = Some hd -> f h hd = true.
Proof. unfold all_headers. rewrite forallb_forall. intros Hf h hd Hh. apply (Hf (h, hd)). by apply list_elem_of_In, elem_of_map_to_list. Qed.

Definition parent_ok (h : Z) (hd : Header Z) : bool :=
  if 0 <? h_number hd then match demo_headers !! h_parent hd with Some p => h_number p =? h_number hd - 1 | None => false end else h =? 10.

Lemma demo_headers_ok : tree_ok demo_headers.
Proof.
  assert (all_headers (fun _ hd => 0 <=? h_number hd) = true) as Hnn by by vm_compute. assert (all_headers parent_ok = true) as Hpo by by vm_compute.
  assert (forall h hd, demo_headers !! h = Some hd -> h_number hd = 0 -> h = 10) as Hg.
  { intros h hd Hh Hn. pose proof (all_headers_spec _ Hpo h hd Hh) as Hp. unfold parent_ok in Hp. rewrite Hn in Hp. by apply Z.eqb_eq. }
  split.
  - intros h hd Hh. by apply Z.leb_le, (all_headers_spec _ Hnn h hd).
  - intros h hd Hh Hpos. pose proof (all_headers_spec _ Hpo h hd Hh) as Hp. unfold parent_ok in Hp. rewrite (proj2 (Z.ltb_lt _ _) Hpos) in Hp.
    destruct (demo_headers !! h_parent hd) as [p|]; [|done]. exists p. split; [done|by apply Z.eqb_eq].
  - intros h h' hd hd' Hh Hh' Hn Hn'. by rewrite (Hg h hd), (Hg h' hd').
Qed.

Definition demo_db : BlockchainDb Z (gmap Z (CachedHeaderMetadata Z)) := BlockchainDb_new demo_headers.

Lemma lowest_common_ancestor_spec_witness : exists db' c, lowest_common_ancestor 15 24 demo_db = (db', Ok (mkHashAndNumber (num_of demo_headers c) c)) /\
  db_ok demo_headers db' /\ below demo_headers c 15 /\ below demo_headers c 24.
Proof.
  destruct (lowest_common_ancestor_spec demo_headers 15 24 demo_db demo_headers_ok (db_new_ok demo_headers)) as (db' & Ho & Hr).
  change (demo_headers !! 15) with (Some (mkHeader 5 14 0)) in Hr. change (demo_headers !! 24) with (Some (mkHeader 4 23 0)) in Hr.
  destruct Hr as (c & Hrun & Ha & Hb & _). exists db', c. split; [exact Hrun|split; [exact Ho|split; [exact Ha|exact Hb]]].
Defined.

(** The second search uses the link of the first. *)
Example lca_demo : let '(db, r) := lowest_common_ancestor 15 24 demo_db in
  r = Ok (mkHashAndNumber 2 12) /\ m_ancestor <$> header_metadata_cache db !! 15 = Some 12 /\ (lowest_common_ancestor 15 11 db).2 = Ok (mkHashAndNumber 1 11).
Proof. by vm_compute. Qed.

Lemma tree_route_spec_witness : exists db' r c, tree_route 15 24 demo_db = (db', Ok r) /\ lca (hs := demo_headers) 15 24 c /\ path (hs := demo_headers) 15 c (retracted r).
Proof.
  destruct (tree_route_spec demo_headers 15 24 demo_db demo_headers_ok (db_new_ok demo_headers)) as (db' & r & c & Hrun & _ & Hlca & Hp & _); [by eexists|by eexists|].
  exists db', r, c. split; [exact Hrun|split; [exact Hlca|exact Hp]].
Defined.

Example tree_route_demo : (tree_route 15 24 demo_db).2 =
  Ok (mkTreeRoute [mkHashAndNumber 5 15; mkHashAndNumber 4 14; mkHashAndNumber 3 13; mkHashAndNumber 2 12; mkHashAndNumber 3 23; mkHashAndNumber 4 24] 3).
Proof. by vm_compute. Qed.

(** 99 is being imported on top of 24. *)
Lemma is_descendent_of_spec_witness : exists db' r, is_descendent_of (Some (99, 24)) 12 99 demo_db = (db', Ok r) /\
  (r = true <-> ancestor (with_current (Some (99, 24)) demo_headers) 12 99).
Proof.
  destruct (is_descendent_of_spec demo_headers (Some (99, 24)) 12 99 demo_db demo_headers_ok (db_new_ok demo_headers)) as (db' & r & Hrun & _ & Hr);
    [split; [done|by eexists]|by eexists|by eexists|]. exists db', r. split; [exact Hrun|exact Hr].
Defined.

Example is_descendent_of_demo : (is_descendent_of (Some (99, 24)) 12 99 demo_db).2 = Ok true /\ (is_descendent_of (Some (99, 24)) 13 99 demo_db).2 = Ok false /\
  (is_descendent_of None 99 12 demo_db).2 = Err (UnknownBlock 99).
Proof. by vm_compute. Qed.
End HeaderDemo.
