(* ===== verification/Epochs.v ===== *)
(** * Epoch changes

    Model of [client/consensus/epochs/src/lib.rs]: the epochs that blocks of all
    forks have announced, kept in a fork tree ([ForkTree]) of their headers and a
    map of their data, which the BABE engine asks for the epoch of a new block.

    A block that is not yet imported is described to the ancestry function by
    its parent; the search for the epoch of a child uses a hash that is no
    block's, made of the parent's.  The theorems are proved for an ancestry
    function with the laws of [Ancestry] on the blocks and the documented
    treatment of the one block that is not yet imported. *)

From Stdlib Require Import ZArith Lia Permutation.
From stdpp Require Import gmap fin_maps option list relations.
From S2P Require Import Prelude ForkTree.

Local Open Scope Z_scope.

(** ** Epochs *)

(** The trait [Epoch]; slots are integers. *)
Class Epoch (Ep Descriptor : Type) : Type := {
  start_slot : Ep -> Z;
  end_slot : Ep -> Z;
  increment_epoch : Ep -> Descriptor -> Ep }.

(** Access to the bytes of a hash. *)
Class HashBytes (Hash : Type) : Type := {
  as_ref : Hash -> list Z;
  as_mut : Hash -> list Z -> Hash }.

Record EpochHeader : Type := mkEpochHeader { eh_start_slot : Z; eh_end_slot : Z }.

Definition EpochHeader_from {Ep Descriptor} `{Epoch Ep Descriptor} (epoch : Ep) : EpochHeader :=
  mkEpochHeader (start_slot epoch) (end_slot epoch).

Inductive EpochIdentifierPosition : Type := Genesis0 | Genesis1 | Regular.

#[export] Instance EpochIdentifierPosition_eq_dec : EqDecision EpochIdentifierPosition.
Proof. solve_decision. Defined.

Record EpochIdentifier (Hash : Type) : Type := mkEpochIdentifier {
  id_position : EpochIdentifierPosition;
  id_hash : Hash;
  id_number : Z }.

Arguments mkEpochIdentifier {Hash} id_position id_hash id_number.
Arguments id_position {Hash} _.
Arguments id_hash {Hash} _.
Arguments id_number {Hash} _.

Inductive ViableEpoch (Ep : Type) : Type :=
| UnimportedGenesis (e : Ep)
| Signaled (e : Ep).

Arguments UnimportedGenesis {Ep} e.
Arguments Signaled {Ep} e.

Inductive ViableEpochDescriptor (Hash : Type) : Type :=
| UnimportedGenesisAt (slot : Z)
| SignaledAt (identifier : EpochIdentifier Hash) (header : EpochHeader).

Arguments UnimportedGenesisAt {Hash} slot.
Arguments SignaledAt {Hash} identifier header.

Definition descriptor_start_slot {Hash} (self : ViableEpochDescriptor Hash) : Z :=
  match self with
  | UnimportedGenesisAt slot => slot
  | SignaledAt _ header => eh_start_slot header
  end.

Inductive PersistedEpoch (Ep : Type) : Type :=
| PersistedGenesis (epoch_0 epoch_1 : Ep)
| PersistedRegular (epoch_n : Ep).

Arguments PersistedGenesis {Ep} epoch_0 epoch_1.
Arguments PersistedRegular {Ep} epoch_n.

Inductive PersistedEpochHeader : Type :=
| GenesisHeader (epoch_0 epoch_1 : EpochHeader)
| RegularHeader (epoch_n : EpochHeader).

Record IncrementedEpoch (Ep : Type) : Type := mkIncremented { persisted : PersistedEpoch Ep }.

Arguments mkIncremented {Ep} persisted.
Arguments persisted {Ep} _.

Section epochs.
Context {Ep Descriptor : Type} {EP : Epoch Ep Descriptor}.

Definition PersistedEpochHeader_from (epoch : PersistedEpoch Ep) : PersistedEpochHeader :=
  match epoch with
  | PersistedGenesis epoch_0 epoch_1 => GenesisHeader (EpochHeader_from epoch_0) (EpochHeader_from epoch_1)
  | PersistedRegular epoch_n => RegularHeader (EpochHeader_from epoch_n)
  end.

Definition viable_as_ref (self : ViableEpoch Ep) : Ep := match self with UnimportedGenesis e | Signaled e => e end.

Definition increment (self : ViableEpoch Ep) (next_descriptor : Descriptor) : IncrementedEpoch Ep :=
  let next := increment_epoch (viable_as_ref self) next_descriptor in
  mkIncremented
    (match self with
     | UnimportedGenesis epoch_0 => PersistedGenesis epoch_0 next
     | Signaled _ => PersistedRegular next
     end).

Definition incremented_as_ref (self : IncrementedEpoch Ep) : Ep :=
  match persisted self with
  | PersistedGenesis _ epoch_1 => epoch_1
  | PersistedRegular epoch_n => epoch_n
  end.
End epochs.

(** ** Epoch changes *)

Record EpochChanges (Hash Ep : Type) `{Countable Hash} : Type := mkEpochChanges {
  inner : ForkTree Hash PersistedEpochHeader;
  epochs : gmap (Hash * Z) (PersistedEpoch Ep) }.

Arguments mkEpochChanges {Hash Ep _ _} inner epochs.
Arguments inner {Hash Ep _ _} _.
Arguments epochs {Hash Ep _ _} _.

(** The first bit of the hash is flipped. *)
Definition fake_head_hash {Hash} `{HashBytes Hash} {E} (parent_hash : Hash) : res E Hash :=
  byte ← expect (as_ref parent_hash !! 0%nat);
  mret (as_mut parent_hash (<[0%nat := Z.lxor byte 128]> (as_ref parent_hash))).

Section changes.
Context {Hash Ep Descriptor E : Type} `{Countable Hash} {HB : HashBytes Hash} {EP : Epoch Ep Descriptor}.
Abbreviation Changes := (EpochChanges Hash Ep).
Abbreviation EM := (M Changes (Error E)).
Implicit Types self : Changes.

(** [IsDescendentOfBuilder]: the block that is not yet imported, with its
    parent, gives an ancestry function. *)
Variable build_is_descendent_of : option (Hash * Hash) -> Hash -> Hash -> res E bool.

#[export] Instance EpochChanges_default : Default Changes := mkEpochChanges ForkTree_new ∅.

Definition with_inner (t : ForkTree Hash PersistedEpochHeader) self : Changes := mkEpochChanges t (epochs self).
Definition with_epochs (f : gmap (Hash * Z) (PersistedEpoch Ep) -> gmap (Hash * Z) (PersistedEpoch Ep)) self : Changes :=
  mkEpochChanges (inner self) (f (epochs self)).

(** A call of the fork tree. *)
Definition on_inner {A} (m : M (ForkTree Hash PersistedEpochHeader) (Error E) A) : EM A :=
  fun self => let '(t, r) := m (inner self) in (with_inner t self, r).

Definition epochs_rebalance self : Changes := with_inner (rebalance (inner self)) self.

(** Whether an epoch has ended at the slot. *)
Definition ended_by (slot : Z) (epoch : PersistedEpochHeader) : bool :=
  match epoch with
  | GenesisHeader _ epoch_1 => eh_end_slot epoch_1 <=? slot
  | RegularHeader epoch_n => eh_end_slot epoch_n <=? slot
  end.

Definition prune_finalized (hash : Hash) (number : Z) (slot : Z) : EM unit :=
  removed ← on_inner (prune (build_is_descendent_of None) (ended_by slot) hash number);
  modify (with_epochs (fun epochs => foldl (fun epochs '(hash, number, _) => delete (hash, number) epochs) epochs removed)).

Definition epoch_at (position : EpochIdentifierPosition) (v : PersistedEpoch Ep) : option Ep :=
  match v, position with
  | PersistedGenesis epoch_0 _, Genesis0 => Some epoch_0
  | PersistedGenesis _ epoch_1, Genesis1 => Some epoch_1
  | PersistedRegular epoch_n, Regular => Some epoch_n
  | _, _ => None
  end.

Definition epoch (id : EpochIdentifier Hash) self : option Ep := epochs self !! (id_hash id, id_number id) ≫= epoch_at (id_position id).

Definition viable_epoch (descriptor : ViableEpochDescriptor Hash) (make_genesis : Z -> Ep) self : option (ViableEpoch Ep) :=
  match descriptor with
  | UnimportedGenesisAt slot => Some (UnimportedGenesis (make_genesis slot))
  | SignaledAt identifier _ => Signaled <$> epoch identifier self
  end.

(** A change of the epoch that [epoch_mut] returns. *)
Definition alter_epoch (position : EpochIdentifierPosition) (f : Ep -> Ep) (v : PersistedEpoch Ep) : PersistedEpoch Ep :=
  match v, position with
  | PersistedGenesis epoch_0 epoch_1, Genesis0 => PersistedGenesis (f epoch_0) epoch_1
  | PersistedGenesis epoch_0 epoch_1, Genesis1 => PersistedGenesis epoch_0 (f epoch_1)
  | PersistedRegular epoch_n, Regular => PersistedRegular (f epoch_n)
  | _, _ => v
  end.

Definition epoch_mut (id : EpochIdentifier Hash) (f : Ep -> Ep) self : Changes :=
  with_epochs (alter (alter_epoch (id_position id) f) (id_hash id, id_number id)) self.

Definition epoch_data (descriptor : ViableEpochDescriptor Hash) (make_genesis : Z -> Ep) self : option Ep :=
  match descriptor with
  | UnimportedGenesisAt slot => Some (make_genesis slot)
  | SignaledAt identifier _ => epoch identifier self
  end.

(** Whether an epoch has started at the slot. *)
Definition started_by (slot : Z) (epoch : PersistedEpochHeader) : bool :=
  match epoch with
  | GenesisHeader epoch_0 _ => eh_start_slot epoch_0 <=? slot
  | RegularHeader epoch_n => eh_start_slot epoch_n <=? slot
  end.

(** Which of the epochs of a node is meant at the slot. *)
Definition position_at (slot : Z) (epoch : PersistedEpochHeader) : EpochIdentifierPosition * EpochHeader :=
  match epoch with
  | GenesisHeader epoch_0 epoch_1 => if eh_start_slot epoch_1 <=? slot then (Genesis1, epoch_1) else (Genesis0, epoch_0)
  | RegularHeader epoch_n => (Regular, epoch_n)
  end.

Definition descriptor_of (slot : Z) (node : Node Hash PersistedEpochHeader) : ViableEpochDescriptor Hash :=
  let '(position, header) := position_at slot (data node) in
  SignaledAt (mkEpochIdentifier position (hash node) (number node)) header.

Definition epoch_descriptor_for_child_of (parent_hash : Hash) (parent_number slot : Z) self : res (Error E) (option (ViableEpochDescriptor Hash)) :=
  fake_head_hash ← fake_head_hash parent_hash;
  let is_descendent_of := build_is_descendent_of (Some (fake_head_hash, parent_hash)) in
  if parent_number =? 0 then mret (Some (UnimportedGenesisAt slot))
  else
    node ← find_node_where is_descendent_of (started_by slot) (inner self) fake_head_hash (parent_number + 1);
    mret (descriptor_of slot <$> node).

Definition epoch_data_for_child_of (parent_hash : Hash) (parent_number slot : Z) (make_genesis : Z -> Ep) self : res (Error E) (option Ep) :=
  descriptor ← epoch_descriptor_for_child_of parent_hash parent_number slot self;
  mret (descriptor ≫= fun des => epoch_data des make_genesis self).

Definition import_epoch (hash : Hash) (number : Z) (parent_hash : Hash) (epoch : IncrementedEpoch Ep) : EM unit :=
  let is_descendent_of := build_is_descendent_of (Some (hash, parent_hash)) in
  let header := PersistedEpochHeader_from (persisted epoch) in
  let store := modify (with_epochs <[(hash, number) := persisted epoch]>) in
  catch (on_inner (import is_descendent_of hash number header))
    (fun _ => store)
    (fun e => match e with Duplicate => store | _ => throw e end).
End changes.

(** [map]; the function has no state of its own. *)
Definition map_header (header : PersistedEpochHeader) : PersistedEpochHeader :=
  match header with
  | GenesisHeader epoch_0 epoch_1 =>
    GenesisHeader (mkEpochHeader (eh_start_slot epoch_0) (eh_end_slot epoch_0)) (mkEpochHeader (eh_start_slot epoch_1) (eh_end_slot epoch_1))
  | RegularHeader epoch_n => RegularHeader (mkEpochHeader (eh_start_slot epoch_n) (eh_end_slot epoch_n))
  end.

Definition epochs_map {Hash Ep B} `{Countable Hash} (f : Hash -> Z -> Ep -> B) (self : EpochChanges Hash Ep) : EpochChanges Hash B :=
  mkEpochChanges (tree_map (fun _ _ header (u : unit) => (u, map_header header)) (inner self) tt).2
    (map_imap (fun '(hash, number) epoch => Some
      (match epoch with
       | PersistedGenesis epoch_0 epoch_1 => PersistedGenesis (f hash number epoch_0) (f hash number epoch_1)
       | PersistedRegular epoch_n => PersistedRegular (f hash number epoch_n)
       end)) (epochs self)).

(** ** Fork trees under two ancestries

    A forest is well formed for every ancestry that agrees on its blocks. *)

Section agree.
Context {H V E : Type} {f1 f2 : H -> H -> res E bool} (A1 : Ancestry f1) (A2 : Ancestry f2).
Implicit Types (n : Node H V) (ns : list (Node H V)).

Definition agrees (hs : list H) : Prop :=
  (forall x, x ∈ hs -> num (Ancestry := A1) x = num (Ancestry := A2) x) /\
  (forall x y, x ∈ hs -> y ∈ hs -> desc (Ancestry := A1) x y = desc (Ancestry := A2) x y).

Lemma agrees_sub hs hs' : (forall x, x ∈ hs' -> x ∈ hs) -> agrees hs -> agrees hs'.
Proof. intros Hs [Hn Hd]. split; auto. Qed.

Lemma hash_in_hashes n ns : n ∈ ns -> hash n ∈ hashes ns.
Proof. intros Hn. apply elem_of_hashes. eauto. Qed.

Lemma wf_node_agree n : agrees (hashes [n]) -> wf_node f1 n -> wf_node f2 n.
Proof.
  induction n as [h k d cs IH] using Node_ind'. intros Hag Hw. destruct (wf_node_inv f1 _ Hw) as (Hk & [Hc [Hnd Ha]] & Hd). simpl in *.
  assert (forall c y, c ∈ cs -> y ∈ hashes [c] -> y ∈ hashes [mkNode h k d cs]) as Hin.
  { intros c y Hcs Hy. rewrite hashes_cons. simpl. right. rewrite elem_of_app. left. by eapply hashes_in. }
  assert (h ∈ hashes [mkNode h k d cs]) as Hh by (rewrite hashes_cons; simpl; left).
  assert (forall c, c ∈ cs -> hash c ∈ hashes [mkNode h k d cs]) as Hch by (intros c Hcs; apply (Hin c); [done|rewrite hashes_cons; left]).
  apply wf_node_intro; simpl.
  - rewrite Hk. by apply Hag.
  - split; [intros c Hcs; apply IH; [done| |by apply Hc]; eapply agrees_sub; [|exact Hag]; eauto|]. split; [done|].
    intros c c' Hcs Hcs'. rewrite <-(proj2 Hag) by auto. auto.
  - intros c Hcs. rewrite <-(proj2 Hag) by auto. auto.
Qed.

Lemma wf_agree ns : agrees (hashes ns) -> wf_forest f1 ns -> wf_forest f2 ns.
Proof.
  intros Hag [Hc [Hnd Ha]]. split; [|split; [done|]].
  - intros c Hcs. apply wf_node_agree; [|auto]. eapply agrees_sub; [|exact Hag]. intros x. by apply hashes_in.
  - intros c c' Hcs Hcs'. rewrite <-(proj2 Hag) by (by apply hash_in_hashes). auto.
Qed.
End agree.

(** The nodes below a node of a forest are its descendants. *)
Section below.
Context {H V E : Type} {f : H -> H -> res E bool} {A : Ancestry f}.
Implicit Types (n x y : Node H V) (ns : list (Node H V)).

Lemma node_descendant n x y : wf_node f n -> x ∈ node_nodes n -> y ∈ node_nodes n -> desc (hash x) (hash y) = true -> y ∈ forest_nodes (children x).
Proof.
  induction n as [h k d cs IH] using Node_ind'. intros Hw Hx Hy Hxy. destruct (wf_node_inv f _ Hw) as (_ & [Hc Ha] & Hd). simpl in Hc, Ha, Hd.
  rewrite node_nodes_eq in Hx, Hy. apply elem_of_cons in Hx as [->|Hx]; apply elem_of_cons in Hy as [->|Hy]; simpl in *; [|done|..].
  - by rewrite (desc_irrefl f) in Hxy.
  - pose proof (wf_node_below f _ _ Hw Hx) as Hb. apply (desc_asym f) in Hb. simpl in Hb. congruence.
  - apply elem_of_forest_nodes in Hx as (c & Hcs & Hx), Hy as (c' & Hcs' & Hy).
    destruct (wf_node_nodes f c x (Hc c Hcs) Hx) as [_ Hcx], (wf_node_nodes f c' y (Hc c' Hcs') Hy) as [_ Hcy].
    assert (c = c') as <-; [|by eapply IH; eauto]. apply (antichain_eq f cs c c' (hash y)); [done..| |].
    + right. destruct Hcx as [->|Hcx]; [done|]. by eapply desc_trans.
    + destruct Hcy as [->|]; auto.
Qed.

Lemma forest_descendant ns x y : wf_forest f ns -> x ∈ forest_nodes ns -> y ∈ forest_nodes ns -> desc (hash x) (hash y) = true -> y ∈ forest_nodes (children x).
Proof.
  intros [Hc Ha] (c & Hcs & Hx)%elem_of_forest_nodes (c' & Hcs' & Hy)%elem_of_forest_nodes Hxy.
  destruct (wf_node_nodes f c x (Hc c Hcs) Hx) as [_ Hcx], (wf_node_nodes f c' y (Hc c' Hcs') Hy) as [_ Hcy].
  assert (c = c') as <-; [|by eapply node_descendant; eauto]. apply (antichain_eq f ns c c' (hash y)); [done..| |].
  - right. destruct Hcx as [->|Hcx]; [done|]. by eapply desc_trans.
  - destruct Hcy as [->|]; auto.
Qed.
End below.

(** ** The epoch of a block *)

Section spec.
Context {Hash Ep Descriptor E : Type} `{Countable Hash} {HB : HashBytes Hash} {EP : Epoch Ep Descriptor}.
Abbreviation Changes := (EpochChanges Hash Ep).
Abbreviation Item := (Hash * Z * PersistedEpochHeader)%type.
Implicit Types (self : Changes) (a b c p h : Hash) (i j : Item) (t : ForkTree Hash PersistedEpochHeader).

Context (build : option (Hash * Hash) -> Hash -> Hash -> res E bool) {A : Ancestry (build None)}.

(** The documented answer for a block [c] that is not imported, with parent
    [p]: searches for it refer to the parent. *)
Definition ext c p a b : bool := negb (bool_decide (a = c)) && (if bool_decide (b = c) then bool_decide (a = p) || desc a p else desc a b).

Hypothesis build_current : forall c p a b, build (Some (c, p)) a b = Ok (ext c p a b).

Lemma ext_true c p a b : ext c p a b = true <-> a <> c /\ ((b = c /\ (a = p \/ desc a p = true)) \/ (b <> c /\ desc a b = true)).
Proof.
  unfold ext. rewrite andb_true_iff, negb_true_iff, bool_decide_eq_false. case_bool_decide; rewrite ?orb_true_iff, ?bool_decide_eq_true; naive_solver.
Qed.

Definition ext_ancestry c p (Hne : c <> p) : Ancestry (build (Some (c, p))).
Proof.
  refine {| desc := ext c p; num b := if bool_decide (b = c) then num p + 1 else num b |}.
  - apply build_current.
  - intros a b (Hac & [[-> Hap]|[Hbc Hab]])%ext_true; rewrite (bool_decide_eq_false_2 _ Hac).
    + rewrite bool_decide_eq_true_2 by done. destruct Hap as [->|Hap%desc_num]; lia.
    + rewrite (bool_decide_eq_false_2 _ Hbc). by apply desc_num.
  - intros a b d. rewrite !ext_true. intros (Hac & [[Hb _]|[_ Hab]]) (Hbc & Hbd); [done|]. split; [done|].
    destruct Hbd as [[-> [->|Hbp]]|[Hdc Hbd]]; [by auto| |]; [left; split; [done|right]|right; split; [done|]]; by eapply desc_trans.
  - intros a b d. rewrite !ext_true. intros (Hac & Ha) (Hbc & Hb).
    assert (a = b \/ desc a b = true \/ desc b a = true) as Hor; [|naive_solver].
    destruct Ha as [[-> [->|Ha]]|[Hdc Ha]], Hb as [[Hd [->|Hb]]|[Hd Hb]]; auto; try done; by eapply desc_chain.
Defined.

(** [x] is the block [p] or an ancestor of it. *)
Abbreviation on_chain p x := (on_branch (build None) p x = true).

Lemma on_chain_spec p x : on_chain p x <-> x = p \/ desc x p = true.
Proof. unfold on_branch. by rewrite orb_true_iff, bool_decide_eq_true. Qed.

Lemma on_chain_refl p : on_chain p p.
Proof. apply on_chain_spec. by left. Qed.

Lemma on_chain_trans p q x : on_chain p q -> on_chain q x -> on_chain p x.
Proof. rewrite !on_chain_spec. intros [->|Hq] [->|Hx]; auto. right. by eapply desc_trans. Qed.

Lemma on_chain_linear p x y : on_chain p x -> on_chain p y -> x = y \/ desc x y = true \/ desc y x = true.
Proof. rewrite !on_chain_spec. intros [->|Hx] [->|Hy]; auto. by eapply desc_chain. Qed.

(** An epoch announced on the branch of [p] that has started at the slot; the
    last of them. *)
Definition announced t p slot i : Prop := i ∈ items (roots t) /\ on_chain p i.1.1 /\ started_by slot i.2 = true.
Definition current_epoch t p slot i : Prop := announced t p slot i /\ forall j, announced t p slot j -> j = i \/ desc j.1.1 i.1.1 = true.

Lemma current_unique t p slot i j : current_epoch t p slot i -> current_epoch t p slot j -> i = j.
Proof.
  intros [Hi Hmi] [Hj Hmj]. destruct (Hmi j Hj) as [|Hji]; [done|]. destruct (Hmj i Hi) as [|Hij]; [done|]. apply (desc_asym (build None)) in Hij. congruence.
Qed.

Definition descriptor_item (slot : Z) i : ViableEpochDescriptor Hash :=
  let '(position, header) := position_at slot i.2 in SignaledAt (mkEpochIdentifier position i.1.1 i.1.2) header.

Lemma descriptor_of_item slot (x : Node Hash PersistedEpochHeader) : descriptor_of slot x = descriptor_item slot (item x).
Proof. done. Qed.

Lemma elem_of_items i t : i ∈ items (roots t) <-> exists x, x ∈ forest_nodes (roots t) /\ i = item x.
Proof. unfold items. rewrite list_elem_of_fmap. naive_solver. Qed.

Lemma elem_of_items_hash i t : i ∈ items (roots t) -> i.1.1 ∈ hashes (roots t).
Proof. intros Hi. rewrite hashes_items. by apply (list_elem_of_fmap_2 (fun x : Item => x.1.1)). Qed.

(** A hash that stands for the child of [p]: no block of the tree. *)
Definition fresh_child p c t : Prop := fake_head_hash (E := Error E) p = Ok c /\ c <> p /\ c ∉ hashes (roots t).

Lemma ext_agrees c p (Hne : c <> p) t : c ∉ hashes (roots t) -> agrees A (ext_ancestry c p Hne) (hashes (roots t)).
Proof.
  intros Hc. split; simpl.
  - intros x Hx. case_bool_decide; [congruence|done].
  - intros x y Hx Hy. unfold ext. rewrite !bool_decide_eq_false_2 by congruence. done.
Qed.

Lemma descriptor_run self p slot c : wf (build None) (inner self) -> fresh_child p c (inner self) -> num p <> 0 ->
  (exists i, epoch_descriptor_for_child_of build p (num p) slot self = Ok (Some (descriptor_item slot i)) /\ current_epoch (inner self) p slot i) \/
  (epoch_descriptor_for_child_of build p (num p) slot self = Ok None /\ forall i, ~ announced (inner self) p slot i).
Proof.
  intros Hw (Hf & Hne & Hc) Hn. unfold epoch_descriptor_for_child_of. rewrite Hf. cbn [mbind res_mbind]. rewrite (proj2 (Z.eqb_neq _ _) Hn).
  pose proof (wf_agree A (ext_ancestry c p Hne) _ (ext_agrees c p Hne _ Hc) Hw) as Hw'.
  assert (forall x, candidate (A := ext_ancestry c p Hne) (build (Some (c, p))) (started_by slot) (roots (inner self)) c x <->
    x ∈ forest_nodes (roots (inner self)) /\ announced (inner self) p slot (item x)) as Hcand.
  { intros x. unfold candidate, announced. simpl. rewrite ext_true, on_chain_spec, elem_of_items. split; [naive_solver|]. intros (Hx & _ & Hor & Hs).
    split_and!; [done| |naive_solver|done]. intros Heq. apply Hc. rewrite <-Heq. unfold hashes. by apply list_elem_of_fmap_2. }
  destruct (find_node_where_deepest (A := ext_ancestry c p Hne) (build (Some (c, p))) (started_by slot) (inner self) c (num p + 1) Hw') as [(x & -> & Hx & Hmax)|[-> Hno]].
  { simpl. by rewrite bool_decide_eq_true_2. }
  - left. exists (item x). split; [done|]. apply Hcand in Hx as [Hx Han]. split; [done|]. intros j Hj. destruct (proj1 (elem_of_items j _) (proj1 Hj)) as (y & Hy & ->).
    destruct (Hmax y) as [->|Hd]; [by apply Hcand|by left|]. simpl in Hd. apply ext_true in Hd as (_ & [[Heq _]|[_ Hd]]); [|by right].
    exfalso. apply Hc. rewrite <-Heq. unfold hashes. by apply list_elem_of_fmap_2.
  - right. split; [done|]. intros i Hi. destruct (proj1 (elem_of_items i _) (proj1 Hi)) as (y & Hy & ->). apply (Hno y), Hcand. done.
Qed.

(** Two states answer alike for the child of [p] if the same epoch is current. *)
Lemma descriptor_same self self' p slot c : wf (build None) (inner self) -> wf (build None) (inner self') ->
  fresh_child p c (inner self) -> fresh_child p c (inner self') -> num p <> 0 ->
  (forall i, current_epoch (inner self) p slot i -> current_epoch (inner self') p slot i) ->
  ((forall i, ~ announced (inner self) p slot i) -> forall i, ~ announced (inner self') p slot i) ->
  epoch_descriptor_for_child_of build p (num p) slot self' = epoch_descriptor_for_child_of build p (num p) slot self.
Proof.
  intros Hw Hw' Hc Hc' Hn Hcur Hno. destruct (descriptor_run self p slot c Hw Hc Hn) as [(i & -> & Hi)|[-> Hi]], (descriptor_run self' p slot c Hw' Hc' Hn) as [(j & -> & Hj)|[-> Hj]].
  - by rewrite (current_unique _ p slot i j (Hcur i Hi) Hj).
  - destruct (Hj i). by apply Hcur.
  - destruct (Hno Hi j). apply Hj.
  - done.
Qed.

(** ** The invariant *)

Definition start_of (header : PersistedEpochHeader) : Z := match header with GenesisHeader e _ | RegularHeader e => eh_start_slot e end.
Definition end_of (header : PersistedEpochHeader) : Z := match header with GenesisHeader _ e | RegularHeader e => eh_end_slot e end.

Lemma started_by_spec slot header : started_by slot header = true <-> start_of header <= slot.
Proof. destruct header; simpl; by rewrite Z.leb_le. Qed.

Lemma ended_by_spec slot header : ended_by slot header = true <-> end_of header <= slot.
Proof. destruct header; simpl; by rewrite Z.leb_le. Qed.

(** The tree and the map hold the same epochs, and along a branch the epochs
    follow one another. *)
Record changes_ok self : Prop := {
  co_wf : wf (build None) (inner self);
  co_best : best_finalized_number (inner self) = None;
  co_data i : i ∈ items (roots (inner self)) -> exists pe, epochs self !! i.1 = Some pe /\ PersistedEpochHeader_from pe = i.2;
  co_dom k : is_Some (epochs self !! k) -> exists d, (k, d) ∈ items (roots (inner self));
  co_span i : i ∈ items (roots (inner self)) -> start_of i.2 <= end_of i.2;
  co_order i j : i ∈ items (roots (inner self)) -> j ∈ items (roots (inner self)) -> desc i.1.1 j.1.1 = true -> end_of i.2 <= start_of j.2 }.

Lemma item_inj self i j : changes_ok self -> i ∈ items (roots (inner self)) -> j ∈ items (roots (inner self)) -> i.1.1 = j.1.1 -> i = j.
Proof.
  intros Ho Hi Hj Heq. pose proof (wf_forest_NoDup (build None) _ (co_wf _ Ho)) as Hnd. rewrite hashes_items in Hnd.
  apply list_elem_of_lookup in Hi as [m Hi], Hj as [n Hj]. assert (m = n) as <-; [|congruence].
  eapply (NoDup_lookup _ m n i.1.1); [exact Hnd| |]; rewrite list_lookup_fmap; [by rewrite Hi|rewrite Hj; simpl; by rewrite Heq].
Qed.

Lemma changes_default_ok : changes_ok dflt.
Proof.
  clear build_current. split; simpl; try done.
  - split; [set_solver|]. split; [constructor|set_solver].
  - intros i Hi. by apply not_elem_of_nil in Hi.
  - intros k. rewrite lookup_empty. by intros [? ?].
  - intros i Hi. by apply not_elem_of_nil in Hi.
  - intros i j Hi. by apply not_elem_of_nil in Hi.
Qed.

(** The epoch of a descriptor is stored, and the descriptor tells its slots. *)
Lemma descriptor_stored self slot i make_genesis : changes_ok self -> i ∈ items (roots (inner self)) -> started_by slot i.2 = true ->
  exists e, viable_epoch (descriptor_item slot i) make_genesis self = Some (Signaled e) /\ start_slot e <= slot /\
    descriptor_start_slot (descriptor_item slot i) = start_slot e.
Proof.
  intros Ho Hi Hs. destruct (co_data _ Ho i Hi) as (pe & Hpe & Hd). destruct i as [[h n] hd]. simpl in *. subst hd. unfold descriptor_item, viable_epoch, epoch.
  destruct pe as [e0 e1|e]; simpl in *.
  - destruct (start_slot e1 <=? slot) eqn:He; simpl; rewrite Hpe; simpl; eexists; (split_and!; [reflexivity| |done]); by apply Z.leb_le.
  - rewrite Hpe. simpl. eexists. split_and!; [reflexivity| |done]. by apply Z.leb_le.
Qed.

(** ** Import *)

(** [par] is the parent of [h]. *)
Definition parent_of par h : Prop := num h = num par + 1 /\ forall a, desc a h = true <-> a = par \/ desc a par = true.

Lemma agrees_sym {f1 f2 : Hash -> Hash -> res E bool} (A1 : Ancestry f1) (A2 : Ancestry f2) hs : agrees A1 A2 hs -> agrees A2 A1 hs.
Proof. intros [Hn Hd]. split; intros; symmetry; auto. Qed.

Lemma parent_agrees h par (Hne : h <> par) hs : parent_of par h -> (forall y, y ∈ hs -> desc h y = false) -> agrees A (ext_ancestry h par Hne) hs.
Proof.
  intros [Hn Hd] Hno. split; simpl.
  - intros x Hx. case_bool_decide; [subst x; lia|done].
  - intros x y Hx Hy. unfold ext. case_bool_decide as Hxh; [subst x; simpl; auto|]. simpl. case_bool_decide; [subst y|done].
    apply eq_true_iff_eq. rewrite orb_true_iff, bool_decide_eq_true. apply Hd.
Qed.

(** A block announces an epoch: its branch is imported in order, the epoch
    follows those announced before on the branch, and a block announces one
    epoch. *)
Record announces h par (hd : PersistedEpochHeader) self : Prop := {
  an_parent : parent_of par h;
  an_order y : y ∈ hashes (roots (inner self)) -> desc h y = false;
  an_span : start_of hd <= end_of hd;
  an_follows i : i ∈ items (roots (inner self)) -> desc i.1.1 h = true -> end_of i.2 <= start_of hd;
  an_once i : i ∈ items (roots (inner self)) -> i.1.1 = h -> i.2 = hd }.

Lemma item_number self i : changes_ok self -> i ∈ items (roots (inner self)) -> i.1.2 = num i.1.1.
Proof.
  intros Ho (x & Hx & ->)%elem_of_items. apply elem_of_forest_nodes in Hx as (r & Hr & Hx).
  destruct (wf_node_nodes (build None) r x (proj1 (co_wf _ Ho) r Hr) Hx) as [Hwx _]. by destruct (wf_node_inv (build None) _ Hwx) as (Hn & _).
Qed.

Lemma import_epoch_run self h par inc : changes_ok self -> announces h par (PersistedEpochHeader_from (persisted inc)) self ->
  let new := (h, num h, PersistedEpochHeader_from (persisted inc)) in
  exists self', import_epoch build h (num h) par inc self = (self', Ok tt) /\ changes_ok self' /\
    forall i, i ∈ items (roots (inner self')) <-> i = new \/ i ∈ items (roots (inner self)).
Proof.
  intros Ho Han new. destruct Han as [Hpar Hord Hspan Hfol Honce]. assert (h <> par) as Hne by (destruct Hpar; intros ->; lia). set (hd := PersistedEpochHeader_from (persisted inc)) in *.
  pose proof (wf_agree A (ext_ancestry h par Hne) _ (parent_agrees h par Hne _ Hpar Hord) (co_wf _ Ho)) as Hw.
  pose proof (import_run (A := ext_ancestry h par Hne) (build (Some (h, par))) (inner self) h (num h) hd Hw) as Hrun. unfold reverts in Hrun. rewrite (co_best _ Ho) in Hrun.
  unfold import_epoch, catch, on_inner. fold hd. destruct (decide (h ∈ hashes (roots (inner self)))) as [Hin|Hni].
  - rewrite Hrun; [|simpl; rewrite bool_decide_eq_true_2 by done; apply Hpar|intros y _; simpl; unfold ext; by rewrite bool_decide_eq_true_2].
    eexists. split; [reflexivity|]. rewrite hashes_items in Hin. apply list_elem_of_fmap in Hin as (i & -> & Hi).
    assert (i = (i.1.1, num i.1.1, hd)) as Hnew by (rewrite <-(Honce i Hi eq_refl), <-(item_number self i Ho Hi); by destruct i as [[? ?] ?]).
    split; [|intros j; simpl; split; [by right|intros [->|]; [unfold new; by rewrite <-Hnew|done]]]. split; simpl; try apply Ho.
    + intros j Hj. destruct (decide (j.1 = (i.1.1, num i.1.1))) as [Heq|Hk]; [|rewrite lookup_insert_ne by done; by apply Ho].
      rewrite Heq, lookup_insert_eq. eexists. split; [done|]. symmetry. apply Honce; [done|]. by rewrite Heq.
    + intros k Hk. destruct (decide (k = (i.1.1, num i.1.1))) as [->|Hkk]; [exists hd; by rewrite <-Hnew|]. rewrite lookup_insert_ne in Hk by done. by apply Ho.
  - destruct Hrun as (t' & is_root & -> & Hw' & _ & Hbest & Hit & _); [simpl; rewrite bool_decide_eq_true_2 by done; apply Hpar|intros y _; simpl; unfold ext; by rewrite bool_decide_eq_true_2|].
    eexists. split; [reflexivity|]. assert (forall i, i ∈ items (roots t') <-> i = new \/ i ∈ items (roots (inner self))) as Hiff by (intros i; rewrite Hit, elem_of_cons; done).
    assert (forall i, i ∈ items (roots (inner self)) -> i.1.1 <> h) as Hold by (intros i Hi <-; by apply Hni, elem_of_items_hash).
    assert (forall y, y ∈ hashes (roots t') -> desc h y = false) as Hord'.
    { intros y. rewrite hashes_items, list_elem_of_fmap. intros (i & -> & [->|Hi]%Hiff); [apply (desc_irrefl (build None))|by apply Hord, elem_of_items_hash]. }
    split; [|done]. split; simpl.
    + apply (wf_agree (ext_ancestry h par Hne) A); [|exact Hw']. by apply agrees_sym, parent_agrees.
    + done.
    + intros i [->|Hi]%Hiff; [simpl; rewrite lookup_insert_eq; eauto|]. rewrite lookup_insert_ne by (intros Heq; apply (Hold i Hi); by rewrite <-Heq). by apply Ho.
    + intros k Hk. setoid_rewrite Hiff. destruct (decide (k = (h, num h))) as [->|Hkk]; [exists hd; by left|]. rewrite lookup_insert_ne in Hk by done.
      destruct (co_dom _ Ho k Hk) as [d Hd]. eauto.
    + intros i [->|Hi]%Hiff; [done|by apply Ho].
    + intros i j [->|Hi]%Hiff [->|Hj]%Hiff; simpl; [by rewrite (desc_irrefl (build None))|rewrite Hord by (by apply elem_of_items_hash); done|by apply Hfol|by apply (co_order _ Ho)].
Qed.

(** The new epoch is current for the branches of its block. *)
Lemma import_current self self' h par hd p slot : changes_ok self' -> announces h par hd self ->
  (forall i, i ∈ items (roots (inner self')) <-> i = (h, num h, hd) \/ i ∈ items (roots (inner self))) ->
  if decide (on_chain p h /\ started_by slot hd = true) then current_epoch (inner self') p slot (h, num h, hd)
  else forall i, announced (inner self') p slot i <-> announced (inner self) p slot i.
Proof.
  intros Ho' Han Hiff. unfold current_epoch, announced. case_decide as Hnew.
  - split; [split; [by apply Hiff; left|done]|]. intros j (Hj & Hjp & _). simpl.
    destruct (on_chain_linear p j.1.1 h Hjp (proj1 Hnew)) as [Heq|[|Hd]]; [left; apply (item_inj self'); [done|done|by apply Hiff; left|done]|by right|].
    apply Hiff in Hj as [->|Hj]; [by left|]. by rewrite (an_order _ _ _ _ Han) in Hd by (by apply elem_of_items_hash).
  - intros i. rewrite Hiff. split; [|naive_solver]. intros ([->|Hi] & Hp & Hs); [|done]. by destruct Hnew.
Qed.

(** ** Pruning *)

Lemma foldl_delete_lookup (removed : list Item) (m : gmap (Hash * Z) (PersistedEpoch Ep)) k :
  foldl (fun epochs '(hash, number, _) => delete (hash, number) epochs) m removed !! k = if decide (k ∈ removed.*1) then None else m !! k.
Proof.
  revert m. induction removed as [|[[h n] d] l IH]; intros m; cbn [foldl]; [rewrite decide_False by apply not_elem_of_nil; done|]. rewrite IH, fmap_cons. cbn [fst].
  destruct (decide (k ∈ l.*1)) as [Hin|Hni]; [rewrite decide_True by (by right); done|]. destruct (decide (k = (h, n))) as [->|Hne].
  - rewrite decide_True by left. apply lookup_delete_eq.
  - rewrite decide_False by (rewrite elem_of_cons; naive_solver). by apply lookup_delete_ne.
Qed.

(** Dropping some of the nodes of the tree with their data. *)
Lemma changes_ok_sub self t removed : changes_ok self -> wf (build None) t -> best_finalized_number t = None -> items (roots t) ++ removed ≡ₚ items (roots (inner self)) ->
  changes_ok (mkEpochChanges t (foldl (fun epochs '(hash, number, _) => delete (hash, number) epochs) (epochs self) removed)).
Proof.
  intros Ho Hw Hb Hp. assert (forall i, i ∈ items (roots t) -> i ∈ items (roots (inner self))) as Hsub by (intros i Hi; rewrite <-Hp; set_solver).
  assert (forall i, i ∈ removed -> i ∈ items (roots (inner self))) as Hrem by (intros i Hi; rewrite <-Hp; set_solver).
  assert (forall i j, i ∈ items (roots t) -> j ∈ removed -> i.1.1 <> j.1.1) as Hdj.
  { intros i j Hi Hj. pose proof (wf_forest_NoDup (build None) _ (co_wf _ Ho)) as Hnd. rewrite hashes_items, <-Hp, fmap_app in Hnd.
    apply NoDup_app in Hnd as (_ & Hnd & _). intros Heq. apply (Hnd i.1.1); [by apply (list_elem_of_fmap_2 (fun x : Item => x.1.1))|].
    rewrite Heq. by apply (list_elem_of_fmap_2 (fun x : Item => x.1.1)). }
  split; simpl; [done|done|..].
  - intros i Hi. rewrite foldl_delete_lookup, decide_False; [by apply Ho, Hsub|]. intros (j & Heq & Hj)%list_elem_of_fmap. apply (Hdj i j Hi Hj). by rewrite Heq.
  - intros k. rewrite foldl_delete_lookup. case_decide as Hk; [by intros [? ?]|]. intros [d Hd]%(co_dom _ Ho). exists d. rewrite <-Hp in Hd.
    apply elem_of_app in Hd as [|Hd]; [done|]. destruct Hk. by apply (list_elem_of_fmap_2 fst) in Hd.
  - intros i Hi. by apply Ho, Hsub.
  - intros i j Hi Hj. apply (co_order _ Ho); by apply Hsub.
Qed.

(** An epoch that has started for a block that is [h] or descends from it: the
    epoch is the new root or below the kept child. *)
Lemma kept_by_prune self h slot (x : Node Hash PersistedEpochHeader) (live : Item) p i : changes_ok self ->
  candidate (build None) (ended_by slot) (roots (inner self)) h x ->
  live ∈ items (roots (inner self)) -> on_chain h live.1.1 -> ended_by slot live.2 = false -> on_chain p h ->
  i ∈ items (roots (inner self)) -> on_chain p i.1.1 -> i = item x \/ desc (hash x) i.1.1 = true ->
  i = item x \/ i ∈ items (filter (fun n : Node Hash PersistedEpochHeader => on_branch (build None) h (hash n) = true) (children x)).
Proof.
  intros Ho (Hx & Hxh & Hend) Hl Hlh Hlive Hph Hi Hip [->|Hxi]; [by left|right].
  assert (item x ∈ items (roots (inner self))) as Hxin by (apply elem_of_items; eauto).
  assert (desc (hash x) live.1.1 = true) as Hxl.
  { destruct (on_chain_linear h (hash x) live.1.1) as [Heq|[|Hlx]]; [apply on_chain_spec; by right|done| |done|].
    - assert (live = item x) as -> by (by apply (item_inj self)). simpl in Hlive. congruence.
    - pose proof (co_order _ Ho live (item x) Hl Hxin Hlx). pose proof (co_span _ Ho (item x) Hxin). apply ended_by_spec in Hend. simpl in *.
      assert (ended_by slot live.2 = true) as Hcontra by (apply ended_by_spec; pose proof (co_span _ Ho live Hl); lia). congruence. }
  apply elem_of_items in Hl as (z & Hz & ->), Hi as (y & Hy & ->). simpl in *.
  pose proof (forest_descendant _ x z (co_wf _ Ho) Hx Hz Hxl) as Hzx. pose proof (forest_descendant _ x y (co_wf _ Ho) Hx Hy Hxi) as Hyx.
  apply elem_of_forest_nodes in Hx as (r & Hr & Hxr). destruct (wf_node_nodes (build None) r x (proj1 (co_wf _ Ho) r Hr) Hxr) as [Hwx _].
  destruct (wf_node_inv (build None) _ Hwx) as (_ & [Hwc Hanti] & _). apply elem_of_forest_nodes in Hzx as (cz & Hcz & Hzc), Hyx as (cy & Hcy & Hyc).
  destruct (wf_node_nodes (build None) cz z (Hwc cz Hcz) Hzc) as [_ Hzz], (wf_node_nodes (build None) cy y (Hwc cy Hcy) Hyc) as [_ Hyy].
  assert (on_chain h (hash cz)) as Hczh by (eapply on_chain_trans; [exact Hlh|]; apply on_chain_spec; destruct Hzz as [->|]; auto).
  assert (on_chain p (hash cy)) as Hcyp by (eapply on_chain_trans; [exact Hip|]; apply on_chain_spec; destruct Hyy as [->|]; auto).
  assert (cy = cz) as ->.
  { apply (antichain_eq (build None) (children x) cy cz p Hanti Hcy Hcz); [apply on_chain_spec in Hcyp; naive_solver|].
    pose proof (on_chain_trans p h (hash cz) Hph Hczh) as Hpz. apply on_chain_spec in Hpz. naive_solver. }
  unfold items. apply list_elem_of_fmap. exists y. split; [done|]. apply elem_of_forest_nodes. exists cz. split; [|done]. by apply list_elem_of_filter.
Qed.

(** What is current for [p] stays current if it stays in the tree. *)
Lemma current_kept t t' p slot : (forall i, i ∈ items (roots t') -> i ∈ items (roots t)) ->
  (forall i, current_epoch t p slot i -> i ∈ items (roots t')) ->
  (forall i, current_epoch t p slot i -> current_epoch t' p slot i) /\ ((forall i, ~ announced t p slot i) -> forall i, ~ announced t' p slot i).
Proof.
  intros Hsub Hkeep. assert (forall i, announced t' p slot i -> announced t p slot i) as Han by (intros i [Hi Hr]; split; [by apply Hsub|done]). split.
  - intros i Hc. split; [split; [by apply Hkeep|apply Hc]|]. intros j Hj. by apply Hc, Han.
  - intros Hno i Hi. by apply (Hno i), Han.
Qed.

Lemma prune_finalized_run self h slot (live : Item) : changes_ok self -> live ∈ items (roots (inner self)) -> on_chain h live.1.1 -> ended_by slot live.2 = false ->
  exists self', prune_finalized build h (num h) slot self = (self', Ok tt) /\ changes_ok self' /\
    (forall i, i ∈ items (roots (inner self')) -> i ∈ items (roots (inner self))) /\
    forall p slot' i, on_chain p h -> slot <= slot' -> current_epoch (inner self) p slot' i -> i ∈ items (roots (inner self')).
Proof.
  intros Ho Hl Hlh Hlive. unfold prune_finalized, on_inner, mbind, M_mbind.
  destruct (fork_prune_run (build None) (ended_by slot) (inner self) h (num h) (co_wf _ Ho) eq_refl) as [[Hno ->]|(x & x' & removed & [Hx Hmax] & -> & Hit & Hp & Hw & _ & Hch)].
  - assert (items (roots (rebalance (inner self))) ≡ₚ items (roots (inner self))) as Hreb by apply items_rebalance.
    eexists. split; [reflexivity|]. split; [|split; [intros i; simpl in *; by rewrite Hreb|intros p slot' i _ _ [[Hi _] _]; simpl in *; by rewrite Hreb]].
    apply (changes_ok_sub self (rebalance (inner self)) []); [done|by apply wf_forest_rebalance, Ho|apply Ho|by rewrite app_nil_r].
  - eexists. split; [reflexivity|]. assert (forall i, i ∈ items [x'] <-> i = item x \/ i ∈ items (filter (fun n : Node Hash PersistedEpochHeader => on_branch (build None) h (hash n) = true) (children x))) as Hiff.
    { intros i. rewrite items_cons, Hit, elem_of_cons, elem_of_app, Hch. simpl. split; [|naive_solver]. intros [|[|Hn]]; auto. by apply not_elem_of_nil in Hn. }
    split; [by apply (changes_ok_sub self (mkForkTree [x'] (best_finalized_number (inner self))) removed); [| |apply Ho|]|]. split; [intros i Hi; simpl in Hi; rewrite <-Hp; set_solver|].
    intros p slot' i Hph Hslot [(Hi & Hip & Hs) Hm]. simpl. apply Hiff. apply (kept_by_prune self h slot x live p i); try done.
    assert (item x ∈ items (roots (inner self))) as Hxin by (apply elem_of_items; exists x; split; [apply Hx|done]).
    destruct (Hm (item x)) as [->|Hd]; [|by left|by right]. split; [done|]. split; [eapply on_chain_trans; [exact Hph|apply on_chain_spec; right; apply Hx]|].
    apply started_by_spec. pose proof (co_span _ Ho _ Hxin). destruct Hx as (_ & _ & Hend%ended_by_spec). simpl in *. lia.
Qed.

(** ** Properties *)

(** C24. The epoch for a child of a block: for genesis the genesis epoch, still
    to be imported; else the last epoch, among those announced on the branch of
    the block, that has started at the slot, or none if none has.  The data of
    the epoch is stored, it has started, and the descriptor tells its start. *)
Theorem epoch_descriptor_spec self p slot c : changes_ok self -> fresh_child p c (inner self) ->
  (num p = 0 -> epoch_descriptor_for_child_of build p (num p) slot self = Ok (Some (UnimportedGenesisAt slot))) /\
  (num p <> 0 ->
    (exists i, epoch_descriptor_for_child_of build p (num p) slot self = Ok (Some (descriptor_item slot i)) /\ current_epoch (inner self) p slot i /\
       forall make_genesis, exists e, viable_epoch (descriptor_item slot i) make_genesis self = Some (Signaled e) /\ start_slot e <= slot /\
         descriptor_start_slot (descriptor_item slot i) = start_slot e) \/
    (epoch_descriptor_for_child_of build p (num p) slot self = Ok None /\ forall i, ~ announced (inner self) p slot i)).
Proof.
  intros Ho Hc. split.
  - intros Hn. unfold epoch_descriptor_for_child_of. rewrite (proj1 Hc). cbn [mbind res_mbind]. by rewrite Hn.
  - intros Hn. destruct (descriptor_run self p slot c (co_wf _ Ho) Hc Hn) as [(i & Hrun & Hi)|]; [left|by right].
    exists i. split_and!; [done|done|]. intros make_genesis. apply descriptor_stored; [done|apply Hi|apply Hi].
Qed.

(** C25. [import] of an epoch announced by a block: it succeeds and keeps the
    invariant; from then on the epoch is the one of the children of the block
    and of its descendants, at slots where it has started; on other branches,
    and at earlier slots, nothing changes. *)
Theorem import_epoch_spec self h par inc : changes_ok self -> announces h par (PersistedEpochHeader_from (persisted inc)) self ->
  let new := (h, num h, PersistedEpochHeader_from (persisted inc)) in
  exists self', import_epoch build h (num h) par inc self = (self', Ok tt) /\ changes_ok self' /\
    forall p slot c, fresh_child p c (inner self) -> c <> h -> num p <> 0 ->
      epoch_descriptor_for_child_of build p (num p) slot self' =
        if decide (on_chain p h /\ started_by slot new.2 = true) then Ok (Some (descriptor_item slot new))
        else epoch_descriptor_for_child_of build p (num p) slot self.
Proof.
  intros Ho Han new. destruct (import_epoch_run self h par inc Ho Han) as (self' & Hrun & Ho' & Hiff). exists self'. split_and!; [done|done|]. intros p slot c Hc Hne Hn.
  assert (fresh_child p c (inner self')) as Hc'.
  { destruct Hc as (Hf & Hcp & Hch). split_and!; [done|done|]. rewrite hashes_items. intros (i & -> & [->|Hi]%Hiff)%list_elem_of_fmap; [done|]. by apply Hch, elem_of_items_hash. }
  pose proof (import_current self self' h par _ p slot Ho' Han Hiff) as Hcur. change (PersistedEpochHeader_from (persisted inc)) with new.2 in Hcur. case_decide.
  - destruct (descriptor_run self' p slot c (co_wf _ Ho') Hc' Hn) as [(i & -> & Hi)|[_ Hno]]; [by rewrite (current_unique _ p slot i new Hi Hcur)|].
    destruct (Hno new). apply Hcur.
  - apply (descriptor_same self self' p slot c); [apply Ho|apply Ho'|done|done|done| |].
    + intros i [Hi Hm]. split; [by apply Hcur|]. intros j Hj. by apply Hm, Hcur.
    + intros Hno i Hi. by apply (Hno i), Hcur.
Qed.

(** C26. [prune_finalized] at a finalized block whose branch has announced an
    epoch that has not ended: it succeeds, keeps the invariant, adds no epoch,
    and does not change the epoch of any child of the block or of its
    descendants, at any slot from that of the block on. *)
Theorem prune_finalized_spec self h slot (live : Item) : changes_ok self ->
  live ∈ items (roots (inner self)) -> on_chain h live.1.1 -> ended_by slot live.2 = false ->
  exists self', prune_finalized build h (num h) slot self = (self', Ok tt) /\ changes_ok self' /\
    (forall i, i ∈ items (roots (inner self')) -> i ∈ items (roots (inner self))) /\
    forall p slot' c, on_chain p h -> slot <= slot' -> fresh_child p c (inner self) -> num p <> 0 ->
      epoch_descriptor_for_child_of build p (num p) slot' self' = epoch_descriptor_for_child_of build p (num p) slot' self.
Proof.
  intros Ho Hl Hlh Hlive. destruct (prune_finalized_run self h slot live Ho Hl Hlh Hlive) as (self' & Hrun & Ho' & Hsub & Hkeep). exists self'. split_and!; [done|done|done|].
  intros p slot' c Hph Hslot Hc Hn. destruct (current_kept (inner self) (inner self') p slot' Hsub) as [Hcur Hno]; [eauto|].
  apply (descriptor_same self self' p slot' c); [apply Ho|apply Ho'|done| |done|done|done].
  destruct Hc as (Hf & Hcp & Hch). split_and!; [done|done|]. rewrite hashes_items. intros (i & -> & Hi%Hsub)%list_elem_of_fmap. by apply Hch, elem_of_items_hash.
Qed.
End spec.

(** ** Concrete epochs *)

Module EpochDemo.
(** A block is named by its path from the genesis block; the flag marks the
    hashes that stand for children. *)
Abbreviation Block := (bool * list nat)%type.

Definition block_desc (a b : Block) : bool := negb a.1 && negb b.1 && path_desc a.2 b.2.

#[local] Instance block_bytes : HashBytes Block := {|
  as_ref (b : Block) := (if b.1 then 128 else 0) :: (Z.of_nat <$> b.2);
  as_mut (_ : Block) bytes := match bytes with [] => (false, []) | x :: l => (negb (x =? 0), Z.to_nat <$> l) end |}.

Definition build (current : option (Block * Block)) (a b : Block) : res unit bool :=
  match current with
  | None => Ok (block_desc a b)
  | Some (c, p) => Ok (negb (bool_decide (a = c)) && (if bool_decide (b = c) then bool_decide (a = p) || block_desc a p else block_desc a b))
  end.

Lemma block_desc_true a b : block_desc a b = true <-> a.1 = false /\ b.1 = false /\ path_desc a.2 b.2 = true.
Proof. unfold block_desc. rewrite !andb_true_iff, !negb_true_iff. tauto. Qed.

#[local] Instance build_ancestry : Ancestry (build None).
Proof.
  refine {| desc := block_desc; num (b : Block) := Z.of_nat (length b.2) |}; [done|..].
  - intros a b (_ & _ & Hd)%block_desc_true. by apply (desc_num (Ancestry := path_Ancestry)).
  - intros a b c (Ha & _ & Hab)%block_desc_true (_ & Hc & Hbc)%block_desc_true. apply block_desc_true. split_and!; [done|done|].
    by apply (desc_trans (Ancestry := path_Ancestry) _ b.2).
  - intros a b c (Ha & _ & Hac)%block_desc_true (Hb & _ & Hbc)%block_desc_true. rewrite !block_desc_true.
    destruct (desc_chain (Ancestry := path_Ancestry) a.2 b.2 c.2 Hac Hbc) as [Heq|[|]]; [left|auto..]. destruct a, b. simpl in *. by subst.
Defined.

Lemma build_ext c p a b : build (Some (c, p)) a b = Ok (ext build c p a b).
Proof. done. Qed.

Lemma path_desc_snoc (a l : list nat) k : path_desc a (l ++ [k]) = true <-> a = l \/ path_desc a l = true.
Proof.
  unfold path_desc. rewrite !andb_true_iff, !negb_true_iff, !bool_decide_eq_true, !bool_decide_eq_false. split.
  - intros [[m Hm] Hne]. destruct m as [|x m _] using rev_ind; [by rewrite app_nil_r in Hm|]. rewrite app_assoc in Hm. apply app_inj_tail in Hm as [-> _].
    destruct (decide (a = a ++ m)) as [|Hn]; [by left|right]. split; [by apply prefix_app_r|done].
  - intros [->|[Hp Hne]]; (split; [|intros Heq]).
    + by apply prefix_app_r.
    + apply (f_equal length) in Heq. rewrite length_app in Heq. simpl in Heq. lia.
    + etrans; [exact Hp|by apply prefix_app_r].
    + apply prefix_length in Hp. apply (f_equal length) in Heq. rewrite length_app in Heq. simpl in Heq. lia.
Qed.

Lemma block_parent (l : list nat) k : parent_of build (false, l) (false, l ++ [k]).
Proof.
  split; [simpl; rewrite length_app; simpl; lia|]. intros [x a]. simpl. rewrite !block_desc_true. simpl. rewrite path_desc_snoc.
  split; [intros (-> & _ & [->|]); auto|intros [[= -> ->]|]; naive_solver].
Qed.

#[local] Instance header_eq_dec : EqDecision PersistedEpochHeader.
Proof. assert (EqDecision EpochHeader) by solve_decision. solve_decision. Defined.

(** An epoch is its first slot and its length. *)
#[local] Instance demo_epoch : Epoch (Z * Z) unit := {| start_slot e := e.1; end_slot e := e.1 + e.2; increment_epoch e _ := (e.1 + e.2, e.2) |}.

Abbreviation DemoChanges := (EpochChanges Block (Z * Z)).

Definition announcesb (h : Block) (hd : PersistedEpochHeader) (self : DemoChanges) : bool :=
  (start_of hd <=? end_of hd) &&
  forallb (fun i => negb (desc h i.1.1) && (negb (desc i.1.1 h) || (end_of i.2 <=? start_of hd)) && (negb (bool_decide (i.1.1 = h)) || bool_decide (i.2 = hd)))
    (items (roots (inner self))).

Lemma announcesb_sound (h par : Block) (hd : PersistedEpochHeader) (self : DemoChanges) : parent_of build par h -> announcesb h hd self = true -> announces build h par hd self.
Proof.
  intros Hp. unfold announcesb. rewrite andb_true_iff, Z.leb_le, forallb_forall. intros [Hspan Hall].
  assert (forall i, i ∈ items (roots (inner self)) -> desc h i.1.1 = false /\ (desc i.1.1 h = true -> end_of i.2 <= start_of hd) /\ (i.1.1 = h -> i.2 = hd)) as Hi.
  { intros i Hi%list_elem_of_In. specialize (Hall i Hi). rewrite !andb_true_iff, !orb_true_iff, !negb_true_iff, Z.leb_le, bool_decide_eq_true, bool_decide_eq_false in Hall.
    destruct Hall as [[-> Hf] Ho]. split; [done|]. split; [intros Hd; destruct Hf; [congruence|done]|intros He; by destruct Ho]. }
  split; [done| |done|intros; by apply Hi|intros; by apply Hi]. intros y. rewrite hashes_items. intros (i & -> & Hin)%list_elem_of_fmap. by apply Hi.
Qed.

Abbreviation blk l := (false, l : list nat).

(** Block 1 is in slot 5 and announces the epoch of the slots from 15; its child
    in slot 16 the one from 25, and the child of that the one from 35. *)
Definition inc1 : IncrementedEpoch (Z * Z) := increment (UnimportedGenesis (5, 10)) tt.
Definition inc2 : IncrementedEpoch (Z * Z) := increment (Signaled (15, 10)) tt.
Definition inc3 : IncrementedEpoch (Z * Z) := increment (Signaled (25, 10)) tt.

Definition demo1 : DemoChanges := (import_epoch build (blk [0%nat]) 1 (blk []) inc1 dflt).1.
Definition demo2 : DemoChanges := (import_epoch build (blk [0%nat; 0%nat]) 2 (blk [0%nat]) inc2 demo1).1.
Definition demo3 : DemoChanges := (import_epoch build (blk [0%nat; 0%nat; 0%nat]) 3 (blk [0%nat; 0%nat]) inc3 demo2).1.

Lemma import_ok (l : list nat) (k : nat) (inc : IncrementedEpoch (Z * Z)) (self : DemoChanges) : changes_ok build self -> announcesb (blk (l ++ [k])) (PersistedEpochHeader_from (persisted inc)) self = true ->
  changes_ok build (import_epoch build (blk (l ++ [k])) (num (blk (l ++ [k]))) (blk l) inc self).1.
Proof.
  intros Ho Ha. pose proof (announcesb_sound _ _ _ self (block_parent l k) Ha) as Han.
  by destruct (import_epoch_run build build_ext self _ _ inc Ho Han) as (self' & -> & Ho' & _).
Qed.

Lemma demo1_ok : changes_ok build demo1.
Proof. apply (import_ok [] 0%nat inc1 dflt); [apply changes_default_ok|by vm_compute]. Qed.

Lemma demo2_ok : changes_ok build demo2.
Proof. apply (import_ok [0%nat] 0%nat inc2 demo1); [apply demo1_ok|by vm_compute]. Qed.

Lemma demo3_ok : changes_ok build demo3.
Proof. apply (import_ok [0%nat; 0%nat] 0%nat inc3 demo2); [apply demo2_ok|by vm_compute]. Qed.

Definition fresh_childb (p c : Block) (self : DemoChanges) : bool :=
  match fake_head_hash (E := Error unit) p with Ok c' => bool_decide (c' = c) | _ => false end && negb (bool_decide (c = p)) && negb (bool_decide (c ∈ hashes (roots (inner self)))).

Lemma fresh_childb_sound (p c : Block) (self : DemoChanges) : fresh_childb p c self = true -> fresh_child (E := unit) p c (inner self).
Proof.
  unfold fresh_childb. rewrite !andb_true_iff, !negb_true_iff, !bool_decide_eq_false. intros [[Hf Hne] Hc]. split; [|done].
  destruct (fake_head_hash (E := Error unit) p) as [c'| |]; [|done..]. apply bool_decide_eq_true in Hf. by subst.
Qed.

Lemma epoch_descriptor_spec_witness : changes_ok build demo3 /\
  exists i, epoch_descriptor_for_child_of build (blk [0%nat; 0%nat; 1%nat]) 3 26 demo3 = Ok (Some (descriptor_item 26 i)) /\ current_epoch build (inner demo3) (blk [0%nat; 0%nat; 1%nat]) 26 i.
Proof.
  assert (fresh_child (E := unit) (blk [0%nat; 0%nat; 1%nat]) (true, [0%nat; 0%nat; 1%nat]) (inner demo3)) as Hc by (apply fresh_childb_sound; by vm_compute).
  split; [exact demo3_ok|]. destruct (epoch_descriptor_spec build build_ext demo3 (blk [0%nat; 0%nat; 1%nat]) 26 _ demo3_ok Hc) as [_ Hs].
  destruct (Hs ltac:(by vm_compute)) as [(i & Hrun & Hi & _)|[Hrun _]]; [exists i; split; [exact Hrun|exact Hi]|]. exfalso. vm_compute in Hrun. discriminate Hrun.
Defined.

(** The child of the fork is in the epoch its branch has announced. *)
Example descriptor_demo :
  epoch_descriptor_for_child_of build (blk [0%nat; 0%nat; 1%nat]) 3 40 demo3 = Ok (Some (SignaledAt (mkEpochIdentifier Regular (blk [0%nat; 0%nat]) 2) (mkEpochHeader 25 35))) /\
  epoch_descriptor_for_child_of build (blk [0%nat; 0%nat; 0%nat]) 3 40 demo3 = Ok (Some (SignaledAt (mkEpochIdentifier Regular (blk [0%nat; 0%nat; 0%nat]) 3) (mkEpochHeader 35 45))) /\
  epoch_descriptor_for_child_of build (blk [0%nat; 0%nat; 0%nat]) 3 17 demo3 = Ok (Some (SignaledAt (mkEpochIdentifier Genesis1 (blk [0%nat]) 1) (mkEpochHeader 15 25))) /\
  epoch_descriptor_for_child_of build (blk []) 0 5 demo3 = Ok (Some (UnimportedGenesisAt 5)).
Proof. by vm_compute. Qed.

Lemma import_epoch_spec_witness : exists self', import_epoch build (blk [0%nat; 0%nat; 0%nat]) 3 (blk [0%nat; 0%nat]) inc3 demo2 = (self', Ok tt) /\ changes_ok build self' /\
  epoch_descriptor_for_child_of build (blk [0%nat; 0%nat; 0%nat]) 3 40 self' =
    Ok (Some (descriptor_item 40 (blk [0%nat; 0%nat; 0%nat], 3, RegularHeader (mkEpochHeader 35 45)))).
Proof.
  assert (announces build (blk [0%nat; 0%nat; 0%nat]) (blk [0%nat; 0%nat]) (PersistedEpochHeader_from (persisted inc3)) demo2) as Ha
    by (apply announcesb_sound; [apply (block_parent [0%nat; 0%nat] 0%nat)|by vm_compute]).
  destruct (import_epoch_spec build build_ext demo2 _ _ inc3 demo2_ok Ha) as (self' & Hrun & Ho & Hd). exists self'. split; [exact Hrun|split; [exact Ho|]].
  specialize (Hd (blk [0%nat; 0%nat; 0%nat]) 40 (true, [0%nat; 0%nat; 0%nat])). rewrite decide_True in Hd by by vm_compute.
  apply Hd; [apply fresh_childb_sound; by vm_compute|discriminate|by vm_compute].
Defined.

(** A block in slot 36 is finalized. *)
Lemma prune_finalized_spec_witness : exists self', prune_finalized build (blk [0%nat; 0%nat; 0%nat; 0%nat]) 4 36 demo3 = (self', Ok tt) /\ changes_ok build self' /\
  epoch_descriptor_for_child_of build (blk [0%nat; 0%nat; 0%nat; 0%nat]) 4 37 self' = epoch_descriptor_for_child_of build (blk [0%nat; 0%nat; 0%nat; 0%nat]) 4 37 demo3.
Proof.
  destruct (prune_finalized_spec build build_ext demo3 (blk [0%nat; 0%nat; 0%nat; 0%nat]) 36 (blk [0%nat; 0%nat; 0%nat], 3, RegularHeader (mkEpochHeader 35 45)) demo3_ok)
    as (self' & Hrun & Ho & _ & Hd); [apply list_elem_of_In; vm_compute; tauto|by vm_compute|by vm_compute|].
  exists self'. split; [exact Hrun|split; [exact Ho|]].
  apply (Hd (blk [0%nat; 0%nat; 0%nat; 0%nat]) 37 (true, [0%nat; 0%nat; 0%nat; 0%nat])); [by vm_compute|lia|apply fresh_childb_sound; by vm_compute|by vm_compute].
Defined.

(** The epochs that can no longer be asked for are gone. *)
Example prune_finalized_demo : let self := (prune_finalized build (blk [0%nat; 0%nat; 0%nat; 0%nat]) 4 36 demo3).1 in
  hashes (roots (inner self)) = [blk [0%nat; 0%nat]; blk [0%nat; 0%nat; 0%nat]] /\ size (epochs self) = 2%nat.
Proof. by vm_compute. Qed.
End EpochDemo.
