(* ===== verification/PeersState.v ===== *)
(** * Slots and reputations of peers

    Model of [client/peerset/src/peersstate.rs]: for each set of peers, which of
    the known ones are connected, how many slots they occupy, and the reputation
    of each.  A handle to a peer ([ConnectedPeer] and the like) is the set and
    the peer, which its methods take as arguments.  The clock is an argument. *)

From Stdlib Require Import ZArith Lia.
From stdpp Require Import gmap fin_maps fin_sets option list.
From S2P Require Import Prelude.

Local Open Scope Z_scope.

(** ** Data *)

(** Saturation at the bounds of [i32]. *)
Definition i32_min : Z := - 2 ^ 31.
Definition i32_max : Z := 2 ^ 31 - 1.
Definition saturate_i32 (z : Z) : Z := Z.max i32_min (Z.min i32_max z).

Inductive MembershipState : Type :=
| NotMember
| In_
| Out_
| NotConnected (last_connected : Z).

#[export] Instance MembershipState_eq_dec : EqDecision MembershipState.
Proof. solve_decision. Defined.

Definition is_connected (m : MembershipState) : bool :=
  match m with
  | NotMember | NotConnected _ => false
  | In_ | Out_ => true
  end.

(** The configuration of a set: the numbers of slots. *)
Record StateSetConfig : Type := mkStateSetConfig { in_peers : Z; out_peers : Z }.

Record SetInfo (PeerId : Type) `{Countable PeerId} : Type := mkSetInfo {
  num_in : Z;
  num_out : Z;
  max_in : Z;
  max_out : Z;
  no_slot_nodes : gset PeerId }.

Arguments mkSetInfo {PeerId _ _} num_in num_out max_in max_out no_slot_nodes.
Arguments num_in {PeerId _ _} _.
Arguments num_out {PeerId _ _} _.
Arguments max_in {PeerId _ _} _.
Arguments max_out {PeerId _ _} _.
Arguments no_slot_nodes {PeerId _ _} _.

Record PeerNode : Type := mkPeerNode { node_sets : list MembershipState; node_reputation : Z }.

Record PeersState (PeerId : Type) `{Countable PeerId} : Type := mkPeersState {
  nodes : gmap PeerId PeerNode;
  sets : list (SetInfo PeerId) }.

Arguments mkPeersState {PeerId _ _} nodes sets.
Arguments nodes {PeerId _ _} _.
Arguments sets {PeerId _ _} _.

(** The variants of [Peer]. *)
Inductive Peer : Type := ConnectedPeer | NotConnectedPeer | UnknownPeer.

Definition PeerNode_new (num_sets : nat) : PeerNode := mkPeerNode (repeat NotMember num_sets) 0.

Section model.
Context {OC : OverflowChecks} {PeerId : Type} `{HashOrder PeerId} {E : Type}.
Abbreviation State := (PeersState PeerId).
Abbreviation PM := (M State E).
Implicit Types self : State.

Definition PeersState_new (configs : list StateSetConfig) : State :=
  mkPeersState ∅ ((fun config => mkSetInfo 0 0 (in_peers config) (out_peers config) ∅) <$> configs).

Definition with_nodes (f : gmap PeerId PeerNode -> gmap PeerId PeerNode) self : State := mkPeersState (f (nodes self)) (sets self).
Definition with_sets (l : list (SetInfo PeerId)) self : State := mkPeersState (nodes self) l.

Definition with_in (n : Z) (i : SetInfo PeerId) : SetInfo PeerId := mkSetInfo n (num_out i) (max_in i) (max_out i) (no_slot_nodes i).
Definition with_out (n : Z) (i : SetInfo PeerId) : SetInfo PeerId := mkSetInfo (num_in i) n (max_in i) (max_out i) (no_slot_nodes i).
Definition with_no_slot (X : gset PeerId) (i : SetInfo PeerId) : SetInfo PeerId := mkSetInfo (num_in i) (num_out i) (max_in i) (max_out i) X.

Definition num_sets self : nat := length (sets self).

(** [self.sets[set]], read and written. *)
Definition set_at (set : nat) : PM (SetInfo PeerId) := self ← get; lift (expect (sets self !! set)).
Definition set_put (set : nat) (i : SetInfo PeerId) : PM unit := modify (fun self => with_sets (<[set := i]> (sets self)) self).

(** [node.sets[set]], read and written. *)
Definition member_at (set : nat) (node : PeerNode) : PM MembershipState := lift (expect (node_sets node !! set)).
Definition member_put (peer_id : PeerId) (set : nat) (node : PeerNode) (m : MembershipState) : PM unit :=
  modify (with_nodes <[peer_id := mkPeerNode (<[set := m]> (node_sets node)) (node_reputation node)]>).

(** A node takes or frees the slot of its kind of connection. *)
Definition take_slot (set : nat) (m : MembershipState) : PM unit :=
  i ← set_at set;
  match m with
  | In_ => n ← lift (uadd 32 (num_in i) 1); set_put set (with_in n i)
  | Out_ => n ← lift (uadd 32 (num_out i) 1); set_put set (with_out n i)
  | NotMember | NotConnected _ => mret tt
  end.

Definition free_slot (set : nat) (m : MembershipState) : PM unit :=
  i ← set_at set;
  match m with
  | In_ => n ← lift (usub 32 (num_in i) 1); set_put set (with_in n i)
  | Out_ => n ← lift (usub 32 (num_out i) 1); set_put set (with_out n i)
  | NotMember | NotConnected _ => mret tt
  end.

(** ** The state *)

Definition peer (set : nat) (peer_id : PeerId) : PM Peer :=
  self ← get;
  _ ← lift (assert_ (set <? num_sets self)%nat);
  match nodes self !! peer_id with
  | None => mret UnknownPeer
  | Some p =>
    m ← member_at set p;
    mret (match m with NotMember => UnknownPeer | In_ | Out_ => ConnectedPeer | NotConnected _ => NotConnectedPeer end)
  end.

Definition peers self : list PeerId := hash_iter (dom (nodes self)).

(** The nodes whose membership of a set passes a test, in the order of the map. *)
Fixpoint select (set : nat) (f : MembershipState -> bool) (ids : list PeerId) : PM (list PeerId) :=
  match ids with
  | [] => mret []
  | id :: ids =>
    node ← (self ← get; lift (expect (nodes self !! id)));
    m ← member_at set node;
    rest ← select set f ids;
    mret (if f m then id :: rest else rest)
  end.

Definition connected_peers (set : nat) : PM (list PeerId) :=
  self ← get;
  _ ← lift (assert_ (set <? num_sets self)%nat);
  select set is_connected (peers self).

Definition reputation_of (peer_id : PeerId) self : Z := match nodes self !! peer_id with Some p => node_reputation p | None => 0 end.

Definition is_not_connected (m : MembershipState) : bool := match m with NotConnected _ => true | _ => false end.

Definition highest (self : State) (cur_node : option PeerId) (to_try : PeerId) : option PeerId :=
  match cur_node with
  | Some cur_node => if reputation_of to_try self <=? reputation_of cur_node self then Some cur_node else Some to_try
  | None => Some to_try
  end.

Definition highest_not_connected_peer (set : nat) : PM (option PeerId) :=
  self ← get;
  _ ← lift (assert_ (set <? num_sets self)%nat);
  ids ← select set is_not_connected (peers self);
  mret (foldl (highest self) None ids).

Definition has_free_outgoing_slot (set : nat) : PM bool := i ← set_at set; mret (num_out i <? max_out i).

Definition add_no_slot_node (set : nat) (peer_id : PeerId) : PM unit :=
  i ← set_at set;
  if decide (peer_id ∈ no_slot_nodes i) then mret tt
  else
    _ ← set_put set (with_no_slot ({[peer_id]} ∪ no_slot_nodes i) i);
    self ← get;
    match nodes self !! peer_id with
    | Some p => m ← member_at set p; free_slot set m
    | None => mret tt
    end.

Definition remove_no_slot_node (set : nat) (peer_id : PeerId) : PM unit :=
  i ← set_at set;
  if decide (peer_id ∈ no_slot_nodes i) then
    _ ← set_put set (with_no_slot (no_slot_nodes i ∖ {[peer_id]}) i);
    self ← get;
    match nodes self !! peer_id with
    | Some p => m ← member_at set p; take_slot set m
    | None => mret tt
    end
  else mret tt.

(** ** A connected peer *)

Definition disconnect (set : nat) (peer_id : PeerId) (now : Z) : PM unit :=
  i ← set_at set;
  let is_no_slot_occupy := bool_decide (peer_id ∈ no_slot_nodes i) in
  self ← get;
  match nodes self !! peer_id with
  | Some node =>
    _ ← (if is_no_slot_occupy then mret tt
         else
           m ← member_at set node;
           match m with
           | In_ | Out_ => free_slot set m
           | NotMember | NotConnected _ => lift (debug_assert false)
           end);
    _ ← member_at set node;
    member_put peer_id set node (NotConnected now)
  | None => lift (debug_assert false)
  end.

Definition add_reputation (peer_id : PeerId) (modifier : Z) : PM unit :=
  self ← get;
  match nodes self !! peer_id with
  | Some node => modify (with_nodes <[peer_id := mkPeerNode (node_sets node) (saturate_i32 (node_reputation node + modifier))]>)
  | None => lift (debug_assert false)
  end.

(** ** A peer that is not connected *)

Definition bump_last_connected_or_discovered (set : nat) (peer_id : PeerId) (now : Z) : PM unit :=
  self ← get;
  match nodes self !! peer_id with
  | Some node => m ← member_at set node; match m with NotConnected _ => member_put peer_id set node (NotConnected now) | _ => mret tt end
  | None => mret tt
  end.

Definition last_connected_or_discovered (set : nat) (peer_id : PeerId) (now : Z) : PM Z :=
  self ← get;
  match nodes self !! peer_id with
  | Some node => m ← member_at set node; mret (match m with NotConnected last_connected => last_connected | _ => now end)
  | None => mret now
  end.

(** The connection of a kind, once a slot was found. *)
Definition connect (set : nat) (peer_id : PeerId) (is_no_slot_occupy : bool) (m : MembershipState) : PM unit :=
  self ← get;
  match nodes self !! peer_id with
  | Some node =>
    _ ← member_at set node;
    _ ← member_put peer_id set node m;
    if is_no_slot_occupy then mret tt else take_slot set m
  | None => lift (debug_assert false)
  end.

(** The result says whether there was a slot. *)
Definition try_outgoing (set : nat) (peer_id : PeerId) : PM bool :=
  i ← set_at set;
  let is_no_slot_occupy := bool_decide (peer_id ∈ no_slot_nodes i) in
  free ← has_free_outgoing_slot set;
  if negb free && negb is_no_slot_occupy then mret false
  else _ ← connect set peer_id is_no_slot_occupy Out_; mret true.

Definition try_accept_incoming (set : nat) (peer_id : PeerId) : PM bool :=
  i ← set_at set;
  let is_no_slot_occupy := bool_decide (peer_id ∈ no_slot_nodes i) in
  if (max_in i <=? num_in i) && negb is_no_slot_occupy then mret false
  else _ ← connect set peer_id is_no_slot_occupy In_; mret true.

Definition is_not_member (m : MembershipState) : bool := match m with NotMember => true | _ => false end.

Definition forgettable (node : PeerNode) : bool := (node_reputation node =? 0) && forallb is_not_member (node_sets node).

Definition forget_peer (set : nat) (peer_id : PeerId) : PM unit :=
  self ← get;
  match nodes self !! peer_id with
  | Some node =>
    m ← member_at set node;
    _ ← lift (debug_assert (negb (is_not_member m)));
    let node := mkPeerNode (<[set := NotMember]> (node_sets node)) (node_reputation node) in
    _ ← modify (with_nodes <[peer_id := node]>);
    if forgettable node then modify (with_nodes (delete peer_id)) else mret tt
  | None => lift (debug_assert false)
  end.

(** ** An unknown peer *)

Definition discover (set : nat) (peer_id : PeerId) (now : Z) : PM unit :=
  self ← get;
  let node := default (PeerNode_new (num_sets self)) (nodes self !! peer_id) in
  _ ← member_at set node;
  member_put peer_id set node (NotConnected now).

(** ** Reputations: the handle, its methods and its destructor *)

Definition peer_reputation (peer_id : PeerId) : PM unit :=
  modify (fun self => match nodes self !! peer_id with Some _ => self | None => with_nodes <[peer_id := PeerNode_new (num_sets self)]> self end).

Definition rep_node (peer_id : PeerId) : PM PeerNode := self ← get; lift (expect (nodes self !! peer_id)).

Definition rep_reputation (peer_id : PeerId) : PM Z := node ← rep_node peer_id; mret (node_reputation node).

Definition rep_set_reputation (peer_id : PeerId) (value : Z) : PM unit :=
  node ← rep_node peer_id; modify (with_nodes <[peer_id := mkPeerNode (node_sets node) value]>).

Definition rep_add_reputation (peer_id : PeerId) (modifier : Z) : PM unit :=
  node ← rep_node peer_id; rep_set_reputation peer_id (saturate_i32 (node_reputation node + modifier)).

Definition rep_drop (peer_id : PeerId) : PM unit :=
  node ← rep_node peer_id; if forgettable node then modify (with_nodes (delete peer_id)) else mret tt.
End model.

(** ** Counting slots *)

Section spec.
Context {OC : OverflowChecks} {PeerId : Type} `{HashOrder PeerId} {E : Type}.
Abbreviation State := (PeersState PeerId).
Abbreviation Info := (SetInfo PeerId).
Abbreviation PM := (M State E).
Implicit Types (self s : State) (i : Info) (id : PeerId) (m : MembershipState) (k : nat).

(** The peers of an execution: fewer than [2 ^ 32]. *)
Context (U : gset PeerId) (HU : Z.of_nat (size U) < 2 ^ 32).

Definition count (b : PeerId -> bool) : Z := Z.of_nat (size (filter (fun id => b id = true) U)).

Lemma count_ext b b' : (forall id, b id = b' id) -> count b = count b'.
Proof. intros Hb. unfold count. do 2 f_equal. apply set_eq. intros id. rewrite !elem_of_filter, Hb. done. Qed.

Lemma count_bounds b : 0 <= count b < 2 ^ 32.
Proof. unfold count. pose proof (subseteq_size (filter (fun id => b id = true) U) U ltac:(set_solver)). lia. Qed.

(** Changing the test at one peer. *)
Lemma count_update b b' id : id ∈ U -> (forall j, j <> id -> b' j = b j) -> count b' = count b - Z.b2z (b id) + Z.b2z (b' id).
Proof.
  intros Hid Hb. unfold count. set (R := filter (fun j => b j = true) (U ∖ {[id]})).
  assert (forall c : PeerId -> bool, (forall j, j <> id -> c j = b j) -> Z.of_nat (size (filter (fun j => c j = true) U)) = Z.of_nat (size R) + Z.b2z (c id)) as Hc.
  { intros c Hc. destruct (c id) eqn:Hcid; simpl.
    - replace (filter (fun j => c j = true) U) with ({[id]} ∪ R); [rewrite size_union by set_solver; rewrite size_singleton; lia|].
      apply set_eq. intros j. unfold R. rewrite elem_of_union, elem_of_singleton, !elem_of_filter, elem_of_difference, elem_of_singleton.
      destruct (decide (j = id)) as [->|Hne]; [naive_solver|]. rewrite Hc by done. naive_solver.
    - replace (filter (fun j => c j = true) U) with R; [lia|]. apply set_eq. intros j. unfold R. rewrite !elem_of_filter, elem_of_difference, elem_of_singleton.
      destruct (decide (j = id)) as [->|Hne]; [naive_solver congruence|]. rewrite Hc by done. naive_solver. }
  rewrite (Hc b), (Hc b') by auto. lia.
Qed.

(** The membership of a peer; an unknown peer is a member of no set. *)
Definition mem s k id : MembershipState := match nodes s !! id with Some n => default NotMember (node_sets n !! k) | None => NotMember end.

(** Whether a peer with membership [m] occupies a slot of the kind [d]. *)
Definition occupies (X : gset PeerId) (d m : MembershipState) id : bool := bool_decide (m = d) && negb (bool_decide (id ∈ X)).

Record ps_inv s : Prop := {
  ps_dom : dom (nodes s) ⊆ U;
  ps_len id n : nodes s !! id = Some n -> length (node_sets n) = num_sets s;
  ps_in k i : sets s !! k = Some i -> num_in i = count (fun id => occupies (no_slot_nodes i) In_ (mem s k id) id);
  ps_out k i : sets s !! k = Some i -> num_out i = count (fun id => occupies (no_slot_nodes i) Out_ (mem s k id) id) }.

(** The membership of a peer in a set is changed, and the numbers of the set
    follow. *)
Lemma ps_inv_update s k id n i i' X m : ps_inv s -> id ∈ U -> sets s !! k = Some i ->
  length (node_sets n) = num_sets s -> (forall k', mem s k' id = default NotMember (node_sets n !! k')) ->
  no_slot_nodes i' = X -> (forall j, j <> id -> j ∈ X <-> j ∈ no_slot_nodes i) ->
  num_in i' = num_in i - Z.b2z (occupies (no_slot_nodes i) In_ (mem s k id) id) + Z.b2z (occupies X In_ m id) ->
  num_out i' = num_out i - Z.b2z (occupies (no_slot_nodes i) Out_ (mem s k id) id) + Z.b2z (occupies X Out_ m id) ->
  let s' := mkPeersState (<[id := mkPeerNode (<[k := m]> (node_sets n)) (node_reputation n)]> (nodes s)) (<[k := i']> (sets s)) in
  ps_inv s' /\ forall k' id', mem s' k' id' = if decide (k' = k /\ id' = id) then m else mem s k' id'.
Proof.
  intros I Hid Hi Hn Hmem <- HX Hin Hout s'. assert (k < num_sets s)%nat as Hk by by eapply lookup_lt_Some.
  assert (forall k' id', mem s' k' id' = if decide (k' = k /\ id' = id) then m else mem s k' id') as Hm.
  { intros k' id'. unfold mem at 1. simpl. destruct (decide (id' = id)) as [->|Hne]; [|rewrite lookup_insert_ne by done; rewrite decide_False by naive_solver; done].
    rewrite lookup_insert_eq. simpl. destruct (decide (k' = k)) as [->|Hkk]; [rewrite decide_True by done; rewrite list_lookup_insert_eq by lia; done|].
    rewrite list_lookup_insert_ne by done. rewrite decide_False by naive_solver. by rewrite <-Hmem. }
  split; [|done]. assert (num_sets s' = num_sets s) as Hns by (unfold num_sets; simpl; by rewrite length_insert).
  assert (forall d, count (fun id' => occupies (no_slot_nodes i') d (mem s' k id') id') = count (fun id' => occupies (no_slot_nodes i) d (mem s k id') id') -
    Z.b2z (occupies (no_slot_nodes i) d (mem s k id) id) + Z.b2z (occupies (no_slot_nodes i') d m id)) as Hcount.
  { intros d. rewrite (count_update (fun id' => occupies (no_slot_nodes i) d (mem s k id') id') _ id Hid).
    - by rewrite Hm, decide_True by done.
    - intros j Hj. rewrite Hm, decide_False by naive_solver. unfold occupies. by rewrite (bool_decide_ext _ _ (HX j Hj)). }
  assert (forall d k', k' <> k -> forall i'', count (fun id' => occupies (no_slot_nodes i'') d (mem s' k' id') id') = count (fun id' => occupies (no_slot_nodes i'') d (mem s k' id') id')) as Hsame.
  { intros d k' Hkk i''. apply count_ext. intros id'. by rewrite Hm, decide_False by naive_solver. }
  split; simpl.
  - rewrite dom_insert. pose proof (ps_dom s I). set_solver.
  - intros id' n' Hn'. rewrite Hns. apply lookup_insert_Some in Hn' as [[_ <-]|[_ Hn']]; [simpl; by rewrite length_insert|by apply (ps_len s I id')].
  - intros k' i'' Hi''. destruct (decide (k' = k)) as [->|Hkk]; [|rewrite list_lookup_insert_ne in Hi'' by done; rewrite Hsame by done; by apply (ps_in s I)].
    rewrite list_lookup_insert_eq in Hi'' by done. injection Hi'' as <-. rewrite Hcount, Hin. by rewrite <-(ps_in s I k i Hi).
  - intros k' i'' Hi''. destruct (decide (k' = k)) as [->|Hkk]; [|rewrite list_lookup_insert_ne in Hi'' by done; rewrite Hsame by done; by apply (ps_out s I)].
    rewrite list_lookup_insert_eq in Hi'' by done. injection Hi'' as <-. rewrite Hcount, Hout. by rewrite <-(ps_out s I k i Hi).
Qed.

(** ** What the operations do *)

(** The limits and the peers without slots of a set. *)
Definition config i : Z * Z * gset PeerId := (max_in i, max_out i, no_slot_nodes i).

(** The membership of [id] in the set [k] has become [m]; reputations and the
    configuration are as before. *)
Record moved k id m s s' : Prop := {
  mv_inv : ps_inv s';
  mv_mem k' id' : mem s' k' id' = if decide (k' = k /\ id' = id) then m else mem s k' id';
  mv_rep id' : reputation_of id' s' = reputation_of id' s;
  mv_config k' : config <$> sets s' !! k' = config <$> sets s !! k' }.

Lemma count_pos b id : id ∈ U -> b id = true -> 1 <= count b.
Proof.
  intros Hid Hb. set (b' := fun j => if decide (j = id) then false else b j). pose proof (count_bounds b').
  assert (b' id = false) as Hb' by (unfold b'; by rewrite decide_True). assert (forall j, j <> id -> b' j = b j) as Hj by (intros j Hj; unfold b'; by rewrite decide_False).
  rewrite (count_update b b' id Hid Hj), Hb, Hb' in *. simpl in *. lia.
Qed.

Lemma count_room b id : id ∈ U -> b id = false -> count b + 1 < 2 ^ 32.
Proof.
  intros Hid Hb. set (b' := fun j => if decide (j = id) then true else b j). pose proof (count_bounds b').
  assert (b' id = true) as Hb' by (unfold b'; by rewrite decide_True). assert (forall j, j <> id -> b' j = b j) as Hj by (intros j Hj; unfold b'; by rewrite decide_False).
  rewrite (count_update b b' id Hid Hj), Hb, Hb' in *. simpl in *. lia.
Qed.

Lemma mem_known s k id : mem s k id <> NotMember -> exists n, nodes s !! id = Some n /\ node_sets n !! k = Some (mem s k id).
Proof. unfold mem. destruct (nodes s !! id) as [n|]; [|done]. intros Hm. exists n. split; [done|]. by destruct (node_sets n !! k). Qed.

Lemma mem_node s k id n : ps_inv s -> nodes s !! id = Some n -> (k < num_sets s)%nat -> node_sets n !! k = Some (mem s k id).
Proof.
  intros I Hn Hk. rewrite <-(ps_len s I id n Hn) in Hk. apply lookup_lt_is_Some in Hk as [m Hm]. unfold mem. by rewrite Hn, Hm.
Qed.

Lemma set_at_run k s i : sets s !! k = Some i -> set_at k s = (s, Ok i : res E Info).
Proof. intros Hi. unfold set_at. erewrite bind_Ok by reflexivity. by rewrite Hi. Qed.

Lemma set_known s k : (k < num_sets s)%nat -> exists i, sets s !! k = Some i.
Proof. apply lookup_lt_is_Some. Qed.

Lemma reputation_insert id sets_ rep s id' : rep = reputation_of id s ->
  reputation_of id' (mkPeersState (<[id := mkPeerNode sets_ rep]> (nodes s)) (sets s)) = reputation_of id' s.
Proof. intros ->. unfold reputation_of at 1. simpl. destruct (decide (id' = id)) as [->|Hne]; [by rewrite lookup_insert_eq|by rewrite lookup_insert_ne]. Qed.

(** A change of membership, with the numbers adjusted, is a move. *)
Lemma moved_intro s k id n i i' m : ps_inv s -> id ∈ U -> sets s !! k = Some i ->
  length (node_sets n) = num_sets s -> (forall k', mem s k' id = default NotMember (node_sets n !! k')) -> node_reputation n = reputation_of id s ->
  config i' = config i ->
  num_in i' = num_in i - Z.b2z (occupies (no_slot_nodes i) In_ (mem s k id) id) + Z.b2z (occupies (no_slot_nodes i) In_ m id) ->
  num_out i' = num_out i - Z.b2z (occupies (no_slot_nodes i) Out_ (mem s k id) id) + Z.b2z (occupies (no_slot_nodes i) Out_ m id) ->
  moved k id m s (mkPeersState (<[id := mkPeerNode (<[k := m]> (node_sets n)) (node_reputation n)]> (nodes s)) (<[k := i']> (sets s))).
Proof.
  intros I Hid Hi Hn Hmem Hrep Hc Hin Hout. injection Hc as Hmi Hmo HX.
  destruct (ps_inv_update s k id n i i' (no_slot_nodes i) m I Hid Hi Hn Hmem) as [I' Hm]; [done|done|done|done|].
  split; [done|done| |].
  - intros id'. by apply (reputation_insert id _ _ (mkPeersState (nodes s) (<[k := i']> (sets s)))).
  - intros k'. simpl. destruct (decide (k' = k)) as [->|Hne]; [|by rewrite list_lookup_insert_ne].
    rewrite list_lookup_insert_eq by (by eapply lookup_lt_Some). rewrite Hi. simpl. unfold config. congruence.
Qed.

(** A state whose node [id] is [n], and whose set [k] is [i]. *)
Definition put s id n k i : State := mkPeersState (<[id := n]> (nodes s)) (<[k := i]> (sets s)).

Lemma sets_insert_id s k i : sets s !! k = Some i -> <[k := i]> (sets s) = sets s.
Proof. apply list_insert_id. Qed.

(** The numbers with one more or one less slot taken. *)
Definition taken (d : MembershipState) (n : Z) i : Info := match d with In_ => with_in (num_in i + n) i | Out_ => with_out (num_out i + n) i | _ => i end.

Lemma taken_config d n i : config (taken d n i) = config i.
Proof. by destruct d. Qed.

Lemma free_slot_raw k d s i : sets s !! k = Some i -> (d = In_ -> 1 <= num_in i < 2 ^ 32) -> (d = Out_ -> 1 <= num_out i < 2 ^ 32) ->
  free_slot k d s = (mkPeersState (nodes s) (<[k := taken d (-1) i]> (sets s)), Ok tt : res E unit).
Proof.
  intros Hi Hin Hout. unfold free_slot. erewrite bind_Ok by (by apply set_at_run).
  destruct d; simpl; try (by rewrite sets_insert_id; destruct s).
  - rewrite usub_ok by (unfold is_u; specialize (Hin eq_refl); lia). erewrite bind_Ok by reflexivity. by rewrite <-Z.add_opp_r.
  - rewrite usub_ok by (unfold is_u; specialize (Hout eq_refl); lia). erewrite bind_Ok by reflexivity. by rewrite <-Z.add_opp_r.
Qed.

Lemma occupied_bounds k id s i : ps_inv s -> sets s !! k = Some i -> id ∈ U -> id ∉ no_slot_nodes i ->
  (mem s k id = In_ -> 1 <= num_in i < 2 ^ 32) /\ (mem s k id = Out_ -> 1 <= num_out i < 2 ^ 32).
Proof.
  intros I Hi Hid Hns.
  assert (forall d, mem s k id = d -> 1 <= count (fun id => occupies (no_slot_nodes i) d (mem s k id) id) < 2 ^ 32) as Hc.
  { intros d Hd. split; [|apply count_bounds]. apply (count_pos _ id Hid). unfold occupies. by rewrite bool_decide_eq_true_2, bool_decide_eq_false_2. }
  split; [rewrite (ps_in s I k i Hi)|rewrite (ps_out s I k i Hi)]; apply Hc.
Qed.

Lemma free_slot_run k id s i : ps_inv s -> sets s !! k = Some i -> id ∈ U -> id ∉ no_slot_nodes i ->
  free_slot k (mem s k id) s = (mkPeersState (nodes s) (<[k := taken (mem s k id) (-1) i]> (sets s)), Ok tt : res E unit).
Proof. intros I Hi Hid Hns. by apply free_slot_raw; [|apply (occupied_bounds k id s i)..]. Qed.

Lemma take_slot_raw k d s i : sets s !! k = Some i -> (d = In_ -> 0 <= num_in i < 2 ^ 32 - 1) -> (d = Out_ -> 0 <= num_out i < 2 ^ 32 - 1) ->
  take_slot k d s = (mkPeersState (nodes s) (<[k := taken d 1 i]> (sets s)), Ok tt : res E unit).
Proof.
  intros Hi Hin Hout. unfold take_slot. erewrite bind_Ok by (by apply set_at_run).
  destruct d; simpl; try (by rewrite sets_insert_id; destruct s).
  - rewrite uadd_ok by (unfold is_u; specialize (Hin eq_refl); lia). by erewrite bind_Ok by reflexivity.
  - rewrite uadd_ok by (unfold is_u; specialize (Hout eq_refl); lia). by erewrite bind_Ok by reflexivity.
Qed.

Lemma free_bounds k d id s i : ps_inv s -> sets s !! k = Some i -> id ∈ U -> occupies (no_slot_nodes i) d (mem s k id) id = false ->
  (d = In_ -> 0 <= num_in i < 2 ^ 32 - 1) /\ (d = Out_ -> 0 <= num_out i < 2 ^ 32 - 1).
Proof.
  intros I Hi Hid Hocc. pose proof (count_room (fun id => occupies (no_slot_nodes i) d (mem s k id) id) id Hid Hocc) as Hr.
  pose proof (count_bounds (fun id => occupies (no_slot_nodes i) d (mem s k id) id)).
  split; intros ->; [rewrite (ps_in s I k i Hi)|rewrite (ps_out s I k i Hi)]; lia.
Qed.

(** Taking a slot for a peer that does not occupy one of the kind. *)
Lemma take_slot_run k d id s s0 i : ps_inv s0 -> sets s0 !! k = Some i -> sets s = sets s0 -> id ∈ U -> occupies (no_slot_nodes i) d (mem s0 k id) id = false ->
  take_slot k d s = (mkPeersState (nodes s) (<[k := taken d 1 i]> (sets s)), Ok tt : res E unit).
Proof. intros I Hi Hs Hid Hocc. by apply take_slot_raw; [by rewrite Hs|apply (free_bounds k d id s0 i)..]. Qed.

Lemma occupies_b2z (X : gset PeerId) d m id : Z.b2z (occupies X d m id) = if decide (m = d /\ id ∉ X) then 1 else 0.
Proof. unfold occupies. do 2 case_bool_decide; simpl; case_decide; naive_solver. Qed.

Lemma node_facts s id n : ps_inv s -> nodes s !! id = Some n ->
  id ∈ U /\ length (node_sets n) = num_sets s /\ (forall k', mem s k' id = default NotMember (node_sets n !! k')) /\ node_reputation n = reputation_of id s.
Proof.
  intros I Hn. split_and!; [apply (ps_dom s I); apply elem_of_dom; eauto|by apply (ps_len s I id)|intros k'; unfold mem; by rewrite Hn|unfold reputation_of; by rewrite Hn].
Qed.

Lemma disconnect_run k id now s : ps_inv s -> (k < num_sets s)%nat -> is_connected (mem s k id) = true ->
  exists s', disconnect k id now s = (s', Ok tt : res E unit) /\ moved k id (NotConnected now) s s'.
Proof.
  intros I Hk Hc. destruct (set_known s k Hk) as [i Hi]. destruct (mem_known s k id) as (n & Hn & Hm); [by intros Heq; rewrite Heq in Hc|].
  destruct (node_facts s id n I Hn) as (Hid & Hlen & Hmem & Hrep). unfold disconnect. erewrite bind_Ok by (by apply set_at_run). erewrite bind_Ok by reflexivity. rewrite Hn.
  unfold member_at. rewrite Hm. cbn [expect]. case_bool_decide as Hns.
  - erewrite bind_Ok by reflexivity. erewrite bind_Ok by reflexivity. eexists. split; [reflexivity|].
    replace (with_nodes _ s) with (put s id (mkPeerNode (<[k := NotConnected now]> (node_sets n)) (node_reputation n)) k i) by (unfold put, with_nodes; by rewrite sets_insert_id).
    apply moved_intro with i; try done; rewrite !occupies_b2z; repeat case_decide; try lia; naive_solver.
  - pose proof (free_slot_run k id s i I Hi Hid Hns) as Hfree.
    match goal with |- context [mbind _ ?m s] =>
      assert (m s = (mkPeersState (nodes s) (<[k := taken (mem s k id) (-1) i]> (sets s)), Ok tt : res E unit)) as Hrun end.
    { erewrite bind_Ok by reflexivity. rewrite <-Hfree. by destruct (mem s k id). }
    erewrite bind_Ok by exact Hrun. erewrite bind_Ok by reflexivity. eexists. split; [reflexivity|]. apply (moved_intro s k id n i (taken (mem s k id) (-1) i)); try done; [apply taken_config|..];
      rewrite !occupies_b2z; destruct (mem s k id); simpl; repeat case_decide; try lia; naive_solver.
Qed.

Lemma connect_run k id d s i : ps_inv s -> sets s !! k = Some i -> is_connected d = true -> is_not_connected (mem s k id) = true ->
  exists s', connect k id (bool_decide (id ∈ no_slot_nodes i)) d s = (s', Ok tt : res E unit) /\ moved k id d s s' /\
    sets s' = if decide (id ∈ no_slot_nodes i) then sets s else <[k := taken d 1 i]> (sets s).
Proof.
  intros I Hi Hd Hc. destruct (mem_known s k id) as (n & Hn & Hm); [by intros Heq; rewrite Heq in Hc|].
  destruct (node_facts s id n I Hn) as (Hid & Hlen & Hmem & Hrep). unfold connect. erewrite bind_Ok by reflexivity. rewrite Hn. unfold member_at. rewrite Hm. cbn [expect].
  erewrite bind_Ok by reflexivity. erewrite bind_Ok by reflexivity. case_bool_decide as Hns.
  - eexists. split; [reflexivity|]. rewrite decide_True by done. split; [|done].
    replace (with_nodes _ s) with (put s id (mkPeerNode (<[k := d]> (node_sets n)) (node_reputation n)) k i) by (unfold put, with_nodes; by rewrite sets_insert_id).
    apply moved_intro with i; try done; rewrite !occupies_b2z; repeat case_decide; try lia; naive_solver.
  - eexists. split; [apply (take_slot_run k d id _ s i); try done; unfold occupies; destruct (mem s k id), d; done|].
    rewrite decide_False by done. split; [|done]. apply (moved_intro s k id n i (taken d 1 i)); try done; [apply taken_config|..];
      rewrite !occupies_b2z; destruct (mem s k id), d; simpl; repeat case_decide; try lia; naive_solver.
Qed.

(** A slot is refused only to a peer that occupies one, when none is free. *)
Lemma try_outgoing_run k id s i : ps_inv s -> sets s !! k = Some i -> is_not_connected (mem s k id) = true ->
  exists s', try_outgoing k id s = (s', Ok (bool_decide (id ∈ no_slot_nodes i) || (num_out i <? max_out i)) : res E bool) /\
    (if bool_decide (id ∈ no_slot_nodes i) || (num_out i <? max_out i) then moved k id Out_ s s' /\ sets s' = (if decide (id ∈ no_slot_nodes i) then sets s else <[k := taken Out_ 1 i]> (sets s)) else s' = s).
Proof.
  intros I Hi Hc. unfold try_outgoing, has_free_outgoing_slot. erewrite bind_Ok by (by apply set_at_run). erewrite bind_Ok by (erewrite bind_Ok by (by apply set_at_run); reflexivity).
  destruct (connect_run k id Out_ s i I Hi eq_refl Hc) as (s' & Hrun & Hmv).
  destruct (bool_decide (id ∈ no_slot_nodes i)), (num_out i <? max_out i); simpl; try (exists s'; by rewrite (bind_Ok _ _ _ _ _ Hrun)); by eexists.
Qed.

Lemma try_accept_incoming_run k id s i : ps_inv s -> sets s !! k = Some i -> is_not_connected (mem s k id) = true ->
  exists s', try_accept_incoming k id s = (s', Ok (bool_decide (id ∈ no_slot_nodes i) || (num_in i <? max_in i)) : res E bool) /\
    (if bool_decide (id ∈ no_slot_nodes i) || (num_in i <? max_in i) then moved k id In_ s s' /\ sets s' = (if decide (id ∈ no_slot_nodes i) then sets s else <[k := taken In_ 1 i]> (sets s)) else s' = s).
Proof.
  intros I Hi Hc. unfold try_accept_incoming. erewrite bind_Ok by (by apply set_at_run). rewrite Z.leb_antisym.
  destruct (connect_run k id In_ s i I Hi eq_refl Hc) as (s' & Hrun & Hmv).
  destruct (bool_decide (id ∈ no_slot_nodes i)), (num_in i <? max_in i); simpl; try (exists s'; by rewrite (bind_Ok _ _ _ _ _ Hrun)); by eexists.
Qed.

(** Memberships without a connection are exchanged freely. *)
Lemma moved_idle s k id n i m : ps_inv s -> id ∈ U -> sets s !! k = Some i ->
  length (node_sets n) = num_sets s -> (forall k', mem s k' id = default NotMember (node_sets n !! k')) -> node_reputation n = reputation_of id s ->
  is_connected (mem s k id) = false -> is_connected m = false ->
  moved k id m s (with_nodes <[id := mkPeerNode (<[k := m]> (node_sets n)) (node_reputation n)]> s).
Proof.
  intros I Hid Hi Hlen Hmem Hrep Hc Hm.
  replace (with_nodes _ s) with (put s id (mkPeerNode (<[k := m]> (node_sets n)) (node_reputation n)) k i) by (unfold put, with_nodes; by rewrite sets_insert_id).
  apply (moved_intro s k id n i i); try done; rewrite !occupies_b2z; destruct (mem s k id), m; repeat case_decide; try done; try lia; naive_solver.
Qed.

Lemma bump_run k id now s : ps_inv s -> (k < num_sets s)%nat -> is_not_connected (mem s k id) = true ->
  exists s', bump_last_connected_or_discovered k id now s = (s', Ok tt : res E unit) /\ moved k id (NotConnected now) s s'.
Proof.
  intros I Hk Hc. destruct (set_known s k Hk) as [i Hi]. destruct (mem_known s k id) as (n & Hn & Hm); [by intros Heq; rewrite Heq in Hc|].
  destruct (node_facts s id n I Hn) as (Hid & Hlen & Hmem & Hrep). unfold bump_last_connected_or_discovered. erewrite bind_Ok by reflexivity. rewrite Hn.
  unfold member_at. rewrite Hm. cbn [expect]. erewrite bind_Ok by reflexivity. destruct (mem s k id) eqn:Heq; try done.
  eexists. split; [reflexivity|]. apply moved_idle with i; try done. by rewrite Heq.
Qed.

Lemma last_connected_run k id now last s : mem s k id = NotConnected last -> last_connected_or_discovered k id now s = (s, Ok last : res E Z).
Proof.
  intros Heq. destruct (mem_known s k id) as (n & Hn & Hm); [by rewrite Heq|]. unfold last_connected_or_discovered. erewrite bind_Ok by reflexivity. rewrite Hn.
  unfold member_at. rewrite Hm. cbn [expect]. erewrite bind_Ok by reflexivity. by rewrite Heq.
Qed.

Lemma lookup_repeat_NotMember l k : default NotMember (repeat NotMember l !! k) = NotMember.
Proof. revert k. induction l as [|l IH]; intros [|k]; simpl; auto. Qed.

(** A new node, or the node that is there. *)
Lemma entry_facts s id : ps_inv s -> let n := default (PeerNode_new (num_sets s)) (nodes s !! id) in
  length (node_sets n) = num_sets s /\ (forall k', mem s k' id = default NotMember (node_sets n !! k')) /\ node_reputation n = reputation_of id s.
Proof.
  intros I. unfold mem, reputation_of. destruct (nodes s !! id) as [n|] eqn:Hn; simpl; [by split; [apply (ps_len s I id)|]|].
  split_and!; [by rewrite repeat_length|intros k'; by rewrite lookup_repeat_NotMember|done].
Qed.

Lemma discover_run k id now s : ps_inv s -> (k < num_sets s)%nat -> id ∈ U -> mem s k id = NotMember ->
  exists s', discover k id now s = (s', Ok tt : res E unit) /\ moved k id (NotConnected now) s s'.
Proof.
  intros I Hk Hid Hm. destruct (set_known s k Hk) as [i Hi]. destruct (entry_facts s id I) as (Hlen & Hmem & Hrep).
  unfold discover. erewrite bind_Ok by reflexivity. unfold member_at. destruct (lookup_lt_is_Some_2 (node_sets (default (PeerNode_new (num_sets s)) (nodes s !! id))) k) as [m Hm']; [lia|].
  rewrite Hm'. cbn [expect]. erewrite bind_Ok by reflexivity. eexists. split; [reflexivity|]. apply moved_idle with i; try done. by rewrite Hm.
Qed.

(** The invariant depends on the memberships. *)
Lemma ps_inv_mem s s' : ps_inv s -> sets s' = sets s -> dom (nodes s') ⊆ U -> (forall id n, nodes s' !! id = Some n -> length (node_sets n) = num_sets s) ->
  (forall k id, mem s' k id = mem s k id) -> ps_inv s'.
Proof.
  intros I Hs Hdom Hlen Hmem. split.
  - done.
  - intros id n Hn. unfold num_sets. rewrite Hs. by apply (Hlen id).
  - intros k i Hi. rewrite Hs in Hi. rewrite (ps_in s I k i Hi). apply count_ext. intros id. by rewrite Hmem.
  - intros k i Hi. rewrite Hs in Hi. rewrite (ps_out s I k i Hi). apply count_ext. intros id. by rewrite Hmem.
Qed.

(** The reputation of [id] has become [v]; nothing else has changed. *)
Record rated id (v : Z) s s' : Prop := {
  rt_inv : ps_inv s';
  rt_mem k' id' : mem s' k' id' = mem s k' id';
  rt_rep id' : reputation_of id' s' = if decide (id' = id) then v else reputation_of id' s;
  rt_sets : sets s' = sets s }.

Lemma rated_intro s id n v : ps_inv s -> id ∈ U -> length (node_sets n) = num_sets s -> (forall k', mem s k' id = default NotMember (node_sets n !! k')) ->
  rated id v s (with_nodes <[id := mkPeerNode (node_sets n) v]> s).
Proof.
  intros I Hid Hlen Hmem. set (s' := with_nodes _ s).
  assert (forall k' id', mem s' k' id' = mem s k' id') as Hm.
  { intros k' id'. unfold mem at 1. simpl. destruct (decide (id' = id)) as [->|Hne]; [by rewrite lookup_insert_eq, Hmem|by rewrite lookup_insert_ne]. }
  split; [|done| |done].
  - apply (ps_inv_mem s); try done; simpl; [rewrite dom_insert; pose proof (ps_dom s I); set_solver|].
    intros id' n' Hn'. apply lookup_insert_Some in Hn' as [[_ <-]|[_ Hn']]; [done|by apply (ps_len s I id')].
  - intros id'. unfold reputation_of at 1. simpl. case_decide as Heq; [subst; by rewrite lookup_insert_eq|by rewrite lookup_insert_ne].
Qed.

Lemma rated_trans id v v' s s' s'' : rated id v s s' -> rated id v' s' s'' -> rated id v' s s''.
Proof.
  intros R R'. split; [apply R'|..]; intros; rewrite ?(rt_mem _ _ _ _ R'), ?(rt_rep _ _ _ _ R'), ?(rt_sets _ _ _ _ R'), ?(rt_mem _ _ _ _ R), ?(rt_rep _ _ _ _ R); [done| |apply R].
  by case_decide.
Qed.

Lemma forget_forgettable s id n : ps_inv s -> nodes s !! id = Some n -> forgettable n = true -> rated id (reputation_of id s) s (with_nodes (delete id) s).
Proof.
  intros I Hn Hf. apply andb_prop in Hf as [Hrep%Z.eqb_eq Hall]. rewrite forallb_forall in Hall.
  assert (forall k' id', mem (with_nodes (delete id) s) k' id' = mem s k' id') as Hm.
  { intros k' id'. unfold mem at 1. simpl. destruct (decide (id' = id)) as [->|Hne]; [|by rewrite lookup_delete_ne].
    rewrite lookup_delete_eq. unfold mem. rewrite Hn. destruct (node_sets n !! k') as [m|] eqn:Hk; [|done]. specialize (Hall m). simpl.
    assert (is_not_member m = true) as Hnm by (apply Hall, list_elem_of_In; by eapply list_elem_of_lookup_2). by destruct m. }
  split; [|done| |done].
  - apply (ps_inv_mem s); try done; simpl; [rewrite dom_delete; pose proof (ps_dom s I); set_solver|]. intros id' n' [_ Hn']%lookup_delete_Some. by apply (ps_len s I id').
  - intros id'. unfold reputation_of at 1. simpl. case_decide as Heq; [subst; rewrite lookup_delete_eq; unfold reputation_of; by rewrite Hn|by rewrite lookup_delete_ne].
Qed.

(** A change without effect on reputations, after a move. *)
Lemma moved_rated k id m s s' s'' : moved k id m s s' -> rated id (reputation_of id s') s' s'' -> moved k id m s s''.
Proof.
  intros Mv R. split; [apply R|..]; intros; rewrite ?(rt_mem _ _ _ _ R), ?(rt_rep _ _ _ _ R), ?(rt_sets _ _ _ _ R), ?(mv_mem _ _ _ _ _ Mv), ?(mv_rep _ _ _ _ _ Mv), ?(mv_config _ _ _ _ _ Mv); try done.
  by case_decide; subst.
Qed.

Lemma forget_run k id s : ps_inv s -> (k < num_sets s)%nat -> is_not_connected (mem s k id) = true ->
  exists s', forget_peer k id s = (s', Ok tt : res E unit) /\ moved k id NotMember s s'.
Proof.
  intros I Hk Hc. destruct (set_known s k Hk) as [i Hi]. destruct (mem_known s k id) as (n & Hn & Hm); [by intros Heq; rewrite Heq in Hc|].
  destruct (node_facts s id n I Hn) as (Hid & Hlen & Hmem & Hrep). unfold forget_peer. erewrite bind_Ok by reflexivity. rewrite Hn.
  unfold member_at. rewrite Hm. cbn [expect]. erewrite bind_Ok by reflexivity.
  assert (is_not_member (mem s k id) = false) as -> by (by destruct (mem s k id)). erewrite bind_Ok by (unfold debug_assert; by destruct (overflow_checks)).
  erewrite bind_Ok by reflexivity. set (n' := mkPeerNode _ _). set (s1 := with_nodes <[id := n']> s).
  assert (moved k id NotMember s s1) as Hmv by (apply moved_idle with i; try done; by destruct (mem s k id)).
  destruct (forgettable n') eqn:Hf; [|by eexists]. eexists. split; [reflexivity|]. eapply moved_rated; [done|].
  apply (forget_forgettable s1 id n'); [apply Hmv|simpl; by rewrite lookup_insert_eq|done].
Qed.

(** ** Reputations *)

Lemma peer_reputation_run id s : ps_inv s -> id ∈ U ->
  exists s', peer_reputation id s = (s', Ok tt : res E unit) /\ rated id (reputation_of id s) s s' /\ is_Some (nodes s' !! id).
Proof.
  intros I Hid. unfold peer_reputation, modify. eexists. split; [reflexivity|]. destruct (entry_facts s id I) as (Hlen & Hmem & Hrep).
  destruct (nodes s !! id) as [n|] eqn:Hn; simpl in *.
  - split; [|by eexists]. split; try done. intros id'. by case_decide; subst.
  - split; [|rewrite lookup_insert_eq; by eexists]. rewrite <-Hrep. by apply (rated_intro s id (PeerNode_new (num_sets s))).
Qed.

Lemma rep_node_run id s n : nodes s !! id = Some n -> rep_node id s = (s, Ok n : res E PeerNode).
Proof. intros Hn. unfold rep_node. erewrite bind_Ok by reflexivity. by rewrite Hn. Qed.

Lemma rep_reputation_run id s : is_Some (nodes s !! id) -> rep_reputation id s = (s, Ok (reputation_of id s) : res E Z).
Proof. intros [n Hn]. unfold rep_reputation. erewrite bind_Ok by (by apply rep_node_run). unfold reputation_of. by rewrite Hn. Qed.

Lemma rep_set_run id v s : ps_inv s -> is_Some (nodes s !! id) ->
  exists s', rep_set_reputation id v s = (s', Ok tt : res E unit) /\ rated id v s s' /\ is_Some (nodes s' !! id).
Proof.
  intros I [n Hn]. destruct (node_facts s id n I Hn) as (Hid & Hlen & Hmem & Hrep). unfold rep_set_reputation. erewrite bind_Ok by (by apply rep_node_run).
  eexists. split; [reflexivity|]. split; [by apply rated_intro|]. simpl. rewrite lookup_insert_eq. by eexists.
Qed.

Lemma rep_add_run id v s : ps_inv s -> is_Some (nodes s !! id) ->
  exists s', rep_add_reputation id v s = (s', Ok tt : res E unit) /\ rated id (saturate_i32 (reputation_of id s + v)) s s' /\ is_Some (nodes s' !! id).
Proof.
  intros I [n Hn]. unfold rep_add_reputation. erewrite bind_Ok by (by apply rep_node_run). unfold reputation_of at 1. rewrite Hn. apply rep_set_run; [done|by eexists].
Qed.

Lemma rep_drop_run id s : ps_inv s -> is_Some (nodes s !! id) ->
  exists s', rep_drop id s = (s', Ok tt : res E unit) /\ rated id (reputation_of id s) s s'.
Proof.
  intros I [n Hn]. unfold rep_drop. erewrite bind_Ok by (by apply rep_node_run). destruct (forgettable n) eqn:Hf.
  - eexists. split; [reflexivity|]. by apply (forget_forgettable s id n).
  - eexists. split; [reflexivity|]. split; try done. intros id'. by case_decide; subst.
Qed.

Lemma add_reputation_run id v s : ps_inv s -> is_Some (nodes s !! id) ->
  exists s', add_reputation id v s = (s', Ok tt : res E unit) /\ rated id (saturate_i32 (reputation_of id s + v)) s s'.
Proof.
  intros I [n Hn]. destruct (node_facts s id n I Hn) as (Hid & Hlen & Hmem & Hrep). unfold add_reputation. erewrite bind_Ok by reflexivity. rewrite Hn.
  eexists. split; [reflexivity|]. rewrite <-Hrep. by apply rated_intro.
Qed.

(** ** Peers without slots *)

(** The peers without slots of the set [k] have become [X]. *)
Record reslotted k (X : gset PeerId) s s' : Prop := {
  rs_inv : ps_inv s';
  rs_nodes : nodes s' = nodes s;
  rs_config k' : config <$> sets s' !! k' = (if decide (k' = k) then fun i => (max_in i, max_out i, X) else config) <$> sets s !! k' }.

Lemma reslotted_intro s k id i i' X : ps_inv s -> id ∈ U -> sets s !! k = Some i -> (forall j, j <> id -> j ∈ X <-> j ∈ no_slot_nodes i) ->
  config i' = (max_in i, max_out i, X) ->
  num_in i' = num_in i - Z.b2z (occupies (no_slot_nodes i) In_ (mem s k id) id) + Z.b2z (occupies X In_ (mem s k id) id) ->
  num_out i' = num_out i - Z.b2z (occupies (no_slot_nodes i) Out_ (mem s k id) id) + Z.b2z (occupies X Out_ (mem s k id) id) ->
  reslotted k X s (mkPeersState (nodes s) (<[k := i']> (sets s))).
Proof.
  intros I Hid Hi HX Hc Hin Hout. injection Hc as Hmi Hmo HX'. assert (k < num_sets s)%nat as Hk by by eapply lookup_lt_Some.
  assert (forall d, count (fun j => occupies X d (mem s k j) j) = count (fun j => occupies (no_slot_nodes i) d (mem s k j) j) -
    Z.b2z (occupies (no_slot_nodes i) d (mem s k id) id) + Z.b2z (occupies X d (mem s k id) id)) as Hcount.
  { intros d. apply (count_update (fun j => occupies (no_slot_nodes i) d (mem s k j) j) (fun j => occupies X d (mem s k j) j) id Hid).
    intros j Hj. unfold occupies. by rewrite (bool_decide_ext _ _ (HX j Hj)). }
  split; [|done|].
  - split; [apply I|intros id' n Hn; unfold num_sets; simpl; rewrite length_insert; by apply (ps_len s I id')|..]; intros k' i'' Hi''; simpl in Hi'';
      (destruct (decide (k' = k)) as [->|Hne]; [rewrite list_lookup_insert_eq in Hi'' by done; injection Hi'' as <-; rewrite HX'|rewrite list_lookup_insert_ne in Hi'' by done]).
    + change (num_in i' = count (fun j => occupies X In_ (mem s k j) j)). rewrite (Hcount In_), Hin, (ps_in s I k i Hi). done.
    + apply (ps_in s I k' i'' Hi'').
    + change (num_out i' = count (fun j => occupies X Out_ (mem s k j) j)). rewrite (Hcount Out_), Hout, (ps_out s I k i Hi). done.
    + apply (ps_out s I k' i'' Hi'').
  - intros k'. simpl. case_decide as Heq; [subst; rewrite list_lookup_insert_eq by done; rewrite Hi; simpl; unfold config; congruence|by rewrite list_lookup_insert_ne].
Qed.

Lemma reslot_mem k X s s' : reslotted k X s s' -> forall k' id, mem s' k' id = mem s k' id.
Proof. intros R k' id. unfold mem. by rewrite (rs_nodes _ _ _ _ R). Qed.

(** What the two operations do with the node, if it is known. *)
Lemma node_slot_run (f : nat -> MembershipState -> PM unit) k id s s1 s2 : ps_inv s -> (k < num_sets s)%nat -> nodes s1 = nodes s -> (nodes s !! id = None -> s2 = s1) ->
  f k (mem s k id) s1 = (s2, Ok tt) ->
  (self ← get; match nodes self !! id with Some p => m ← member_at k p; f k m | None => mret tt end : PM unit) s1 = (s2, Ok tt).
Proof.
  intros I Hk Hs Hnone Hf. erewrite bind_Ok by reflexivity. rewrite Hs. destruct (nodes s !! id) as [n|] eqn:Hn; [|by rewrite Hnone].
  unfold member_at. rewrite (mem_node s k id n I Hn Hk). cbn [expect]. by erewrite bind_Ok by reflexivity.
Qed.

Lemma add_no_slot_run k id s i : ps_inv s -> sets s !! k = Some i -> id ∈ U ->
  exists s', add_no_slot_node k id s = (s', Ok tt : res E unit) /\ reslotted k ({[id]} ∪ no_slot_nodes i) s s'.
Proof.
  intros I Hi Hid. assert (k < num_sets s)%nat as Hk by by eapply lookup_lt_Some. unfold add_no_slot_node. erewrite bind_Ok by (by apply set_at_run). case_decide as Hns.
  - exists s. split; [done|]. replace ({[id]} ∪ no_slot_nodes i) with (no_slot_nodes i) by set_solver. split; [done|done|]. intros k'. case_decide; [by subst; rewrite Hi|done].
  - erewrite bind_Ok by reflexivity. set (i1 := with_no_slot _ i). set (s1 := with_sets (<[k := i1]> (sets s)) s).
    assert (sets s1 !! k = Some i1) as Hi1 by (simpl; by rewrite list_lookup_insert_eq).
    destruct (occupied_bounds k id s i I Hi Hid Hns) as [Hin Hout]. exists (mkPeersState (nodes s) (<[k := taken (mem s k id) (-1) i1]> (sets s))). split.
    + rewrite (node_slot_run free_slot k id s s1 (mkPeersState (nodes s) (<[k := taken (mem s k id) (-1) i1]> (sets s)))); [done|done|done|done| |].
      * intros Hnone. unfold mem. by rewrite Hnone.
      * rewrite (free_slot_raw k (mem s k id) s1 i1) by done. simpl. by rewrite list_insert_insert_eq.
    + apply reslotted_intro with id i; try done; [set_solver|by destruct (mem s k id)|..]; rewrite !occupies_b2z; destruct (mem s k id); simpl; repeat case_decide; try lia; set_solver.
Qed.

Lemma remove_no_slot_run k id s i : ps_inv s -> sets s !! k = Some i -> id ∈ U ->
  exists s', remove_no_slot_node k id s = (s', Ok tt : res E unit) /\ reslotted k (no_slot_nodes i ∖ {[id]}) s s'.
Proof.
  intros I Hi Hid. assert (k < num_sets s)%nat as Hk by by eapply lookup_lt_Some. unfold remove_no_slot_node. erewrite bind_Ok by (by apply set_at_run). case_decide as Hns.
  - erewrite bind_Ok by reflexivity. set (i1 := with_no_slot _ i). set (s1 := with_sets (<[k := i1]> (sets s)) s).
    assert (sets s1 !! k = Some i1) as Hi1 by (simpl; by rewrite list_lookup_insert_eq).
    destruct (free_bounds k (mem s k id) id s i I Hi Hid) as [Hin Hout]; [unfold occupies; rewrite (bool_decide_eq_true_2 (id ∈ _)) by done; by rewrite andb_false_r|].
    exists (mkPeersState (nodes s) (<[k := taken (mem s k id) 1 i1]> (sets s))). split.
    + rewrite (node_slot_run take_slot k id s s1 (mkPeersState (nodes s) (<[k := taken (mem s k id) 1 i1]> (sets s)))); [done|done|done|done| |].
      * intros Hnone. unfold mem. by rewrite Hnone.
      * rewrite (take_slot_raw k (mem s k id) s1 i1) by done. simpl. by rewrite list_insert_insert_eq.
    + apply reslotted_intro with id i; try done; [set_solver|by destruct (mem s k id)|..]; rewrite !occupies_b2z; destruct (mem s k id); simpl; repeat case_decide; try lia; set_solver.
  - exists s. split; [done|]. replace (no_slot_nodes i ∖ {[id]}) with (no_slot_nodes i) by set_solver. split; [done|done|]. intros k'. case_decide; [by subst; rewrite Hi|done].
Qed.

(** ** Queries *)

Definition kind m : Peer := match m with NotMember => UnknownPeer | In_ | Out_ => ConnectedPeer | NotConnected _ => NotConnectedPeer end.

Lemma peer_run k id s : ps_inv s -> (k < num_sets s)%nat -> peer k id s = (s, Ok (kind (mem s k id)) : res E Peer).
Proof.
  intros I Hk. unfold peer. erewrite bind_Ok by reflexivity. assert ((k <? num_sets s)%nat = true) as -> by (by apply Nat.ltb_lt).
  erewrite bind_Ok by reflexivity. destruct (nodes s !! id) as [n|] eqn:Hn; [|unfold mem; by rewrite Hn].
  unfold member_at. rewrite (mem_node s k id n I Hn Hk). cbn [expect]. by erewrite bind_Ok by reflexivity.
Qed.

Lemma select_run k f ids s : ps_inv s -> (k < num_sets s)%nat -> (forall id, id ∈ ids -> id ∈ dom (nodes s)) ->
  select k f ids s = (s, Ok (filter (fun id => f (mem s k id) = true) ids) : res E (list PeerId)).
Proof.
  intros I Hk. induction ids as [|id ids IH]; intros Hids; [done|]. cbn [select].
  assert (id ∈ dom (nodes s)) as [n Hn]%elem_of_dom by (apply Hids; left).
  erewrite bind_Ok by (erewrite bind_Ok by reflexivity; rewrite Hn; reflexivity). unfold member_at. rewrite (mem_node s k id n I Hn Hk). cbn [expect]. erewrite bind_Ok by reflexivity.
  rewrite (bind_Ok _ _ _ _ _ (IH ltac:(intros id' Hid'; apply Hids; by right))). rewrite filter_cons. destruct (f (mem s k id)); [by rewrite decide_True|by rewrite decide_False].
Qed.

Lemma connected_peers_run k s : ps_inv s -> (k < num_sets s)%nat ->
  exists ids, connected_peers k s = (s, Ok ids : res E (list PeerId)) /\ NoDup ids /\ forall id, id ∈ ids <-> is_connected (mem s k id) = true.
Proof.
  intros I Hk. unfold connected_peers. erewrite bind_Ok by reflexivity. assert ((k <? num_sets s)%nat = true) as -> by (by apply Nat.ltb_lt). erewrite bind_Ok by reflexivity.
  eexists. split; [apply select_run; [done|done|intros id; unfold peers; by rewrite elem_of_hash_iter]|]. split; [apply NoDup_filter, NoDup_hash_iter|].
  intros id. rewrite list_elem_of_filter. unfold peers. rewrite elem_of_hash_iter, elem_of_dom. split; [naive_solver|]. intros Hc. split; [done|].
  destruct (mem_known s k id) as (n & Hn & _); [by intros Heq; rewrite Heq in Hc|eauto].
Qed.

Lemma foldl_highest s ids acc : exists o, foldl (highest s) acc ids = o /\ (o = None <-> acc = None /\ ids = []) /\
  forall id, o = Some id -> (Some id = acc \/ id ∈ ids) /\ forall id', Some id' = acc \/ id' ∈ ids -> reputation_of id' s <= reputation_of id s.
Proof.
  revert acc. induction ids as [|x ids IH]; intros acc; cbn [foldl].
  - exists acc. split; [done|]. split; [naive_solver|]. intros id ->. split; [by left|]. intros id' [[= ->]|Hin]; [lia|by apply elem_of_nil in Hin].
  - destruct (IH (highest s acc x)) as (o & Ho & Hnone & Hsome). exists o. split; [done|].
    assert (highest s acc x <> None) as Hn by (unfold highest; destruct acc; [by case_match|done]). split; [naive_solver|].
    intros id Hid. destruct (Hsome id Hid) as [Hmem Hmax].
    assert (forall y, Some y = highest s acc x -> Some y = acc \/ y = x) as Hsel by (intros y; unfold highest; destruct acc; [case_match|]; naive_solver).
    split; [destruct Hmem as [Hm|Hm]; [destruct (Hsel _ Hm) as [?| ->]; [by left|right; left]|right; by right]|].
    assert (forall y, Some y = acc \/ y = x -> exists z, Some z = highest s acc x /\ reputation_of y s <= reputation_of z s) as Hle.
    { intros y Hy. unfold highest. destruct acc as [c|]; [|naive_solver lia]. destruct (reputation_of x s <=? reputation_of c s) eqn:Hc; [apply Z.leb_le in Hc|apply Z.leb_gt in Hc];
        eexists; (split; [done|]); destruct Hy as [[= ->]| ->]; lia. }
    intros id' Hid'. destruct Hid' as [Ha|[->|Hin]%elem_of_cons].
    + destruct (Hle id' (or_introl Ha)) as (z & Hz & Hlez). specialize (Hmax z (or_introl Hz)). lia.
    + destruct (Hle x (or_intror eq_refl)) as (z & Hz & Hlez). specialize (Hmax z (or_introl Hz)). lia.
    + apply Hmax. by right.
Qed.

Lemma highest_run k s : ps_inv s -> (k < num_sets s)%nat ->
  exists o, highest_not_connected_peer k s = (s, Ok o : res E (option PeerId)) /\
    match o with
    | Some id => is_not_connected (mem s k id) = true /\ forall id', is_not_connected (mem s k id') = true -> reputation_of id' s <= reputation_of id s
    | None => forall id, is_not_connected (mem s k id) = false
    end.
Proof.
  intros I Hk. unfold highest_not_connected_peer. erewrite bind_Ok by reflexivity. assert ((k <? num_sets s)%nat = true) as -> by (by apply Nat.ltb_lt). erewrite bind_Ok by reflexivity.
  erewrite bind_Ok by (apply select_run; [done|done|intros id; unfold peers; by rewrite elem_of_hash_iter]). eexists. split; [reflexivity|].
  set (ids := filter _ (peers s)). assert (forall id, id ∈ ids <-> is_not_connected (mem s k id) = true) as Hids.
  { intros id. unfold ids, peers. rewrite list_elem_of_filter, elem_of_hash_iter, elem_of_dom. split; [naive_solver|]. intros Hc. split; [done|].
    destruct (mem_known s k id) as (n & Hn & _); [by intros Heq; rewrite Heq in Hc|eauto]. }
  destruct (foldl_highest s ids None) as (o & -> & Hnone & Hsome). destruct o as [id|].
  - destruct (Hsome id eq_refl) as [[?|Hin] Hmax]; [done|]. split; [by apply Hids|]. intros id' Hid'. apply Hmax. right. by apply Hids.
  - destruct Hnone as [Hnone _]. destruct (Hnone eq_refl) as [_ Hnil]. intros id. destruct (is_not_connected (mem s k id)) eqn:Hc; [|done].
    apply Hids in Hc. rewrite Hnil in Hc. by apply elem_of_nil in Hc.
Qed.
End spec.
