(* ===== verification/Peerset.v ===== *)
(** * The peer set manager

    Model of [client/peerset/src/lib.rs]: which peers of each set to be
    connected to.  The manager owns the state of [PeersState.v], the reserved
    peers of each set, the channel of actions its handles write to and the queue
    of messages the network polls.  [Instant::now] reads the clock of the class
    [Clock], whose readings never decrease; the time is in nanoseconds.  Whether
    the periodic timer has fired when it is polled is given by the class
    [Timer]. *)

From Stdlib Require Import ZArith Lia.
From stdpp Require Import gmap fin_maps fin_sets option list.
From S2P Require Import Prelude PeersState.

Local Open Scope Z_scope.

(** ** Data *)

Definition BANNED_THRESHOLD : Z := 82 * Z.quot i32_min 100.
Definition DISCONNECT_REPUTATION_CHANGE : Z := -256.

Definition nanos : Z := 10 ^ 9.
Definition FORGET_AFTER : Z := 3600 * nanos.
Definition as_secs (duration : Z) : Z := duration / nanos.

(** The clock: its reading at each call of [Instant::now]. *)
Class Clock : Type := {
  instant : nat -> Z;
  instant_mono n : instant n <= instant (S n);
  instant_range n : 0 <= instant n < 2 ^ 64 * nanos }.

(** Whether the periodic timer has fired, at each poll of it. *)
Class Timer : Type := { timer_fired : nat -> bool }.

(** A change of reputation; its reason is text for the log. *)
Record ReputationChange : Type := mkReputationChange { change_value : Z }.
Definition new_fatal : ReputationChange := mkReputationChange i32_min.

Inductive DropReason : Type := DropUnknown | Refused.

Inductive Action (PeerId : Type) `{Countable PeerId} : Type :=
| AddReservedPeer (set_id : nat) (peer_id : PeerId)
| RemoveReservedPeer (set_id : nat) (peer_id : PeerId)
| SetReservedPeers (set_id : nat) (peer_ids : gset PeerId)
| SetReservedOnly (set_id : nat) (reserved_only : bool)
| ReportPeer (peer_id : PeerId) (change : ReputationChange)
| AddToPeersSet (set_id : nat) (peer_id : PeerId)
| RemoveFromPeersSet (set_id : nat) (peer_id : PeerId).

Arguments AddReservedPeer {PeerId _ _} set_id peer_id.
Arguments RemoveReservedPeer {PeerId _ _} set_id peer_id.
Arguments SetReservedPeers {PeerId _ _} set_id peer_ids.
Arguments SetReservedOnly {PeerId _ _} set_id reserved_only.
Arguments ReportPeer {PeerId _ _} peer_id change.
Arguments AddToPeersSet {PeerId _ _} set_id peer_id.
Arguments RemoveFromPeersSet {PeerId _ _} set_id peer_id.

Inductive Message (PeerId : Type) : Type :=
| Connect (set_id : nat) (peer_id : PeerId)
| Drop (set_id : nat) (peer_id : PeerId)
| Accept (index : Z)
| Reject (index : Z).

Arguments Connect {PeerId} set_id peer_id.
Arguments Drop {PeerId} set_id peer_id.
Arguments Accept {PeerId} index.
Arguments Reject {PeerId} index.

Record SetConfig (PeerId : Type) `{Countable PeerId} : Type := mkSetConfig {
  cfg_in_peers : Z;
  cfg_out_peers : Z;
  cfg_bootnodes : list PeerId;
  cfg_reserved_nodes : gset PeerId;
  cfg_reserved_only : bool }.

Arguments mkSetConfig {PeerId _ _} cfg_in_peers cfg_out_peers cfg_bootnodes cfg_reserved_nodes cfg_reserved_only.
Arguments cfg_in_peers {PeerId _ _} _.
Arguments cfg_out_peers {PeerId _ _} _.
Arguments cfg_bootnodes {PeerId _ _} _.
Arguments cfg_reserved_nodes {PeerId _ _} _.
Arguments cfg_reserved_only {PeerId _ _} _.

(** The manager; [ticks] and [polls] count the readings of the clock and the
    polls of the timer. *)
Record Peerset (PeerId : Type) `{Countable PeerId} : Type := mkPeerset {
  data : PeersState PeerId;
  reserved_nodes : list (gset PeerId * bool);
  rx : list (Action PeerId);
  message_queue : list (Message PeerId);
  created : Z;
  latest_time_update : Z;
  ticks : nat;
  polls : nat }.

Arguments mkPeerset {PeerId _ _} data reserved_nodes rx message_queue created latest_time_update ticks polls.
Arguments data {PeerId _ _} _.
Arguments reserved_nodes {PeerId _ _} _.
Arguments rx {PeerId _ _} _.
Arguments message_queue {PeerId _ _} _.
Arguments created {PeerId _ _} _.
Arguments latest_time_update {PeerId _ _} _.
Arguments ticks {PeerId _ _} _.
Arguments polls {PeerId _ _} _.

Section model.
Context {OC : OverflowChecks} {PeerId : Type} `{HashOrder PeerId} {CL : Clock} {TM : Timer} {E : Type}.
Abbreviation State := (Peerset PeerId).
Abbreviation PSM := (M State E).
Implicit Types self : State.

Definition with_data (d : PeersState PeerId) self : State :=
  mkPeerset d (reserved_nodes self) (rx self) (message_queue self) (created self) (latest_time_update self) (ticks self) (polls self).
Definition with_reserved (r : list (gset PeerId * bool)) self : State :=
  mkPeerset (data self) r (rx self) (message_queue self) (created self) (latest_time_update self) (ticks self) (polls self).
Definition with_rx (l : list (Action PeerId)) self : State :=
  mkPeerset (data self) (reserved_nodes self) l (message_queue self) (created self) (latest_time_update self) (ticks self) (polls self).
Definition with_queue (q : list (Message PeerId)) self : State :=
  mkPeerset (data self) (reserved_nodes self) (rx self) q (created self) (latest_time_update self) (ticks self) (polls self).
Definition with_latest (t : Z) self : State :=
  mkPeerset (data self) (reserved_nodes self) (rx self) (message_queue self) (created self) t (ticks self) (polls self).
Definition with_ticks (n : nat) self : State :=
  mkPeerset (data self) (reserved_nodes self) (rx self) (message_queue self) (created self) (latest_time_update self) n (polls self).
Definition with_polls (n : nat) self : State :=
  mkPeerset (data self) (reserved_nodes self) (rx self) (message_queue self) (created self) (latest_time_update self) (ticks self) n.

Definition on_data {A} (m : M (PeersState PeerId) E A) : PSM A := zoom data with_data m.

Definition Instant_now : PSM Z :=
  self ← get; _ ← modify (with_ticks (S (ticks self))); mret (instant (ticks self)).

(** The difference of two instants; the later one comes first. *)
Definition duration (later earlier : Z) : res E Z := if later <? earlier then Panic else Ok (later - earlier).

Definition push_back (m : Message PeerId) : PSM unit := modify (fun self => with_queue (message_queue self ++ [m]) self).

(** [self.reserved_nodes[set_id.0]], read and written. *)
Definition reserved_at (set_id : nat) : PSM (gset PeerId * bool) := self ← get; lift (expect (reserved_nodes self !! set_id)).
Definition reserved_put (set_id : nat) (r : gset PeerId * bool) : PSM unit :=
  modify (fun self => with_reserved (<[set_id := r]> (reserved_nodes self)) self).

(** ** The passing of time *)

Definition reput_tick (reput : Z) : Z :=
  let diff := Z.quot reput 50 in
  let diff := if (diff =? 0) && (reput <? 0) then -1 else if (diff =? 0) && (0 <? reput) then 1 else diff in
  saturate_i32 (reput - diff).

Definition forget_old (now : Z) (peer_id : PeerId) (set_index : nat) : PSM unit :=
  p ← on_data (peer set_index peer_id);
  match p with
  | NotConnectedPeer =>
    t ← Instant_now;
    last ← on_data (last_connected_or_discovered set_index peer_id t);
    if last + FORGET_AFTER <? now then on_data (forget_peer set_index peer_id) else mret tt
  | ConnectedPeer | UnknownPeer => mret tt
  end.

(** One second of one peer. *)
Definition fade (now : Z) (peer_id : PeerId) : PSM unit :=
  _ ← on_data (peer_reputation peer_id);
  before ← on_data (rep_reputation peer_id);
  let after := reput_tick before in
  _ ← on_data (rep_set_reputation peer_id after);
  _ ← on_data (rep_drop peer_id);
  if after =? 0 then self ← get; for_each (forget_old now peer_id) (seq 0 (num_sets (data self)))
  else mret tt.

Definition fade_all (now : Z) : PSM unit := self ← get; for_each (fade now) (peers (data self)).

Definition update_time : PSM unit :=
  now ← Instant_now;
  self ← get;
  elapsed_latest ← lift (duration (latest_time_update self) (created self));
  elapsed_now ← lift (duration now (created self));
  _ ← modify (with_latest now);
  secs_diff ← lift (usub 64 (as_secs elapsed_now) (as_secs elapsed_latest));
  for_each (fun _ => fade_all now) (seq 0 (Z.to_nat secs_diff)).

(** ** Slots *)

(** The reserved peers that are not connected, until the first one whose
    reputation is too low. *)
Fixpoint alloc_reserved (set_id : nat) (ids : list PeerId) : PSM unit :=
  match ids with
  | [] => mret tt
  | reserved_node :: ids =>
    p ← on_data (peer set_id reserved_node);
    match p with
    | ConnectedPeer => alloc_reserved set_id ids
    | UnknownPeer | NotConnectedPeer =>
      _ ← match p with UnknownPeer => now ← Instant_now; on_data (discover set_id reserved_node now) | _ => mret tt end;
      self ← get;
      if reputation_of reserved_node (data self) <? BANNED_THRESHOLD then mret tt
      else
        ok ← on_data (try_outgoing set_id reserved_node);
        _ ← (if ok : bool then push_back (Connect set_id reserved_node) else lift (debug_assert false));
        alloc_reserved set_id ids
    end
  end.

(** The loop over the free outgoing slots; it ends before the fuel does. *)
Fixpoint fill_slots (fuel : nat) (set_id : nat) : PSM unit :=
  match fuel with
  | O => lift Panic
  | S fuel =>
    free ← on_data (has_free_outgoing_slot set_id);
    if negb free then mret tt
    else
      next ← on_data (highest_not_connected_peer set_id);
      match next with
      | None => mret tt
      | Some next =>
        self ← get;
        if reputation_of next (data self) <? BANNED_THRESHOLD then mret tt
        else
          ok ← on_data (try_outgoing set_id next);
          if ok : bool then _ ← push_back (Connect set_id next); fill_slots fuel set_id
          else lift (debug_assert false)
      end
  end.

Definition alloc_slots (set_id : nat) : PSM unit :=
  _ ← update_time;
  r ← reserved_at set_id;
  _ ← alloc_reserved set_id (hash_iter r.1);
  r ← reserved_at set_id;
  if r.2 : bool then mret tt
  else self ← get; fill_slots (S (size (nodes (data self)))) set_id.

(** ** Actions *)

(** [peer.disconnect()], and the message. *)
Definition drop_peer (set_id : nat) (peer_id : PeerId) : PSM unit :=
  now ← Instant_now;
  _ ← on_data (disconnect set_id peer_id now);
  push_back (Drop set_id peer_id).

Definition on_add_reserved_peer (set_id : nat) (peer_id : PeerId) : PSM unit :=
  r ← reserved_at set_id;
  if decide (peer_id ∈ r.1) then mret tt
  else
    _ ← reserved_put set_id ({[peer_id]} ∪ r.1, r.2);
    _ ← on_data (add_no_slot_node set_id peer_id);
    alloc_slots set_id.

Definition on_remove_reserved_peer (set_id : nat) (peer_id : PeerId) : PSM unit :=
  r ← reserved_at set_id;
  if decide (peer_id ∈ r.1) then
    _ ← reserved_put set_id (r.1 ∖ {[peer_id]}, r.2);
    _ ← on_data (remove_no_slot_node set_id peer_id);
    if negb r.2 then mret tt
    else
      p ← on_data (peer set_id peer_id);
      match p with ConnectedPeer => drop_peer set_id peer_id | NotConnectedPeer | UnknownPeer => mret tt end
  else mret tt.

Definition on_set_reserved_peers (set_id : nat) (peer_ids : gset PeerId) : PSM unit :=
  r ← reserved_at set_id;
  let to_insert := hash_iter (peer_ids ∖ r.1) in
  let to_remove := hash_iter (r.1 ∖ peer_ids) in
  _ ← for_each (on_add_reserved_peer set_id) to_insert;
  for_each (on_remove_reserved_peer set_id) to_remove.

(** A connected peer that is not reserved is dropped. *)
Definition drop_unreserved (set_id : nat) (peer_id : PeerId) : PSM unit :=
  r ← reserved_at set_id;
  if decide (peer_id ∈ r.1) then mret tt
  else
    p ← on_data (peer set_id peer_id);
    match p with ConnectedPeer => drop_peer set_id peer_id | NotConnectedPeer | UnknownPeer => lift Panic end.

Definition on_set_reserved_only (set_id : nat) (reserved_only : bool) : PSM unit :=
  r ← reserved_at set_id;
  _ ← reserved_put set_id (r.1, reserved_only);
  if reserved_only then ids ← on_data (connected_peers set_id); for_each (drop_unreserved set_id) ids
  else alloc_slots set_id.

Definition reserved_peers (set_id : nat) : PSM (list PeerId) := r ← reserved_at set_id; mret (hash_iter r.1).

Definition add_to_peers_set (set_id : nat) (peer_id : PeerId) : PSM unit :=
  p ← on_data (peer set_id peer_id);
  match p with
  | UnknownPeer => now ← Instant_now; _ ← on_data (discover set_id peer_id now); alloc_slots set_id
  | ConnectedPeer | NotConnectedPeer => mret tt
  end.

Definition on_remove_from_peers_set (set_id : nat) (peer_id : PeerId) : PSM unit :=
  r ← reserved_at set_id;
  if decide (peer_id ∈ r.1) then mret tt
  else
    p ← on_data (peer set_id peer_id);
    match p with
    | ConnectedPeer =>
      _ ← push_back (Drop set_id peer_id);
      now ← Instant_now;
      _ ← on_data (disconnect set_id peer_id now);
      on_data (forget_peer set_id peer_id)
    | NotConnectedPeer => on_data (forget_peer set_id peer_id)
    | UnknownPeer => mret tt
    end.

(** A peer whose reputation is too low loses its connection of a set. *)
Definition drop_banned (peer_id : PeerId) (set_index : nat) : PSM unit :=
  p ← on_data (peer set_index peer_id);
  match p with
  | ConnectedPeer => _ ← drop_peer set_index peer_id; alloc_slots set_index
  | NotConnectedPeer | UnknownPeer => mret tt
  end.

Definition on_report_peer (peer_id : PeerId) (change : ReputationChange) : PSM unit :=
  _ ← update_time;
  _ ← on_data (peer_reputation peer_id);
  _ ← on_data (rep_add_reputation peer_id (change_value change));
  reputation ← on_data (rep_reputation peer_id);
  _ ← on_data (rep_drop peer_id);
  if BANNED_THRESHOLD <=? reputation then mret tt
  else self ← get; for_each (drop_banned peer_id) (seq 0 (num_sets (data self))).

(** ** The network *)

Definition incoming (set_id : nat) (peer_id : PeerId) (index : Z) : PSM unit :=
  _ ← update_time;
  r ← reserved_at set_id;
  if r.2 && negb (bool_decide (peer_id ∈ r.1)) then push_back (Reject index)
  else
    p ← on_data (peer set_id peer_id);
    match p with
    | ConnectedPeer => mret tt
    | NotConnectedPeer | UnknownPeer =>
      now ← Instant_now;
      _ ← on_data match p with UnknownPeer => discover set_id peer_id now | _ => bump_last_connected_or_discovered set_id peer_id now end;
      self ← get;
      if reputation_of peer_id (data self) <? BANNED_THRESHOLD then push_back (Reject index)
      else ok ← on_data (try_accept_incoming set_id peer_id); push_back (if ok : bool then Accept index else Reject index)
    end.

Definition dropped (set_id : nat) (peer_id : PeerId) (reason : DropReason) : PSM unit :=
  _ ← update_time;
  p ← on_data (peer set_id peer_id);
  _ ← match p with
      | ConnectedPeer =>
        _ ← on_data (add_reputation peer_id DISCONNECT_REPUTATION_CHANGE);
        now ← Instant_now;
        on_data (disconnect set_id peer_id now)
      | NotConnectedPeer | UnknownPeer => mret tt
      end;
  _ ← match reason with Refused => on_remove_from_peers_set set_id peer_id | DropUnknown => mret tt end;
  alloc_slots set_id.

(** The methods of [PeersetHandle], and [Peerset::report_peer], write to the
    channel. *)
Definition unbounded_send (a : Action PeerId) : PSM unit := modify (fun self => with_rx (rx self ++ [a]) self).

Definition num_discovered_peers self : nat := length (peers (data self)).

(** [next_periodic_alloc_slots], polled. *)
Definition poll_timer : PSM bool :=
  self ← get; _ ← modify (with_polls (S (polls self))); mret (timer_fired (polls self)).

Definition handle_action (a : Action PeerId) : PSM unit :=
  match a with
  | AddReservedPeer set_id peer_id => on_add_reserved_peer set_id peer_id
  | RemoveReservedPeer set_id peer_id => on_remove_reserved_peer set_id peer_id
  | SetReservedPeers set_id peer_ids => on_set_reserved_peers set_id peer_ids
  | SetReservedOnly set_id reserved => on_set_reserved_only set_id reserved
  | ReportPeer peer_id score_diff => on_report_peer peer_id score_diff
  | AddToPeersSet sets_name peer_id => add_to_peers_set sets_name peer_id
  | RemoveFromPeersSet sets_name peer_id => on_remove_from_peers_set sets_name peer_id
  end.

(** The loop of [poll_next]: every turn consumes an action or ends it.  [None]
    is [Poll::Pending]. *)
Fixpoint poll_loop (fuel : nat) : PSM (option (Message PeerId)) :=
  match fuel with
  | O => lift Panic
  | S fuel =>
    self ← get;
    match message_queue self with
    | message :: q => _ ← modify (with_queue q); mret (Some message)
    | [] =>
      fired ← poll_timer;
      _ ← (if fired : bool then for_each alloc_slots (seq 0 (num_sets (data self))) else mret tt);
      self ← get;
      match rx self with
      | [] => mret None
      | action :: actions => _ ← modify (with_rx actions); _ ← handle_action action; poll_loop fuel
      end
    end
  end.

Definition poll_next : PSM (option (Message PeerId)) := self ← get; poll_loop (S (length (rx self))).

(** ** The configuration *)

Definition add_bootnode (set_id : nat) (peer_id : PeerId) : PSM unit :=
  p ← on_data (peer set_id peer_id);
  match p with
  | UnknownPeer => now ← Instant_now; on_data (discover set_id peer_id now)
  | ConnectedPeer | NotConnectedPeer => mret tt
  end.

Definition init_set (c : nat * SetConfig PeerId) : PSM unit :=
  _ ← for_each (fun node => on_data (add_no_slot_node c.1 node)) (hash_iter (cfg_reserved_nodes c.2));
  for_each (add_bootnode c.1) (cfg_bootnodes c.2).

Definition from_config (config : list (SetConfig PeerId)) : State * res E unit :=
  let now := instant 0 in
  (_ ← for_each init_set (imap pair config);
   self ← get;
   for_each alloc_slots (seq 0 (num_sets (data self))) : PSM unit)
  (mkPeerset (PeersState_new ((fun set => mkStateSetConfig (cfg_in_peers set) (cfg_out_peers set)) <$> config))
     ((fun set => (cfg_reserved_nodes set, cfg_reserved_only set)) <$> config) [] [] now now 1 0).
End model.
