(* ===== verification/PeersetInv.v ===== *)
(** * What the peer set manager keeps and says

    The invariant of the manager of [Peerset.v], the connections its messages
    announce, and what each operation does to both. *)

From Stdlib Require Import ZArith Lia.
From stdpp Require Import gmap fin_maps fin_sets option list.
From S2P Require Import Prelude PeersState Peerset.

Local Open Scope Z_scope.

Section spec.
Context {OC : OverflowChecks} {PeerId : Type} `{HashOrder PeerId} {CL : Clock} {TM : Timer} {E : Type}.
Abbreviation State := (Peerset PeerId).
Abbreviation PSM := (M State E).
Abbreviation Conns := (nat -> PeerId -> bool).
Implicit Types (s : State) (d : PeersState PeerId) (id : PeerId) (k : nat) (c : Conns) (ms : list (Message PeerId)) (R : list (gset PeerId * bool)).

Context (U : gset PeerId) (HU : Z.of_nat (size U) < 2 ^ 32).

(** ** Connections and messages *)

Definition dconn d : Conns := fun k id => is_connected (mem d k id).
Definition conn s : Conns := dconn (data s).

Definition upd c k id (b : bool) : Conns := fun k' id' => if decide (k' = k /\ id' = id) then b else c k' id'.

(** The messages, obeyed in order, lead from the connections [c] to [c']: one
    connects to a peer that is not connected, and drops one that is. *)
Inductive replay : Conns -> list (Message PeerId) -> Conns -> Prop :=
| replay_nil c c' : (forall k id, c' k id = c k id) -> replay c [] c'
| replay_connect c c' k id ms : c k id = false -> replay (upd c k id true) ms c' -> replay c (Connect k id :: ms) c'
| replay_drop c c' k id ms : c k id = true -> replay (upd c k id false) ms c' -> replay c (Drop k id :: ms) c'.

Lemma replay_ext c1 c1' c2 c2' ms : (forall k id, c1' k id = c1 k id) -> (forall k id, c2' k id = c2 k id) -> replay c1 ms c2 -> replay c1' ms c2'.
Proof.
  intros H1 H2 Hr. revert c1' c2' H1 H2. induction Hr as [c c' Heq|c c' k id ms Hc Hr IH|c c' k id ms Hc Hr IH]; intros c1' c2' H1 H2.
  - constructor. intros k id. rewrite H2, Heq. by rewrite H1.
  - constructor; [by rewrite H1|]. apply IH; [|done]. intros k' id'. unfold upd. by rewrite H1.
  - constructor; [by rewrite H1|]. apply IH; [|done]. intros k' id'. unfold upd. by rewrite H1.
Qed.

Lemma replay_app c c' c'' ms ms' : replay c ms c' -> replay c' ms' c'' -> replay c (ms ++ ms') c''.
Proof.
  intros Hr. revert c'' ms'. induction Hr as [c c' Heq|c c' k id ms Hc Hr IH|c c' k id ms Hc Hr IH]; intros c'' ms' Hr'; cbn [app].
  - by eapply replay_ext; [| |exact Hr'].
  - constructor; [done|]. by apply IH.
  - constructor; [done|]. by apply IH.
Qed.

(** ** The invariant *)

Definition rep_ok d : Prop := forall id, i32_min <= reputation_of id d <= i32_max.

(** The sets and the peers that an action names. *)
Definition valid_action (n : nat) (a : Action PeerId) : Prop :=
  match a with
  | AddReservedPeer k id | RemoveReservedPeer k id | AddToPeersSet k id | RemoveFromPeersSet k id => (k < n)%nat /\ id ∈ U
  | SetReservedPeers k ids => (k < n)%nat /\ ids ⊆ U
  | SetReservedOnly k _ => (k < n)%nat
  | ReportPeer id _ => id ∈ U
  end.

Record core s : Prop := {
  c_data : ps_inv U (data s);
  c_rep : rep_ok (data s);
  c_len : length (reserved_nodes s) = num_sets (data s);
  c_sync k r i : reserved_nodes s !! k = Some r -> sets (data s) !! k = Some i -> no_slot_nodes i = r.1;
  c_res k r : reserved_nodes s !! k = Some r -> r.1 ⊆ U;
  c_time : created s <= latest_time_update s <= instant (ticks s) /\ 0 <= created s;
  c_rx a : a ∈ rx s -> valid_action (num_sets (data s)) a }.

(** In a set that only accepts reserved peers, only those are connected. *)
Definition strict k s : Prop := forall r id, reserved_nodes s !! k = Some r -> r.2 = true -> conn s k id = true -> id ∈ r.1.

(** The slots are within the limits of the set. *)
Definition dlim k d : Prop := forall i, sets d !! k = Some i -> num_in i <= max_in i /\ num_out i <= max_out i.
Definition lim k s : Prop := dlim k (data s).

(** What a part of an operation keeps; [b] says whether the limits are kept,
    and [R] are the reserved peers after it. *)
Record keeps (b : bool) R s s' : Prop := {
  k_core : core s';
  k_res : reserved_nodes s' = R;
  k_rx : rx s' = rx s;
  k_sets : num_sets (data s') = num_sets (data s);
  k_strict k : strict k s -> strict k s';
  k_lim k : b = true -> lim k s -> lim k s' }.

(** The messages of a part of an operation tell of the connections it opens and
    closes. *)
Record says ms s s' : Prop := {
  s_queue : message_queue s' = message_queue s ++ ms;
  s_replay : replay (conn s) ms (conn s') }.

Definition does (b : bool) R ms s s' : Prop := keeps b R s s' /\ says ms s s'.

Lemma keeps_trans b R R' s s' s'' : keeps b R s s' -> keeps b R' s' s'' -> keeps b R' s s''.
Proof.
  intros K K'. split; [apply K'|apply K'|rewrite (k_rx _ _ _ _ K'); apply K|rewrite (k_sets _ _ _ _ K'); apply K|..].
  - intros k Hk. by apply (k_strict _ _ _ _ K'), (k_strict _ _ _ _ K).
  - intros k Hb Hk. by apply (k_lim _ _ _ _ K'), (k_lim _ _ _ _ K).
Qed.

Lemma says_trans ms ms' s s' s'' : says ms s s' -> says ms' s' s'' -> says (ms ++ ms') s s''.
Proof.
  intros S S'. split; [rewrite (s_queue _ _ _ S'), (s_queue _ _ _ S); by rewrite app_assoc|]. eapply replay_app; [apply S|apply S'].
Qed.

Lemma does_trans b R R' ms ms' s s' s'' : does b R ms s s' -> does b R' ms' s' s'' -> does b R' (ms ++ ms') s s''.
Proof. intros [K S] [K' S']. split; [by eapply keeps_trans|by eapply says_trans]. Qed.

Lemma keeps_refl b s : core s -> keeps b (reserved_nodes s) s s.
Proof. by intros C. Qed.

Lemma says_nil s s' : message_queue s' = message_queue s -> (forall k id, conn s' k id = conn s k id) -> says [] s s'.
Proof. intros Hq Hc. split; [by rewrite app_nil_r|by constructor]. Qed.

Lemma does_refl b s : core s -> does b (reserved_nodes s) [] s s.
Proof. intros C. split; [by apply keeps_refl|by apply says_nil]. Qed.

Lemma does_weaken b R ms s s' : does true R ms s s' -> does b R ms s s'.
Proof. intros [K S]. split; [|done]. destruct K. split; auto. Qed.

Lemma does_forget b R ms s s' : does b R ms s s' -> does false R ms s s'.
Proof. intros [K S]. split; [|done]. by destruct K. Qed.

(** ** The steps of the operations *)

(** What every change of the nodes keeps. *)
Record dkeeps d d' : Prop := {
  d_inv : ps_inv U d';
  d_rep : rep_ok d';
  d_config k : config <$> sets d' !! k = config <$> sets d !! k }.

Lemma dkeeps_num d d' : dkeeps d d' -> num_sets d' = num_sets d.
Proof.
  intros D. unfold num_sets. apply Nat.le_antisymm; apply Nat.nlt_ge; intros Hlt.
  - apply lookup_lt_is_Some in Hlt as [i Hi]. pose proof (d_config _ _ D (length (sets d))) as Hc. rewrite Hi, lookup_ge_None_2 in Hc by lia. done.
  - apply lookup_lt_is_Some in Hlt as [i Hi]. pose proof (d_config _ _ D (length (sets d'))) as Hc. rewrite Hi, lookup_ge_None_2 in Hc by lia. done.
Qed.

Lemma dkeeps_lookup d d' k i' : dkeeps d d' -> sets d' !! k = Some i' -> exists i, sets d !! k = Some i /\ config i' = config i.
Proof. intros D Hi. pose proof (d_config _ _ D k) as Hc. rewrite Hi in Hc. destruct (sets d !! k) as [i|]; [|done]. exists i. split; [done|]. by apply (inj Some) in Hc. Qed.

Lemma moved_dkeeps d d' k id m : rep_ok d -> moved U k id m d d' -> dkeeps d d'.
Proof. intros Hr Mv. split; [apply Mv|intros id'; rewrite (mv_rep _ _ _ _ _ _ Mv); apply Hr|apply Mv]. Qed.

Lemma rated_dkeeps d d' id v : rep_ok d -> i32_min <= v <= i32_max -> rated U id v d d' -> dkeeps d d'.
Proof.
  intros Hr Hv R. split; [apply R|intros id'; rewrite (rt_rep _ _ _ _ _ R); case_decide; [done|apply Hr]|]. intros k. by rewrite (rt_sets _ _ _ _ _ R).
Qed.

Lemma count_mono (f g : PeerId -> bool) : (forall id, f id = true -> g id = true) -> count U f <= count U g.
Proof. intros Hfg. unfold count. apply inj_le, subseteq_size. intros id. rewrite !elem_of_filter. naive_solver. Qed.

(** Fewer connections are within the limits. *)
Lemma dlim_fewer d d' k : ps_inv U d -> dkeeps d d' -> (forall id, is_connected (mem d' k id) = true -> mem d k id = mem d' k id) -> dlim k d -> dlim k d'.
Proof.
  intros I D Hm L i' Hi'. destruct (dkeeps_lookup d d' k i' D Hi') as (i & Hi & Hc). injection Hc as Hmi Hmo HX. destruct (L i Hi) as [Lin Lout].
  pose proof (ps_in U d I k i Hi) as Hin. pose proof (ps_out U d I k i Hi) as Hout.
  rewrite (ps_in U d' (d_inv _ _ D) k i' Hi'), (ps_out U d' (d_inv _ _ D) k i' Hi'), Hmi, Hmo.
  assert (forall m, is_connected m = true -> count U (fun id => occupies (no_slot_nodes i') m (mem d' k id) id) <= count U (fun id => occupies (no_slot_nodes i) m (mem d k id) id)) as Hle.
  { intros m Hcm. apply count_mono. intros id. unfold occupies. rewrite HX. case_bool_decide as Heq; [|done]. simpl. rewrite (Hm id), Heq by (by rewrite Heq). by rewrite (bool_decide_eq_true_2 (m = m)). }
  pose proof (Hle In_ eq_refl). pose proof (Hle Out_ eq_refl). lia.
Qed.

Lemma keeps_data b s d' : core s -> dkeeps (data s) d' ->
  (forall k r id, reserved_nodes s !! k = Some r -> r.2 = true -> dconn d' k id = true -> conn s k id = true \/ id ∈ r.1) ->
  (forall k, b = true -> dlim k (data s) -> dlim k d') -> keeps b (reserved_nodes s) s (with_data d' s).
Proof.
  intros C D Hs Hl. pose proof (dkeeps_num _ _ D) as Hn. split; try done.
  - split; simpl; [apply D|apply D|rewrite Hn; apply C| |apply C|apply C|rewrite Hn; apply C].
    intros k r i' Hr Hi'. destruct (dkeeps_lookup _ _ k i' D Hi') as (i & Hi & [= _ _ ->]). by apply (c_sync s C k r i).
  - intros k Hk r id Hr Hb Hc. destruct (Hs k r id Hr Hb Hc) as [Hc'|Hin]; [by apply (Hk r)|done].
Qed.

(** A peer is forgotten, disconnected, discovered. *)
Lemma keeps_idle s d' k id m : core s -> is_connected m = false -> moved U k id m (data s) d' -> keeps true (reserved_nodes s) s (with_data d' s).
Proof.
  intros C Hm Mv. assert (dkeeps (data s) d') as D by (eapply moved_dkeeps; [apply C|done]).
  assert (forall k' id', is_connected (mem d' k' id') = true -> mem (data s) k' id' = mem d' k' id') as Hmem by (intros k' id'; rewrite (mv_mem _ _ _ _ _ _ Mv); case_decide; [congruence|done]).
  apply keeps_data; [done|done| |].
  - intros k' r id' _ _ Hc. left. unfold conn, dconn in *. by rewrite Hmem.
  - intros k' _. apply dlim_fewer; [apply C|done|auto].
Qed.

Lemma keeps_rated s d' id v : core s -> i32_min <= v <= i32_max -> rated U id v (data s) d' -> does true (reserved_nodes s) [] s (with_data d' s).
Proof.
  intros C Hv R. assert (dkeeps (data s) d') as D by (eapply rated_dkeeps; [apply C|done|done]). split.
  - apply keeps_data; [done|done| |]; unfold conn, dconn; intros k; [intros r id' _ _|intros _; apply dlim_fewer; [apply C|done|intros id' _]]; rewrite (rt_mem _ _ _ _ _ R); auto.
  - apply says_nil; [done|]. intros k id'. unfold conn, dconn. simpl. by rewrite (rt_mem _ _ _ _ _ R).
Qed.

(** The connections after the membership of a peer has changed. *)
Lemma moved_conn s d' k id m : moved U k id m (data s) d' -> forall k' id', conn (with_data d' s) k' id' = upd (conn s) k id (is_connected m) k' id'.
Proof. intros Mv k' id'. unfold conn, dconn, upd. simpl. rewrite (mv_mem _ _ _ _ _ _ Mv). by case_decide. Qed.

Lemma upd_same c k id b : c k id = b -> forall k' id', upd c k id b k' id' = c k' id'.
Proof. intros Hc k' id'. unfold upd. case_decide as Heq; [by destruct Heq as [-> ->]|done]. Qed.

Lemma does_idle s d' k id m : core s -> conn s k id = false -> is_connected m = false -> moved U k id m (data s) d' -> does true (reserved_nodes s) [] s (with_data d' s).
Proof.
  intros C Hc Hm Mv. split; [by eapply keeps_idle|]. apply says_nil; [done|]. intros k' id'. rewrite (moved_conn s d' k id m Mv), Hm. by apply upd_same.
Qed.

Lemma does_ticks s : core s -> does true (reserved_nodes s) [] s (with_ticks (S (ticks s)) s).
Proof.
  intros C. split; [|by apply says_nil]. split; try done. destruct C as [? ? ? ? ? [? ?] ?]. split; try done. simpl. pose proof (instant_mono (ticks s)). lia.
Qed.

Lemma keeps_push s m : core s -> keeps true (reserved_nodes s) s (with_queue (message_queue s ++ [m]) s).
Proof. intros C. split; try done. by destruct C; split. Qed.

Lemma Instant_now_run s : Instant_now s = (with_ticks (S (ticks s)) s, Ok (instant (ticks s)) : res E Z).
Proof. done. Qed.

Lemma on_data_run {A} (m : M (PeersState PeerId) E A) s d' r : m (data s) = (d', r) -> on_data m s = (with_data d' s, r).
Proof. intros Hm. unfold on_data, zoom. by rewrite Hm. Qed.

Lemma on_data_same {A} (m : M (PeersState PeerId) E A) s (r : A) : m (data s) = (data s, Ok r) -> on_data m s = (s, Ok r).
Proof. intros Hm. rewrite (on_data_run m s _ _ Hm). by destruct s. Qed.

Lemma reserved_known s k : core s -> (k < num_sets (data s))%nat -> exists r, reserved_nodes s !! k = Some r.
Proof. intros C Hk. rewrite <-(c_len s C) in Hk. by apply lookup_lt_is_Some in Hk. Qed.

Lemma reserved_at_run s k r : reserved_nodes s !! k = Some r -> reserved_at k s = (s, Ok r : res E _).
Proof. intros Hr. unfold reserved_at. erewrite bind_Ok by reflexivity. by rewrite Hr. Qed.

Lemma peer_data_run s k id : core s -> (k < num_sets (data s))%nat -> on_data (peer k id) s = (s, Ok (kind (mem (data s) k id)) : res E Peer).
Proof. intros C Hk. apply on_data_same. by apply (peer_run U); [apply C|]. Qed.

(** A loop whose body relates states by a preorder. *)
Lemma for_each_rel {A} (f : A -> PSM unit) (l : list A) (I : State -> Prop) (Q : State -> State -> Prop) :
  (forall s, I s -> Q s s) -> (forall s s' s'', Q s s' -> Q s' s'' -> Q s s'') ->
  (forall x s, x ∈ l -> I s -> exists s', f x s = (s', Ok tt) /\ Q s s' /\ I s') ->
  forall s, I s -> exists s', for_each f l s = (s', Ok tt) /\ Q s s' /\ I s'.
Proof.
  intros Hrefl Htrans. induction l as [|x l IH]; intros Hf s Hs; [by exists s; auto|]. cbn [for_each].
  destruct (Hf x s ltac:(left) Hs) as (s1 & Hrun & HQ & HI). rewrite (bind_Ok _ _ _ _ _ Hrun).
  destruct (IH ltac:(intros y s' Hy; apply Hf; by right) s1 HI) as (s2 & Hrun2 & HQ2 & HI2). exists s2. eauto.
Qed.

(** ** The passing of time *)

(** Between two states, some peers that were not connected for an hour have
    been forgotten. *)
Definition aged (now : Z) d d' : Prop := forall k id, mem d' k id = mem d k id \/
  exists last, mem d k id = NotConnected last /\ last + FORGET_AFTER < now /\ mem d' k id = NotMember.

Lemma aged_trans now d d' d'' : aged now d d' -> aged now d' d'' -> aged now d d''.
Proof.
  intros A A' k id. destruct (A k id) as [Heq|(last & Hl & Hlt & Hm)], (A' k id) as [Heq'|(last' & Hl' & Hlt' & Hm')].
  - left. congruence.
  - right. exists last'. by rewrite <-Heq.
  - right. exists last. split_and!; congruence.
  - congruence.
Qed.

Lemma aged_same now d d' : (forall k id, mem d' k id = mem d k id) -> aged now d d'.
Proof. intros Hm k id. by left. Qed.

(** No message, no connection, and the ageing of peers. *)
Definition quiet (now : Z) s s' : Prop := does true (reserved_nodes s) [] s s' /\ aged now (data s) (data s').

Lemma quiet_trans now s s' s'' : quiet now s s' -> quiet now s' s'' -> quiet now s s''.
Proof.
  intros [D A] [D' A']. split; [|by eapply aged_trans]. rewrite (k_res _ _ _ _ (proj1 D)) in D'. apply (does_trans _ _ _ [] [] _ _ _ D D').
Qed.

Lemma quiet_refl now s : core s -> quiet now s s.
Proof. intros C. split; [by apply does_refl|by apply aged_same]. Qed.

Lemma quiet_core now s s' : quiet now s s' -> core s'.
Proof. intros [[K _] _]. apply K. Qed.

Lemma quiet_ticks now s : core s -> quiet now s (with_ticks (S (ticks s)) s).
Proof. intros C. split; [by apply does_ticks|by apply aged_same]. Qed.

Lemma quiet_rated now s d' id v : core s -> i32_min <= v <= i32_max -> rated U id v (data s) d' -> quiet now s (with_data d' s).
Proof. intros C Hv R. split; [by eapply keeps_rated|]. apply aged_same. intros k id'. apply (rt_mem _ _ _ _ _ R). Qed.

Lemma forget_old_run now id k s : core s -> (k < num_sets (data s))%nat ->
  exists s', forget_old now id k s = (s', Ok tt : res E unit) /\ quiet now s s' /\ forall id', reputation_of id' (data s') = reputation_of id' (data s).
Proof.
  intros C Hk. unfold forget_old. erewrite bind_Ok by (by apply peer_data_run). destruct (mem (data s) k id) as [| | |last] eqn:Hm; cbn [kind]; try (exists s; split; [done|]; split; [by apply quiet_refl|done]).
  erewrite bind_Ok by apply Instant_now_run. set (s1 := with_ticks _ s).
  assert (quiet now s s1) as Q1 by by apply quiet_ticks. pose proof (quiet_core _ _ _ Q1) as C1.
  erewrite bind_Ok by (apply on_data_same; by apply (last_connected_run k id (instant (ticks s)) last)).
  destruct (last + FORGET_AFTER <? now) eqn:Hlt; [apply Z.ltb_lt in Hlt|by exists s1].
  destruct (forget_run (E := E) U HU k id (data s1)) as (d' & Hrun & Mv); [apply C1|done|simpl; by rewrite Hm|]. rewrite (on_data_run _ _ _ _ Hrun). eexists. split; [reflexivity|]. split.
  - eapply quiet_trans; [exact Q1|]. split; [apply (does_idle s1 d' k id NotMember); try done; unfold conn, dconn; simpl; by rewrite Hm|].
    intros k' id'. simpl. rewrite (mv_mem _ _ _ _ _ _ Mv). case_decide as Heq; [|by left]. destruct Heq as [-> ->]. right. by exists last.
  - intros id'. apply (mv_rep _ _ _ _ _ _ Mv).
Qed.

Lemma saturate_range z : i32_min <= saturate_i32 z <= i32_max.
Proof. unfold saturate_i32, i32_min, i32_max. lia. Qed.

Lemma reput_tick_range z : i32_min <= reput_tick z <= i32_max.
Proof. apply saturate_range. Qed.

(** The reputation of a peer is replaced. *)
Lemma rate_run now id s : core s -> id ∈ U -> exists s', (forall B (m : Z -> PSM B),
    (_ ← on_data (peer_reputation id); before ← on_data (rep_reputation id); _ ← on_data (rep_set_reputation id (reput_tick before)); _ ← on_data (rep_drop id); m (reput_tick before)) s =
    m (reput_tick (reputation_of id (data s))) s') /\ quiet now s s' /\
  forall id', reputation_of id' (data s') = if decide (id' = id) then reput_tick (reputation_of id (data s)) else reputation_of id' (data s).
Proof.
  intros C Hid. destruct (peer_reputation_run (E := E) U HU id (data s) (c_data s C) Hid) as (d1 & H1 & R1 & S1).
  destruct (rep_set_run (E := E) U HU id (reput_tick (reputation_of id d1)) d1 (rt_inv _ _ _ _ _ R1) S1) as (d2 & H2 & R2 & S2).
  destruct (rep_drop_run (E := E) U HU id d2 (rt_inv _ _ _ _ _ R2) S2) as (d3 & H3 & R3).
  assert (reputation_of id d1 = reputation_of id (data s)) as Hr1 by (rewrite (rt_rep _ _ _ _ _ R1); by rewrite decide_True).
  assert (reputation_of id d2 = reput_tick (reputation_of id (data s))) as Hr2 by (rewrite (rt_rep _ _ _ _ _ R2), decide_True by done; by rewrite Hr1).
  rewrite Hr2 in R3. pose proof (rated_trans _ _ _ _ _ _ _ (rated_trans _ _ _ _ _ _ _ R1 R2) R3) as R. exists (with_data d3 s). split; [|split].
  - intros B m. rewrite (bind_Ok _ _ _ _ _ (on_data_run _ _ _ _ H1)). erewrite bind_Ok by (apply on_data_same; by apply (rep_reputation_run id)). simpl.
    erewrite bind_Ok by (apply on_data_run; exact H2). erewrite bind_Ok by (apply on_data_run; exact H3). simpl. by rewrite Hr1.
  - eapply quiet_rated; [done|apply reput_tick_range|exact R].
  - intros id'. apply (rt_rep _ _ _ _ _ R).
Qed.

Lemma fade_run now id s : core s -> id ∈ U ->
  exists s', fade now id s = (s', Ok tt : res E unit) /\ quiet now s s' /\
    forall id', reputation_of id' (data s') = if decide (id' = id) then reput_tick (reputation_of id (data s)) else reputation_of id' (data s).
Proof.
  intros C Hid. destruct (rate_run now id s C Hid) as (s1 & Hrun & Q1 & Hr1). 
  set (m := fun after : Z => if after =? 0 then self ← get; for_each (forget_old now id) (seq 0 (num_sets (data self))) else mret tt : PSM unit).
  assert (fade now id s = m (reput_tick (reputation_of id (data s))) s1) as -> by exact (Hrun unit m). unfold m. destruct (_ =? 0); [|by exists s1].
  erewrite bind_Ok by reflexivity. set (n := num_sets (data s1)).
  destruct (for_each_rel (forget_old now id) (seq 0 n) (fun s => core s /\ num_sets (data s) = n)
    (fun s s' => quiet now s s' /\ forall id', reputation_of id' (data s') = reputation_of id' (data s))) with s1 as (s2 & Hrun2 & [Q2 Hr2] & _).
  - intros s' [C' _]. split; [by apply quiet_refl|done].
  - intros t t' t'' [Q Hr] [Q' Hr']. split; [by eapply quiet_trans|]. intros id'. by rewrite Hr', Hr.
  - intros k s' Hk%elem_of_seq [C' Hn]. destruct (forget_old_run now id k s' C') as (s2 & Hrun2 & Q2 & Hr2); [lia|]. exists s2. split_and!; [done|done|done|by eapply quiet_core|].
    rewrite (k_sets _ _ _ _ (proj1 (proj1 Q2))). done.
  - split; [by eapply quiet_core|done].
  - exists s2. split; [done|]. split; [by eapply quiet_trans|]. intros id'. by rewrite Hr2, Hr1.
Qed.

Lemma fade_each_run now ids s : core s -> NoDup ids -> (forall id, id ∈ ids -> id ∈ U) ->
  exists s', for_each (fade now) ids s = (s', Ok tt : res E unit) /\ quiet now s s' /\
    forall id, reputation_of id (data s') = if decide (id ∈ ids) then reput_tick (reputation_of id (data s)) else reputation_of id (data s).
Proof.
  revert s. induction ids as [|x ids IH]; intros s C Hnd Hids; cbn [for_each].
  - exists s. split; [done|]. split; [by apply quiet_refl|]. intros id. by rewrite decide_False by apply not_elem_of_nil.
  - apply NoDup_cons in Hnd as [Hx Hnd]. destruct (fade_run now x s C) as (s1 & Hrun1 & Q1 & Hr1); [apply Hids; left|]. rewrite (bind_Ok _ _ _ _ _ Hrun1).
    destruct (IH s1) as (s2 & Hrun2 & Q2 & Hr2); [by eapply quiet_core|done|intros; apply Hids; by right|]. exists s2. split; [done|]. split; [by eapply quiet_trans|].
    intros id. rewrite Hr2, Hr1. destruct (decide (id = x)) as [->|Hne].
    + rewrite decide_False by done. rewrite decide_True by left. done.
    + apply decide_ext. rewrite elem_of_cons. naive_solver.
Qed.

Lemma reput_tick_0 : reput_tick 0 = 0.
Proof. done. Qed.

Lemma fade_all_run now s : core s ->
  exists s', fade_all now s = (s', Ok tt : res E unit) /\ quiet now s s' /\ forall id, reputation_of id (data s') = reput_tick (reputation_of id (data s)).
Proof.
  intros C. unfold fade_all. erewrite bind_Ok by reflexivity. destruct (fade_each_run now (peers (data s)) s C) as (s' & Hrun & Q & Hr).
  - apply NoDup_hash_iter.
  - intros id Hid. apply elem_of_hash_iter in Hid. by apply (ps_dom U (data s) (c_data s C)).
  - exists s'. split; [done|]. split; [done|]. intros id. rewrite Hr. case_decide as Hin; [done|]. unfold peers in Hin. rewrite elem_of_hash_iter in Hin.
    apply not_elem_of_dom in Hin. unfold reputation_of. by rewrite Hin.
Qed.

Lemma fade_seconds_run now n s : core s ->
  exists s', for_each (fun _ => fade_all now) (seq 0 n) s = (s', Ok tt : res E unit) /\ quiet now s s' /\
    forall id, reputation_of id (data s') = Nat.iter n reput_tick (reputation_of id (data s)).
Proof.
  intros C. generalize 0%nat. revert s C. induction n as [|n IH]; intros s C k; cbn [seq for_each]; [by exists s; auto using quiet_refl|].
  destruct (fade_all_run now s C) as (s1 & Hrun1 & Q1 & Hr1). rewrite (bind_Ok _ _ _ _ _ Hrun1).
  destruct (IH s1 (quiet_core _ _ _ Q1) (S k)) as (s2 & Hrun2 & Q2 & Hr2). exists s2. split; [done|]. split; [by eapply quiet_trans|].
  intros id. by rewrite Hr2, Hr1, <-Nat.iter_succ_r.
Qed.

(** The seconds that have passed at the next reading of the clock. *)
Definition seconds s : nat := Z.to_nat (as_secs (instant (ticks s) - created s) - as_secs (latest_time_update s - created s)).

Lemma update_time_run s : core s ->
  exists s', update_time s = (s', Ok tt : res E unit) /\ quiet (instant (ticks s)) s s' /\
    forall id, reputation_of id (data s') = Nat.iter (seconds s) reput_tick (reputation_of id (data s)).
Proof.
  intros C. destruct (c_time s C) as [[Hcl Hln] Hc0]. pose proof (instant_range (ticks s)) as Hrange. unfold update_time, duration.
  erewrite bind_Ok by apply Instant_now_run. erewrite bind_Ok by reflexivity. set (s1 := with_ticks _ s).
  rewrite (proj2 (Z.ltb_ge (latest_time_update s1) (created s1))) by (simpl; lia). erewrite bind_Ok by reflexivity.
  rewrite (proj2 (Z.ltb_ge (instant (ticks s)) (created s1))) by (simpl; lia). do 2 erewrite bind_Ok by reflexivity.
  assert (as_secs (latest_time_update s - created s) <= as_secs (instant (ticks s) - created s)) as Hle by (apply Z.div_le_mono; [done|lia]).
  assert (0 <= as_secs (latest_time_update s - created s)) as Hpos by (apply Z.div_pos; [lia|done]).
  assert (as_secs (instant (ticks s) - created s) < 2 ^ 64) as Hlt by (apply Z.div_lt_upper_bound; [done|lia]).
  rewrite usub_ok by (unfold is_u; simpl; lia). erewrite bind_Ok by reflexivity. set (s2 := with_latest _ s1).
  assert (quiet (instant (ticks s)) s s2) as Q.
  { split; [|by apply aged_same]. split; [|by apply says_nil]. split; try done. destruct C. split; try done. simpl. pose proof (instant_mono (ticks s)). lia. }
  destruct (fade_seconds_run (instant (ticks s)) (seconds s) s2 (quiet_core _ _ _ Q)) as (s' & Hrun & Q' & Hr). exists s'. split; [exact Hrun|]. split; [by eapply quiet_trans|]. done.
Qed.

(** ** Connections *)

Lemma dlim_taken d d' k m i id : sets d !! k = Some i -> sets d' = (if decide (id ∈ no_slot_nodes i) then sets d else <[k := taken m 1 i]> (sets d)) ->
  id ∈ no_slot_nodes i \/ m = In_ /\ num_in i < max_in i \/ m = Out_ /\ num_out i < max_out i -> forall k', dlim k' d -> dlim k' d'.
Proof.
  intros Hi Hs Hfree k' L i' Hi'. rewrite Hs in Hi'. case_decide as Hns; [by apply L|]. destruct (decide (k' = k)) as [->|Hne]; [|rewrite list_lookup_insert_ne in Hi' by done; by apply L].
  rewrite list_lookup_insert_eq in Hi' by (by eapply lookup_lt_Some). injection Hi' as <-. destruct (L i Hi). destruct Hfree as [?|[[-> ?]|[-> ?]]]; [done|simpl; lia..].
Qed.

Lemma keeps_connect s d' k id m r i : core s -> reserved_nodes s !! k = Some r -> sets (data s) !! k = Some i -> (r.2 = true -> id ∈ r.1) ->
  moved U k id m (data s) d' -> sets d' = (if decide (id ∈ no_slot_nodes i) then sets (data s) else <[k := taken m 1 i]> (sets (data s))) ->
  id ∈ no_slot_nodes i \/ m = In_ /\ num_in i < max_in i \/ m = Out_ /\ num_out i < max_out i -> keeps true (reserved_nodes s) s (with_data d' s).
Proof.
  intros C Hr Hi Hstrict Mv Hs Hfree. apply keeps_data; [done|eapply moved_dkeeps; [apply C|done]| |intros k' _; by eapply dlim_taken].
  intros k' r' id' Hr' Hb Hc. unfold dconn in Hc. rewrite (mv_mem _ _ _ _ _ _ Mv) in Hc. case_decide as Heq; [|by left]. destruct Heq as [-> ->]. right. naive_solver.
Qed.

(** Connections are only opened; reputations stay. *)
Definition gains s s' : Prop := (forall k id, conn s k id = true -> conn s' k id = true) /\ forall id, reputation_of id (data s') = reputation_of id (data s).

Lemma gains_refl s : gains s s.
Proof. done. Qed.

Lemma gains_trans s s' s'' : gains s s' -> gains s' s'' -> gains s s''.
Proof. intros [Hc Hr] [Hc' Hr']. split; [auto|]. intros id. by rewrite Hr', Hr. Qed.

Lemma idle_not_conn m : is_not_connected m = true -> is_connected m = false.
Proof. by destruct m. Qed.

(** An outgoing connection, and its message. *)
Lemma outgoing_run s k id r i : core s -> reserved_nodes s !! k = Some r -> sets (data s) !! k = Some i -> is_not_connected (mem (data s) k id) = true ->
  (r.2 = true -> id ∈ r.1) -> id ∈ no_slot_nodes i \/ num_out i < max_out i ->
  exists s1 s2, on_data (try_outgoing k id) s = (s1, Ok true : res E bool) /\ push_back (Connect k id) s1 = (s2, Ok tt : res E unit) /\
    does true (reserved_nodes s) [Connect k id] s s2 /\ gains s s2 /\ moved U k id Out_ (data s) (data s2).
Proof.
  intros C Hr Hi Hm Hstrict Hfree. destruct (try_outgoing_run (E := E) U HU k id (data s) i (c_data s C) Hi Hm) as (d' & Hrun & Hd').
  assert (bool_decide (id ∈ no_slot_nodes i) || (num_out i <? max_out i) = true) as Hok by (destruct Hfree as [Hin|Hlt%Z.ltb_lt]; [by rewrite bool_decide_eq_true_2|by rewrite Hlt, orb_true_r]).
  rewrite Hok in Hrun, Hd'. destruct Hd' as [Mv Hs]. exists (with_data d' s), (with_queue (message_queue s ++ [Connect k id]) (with_data d' s)).
  split; [by apply on_data_run|]. split; [done|].
  assert (keeps true (reserved_nodes s) s (with_data d' s)) as K by (eapply keeps_connect; [done|done|done|done|done|done|naive_solver]).
  pose proof (moved_conn s d' k id Out_ Mv) as Hc. split_and!; [split|split|done].
  - eapply keeps_trans; [exact K|]. apply (keeps_push (with_data d' s)). apply K.
  - split; [done|]. constructor; [unfold conn, dconn; by apply idle_not_conn|]. by constructor.
  - intros k' id' Hc'. change (conn (with_data d' s) k' id' = true). rewrite Hc. unfold upd. by destruct (decide (k' = k /\ id' = id)).
  - intros id'. apply (mv_rep _ _ _ _ _ _ Mv).
Qed.

(** [discover] when the peer is unknown. *)
Lemma entry_run s k id : core s -> (k < num_sets (data s))%nat -> id ∈ U -> is_connected (mem (data s) k id) = false ->
  exists s1, (match kind (mem (data s) k id) with UnknownPeer => now ← Instant_now; on_data (discover k id now) | _ => mret tt end : PSM unit) s = (s1, Ok tt) /\
    does true (reserved_nodes s) [] s s1 /\ gains s s1 /\ is_not_connected (mem (data s1) k id) = true.
Proof.
  intros C Hk Hid Hc. destruct (mem (data s) k id) as [| | |last] eqn:Hm; try done; cbn [kind].
  - erewrite bind_Ok by apply Instant_now_run. set (s0 := with_ticks _ s). pose proof (does_ticks s C) as D0. pose proof (k_core _ _ _ _ (proj1 D0)) as C0.
    destruct (discover_run (E := E) U HU k id (instant (ticks s)) (data s0) (c_data s0 C0) Hk Hid Hm) as (d' & Hrun & Mv). exists (with_data d' s0).
    split; [by apply on_data_run|]. split; [|split].
    + eapply (does_trans _ _ _ [] []); [exact D0|]. apply (does_idle s0 d' k id (NotConnected (instant (ticks s)))); try done. unfold conn, dconn. simpl. by rewrite Hm.
    + split; [intros k' id' Hc'; rewrite (moved_conn s0 d' k id _ Mv); unfold upd; case_decide as Heq; [|done]|intros id'; apply (mv_rep _ _ _ _ _ _ Mv)].
      destruct Heq as [-> ->]. unfold conn, dconn in Hc'. by rewrite Hm in Hc'.
    + simpl. by rewrite (mv_mem _ _ _ _ _ _ Mv), decide_True.
  - exists s. split; [done|]. split; [by apply does_refl|]. split; [by apply gains_refl|by rewrite Hm].
Qed.

Lemma does_facts b R ms s s' : does b R ms s s' -> core s' /\ reserved_nodes s' = R /\ num_sets (data s') = num_sets (data s).
Proof. intros [K _]. split_and!; apply K. Qed.

Lemma set_info s k : core s -> (k < num_sets (data s))%nat -> exists r i, reserved_nodes s !! k = Some r /\ sets (data s) !! k = Some i /\ no_slot_nodes i = r.1 /\ r.1 ⊆ U.
Proof.
  intros C Hk. destruct (reserved_known s k C Hk) as [r Hr]. destruct (set_known (data s) k Hk) as [i Hi]. exists r, i. split_and!; [done|done|by apply (c_sync s C k)|by apply (c_res s C k)].
Qed.

Lemma alloc_reserved_run k r ids s : core s -> (k < num_sets (data s))%nat -> reserved_nodes s !! k = Some r -> (forall id, id ∈ ids -> id ∈ r.1) ->
  exists s' ms, alloc_reserved k ids s = (s', Ok tt : res E unit) /\ does true (reserved_nodes s) ms s s' /\ gains s s' /\
    ((forall id, id ∈ ids -> conn s' k id = true) \/ exists id, id ∈ ids /\ reputation_of id (data s') < BANNED_THRESHOLD).
Proof.
  revert s. induction ids as [|x ids IH]; intros s C Hk Hr Hids; cbn [alloc_reserved].
  { exists s, []. split; [done|]. split; [by apply does_refl|]. split; [by apply gains_refl|]. left. intros id Hid. by apply elem_of_nil in Hid. }
  assert (x ∈ r.1) as Hx by (apply Hids; left). assert (forall id, id ∈ ids -> id ∈ r.1) as Hids' by (intros; apply Hids; by right).
  erewrite bind_Ok by (by apply peer_data_run). destruct (is_connected (mem (data s) k x)) eqn:Hc.
  - replace (kind (mem (data s) k x)) with ConnectedPeer by (by destruct (mem (data s) k x)). destruct (IH s C Hk Hr Hids') as (s' & ms & Hrun & D & G & Hout). exists s', ms. split_and!; [done..|].
    destruct Hout as [Hall|(id & Hid & Hb)]; [left; intros id [->|Hid]%elem_of_cons; [by apply G|by apply Hall]|right; exists id; split; [by right|done]].
  - destruct (set_info s k C Hk) as (r' & i & Hr' & _ & _ & HrU). assert (r' = r) as -> by congruence. destruct (entry_run s k x C Hk ltac:(set_solver) Hc) as (s1 & Hrun1 & D1 & G1 & Hm1).
    destruct (does_facts _ _ _ _ _ D1) as (C1 & Hr1 & Hn1). destruct (set_info s1 k C1 ltac:(lia)) as (r1 & i1 & Hri & Hi1 & Hsync & _). rewrite Hr1 in Hri. assert (r1 = r) as -> by congruence.
    assert (kind (mem (data s) k x) <> ConnectedPeer) as Hkind by (by destruct (mem (data s) k x)).
    assert (forall m : PSM unit, (match kind (mem (data s) k x) with ConnectedPeer => alloc_reserved k ids | UnknownPeer | NotConnectedPeer =>
      _ ← match kind (mem (data s) k x) with UnknownPeer => now ← Instant_now; on_data (discover k x now) | _ => mret tt end; m end) s = m s1) as Hentry.
    { intros m. destruct (kind (mem (data s) k x)); [done|..]; by rewrite (bind_Ok _ _ _ _ _ Hrun1). }
    rewrite Hentry. erewrite bind_Ok by reflexivity. destruct (reputation_of x (data s1) <? BANNED_THRESHOLD) eqn:Hb.
    + apply Z.ltb_lt in Hb. exists s1, []. split_and!; [done..|]. right. exists x. split; [left|done].
    + destruct (outgoing_run s1 k x r i1) as (s2 & s3 & Hrun2 & Hrun3 & D3 & G3 & Mv3); [done|by rewrite Hr1|done|done|done|left; by rewrite Hsync|].
      rewrite (bind_Ok _ _ _ _ _ Hrun2), (bind_Ok _ _ _ _ _ Hrun3). rewrite Hr1 in D3. destruct (does_facts _ _ _ _ _ D3) as (C3 & Hr3 & Hn3).
      destruct (IH s3 C3) as (s' & ms & Hrun & D & G & Hout); [lia|by rewrite Hr3|done|]. rewrite Hr3 in D. exists s', ([] ++ [Connect k x] ++ ms). split; [done|].
      split; [eapply does_trans; [exact D1|]; by eapply does_trans|]. split; [eapply gains_trans; [exact G1|]; by eapply gains_trans|].
      destruct Hout as [Hall|(id & Hid & Hlow)]; [left|right; exists id; split; [by right|done]]. intros id [->|Hid]%elem_of_cons; [|by apply Hall].
      apply G. unfold conn, dconn. by rewrite (mv_mem _ _ _ _ _ _ Mv3), decide_True.
Qed.

(** The peers of a set that are not connected, a measure of the loop. *)
Definition idle k d : Z := count U (fun id => is_not_connected (mem d k id)).

Lemma idle_nodes k d : ps_inv U d -> idle k d <= Z.of_nat (size (nodes d)).
Proof.
  intros I. unfold idle, count. rewrite <-size_dom. apply inj_le, subseteq_size. intros id. rewrite elem_of_filter. intros [Hm _].
  destruct (mem_known d k id) as (n & Hn & _); [by intros Heq; rewrite Heq in Hm|]. apply elem_of_dom. eauto.
Qed.

(** No slot is free, or the peers left have too low a reputation. *)
Definition filled k s : Prop := forall i, sets (data s) !! k = Some i ->
  max_out i <= num_out i \/ forall id, is_not_connected (mem (data s) k id) = true -> reputation_of id (data s) < BANNED_THRESHOLD.

Lemma fill_slots_run fuel k r s : core s -> (k < num_sets (data s))%nat -> reserved_nodes s !! k = Some r -> r.2 = false -> idle k (data s) < Z.of_nat fuel ->
  exists s' ms, fill_slots fuel k s = (s', Ok tt : res E unit) /\ does true (reserved_nodes s) ms s s' /\ gains s s' /\ filled k s'.
Proof.
  revert s. induction fuel as [|fuel IH]; intros s C Hk Hr Hb Hfuel; [pose proof (count_bounds U HU (fun id => is_not_connected (mem (data s) k id))); unfold idle in Hfuel; lia|].
  cbn [fill_slots]. destruct (set_info s k C Hk) as (r' & i & Hr' & Hi & _ & _). assert (r' = r) as -> by congruence.
  assert (filled k s -> exists s' ms, (s, Ok tt : res E unit) = (s', Ok tt) /\ does true (reserved_nodes s) ms s s' /\ gains s s' /\ filled k s') as Hend.
  { intros Hf. exists s, []. split; [done|]. split; [by apply does_refl|]. by split; [apply gains_refl|]. }
  unfold has_free_outgoing_slot. erewrite bind_Ok by (apply on_data_same; erewrite bind_Ok by (by apply set_at_run); reflexivity).
  destruct (num_out i <? max_out i) eqn:Hfree; cbn [negb]; [apply Z.ltb_lt in Hfree|apply Hend; apply Z.ltb_ge in Hfree; intros i' Hi'; left; congruence].
  destruct (highest_run (E := E) U k (data s) (c_data s C) Hk) as (o & Ho & Hmax). erewrite bind_Ok by (apply on_data_same; exact Ho). destruct o as [x|].
  - destruct Hmax as [Hx Hmax]. erewrite bind_Ok by reflexivity. destruct (reputation_of x (data s) <? BANNED_THRESHOLD) eqn:Hlow.
    + apply Z.ltb_lt in Hlow. apply Hend. intros i' Hi'. right. intros id Hid. specialize (Hmax id Hid). lia.
    + destruct (outgoing_run s k x r i) as (s1 & s2 & Hrun1 & Hrun2 & D2 & G2 & Mv2); [done|done|done|done|congruence|by right|].
      rewrite (bind_Ok _ _ _ _ _ Hrun1), (bind_Ok _ _ _ _ _ Hrun2). destruct (does_facts _ _ _ _ _ D2) as (C2 & Hr2 & Hn2).
      assert (idle k (data s2) = idle k (data s) - 1) as Hidle.
      { unfold idle. rewrite (count_update U HU (fun id => is_not_connected (mem (data s) k id)) _ x).
        - rewrite Hx, (mv_mem _ _ _ _ _ _ Mv2), decide_True by done. simpl. lia.
        - destruct (mem_known (data s) k x) as (n & Hn & _); [by intros Heq; rewrite Heq in Hx|]. apply (ps_dom U _ (c_data s C)), elem_of_dom. eauto.
        - intros j Hj. rewrite (mv_mem _ _ _ _ _ _ Mv2), decide_False by naive_solver. done. }
      destruct (IH s2 C2) as (s' & ms & Hrun & D & G & F); [lia|by rewrite Hr2|done|lia|]. rewrite Hr2 in D. exists s', ([Connect k x] ++ ms).
      split; [done|]. split; [by eapply does_trans|]. split; [by eapply gains_trans|done].
  - apply Hend. intros i' Hi'. right. intros id Hid. by rewrite Hmax in Hid.
Qed.

(** The reserved peers are connected, unless the reputation of one is too low,
    and the slots are taken. *)
Definition served k s : Prop := forall r, reserved_nodes s !! k = Some r ->
  ((forall id, id ∈ r.1 -> conn s k id = true) \/ exists id, id ∈ r.1 /\ reputation_of id (data s) < BANNED_THRESHOLD) /\ (r.2 = false -> filled k s).

Lemma quiet_conn now s s' : quiet now s s' -> forall k id, conn s' k id = conn s k id.
Proof. intros [[_ S] _]. pose proof (s_replay _ _ _ S) as Hr. by inversion Hr. Qed.

Lemma alloc_slots_run k s : core s -> (k < num_sets (data s))%nat ->
  exists s' ms, alloc_slots k s = (s', Ok tt : res E unit) /\ does true (reserved_nodes s) ms s s' /\
    (forall k' id, conn s k' id = true -> conn s' k' id = true) /\ served k s'.
Proof.
  intros C Hk. unfold alloc_slots. destruct (update_time_run s C) as (s1 & Hrun1 & Q1 & _). rewrite (bind_Ok _ _ _ _ _ Hrun1). pose proof (quiet_conn _ _ _ Q1) as Hconn1.
  destruct (does_facts _ _ _ _ _ (proj1 Q1)) as (C1 & Hr1 & Hn1). destruct (reserved_known s k C Hk) as [r Hr]. erewrite bind_Ok by (apply reserved_at_run; by rewrite Hr1).
  destruct (alloc_reserved_run k r (hash_iter r.1) s1) as (s2 & ms2 & Hrun2 & D2 & G2 & Hout2); [done|lia|by rewrite Hr1|intros id; by rewrite elem_of_hash_iter|].
  rewrite (bind_Ok _ _ _ _ _ Hrun2). rewrite Hr1 in D2. destruct (does_facts _ _ _ _ _ D2) as (C2 & Hr2 & Hn2). erewrite bind_Ok by (apply reserved_at_run; by rewrite Hr2).
  assert ((forall id, id ∈ r.1 -> conn s2 k id = true) \/ exists id, id ∈ r.1 /\ reputation_of id (data s2) < BANNED_THRESHOLD) as Hres.
  { destruct Hout2 as [Hall|(id & Hid & Hlow)]; [left; intros id Hid; apply Hall; by apply elem_of_hash_iter|right; exists id; split; [by apply elem_of_hash_iter|done]]. }
  assert (does true (reserved_nodes s) ([] ++ ms2) s s2) as D12 by (eapply does_trans; [apply Q1|exact D2]).
  assert (forall k' id, conn s k' id = true -> conn s2 k' id = true) as Hmono by (intros k' id Hc; apply G2; by rewrite Hconn1). destruct r.2 eqn:Hb.
  - exists s2, ([] ++ ms2). split_and!; [done..|]. intros r' Hr'. rewrite Hr2, Hr in Hr'. injection Hr' as <-. split; [done|by rewrite Hb].
  - erewrite bind_Ok by reflexivity. pose proof (idle_nodes k (data s2) (c_data s2 C2)).
    destruct (fill_slots_run (S (size (nodes (data s2)))) k r s2) as (s3 & ms3 & Hrun3 & D3 & G3 & F3); [done|lia|by rewrite Hr2|done|lia|].
    rewrite Hr2 in D3. exists s3, (([] ++ ms2) ++ ms3). split; [done|]. split; [by eapply does_trans|]. split; [intros k' id Hc; by apply G3, Hmono|].
    intros r' Hr'. rewrite (k_res _ _ _ _ (proj1 D3)), Hr in Hr'. injection Hr' as <-. split; [|done].
    destruct Hres as [Hall|(id & Hid & Hlow)]; [left; intros id Hid; by apply G3, Hall|right; exists id; split; [done|by rewrite (proj2 G3)]].
Qed.

(** A connection is closed, and its message is sent. *)
Lemma drop_peer_run k id s : core s -> (k < num_sets (data s))%nat -> conn s k id = true ->
  exists s', drop_peer k id s = (s', Ok tt : res E unit) /\ does true (reserved_nodes s) [Drop k id] s s' /\ forall k' id', conn s' k' id' = upd (conn s) k id false k' id'.
Proof.
  intros C Hk Hc. unfold drop_peer. erewrite bind_Ok by apply Instant_now_run. set (s1 := with_ticks _ s). pose proof (does_ticks s C) as D1. destruct (does_facts _ _ _ _ _ D1) as (C1 & _ & _).
  destruct (disconnect_run (E := E) U HU k id (instant (ticks s)) (data s1) (c_data s1 C1) Hk Hc) as (d' & Hrun & Mv).
  erewrite bind_Ok by (apply on_data_run; exact Hrun). eexists. split; [reflexivity|]. pose proof (moved_conn s1 d' k id _ Mv) as Hconn.
  assert (keeps true (reserved_nodes s) s1 (with_data d' s1)) as K by (by apply (keeps_idle s1 d' k id (NotConnected (instant (ticks s))))).
  split; [split|exact Hconn].
  - eapply keeps_trans; [apply D1|]. eapply keeps_trans; [exact K|]. apply (keeps_push (with_data d' s1)). apply K.
  - split; [done|]. constructor; [done|]. by constructor.
Qed.

(** ** The reserved peers of a set *)

Lemma reslot_facts s d' k r X : core s -> (k < num_sets (data s))%nat -> reserved_nodes s !! k = Some r -> reslotted U k X (data s) d' -> X ⊆ U ->
  let s' := with_data d' (with_reserved (<[k := (X, r.2)]> (reserved_nodes s)) s) in
  core s' /\ (forall k' id, conn s' k' id = conn s k' id) /\ num_sets (data s') = num_sets (data s) /\ (r.1 ⊆ X -> forall k', lim k' s -> lim k' s').
Proof.
  intros C Hk Hr R HX s'. assert (forall k' i', sets d' !! k' = Some i' -> exists i, sets (data s) !! k' = Some i /\ max_in i' = max_in i /\ max_out i' = max_out i /\ no_slot_nodes i' = if decide (k' = k) then X else no_slot_nodes i) as Hcfg.
  { intros k' i' Hi'. pose proof (rs_config _ _ _ _ _ R k') as Hc. rewrite Hi' in Hc. destruct (sets (data s) !! k') as [i|]; [|by case_decide]. exists i. split; [done|]. by case_decide; injection Hc as -> -> ->. }
  assert (num_sets d' = num_sets (data s)) as Hn.
  { unfold num_sets. apply Nat.le_antisymm; apply Nat.nlt_ge; intros [i Hi]%lookup_lt_is_Some; [destruct (Hcfg _ _ Hi) as (? & Hi' & _); apply lookup_lt_Some in Hi'; lia|].
    pose proof (rs_config _ _ _ _ _ R (length (sets d'))) as Hc. rewrite Hi, lookup_ge_None_2 in Hc by lia. done. }
  assert (forall k' id, conn s' k' id = conn s k' id) as Hconn by (intros k' id; unfold conn, dconn; simpl; by rewrite (reslot_mem _ _ _ _ _ R)).
  split_and!; [|done|done|].
  - split; simpl; [apply R|intros id; unfold reputation_of; rewrite (rs_nodes _ _ _ _ _ R); apply (c_rep s C id)|rewrite length_insert, Hn; apply C| | |apply C|rewrite Hn; apply C].
    + intros k' r' i' Hr' Hi'. destruct (Hcfg k' i' Hi') as (i & Hi & _ & _ & ->). apply list_lookup_insert_Some in Hr' as [(-> & <- & _)|[Hne Hr']]; [by rewrite decide_True|].
      rewrite decide_False by done. by apply (c_sync s C k').
    + intros k' r' Hr'. apply list_lookup_insert_Some in Hr' as [(-> & <- & _)|[Hne Hr']]; [done|by apply (c_res s C k')].
  - intros Hsub k' L i' Hi'. simpl in Hi'. destruct (Hcfg k' i' Hi') as (i & Hi & -> & -> & HX'). destruct (L i Hi) as [Lin Lout].
    rewrite (ps_in U d' (rs_inv _ _ _ _ _ R) k' i' Hi'), (ps_out U d' (rs_inv _ _ _ _ _ R) k' i' Hi').
    pose proof (ps_in U _ (c_data s C) k' i Hi) as Hin. pose proof (ps_out U _ (c_data s C) k' i Hi) as Hout.
    assert (no_slot_nodes i ⊆ no_slot_nodes i') as Hss. { rewrite HX'. case_decide as Heq; [|done]. subst k'. by rewrite (c_sync s C k r i Hr Hi). }
    assert (forall m, count U (fun id => occupies (no_slot_nodes i') m (mem d' k' id) id) <= count U (fun id => occupies (no_slot_nodes i) m (mem (data s) k' id) id)) as Hle.
    { intros m. apply count_mono. intros id. unfold occupies. rewrite (reslot_mem _ _ _ _ _ R). case_bool_decide; [|done]. simpl. rewrite !negb_true_iff, !bool_decide_eq_false. set_solver. }
    pose proof (Hle In_). pose proof (Hle Out_). lia.
Qed.

Lemma strict_other (R : gset PeerId * bool) k k' s s' : k' <> k -> reserved_nodes s' = <[k := R]> (reserved_nodes s) -> (forall id, conn s' k' id = true -> conn s k' id = true) -> strict k' s -> strict k' s'.
Proof. intros Hne Hr Hc Hs r id Hr' Hb Hid. rewrite Hr, list_lookup_insert_ne in Hr' by done. apply (Hs r); auto. Qed.

Lemma on_add_reserved_peer_run k id r s : core s -> (k < num_sets (data s))%nat -> id ∈ U -> reserved_nodes s !! k = Some r ->
  exists s' ms, on_add_reserved_peer k id s = (s', Ok tt : res E unit) /\ does true (<[k := ({[id]} ∪ r.1, r.2)]> (reserved_nodes s)) ms s s'.
Proof.
  intros C Hk Hid Hr. unfold on_add_reserved_peer. erewrite bind_Ok by (by apply reserved_at_run). case_decide as Hin.
  - exists s, []. split; [done|]. replace ({[id]} ∪ r.1, r.2) with r by (destruct r; simpl in *; f_equal; set_solver). rewrite list_insert_id by done. by apply does_refl.
  - erewrite bind_Ok by reflexivity. destruct (set_known (data s) k Hk) as [i Hi]. pose proof (c_sync s C k r i Hr Hi) as Hsync.
    destruct (add_no_slot_run (E := E) U HU k id (data s) i (c_data s C) Hi Hid) as (d' & Hrun & R). rewrite Hsync in R. set (s1 := with_reserved _ s).
    erewrite bind_Ok by (apply on_data_run; exact Hrun). pose proof (c_res s C k r Hr) as HrU.
    destruct (reslot_facts s d' k r ({[id]} ∪ r.1) C Hk Hr R ltac:(set_solver)) as (C2 & Hconn & Hn & Hlim). set (s2 := with_data d' _) in *.
    assert (does true (reserved_nodes s2) [] s s2) as D2.
    { split; [|by apply says_nil]. split; try done; [|intros k' _; apply Hlim; set_solver]. intros k' Hs. destruct (decide (k' = k)) as [->|Hne].
      - intros r' id' Hr' Hb Hc. simpl in Hr'. rewrite list_lookup_insert_eq in Hr' by (by eapply lookup_lt_Some). injection Hr' as <-. rewrite Hconn in Hc. specialize (Hs r id' Hr Hb Hc). set_solver.
      - eapply strict_other; [done|reflexivity| |done]. intros id' Hc. by rewrite <-Hconn. }
    destruct (alloc_slots_run k s2 C2) as (s' & ms & Hrun' & D & _ & _); [simpl in *; lia|]. exists s', ([] ++ ms). split; [exact Hrun'|]. by eapply does_trans.
Qed.

Lemma on_remove_reserved_peer_run k id r s : core s -> (k < num_sets (data s))%nat -> reserved_nodes s !! k = Some r ->
  exists s' ms, on_remove_reserved_peer k id s = (s', Ok tt : res E unit) /\ does (bool_decide (id ∉ r.1)) (<[k := (r.1 ∖ {[id]}, r.2)]> (reserved_nodes s)) ms s s'.
Proof.
  intros C Hk Hr. unfold on_remove_reserved_peer. erewrite bind_Ok by (by apply reserved_at_run). case_decide as Hin.
  2: { exists s, []. split; [done|]. replace (r.1 ∖ {[id]}, r.2) with r by (destruct r; simpl in *; f_equal; set_solver). rewrite list_insert_id by done. by apply does_refl. }
  rewrite bool_decide_false by set_solver.
  erewrite bind_Ok by reflexivity. destruct (set_known (data s) k Hk) as [i Hi]. pose proof (c_sync s C k r i Hr Hi) as Hsync. pose proof (c_res s C k r Hr) as HrU.
  destruct (remove_no_slot_run (E := E) U HU k id (data s) i (c_data s C) Hi ltac:(set_solver)) as (d' & Hrun & R). rewrite Hsync in R. set (s1 := with_reserved _ s).
  erewrite bind_Ok by (apply on_data_run; exact Hrun). destruct (reslot_facts s d' k r (r.1 ∖ {[id]}) C Hk Hr R ltac:(set_solver)) as (C2 & Hconn & Hn & _).
  change (with_data d' s1) with (with_data d' (with_reserved (<[k := (r.1 ∖ {[id]}, r.2)]> (reserved_nodes s)) s)). set (s2 := with_data d' (with_reserved _ s)) in *.
  assert (forall s' ms, (r.2 = true -> conn s' k id = false) -> (forall k' id', conn s' k' id' = true -> conn s2 k' id' = true) -> does true (reserved_nodes s2) ms s2 s' ->
    does false (reserved_nodes s2) ms s s') as Hdoes.
  { intros s' ms Hgone Hmono [K S]. destruct K as [KC KR Krx Kn Kst Kl]. split; [split; try done; [by rewrite Kn|]|split; [apply S|eapply replay_ext; [|done|apply S]; intros k' id'; by rewrite Hconn]].
    intros k' Hs. destruct (decide (k' = k)) as [->|Hne]; [|eapply strict_other; [done|rewrite KR; reflexivity| |done]; intros id' Hc; rewrite <-Hconn; by apply Hmono].
    intros r' id' Hr' Hb Hc. rewrite KR in Hr'. simpl in Hr'. rewrite list_lookup_insert_eq in Hr' by (by eapply lookup_lt_Some). injection Hr' as <-. simpl in *.
    assert (id' ∈ r.1) by (apply (Hs r); [done|done|]; rewrite <-Hconn; by apply Hmono). assert (id' <> id) by (intros ->; by rewrite Hgone in Hc). set_solver. }
  destruct r.2 eqn:Hb; cbn [negb]; [|exists s2, []; split; [done|]; apply Hdoes; [done|done|by apply does_refl]].
  erewrite bind_Ok by (apply peer_data_run; [done|lia]). destruct (conn s2 k id) eqn:Hc; unfold conn, dconn in Hc.
  - replace (kind (mem (data s2) k id)) with ConnectedPeer by (by destruct (mem (data s2) k id)). destruct (drop_peer_run k id s2 C2) as (s' & Hrun' & D & Hconn'); [lia|done|].
    exists s', [Drop k id]. split; [done|]. apply Hdoes; [intros _; rewrite Hconn'; unfold upd; by rewrite decide_True|intros k' id'; rewrite Hconn'; unfold upd; by case_decide|done].
  - exists s2, []. split; [by destruct (mem (data s2) k id)|]. apply Hdoes; [done|done|by apply does_refl].
Qed.

Lemma add_each_run k ids r s : core s -> (k < num_sets (data s))%nat -> (forall id, id ∈ ids -> id ∈ U) -> reserved_nodes s !! k = Some r ->
  exists s' ms, for_each (on_add_reserved_peer k) ids s = (s', Ok tt : res E unit) /\ does true (<[k := (list_to_set ids ∪ r.1, r.2)]> (reserved_nodes s)) ms s s'.
Proof.
  revert s r. induction ids as [|id ids IH]; intros s r C Hk Hids Hr; cbn [for_each].
  - exists s, []. split; [done|]. replace (list_to_set [] ∪ r.1, r.2) with r by (destruct r; simpl; f_equal; set_solver). rewrite list_insert_id by done. by apply does_refl.
  - destruct (on_add_reserved_peer_run k id r s C Hk ltac:(apply Hids; left) Hr) as (s1 & ms1 & Hrun1 & D1). rewrite (bind_Ok _ _ _ _ _ Hrun1). destruct (does_facts _ _ _ _ _ D1) as (C1 & Hr1 & Hn1).
    destruct (IH s1 ({[id]} ∪ r.1, r.2) C1) as (s2 & ms2 & Hrun2 & D2); [lia|intros; apply Hids; by right|rewrite Hr1; apply list_lookup_insert_eq; by eapply lookup_lt_Some|].
    exists s2, (ms1 ++ ms2). split; [done|]. rewrite Hr1, list_insert_insert_eq in D2. simpl in *. replace ({[id]} ∪ list_to_set ids ∪ r.1) with (list_to_set ids ∪ ({[id]} ∪ r.1)) by set_solver. by eapply does_trans.
Qed.

Lemma remove_each_run k ids r s : core s -> (k < num_sets (data s))%nat -> reserved_nodes s !! k = Some r ->
  exists s' ms, for_each (on_remove_reserved_peer k) ids s = (s', Ok tt : res E unit) /\ does (bool_decide (ids = [])) (<[k := (r.1 ∖ list_to_set ids, r.2)]> (reserved_nodes s)) ms s s'.
Proof.
  revert s r. induction ids as [|id ids IH]; intros s r C Hk Hr; cbn [for_each].
  - exists s, []. split; [done|]. replace (r.1 ∖ list_to_set [], r.2) with r by (destruct r; simpl; f_equal; set_solver). rewrite list_insert_id by done. by apply does_refl.
  - destruct (on_remove_reserved_peer_run k id r s C Hk Hr) as (s1 & ms1 & Hrun1 & D1). apply does_forget in D1. rewrite (bind_Ok _ _ _ _ _ Hrun1). destruct (does_facts _ _ _ _ _ D1) as (C1 & Hr1 & Hn1).
    destruct (IH s1 (r.1 ∖ {[id]}, r.2) C1) as (s2 & ms2 & Hrun2 & D2); [lia|rewrite Hr1; apply list_lookup_insert_eq; by eapply lookup_lt_Some|].
    apply does_forget in D2. rewrite bool_decide_false by done.
    exists s2, (ms1 ++ ms2). split; [done|]. rewrite Hr1, list_insert_insert_eq in D2. simpl in *. replace (r.1 ∖ ({[id]} ∪ list_to_set ids)) with (r.1 ∖ {[id]} ∖ list_to_set ids) by set_solver. by eapply does_trans.
Qed.

Lemma list_to_set_hash_iter (X : gset PeerId) : list_to_set (hash_iter X) = X.
Proof. apply set_eq. intros id. by rewrite elem_of_list_to_set, elem_of_hash_iter. Qed.

Lemma none_removed (X Y : gset PeerId) : X ⊆ Y <-> hash_iter (X ∖ Y) = [].
Proof.
  split.
  - intros Hsub. destruct (hash_iter (X ∖ Y)) as [|id l] eqn:Hl; [done|]. exfalso. assert (id ∈ X ∖ Y) as Hid; [|set_solver].
    apply elem_of_hash_iter. rewrite Hl. left.
  - intros Hnil id Hid. destruct (decide (id ∈ Y)); [done|]. exfalso. assert (id ∈ hash_iter (X ∖ Y)) as Hin by (apply elem_of_hash_iter; set_solver).
    rewrite Hnil in Hin. by apply elem_of_nil in Hin.
Qed.

Lemma on_set_reserved_peers_run k ids r s : core s -> (k < num_sets (data s))%nat -> ids ⊆ U -> reserved_nodes s !! k = Some r ->
  exists s' ms, on_set_reserved_peers k ids s = (s', Ok tt : res E unit) /\ does (bool_decide (r.1 ⊆ ids)) (<[k := (ids, r.2)]> (reserved_nodes s)) ms s s'.
Proof.
  intros C Hk HidU Hr. unfold on_set_reserved_peers. erewrite bind_Ok by (by apply reserved_at_run).
  destruct (add_each_run k (hash_iter (ids ∖ r.1)) r s C Hk) as (s1 & ms1 & Hrun1 & D1); [intros id Hid%elem_of_hash_iter; set_solver|done|]. rewrite (bind_Ok _ _ _ _ _ Hrun1).
  destruct (does_facts _ _ _ _ _ D1) as (C1 & Hr1 & Hn1). rewrite list_to_set_hash_iter in *.
  destruct (remove_each_run k (hash_iter (r.1 ∖ ids)) ((ids ∖ r.1) ∪ r.1, r.2) s1 C1) as (s2 & ms2 & Hrun2 & D2); [lia|rewrite Hr1; apply list_lookup_insert_eq; by eapply lookup_lt_Some|].
  exists s2, (ms1 ++ ms2). split; [done|]. rewrite Hr1, list_insert_insert_eq, list_to_set_hash_iter in D2. simpl in D2.
  replace (bool_decide (hash_iter (r.1 ∖ ids) = [])) with (bool_decide (r.1 ⊆ ids)) in D2 by (apply bool_decide_ext; apply none_removed).
  replace ((ids ∖ r.1 ∪ r.1) ∖ (r.1 ∖ ids)) with ids in D2; [eapply does_trans; [by apply does_weaken|done]|].
  apply set_eq. intros id. destruct (decide (id ∈ ids)), (decide (id ∈ r.1)); set_solver.
Qed.

(** The peers that are not reserved are dropped one after the other. *)
Lemma drop_unreserved_run k r ids s : core s -> (k < num_sets (data s))%nat -> reserved_nodes s !! k = Some r -> NoDup ids -> (forall id, id ∈ ids -> conn s k id = true) ->
  exists s' ms, for_each (drop_unreserved k) ids s = (s', Ok tt : res E unit) /\ does true (reserved_nodes s) ms s s' /\
    forall k' id, conn s' k' id = true -> conn s k' id = true /\ (k' = k -> id ∈ ids -> id ∈ r.1).
Proof.
  revert s. induction ids as [|x ids IH]; intros s C Hk Hr Hnd Hids; cbn [for_each].
  - exists s, []. split; [done|]. split; [by apply does_refl|]. intros k' id Hc. split; [done|]. intros _ Hin. by apply elem_of_nil in Hin.
  - apply NoDup_cons in Hnd as [Hx Hnd]. assert (conn s k x = true) as Hc by (apply Hids; left).
    destruct (decide (x ∈ r.1)) as [Hin|Hin].
    + assert (drop_unreserved k x s = (s, Ok tt : res E unit)) as Hone by (unfold drop_unreserved; erewrite bind_Ok by (by apply reserved_at_run); by rewrite decide_True).
      rewrite (bind_Ok _ _ _ _ _ Hone).
      destruct (IH s C Hk Hr Hnd) as (s' & ms & Hrun & D & Hconn); [intros; apply Hids; by right|]. exists s', ms. split_and!; [done|done|].
      intros k' id Hid. destruct (Hconn k' id Hid) as [? Hres]. split; [done|]. intros -> [->|?]%elem_of_cons; [done|by apply Hres].
    + destruct (drop_peer_run k x s C Hk Hc) as (s1 & Hrun1 & D1 & Hconn1). destruct (does_facts _ _ _ _ _ D1) as (C1 & Hr1 & Hn1).
      assert (drop_unreserved k x s = (s1, Ok tt : res E unit)) as Hone.
      { unfold drop_unreserved. erewrite bind_Ok by (by apply reserved_at_run). rewrite decide_False by done. erewrite bind_Ok by (by apply peer_data_run).
        unfold conn, dconn in Hc. by destruct (mem (data s) k x). }
      rewrite (bind_Ok _ _ _ _ _ Hone).
      destruct (IH s1 C1) as (s' & ms & Hrun & D & Hconn); [lia|by rewrite Hr1|done|intros id Hid; rewrite Hconn1; unfold upd; rewrite decide_False by naive_solver; apply Hids; by right|].
      rewrite Hr1 in D. exists s', ([Drop k x] ++ ms). split; [done|]. split; [by eapply does_trans|]. intros k' id Hid. destruct (Hconn k' id Hid) as [Hc1 Hres].
      rewrite Hconn1 in Hc1. unfold upd in Hc1. case_decide as Heq; [done|]. split; [done|]. intros -> [->|?]%elem_of_cons; [naive_solver|by apply Hres].
Qed.

Lemma on_set_reserved_only_run k b r s : core s -> (k < num_sets (data s))%nat -> reserved_nodes s !! k = Some r ->
  exists s' ms, on_set_reserved_only k b s = (s', Ok tt : res E unit) /\ does true (<[k := (r.1, b)]> (reserved_nodes s)) ms s s'.
Proof.
  intros C Hk Hr. unfold on_set_reserved_only. erewrite bind_Ok by (by apply reserved_at_run). erewrite bind_Ok by reflexivity. set (s1 := with_reserved _ s).
  assert (reserved_nodes s1 !! k = Some (r.1, b)) as Hr1 by (simpl; apply list_lookup_insert_eq; by eapply lookup_lt_Some).
  assert (core s1) as C1.
  { destruct C as [Cd Cr Cl Cs Cu Ct Cx]. split; simpl; try done; [by rewrite length_insert|..].
    - intros k' r' i Hr' Hi. apply list_lookup_insert_Some in Hr' as [(-> & <- & _)|[Hne Hr']]; [by apply (Cs k' r)|by apply (Cs k')].
    - intros k' r' Hr'. apply list_lookup_insert_Some in Hr' as [(-> & <- & _)|[Hne Hr']]; [by apply (Cu k' r)|by apply (Cu k')]. }
  assert (forall s' ms, does true (reserved_nodes s1) ms s1 s' -> strict k s' -> does true (reserved_nodes s1) ms s s') as Hdoes.
  { intros s' ms [K S] Hst. destruct K as [KC KR Krx Kn Kst Kl]. split; [split; try done|split; apply S]. intros k' Hs. destruct (decide (k' = k)) as [->|Hne]; [done|]. apply Kst. by apply (strict_other (r.1, b) k k' s s1). }
  destruct b.
  - destruct (connected_peers_run (E := E) U k (data s1) (c_data s1 C1) Hk) as (ids & Hrun & Hnd & Hids). erewrite bind_Ok by (apply on_data_same; exact Hrun).
    destruct (drop_unreserved_run k (r.1, true) ids s1 C1 Hk Hr1 Hnd) as (s' & ms & Hrun' & D & Hconn); [intros id; apply Hids|]. exists s', ms. split; [done|]. apply Hdoes; [done|].
    intros r' id Hr' _ Hc. rewrite (k_res _ _ _ _ (proj1 D)), Hr1 in Hr'. injection Hr' as <-. destruct (Hconn k id Hc) as [Hc1 Hin]. apply Hin; [done|]. by apply Hids.
  - destruct (alloc_slots_run k s1 C1 Hk) as (s' & ms & Hrun' & D & _ & _). exists s', ms. split; [done|]. apply Hdoes; [done|].
    intros r' id Hr' Hb. rewrite (k_res _ _ _ _ (proj1 D)), Hr1 in Hr'. by injection Hr' as <-.
Qed.

(** ** The peers of a set *)

Lemma add_to_peers_set_run k id s : core s -> (k < num_sets (data s))%nat -> id ∈ U ->
  exists s' ms, add_to_peers_set k id s = (s', Ok tt : res E unit) /\ does true (reserved_nodes s) ms s s'.
Proof.
  intros C Hk Hid. unfold add_to_peers_set. erewrite bind_Ok by (by apply peer_data_run). destruct (mem (data s) k id) as [| | |last] eqn:Hm; cbn [kind];
    try (exists s, []; split; [done|]; by apply does_refl).
  destruct (entry_run s k id C Hk Hid) as (s1 & Hrun1 & D1 & _ & _); [by rewrite Hm|]. rewrite Hm in Hrun1. cbn [kind] in Hrun1.
  destruct (does_facts _ _ _ _ _ D1) as (C1 & Hr1 & Hn1). destruct (alloc_slots_run k s1 C1) as (s2 & ms & Hrun2 & D2 & _ & _); [lia|]. rewrite Hr1 in D2.
  exists s2, ([] ++ ms). split; [|by eapply does_trans]. erewrite bind_Ok by apply Instant_now_run. erewrite bind_Ok in Hrun1 by apply Instant_now_run. by rewrite (bind_Ok _ _ _ _ _ Hrun1).
Qed.

Lemma forget_does k id s : core s -> (k < num_sets (data s))%nat -> is_not_connected (mem (data s) k id) = true ->
  exists s', on_data (forget_peer k id) s = (s', Ok tt : res E unit) /\ does true (reserved_nodes s) [] s s' /\ mem (data s') k id = NotMember.
Proof.
  intros C Hk Hm. destruct (forget_run (E := E) U HU k id (data s) (c_data s C) Hk Hm) as (d' & Hrun & Mv). exists (with_data d' s). split; [by apply on_data_run|].
  split; [apply (does_idle s d' k id NotMember); try done; by apply idle_not_conn|]. simpl. by rewrite (mv_mem _ _ _ _ _ _ Mv), decide_True.
Qed.

(** A peer that is not reserved leaves the set. *)
Lemma on_remove_from_peers_set_run k id r s : core s -> (k < num_sets (data s))%nat -> reserved_nodes s !! k = Some r ->
  exists s' ms, on_remove_from_peers_set k id s = (s', Ok tt : res E unit) /\ does true (reserved_nodes s) ms s s' /\ (id ∉ r.1 -> mem (data s') k id = NotMember).
Proof.
  intros C Hk Hr. unfold on_remove_from_peers_set. erewrite bind_Ok by (by apply reserved_at_run). case_decide as Hin; [by exists s, []; split_and!; [|apply does_refl|]|].
  erewrite bind_Ok by (by apply peer_data_run). destruct (is_connected (mem (data s) k id)) eqn:Hc.
  - replace (kind (mem (data s) k id)) with ConnectedPeer by (by destruct (mem (data s) k id)). erewrite bind_Ok by reflexivity. set (s1 := with_queue _ s).
    assert (keeps true (reserved_nodes s) s s1) as K1 by by apply keeps_push. erewrite bind_Ok by apply Instant_now_run. set (s2 := with_ticks _ s1). destruct (does_ticks s1 (k_core _ _ _ _ K1)) as [K2 _].
    destruct (disconnect_run (E := E) U HU k id (instant (ticks s)) (data s2) (c_data s2 (k_core _ _ _ _ K2)) Hk Hc) as (d' & Hrun & Mv).
    erewrite bind_Ok by (apply on_data_run; exact Hrun). pose proof (moved_conn s2 d' k id _ Mv) as Hconn.
    assert (keeps true (reserved_nodes s) s2 (with_data d' s2)) as K3 by (apply (keeps_idle s2 d' k id (NotConnected (instant (ticks s)))); [apply K2|done|done]).
    destruct (forget_does k id (with_data d' s2)) as (s4 & Hrun4 & D4 & Hm4); [apply K3|rewrite (k_sets _ _ _ _ K3); done|simpl; by rewrite (mv_mem _ _ _ _ _ _ Mv), decide_True|].
    exists s4, [Drop k id]. split; [done|]. split; [|done]. split.
    + eapply keeps_trans; [exact K1|]. eapply keeps_trans; [exact K2|]. eapply keeps_trans; [exact K3|]. apply D4.
    + split; [rewrite (s_queue _ _ _ (proj2 D4)); simpl; by rewrite app_nil_r|]. constructor; [done|]. eapply replay_ext; [|done|apply D4]. intros k' id'. by rewrite Hconn.
  - destruct (mem (data s) k id) as [| | |last] eqn:Hm; try done; cbn [kind]; [by exists s, []; split_and!; [|apply does_refl|]|].
    destruct (forget_does k id s C Hk) as (s' & Hrun & D & Hm'); [by rewrite Hm|]. by exists s', [].
Qed.

(** A loop over the sets. *)
Lemma for_sets_run (f : nat -> PSM unit) n s : core s -> num_sets (data s) = n ->
  (forall k s, core s -> num_sets (data s) = n -> (k < n)%nat -> exists s' ms, f k s = (s', Ok tt : res E unit) /\ does true (reserved_nodes s) ms s s') ->
  exists s' ms, for_each f (seq 0 n) s = (s', Ok tt : res E unit) /\ does true (reserved_nodes s) ms s s'.
Proof.
  intros C Hn Hf. destruct (for_each_rel f (seq 0 n) (fun s => core s /\ num_sets (data s) = n) (fun s s' => exists ms, does true (reserved_nodes s) ms s s')) with s as (s' & Hrun & [ms D] & _).
  - intros t [Ct _]. exists []. by apply does_refl.
  - intros t t' t'' [ms D] [ms' D']. rewrite (k_res _ _ _ _ (proj1 D)) in D'. exists (ms ++ ms'). by eapply does_trans.
  - intros k t Hk%elem_of_seq [Ct Hnt]. destruct (Hf k t Ct Hnt) as (t' & ms & Hrun & D); [lia|]. exists t'. destruct (does_facts _ _ _ _ _ D) as (Ct' & _ & Hn'). split_and!; [done|eauto|done|congruence].
  - done.
  - eauto.
Qed.

Lemma drop_banned_run id k s : core s -> (k < num_sets (data s))%nat ->
  exists s' ms, drop_banned id k s = (s', Ok tt : res E unit) /\ does true (reserved_nodes s) ms s s'.
Proof.
  intros C Hk. unfold drop_banned. erewrite bind_Ok by (by apply peer_data_run). destruct (conn s k id) eqn:Hc; unfold conn, dconn in Hc.
  - replace (kind (mem (data s) k id)) with ConnectedPeer by (by destruct (mem (data s) k id)). destruct (drop_peer_run k id s C Hk Hc) as (s1 & Hrun1 & D1 & _).
    rewrite (bind_Ok _ _ _ _ _ Hrun1). destruct (does_facts _ _ _ _ _ D1) as (C1 & Hr1 & Hn1). destruct (alloc_slots_run k s1 C1) as (s2 & ms & Hrun2 & D2 & _ & _); [lia|]. rewrite Hr1 in D2.
    exists s2, ([Drop k id] ++ ms). split; [done|by eapply does_trans].
  - exists s, []. split; [by destruct (mem (data s) k id)|by apply does_refl].
Qed.

Lemma on_report_peer_run id change s : core s -> id ∈ U ->
  exists s' ms, on_report_peer id change s = (s', Ok tt : res E unit) /\ does true (reserved_nodes s) ms s s'.
Proof.
  intros C Hid. unfold on_report_peer. destruct (update_time_run s C) as (s1 & Hrun1 & [D1 _] & _). rewrite (bind_Ok _ _ _ _ _ Hrun1). destruct (does_facts _ _ _ _ _ D1) as (C1 & Hr1 & Hn1).
  destruct (peer_reputation_run (E := E) U HU id (data s1) (c_data s1 C1) Hid) as (d1 & H1 & R1 & S1).
  destruct (rep_add_run (E := E) U HU id (change_value change) d1 (rt_inv _ _ _ _ _ R1) S1) as (d2 & H2 & R2 & S2).
  destruct (rep_drop_run (E := E) U HU id d2 (rt_inv _ _ _ _ _ R2) S2) as (d3 & H3 & R3).
  rewrite (bind_Ok _ _ _ _ _ (on_data_run _ _ _ _ H1)). erewrite bind_Ok by (apply on_data_run; exact H2). simpl.
  erewrite bind_Ok by (apply on_data_same; by apply (rep_reputation_run id)). erewrite bind_Ok by (apply on_data_run; exact H3). simpl.
  assert (reputation_of id d2 = saturate_i32 (reputation_of id d1 + change_value change)) as Hr2 by (rewrite (rt_rep _ _ _ _ _ R2); by rewrite decide_True).
  assert (i32_min <= reputation_of id d2 <= i32_max) as Hrange by (rewrite Hr2; apply saturate_range).
  pose proof (keeps_rated s1 d3 id _ C1 Hrange (rated_trans _ _ _ _ _ _ _ (rated_trans _ _ _ _ _ _ _ R1 R2) R3)) as D3. rewrite Hr1 in D3.
  assert (does true (reserved_nodes s) ([] ++ []) s (with_data d3 s1)) as D by (by eapply does_trans). destruct (_ <=? _); [by eexists _, ([] ++ [])|].
  erewrite bind_Ok by reflexivity. destruct (does_facts _ _ _ _ _ D) as (C3 & Hr3 & Hn3).
  destruct (for_sets_run (drop_banned id) (num_sets d3) (with_data d3 s1)) as (s' & ms & Hrun & D'); [done|done| |].
  - intros k t Ct Hnt Hk. apply drop_banned_run; [done|lia].
  - rewrite Hr3 in D'. exists s', (([] ++ []) ++ ms). split; [exact Hrun|by eapply does_trans].
Qed.

(** ** The network *)

(** Whether an incoming connection is accepted. *)
Definition accepts k id s : bool :=
  match reserved_nodes s !! k, sets (data s) !! k with
  | Some r, Some i => (negb r.2 || bool_decide (id ∈ r.1)) && (BANNED_THRESHOLD <=? reputation_of id (data s)) && (bool_decide (id ∈ r.1) || (num_in i <? max_in i))
  | _, _ => false
  end.

(** The answer to an incoming connection, and the connections after it. *)
Definition answered (accepted : bool) k id (index : Z) c ms c' : Prop :=
  if c k id then ms = [] /\ forall k' id', c' k' id' = c k' id'
  else if accepted then ms = [Accept index] /\ forall k' id', c' k' id' = upd c k id true k' id'
  else ms = [Reject index] /\ forall k' id', c' k' id' = c k' id'.

Lemma answered_ext a k id index c1 c ms c' : (forall k id, c1 k id = c k id) -> answered a k id index c ms c' -> answered a k id index c1 ms c'.
Proof. intros Heq. unfold answered. rewrite Heq. destruct (c k id), a; intros [-> Hc]; (split; [done|]); intros k' id'; rewrite Hc; unfold upd; by rewrite Heq. Qed.

(** The entry of a peer that is not connected is discovered or bumped. *)
Lemma bump_entry_run s k id : core s -> (k < num_sets (data s))%nat -> id ∈ U -> is_connected (mem (data s) k id) = false ->
  exists s1, (now ← Instant_now; on_data match kind (mem (data s) k id) with UnknownPeer => discover k id now | _ => bump_last_connected_or_discovered k id now end : PSM unit) s = (s1, Ok tt) /\
    does true (reserved_nodes s) [] s s1 /\ gains s s1 /\ is_not_connected (mem (data s1) k id) = true /\ (forall k' id', conn s1 k' id' = conn s k' id') /\ accepts k id s1 = accepts k id s.
Proof.
  intros C Hk Hid Hc. erewrite bind_Ok by apply Instant_now_run. set (s0 := with_ticks _ s). set (now := instant (ticks s)). pose proof (does_ticks s C) as D0. pose proof (k_core _ _ _ _ (proj1 D0)) as C0.
  assert (exists d', match kind (mem (data s) k id) with UnknownPeer => discover k id now | _ => bump_last_connected_or_discovered k id now end (data s0) = (d', Ok tt : res E unit) /\
    moved U k id (NotConnected now) (data s) d') as (d' & Hrun & Mv).
  { destruct (mem (data s) k id) as [| | |last] eqn:Hm; try done; cbn [kind]; [apply (discover_run (E := E) U HU); [apply C|done..]|apply (bump_run (E := E) U HU); [apply C|done|by rewrite Hm]]. }
  exists (with_data d' s0). pose proof (moved_conn s0 d' k id _ Mv) as Hconn0. assert (forall k' id', conn (with_data d' s0) k' id' = conn s k' id') as Hconn by (intros k' id'; rewrite Hconn0; by apply upd_same).
  assert (does true (reserved_nodes s) [] s0 (with_data d' s0)) as D1 by (by apply (does_idle s0 d' k id (NotConnected now))).
  split; [by apply on_data_run|]. split; [by eapply (does_trans _ _ _ [] [])|]. split; [split; [intros k' id'; by rewrite Hconn|intros id'; apply (mv_rep _ _ _ _ _ _ Mv)]|].
  split; [simpl; by rewrite (mv_mem _ _ _ _ _ _ Mv), decide_True|]. split; [done|]. unfold accepts. simpl. rewrite (mv_rep _ _ _ _ _ _ Mv).
  destruct (set_known (data s) k Hk) as [i Hi]. pose proof (mv_config _ _ _ _ _ _ Mv k) as Hcfg. rewrite Hi in *. destruct (sets d' !! k) as [i'|] eqn:Hi'; [|done]. injection Hcfg as Hmi Hmo HX.
  assert (num_in i' = num_in i) as ->; [|by rewrite Hmi]. rewrite (ps_in U d' (mv_inv _ _ _ _ _ _ Mv) k i' Hi'), (ps_in U _ (c_data s C) k i Hi). apply count_ext. intros id'. rewrite HX, (mv_mem _ _ _ _ _ _ Mv).
  case_decide as Heq; [|done]. destruct Heq as [_ ->]. unfold occupies. by destruct (mem (data s) k id).
Qed.

(** The last part of [incoming], for a peer that is not connected. *)
Definition accept (k : nat) (id : PeerId) (index : Z) : PSM unit :=
  self ← get;
  if reputation_of id (data self) <? BANNED_THRESHOLD then push_back (Reject index)
  else ok ← on_data (try_accept_incoming k id); push_back (if ok : bool then Accept index else Reject index).

Lemma accept_run k id index r i s : core s -> reserved_nodes s !! k = Some r -> sets (data s) !! k = Some i -> no_slot_nodes i = r.1 ->
  is_not_connected (mem (data s) k id) = true -> negb r.2 || bool_decide (id ∈ r.1) = true ->
  exists s' ms, accept k id index s = (s', Ok tt) /\ keeps true (reserved_nodes s) s s' /\ message_queue s' = message_queue s ++ ms /\
    answered (accepts k id s) k id index (conn s) ms (conn s').
Proof.
  intros C Hr Hi Hsync Hm Hok. unfold answered, accepts, accept. rewrite Hr, Hi, Hok. cbn [andb]. assert (conn s k id = false) as -> by (by apply idle_not_conn).
  erewrite bind_Ok by reflexivity. rewrite Z.leb_antisym. destruct (reputation_of id (data s) <? BANNED_THRESHOLD) eqn:Hlow; cbn [negb andb].
  { eexists _, [Reject index]. split; [reflexivity|]. split; [by apply keeps_push|done]. }
  destruct (try_accept_incoming_run (E := E) U HU k id (data s) i (c_data s C) Hi Hm) as (d' & Hrun & Hd'). rewrite Hsync in *. rewrite (bind_Ok _ _ _ _ _ (on_data_run _ _ _ _ Hrun)).
  destruct (bool_decide (id ∈ r.1) || (num_in i <? max_in i)) eqn:Hfree.
  - destruct Hd' as [Mv Hs]. assert (keeps true (reserved_nodes s) s (with_data d' s)) as K.
    { eapply keeps_connect with (m := In_); [done|done|done| |done|by rewrite Hsync|].
      - intros Hb. rewrite Hb in Hok. by apply bool_decide_eq_true in Hok.
      - apply orb_prop in Hfree as [Hin%bool_decide_eq_true|Hlt%Z.ltb_lt]; [left; by rewrite Hsync|right; by left]. }
    eexists _, [Accept index]. split; [reflexivity|]. split; [eapply keeps_trans; [exact K|]; apply (keeps_push (with_data d' s)); apply K|]. split; [done|]. split; [done|]. apply (moved_conn s d' k id In_ Mv).
  - subst d'. eexists _, [Reject index]. split; [reflexivity|]. destruct s. split; [by apply keeps_push|done].
Qed.

(** What [incoming] does after the update of the time. *)
Definition decide_incoming (k : nat) (id : PeerId) (index : Z) : PSM unit :=
  r ← reserved_at k;
  if r.2 && negb (bool_decide (id ∈ r.1)) then push_back (Reject index)
  else
    p ← on_data (peer k id);
    match p with
    | ConnectedPeer => mret tt
    | NotConnectedPeer | UnknownPeer =>
      now ← Instant_now;
      _ ← on_data match p with UnknownPeer => discover k id now | _ => bump_last_connected_or_discovered k id now end;
      accept k id index
    end.

Lemma decide_incoming_run k id index s : core s -> strict k s -> (k < num_sets (data s))%nat -> id ∈ U ->
  exists s' ms, decide_incoming k id index s = (s', Ok tt) /\ keeps true (reserved_nodes s) s s' /\ message_queue s' = message_queue s ++ ms /\
    answered (accepts k id s) k id index (conn s) ms (conn s').
Proof.
  intros C Hst Hk Hid. destruct (set_info s k C Hk) as (r & i & Hr & Hi & Hsync & _). unfold decide_incoming. erewrite bind_Ok by (by apply reserved_at_run).
  destruct (r.2 && negb (bool_decide (id ∈ r.1))) eqn:Hrej.
  - apply andb_prop in Hrej as [Hb Hnin%negb_true_iff%bool_decide_eq_false]. eexists _, [Reject index]. split; [reflexivity|]. split; [by apply keeps_push|]. split; [done|].
    unfold answered. destruct (conn s k id) eqn:Hc; [by specialize (Hst r id Hr Hb Hc)|]. unfold accepts. rewrite Hr, Hi, Hb. by rewrite bool_decide_eq_false_2.
  - erewrite bind_Ok by (by apply peer_data_run). destruct (conn s k id) eqn:Hc; unfold conn, dconn in Hc.
    + exists s, []. split; [by destruct (mem (data s) k id)|]. split; [by apply keeps_refl|]. split; [by rewrite app_nil_r|]. unfold answered, conn, dconn. by rewrite Hc.
    + destruct (bump_entry_run s k id C Hk Hid Hc) as (s1 & Hrun1 & D1 & _ & Hm1 & Hconn1 & Hacc). destruct (does_facts _ _ _ _ _ D1) as (C1 & Hr1 & Hn1).
      destruct (set_info s1 k C1 ltac:(lia)) as (r1 & i1 & Hri1 & Hi1 & Hsync1 & _). rewrite Hr1 in Hri1. assert (r1 = r) as -> by congruence.
      destruct (accept_run k id index r i1 s1) as (s' & ms & Hrun & K & Hq & Ha); [done|by rewrite Hr1|done|done|done|destruct r.2; [by destruct (bool_decide (id ∈ r.1))|done]|].
      exists s', ms. split_and!; [|rewrite Hr1 in K; eapply keeps_trans; [apply D1|done]|rewrite Hq, (s_queue _ _ _ (proj2 D1)); by rewrite app_nil_r|rewrite Hacc in Ha; by eapply answered_ext; [|exact Ha]].
      erewrite bind_Ok in Hrun1 by apply Instant_now_run. destruct (mem (data s) k id) as [| | |last]; try done; cbn [kind] in *; erewrite bind_Ok by apply Instant_now_run; by rewrite (bind_Ok _ _ _ _ _ Hrun1).
Qed.

Lemma incoming_run k id index s : core s -> strict k s -> (k < num_sets (data s))%nat -> id ∈ U ->
  exists s1 s' ms, update_time s = (s1, Ok tt : res E unit) /\ quiet (instant (ticks s)) s s1 /\ incoming k id index s = (s', Ok tt : res E unit) /\ keeps true (reserved_nodes s) s s' /\
    message_queue s' = message_queue s ++ ms /\ answered (accepts k id s1) k id index (conn s) ms (conn s').
Proof.
  intros C Hst Hk Hid. destruct (update_time_run s C) as (s1 & Hrun1 & Q1 & _). destruct (does_facts _ _ _ _ _ (proj1 Q1)) as (C1 & Hr1 & Hn1). pose proof (proj1 (proj1 Q1)) as K1.
  destruct (decide_incoming_run k id index s1 C1) as (s' & ms & Hrun & K & Hq & Ha); [by apply (k_strict _ _ _ _ K1)|lia|done|]. exists s1, s', ms. rewrite Hr1 in K.
  split_and!; [done|done| |by eapply keeps_trans|rewrite Hq, (s_queue _ _ _ (proj2 (proj1 Q1))); by rewrite app_nil_r|].
  - unfold incoming. rewrite (bind_Ok _ _ _ _ _ Hrun1). exact Hrun.
  - eapply answered_ext; [|exact Ha]. intros k' id'. symmetry. by apply (quiet_conn _ _ _ Q1).
Qed.

(** The loss of a connection, told by the network. *)
Lemma lost_run k id s : core s -> (k < num_sets (data s))%nat ->
  exists s', (p ← on_data (peer k id);
    match p with ConnectedPeer => _ ← on_data (add_reputation id DISCONNECT_REPUTATION_CHANGE); now ← Instant_now; on_data (disconnect k id now) | NotConnectedPeer | UnknownPeer => mret tt end : PSM unit) s = (s', Ok tt) /\
    keeps true (reserved_nodes s) s s' /\ message_queue s' = message_queue s /\ forall k' id', conn s' k' id' = upd (conn s) k id false k' id'.
Proof.
  intros C Hk. erewrite bind_Ok by (by apply peer_data_run). destruct (conn s k id) eqn:Hc; unfold conn, dconn in Hc.
  - replace (kind (mem (data s) k id)) with ConnectedPeer by (by destruct (mem (data s) k id)). destruct (mem_known (data s) k id) as (n & Hn & _); [by intros Heq; rewrite Heq in Hc|].
    destruct (add_reputation_run (E := E) U HU id DISCONNECT_REPUTATION_CHANGE (data s) (c_data s C)) as (d1 & Hrun1 & R1); [eauto|]. erewrite bind_Ok by (apply on_data_run; exact Hrun1).
    destruct (keeps_rated s d1 id _ C (saturate_range _) R1) as [K1 S1]. erewrite bind_Ok by apply Instant_now_run. set (s1 := with_data d1 s) in *. set (s2 := with_ticks _ s1). destruct (does_ticks s1 (k_core _ _ _ _ K1)) as [K2 _].
    destruct (disconnect_run (E := E) U HU k id (instant (ticks s)) (data s2) (c_data s2 (k_core _ _ _ _ K2))) as (d' & Hrun & Mv); [change (k < num_sets (data s1))%nat; by rewrite (k_sets _ _ _ _ K1)|simpl; by rewrite (rt_mem _ _ _ _ _ R1)|].
    exists (with_data d' s2). split; [by apply on_data_run|]. split; [|split; [done|]].
    + eapply keeps_trans; [exact K1|]. eapply keeps_trans; [exact K2|]. apply (keeps_idle s2 d' k id (NotConnected (instant (ticks s)))); [apply K2|done|done].
    + intros k' id'. rewrite (moved_conn s2 d' k id _ Mv). unfold upd. case_decide; [done|]. unfold conn, dconn. simpl. by rewrite (rt_mem _ _ _ _ _ R1).
  - exists s. split; [by destruct (mem (data s) k id)|]. split; [by apply keeps_refl|]. split; [done|]. intros k' id'. symmetry. by apply upd_same.
Qed.

Lemma dropped_run k id reason s : core s -> (k < num_sets (data s))%nat ->
  exists s' ms, dropped k id reason s = (s', Ok tt : res E unit) /\ keeps true (reserved_nodes s) s s' /\ message_queue s' = message_queue s ++ ms /\
    replay (upd (conn s) k id false) ms (conn s') /\ served k s'.
Proof.
  intros C Hk. destruct (update_time_run s C) as (s1 & Hrun1 & Q1 & _). destruct (does_facts _ _ _ _ _ (proj1 Q1)) as (C1 & Hr1 & Hn1). pose proof (proj1 (proj1 Q1)) as K1.
  assert (message_queue s1 = message_queue s) as Hq1 by (rewrite (s_queue _ _ _ (proj2 (proj1 Q1))); by rewrite app_nil_r).
  destruct (lost_run k id s1 C1 ltac:(lia)) as (s2 & Hrun2 & K2 & Hq2 & Hconn2). rewrite Hr1 in K2. pose proof (k_core _ _ _ _ K2) as C2. assert (num_sets (data s2) = num_sets (data s)) as Hn2 by (rewrite (k_sets _ _ _ _ K2); done).
  destruct (reserved_known s2 k C2 ltac:(lia)) as [r Hr].
  assert (exists s3 ms3, (match reason with Refused => on_remove_from_peers_set k id | DropUnknown => mret tt end : PSM unit) s2 = (s3, Ok tt) /\ does true (reserved_nodes s2) ms3 s2 s3) as (s3 & ms3 & Hrun3 & D3).
  { destruct reason; [by exists s2, []; split; [|apply does_refl]|]. destruct (on_remove_from_peers_set_run k id r s2 C2 ltac:(lia) Hr) as (s3 & ms3 & ? & ? & _). eauto. }
  destruct (does_facts _ _ _ _ _ D3) as (C3 & Hr3 & Hn3). destruct (alloc_slots_run k s3 C3 ltac:(lia)) as (s4 & ms4 & Hrun4 & D4 & _ & Hserved). rewrite Hr3 in D4.
  destruct (does_trans _ _ _ _ _ _ _ _ D3 D4) as [K4 S4]. rewrite (k_res _ _ _ _ K2) in K4. exists s4, (ms3 ++ ms4). split_and!; [| | | |done].
  - unfold dropped. rewrite (bind_Ok _ _ _ _ _ Hrun1). erewrite bind_Ok by (apply peer_data_run; [done|lia]).
    erewrite bind_Ok in Hrun2 by (apply peer_data_run; [done|lia]). rewrite (bind_Ok _ _ _ _ _ Hrun2), (bind_Ok _ _ _ _ _ Hrun3). exact Hrun4.
  - eapply keeps_trans; [exact K1|]. by eapply keeps_trans.
  - by rewrite (s_queue _ _ _ S4), Hq2, Hq1.
  - eapply replay_ext; [|done|apply S4]. intros k' id'. rewrite Hconn2. unfold upd. case_decide; [done|]. symmetry. by apply (quiet_conn _ _ _ Q1).
Qed.

(** ** Polling *)

(** The reserved peers of the sets, and the sets that accept no other, after an
    action. *)
Definition reserve_step (R : list (gset PeerId * bool)) (a : Action PeerId) : list (gset PeerId * bool) :=
  match a with
  | AddReservedPeer k id => alter (fun r => ({[id]} ∪ r.1, r.2)) k R
  | RemoveReservedPeer k id => alter (fun r => (r.1 ∖ {[id]}, r.2)) k R
  | SetReservedPeers k ids => alter (fun r => (ids, r.2)) k R
  | SetReservedOnly k b => alter (fun r => (r.1, b)) k R
  | _ => R
  end.

(** The action removes no peer from the reserved ones. *)
Definition keeps_reserved (R : list (gset PeerId * bool)) (a : Action PeerId) : bool :=
  match a with
  | RemoveReservedPeer k id => match R !! k with Some r => bool_decide (id ∉ r.1) | None => true end
  | SetReservedPeers k ids => match R !! k with Some r => bool_decide (r.1 ⊆ ids) | None => true end
  | _ => true
  end.

(** Nor does any of a sequence of actions. *)
Fixpoint all_keep_reserved (R : list (gset PeerId * bool)) (l : list (Action PeerId)) : bool :=
  match l with
  | [] => true
  | a :: l => keeps_reserved R a && all_keep_reserved (reserve_step R a) l
  end.

Lemma all_keep_reserved_app R l l' : all_keep_reserved R (l ++ l') = all_keep_reserved R l && all_keep_reserved (foldl reserve_step R l) l'.
Proof. revert R. induction l as [|a l IH]; intros R; [done|]. cbn. by rewrite IH, andb_assoc. Qed.

Lemma alter_known {A} (f : A -> A) k (l : list A) x : l !! k = Some x -> alter f k l = <[k := f x]> l.
Proof.
  intros Hx. pose proof (lookup_lt_Some _ _ _ Hx). apply list_eq. intros j. destruct (decide (j = k)) as [->|Hne].
  - by rewrite list_lookup_alter_eq, Hx, list_lookup_insert_eq.
  - by rewrite list_lookup_alter_ne, list_lookup_insert_ne by done.
Qed.

Lemma handle_action_run a s : core s -> valid_action (num_sets (data s)) a ->
  exists s' ms, handle_action a s = (s', Ok tt : res E unit) /\ does (keeps_reserved (reserved_nodes s) a) (reserve_step (reserved_nodes s) a) ms s s'.
Proof.
  intros C Hv. destruct a as [k id|k id|k ids|k b|id change|k id|k id]; cbn [valid_action keeps_reserved reserve_step handle_action] in *.
  - destruct Hv as [Hk Hid]. destruct (reserved_known s k C Hk) as [r Hr]. rewrite (alter_known _ _ _ _ Hr). by apply on_add_reserved_peer_run.
  - destruct Hv as [Hk Hid]. destruct (reserved_known s k C Hk) as [r Hr]. rewrite (alter_known _ _ _ _ Hr), Hr. by apply on_remove_reserved_peer_run.
  - destruct Hv as [Hk Hid]. destruct (reserved_known s k C Hk) as [r Hr]. rewrite (alter_known _ _ _ _ Hr), Hr. by apply on_set_reserved_peers_run.
  - destruct (reserved_known s k C Hv) as [r Hr]. rewrite (alter_known _ _ _ _ Hr). by apply on_set_reserved_only_run.
  - by apply on_report_peer_run.
  - destruct Hv as [Hk Hid]. by apply add_to_peers_set_run.
  - destruct Hv as [Hk Hid]. destruct (reserved_known s k C Hk) as [r Hr]. destruct (on_remove_from_peers_set_run k id r s C Hk Hr) as (s' & ms & ? & ? & _). eauto.
Qed.

(** The actions [l] have been handled. *)
Record handled l s s' : Prop := {
  h_rx : rx s = l ++ rx s';
  h_res : reserved_nodes s' = foldl reserve_step (reserved_nodes s) l;
  h_lim k : all_keep_reserved (reserved_nodes s) l = true -> lim k s -> lim k s' }.

Lemma handled_none R ms s s' : does true R ms s s' -> R = reserved_nodes s -> handled [] s s'.
Proof. intros [K _] ->. destruct K. split; [done|done|auto]. Qed.

Lemma handled_one a l ms s s' : rx s = a :: l -> does (keeps_reserved (reserved_nodes s) a) (reserve_step (reserved_nodes s) a) ms (with_rx l s) s' -> handled [a] s s'.
Proof.
  intros Hrx [K _]. destruct K as [KC KR Krx Kn Kst Kl]. split; [by rewrite Hrx, Krx|done|].
  intros k Hk. cbn in Hk. rewrite andb_true_r in Hk. by apply Kl.
Qed.

Lemma handled_trans l l' s s' s'' : handled l s s' -> handled l' s' s'' -> handled (l ++ l') s s''.
Proof.
  intros [A1 A2 A3] [B1 B2 B3]. split; [by rewrite A1, B1, app_assoc|by rewrite B2, A2, foldl_app|].
  intros k. rewrite all_keep_reserved_app, andb_true_iff, <-A2. intros [Hl Hl'] Hk. auto.
Qed.

(** What a poll does: the messages [ms] of the actions it handles go to the
    queue, the first one of which is returned. *)
Record polled ms (o : option (Message PeerId)) s s' : Prop := {
  p_core : core s';
  p_sets : num_sets (data s') = num_sets (data s);
  p_rx : exists l, handled l s s';
  p_strict k : strict k s -> strict k s';
  p_queue : message_queue s ++ ms = option_list o ++ message_queue s';
  p_replay : replay (conn s) ms (conn s');
  p_pending : o = None -> rx s' = [] }.

Lemma polled_step b R l ms ms' o s s0 s' s'' : handled l s s' -> does b R ms s0 s' -> conn s0 = conn s -> message_queue s0 = message_queue s ->
  num_sets (data s0) = num_sets (data s) -> (forall k, strict k s -> strict k s0) -> polled ms' o s' s'' -> polled (ms ++ ms') o s s''.
Proof.
  intros Hl [K S] Hc Hq Hn Hst P. destruct (p_rx _ _ _ _ P) as [l' Hl']. split; [apply P|rewrite (p_sets _ _ _ _ P), (k_sets _ _ _ _ K); done|exists (l ++ l'); by eapply handled_trans|..].
  - intros k Hk. apply (p_strict _ _ _ _ P), (k_strict _ _ _ _ K), Hst, Hk.
  - rewrite app_assoc, <-Hq, <-(s_queue _ _ _ S). apply P.
  - rewrite <-Hc. eapply replay_app; [apply S|apply P].
  - apply P.
Qed.

Lemma polled_does ms ms' o s s' s'' : does true (reserved_nodes s) ms s s' -> polled ms' o s' s'' -> polled (ms ++ ms') o s s''.
Proof. intros D. eapply polled_step; [by eapply handled_none|exact D|done..|auto]. Qed.

Lemma polled_action a l ms ms' o s s' s'' : rx s = a :: l -> does (keeps_reserved (reserved_nodes s) a) (reserve_step (reserved_nodes s) a) ms (with_rx l s) s' ->
  polled ms' o s' s'' -> polled (ms ++ ms') o s s''.
Proof. intros Hrx D. eapply polled_step; [by eapply handled_one|exact D|done..|auto]. Qed.

Lemma core_rx l s : core s -> (forall a, a ∈ l -> a ∈ rx s) -> core (with_rx l s).
Proof. intros [] Hl. split; try done. auto. Qed.

Lemma timer_run (fired : bool) n s : core s -> num_sets (data s) = n ->
  exists s' ms, (if fired then for_each alloc_slots (seq 0 n) else mret tt : PSM unit) s = (s', Ok tt) /\ does true (reserved_nodes s) ms s s'.
Proof.
  intros C Hn. destruct fired; [|by exists s, []; split; [|apply does_refl]]. apply for_sets_run; [done|done|].
  intros k t Ct Hnt Hk. destruct (alloc_slots_run k t Ct ltac:(lia)) as (t' & ms & ? & ? & _). eauto.
Qed.

(** Every turn of the loop consumes an action or ends it. *)
Lemma poll_loop_run fuel s : core s -> (length (rx s) < fuel)%nat -> exists s' o ms, poll_loop fuel s = (s', Ok o : res E _) /\ polled ms o s s'.
Proof.
  revert s. induction fuel as [|fuel IH]; intros s C Hfuel; [lia|]. cbn [poll_loop]. erewrite bind_Ok by reflexivity. destruct (message_queue s) as [|m q] eqn:Hq.
  - erewrite bind_Ok by reflexivity. set (s1 := with_polls _ s). assert (does true (reserved_nodes s) [] s s1) as D1 by (split; [|by apply says_nil]; split; try done; by destruct C; split).
    destruct (timer_run (timer_fired (polls s)) (num_sets (data s)) s1 (k_core _ _ _ _ (proj1 D1)) eq_refl) as (s2 & ms2 & Hrun2 & D2). erewrite bind_Ok by exact Hrun2. erewrite bind_Ok by reflexivity.
    pose proof (does_trans _ _ _ _ _ _ _ _ D1 D2) as D. destruct (does_facts _ _ _ _ _ D) as (C2 & Hr2 & Hn2). pose proof (k_rx _ _ _ _ (proj1 D)) as Hrx. destruct (rx s2) as [|a l] eqn:Hrx2.
    + exists s2, None, (([] ++ ms2) ++ []). split; [done|]. eapply polled_does; [exact D|]. split; try done; [exists []; by eapply handled_none; [by apply (does_refl true)|]|by rewrite app_nil_r|by constructor].
    + erewrite bind_Ok by reflexivity. destruct (handle_action_run a (with_rx l s2)) as (s3 & ms3 & Hrun3 & D3); [apply core_rx; [done|rewrite Hrx2; intros; by right]|apply (c_rx s2 C2); rewrite Hrx2; left|].
      erewrite bind_Ok by exact Hrun3. pose proof (k_rx _ _ _ _ (proj1 D3)) as Hrx3. simpl in Hrx3.
      destruct (IH s3 (k_core _ _ _ _ (proj1 D3))) as (s' & o & ms & Hrun & P); [rewrite Hrx3; rewrite <-Hrx in Hfuel; simpl in Hfuel; lia|].
      exists s', o, (([] ++ ms2) ++ (ms3 ++ ms)). split; [done|]. eapply polled_does; [exact D|]. by eapply polled_action.
  - exists (with_queue q s), (Some m), []. split; [done|]. split; try done; [by destruct C; split|by exists []|by rewrite app_nil_r, Hq|by constructor].
Qed.

Lemma poll_next_run s : core s -> exists s' o ms, poll_next s = (s', Ok o : res E _) /\ polled ms o s s'.
Proof. intros C. unfold poll_next. erewrite bind_Ok by reflexivity. apply poll_loop_run; [done|lia]. Qed.
End spec.
