(* ===== verification/PeersetReach.v ===== *)
(** * Executions of the peer set manager

    The manager as built from a configuration and driven by the network and by
    the handles, the properties of all its executions, and an example. *)

From Stdlib Require Import ZArith Lia.
From stdpp Require Import gmap fin_maps fin_sets option list.
From S2P Require Import Prelude PeersState Peerset PeersetInv.

Local Open Scope Z_scope.

Section reach.
Context {OC : OverflowChecks} {PeerId : Type} `{HashOrder PeerId} {CL : Clock} {TM : Timer} {E : Type}.
Abbreviation State := (Peerset PeerId).
Abbreviation PSM := (M State E).
Abbreviation Config := (list (SetConfig PeerId)).
Implicit Types (s : State) (id : PeerId) (k : nat) (cfg : Config).

Context (U : gset PeerId) (HU : Z.of_nat (size U) < 2 ^ 32).

(** ** The configuration *)

Definition valid_config cfg : Prop := Forall (fun c => 0 <= cfg_in_peers c /\ 0 <= cfg_out_peers c /\ cfg_reserved_nodes c ⊆ U /\ forall id, id ∈ cfg_bootnodes c -> id ∈ U) cfg.

(** The state while the sets up to [n] are initialised, the last of which has
    the reserved peers [X] so far. *)
Record booting cfg (n : nat) (X : gset PeerId) s : Prop := {
  b_inv : ps_inv U (data s);
  b_conn k id : conn s k id = false;
  b_rep id : reputation_of id (data s) = 0;
  b_cfg k : config <$> sets (data s) !! k =
    (fun c => (cfg_in_peers c, cfg_out_peers c, if decide (k < n)%nat then cfg_reserved_nodes c else if decide (k = n) then X else ∅)) <$> cfg !! k;
  b_res : reserved_nodes s = (fun c => (cfg_reserved_nodes c, cfg_reserved_only c)) <$> cfg;
  b_rx : rx s = [];
  b_queue : message_queue s = [];
  b_time : created s = instant 0 /\ latest_time_update s = instant 0 /\ instant 0 <= instant (ticks s) }.

Lemma booting_num cfg n X s : booting cfg n X s -> num_sets (data s) = length cfg.
Proof.
  intros B. unfold num_sets. apply Nat.le_antisymm; apply Nat.nlt_ge; intros [x Hx]%lookup_lt_is_Some.
  - pose proof (b_cfg _ _ _ _ B (length cfg)) as Hc. rewrite Hx, lookup_ge_None_2 in Hc by lia. done.
  - pose proof (b_cfg _ _ _ _ B (length (sets (data s)))) as Hc. rewrite Hx, lookup_ge_None_2 in Hc by lia. done.
Qed.

Lemma booting_info cfg n X s k c : booting cfg n X s -> cfg !! k = Some c -> exists i, sets (data s) !! k = Some i /\
  config i = (cfg_in_peers c, cfg_out_peers c, if decide (k < n)%nat then cfg_reserved_nodes c else if decide (k = n) then X else ∅).
Proof. intros B Hc. pose proof (b_cfg _ _ _ _ B k) as Hk. rewrite Hc in Hk. destruct (sets (data s) !! k) as [i|]; [|done]. exists i. split; [done|]. by apply (inj Some) in Hk. Qed.

(** The reserved peers of a set. *)
Lemma boot_reserved_run cfg n c ids X s : booting cfg n X s -> cfg !! n = Some c -> (forall id, id ∈ ids -> id ∈ U) ->
  exists s', for_each (fun node => on_data (add_no_slot_node n node)) ids s = (s', Ok tt : res E unit) /\ booting cfg n (list_to_set ids ∪ X) s'.
Proof.
  intros B Hc Hids. revert s X B. induction ids as [|id ids IH]; intros s X B; cbn [for_each].
  - exists s. split; [done|]. by replace (list_to_set [] ∪ X) with X by set_solver.
  - destruct (booting_info cfg n X s n c B Hc) as (i & Hi & Hcfg). rewrite decide_False, decide_True in Hcfg by lia. injection Hcfg as Hmi Hmo HX.
    destruct (add_no_slot_run (E := E) U HU n id (data s) i (b_inv _ _ _ _ B) Hi) as (d' & Hrun & R); [apply Hids; left|]. rewrite HX in R. erewrite bind_Ok by (apply on_data_run; exact Hrun).
    destruct (IH ltac:(intros; apply Hids; by right) (with_data d' s) ({[id]} ∪ X)) as (s' & Hrun' & B').
    + destruct B as [Bi Bc Br Bcf Bre Bx Bq Bt]. split; try done; simpl; [apply R|intros k id'; unfold conn, dconn; simpl; rewrite (reslot_mem _ _ _ _ _ R); apply Bc|intros id'; unfold reputation_of; rewrite (rs_nodes _ _ _ _ _ R); apply Br|].
      intros k. rewrite (rs_config _ _ _ _ _ R). pose proof (Bcf k) as Hk. destruct (decide (k = n)) as [->|Hne]; [|done].
      rewrite Hi, Hc in *. simpl. rewrite decide_False by lia. by rewrite Hmi, Hmo.
    + exists s'. split; [done|]. simpl. by replace ({[id]} ∪ list_to_set ids ∪ X) with (list_to_set ids ∪ ({[id]} ∪ X)) by set_solver.
Qed.

(** The bootnodes of a set. *)
Lemma boot_nodes_run cfg n X ids s : booting cfg n X s -> (n < length cfg)%nat -> (forall id, id ∈ ids -> id ∈ U) ->
  exists s', for_each (add_bootnode n) ids s = (s', Ok tt : res E unit) /\ booting cfg n X s'.
Proof.
  intros B Hn Hids. revert s B. induction ids as [|id ids IH]; intros s B; cbn [for_each]; [by exists s|]. pose proof (booting_num _ _ _ _ B) as Hnum.
  assert (exists s', add_bootnode n id s = (s', Ok tt : res E unit) /\ booting cfg n X s') as (s1 & Hrun & B1).
  { unfold add_bootnode. erewrite bind_Ok by (apply on_data_same, (peer_run U); [apply B|lia]). destruct (mem (data s) n id) as [| | |last] eqn:Hm; cbn [kind]; try (by exists s).
    erewrite bind_Ok by apply Instant_now_run. set (s0 := with_ticks _ s). destruct (discover_run (E := E) U HU n id (instant (ticks s)) (data s0) (b_inv _ _ _ _ B)) as (d' & Hrun & Mv); [simpl; lia|apply Hids; left|done|].
    exists (with_data d' s0). split; [by apply on_data_run|]. destruct B as [Bi Bc Br Bcf Bre Bx Bq (B1 & B2 & B3)]. split; try done; simpl; [apply Mv|..].
    - intros k id'. rewrite (moved_conn U s0 d' n id _ Mv). unfold upd. case_decide; [done|]. apply Bc.
    - intros id'. rewrite (mv_rep _ _ _ _ _ _ Mv). apply Br.
    - intros k. rewrite (mv_config _ _ _ _ _ _ Mv). apply Bcf.
    - pose proof (instant_mono (ticks s)). split_and!; [done|done|lia]. }
  rewrite (bind_Ok _ _ _ _ _ Hrun). apply IH; [intros; apply Hids; by right|done].
Qed.

Lemma booting_next cfg n c s : cfg !! n = Some c -> booting cfg n (cfg_reserved_nodes c) s -> booting cfg (S n) ∅ s.
Proof.
  intros Hc B. destruct B as [Bi Bcn Br Bcf Bre Bx Bq Bt]. split; try done. intros k. rewrite Bcf. destruct (cfg !! k) as [c'|] eqn:Hk; [|done]. simpl. do 2 f_equal.
  destruct (decide (k = n)) as [->|Hne]; [rewrite (decide_False (P := (n < n)%nat)), (decide_True (P := (n < S n)%nat)) by lia; congruence|].
  destruct (decide (k < n)%nat), (decide (k < S n)%nat), (decide (k = S n)); try done; lia.
Qed.

Lemma init_sets_run cfg n rest s : valid_config cfg -> booting cfg n ∅ s -> rest = drop n cfg ->
  exists s', for_each init_set (imap (fun j => pair (n + j)%nat) rest) s = (s', Ok tt : res E unit) /\ booting cfg (length cfg) ∅ s'.
Proof.
  intros V. revert n s. induction rest as [|c rest IH]; intros n s B Hrest; cbn [imap for_each].
  - exists s. split; [done|]. destruct B as [Bi Bcn Br Bcf Bre Bx Bq Bt]. split; try done. intros k. rewrite Bcf. destruct (cfg !! k) as [c'|] eqn:Hk; [|done]. apply lookup_lt_Some in Hk. symmetry in Hrest.
    assert (length cfg <= n)%nat as Hle by (assert (length (drop n cfg) = 0%nat) as Hl by (by rewrite Hrest); rewrite length_drop in Hl; lia). simpl. rewrite (decide_True (P := (k < n)%nat)), (decide_True (P := (k < length cfg)%nat)) by lia. done.
  - assert (cfg !! n = Some c) as Hc by (rewrite <-(Nat.add_0_r n), <-lookup_drop, <-Hrest; done). destruct (Forall_lookup_1 _ _ _ _ V Hc) as (_ & _ & Hres & Hboot). rewrite Nat.add_0_r.
    destruct (boot_reserved_run cfg n c (hash_iter (cfg_reserved_nodes c)) ∅ s B Hc) as (s1 & Hrun1 & B1); [intros id Hid%elem_of_hash_iter; set_solver|]. rewrite list_to_set_hash_iter, union_empty_r_L in B1.
    destruct (boot_nodes_run cfg n (cfg_reserved_nodes c) (cfg_bootnodes c) s1 B1) as (s2 & Hrun2 & B2); [by eapply lookup_lt_Some|done|].
    assert (init_set (n, c) s = (s2, Ok tt : res E unit)) as Hrun by (unfold init_set; by rewrite (bind_Ok _ _ _ _ _ Hrun1)). rewrite (bind_Ok _ _ _ _ _ Hrun).
    destruct (IH (S n) s2) as (s' & Hrun' & B'); [by eapply booting_next|by rewrite <-Nat.add_1_r, <-drop_drop, <-Hrest|]. exists s'. split; [|done]. rewrite <-Hrun'. f_equal. apply imap_ext. intros j x _. simpl. f_equal. lia.
Qed.

Definition initial cfg : State :=
  mkPeerset (PeersState_new ((fun set => mkStateSetConfig (cfg_in_peers set) (cfg_out_peers set)) <$> cfg))
    ((fun set => (cfg_reserved_nodes set, cfg_reserved_only set)) <$> cfg) [] [] (instant 0) (instant 0) 1 0.

Lemma count_none (f : PeerId -> bool) : (forall id, f id = false) -> count U f = 0.
Proof. intros Hf. unfold count. replace (filter (fun id => f id = true) U) with (∅ : gset PeerId); [by rewrite size_empty|]. apply set_eq. intros id. rewrite elem_of_filter, Hf. set_solver. Qed.

Lemma booting_initial cfg : booting cfg 0 ∅ (initial cfg).
Proof.
  assert (forall k i, sets (data (initial cfg)) !! k = Some i -> exists c, cfg !! k = Some c /\ i = mkSetInfo 0 0 (cfg_in_peers c) (cfg_out_peers c) ∅) as Hsets.
  { intros k i Hi. simpl in Hi. rewrite !list_lookup_fmap in Hi. destruct (cfg !! k) as [c|]; [|done]. injection Hi as <-. eauto. }
  split; try done.
  - split; [simpl; set_solver|intros id n Hn; simpl in Hn; by rewrite lookup_empty in Hn|..]; intros k i Hi; destruct (Hsets k i Hi) as (c & _ & ->); by rewrite count_none.
  - intros k. simpl. rewrite !list_lookup_fmap. destruct (cfg !! k); [|done]. simpl. by case_decide.
  - simpl. pose proof (instant_mono 0). lia.
Qed.

Definition inv s : Prop := core U s /\ forall k, strict k s.

Lemma booted_inv cfg s : valid_config cfg -> booting cfg (length cfg) ∅ s -> inv s /\ forall k, lim k s.
Proof.
  intros V B. assert (forall k i, sets (data s) !! k = Some i -> exists c, cfg !! k = Some c /\ config i = (cfg_in_peers c, cfg_out_peers c, cfg_reserved_nodes c)) as Hsets.
  { intros k i Hi. pose proof (b_cfg _ _ _ _ B k) as Hk. rewrite Hi in Hk. destruct (cfg !! k) as [c|] eqn:Hc; [|done]. exists c. split; [done|]. apply (inj Some) in Hk. rewrite Hk, decide_True by (by eapply lookup_lt_Some). done. }
  pose proof (booting_num _ _ _ _ B) as Hn. destruct B as [Bi Bc Br Bcf Bre Bx Bq (B1 & B2 & B3)]. split; [split; [split|]|].
  - done.
  - intros id. rewrite Br. done.
  - by rewrite Bre, length_fmap.
  - intros k r i Hr Hi. destruct (Hsets k i Hi) as (c & Hc & [= _ _ ->]). rewrite Bre, list_lookup_fmap, Hc in Hr. by injection Hr as <-.
  - intros k r Hr. rewrite Bre, list_lookup_fmap in Hr. destruct (cfg !! k) as [c|] eqn:Hc; [|done]. injection Hr as <-. by destruct (Forall_lookup_1 _ _ _ _ V Hc) as (_ & _ & ? & _).
  - rewrite B1, B2. pose proof (instant_range 0). lia.
  - rewrite Bx. intros a Ha. by apply elem_of_nil in Ha.
  - intros k r id _ _ Hc. by rewrite Bc in Hc.
  - intros k i Hi. destruct (Hsets k i Hi) as (c & Hc & [= -> -> _]). destruct (Forall_lookup_1 _ _ _ _ V Hc) as (Hin & Hout & _).
    rewrite (ps_in U _ Bi k i Hi), (ps_out U _ Bi k i Hi). rewrite !count_none; [lia|..]; intros id; unfold occupies; (rewrite bool_decide_eq_false_2; [done|]); intros Hm; specialize (Bc k id); unfold conn, dconn in Bc; by rewrite Hm in Bc.
Qed.

Definition closed : nat -> PeerId -> bool := fun _ _ => false.

Definition initially_reserved cfg : list (gset PeerId * bool) := (fun c => (cfg_reserved_nodes c, cfg_reserved_only c)) <$> cfg.

Lemma from_config_run cfg : valid_config cfg ->
  exists s, from_config cfg = (s, Ok tt : res E unit) /\ inv s /\ (forall k, lim k s) /\ num_sets (data s) = length cfg /\ (rx s = [] /\ reserved_nodes s = initially_reserved cfg) /\ replay closed (message_queue s) (conn s).
Proof.
  intros V. destruct (init_sets_run cfg 0 cfg (initial cfg) V (booting_initial cfg) eq_refl) as (s1 & Hrun1 & B1). destruct (booted_inv cfg s1 V B1) as [[C1 Hst1] Hlim1]. pose proof (booting_num _ _ _ _ B1) as Hn1.
  destruct (timer_run (E := E) U HU true (num_sets (data s1)) s1 C1 eq_refl) as (s2 & ms & Hrun2 & K2 & S2). exists s2. split_and!.
  - unfold from_config. erewrite bind_Ok by exact Hrun1. erewrite bind_Ok by reflexivity. exact Hrun2.
  - split; [apply K2|]. intros k. apply (k_strict _ _ _ _ _ K2), Hst1.
  - intros k. by apply (k_lim _ _ _ _ _ K2).
  - by rewrite (k_sets _ _ _ _ _ K2).
  - rewrite (k_rx _ _ _ _ _ K2). apply B1.
  - rewrite (k_res _ _ _ _ _ K2). apply B1.
  - rewrite (s_queue _ _ _ S2), (b_queue _ _ _ _ B1). eapply replay_ext; [|done|apply S2]. intros k id. by rewrite (b_conn _ _ _ _ B1).
Qed.

(** ** Executions *)

Inductive Input : Type :=
| InIncoming (set_id : nat) (peer_id : PeerId) (index : Z)
| InDropped (set_id : nat) (peer_id : PeerId) (reason : DropReason)
| InSend (a : Action PeerId)
| InPoll.

Definition run_input (inp : Input) : PSM (option (Message PeerId)) :=
  match inp with
  | InIncoming k id index => _ ← incoming k id index; mret None
  | InDropped k id reason => _ ← dropped k id reason; mret None
  | InSend a => _ ← unbounded_send a; mret None
  | InPoll => poll_next
  end.

Definition valid_input (n : nat) (inp : Input) : Prop :=
  match inp with
  | InIncoming k id _ | InDropped k id _ => (k < n)%nat /\ id ∈ U
  | InSend a => valid_action U n a
  | InPoll => True
  end.

Definition exec (inputs : list Input) : PSM unit := for_each (fun inp => _ ← run_input inp; mret tt) inputs.

(** What the messages of an operation tell about the connections. *)
Definition told (inp : Input) s ms s' : Prop :=
  match inp with
  | InIncoming k id index => exists s1, update_time s = (s1, Ok tt : res E unit) /\ answered (accepts k id s1) k id index (conn s) ms (conn s')
  | InDropped k id _ => replay (upd (conn s) k id false) ms (conn s')
  | InSend _ | InPoll => replay (conn s) ms (conn s')
  end.

(** The actions that the handles send. *)
Definition sent (inputs : list Input) : list (Action PeerId) := omap (fun inp => match inp with InSend a => Some a | _ => None end) inputs.

(** The limits are kept, and none of the waiting actions, nor of those still to
    be sent, takes a reserved peer away. *)
Definition calm (inputs : list Input) s : Prop := all_keep_reserved (reserved_nodes s) (rx s ++ sent inputs) = true /\ forall k, lim k s.

Lemma run_input_run inp s : inv s -> valid_input (num_sets (data s)) inp ->
  exists s' o ms, run_input inp s = (s', Ok o : res E _) /\ inv s' /\ num_sets (data s') = num_sets (data s) /\
    message_queue s ++ ms = option_list o ++ message_queue s' /\ told inp s ms s' /\ forall inputs, calm (inp :: inputs) s -> calm inputs s'.
Proof.
  intros [C Hst] Hv. destruct inp as [k id index|k id reason|a|]; simpl in *.
  - destruct Hv as [Hk Hid]. destruct (incoming_run (E := E) U HU k id index s C (Hst k) Hk Hid) as (s1 & s' & ms & Hrun1 & _ & Hrun & K & Hq & Ha). exists s', None, ms. rewrite (bind_Ok _ _ _ _ _ Hrun). destruct K as [KC KR Krx Kn Kst Kl].
    split_and!; [done|split; auto|done|done|eauto|]. intros inputs [Hrx Hl]. split; [by rewrite KR, Krx|auto].
  - destruct Hv as [Hk Hid]. destruct (dropped_run (E := E) U HU k id reason s C Hk) as (s' & ms & Hrun & K & Hq & Hr & _). exists s', None, ms. rewrite (bind_Ok _ _ _ _ _ Hrun). destruct K as [KC KR Krx Kn Kst Kl].
    split_and!; [done|split; auto|done|done|done|]. intros inputs [Hrx Hl]. split; [by rewrite KR, Krx|auto].
  - exists (with_rx (rx s ++ [a]) s), None, []. split; [done|]. split; [|split; [done|split; [by rewrite app_nil_r|split; [by constructor|]]]].
    + split; [|done]. destruct C as [Cd Cr Cl Cs Cu Ct Cx]. split; try done. simpl. intros a' [Ha'|Ha']%elem_of_app; [by apply Cx|]. apply list_elem_of_singleton in Ha'. by subst.
    + intros inputs [Hrx Hl]. split; [|done]. simpl. by rewrite <-app_assoc.
  - destruct (poll_next_run (E := E) U HU s C) as (s' & o & ms & Hrun & P). exists s', o, ms. destruct P as [PC Pn [l [Prx Pres Pl]] Pst Pq Pr _]. split_and!; [done|split; auto|done|done|done|].
    intros inputs [Hrx Hl]. unfold calm. rewrite Prx, <-app_assoc, all_keep_reserved_app, <-Pres, andb_true_iff in Hrx. destruct Hrx as [Hpast Hrx]. split; [exact Hrx|]. intros k. by apply Pl.
Qed.

Lemma exec_run inputs n s : inv s -> num_sets (data s) = n -> Forall (valid_input n) inputs ->
  exists s', exec inputs s = (s', Ok tt : res E unit) /\ inv s' /\ num_sets (data s') = n /\ (calm inputs s -> calm [] s').
Proof.
  revert s. induction inputs as [|inp inputs IH]; intros s I Hn Hv; [by exists s|]. unfold exec. cbn [for_each]. apply Forall_cons in Hv as [Hv Hvs].
  destruct (run_input_run inp s I ltac:(by rewrite Hn)) as (s1 & o & ms & Hrun & I1 & Hn1 & _ & _ & Hl1). erewrite bind_Ok by (erewrite bind_Ok by exact Hrun; reflexivity).
  destruct (IH s1 I1 ltac:(congruence) Hvs) as (s2 & Hrun2 & I2 & Hn2 & Hl2). exists s2. split_and!; [done|done|done|]. intros Hc. auto.
Qed.

(** Every second takes a reputation closer to zero. *)
Lemma reput_tick_towards z : i32_min <= z <= i32_max ->
  (0 <= z -> 0 <= reput_tick z <= z /\ (0 < z -> reput_tick z < z)) /\ (z <= 0 -> z <= reput_tick z <= 0 /\ (z < 0 -> z < reput_tick z)).
Proof.
  intros Hz. unfold reput_tick, saturate_i32, i32_min, i32_max in *. pose proof (Z.quot_rem' z 50) as Hq. split; intros Hs.
  - pose proof (Z.rem_bound_pos_pos z 50 ltac:(lia) Hs). destruct (Z.quot z 50 =? 0) eqn:Hq1, (z <? 0) eqn:Hq2, (0 <? z) eqn:Hq3; simpl; rewrite ?Z.eqb_eq, ?Z.eqb_neq, ?Z.ltb_lt, ?Z.ltb_ge in *; lia.
  - pose proof (Z.rem_bound_pos_neg z 50 ltac:(lia) Hs). destruct (Z.quot z 50 =? 0) eqn:Hq1, (z <? 0) eqn:Hq2, (0 <? z) eqn:Hq3; simpl; rewrite ?Z.eqb_eq, ?Z.eqb_neq, ?Z.ltb_lt, ?Z.ltb_ge in *; lia.
Qed.

Lemma reput_iter_towards n z : i32_min <= z <= i32_max -> let z' := Nat.iter n reput_tick z in (0 <= z -> 0 <= z' <= z - Z.min z (Z.of_nat n)) /\ (z <= 0 -> z + Z.min (- z) (Z.of_nat n) <= z' <= 0).
Proof.
  intros Hz. induction n as [|n [IHp IHn]]; [simpl; lia|]. rewrite Nat.iter_succ. set (y := Nat.iter n reput_tick z) in *. cbv zeta. split; intros Hs.
  - specialize (IHp Hs). destruct (reput_tick_towards y ltac:(unfold i32_min, i32_max in *; lia)) as [[Hy Hy'] _]; [lia|]. destruct (decide (0 < y)) as [Hpos|]; [specialize (Hy' Hpos); lia|lia].
  - specialize (IHn Hs). destruct (reput_tick_towards y ltac:(unfold i32_min, i32_max in *; lia)) as [_ Hneg]. destruct (Hneg ltac:(lia)) as [Hy Hy']. destruct (decide (y < 0)) as [Hlt|]; [specialize (Hy' Hlt); lia|lia].
Qed.

(** ** The properties *)

(** A state of an execution. *)
Lemma exec_inv cfg inputs s0 s : valid_config cfg -> Forall (valid_input (length cfg)) inputs -> from_config cfg = (s0, Ok tt : res E unit) -> exec inputs s0 = (s, Ok tt : res E unit) ->
  inv s /\ num_sets (data s) = length cfg.
Proof.
  intros V Hv Hs0 Hs. destruct (from_config_run cfg V) as (s0' & Hrun0 & I0 & _ & Hn0 & _ & _). rewrite Hrun0 in Hs0. injection Hs0 as ->.
  destruct (exec_run inputs (length cfg) s0 I0 Hn0 Hv) as (s' & Hrun & I & Hn & _). rewrite Hrun in Hs. by injection Hs as <-.
Qed.

(** C13. Built from any configuration and driven by any sequence of incoming
    connections, losses of connection, actions and polls that name existing
    sets, the manager never panics.  In every state it reaches, the counters of
    each set are the numbers of connected peers of the kind that are not
    reserved, fit in 32 bits, and the peers without slots are the reserved ones;
    a set that only accepts reserved peers is connected to no other; and
    reputations fit in 32 bits. *)
Theorem peerset_safe cfg inputs : valid_config cfg -> Forall (valid_input (length cfg)) inputs ->
  exists s0 s, from_config cfg = (s0, Ok tt : res E unit) /\ exec inputs s0 = (s, Ok tt : res E unit) /\
    (forall k i, sets (data s) !! k = Some i -> exists reserved only, reserved_nodes s !! k = Some (reserved, only) /\ no_slot_nodes i = reserved /\
      num_in i = Z.of_nat (size (filter (fun id => mem (data s) k id = In_ /\ id ∉ reserved) U)) /\ is_u 32 (num_in i) /\
      num_out i = Z.of_nat (size (filter (fun id => mem (data s) k id = Out_ /\ id ∉ reserved) U)) /\ is_u 32 (num_out i) /\
      (only = true -> forall id, conn s k id = true -> id ∈ reserved)) /\
    forall id, - 2 ^ 31 <= reputation_of id (data s) < 2 ^ 31.
Proof.
  intros V Hv. destruct (from_config_run cfg V) as (s0 & Hrun0 & I0 & _ & Hn0 & _ & _). destruct (exec_run inputs (length cfg) s0 I0 Hn0 Hv) as (s & Hrun & [C Hst] & Hn & _). exists s0, s. split_and!; [done|done| |].
  - intros k i Hi. destruct (reserved_known U s k C ltac:(by eapply lookup_lt_Some)) as [[X b] Hr]. pose proof (c_sync _ s C k _ i Hr Hi) as Hsync. simpl in Hsync. exists X, b.
    assert (forall m, count U (fun id => occupies (no_slot_nodes i) m (mem (data s) k id) id) = Z.of_nat (size (filter (fun id => mem (data s) k id = m /\ id ∉ X) U))) as Hcount.
    { intros m. unfold count. do 2 f_equal. apply set_eq. intros id. rewrite !elem_of_filter. unfold occupies. rewrite Hsync, andb_true_iff, negb_true_iff, bool_decide_eq_true, bool_decide_eq_false. done. }
    pose proof (ps_in U _ (c_data _ s C) k i Hi) as Hin. pose proof (ps_out U _ (c_data _ s C) k i Hi) as Hout.
    pose proof (count_bounds U HU (fun id => occupies (no_slot_nodes i) In_ (mem (data s) k id) id)). pose proof (count_bounds U HU (fun id => occupies (no_slot_nodes i) Out_ (mem (data s) k id) id)).
    split_and!; [done|done|by rewrite Hin|unfold is_u; lia|by rewrite Hout|unfold is_u; lia|]. intros -> id Hc. by apply (Hst k (X, true)).
  - intros id. pose proof (c_rep _ s C id). unfold i32_min, i32_max in *. lia.
Qed.

(** C14. The messages of the manager tell the network of every connection.  The
    messages queued by the configuration lead from no connection to those of
    the manager.  From then on, the messages a poll adds to the queue lead, in
    order, from the connections before to those after, each [Connect] for a peer
    that was not connected and each [Drop] for one that was; so do those that
    follow the loss of a connection; and an incoming connection is answered
    once, unless its peer was connected already, by [Accept] exactly when the
    set is open to the peer, its reputation is not too low and a slot is free or
    not needed. *)
Theorem peerset_messages cfg inputs inp s0 s : valid_config cfg -> Forall (valid_input (length cfg)) inputs -> valid_input (length cfg) inp ->
  from_config cfg = (s0, Ok tt : res E unit) -> exec inputs s0 = (s, Ok tt : res E unit) ->
  replay closed (message_queue s0) (conn s0) /\
  exists s' o ms, run_input inp s = (s', Ok o : res E _) /\ message_queue s ++ ms = option_list o ++ message_queue s' /\ told inp s ms s'.
Proof.
  intros V Hv Hvi Hs0 Hs. destruct (exec_inv cfg inputs s0 s V Hv Hs0 Hs) as [I Hn]. split.
  - destruct (from_config_run cfg V) as (s0' & Hrun0 & _ & _ & _ & _ & Hr). rewrite Hrun0 in Hs0. by injection Hs0 as ->.
  - destruct (run_input_run inp s I ltac:(by rewrite Hn)) as (s' & o & ms & Hrun & _ & _ & Hq & Ht & _). eauto 10.
Qed.

(** C15. The allocation of slots ends, only opens connections, announces each,
    and leaves nothing to open: either every reserved peer is connected or the
    reputation of one is too low; and, in a set open to all, either no outgoing
    slot is free or every peer of the set that is not connected has too low a
    reputation. *)
Theorem alloc_slots_spec cfg inputs k s0 s : valid_config cfg -> Forall (valid_input (length cfg)) inputs -> (k < length cfg)%nat ->
  from_config cfg = (s0, Ok tt : res E unit) -> exec inputs s0 = (s, Ok tt : res E unit) ->
  exists s' ms, alloc_slots k s = (s', Ok tt : res E unit) /\ message_queue s' = message_queue s ++ ms /\ replay (conn s) ms (conn s') /\
    (forall k' id, conn s k' id = true -> conn s' k' id = true) /\ served k s'.
Proof.
  intros V Hv Hk Hs0 Hs. destruct (exec_inv cfg inputs s0 s V Hv Hs0 Hs) as [[C _] Hn]. destruct (alloc_slots_run (E := E) U HU k s C ltac:(lia)) as (s' & ms & Hrun & [_ S] & Hm & Hsv).
  exists s', ms. split_and!; [done|apply S|apply S|done|done].
Qed.

(** The passing of time opens and closes no connection and sends no
    message.  Each reputation fades once for every second since the last
    update, by which it comes closer to zero by at least one a second and never
    crosses it; and a peer leaves a set only when it was not connected to it for
    an hour. *)
Theorem update_time_spec cfg inputs s0 s : valid_config cfg -> Forall (valid_input (length cfg)) inputs ->
  from_config cfg = (s0, Ok tt : res E unit) -> exec inputs s0 = (s, Ok tt : res E unit) ->
  exists s', update_time s = (s', Ok tt : res E unit) /\ message_queue s' = message_queue s /\ (forall k id, conn s' k id = conn s k id) /\ aged (instant (ticks s)) (data s) (data s') /\
    forall id, let z := reputation_of id (data s) in let z' := reputation_of id (data s') in z' = Nat.iter (seconds s) reput_tick z /\
      (0 <= z -> 0 <= z' <= z - Z.min z (Z.of_nat (seconds s))) /\ (z <= 0 -> z + Z.min (- z) (Z.of_nat (seconds s)) <= z' <= 0).
Proof.
  intros V Hv Hs0 Hs. destruct (exec_inv cfg inputs s0 s V Hv Hs0 Hs) as [[C _] Hn]. destruct (update_time_run (E := E) U HU s C) as (s' & Hrun & Q & Hr).
  exists s'. split_and!; [done|rewrite (s_queue _ _ _ (proj2 (proj1 Q))); by rewrite app_nil_r|apply (quiet_conn _ _ _ _ Q)|apply Q|].
  intros id. cbv zeta. split; [apply Hr|]. rewrite Hr. apply reput_iter_towards. apply (c_rep _ s C).
Qed.

(** C16. As long as no reserved peer is removed, the slots in use stay within
    the limits of each set.  The actions sent are followed from the reserved
    peers of the configuration: a [RemoveReservedPeer] must name a peer that is
    not reserved at that point, a [SetReservedPeers] must contain those that
    are; all others are free, and so are incoming connections, losses and polls
    at any time.  (Removing a connected reserved peer gives it a slot even if
    none is free: [removal_exceeds_limits].) *)
Theorem peerset_limits cfg inputs : valid_config cfg -> Forall (valid_input (length cfg)) inputs ->
  all_keep_reserved (initially_reserved cfg) (sent inputs) = true ->
  exists s0 s, from_config cfg = (s0, Ok tt : res E unit) /\ exec inputs s0 = (s, Ok tt : res E unit) /\
    forall k i, sets (data s) !! k = Some i -> num_in i <= max_in i /\ num_out i <= max_out i.
Proof.
  intros V Hv Hcalm. destruct (from_config_run cfg V) as (s0 & Hrun0 & I0 & Hl0 & Hn0 & [Hrx Hres] & _). destruct (exec_run inputs (length cfg) s0 I0 Hn0 Hv) as (s & Hrun & _ & _ & Hl).
  exists s0, s. split_and!; [done|done|]. destruct Hl as [_ Hlim]; [split; [by rewrite Hrx, Hres|done]|]. exact Hlim.
Qed.
End reach.

(** ** An example *)

Module PeersetDemo.
#[local] Instance demo_checks : OverflowChecks := true.
#[local] Instance demo_hash : HashOrder nat := {| hash_iter X := elements X; hash_iter_perm X := Permutation_refl _ |}.

(** A reading of the clock every 100 milliseconds, for 1000 seconds. *)
#[local] Instance demo_clock : Clock.
Proof. refine {| instant n := Z.min (Z.of_nat n * 100000000) 1000000000000 |}; intros n; unfold nanos; lia. Defined.

#[local] Instance demo_timer : Timer := {| timer_fired := Nat.even |}.

Definition U : gset nat := list_to_set (seq 0 10).

Lemma U_size : Z.of_nat (size U) < 2 ^ 32.
Proof. by vm_compute. Qed.

(** A set with one slot each way, and one that only accepts its reserved peer. *)
Definition cfg : list (SetConfig nat) := [mkSetConfig 1 1 [1; 2; 3]%nat {[4%nat]} false; mkSetConfig 2 0 [] {[5%nat]} true].

Lemma cfg_valid : valid_config U cfg.
Proof. repeat constructor; simpl; try lia; try (by apply (bool_decide_unpack _); vm_compute); intros id Hid; by repeat (apply elem_of_cons in Hid as [->|Hid]; [by apply (bool_decide_unpack _); vm_compute|]); apply elem_of_nil in Hid. Qed.

(** Two incoming connections for one slot, one to the reserved set, the loss of
    a connection, and a fatal report. *)
Definition inputs : list (Input (PeerId := nat)) :=
  [InPoll; InIncoming 0 6%nat 100; InIncoming 0 7%nat 101; InIncoming 1 6%nat 102; InDropped 0 4%nat DropUnknown; InSend (ReportPeer 6%nat new_fatal)] ++ repeat InPoll 8.

Lemma inputs_valid : Forall (valid_input U (length cfg)) inputs.
Proof. repeat constructor; simpl; try lia; by apply (bool_decide_unpack _); vm_compute. Qed.

Definition start : Peerset nat := (from_config (E := unit) cfg).1.
Definition end_ : Peerset nat := (exec (E := unit) inputs start).1.

Lemma start_ok : from_config (E := unit) cfg = (start, Ok tt).
Proof. by vm_compute. Qed.

Lemma end_ok : exec (E := unit) inputs start = (end_, Ok tt).
Proof. by vm_compute. Qed.

Lemma peerset_safe_witness : valid_config U cfg /\ Forall (valid_input U (length cfg)) inputs /\
  exists s0 s, from_config (E := unit) cfg = (s0, Ok tt) /\ exec (E := unit) inputs s0 = (s, Ok tt) /\ forall id, - 2 ^ 31 <= reputation_of id (data s) < 2 ^ 31.
Proof.
  split; [exact cfg_valid|]. split; [exact inputs_valid|].
  destruct (peerset_safe (E := unit) U U_size cfg inputs cfg_valid inputs_valid) as (s0 & s & H0 & Hs & _ & Hr). exists s0, s. split; [exact H0|]. split; [exact Hs|exact Hr].
Defined.

(** The poll that handles the report drops the peer. *)
Lemma peerset_messages_witness : let s := (exec (E := unit) (take 12 inputs) start).1 in
  exists s' o ms, run_input (E := unit) InPoll s = (s', Ok o) /\ message_queue s ++ ms = option_list o ++ message_queue s' /\ replay (conn s) ms (conn s').
Proof.
  cbv zeta. assert (Forall (valid_input U (length cfg)) (take 12 inputs)) as Hv by (apply Forall_take; exact inputs_valid).
  assert (exec (E := unit) (take 12 inputs) start = ((exec (E := unit) (take 12 inputs) start).1, Ok tt)) as Hrun by (by vm_compute).
  destruct (peerset_messages (E := unit) U U_size cfg (take 12 inputs) InPoll start _ cfg_valid Hv Logic.I start_ok Hrun) as (_ & s' & o & ms & Hs & Hq & Ht).
  exists s', o, ms. split; [exact Hs|]. split; [exact Hq|exact Ht].
Defined.

Lemma alloc_slots_spec_witness : exists s' ms, alloc_slots (E := unit) 0 end_ = (s', Ok tt) /\ message_queue s' = message_queue end_ ++ ms /\ served 0 s'.
Proof.
  destruct (alloc_slots_spec (E := unit) U U_size cfg inputs 0 start end_ cfg_valid inputs_valid ltac:(simpl; lia) start_ok end_ok) as (s' & ms & Hs & Hq & _ & _ & Hv).
  exists s', ms. split; [exact Hs|]. split; [exact Hq|exact Hv].
Defined.

Lemma update_time_spec_witness : exists s', update_time (E := unit) end_ = (s', Ok tt) /\ message_queue s' = message_queue end_ /\ forall k id, conn s' k id = conn end_ k id.
Proof.
  destruct (update_time_spec (E := unit) U U_size cfg inputs start end_ cfg_valid inputs_valid start_ok end_ok) as (s' & Hs & Hq & Hc & _).
  exists s'. split; [exact Hs|]. split; [exact Hq|exact Hc].
Defined.

(** A peer joins the reserved ones, and one that is not reserved is removed. *)
Definition reserving : list (Input (PeerId := nat)) :=
  inputs ++ [InSend (SetReservedPeers 0 {[4%nat; 8%nat]}); InSend (RemoveReservedPeer 0 9%nat); InPoll; InPoll; InPoll].

Lemma reserving_valid : Forall (valid_input U (length cfg)) reserving.
Proof. apply Forall_app. split; [exact inputs_valid|]. repeat constructor; simpl; try lia; by apply (bool_decide_unpack _); vm_compute. Qed.

Lemma peerset_limits_witness : exists s0 s, from_config (E := unit) cfg = (s0, Ok tt) /\ exec (E := unit) reserving s0 = (s, Ok tt) /\
  forall k i, sets (data s) !! k = Some i -> num_in i <= max_in i /\ num_out i <= max_out i.
Proof. apply (peerset_limits (E := unit) U U_size cfg reserving cfg_valid reserving_valid). by vm_compute. Defined.

(** A reserved peer that is connected takes a slot when it is removed, although
    none is free. *)
Example removal_exceeds_limits : let s := (exec (E := unit) (InSend (RemoveReservedPeer 0 4%nat) :: repeat InPoll 4) start).1 in
  (fun i => (num_out i, max_out i)) <$> sets (data s) !! 0%nat = Some (2, 1).
Proof. by vm_compute. Qed.

(** A reserved peer with a low reputation keeps those that come after it from
    being connected. *)
Example banned_reserved_blocks : let s := (exec (E := unit) ([InSend (ReportPeer 4%nat new_fatal); InSend (SetReservedPeers 0 {[4; 8; 9]}%nat)] ++ repeat InPoll 9) start).1 in
  (fun id => (conn s 0 id, BANNED_THRESHOLD <=? reputation_of id (data s))) <$> [4; 8; 9]%nat = [(false, false); (true, true); (false, true)].
Proof. by vm_compute. Qed.
End PeersetDemo.
