(* ===== verification/StateDb.v ===== *)
(** * The pruning window of the state database

    Model of [client/state-db/src/pruning.rs] and of the types and the meta
    keys of [client/state-db/src/lib.rs] it uses: the queue of keys that each
    canonical block has deleted, the index of re-inserted keys, the journal in
    the database from which the window is rebuilt, and pending changes.

    Bytes are integers.  The codec is another crate: encodings are parameters
    of a class with the laws the code relies on.  A [HashSet] is iterated in the
    order of [elements]. *)

From Stdlib Require Import ZArith Lia.
From stdpp Require Import gmap fin_maps option list.
From S2P Require Import Prelude.

Local Open Scope Z_scope.
Local Open Scope rust_scope.

(** ** Types of the state database *)
Definition bytes : Type := list Z.

Inductive Error (DbError : Type) : Type :=
| DbErr (e : DbError)
| Decoding
| InvalidBlock
| InvalidBlockNumber
| InvalidParent
| InvalidPruningMode (mode : bytes)
| TooManySiblingBlocks.

Arguments DbErr {DbError} e.
Arguments Decoding {DbError}.
Arguments InvalidBlock {DbError}.
Arguments InvalidBlockNumber {DbError}.
Arguments InvalidParent {DbError}.
Arguments InvalidPruningMode {DbError} mode.
Arguments TooManySiblingBlocks {DbError}.

Record ChangeSet (H : Type) : Type := mkChangeSet {
  inserted : list (H * bytes);
  deleted : list H }.

Arguments mkChangeSet {H} inserted deleted.
Arguments inserted {H} _.
Arguments deleted {H} _.

Record CommitSet (H : Type) : Type := mkCommitSet {
  commit_data : ChangeSet H;
  commit_meta : ChangeSet bytes }.

Arguments mkCommitSet {H} commit_data commit_meta.
Arguments commit_data {H} _.
Arguments commit_meta {H} _.

#[export] Instance ChangeSet_default H : Default (ChangeSet H) := mkChangeSet [] [].
#[export] Instance CommitSet_default H : Default (CommitSet H) := mkCommitSet dflt dflt.

(** [Vec::push] and [Vec::extend] on the parts of a commit. *)
Definition push_meta {H} (k v : bytes) (c : CommitSet H) : CommitSet H :=
  mkCommitSet (commit_data c) (mkChangeSet (inserted (commit_meta c) ++ [(k, v)]) (deleted (commit_meta c))).
Definition delete_meta {H} (ks : list bytes) (c : CommitSet H) : CommitSet H :=
  mkCommitSet (commit_data c) (mkChangeSet (inserted (commit_meta c)) (deleted (commit_meta c) ++ ks)).
Definition delete_data {H} (ks : list H) (c : CommitSet H) : CommitSet H :=
  mkCommitSet (mkChangeSet (inserted (commit_data c)) (deleted (commit_data c) ++ ks)) (commit_meta c).
Definition take_deleted {H} (c : CommitSet H) : CommitSet H :=
  mkCommitSet (mkChangeSet (inserted (commit_data c)) []) (commit_meta c).

(** [parity_scale_codec]: the values of a type that its decoder reads back. *)
Class Codec (A : Type) : Type := {
  encode : A -> bytes;
  decode : bytes -> option A }.

Class CodecLaws (A : Type) `{Codec A} (valid : A -> Prop) : Prop :=
  decode_encode a : valid a -> decode (encode a) = Some a.

Definition to_meta_key {S} `{Codec S} (suffix : bytes) (data : S) : bytes := encode data ++ suffix.

(** [b"last_pruned"] and [b"pruning_journal"]. *)
Definition LAST_PRUNED : bytes := [108; 97; 115; 116; 95; 112; 114; 117; 110; 101; 100].
Definition PRUNING_JOURNAL : bytes := [112; 114; 117; 110; 105; 110; 103; 95; 106; 111; 117; 114; 110; 97; 108].

(** ** The database

    The column of trie nodes and the column of metadata.  Writes of a commit
    reach each column in the order of [client/db]'s [apply_state_commit]. *)
Record Db (Key : Type) `{Countable Key} : Type := mkDb {
  db_data : gmap Key bytes;
  db_meta : gmap bytes bytes }.

Arguments mkDb {Key _ _} db_data db_meta.
Arguments db_data {Key _ _} _.
Arguments db_meta {Key _ _} _.

Definition apply_changes {K} `{Countable K} (c : ChangeSet K) (m : gmap K bytes) : gmap K bytes :=
  foldl (fun m k => delete k m) (foldl (fun m p => <[p.1 := p.2]> m) m (inserted c)) (deleted c).

Definition apply_state_commit {Key} `{Countable Key} (db : Db Key) (commit : CommitSet Key) : Db Key :=
  mkDb (apply_changes (commit_data commit) (db_data db)) (apply_changes (commit_meta commit) (db_meta db)).

(** ** The window *)
Record DeathRow (H Key : Type) `{Countable Key} : Type := mkRow {
  row_hash : H;
  row_journal_key : bytes;
  row_deleted : gset Key }.

Arguments mkRow {H Key _ _} row_hash row_journal_key row_deleted.
Arguments row_hash {H Key _ _} _.
Arguments row_journal_key {H Key _ _} _.
Arguments row_deleted {H Key _ _} _.

Record JournalRecord (H Key : Type) : Type := mkRecord {
  rec_hash : H;
  rec_inserted : list Key;
  rec_deleted : list Key }.

Arguments mkRecord {H Key} rec_hash rec_inserted rec_deleted.
Arguments rec_hash {H Key} _.
Arguments rec_inserted {H Key} _.
Arguments rec_deleted {H Key} _.

Record RefWindow (H Key : Type) `{Countable Key} : Type := mkWindow {
  death_rows : list (DeathRow H Key);
  death_index : gmap Key Z;
  pending_number : Z;
  pending_canonicalizations : nat;
  pending_prunings : nat;
  count_insertions : bool }.

Arguments mkWindow {H Key _ _} death_rows death_index pending_number pending_canonicalizations pending_prunings count_insertions.
Arguments death_rows {H Key _ _} _.
Arguments death_index {H Key _ _} _.
Arguments pending_number {H Key _ _} _.
Arguments pending_canonicalizations {H Key _ _} _.
Arguments pending_prunings {H Key _ _} _.
Arguments count_insertions {H Key _ _} _.

Section window.
Context {OC : OverflowChecks} {H Key DbError : Type} `{Countable Key}.
Context `{Codec unit} `{Codec Z} `{Codec (JournalRecord H Key)}.
Context `{EqDecision H}.

Abbreviation W := (RefWindow H Key).
Abbreviation Commit := (CommitSet Key).

Definition to_journal_key (block : Z) : bytes := to_meta_key PRUNING_JOURNAL block.

Definition with_rows (f : list (DeathRow H Key) -> list (DeathRow H Key)) (w : W) : W :=
  mkWindow (f (death_rows w)) (death_index w) (pending_number w) (pending_canonicalizations w) (pending_prunings w) (count_insertions w).
Definition with_index (f : gmap Key Z -> gmap Key Z) (w : W) : W :=
  mkWindow (death_rows w) (f (death_index w)) (pending_number w) (pending_canonicalizations w) (pending_prunings w) (count_insertions w).
Definition with_pending (number : Z) (canonicalizations prunings : nat) (w : W) : W :=
  mkWindow (death_rows w) (death_index w) number canonicalizations prunings (count_insertions w).

Definition row_remove (k : Key) (r : DeathRow H Key) : DeathRow H Key :=
  mkRow (row_hash r) (row_journal_key r) (row_deleted r ∖ {[k]}).

(** A key inserted again leaves the row that would delete it. *)
Definition reinsert {E} (k : Key) : M W E unit :=
  index ← gets death_index;
  match index !! k with
  | Some block =>
    _ ← modify (with_index (delete k));
    number ← gets pending_number;
    i ← lift (usub 64 block number);
    rows ← gets death_rows;
    row ← lift (expect (rows !! Z.to_nat i));
    modify (with_rows <[Z.to_nat i := row_remove k row]>)
  | None => mret tt
  end.

Definition import {E} (hash : H) (journal_key : bytes) (inserted deleted : list Key) : M W E unit :=
  counting ← gets count_insertions;
  _ ← (if counting : bool then
         _ ← for_each reinsert inserted;
         number ← gets pending_number;
         len ← gets (fun w => length (death_rows w));
         imported_block ← lift (uadd 64 number (Z.of_nat len));
         for_each (fun k => modify (with_index <[k := imported_block]>)) deleted
       else mret tt);
  modify (with_rows (fun rows => rows ++ [mkRow hash journal_key (list_to_set deleted)])).

Definition window_size {E} (self : W) : res E Z :=
  usub 64 (Z.of_nat (length (death_rows self))) (Z.of_nat (pending_prunings self)).

Definition next_hash (self : W) : option H := row_hash <$> (death_rows self !! pending_prunings self).

Definition mem_used (self : W) : Z := 0.

Definition pending {E} (self : W) : res E Z := uadd 64 (pending_number self) (Z.of_nat (pending_prunings self)).

Definition have_block (self : W) (hash : H) : bool :=
  existsb (fun r => bool_decide (row_hash r = hash)) (drop (pending_prunings self) (death_rows self)).

Definition prune_one {E} (commit : Commit) : M W E Commit :=
  self ← get;
  match death_rows self !! pending_prunings self with
  | Some pruned =>
    index ← lift (uadd 64 (pending_number self) (Z.of_nat (pending_prunings self)));
    let commit := delete_data (elements (row_deleted pruned)) commit in
    let commit := push_meta (to_meta_key LAST_PRUNED tt) (encode index) commit in
    let commit := delete_meta [row_journal_key pruned] commit in
    _ ← modify (with_pending (pending_number self) (pending_canonicalizations self) (S (pending_prunings self)));
    mret commit
  | None => mret commit
  end.

Definition note_canonical {E} (hash : H) (commit : Commit) : M W E Commit :=
  self ← get;
  let inserted := if count_insertions self then fst <$> inserted (commit_data commit) else [] in
  let deleted := deleted (commit_data commit) in
  let commit := take_deleted commit in
  let journal_record := mkRecord hash inserted deleted in
  block ← lift (uadd 64 (pending_number self) (Z.of_nat (length (death_rows self))));
  let journal_key := to_journal_key block in
  let commit := push_meta journal_key (encode journal_record) commit in
  _ ← import (rec_hash journal_record) journal_key (rec_inserted journal_record) (rec_deleted journal_record);
  _ ← modify (fun w => with_pending (pending_number w) (S (pending_canonicalizations w)) (pending_prunings w) w);
  mret commit.

(** One round of the loop of [apply_pending]. *)
Definition apply_pruning {E} : M W E unit :=
  self ← get;
  match death_rows self with
  | [] => lift Panic
  | pruned :: rows =>
    _ ← modify (with_rows (fun _ => rows));
    _ ← (if count_insertions self
         then for_each (fun k => modify (with_index (delete k))) (elements (row_deleted pruned))
         else mret tt);
    number ← lift (uadd 64 (pending_number self) 1);
    modify (fun w => with_pending number (pending_canonicalizations w) (pending_prunings w) w)
  end.

Definition apply_pending {E} : M W E unit :=
  _ ← modify (fun w => with_pending (pending_number w) 0 (pending_prunings w) w);
  n ← gets pending_prunings;
  _ ← for_each (fun _ => apply_pruning) (seq 0 n);
  modify (fun w => with_pending (pending_number w) (pending_canonicalizations w) 0 w).

Definition revert_pending {E} : M W E unit :=
  self ← get;
  n ← lift (usub 64 (Z.of_nat (length (death_rows self))) (Z.of_nat (pending_canonicalizations self)));
  _ ← modify (with_rows (take (Z.to_nat n)));
  _ ← (if count_insertions self then
         len ← gets (fun w => length (death_rows w));
         new_max_block ← lift (uadd 64 (Z.of_nat len) (pending_number self));
         modify (with_index (filter (fun p => p.2 < new_max_block)))
       else mret tt);
  modify (fun w => with_pending (pending_number w) 0 0 w).

(** *** Reading the journal

    [get_meta] is the database.  The loop runs once per record and once more,
    so it is given as much fuel. *)
Fixpoint read_journal (fuel : nat) (get_meta : bytes -> res DbError (option bytes)) (block : Z) : M W (Error DbError) unit :=
  match fuel with
  | O => lift Panic
  | S fuel =>
    let journal_key := to_journal_key block in
    found ← lift (map_err DbErr (get_meta journal_key));
    match found with
    | Some record =>
      record ← lift (ok_or (decode record) Decoding);
      _ ← import (rec_hash record) journal_key (rec_inserted record) (rec_deleted record);
      block ← lift (uadd 64 block 1);
      read_journal fuel get_meta block
    | None => mret tt
    end
  end.

Definition RefWindow_new (fuel : nat) (get_meta : bytes -> res DbError (option bytes)) (count_insertions : bool) :
    res (Error DbError) W :=
  last_pruned ← map_err DbErr (get_meta (to_meta_key LAST_PRUNED tt));
  pending_number ← (match last_pruned with
                    | Some buffer => n ← ok_or (decode buffer) Decoding; uadd 64 n 1
                    | None => Ok 0
                    end);
  match read_journal fuel get_meta pending_number (mkWindow [] ∅ pending_number 0 0 count_insertions) with
  | (pruning, Ok _) => Ok pruning
  | (_, Err e) => Err e
  | (_, Panic) => Panic
  end.
End window.
