(* ===== verification/PruningSpec.v ===== *)
(** * What the pruning window promises

    The abstract history of canonical states, and the proof that the window of
    [StateDb] implements it over a database with transactions: nodes of the
    states in the window stay in the database, nothing else does, and the
    journal rebuilds the window. *)

From Stdlib Require Import ZArith Lia.
From stdpp Require Import gmap fin_maps fin_sets option list.
From S2P Require Import Prelude StateDb.

Local Open Scope Z_scope.
Local Open Scope rust_scope.

(** ** Histories of states *)
Section history.
Context {H Key : Type} `{Countable Key}.
Abbreviation Block := (JournalRecord H Key).
Implicit Types b : Block.
Implicit Types bs : list Block.
Implicit Types X : gset Key.

Definition block_ins b : gset Key := list_to_set (rec_inserted b).
Definition block_del b : gset Key := list_to_set (rec_deleted b).

(** The keys of the state after a block, and after several. *)
Definition next_state X b : gset Key := (X ∪ block_ins b) ∖ block_del b.
Definition state_at X bs : gset Key := foldl next_state X bs.

(** Every key some block inserts. *)
Definition inserts bs : gset Key := ⋃ (block_ins <$> bs).

(** The keys no state needs any more once the first block is forgotten, for
    each block of the list. *)
Fixpoint doomed bs : list (gset Key) :=
  match bs with
  | [] => []
  | b :: bs => block_del b ∖ inserts bs :: doomed bs
  end.

(** A block deletes only keys that exist, and none that it inserts. *)
Fixpoint disciplined X bs : Prop :=
  match bs with
  | [] => True
  | b :: bs => block_del b ⊆ X /\ block_ins b ## block_del b /\ disciplined (next_state X b) bs
  end.

Lemma inserts_app bs bs' : inserts (bs ++ bs') = inserts bs ∪ inserts bs'.
Proof. unfold inserts. rewrite fmap_app, union_list_app_L. done. Qed.

Lemma inserts_cons b bs : inserts (b :: bs) = block_ins b ∪ inserts bs.
Proof. done. Qed.

Lemma inserts_single b : inserts [b] = block_ins b.
Proof. rewrite inserts_cons. unfold inserts. simpl. set_solver. Qed.

Lemma state_at_app X bs bs' : state_at X (bs ++ bs') = state_at (state_at X bs) bs'.
Proof. apply foldl_app. Qed.

Lemma disciplined_app X bs bs' : disciplined X (bs ++ bs') <-> disciplined X bs /\ disciplined (state_at X bs) bs'.
Proof. revert X. induction bs as [|b bs IH]; intros X; simpl; [tauto|]. rewrite IH. tauto. Qed.

Lemma doomed_length bs : length (doomed bs) = length bs.
Proof. induction bs; simpl; congruence. Qed.

Lemma doomed_snoc bs b : doomed (bs ++ [b]) = ((.∖ block_ins b) <$> doomed bs) ++ [block_del b].
Proof.
  induction bs as [|c bs IH]; simpl.
  - f_equal. unfold inserts. simpl. set_solver.
  - rewrite IH, inserts_app, inserts_single. f_equal. set_solver.
Qed.

Lemma doomed_drop n bs : drop n (doomed bs) = doomed (drop n bs).
Proof. revert n. induction bs as [|b bs IH]; intros [|n]; simpl; auto. Qed.

(** A key that waits for its deletion is in no later state. *)
Lemma state_at_sub X bs : state_at X bs ⊆ X ∪ inserts bs.
Proof.
  revert X. induction bs as [|b bs IH]; intros X; simpl; [set_solver|].
  rewrite inserts_cons, IH. unfold next_state. set_solver.
Qed.

Lemma doomed_not_live X bs i D k : doomed bs !! i = Some D -> k ∈ D -> k ∉ state_at X bs.
Proof.
  revert X i. induction bs as [|b bs IH]; intros X [|i]; simpl; [done..| |by apply IH].
  intros [= <-] Hk Hin. apply state_at_sub in Hin. unfold next_state in Hin. set_solver.
Qed.

(** Without the later blocks more is doomed. *)
Lemma doomed_take n bs i D D' : doomed bs !! i = Some D -> doomed (take n bs) !! i = Some D' -> D ⊆ D'.
Proof.
  revert n i. induction bs as [|b bs IH]; intros [|n] [|i]; simpl; intros HD HD'; simplify_eq; [|by eapply IH].
  rewrite <-(take_drop n bs) at 1. rewrite inserts_app. set_solver.
Qed.

(** The union of the states after each of the first blocks on. *)
Definition held X (gone : nat) bs : gset Key := state_at X (take gone bs) ∪ inserts (drop gone bs).

Lemma held_snoc X gone bs b : (gone <= length bs)%nat -> held X gone (bs ++ [b]) = held X gone bs ∪ block_ins b.
Proof.
  intros. unfold held. rewrite take_app_le, drop_app_le by done. rewrite inserts_app, inserts_single. set_solver.
Qed.

Lemma held_prune X gone bs D : doomed bs !! gone = Some D -> held X (S gone) bs = held X gone bs ∖ D.
Proof.
  intros Hd. assert (exists b, bs !! gone = Some b) as [b Hb].
  { apply lookup_lt_is_Some. rewrite <-doomed_length. by apply lookup_lt_is_Some; eexists. }
  assert (D = block_del b ∖ inserts (drop (1 + gone) bs)) as ->.
  { rewrite <-(Nat.add_0_r gone), <-lookup_drop, doomed_drop in Hd. rewrite (drop_S _ _ _ Hb) in Hd. by simplify_eq/=. }
  unfold held. rewrite (drop_S _ _ _ Hb), (take_S_r _ _ _ Hb).
  rewrite state_at_app, inserts_cons. simpl. unfold next_state.
  generalize (state_at X (take gone bs)) (inserts (drop (S gone) bs)). intros A B.
  apply set_eq. intros k. rewrite !elem_of_union, !elem_of_difference, !elem_of_union.
  destruct (decide (k ∈ B)), (decide (k ∈ block_del b)); naive_solver.
Qed.

(** What is held is what some state after the first blocks needs. *)
Lemma held_states X gone n bs : (gone <= n)%nat -> state_at X (take n bs) ⊆ held X gone bs.
Proof.
  intros Hn. unfold held. assert (take n bs = take gone bs ++ take (n - gone) (drop gone bs)) as ->.
  { rewrite <-(take_drop gone (take n bs)). by rewrite take_take, Nat.min_l, skipn_firstn_comm by lia. }
  rewrite state_at_app. etrans; [apply state_at_sub|]. rewrite <-(take_drop (n - gone) (drop gone bs)) at 2.
  rewrite inserts_app. set_solver.
Qed.

Lemma state_gains X bs n b k : disciplined X bs -> bs !! n = Some b -> k ∈ block_ins b -> k ∈ state_at X (take (1 + n) bs).
Proof.
  intros Hd Hb Hk. change (1 + n)%nat with (S n). rewrite (take_S_r _ _ _ Hb), state_at_app. simpl.
  rewrite <-(take_drop_middle _ _ _ Hb) in Hd. apply disciplined_app in Hd as [_ (_ & Hdis & _)].
  unfold next_state. set_solver.
Qed.

Lemma held_spec X gone bs k : disciplined X bs -> (gone <= length bs)%nat ->
  k ∈ held X gone bs <-> exists n, (gone <= n <= length bs)%nat /\ k ∈ state_at X (take n bs).
Proof.
  intros Hd Hg. split.
  - unfold held, inserts. intros [Hk|(Y & (b & -> & [i Hi]%list_elem_of_lookup)%list_elem_of_fmap & Hk)%elem_of_union_list]%elem_of_union.
    + exists gone. split; [lia|done].
    + rewrite lookup_drop in Hi. exists (1 + (gone + i))%nat. split; [apply lookup_lt_Some in Hi; lia|].
      by eapply state_gains.
  - intros (n & Hn & Hk). apply (held_states X gone n); [lia|done].
Qed.
End history.

(** ** The operations of the window *)
Section operations.
Context {OC : OverflowChecks} {H Key E : Type} `{Countable Key} `{Codec unit} `{Codec Z} `{Codec (JournalRecord H Key)}.
Abbreviation W := (RefWindow H Key).
Abbreviation Block := (JournalRecord H Key).
Implicit Types w : W.

(** The index lists the keys of the rows, each under the block of its row. *)
Definition indexed w : Prop := forall k n,
  death_index w !! k = Some n <->
  exists i r, death_rows w !! i = Some r /\ k ∈ row_deleted r /\ n = pending_number w + Z.of_nat i.

Definition row_drop (ks : gset Key) (r : DeathRow H Key) : DeathRow H Key :=
  mkRow (row_hash r) (row_journal_key r) (row_deleted r ∖ ks).

(** The window after the keys [ks] were inserted again. *)
Definition reinserted (ks : list Key) w : W :=
  with_rows (fmap (row_drop (list_to_set ks))) (with_index (filter (fun p => p.1 ∉ ks)) w).

Definition in_range w : Prop := 0 <= pending_number w /\ pending_number w + Z.of_nat (length (death_rows w)) < 2 ^ 64.

Lemma row_drop_none r : row_drop ∅ r = r.
Proof. destruct r. unfold row_drop. simpl. f_equal. set_solver. Qed.

Lemma row_drop_out k r : k ∉ row_deleted r -> row_drop {[k]} r = r.
Proof. destruct r. unfold row_drop. simpl. intros. f_equal. set_solver. Qed.

Lemma reinserted_nil w : reinserted [] w = w.
Proof.
  destruct w. unfold reinserted, with_rows, with_index. simpl. f_equal.
  - rewrite <-(list_fmap_id death_rows) at 2. apply list_fmap_ext. intros. apply row_drop_none.
  - apply map_filter_id. intros. set_solver.
Qed.

Lemma reinserted_cons k ks w : reinserted ks (reinserted [k] w) = reinserted (k :: ks) w.
Proof.
  destruct w. unfold reinserted, with_rows, with_index. simpl. f_equal.
  - rewrite <-list_fmap_compose. apply list_fmap_ext. intros _ [h j D] _. unfold row_drop. simpl. f_equal. set_solver.
  - rewrite map_filter_filter. apply map_filter_ext. intros. simpl. set_solver.
Qed.

Lemma reinserted_index k w : with_index (delete k) w = with_index (filter (fun p => p.1 ∉ [k])) w.
Proof.
  destruct w. unfold with_index. simpl. f_equal. apply map_eq. intros j.
  rewrite map_lookup_filter, lookup_delete. case_decide as Hj.
  - subst. destruct (_ !! j); simpl; [|done]. rewrite option_guard_False; [done|set_solver].
  - destruct (_ !! j); simpl; [|done]. rewrite option_guard_True; [done|set_solver].
Qed.

Lemma indexed_reinserted ks w : indexed w -> indexed (reinserted ks w).
Proof.
  intros Hi k n. simpl. rewrite map_lookup_filter_Some, (Hi k n). simpl. split.
  - intros [(i & r & Hr & Hk & ->) Hks]. exists i, (row_drop (list_to_set ks) r). rewrite list_lookup_fmap, Hr. simpl. set_solver.
  - intros (i & r' & Hr & Hk & ->). rewrite list_lookup_fmap in Hr. destruct (death_rows w !! i) as [r|] eqn:Hri; simplify_eq/=.
    split; [|set_solver]. exists i, r. set_solver.
Qed.

(** Each key is in one row only. *)
Lemma indexed_unique w i j r r' k : indexed w -> death_rows w !! i = Some r -> death_rows w !! j = Some r' ->
  k ∈ row_deleted r -> k ∈ row_deleted r' -> i = j.
Proof.
  intros Hi Hr Hr' Hk Hk'.
  assert (death_index w !! k = Some (pending_number w + Z.of_nat i)) as Hni by (apply Hi; eauto).
  assert (death_index w !! k = Some (pending_number w + Z.of_nat j)) as Hnj by (apply Hi; eauto).
  rewrite Hni in Hnj. simplify_eq. lia.
Qed.

Lemma reinsert_run k w : indexed w -> in_range w -> reinsert (E := E) k w = (reinserted [k] w, Ok tt).
Proof.
  intros Hi [Hp Hl]. unfold reinsert. erewrite bind_Ok by reflexivity. unfold reinserted. rewrite <-reinserted_index.
  simpl. rewrite union_empty_r_L. destruct (death_index w !! k) as [n|] eqn:Hn.
  - apply Hi in Hn as (i & r & Hr & Hk & ->). pose proof (lookup_lt_Some _ _ _ Hr).
    do 2 erewrite bind_Ok by reflexivity. simpl. rewrite usub_ok by (unfold is_u; lia).
    erewrite bind_Ok by reflexivity. replace (_ - _) with (Z.of_nat i) by lia. rewrite Nat2Z.id.
    erewrite bind_Ok by reflexivity. erewrite bind_Ok by (unfold lift; simpl; rewrite Hr; reflexivity).
    unfold modify. f_equal. unfold with_rows. simpl. f_equal. apply list_eq. intros j.
    rewrite list_lookup_fmap. destruct (decide (i = j)) as [<-|Hij].
    + rewrite list_lookup_insert_eq by done. by rewrite Hr.
    + rewrite list_lookup_insert_ne by done. destruct (death_rows w !! j) as [r'|] eqn:Hj; [|done]. simpl.
      rewrite row_drop_out; [done|]. intros Hk'. by destruct Hij; eapply indexed_unique.
  - unfold mret, M_mret. f_equal. destruct w as [rows index]. unfold with_rows, with_index. simpl in *.
    rewrite delete_id by done. f_equal. rewrite <-(list_fmap_id rows) at 1. apply list_fmap_ext. intros i r Hr.
    simpl. rewrite row_drop_out; [done|]. intros Hk.
    assert (index !! k <> None) as []; [|done]. apply not_eq_None_Some. eexists. apply Hi. simpl. eauto.
Qed.

Lemma reinsert_loop ks w : indexed w -> in_range w -> for_each (reinsert (E := E)) ks w = (reinserted ks w, Ok tt).
Proof.
  revert w. induction ks as [|k ks IH]; intros w Hi Hr; simpl; [by rewrite reinserted_nil|].
  rewrite (bind_Ok _ _ _ _ _ (reinsert_run k w Hi Hr)), IH, reinserted_cons; [done|by apply indexed_reinserted|].
  unfold in_range, reinserted. simpl. by rewrite length_fmap.
Qed.

(** *** Import of a block *)
Definition imported (hash : H) (journal_key : bytes) (ins del : list Key) w : W :=
  with_rows (fun rows => rows ++ [mkRow hash journal_key (list_to_set del)])
    (with_index (fun m => gset_to_gmap (pending_number w + Z.of_nat (length (death_rows w))) (list_to_set del) ∪ m)
      (reinserted ins w)).

Lemma index_loop n ks w :
  for_each (E := E) (fun k => modify (with_index <[k := n]>)) ks w =
  (with_index (fun m => gset_to_gmap n (list_to_set ks) ∪ m) w, Ok tt).
Proof.
  revert w. induction ks as [|k ks IH]; intros w; simpl.
  - destruct w. unfold with_index, mret, M_mret. simpl. rewrite gset_to_gmap_empty. by rewrite (left_id_L ∅ (∪)).
  - erewrite bind_Ok by reflexivity. rewrite IH. destruct w. unfold with_index. simpl. do 2 f_equal. apply map_eq. intros j.
    rewrite !lookup_union, !lookup_gset_to_gmap, lookup_insert. 
    repeat case_guard; case_decide; destruct (_ !! j); simplify_eq/=; first [done|exfalso; set_solver].
Qed.

Lemma window_import_run hash journal_key ins del w : indexed w -> in_range w -> count_insertions w = true ->
  import (E := E) hash journal_key ins del w = (imported hash journal_key ins del w, Ok tt).
Proof.
  intros Hi Hr Hc. unfold import. erewrite bind_Ok by reflexivity. rewrite Hc.
  erewrite bind_Ok; [reflexivity|]. rewrite (bind_Ok _ _ _ _ _ (reinsert_loop ins w Hi Hr)).
  do 2 erewrite bind_Ok by reflexivity. simpl. rewrite length_fmap. destruct Hr. rewrite uadd_ok by (unfold is_u; lia).
  erewrite bind_Ok by reflexivity. by rewrite index_loop.
Qed.

Lemma imported_indexed hash journal_key ins del w : indexed w ->
  (forall i r k, death_rows w !! i = Some r -> k ∈ row_deleted r -> k ∈ del -> k ∈ ins) ->
  indexed (imported hash journal_key ins del w).
Proof.
  intros Hi Hd k n. pose proof (indexed_reinserted ins w Hi k n) as Hk. unfold imported. simpl in *.
  rewrite lookup_union, lookup_gset_to_gmap. split.
  - intros Hl. case_guard as Hdel; simpl in Hl.
    + rewrite union_Some_l in Hl. simplify_eq. exists (length (death_rows w)), (mkRow hash journal_key (list_to_set del)).
      split; [|done]. rewrite lookup_app_r by (by rewrite length_fmap). by rewrite length_fmap, Nat.sub_diag.
    + rewrite (left_id_L None _) in Hl. apply Hk in Hl as (i & r & Hr & Hin & ->). exists i, r. by rewrite (lookup_app_l_Some _ _ _ _ Hr).
  - intros (i & r & [Hr|[Hlen Hr]]%lookup_app_Some & Hin & ->).
    + rewrite option_guard_False; [rewrite (left_id_L None _); apply Hk; eauto|].
      rewrite list_lookup_fmap in Hr. destruct (death_rows w !! i) as [r0|] eqn:Hr0; simplify_eq/=.
      specialize (Hd i r0 k Hr0). set_solver.
    + apply list_lookup_singleton_Some in Hr as [Hi0 <-]. rewrite length_fmap in *. rewrite option_guard_True by done.
      simpl. rewrite union_Some_l. do 2 f_equal. lia.
Qed.

(** *** Pruning of the front row *)
Definition pruned (r : DeathRow H Key) (rows : list (DeathRow H Key)) w : W :=
  with_pending (pending_number w + 1) (pending_canonicalizations w) (pending_prunings w)
    (with_index (filter (fun p => p.1 ∉ elements (row_deleted r))) (with_rows (fun _ => rows) w)).

Lemma unindex_loop ks w :
  for_each (E := E) (fun k => modify (with_index (delete k))) ks w = (with_index (filter (fun p => p.1 ∉ ks)) w, Ok tt).
Proof.
  revert w. induction ks as [|k ks IH]; intros w; simpl.
  - destruct w. unfold with_index, mret, M_mret. simpl. rewrite map_filter_id; [done|set_solver].
  - erewrite bind_Ok by reflexivity. rewrite IH, reinserted_index. destruct w. unfold with_index. simpl.
    do 2 f_equal. rewrite map_filter_filter. apply map_filter_ext. intros. simpl. set_solver.
Qed.

Lemma apply_pruning_run r rows w : death_rows w = r :: rows -> in_range w -> count_insertions w = true ->
  apply_pruning (E := E) w = (pruned r rows w, Ok tt).
Proof.
  intros Hr [Hp Hl] Hc. unfold apply_pruning. erewrite bind_Ok by reflexivity. rewrite Hr, Hc in *. simpl in Hl.
  erewrite bind_Ok by reflexivity. rewrite (bind_Ok _ _ _ _ _ (unindex_loop _ _)). rewrite uadd_ok by (unfold is_u; lia).
  by erewrite bind_Ok by reflexivity.
Qed.

Lemma pruned_indexed r rows w : death_rows w = r :: rows -> indexed w -> indexed (pruned r rows w).
Proof.
  intros Hr Hi k n. unfold pruned. simpl. rewrite map_lookup_filter_Some, (Hi k n), Hr. simpl. rewrite elem_of_elements. split.
  - intros [([|i] & r' & Hr' & Hk & ->) Hn]; simplify_eq/=; [done|]. exists i, r'. split_and!; [done..|lia].
  - intros (i & r' & Hr' & Hk & ->). split; [exists (S i), r'; split_and!; [done..|lia]|].
    intros Hkr. assert (S i = 0%nat); [|lia]. by eapply (indexed_unique w); rewrite ?Hr.
Qed.
End operations.

(** ** The window of a history *)
Definition within {A} `{Countable A} (exact : bool) (X Y : gset A) : Prop := if exact then X = Y else X ⊆ Y.

Section implements.
Context {OC : OverflowChecks} {H Key E : Type} `{Countable Key} `{Codec unit} `{Codec Z} `{Codec (JournalRecord H Key)}.
Abbreviation W := (RefWindow H Key).
Abbreviation Block := (JournalRecord H Key).
Implicit Types w : W.
Implicit Types bs : list Block.

Lemma within_sub exact (X Y : gset Key) : within exact X Y -> X ⊆ Y.
Proof. destruct exact; simpl; [intros ->|]; done. Qed.

Lemma within_weaken exact exact' (X Y : gset Key) : (exact' = true -> exact = true) -> within exact X Y -> within exact' X Y.
Proof. destruct exact, exact'; simpl; try done; [by intros _ ->|naive_solver]. Qed.

(** The rows of the window are the keys that each block dooms; after a reverted
    transaction they may be fewer. *)
Record implements (exact : bool) (first : Z) bs w : Prop := {
  imp_number : pending_number w = first;
  imp_counting : count_insertions w = true;
  imp_indexed : indexed w;
  imp_length : length (death_rows w) = length bs;
  imp_row i r b : death_rows w !! i = Some r -> bs !! i = Some b ->
    row_hash r = rec_hash b /\ row_journal_key r = to_journal_key (first + Z.of_nat i);
  imp_dead i r D : death_rows w !! i = Some r -> doomed bs !! i = Some D -> within exact (row_deleted r) D }.

Definition room (first : Z) bs : Prop := 0 <= first /\ first + Z.of_nat (length bs) < 2 ^ 64 - 1.

Lemma implements_range exact first bs w : implements exact first bs w -> room first bs -> in_range w.
Proof. intros Hw [??]. unfold in_range. rewrite (imp_number _ _ _ _ Hw), (imp_length _ _ _ _ Hw). lia. Qed.

Lemma implements_weaken exact exact' first bs w :
  (exact' = true -> exact = true) -> implements exact first bs w -> implements exact' first bs w.
Proof. intros He []. constructor; try done. intros. eapply within_weaken; eauto. Qed.

Lemma implements_nil first cs ps : implements true first [] (mkWindow [] ∅ first cs ps true).
Proof. constructor; try done. intros k n. simpl. split; [done|]. by intros (i & r & ? & _). Qed.

(** Pending counters are no part of the relation. *)
Lemma implements_pending exact first bs w cs ps :
  implements exact first bs w -> implements exact first bs (with_pending (pending_number w) cs ps w).
Proof. intros []. by constructor. Qed.

Lemma implements_import exact first bs w X b : implements exact first bs w -> room first bs ->
  disciplined (state_at X bs) [b] ->
  implements exact first (bs ++ [b])
    (imported (rec_hash b) (to_journal_key (first + Z.of_nat (length bs))) (rec_inserted b) (rec_deleted b) w).
Proof.
  intros Hw Hroom (Hlive & _ & _). pose proof (imp_length _ _ _ _ Hw) as Hlen. constructor; try apply Hw.
  - apply imported_indexed; [apply Hw|]. intros i r k Hr Hk Hdel. exfalso.
    assert (is_Some (doomed bs !! i)) as [D HD].
    { apply lookup_lt_is_Some. rewrite doomed_length, <-Hlen. by eapply lookup_lt_Some. }
    apply (doomed_not_live X bs i D k HD); [eapply within_sub; [by eapply imp_dead|done]|].
    apply Hlive. unfold block_del. set_solver.
  - unfold imported. simpl. rewrite !length_app, length_fmap. simpl. lia.
  - intros i r b'. unfold imported. simpl. intros [Hr|[Hi Hr]]%lookup_app_Some [Hb|[Hib Hb]]%lookup_app_Some.
    + rewrite list_lookup_fmap in Hr. destruct (death_rows w !! i) as [r0|] eqn:Hr0; simplify_eq/=. by eapply imp_row.
    + apply lookup_lt_Some in Hr. rewrite length_fmap in Hr. lia.
    + apply lookup_lt_Some in Hb. rewrite length_fmap in Hi. lia.
    + apply list_lookup_singleton_Some in Hr as [Hi0 <-]. apply list_lookup_singleton_Some in Hb as [Hb0 <-]. simpl.
      split; [done|]. do 2 f_equal. lia.
  - intros i r D. unfold imported. rewrite doomed_snoc. simpl.
    intros [Hr|[Hi Hr]]%lookup_app_Some [Hb|[Hib Hb]]%lookup_app_Some; rewrite ?length_fmap, ?doomed_length in *.
    + rewrite list_lookup_fmap in Hr. rewrite list_lookup_fmap in Hb. destruct (death_rows w !! i) as [r0|] eqn:Hr0; simplify_eq/=.
      destruct (doomed bs !! i) as [D0|] eqn:HD; simplify_eq/=. pose proof (imp_dead _ _ _ _ Hw i r0 D0 Hr0 HD) as Hin.
      unfold block_ins. destruct exact; simpl in *; set_solver.
    + apply lookup_lt_Some in Hr. rewrite length_fmap in Hr. lia.
    + apply lookup_lt_Some in Hb. rewrite length_fmap, doomed_length in Hb. lia.
    + apply list_lookup_singleton_Some in Hr as [Hi0 <-]. apply list_lookup_singleton_Some in Hb as [Hb0 <-]. destruct exact; simpl; reflexivity.
Qed.

Lemma implements_pruned exact first b bs r rows w : implements exact first (b :: bs) w -> death_rows w = r :: rows ->
  implements exact (first + 1) bs (pruned r rows w).
Proof.
  intros Hw Hr. constructor; simpl.
  - by rewrite (imp_number _ _ _ _ Hw).
  - apply Hw.
  - by apply pruned_indexed; [|apply Hw].
  - pose proof (imp_length _ _ _ _ Hw). rewrite Hr in *. simpl in *. lia.
  - intros i r' b' Hr' Hb'. replace (first + 1 + Z.of_nat i) with (first + Z.of_nat (S i)) by lia.
    eapply imp_row; [done|by rewrite Hr|done].
  - intros i r' D Hr' HD. eapply (imp_dead _ _ _ _ Hw (S i)); [by rewrite Hr|done].
Qed.

(** [apply_pending] forgets the pruned blocks. *)
Lemma apply_pruning_loop exact first bs w n j : implements exact first bs w -> room first bs -> (n <= length bs)%nat ->
  exists w', for_each (fun _ => apply_pruning (E := E)) (seq j n) w = (w', Ok tt) /\
    implements exact (first + Z.of_nat n) (drop n bs) w' /\
    pending_canonicalizations w' = pending_canonicalizations w.
Proof.
  revert first bs w j. induction n as [|n IH]; intros first bs w j Hw Hroom Hn; simpl.
  - exists w. rewrite Z.add_0_r, drop_0. done.
  - destruct bs as [|b bs]; simpl in Hn; [lia|]. pose proof (imp_length _ _ _ _ Hw) as Hlen.
    destruct (death_rows w) as [|r rows] eqn:Hr; [done|].
    rewrite (bind_Ok _ _ _ _ _ (apply_pruning_run r rows w Hr (implements_range _ _ _ _ Hw Hroom) (imp_counting _ _ _ _ Hw))).
    destruct (IH (first + 1) bs (pruned r rows w) (S j)) as (w' & Hrun & Hw' & Hc);
      [by eapply implements_pruned|destruct Hroom; simpl in *; split; lia|lia|].
    exists w'. split_and!; [done| |done]. by replace (first + Z.of_nat (S n)) with (first + 1 + Z.of_nat n) by lia.
Qed.

Lemma apply_pending_run exact first bs w : implements exact first bs w -> room first bs ->
  (pending_prunings w <= length bs)%nat ->
  exists w', apply_pending (E := E) w = (w', Ok tt) /\
    implements exact (first + Z.of_nat (pending_prunings w)) (drop (pending_prunings w) bs) w' /\
    pending_canonicalizations w' = 0%nat /\ pending_prunings w' = 0%nat.
Proof.
  intros Hw Hroom Hn. unfold apply_pending. do 2 erewrite bind_Ok by reflexivity. simpl.
  destruct (apply_pruning_loop exact first bs (with_pending (pending_number w) 0 (pending_prunings w) w) (pending_prunings w) 0)
    as (w' & Hrun & Hw' & Hc); [by apply implements_pending|done|done|].
  rewrite (bind_Ok _ _ _ _ _ Hrun). eexists. split; [reflexivity|]. split_and!; [by apply implements_pending|done|done].
Qed.

(** [revert_pending] forgets the blocks that were not committed. *)
Lemma implements_reverted exact first bs w n : implements exact first bs w -> (n <= length bs)%nat ->
  implements (exact && (n =? length bs)%nat) first (take n bs)
    (with_index (filter (fun p => p.2 < Z.of_nat n + first)) (with_rows (take n) w)).
Proof.
  intros Hw Hn. pose proof (imp_length _ _ _ _ Hw) as Hlen. constructor; simpl; try apply Hw.
  - intros k m. simpl. rewrite map_lookup_filter_Some, (imp_indexed _ _ _ _ Hw k m). simpl.
    rewrite (imp_number _ _ _ _ Hw). split.
    + intros [(i & r & Hr & Hk & ->) Hm]. exists i, r. rewrite lookup_take_lt by lia. done.
    + intros (i & r & Hr & Hk & ->). apply lookup_take_Some in Hr as [Hr Hi]. split; [eauto|lia].
  - rewrite !length_take. lia.
  - intros i r b [Hr _]%lookup_take_Some [Hb _]%lookup_take_Some. by eapply imp_row.
  - intros i r D' [Hr Hi]%lookup_take_Some HD'.
    assert (is_Some (doomed bs !! i)) as [D HD] by (apply lookup_lt_is_Some; rewrite doomed_length; lia).
    pose proof (imp_dead _ _ _ _ Hw i r D Hr HD) as Hin. destruct (Nat.eqb_spec n (length bs)) as [->|Hne].
    + rewrite firstn_all in HD'. rewrite andb_true_r. by simplify_eq.
    + rewrite andb_false_r. simpl. etrans; [by eapply within_sub|by eapply doomed_take].
Qed.

Lemma revert_pending_run exact first bs w c : implements exact first bs w -> room first bs ->
  pending_canonicalizations w = c -> (c <= length bs)%nat ->
  exists w', revert_pending (E := E) w = (w', Ok tt) /\
    implements (exact && (c =? 0)%nat) first (take (length bs - c) bs) w' /\
    pending_canonicalizations w' = 0%nat /\ pending_prunings w' = 0%nat.
Proof.
  intros Hw [Hf Hl] Hc Hle. unfold revert_pending. erewrite bind_Ok by reflexivity.
  rewrite Hc, (imp_length _ _ _ _ Hw), usub_ok by (unfold is_u; lia).
  do 2 erewrite bind_Ok by reflexivity. rewrite (imp_counting _ _ _ _ Hw).
  replace (Z.to_nat (Z.of_nat (length bs) - Z.of_nat c)) with (length bs - c)%nat by lia.
  assert (length (take (length bs - c) (death_rows w)) = (length bs - c)%nat) as Hlen.
  { rewrite length_take, (imp_length _ _ _ _ Hw). lia. }
  erewrite bind_Ok; [|erewrite bind_Ok by reflexivity; simpl; rewrite Hlen, (imp_number _ _ _ _ Hw), uadd_ok by (unfold is_u; lia);
    erewrite bind_Ok by reflexivity; reflexivity].
  eexists. split; [reflexivity|]. split_and!; [|done..]. apply implements_pending.
  pose proof (implements_reverted _ _ _ _ (length bs - c) Hw ltac:(lia)) as Hrev.
  eapply implements_weaken; [|exact Hrev]. intros [-> ->%Nat.eqb_eq]%andb_true_iff. simpl. apply Nat.eqb_eq. lia.
Qed.

(** [note_canonical] takes the deletions out of the commit and adds the journal
    record. *)
Definition block_of (hash : H) (c : ChangeSet Key) : Block := mkRecord hash (fst <$> inserted c) (deleted c).

Lemma note_canonical_run exact first bs w X hash c : implements exact first bs w -> room first bs ->
  disciplined (state_at X bs) [block_of hash (commit_data c)] ->
  exists w', note_canonical (E := E) hash c w =
      (w', Ok (push_meta (to_journal_key (first + Z.of_nat (length bs))) (encode (block_of hash (commit_data c))) (take_deleted c))) /\
    implements exact first (bs ++ [block_of hash (commit_data c)]) w' /\
    pending_canonicalizations w' = S (pending_canonicalizations w) /\ pending_prunings w' = pending_prunings w.
Proof.
  intros Hw Hroom Hd. pose proof Hroom as [Hf Hl]. unfold note_canonical. erewrite bind_Ok by reflexivity.
  rewrite (imp_counting _ _ _ _ Hw), (imp_number _ _ _ _ Hw), (imp_length _ _ _ _ Hw), uadd_ok by (unfold is_u; lia).
  erewrite bind_Ok by reflexivity.
  pose proof (implements_import _ _ _ _ _ _ Hw Hroom Hd) as Hw'.
  rewrite (bind_Ok _ _ _ _ _ (window_import_run _ _ _ _ w (imp_indexed _ _ _ _ Hw) (implements_range _ _ _ _ Hw Hroom) (imp_counting _ _ _ _ Hw))).
  eexists. split; [reflexivity|]. split_and!; [by apply implements_pending|done|done].
Qed.

(** [prune_one] leaves the window as it is until the commit is written. *)
Lemma prune_one_run exact first bs w r : implements exact first bs w -> room first bs ->
  death_rows w !! pending_prunings w = Some r ->
  prune_one (E := E) dflt w =
    (with_pending (pending_number w) (pending_canonicalizations w) (S (pending_prunings w)) w,
     Ok (mkCommitSet (mkChangeSet [] (elements (row_deleted r)))
       (mkChangeSet [(to_meta_key LAST_PRUNED tt, encode (first + Z.of_nat (pending_prunings w)))] [row_journal_key r]))).
Proof.
  intros Hw [Hf Hl] Hr. pose proof (lookup_lt_Some _ _ _ Hr) as Hlt. rewrite (imp_length _ _ _ _ Hw) in Hlt.
  unfold prune_one. erewrite bind_Ok by reflexivity. rewrite Hr. rewrite (imp_number _ _ _ _ Hw), uadd_ok by (unfold is_u; lia).
  by erewrite bind_Ok by reflexivity.
Qed.
End implements.

(** ** The journal in the database *)

(** What the codec promises of the keys: the unit has no bytes, a [u64] eight. *)
Class KeyCodec `{Codec unit} `{Codec Z} : Prop := {
  encode_unit : encode tt = [];
  encode_u64_length n : n ∈u 64 -> length (encode n) = 8%nat }.

Section database.
Context {OC : OverflowChecks} {H Key DbError : Type} `{Countable Key} `{Codec unit} `{Codec Z} `{Codec (JournalRecord H Key)}.
Context `{!CodecLaws Z (is_u 64)} `{!CodecLaws (JournalRecord H Key) (fun _ => True)} `{!KeyCodec}.
Context (content : Key -> bytes).
Abbreviation W := (RefWindow H Key).
Abbreviation Block := (JournalRecord H Key).
Implicit Types bs : list Block.
Implicit Types db : Db Key.

Lemma to_journal_key_inj n m : n ∈u 64 -> m ∈u 64 -> to_journal_key n = to_journal_key m -> n = m.
Proof.
  unfold to_journal_key, to_meta_key. intros Hn Hm Heq%app_inv_tail. apply (f_equal (decode (A := Z))) in Heq.
  rewrite !decode_encode in Heq by done. by simplify_eq.
Qed.

Lemma last_pruned_not_journal n : n ∈u 64 -> to_meta_key LAST_PRUNED tt <> to_journal_key n.
Proof.
  unfold to_journal_key, to_meta_key. intros Hn Heq. apply (f_equal length) in Heq.
  rewrite !length_app, encode_unit, encode_u64_length in Heq by done. done.
Qed.

Lemma apply_changes_insert {K} `{Countable K} (ins : list (K * bytes)) m :
  dom (apply_changes (mkChangeSet ins []) m) = dom m ∪ list_to_set (fst <$> ins).
Proof.
  unfold apply_changes. simpl. revert m. induction ins as [|[k v] ins IH]; intros m; simpl; [set_solver|].
  rewrite IH, dom_insert_L. set_solver.
Qed.

Lemma apply_changes_delete {K} `{Countable K} (del : list K) m :
  dom (apply_changes (mkChangeSet [] del) m) = dom m ∖ list_to_set del.
Proof.
  unfold apply_changes. simpl. revert m. induction del as [|k del IH]; intros m; simpl; [set_solver|].
  rewrite IH, dom_delete_L. set_solver.
Qed.

Lemma apply_changes_content (P : Key -> bytes -> Prop) c m :
  map_Forall P m -> Forall (fun p => P p.1 p.2) (inserted c) -> map_Forall P (apply_changes c m).
Proof.
  intros Hm Hc. unfold apply_changes. assert (map_Forall P (foldl (fun m p => <[p.1 := p.2]> m) m (inserted c))) as Hi.
  { revert m Hm. induction Hc as [|[k v] l Hp Hc IH]; intros m Hm; simpl; [done|]. apply IH. by apply map_Forall_insert_2. }
  revert Hi. generalize (foldl (fun m p => <[p.1 := p.2]> m) m (inserted c)). clear.
  induction (deleted c) as [|k l IH]; intros m Hm; simpl; [done|]. apply IH. by apply map_Forall_delete.
Qed.

(** The database of a history of which the first [gone] blocks are pruned. *)
Record stored (exact : bool) (first : Z) (X : gset Key) bs (gone : nat) db : Prop := {
  stored_data : within exact (held X gone bs) (dom (db_data db));
  stored_content : map_Forall (fun k v => v = content k) (db_data db);
  stored_last : db_meta db !! to_meta_key LAST_PRUNED tt =
    if first + Z.of_nat gone =? 0 then None else Some (encode (first + Z.of_nat gone - 1));
  stored_journal i b : (gone <= i)%nat -> bs !! i = Some b ->
    db_meta db !! to_journal_key (first + Z.of_nat i) = Some (encode b);
  stored_end n : first + Z.of_nat (length bs) <= n < 2 ^ 64 -> db_meta db !! to_journal_key n = None }.

Lemma stored_weaken exact exact' first X bs gone db :
  (exact' = true -> exact = true) -> stored exact first X bs gone db -> stored exact' first X bs gone db.
Proof. intros He []. constructor; try done. by eapply within_weaken. Qed.

Lemma stored_note exact first X bs gone db hash c : stored exact first X bs gone db -> room first bs -> (gone <= length bs)%nat ->
  Forall (fun p => p.2 = content p.1) (inserted c) ->
  stored exact first X (bs ++ [block_of hash c]) gone
    (apply_state_commit db (mkCommitSet (mkChangeSet (inserted c) [])
      (mkChangeSet [(to_journal_key (first + Z.of_nat (length bs)), encode (block_of hash c))] []))).
Proof.
  intros Hs [Hf Hl] Hg Hc. unfold apply_state_commit. constructor; simpl.
  - rewrite apply_changes_insert, held_snoc by done. pose proof (stored_data _ _ _ _ _ _ Hs) as Hd.
    unfold block_ins. simpl. destruct exact; simpl in *; set_solver.
  - apply apply_changes_content; [apply Hs|done].
  - unfold apply_changes. simpl. rewrite lookup_insert_ne; [apply Hs|]. intros Heq. symmetry in Heq. revert Heq.
    apply last_pruned_not_journal. unfold is_u. lia.
  - unfold apply_changes. simpl. intros i b Hi [Hb|[Hib Hb]]%lookup_app_Some.
    + pose proof (lookup_lt_Some _ _ _ Hb). rewrite lookup_insert_ne; [by eapply stored_journal|].
      intros Heq%to_journal_key_inj; unfold is_u in *; lia.
    + apply list_lookup_singleton_Some in Hb as [Hb <-]. replace i with (length bs) by lia. by rewrite lookup_insert_eq.
  - unfold apply_changes. simpl. intros n Hn. rewrite length_app in Hn. simpl in Hn.
    rewrite lookup_insert_ne; [apply Hs; lia|]. intros Heq%to_journal_key_inj; unfold is_u in *; lia.
Qed.

Lemma stored_prune exact first X bs gone db D D' : stored exact first X bs gone db -> room first bs ->
  doomed bs !! gone = Some D -> within exact D' D ->
  stored exact first X bs (S gone)
    (apply_state_commit db (mkCommitSet (mkChangeSet [] (elements D'))
      (mkChangeSet [(to_meta_key LAST_PRUNED tt, encode (first + Z.of_nat gone))] [to_journal_key (first + Z.of_nat gone)]))).
Proof.
  intros Hs [Hf Hl] HD HD'. pose proof (lookup_lt_Some _ _ _ HD) as Hlt. rewrite doomed_length in Hlt.
  assert (first + Z.of_nat gone ∈u 64) as Hu by (unfold is_u; lia).
  unfold apply_state_commit. constructor; simpl.
  - rewrite apply_changes_delete, list_to_set_elements_L, (held_prune X gone bs D HD).
    pose proof (stored_data _ _ _ _ _ _ Hs) as Hd. destruct exact; simpl in *; set_solver.
  - apply apply_changes_content; [apply Hs|constructor].
  - unfold apply_changes. simpl. rewrite lookup_delete_ne by (intros Heq; symmetry in Heq; revert Heq; by apply last_pruned_not_journal).
    rewrite lookup_insert_eq. rewrite (proj2 (Z.eqb_neq _ _)) by lia. do 2 f_equal. lia.
  - unfold apply_changes. simpl. intros i b Hi Hb. pose proof (lookup_lt_Some _ _ _ Hb).
    rewrite lookup_delete_ne by (intros Heq%to_journal_key_inj; unfold is_u in *; lia).
    rewrite lookup_insert_ne by (apply last_pruned_not_journal; unfold is_u; lia). apply Hs; [lia|done].
  - unfold apply_changes. simpl. intros n Hn. rewrite lookup_delete_ne by (intros Heq%to_journal_key_inj; unfold is_u in *; lia).
    rewrite lookup_insert_ne by (apply last_pruned_not_journal; unfold is_u; lia). by apply Hs.
Qed.

(** Writing the transaction moves the start of the history. *)
Lemma stored_forget exact first X bs gone db : stored exact first X bs gone db -> (gone <= length bs)%nat ->
  stored exact (first + Z.of_nat gone) (state_at X (take gone bs)) (drop gone bs) 0 db.
Proof.
  intros [] Hg. constructor; [done|done|by rewrite Z.add_0_r| |].
  - intros i b _ Hb. rewrite lookup_drop in Hb. rewrite <-Z.add_assoc, <-Nat2Z.inj_add. apply stored_journal0; [lia|done].
  - intros n Hn. rewrite length_drop in Hn. apply stored_end0. lia.
Qed.

Lemma stored_lookup exact first X bs gone db k : stored exact first X bs gone db -> k ∈ held X gone bs ->
  db_data db !! k = Some (content k).
Proof.
  intros [Hd Hc _ _ _] Hk. assert (k ∈ dom (db_data db)) as [v Hv]%elem_of_dom by (by eapply within_sub).
  rewrite Hv. f_equal. by apply Hc.
Qed.

(** *** Recovery *)
Definition meta_of db (k : bytes) : res DbError (option bytes) := Ok (db_meta db !! k).

Lemma read_journal_run exact first X bs db fuel i w : stored exact first X bs 0 db -> room first bs -> disciplined X bs ->
  implements true first (take i bs) w -> (i <= length bs)%nat -> (length bs - i < fuel)%nat ->
  exists w', read_journal fuel (meta_of db) (first + Z.of_nat i) w = (w', Ok tt) /\ implements true first bs w' /\
    pending_canonicalizations w' = pending_canonicalizations w /\ pending_prunings w' = pending_prunings w.
Proof.
  intros Hs [Hf Hl] Hd. revert i w. induction fuel as [|fuel IH]; intros i w Hw Hi Hfuel; [lia|]. simpl.
  destruct (bs !! i) as [b|] eqn:Hb.
  - pose proof (lookup_lt_Some _ _ _ Hb). unfold meta_of at 1. rewrite (stored_journal _ _ _ _ _ _ Hs i b) by (lia || done). simpl.
    erewrite bind_Ok by reflexivity. cbn beta iota. rewrite (decode_encode b I). simpl. erewrite bind_Ok by reflexivity.
    assert (room first (take i bs)) as Hr by (split; rewrite ?length_take; lia).
    assert (take (S i) bs = take i bs ++ [b]) as Ht by by apply take_S_r.
    assert (disciplined (state_at X (take i bs)) [b]) as Hdb.
    { rewrite <-(take_drop (S i) bs), Ht in Hd. by apply disciplined_app in Hd as [[_ Hd]%disciplined_app _]. }
    pose proof (implements_import _ _ _ _ _ _ Hw Hr Hdb) as Hw'. rewrite <-Ht, length_take, Nat.min_l in Hw' by lia.
    rewrite (bind_Ok _ _ _ _ _ (window_import_run _ _ _ _ w (imp_indexed _ _ _ _ Hw) (implements_range _ _ _ _ Hw Hr) (imp_counting _ _ _ _ Hw))).
    rewrite uadd_ok by (unfold is_u; lia). erewrite bind_Ok by reflexivity.
    replace (first + Z.of_nat i + 1) with (first + Z.of_nat (S i)) by lia. exact (IH (S i) _ Hw' ltac:(lia) ltac:(lia)).
  - apply lookup_ge_None in Hb. unfold meta_of at 1. rewrite (stored_end _ _ _ _ _ _ Hs) by lia.
    erewrite bind_Ok by reflexivity. exists w. rewrite take_ge in Hw by done. done.
Qed.

(** The journal has room for its records. *)
Lemma journal_size exact first X bs db : stored exact first X bs 0 db -> room first bs -> (length bs <= size (db_meta db))%nat.
Proof.
  intros Hs [Hf Hl]. set (keys := (fun i => to_journal_key (first + Z.of_nat i)) <$> seq 0 (length bs)).
  assert (NoDup keys) as Hnd.
  { apply NoDup_fmap_2_strong; [|apply NoDup_seq]. intros i j [_ Hi]%elem_of_seq [_ Hj]%elem_of_seq Heq%to_journal_key_inj; unfold is_u; lia. }
  assert (length keys = length bs) as <- by (unfold keys; by rewrite length_fmap, length_seq).
  rewrite <-(size_list_to_set (C := gset bytes) keys Hnd), <-size_dom. apply subseteq_size. intros k.
  rewrite elem_of_list_to_set. intros (i & -> & [_ Hi]%elem_of_seq)%list_elem_of_fmap.
  destruct (lookup_lt_is_Some_2 bs i) as [b Hb]; [lia|]. apply elem_of_dom. eexists. apply Hs; [lia|done].
Qed.

Lemma RefWindow_new_run exact first X bs db : stored exact first X bs 0 db -> room first bs -> disciplined X bs ->
  exists w, RefWindow_new (S (size (db_meta db))) (meta_of db) true = Ok w /\ implements true first bs w /\
    pending_canonicalizations w = 0%nat /\ pending_prunings w = 0%nat.
Proof.
  intros Hs Hr Hd. pose proof Hr as [Hf Hl].
  destruct (read_journal_run _ _ _ _ _ (S (size (db_meta db))) 0 (mkWindow [] ∅ first 0 0 true) Hs Hr Hd)
    as (w & Hrun & Hw & Hc & Hp); [apply implements_nil|lia|pose proof (journal_size _ _ _ _ _ Hs Hr); lia|].
  exists w. split; [|done]. rewrite Z.add_0_r in Hrun. unfold RefWindow_new.
  generalize dependent (S (size (db_meta db))). intros fuel Hrun.
  assert (meta_of db (to_meta_key LAST_PRUNED tt) = Ok (if first =? 0 then None else Some (encode (first - 1)))) as ->.
  { unfold meta_of. by rewrite (stored_last _ _ _ _ _ _ Hs), Z.add_0_r. }
  destruct (Z.eqb_spec first 0) as [->|Hne]; simpl; [by rewrite Hrun|].
  rewrite decode_encode by (unfold is_u; lia). simpl. rewrite uadd_ok by (unfold is_u; lia). simpl.
  rewrite Z.sub_add. by rewrite Hrun.
Qed.
End database.

(** ** The window over a database with transactions

    The node adds blocks and prunes within a transaction ([tx] is the database
    as it would be after it), and [commit_operation] writes the transaction or
    gives it up.  The process may stop at any time and start again from the
    database. *)
Record Sys (H Key : Type) `{Countable Key} : Type := mkSys {
  sys_window : RefWindow H Key;
  sys_disk : Db Key;
  sys_tx : Db Key }.

Arguments mkSys {H Key _ _} sys_window sys_disk sys_tx.
Arguments sys_window {H Key _ _} _.
Arguments sys_disk {H Key _ _} _.
Arguments sys_tx {H Key _ _} _.

Inductive Op (H Key : Type) : Type :=
| Canonicalize (hash : H) (changes : ChangeSet Key)
| Prune
| Commit
| Abort
| Restart.

Arguments Canonicalize {H Key} hash changes.
Arguments Prune {H Key}.
Arguments Commit {H Key}.
Arguments Abort {H Key}.
Arguments Restart {H Key}.

(** The abstract history: [base] is the state before block [first], [window] the
    blocks after it; the last [fresh] of them and the pruning of the first [gone]
    are in the transaction; [clean] says that no block was given up. *)
Record Hist (H Key : Type) `{Countable Key} : Type := mkHist {
  first : Z;
  base : gset Key;
  window : list (JournalRecord H Key);
  fresh : nat;
  gone : nat;
  clean : bool }.

Arguments mkHist {H Key _ _} first base window fresh gone clean.
Arguments first {H Key _ _} _.
Arguments base {H Key _ _} _.
Arguments window {H Key _ _} _.
Arguments fresh {H Key _ _} _.
Arguments gone {H Key _ _} _.
Arguments clean {H Key _ _} _.

Section system.
Context {OC : OverflowChecks} {H Key : Type} `{Countable Key} `{Codec unit} `{Codec Z} `{Codec (JournalRecord H Key)}.
Abbreviation SysE := (Error Empty_set).

(** A computation of the window whose commit is added to the transaction. *)
Definition transact (m : M (RefWindow H Key) SysE (CommitSet Key)) (s : Sys H Key) : res SysE (Sys H Key) :=
  let '(w, r) := m (sys_window s) in
  commit ← r; Ok (mkSys w (sys_disk s) (apply_state_commit (sys_tx s) commit)).

Definition settle (m : M (RefWindow H Key) SysE unit) (db : Db Key) (s : Sys H Key) : res SysE (Sys H Key) :=
  let '(w, r) := m (sys_window s) in
  _ ← r; Ok (mkSys w db db).

Definition perform (o : Op H Key) (s : Sys H Key) : res SysE (Sys H Key) :=
  match o with
  | Canonicalize hash changes => transact (note_canonical hash (mkCommitSet changes dflt)) s
  | Prune => transact (prune_one dflt) s
  | Commit => settle apply_pending (sys_tx s) s
  | Abort => settle revert_pending (sys_disk s) s
  | Restart =>
    w ← RefWindow_new (S (size (db_meta (sys_disk s)))) (meta_of (sys_disk s)) (count_insertions (sys_window s));
    Ok (mkSys w (sys_disk s) (sys_disk s))
  end.

Fixpoint performs (os : list (Op H Key)) (s : Sys H Key) : res SysE (Sys H Key) :=
  match os with
  | [] => Ok s
  | o :: os => s ← perform o s; performs os s
  end.

Definition lose_block (clean : bool) (h : Hist H Key) : Hist H Key :=
  mkHist (first h) (base h) (take (length (window h) - fresh h) (window h)) 0 0 clean.

Definition track (o : Op H Key) (h : Hist H Key) : Hist H Key :=
  match o with
  | Canonicalize hash changes =>
    mkHist (first h) (base h) (window h ++ [block_of hash changes]) (S (fresh h)) (gone h) (clean h)
  | Prune =>
    mkHist (first h) (base h) (window h) (fresh h) (if (gone h <? length (window h))%nat then S (gone h) else gone h) (clean h)
  | Commit =>
    mkHist (first h + Z.of_nat (gone h)) (state_at (base h) (take (gone h) (window h))) (drop (gone h) (window h)) 0 0 (clean h)
  | Abort => lose_block (clean h && (fresh h =? 0)%nat) h
  | Restart => lose_block (clean h) h
  end.

Definition tracks (os : list (Op H Key)) (h : Hist H Key) : Hist H Key := foldl (fun h o => track o h) h os.

Context (content : Key -> bytes).

(** What the node may ask for: a block deletes keys of its parent's state and
    none that it inserts, a key determines its value, block numbers stay below
    the largest. *)
Definition allowed (o : Op H Key) (h : Hist H Key) : Prop :=
  match o with
  | Canonicalize hash changes =>
    disciplined (state_at (base h) (window h)) [block_of hash changes] /\
    Forall (fun p => p.2 = content p.1) (inserted changes) /\
    first h + Z.of_nat (length (window h)) < 2 ^ 64 - 2
  | _ => True
  end.

Fixpoint allowed_all (os : list (Op H Key)) (h : Hist H Key) : Prop :=
  match os with
  | [] => True
  | o :: os => allowed o h /\ allowed_all os (track o h)
  end.

(** *** The simulation *)
Record sim (s : Sys H Key) (h : Hist H Key) : Prop := {
  sim_window : implements (clean h) (first h) (window h) (sys_window s);
  sim_fresh : pending_canonicalizations (sys_window s) = fresh h;
  sim_gone : pending_prunings (sys_window s) = gone h;
  sim_tx : stored content (clean h) (first h) (base h) (window h) (gone h) (sys_tx s);
  sim_disk : stored content (clean h) (first h) (base h) (take (length (window h) - fresh h) (window h)) 0 (sys_disk s);
  sim_room : room (first h) (window h);
  sim_disciplined : disciplined (base h) (window h);
  sim_fresh_le : (fresh h <= length (window h))%nat;
  sim_gone_le : (gone h <= length (window h))%nat }.

Context `{!CodecLaws Z (is_u 64)} `{!CodecLaws (JournalRecord H Key) (fun _ => True)} `{!KeyCodec}.

(** A noted block, and the commit that [note_canonical] adds. *)
Definition note_commit (number : Z) (hash : H) (changes : ChangeSet Key) : CommitSet Key :=
  mkCommitSet (mkChangeSet (inserted changes) []) (mkChangeSet [(to_journal_key number, encode (block_of hash changes))] []).

Lemma sim_note s h hash changes w : sim s h -> allowed (Canonicalize hash changes) h ->
  implements (clean h) (first h) (window h ++ [block_of hash changes]) w ->
  pending_canonicalizations w = S (pending_canonicalizations (sys_window s)) -> pending_prunings w = pending_prunings (sys_window s) ->
  sim (mkSys w (sys_disk s) (apply_state_commit (sys_tx s) (note_commit (first h + Z.of_nat (length (window h))) hash changes)))
    (track (Canonicalize hash changes) h).
Proof.
  intros [] (Hd & Hc & Hn) Hw Hpc Hpp. destruct sim_room0 as [Hf Hl]. constructor; simpl; rewrite ?length_app; simpl; try lia.
  - done.
  - by apply stored_note.
  - by replace (length (window h) + 1 - S (fresh h))%nat with (length (window h) - fresh h)%nat by lia; rewrite take_app_le by lia.
  - split; rewrite ?length_app; simpl; lia.
  - by apply disciplined_app.
Qed.

Lemma sim_canonicalize s h hash changes : sim s h -> allowed (Canonicalize hash changes) h ->
  exists s', perform (Canonicalize hash changes) s = Ok s' /\ sim s' (track (Canonicalize hash changes) h).
Proof.
  intros Hs Ha. pose proof Ha as (Hd & _ & _).
  destruct (note_canonical_run (E := SysE) _ _ _ _ _ hash (mkCommitSet changes dflt) (sim_window _ _ Hs) (sim_room _ _ Hs) Hd)
    as (w & Hrun & Hw & Hpc & Hpp).
  simpl. unfold transact. rewrite Hrun. simpl. eexists. split; [reflexivity|]. by apply sim_note.
Qed.

(** A pruned block, and the commit that [prune_one] adds. *)
Definition prune_commit (number : Z) (r : DeathRow H Key) : CommitSet Key :=
  mkCommitSet (mkChangeSet [] (elements (row_deleted r)))
    (mkChangeSet [(to_meta_key LAST_PRUNED tt, encode number)] [row_journal_key r]).

Lemma sim_prune_one s h r : sim s h -> death_rows (sys_window s) !! gone h = Some r ->
  sim (mkSys (with_pending (pending_number (sys_window s)) (pending_canonicalizations (sys_window s)) (S (pending_prunings (sys_window s))) (sys_window s))
             (sys_disk s) (apply_state_commit (sys_tx s) (prune_commit (first h + Z.of_nat (gone h)) r))) (track Prune h).
Proof.
  intros [] Hr. pose proof (lookup_lt_Some _ _ _ Hr) as Hlt. rewrite (imp_length _ _ _ _ sim_window0) in Hlt.
  destruct (lookup_lt_is_Some_2 (window h) (gone h)) as [b Hb]; [lia|].
  destruct (lookup_lt_is_Some_2 (doomed (window h)) (gone h)) as [D HD]; [by rewrite doomed_length|].
  destruct (imp_row _ _ _ _ sim_window0 _ _ _ Hr Hb) as [_ Hkey]. unfold prune_commit. rewrite Hkey. simpl.
  rewrite (proj2 (Nat.ltb_lt _ _)) by done.
  constructor; simpl; try done; [by apply implements_pending|congruence|]. eapply stored_prune; try done. by eapply imp_dead.
Qed.

Lemma sim_prune s h : sim s h -> exists s', perform Prune s = Ok s' /\ sim s' (track Prune h).
Proof.
  intros Hs. pose proof Hs as []. unfold perform, transact. pose proof (imp_length _ _ _ _ sim_window0) as Hlen.
  destruct (death_rows (sys_window s) !! gone h) as [r|] eqn:Hr.
  - rewrite (prune_one_run (E := SysE) _ _ _ _ r sim_window0 sim_room0) by (by rewrite sim_gone0). simpl.
    eexists. split; [reflexivity|]. rewrite sim_gone0. pose proof (sim_prune_one s h r Hs Hr) as Hp. by rewrite sim_gone0 in Hp.
  - unfold prune_one. erewrite bind_Ok by reflexivity. rewrite sim_gone0, Hr. apply lookup_ge_None in Hr. simpl.
    rewrite (proj2 (Nat.ltb_ge _ _)) by lia. eexists. split; [reflexivity|]. constructor; simpl; try done. by destruct (sys_tx s).
Qed.

Lemma sim_commit s h : sim s h -> exists s', perform Commit s = Ok s' /\ sim s' (track Commit h).
Proof.
  intros []. simpl. unfold settle. destruct (apply_pending_run (E := SysE) _ _ _ _ sim_window0 sim_room0) as (w & Hrun & Hw & Hc & Hp); [lia|].
  rewrite sim_gone0 in Hw. rewrite Hrun. simpl. eexists. split; [reflexivity|].
  constructor; simpl; try done; try lia.
  - by apply stored_forget.
  - rewrite Nat.sub_0_r, firstn_all. by apply stored_forget.
  - destruct sim_room0. split; rewrite ?length_drop; lia.
  - rewrite <-(take_drop (gone h) (window h)) in sim_disciplined0. by apply disciplined_app in sim_disciplined0 as [_ ?].
Qed.

(** The part of the history that is on the disk. *)
Lemma sim_give_up s h w c : sim s h -> (c = true -> clean h = true) ->
  implements c (first h) (take (length (window h) - fresh h) (window h)) w ->
  pending_canonicalizations w = 0%nat -> pending_prunings w = 0%nat ->
  sim (mkSys w (sys_disk s) (sys_disk s)) (lose_block c h).
Proof.
  intros [] Hc Hw Hpc Hpp. constructor; simpl; try done; try lia.
  - by eapply stored_weaken.
  - rewrite Nat.sub_0_r, firstn_all. by eapply stored_weaken.
  - destruct sim_room0. split; rewrite ?length_take; lia.
  - rewrite <-(take_drop (length (window h) - fresh h) (window h)) in sim_disciplined0. by apply disciplined_app in sim_disciplined0 as [? _].
Qed.

Lemma sim_abort s h : sim s h -> exists s', perform Abort s = Ok s' /\ sim s' (track Abort h).
Proof.
  intros Hs. simpl. unfold settle.
  destruct (revert_pending_run (E := SysE) _ _ _ _ (fresh h) (sim_window _ _ Hs) (sim_room _ _ Hs) (sim_fresh _ _ Hs) (sim_fresh_le _ _ Hs))
    as (w & Hrun & Hw & Hc & Hp).
  rewrite Hrun. simpl. eexists. split; [reflexivity|]. apply sim_give_up; try done. by intros [? _]%andb_true_iff.
Qed.

Lemma sim_recover s h : sim s h ->
  exists w, RefWindow_new (DbError := Empty_set) (S (size (db_meta (sys_disk s)))) (meta_of (sys_disk s)) true = Ok w /\
    implements true (first h) (take (length (window h) - fresh h) (window h)) w /\
    pending_canonicalizations w = 0%nat /\ pending_prunings w = 0%nat.
Proof.
  intros []. eapply RefWindow_new_run; [done|destruct sim_room0; split; rewrite ?length_take; lia|].
  rewrite <-(take_drop (length (window h) - fresh h) (window h)) in sim_disciplined0. by apply disciplined_app in sim_disciplined0 as [? _].
Qed.

Lemma sim_restart s h : sim s h -> exists s', perform Restart s = Ok s' /\ sim s' (track Restart h).
Proof.
  intros Hs. simpl. rewrite (imp_counting _ _ _ _ (sim_window _ _ Hs)).
  destruct (sim_recover s h Hs) as (w & Hrun & Hw & Hc & Hp). rewrite Hrun. simpl. eexists. split; [reflexivity|].
  apply sim_give_up; try done. by eapply implements_weaken.
Qed.

Lemma sim_performs os s h : sim s h -> allowed_all os h -> exists s', performs os s = Ok s' /\ sim s' (tracks os h).
Proof.
  revert s h. induction os as [|o os IH]; intros s h Hs; simpl; [eauto|]. intros [Ho Hos].
  assert (exists s', perform o s = Ok s' /\ sim s' (track o h)) as (s' & Hrun & Hs').
  { destruct o; [by apply sim_canonicalize|by apply sim_prune|by apply sim_commit|by apply sim_abort|by apply sim_restart]. }
  rewrite Hrun. simpl. by apply IH.
Qed.

(** *** The start: some state, and no metadata yet *)
Definition start (data : gmap Key bytes) : Sys H Key :=
  mkSys (mkWindow [] ∅ 0 0 0 true) (mkDb data ∅) (mkDb data ∅).

Definition start_hist (data : gmap Key bytes) : Hist H Key := mkHist 0 (dom data) [] 0 0 true.

Lemma start_sim data : map_Forall (fun k v => v = content k) data -> sim (start data) (start_hist data).
Proof.
  intros Hc. constructor; simpl; try done; try lia; [apply implements_nil| |].
  all: constructor; simpl; try done; unfold held, inserts; simpl; set_solver.
Qed.

(** The rows, the index and the counters are determined by the history. *)
Lemma implements_inj first bs (w w' : RefWindow H Key) : implements true first bs w -> implements true first bs w' ->
  pending_canonicalizations w = pending_canonicalizations w' -> pending_prunings w = pending_prunings w' -> w = w'.
Proof.
  intros [Hn Hc Hi Hl Hr Hd] [Hn' Hc' Hi' Hl' Hr' Hd'] Hpc Hpp. assert (death_rows w = death_rows w') as Hrows.
  { apply (list_eq_same_length _ _ (length bs)); [done..|]. intros i r r' Hlt Hir Hir'.
    destruct (lookup_lt_is_Some_2 bs i Hlt) as [b Hb].
    destruct (lookup_lt_is_Some_2 (doomed bs) i) as [D HD]; [by rewrite doomed_length|].
    destruct (Hr i r b Hir Hb), (Hr' i r' b Hir' Hb). pose proof (Hd i r D Hir HD). pose proof (Hd' i r' D Hir' HD).
    destruct r, r'. simpl in *. congruence. }
  assert (death_index w = death_index w') as Hindex.
  { apply map_eq. intros k. apply option_eq. intros n. rewrite (Hi k n), (Hi' k n), Hrows, Hn, Hn'. done. }
  destruct w, w'. simpl in *. congruence.
Qed.
End system.

Section theorems.
Context {OC : OverflowChecks} {H Key : Type} `{Countable Key} `{Codec unit} `{Codec Z} `{Codec (JournalRecord H Key)}.
Context `{!CodecLaws Z (is_u 64)} `{!CodecLaws (JournalRecord H Key) (fun _ => True)} `{!KeyCodec}.
Context (content : Key -> bytes).

(** No operation of the pruning window fails, and none removes a node that a
    state of the window needs: after any sequence of canonicalizations, prunings,
    committed and reverted transactions and restarts, every node of every state
    from the last pruned block to the last canonical block is in the database
    that the transaction would leave, and the same holds on disk for the blocks
    that are already written. *)
Theorem window_keeps_states (data : gmap Key bytes) (os : list (Op H Key)) :
  map_Forall (fun k v => v = content k) data -> allowed_all content os (start_hist data) ->
  let h := tracks os (start_hist data) in
  exists s, performs os (start data) = Ok s /\
    (forall n k, (gone h <= n)%nat -> k ∈ state_at (base h) (take n (window h)) ->
       db_data (sys_tx s) !! k = Some (content k)) /\
    (forall n k, (n <= length (window h) - fresh h)%nat -> k ∈ state_at (base h) (take n (window h)) ->
       db_data (sys_disk s) !! k = Some (content k)).
Proof.
  intros Hc Ho h. destruct (sim_performs content os _ _ (start_sim content data Hc) Ho) as (s & Hrun & Hs).
  exists s. split; [done|]. fold h in Hs. split; intros n k Hn Hk.
  - eapply stored_lookup; [apply Hs|]. by eapply held_states.
  - eapply stored_lookup; [apply Hs|]. apply (held_states _ 0 n); [lia|]. by rewrite take_take, Nat.min_l.
Qed.

(** The database holds nothing but the states of the window: if no transaction
    with a new block was reverted, a node is in the database exactly if the
    state after the last pruned block or after one of the blocks since then has
    it. *)
Theorem window_holds_states (data : gmap Key bytes) (os : list (Op H Key)) :
  map_Forall (fun k v => v = content k) data -> allowed_all content os (start_hist data) ->
  let h := tracks os (start_hist data) in
  clean h = true ->
  exists s, performs os (start data) = Ok s /\
    forall k, k ∈ dom (db_data (sys_tx s)) <->
      exists n, (gone h <= n <= length (window h))%nat /\ k ∈ state_at (base h) (take n (window h)).
Proof.
  intros Hc Ho h Hclean. destruct (sim_performs content os _ _ (start_sim content data Hc) Ho) as (s & Hrun & Hs).
  exists s. split; [done|]. intros k. fold h in Hs. pose proof (stored_data _ _ _ _ _ _ _ (sim_tx _ _ _ Hs)) as Hd.
  rewrite Hclean in Hd. simpl in Hd. rewrite <-Hd. apply held_spec; apply Hs.
Qed.

(** The journal rebuilds the window: when every transaction is settled and
    none with a new block was reverted, [RefWindow::new] on the database
    succeeds and returns the window that is in memory, with the same rows, index
    and number. *)
Theorem journal_recovers_window (data : gmap Key bytes) (os : list (Op H Key)) :
  map_Forall (fun k v => v = content k) data -> allowed_all content os (start_hist data) ->
  let h := tracks os (start_hist data) in
  clean h = true -> fresh h = 0%nat -> gone h = 0%nat ->
  exists s, performs os (start data) = Ok s /\
    RefWindow_new (DbError := Empty_set) (S (size (db_meta (sys_disk s)))) (meta_of (sys_disk s)) true = Ok (sys_window s).
Proof.
  intros Hc Ho h Hclean Hf Hg. destruct (sim_performs content os _ _ (start_sim content data Hc) Ho) as (s & Hrun & Hs).
  exists s. split; [done|]. fold h in Hs. destruct (sim_recover content s h Hs) as (w & Hnew & Hw & Hpc & Hpp).
  rewrite Hnew. f_equal. rewrite Hf, Nat.sub_0_r, firstn_all in Hw. pose proof (sim_window _ _ _ Hs) as Hw'. rewrite Hclean in Hw'.
  eapply implements_inj; [done..| |]; [rewrite (sim_fresh _ _ _ Hs)|rewrite (sim_gone _ _ _ Hs)]; congruence.
Qed.
End theorems.

(** ** An example

    The little-endian codec of [u64], records as lists, and a window in which a
    key is deleted, inserted again, and so survives the pruning of the block
    that deleted it. *)
Module Demo.
Fixpoint to_le (n : nat) (z : Z) : bytes :=
  match n with O => [] | S n => z mod 256 :: to_le n (z / 256) end.

Fixpoint of_le (bs : bytes) : Z := match bs with [] => 0 | b :: bs => b + 256 * of_le bs end.

Lemma to_le_length n z : length (to_le n z) = n.
Proof. revert z. induction n; intros; simpl; auto. Qed.

Lemma of_to_le n z : 0 <= z < 256 ^ Z.of_nat n -> of_le (to_le n z) = z.
Proof.
  revert z. induction n as [|n IH]; intros z Hz; simpl; [lia|].
  rewrite IH; [pose proof (Z.div_mod z 256); lia|]. rewrite Nat2Z.inj_succ, Z.pow_succ_r in Hz by lia.
  split; [apply Z.div_pos; lia|apply Z.div_lt_upper_bound; lia].
Qed.

#[export] Instance unit_codec : Codec unit := {| encode _ := []; decode _ := Some tt |}.
#[export] Instance u64_codec : Codec Z := {| encode := to_le 8; decode bs := Some (of_le bs) |}.
#[export] Instance record_codec : Codec (JournalRecord Z Z) := {|
  encode r := rec_hash r :: Z.of_nat (length (rec_inserted r)) :: rec_inserted r ++ rec_deleted r;
  decode bs := match bs with
    | hash :: n :: ks => Some (mkRecord hash (take (Z.to_nat n) ks) (drop (Z.to_nat n) ks))
    | _ => None
    end |}.

#[export] Instance u64_laws : CodecLaws Z (is_u 64).
Proof. intros z Hz. simpl decode. f_equal. by apply (of_to_le 8). Qed.

#[export] Instance record_laws : CodecLaws (JournalRecord Z Z) (fun _ => True).
Proof. intros [h i d] _. simpl. by rewrite Nat2Z.id, take_app_length, drop_app_length. Qed.

#[export] Instance key_codec : KeyCodec.
Proof. constructor; [done|]. intros. apply to_le_length. Qed.

#[local] Instance checks : OverflowChecks := true.

Definition content (k : Z) : bytes := [k; k].
Definition changes (ins del : list Z) : ChangeSet Z := mkChangeSet ((fun k => (k, content k)) <$> ins) del.
Definition data : gmap Z bytes := {[1 := content 1; 2 := content 2]}.

(** Block 10 deletes 1, block 11 inserts it again and deletes 2; the pruning of
    both, in two transactions. *)
Definition blocks : list (Op Z Z) :=
  [Canonicalize 10 (changes [3] [1]); Commit; Canonicalize 11 (changes [1] [2]); Prune; Commit;
   Canonicalize 12 (changes [4] [3]); Prune; Commit; Restart].

(** The same with a block that is given up. *)
Definition reverted : list (Op Z Z) :=
  [Canonicalize 10 (changes [3] [1]); Commit; Canonicalize 20 (changes [1] [2]); Prune; Abort;
   Canonicalize 11 (changes [5] [2]); Prune].

Lemma data_content : map_Forall (fun k v => v = content k) data.
Proof. by apply (bool_decide_unpack _). Qed.

Ltac solve_allowed := simpl; repeat split; repeat constructor; try lia; by apply (bool_decide_unpack _).

Lemma blocks_allowed : allowed_all content blocks (start_hist data).
Proof. solve_allowed. Qed.

Lemma reverted_allowed : allowed_all content reverted (start_hist data).
Proof. solve_allowed. Qed.

(** The nodes after the reverted block are those of the states from block 10 on. *)
Lemma window_keeps_states_witness :
  exists s, performs reverted (start data) = Ok s /\
    db_data (sys_tx s) !! 3 = Some (content 3) /\ db_data (sys_disk s) !! 2 = Some (content 2).
Proof.
  destruct (window_keeps_states content data reverted data_content reverted_allowed) as (s & Hrun & Htx & Hdisk).
  exists s. split_and!; [done|apply (Htx 2%nat)|apply (Hdisk 1%nat)]; (vm_compute; lia) || by apply (bool_decide_unpack _); vm_compute.
Defined.

Lemma window_holds_states_witness :
  exists s, performs blocks (start data) = Ok s /\ 1 ∈ dom (db_data (sys_tx s)) /\ 2 ∉ dom (db_data (sys_tx s)).
Proof.
  destruct (window_holds_states content data blocks data_content blocks_allowed) as (s & Hrun & Hk); [by vm_compute|].
  exists s. split_and!; [done|apply Hk|rewrite Hk].
  - exists 1%nat. split; [vm_compute; lia|by apply (bool_decide_unpack _); vm_compute].
  - intros (n & Hn & Hin). vm_compute in Hn. assert (n = 0 \/ n = 1)%nat as [-> | ->] by lia; revert Hin;
      apply (bool_decide_unpack _); by vm_compute.
Defined.

Lemma journal_recovers_window_witness :
  exists s, performs blocks (start data) = Ok s /\ window_size (E := Error Empty_set) (sys_window s) = Ok 1 /\
    RefWindow_new (DbError := Empty_set) (S (size (db_meta (sys_disk s)))) (meta_of (sys_disk s)) true = Ok (sys_window s).
Proof.
  destruct (journal_recovers_window content data blocks data_content blocks_allowed) as (s & Hrun & Hnew); [by vm_compute..|].
  exists s. split_and!; [done| |done]. clear Hnew. revert Hrun.
  assert (exists s', performs blocks (start data) = Ok s' /\ window_size (E := Error Empty_set) (sys_window s') = Ok 1) as (s' & -> & Hs').
  { eexists. split; [by vm_compute|by vm_compute]. }
  intros [= <-]. exact Hs'.
Defined.
End Demo.
