(* ===== verification/NonCanonical.v ===== *)
(** * The overlay of blocks that are not canonical yet

    Model of [client/state-db/src/noncanonical.rs]: levels of block overlays
    above the last canonical block, the reference-counted values of the keys
    they insert, the journal, pending canonicalizations and insertions, and the
    values kept for pinned blocks.

    A [VecDeque] is a list from front to back; the two slices that
    [discard_descendants] is given are its tail. *)

From Stdlib Require Import ZArith Lia.
From stdpp Require Import gmap fin_maps option list.
From S2P Require Import Prelude StateDb.

Local Open Scope Z_scope.
Local Open Scope rust_scope.

(** [b"noncanonical_journal"] and [b"last_canonical"]. *)
Definition NON_CANONICAL_JOURNAL : bytes :=
  [110; 111; 110; 99; 97; 110; 111; 110; 105; 99; 97; 108; 95; 106; 111; 117; 114; 110; 97; 108].
Definition LAST_CANONICAL : bytes := [108; 97; 115; 116; 95; 99; 97; 110; 111; 110; 105; 99; 97; 108].
Definition MAX_BLOCKS_PER_LEVEL : Z := 32.

Record BlockOverlay (H Key : Type) : Type := mkOverlay {
  ov_hash : H;
  ov_journal_index : Z;
  ov_journal_key : bytes;
  ov_inserted : list Key;
  ov_deleted : list Key }.

Arguments mkOverlay {H Key} ov_hash ov_journal_index ov_journal_key ov_inserted ov_deleted.
Arguments ov_hash {H Key} _.
Arguments ov_journal_index {H Key} _.
Arguments ov_journal_key {H Key} _.
Arguments ov_inserted {H Key} _.
Arguments ov_deleted {H Key} _.

Record OverlayLevel (H Key : Type) : Type := mkLevel {
  blocks : list (BlockOverlay H Key);
  used_indicies : Z }.

Arguments mkLevel {H Key} blocks used_indicies.
Arguments blocks {H Key} _.
Arguments used_indicies {H Key} _.

Record OverlayRecord (H Key : Type) : Type := mkOverlayRecord {
  or_hash : H;
  or_parent_hash : H;
  or_inserted : list (Key * bytes);
  or_deleted : list Key }.

Arguments mkOverlayRecord {H Key} or_hash or_parent_hash or_inserted or_deleted.
Arguments or_hash {H Key} _.
Arguments or_parent_hash {H Key} _.
Arguments or_inserted {H Key} _.
Arguments or_deleted {H Key} _.

Record NonCanonicalOverlay (H Key : Type) `{Countable H} `{Countable Key} : Type := mkOverlays {
  last_canonicalized : option (H * Z);
  levels : list (OverlayLevel H Key);
  parents : gmap H H;
  pending_canonicalizations : list H;
  pending_insertions : list H;
  values : gmap Key (Z * bytes);
  pinned : gmap H Z;
  pinned_insertions : gmap H (list Key * Z) }.

Arguments mkOverlays {H Key _ _ _ _} last_canonicalized levels parents pending_canonicalizations pending_insertions values pinned pinned_insertions.
Arguments last_canonicalized {H Key _ _ _ _} _.
Arguments levels {H Key _ _ _ _} _.
Arguments parents {H Key _ _ _ _} _.
Arguments pending_canonicalizations {H Key _ _ _ _} _.
Arguments pending_insertions {H Key _ _ _ _} _.
Arguments values {H Key _ _ _ _} _.
Arguments pinned {H Key _ _ _ _} _.
Arguments pinned_insertions {H Key _ _ _ _} _.

(** ** Levels *)
Section level.
Context {OC : OverflowChecks} {H Key E : Type}.
Abbreviation Level := (OverlayLevel H Key).
Abbreviation Overlay := (BlockOverlay H Key).

(** [1 << n] on [u64]. *)
Definition bit64 (n : Z) : res E Z :=
  if n <? 64 then Ok (2 ^ n) else if overflow_checks then Panic else Ok (2 ^ (n mod 64)).

(** The number of ones at the end of a [u64]. *)
Definition trailing_ones (z : Z) : Z := trailing_zeros 64 (Z.ldiff (u_max 64) z).

Definition level_push (overlay : Overlay) (self : Level) : res E Level :=
  bit ← bit64 (ov_journal_index overlay);
  Ok (mkLevel (blocks self ++ [overlay]) (Z.lor (used_indicies self) bit)).

Definition available_index (self : Level) : Z := trailing_ones (used_indicies self).

(** [Vec::remove] panics out of range. *)
Definition level_remove (index : nat) (self : Level) : res E (Overlay * Level) :=
  overlay ← expect (blocks self !! index);
  bit ← bit64 (ov_journal_index overlay);
  Ok (overlay, mkLevel (delete index (blocks self)) (Z.ldiff (used_indicies self) bit)).

Definition level_new : Level := mkLevel [] 0.
End level.

(** ** Reference-counted values *)
Section values.
Context {OC : OverflowChecks} {Key E : Type} `{Countable Key}.
Abbreviation Values := (gmap Key (Z * bytes)).

Definition insert_value (p : Key * bytes) : M Values E unit :=
  let '(k, v) := p in
  values ← get;
  _ ← lift (debug_assert (match values !! k with Some (_, value) => bool_decide (value = v) | None => true end));
  let '(counter, value) := default (0, v) (values !! k) in
  counter ← lift (uadd 32 counter 1);
  modify <[k := (counter, value)]>.

Definition insert_values (inserted : list (Key * bytes)) : M Values E unit := for_each insert_value inserted.

Definition discard_value (k : Key) : M Values E unit :=
  values ← get;
  match values !! k with
  | Some (counter, value) =>
    counter ← lift (usub 32 counter 1);
    if counter =? 0 then modify (delete k) else modify <[k := (counter, value)]>
  | None => lift (debug_assert false)
  end.

Definition discard_values (inserted : list Key) : M Values E unit := for_each discard_value inserted.
End values.

(** ** The overlay *)
Section overlay.
Context {OC : OverflowChecks} {H Key DbError : Type} `{Countable H} `{Countable Key}.
Context `{Codec unit} `{Codec (H * Z)} `{Codec (Z * Z)} `{Codec (OverlayRecord H Key)}.
Abbreviation O := (NonCanonicalOverlay H Key).
Abbreviation Overlay := (BlockOverlay H Key).
Abbreviation Level := (OverlayLevel H Key).
Abbreviation Commit := (CommitSet Key).

Definition to_overlay_key (block index : Z) : bytes := to_meta_key NON_CANONICAL_JOURNAL (block, index).

Definition set_last (x : option (H * Z)) (s : O) : O :=
  mkOverlays x (levels s) (parents s) (pending_canonicalizations s) (pending_insertions s) (values s) (pinned s) (pinned_insertions s).
Definition set_levels (x : list Level) (s : O) : O :=
  mkOverlays (last_canonicalized s) x (parents s) (pending_canonicalizations s) (pending_insertions s) (values s) (pinned s) (pinned_insertions s).
Definition set_parents (x : gmap H H) (s : O) : O :=
  mkOverlays (last_canonicalized s) (levels s) x (pending_canonicalizations s) (pending_insertions s) (values s) (pinned s) (pinned_insertions s).
Definition set_canonicalizations (x : list H) (s : O) : O :=
  mkOverlays (last_canonicalized s) (levels s) (parents s) x (pending_insertions s) (values s) (pinned s) (pinned_insertions s).
Definition set_insertions (x : list H) (s : O) : O :=
  mkOverlays (last_canonicalized s) (levels s) (parents s) (pending_canonicalizations s) x (values s) (pinned s) (pinned_insertions s).
Definition set_values (x : gmap Key (Z * bytes)) (s : O) : O :=
  mkOverlays (last_canonicalized s) (levels s) (parents s) (pending_canonicalizations s) (pending_insertions s) x (pinned s) (pinned_insertions s).
Definition set_pinned (x : gmap H Z) (s : O) : O :=
  mkOverlays (last_canonicalized s) (levels s) (parents s) (pending_canonicalizations s) (pending_insertions s) (values s) x (pinned_insertions s).
Definition set_pinned_insertions (x : gmap H (list Key * Z)) (s : O) : O :=
  mkOverlays (last_canonicalized s) (levels s) (parents s) (pending_canonicalizations s) (pending_insertions s) (values s) (pinned s) x.

(** A computation on the values. *)
Definition on_values {E A} (m : M (gmap Key (Z * bytes)) E A) : M O E A :=
  fun s => let '(v, r) := m (values s) in (set_values v s, r).

(** A computation on the levels after the first. *)
Definition on_tail {E A} (m : M O E A) : M O E A := fun s =>
  match levels s with
  | [] => (s, Panic)
  | level :: rest => let '(s', r) := m (set_levels rest s) in (set_levels (level :: levels s') s', r)
  end.

(** *** Discarding a fork *)

(** [position] of the first block whose parent is [hash]. *)
Fixpoint find_child {E} (parents : gmap H H) (hash : H) (blocks : list Overlay) : res E (option nat) :=
  match blocks with
  | [] => Ok None
  | overlay :: blocks =>
    parent ← expect (parents !! ov_hash overlay);
    if bool_decide (parent = hash) then Ok (Some 0%nat)
    else i ← find_child parents hash blocks; Ok (option_map S i)
  end.

(** What happens to an overlay that leaves the levels: it is saved to be discarded
    later if a block on it is pinned. *)
Definition drop_overlay {E} (overlay : Overlay) (num_pinned : Z) : M O E unit :=
  if negb (num_pinned =? 0) then
    modify (fun s => set_pinned_insertions (<[ov_hash overlay := (ov_inserted overlay, num_pinned)]> (pinned_insertions s)) s)
  else
    _ ← modify (fun s => set_parents (delete (ov_hash overlay) (parents s)) s);
    on_values (discard_values (ov_inserted overlay)).

(** One more if the block itself is pinned. *)
Definition count_pinned {E} (overlay : Overlay) (num_pinned : Z) : M O E Z :=
  pinned ← gets pinned;
  if bool_decide (is_Some (pinned !! ov_hash overlay)) then lift (uadd 32 num_pinned 1) else mret num_pinned.

(** A child that was taken out of the first level is discarded with what is on
    top of it. *)
Definition discard_child {E} (descend : H -> M O E Z) (overlay : Overlay) (pinned_children : Z) : M O E Z :=
  num_pinned ← on_tail (descend (ov_hash overlay));
  num_pinned ← count_pinned overlay num_pinned;
  _ ← drop_overlay overlay num_pinned;
  if negb (num_pinned =? 0) then lift (uadd 32 pinned_children num_pinned) else mret pinned_children.

(** The [while] loop of [discard_descendants]; each round takes a block out of
    the level. *)
Fixpoint discard_loop {E} (descend : H -> M O E Z) (hash : H) (fuel : nat) (pinned_children : Z) : M O E Z :=
  self ← get;
  match levels self with
  | [] => lift Panic
  | level :: rest =>
    found ← lift (find_child (parents self) hash (blocks level));
    match found, fuel with
    | None, _ => mret pinned_children
    | Some _, Datatypes.O => lift Panic
    | Some i, S fuel =>
      '(overlay, level) ← lift (level_remove i level);
      _ ← modify (set_levels (level :: rest));
      pinned_children ← discard_child descend overlay pinned_children;
      discard_loop descend hash fuel pinned_children
    end
  end.

Fixpoint discard_descendants {E} (depth : nat) (hash : H) : M O E Z :=
  ls ← gets levels;
  match ls, depth with
  | [], _ => mret 0
  | _ :: _, Datatypes.O => lift Panic
  | level :: _, S depth => discard_loop (discard_descendants depth) hash (length (blocks level)) 0
  end.

(** *** Block numbers *)
Definition front_block_number {E} (self : O) : res E Z :=
  match last_canonicalized self with Some (_, n) => uadd 64 n 1 | None => Ok 0 end.

Definition last_canonicalized_block_number {E} (self : O) : res E (option Z) :=
  let count := Z.of_nat (length (pending_canonicalizations self)) in
  match last_canonicalized self with
  | Some (_, n) => n ← uadd 64 n count; Ok (Some n)
  | None => Ok (if negb (count =? 0) then Some count else None)
  end.

Definition last_canonicalized_hash (self : O) : option H := fst <$> last_canonicalized self.

Definition top_level {E} (self : O) : res E (list (H * Z)) :=
  last ← last_canonicalized_block_number self;
  let start := default 0 last in
  Ok (match levels self !! length (pending_canonicalizations self) with
      | Some level => (fun r => (ov_hash r, start)) <$> blocks level
      | None => []
      end).

(** *** Insertion *)

(** The checks on the number and on the parent, when there is a last canonical
    block. *)
Definition check_insert {E} (self : O) (number : Z) (parent_hash : H) (front : Z) : res (Error E) unit :=
  too_high ← (if number <? front then Ok true
              else n ← uadd 64 front (Z.of_nat (length (levels self))); n ← uadd 64 n 1; Ok (n <=? number));
  if too_high : bool then Err InvalidBlockNumber
  else if number =? front then
    match last_canonicalized self with
    | Some (h, n) =>
      if bool_decide (h = parent_hash) then m ← usub 64 number 1; ensure (n =? m) InvalidParent
      else Err InvalidParent
    | None => Err InvalidParent
    end
  else ensure (bool_decide (is_Some (parents self !! parent_hash))) InvalidParent.

(** The index of the level for a block number; a level is added if needed. *)
Definition level_for {E} (number front : Z) : M O E nat :=
  ls ← gets levels;
  fresh ← lift (match ls with [] => Ok true | _ => n ← uadd 64 front (Z.of_nat (length ls)); Ok (number =? n) end);
  if fresh : bool then
    _ ← modify (fun s => set_levels (levels s ++ [level_new]) s);
    mret (length ls)
  else
    i ← lift (usub 64 number front);
    _ ← lift (expect (ls !! Z.to_nat i));
    mret (Z.to_nat i).

(** The block is pushed to its level, and its values and its journal record are
    added. *)
Definition insert_overlay {E} (at_level : nat) (hash : H) (number : Z) (parent_hash : H) (changeset : ChangeSet Key)
    (commit : Commit) : M O (Error E) Commit :=
  ls ← gets levels;
  level ← lift (expect (ls !! at_level));
  _ ← lift (ensure (negb (MAX_BLOCKS_PER_LEVEL <=? Z.of_nat (length (blocks level)))) TooManySiblingBlocks);
  let index := available_index level in
  let journal_key := to_overlay_key number index in
  let overlay := mkOverlay hash index journal_key (fst <$> inserted changeset) (deleted changeset) in
  level ← lift (level_push overlay level);
  _ ← modify (fun s => set_levels (<[at_level := level]> (levels s)) s);
  _ ← modify (fun s => set_parents (<[hash := parent_hash]> (parents s)) s);
  let journal_record := mkOverlayRecord hash parent_hash (inserted changeset) (deleted changeset) in
  let commit := push_meta journal_key (encode journal_record) commit in
  _ ← on_values (insert_values (or_inserted journal_record));
  _ ← modify (fun s => set_insertions (pending_insertions s ++ [hash]) s);
  mret commit.

Definition insert {E} (hash : H) (number : Z) (parent_hash : H) (changeset : ChangeSet Key) : M O (Error E) Commit :=
  self ← get;
  front ← lift (front_block_number self);
  commit ← (if (length (levels self) =? 0)%nat && bool_decide (last_canonicalized self = None) && (0 <? number) then
              (* assume that parent was canonicalized *)
              let last_canonicalized := (parent_hash, number - 1) in
              _ ← modify (set_last (Some last_canonicalized));
              mret (push_meta (to_meta_key LAST_CANONICAL tt) (encode last_canonicalized) dflt)
            else if bool_decide (is_Some (last_canonicalized self)) then
              _ ← lift (check_insert self number parent_hash front); mret dflt
            else mret dflt);
  at_level ← level_for number front;
  insert_overlay at_level hash number parent_hash changeset commit.

(** *** Canonicalization *)

Definition position (hash : H) (bs : list Overlay) : option nat :=
  fst <$> list_find (fun overlay => ov_hash overlay = hash) bs.

(** The closure that [discard_journals] runs for each block of a level. *)
Fixpoint discard_level {E} (descend : H -> list bytes * list H -> res E (list bytes * list H)) (parents : gmap H H) (hash : H)
    (bs : list Overlay) (discarded : list bytes * list H) : res E (list bytes * list H) :=
  match bs with
  | [] => Ok discarded
  | overlay :: bs =>
    parent ← expect (parents !! ov_hash overlay);
    discarded ← (if bool_decide (parent = hash) then
                   descend (ov_hash overlay) (discarded.1 ++ [ov_journal_key overlay], discarded.2 ++ [ov_hash overlay])
                 else Ok discarded);
    discard_level descend parents hash bs discarded
  end.

(** The journal keys and the hashes of the descendants of [hash]; [ls] are the
    levels from [level_index] on. *)
Fixpoint discard_journals {E} (parents : gmap H H) (ls : list Level) (hash : H) (discarded : list bytes * list H) :
    res E (list bytes * list H) :=
  match ls with
  | [] => Ok discarded
  | level :: ls => discard_level (discard_journals parents ls) parents hash (blocks level) discarded
  end.

(** The [for] loop of [canonicalize] over a level. *)
Fixpoint discard_siblings {E} (parents : gmap H H) (ls : list Level) (index i : nat) (bs : list Overlay)
    (discarded : list bytes * list H) : res E (list bytes * list H) :=
  match bs with
  | [] => Ok discarded
  | overlay :: bs =>
    discarded ← (if negb (i =? index)%nat then discard_journals parents ls (ov_hash overlay) discarded else Ok discarded);
    discard_siblings parents ls index (S i) bs
      (discarded.1 ++ [ov_journal_key overlay], discarded.2 ++ [ov_hash overlay])
  end.

(** The keys of an overlay with their values. *)
Fixpoint overlay_values {E} (values : gmap Key (Z * bytes)) (ks : list Key) : res E (list (Key * bytes)) :=
  match ks with
  | [] => Ok []
  | k :: ks => p ← expect (values !! k); rest ← overlay_values values ks; Ok ((k, p.2) :: rest)
  end.

Definition canonicalize {E} (hash : H) (commit : Commit) : M O (Error E) Commit :=
  self ← get;
  let pending := length (pending_canonicalizations self) in
  level ← lift (ok_or (levels self !! pending) InvalidBlock);
  index ← lift (ok_or (position hash (blocks level)) InvalidBlock);
  discarded ← lift (discard_siblings (parents self) (drop (S pending) (levels self)) index 0 (blocks level) ([], []));
  overlay ← lift (expect (blocks level !! index));
  new ← lift (overlay_values (values self) (ov_inserted overlay));
  let data := mkChangeSet (inserted (commit_data commit) ++ new) (deleted (commit_data commit) ++ ov_deleted overlay) in
  let commit := delete_meta discarded.1 (mkCommitSet data (commit_meta commit)) in
  front ← lift (front_block_number self);
  number ← lift (uadd 64 front (Z.of_nat pending));
  let canonicalized := (hash, number) in
  let commit := push_meta (to_meta_key LAST_CANONICAL tt) (encode canonicalized) commit in
  _ ← modify (set_canonicalizations (pending_canonicalizations self ++ [hash]));
  mret commit.

(** One overlay of the level that a canonicalization leaves behind. *)
Definition retire_overlay {E} (index : nat) (p : nat * Overlay) : M O E unit :=
  let '(i, overlay) := p in
  depth ← gets (fun s => length (levels s));
  pinned_children ← (if negb (i =? index)%nat then discard_descendants depth (ov_hash overlay) else mret 0);
  pinned_children ← count_pinned overlay pinned_children;
  drop_overlay overlay pinned_children.

Definition apply_canonicalization {E} (hash : H) : M O E unit :=
  ls ← gets levels;
  match ls with
  | [] => lift Panic
  | level :: ls =>
    _ ← modify (set_levels ls);
    index ← lift (expect (position hash (blocks level)));
    for_each (retire_overlay index) (imap pair (blocks level))
  end.

Definition apply_canonicalizations {E} : M O E unit :=
  hashes ← gets pending_canonicalizations;
  _ ← modify (set_canonicalizations []);
  _ ← for_each apply_canonicalization hashes;
  match list.last hashes with
  | Some hash =>
    self ← get;
    let count := Z.of_nat (length hashes) in
    n ← lift (match last_canonicalized self with Some (_, n) => uadd 64 n count | None => usub 64 count 1 end);
    modify (set_last (Some (hash, n)))
  | None => mret tt
  end.

(** *** Lookup *)
Definition overlay_get (self : O) (key : Key) : option bytes := snd <$> (values self !! key).

Definition overlay_have_block (self : O) (hash : H) : bool :=
  (bool_decide (is_Some (parents self !! hash)) || bool_decide (hash ∈ pending_insertions self))
  && negb (bool_decide (hash ∈ pending_canonicalizations self)).

(** *** Reverting and removing blocks *)
Definition revert_overlay {E} (overlay : Overlay) : M O E unit :=
  _ ← modify (fun s => set_parents (delete (ov_hash overlay) (parents s)) s);
  on_values (discard_values (ov_inserted overlay)).

Definition pop_back (s : O) : O := set_levels (take (length (levels s) - 1) (levels s)) s.

Definition revert_one {E} : M O E (option Commit) :=
  ls ← gets levels;
  match list.last ls with
  | Some level =>
    _ ← modify pop_back;
    _ ← for_each revert_overlay (blocks level);
    mret (Some (delete_meta (ov_journal_key <$> blocks level) dflt))
  | None => mret None
  end.

(** The level, from the last to the first, with the block, and its place. *)
Fixpoint find_block (hash : H) (n : nat) (ls : list Level) : option (nat * nat) :=
  match n with
  | Datatypes.O => None
  | S n =>
    match ls !! n ≫= fun level => position hash (blocks level) with
    | Some index => Some (n, index)
    | None => find_block hash n ls
    end
  end.

Definition remove {E} (hash : H) : M O E (option Commit) :=
  self ← get;
  let level_count := length (levels self) in
  let finish (deleted : list bytes) : M O E (option Commit) :=
    _ ← modify (fun s => match list.last (levels s) with Some (mkLevel [] _) => pop_back s | _ => s end);
    mret (match deleted with [] => None | _ => Some (delete_meta deleted dflt) end) in
  match find_block hash level_count (levels self) with
  | None => finish []
  | Some (level_index, index) =>
    if negb (level_index =? level_count - 1)%nat && existsb (fun p => bool_decide (p.2 = hash)) (map_to_list (parents self))
    then mret None
    else
      level ← lift (expect (levels self !! level_index));
      '(overlay, level) ← lift (level_remove index level);
      _ ← modify (fun s => set_levels (<[level_index := level]> (levels s)) s);
      _ ← revert_overlay overlay;
      finish [ov_journal_key overlay]
  end.

(** The first level whose last block is [hash]; a level without blocks panics. *)
Fixpoint level_ending {E} (hash : H) (ls : list Level) : res E (option nat) :=
  match ls with
  | [] => Ok None
  | level :: ls =>
    overlay ← expect (list.last (blocks level));
    if bool_decide (ov_hash overlay = hash) then Ok (Some 0%nat)
    else i ← level_ending hash ls; Ok (option_map S i)
  end.

Definition revert_insertion {E} (hash : H) : M O E unit :=
  _ ← modify (fun s => set_parents (delete hash (parents s)) s);
  ls ← gets levels;
  found ← lift (level_ending hash ls);
  level_index ← lift (expect found);
  level ← lift (expect (ls !! level_index));
  '(overlay, level) ← lift (level_remove (length (blocks level) - 1) level);
  _ ← modify (set_levels (<[level_index := level]> ls));
  _ ← on_values (discard_values (ov_inserted overlay));
  match blocks level with
  | [] =>
    _ ← lift (debug_assert (level_index =? length ls - 1)%nat);
    modify pop_back
  | _ => mret tt
  end.

Definition revert_insertions {E} : M O E unit :=
  hashes ← gets pending_insertions;
  _ ← modify (set_insertions []);
  for_each revert_insertion (reverse hashes).

Definition overlay_apply_pending {E} : M O E unit :=
  _ ← apply_canonicalizations;
  modify (set_insertions []).

Definition overlay_revert_pending {E} : M O E unit :=
  _ ← modify (set_canonicalizations []);
  revert_insertions.

(** *** Pins *)
Definition overlay_pin {E} (hash : H) : M O E unit :=
  self ← get;
  if bool_decide (hash ∈ pending_insertions self) then mret tt
  else
    refs ← lift (uadd 32 (default 0 (pinned self !! hash)) 1);
    modify (set_pinned (<[hash := refs]> (pinned self))).

(** The [while] loop of [unpin]: every round but the last takes one from a
    reference count. *)
Fixpoint unpin_loop {E} (fuel : nat) (parent : option H) : M O E unit :=
  match parent, fuel with
  | None, _ => mret tt
  | Some _, Datatypes.O => lift Panic
  | Some hash, S fuel =>
    self ← get;
    let parent := parents self !! hash in
    match pinned_insertions self !! hash with
    | Some (inserted, count) =>
      count ← lift (usub 32 count 1);
      _ ← (if count =? 0 then
             _ ← modify (set_pinned_insertions (delete hash (pinned_insertions self)));
             _ ← on_values (discard_values inserted);
             modify (fun s => set_parents (delete hash (parents s)) s)
           else modify (set_pinned_insertions (<[hash := (inserted, count)]> (pinned_insertions self))));
      unpin_loop fuel parent
    | None => mret tt
    end
  end.

(** The references to pinned insertions, all together. *)
Definition pin_references (self : O) : nat :=
  sum_list ((fun p => Z.to_nat p.2.2) <$> map_to_list (pinned_insertions self)).

Definition overlay_unpin {E} (hash : H) : M O E unit :=
  self ← get;
  match pinned self !! hash with
  | Some refs =>
    refs ← lift (usub 32 refs 1);
    if refs =? 0 then
      _ ← modify (set_pinned (delete hash (pinned self)));
      unpin_loop (S (pin_references self)) (Some hash)
    else modify (set_pinned (<[hash := refs]> (pinned self)))
  | None => mret tt
  end.

(** *** Reading the journal *)

(** The [for] loop over the indices of a level. *)
Fixpoint read_level (get_meta : bytes -> res DbError (option bytes)) (block : Z) (indices : list nat) (level : Level) :
    M O (Error DbError) Level :=
  match indices with
  | [] => mret level
  | index :: indices =>
    let index := Z.of_nat index in
    let journal_key := to_overlay_key block index in
    found ← lift (map_err DbErr (get_meta journal_key));
    level ← (match found with
             | Some record =>
               record ← lift (ok_or (decode record) Decoding);
               let overlay := mkOverlay (or_hash record) index journal_key (fst <$> or_inserted record) (or_deleted record) in
               _ ← on_values (insert_values (or_inserted record));
               level ← lift (level_push overlay level);
               _ ← modify (fun s => set_parents (<[or_hash record := or_parent_hash record]> (parents s)) s);
               mret level
             | None => mret level
             end);
    read_level get_meta block indices level
  end.

(** The [loop] over the levels, one round for each and one more. *)
Fixpoint read_levels (fuel : nat) (get_meta : bytes -> res DbError (option bytes)) (block : Z) : M O (Error DbError) unit :=
  match fuel with
  | Datatypes.O => lift Panic
  | S fuel =>
    level ← read_level get_meta block (seq 0 (Z.to_nat MAX_BLOCKS_PER_LEVEL)) level_new;
    match blocks level with
    | [] => mret tt
    | _ =>
      _ ← modify (fun s => set_levels (levels s ++ [level]) s);
      block ← lift (uadd 64 block 1);
      read_levels fuel get_meta block
    end
  end.

Definition NonCanonicalOverlay_new (fuel : nat) (get_meta : bytes -> res DbError (option bytes)) : res (Error DbError) O :=
  found ← map_err DbErr (get_meta (to_meta_key LAST_CANONICAL tt));
  last_canonicalized ← (match found with
                        | Some buffer => p ← ok_or (decode buffer) Decoding; Ok (Some p)
                        | None => Ok None
                        end);
  let self := mkOverlays last_canonicalized [] ∅ [] [] ∅ ∅ ∅ in
  match last_canonicalized with
  | Some (_, block) =>
    block ← uadd 64 block 1;
    match read_levels fuel get_meta block self with
    | (self, Ok _) => Ok self
    | (_, Err e) => Err e
    | (_, Panic) => Panic
    end
  | None => Ok self
  end.
End overlay.
