(* ===== verification/NonCanonicalSpec.v ===== *)
(** * What the overlay promises

    The reference counts of the overlay of [NonCanonical] are the numbers of
    insertions by blocks in the levels and by pinned blocks; journal indices are
    unique and within bounds; a canonicalization discards the forks and nothing
    else, and the journal records it deletes are those of the blocks that
    leave. *)

From Stdlib Require Import ZArith Lia.
From stdpp Require Import gmap fin_maps option list.
From S2P Require Import Prelude StateDb NonCanonical.

Local Open Scope Z_scope.
Local Open Scope rust_scope.

(** ** Reference counts *)
Section counts.
Context {OC : OverflowChecks} {Key E : Type} `{Countable Key} (content : Key -> bytes).
Abbreviation Values := (gmap Key (Z * bytes)).
Implicit Types ks ds : list Key.
Implicit Types v : Values.

Fixpoint occ (k : Key) ks : Z :=
  match ks with
  | [] => 0
  | k' :: ks => (if decide (k = k') then 1 else 0) + occ k ks
  end.

(** [v] counts the keys of [ks]. *)
Definition counted v ks : Prop :=
  forall k, v !! k = if occ k ks =? 0 then None else Some (occ k ks, content k).

Lemma occ_bounds k ks : 0 <= occ k ks <= Z.of_nat (length ks).
Proof. induction ks as [|k' ks IH]; simpl; [lia|]. case_decide; lia. Qed.

Lemma occ_app k ks ds : occ k (ks ++ ds) = occ k ks + occ k ds.
Proof. induction ks as [|k' ks IH]; simpl; [done|]. rewrite IH. lia. Qed.

Lemma occ_elem k ks : k ∈ ks <-> 0 < occ k ks.
Proof.
  induction ks as [|k' ks IH]; simpl; [split; [by intros ?%not_elem_of_nil|lia]|].
  rewrite elem_of_cons, IH. pose proof (occ_bounds k ks). case_decide as Hk.
  - split; [lia|by left].
  - split; [intros [?|?]; [done|lia]|right; lia].
Qed.

#[export] Instance occ_proper k : Proper ((≡ₚ) ==> eq) (occ k).
Proof. induction 1; simpl; lia. Qed.

#[export] Instance counted_proper v : Proper ((≡ₚ) ==> iff) (counted v).
Proof. intros ks ds Hp. unfold counted. split; intros Hv k; rewrite (Hv k); by rewrite (occ_proper k _ _ Hp). Qed.

Lemma counted_nil : counted ∅ [].
Proof. intros k. done. Qed.

(** A counted key has its value. *)
Lemma counted_elem v ks k : counted v ks -> (snd <$> v !! k) = if decide (k ∈ ks) then Some (content k) else None.
Proof.
  intros Hv. rewrite (Hv k). pose proof (occ_elem k ks) as Hk. pose proof (occ_bounds k ks).
  case_decide as Hin; destruct (Z.eqb_spec (occ k ks) 0); simpl; try done; exfalso.
  - apply Hk in Hin. lia.
  - apply Hin, Hk. lia.
Qed.

Lemma insert_value_run v ks k : counted v ks -> Z.of_nat (length ks) < 2 ^ 32 - 1 ->
  exists v', insert_value (E := E) (k, content k) v = (v', Ok tt) /\ counted v' (k :: ks).
Proof.
  intros Hv Hlen. pose proof (occ_bounds k ks). unfold insert_value. erewrite bind_Ok by reflexivity.
  assert (match v !! k with Some (_, value) => bool_decide (value = content k) | None => true end = true) as ->.
  { rewrite (Hv k). destruct (_ =? 0); [done|]. by apply bool_decide_eq_true. }
  erewrite bind_Ok by (unfold lift, debug_assert; by destruct overflow_checks).
  assert (default (0, content k) (v !! k) = (occ k ks, content k)) as ->.
  { rewrite (Hv k). destruct (Z.eqb_spec (occ k ks) 0) as [->|]; done. }
  rewrite uadd_ok by (unfold is_u; lia). erewrite bind_Ok by reflexivity. eexists. split; [reflexivity|].
  intros j. simpl. case_decide as Hj.
  - subst. rewrite lookup_insert_eq, (proj2 (Z.eqb_neq _ _)) by lia. do 2 f_equal. lia.
  - rewrite lookup_insert_ne by done. apply Hv.
Qed.

Lemma insert_values_run ins v ks : counted v ks -> Forall (fun p => p.2 = content p.1) ins ->
  Z.of_nat (length (ins.*1 ++ ks)) < 2 ^ 32 ->
  exists v', insert_values (E := E) ins v = (v', Ok tt) /\ counted v' (ins.*1 ++ ks).
Proof.
  unfold insert_values. revert v ks. induction ins as [|[k x] ins IH]; intros v ks Hv Hc Hlen; simpl; [by eexists|].
  inversion_clear Hc as [|?? Hx Hc']. simpl in Hx. subst x.
  simpl in Hlen. rewrite length_app, length_fmap in Hlen.
  destruct (insert_value_run v ks k Hv) as (v1 & Hrun & Hv1); [lia|]. rewrite (bind_Ok _ _ _ _ _ Hrun).
  destruct (IH v1 (k :: ks) Hv1 Hc') as (v2 & Hrun2 & Hv2); [rewrite length_app, length_fmap; simpl; lia|].
  exists v2. split; [done|]. by rewrite <-Permutation_middle in Hv2.
Qed.

Lemma discard_value_run v ks k : counted v (k :: ks) -> Z.of_nat (length (k :: ks)) < 2 ^ 32 ->
  exists v', discard_value (E := E) k v = (v', Ok tt) /\ counted v' ks.
Proof.
  intros Hv Hlen. pose proof (occ_bounds k ks). simpl in Hlen. unfold discard_value. erewrite bind_Ok by reflexivity.
  pose proof (Hv k) as Hk. simpl in Hk. rewrite decide_True, (proj2 (Z.eqb_neq _ _)) in Hk by (done || lia).
  rewrite Hk. rewrite usub_ok by (unfold is_u; lia). erewrite bind_Ok by reflexivity.
  replace (1 + occ k ks - 1) with (occ k ks) by lia.
  assert (forall j, j <> k -> v !! j = if occ j ks =? 0 then None else Some (occ j ks, content j)) as Hne.
  { intros j Hj. rewrite (Hv j). simpl. by rewrite decide_False. }
  destruct (Z.eqb_spec (occ k ks) 0) as [H0'|Hn]; (eexists; split; [reflexivity|]); intros j; destruct (decide (j = k)) as [->|Hj].
  - by rewrite lookup_delete_eq, H0'.
  - rewrite lookup_delete_ne by done. auto.
  - by rewrite lookup_insert_eq, (proj2 (Z.eqb_neq _ _)) by done.
  - rewrite lookup_insert_ne by done. auto.
Qed.

Lemma discard_values_run ds v ks : counted v (ds ++ ks) -> Z.of_nat (length (ds ++ ks)) < 2 ^ 32 ->
  exists v', discard_values (E := E) ds v = (v', Ok tt) /\ counted v' ks.
Proof.
  unfold discard_values. revert v. induction ds as [|k ds IH]; intros v Hv Hlen; simpl; [by eexists|].
  destruct (discard_value_run v (ds ++ ks) k Hv Hlen) as (v1 & Hrun & Hv1). rewrite (bind_Ok _ _ _ _ _ Hrun).
  apply IH; [done|]. simpl in Hlen. lia.
Qed.
End counts.

(** ** Journal indices *)
Section levels.
Context {OC : OverflowChecks} {H Key E : Type}.
Abbreviation Level := (OverlayLevel H Key).
Abbreviation Overlay := (BlockOverlay H Key).
Implicit Types l : Level.

Definition indices l : list Z := ov_journal_index <$> blocks l.

(** The mask has the bits of the indices in use, each used once. *)
Record level_ok l : Prop := {
  ok_nodup : NoDup (indices l);
  ok_range : Forall (fun n => 0 <= n < MAX_BLOCKS_PER_LEVEL) (indices l);
  ok_mask n : 0 <= n -> Z.testbit (used_indicies l) n = bool_decide (n ∈ indices l);
  ok_nonneg : 0 <= used_indicies l }.

Lemma level_new_ok : level_ok level_new.
Proof. constructor; simpl; [constructor|constructor| |done]. intros n Hn. by rewrite Z.bits_0. Qed.

Lemma bit64_ok n : 0 <= n < 64 -> bit64 (E := E) n = Ok (2 ^ n).
Proof. intros Hn. unfold bit64. by rewrite (proj2 (Z.ltb_lt _ _)) by lia. Qed.

Lemma level_remove_run l i o : level_ok l -> blocks l !! i = Some o ->
  exists l', level_remove (E := E) i l = Ok (o, l') /\ level_ok l' /\ blocks l' = delete i (blocks l).
Proof.
  intros [Hnd Hr Hm Hn] Ho. assert (ov_journal_index o ∈ indices l) as Hin.
  { apply list_elem_of_fmap. exists o. split; [done|]. by eapply list_elem_of_lookup_2. }
  rewrite Forall_forall in Hr. pose proof (Hr _ Hin) as Hb. unfold MAX_BLOCKS_PER_LEVEL in Hb. unfold level_remove. rewrite Ho. simpl.
  rewrite bit64_ok by lia. simpl. eexists. split; [reflexivity|]. split; [|done].
  assert (indices l ≡ₚ ov_journal_index o :: (ov_journal_index <$> delete i (blocks l))) as Hperm.
  { unfold indices. rewrite <-fmap_cons. apply fmap_Permutation. by apply delete_Permutation. }
  rewrite Hperm in Hnd. apply NoDup_cons in Hnd as [Hnot Hnd]. unfold indices in *. constructor; simpl; [done| | |].
  - apply Forall_forall. intros n Hn'. apply Hr. rewrite Hperm. set_solver.
  - intros n Hn'. rewrite Z.ldiff_spec, Hm, Z.pow2_bits_eqb by lia. destruct (Z.eqb_spec (ov_journal_index o) n) as [<-|Hne]; simpl.
    + rewrite andb_false_r. symmetry. by apply bool_decide_eq_false.
    + rewrite andb_true_r. apply bool_decide_ext. unfold indices. rewrite Hperm. set_solver.
  - apply Z.ldiff_nonneg. left. done.
Qed.

Lemma level_push_run l o : level_ok l -> 0 <= ov_journal_index o < MAX_BLOCKS_PER_LEVEL -> ov_journal_index o ∉ indices l ->
  exists l', level_push (E := E) o l = Ok l' /\ level_ok l' /\ blocks l' = blocks l ++ [o].
Proof.
  intros [Hnd Hr Hm Hn] Hi Hnot. unfold level_push. unfold MAX_BLOCKS_PER_LEVEL in Hi. rewrite bit64_ok by lia. simpl.
  eexists. split; [reflexivity|]. split; [|done]. constructor; unfold indices in *; simpl; rewrite ?fmap_app; simpl.
  - apply NoDup_app. split_and!; [done| |apply NoDup_singleton]. set_solver.
  - apply Forall_app. split; [done|]. by constructor.
  - intros n Hn'. rewrite Z.lor_spec, Hm, Z.pow2_bits_eqb by lia. unfold indices. destruct (Z.eqb_spec (ov_journal_index o) n) as [<-|Hne].
    + rewrite orb_true_r. symmetry. apply bool_decide_eq_true. set_solver.
    + rewrite orb_false_r. apply bool_decide_ext. set_solver.
  - apply Z.lor_nonneg. split; [done|]. apply Z.pow_nonneg. lia.
Qed.

(** A level with fewer than 32 blocks has an index to spare below 32. *)
Lemma index_to_spare l : level_ok l -> (length (blocks l) < 32)%nat -> exists n, 0 <= n < 32 /\ n ∉ indices l.
Proof.
  intros [Hnd Hr _ _] Hlen. destruct (decide (Forall (fun n => Z.of_nat n ∈ indices l) (seq 0 32))) as [Hall|Hnall].
  - exfalso. assert (Z.of_nat <$> seq 0 32 ⊆ indices l) as Hsub.
    { intros z (n & -> & Hn)%list_elem_of_fmap. rewrite Forall_forall in Hall. auto. }
    assert (Z.of_nat <$> seq 0 32 ⊆+ indices l) as Hle%submseteq_length.
    { apply NoDup_submseteq; [apply NoDup_fmap_2; [apply _|apply NoDup_seq]|done]. }
    rewrite length_fmap, length_seq in Hle. unfold indices in Hle. rewrite length_fmap in Hle. lia.
  - apply not_Forall_Exists in Hnall; [|apply _]. apply Exists_exists in Hnall as (n & [_ Hn]%elem_of_seq & Hnot).
    exists (Z.of_nat n). split; [lia|done].
Qed.

Lemma available_index_spec l : level_ok l -> (length (blocks l) < 32)%nat ->
  0 <= available_index l < MAX_BLOCKS_PER_LEVEL /\ available_index l ∉ indices l.
Proof.
  intros Hl Hlen. destruct (index_to_spare l Hl Hlen) as (n & Hn & Hnot). destruct Hl as [_ _ Hm _].
  set (d := Z.ldiff (u_max 64) (used_indicies l)).
  assert (forall m, 0 <= m -> Z.testbit d m = (m <? 64) && negb (Z.testbit (used_indicies l) m)) as Hd.
  { intros m H'. unfold d. rewrite Z.ldiff_spec. f_equal. change (u_max 64) with (Z.ones 64). apply Z.testbit_ones_nonneg; lia. }
  assert (Z.testbit d n = true) as Hdn.
  { rewrite Hd, Hm by lia. rewrite bool_decide_eq_false_2 by done. rewrite (proj2 (Z.ltb_lt _ _)) by lia. done. }
  destruct (trailing_zeros_spec 64 d n) as (H1 & H2 & H3); [by apply Z.ldiff_nonneg; left|lia|done|].
  unfold available_index, trailing_ones. fold d. unfold MAX_BLOCKS_PER_LEVEL. split; [lia|].
  intros Hin. rewrite Hd, Hm, bool_decide_eq_true_2 in H3 by done. by rewrite andb_false_r in H3.
Qed.
End levels.

(** ** The descendants of discarded blocks *)
Section trees.
Context {H Key : Type} `{EqDecision H} (p : H -> H).
Abbreviation Overlay := (BlockOverlay H Key).
Implicit Types D : list H.
Implicit Types bs : list Overlay.
Implicit Types ls : list (list Overlay).

(** The blocks of a level on top of [D], and the others. *)
Definition children D bs : list Overlay := filter (fun o => p (ov_hash o) ∈ D) bs.
Definition strangers D bs : list Overlay := filter (fun o => p (ov_hash o) ∉ D) bs.

(** The levels above the blocks [D] without the descendants of [D], and these
    descendants. *)
Fixpoint keep D ls : list (list Overlay) :=
  match ls with
  | [] => []
  | bs :: ls => strangers D bs :: keep (ov_hash <$> children D bs) ls
  end.

Fixpoint descendants D ls : list Overlay :=
  match ls with
  | [] => []
  | bs :: ls => children D bs ++ descendants (ov_hash <$> children D bs) ls
  end.

Lemma children_ext D D' bs : (forall x, x ∈ D <-> x ∈ D') -> children D bs = children D' bs.
Proof. intros HD. apply list_filter_iff. intros o. apply HD. Qed.

Lemma strangers_ext D D' bs : (forall x, x ∈ D <-> x ∈ D') -> strangers D bs = strangers D' bs.
Proof. intros HD. apply list_filter_iff. intros o. by rewrite HD. Qed.

Lemma keep_ext D D' ls : (forall x, x ∈ D <-> x ∈ D') -> keep D ls = keep D' ls.
Proof. intros HD. destruct ls; simpl; [done|]. by rewrite (strangers_ext D D'), (children_ext D D'). Qed.

Lemma strangers_nil bs : strangers [] bs = bs.
Proof. unfold strangers. apply filter_id, Forall_forall. intros o _. apply not_elem_of_nil. Qed.

Lemma strangers_all D bs : children D bs = [] -> strangers D bs = bs.
Proof.
  intros Hc. unfold strangers. apply filter_id, Forall_forall. intros o Ho Hp.
  assert (o ∈ children D bs) as Hin by (by apply list_elem_of_filter). rewrite Hc in Hin. by apply not_elem_of_nil in Hin.
Qed.

Lemma children_nil bs : children [] bs = [].
Proof. induction bs as [|o bs IH]; [done|]. unfold children in *. rewrite filter_cons_False; [done|apply not_elem_of_nil]. Qed.

Lemma keep_nil ls : keep [] ls = ls.
Proof. induction ls as [|bs ls IH]; simpl; [done|]. rewrite strangers_nil, children_nil. simpl. by rewrite IH. Qed.

Lemma strangers_app D D' bs : strangers D' (strangers D bs) = strangers (D ++ D') bs.
Proof. unfold strangers. rewrite list_filter_filter. apply list_filter_iff. intros o. rewrite elem_of_app. tauto. Qed.

Lemma elem_of_children D bs o : o ∈ children D bs <-> p (ov_hash o) ∈ D /\ o ∈ bs.
Proof. unfold children, strangers. by rewrite list_elem_of_filter. Qed.

Lemma elem_of_strangers D bs o : o ∈ strangers D bs <-> (p (ov_hash o) ∉ D) /\ o ∈ bs.
Proof. unfold children, strangers. by rewrite list_elem_of_filter. Qed.

(** Discarding one after the other is discarding all. *)
Lemma keep_app D D' ls : keep D' (keep D ls) = keep (D ++ D') ls.
Proof.
  revert D D'. induction ls as [|bs ls IH]; intros D D'; simpl; [done|]. rewrite strangers_app, IH. f_equal.
  apply keep_ext. intros x. rewrite elem_of_app, !list_elem_of_fmap.
  setoid_rewrite elem_of_children. setoid_rewrite elem_of_strangers. setoid_rewrite elem_of_app.
  split; [intros [(o & -> & ? & ?)|(o & -> & ? & ? & ?)]; exists o; tauto|].
  intros (o & -> & Ho & Hin). destruct (decide (p (ov_hash o) ∈ D)); [left|right]; exists o; tauto.
Qed.

Lemma keep_length D ls : length (keep D ls) = length ls.
Proof. revert D. induction ls; intros; simpl; auto. Qed.

(** Every block is kept or discarded. *)
Lemma split_children D bs : bs ≡ₚ children D bs ++ strangers D bs.
Proof. unfold children, strangers. by rewrite <-(filter_app_complement (fun o => p (ov_hash o) ∈ D) bs) at 1. Qed.

Lemma keep_descendants D ls : concat ls ≡ₚ descendants D ls ++ concat (keep D ls).
Proof.
  revert D. induction ls as [|bs ls IH]; intros D; simpl; [done|]. rewrite (split_children D bs) at 1.
  rewrite (IH (ov_hash <$> children D bs)) at 1. solve_Permutation.
Qed.

(** Taking out one child. *)
Lemma strangers_delete D bs i o : bs !! i = Some o -> p (ov_hash o) ∈ D -> strangers D (delete i bs) = strangers D bs.
Proof.
  intros Ho Hp. rewrite delete_take_drop. rewrite <-(take_drop_middle _ _ _ Ho) at 3. unfold strangers. rewrite !filter_app.
  rewrite filter_cons_False; [done|tauto].
Qed.

Lemma children_delete D bs i o : bs !! i = Some o -> p (ov_hash o) ∈ D -> children D bs ≡ₚ o :: children D (delete i bs).
Proof.
  intros Ho Hp. unfold children. etrans; [apply filter_Permutation, (delete_Permutation _ _ _ Ho)|]. by rewrite filter_cons_True.
Qed.
End trees.

(** ** The invariant *)
Section invariant.
Context {OC : OverflowChecks} {H Key : Type} `{Countable H} `{Countable Key} (content : Key -> bytes).
Abbreviation O := (NonCanonicalOverlay H Key).
Abbreviation Overlay := (BlockOverlay H Key).
Abbreviation Level := (OverlayLevel H Key).
Implicit Types s : O.
Implicit Types o : Overlay.
Implicit Types os : list Overlay.

Definition all_blocks s : list Overlay := concat (blocks <$> levels s).
Definition inserted_by os : list Key := concat (ov_inserted <$> os).
Definition pinned_keys s : list Key := concat ((fun e => e.2.1) <$> map_to_list (pinned_insertions s)).

(** The blocks [os] have their values counted, together with those of pinned
    blocks, and their parents known. *)
Record holds os s : Prop := {
  holds_counted : counted content (values s) (inserted_by os ++ pinned_keys s);
  holds_small : Z.of_nat (length (inserted_by os ++ pinned_keys s)) < 2 ^ 32;
  holds_blocks : Z.of_nat (length os) < 2 ^ 32;
  holds_nodup : NoDup (ov_hash <$> os);
  holds_parents : Forall (fun o => is_Some (parents s !! ov_hash o)) os;
  holds_unpinned : Forall (fun o => pinned_insertions s !! ov_hash o = None) os;
  holds_refs : map_Forall (fun _ e => 0 < e.2 < 2 ^ 32) (pinned_insertions s);
  holds_pins : map_Forall (fun _ n => 0 < n < 2 ^ 32) (pinned s) }.

(** The parts of the state that discarding blocks leaves alone; the parents of
    the blocks [os] are among them. *)
Record same os s s' : Prop := {
  same_last : last_canonicalized s' = last_canonicalized s;
  same_canonicalizations : pending_canonicalizations s' = pending_canonicalizations s;
  same_insertions : pending_insertions s' = pending_insertions s;
  same_pinned : pinned s' = pinned s;
  same_parents : Forall (fun o => parents s' !! ov_hash o = parents s !! ov_hash o) os }.

Lemma inserted_by_cons o os : inserted_by (o :: os) = ov_inserted o ++ inserted_by os.
Proof. done. Qed.

Lemma inserted_by_perm os os' : os ≡ₚ os' -> inserted_by os ≡ₚ inserted_by os'.
Proof.
  unfold inserted_by. induction 1; simpl; [done|by f_equiv|rewrite !app_assoc; f_equiv; apply Permutation_app_comm|by etrans].
Qed.

Lemma inserted_by_map (m : gmap H (list Key * Z)) h (e : list Key * Z) : m !! h = None ->
  concat ((fun e => e.2.1) <$> map_to_list (<[h := e]> m)) ≡ₚ e.1 ++ concat ((fun e => e.2.1) <$> map_to_list m).
Proof.
  intros Hh. assert (forall l l' : list (H * (list Key * Z)), l ≡ₚ l' ->
    concat ((fun e => e.2.1) <$> l) ≡ₚ concat ((fun e => e.2.1) <$> l')) as Hperm.
  { induction 1; simpl; [done|by f_equiv|rewrite !app_assoc; f_equiv; apply Permutation_app_comm|by etrans]. }
  rewrite (Hperm _ _ (map_to_list_insert m h e Hh)). done.
Qed.

#[export] Instance holds_proper : Proper ((≡ₚ) ==> eq ==> iff) holds.
Proof.
  intros os os' Hp s ? <-. split; intros []; constructor; try done.
  all: (rewrite <-Hp || rewrite Hp || rewrite <-(inserted_by_perm _ _ Hp) || rewrite (inserted_by_perm _ _ Hp)); done.
Qed.

Lemma holds_levels os s x : holds os s -> holds os (set_levels x s).
Proof. intros []. by constructor. Qed.

Lemma same_refl os s : same os s s.
Proof. constructor; try done. by apply Forall_forall. Qed.

Lemma same_trans os os' s s' s'' : os' ⊆ os -> same os s s' -> same os' s' s'' -> same os' s s''.
Proof.
  intros Hsub [] []. constructor; try congruence. rewrite Forall_forall in *. intros o Ho. rewrite same_parents1 by done. auto.
Qed.

Lemma same_sub os os' s s' : os' ⊆ os -> same os s s' -> same os' s s'.
Proof. intros Hsub []. constructor; try done. rewrite Forall_forall in *. auto. Qed.

(** The values of a block are discarded. *)
Lemma holds_discard {E} o os s : holds (o :: os) s ->
  exists s', on_values (E := E) (discard_values (ov_inserted o)) (set_parents (delete (ov_hash o) (parents s)) s) = (s', Ok tt) /\
    holds os s' /\ same os s s' /\ levels s' = levels s.
Proof.
  intros [Hc Hsm Hb Hnd Hp Hu Hr Hpi]. apply NoDup_cons in Hnd as [Hnot Hnd].
  apply Forall_cons in Hp as [_ Hp]. apply Forall_cons in Hu as [_ Hu].
  rewrite inserted_by_cons, <-app_assoc in Hc, Hsm. simpl in Hb.
  destruct (discard_values_run (E := E) content (ov_inserted o) (values s) _ Hc Hsm) as (v & Hrun & Hv).
  unfold on_values. simpl. rewrite Hrun. eexists. split; [reflexivity|].
  assert (Forall (fun o' => delete (ov_hash o) (parents s) !! ov_hash o' = parents s !! ov_hash o') os) as Hpar.
  { apply Forall_forall. intros o' Ho'. apply lookup_delete_ne. intros Heq. apply Hnot. rewrite Heq. by apply list_elem_of_fmap_2. }
  split_and!; [|by constructor|done]. constructor; simpl; try done.
  - rewrite length_app in Hsm. unfold pinned_keys in *. simpl. lia.
  - lia.
  - apply Forall_forall. intros o' Ho'. rewrite Forall_forall in Hpar, Hp. rewrite Hpar by done. auto.
Qed.

(** The values of a block are kept for its pinned descendants. *)
Lemma holds_save o os s n : holds (o :: os) s -> 0 < n < 2 ^ 32 ->
  let s' := set_pinned_insertions (<[ov_hash o := (ov_inserted o, n)]> (pinned_insertions s)) s in
  holds os s' /\ same os s s'.
Proof.
  intros [Hc Hsm Hb Hnd Hp Hu Hr Hpi] Hn s'. apply NoDup_cons in Hnd as [Hnot Hnd].
  apply Forall_cons in Hp as [_ Hp]. apply Forall_cons in Hu as [Huo Hu]. simpl in Hb.
  assert (inserted_by (o :: os) ++ pinned_keys s ≡ₚ inserted_by os ++ pinned_keys s') as Hperm.
  { rewrite inserted_by_cons. unfold pinned_keys, s'. simpl. rewrite (inserted_by_map _ _ _ Huo). simpl. solve_Permutation. }
  rewrite Hperm in Hc, Hsm. split; [|constructor; try done; by apply Forall_forall].
  constructor; simpl; try done; [lia| |by apply map_Forall_insert_2].
  apply Forall_forall. intros o' Ho'. rewrite Forall_forall in Hu. rewrite lookup_insert_ne; [auto|].
  intros Heq. apply Hnot. rewrite Heq. by apply list_elem_of_fmap_2.
Qed.

Lemma drop_overlay_run {E} o os s n : holds (o :: os) s -> 0 <= n < 2 ^ 32 ->
  exists s', drop_overlay (E := E) o n s = (s', Ok tt) /\ holds os s' /\ same os s s' /\ levels s' = levels s.
Proof.
  intros Hh Hn. unfold drop_overlay. destruct (Z.eqb_spec n 0) as [->|Hne]; simpl.
  - erewrite bind_Ok by reflexivity. by apply holds_discard.
  - destruct (holds_save o os s n Hh) as [Hh' Hs]; [lia|]. eexists. split; [reflexivity|]. done.
Qed.

(** *** Discarding a fork *)
Section discard.
Context {E : Type} (p : H -> H).

Definition known os s : Prop := Forall (fun o => parents s !! ov_hash o = Some (p (ov_hash o))) os.

Lemma known_same os os' s s' : os' ⊆ os -> known os s -> same os' s s' -> known os' s'.
Proof.
  unfold known. rewrite !Forall_forall. intros Hsub Hk [_ _ _ _ Hs] o Ho. rewrite Forall_forall in Hs. rewrite Hs by done. auto.
Qed.

Lemma find_child_run s hash bs : known bs s ->
  (find_child (E := E) (parents s) hash bs = Ok None /\ children p [hash] bs = []) \/
  exists i o, find_child (E := E) (parents s) hash bs = Ok (Some i) /\ bs !! i = Some o /\ p (ov_hash o) ∈ [hash].
Proof.
  induction 1 as [|o bs Ho Hk IH]; simpl; [by left|]. rewrite Ho. simpl. case_bool_decide as Hp.
  - right. exists 0%nat, o. rewrite Hp. set_solver.
  - destruct IH as [[-> Hc]|(i & o' & -> & Ho' & Hp')]; simpl.
    + left. split; [done|]. unfold children in *. rewrite filter_cons_False; [done|set_solver].
    + right. by exists (S i), o'.
Qed.

(** [m] takes the descendants of [D] out of the levels; its result is [acc] and
    at most one for each block that leaves. *)
Definition discards (m : M O E Z) (D : list H) (acc : Z) s : Prop := forall os,
  holds (all_blocks s ++ os) s -> Forall level_ok (levels s) -> known (all_blocks s) s ->
  exists s' r, m s = (s', Ok r) /\ blocks <$> levels s' = keep p D (blocks <$> levels s) /\
    Forall level_ok (levels s') /\ holds (all_blocks s' ++ os) s' /\ same (all_blocks s' ++ os) s s' /\
    acc <= r <= acc + Z.of_nat (length (all_blocks s)) - Z.of_nat (length (all_blocks s')).

Lemma keep_sub D (ls : list (list Overlay)) : concat (keep p D ls) ⊆ concat ls.
Proof. intros o Ho. rewrite (keep_descendants p D ls). set_solver. Qed.

Lemma all_blocks_cons s l rest : levels s = l :: rest -> all_blocks s = blocks l ++ concat (blocks <$> rest).
Proof. unfold all_blocks. by intros ->. Qed.

Lemma count_pinned_run o n s : 0 <= n < 2 ^ 32 - 1 ->
  exists n', count_pinned (E := E) o n s = (s, Ok n') /\ n <= n' <= n + 1.
Proof.
  intros Hn. unfold count_pinned. erewrite bind_Ok by reflexivity. case_bool_decide.
  - rewrite uadd_ok by (unfold is_u; lia). exists (n + 1). split; [done|lia].
  - exists n. split; [done|lia].
Qed.

Lemma discard_child_run descend o acc s l rest os : levels s = l :: rest ->
  discards (descend (ov_hash o)) [ov_hash o] 0 (set_levels rest s) ->
  holds (o :: all_blocks s ++ os) s -> Forall level_ok (levels s) -> known (all_blocks s) s ->
  0 <= acc -> acc + 1 + Z.of_nat (length (all_blocks s)) < 2 ^ 32 ->
  exists s' r rest', discard_child descend o acc s = (s', Ok r) /\ levels s' = l :: rest' /\
    blocks <$> rest' = keep p [ov_hash o] (blocks <$> rest) /\ Forall level_ok (levels s') /\
    holds (all_blocks s' ++ os) s' /\ same (all_blocks s' ++ os) s s' /\
    acc <= r <= acc + 1 + Z.of_nat (length (all_blocks s)) - Z.of_nat (length (all_blocks s')).
Proof.
  intros Hl Hd Hh Hok Hk Hacc Hlen. pose proof (all_blocks_cons _ _ _ Hl) as Hall.
  rewrite Hl in Hok. apply Forall_cons in Hok as [Hokl Hokr].
  destruct (Hd (o :: blocks l ++ os)) as (s1 & n & Hrun & Hkeep & Hok1 & Hh1 & Hs1 & Hn).
  { apply holds_levels. eapply holds_proper; [|done|exact Hh]. unfold all_blocks at 1. simpl. rewrite Hall. solve_Permutation. }
  { done. }
  { unfold known in *. rewrite Hall in Hk. by apply Forall_app in Hk as [_ Hk]. }
  set (s2 := set_levels (l :: levels s1) s1).
  assert (all_blocks s2 = blocks l ++ all_blocks s1) as Hall2 by done.
  assert (all_blocks (set_levels rest s) = concat (blocks <$> rest)) as Hr by done. rewrite Hr in Hn.
  rewrite Hall, length_app in Hlen.
  unfold discard_child. erewrite bind_Ok by (unfold on_tail; rewrite Hl, Hrun; reflexivity).
  destruct (count_pinned_run o n s2) as (n' & Hcount & Hn'); [lia|]. fold s2. rewrite (bind_Ok _ _ _ _ _ Hcount).
  destruct (drop_overlay_run (E := E) o (all_blocks s2 ++ os) s2 n') as (s3 & Hdrop & Hh3 & Hs3 & Hl3); [|lia|].
  { apply holds_levels. eapply holds_proper; [|done|exact Hh1]. rewrite Hall2. solve_Permutation. }
  rewrite (bind_Ok _ _ _ _ _ Hdrop). assert (all_blocks s3 = all_blocks s2) as Hall3 by (unfold all_blocks; by rewrite Hl3).
  assert (same (all_blocks s2 ++ os) s s3) as Hs.
  { eapply (same_trans (all_blocks s1 ++ o :: blocks l ++ os) _ s s2); [rewrite Hall2; set_solver| |done]. by destruct Hs1; constructor. }
  assert (exists r, (if negb (n' =? 0) then lift (uadd 32 acc n') else mret acc) s3 = (s3, Ok r : res E Z) /\ acc <= r <= acc + n') as (r & Hr3 & Hrb).
  { destruct (Z.eqb_spec n' 0); simpl; [exists acc; split; [done|lia]|]. rewrite uadd_ok by (unfold is_u; lia). eexists. split; [done|lia]. }
  exists s3, r, (levels s1). rewrite Hall3. split_and!; try done; [by rewrite Hl3; constructor|lia|].
  rewrite Hall, Hall2, !length_app. lia.
Qed.

(** A round of the loop, and its end. *)
Lemma discard_loop_done (descend : H -> M O E Z) hash fuel acc s l rest : levels s = l :: rest ->
  find_child (E := E) (parents s) hash (blocks l) = Ok None -> discard_loop descend hash fuel acc s = (s, Ok acc).
Proof.
  intros Hl Hf. destruct fuel; simpl; (erewrite bind_Ok by reflexivity); rewrite Hl, Hf; by erewrite bind_Ok by reflexivity.
Qed.

Lemma discard_loop_step (descend : H -> M O E Z) hash fuel acc s l rest i o l' : levels s = l :: rest ->
  find_child (E := E) (parents s) hash (blocks l) = Ok (Some i) -> level_remove (E := E) i l = Ok (o, l') ->
  discard_loop descend hash (S fuel) acc s =
  (discard_child descend o acc ≫= discard_loop descend hash fuel) (set_levels (l' :: rest) s).
Proof.
  intros Hl Hf Hr. simpl. erewrite bind_Ok by reflexivity. rewrite Hl, Hf. erewrite bind_Ok by reflexivity.
  cbn beta iota. rewrite Hr. reflexivity.
Qed.

(** The loop discards the children of [hash] in the first level. *)
Lemma discard_loop_run (descend : H -> M O E Z) hash fuel acc s l rest : levels s = l :: rest ->
  (forall h t, length (levels t) = length rest -> discards (descend h) [h] 0 t) ->
  (length (blocks l) <= fuel)%nat -> 0 <= acc -> acc + Z.of_nat (length (all_blocks s)) < 2 ^ 32 ->
  discards (discard_loop descend hash fuel acc) [hash] acc s.
Proof.
  intros Hl Hd. revert acc s l rest Hl Hd. induction fuel as [|fuel IH]; intros acc s l rest Hl Hd Hfuel Hacc Hlen os Hh Hok Hk.
  all: pose proof (all_blocks_cons _ _ _ Hl) as Hall.
  all: assert (known (blocks l) s) as Hkl by (unfold known in *; rewrite Hall in Hk; by apply Forall_app in Hk as [Hk _]).
  all: destruct (find_child_run s hash (blocks l) Hkl) as [[Hf Hc]|(i & o & Hf & Ho & Hp)].
  1, 3: exists s, acc; rewrite (discard_loop_done _ _ _ _ _ _ _ Hl Hf); split_and!; try done; [|apply same_refl|lia..];
    rewrite Hl; simpl; rewrite Hc; simpl; by rewrite keep_nil, strangers_all.
  { apply lookup_lt_Some in Ho. lia. }
  rewrite Hl in Hok. apply Forall_cons in Hok as [Hokl Hokr].
  destruct (level_remove_run (E := E) l i o Hokl Ho) as (l' & Hrem & Hokl' & Hbl).
  rewrite (discard_loop_step _ _ _ _ _ _ _ _ _ _ Hl Hf Hrem). set (s1 := set_levels (l' :: rest) s).
  assert (all_blocks s1 = delete i (blocks l) ++ concat (blocks <$> rest)) as Hall1 by (unfold s1, all_blocks; simpl; by rewrite Hbl).
  assert (all_blocks s ≡ₚ o :: all_blocks s1) as Hperm by (rewrite Hall, Hall1, app_comm_cons; f_equiv; by apply delete_Permutation).
  assert (known (all_blocks s1) s1) as Hk1.
  { unfold known in *. rewrite Hperm in Hk. by apply Forall_cons in Hk as [_ Hk]. }
  pose proof (Permutation_length Hperm) as Hplen. simpl in Hplen. rewrite Hplen in Hlen.
  destruct (discard_child_run descend o acc s1 l' rest os) as (s2 & r & rest' & Hrun & Hl2 & Hkeep & Hok2 & Hh2 & Hs2 & Hr2);
    [done|by apply Hd| |by constructor|done|lia|lia|].
  { apply holds_levels. eapply holds_proper; [|done|exact Hh]. by rewrite Hperm. }
  rewrite (bind_Ok _ _ _ _ _ Hrun). pose proof (all_blocks_cons _ _ _ Hl2) as Hall2.
  assert (length rest' = length rest) as Hlr by (rewrite <-(length_fmap blocks rest'), Hkeep, keep_length; apply length_fmap).
  assert (all_blocks s2 ⊆ all_blocks s1) as Hsub.
  { rewrite Hall2, Hall1, Hkeep, Hbl. pose proof (keep_sub [ov_hash o] (blocks <$> rest)). set_solver. }
  destruct (IH r s2 l' rest' Hl2) with (os := os) as (s3 & r' & Hrun3 & Hkeep3 & Hok3 & Hh3 & Hs3 & Hr3).
  { rewrite Hlr. done. }
  { rewrite Hbl, length_delete by done. apply lookup_lt_Some in Ho. lia. }
  { lia. } { lia. } { done. } { done. }
  { eapply known_same; [exact Hsub|exact Hk1|]. eapply same_sub; [|done]. set_solver. }
  assert (all_blocks s3 ⊆ all_blocks s2) as Hsub3 by (unfold all_blocks; rewrite Hkeep3; apply keep_sub).
  exists s3, r'. split_and!; try done; [| |lia..].
  - rewrite Hkeep3, Hl2, Hl, !fmap_cons, Hkeep, Hbl. cbn [keep]. rewrite keep_app, (strangers_delete _ _ _ _ _ Ho Hp). f_equal.
    apply keep_ext. intros x. rewrite (fmap_Permutation ov_hash _ _ (children_delete _ _ _ _ _ Ho Hp)). simpl. done.
  - eapply (same_trans (all_blocks s2 ++ os) _ s s2); [set_solver| |done]. by destruct Hs2; constructor.
Qed.

Lemma discard_descendants_run depth hash s : length (levels s) = depth -> discards (discard_descendants depth hash) [hash] 0 s.
Proof.
  revert hash s. induction depth as [|depth IH]; intros hash s Hlen os Hh Hok Hk; simpl; erewrite bind_Ok by reflexivity.
  - destruct (levels s) as [|l rest] eqn:Hl; [|done]. exists s, 0. rewrite Hl. split_and!; try done; [apply same_refl|lia..].
  - destruct (levels s) as [|l rest] eqn:Hl; [done|]. simpl in Hlen.
    rewrite <-Hl in *. eapply (discard_loop_run _ _ _ _ _ l rest); try done; [intros h t Ht; apply IH; lia|].
    pose proof (holds_blocks _ _ Hh) as Hb. rewrite length_app in Hb. lia.
Qed.

(** *** Retiring a level *)

(** One overlay of the level: its descendants go, unless it is the canonical
    block. *)
Lemma retire_overlay_run index hash i o s os : (i = index <-> ov_hash o = hash) ->
  holds (o :: all_blocks s ++ os) s -> Forall level_ok (levels s) -> known (all_blocks s) s ->
  exists s', retire_overlay (E := E) index (i, o) s = (s', Ok tt) /\
    blocks <$> levels s' = keep p (if decide (ov_hash o = hash) then [] else [ov_hash o]) (blocks <$> levels s) /\
    Forall level_ok (levels s') /\ holds (all_blocks s' ++ os) s' /\ same (all_blocks s' ++ os) s s'.
Proof.
  intros Hi Hh Hok Hk. unfold retire_overlay. erewrite bind_Ok by reflexivity.
  assert (exists s1 r, (if negb (i =? index)%nat then discard_descendants (length (levels s)) (ov_hash o) else mret 0) s = (s1, Ok r : res E Z) /\
    blocks <$> levels s1 = keep p (if decide (ov_hash o = hash) then [] else [ov_hash o]) (blocks <$> levels s) /\
    Forall level_ok (levels s1) /\ holds (o :: all_blocks s1 ++ os) s1 /\ same (o :: all_blocks s1 ++ os) s s1 /\
    0 <= r < 2 ^ 32 - 1) as (s1 & r & Hrun & Hkeep & Hok1 & Hh1 & Hs1 & Hr).
  { destruct (Nat.eqb_spec i index) as [Heq|Hne]; simpl.
    - exists s, 0. rewrite decide_True by (by apply Hi). rewrite keep_nil. split_and!; try done. apply same_refl.
    - rewrite decide_False by (by rewrite <-Hi).
      destruct (discard_descendants_run (length (levels s)) (ov_hash o) s eq_refl (o :: os)) as (s1 & r & Hrun & Hkeep & Hok1 & Hh1 & Hs1 & Hr);
        [|done|done|].
      { eapply holds_proper; [|done|exact Hh]. solve_Permutation. }
      exists s1, r. split_and!; try done; [| |lia|].
      + eapply holds_proper; [|done|exact Hh1]. solve_Permutation.
      + eapply same_sub; [|exact Hs1]. set_solver.
      + pose proof (holds_blocks _ _ Hh) as Hb. simpl in Hb. rewrite length_app in Hb. lia. }
  rewrite (bind_Ok _ _ _ _ _ Hrun). destruct (count_pinned_run o r s1) as (n & Hcount & Hn); [lia|].
  rewrite (bind_Ok _ _ _ _ _ Hcount).
  destruct (drop_overlay_run (E := E) o _ s1 n Hh1) as (s2 & Hdrop & Hh2 & Hs2 & Hl2); [lia|].
  assert (all_blocks s2 = all_blocks s1) as Hall by (unfold all_blocks; by rewrite Hl2).
  exists s2. rewrite Hl2, Hall. split_and!; try done. eapply same_trans; [|exact Hs1|exact Hs2]. set_solver.
Qed.

Lemma retire_loop_run index hash bs i0 s os :
  (forall i o, bs !! i = Some o -> (i0 + i)%nat = index <-> ov_hash o = hash) ->
  holds (bs ++ all_blocks s ++ os) s -> Forall level_ok (levels s) -> known (all_blocks s) s ->
  exists s', for_each (retire_overlay (E := E) index) (imap (fun i o => ((i0 + i)%nat, o)) bs) s = (s', Ok tt) /\
    blocks <$> levels s' = keep p (filter (fun h => h <> hash) (ov_hash <$> bs)) (blocks <$> levels s) /\
    Forall level_ok (levels s') /\ holds (all_blocks s' ++ os) s' /\ same (all_blocks s' ++ os) s s'.
Proof.
  revert i0 s. induction bs as [|o bs IH]; intros i0 s Hi Hh Hok Hk.
  - exists s. cbn [imap for_each]. rewrite fmap_nil, filter_nil, keep_nil. split_and!; try done. apply same_refl.
  - cbn [imap for_each]. rewrite Nat.add_0_r.
    destruct (retire_overlay_run index hash i0 o s (bs ++ os)) as (s1 & Hrun & Hkeep & Hok1 & Hh1 & Hs1);
      [specialize (Hi 0%nat o eq_refl); by rewrite Nat.add_0_r in Hi| |done|done|].
    { eapply holds_proper; [|done|exact Hh]. solve_Permutation. }
    assert (all_blocks s1 ⊆ all_blocks s) as Hsub by (unfold all_blocks; rewrite Hkeep; apply keep_sub).
    rewrite (bind_Ok _ _ _ _ _ Hrun).
    destruct (IH (S i0) s1) as (s2 & Hrun2 & Hkeep2 & Hok2 & Hh2 & Hs2).
    { intros i o' Ho'. rewrite <-(Hi (S i) o' Ho'). lia. }
    { eapply holds_proper; [|done|exact Hh1]. solve_Permutation. }
    { done. }
    { eapply known_same; [exact Hsub|exact Hk|]. eapply same_sub; [|exact Hs1]. set_solver. }
    assert (all_blocks s2 ⊆ all_blocks s1) as Hsub2 by (unfold all_blocks; rewrite Hkeep2; apply keep_sub).
    exists s2. split_and!; try done.
    + rewrite <-Hrun2. f_equal. apply imap_ext. intros i o' _. simpl. f_equal. lia.
    + rewrite Hkeep2, Hkeep, keep_app, fmap_cons, filter_cons. case_decide as H1'; case_decide as H2'; try done.
    + eapply same_trans; [|exact Hs1|exact Hs2]. set_solver.
Qed.

(** *** Applying canonicalizations *)
Lemma hash_position_spec hash bs : hash ∈ ov_hash <$> bs -> NoDup (ov_hash <$> bs) ->
  exists index, position hash bs = Some index /\ forall i o, bs !! i = Some o -> i = index <-> ov_hash o = hash.
Proof.
  intros Hin Hnd. unfold position. destruct (list_find (fun o => ov_hash o = hash) bs) as [[index o]|] eqn:Hf.
  - exists index. split; [done|]. apply list_find_Some in Hf as (Ho & Hhash & _). intros i o' Ho'. split.
    + intros ->. by simplify_eq.
    + intros Hh. apply (NoDup_lookup (ov_hash <$> bs) i index hash Hnd); rewrite list_lookup_fmap.
      * by rewrite Ho', <-Hh.
      * by rewrite Ho, <-Hhash.
  - apply list_find_None in Hf. apply list_elem_of_fmap in Hin as (o & -> & Ho). rewrite Forall_forall in Hf. by destruct (Hf o Ho).
Qed.

(** The siblings of the canonical block. *)
Definition siblings (hash : H) os : list H := filter (fun h => h <> hash) (ov_hash <$> os).

Lemma apply_canonicalization_run hash s l rest : levels s = l :: rest -> hash ∈ ov_hash <$> blocks l ->
  holds (all_blocks s) s -> Forall level_ok (levels s) -> known (all_blocks s) s ->
  exists s', apply_canonicalization (E := E) hash s = (s', Ok tt) /\
    blocks <$> levels s' = keep p (siblings hash (blocks l)) (blocks <$> rest) /\
    Forall level_ok (levels s') /\ holds (all_blocks s') s' /\ same (all_blocks s') s s'.
Proof.
  intros Hl Hin Hh Hok Hk. pose proof (all_blocks_cons _ _ _ Hl) as Hall. unfold apply_canonicalization.
  erewrite bind_Ok by reflexivity. rewrite Hl. erewrite bind_Ok by reflexivity.
  rewrite Hl in Hok. apply Forall_cons in Hok as [_ Hok]. rewrite Hall in Hk. apply Forall_app in Hk as [_ Hk].
  pose proof (holds_nodup _ _ Hh) as Hnd. rewrite Hall, fmap_app in Hnd. apply NoDup_app in Hnd as (Hnd & _ & _).
  destruct (hash_position_spec hash (blocks l) Hin Hnd) as (index & Hpos & Hidx). rewrite Hpos. erewrite bind_Ok by reflexivity.
  destruct (retire_loop_run index hash (blocks l) 0 (set_levels rest s) []) as (s' & Hrun & Hkeep & Hok' & Hh' & Hs'); [done| |done|done|].
  { apply holds_levels. rewrite app_nil_r. by rewrite Hall in Hh. }
  rewrite app_nil_r in Hh', Hs'. exists s'. split_and!; try done. by destruct Hs'; constructor.
Qed.

(** Blocks to canonicalize one after the other, each on top of the one before. *)
Fixpoint chained (hs : list H) (ls : list (list Overlay)) : Prop :=
  match hs, ls with
  | [], _ => True
  | h :: hs, bs :: ls => h ∈ ov_hash <$> bs /\ match hs with h' :: _ => p h' = h | [] => True end /\ chained hs ls
  | _ :: _, [] => False
  end.

(** The levels after that. *)
Fixpoint settled (hs : list H) (ls : list (list Overlay)) : list (list Overlay) :=
  match hs, ls with
  | h :: hs, bs :: ls => settled hs (keep p (siblings h bs) ls)
  | _, _ => ls
  end.

Lemma settled_sub hs ls : concat (settled hs ls) ⊆ concat ls.
Proof.
  revert ls. induction hs as [|h hs IH]; intros [|bs ls]; simpl; try done.
  specialize (IH (keep p (siblings h bs) ls)). pose proof (keep_sub (siblings h bs) ls). set_solver.
Qed.

Lemma chained_keep D hs ls : NoDup (ov_hash <$> concat ls) -> match hs with h :: _ => p h ∉ D | [] => True end ->
  chained hs ls -> chained hs (keep p D ls).
Proof.
  revert D ls. induction hs as [|h hs IH]; intros D [|bs ls] Hnd Hp; simpl; try done. intros (Hh & Hnext & Hc).
  simpl in Hnd. rewrite fmap_app in Hnd. apply NoDup_app in Hnd as (Hnd & _ & Hnd').
  apply list_elem_of_fmap in Hh as (o & -> & Ho). split_and!; [|done|].
  - apply list_elem_of_fmap. exists o. split; [done|]. by apply elem_of_strangers.
  - apply IH; [done| |done]. destruct hs as [|h' hs]; [done|]. rewrite Hnext.
    intros (o' & Heq & [Hp' Ho']%elem_of_children)%list_elem_of_fmap. rewrite Heq in Hp. done.
Qed.

Lemma apply_canonicalization_loop hs s : chained hs (blocks <$> levels s) ->
  holds (all_blocks s) s -> Forall level_ok (levels s) -> known (all_blocks s) s ->
  exists s', for_each (apply_canonicalization (E := E)) hs s = (s', Ok tt) /\
    blocks <$> levels s' = settled hs (blocks <$> levels s) /\
    Forall level_ok (levels s') /\ holds (all_blocks s') s' /\ same (all_blocks s') s s'.
Proof.
  revert s. induction hs as [|h hs IH]; intros s Hc Hh Hok Hk.
  - exists s. split_and!; try done; apply same_refl.
  - destruct (levels s) as [|l rest] eqn:Hl; [done|]. destruct Hc as (Hin & Hnext & Hc). rewrite <-Hl in Hok.
    destruct (apply_canonicalization_run h s l rest Hl Hin Hh Hok Hk) as (s1 & Hrun & Hkeep & Hok1 & Hh1 & Hs1).
    assert (all_blocks s1 ⊆ all_blocks s) as Hsub.
    { rewrite (all_blocks_cons _ _ _ Hl). unfold all_blocks. rewrite Hkeep. pose proof (keep_sub (siblings h (blocks l)) (blocks <$> rest)). set_solver. }
    cbn [for_each]. rewrite (bind_Ok _ _ _ _ _ Hrun).
    destruct (IH s1) as (s2 & Hrun2 & Hset & Hok2 & Hh2 & Hs2); [|done|done|by eapply known_same|].
    { rewrite Hkeep. apply chained_keep; [| |done].
      - pose proof (holds_nodup _ _ Hh) as Hnd. rewrite (all_blocks_cons _ _ _ Hl), fmap_app in Hnd. by apply NoDup_app in Hnd as (_ & _ & ?).
      - destruct hs; [done|]. rewrite Hnext. unfold siblings. rewrite list_elem_of_filter. tauto. }
    assert (all_blocks s2 ⊆ all_blocks s1) as Hsub2.
    { unfold all_blocks. rewrite Hset. apply settled_sub. }
    exists s2. split_and!; try done; [by rewrite Hset, Hkeep|]. by eapply same_trans.
Qed.
End discard.
End invariant.

(** ** The invariant of the overlay *)
Section overlay_invariant.
Context {OC : OverflowChecks} {H Key : Type} `{Countable H} `{Countable Key} (content : Key -> bytes).
Context `{Codec unit} `{Codec (H * Z)} `{Codec (Z * Z)} `{Codec (OverlayRecord H Key)}.
Abbreviation O := (NonCanonicalOverlay H Key).
Abbreviation Overlay := (BlockOverlay H Key).
Abbreviation Level := (OverlayLevel H Key).
Implicit Types s : O.
Implicit Types o : Overlay.

Definition parent_of s (h : H) : H := default h (parents s !! h).

(** The numbers of the blocks in the levels are within [u64]. *)
Definition numbered s : Prop :=
  match last_canonicalized s with
  | Some (_, n) => 0 <= n /\ n + 1 + Z.of_nat (length (levels s)) < 2 ^ 64 - 1
  | None => Z.of_nat (length (levels s)) < 2 ^ 64 - 1
  end.

Record overlay_inv s : Prop := {
  oi_holds : holds content (all_blocks s) s;
  oi_levels : Forall level_ok (levels s);
  oi_chain : chained (parent_of s) (pending_canonicalizations s) (blocks <$> levels s);
  oi_numbered : numbered s }.

Lemma holds_known os s : holds content os s -> known (parent_of s) os s.
Proof.
  intros Hh. unfold known. eapply Forall_impl; [apply (holds_parents _ _ _ Hh)|]. intros o [h Hp]. unfold parent_of. by rewrite Hp.
Qed.

Lemma overlay_inv_new last : match last with Some (_, n) => 0 <= n < 2 ^ 64 - 2 | None => True end ->
  overlay_inv (mkOverlays last [] ∅ [] [] ∅ ∅ ∅).
Proof.
  intros Hl. constructor; simpl; [|done|done|unfold numbered; simpl; destruct last as [[h n]|]; simpl; lia].
  constructor; simpl; try done; try constructor.
Qed.

(** What a block number in the window says about the levels. *)
Lemma chained_mono (p q : H -> H) hs (ls ls' : list (list Overlay)) :
  Forall2 (fun bs bs' => bs ⊆ bs') ls (take (length ls) ls') -> (forall o, o ∈ concat ls -> p (ov_hash o) = q (ov_hash o)) ->
  chained p hs ls -> chained q hs ls'.
Proof.
  revert ls ls'. induction hs as [|h hs IH]; intros [|bs ls] [|bs' ls'] Hsub Hpq; simpl in *; try done; [by inversion Hsub|].
  apply Forall2_cons in Hsub as [Hbs Hsub]. intros (Hh & Hnext & Hc). split_and!.
  - apply list_elem_of_fmap in Hh as (o & -> & Ho). apply list_elem_of_fmap. eauto.
  - destruct hs as [|h' hs]; [done|]. destruct ls as [|bs1 ls]; [done|]. destruct Hc as [Hh' _].
    apply list_elem_of_fmap in Hh' as (o & -> & Ho). rewrite <-Hpq; [done|]. simpl. set_solver.
  - apply (IH ls ls' Hsub); [|done]. intros o Ho. apply Hpq. set_solver.
Qed.

(** *** Insertion *)

(** A block joins the overlay. *)
Lemma holds_insert {E} os s hash parent_hash ins index key del :
  holds content os s -> hash ∉ ov_hash <$> os -> pinned_insertions s !! hash = None ->
  Forall (fun e => e.2 = content e.1) ins -> Z.of_nat (length os) < 2 ^ 32 - 1 ->
  Z.of_nat (length (ins.*1 ++ inserted_by os ++ pinned_keys s)) < 2 ^ 32 ->
  let s1 := set_parents (<[hash := parent_hash]> (parents s)) s in
  exists v, on_values (E := E) (insert_values ins) s1 = (set_values v s1, Ok tt) /\
    holds content (mkOverlay hash index key ins.*1 del :: os) (set_values v s1).
Proof.
  intros [Hc Hsm Hb Hnd Hp Hu Hr Hpi] Hnot Hpin Hcont Hlen Hsize s1.
  destruct (insert_values_run (E := E) content ins (values s) _ Hc Hcont Hsize) as (v & Hrun & Hv).
  exists v. split; [unfold on_values; simpl; by rewrite Hrun|]. constructor; simpl; try done.
  - rewrite inserted_by_cons, <-app_assoc. done.
  - rewrite inserted_by_cons, <-app_assoc. done.
  - lia.
  - by constructor.
  - constructor; [by rewrite lookup_insert_eq|]. eapply Forall_impl; [exact Hp|]. intros o Ho.
    destruct (decide (hash = ov_hash o)) as [->|]; [by rewrite lookup_insert_eq|by rewrite lookup_insert_ne].
  - by constructor.
Qed.

Definition insertable s (hash : H) (number : Z) (changes : ChangeSet Key) : Prop :=
  (hash ∉ ov_hash <$> all_blocks s) /\ pinned_insertions s !! hash = None /\
  Forall (fun e => e.2 = content e.1) (inserted changes) /\
  Z.of_nat (length (all_blocks s)) < 2 ^ 32 - 1 /\
  Z.of_nat (length ((inserted changes).*1 ++ inserted_by (all_blocks s) ++ pinned_keys s)) < 2 ^ 32 /\
  0 <= number < 2 ^ 64 - 2.

(** The number is at most one above the top level. *)
Definition adjacent s (number : Z) : Prop :=
  match last_canonicalized s with
  | Some (_, n) => n + 1 <= number <= n + 1 + Z.of_nat (length (levels s))
  | None => levels s = [] \/ number <= Z.of_nat (length (levels s))
  end.

Lemma check_insert_run {E} s number parent_hash h n : last_canonicalized s = Some (h, n) -> numbered s -> 0 <= number < 2 ^ 64 ->
  (exists e, check_insert (E := E) s number parent_hash (n + 1) = Err e) \/
  (check_insert (E := E) s number parent_hash (n + 1) = Ok tt /\ adjacent s number /\ (number = n + 1 -> parent_hash = h)).
Proof.
  unfold numbered, adjacent. intros Hl Hn Hnum. rewrite Hl in *. unfold check_insert.
  destruct (Z.ltb_spec number (n + 1)); simpl; [by left; eexists|]. rewrite uadd_ok by (unfold is_u; lia). simpl.
  rewrite uadd_ok by (unfold is_u; lia). simpl. destruct (Z.leb_spec (n + 1 + Z.of_nat (length (levels s)) + 1) number); simpl; [by left; eexists|].
  rewrite Hl. destruct (Z.eqb_spec number (n + 1)).
  - case_bool_decide; [|by left; eexists]. rewrite usub_ok by (unfold is_u; lia). simpl. unfold ensure.
    destruct (_ =? _); [right; split_and!; [done|lia|lia|done]|by left; eexists].
  - unfold ensure. case_bool_decide; [right; split_and!; [done|lia|lia|done]|by left; eexists].
Qed.

Lemma level_for_run {E} s number front : Z.of_nat (length (levels s)) < 2 ^ 64 -> 0 <= front ->
  front + Z.of_nat (length (levels s)) < 2 ^ 64 ->
  levels s = [] \/ front <= number <= front + Z.of_nat (length (levels s)) ->
  (level_for (E := E) number front s = (set_levels (levels s ++ [level_new]) s, Ok (length (levels s))) /\
     (levels s <> [] -> number = front + Z.of_nat (length (levels s)))) \/
  exists i, level_for (E := E) number front s = (s, Ok i) /\ (i < length (levels s))%nat /\ number = front + Z.of_nat i.
Proof.
  intros Hlen Hf Hsum Hnum. unfold level_for. erewrite bind_Ok by reflexivity.
  assert (exists b, match levels s with [] => Ok true | _ => n ← uadd (E := E) 64 front (Z.of_nat (length (levels s))); Ok (number =? n) end = Ok b /\
    (if b : bool then levels s <> [] -> number = front + Z.of_nat (length (levels s))
     else levels s <> [] /\ number <> front + Z.of_nat (length (levels s)))) as (b & -> & Hb).
  { rewrite uadd_ok by (unfold is_u; lia). destruct (levels s); [by exists true|]. eexists. split; [reflexivity|].
    destruct (Z.eqb_spec number (front + Z.of_nat (length (o :: l)))); done. }
  erewrite bind_Ok by reflexivity. destruct b; [by left|]. destruct Hnum as [?|Hnum]; [naive_solver|]. destruct Hb as [_ Hne].
  right. rewrite usub_ok by (unfold is_u; lia). erewrite bind_Ok by reflexivity.
  destruct (lookup_lt_is_Some_2 (levels s) (Z.to_nat (number - front))) as [l Hl]; [lia|]. rewrite Hl.
  erewrite bind_Ok by reflexivity. eexists. split; [reflexivity|split; lia].
Qed.

(** A block more at the end of a level. *)
Lemma fmap_push_level (ls : list Level) i l l' o : ls !! i = Some l -> blocks l' = blocks l ++ [o] ->
  blocks <$> <[i := l']> ls = alter (.++ [o]) i (blocks <$> ls).
Proof.
  intros Hl Hb. rewrite list_fmap_insert, Hb. apply list_eq. intros j. destruct (decide (i = j)) as [<-|Hne].
  - rewrite list_lookup_insert_eq by (rewrite length_fmap; by eapply lookup_lt_Some).
    by rewrite list_lookup_alter_eq, list_lookup_fmap, Hl.
  - by rewrite list_lookup_insert_ne, list_lookup_alter_ne by done.
Qed.

Lemma concat_push (ls : list (list Overlay)) i o : (i < length ls)%nat -> concat (alter (.++ [o]) i ls) ≡ₚ o :: concat ls.
Proof.
  revert i. induction ls as [|bs ls IH]; intros [|i] Hi; simpl in *; [lia|lia| |].
  - solve_Permutation.
  - change (bs ++ concat (alter (.++ [o]) i ls) ≡ₚ o :: bs ++ concat ls). rewrite IH by lia. solve_Permutation.
Qed.

Lemma push_levels_sub (ls : list (list Overlay)) i o :
  Forall2 (fun bs bs' => bs ⊆ bs') ls (take (length ls) (alter (.++ [o]) i ls)).
Proof.
  rewrite take_ge by (by rewrite length_alter). revert i. induction ls as [|bs ls IH]; intros [|i]; simpl; constructor; try done.
  - set_solver.
  - apply IH.
Qed.

(** The level gets the block, with an index that no other block of it has. *)
Lemma insert_overlay_run {E} at_level l hash number parent_hash changes commit s :
  overlay_inv s -> insertable s hash number changes -> levels s !! at_level = Some l ->
  (insert_overlay (E := E) at_level hash number parent_hash changes commit s = (s, Err TooManySiblingBlocks) /\
     (32 <= length (blocks l))%nat) \/
  exists s' index, let key := to_overlay_key number index in
    insert_overlay (E := E) at_level hash number parent_hash changes commit s =
      (s', Ok (push_meta key (encode (mkOverlayRecord hash parent_hash (inserted changes) (deleted changes))) commit)) /\
    overlay_inv s' /\ 0 <= index < MAX_BLOCKS_PER_LEVEL /\ (index ∉ indices l) /\
    blocks <$> levels s' = alter (.++ [mkOverlay hash index key (inserted changes).*1 (deleted changes)]) at_level (blocks <$> levels s) /\
    last_canonicalized s' = last_canonicalized s /\ parents s' = <[hash := parent_hash]> (parents s) /\
    pending_canonicalizations s' = pending_canonicalizations s /\ pending_insertions s' = pending_insertions s ++ [hash].
Proof.
  intros [Hh Hok Hchain Hnum] (Hfresh & Hpin & Hcont & Hb & Hsize & Hn) Hl.
  unfold insert_overlay. erewrite bind_Ok by reflexivity. rewrite Hl. erewrite bind_Ok by reflexivity.
  destruct (Z.leb_spec MAX_BLOCKS_PER_LEVEL (Z.of_nat (length (blocks l)))) as [Hfull|Hroom].
  { left. split; [done|unfold MAX_BLOCKS_PER_LEVEL in Hfull; lia]. }
  right. erewrite bind_Ok by reflexivity. assert (level_ok l) as Hokl by (by eapply Forall_lookup_1).
  destruct (available_index_spec l Hokl) as [Hidx Hnew]; [unfold MAX_BLOCKS_PER_LEVEL in Hroom; lia|]. set (index := available_index l) in *. simpl.
  set (o := mkOverlay hash index (to_overlay_key number index) (fst <$> inserted changes) (deleted changes)).
  destruct (level_push_run (E := Error E) l o Hokl Hidx Hnew) as (l' & Hpush & Hokl' & Hbl). rewrite Hpush.
  do 3 erewrite bind_Ok by reflexivity.
  set (s1 := set_levels (<[at_level := l']> (levels s)) s).
  destruct (holds_insert (E := Error E) (all_blocks s) s1 hash parent_hash (inserted changes) index (to_overlay_key number index) (deleted changes))
    as (v & Hrun & Hh'); [by apply holds_levels|done|done|done|done|done|].
  rewrite (bind_Ok _ _ _ _ _ Hrun). erewrite bind_Ok by reflexivity.
  eexists _, index. split; [reflexivity|]. simpl. fold o.
  assert (blocks <$> <[at_level := l']> (levels s) = alter (.++ [o]) at_level (blocks <$> levels s)) as Hlv by (by apply fmap_push_level with l).
  split_and!; try done; [|lia..]. constructor; simpl.
  - assert (all_blocks s1 ≡ₚ o :: all_blocks s) as Hperm.
    { unfold all_blocks, s1. simpl. rewrite Hlv. apply concat_push. rewrite length_fmap. by eapply lookup_lt_Some. }
    eapply holds_proper; [exact Hperm|reflexivity|]. by destruct Hh'; constructor.
  - by apply Forall_insert.
  - rewrite Hlv. eapply chained_mono; [by apply push_levels_sub| |exact Hchain]. intros o' Ho'. unfold parent_of. simpl.
    rewrite lookup_insert_ne; [done|]. intros Heq. apply Hfresh. rewrite Heq. by apply list_elem_of_fmap_2.
  - unfold numbered in *. simpl. by rewrite length_insert.
Qed.

(** An empty level on top. *)
Lemma overlay_inv_new_level s : overlay_inv s -> numbered (set_levels (levels s ++ [level_new]) s) ->
  overlay_inv (set_levels (levels s ++ [level_new]) s).
Proof.
  intros [Hh Hok Hchain Hnum] Hn. constructor; simpl; [| | |done].
  - apply holds_levels. unfold all_blocks. simpl. rewrite fmap_app, concat_app. simpl. by rewrite !app_nil_r.
  - apply Forall_app. split; [done|]. constructor; [apply level_new_ok|done].
  - eapply chained_mono; [|done|exact Hchain]. rewrite fmap_app, take_app_length. by apply Forall_Forall2_diag, Forall_forall.
Qed.

Lemma insertable_levels s ls hash number changes : concat (blocks <$> ls) = all_blocks s ->
  insertable s hash number changes -> insertable (set_levels ls s) hash number changes.
Proof. unfold insertable, all_blocks. simpl. by intros ->. Qed.

(** The first block number above the last canonical block. *)
Definition front_of s : Z := match last_canonicalized s with Some (_, n) => n + 1 | None => 0 end.

(** The keys of the overlay in the metadata. *)
Definition overlay_key (k : bytes) : Prop :=
  k = to_meta_key LAST_CANONICAL tt \/ exists n i, n ∈u 64 /\ i ∈u 64 /\ k = to_overlay_key n i.

Definition overlay_commit (c : CommitSet Key) : Prop :=
  commit_data c = dflt /\ deleted (commit_meta c) = [] /\ Forall (fun e => overlay_key e.1) (inserted (commit_meta c)).

Lemma overlay_commit_push k v c : overlay_key k -> overlay_commit c -> overlay_commit (push_meta k v c).
Proof. intros Hk (Hd & Hm & Hi). split_and!; [done|done|]. simpl. apply Forall_app. split; [done|]. by constructor. Qed.

Lemma overlay_commit_dflt : overlay_commit dflt.
Proof. split_and!; [done|done|constructor]. Qed.

(** What an insertion did: the block [o] is at the end of level [i], which is new
    if it is above all others, with an index that is new there; the commit gets
    the journal record of the block. *)
Record inserted_one (front : Z) s (hash : H) (number : Z) (parent_hash : H) (changes : ChangeSet Key) (c0 c : CommitSet Key) s' (i : nat) o : Prop := {
  io_hash : ov_hash o = hash;
  io_inserted : ov_inserted o = (inserted changes).*1;
  io_deleted : ov_deleted o = deleted changes;
  io_key : ov_journal_key o = to_overlay_key number (ov_journal_index o);
  io_range : 0 <= ov_journal_index o < MAX_BLOCKS_PER_LEVEL;
  io_fresh : ov_journal_index o ∉ ov_journal_index <$> default [] ((blocks <$> levels s) !! i);
  io_index : (i <= length (levels s))%nat;
  io_levels : blocks <$> levels s' =
    alter (.++ [o]) i ((blocks <$> levels s) ++ (if (i =? length (levels s))%nat then [[]] else []));
  io_number : levels s = [] \/ number = front + Z.of_nat i;
  io_parents : parents s' = <[hash := parent_hash]> (parents s);
  io_pending : pending_canonicalizations s' = pending_canonicalizations s;
  io_insertions : pending_insertions s' = pending_insertions s ++ [hash];
  io_commit : c = push_meta (ov_journal_key o) (encode (mkOverlayRecord hash parent_hash (inserted changes) (deleted changes))) c0 }.

Lemma inserted_one_key front s hash number parent_hash changes c0 c s' i o : 0 <= number < 2 ^ 64 ->
  inserted_one front s hash number parent_hash changes c0 c s' i o -> overlay_key (ov_journal_key o).
Proof.
  intros Hn Ho. right. exists number, (ov_journal_index o). pose proof (io_range _ _ _ _ _ _ _ _ _ _ _ Ho) as Hr.
  unfold is_u, MAX_BLOCKS_PER_LEVEL in *. split_and!; [lia..|]. apply Ho.
Qed.

Lemma insert_at_run {E} i l hash number parent_hash changes commit s :
  overlay_inv s -> insertable s hash number changes -> levels s !! i = Some l ->
  ((32 <= length (blocks l))%nat /\ insert_overlay (E := E) i hash number parent_hash changes commit s = (s, Err TooManySiblingBlocks)) \/
  exists s' c o, insert_overlay (E := E) i hash number parent_hash changes commit s = (s', Ok c) /\ overlay_inv s' /\
    (forall front, levels s = [] \/ number = front + Z.of_nat i -> inserted_one front s hash number parent_hash changes commit c s' i o) /\
    last_canonicalized s' = last_canonicalized s.
Proof.
  intros Hinv Hins Hl. destruct (insert_overlay_run (E := E) i l hash number parent_hash changes commit s Hinv Hins Hl)
    as [[Hrun Hfull]|(s' & index & Hrun & Hs' & Hidx & Hnot & Hlv & Hlast & Hpar & Hpend & Hpi)]; [by left|right].
  eexists s', _, (mkOverlay hash index (to_overlay_key number index) (inserted changes).*1 (deleted changes)).
  split; [exact Hrun|]. split_and!; [done| |done]. intros front Hn. pose proof (lookup_lt_Some _ _ _ Hl).
  constructor; simpl; try done; [|lia|].
  - by rewrite list_lookup_fmap, Hl.
  - rewrite (proj2 (Nat.eqb_neq _ _)) by lia. by rewrite app_nil_r.
Qed.

Lemma insert_from {E} front hash number parent_hash changes commit s :
  overlay_inv s -> insertable s hash number changes -> 0 <= front -> front + Z.of_nat (length (levels s)) < 2 ^ 64 ->
  levels s = [] \/ front <= number <= front + Z.of_nat (length (levels s)) ->
  (levels s = [] \/ number = front + Z.of_nat (length (levels s)) -> numbered (set_levels (levels s ++ [level_new]) s)) ->
  exists s' r, (level_for (E := Error E) number front ≫= fun at_level =>
      insert_overlay at_level hash number parent_hash changes commit) s = (s', r) /\ overlay_inv s' /\
    ((exists e, r = Err e /\ s' = s /\ levels s <> []) \/
     (exists c i o, r = Ok c /\ inserted_one front s hash number parent_hash changes commit c s' i o /\
        last_canonicalized s' = last_canonicalized s)).
Proof.
  intros Hinv Hins Hf Hsum Hnum Hnew.
  destruct (level_for_run (E := Error E) s number front) as [[Hrun Hn]|(i & Hrun & Hi & Hni)]; [lia|done|done|done| |]; rewrite (bind_Ok _ _ _ _ _ Hrun).
  - set (t := set_levels (levels s ++ [level_new]) s).
    assert (all_blocks t = all_blocks s) as Hall by (unfold all_blocks; simpl; rewrite fmap_app, concat_app; simpl; by rewrite !app_nil_r).
    destruct (insert_at_run (E := E) (length (levels s)) level_new hash number parent_hash changes commit t)
      as [[Hfull _]|(s' & c & o & Hrun' & Hs' & Hone & Hlast)].
    + apply overlay_inv_new_level; [done|]. apply Hnew. destruct (levels s); [by left|right; by apply Hn].
    + by apply insertable_levels.
    + simpl. by rewrite lookup_app_r, Nat.sub_diag by lia.
    + simpl in Hfull. lia.
    + exists s', (Ok c). split_and!; try done. right. exists c, (length (levels s)), o. split_and!; try done.
      destruct (Hone (number - Z.of_nat (length (levels s)))); [right; lia|]. simpl in *. rewrite length_app in io_levels0. simpl in io_levels0.
      rewrite (proj2 (Nat.eqb_neq _ _)), app_nil_r, fmap_app in io_levels0 by lia. constructor; try done.
      * rewrite lookup_ge_None_2 by (rewrite length_fmap; lia). apply not_elem_of_nil.
      * by rewrite Nat.eqb_refl.
      * destruct (levels s); [by left|right; by apply Hn].
  - destruct (lookup_lt_is_Some_2 _ _ Hi) as [l Hl].
    destruct (insert_at_run (E := E) i l hash number parent_hash changes commit s Hinv Hins Hl) as [[_ Hrun']|(s' & c & o & Hrun' & Hs' & Hone & Hlast)].
    + exists s, (Err TooManySiblingBlocks). split_and!; try done. left. eexists. split_and!; try done. by intros Hnil; rewrite Hnil in Hl.
    + exists s', (Ok c). split_and!; try done. right. exists c, i, o. split_and!; try done. apply Hone. by right.
Qed.

Lemma insert_run {E} s hash number parent_hash changes : overlay_inv s -> insertable s hash number changes ->
  (last_canonicalized s = None -> adjacent s number) ->
  exists s' r, insert (E := E) hash number parent_hash changes s = (s', r) /\ overlay_inv s' /\
    ((exists e, r = Err e /\ s' = s) \/
     (exists c0 c i o, r = Ok c /\ overlay_commit c0 /\ inserted_one (front_of s) s hash number parent_hash changes c0 c s' i o /\
        (last_canonicalized s' = last_canonicalized s /\ c0 = dflt \/ levels s = [] /\ last_canonicalized s = None /\ 0 < number) /\
        (forall h n, last_canonicalized s = Some (h, n) -> adjacent s number /\ (number = n + 1 -> parent_hash = h)))).
Proof.
  intros Hinv Hins Hadj. pose proof (oi_numbered _ Hinv) as Hn. pose proof Hins as (_ & _ & _ & _ & _ & Hnumber).
  unfold insert. erewrite bind_Ok by reflexivity. unfold front_block_number, numbered, front_of in *.
  destruct (last_canonicalized s) as [[h n]|] eqn:Hlast.
  - rewrite uadd_ok by (unfold is_u; lia). erewrite bind_Ok by reflexivity.
    rewrite (bool_decide_eq_false_2 (Some (h, n) = None)), andb_false_r by done. rewrite bool_decide_eq_true_2 by done. simpl.
    destruct (check_insert_run (E := E) s number parent_hash h n Hlast) as [[e He]|(Hck & Had & Hpar)]; [by unfold numbered; rewrite Hlast|lia| |].
    + exists s, (Err e). split_and!; [|done|left; eauto]. rewrite He. done.
    + rewrite Hck. erewrite bind_Ok by reflexivity. unfold adjacent in Had. rewrite Hlast in Had.
      destruct (insert_from (E := E) (n + 1) hash number parent_hash changes dflt s) as (s' & r & Hrun & Hs' & Hr);
        try done; [lia|lia|right; lia| |].
      { unfold numbered. simpl. rewrite Hlast, length_app. simpl. intros [Hnil|Heq]; [rewrite Hnil; simpl|]; lia. }
      exists s', r. split_and!; try done. destruct Hr as [(e & -> & -> & _)|(c & i & o & -> & Hone & Hl')]; [left; eauto|right].
      exists dflt, c, i, o. split_and!; try done; [left; split; congruence|]. intros h' n' [= <- <-]. split; [|done]. unfold adjacent. by rewrite Hlast.
  - erewrite bind_Ok by reflexivity. specialize (Hadj eq_refl). unfold adjacent in Hadj. rewrite Hlast in Hadj.
    rewrite (bool_decide_eq_true_2 (None = None)), andb_true_r by done. rewrite (bool_decide_eq_false_2 (is_Some _)) by (by intros []).
    destruct ((length (levels s) =? 0)%nat && (0 <? number)) eqn:Hfirst.
    + apply andb_true_iff in Hfirst as [Hlen%Nat.eqb_eq Hpos%Z.ltb_lt]. apply nil_length_inv in Hlen.
      erewrite bind_Ok by reflexivity. set (t := set_last (Some (parent_hash, number - 1)) s).
      destruct (insert_from (E := E) 0 hash number parent_hash changes
        (push_meta (to_meta_key LAST_CANONICAL tt) (encode (parent_hash, number - 1)) dflt) t) as (s' & r & Hrun & Hs' & Hr); try done.
      * destruct Hinv as [Hh Hok Hchain _]. constructor; try done; [by destruct Hh; constructor|].
        unfold numbered, t. simpl. rewrite Hlen. simpl. lia.
      * simpl. lia.
      * by left.
      * unfold numbered, t. simpl. rewrite Hlen. simpl. lia.
      * exists s', r. split_and!; try done. destruct Hr as [(e & _ & _ & Hne)|(c & i & o & -> & Hone & Hl')]; [done|right].
        eexists _, c, i, o. split_and!; [done| |destruct Hone; by constructor|by right|done].
        apply overlay_commit_push; [by left|apply overlay_commit_dflt].
    + erewrite bind_Ok by reflexivity.
      destruct (insert_from (E := E) 0 hash number parent_hash changes dflt s) as (s' & r & Hrun & Hs' & Hr); try done; [lia| | |].
      * destruct Hadj; [by left|right; lia].
      * unfold numbered. simpl. rewrite Hlast, length_app. simpl. intros [Hnil|Heq]; [rewrite Hnil; simpl|]; lia.
      * exists s', r. split_and!; try done. destruct Hr as [(e & -> & -> & _)|(c & i & o & -> & Hone & Hl')]; [left; eauto|right].
        exists dflt, c, i, o. split_and!; try done. left. split; congruence.
Qed.
End overlay_invariant.
