(* ===== verification/NonCanonicalInv.v ===== *)
(** * The operations of the overlay keep its invariant

    Canonicalization, the end of a transaction, reverted and removed blocks and
    pins; what a canonicalization discards; and the values that every block of
    the overlay finds. *)

From Stdlib Require Import ZArith Lia.
From stdpp Require Import gmap fin_maps option list.
From S2P Require Import Prelude StateDb NonCanonical NonCanonicalSpec.

Local Open Scope Z_scope.
Local Open Scope rust_scope.

(** ** The journal of discarded blocks *)
Section journals.
Context {H Key E : Type} `{Countable H} (p : H -> H).
Abbreviation Overlay := (BlockOverlay H Key).
Implicit Types o : Overlay.
Implicit Types bs os : list Overlay.
Implicit Types D : list H.

(** What [os] adds to the lists of discarded journals and blocks. *)
Definition discarding (acc : list bytes * list H) os : list bytes * list H :=
  (acc.1 ++ (ov_journal_key <$> os), acc.2 ++ (ov_hash <$> os)).

Lemma discarding_app acc os os' : discarding (discarding acc os) os' = discarding acc (os ++ os').
Proof. unfold discarding. simpl. by rewrite !fmap_app, !app_assoc. Qed.

Lemma discarding_nil acc : discarding acc [] = acc.
Proof. unfold discarding. simpl. rewrite !app_nil_r. by destruct acc. Qed.

Lemma children_app D D' bs : (forall h, h ∈ D -> h ∉ D') -> children p (D ++ D') bs ≡ₚ children p D bs ++ children p D' bs.
Proof.
  intros Hdis. unfold children. induction bs as [|o bs IH]; simpl; [done|]. rewrite !filter_cons.
  specialize (Hdis (p (ov_hash o))). repeat case_decide; rewrite ?elem_of_app in *; try tauto; rewrite IH; solve_Permutation.
Qed.

Lemma descendants_ext D D' (ls : list (list Overlay)) : D ≡ₚ D' -> descendants p D ls = descendants p D' ls.
Proof. intros HD. destruct ls; simpl; [done|]. by rewrite (children_ext p D D') by (intros; by rewrite HD). Qed.

Lemma descendants_app D D' (ls : list (list Overlay)) : (forall h, h ∈ D -> h ∉ D') ->
  descendants p (D ++ D') ls ≡ₚ descendants p D ls ++ descendants p D' ls.
Proof.
  revert D D'. induction ls as [|bs ls IH]; intros D D' Hdis; simpl; [done|].
  pose proof (children_app D D' bs Hdis) as Hc. rewrite (descendants_ext _ _ ls (fmap_Permutation ov_hash _ _ Hc)), Hc, fmap_app, IH.
  - solve_Permutation.
  - intros h (o & -> & [Ho _]%elem_of_children)%list_elem_of_fmap (o' & Heq & [Ho' _]%elem_of_children)%list_elem_of_fmap.
    rewrite Heq in Ho. by eapply Hdis.
Qed.

Lemma descendants_nil (ls : list (list Overlay)) : descendants p [] ls = [].
Proof. induction ls as [|bs ls IH]; simpl; [done|]. by rewrite children_nil. Qed.

Lemma discard_journals_run (par : gmap H H) (ls : list (OverlayLevel H Key)) hash acc :
  Forall (fun o => par !! ov_hash o = Some (p (ov_hash o))) (concat (blocks <$> ls)) ->
  NoDup (ov_hash <$> concat (blocks <$> ls)) ->
  exists ds, discard_journals (E := E) par ls hash acc = Ok (discarding acc ds) /\ ds ≡ₚ descendants p [hash] (blocks <$> ls).
Proof.
  revert hash acc. induction ls as [|l ls IH]; intros hash acc Hk Hnd; simpl.
  { exists []. by rewrite discarding_nil. }
  simpl in Hk, Hnd. apply Forall_app in Hk as [Hk Hks]. rewrite fmap_app in Hnd. apply NoDup_app in Hnd as (Hnd & _ & Hnds).
  change (list_fmap _ _ blocks ls) with (blocks <$> ls) in *. revert acc Hk Hnd.
  induction (blocks l) as [|o bs IHbs]; intros acc Hk Hnd; simpl.
  { exists []. rewrite discarding_nil. by rewrite descendants_nil. }
  apply Forall_cons in Hk as [Ho Hk]. apply NoDup_cons in Hnd as [Hnot Hnd]. rewrite Ho. simpl.
  case_bool_decide as Hp; simpl.
  - destruct (IH (ov_hash o) (discarding acc [o])) as (ds & Hrun & Hds); [done|done|].
    change (acc.1 ++ [ov_journal_key o], acc.2 ++ [ov_hash o]) with (discarding acc [o]). rewrite Hrun. simpl. rewrite discarding_app.
    destruct (IHbs (discarding acc ([o] ++ ds))) as (ds' & Hrun' & Hds'); [done|done|].
    exists ((o :: ds) ++ ds'). rewrite Hrun', discarding_app. split; [done|].
    assert (children p [hash] (o :: bs) = o :: children p [hash] bs) as -> by (unfold children; rewrite filter_cons_True; [done|set_solver]).
    change (ov_hash <$> o :: children p [hash] bs) with ([ov_hash o] ++ (ov_hash <$> children p [hash] bs)).
    rewrite descendants_app, Hds, Hds'; [solve_Permutation|].
    intros h ->%list_elem_of_singleton (o' & Heq & [_ Ho']%elem_of_children)%list_elem_of_fmap. apply Hnot. rewrite Heq. by apply list_elem_of_fmap_2.
  - destruct (IHbs acc) as (ds & Hrun & Hds); [done|done|]. exists ds. rewrite Hrun. split; [done|].
    assert (children p [hash] (o :: bs) = children p [hash] bs) as -> by (unfold children; rewrite filter_cons_False; [done|set_solver]). done.
Qed.

Lemma discard_siblings_run (par : gmap H H) (ls : list (OverlayLevel H Key)) hash index i0 bs acc :
  Forall (fun o => par !! ov_hash o = Some (p (ov_hash o))) (concat (blocks <$> ls)) ->
  NoDup (ov_hash <$> concat (blocks <$> ls)) -> NoDup (ov_hash <$> bs) ->
  (forall i o, bs !! i = Some o -> (i0 + i)%nat = index <-> ov_hash o = hash) ->
  exists ds, discard_siblings (E := E) par ls index i0 bs acc = Ok (discarding acc ds) /\
    ds ≡ₚ bs ++ descendants p (siblings hash bs) (blocks <$> ls).
Proof.
  intros Hk Hnd. revert i0 acc. induction bs as [|o bs IH]; intros i0 acc Hbs Hi; simpl.
  { exists []. unfold siblings. rewrite discarding_nil, fmap_nil, filter_nil, descendants_nil. done. }
  apply NoDup_cons in Hbs as [Hnot Hbs].
  assert (exists ds, (if negb (i0 =? index)%nat then discard_journals (E := E) par ls (ov_hash o) acc else Ok acc) = Ok (discarding acc ds) /\
    ds ≡ₚ descendants p (if decide (ov_hash o <> hash) then [ov_hash o] else []) (blocks <$> ls)) as (ds & Hrun & Hds).
  { pose proof (Hi 0%nat o eq_refl) as Hi0. rewrite Nat.add_0_r in Hi0. destruct (Nat.eqb_spec i0 index) as [Heq|Hne]; simpl.
    - rewrite decide_False by tauto. exists []. by rewrite discarding_nil, descendants_nil.
    - rewrite decide_True by tauto. by apply discard_journals_run. }
  rewrite Hrun. simpl. change (acc.1 ++ (ov_journal_key <$> ds)) with ((discarding acc ds).1).
  destruct (IH (S i0) (discarding acc (ds ++ [o])) Hbs) as (ds' & Hrun' & Hds').
  { intros i o' Ho'. rewrite <-(Hi (S i) o' Ho'). lia. }
  exists ((ds ++ [o]) ++ ds'). rewrite <-discarding_app, <-Hrun'. split; [by rewrite <-discarding_app|].
  rewrite Hds', Hds. unfold siblings. rewrite fmap_cons, filter_cons. case_decide as Hne.
  - change (ov_hash o :: filter (fun h => h <> hash) (ov_hash <$> bs)) with ([ov_hash o] ++ filter (fun h => h <> hash) (ov_hash <$> bs)).
    rewrite descendants_app; [solve_Permutation|]. intros h ->%list_elem_of_singleton [_ Hin]%list_elem_of_filter. done.
  - rewrite descendants_nil. solve_Permutation.
Qed.
End journals.

(** ** Canonicalization *)
Section canonicalization.
Context {OC : OverflowChecks} {H Key E : Type} `{Countable H} `{Countable Key} (content : Key -> bytes).
Context `{Codec unit} `{Codec (H * Z)} `{Codec (Z * Z)} `{Codec (OverlayRecord H Key)}.
Abbreviation O := (NonCanonicalOverlay H Key).
Abbreviation Overlay := (BlockOverlay H Key).
Implicit Types s : O.
Implicit Types o : Overlay.
Abbreviation inv := (overlay_inv content).

Lemma overlay_values_run {E'} v ks (ins : list Key) : counted content v ks -> ins ⊆ ks ->
  overlay_values (E := E') v ins = Ok ((fun k => (k, content k)) <$> ins).
Proof.
  intros Hv. induction ins as [|k ins IH]; intros Hsub; simpl; [done|].
  pose proof (counted_elem content v ks k Hv) as Hk. rewrite decide_True in Hk by set_solver.
  destruct (v !! k) as [[n x]|]; simplify_eq/=. rewrite IH by set_solver. done.
Qed.

Lemma all_blocks_at s i l : levels s !! i = Some l ->
  all_blocks s = concat (blocks <$> take i (levels s)) ++ blocks l ++ concat (blocks <$> drop (S i) (levels s)).
Proof. intros Hl. unfold all_blocks. rewrite <-(take_drop_middle _ _ _ Hl) at 1. by rewrite fmap_app, concat_app. Qed.

Lemma chained_snoc (p : H -> H) hs h (ls : list (list Overlay)) bs : chained p hs ls -> ls !! length hs = Some bs ->
  h ∈ ov_hash <$> bs -> match list.last hs with Some h' => p h = h' | None => True end -> chained p (hs ++ [h]) ls.
Proof.
  revert ls. induction hs as [|h1 hs IH]; intros [|bs1 ls] Hc Hbs Hh Hp; simpl in *; try done; [by simplify_eq|].
  destruct Hc as (Hc1 & Hc2 & Hc3). split_and!; [done| |].
  - destruct hs; simpl in *; [done|done].
  - apply IH; try done. destruct hs; done.
Qed.

(** The block that is canonicalized, the commit, and the state. *)
Lemma canonicalize_run s hash commit : inv s ->
  match list.last (pending_canonicalizations s) with Some h => parents s !! hash = Some h | None => True end ->
  (canonicalize (E := E) hash commit s = (s, Err InvalidBlock)) \/
  exists l o ds c, let pending := length (pending_canonicalizations s) in
    levels s !! pending = Some l /\ o ∈ blocks l /\ ov_hash o = hash /\
    ds ≡ₚ blocks l ++ descendants (parent_of s) (siblings hash (blocks l)) (blocks <$> drop (S pending) (levels s)) /\
    canonicalize (E := E) hash commit s = (set_canonicalizations (pending_canonicalizations s ++ [hash]) s, Ok c) /\
    commit_data c = mkChangeSet (inserted (commit_data commit) ++ ((fun k => (k, content k)) <$> ov_inserted o))
                                (deleted (commit_data commit) ++ ov_deleted o) /\
    deleted (commit_meta c) = deleted (commit_meta commit) ++ (ov_journal_key <$> ds) /\
    inserted (commit_meta c) = inserted (commit_meta commit) ++
      [(to_meta_key LAST_CANONICAL tt, encode (hash, match last_canonicalized s with Some (_, n) => n + 1 | None => 0 end + Z.of_nat pending))] /\
    inv (set_canonicalizations (pending_canonicalizations s ++ [hash]) s).
Proof.
  intros Hinv Hpar. pose proof Hinv as [Hh Hok Hchain Hnum]. unfold canonicalize. erewrite bind_Ok by reflexivity.
  set (pending := length (pending_canonicalizations s)).
  destruct (levels s !! pending) as [l|] eqn:Hl; [|by left]. erewrite bind_Ok by reflexivity.
  destruct (decide (hash ∈ ov_hash <$> blocks l)) as [Hin|Hout].
  2: { left. assert (position hash (blocks l) = None) as ->; [|done]. unfold position.
       destruct (list_find _ _) as [[i o]|] eqn:Hf; [|done]. apply list_find_Some in Hf as (Ho & <- & _).
       destruct Hout. apply list_elem_of_fmap_2. by eapply list_elem_of_lookup_2. }
  right. pose proof (holds_nodup _ _ _ Hh) as Hnd. pose proof (all_blocks_at s pending l Hl) as Hall.
  rewrite Hall, !fmap_app in Hnd. apply NoDup_app in Hnd as (_ & _ & Hnd). apply NoDup_app in Hnd as (Hndl & _ & Hndr).
  destruct (hash_position_spec hash (blocks l) Hin Hndl) as (index & Hpos & Hidx). rewrite Hpos. erewrite bind_Ok by reflexivity.
  pose proof (holds_known content _ _ Hh) as Hk. unfold known in Hk. rewrite Hall in Hk. apply Forall_app in Hk as [_ Hk].
  apply Forall_app in Hk as [_ Hk].
  destruct (discard_siblings_run (E := Error E) (parent_of s) (parents s) _ hash index 0 (blocks l) ([], []) Hk Hndr Hndl Hidx) as (ds & Hrun & Hds).
  rewrite Hrun. erewrite bind_Ok by reflexivity.
  assert (exists o, blocks l !! index = Some o) as [o Ho].
  { unfold position in Hpos. destruct (list_find _ _) as [[j o]|] eqn:Hf; simplify_eq/=. apply list_find_Some in Hf as [Ho _]. eauto. }
  pose proof (proj1 (Hidx index o Ho) eq_refl) as Hoh. pose proof (list_elem_of_lookup_2 _ _ _ Ho) as Hol.
  rewrite Ho. erewrite bind_Ok by reflexivity.
  rewrite (overlay_values_run _ _ (ov_inserted o) (holds_counted _ _ _ Hh)).
  2: { intros k Hk'. apply elem_of_app. left. rewrite Hall. unfold inserted_by. rewrite list_elem_of_In, in_concat.
       exists (ov_inserted o). rewrite <-!list_elem_of_In. split; [|done]. apply list_elem_of_fmap_2. set_solver. }
  erewrite bind_Ok by reflexivity.
  assert (front_block_number (E := Error E) s = Ok (match last_canonicalized s with Some (_, n) => n + 1 | None => 0 end)) as Hfront.
  { unfold front_block_number, numbered in *. destruct (last_canonicalized s) as [[h n]|]; [|done]. apply uadd_ok. unfold is_u. lia. }
  rewrite Hfront. erewrite bind_Ok by reflexivity. pose proof (lookup_lt_Some _ _ _ Hl) as Hlt.
  rewrite uadd_ok by (unfold is_u, numbered in *; destruct (last_canonicalized s) as [[h n]|]; lia).
  do 2 erewrite bind_Ok by reflexivity. eexists l, o, ds, _. split_and!; try done.
  constructor; [by destruct Hh; constructor|done| |done]. simpl. eapply chained_snoc; [done|rewrite list_lookup_fmap; fold pending; by rewrite Hl|done|].
  unfold parent_of. destruct (list.last _) as [h|]; [|done]. simpl. by rewrite Hpar.
Qed.

(** The end of the transaction. *)
Lemma chained_length (p : H -> H) hs (ls : list (list Overlay)) : chained p hs ls -> (length hs <= length ls)%nat.
Proof. revert ls. induction hs as [|h hs IH]; intros [|bs ls]; simpl; try done; [lia..|]. intros (_ & _ & Hc). specialize (IH ls Hc). lia. Qed.

Lemma settled_length (p : H -> H) hs (ls : list (list Overlay)) : (length hs <= length ls)%nat ->
  length (settled p hs ls) = (length ls - length hs)%nat.
Proof.
  revert ls. induction hs as [|h hs IH]; intros [|bs ls] Hle; simpl in *; try lia. rewrite IH; rewrite keep_length; lia.
Qed.

(** The number of the last canonical block after [count] more. *)
Definition advance (last : option (H * Z)) (hs : list H) : option (H * Z) :=
  match list.last hs with
  | Some h => Some (h, match last with Some (_, n) => n | None => -1 end + Z.of_nat (length hs))
  | None => last
  end.

Lemma overlay_apply_pending_run s : inv s ->
  exists s', overlay_apply_pending (E := E) s = (s', Ok tt) /\ inv s' /\
    blocks <$> levels s' = settled (parent_of s) (pending_canonicalizations s) (blocks <$> levels s) /\
    last_canonicalized s' = advance (last_canonicalized s) (pending_canonicalizations s) /\
    pending_canonicalizations s' = [] /\ pending_insertions s' = [] /\
    Forall (fun o => parents s' !! ov_hash o = parents s !! ov_hash o) (all_blocks s').
Proof.
  intros [Hh Hok Hchain Hnum]. set (s0 := set_canonicalizations [] s).
  destruct (apply_canonicalization_loop (E := E) content (parent_of s) (pending_canonicalizations s) s0)
    as (s1 & Hrun & Hset & Hok1 & Hh1 & Hs1); [done|by destruct Hh; constructor|done|apply (holds_known content _ s Hh)|].
  pose proof (chained_length _ _ _ Hchain) as Hle. rewrite length_fmap in Hle.
  assert (length (levels s1) = (length (levels s) - length (pending_canonicalizations s))%nat) as Hlen.
  { rewrite <-(length_fmap blocks (levels s1)), Hset, settled_length; simpl; by rewrite length_fmap. }
  destruct Hs1 as [Hlast Hpc _ _ Hpar]. simpl in Hlast, Hpc, Hpar.
  assert (exists s2, apply_canonicalizations (E := E) s = (s2, Ok tt) /\
    s2 = set_last (advance (last_canonicalized s) (pending_canonicalizations s)) s1) as (s2 & Hrun2 & Hs2).
  { unfold apply_canonicalizations. do 2 erewrite bind_Ok by reflexivity. fold s0. rewrite (bind_Ok _ _ _ _ _ Hrun).
    unfold advance. destruct (list.last (pending_canonicalizations s)) as [h|] eqn:Hl.
    - erewrite bind_Ok by reflexivity. rewrite Hlast. unfold numbered in Hnum.
      assert (0 < length (pending_canonicalizations s))%nat as Hpos by (destruct (pending_canonicalizations s); [done|simpl; lia]).
      destruct (last_canonicalized s) as [[h' n]|].
      + rewrite uadd_ok by (unfold is_u; lia). erewrite bind_Ok by reflexivity. eexists. split; reflexivity.
      + rewrite usub_ok by (unfold is_u; lia). erewrite bind_Ok by reflexivity. eexists. split; [reflexivity|]. do 4 f_equal. lia.
    - eexists. split; [reflexivity|]. rewrite <-Hlast. by destruct s1. }
  unfold overlay_apply_pending. rewrite (bind_Ok _ _ _ _ _ Hrun2). eexists. split; [reflexivity|]. subst s2. simpl.
  split_and!; try done. constructor; simpl; [by destruct Hh1; constructor|done|by rewrite Hpc|].
  unfold numbered, advance in *. simpl. rewrite Hlen. destruct (list.last (pending_canonicalizations s)) as [h|] eqn:Hl.
  - assert (0 < length (pending_canonicalizations s))%nat as Hpos by (destruct (pending_canonicalizations s); [done|simpl; lia]).
    destruct (last_canonicalized s) as [[h' n]|]; lia.
  - destruct (last_canonicalized s) as [[h' n]|]; lia.
Qed.
End canonicalization.

(** ** Reverted and removed blocks, pins *)
Section removal.
Context {OC : OverflowChecks} {H Key E : Type} `{Countable H} `{Countable Key} (content : Key -> bytes).
Abbreviation O := (NonCanonicalOverlay H Key).
Abbreviation Overlay := (BlockOverlay H Key).
Abbreviation Level := (OverlayLevel H Key).
Implicit Types s : O.
Implicit Types o : Overlay.
Implicit Types bs os : list Overlay.
Abbreviation inv := (overlay_inv content).

Lemma revert_overlay_run o os s : holds content (o :: os) s ->
  exists s', revert_overlay (E := E) o s = (s', Ok tt) /\ holds content os s' /\ same os s s' /\ levels s' = levels s.
Proof. intros Hh. unfold revert_overlay. erewrite bind_Ok by reflexivity. by apply holds_discard. Qed.

Lemma revert_loop_run bs os s : holds content (bs ++ os) s ->
  exists s', for_each (revert_overlay (E := E)) bs s = (s', Ok tt) /\ holds content os s' /\ same os s s' /\ levels s' = levels s.
Proof.
  revert s. induction bs as [|o bs IH]; intros s Hh; simpl; [exists s; split_and!; try done; apply same_refl|].
  destruct (revert_overlay_run o (bs ++ os) s Hh) as (s1 & Hrun & Hh1 & Hs1 & Hl1). rewrite (bind_Ok _ _ _ _ _ Hrun).
  destruct (IH s1 Hh1) as (s2 & Hrun2 & Hh2 & Hs2 & Hl2). exists s2. split_and!; try done; [|congruence].
  eapply same_trans; [|exact Hs1|exact Hs2]. set_solver.
Qed.

Lemma numbered_fewer s s' : last_canonicalized s' = last_canonicalized s -> (length (levels s') <= length (levels s))%nat ->
  numbered s -> numbered s'.
Proof. unfold numbered. intros -> Hlen. destruct (last_canonicalized s) as [[h n]|]; lia. Qed.

(** Without pending canonicalizations the invariant is about the blocks and the
    levels. *)
Lemma inv_after s s' : inv s -> pending_canonicalizations s = [] -> same (all_blocks s') s s' ->
  holds content (all_blocks s') s' -> Forall level_ok (levels s') -> (length (levels s') <= length (levels s))%nat -> inv s'.
Proof.
  intros [_ _ _ Hn] Hp [Hlast Hpc _ _ _] Hh Hok Hlen. constructor; [done|done|by rewrite Hpc, Hp|by eapply numbered_fewer].
Qed.

Lemma revert_one_run s : inv s -> pending_canonicalizations s = [] ->
  exists s' r, revert_one (E := E) s = (s', Ok r) /\ inv s' /\
    blocks <$> levels s' = take (length (levels s) - 1) (blocks <$> levels s).
Proof.
  intros Hinv Hp. pose proof Hinv as [Hh Hok _ _]. unfold revert_one. erewrite bind_Ok by reflexivity.
  destruct (list.last (levels s)) as [l|] eqn:Hl.
  - erewrite bind_Ok by reflexivity. rewrite list.last_lookup in Hl. replace (pred (length (levels s))) with (length (levels s) - 1)%nat in Hl by lia.
    pose proof (all_blocks_at s _ l Hl) as Hall. rewrite (drop_ge (levels s)) in Hall by lia. simpl in Hall. rewrite app_nil_r in Hall.
    destruct (revert_loop_run (blocks l) (all_blocks (pop_back s)) (pop_back s)) as (s' & Hrun & Hh' & Hs' & Hlv).
    { apply holds_levels. rewrite Hall in Hh. eapply holds_proper; [|done|exact Hh]. unfold all_blocks, pop_back. simpl. apply Permutation_app_comm. }
    rewrite (bind_Ok _ _ _ _ _ Hrun). assert (all_blocks s' = all_blocks (pop_back s)) as Hall' by (unfold all_blocks; by rewrite Hlv).
    eexists s', _. split; [reflexivity|]. split; [|rewrite Hlv; simpl; apply fmap_take]. rewrite <-Hall' in Hh', Hs'.
    apply (inv_after s); [done|done|by destruct Hs'; constructor|done|rewrite Hlv; simpl; by apply Forall_take|rewrite Hlv; simpl; rewrite length_take; lia].
  - apply list.last_None in Hl. eexists s, _. split; [reflexivity|]. rewrite Hl. done.
Qed.

(** The search finds the block, and only a block. *)
Lemma find_block_Some hash n (ls : list Level) i index : find_block hash n ls = Some (i, index) ->
  exists l o, ls !! i = Some l /\ blocks l !! index = Some o /\ ov_hash o = hash.
Proof.
  induction n as [|n IH]; simpl; [done|]. destruct (ls !! n ≫= _) as [index'|] eqn:Hf; [|done]. intros [= <- <-].
  apply bind_Some in Hf as (l & Hl & Hpos). unfold position in Hpos. destruct (list_find _ _) as [[j o]|] eqn:Hfind; simplify_eq/=.
  apply list_find_Some in Hfind as (Ho & Hh & _). eauto.
Qed.

Lemma pop_empty_inv s : inv s -> pending_canonicalizations s = [] ->
  let s' := match list.last (levels s) with Some (mkLevel [] _) => pop_back s | _ => s end in
  inv s' /\ all_blocks s' = all_blocks s.
Proof.
  intros Hinv Hp. destruct (list.last (levels s)) as [[[|o bs] u]|] eqn:Hl; simpl; try done.
  rewrite list.last_lookup in Hl. replace (pred (length (levels s))) with (length (levels s) - 1)%nat in Hl by lia.
  pose proof (all_blocks_at s _ _ Hl) as Hall. rewrite (drop_ge (levels s)) in Hall by lia. simpl in Hall. rewrite app_nil_r in Hall.
  split; [|done]. destruct Hinv as [Hh Hok Hc Hn]. constructor; simpl.
  - apply holds_levels. by rewrite Hall in Hh.
  - by apply Forall_take.
  - by rewrite Hp.
  - eapply numbered_fewer; [| |exact Hn]; [done|]. simpl. rewrite length_take. lia.
Qed.

(** A block less in a level. *)
Lemma concat_delete (ls : list Level) i l l' j o : ls !! i = Some l -> blocks l !! j = Some o -> blocks l' = delete j (blocks l) ->
  concat (blocks <$> ls) ≡ₚ o :: concat (blocks <$> <[i := l']> ls).
Proof.
  intros Hl Ho Hb. pose proof (lookup_lt_Some _ _ _ Hl). rewrite insert_take_drop, fmap_app, fmap_cons, concat_app by done. simpl.
  rewrite <-(take_drop_middle _ _ _ Hl) at 1. rewrite fmap_app, fmap_cons, concat_app. simpl. rewrite Hb, (delete_Permutation _ _ _ Ho) at 1.
  solve_Permutation.
Qed.

(** A block is taken out of its level and its values are discarded. *)
Lemma take_out_run s i l j o l' : inv s -> pending_canonicalizations s = [] -> levels s !! i = Some l -> blocks l !! j = Some o ->
  level_ok l' -> blocks l' = delete j (blocks l) ->
  exists s', revert_overlay (E := E) o (set_levels (<[i := l']> (levels s)) s) = (s', Ok tt) /\ inv s' /\
    pending_canonicalizations s' = [] /\ levels s' = <[i := l']> (levels s) /\ all_blocks s ≡ₚ o :: all_blocks s' /\
    same (all_blocks s') s s'.
Proof.
  intros Hinv Hp Hl Ho Hok' Hb. pose proof (concat_delete _ _ _ l' _ _ Hl Ho Hb) as Hperm. set (t := set_levels (<[i := l']> (levels s)) s).
  pose proof Hinv as [Hh Hok _ _].
  destruct (revert_overlay_run o (all_blocks t) t) as (s' & Hrun & Hh' & Hs' & Hlv).
  { apply holds_levels. eapply holds_proper; [symmetry; exact Hperm|done|exact Hh]. }
  assert (all_blocks s' = all_blocks t) as Hall by (unfold all_blocks; by rewrite Hlv). rewrite <-Hall in Hh', Hs'.
  exists s'. split_and!; try done.
  - apply (inv_after s); [done|done|by destruct Hs'; constructor|done|rewrite Hlv; simpl; by apply Forall_insert|].
    rewrite Hlv. simpl. by rewrite length_insert.
  - destruct Hs' as [_ Hpc _ _ _]. by rewrite Hpc.
  - rewrite Hall. exact Hperm.
  - by destruct Hs'; constructor.
Qed.

(** The block, if there is one, or nothing. *)
Definition removed_one s (hash : H) s' : Prop :=
  all_blocks s' = all_blocks s \/ exists o, ov_hash o = hash /\ all_blocks s ≡ₚ o :: all_blocks s'.

Lemma remove_run s hash : inv s -> pending_canonicalizations s = [] ->
  exists s' r, remove (E := E) hash s = (s', Ok r) /\ inv s' /\ removed_one s hash s'.
Proof.
  intros Hinv Hp. unfold remove. erewrite bind_Ok by reflexivity.
  destruct (find_block hash (length (levels s)) (levels s)) as [[i j]|] eqn:Hf.
  - destruct (_ && _); [eexists s, _; split; [reflexivity|]; split; [done|by left]|].
    apply find_block_Some in Hf as (l & o & Hl & Ho & Hh). rewrite Hl. erewrite bind_Ok by reflexivity.
    assert (level_ok l) as Hokl by (eapply Forall_lookup_1; [apply (oi_levels _ _ Hinv)|done]).
    destruct (level_remove_run (E := E) l j o Hokl Ho) as (l' & Hrem & Hok' & Hb). rewrite Hrem. erewrite bind_Ok by reflexivity. cbn beta iota. erewrite bind_Ok by reflexivity.
    destruct (take_out_run s i l j o l' Hinv Hp Hl Ho Hok' Hb) as (s1 & Hrun & Hinv1 & Hp1 & Hlv & Hperm & _).
    rewrite (bind_Ok _ _ _ _ _ Hrun). erewrite bind_Ok by reflexivity. eexists _, _. split; [reflexivity|].
    destruct (pop_empty_inv s1 Hinv1 Hp1) as [Hinv2 Hall2]. split; [done|]. right. exists o. by rewrite Hall2.
  - erewrite bind_Ok by reflexivity. eexists _, _. split; [reflexivity|].
    destruct (pop_empty_inv s Hinv Hp) as [Hinv2 Hall2]. split; [done|]. by left.
Qed.

(** *** The insertions of a transaction that is given up

    Each inserted block is the last of its level when its turn comes, no level
    below is empty, and a level that it leaves empty is the top one; [Q] holds
    of the levels at the end. *)
Fixpoint revertible (Q : list (list Overlay) -> Prop) (hs : list H) (ls : list (list Overlay)) : Prop :=
  match hs with
  | [] => Q ls
  | h :: hs => exists i bs o, ls !! i = Some (bs ++ [o]) /\ ov_hash o = h /\ Forall (fun bs => bs <> []) (take i ls) /\
      match bs with
      | [] => S i = length ls /\ revertible Q hs (take i ls)
      | _ => revertible Q hs (<[i := bs]> ls)
      end
  end.

Lemma level_ending_run (ls : list Level) i l bs o : NoDup (ov_hash <$> concat (blocks <$> ls)) ->
  ls !! i = Some l -> blocks l = bs ++ [o] -> Forall (fun bs => bs <> []) (take i (blocks <$> ls)) ->
  level_ending (E := E) (ov_hash o) ls = Ok (Some i).
Proof.
  revert i. induction ls as [|l0 ls IH]; intros [|i] Hnd Hl Hb Hne; simplify_eq/=.
  - rewrite Hb, list.last_snoc. simpl. by rewrite bool_decide_eq_true_2.
  - apply Forall_cons in Hne as [Hne0 Hne]. destruct (list.last (blocks l0)) as [o0|] eqn:Hl0; [|by apply list.last_None in Hl0].
    rewrite fmap_app in Hnd. apply NoDup_app in Hnd as (_ & Hdis & Hnd). simpl. rewrite bool_decide_eq_false_2.
    + by rewrite (IH i Hnd Hl Hb Hne).
    + intros Heq. apply (Hdis (ov_hash o0)).
      * apply list_elem_of_fmap_2. rewrite list.last_lookup in Hl0. by eapply list_elem_of_lookup_2.
      * rewrite Heq. apply list_elem_of_fmap_2. rewrite list_elem_of_In, in_concat. exists (blocks l). rewrite <-!list_elem_of_In.
        split; [apply list_elem_of_fmap_2; by eapply list_elem_of_lookup_2|]. rewrite Hb. set_solver.
Qed.

Lemma revert_insertion_run Q s h hs : inv s -> pending_canonicalizations s = [] -> revertible Q (h :: hs) (blocks <$> levels s) ->
  exists s', revert_insertion (E := E) h s = (s', Ok tt) /\ inv s' /\ pending_canonicalizations s' = [] /\
    revertible Q hs (blocks <$> levels s') /\ same (all_blocks s') s s' /\ all_blocks s' ⊆ all_blocks s.
Proof.
  intros Hinv Hp (i & bs & o & Hi & <- & Hne & Hrest). rewrite list_lookup_fmap in Hi.
  destruct (levels s !! i) as [l|] eqn:Hl; simplify_eq/=. pose proof Hinv as [Hh Hok _ _].
  assert (level_ok l) as Hokl by (by eapply Forall_lookup_1).
  assert (blocks l !! (length (blocks l) - 1)%nat = Some o) as Ho.
  { rewrite Hi, length_app. simpl. replace (length bs + 1 - 1)%nat with (length bs) by lia. by apply list_lookup_middle. }
  destruct (level_remove_run (E := E) l _ o Hokl Ho) as (l' & Hrem & Hok' & Hb).
  assert (blocks l' = bs) as Hbs.
  { rewrite Hb, Hi, length_app. simpl. replace (length bs + 1 - 1)%nat with (length bs) by lia. by rewrite delete_middle, app_nil_r. }
  destruct (take_out_run s i l _ o l' Hinv Hp Hl Ho Hok' Hb) as (s1 & Hrun & Hinv1 & Hp1 & Hlv & Hperm & Hsame).
  assert (all_blocks s1 ⊆ all_blocks s) as Hsub by (intros x Hx; rewrite Hperm; set_solver).
  unfold revert_overlay in Hrun. erewrite bind_Ok in Hrun by reflexivity.
  unfold revert_insertion. do 2 erewrite bind_Ok by reflexivity. simpl.
  rewrite (level_ending_run _ i l bs o (holds_nodup _ _ _ Hh) Hl Hi Hne). do 2 erewrite bind_Ok by reflexivity.
  rewrite Hl. erewrite bind_Ok by reflexivity. rewrite Hrem. erewrite bind_Ok by reflexivity. cbn beta iota. erewrite bind_Ok by reflexivity.
  change (set_levels (<[i := l']> (levels s)) (set_parents (delete (ov_hash o) (parents s)) s))
    with (set_parents (delete (ov_hash o) (parents (set_levels (<[i := l']> (levels s)) s))) (set_levels (<[i := l']> (levels s)) s)).
  rewrite (bind_Ok _ _ _ _ _ Hrun), Hbs. destruct bs as [|o' bs].
  - destruct Hrest as [Hlast Hrest]. rewrite length_fmap in Hlast. erewrite bind_Ok.
    2: { unfold lift, debug_assert. rewrite (proj2 (Nat.eqb_eq _ _)) by lia. by destruct overflow_checks. }
    destruct (pop_empty_inv s1 Hinv1 Hp1) as [Hinv2 Hall2]. rewrite list.last_lookup, Hlv, length_insert in Hinv2, Hall2.
    replace (pred (length (levels s))) with i in Hinv2, Hall2 by lia. rewrite list_lookup_insert_eq in Hinv2, Hall2 by lia.
    destruct l' as [[|??] u]; simplify_eq/=.
    exists (pop_back s1). rewrite Hall2. split_and!; [done|done|done| |by destruct Hsame; constructor|done].
    simpl. rewrite Hlv, length_insert. replace (length (levels s) - 1)%nat with i by lia.
    rewrite take_insert, decide_False by lia. rewrite <-fmap_take in Hrest. done.
  - exists s1. split_and!; try done. by rewrite Hlv, list_fmap_insert, Hbs.
Qed.

Lemma overlay_revert_pending_run Q s : inv s -> revertible Q (reverse (pending_insertions s)) (blocks <$> levels s) ->
  exists s', overlay_revert_pending (E := E) s = (s', Ok tt) /\ inv s' /\ pending_canonicalizations s' = [] /\
    pending_insertions s' = [] /\ Q (blocks <$> levels s') /\ last_canonicalized s' = last_canonicalized s /\ all_blocks s' ⊆ all_blocks s /\
    Forall (fun o => parents s' !! ov_hash o = parents s !! ov_hash o) (all_blocks s').
Proof.
  intros Hinv Hrev. unfold overlay_revert_pending, revert_insertions. do 3 erewrite bind_Ok by reflexivity.
  set (t := set_insertions [] (set_canonicalizations [] s)). change (pending_insertions (set_canonicalizations [] s)) with (pending_insertions s).
  assert (inv t) as Ht by (destruct Hinv as [Hh Hok _ Hn]; constructor; [by destruct Hh; constructor|done|done|done]).
  assert (exists s', for_each revert_insertion (reverse (pending_insertions s)) t = (s', Ok tt : res E unit) /\ inv s' /\
    pending_canonicalizations s' = [] /\ Q (blocks <$> levels s') /\ same (all_blocks s') t s' /\ all_blocks s' ⊆ all_blocks t)
    as (s' & Hrun & Hs' & Hp' & HQ & Hsame & Hsub).
  { change (levels s) with (levels t) in Hrev. assert (pending_canonicalizations t = []) as Hp by done. clearbody t. clear Hinv.
    revert t Ht Hp Hrev. generalize (reverse (pending_insertions s)). intros hs.
    induction hs as [|h hs IH]; intros t Ht Hp Hrev; simpl; [exists t; split_and!; try done; apply same_refl|].
    destruct (revert_insertion_run Q t h hs Ht Hp Hrev) as (t' & Hrun & Ht' & Hp' & Hrev' & Hsame & Hsub). rewrite (bind_Ok _ _ _ _ _ Hrun).
    destruct (IH t' Ht' Hp' Hrev') as (s' & Hrun' & Hs' & Hps' & HQ & Hsame' & Hsub'). exists s'. split_and!; try done; [|by etrans].
    by eapply same_trans. }
  exists s'. destruct Hsame. done.
Qed.

(** *** Pins *)

(** What pins leave alone: the blocks and what they are on. *)
Record kept s s' : Prop := {
  kept_last : last_canonicalized s' = last_canonicalized s;
  kept_levels : levels s' = levels s;
  kept_canonicalizations : pending_canonicalizations s' = pending_canonicalizations s;
  kept_insertions : pending_insertions s' = pending_insertions s;
  kept_parents : Forall (fun o => parents s' !! ov_hash o = parents s !! ov_hash o) (all_blocks s) }.

Lemma kept_refl s : kept s s.
Proof. constructor; try done. by apply Forall_forall. Qed.

Lemma kept_trans s s' s'' : kept s s' -> kept s' s'' -> kept s s''.
Proof.
  intros [] []. assert (all_blocks s' = all_blocks s) as Hall by (unfold all_blocks; by rewrite kept_levels0).
  constructor; try congruence. rewrite Forall_forall in *. intros o Ho. rewrite Hall in *. rewrite kept_parents1 by done. auto.
Qed.

Lemma overlay_pin_run s hash : inv s -> (forall n, pinned s !! hash = Some n -> n < 2 ^ 32 - 1) ->
  exists s', overlay_pin (E := E) hash s = (s', Ok tt) /\ inv s' /\ kept s s'.
Proof.
  intros Hinv Hn. unfold overlay_pin. erewrite bind_Ok by reflexivity. case_bool_decide; [exists s; split_and!; try done; apply kept_refl|].
  assert (0 <= default 0 (pinned s !! hash) < 2 ^ 32 - 1) as Hr.
  { destruct (pinned s !! hash) as [n|] eqn:Hp; simpl; [|lia]. specialize (Hn n eq_refl).
    pose proof (holds_pins _ _ _ (oi_holds _ _ Hinv) hash n Hp). simpl in *. lia. }
  rewrite uadd_ok by (unfold is_u; lia). erewrite bind_Ok by reflexivity. eexists. split; [reflexivity|].
  split; [|constructor; try done; by apply Forall_forall]. destruct Hinv as [Hh Hok Hc Hnum]. constructor; try done. destruct Hh. constructor; try done. simpl.
  apply map_Forall_insert_2; [lia|done].
Qed.

(** The saved insertions of one block. *)
Lemma pinned_entry s hash ins n : pinned_insertions s !! hash = Some (ins, n) -> 0 < n ->
  pinned_keys s ≡ₚ ins ++ pinned_keys (set_pinned_insertions (delete hash (pinned_insertions s)) s) /\
  pin_references s = (Z.to_nat n + pin_references (set_pinned_insertions (delete hash (pinned_insertions s)) s))%nat.
Proof.
  intros Hl Hn. set (m := delete hash (pinned_insertions s)).
  assert (pinned_insertions s = <[hash := (ins, n)]> m) as Hm by (unfold m; by rewrite insert_delete_eq, insert_id).
  assert (m !! hash = None) as Hnone by apply lookup_delete_eq. unfold pinned_keys, pin_references. simpl. rewrite !Hm. split.
  - by rewrite (inserted_by_map m hash (ins, n) Hnone).
  - by rewrite (map_to_list_insert m hash (ins, n) Hnone).
Qed.

Lemma unpin_step s hash ins n : inv s -> pinned_insertions s !! hash = Some (ins, n) ->
  exists s', (if n - 1 =? 0 then
      _ ← modify (set_pinned_insertions (delete hash (pinned_insertions s)));
      _ ← on_values (discard_values ins);
      modify (fun s => set_parents (delete hash (parents s)) s)
    else modify (set_pinned_insertions (<[hash := (ins, n - 1)]> (pinned_insertions s)))) s = (s', Ok tt : res E unit) /\
    inv s' /\ kept s s' /\ pin_references s = S (pin_references s').
Proof.
  intros Hinv Hl. pose proof Hinv as [Hh Hok Hc Hnum]. pose proof (holds_refs _ _ _ Hh hash (ins, n) Hl) as Hn. simpl in Hn.
  destruct (pinned_entry s hash ins n Hl) as [Hkeys Hrefs]; [lia|]. destruct Hh as [Hcount Hsm Hb Hnd Hp Hu Hr Hpi].
  destruct (Z.eqb_spec (n - 1) 0) as [H0'|Hne].
  - erewrite bind_Ok by reflexivity. set (t := set_pinned_insertions (delete hash (pinned_insertions s)) s).
    assert (inserted_by (all_blocks s) ++ pinned_keys s ≡ₚ ins ++ inserted_by (all_blocks s) ++ pinned_keys t) as Hperm.
    { rewrite Hkeys. fold t. solve_Permutation. }
    rewrite Hperm in Hcount, Hsm. destruct (discard_values_run (E := E) content ins (values s) _ Hcount Hsm) as (v & Hrun & Hv).
    erewrite bind_Ok by (unfold on_values; simpl; rewrite Hrun; reflexivity). eexists. split; [reflexivity|].
    assert (forall o, o ∈ all_blocks s -> hash <> ov_hash o) as Hout.
    { intros o Ho ->. rewrite Forall_forall in Hu. rewrite (Hu o Ho) in Hl. done. }
    split_and!; [| |rewrite Hrefs; unfold pin_references; simpl; lia].
    2: { constructor; try done. simpl. apply Forall_forall. intros o Ho. by rewrite lookup_delete_ne by (by apply Hout). }
    constructor; simpl; [|done| |done].
    + rewrite length_app in Hsm. constructor; simpl; try done; [| | |by apply map_Forall_delete].
      * change (Z.of_nat (length (inserted_by (all_blocks s) ++ pinned_keys t)) < 2 ^ 32). lia.
      * apply Forall_forall. intros o Ho. rewrite Forall_forall in Hp. rewrite lookup_delete_ne by (by apply Hout). auto.
      * apply Forall_forall. intros o Ho. rewrite Forall_forall in Hu. rewrite lookup_delete_ne by (by apply Hout). auto.
    + eapply chained_mono; [| |exact Hc]; [rewrite take_ge by done; by apply Forall_Forall2_diag, Forall_forall|].
      intros o Ho. unfold parent_of. simpl. by rewrite lookup_delete_ne by (by apply Hout).
  - eexists. split; [reflexivity|]. set (t := set_pinned_insertions (<[hash := (ins, n - 1)]> (pinned_insertions s)) s).
    destruct (pinned_entry t hash ins (n - 1)) as [Hkeys' Hrefs']; [by simpl; rewrite lookup_insert_eq|lia|].
    assert (set_pinned_insertions (delete hash (pinned_insertions t)) t = set_pinned_insertions (delete hash (pinned_insertions s)) s) as Heq.
    { unfold t, set_pinned_insertions. simpl. by rewrite delete_insert_eq. }
    rewrite Heq in Hkeys', Hrefs'. rewrite <-Hkeys' in Hkeys. split_and!; [|constructor; try done; by apply Forall_forall|lia].
    constructor; simpl; [|done|done|done]. constructor; simpl; try done.
    + by rewrite <-Hkeys.
    + by rewrite <-Hkeys.
    + apply Forall_forall. intros o Ho. rewrite Forall_forall in Hu. rewrite lookup_insert_ne; [auto|].
      intros ->. rewrite (Hu o Ho) in Hl. done.
    + apply map_Forall_insert_2; [simpl; lia|done].
Qed.

Lemma unpin_loop_run fuel parent s : inv s -> (pin_references s < fuel)%nat ->
  exists s', unpin_loop (E := E) fuel parent s = (s', Ok tt) /\ inv s' /\ kept s s'.
Proof.
  revert parent s. induction fuel as [|fuel IH]; intros [hash|] s Hinv Hf; simpl; try lia.
  all: try (exists s; split_and!; try done; apply kept_refl).
  erewrite bind_Ok by reflexivity. destruct (pinned_insertions s !! hash) as [[ins n]|] eqn:Hl; [|exists s; split_and!; try done; apply kept_refl].
  pose proof (holds_refs _ _ _ (oi_holds _ _ Hinv) hash (ins, n) Hl) as Hn. simpl in Hn.
  rewrite usub_ok by (unfold is_u; lia). erewrite bind_Ok by reflexivity.
  destruct (unpin_step s hash ins n Hinv Hl) as (s1 & Hrun & Hinv1 & Hlv & Hrefs). rewrite (bind_Ok _ _ _ _ _ Hrun).
  destruct (IH (parents s !! hash) s1 Hinv1) as (s2 & Hrun2 & Hinv2 & Hlv2); [lia|]. exists s2. split_and!; try done. by eapply kept_trans.
Qed.

Lemma overlay_unpin_run s hash : inv s ->
  exists s', overlay_unpin (E := E) hash s = (s', Ok tt) /\ inv s' /\ kept s s'.
Proof.
  intros Hinv. unfold overlay_unpin. erewrite bind_Ok by reflexivity. destruct (pinned s !! hash) as [n|] eqn:Hp; [|exists s; split_and!; try done; apply kept_refl].
  pose proof Hinv as [Hh Hok Hc Hnum]. pose proof (holds_pins _ _ _ Hh hash n Hp) as Hn. simpl in Hn.
  rewrite usub_ok by (unfold is_u; lia). erewrite bind_Ok by reflexivity. destruct (Z.eqb_spec (n - 1) 0).
  - erewrite bind_Ok by reflexivity. set (t := set_pinned (delete hash (pinned s)) s).
    destruct (unpin_loop_run (S (pin_references s)) (Some hash) t) as (s' & Hrun & Hinv' & Hlv); [|change (pin_references t) with (pin_references s); lia|].
    { constructor; try done. destruct Hh. constructor; try done. simpl. by apply map_Forall_delete. }
    exists s'. split_and!; try done. by destruct Hlv; constructor.
  - eexists. split; [reflexivity|]. split; [|constructor; try done; by apply Forall_forall]. constructor; try done. destruct Hh. constructor; try done. simpl.
    apply map_Forall_insert_2; [lia|done].
Qed.
End removal.

(** ** Sequences of operations *)
Inductive OverlayOp (H Key : Type) : Type :=
| Insert (hash : H) (number : Z) (parent_hash : H) (changes : ChangeSet Key)
| Canonicalize (hash : H)
| ApplyPending
| RevertPending
| RevertOne
| Remove (hash : H)
| Pin (hash : H)
| Unpin (hash : H).

Arguments Insert {H Key} hash number parent_hash changes.
Arguments Canonicalize {H Key} hash.
Arguments ApplyPending {H Key}.
Arguments RevertPending {H Key}.
Arguments RevertOne {H Key}.
Arguments Remove {H Key} hash.
Arguments Pin {H Key} hash.
Arguments Unpin {H Key} hash.

Section theorems.
Context {OC : OverflowChecks} {H Key : Type} `{Countable H} `{Countable Key} (content : Key -> bytes).
Context `{Codec unit} `{Codec (H * Z)} `{Codec (Z * Z)} `{Codec (OverlayRecord H Key)}.
Abbreviation O := (NonCanonicalOverlay H Key).
Implicit Types s : O.
Abbreviation inv := (overlay_inv content).

(** An operation, its result forgotten. *)
Definition overlay_exec (op : OverlayOp H Key) : M O (Error Empty_set) unit :=
  match op with
  | Insert hash number parent_hash changes => _ ← insert hash number parent_hash changes; mret tt
  | Canonicalize hash => _ ← canonicalize hash dflt; mret tt
  | ApplyPending => overlay_apply_pending
  | RevertPending => overlay_revert_pending
  | RevertOne => _ ← revert_one; mret tt
  | Remove hash => _ ← remove hash; mret tt
  | Pin hash => overlay_pin hash
  | Unpin hash => overlay_unpin hash
  end.

(** When the node calls it: new blocks are new, their keys determine their
    values, and counters and numbers are in range; a block is canonicalized on
    top of the one before it; blocks are reverted and removed between
    transactions; and the insertions of a transaction are the last blocks of
    their levels. *)
Definition overlay_allowed (op : OverlayOp H Key) s : Prop :=
  match op with
  | Insert hash number _ changes =>
    insertable content s hash number changes /\ (last_canonicalized s = None -> adjacent s number)
  | Canonicalize hash =>
    match list.last (pending_canonicalizations s) with Some h => parents s !! hash = Some h | None => True end
  | RevertPending => revertible (fun _ => True) (reverse (pending_insertions s)) (blocks <$> levels s)
  | RevertOne | Remove _ => pending_canonicalizations s = []
  | Pin hash => forall n, pinned s !! hash = Some n -> n < 2 ^ 32 - 1
  | ApplyPending | Unpin _ => True
  end.

(** The overlays that operations reach, errors included. *)
Inductive overlay_reach (s0 : O) : O -> Prop :=
| reach_refl : overlay_reach s0 s0
| reach_step s op : overlay_reach s0 s -> overlay_allowed op s -> overlay_reach s0 (overlay_exec op s).1.

(** An operation returns, with a value or an error, and keeps the invariant. *)
Lemma overlay_exec_run op s : inv s -> overlay_allowed op s ->
  (overlay_exec op s).2 <> Panic /\ inv (overlay_exec op s).1.
Proof.
  intros Hinv Ha. destruct op as [hash number parent_hash changes|hash| | | |hash|hash|hash]; simpl in *.
  - destruct Ha as [Hins Hadj]. destruct (insert_run (E := Empty_set) content s hash number parent_hash changes Hinv Hins Hadj)
      as (s' & r & Hrun & Hinv' & [(e & -> & ->)|(c0 & c & i & o & -> & _)]).
    + by rewrite (bind_Err _ _ _ _ _ Hrun).
    + by rewrite (bind_Ok _ _ _ _ _ Hrun).
  - destruct (canonicalize_run (E := Empty_set) content s hash dflt Hinv Ha) as [Hrun|(l & o & ds & c & _ & _ & _ & _ & Hrun & _ & _ & _ & Hinv')].
    + by rewrite (bind_Err _ _ _ _ _ Hrun).
    + by rewrite (bind_Ok _ _ _ _ _ Hrun).
  - destruct (overlay_apply_pending_run (E := Error Empty_set) content s Hinv) as (s' & -> & Hinv' & _). done.
  - destruct (overlay_revert_pending_run (E := Error Empty_set) content _ s Hinv Ha) as (s' & -> & Hinv' & _). done.
  - destruct (revert_one_run (E := Error Empty_set) content s Hinv Ha) as (s' & r & Hrun & Hinv' & _). by rewrite (bind_Ok _ _ _ _ _ Hrun).
  - destruct (remove_run (E := Error Empty_set) content s hash Hinv Ha) as (s' & r & Hrun & Hinv' & _). by rewrite (bind_Ok _ _ _ _ _ Hrun).
  - destruct (overlay_pin_run (E := Error Empty_set) content s hash Hinv Ha) as (s' & -> & Hinv' & _). done.
  - destruct (overlay_unpin_run (E := Error Empty_set) content s hash Hinv) as (s' & -> & Hinv' & _). done.
Qed.

Lemma overlay_reach_inv s0 s : inv s0 -> overlay_reach s0 s -> inv s.
Proof. intros H0'. induction 1 as [|s op Hr IH Ha]; [done|]. by apply overlay_exec_run. Qed.

(** The overlay before the first block, as [new] makes it. *)
Definition empty_overlay (last : option (H * Z)) : O := mkOverlays last [] ∅ [] [] ∅ ∅ ∅.

Definition valid_last (last : option (H * Z)) : Prop :=
  match last with Some (_, n) => 0 <= n < 2 ^ 64 - 2 | None => True end.

(** The overlay finds the value of every key that one of its blocks, or a
    block kept for a pin, has inserted, and of no other key; and the operation
    that comes next does not panic.  So no value is lost while a block with it
    remains, whichever forks were discarded, reverted, removed or unpinned
    before, and none is kept without a block. *)
Theorem overlay_finds_values last s op k : valid_last last -> overlay_reach (empty_overlay last) s -> overlay_allowed op s ->
  (overlay_exec op s).2 <> Panic /\
  overlay_get s k =
    if decide (k ∈ inserted_by (all_blocks s) ++ pinned_keys s) then Some (content k) else None.
Proof.
  intros Hl Hr Ha. assert (inv s) as Hinv by (eapply overlay_reach_inv; [by apply overlay_inv_new|done]).
  split; [by apply overlay_exec_run|]. apply counted_elem, Hinv.
Qed.

(** Within a level journal indices are unique and below 32, the range that
    [new] reads, so that no journal record overwrites another and none is
    missed; block hashes are unique in the whole overlay. *)
Theorem overlay_journal_indices last s : valid_last last -> overlay_reach (empty_overlay last) s ->
  NoDup (ov_hash <$> all_blocks s) /\
  Forall (fun l => NoDup (indices l) /\ Forall (fun n => 0 <= n < MAX_BLOCKS_PER_LEVEL) (indices l)) (levels s).
Proof.
  intros Hl Hr. assert (inv s) as [Hh Hok _ _] by (eapply overlay_reach_inv; [by apply overlay_inv_new|done]).
  split; [apply Hh|]. eapply Forall_impl; [exact Hok|]. intros l []. done.
Qed.

(** Canonicalizing a block and ending the transaction removes its level, the
    other blocks of the level with their descendants, and nothing else; the
    journal records that the commit deletes are those of the blocks that leave;
    the commit writes the keys of the block with their values and deletes what
    the block deletes; and the block becomes the last canonical one.  A block
    that is not in the lowest level is refused, and nothing changes. *)
Theorem canonicalize_discards_forks last s hash : valid_last last -> overlay_reach (empty_overlay last) s ->
  pending_canonicalizations s = [] ->
  canonicalize (E := Empty_set) hash dflt s = (s, Err InvalidBlock) \/
  exists l rest o c s', levels s = l :: rest /\ o ∈ blocks l /\ ov_hash o = hash /\
    (canonicalize (E := Empty_set) hash dflt ≫= fun c => _ ← overlay_apply_pending; mret c) s = (s', Ok c) /\
    blocks <$> levels s' = keep (parent_of s) (siblings hash (blocks l)) (blocks <$> rest) /\
    ov_journal_key <$> all_blocks s ≡ₚ deleted (commit_meta c) ++ (ov_journal_key <$> all_blocks s') /\
    commit_data c = mkChangeSet ((fun k => (k, content k)) <$> ov_inserted o) (ov_deleted o) /\
    last_canonicalized s' = Some (hash, match last_canonicalized s with Some (_, n) => n + 1 | None => 0 end).
Proof.
  intros Hl Hr Hp. assert (inv s) as Hinv by (eapply overlay_reach_inv; [by apply overlay_inv_new|done]).
  destruct (canonicalize_run (E := Empty_set) content s hash dflt Hinv) as [Hrun|(l & o & ds & c & Hlv & Ho & Hh & Hds & Hrun & Hdata & Hdel & _ & Hinv')];
    [by rewrite Hp|by left|right].
  rewrite Hp in *. simpl in *. destruct (levels s) as [|l0 rest] eqn:Hlev; simplify_eq/=. rewrite drop_0 in Hds.
  destruct (overlay_apply_pending_run (E := Error Empty_set) content _ Hinv') as (s' & Happly & _ & Hset & Hlast & _).
  simpl in Hset, Hlast. rewrite Hlev in Hset. simpl in Hset. exists l, rest, o, c, s'. split_and!; try done.
  - rewrite (bind_Ok _ _ _ _ _ Hrun). by rewrite (bind_Ok _ _ _ _ _ Happly).
  - rewrite Hdel. simpl. rewrite <-fmap_app. apply fmap_Permutation. rewrite (all_blocks_cons _ _ _ Hlev), Hds.
    unfold all_blocks at 1. rewrite Hset.
    rewrite (keep_descendants (parent_of s) (siblings (ov_hash o) (blocks l)) (blocks <$> rest)) at 1. by rewrite app_assoc.
  - rewrite Hlast. unfold advance. simpl. do 2 f_equal. destruct (last_canonicalized s) as [[h n]|]; lia.
Qed.
End theorems.

(** ** Examples

    Block hashes and keys are integers, and the value of a key is its list. *)
Module OverlayDemo.
#[local] Instance checks : OverflowChecks := true.
#[local] Instance unit_codec : Codec unit := {| encode _ := []; decode _ := Some tt |}.
#[local] Instance pair_codec : Codec (Z * Z) :=
  {| encode p := [p.1; p.2]; decode bs := match bs with [a; b] => Some (a, b) | _ => None end |}.
#[local] Instance overlay_record_codec : Codec (OverlayRecord Z Z) :=
  {| encode r := or_hash r :: or_parent_hash r :: (or_inserted r).*1 ++ or_deleted r; decode _ := None |}.

Definition content (k : Z) : bytes := [k].
Definition changes (ins del : list Z) : ChangeSet Z := mkChangeSet ((fun k => (k, content k)) <$> ins) del.
Abbreviation Ops := (list (OverlayOp Z Z)).

Definition run (ops : Ops) (s : NonCanonicalOverlay Z Z) : NonCanonicalOverlay Z Z :=
  foldl (fun s op => (overlay_exec op s).1) s ops.

(** A test for the operations of the examples. *)
Definition allowedb (op : OverlayOp Z Z) (s : NonCanonicalOverlay Z Z) : bool :=
  match op with
  | Insert hash number _ changes =>
    bool_decide (hash ∉ ov_hash <$> all_blocks s) && bool_decide (pinned_insertions s !! hash = None) &&
    bool_decide (Forall (fun e => e.2 = content e.1) (inserted changes)) &&
    (Z.of_nat (length (all_blocks s)) <? 2 ^ 32 - 1) &&
    (Z.of_nat (length ((inserted changes).*1 ++ inserted_by (all_blocks s) ++ pinned_keys s)) <? 2 ^ 32) &&
    bool_decide (0 <= number < 2 ^ 64 - 2) && bool_decide (is_Some (last_canonicalized s))
  | Canonicalize hash =>
    match list.last (pending_canonicalizations s) with Some h => bool_decide (parents s !! hash = Some h) | None => true end
  | RevertPending => bool_decide (pending_insertions s = [])
  | RevertOne | Remove _ => bool_decide (pending_canonicalizations s = [])
  | Pin hash => bool_decide (pinned s !! hash = None)
  | ApplyPending | Unpin _ => true
  end.

Lemma allowedb_spec op s : allowedb op s = true -> overlay_allowed content op s.
Proof.
  destruct op; simpl; rewrite ?andb_true_iff, ?bool_decide_eq_true, ?Z.ltb_lt; try done.
  - intros ((((((? & ?) & ?) & ?) & ?) & ?) & [? Hs]). split; [done|]. rewrite Hs. done.
  - destruct (list.last _); [|done]. by rewrite bool_decide_eq_true.
  - by intros ->.
  - by intros ->.
Qed.

Fixpoint allowed_all (ops : Ops) (s : NonCanonicalOverlay Z Z) : bool :=
  match ops with
  | [] => true
  | op :: ops => allowedb op s && allowed_all ops (overlay_exec op s).1
  end.

Lemma run_reach ops s0 s : overlay_reach content s0 s -> allowed_all ops s = true -> overlay_reach content s0 (run ops s).
Proof.
  revert s. induction ops as [|op ops IH]; intros s Hr; simpl; [done|]. intros [Ha Hs]%andb_true_iff.
  apply IH; [|done]. constructor; [done|by apply allowedb_spec].
Qed.

(** Two forks above block 100: 1 - 3 - 4 and 2, where 1 and 2 insert the key 7. *)
Definition forks : Ops :=
  [Insert 1 101 100 (changes [7; 8] []); Insert 2 101 100 (changes [7] [5]); Insert 3 102 1 (changes [9] [8]);
   Insert 4 103 3 (changes [8] []); ApplyPending].

Definition above_100 : NonCanonicalOverlay Z Z := empty_overlay (Some (100, 100)).

(** Block 2 is canonical; 1, 3 and 4 are gone, but 4 is pinned, and so all they
    inserted is found. *)
Lemma overlay_finds_values_witness :
  (overlay_exec (Unpin 4) (run (forks ++ [Pin 4; Canonicalize 2; ApplyPending]) above_100)).2 <> Panic /\
  overlay_get (run (forks ++ [Pin 4; Canonicalize 2; ApplyPending]) above_100) 9 = Some [9].
Proof.
  destruct (overlay_finds_values content (Some (100, 100)) (run (forks ++ [Pin 4; Canonicalize 2; ApplyPending]) above_100) (Unpin 4) 9)
    as [Hp Hg]; [by vm_compute|apply run_reach; [constructor|by vm_compute]|done|].
  split; [exact Hp|]. rewrite Hg. by vm_compute.
Defined.

Lemma overlay_journal_indices_witness :
  NoDup (ov_hash <$> all_blocks (run forks above_100)) /\
  Forall (fun l => NoDup (indices l) /\ Forall (fun n => 0 <= n < MAX_BLOCKS_PER_LEVEL) (indices l)) (levels (run forks above_100)).
Proof.
  apply (overlay_journal_indices content (Some (100, 100))); [by vm_compute|]. apply run_reach; [constructor|by vm_compute].
Defined.

Lemma canonicalize_discards_forks_witness :
  exists c s', (canonicalize (E := Empty_set) 1 dflt ≫= fun c => _ ← overlay_apply_pending; mret c) (run forks above_100) = (s', Ok c) /\
    last_canonicalized s' = Some (1, 101).
Proof.
  destruct (canonicalize_discards_forks content (Some (100, 100)) (run forks above_100) 1) as [Hbad|Hok];
    [by vm_compute|apply run_reach; [constructor|by vm_compute]|by vm_compute| |].
  - exfalso. apply (f_equal (fun r => is_ok r.2)) in Hbad. by vm_compute in Hbad.
  - destruct Hok as (l & rest & o & c & s' & _ & _ & _ & Hrun & _ & _ & _ & Hlast). exists c, s'. split; [exact Hrun|].
    rewrite Hlast. by vm_compute.
Defined.

(** *** Where the assumptions of the code do not hold *)

(** A level that loses all its blocks to a canonicalization stays, without
    blocks.  If a block is inserted below such a level in a transaction that
    fails, the assertion that only the top level becomes empty does not hold. *)
Definition emptied : NonCanonicalOverlay Z Z := run (forks ++ [Canonicalize 2; ApplyPending]) above_100.

Lemma emptied_levels : length (levels emptied) = 2%nat /\ all_blocks emptied = [].
Proof. by vm_compute. Qed.

Lemma revert_below_empty_level :
  (overlay_revert_pending (E := Error Empty_set) (run [Insert 5 102 2 (changes [] [])] emptied)).2 = Panic.
Proof. by vm_compute. Qed.

(** [revert_one] reports such a level as a block reverted: there is a commit, and
    the block below stays. *)
Lemma revert_one_empty_level :
  let s := run [Insert 5 102 2 (changes [] []); ApplyPending] emptied in
  (revert_one (E := Error Empty_set) s).2 = Ok (Some dflt) /\
  ov_hash <$> all_blocks (revert_one (E := Error Empty_set) s).1 = [5].
Proof. by vm_compute. Qed.

(** [canonicalize] does not look at the parent: a second pending block of a fork
    that the first one discards is accepted, and applying them panics. *)
Lemma canonicalize_two_forks :
  (overlay_exec (Canonicalize 3) (run (forks ++ [Canonicalize 2]) above_100)).2 = Ok tt /\
  (overlay_apply_pending (E := Error Empty_set) (run (forks ++ [Canonicalize 2; Canonicalize 3]) above_100)).2 = Panic.
Proof. by vm_compute. Qed.

(** Before the first canonicalization the number of a block is not checked: one
    with a gap below it panics, where an error is expected. *)
Lemma insert_above_gap :
  (overlay_exec (Insert 2 5 1 (changes [] [])) (run [Insert 1 0 0 (changes [] [])] (empty_overlay None))).2 = Panic.
Proof. by vm_compute. Qed.

(** The number of the last canonical block changes when the first
    canonicalization is applied. *)
Lemma first_canonical_number :
  let s := run [Insert 1 0 0 (changes [] []); Canonicalize 1] (empty_overlay None) in
  last_canonicalized_block_number (E := Empty_set) s = Ok (Some 1) /\
  last_canonicalized_block_number (E := Empty_set) (run [ApplyPending] s) = Ok (Some 0).
Proof. by vm_compute. Qed.
End OverlayDemo.
