(* ===== verification/OverlayJournal.v ===== *)
(** * The journal of the overlay

    What the metadata in the database says about the blocks of the overlay; that
    insertions and canonicalizations keep the journal and the overlay together;
    what reverting a transaction leaves; and that [NonCanonicalOverlay::new]
    reads the overlay back from the journal. *)

From Stdlib Require Import ZArith Lia.
From stdpp Require Import gmap fin_maps fin_sets option list.
From S2P Require Import Prelude StateDb PruningSpec NonCanonical NonCanonicalSpec NonCanonicalInv.

Local Open Scope Z_scope.
Local Open Scope rust_scope.

(** ** Blocks on top of blocks *)
Section rooted.
Context {H Key : Type} `{Countable H} `{Countable Key} (p : H -> H).
Abbreviation Overlay := (BlockOverlay H Key).
Implicit Types ls : list (list Overlay).
Implicit Types tops : list H.

(** Each block is on a block of the level below. *)
Fixpoint rooted tops ls : Prop :=
  match ls with
  | [] => True
  | bs :: ls => Forall (fun o => p (ov_hash o) ∈ tops) bs /\ rooted (ov_hash <$> bs) ls
  end.

Lemma rooted_keep D tops tops' ls : (forall h, h ∈ tops -> h ∉ D -> h ∈ tops') -> rooted tops ls -> rooted tops' (keep p D ls).
Proof.
  revert D tops tops'. induction ls as [|bs ls IH]; intros D tops tops' Ht; simpl; [done|]. intros [Hb Hr]. split.
  - apply Forall_forall. intros o [Hp Ho]%elem_of_strangers. rewrite Forall_forall in Hb. auto.
  - apply (IH _ (ov_hash <$> bs)); [|done]. intros h (o & -> & Ho)%list_elem_of_fmap Hnot. apply list_elem_of_fmap_2, elem_of_strangers.
    split; [|done]. intros Hp. apply Hnot. by apply list_elem_of_fmap_2, elem_of_children.
Qed.

(** The levels that canonicalizations leave are on the last canonical block. *)
Lemma rooted_settled hs h ls : rooted [h] ls -> (length hs <= length ls)%nat -> rooted [default h (list.last hs)] (settled p hs ls).
Proof.
  revert h ls. induction hs as [|h1 hs IH]; intros h [|bs ls] Hr Hlen; simpl in *; try done; try lia.
  destruct Hr as [_ Hr]. replace (list.last (h1 :: hs)) with (Some (default h1 (list.last hs))).
  - apply IH; [|rewrite keep_length; lia]. apply (rooted_keep _ (ov_hash <$> bs)); [|done]. intros h' Hh' Hnot.
    unfold siblings in Hnot. rewrite list_elem_of_filter in Hnot. apply list_elem_of_singleton. destruct (decide (h' = h1)); [done|tauto].
  - rewrite list.last_cons. by destruct (list.last hs).
Qed.

(** A block more. *)
Lemma rooted_push tops ls i o : rooted tops ls -> (i < length ls)%nat ->
  p (ov_hash o) ∈ (match i with Datatypes.O => tops | S j => ov_hash <$> default [] (ls !! j) end) ->
  rooted tops (alter (.++ [o]) i ls).
Proof.
  revert tops i. induction ls as [|bs ls IH]; intros tops [|i] Hr Hi Hp; simpl in *; try done; try lia.
  - destruct Hr as [Hb Hr]. split; [apply Forall_app; split; [done|by constructor]|].
    destruct ls as [|bs' ls]; [done|]. destruct Hr as [Hb' Hr]. split; [|done]. eapply Forall_impl; [exact Hb'|].
    intros o' Ho'. rewrite fmap_app. set_solver.
  - destruct Hr as [Hb Hr]. split; [done|]. apply (IH (ov_hash <$> bs)); [done|lia|]. by destruct i.
Qed.

Lemma rooted_snoc tops ls : rooted tops ls -> rooted tops (ls ++ [[]]).
Proof. revert tops. induction ls as [|bs ls IH]; intros tops; simpl; [done|]. intros [? ?]. auto. Qed.
End rooted.

Lemma rooted_ext {H Key : Type} (p q : H -> H) tops (ls : list (list (BlockOverlay H Key))) :
  (forall o, o ∈ concat ls -> p (ov_hash o) = q (ov_hash o)) -> rooted p tops ls -> rooted q tops ls.
Proof.
  revert tops. induction ls as [|bs ls IH]; intros tops Hpq; simpl; [done|]. intros [Hb Hr]. split.
  - apply Forall_forall. intros o Ho. rewrite Forall_forall in Hb. rewrite <-Hpq by (simpl; set_solver). auto.
  - apply IH; [|done]. intros o Ho. apply Hpq. simpl. set_solver.
Qed.

(** ** Levels without the empty ones on top *)
Section trim.
Context {A : Type}.
Implicit Types ls : list (list A).

Definition level_at ls (i : nat) : list A := default [] (ls !! i).

Fixpoint trim ls : list (list A) :=
  match ls with
  | [] => []
  | bs :: ls => match bs, trim ls with [], [] => [] | _, t => bs :: t end
  end.

Lemma trim_cons bs ls : bs <> [] -> trim (bs :: ls) = bs :: trim ls.
Proof. by destruct bs. Qed.

Lemma level_at_trim ls i : level_at (trim ls) i = level_at ls i.
Proof.
  unfold level_at. revert i. induction ls as [|bs ls IH]; intros i; [done|]. simpl.
  destruct bs as [|o bs]; [destruct (trim ls) as [|t ts] eqn:Ht|]; destruct i as [|i]; try done; simpl; by rewrite <-IH.
Qed.

Lemma concat_trim ls : concat (trim ls) = concat ls.
Proof. induction ls as [|bs ls IH]; [done|]. simpl. rewrite <-IH. by destruct bs, (trim ls). Qed.

Lemma trim_dense ls : Forall (fun bs => bs <> []) ls -> trim ls = ls.
Proof. induction 1 as [|bs ls Hb Hl IH]; [done|]. by rewrite trim_cons, IH. Qed.

Lemma trim_prefix ls : exists n, ls = trim ls ++ replicate n [].
Proof.
  induction ls as [|bs ls [n IH]]; [by exists 0%nat|]. simpl. destruct bs as [|o bs].
  - destruct (trim ls) as [|t ts] eqn:Ht; [exists (S n); by rewrite IH|]. exists n. by rewrite IH at 1.
  - exists n. by rewrite IH at 1.
Qed.

Lemma trim_length ls : (length (trim ls) <= length ls)%nat.
Proof. induction ls as [|bs ls IH]; simpl; [lia|]. destruct bs, (trim ls); simpl in *; lia. Qed.

(** An element more in level [i], which may be one above the top. *)
Definition push_at (i : nat) (o : A) ls : list (list A) :=
  alter (.++ [o]) i (ls ++ (if (i =? length ls)%nat then [[]] else [])).

Lemma push_at_cons i o bs ls : push_at (S i) o (bs :: ls) = bs :: push_at i o ls.
Proof. done. Qed.

Lemma push_at_0 o bs ls : push_at 0 o (bs :: ls) = (bs ++ [o]) :: ls.
Proof. unfold push_at. simpl. by rewrite app_nil_r. Qed.

Lemma push_at_new o ls : push_at (length ls) o ls = ls ++ [[o]].
Proof. induction ls as [|bs ls IH]; [done|]. simpl. by rewrite push_at_cons, IH. Qed.

Lemma trim_push i o ls : (i <= length ls)%nat -> Forall (fun bs => bs <> []) (take i ls) -> trim (push_at i o ls) = push_at i o (trim ls).
Proof.
  revert i. induction ls as [|bs ls IH]; intros [|i] Hi Hne; simpl in Hi; [done|lia| |].
  - rewrite push_at_0, trim_cons by (by destruct bs). destruct bs as [|b bs]; [|by rewrite trim_cons, push_at_0].
    simpl. destruct (trim ls); [done|by rewrite push_at_0].
  - simpl in Hne. apply Forall_cons in Hne as [Hb Hne]. rewrite push_at_cons, !trim_cons, push_at_cons, IH by (done || lia). done.
Qed.

Lemma level_at_push i o ls j : (i <= length ls)%nat -> level_at (push_at i o ls) j = level_at ls j ++ (if decide (i = j) then [o] else []).
Proof.
  unfold level_at. revert i j. induction ls as [|bs ls IH]; intros [|i] [|j] Hi; simpl in Hi; try lia; [done|done|..].
  - by rewrite push_at_0.
  - rewrite push_at_0. simpl. by rewrite app_nil_r.
  - rewrite push_at_cons. simpl. by rewrite app_nil_r.
  - rewrite push_at_cons. simpl. rewrite IH by lia. destruct (decide (i = j)), (decide (S i = S j)); (done || lia).
Qed.

Lemma concat_push_at i o ls : (i <= length ls)%nat -> concat (push_at i o ls) ≡ₚ o :: concat ls.
Proof.
  revert i. induction ls as [|bs ls IH]; intros [|i] Hi; simpl in Hi; try lia; [done|rewrite push_at_0|rewrite push_at_cons]; simpl.
  - rewrite <-app_assoc. solve_Permutation.
  - rewrite IH by lia. solve_Permutation.
Qed.

Lemma drop_push k i o ls : (k <= i)%nat -> (i <= length ls)%nat -> drop k (push_at i o ls) = push_at (i - k) o (drop k ls).
Proof.
  revert i ls. induction k as [|k IH]; intros i ls Hk Hi; [by rewrite Nat.sub_0_r|].
  destruct ls as [|bs ls], i as [|i]; simpl in Hi; try lia. rewrite push_at_cons. simpl. apply IH; lia.
Qed.

Lemma elem_of_level_at ls i o : o ∈ level_at ls i -> o ∈ concat ls.
Proof.
  unfold level_at. destruct (ls !! i) as [bs|] eqn:Hi; simpl; [|by intros ?%not_elem_of_nil]. intros Ho.
  rewrite list_elem_of_In, in_concat. exists bs. rewrite <-!list_elem_of_In. split; [by eapply list_elem_of_lookup_2|done].
Qed.

Lemma elem_of_concat_level ls o : o ∈ concat ls -> exists i, o ∈ level_at ls i.
Proof.
  induction ls as [|bs ls IH]; simpl; [by intros ?%not_elem_of_nil|]. intros [Ho|(i & Hi)%IH]%elem_of_app; [by exists 0%nat|by exists (S i)].
Qed.
End trim.

(** ** The insertions of a transaction *)
Section grown.
Context {H Key : Type} `{Countable H} `{Countable Key}.
Abbreviation Overlay := (BlockOverlay H Key).
Implicit Types ls : list (list Overlay).
Implicit Types o : Overlay.

(** No level below a block is empty. *)
Lemma rooted_dense (p : H -> H) tops ls : rooted p tops ls -> Forall (fun bs => bs <> []) (trim ls).
Proof.
  revert tops. induction ls as [|bs ls IH]; intros tops; simpl; [done|]. intros [_ Hr]. specialize (IH _ Hr).
  destruct bs as [|o bs]; [|by constructor]. destruct (trim ls) as [|t ts] eqn:Ht; [done|]. exfalso.
  apply Forall_cons in IH as [Hne _]. destruct ls as [|bs' ls]; [done|]. destruct Hr as [Hb' _].
  assert (level_at (bs' :: ls) 0 = t) as Hlv by (by rewrite <-level_at_trim, Ht). unfold level_at in Hlv. simpl in Hlv. subst t.
  destruct bs' as [|o' bs']; [done|]. apply Forall_cons in Hb' as [Ho _]. by apply not_elem_of_nil in Ho.
Qed.

Lemma rooted_trim (p : H -> H) tops ls : rooted p tops (trim ls) <-> rooted p tops ls.
Proof.
  revert tops. induction ls as [|bs ls IH]; intros tops; [done|]. simpl. rewrite <-IH. destruct bs as [|o bs]; [|done].
  destruct (trim ls) as [|t ts]; [|done]. simpl. split; [|done]. intros _. split; [constructor|done].
Qed.

(** The order of the blocks in a level does not matter. *)
Lemma rooted_perm (p : H -> H) tops tops' ls ls' : (forall h, h ∈ tops -> h ∈ tops') -> Forall2 (≡ₚ) ls ls' -> rooted p tops ls -> rooted p tops' ls'.
Proof.
  intros Ht Hls. revert tops tops' Ht. induction Hls as [|bs bs' ls ls' Hb Hls IH]; intros tops tops' Ht; simpl; [done|]. intros [Hbs Hr]. split.
  - rewrite <-Hb. eapply Forall_impl; [exact Hbs|]. auto.
  - eapply IH; [|exact Hr]. intros h. by rewrite Hb.
Qed.

Lemma rooted_below (p : H -> H) tops ls j : rooted p tops ls -> level_at ls j <> [] -> Forall (fun bs => bs <> []) (take (S j) ls).
Proof.
  intros Hd%rooted_dense Hj. rewrite <-level_at_trim in Hj. assert (j < length (trim ls))%nat as Hlt.
  { apply lookup_lt_is_Some_1. unfold level_at in Hj. destruct (trim ls !! j); done. }
  destruct (trim_prefix ls) as [n ->]. rewrite take_app_le by lia. by apply Forall_take.
Qed.

Lemma rooted_parent (p : H -> H) tops ls i o : rooted p tops ls -> (i <= length ls)%nat ->
  p (ov_hash o) ∈ (match i with Datatypes.O => tops | S j => ov_hash <$> level_at ls j end) -> Forall (fun bs => bs <> []) (take i ls).
Proof.
  intros Hr Hi Hp. destruct i as [|j]; [constructor|]. eapply rooted_below; [exact Hr|]. intros Hnil. rewrite Hnil in Hp. by apply not_elem_of_nil in Hp.
Qed.

(** [ls] is [ls0] with blocks added one after the other, each above a level with
    blocks. *)
Inductive grown ls0 : list H -> list (list Overlay) -> Prop :=
| grown_nil : grown ls0 [] ls0
| grown_snoc hs ls i o : grown ls0 hs ls -> (i <= length ls)%nat -> Forall (fun bs => bs <> []) (take i ls) ->
    grown ls0 (hs ++ [ov_hash o]) (push_at i o ls).

(** Taking the last block out again. *)
Lemma revertible_push Q hs ls i o : Forall (fun bs => bs <> []) ls -> (i <= length ls)%nat ->
  revertible Q hs ls -> revertible Q (ov_hash o :: hs) (push_at i o ls).
Proof.
  intros Hd Hi HQ. destruct (decide (i = length ls)) as [->|Hne]; cbn [revertible].
  - rewrite push_at_new. exists (length ls), [], o. rewrite take_app_length. split_and!; try done.
    + by apply list_lookup_middle.
    + rewrite length_app. simpl. lia.
  - destruct (lookup_lt_is_Some_2 ls i) as [bs Hb]; [lia|]. unfold push_at. rewrite (proj2 (Nat.eqb_neq _ _)), app_nil_r by done.
    exists i, bs, o. rewrite list_lookup_alter_eq, Hb. split_and!; try done.
    + rewrite take_alter, decide_False by lia. by apply Forall_take.
    + assert (<[i := bs]> (alter (.++ [o]) i ls) = ls) as Hback.
      { apply list_eq. intros j. destruct (decide (i = j)) as [<-|Hj].
        - rewrite list_lookup_insert_eq by (rewrite length_alter; lia). done.
        - by rewrite list_lookup_insert_ne, list_lookup_alter_ne. }
      rewrite Hback. destruct bs; [|done]. by pose proof (Forall_lookup_1 _ _ _ _ Hd Hb).
Qed.

(** The blocks that a transaction has inserted can be reverted if no level is
    empty; the levels are as before, without the empty ones on top. *)
Lemma grown_revertible ls0 hs ls : grown ls0 hs ls -> Forall (fun bs => bs <> []) (trim ls0) ->
  Forall (fun bs => bs <> []) (trim ls) /\ revertible (fun ls' => ls' = trim ls0) (reverse hs) (trim ls).
Proof.
  intros Hg H0'. induction Hg as [|hs ls i o Hg [IHd IHr] Hi Hne]; [done|]. rewrite trim_push by done.
  assert (i <= length (trim ls))%nat as Hi'.
  { clear -Hi Hne. revert i Hi Hne. induction ls as [|bs ls IH]; intros [|i] Hi Hne; simpl in Hi; try lia.
    simpl in Hne. apply Forall_cons in Hne as [Hb Hne]. rewrite trim_cons by done. simpl. specialize (IH i ltac:(lia) Hne). lia. }
  split.
  - destruct (decide (i = length (trim ls))) as [->|Hlt].
    + rewrite push_at_new. apply Forall_app. split; [done|by constructor].
    + unfold push_at. rewrite (proj2 (Nat.eqb_neq _ _)), app_nil_r by done. apply Forall_alter; [done|]. by intros [] _ _.
  - rewrite reverse_snoc. by apply revertible_push.
Qed.

Lemma grown_nil_inv ls0 ls : grown ls0 [] ls -> ls = ls0.
Proof. inversion 1 as [|hs ls1 i o Hg Hi Hne Heq]; [done|]. by destruct hs. Qed.

Lemma grown_elem ls0 hs ls o : grown ls0 hs ls -> o ∈ concat ls0 -> o ∈ concat ls.
Proof. induction 1 as [|hs ls i o' Hg IH Hi _]; [done|]. intros Ho. rewrite concat_push_at by done. set_solver. Qed.
End grown.

(** ** What canonicalizations leave *)
Section settled.
Context {H Key : Type} `{Countable H} `{Countable Key} (p : H -> H).
Abbreviation Overlay := (BlockOverlay H Key).
Implicit Types ls : list (list Overlay).
Implicit Types o : Overlay.
Implicit Types D : list H.

Lemma keep_at D ls j : exists D', keep p D ls !! j = strangers p D' <$> ls !! j /\
  drop (S j) (keep p D ls) = keep p (ov_hash <$> children p D' (level_at ls j)) (drop (S j) ls).
Proof.
  revert D j. induction ls as [|bs ls IH]; intros D [|j]; [by exists []..|by exists D|]. simpl. apply IH.
Qed.

Lemma level_at_keep D ls j : exists D', level_at (keep p D ls) j = strangers p D' (level_at ls j).
Proof. destruct (keep_at D ls j) as (D' & Hj & _). exists D'. unfold level_at. rewrite Hj. by destruct (ls !! j). Qed.

Lemma chained_lookup hs h ls : chained p (hs ++ [h]) ls -> h ∈ ov_hash <$> level_at ls (length hs).
Proof.
  revert ls. induction hs as [|h1 hs IH]; intros [|bs ls]; simpl; try done.
  - by intros [? _].
  - intros (_ & _ & Hc). by apply IH.
Qed.

Lemma nodup_level ls j : NoDup (ov_hash <$> concat ls) -> NoDup (ov_hash <$> level_at ls j).
Proof.
  revert j. induction ls as [|bs ls IH]; intros j; [by intros _; constructor|]. simpl. rewrite fmap_app.
  intros (Hb & _ & Hl)%NoDup_app. destruct j as [|j]; [done|]. by apply IH.
Qed.

(** A block that stays does not leave. *)
Lemma strangers_not_children D bs o : NoDup (ov_hash <$> bs) -> o ∈ strangers p D bs -> ov_hash o ∉ ov_hash <$> children p D bs.
Proof.
  intros Hnd [Hs Ho]%elem_of_strangers (o' & Heq & Ho')%list_elem_of_fmap. apply elem_of_children in Ho' as [Hc Ho'].
  by rewrite Heq in Hs.
Qed.

(** Only the last of the blocks counts: all that is not on top of it goes. *)
Lemma settled_last hs h ls : chained p (hs ++ [h]) ls -> NoDup (ov_hash <$> concat ls) ->
  settled p (hs ++ [h]) ls = keep p (siblings h (level_at ls (length hs))) (drop (S (length hs)) ls).
Proof.
  revert ls. induction hs as [|h1 hs IH]; intros [|bs ls]; simpl; try done. intros (Hin & Hp & Hc) Hnd.
  rewrite fmap_app in Hnd. apply NoDup_app in Hnd as (Hndb & _ & Hnd). set (D := siblings h1 bs).
  assert (chained p (hs ++ [h]) (keep p D ls)) as Hck.
  { apply chained_keep; [done| |done]. assert (h1 ∉ D) as Hn by (unfold D, siblings; rewrite list_elem_of_filter; tauto).
    destruct hs; simpl in *; by rewrite Hp. }
  assert (NoDup (ov_hash <$> concat (keep p D ls))) as Hndk.
  { rewrite (keep_descendants p D ls), fmap_app in Hnd. by apply NoDup_app in Hnd as (_ & _ & ?). }
  rewrite (IH _ Hck Hndk). pose proof (chained_lookup _ _ _ Hck) as Hh.
  destruct (keep_at D ls (length hs)) as (D' & Hj & Hdrop). rewrite Hdrop, keep_app. apply keep_ext.
  assert (level_at (keep p D ls) (length hs) = strangers p D' (level_at ls (length hs))) as Hlv by (unfold level_at; rewrite Hj; by destruct (ls !! _)).
  rewrite Hlv in *. pose proof (nodup_level ls (length hs) Hnd) as Hndl. set (l := level_at ls (length hs)) in *.
  intros x. unfold siblings. rewrite elem_of_app, !list_elem_of_filter, !list_elem_of_fmap. split.
  - intros [(o & -> & Ho)|(Hne & o & -> & Ho)].
    + split; [|apply elem_of_children in Ho as [_ Ho]; eauto]. intros <-. apply list_elem_of_fmap in Hh as (o' & Heq & Ho').
      apply (strangers_not_children D' l o' Hndl Ho'). rewrite <-Heq. by apply list_elem_of_fmap_2.
    + apply elem_of_strangers in Ho as [_ Ho]. eauto.
  - intros (Hne & o & -> & Ho). destruct (decide (p (ov_hash o) ∈ D')).
    + left. exists o. by rewrite elem_of_children.
    + right. split; [done|]. exists o. by rewrite elem_of_strangers.
Qed.

Lemma settled_snoc hs h ls : settled p (hs ++ [h]) ls = settled p [h] (settled p hs ls).
Proof. revert ls. induction hs as [|h1 hs IH]; intros [|bs ls]; simpl; try done; by destruct hs. Qed.

Lemma level_at_settled hs ls i o : o ∈ level_at (settled p hs ls) i -> o ∈ level_at ls (length hs + i).
Proof.
  revert ls. induction hs as [|h hs IH]; intros [|bs ls]; try done. simpl. intros Ho%IH.
  destruct (level_at_keep (siblings h bs) ls (length hs + i)) as [D' Hk]. rewrite Hk in Ho. by apply elem_of_strangers in Ho as [_ ?].
Qed.

Lemma same_level ls i j o : NoDup (ov_hash <$> concat ls) -> o ∈ level_at ls i -> o ∈ level_at ls j -> i = j.
Proof.
  revert i j. induction ls as [|bs ls IH]; intros i j; [by intros _ ?%not_elem_of_nil|]. simpl. rewrite fmap_app.
  intros (_ & Hdis & Hnd)%NoDup_app. destruct i as [|i], j as [|j]; intros Hi Hj; [done| | |by f_equal; apply IH].
  all: exfalso; apply (Hdis (ov_hash o)); apply list_elem_of_fmap_2; first [done|by eapply elem_of_level_at].
Qed.

(** A block on top of one that stays, stays. *)
Definition on_kept D ls (i : nat) o : Prop :=
  match i with
  | Datatypes.O => p (ov_hash o) ∉ D
  | S j => p (ov_hash o) ∈ ov_hash <$> level_at (keep p D ls) j
  end.

Lemma keep_push D ls i o : NoDup (ov_hash <$> concat ls) -> (i <= length ls)%nat -> on_kept D ls i o ->
  keep p D (push_at i o ls) = push_at i o (keep p D ls).
Proof.
  revert D i. induction ls as [|bs ls IH]; intros D [|i] Hnd Hi Ho; simpl in Hi; try lia.
  - unfold push_at. simpl. unfold strangers. by rewrite filter_cons_True.
  - rewrite push_at_0. simpl. rewrite push_at_0. unfold strangers, children. rewrite !filter_app.
    simpl in Ho. rewrite (filter_cons_True _ o []) by done. rewrite (filter_cons_False _ o []) by tauto. simpl. by rewrite app_nil_r.
  - simpl in Hnd. rewrite fmap_app in Hnd. apply NoDup_app in Hnd as (Hndb & _ & Hnd).
    rewrite push_at_cons. simpl. rewrite push_at_cons, IH; [done|done|lia|].
    destruct i as [|i]; simpl in *; [|done]. apply list_elem_of_fmap in Ho as (o' & -> & Ho').
    by apply strangers_not_children.
Qed.
End settled.

Lemma keep_parents {H Key : Type} `{EqDecision H} (p q : H -> H) D (ls : list (list (BlockOverlay H Key))) :
  (forall o, o ∈ concat ls -> p (ov_hash o) = q (ov_hash o)) -> keep p D ls = keep q D ls.
Proof.
  revert D. induction ls as [|bs ls IH]; intros D Hpq; simpl; [done|].
  assert (strangers p D bs = strangers q D bs) as ->.
  { apply filter_agree. intros o Ho. rewrite Hpq; [done|]. simpl. set_solver. }
  assert (children p D bs = children q D bs) as ->.
  { apply filter_agree. intros o Ho. rewrite Hpq; [done|]. simpl. set_solver. }
  f_equal. apply IH. intros o Ho. apply Hpq. simpl. set_solver.
Qed.

Lemma settled_parents {H Key : Type} `{EqDecision H} (p q : H -> H) hs (ls : list (list (BlockOverlay H Key))) :
  (forall o, o ∈ concat ls -> p (ov_hash o) = q (ov_hash o)) -> settled p hs ls = settled q hs ls.
Proof.
  revert ls. induction hs as [|h hs IH]; intros [|bs ls] Hpq; simpl; try done.
  rewrite (keep_parents p q) by (intros o Ho; apply Hpq; simpl; set_solver). apply IH. intros o Ho. apply Hpq. simpl.
  rewrite elem_of_app. right. rewrite (keep_descendants q (siblings h bs) ls). set_solver.
Qed.

(** A block that is inserted on top of a block that stays, after [hs] became
    pending. *)
Lemma settled_push {H Key : Type} `{Countable H} `{Countable Key} (p q : H -> H) hs (ls : list (list (BlockOverlay H Key))) i o :
  chained q hs (push_at i o ls) -> NoDup (ov_hash <$> (o :: concat ls)) -> (forall o', o' ∈ concat ls -> p (ov_hash o') = q (ov_hash o')) ->
  (length hs <= i <= length ls)%nat ->
  match list.last hs, (i - length hs)%nat with
  | None, _ => True
  | Some h, Datatypes.O => q (ov_hash o) = h
  | Some _, S j => q (ov_hash o) ∈ ov_hash <$> level_at (settled p hs ls) j
  end ->
  settled q hs (push_at i o ls) = push_at (i - length hs) o (settled p hs ls).
Proof.
  intros Hc Hnd Hpq Hi Hon. rewrite (settled_parents p q) in * by done.
  destruct hs as [|h hs _] using rev_ind; [simpl; by rewrite Nat.sub_0_r|]. rewrite list.last_snoc in Hon. rewrite length_app in *. simpl in Hi, Hon |- *.
  replace (length hs + 1)%nat with (S (length hs)) in * by lia.
  assert (chained q (hs ++ [h]) ls) as Hc'.
  { revert Hc. clear -Hi. revert ls i Hi. induction hs as [|h1 hs IH]; intros [|bs ls] [|i] Hi; simpl in Hi; try lia; rewrite push_at_cons; simpl.
    - done.
    - intros (? & ? & Hc). split_and!; [done|done|]. apply (IH ls i); [lia|done]. }
  simpl in Hnd. assert (NoDup (ov_hash <$> concat ls)) as Hndl by (by apply NoDup_cons in Hnd as [_ ?]).
  rewrite (settled_last q hs h ls Hc' Hndl) in *. rewrite settled_last; [|done|by rewrite concat_push_at by lia].
  rewrite level_at_push, decide_False, app_nil_r by lia. rewrite drop_push by lia. apply keep_push.
  - rewrite <-(take_drop (S (length hs)) ls), concat_app, fmap_app in Hndl. by apply NoDup_app in Hndl as (_ & _ & ?).
  - rewrite length_drop. lia.
  - destruct (i - S (length hs))%nat; simpl; [|done]. rewrite Hon. unfold siblings. rewrite list_elem_of_filter. tauto.
Qed.

(** ** The journal in the database *)

(** The codec gives a pair of [u64] sixteen bytes. *)
Class PairCodec `{Codec (Z * Z)} : Prop :=
  encode_pair_length n m : n ∈u 64 -> m ∈u 64 -> length (encode (n, m)) = 16%nat.

Section journal.
Context {OC : OverflowChecks} {H Key : Type} `{Countable H} `{Countable Key} (content : Key -> bytes).
Context `{Codec unit} `{Codec Z} `{Codec (H * Z)} `{Codec (Z * Z)} `{Codec (OverlayRecord H Key)}.
Context `{!KeyCodec} `{!PairCodec} `{!CodecLaws (Z * Z) (fun e => e.1 ∈u 64 /\ e.2 ∈u 64)}.
Abbreviation O := (NonCanonicalOverlay H Key).
Abbreviation Overlay := (BlockOverlay H Key).
Implicit Types ls : list (list Overlay).
Implicit Types o : Overlay.
Implicit Types m : gmap bytes bytes.

Lemma to_overlay_key_inj n i n' i' : n ∈u 64 -> i ∈u 64 -> n' ∈u 64 -> i' ∈u 64 ->
  to_overlay_key n i = to_overlay_key n' i' -> n = n' /\ i = i'.
Proof.
  intros Hn Hi Hn' Hi' Heq%(inj (.++ _)). assert (decode (encode (n, i)) = Some (n, i)) as Hd by (by apply decode_encode).
  rewrite Heq, decode_encode in Hd by done. by simplify_eq.
Qed.

Lemma last_canonical_key n i : n ∈u 64 -> i ∈u 64 -> to_overlay_key n i <> to_meta_key LAST_CANONICAL tt.
Proof.
  intros Hn Hi Heq%(f_equal length). unfold to_overlay_key, to_meta_key in Heq.
  rewrite !length_app, encode_pair_length, encode_unit in Heq by done. done.
Qed.

(** The record of a block. *)
Definition recorded (p : H -> H) o : OverlayRecord H Key :=
  mkOverlayRecord (ov_hash o) (p (ov_hash o)) ((fun k => (k, content k)) <$> ov_inserted o) (ov_deleted o).

(** The levels [ls], with block numbers from [n] on, have their records and no
    others; the keys of the blocks are those of their places. *)
Record records m (n : Z) (p : H -> H) ls : Prop := {
  rc_found i o : o ∈ level_at ls i -> m !! ov_journal_key o = Some (encode (recorded p o));
  rc_place i o : o ∈ level_at ls i ->
    ov_journal_key o = to_overlay_key (n + Z.of_nat i) (ov_journal_index o) /\
    0 <= ov_journal_index o < MAX_BLOCKS_PER_LEVEL /\ n + Z.of_nat i ∈u 64;
  rc_none i idx : 0 <= idx < MAX_BLOCKS_PER_LEVEL -> n + Z.of_nat i ∈u 64 ->
    (forall o, o ∈ level_at ls i -> ov_journal_index o <> idx) -> m !! to_overlay_key (n + Z.of_nat i) idx = None }.

Definition first_number (last : option (H * Z)) : Z := match last with Some (_, n) => n + 1 | None => 0 end.

Record journaled m (last : option (H * Z)) (p : H -> H) ls : Prop := {
  jr_last : m !! to_meta_key LAST_CANONICAL tt = encode <$> last;
  jr_records : records m (first_number last) p ls }.

Lemma records_tail m n p bs ls : records m n p (bs :: ls) -> records m (n + 1) p ls.
Proof.
  intros [Hf Hp Hn]. assert (forall i, n + 1 + Z.of_nat i = n + Z.of_nat (S i)) as Hi by lia. constructor.
  - intros i o Ho. by apply (Hf (S i)).
  - intros i o Ho. rewrite Hi. by apply (Hp (S i)).
  - intros i idx Hr Hu Hnot. rewrite Hi in *. by apply (Hn (S i)).
Qed.

(** Only the blocks of each level matter, and the parents of these. *)
Lemma records_ext m n p q ls ls' : (forall i o, o ∈ level_at ls' i <-> o ∈ level_at ls i) ->
  (forall o, o ∈ concat ls -> p (ov_hash o) = q (ov_hash o)) -> records m n p ls -> records m n q ls'.
Proof.
  intros Hlv Hpq [Hf Hp Hn]. constructor.
  - intros i o Ho%Hlv. rewrite (Hf i o Ho). unfold recorded. rewrite Hpq; [done|]. by eapply elem_of_level_at.
  - intros i o Ho%Hlv. by apply Hp.
  - intros i idx Hr Hu Hnot. apply Hn; [done|done|]. intros o Ho%Hlv. by apply Hnot.
Qed.

Lemma journaled_ext m last p q ls ls' : (forall i o, o ∈ level_at ls' i <-> o ∈ level_at ls i) ->
  (forall o, o ∈ concat ls -> p (ov_hash o) = q (ov_hash o)) -> journaled m last p ls -> journaled m last q ls'.
Proof. intros Hlv Hpq [Hl Hr]. constructor; [done|]. by eapply records_ext. Qed.

(** Other keys do not matter. *)
Lemma journaled_foreign m m' last p ls : (forall k, overlay_key k -> m' !! k = m !! k) -> journaled m last p ls -> journaled m' last p ls.
Proof.
  intros Hm [Hl [Hf Hp Hn]]. assert (forall n i, n ∈u 64 -> 0 <= i < MAX_BLOCKS_PER_LEVEL -> overlay_key (to_overlay_key n i)) as Hkey.
  { intros n i Hu Hi. right. exists n, i. unfold is_u, MAX_BLOCKS_PER_LEVEL in *. split_and!; done || lia. }
  constructor; [rewrite Hm by (by left); done|]. constructor; [|done|].
  - intros i o Ho. destruct (Hp i o Ho) as (Hk & Hr & Hu). rewrite Hm by (rewrite Hk; auto). by apply (Hf i).
  - intros i idx Hr Hu Hnot. rewrite Hm by auto. by apply Hn.
Qed.

(** A new block in level [i], with an index that is new there. *)
Lemma records_insert m n p q ls i o : records m n p ls -> (i <= length ls)%nat -> n + Z.of_nat i ∈u 64 ->
  0 <= ov_journal_index o < MAX_BLOCKS_PER_LEVEL -> ov_journal_index o ∉ ov_journal_index <$> level_at ls i ->
  ov_journal_key o = to_overlay_key (n + Z.of_nat i) (ov_journal_index o) ->
  (forall o', o' ∈ concat ls -> p (ov_hash o') = q (ov_hash o')) ->
  records (<[ov_journal_key o := encode (recorded q o)]> m) n q (push_at i o ls).
Proof.
  intros [Hf Hp Hn] Hi Hu Hr Hfresh Hkey Hpq.
  assert (forall j idx, 0 <= idx < MAX_BLOCKS_PER_LEVEL -> n + Z.of_nat j ∈u 64 ->
    ov_journal_key o = to_overlay_key (n + Z.of_nat j) idx -> i = j /\ ov_journal_index o = idx) as Hinj.
  { intros j idx Hr' Hu' Heq. rewrite Hkey in Heq. apply to_overlay_key_inj in Heq as [? ?]; unfold is_u, MAX_BLOCKS_PER_LEVEL in *; lia. }
  assert (forall j o', o' ∈ level_at ls j -> ov_journal_key o' <> ov_journal_key o) as Hne.
  { intros j o' Ho' Heq. destruct (Hp j o' Ho') as (Hk & Hr' & Hu'). rewrite Hk in Heq. symmetry in Heq.
    apply Hinj in Heq as [<- Heq]; [|done..]. apply Hfresh. rewrite Heq. by apply list_elem_of_fmap_2. }
  constructor.
  - intros j o' Ho'. rewrite level_at_push in Ho' by done. apply elem_of_app in Ho' as [Ho'|Ho'].
    + rewrite lookup_insert_ne by (by apply not_eq_sym, (Hne j)). rewrite (Hf j o' Ho'). unfold recorded. rewrite Hpq; [done|]. by eapply elem_of_level_at.
    + case_decide; [|by apply not_elem_of_nil in Ho']. apply list_elem_of_singleton in Ho' as ->. by rewrite lookup_insert_eq.
  - intros j o' Ho'. rewrite level_at_push in Ho' by done. apply elem_of_app in Ho' as [Ho'|Ho']; [by apply Hp|].
    case_decide as Hij; [|by apply not_elem_of_nil in Ho']. apply list_elem_of_singleton in Ho' as ->. by subst j.
  - intros j idx Hr' Hu' Hnot. rewrite lookup_insert_ne.
    + apply Hn; [done|done|]. intros o' Ho'. apply Hnot. rewrite level_at_push by done. set_solver.
    + intros Heq. apply Hinj in Heq as [<- Hidx]; [|done..]. apply (Hnot o); [|done]. rewrite level_at_push, decide_True by done. set_solver.
Qed.

(** *** Canonicalization *)

(** The blocks of the levels have the keys of their places, each its own. *)
Definition keyed (n : Z) ls : Prop := forall i,
  NoDup (ov_journal_index <$> level_at ls i) /\
  forall o, o ∈ level_at ls i -> ov_journal_key o = to_overlay_key (n + Z.of_nat i) (ov_journal_index o) /\
    0 <= ov_journal_index o < MAX_BLOCKS_PER_LEVEL /\ n + Z.of_nat i ∈u 64.

Lemma keyed_inj n ls i j o o' : keyed n ls -> o ∈ level_at ls i -> o' ∈ level_at ls j -> ov_journal_key o = ov_journal_key o' -> o = o'.
Proof.
  intros Hk Ho Ho' Heq. destruct (Hk i) as [Hnd Hi]. destruct (Hi o Ho) as (Hki & Hr & Hu). destruct (Hk j) as [_ Hj].
  destruct (Hj o' Ho') as (Hkj & Hr' & Hu'). rewrite Hki, Hkj in Heq.
  apply to_overlay_key_inj in Heq as [Hij Hidx]; [|unfold is_u, MAX_BLOCKS_PER_LEVEL in *; lia..].
  replace j with i in Ho' by lia. apply list_elem_of_lookup in Ho as [a Ha], Ho' as [b Hb].
  assert (a = b) as <-; [|congruence]. eapply NoDup_lookup; [exact Hnd|rewrite list_lookup_fmap, Ha; reflexivity|].
  by rewrite list_lookup_fmap, Hb, Hidx.
Qed.

Lemma keyed_records m n p ls : records m n p ls -> (forall i, NoDup (ov_journal_index <$> level_at ls i)) -> keyed n ls.
Proof. intros Hr Hnd i. split; [done|]. intros o Ho. by apply (rc_place _ _ _ _ Hr). Qed.

Lemma keyed_push n ls i o : keyed n ls -> (i <= length ls)%nat -> n + Z.of_nat i ∈u 64 ->
  0 <= ov_journal_index o < MAX_BLOCKS_PER_LEVEL -> ov_journal_index o ∉ ov_journal_index <$> level_at ls i ->
  ov_journal_key o = to_overlay_key (n + Z.of_nat i) (ov_journal_index o) -> keyed n (push_at i o ls).
Proof.
  intros Hk Hi Hu Hr Hfresh Hkey j. destruct (Hk j) as [Hnd Hj]. rewrite level_at_push by done. case_decide as Hij; [subst j|by rewrite app_nil_r]. split.
  - rewrite fmap_app. apply NoDup_app. split_and!; [done| |apply NoDup_singleton]. set_solver.
  - intros o' [Ho'| ->%list_elem_of_singleton]%elem_of_app; [by apply Hj|done].
Qed.

Lemma records_canonicalize m m' n p hs h ls ds : chained p (hs ++ [h]) ls -> NoDup (ov_hash <$> concat ls) -> keyed n ls ->
  ds ≡ₚ level_at ls (length hs) ++ descendants p (siblings h (level_at ls (length hs))) (drop (S (length hs)) ls) ->
  (forall k, k ∈ ov_journal_key <$> ds -> m' !! k = None) ->
  (forall a b, a ∈u 64 -> 0 <= b < MAX_BLOCKS_PER_LEVEL -> to_overlay_key a b ∉ ov_journal_key <$> ds -> m' !! to_overlay_key a b = m !! to_overlay_key a b) ->
  records m (n + Z.of_nat (length hs)) p (settled p hs ls) ->
  records m' (n + Z.of_nat (length hs) + 1) p (settled p (hs ++ [h]) ls).
Proof.
  intros Hc Hnd Hk Hds Hgone Hstay [Hf Hp Hn]. set (l := level_at ls (length hs)) in *. set (R := drop (S (length hs)) ls) in *.
  assert (settled p (hs ++ [h]) ls = keep p (siblings h l) R) as HK by (by apply settled_last). set (K := settled p (hs ++ [h]) ls) in *.
  assert (forall i, level_at R i = level_at ls (S (length hs + i))) as HR by (intros i; unfold level_at, R; by rewrite lookup_drop).
  assert (forall i o, o ∈ level_at K i -> o ∈ level_at (settled p hs ls) (S i)) as Hsub.
  { intros i o. unfold K. rewrite settled_snoc. destruct (settled p hs ls) as [|b rest]; simpl; [by intros ?%not_elem_of_nil|].
    destruct (level_at_keep p (siblings h b) rest i) as [D' Hk']. rewrite Hk'. by intros [_ ?]%elem_of_strangers. }
  assert (forall i o, o ∈ level_at K i -> o ∈ level_at ls (S (length hs + i))) as HKls.
  { intros i o. rewrite HK. destruct (level_at_keep p (siblings h l) R i) as [D' Hk']. rewrite Hk', <-HR. by intros [_ ?]%elem_of_strangers. }
  assert (l ++ concat R ≡ₚ ds ++ concat K) as Hall by (rewrite Hds, HK, <-app_assoc; f_equiv; apply keep_descendants).
  assert (NoDup (ov_hash <$> (ds ++ concat K))) as Hnd'.
  { rewrite <-Hall. rewrite <-(take_drop (length hs) ls), concat_app, fmap_app in Hnd. apply NoDup_app in Hnd as (_ & _ & Hnd).
    destruct (ls !! length hs) as [l'|] eqn:Hl.
    - rewrite (drop_S _ _ _ Hl) in Hnd. unfold l, level_at. by rewrite Hl.
    - unfold l, R, level_at. rewrite Hl. apply lookup_ge_None in Hl. by rewrite !drop_ge in * by lia. }
  rewrite fmap_app in Hnd'. apply NoDup_app in Hnd' as (_ & Hdis & _).
  assert (forall i o, o ∈ level_at K i -> ov_journal_key o ∉ ov_journal_key <$> ds) as Hkept.
  { intros i o Ho (o' & Heq & Ho')%list_elem_of_fmap. assert (exists j, o' ∈ level_at ls j) as [j Hj].
    { assert (o' ∈ l ++ concat R) as Ho'' by (rewrite Hall; set_solver). apply elem_of_app in Ho'' as [?|(j & Hj)%elem_of_concat_level]; [eauto|].
      rewrite HR in Hj. eauto. }
    assert (o = o') as <- by (by eapply keyed_inj; eauto). apply (Hdis (ov_hash o)); apply list_elem_of_fmap_2; [done|by eapply elem_of_level_at]. }
  assert (forall i, n + Z.of_nat (length hs) + 1 + Z.of_nat i = n + Z.of_nat (length hs) + Z.of_nat (S i)) as HS by lia.
  constructor.
  - intros i o Ho. destruct (Hp (S i) o (Hsub i o Ho)) as (Hkey & Hr & Hu). pose proof (Hkept i o Ho) as Hnot.
    rewrite Hkey in Hnot |- *. rewrite Hstay by done. rewrite <-Hkey. apply (Hf (S i)). by apply Hsub.
  - intros i o Ho. rewrite HS. by apply Hp, Hsub.
  - intros i idx Hr Hu Hnot. rewrite HS in *.
    destruct (decide (Exists (fun o => ov_journal_index o = idx) (level_at (settled p hs ls) (S i)))) as [(o & Ho & <-)%Exists_exists|Hno].
    + destruct (Hp (S i) o Ho) as (Hkey & _). rewrite <-Hkey. apply Hgone, list_elem_of_fmap_2.
      pose proof (level_at_settled p hs ls (S i) o Ho) as Hols. rewrite Nat.add_succ_r in Hols.
      assert (o ∈ ds ++ concat K) as Hin.
      { rewrite <-Hall. apply elem_of_app. right. apply (elem_of_level_at R i). by rewrite HR. }
      apply elem_of_app in Hin as [?|(j & Hj)%elem_of_concat_level]; [done|]. exfalso. apply (Hnot o); [|done].
      pose proof (same_level ls _ _ o Hnd Hols (HKls j o Hj)). by replace i with j by lia.
    + destruct (decide (to_overlay_key (n + Z.of_nat (length hs) + Z.of_nat (S i)) idx ∈ ov_journal_key <$> ds)); [by apply Hgone|].
      rewrite Hstay by done. apply Hn; [done|done|]. intros o Ho Heq. apply Hno, Exists_exists. eauto.
Qed.

(** *** Reading a level *)
Context {E : Type} `{!CodecLaws (OverlayRecord H Key) (fun _ => True)}.

Definition at_index (bs : list Overlay) (i : nat) : option Overlay :=
  head (filter (fun o => ov_journal_index o = Z.of_nat i) bs).

Definition in_order (bs : list Overlay) : list Overlay := omap (at_index bs) (seq 0 (Z.to_nat MAX_BLOCKS_PER_LEVEL)).

Lemma at_index_Some bs i o : at_index bs i = Some o -> o ∈ bs /\ ov_journal_index o = Z.of_nat i.
Proof.
  unfold at_index. intros Hh. assert (o ∈ filter (fun o => ov_journal_index o = Z.of_nat i) bs) as Ho.
  { destruct (filter _ bs); simplify_eq/=. by left. }
  by apply list_elem_of_filter in Ho as [? ?].
Qed.

Lemma at_index_None bs i : at_index bs i = None -> forall o, o ∈ bs -> ov_journal_index o <> Z.of_nat i.
Proof.
  unfold at_index. intros Hh o Ho Heq. assert (o ∈ filter (fun o => ov_journal_index o = Z.of_nat i) bs) as Hin by (by apply list_elem_of_filter).
  destruct (filter _ bs); [by apply not_elem_of_nil in Hin|done].
Qed.

Lemma index_inj (bs : list Overlay) o o' : NoDup (ov_journal_index <$> bs) -> o ∈ bs -> o' ∈ bs -> ov_journal_index o = ov_journal_index o' -> o = o'.
Proof.
  intros Hnd [a Ha]%list_elem_of_lookup [b Hb]%list_elem_of_lookup Heq.
  assert (a = b) as <-; [|congruence]. eapply NoDup_lookup; [exact Hnd|rewrite list_lookup_fmap, Ha; reflexivity|].
  by rewrite list_lookup_fmap, Hb, Heq.
Qed.

Lemma omap_at_index_nodup bs js : NoDup js -> NoDup (omap (at_index bs) js).
Proof.
  induction 1 as [|i js Hi Hjs IH]; [constructor|]. simpl. destruct (at_index bs i) as [o|] eqn:Ho; [|done]. constructor; [|done].
  intros (j & Hj & Hat)%list_elem_of_omap. apply at_index_Some in Ho as [_ Ho], Hat as [_ Hat]. rewrite Ho in Hat.
  by replace j with i in Hj by lia.
Qed.

Lemma in_order_perm bs : NoDup (ov_journal_index <$> bs) -> Forall (fun o => 0 <= ov_journal_index o < MAX_BLOCKS_PER_LEVEL) bs -> in_order bs ≡ₚ bs.
Proof.
  intros Hnd Hr. apply NoDup_Permutation; [apply omap_at_index_nodup, NoDup_seq|by eapply NoDup_fmap_1|]. intros o. unfold in_order. rewrite list_elem_of_omap. split.
  - intros (i & _ & [Ho _]%at_index_Some). done.
  - intros Ho. rewrite Forall_forall in Hr. pose proof (Hr o Ho) as Hi. exists (Z.to_nat (ov_journal_index o)). split; [apply elem_of_seq; lia|].
    destruct (at_index bs (Z.to_nat (ov_journal_index o))) as [o'|] eqn:Hat.
    + apply at_index_Some in Hat as [Ho' Hidx]. f_equal. apply (index_inj bs); [done..|]. lia.
    + exfalso. apply (at_index_None _ _ Hat o Ho). lia.
Qed.

(** What reading does not touch. *)
Record untouched (s s' : O) : Prop := {
  un_last : last_canonicalized s' = last_canonicalized s;
  un_levels : levels s' = levels s;
  un_canonicalizations : pending_canonicalizations s' = pending_canonicalizations s;
  un_insertions : pending_insertions s' = pending_insertions s;
  un_pinned : pinned s' = pinned s;
  un_pinned_insertions : pinned_insertions s' = pinned_insertions s }.

Lemma untouched_trans s s' s'' : untouched s s' -> untouched s' s'' -> untouched s s''.
Proof. intros [] []. constructor; congruence. Qed.

(** The blocks [os] are in the overlay, with parents by [p]; there is room. *)
Definition reading (p : H -> H) (os more : list Overlay) (s : O) : Prop :=
  holds content os s /\ known p os s /\ pinned_insertions s = ∅ /\ NoDup (ov_hash <$> (os ++ more)) /\
  Z.of_nat (length (inserted_by (os ++ more))) < 2 ^ 32 /\ Z.of_nat (length (os ++ more)) < 2 ^ 32.

Lemma reading_proper p os os' more more' s : os ≡ₚ os' -> more ≡ₚ more' -> reading p os more s -> reading p os' more' s.
Proof.
  intros Hp Hm (Hh & Hk & Hpi & Hnd & Hin & Hlen).
  split_and!; [by rewrite <-Hp|unfold known; by rewrite <-Hp|done|by rewrite <-Hp, <-Hm| |by rewrite <-Hp, <-Hm].
  rewrite (inserted_by_perm (os' ++ more') (os ++ more)); [done|by rewrite Hp, Hm].
Qed.

(** One block. *)
Lemma reading_insert p os more s o : reading p os (o :: more) s ->
  exists v, on_values (E := Error E) (insert_values (or_inserted (recorded p o))) s = (set_values v s, Ok tt) /\
    reading p (o :: os) more (set_parents (<[ov_hash o := p (ov_hash o)]> (parents s)) (set_values v s)).
Proof.
  intros (Hh & Hk & Hpi & Hnd & Hin & Hlen).
  assert (os ++ o :: more ≡ₚ (o :: os) ++ more) as Hperm by solve_Permutation. rewrite Hperm in Hnd, Hlen.
  rewrite (inserted_by_perm _ _ Hperm) in Hin. simpl in Hnd. apply NoDup_cons in Hnd as Hnd'. destruct Hnd' as [Hnot _]. rewrite fmap_app in Hnot.
  assert (or_inserted (recorded p o) = (fun k => (k, content k)) <$> ov_inserted o) as Hins by done.
  assert ((or_inserted (recorded p o)).*1 = ov_inserted o) as Hfst by (rewrite Hins, <-list_fmap_compose; apply list_fmap_id).
  destruct (holds_insert (E := Error E) content os s (ov_hash o) (p (ov_hash o)) (or_inserted (recorded p o)) (ov_journal_index o) (ov_journal_key o) (ov_deleted o))
    as (v & Hrun & Hh'); [done|set_solver|by rewrite Hpi, lookup_empty| | | |].
  - rewrite Hins. apply Forall_fmap, Forall_forall. done.
  - rewrite length_app in Hlen. simpl in Hlen. lia.
  - rewrite Hfst. unfold pinned_keys. rewrite Hpi, map_to_list_empty. simpl. rewrite app_nil_r.
    change (inserted_by ((o :: os) ++ more)) with (ov_inserted o ++ inserted_by (os ++ more)) in Hin.
    unfold inserted_by in *. rewrite fmap_app, concat_app in Hin. rewrite !length_app in *. lia.
  - exists v. split.
    + unfold on_values in *. simpl in Hrun. by destruct (insert_values _ (values s)) as [v' r] eqn:Hv; simplify_eq/=.
    + rewrite Hfst in Hh'. split_and!; [by destruct o| |done|done|done|done].
      apply Forall_cons. simpl. split; [by rewrite lookup_insert_eq|]. eapply Forall_impl; [exact Hk|].
      intros o' Ho'. simpl. destruct (decide (ov_hash o = ov_hash o')) as [Heq|Hne]; [by rewrite Heq, lookup_insert_eq|by rewrite lookup_insert_ne].
Qed.

Abbreviation get_from m := (fun k => Ok (m !! k) : res E (option bytes)).

(** The [for] loop reads the blocks with the indices [js]. *)
Lemma read_level_run m n p bs rest js l s os more : records m n p (bs :: rest) -> n ∈u 64 -> NoDup js ->
  Forall (fun j => (j < Z.to_nat MAX_BLOCKS_PER_LEVEL)%nat) js ->
  level_ok l -> (forall j, j ∈ js -> Z.of_nat j ∉ indices l) ->
  reading p (blocks l ++ os) (omap (at_index bs) js ++ more) s ->
  exists s' l', read_level (get_from m) n js l s = (s', Ok l') /\ blocks l' = blocks l ++ omap (at_index bs) js /\
    level_ok l' /\ reading p (blocks l' ++ os) more s' /\ untouched s s'.
Proof.
  intros [Hf Hp Hn] Hu. rewrite <-(Z.add_0_r n) in Hu. revert l s. induction js as [|j js IH]; intros l s Hnd Hj Hok Hfree Hread.
  { exists s, l. simpl. rewrite app_nil_r. split_and!; done. }
  apply NoDup_cons in Hnd as [Hnot Hnd]. apply Forall_cons in Hj as [Hj Hjs]. cbn [read_level]. erewrite bind_Ok by reflexivity.
  assert (omap (at_index bs) (j :: js) = match at_index bs j with Some o => o :: omap (at_index bs) js | None => omap (at_index bs) js end) as Hom by done.
  rewrite Hom in *. clear Hom. destruct (at_index bs j) as [o|] eqn:Hat.
  - apply at_index_Some in Hat as [Ho Hidx]. destruct (Hp 0%nat o Ho) as (Hkey & Hr & _). simpl in Hkey. rewrite Z.add_0_r, Hidx in Hkey.
    rewrite <-Hkey, (Hf 0%nat o Ho).
    destruct (reading_insert p (blocks l ++ os) (omap (at_index bs) js ++ more) s o Hread) as (v & Hrun & Hread').
    destruct (level_push_run (E := Error E) l o Hok Hr) as (l1 & Hpush & Hok1 & Hbl); [rewrite Hidx; apply Hfree; by left|].
    assert (mkOverlay (or_hash (recorded p o)) (Z.of_nat j) (ov_journal_key o) (or_inserted (recorded p o)).*1 (or_deleted (recorded p o)) = o) as Hov.
    { destruct o. simpl in *. subst. f_equal. rewrite <-list_fmap_compose. apply list_fmap_id. }
    destruct (IH l1 (set_parents (<[ov_hash o := p (ov_hash o)]> (parents s)) (set_values v s)) Hnd Hjs Hok1) as (s' & l' & Hrun' & Hbl' & Hok' & Hread'' & Hun).
    + intros i Hi. unfold indices. rewrite Hbl, fmap_app. apply not_elem_of_app. split; [apply Hfree; by right|]. simpl. rewrite Hidx.
      intros Heq%list_elem_of_singleton. by replace i with j in Hi by lia.
    + eapply reading_proper; [|reflexivity|exact Hread']. rewrite Hbl. solve_Permutation.
    + exists s', l'. split_and!; [|by rewrite Hbl', Hbl, <-app_assoc|done|done|by eapply untouched_trans; [|exact Hun]].
      erewrite bind_Ok; [exact Hrun'|]. rewrite decode_encode by done. erewrite bind_Ok by reflexivity.
      rewrite (bind_Ok _ _ _ _ _ Hrun), Hov, Hpush. by do 2 erewrite bind_Ok by reflexivity.
  - pose proof (Hn 0%nat (Z.of_nat j)) as Hnone. simpl in Hnone. rewrite Z.add_0_r in *. rewrite Hnone; [|lia|done|by apply at_index_None].
    erewrite bind_Ok by reflexivity. apply IH; try done. intros i Hi. apply Hfree. by right.
Qed.

(** One level. *)
Lemma read_one_run m n p bs rest s more : records m n p (bs :: rest) -> n ∈u 64 -> NoDup (ov_journal_index <$> bs) ->
  reading p (all_blocks s) (bs ++ more) s ->
  exists s' l', read_level (get_from m) n (seq 0 (Z.to_nat MAX_BLOCKS_PER_LEVEL)) level_new s = (s', Ok l') /\
    blocks l' = in_order bs /\ level_ok l' /\ reading p (in_order bs ++ all_blocks s) more s' /\ untouched s s'.
Proof.
  intros Hr Hu Hnd Hread. assert (in_order bs ≡ₚ bs) as Hperm.
  { apply in_order_perm; [done|]. apply Forall_forall. intros o Ho. by apply (rc_place _ _ _ _ Hr 0%nat). }
  assert (exists js, seq 0 (Z.to_nat MAX_BLOCKS_PER_LEVEL) = js /\ in_order bs = omap (at_index bs) js) as (js & Hjs & Hio) by (eexists; split; reflexivity).
  rewrite Hio in *. rewrite Hjs.
  destruct (read_level_run m n p bs rest js level_new s (all_blocks s) more)
    as (s' & l' & Hrun & Hbl & Hok & Hread' & Hun); [exact Hr|exact Hu|..].
  - rewrite <-Hjs. apply NoDup_seq.
  - rewrite <-Hjs. apply Forall_forall. intros j Hj%elem_of_seq. lia.
  - apply level_new_ok.
  - intros j _. apply not_elem_of_nil.
  - eapply reading_proper; [reflexivity| |exact Hread]. apply Permutation_app_tail. symmetry. exact Hperm.
  - change (blocks level_new) with (@nil Overlay) in Hbl. rewrite app_nil_l in Hbl.
    exists s', l'. rewrite Hbl in Hread'. split_and!; [exact Hrun|exact Hbl|exact Hok|exact Hread'|exact Hun].
Qed.

(** The [loop] reads all levels, up to the first without blocks. *)
Lemma read_levels_run fuel m n p ls s : records m n p ls -> Forall (fun bs => bs <> []) ls -> (length ls < fuel)%nat ->
  0 <= n -> n + Z.of_nat (length ls) < 2 ^ 64 -> (forall i, NoDup (ov_journal_index <$> level_at ls i)) ->
  Forall level_ok (levels s) -> reading p (all_blocks s) (concat ls) s ->
  exists s', read_levels fuel (get_from m) n s = (s', Ok tt) /\
    blocks <$> levels s' = (blocks <$> levels s) ++ (in_order <$> ls) /\ Forall level_ok (levels s') /\ reading p (all_blocks s') [] s' /\
    last_canonicalized s' = last_canonicalized s /\ pending_canonicalizations s' = pending_canonicalizations s /\
    pending_insertions s' = pending_insertions s /\ pinned s' = pinned s.
Proof.
  revert n ls s. induction fuel as [|fuel IH]; intros n ls s Hr Hne Hfuel Hn Hlen Hnd Hok Hread; [lia|]. cbn [read_levels].
  destruct ls as [|bs ls].
  - destruct (read_one_run m n p [] [] s []) as (s' & l' & Hrun & Hbl & _ & Hread' & Hun); [|unfold is_u; simpl in *; lia|constructor|done|].
    { eapply records_ext; [|reflexivity|exact Hr]. intros [|i] o; done. }
    rewrite (bind_Ok _ _ _ _ _ Hrun), Hbl. assert (in_order [] = []) as Hnil by done. rewrite Hnil in *. exists s'.
    destruct Hun as [? Hlv ? ? ? ?]. rewrite Hlv. simpl. rewrite app_nil_r. split_and!; try done. unfold all_blocks. by rewrite Hlv.
  - apply Forall_cons in Hne as [Hb Hne]. simpl in Hlen, Hfuel.
    destruct (read_one_run m n p bs ls s (concat ls)) as (s1 & l1 & Hrun & Hbl & Hok1 & Hread1 & Hun); [done|unfold is_u; lia|apply (Hnd 0%nat)|done|].
    rewrite (bind_Ok _ _ _ _ _ Hrun). destruct Hun as [Hu1 Hlv Hu2 Hu3 Hu4 Hu5].
    assert (in_order bs ≡ₚ bs) as Hperm.
    { apply in_order_perm; [apply (Hnd 0%nat)|]. apply Forall_forall. intros o Ho. by apply (rc_place _ _ _ _ Hr 0%nat). }
    rewrite Hbl. destruct (in_order bs) as [|o os] eqn:Hio; [by apply Permutation_nil_l in Hperm|]. rewrite <-Hio in *.
    erewrite bind_Ok by reflexivity. rewrite uadd_ok by (unfold is_u; lia). erewrite bind_Ok by reflexivity.
    destruct (IH (n + 1) ls (set_levels (levels s1 ++ [l1]) s1)) as (s' & Hrun' & Hbl' & Hok' & Hread' & Hl' & Hc' & Hi' & Hp'); try done; [|lia..| | | |].
    + by eapply records_tail.
    + intros i. apply (Hnd (S i)).
    + simpl. rewrite Hlv. apply Forall_app. split; [done|by constructor].
    + assert (all_blocks (set_levels (levels s1 ++ [l1]) s1) ≡ₚ in_order bs ++ all_blocks s) as Hall.
      { unfold all_blocks. simpl. rewrite Hlv, fmap_app, concat_app. simpl. rewrite Hbl, app_nil_r. apply Permutation_app_comm. }
      eapply reading_proper; [symmetry; exact Hall|reflexivity|]. destruct Hread1 as (Hh & ?). split; [by apply holds_levels|done].
    + exists s'. split_and!; try done; [|simpl in *; congruence..]. rewrite Hbl'. simpl. rewrite Hlv, fmap_app, <-app_assoc. simpl. by rewrite Hbl.
Qed.

(** There are no more levels than records. *)
Lemma records_size m n p ls : records m n p ls -> Forall (fun bs => bs <> []) ls -> (length ls <= size m)%nat.
Proof.
  intros Hr Hne. set (key := fun bs : list Overlay => match bs with o :: _ => ov_journal_key o | [] => [] end).
  assert (forall i k, (key <$> ls) !! i = Some k -> exists o, o ∈ level_at ls i /\ k = ov_journal_key o) as Hkey.
  { intros i k. rewrite list_lookup_fmap. destruct (ls !! i) as [bs|] eqn:Hi; [|done]. intros [= <-].
    pose proof (Forall_lookup_1 _ _ _ _ Hne Hi) as Hb. destruct bs as [|o bs]; [done|]. exists o. unfold level_at. rewrite Hi. split; [by left|done]. }
  assert (NoDup (key <$> ls)) as Hnd.
  { apply NoDup_alt. intros i j k (o & Ho & ->)%Hkey (o' & Ho' & Heq)%Hkey.
    destruct (rc_place _ _ _ _ Hr i o Ho) as (Hk & Hidx & Hu), (rc_place _ _ _ _ Hr j o' Ho') as (Hk' & Hidx' & Hu'). rewrite Hk, Hk' in Heq.
    apply to_overlay_key_inj in Heq as [? _]; unfold is_u, MAX_BLOCKS_PER_LEVEL in *; lia. }
  rewrite <-(length_fmap key), <-(size_list_to_set (C := gset bytes) _ Hnd), <-size_dom. apply subseteq_size. intros k.
  rewrite elem_of_list_to_set, elem_of_dom. intros (i & (o & Ho & ->)%Hkey)%list_elem_of_lookup. eexists. by apply (rc_found _ _ _ _ Hr i).
Qed.

Lemma in_order_levels ls n p m : records m n p ls -> (forall i, NoDup (ov_journal_index <$> level_at ls i)) -> Forall2 (≡ₚ) ls (in_order <$> ls).
Proof.
  intros Hr Hnd. apply Forall2_same_length_lookup. split; [by rewrite length_fmap|]. intros i bs bs' Hb Hb'.
  rewrite list_lookup_fmap, Hb in Hb'. simplify_eq/=. symmetry. specialize (Hnd i). unfold level_at in Hnd. rewrite Hb in Hnd.
  apply in_order_perm; [done|]. apply Forall_forall. intros o Ho. apply (rc_place _ _ _ _ Hr i). unfold level_at. by rewrite Hb.
Qed.

(** *** [NonCanonicalOverlay::new] *)
Context `{!CodecLaws (H * Z) (fun e => e.2 ∈u 64)}.

(** What is on disk makes an overlay. *)
Record recoverable (last : option (H * Z)) ls : Prop := {
  rv_last : is_Some last \/ concat ls = [];
  rv_dense : Forall (fun bs => bs <> []) (trim ls);
  rv_first : 0 <= first_number last;
  rv_numbers : first_number last + Z.of_nat (length ls) < 2 ^ 64 - 1;
  rv_hashes : NoDup (ov_hash <$> concat ls);
  rv_indices i : NoDup (ov_journal_index <$> level_at ls i);
  rv_keys : Z.of_nat (length (inserted_by (concat ls))) < 2 ^ 32;
  rv_blocks : Z.of_nat (length (concat ls)) < 2 ^ 32 }.

Lemma overlay_new_run m last p ls : journaled m last p ls -> recoverable last ls -> (forall h n, last = Some (h, n) -> 0 <= n) ->
  exists s, NonCanonicalOverlay_new (S (size m)) (get_from m) = Ok s /\ overlay_inv content s /\ last_canonicalized s = last /\
    Forall2 (≡ₚ) (trim ls) (blocks <$> levels s) /\ known p (all_blocks s) s /\
    pending_canonicalizations s = [] /\ pending_insertions s = [] /\ pinned s = ∅ /\ pinned_insertions s = ∅.
Proof.
  intros [Hl Hr] [Hlast Hdense Hfirst Hnum Hnd Hidx Hkeys Hblocks] Hn0. remember (S (size m)) as fuel eqn:Hfuel. unfold NonCanonicalOverlay_new. rewrite Hl.
  destruct last as [[h n]|]; simpl in *.
  - specialize (Hn0 h n eq_refl). rewrite decode_encode by (unfold is_u; simpl; lia). simpl. rewrite uadd_ok by (unfold is_u; lia). simpl.
    pose proof (trim_length ls) as Hlen. assert (records m (n + 1) p (trim ls)) as Hr'.
    { eapply records_ext; [|reflexivity|exact Hr]. intros i o. by rewrite level_at_trim. }
    set (s0 := mkOverlays (Some (h, n)) [] ∅ [] [] ∅ ∅ ∅).
    assert (reading p (all_blocks s0) (concat (trim ls)) s0) as Hread.
    { rewrite concat_trim. split_and!; [|by constructor|done|done|done|done].
      assert (overlay_inv content s0) as Hinv by (apply overlay_inv_new; lia). apply Hinv. }
    destruct (read_levels_run fuel m (n + 1) p (trim ls) s0 Hr' Hdense) as (s & Hrun & Hbl & Hok & (Hh & Hk & Hpi & _) & Hls & Hc & Hi & Hp).
    + pose proof (records_size _ _ _ _ Hr' Hdense). lia.
    + lia.
    + lia.
    + intros i. by rewrite level_at_trim.
    + constructor.
    + done.
    + fold s0. rewrite Hrun. simpl in Hbl. exists s. split_and!; try done; [|by rewrite Hbl; eapply in_order_levels; [exact Hr'|intros i; by rewrite level_at_trim]].
      constructor; [done|done|by rewrite Hc|]. unfold numbered. rewrite Hls. simpl. apply (f_equal length) in Hbl. rewrite !length_fmap in Hbl. lia.
  - eexists. split; [reflexivity|]. destruct Hlast as [[? ?]|Hnil]; [done|]. split_and!; try done; [by apply overlay_inv_new| |by constructor].
    destruct (trim ls) as [|bs t] eqn:Ht; [constructor|]. exfalso. rewrite <-concat_trim, Ht in Hnil. apply Forall_cons in Hdense as [Hb _].
    simpl in Hnil. by apply app_nil in Hnil as [? _].
Qed.
End journal.
