(* ===== verification/StateDbSync.v ===== *)
(** * The state database

    Model of [StateDbSync] of [client/state-db/src/lib.rs]: the overlay of
    [NonCanonical] and the window of [StateDb] put together under a pruning
    mode, with pinned blocks, and the theorem that pruning stops where the mode
    and the pins say.

    The lossy conversion to UTF-8 in an error message is left out. *)

From Stdlib Require Import ZArith Lia.
From stdpp Require Import gmap fin_maps option list.
From S2P Require Import Prelude StateDb NonCanonical.

Local Open Scope Z_scope.
Local Open Scope rust_scope.

(** [b"mode"], [b"archive"], [b"archive_canonical"] and [b"constrained"]. *)
Definition PRUNING_MODE : bytes := [109; 111; 100; 101].
Definition PRUNING_MODE_ARCHIVE : bytes := [97; 114; 99; 104; 105; 118; 101].
Definition PRUNING_MODE_ARCHIVE_CANON : bytes :=
  [97; 114; 99; 104; 105; 118; 101; 95; 99; 97; 110; 111; 110; 105; 99; 97; 108].
Definition PRUNING_MODE_CONSTRAINED : bytes := [99; 111; 110; 115; 116; 114; 97; 105; 110; 101; 100].

Record Constraints : Type := mkConstraints {
  max_blocks : option Z;
  max_mem : option Z }.

Inductive PruningMode : Type :=
| Constrained (constraints : Constraints)
| ArchiveAll
| ArchiveCanonical.

#[export] Instance Constraints_eq_dec : EqDecision Constraints.
Proof. solve_decision. Defined.
#[export] Instance PruningMode_eq_dec : EqDecision PruningMode.
Proof. solve_decision. Defined.

Definition keep_blocks (n : Z) : PruningMode := Constrained (mkConstraints (Some n) None).

Definition is_archive (self : PruningMode) : bool :=
  match self with ArchiveAll | ArchiveCanonical => true | Constrained _ => false end.

Definition mode_id (self : PruningMode) : bytes :=
  match self with
  | ArchiveAll => PRUNING_MODE_ARCHIVE
  | ArchiveCanonical => PRUNING_MODE_ARCHIVE_CANON
  | Constrained _ => PRUNING_MODE_CONSTRAINED
  end.

#[export] Instance PruningMode_default : Default PruningMode := keep_blocks 256.

Inductive PinError : Type := PinInvalidBlock.

Record StateDbSync (H Key : Type) `{Countable H} `{Countable Key} : Type := mkStateDb {
  mode : PruningMode;
  non_canonical : NonCanonicalOverlay H Key;
  pruning : option (RefWindow H Key);
  sync_pinned : gmap H Z }.

Arguments mkStateDb {H Key _ _ _ _} mode non_canonical pruning sync_pinned.
Arguments mode {H Key _ _ _ _} _.
Arguments non_canonical {H Key _ _ _ _} _.
Arguments pruning {H Key _ _ _ _} _.
Arguments sync_pinned {H Key _ _ _ _} _.

Section sync.
Context {OC : OverflowChecks} {H Key DbError : Type} `{Countable H} `{Countable Key}.
Context `{Codec unit} `{Codec Z} `{Codec (H * Z)} `{Codec (Z * Z)}.
Context `{Codec (JournalRecord H Key)} `{Codec (OverlayRecord H Key)}.
Abbreviation Db := (StateDbSync H Key).
Abbreviation W := (RefWindow H Key).
Abbreviation O := (NonCanonicalOverlay H Key).
Abbreviation Commit := (CommitSet Key).

(** Computations on the overlay and on the window, if there is one. *)
Definition on_overlay {E A} (m : M O E A) : M Db E A := fun s =>
  let '(o, r) := m (non_canonical s) in (mkStateDb (mode s) o (pruning s) (sync_pinned s), r).

Definition on_window {E A} (none : A) (m : M W E A) : M Db E A := fun s =>
  match pruning s with
  | Some w => let '(w, r) := m w in (mkStateDb (mode s) (non_canonical s) (Some w) (sync_pinned s), r)
  | None => (s, Ok none)
  end.

Definition set_sync_pinned (x : gmap H Z) (s : Db) : Db := mkStateDb (mode s) (non_canonical s) (pruning s) x.

Definition check_meta (mode : PruningMode) (get_meta : bytes -> res DbError (option bytes)) : res (Error DbError) unit :=
  db_mode ← map_err DbErr (get_meta (to_meta_key PRUNING_MODE tt));
  match db_mode with
  | Some v => if bool_decide (v = mode_id mode) then Ok tt else Err (InvalidPruningMode v)
  | None => Ok tt
  end.

(** The fuel is for the two journals. *)
Definition StateDbSync_new (fuel : nat) (mode : PruningMode) (ref_counting : bool) (get_meta : bytes -> res DbError (option bytes)) :
    res (Error DbError) Db :=
  _ ← check_meta mode get_meta;
  non_canonical ← NonCanonicalOverlay_new fuel get_meta;
  pruning ← (match mode with
             | Constrained (mkConstraints _ (Some _)) => Panic
             | Constrained _ => w ← RefWindow_new fuel get_meta ref_counting; Ok (Some w)
             | ArchiveAll | ArchiveCanonical => Ok None
             end);
  Ok (mkStateDb mode non_canonical pruning ∅).

Definition insert_block {E} (hash : H) (number : Z) (parent_hash : H) (changeset : ChangeSet Key) : M Db (Error E) Commit :=
  self ← get;
  let meta := if number =? 0 then [(to_meta_key PRUNING_MODE tt, mode_id (mode self))] else [] in
  match mode self with
  | ArchiveAll => mret (mkCommitSet (mkChangeSet (inserted changeset) []) (mkChangeSet meta []))
  | Constrained _ | ArchiveCanonical =>
    c ← on_overlay (insert hash number parent_hash changeset);
    mret (mkCommitSet (commit_data c) (mkChangeSet (inserted (commit_meta c) ++ meta) (deleted (commit_meta c))))
  end.

(** The [loop] of [prune]; each round prunes a block. *)
Fixpoint prune_loop {E} (fuel : nat) (constraints : Constraints) (pinned : gmap H Z) (commit : Commit) : M W E Commit :=
  self ← get;
  size ← lift (window_size self);
  if size <=? default 0 (max_blocks constraints) then mret commit
  else if match max_mem constraints with Some m => m <? mem_used self | None => false end then mret commit
  else if match next_hash self with Some h => bool_decide (is_Some (pinned !! h)) | None => false end then mret commit
  else match fuel with
  | Datatypes.O => lift Panic
  | S fuel => commit ← prune_one commit; prune_loop fuel constraints pinned commit
  end.

Definition prune {E} (commit : Commit) : M Db E Commit :=
  self ← get;
  match pruning self, mode self with
  | Some w, Constrained constraints =>
    on_window commit (prune_loop (length (death_rows w)) constraints (sync_pinned self) commit)
  | _, _ => mret commit
  end.

Definition canonicalize_block {E} (hash : H) : M Db (Error E) Commit :=
  self ← get;
  if bool_decide (mode self = ArchiveAll) then mret dflt
  else
    commit ← on_overlay (canonicalize hash dflt);
    let commit := if bool_decide (mode self = ArchiveCanonical) then take_deleted commit else commit in
    commit ← on_window commit (note_canonical hash commit);
    prune commit.

Definition best_canonical {E} (self : Db) : res E (option Z) := last_canonicalized_block_number (non_canonical self).

Definition is_pruned {E} (self : Db) (hash : H) (number : Z) : res E bool :=
  match mode self with
  | ArchiveAll => Ok false
  | ArchiveCanonical | Constrained _ =>
    best ← best_canonical self;
    if match best with Some c => c <? number | None => true end
    then Ok (negb (overlay_have_block (non_canonical self) hash))
    else match pruning self with
         | Some w => first ← pending w; Ok ((number <? first) || negb (have_block w hash))
         | None => Ok false
         end
  end.

Definition sync_revert_one {E} : M Db E (option Commit) :=
  self ← get;
  match mode self with
  | ArchiveAll => mret (Some dflt)
  | ArchiveCanonical | Constrained _ => on_overlay revert_one
  end.

Definition sync_remove {E} (hash : H) : M Db E (option Commit) :=
  self ← get;
  match mode self with
  | ArchiveAll => mret (Some dflt)
  | ArchiveCanonical | Constrained _ => on_overlay (remove hash)
  end.

Definition pin (hash : H) : M Db PinError unit :=
  self ← get;
  match mode self with
  | ArchiveAll => mret tt
  | ArchiveCanonical | Constrained _ =>
    if overlay_have_block (non_canonical self) hash || match pruning self with Some w => have_block w hash | None => false end
    then
      let refs := default 0 (sync_pinned self !! hash) in
      _ ← (if refs =? 0 then on_overlay (overlay_pin hash) else mret tt);
      refs ← lift (uadd 32 refs 1);
      modify (fun s => set_sync_pinned (<[hash := refs]> (sync_pinned s)) s)
    else lift (Err PinInvalidBlock)
  end.

Definition unpin {E} (hash : H) : M Db E unit :=
  self ← get;
  match sync_pinned self !! hash with
  | Some refs =>
    refs ← lift (usub 32 refs 1);
    if refs =? 0 then
      _ ← modify (fun s => set_sync_pinned (delete hash (sync_pinned s)) s);
      on_overlay (overlay_unpin hash)
    else modify (fun s => set_sync_pinned (<[hash := refs]> (sync_pinned s)) s)
  | None => mret tt
  end.

Definition sync_get {E} (self : Db) (get : Key -> res E (option bytes)) (key : Key) : res (Error E) (option bytes) :=
  match overlay_get (non_canonical self) key with
  | Some value => Ok (Some value)
  | None => map_err DbErr (get key)
  end.

Definition sync_apply_pending {E} : M Db E unit :=
  _ ← on_overlay overlay_apply_pending;
  on_window tt apply_pending.

Definition sync_revert_pending {E} : M Db E unit :=
  _ ← on_window tt revert_pending;
  on_overlay overlay_revert_pending.
End sync.

(** ** Pruning *)
Section pruning.
Context {OC : OverflowChecks} {H Key E : Type} `{Countable H} `{Countable Key}.
Context `{Codec unit} `{Codec Z} `{Codec (H * Z)} `{Codec (Z * Z)}.
Context `{Codec (JournalRecord H Key)} `{Codec (OverlayRecord H Key)}.
Abbreviation W := (RefWindow H Key).
Implicit Types w : W.

(** The commit after a row with its number. *)
Definition prune_row (c : CommitSet Key) (p : Z * DeathRow H Key) : CommitSet Key :=
  delete_meta [row_journal_key p.2] (push_meta (to_meta_key LAST_PRUNED tt) (encode p.1) (delete_data (elements (row_deleted p.2)) c)).

Definition prune_rows (first : Z) (rows : list (DeathRow H Key)) (c : CommitSet Key) : CommitSet Key :=
  foldl prune_row c (imap (fun i r => (first + Z.of_nat i, r)) rows).

Lemma prune_rows_cons first r rows c : prune_rows first (r :: rows) c = prune_rows (first + 1) rows (prune_row c (first, r)).
Proof.
  unfold prune_rows. simpl. rewrite Z.add_0_r. f_equal. apply imap_ext. intros i x _. simpl. f_equal. lia.
Qed.

(** [n] more rows are pruned. *)
Definition pruned_more (n : nat) w : W := with_pending (pending_number w) (StateDb.pending_canonicalizations w) (pending_prunings w + n) w.

(** The first [n] of the rows that are left are pruned and no more: none of them
    is pinned and the window was too long before each; and it is short enough
    now, or the next one is pinned. *)
Record prunes (max : Z) (pinned : gmap H Z) w (n : nat) : Prop := {
  prunes_le : (pending_prunings w + n <= length (death_rows w))%nat;
  prunes_free i r : (pending_prunings w <= i < pending_prunings w + n)%nat -> death_rows w !! i = Some r ->
    pinned !! row_hash r = None /\ max < Z.of_nat (length (death_rows w)) - Z.of_nat i;
  prunes_stop : Z.of_nat (length (death_rows w)) - Z.of_nat (pending_prunings w + n) <= max \/
    exists r, death_rows w !! (pending_prunings w + n)%nat = Some r /\ is_Some (pinned !! row_hash r) }.

Definition window_ok w : Prop :=
  (pending_prunings w <= length (death_rows w))%nat /\ 0 <= pending_number w /\
  pending_number w + Z.of_nat (length (death_rows w)) < 2 ^ 64.

Lemma prune_loop_run fuel constraints pinned c w : window_ok w -> 0 <= default 0 (max_blocks constraints) ->
  0 <= default 0 (max_mem constraints) -> (length (death_rows w) - pending_prunings w <= fuel)%nat ->
  exists n, prunes (default 0 (max_blocks constraints)) pinned w n /\
    prune_loop (E := E) fuel constraints pinned c w =
      (pruned_more n w, Ok (prune_rows (pending_number w + Z.of_nat (pending_prunings w))
                                        (take n (drop (pending_prunings w) (death_rows w))) c)).
Proof.
  intros Hok Hmax Hmem. revert c w Hok. induction fuel as [|fuel IH]; intros c w (Hle & Hn & Hlen) Hfuel.
  all: assert (pruned_more 0 w = w) as Hid by (unfold pruned_more, with_pending; rewrite Nat.add_0_r; by destruct w).
  all: cbn [prune_loop]; erewrite bind_Ok by reflexivity.
  all: unfold window_size; rewrite usub_ok by (unfold is_u; lia); erewrite bind_Ok by reflexivity.
  all: destruct (Z.leb_spec (Z.of_nat (length (death_rows w)) - Z.of_nat (pending_prunings w)) (default 0 (max_blocks constraints))) as [Hshort|Hlong].
  1, 3: exists 0%nat; (split; [constructor; [lia|lia|left; lia]|by rewrite Hid]).
  { lia. }
  assert (match max_mem constraints with Some m => m <? mem_used w | None => false end = false) as ->.
  { unfold mem_used. destruct (max_mem constraints); simpl in *; [lia|done]. }
  destruct (lookup_lt_is_Some_2 (death_rows w) (pending_prunings w)) as [r Hr]; [lia|].
  unfold next_hash. rewrite Hr. simpl. case_bool_decide as Hpin.
  { exists 0%nat. split; [|by rewrite Hid]. constructor; [lia|lia|]. right. exists r. by rewrite Nat.add_0_r. }
  unfold prune_one. erewrite bind_Ok; [|erewrite bind_Ok by reflexivity; rewrite Hr, uadd_ok by (unfold is_u; lia);
    erewrite bind_Ok by reflexivity; reflexivity].
  destruct (IH (prune_row c (pending_number w + Z.of_nat (pending_prunings w), r)) (pruned_more 1 w)) as (n & Hp & Hrun);
    [unfold window_ok; simpl; lia|simpl; lia|]. exists (S n). destruct Hp as [Hp1 Hp2 Hp3]. simpl in Hp1, Hp2, Hp3.
  split.
  - constructor; simpl; [lia| |by replace (pending_prunings w + S n)%nat with (pending_prunings w + 1 + n)%nat by lia].
    intros i r' Hi Hr'. destruct (decide (i = pending_prunings w)) as [->|Hne]; [|apply Hp2; [lia|done]].
    simplify_eq. split; [by apply eq_None_not_Some|lia].
  - unfold pruned_more in *. simpl in Hrun. rewrite Nat.add_1_r in Hrun. etrans; [exact Hrun|].
    rewrite (drop_S _ _ _ Hr). cbn [take]. rewrite prune_rows_cons. unfold with_pending. simpl.
    replace (S (pending_prunings w + n)) with (pending_prunings w + S n)%nat by lia.
    by replace (pending_number w + Z.of_nat (S (pending_prunings w))) with (pending_number w + Z.of_nat (pending_prunings w) + 1) by lia.
Qed.

Lemma prune_run (constraints : Constraints) w (s : StateDbSync H Key) c :
  mode s = Constrained constraints -> pruning s = Some w -> window_ok w ->
  0 <= default 0 (max_blocks constraints) -> 0 <= default 0 (max_mem constraints) ->
  exists n, prunes (default 0 (max_blocks constraints)) (sync_pinned s) w n /\
    prune (E := E) c s =
      (mkStateDb (mode s) (non_canonical s) (Some (pruned_more n w)) (sync_pinned s),
       Ok (prune_rows (pending_number w + Z.of_nat (pending_prunings w)) (take n (drop (pending_prunings w) (death_rows w))) c)).
Proof.
  intros Hm Hw Hok Hmax Hmem. unfold prune. erewrite bind_Ok by reflexivity. rewrite Hw, Hm. unfold on_window. rewrite Hw.
  destruct (prune_loop_run (length (death_rows w)) constraints (sync_pinned s) c w Hok Hmax Hmem) as (n & Hp & Hrun); [lia|].
  exists n. split; [done|]. rewrite Hrun. simpl. by rewrite ?Hm.
Qed.

(** C17. [prune] returns, and prunes from the oldest block on what the mode asks
    for: no pinned block is pruned and none while the window is within
    [max_blocks]; at the end it is, or the oldest block left is pinned.  The
    commit deletes the nodes and the journal records of exactly these blocks, and
    nothing else of the database changes. *)
Theorem prune_stops (constraints : Constraints) w (s : StateDbSync H Key) c :
  mode s = Constrained constraints -> pruning s = Some w -> window_ok w ->
  0 <= default 0 (max_blocks constraints) -> 0 <= default 0 (max_mem constraints) ->
  exists n, prunes (default 0 (max_blocks constraints)) (sync_pinned s) w n /\
    prune (E := E) c s =
      (mkStateDb (mode s) (non_canonical s) (Some (pruned_more n w)) (sync_pinned s),
       Ok (prune_rows (pending_number w + Z.of_nat (pending_prunings w)) (take n (drop (pending_prunings w) (death_rows w))) c)).
Proof. apply prune_run. Qed.
End pruning.

(** ** An example: three blocks, a window of one, and a pin on the second *)
Module PruneDemo.
#[local] Instance checks : OverflowChecks := true.
#[local] Instance unit_codec : Codec unit := {| encode _ := []; decode _ := Some tt |}.
#[local] Instance u64_codec : Codec Z := {| encode z := [z]; decode bs := head bs |}.

Definition rows : list (DeathRow Z Z) := [mkRow 10 [0] {[1]}; mkRow 11 [1] {[2; 3]}; mkRow 12 [2] ∅].

Definition window : RefWindow Z Z := mkWindow rows {[1 := 0; 2 := 1; 3 := 1]} 0 0 0 true.

Definition pinned_db : StateDbSync Z Z :=
  mkStateDb (keep_blocks 1) (mkOverlays None [] ∅ [] [] ∅ ∅ ∅) (Some window) {[11 := 1]}.

Lemma prune_stops_witness :
  exists n, prunes 1 {[11 := 1]} window n /\
    (prune (E := Error Empty_set) dflt pinned_db).2 = Ok (prune_rows 0 (take n rows) dflt).
Proof.
  destruct (prune_stops (E := Error Empty_set) (mkConstraints (Some 1) None) window pinned_db dflt) as (n & Hp & Hrun);
    [done|done|unfold window_ok; simpl; lia|simpl; lia|simpl; lia|].
  exists n. split; [exact Hp|]. rewrite Hrun. done.
Defined.
End PruneDemo.
