(* ===== verification/SyncSpec.v ===== *)
(** * The state database over a database with transactions

    The overlay, the pruning window and the database together: what holds of
    them between two operations, that the state of every block of the overlay
    and of the window is then found, node by node, and that insertions,
    canonicalizations, the end of a transaction and pins keep it so. *)

From Stdlib Require Import ZArith Lia.
From stdpp Require Import gmap fin_maps fin_sets option list.
From S2P Require Import Prelude StateDb PruningSpec NonCanonical NonCanonicalSpec NonCanonicalInv OverlayJournal StateDbSync.

Local Open Scope Z_scope.
Local Open Scope rust_scope.

(** ** Commits one after the other *)
Section commits.
Context {K : Type} `{Countable K}.
Implicit Types m : gmap K bytes.

Definition put (ins : list (K * bytes)) m : gmap K bytes := foldl (fun m p => <[p.1 := p.2]> m) m ins.
Definition drops (del : list K) m : gmap K bytes := foldl (fun m k => delete k m) m del.

Lemma put_drop k ins m : k ∉ ins.*1 -> put ins (delete k m) = delete k (put ins m).
Proof.
  revert m. induction ins as [|[k' v] ins IH]; intros m Hk; simpl; [done|]. rewrite <-delete_insert_ne, IH; [done|set_solver..].
Qed.

Lemma put_drops ins del m : (forall k, k ∈ del -> k ∉ ins.*1) -> put ins (drops del m) = drops del (put ins m).
Proof.
  revert m. induction del as [|k del IH]; intros m Hd; simpl; [done|].
  rewrite IH by set_solver. rewrite put_drop by set_solver. done.
Qed.

Lemma apply_changes_eq ins del m : apply_changes (mkChangeSet ins del) m = drops del (put ins m).
Proof. done. Qed.

Lemma put_app ins ins' m : put (ins ++ ins') m = put ins' (put ins m).
Proof. apply foldl_app. Qed.

Lemma drops_app del del' m : drops (del ++ del') m = drops del' (drops del m).
Proof. apply foldl_app. Qed.

(** What the second change inserts the first does not delete: they are one. *)
Lemma apply_changes_app ins1 del1 ins2 del2 m : (forall k, k ∈ del1 -> k ∉ ins2.*1) ->
  apply_changes (mkChangeSet (ins1 ++ ins2) (del1 ++ del2)) m =
  apply_changes (mkChangeSet ins2 del2) (apply_changes (mkChangeSet ins1 del1) m).
Proof.
  intros Hd. rewrite !apply_changes_eq, put_app, drops_app. by rewrite put_drops.
Qed.

Lemma drops_lookup del m k : drops del m !! k = if decide (k ∈ del) then None else m !! k.
Proof.
  revert m. induction del as [|k' del IH]; intros m; [by rewrite decide_False by apply not_elem_of_nil|].
  change (drops (k' :: del) m) with (drops del (delete k' m)). rewrite IH.
  destruct (decide (k = k')) as [->|Hne]; [rewrite lookup_delete_eq|rewrite lookup_delete_ne by done]; repeat case_decide; set_solver.
Qed.

Lemma apply_changes_ne c m k : k ∉ (inserted c).*1 -> k ∉ deleted c -> apply_changes c m !! k = m !! k.
Proof.
  destruct c as [ins del]. rewrite apply_changes_eq. simpl. intros Hi Hd. rewrite drops_lookup, decide_False by done.
  revert m. induction ins as [|[k' v] ins IH]; intros m; simpl; [done|]. rewrite IH by set_solver. apply lookup_insert_ne. set_solver.
Qed.
End commits.

(** ** A node: the state database over a database with transactions *)
Record Node (H Key : Type) `{Countable H} `{Countable Key} : Type := mkNode {
  n_sync : StateDbSync H Key;
  n_disk : Db Key;
  n_tx : Db Key }.

Arguments mkNode {H Key _ _ _ _} n_sync n_disk n_tx.
Arguments n_sync {H Key _ _ _ _} _.
Arguments n_disk {H Key _ _ _ _} _.
Arguments n_tx {H Key _ _ _ _} _.

Inductive NodeOp (H Key : Type) : Type :=
| InsertBlock (hash : H) (number : Z) (parent_hash : H) (changes : ChangeSet Key)
| CanonicalizeBlock (hash : H)
| CommitTx
| AbortTx
| PinBlock (hash : H)
| UnpinBlock (hash : H)
| RestartNode.

Arguments InsertBlock {H Key} hash number parent_hash changes.
Arguments CanonicalizeBlock {H Key} hash.
Arguments CommitTx {H Key}.
Arguments AbortTx {H Key}.
Arguments PinBlock {H Key} hash.
Arguments UnpinBlock {H Key} hash.
Arguments RestartNode {H Key}.

Section node.
Context {OC : OverflowChecks} {H Key : Type} `{Countable H} `{Countable Key}.
Context `{Codec unit} `{Codec Z} `{Codec (H * Z)} `{Codec (Z * Z)}.
Context `{Codec (JournalRecord H Key)} `{Codec (OverlayRecord H Key)}.
Abbreviation Sync := (StateDbSync H Key).
Abbreviation NodeE := (Error Empty_set).
Abbreviation Overlay := (BlockOverlay H Key).

(** An operation that returns a commit adds it to the transaction; an error is
    returned to the caller, and the node goes on. *)
Definition node_transact (m : M Sync NodeE (CommitSet Key)) (n : Node H Key) : res NodeE (Node H Key) :=
  match m (n_sync n) with
  | (s, Ok c) => Ok (mkNode s (n_disk n) (apply_state_commit (n_tx n) c))
  | (s, Err _) => Ok (mkNode s (n_disk n) (n_tx n))
  | (_, Panic) => Panic
  end.

(** [commit_operation]: the database has written the transaction, or given it
    up. *)
Definition node_settle (m : M Sync NodeE unit) (db : Db Key) (n : Node H Key) : res NodeE (Node H Key) :=
  match m (n_sync n) with
  | (s, Ok _) => Ok (mkNode s db db)
  | (_, Err e) => Err e
  | (_, Panic) => Panic
  end.

Definition node_run {E} (m : M Sync E unit) (n : Node H Key) : res NodeE (Node H Key) :=
  match m (n_sync n) with
  | (s, Ok _) | (s, Err _) => Ok (mkNode s (n_disk n) (n_tx n))
  | (_, Panic) => Panic
  end.

Definition node_exec (op : NodeOp H Key) : Node H Key -> res NodeE (Node H Key) := fun n =>
  match op with
  | InsertBlock hash number parent_hash changes => node_transact (insert_block hash number parent_hash changes) n
  | CanonicalizeBlock hash => node_transact (canonicalize_block hash) n
  | CommitTx => node_settle sync_apply_pending (n_tx n) n
  | AbortTx => node_settle sync_revert_pending (n_disk n) n
  | PinBlock hash => node_run (pin hash) n
  | UnpinBlock hash => node_run (unpin (E := NodeE) hash) n
  | RestartNode =>
    s ← StateDbSync_new (S (size (db_meta (n_disk n)))) (mode (n_sync n)) true (meta_of (n_disk n));
    Ok (mkNode s (n_disk n) (n_disk n))
  end.

(** *** What is known of a node

    [st h] is the set of keys of the state after block [h], [root] the parent of
    the first block, and a key determines its value. *)
Context (content : Key -> bytes) (st : H -> gset Key) (root : H) (constraints : Constraints).

Definition anchor (o : NonCanonicalOverlay H Key) : H :=
  match last_canonicalized o with Some (h, _) => h | None => root end.

Definition head (o : NonCanonicalOverlay H Key) : H := default (anchor o) (list.last (pending_canonicalizations o)).

Definition record_of (o : Overlay) : JournalRecord H Key := mkRecord (ov_hash o) (ov_inserted o) (ov_deleted o).

(** The state after a block is its parent's with the changes of the block. *)
Definition good (p : H -> H) (o : Overlay) : Prop :=
  disciplined (st (p (ov_hash o))) [record_of o] /\ st (ov_hash o) = next_state (st (p (ov_hash o))) (record_of o) /\
  overlay_key (ov_journal_key o).

Record linked (n : Node H Key) (w : RefWindow H Key) (h : Hist H Key) : Prop := {
  ln_mode : mode (n_sync n) = Constrained constraints;
  ln_window : pruning (n_sync n) = Some w;
  ln_overlay : overlay_inv content (non_canonical (n_sync n));
  ln_sim : sim content (mkSys w (n_disk n) (n_tx n)) h;
  ln_fresh : rec_hash <$> drop (length (window h) - fresh h) (window h) = pending_canonicalizations (non_canonical (n_sync n));
  ln_rooted : rooted (parent_of (non_canonical (n_sync n))) [anchor (non_canonical (n_sync n))] (blocks <$> levels (non_canonical (n_sync n)));
  ln_good : Forall (good (parent_of (non_canonical (n_sync n)))) (all_blocks (non_canonical (n_sync n)));
  ln_head : state_at (base h) (window h) = st (head (non_canonical (n_sync n)));
  ln_anchor : state_at (base h) (take (length (window h) - fresh h) (window h)) = st (anchor (non_canonical (n_sync n)));
  ln_states i b : window h !! i = Some b -> st (rec_hash b) = state_at (base h) (take (S i) (window h));
  ln_pins : map_Forall (fun _ r => 0 < r < 2 ^ 32) (sync_pinned (n_sync n)) }.

(** *** What is found *)
Definition found (n : Node H Key) (k : Key) : Prop :=
  sync_get (n_sync n) (fun k => Ok (db_data (n_disk n) !! k) : res Empty_set _) k = Ok (Some (content k)).

Lemma overlay_get_spec (o : NonCanonicalOverlay H Key) k : overlay_inv content o ->
  overlay_get o k = if decide (k ∈ inserted_by (all_blocks o) ++ pinned_keys o) then Some (content k) else None.
Proof. intros Ho. apply counted_elem, Ho. Qed.

Lemma found_disk n w h k : linked n w h -> db_data (n_disk n) !! k = Some (content k) -> found n k.
Proof.
  intros Hl Hk. unfold found, sync_get. rewrite (overlay_get_spec _ _ (ln_overlay _ _ _ Hl)). case_decide; [done|].
  simpl. by rewrite Hk.
Qed.

Lemma found_overlay n w h k : linked n w h -> k ∈ inserted_by (all_blocks (non_canonical (n_sync n))) -> found n k.
Proof.
  intros Hl Hk. unfold found, sync_get. rewrite (overlay_get_spec _ _ (ln_overlay _ _ _ Hl)). rewrite decide_True; [done|set_solver].
Qed.

(** The state of a block above the canonical ones is that of the last canonical
    block with what the blocks between have inserted. *)
Lemma rooted_state p (X : gset Key) tops (ls : list (list Overlay)) o : rooted p tops ls -> Forall (good p) (concat ls) ->
  (forall h, h ∈ tops -> st h ⊆ X) -> o ∈ concat ls -> st (ov_hash o) ⊆ X ∪ list_to_set (inserted_by (concat ls)).
Proof.
  revert X tops. induction ls as [|bs ls IH]; intros X tops Hr Hg HX Ho; simpl in *; [by apply not_elem_of_nil in Ho|].
  destruct Hr as [Hb Hr]. apply Forall_app in Hg as [Hgb Hg]. rewrite Forall_forall in Hb, Hgb.
  assert (forall o', o' ∈ bs -> st (ov_hash o') ⊆ X ∪ list_to_set (inserted_by bs)) as Hlevel.
  { intros o' Ho'. destruct (Hgb o' Ho') as (_ & -> & _). specialize (HX _ (Hb o' Ho')). unfold next_state, block_ins. simpl.
    assert (list_to_set (C := gset Key) (ov_inserted o') ⊆ list_to_set (inserted_by bs)); [|set_solver].
    intros k. rewrite !elem_of_list_to_set. intros Hk. unfold inserted_by. rewrite list_elem_of_In, in_concat.
    exists (ov_inserted o'). rewrite <-!list_elem_of_In. split; [by apply list_elem_of_fmap_2|done]. }
  assert (inserted_by (bs ++ concat ls) = inserted_by bs ++ inserted_by (concat ls)) as Happ.
  { unfold inserted_by. by rewrite fmap_app, concat_app. }
  rewrite Happ, list_to_set_app_L. apply elem_of_app in Ho as [Ho|Ho].
  - specialize (Hlevel o Ho). set_solver.
  - rewrite (assoc_L (∪)). apply (IH _ (ov_hash <$> bs)); [done|done| |done].
    intros h (o' & -> & Ho')%list_elem_of_fmap. auto.
Qed.

Lemma found_levels n w h o k : linked n w h -> o ∈ all_blocks (non_canonical (n_sync n)) -> k ∈ st (ov_hash o) -> found n k.
Proof.
  intros Hl Ho Hk. pose proof (rooted_state _ (st (anchor (non_canonical (n_sync n)))) _ _ o (ln_rooted _ _ _ Hl) (ln_good _ _ _ Hl)) as Hst.
  specialize (Hst ltac:(by intros x ->%list_elem_of_singleton) Ho k Hk). apply elem_of_union in Hst as [Hst|Hst].
  - eapply found_disk; [done|]. rewrite <-(ln_anchor _ _ _ Hl) in Hst. eapply stored_lookup; [apply (ln_sim _ _ _ Hl)|]. simpl.
    unfold held. set (bs := take _ _) in *. apply (held_states (base h) 0 (length bs)); [lia|]. by rewrite firstn_all.
  - eapply found_overlay; [done|]. by apply elem_of_list_to_set in Hst.
Qed.

Lemma chained_elem (p : H -> H) hs (ls : list (list Overlay)) h : chained p hs ls -> h ∈ hs -> exists o, o ∈ concat ls /\ ov_hash o = h.
Proof.
  revert ls. induction hs as [|h' hs IH]; intros [|bs ls]; simpl; intros Hc Hh; try done; [by apply not_elem_of_nil in Hh..|].
  destruct Hc as (Hh' & _ & Hc). apply elem_of_cons in Hh as [->|Hh].
  - apply list_elem_of_fmap in Hh' as (o & -> & Ho). exists o. set_solver.
  - destruct (IH ls Hc Hh) as (o & Ho & Heq). exists o. set_solver.
Qed.

Lemma found_window n w h hash k : linked n w h -> have_block w hash = true -> k ∈ st hash -> found n k.
Proof.
  intros Hl Hh Hk. pose proof (ln_sim _ _ _ Hl) as Hs. pose proof (sim_window _ _ _ Hs) as Hw. simpl in Hw.
  unfold have_block in Hh. apply existsb_exists in Hh as (r & Hr & Heq%bool_decide_eq_true). rewrite <-list_elem_of_In in Hr.
  apply list_elem_of_lookup in Hr as [i Hi]. rewrite lookup_drop in Hi. set (j := (pending_prunings w + i)%nat) in *.
  destruct (lookup_lt_is_Some_2 (window h) j) as [b Hb]; [rewrite <-(imp_length _ _ _ _ Hw); by eapply lookup_lt_Some|].
  destruct (imp_row _ _ _ _ Hw _ _ _ Hi Hb) as [Hrh _]. destruct (decide (j < length (window h) - fresh h)%nat) as [Hlt|Hge].
  - eapply found_disk; [done|]. eapply stored_lookup; [apply Hs|]. simpl. apply (held_states (base h) 0 (S j)); [lia|].
    rewrite take_take, Nat.min_l by lia. rewrite <-(ln_states _ _ _ Hl j b Hb). congruence.
  - assert (hash ∈ pending_canonicalizations (non_canonical (n_sync n))) as Hp.
    { rewrite <-(ln_fresh _ _ _ Hl), <-Heq, Hrh. apply list_elem_of_fmap_2. apply list_elem_of_lookup.
      exists (j - (length (window h) - fresh h))%nat. rewrite lookup_drop. by replace (_ + _)%nat with j by lia. }
    destruct (chained_elem _ _ _ _ (oi_chain _ _ (ln_overlay _ _ _ Hl)) Hp) as (o & Ho & <-). by eapply found_levels.
Qed.

(** *** Metadata of the overlay *)
Context `{!CodecLaws Z (is_u 64)} `{!CodecLaws (JournalRecord H Key) (fun _ => True)} `{!KeyCodec} `{!PairCodec}.

(** A key that the pruning window does not use. *)
Definition foreign (k : bytes) : Prop := length k <> 11%nat /\ length k <> 23%nat.

Lemma foreign_spec k : foreign k -> k <> to_meta_key LAST_PRUNED tt /\ forall n, n ∈u 64 -> k <> to_journal_key n.
Proof.
  intros [H11 H23]. split.
  - intros ->. unfold to_meta_key in H11. rewrite length_app, encode_unit in H11. done.
  - intros n Hn ->. unfold to_journal_key, to_meta_key in H23. rewrite length_app, encode_u64_length in H23 by done. done.
Qed.

Lemma overlay_key_foreign k : overlay_key k -> foreign k.
Proof.
  unfold foreign, overlay_key, to_overlay_key, to_meta_key. intros [->|(n & i & Hn & Hi & ->)]; rewrite length_app.
  - rewrite encode_unit. done.
  - rewrite encode_pair_length by done. done.
Qed.

Definition foreign_commit (c : CommitSet Key) : Prop :=
  commit_data c = dflt /\ Forall (fun e => foreign e.1) (inserted (commit_meta c)) /\ Forall foreign (deleted (commit_meta c)).

Lemma stored_foreign exact f X bs g db c : stored content exact f X bs g db -> foreign_commit c -> 0 <= f ->
  f + Z.of_nat (length bs) < 2 ^ 64 -> stored content exact f X bs g (apply_state_commit db c).
Proof.
  intros [Hd Hc Hl Hj He] (Hdata & Hi & Hdel) Hf Hlen. rewrite Forall_forall in Hi. rewrite Forall_forall in Hdel.
  assert (forall k, ~ foreign k -> apply_changes (commit_meta c) (db_meta db) !! k = db_meta db !! k) as Hne.
  { intros k Hk. apply apply_changes_ne; [|by intros ?%Hdel]. intros (e & -> & ?%Hi)%list_elem_of_fmap. done. }
  unfold apply_state_commit. rewrite Hdata. constructor; simpl; try done.
  - rewrite Hne; [done|]. intros [Hk _]%foreign_spec. done.
  - intros i b Hgi Hb. rewrite Hne; [by apply Hj|]. intros [_ Hk]%foreign_spec.
    apply (Hk (f + Z.of_nat i)); [|done]. apply lookup_lt_Some in Hb. unfold is_u. lia.
  - intros m Hm. rewrite Hne; [by apply He|]. intros [_ Hk]%foreign_spec. apply (Hk m); [unfold is_u; lia|done].
Qed.

Lemma sim_foreign w disk tx h c : sim content (mkSys w disk tx) h -> foreign_commit c -> sim content (mkSys w disk (apply_state_commit tx c)) h.
Proof. intros [] Hc. destruct sim_room as [Hf Hlen]. constructor; try done. apply stored_foreign; [done|done|done|lia]. Qed.

(** *** Insertion *)

(** Where a new block belongs: on the last canonical block or on a block of the
    level below; the first block of all has number 0; and while blocks are to
    become canonical, on top of the last of these. *)
Definition placed (o : NonCanonicalOverlay H Key) (number : Z) (parent_hash : H) : Prop :=
  (last_canonicalized o = None -> adjacent o number /\ (levels o = [] -> number = 0) /\ (number = 0 -> parent_hash = root)) /\
  (front_of o < number -> exists l, levels o !! Z.to_nat (number - front_of o - 1) = Some l /\ parent_hash ∈ ov_hash <$> blocks l) /\
  match list.last (pending_canonicalizations o) with
  | None => True
  | Some h =>
    let front := front_of o + Z.of_nat (length (pending_canonicalizations o)) in
    front <= number /\ (number = front -> parent_hash = h) /\
    (front < number -> parent_hash ∈
       ov_hash <$> level_at (settled (parent_of o) (pending_canonicalizations o) (blocks <$> levels o)) (Z.to_nat (number - front - 1)))
  end.

Lemma insert_parent o s' hash number parent_hash changes c0 c i ov : placed o number parent_hash ->
  inserted_one (front_of o) o hash number parent_hash changes c0 c s' i ov ->
  (forall h n, last_canonicalized o = Some (h, n) -> adjacent o number /\ (number = n + 1 -> parent_hash = h)) ->
  number = front_of o + Z.of_nat i /\
  parent_hash ∈ (match i with Datatypes.O => [anchor o] | S j => ov_hash <$> default [] ((blocks <$> levels o) !! j) end).
Proof.
  intros (Hnone & Hup & _) Hone Hsome. assert (number = front_of o + Z.of_nat i) as Hn.
  { destruct (io_number _ _ _ _ _ _ _ _ _ _ _ Hone) as [Hnil|?]; [|done]. pose proof (io_index _ _ _ _ _ _ _ _ _ _ _ Hone) as Hi.
    rewrite Hnil in Hi. simpl in Hi. unfold front_of, adjacent in *. destruct (last_canonicalized o) as [[h n]|].
    - destruct (Hsome h n eq_refl) as [Had _]. rewrite Hnil in Had. simpl in Had. lia.
    - destruct (Hnone eq_refl) as (_ & Hz & _). rewrite (Hz Hnil). lia. }
  split; [done|]. destruct i as [|j].
  - apply list_elem_of_singleton. unfold anchor, front_of in *. destruct (last_canonicalized o) as [[h n]|].
    + apply (Hsome h n eq_refl). lia.
    + apply (Hnone eq_refl). lia.
  - destruct Hup as (l & Hl & Hp); [lia|]. rewrite list_lookup_fmap. replace (Z.to_nat _) with j in Hl by lia. by rewrite Hl.
Qed.

Definition insert_allowed (n : Node H Key) (hash : H) (number : Z) (parent_hash : H) (changes : ChangeSet Key) : Prop :=
  insertable content (non_canonical (n_sync n)) hash number changes /\ placed (non_canonical (n_sync n)) number parent_hash /\
  disciplined (st parent_hash) [block_of hash changes] /\ st hash = next_state (st parent_hash) (block_of hash changes).

Lemma parent_of_insert (o s' : NonCanonicalOverlay H Key) hash parent_hash : parents s' = <[hash := parent_hash]> (parents o) ->
  parent_of s' hash = parent_hash /\ forall h, h <> hash -> parent_of s' h = parent_of o h.
Proof. unfold parent_of. intros ->. split; [by rewrite lookup_insert_eq|]. intros h Hh. by rewrite lookup_insert_ne. Qed.

(** The overlay after an insertion. *)
Lemma insert_linked n w h hash number parent_hash changes c0 c i ov s' : linked n w h -> insert_allowed n hash number parent_hash changes ->
  inserted_one (front_of (non_canonical (n_sync n))) (non_canonical (n_sync n)) hash number parent_hash changes c0 c s' i ov ->
  (forall h0 n0, last_canonicalized (non_canonical (n_sync n)) = Some (h0, n0) -> adjacent (non_canonical (n_sync n)) number /\ (number = n0 + 1 -> parent_hash = h0)) ->
  rooted (parent_of s') [anchor (non_canonical (n_sync n))] (blocks <$> levels s') /\ Forall (good (parent_of s')) (all_blocks s').
Proof.
  intros Hl (Hins & Hplace & Hdis & Hst) Hone Hsome. set (o := non_canonical (n_sync n)) in *.
  destruct (insert_parent o s' hash number parent_hash changes c0 c i ov Hplace Hone Hsome) as [Hn Hp].
  assert (overlay_key (ov_journal_key ov)) as Hkey by (eapply inserted_one_key; [|exact Hone]; destruct Hins as (_ & _ & _ & _ & _ & ?); lia).
  destruct Hone as [Hh Hi Hd _ _ _ Hidx Hlv _ Hpar _ _ _]. destruct (parent_of_insert o s' hash parent_hash Hpar) as [Hphash Hpne].
  destruct Hins as (Hfresh & _).
  assert (forall o', o' ∈ all_blocks o -> parent_of s' (ov_hash o') = parent_of o (ov_hash o')) as Hold.
  { intros o' Ho'. apply Hpne. intros Heq. apply Hfresh. rewrite <-Heq. by apply list_elem_of_fmap_2. }
  set (ls := (blocks <$> levels o) ++ (if (i =? length (levels o))%nat then [[]] else [])) in *.
  assert (concat ls = all_blocks o) as Hall.
  { unfold ls, all_blocks. rewrite concat_app. destruct (_ =? _)%nat; simpl; by rewrite app_nil_r. }
  assert (i < length ls)%nat as Hlt.
  { unfold ls. rewrite length_app, length_fmap. destruct (Nat.eqb_spec i (length (levels o))); simpl; lia. }
  split.
  - rewrite Hlv. apply rooted_push; [|done|].
    + apply (rooted_ext (parent_of o)); [intros o' Ho'; rewrite Hall in Ho'; symmetry; auto|].
      unfold ls. destruct (_ =? _)%nat; [apply rooted_snoc|rewrite app_nil_r]; apply (ln_rooted _ _ _ Hl).
    + rewrite Hh, Hphash. destruct i as [|j]; [done|]. unfold ls.
      rewrite lookup_app_l; [done|]. rewrite length_fmap. lia.
  - unfold all_blocks. rewrite Hlv. rewrite concat_push, Hall by done. constructor.
    + unfold good, record_of. rewrite Hh, Hphash, Hi, Hd. done.
    + apply Forall_forall. intros o' Ho'. pose proof (ln_good _ _ _ Hl) as Hg. rewrite Forall_forall in Hg.
      unfold good. rewrite Hold by done. by apply Hg.
Qed.

(** The record of the pruning mode, which the first block adds. *)
Definition mode_entry (number : Z) : list (bytes * bytes) :=
  if number =? 0 then [(to_meta_key PRUNING_MODE tt, mode_id (Constrained constraints))] else [].

Definition with_mode (number : Z) (c : CommitSet Key) : CommitSet Key :=
  mkCommitSet (commit_data c) (mkChangeSet (inserted (commit_meta c) ++ mode_entry number) (deleted (commit_meta c))).

Definition with_overlay (n : Node H Key) (ov : NonCanonicalOverlay H Key) (tx : Db Key) : Node H Key :=
  mkNode (mkStateDb (mode (n_sync n)) ov (pruning (n_sync n)) (sync_pinned (n_sync n))) (n_disk n) tx.

Lemma exec_insert n w h hash number parent_hash changes : linked n w h -> insert_allowed n hash number parent_hash changes ->
  let o := non_canonical (n_sync n) in
  node_exec (InsertBlock hash number parent_hash changes) n = Ok n \/
  exists s' c i ov, overlay_inv content s' /\ inserted_one (front_of o) o hash number parent_hash changes dflt c s' i ov /\
    last_canonicalized s' = last_canonicalized o /\
    (forall h n, last_canonicalized o = Some (h, n) -> adjacent o number /\ (number = n + 1 -> parent_hash = h)) /\
    node_exec (InsertBlock hash number parent_hash changes) n = Ok (with_overlay n s' (apply_state_commit (n_tx n) (with_mode number c))).
Proof.
  intros Hl Ha o. pose proof Ha as (Hins & Hplace & _).
  destruct (insert_run (E := Empty_set) content o hash number parent_hash changes (ln_overlay _ _ _ Hl) Hins) as (s' & r & Hrun & Hinv & Hr).
  { intros Hnone. by apply Hplace. }
  simpl. unfold node_transact, insert_block. erewrite bind_Ok by reflexivity. rewrite (ln_mode _ _ _ Hl).
  assert (on_overlay (insert (E := Empty_set) hash number parent_hash changes) (n_sync n) =
    (mkStateDb (mode (n_sync n)) s' (pruning (n_sync n)) (sync_pinned (n_sync n)), r)) as Hon by (unfold on_overlay; fold o; by rewrite Hrun).
  destruct Hr as [(e & -> & ->)|(c0 & c & i & ov & -> & Hc0 & Hone & Hlast & Hsome)].
  - left. rewrite (bind_Err _ _ _ _ _ Hon). by destruct n as [[] disk tx].
  - right. destruct Hlast as [[Hlast ->]|(Hnil & Hnone & Hpos)].
    + exists s', c, i, ov. split_and!; try done. by rewrite (bind_Ok _ _ _ _ _ Hon).
    + exfalso. destruct Hplace as [Hp _]. destruct (Hp Hnone) as (_ & Hz & _). specialize (Hz Hnil). lia.
Qed.

Lemma mode_key_foreign : foreign (to_meta_key PRUNING_MODE tt).
Proof. unfold foreign, to_meta_key. rewrite length_app, encode_unit. done. Qed.

Lemma step_insert n w h hash number parent_hash changes s' c i ov : linked n w h -> insert_allowed n hash number parent_hash changes ->
  let o := non_canonical (n_sync n) in overlay_inv content s' -> inserted_one (front_of o) o hash number parent_hash changes dflt c s' i ov ->
  last_canonicalized s' = last_canonicalized o ->
  (forall h n, last_canonicalized o = Some (h, n) -> adjacent o number /\ (number = n + 1 -> parent_hash = h)) ->
  linked (with_overlay n s' (apply_state_commit (n_tx n) (with_mode number c))) w h.
Proof.
  intros Hl Ha o Hinv Hone Hl' Hsome. pose proof Ha as (Hins & _).
  destruct (insert_linked n w h hash number parent_hash changes dflt c i ov s' Hl Ha Hone Hsome) as [Hroot Hgood].
  assert (overlay_commit c) as (Hdata & Hdel & Hmeta).
  { rewrite (io_commit _ _ _ _ _ _ _ _ _ _ _ Hone). apply overlay_commit_push; [|apply overlay_commit_dflt].
    eapply inserted_one_key; [|exact Hone]. destruct Hins as (_ & _ & _ & _ & _ & ?). lia. }
  pose proof (io_pending _ _ _ _ _ _ _ _ _ _ _ Hone) as Hpend.
  assert (anchor s' = anchor o) as Hanc by (unfold anchor; by rewrite Hl').
  assert (head s' = head o) as Hhead by (unfold head; by rewrite Hanc, Hpend).
  destruct Hl. constructor; simpl; try done.
  - apply sim_foreign; [done|]. split_and!; simpl; [done| |by rewrite Hdel]. apply Forall_app. split.
    + eapply Forall_impl; [exact Hmeta|]. intros e. apply overlay_key_foreign.
    + unfold mode_entry. destruct (number =? 0); [|constructor]. constructor; [apply mode_key_foreign|constructor].
  - by rewrite Hpend.
  - by rewrite Hanc.
  - by rewrite Hhead.
  - by rewrite Hanc.
Qed.

(** *** Canonicalization *)

(** Pruned blocks, one after the other. *)
Definition prune_commits (f : Z) (rows : list (DeathRow H Key)) (db : Db Key) : Db Key :=
  foldl (fun db e => apply_state_commit db (prune_commit e.1 e.2)) db (imap (fun i r => (f + Z.of_nat i, r)) rows).

Lemma prune_commits_cons f r rows db : prune_commits f (r :: rows) db = prune_commits (f + 1) rows (apply_state_commit db (prune_commit f r)).
Proof.
  unfold prune_commits. simpl. rewrite Z.add_0_r. f_equal. apply imap_ext. intros i x _. simpl. f_equal. lia.
Qed.

(** One commit for all of them has the same effect. *)
Lemma prune_rows_apply f rows c db : to_meta_key LAST_PRUNED tt ∉ deleted (commit_meta c) ->
  Forall (fun r => row_journal_key r <> to_meta_key LAST_PRUNED tt) rows ->
  apply_state_commit db (prune_rows f rows c) = prune_commits f rows (apply_state_commit db c).
Proof.
  revert f c. induction rows as [|r rows IH]; intros f c Hc Hr; [done|]. apply Forall_cons in Hr as [Hr0 Hr].
  rewrite prune_rows_cons, prune_commits_cons, IH; [|simpl; set_solver|done]. f_equal.
  destruct c as [[ins del] [mins mdel]]. unfold apply_state_commit. simpl in *. f_equal.
  - rewrite <-apply_changes_app by set_solver. by rewrite app_nil_r.
  - rewrite <-apply_changes_app by (simpl; set_solver). done.
Qed.

Definition more_gone (k : nat) (h : Hist H Key) : Hist H Key :=
  mkHist (first h) (base h) (window h) (fresh h) (gone h + k) (clean h).

Lemma sim_prunes k w disk tx h : sim content (mkSys w disk tx) h -> (gone h + k <= length (window h))%nat ->
  sim content (mkSys (pruned_more k w) disk (prune_commits (first h + Z.of_nat (gone h)) (take k (drop (gone h) (death_rows w))) tx)) (more_gone k h).
Proof.
  revert w tx h. induction k as [|k IH]; intros w tx h Hs Hk.
  { assert (pruned_more 0 w = w) as -> by (unfold pruned_more, with_pending; rewrite Nat.add_0_r; by destruct w).
    assert (more_gone 0 h = h) as -> by (unfold more_gone; rewrite Nat.add_0_r; by destruct h). done. }
  pose proof (imp_length _ _ _ _ (sim_window _ _ _ Hs)) as Hlen. simpl in Hlen.
  destruct (lookup_lt_is_Some_2 (death_rows w) (gone h)) as [r Hr]; [lia|]. pose proof (sim_prune_one content _ h r Hs Hr) as Hs1. simpl in Hs1.
  rewrite (proj2 (Nat.ltb_lt _ _)) in Hs1 by lia. specialize (IH _ _ _ Hs1). simpl in IH.
  rewrite (drop_S _ _ _ Hr). cbn [take]. rewrite prune_commits_cons.
  assert (more_gone (S k) h = more_gone k (mkHist (first h) (base h) (window h) (fresh h) (S (gone h)) (clean h))) as ->
    by (unfold more_gone; simpl; f_equal; lia).
  replace (first h + Z.of_nat (gone h) + 1) with (first h + Z.of_nat (S (gone h))) by lia.
  assert (pruned_more (S k) w = pruned_more k (with_pending (pending_number w) (StateDb.pending_canonicalizations w) (S (pending_prunings w)) w)) as ->
    by (unfold pruned_more, with_pending; simpl; f_equal; lia).
  apply IH. lia.
Qed.

(** The rows of the window have keys of the journal. *)
Lemma rows_keys w disk tx h : sim content (mkSys w disk tx) h ->
  Forall (fun r => row_journal_key r <> to_meta_key LAST_PRUNED tt /\ ~ foreign (row_journal_key r)) (death_rows w).
Proof.
  intros Hs. pose proof (sim_window _ _ _ Hs) as Hw. simpl in Hw. pose proof (sim_room _ _ _ Hs) as [Hf Hroom].
  apply Forall_forall. intros r [i Hi]%list_elem_of_lookup. pose proof (lookup_lt_Some _ _ _ Hi) as Hlt. rewrite (imp_length _ _ _ _ Hw) in Hlt.
  destruct (lookup_lt_is_Some_2 _ _ Hlt) as [b Hb]. destruct (imp_row _ _ _ _ Hw _ _ _ Hi Hb) as [_ ->].
  assert (first h + Z.of_nat i ∈u 64) as Hu by (unfold is_u; lia). split.
  - intros Heq. symmetry in Heq. revert Heq. by apply last_pruned_not_journal.
  - intros [_ Hk]%foreign_spec. by apply (Hk _ Hu).
Qed.

(** Pruning leaves other metadata alone. *)
Lemma prune_commits_foreign f rows db x : foreign x -> Forall (fun r => ~ foreign (row_journal_key r)) rows ->
  db_meta (prune_commits f rows db) !! x = db_meta db !! x.
Proof.
  intros Hx. revert f db. induction rows as [|r rows IH]; intros f db Hr; [done|]. apply Forall_cons in Hr as [Hr0 Hr].
  rewrite prune_commits_cons, IH by done. simpl. apply apply_changes_ne; simpl.
  - intros ->%list_elem_of_singleton. apply foreign_spec in Hx as [Hx _]. done.
  - by intros ->%list_elem_of_singleton.
Qed.

(** The window and the database after [note_canonical] and [prune]. *)
Lemma note_prune_run w disk tx h ov pins hash c : sim content (mkSys w disk tx) h ->
  allowed content (PruningSpec.Canonicalize hash (commit_data c)) h -> foreign_commit (mkCommitSet dflt (commit_meta c)) ->
  0 <= default 0 (max_blocks constraints) -> 0 <= default 0 (max_mem constraints) ->
  exists w1 w2 c1 c2 k, note_canonical (E := NodeE) hash c w = (w1, Ok c1) /\
    prune (E := NodeE) c1 (mkStateDb (Constrained constraints) ov (Some w1) pins) =
      (mkStateDb (Constrained constraints) ov (Some w2) pins, Ok c2) /\
    sim content (mkSys w2 disk (apply_state_commit tx c2)) (more_gone k (track (PruningSpec.Canonicalize hash (commit_data c)) h)) /\
    (forall x, foreign x -> db_meta (apply_state_commit tx c2) !! x = apply_changes (commit_meta c) (db_meta tx) !! x).
Proof.
  intros Hs Ha Hforeign Hmax Hmem. pose proof Ha as (Hd & _ & _).
  destruct (note_canonical_run (E := NodeE) _ _ _ _ _ hash c (sim_window _ _ _ Hs) (sim_room _ _ _ Hs) Hd) as (w1 & Hnote & Hw1 & Hpc & Hpp).
  simpl in Hpc, Hpp, Hnote. pose proof (sim_note content _ h hash (commit_data c) w1 (sim_foreign _ _ _ _ _ Hs Hforeign) Ha Hw1 Hpc Hpp) as Hs1.
  simpl in Hs1. set (h1 := mkHist _ _ _ _ _ _) in Hs1. set (number := first h + Z.of_nat (length (window h))) in *.
  set (c1 := push_meta (to_journal_key number) (encode (block_of hash (commit_data c))) (take_deleted c)) in *.
  assert (apply_state_commit tx c1 = apply_state_commit (apply_state_commit tx (mkCommitSet dflt (commit_meta c))) (note_commit number hash (commit_data c))) as Heq.
  { destruct Hforeign as (_ & _ & Hdel). unfold c1, note_commit. destruct c as [[ins del] [mins mdel]]. unfold apply_state_commit. simpl in *.
    f_equal. rewrite <-apply_changes_app; [by rewrite app_nil_r|]. intros k Hk. rewrite Forall_forall in Hdel. specialize (Hdel k Hk).
    simpl. intros ->%list_elem_of_singleton. apply foreign_spec in Hdel as [_ Hdel]. apply (Hdel number); [|done].
    unfold number, is_u. destruct Ha as (_ & _ & Hn). pose proof (sim_room _ _ _ Hs) as [Hf _]. lia. }
  rewrite <-Heq in Hs1.
  destruct (prune_run (E := NodeE) constraints w1 (mkStateDb (Constrained constraints) ov (Some w1) pins) c1)
    as (k & Hprunes & Hprune); [done|done| |done|done|].
  { pose proof (sim_room _ _ _ Hs1) as [Hf Hr]. assert (implements (clean h1) (first h1) (window h1) w1) as Hw by apply (sim_window _ _ _ Hs1). unfold window_ok.
    rewrite (imp_length _ _ _ _ Hw), (imp_number _ _ _ _ Hw). pose proof (sim_gone_le _ _ _ Hs1). assert (pending_prunings w1 = gone h1) as Hg by apply (sim_gone _ _ _ Hs1). lia. }
  assert (pending_prunings w1 = gone h1) as Hg by apply (sim_gone _ _ _ Hs1). assert (implements (clean h1) (first h1) (window h1) w1) as Hw by apply (sim_window _ _ _ Hs1).
  eexists w1, _, c1, _, k. split; [exact Hnote|]. split; [exact Hprune|]. destruct Hprunes as [Hle _ _]. rewrite (imp_length _ _ _ _ Hw) in Hle.
  pose proof (rows_keys _ _ _ _ Hs1) as Hrows. rewrite prune_rows_apply.
  - rewrite Hg, (imp_number _ _ _ _ Hw). split; [apply (sim_prunes k w1 _ _ h1 Hs1); lia|]. intros x Hx.
    rewrite prune_commits_foreign; [|done|eapply Forall_take, Forall_drop, Forall_impl; [exact Hrows|by intros ? []]].
    rewrite Heq. simpl. apply apply_changes_ne; simpl; [|apply not_elem_of_nil]. intros ->%list_elem_of_singleton. apply foreign_spec in Hx as [_ Hx].
    apply (Hx number); [|done]. unfold number, is_u. destruct Ha as (_ & _ & Hn). pose proof (sim_room _ _ _ Hs) as [Hf _]. lia.
  - unfold c1. destruct c as [[ins del] [mins mdel]]. simpl. destruct Hforeign as (_ & _ & Hdel). simpl in Hdel. intros Hin.
    rewrite Forall_forall in Hdel. apply Hdel, foreign_spec in Hin as [Hin _]. done.
  - eapply Forall_take, Forall_drop, Forall_impl; [exact Hrows|by intros ? []].
Qed.

Definition canonicalize_allowed (n : Node H Key) (hash : H) : Prop :=
  match list.last (pending_canonicalizations (non_canonical (n_sync n))) with
  | Some h => parents (non_canonical (n_sync n)) !! hash = Some h
  | None => True
  end /\
  match pruning (n_sync n) with
  | Some w => pending_number w + Z.of_nat (length (death_rows w)) < 2 ^ 64 - 2
  | None => True
  end.

(** A block that is canonicalized is on the last one. *)
Lemma canonical_parent n w h hash l o : linked n w h -> canonicalize_allowed n hash ->
  levels (non_canonical (n_sync n)) !! length (pending_canonicalizations (non_canonical (n_sync n))) = Some l ->
  o ∈ blocks l -> ov_hash o = hash -> parent_of (non_canonical (n_sync n)) hash = head (non_canonical (n_sync n)).
Proof.
  intros Hl [Hlast _] Hlv Ho Hh. unfold head. set (ov := non_canonical (n_sync n)) in *.
  destruct (list.last (pending_canonicalizations ov)) as [h'|] eqn:Hp; simpl.
  - unfold parent_of. by rewrite Hlast.
  - apply list.last_None in Hp. rewrite Hp in Hlv. pose proof (ln_rooted _ _ _ Hl) as Hr. fold ov in Hr.
    destruct (levels ov) as [|l0 ls]; simplify_eq/=. destruct Hr as [Hr _]. rewrite Forall_forall in Hr.
    specialize (Hr o Ho). by apply list_elem_of_singleton in Hr.
Qed.

Lemma canonical_history n w h o k : linked n w h -> o ∈ all_blocks (non_canonical (n_sync n)) ->
  parent_of (non_canonical (n_sync n)) (ov_hash o) = head (non_canonical (n_sync n)) ->
  let ov := set_canonicalizations (pending_canonicalizations (non_canonical (n_sync n)) ++ [ov_hash o]) (non_canonical (n_sync n)) in
  let h' := mkHist (first h) (base h) (window h ++ [record_of o]) (S (fresh h)) k (clean h) in
  state_at (base h') (window h') = st (head ov) /\
  rec_hash <$> drop (length (window h') - fresh h') (window h') = pending_canonicalizations ov /\
  state_at (base h') (take (length (window h') - fresh h') (window h')) = st (anchor ov) /\
  forall i b, window h' !! i = Some b -> st (rec_hash b) = state_at (base h') (take (S i) (window h')).
Proof.
  intros Hl Ho Hp ov h'. unfold ov, h'. simpl. pose proof (ln_good _ _ _ Hl) as Hg. rewrite Forall_forall in Hg.
  destruct (Hg o Ho) as (_ & Hst & _). rewrite Hp in Hst. pose proof (sim_fresh_le _ _ _ (ln_sim _ _ _ Hl)) as Hle.
  assert (state_at (base h) (window h ++ [record_of o]) = st (ov_hash o)) as Hhead.
  { rewrite state_at_app. simpl. by rewrite (ln_head _ _ _ Hl), Hst. }
  rewrite length_app. simpl. replace (length (window h) + 1 - S (fresh h))%nat with (length (window h) - fresh h)%nat by lia. split_and!.
  - rewrite Hhead. unfold head. simpl. by rewrite list.last_snoc.
  - rewrite drop_app_le by lia. rewrite fmap_app. by rewrite (ln_fresh _ _ _ Hl).
  - rewrite take_app_le by lia. apply (ln_anchor _ _ _ Hl).
  - intros i b [Hb|[Hi Hb]]%lookup_app_Some.
    + rewrite take_app_le by (apply lookup_lt_Some in Hb; lia). by apply (ln_states _ _ _ Hl).
    + apply list_lookup_singleton_Some in Hb as [Hi0 <-]. rewrite take_ge by (rewrite length_app; simpl; lia). done.
Qed.

Context (Hmax : 0 <= default 0 (max_blocks constraints)) (Hmem : 0 <= default 0 (max_mem constraints)).

(** The block is refused, or the node has it pending, and the transaction its
    changes and, of the overlay, its records. *)
Lemma step_canonicalize n w h hash : linked n w h -> canonicalize_allowed n hash ->
  let ov := non_canonical (n_sync n) in let pending := pending_canonicalizations ov in
  node_exec (CanonicalizeBlock hash) n = Ok n \/
  exists w' h' l ds tx', let ov' := set_canonicalizations (pending ++ [hash]) ov in
    let n' := mkNode (mkStateDb (Constrained constraints) ov' (Some w') (sync_pinned (n_sync n))) (n_disk n) tx' in
    node_exec (CanonicalizeBlock hash) n = Ok n' /\ linked n' w' h' /\ levels ov !! length pending = Some l /\
    ds ≡ₚ blocks l ++ descendants (parent_of ov) (siblings hash (blocks l)) (blocks <$> drop (S (length pending)) (levels ov)) /\
    forall x, foreign x -> db_meta tx' !! x =
      apply_changes (mkChangeSet [(to_meta_key LAST_CANONICAL tt, encode (hash, front_of ov + Z.of_nat (length pending)))] (ov_journal_key <$> ds))
        (db_meta (n_tx n)) !! x.
Proof.
  intros Hl Ha. simpl. unfold node_transact, canonicalize_block. erewrite bind_Ok by reflexivity.
  rewrite (ln_mode _ _ _ Hl), !bool_decide_eq_false_2 by done. pose proof Ha as [Hlast Hnum].
  destruct (canonicalize_run (E := Empty_set) content _ hash dflt (ln_overlay _ _ _ Hl) Hlast)
    as [Hrun|(l & o & ds & c & Hlv & Ho & Hh & Hds & Hrun & Hdata & Hdel & Hins & Hinv)].
  { left. erewrite bind_Err by (unfold on_overlay; rewrite Hrun; reflexivity). by destruct n as [[] disk tx]. }
  right.
  erewrite bind_Ok by (unfold on_overlay; rewrite Hrun; reflexivity). set (ov := non_canonical (n_sync n)) in *.
  assert (o ∈ all_blocks ov) as Hoall by (rewrite (all_blocks_at _ _ _ Hlv); set_solver).
  pose proof (canonical_parent n w h hash l o Hl Ha Hlv Ho Hh) as Hpar. fold ov in Hpar. rewrite <-Hh in Hpar.
  assert (block_of hash (commit_data c) = record_of o) as Hblock.
  { rewrite Hdata, <-Hh. unfold block_of, record_of. simpl. f_equal. rewrite <-list_fmap_compose. by apply list_fmap_id. }
  pose proof (ln_good _ _ _ Hl) as Hg. rewrite Forall_forall in Hg. destruct (Hg o Hoall) as (Hdis & _ & _). fold ov in Hdis. rewrite Hpar in Hdis.
  pose proof (sim_window _ _ _ (ln_sim _ _ _ Hl)) as Hw. simpl in Hw. rewrite (ln_window _ _ _ Hl) in Hnum.
  rewrite (imp_length _ _ _ _ Hw), (imp_number _ _ _ _ Hw) in Hnum.
  destruct (note_prune_run w (n_disk n) (n_tx n) h (set_canonicalizations (pending_canonicalizations ov ++ [hash]) ov) (sync_pinned (n_sync n)) hash c)
    as (w1 & w2 & c1 & c2 & k & Hnote & Hprune & Hsim & Hmeta); [apply Hl| | |done|done|].
  { split_and!; [by rewrite Hblock, (ln_head _ _ _ Hl)| |done]. rewrite Hdata. simpl. apply Forall_forall. by intros e (x & -> & _)%list_elem_of_fmap. }
  { split_and!; simpl; [done|rewrite Hins|rewrite Hdel]; simpl.
    - constructor; [|constructor]. apply overlay_key_foreign. by left.
    - apply Forall_forall. intros x (o' & -> & Ho')%list_elem_of_fmap. apply overlay_key_foreign. apply Hg.
      rewrite Hds in Ho'. fold ov. rewrite (all_blocks_at _ _ _ Hlv). apply elem_of_app in Ho' as [?|Ho']; [set_solver|].
      do 2 (apply elem_of_app; right). rewrite (keep_descendants (parent_of ov) (siblings hash (blocks l))). set_solver. }
  rewrite (ln_window _ _ _ Hl).
  erewrite bind_Ok by (unfold on_window; simpl; rewrite Hnote; reflexivity). rewrite (ln_mode _ _ _ Hl). simpl. rewrite Hprune.
  eexists w2, _, l, ds, _. split; [reflexivity|]. simpl in Hsim. unfold more_gone in Hsim. simpl in Hsim. rewrite Hblock in Hsim. split.
  - destruct (canonical_history n w h o (gone h + k)%nat Hl Hoall Hpar) as (Hhead & Hfresh & Hanc & Hstates). rewrite Hh in *.
    constructor; [done|done|done|exact Hsim|exact Hfresh| | |exact Hhead|exact Hanc|exact Hstates|]; apply Hl.
  - split_and!; [done|done|]. intros x Hx. rewrite (Hmeta x Hx). by destruct c as [cd [ci cdel]]; simplify_eq/=.
Qed.

(** *** The end of a transaction *)
Lemma good_ext (p q : H -> H) o : p (ov_hash o) = q (ov_hash o) -> good p o -> good q o.
Proof. unfold good. by intros ->. Qed.

(** Blocks that stay, with what they are on. *)
Lemma overlay_links (ov ov' : NonCanonicalOverlay H Key) a : all_blocks ov' ⊆ all_blocks ov ->
  Forall (fun o => parents ov' !! ov_hash o = parents ov !! ov_hash o) (all_blocks ov') ->
  Forall (good (parent_of ov)) (all_blocks ov) -> rooted (parent_of ov) [a] (blocks <$> levels ov') ->
  Forall (good (parent_of ov')) (all_blocks ov') /\ rooted (parent_of ov') [a] (blocks <$> levels ov').
Proof.
  intros Hsub Hpar Hg Hr. rewrite !Forall_forall in *.
  assert (forall o, o ∈ all_blocks ov' -> parent_of ov (ov_hash o) = parent_of ov' (ov_hash o)) as Hp.
  { intros o Ho. unfold parent_of. by rewrite Hpar. }
  split; [|by eapply rooted_ext]. intros o Ho. eapply good_ext; [by apply Hp|]. auto.
Qed.

Lemma step_commit n w h : linked n w h ->
  exists ov' w' h', let ov := non_canonical (n_sync n) in let n' := mkNode (mkStateDb (mode (n_sync n)) ov' (Some w') (sync_pinned (n_sync n))) (n_tx n) (n_tx n) in
    node_exec CommitTx n = Ok n' /\ linked n' w' h' /\
    blocks <$> levels ov' = settled (parent_of ov) (pending_canonicalizations ov) (blocks <$> levels ov) /\
    last_canonicalized ov' = advance (last_canonicalized ov) (pending_canonicalizations ov) /\
    pending_canonicalizations ov' = [] /\ pending_insertions ov' = [] /\
    Forall (fun o => parents ov' !! ov_hash o = parents ov !! ov_hash o) (all_blocks ov').
Proof.
  intros Hl. set (ov := non_canonical (n_sync n)).
  destruct (overlay_apply_pending_run (E := NodeE) content ov (ln_overlay _ _ _ Hl)) as (ov' & Hrun & Hinv & Hset & Hlast & Hpend & Hpi & Hpar).
  destruct (sim_commit content _ h (ln_sim _ _ _ Hl)) as (s' & Hperf & Hsim). simpl in Hperf. unfold settle in Hperf. simpl in Hperf.
  destruct (apply_pending w) as [w' [[]|e|]] eqn:Happ; simplify_eq/=.
  unfold node_settle, sync_apply_pending. erewrite bind_Ok by (unfold on_overlay; fold ov; rewrite Hrun; reflexivity).
  unfold on_window. simpl. rewrite (ln_window _ _ _ Hl), Happ. simpl. exists ov', w', (track PruningSpec.Commit h). split; [reflexivity|]. split; [|done].
  assert (anchor ov' = head ov) as Hanc.
  { unfold anchor, head, advance in *. rewrite Hlast. by destruct (list.last _). }
  destruct (overlay_links ov ov' (head ov)) as [Hg Hr]; [|done|apply Hl| |].
  { unfold all_blocks. rewrite Hset. apply settled_sub. }
  { rewrite Hset. apply rooted_settled; [apply Hl|]. pose proof (chained_length _ _ _ (oi_chain _ _ (ln_overlay _ _ _ Hl))). done. }
  assert (state_at (base h) (window h) = st (head ov)) as Hhead by apply Hl. pose proof (sim_gone_le _ _ _ (ln_sim _ _ _ Hl)) as Hgone.
  rewrite <-(take_drop (gone h) (window h)), state_at_app in Hhead.
  constructor; simpl; try done.
  - apply Hl.
  - rewrite Nat.sub_0_r, drop_all. by rewrite Hpend.
  - by rewrite Hanc.
  - unfold head. by rewrite Hpend, Hanc.
  - by rewrite Nat.sub_0_r, firstn_all, Hanc.
  - intros i b Hb. rewrite lookup_drop in Hb. rewrite (ln_states _ _ _ Hl _ _ Hb), <-state_at_app. f_equal.
    by rewrite take_take_drop, Nat.add_succ_r.
  - apply Hl.
Qed.

(** A transaction that is given up, where the insertions can be reverted to levels
    with [Q]; the blocks that stay are known to be good. *)
Lemma step_abort Q n w h : linked n w h ->
  let ov := non_canonical (n_sync n) in
  revertible Q (reverse (pending_insertions ov)) (blocks <$> levels ov) -> (forall ls, Q ls -> rooted (parent_of ov) [anchor ov] ls) ->
  exists ov' w' h', let n' := mkNode (mkStateDb (mode (n_sync n)) ov' (Some w') (sync_pinned (n_sync n))) (n_disk n) (n_disk n) in
    node_exec AbortTx n = Ok n' /\ linked n' w' h' /\ Q (blocks <$> levels ov') /\ last_canonicalized ov' = last_canonicalized ov /\
    pending_canonicalizations ov' = [] /\ pending_insertions ov' = [] /\
    Forall (fun o => parents ov' !! ov_hash o = parents ov !! ov_hash o) (all_blocks ov').
Proof.
  intros Hl ov Ha HQ.
  destruct (overlay_revert_pending_run (E := NodeE) content _ ov (ln_overlay _ _ _ Hl) Ha) as (ov' & Hrun & Hinv & Hpend & Hpi & Hroot & Hlast & Hsub & Hpar).
  destruct (sim_abort content _ h (ln_sim _ _ _ Hl)) as (s' & Hperf & Hsim). simpl in Hperf. unfold settle in Hperf. simpl in Hperf.
  destruct (revert_pending w) as [w' [[]|e|]] eqn:Hrev; simplify_eq/=.
  unfold node_settle, sync_revert_pending. erewrite bind_Ok by (unfold on_window; rewrite (ln_window _ _ _ Hl), Hrev; reflexivity).
  unfold on_overlay. simpl. fold ov. rewrite Hrun. simpl. exists ov', w', (track PruningSpec.Abort h). split; [reflexivity|]. split; [|done].
  assert (anchor ov' = anchor ov) as Hanc by (unfold anchor; by rewrite Hlast).
  destruct (overlay_links ov ov' (anchor ov)) as [Hg Hr]; [done|done|apply Hl|by apply HQ|].
  constructor; simpl; try done; [apply Hl| | | | | |apply Hl].
  - rewrite Nat.sub_0_r, drop_all. by rewrite Hpend.
  - by rewrite Hanc.
  - unfold head. rewrite Hpend, Hanc. apply Hl.
  - rewrite Nat.sub_0_r, firstn_all, Hanc. apply Hl.
  - intros i b [Hb Hi]%lookup_take_Some. rewrite take_take, Nat.min_l by lia. by apply Hl.
Qed.

(** *** Pins *)
Lemma linked_kept n w h ov pins : linked n w h -> overlay_inv content ov -> kept (non_canonical (n_sync n)) ov ->
  map_Forall (fun _ r => 0 < r < 2 ^ 32) pins -> linked (mkNode (mkStateDb (mode (n_sync n)) ov (pruning (n_sync n)) pins) (n_disk n) (n_tx n)) w h.
Proof.
  intros Hl Hinv [Hlast Hlv Hpend _ Hpar] Hpins.
  assert (all_blocks ov = all_blocks (non_canonical (n_sync n))) as Hall by (unfold all_blocks; by rewrite Hlv).
  assert (anchor ov = anchor (non_canonical (n_sync n))) as Hanc by (unfold anchor; by rewrite Hlast).
  destruct (overlay_links (non_canonical (n_sync n)) ov (anchor ov)) as [Hg Hr]; [by rewrite Hall|by rewrite Hall|apply Hl|rewrite Hlv, Hanc; apply Hl|].
  destruct Hl. constructor; simpl; try done; [by rewrite Hpend|unfold head; by rewrite Hpend, Hanc|by rewrite Hanc].
Qed.

Definition pin_allowed (n : Node H Key) (hash : H) : Prop :=
  (forall r, sync_pinned (n_sync n) !! hash = Some r -> r < 2 ^ 32 - 1) /\
  (forall r, pinned (non_canonical (n_sync n)) !! hash = Some r -> r < 2 ^ 32 - 1).

(** The node after pinning or unpinning. *)
Definition repinned (n n' : Node H Key) : Prop := exists ov pins, overlay_inv content ov /\ kept (non_canonical (n_sync n)) ov /\
  n' = mkNode (mkStateDb (mode (n_sync n)) ov (pruning (n_sync n)) pins) (n_disk n) (n_tx n).

Lemma repinned_refl n w h : linked n w h -> repinned n n.
Proof. intros Hl. exists (non_canonical (n_sync n)), (sync_pinned (n_sync n)). split_and!; [apply Hl|apply kept_refl|by destruct n as [[] ? ?]]. Qed.

Lemma step_pin n w h hash : linked n w h -> pin_allowed n hash -> exists n', node_exec (PinBlock hash) n = Ok n' /\ linked n' w h /\ repinned n n'.
Proof.
  intros Hl [Hs Ho]. simpl. unfold node_run, pin. erewrite bind_Ok by reflexivity. rewrite (ln_mode _ _ _ Hl).
  destruct (_ || _); [|exists n; split_and!; [by destruct n|done|by eapply repinned_refl]].
  assert (0 <= default 0 (sync_pinned (n_sync n) !! hash) < 2 ^ 32 - 1) as Hr.
  { destruct (sync_pinned (n_sync n) !! hash) as [r|] eqn:Hp; simpl; [|lia]. specialize (Hs r eq_refl).
    pose proof (ln_pins _ _ _ Hl hash r Hp). simpl in *. lia. }
  assert (exists ov, (if default 0 (sync_pinned (n_sync n) !! hash) =? 0 then on_overlay (overlay_pin hash) else mret tt) (n_sync n) =
    (mkStateDb (mode (n_sync n)) ov (pruning (n_sync n)) (sync_pinned (n_sync n)), Ok tt : res PinError unit) /\ overlay_inv content ov /\
    kept (non_canonical (n_sync n)) ov) as (ov & Hrun & Hinv & Hkept).
  { destruct (_ =? 0).
    - destruct (overlay_pin_run (E := PinError) content _ hash (ln_overlay _ _ _ Hl) Ho) as (ov & Hrun & Hinv & Hkept).
      exists ov. split_and!; try done. unfold on_overlay. by rewrite Hrun.
    - exists (non_canonical (n_sync n)). split_and!; [by destruct n as [[] ? ?]|apply Hl|apply kept_refl]. }
  rewrite (bind_Ok _ _ _ _ _ Hrun), uadd_ok by (unfold is_u; lia). erewrite bind_Ok by reflexivity.
  eexists. split; [reflexivity|]. split; [|by eexists _, _]. apply linked_kept; [done|done|done|]. apply map_Forall_insert_2; [lia|apply Hl].
Qed.

Lemma step_unpin n w h hash : linked n w h -> exists n', node_exec (UnpinBlock hash) n = Ok n' /\ linked n' w h /\ repinned n n'.
Proof.
  intros Hl. simpl. unfold node_run, unpin. erewrite bind_Ok by reflexivity.
  destruct (sync_pinned (n_sync n) !! hash) as [r|] eqn:Hp.
  - pose proof (ln_pins _ _ _ Hl hash r Hp) as Hr. simpl in Hr. rewrite usub_ok by (unfold is_u; lia). erewrite bind_Ok by reflexivity.
    destruct (Z.eqb_spec (r - 1) 0).
    + erewrite bind_Ok by reflexivity.
      destruct (overlay_unpin_run (E := NodeE) content _ hash (ln_overlay _ _ _ Hl)) as (ov & Hrun & Hinv & Hkept).
      unfold on_overlay. simpl. rewrite Hrun. eexists. split; [reflexivity|]. split; [|by eexists _, _].
      apply linked_kept; [done|done|done|]. apply map_Forall_delete, Hl.
    + eexists. split; [reflexivity|]. split; [apply linked_kept; [done|apply Hl|apply kept_refl|]; apply map_Forall_insert_2; [lia|apply Hl]|].
      eexists _, _. split_and!; [apply Hl|apply kept_refl|reflexivity].
  - exists n. split_and!; [by destruct n|done|by eapply repinned_refl].
Qed.

End node.
