(* ===== verification/SyncRecovery.v ===== *)
(** * What the state database promises

    The journals follow the overlay and the pruning window through every
    operation, so that the state database can be given up at any moment and read
    back from disk; and through any sequence of operations and restarts the
    state of every block of the overlay and of the window is found. *)

From Stdlib Require Import ZArith Lia.
From stdpp Require Import gmap fin_maps fin_sets option list.
From S2P Require Import Prelude StateDb PruningSpec NonCanonical NonCanonicalSpec NonCanonicalInv OverlayJournal StateDbSync SyncSpec.

Local Open Scope Z_scope.
Local Open Scope rust_scope.

Section recovery.
Context {OC : OverflowChecks} {H Key : Type} `{Countable H} `{Countable Key}.
Context `{Codec unit} `{Codec Z} `{Codec (H * Z)} `{Codec (Z * Z)}.
Context `{Codec (JournalRecord H Key)} `{Codec (OverlayRecord H Key)}.
Context (content : Key -> bytes) (st : H -> gset Key) (root : H) (constraints : Constraints).
Context `{!CodecLaws Z (is_u 64)} `{!CodecLaws (JournalRecord H Key) (fun _ => True)} `{!KeyCodec} `{!PairCodec}.
Context `{!CodecLaws (Z * Z) (fun e => e.1 ∈u 64 /\ e.2 ∈u 64)} `{!CodecLaws (OverlayRecord H Key) (fun _ => True)}.
Context `{!CodecLaws (H * Z) (fun e => e.2 ∈u 64)}.
Abbreviation O := (NonCanonicalOverlay H Key).
Abbreviation Overlay := (BlockOverlay H Key).
Abbreviation inv := (overlay_inv content).
Abbreviation linked := (linked content st root constraints).
Abbreviation anchor := (anchor root).
Abbreviation overlay_of n := (non_canonical (n_sync n)).
Implicit Types n : Node H Key.
Implicit Types s : O.

(** The levels of an overlay. *)
Abbreviation tree s := (blocks <$> levels s).

(** The mode in the metadata, if there is one, is that of the node. *)
Definition mode_recorded (m : gmap bytes bytes) : Prop :=
  forall v, m !! to_meta_key PRUNING_MODE tt = Some v -> v = mode_id (Constrained constraints).

(** [s0] is the overlay at the end of the last transaction: its journal is on
    disk, the open transaction has inserted blocks on top of it, and what the
    transaction will leave is in the journal of the transaction. *)
Record backed n s0 : Prop := {
  bk_inv : inv s0;
  bk_rooted : rooted (parent_of s0) [anchor s0] (tree s0);
  bk_last : last_canonicalized s0 = last_canonicalized (overlay_of n);
  bk_parents : Forall (fun o => parents (overlay_of n) !! ov_hash o = parents s0 !! ov_hash o) (all_blocks s0);
  bk_grown : grown (tree s0) (pending_insertions (overlay_of n)) (tree (overlay_of n));
  bk_keyed : keyed (front_of (overlay_of n)) (tree (overlay_of n));
  bk_disk : journaled content (db_meta (n_disk n)) (last_canonicalized s0) (parent_of s0) (tree s0);
  bk_tx : journaled content (db_meta (n_tx n))
            (advance (last_canonicalized (overlay_of n)) (pending_canonicalizations (overlay_of n))) (parent_of (overlay_of n))
            (settled (parent_of (overlay_of n)) (pending_canonicalizations (overlay_of n)) (tree (overlay_of n)));
  bk_mode_disk : mode_recorded (db_meta (n_disk n));
  bk_mode_tx : mode_recorded (db_meta (n_tx n)) }.

Lemma first_number_advance (last : option (H * Z)) hs : first_number (advance last hs) = first_number last + Z.of_nat (length hs).
Proof.
  unfold advance. destruct (list.last hs) as [h|] eqn:Hl.
  - destruct last as [[h' n]|]; simpl; lia.
  - apply list.last_None in Hl as ->. simpl. lia.
Qed.

Lemma level_indices s i : inv s -> NoDup (ov_journal_index <$> level_at (tree s) i).
Proof.
  intros Hinv. unfold level_at. rewrite list_lookup_fmap. destruct (levels s !! i) as [l|] eqn:Hl; simpl; [|constructor].
  apply (ok_nodup l). eapply Forall_lookup_1; [apply (oi_levels _ _ Hinv)|done].
Qed.

Lemma all_hashes s : inv s -> NoDup (ov_hash <$> concat (tree s)).
Proof. intros Hinv. apply (holds_nodup _ _ _ (oi_holds _ _ Hinv)). Qed.

Lemma numbered_front s : inv s -> 0 <= front_of s /\ front_of s + Z.of_nat (length (levels s)) < 2 ^ 64 - 1.
Proof. intros Hinv. pose proof (oi_numbered _ _ Hinv) as Hn. unfold numbered, front_of in *. destruct (last_canonicalized s) as [[h n]|]; lia. Qed.

Lemma parent_of_agree s s' (os : list Overlay) : Forall (fun o => parents s' !! ov_hash o = parents s !! ov_hash o) os ->
  forall o, o ∈ os -> parent_of s (ov_hash o) = parent_of s' (ov_hash o).
Proof. rewrite Forall_forall. intros Hp o Ho. unfold parent_of. by rewrite Hp. Qed.

(** *** Between transactions

    An overlay without pending operations, with its journal on disk. *)
Lemma backed_settled n : inv (overlay_of n) -> rooted (parent_of (overlay_of n)) [anchor (overlay_of n)] (tree (overlay_of n)) ->
  pending_canonicalizations (overlay_of n) = [] -> pending_insertions (overlay_of n) = [] -> n_tx n = n_disk n ->
  journaled content (db_meta (n_disk n)) (last_canonicalized (overlay_of n)) (parent_of (overlay_of n)) (tree (overlay_of n)) ->
  mode_recorded (db_meta (n_disk n)) -> backed n (overlay_of n).
Proof.
  intros Hinv Hr Hc Hi Htx Hj Hm. constructor; try done.
  - by apply Forall_forall.
  - rewrite Hi. constructor.
  - eapply keyed_records; [apply (jr_records _ _ _ _ _ Hj)|]. intros i. by apply level_indices.
  - by rewrite Hc, Htx.
  - by rewrite Htx.
Qed.

Lemma backed_fresh data : backed (mkNode (mkStateDb (Constrained constraints) (empty_overlay None) (Some (mkWindow [] ∅ 0 0 0 true)) ∅)
  (mkDb data ∅) (mkDb data ∅)) (empty_overlay None).
Proof.
  apply backed_settled; simpl; try done.
  - by apply (overlay_inv_new content None).
  - constructor; [done|]. constructor; simpl; [by intros i o ?%not_elem_of_nil..|]. intros. apply lookup_empty.
Qed.

(** *** Insertion *)
Lemma tree_push s s' front hash number parent_hash changes c0 c i ov : inserted_one front s hash number parent_hash changes c0 c s' i ov ->
  tree s' = push_at i ov (tree s) /\ (i <= length (tree s))%nat.
Proof.
  intros Hone. rewrite (io_levels _ _ _ _ _ _ _ _ _ _ _ Hone). unfold push_at. rewrite length_fmap. split; [done|]. apply Hone.
Qed.

(** The record in the commit is that of the block. *)
Lemma inserted_record s s' front hash number parent_hash changes c i ov : insertable content s hash number changes ->
  inserted_one front s hash number parent_hash changes dflt c s' i ov ->
  inserted (commit_meta c) = [(ov_journal_key ov, encode (recorded content (parent_of s') ov))] /\ deleted (commit_meta c) = [].
Proof.
  intros (_ & _ & Hc & _) [Hh Hi Hd _ _ _ _ _ _ Hpar _ _ ->]. simpl. split; [|done]. do 2 f_equal. unfold recorded.
  assert (parent_of s' (ov_hash ov) = parent_hash) as -> by (unfold parent_of; by rewrite Hpar, Hh, lookup_insert_eq).
  rewrite Hh, Hi, Hd, <-list_fmap_compose. do 2 f_equal. clear -Hc. induction Hc as [|[k v] ins Hx Hins IH]; [done|]. simpl in Hx. rewrite fmap_cons, <-IH. by rewrite Hx.
Qed.

Lemma mode_entry_lookup number m x : (forall e, e ∈ mode_entry constraints number -> x <> e.1) ->
  put (mode_entry constraints number) m !! x = m !! x.
Proof.
  unfold mode_entry. destruct (number =? 0); [|done]. intros Hx. apply lookup_insert_ne. intros <-. by eapply Hx; [left|].
Qed.

Lemma overlay_key_mode k : overlay_key k -> k <> to_meta_key PRUNING_MODE tt.
Proof.
  unfold overlay_key, to_overlay_key, to_meta_key. intros [->|(n & i & Hn & Hi & ->)] Heq%(f_equal length);
    rewrite !length_app, !encode_unit in Heq; [done|]. rewrite encode_pair_length in Heq by done. done.
Qed.

Section insertion.
Context (n : Node H Key) (s0 : O) (w : RefWindow H Key) (h : Hist H Key).
Context (hash : H) (number : Z) (parent_hash : H) (changes : ChangeSet Key) (s' : O) (c : CommitSet Key) (i : nat) (ov : Overlay).
Context (Hl : linked n w h) (Hb : backed n s0) (Ha : insert_allowed content st root n hash number parent_hash changes).
Context (Hinv : inv s') (Hone : inserted_one (front_of (overlay_of n)) (overlay_of n) hash number parent_hash changes dflt c s' i ov).
Context (Hlast : last_canonicalized s' = last_canonicalized (overlay_of n)).
Context (Hsome : forall a b, last_canonicalized (overlay_of n) = Some (a, b) -> adjacent (overlay_of n) number /\ (number = b + 1 -> parent_hash = a)).
Abbreviation o := (overlay_of n).

Lemma new_hash o' : o' ∈ concat (tree o) -> ov_hash o' <> hash.
Proof. destruct Ha as ((Hfresh & _) & _). intros Ho' <-. by apply Hfresh, list_elem_of_fmap_2. Qed.

Lemma old_parents o' : o' ∈ concat (tree o) -> parent_of o (ov_hash o') = parent_of s' (ov_hash o').
Proof.
  intros Ho'%new_hash. unfold parent_of. rewrite (io_parents _ _ _ _ _ _ _ _ _ _ _ Hone). by rewrite lookup_insert_ne.
Qed.

Lemma new_parent : parent_of s' (ov_hash ov) = parent_hash.
Proof. unfold parent_of. rewrite (io_parents _ _ _ _ _ _ _ _ _ _ _ Hone), (io_hash _ _ _ _ _ _ _ _ _ _ _ Hone). by rewrite lookup_insert_eq. Qed.

(** The place of the block, with the pending canonicalizations applied. *)
Lemma settled_insert : (length (pending_canonicalizations o) <= i)%nat /\
  settled (parent_of s') (pending_canonicalizations o) (tree s') =
    push_at (i - length (pending_canonicalizations o)) ov (settled (parent_of o) (pending_canonicalizations o) (tree o)).
Proof.
  destruct (tree_push _ _ _ _ _ _ _ _ _ _ _ Hone) as [Htree Hi]. pose proof Ha as (_ & Hplace & _).
  destruct (insert_parent root o s' hash number parent_hash changes dflt c i ov Hplace Hone Hsome) as [Hnum _].
  destruct Hplace as (_ & _ & Hpend). set (hs := pending_canonicalizations o) in *.
  assert (length hs <= i)%nat as Hle.
  { destruct (list.last hs) as [h'|] eqn:Hlh; [|apply list.last_None in Hlh as ->; simpl; lia]. destruct Hpend as [? _]. lia. }
  split; [done|]. rewrite Htree. apply settled_push.
  - rewrite <-Htree, <-(io_pending _ _ _ _ _ _ _ _ _ _ _ Hone : _ = hs). apply Hinv.
  - rewrite <-(concat_push_at i ov (tree o) Hi), <-Htree. by apply all_hashes.
  - apply old_parents.
  - done.
  - rewrite new_parent. destruct (list.last hs) as [h'|]; [|done]. destruct Hpend as (_ & Hat & Habove).
    destruct (i - length hs)%nat as [|j] eqn:Hj; [apply Hat; lia|]. replace j with (Z.to_nat (number - (front_of o + Z.of_nat (length hs)) - 1)) by lia.
    apply Habove. lia.
Qed.

(** The journal of the transaction after the insertion. *)
Lemma journal_insert : journaled content (db_meta (apply_state_commit (n_tx n) (with_mode constraints number c)))
  (advance (last_canonicalized s') (pending_canonicalizations s')) (parent_of s')
  (settled (parent_of s') (pending_canonicalizations s') (tree s')).
Proof.
  destruct settled_insert as [Hle Hset]. destruct (tree_push _ _ _ _ _ _ _ _ _ _ _ Hone) as [Htree Hi]. pose proof Ha as (Hins & Hplace & _).
  destruct (insert_parent root o s' hash number parent_hash changes dflt c i ov Hplace Hone Hsome) as [Hnum _].
  destruct (inserted_record _ _ _ _ _ _ _ _ _ _ Hins Hone) as [Hrec Hdel].
  rewrite (io_pending _ _ _ _ _ _ _ _ _ _ _ Hone), Hlast, Hset. destruct (bk_tx _ _ Hb) as [Hjl Hjr].
  pose proof (numbered_front _ (ln_overlay _ _ _ _ _ _ _ Hl)) as [Hf Hn]. destruct Hins as (_ & _ & _ & _ & _ & Hnumber).
  assert (first_number (advance (last_canonicalized o) (pending_canonicalizations o)) + Z.of_nat (i - length (pending_canonicalizations o)) = number) as Hfirst.
  { rewrite first_number_advance, Hnum. unfold front_of, first_number. lia. }
  assert (db_meta (apply_state_commit (n_tx n) (with_mode constraints number c)) =
    put (mode_entry constraints number) (<[ov_journal_key ov := encode (recorded content (parent_of s') ov)]> (db_meta (n_tx n)))) as ->.
  { simpl. rewrite Hrec, Hdel. unfold apply_changes. simpl. done. }
  eapply journaled_foreign.
  { intros k Hk. apply mode_entry_lookup. unfold mode_entry. destruct (number =? 0); [|by intros e ?%not_elem_of_nil].
    intros e ->%list_elem_of_singleton. by apply overlay_key_mode. }
  constructor.
  - rewrite lookup_insert_ne; [done|]. rewrite (io_key _ _ _ _ _ _ _ _ _ _ _ Hone). pose proof (io_range _ _ _ _ _ _ _ _ _ _ _ Hone).
    apply last_canonical_key; unfold is_u, MAX_BLOCKS_PER_LEVEL in *; lia.
  - apply (records_insert content _ _ (parent_of o)); try done.
    + rewrite settled_length; [lia|]. apply (chained_length _ _ _ (oi_chain _ _ (ln_overlay _ _ _ _ _ _ _ Hl))).
    + rewrite Hfirst. unfold is_u. lia.
    + apply Hone.
    + intros (o' & Heq & Ho')%list_elem_of_fmap. apply level_at_settled in Ho'. rewrite Nat.add_comm, Nat.sub_add in Ho' by done.
      apply (io_fresh _ _ _ _ _ _ _ _ _ _ _ Hone). rewrite Heq. by apply list_elem_of_fmap_2.
    + rewrite Hfirst. apply Hone.
    + intros o' Ho'. apply old_parents. by eapply settled_sub.
Qed.

Lemma backed_insert : backed (with_overlay n s' (apply_state_commit (n_tx n) (with_mode constraints number c))) s0.
Proof.
  destruct (tree_push _ _ _ _ _ _ _ _ _ _ _ Hone) as [Htree Hi]. pose proof Ha as (Hins & Hplace & _).
  destruct (insert_parent root o s' hash number parent_hash changes dflt c i ov Hplace Hone Hsome) as [Hnum Hp].
  destruct (inserted_record _ _ _ _ _ _ _ _ _ _ Hins Hone) as [Hrec Hdel]. destruct Hins as (_ & _ & _ & _ & _ & Hnumber).
  assert (front_of s' = front_of o) as Hfront by (unfold front_of; by rewrite Hlast).
  pose proof journal_insert as Hjournal. pose proof Hb as [? ? Hbl Hbp Hg Hk ? ? ? Hmode]. constructor; simpl; try done.
  - by rewrite Hlast.
  - rewrite Forall_forall in *. intros o' Ho'. rewrite <-(Hbp o' Ho'), (io_parents _ _ _ _ _ _ _ _ _ _ _ Hone).
    apply lookup_insert_ne. apply not_eq_sym, new_hash. by eapply grown_elem.
  - rewrite (io_insertions _ _ _ _ _ _ _ _ _ _ _ Hone), Htree, <-(io_hash _ _ _ _ _ _ _ _ _ _ _ Hone). constructor; [done|done|].
    eapply (rooted_parent (parent_of s')) with (o := ov); [|done|].
    + eapply rooted_ext; [|apply (ln_rooted _ _ _ _ _ _ _ Hl)]. apply old_parents.
    + rewrite new_parent. by destruct i.
  - rewrite Hfront, Htree. rewrite Hnum in Hnumber. apply keyed_push; [done|done|unfold is_u; lia|apply Hone|apply Hone|]. rewrite <-Hnum. apply Hone.
  - intros v. rewrite Hrec, Hdel. unfold apply_changes. simpl. unfold mode_entry. destruct (number =? 0); simpl.
    + rewrite lookup_insert_eq. congruence.
    + rewrite lookup_insert_ne; [apply Hmode|]. apply overlay_key_mode. eapply inserted_one_key; [|exact Hone]. lia.
Qed.
End insertion.

(** *** Canonicalization *)
Lemma backed_canonicalize n s0 w h hash l ds tx' w' pins : linked n w h -> backed n s0 ->
  let hs := pending_canonicalizations (overlay_of n) in let ov' := set_canonicalizations (hs ++ [hash]) (overlay_of n) in
  inv ov' -> levels (overlay_of n) !! length hs = Some l ->
  ds ≡ₚ blocks l ++ descendants (parent_of (overlay_of n)) (siblings hash (blocks l)) (blocks <$> drop (S (length hs)) (levels (overlay_of n))) ->
  (forall x, foreign x -> db_meta tx' !! x =
    apply_changes (mkChangeSet [(to_meta_key LAST_CANONICAL tt, encode (hash, front_of (overlay_of n) + Z.of_nat (length hs)))] (ov_journal_key <$> ds))
      (db_meta (n_tx n)) !! x) ->
  backed (mkNode (mkStateDb (Constrained constraints) ov' (Some w') pins) (n_disk n) tx') s0.
Proof.
  intros Hl Hb hs ov' Hinv Hlv Hds Hmeta. pose proof Hb as [? ? ? ? ? Hk ? [Hjl Hjr] ? Hmode].
  assert (forall x, x ∈ ov_journal_key <$> ds -> exists a b, a ∈u 64 /\ 0 <= b < MAX_BLOCKS_PER_LEVEL /\ x = to_overlay_key a b) as Hkeys.
  { intros x (o & -> & Ho)%list_elem_of_fmap. assert (o ∈ concat (tree (overlay_of n))) as Hin.
    { fold (all_blocks (overlay_of n)). rewrite (all_blocks_at _ _ _ Hlv). rewrite Hds in Ho. apply elem_of_app in Ho as [?|Ho]; [set_solver|].
      do 2 (apply elem_of_app; right). rewrite (keep_descendants (parent_of (overlay_of n)) (siblings hash (blocks l))). set_solver. }
    apply elem_of_concat_level in Hin as [i Hi]. destruct (Hk i) as [_ Hki]. destruct (Hki o Hi) as (-> & ? & ?). eauto. }
  assert (forall a b, a ∈u 64 -> 0 <= b < MAX_BLOCKS_PER_LEVEL -> b ∈u 64) as Hidx by (unfold is_u, MAX_BLOCKS_PER_LEVEL; intros; lia).
  assert (forall x, foreign x -> x <> to_meta_key LAST_CANONICAL tt ->
    db_meta tx' !! x = if decide (x ∈ ov_journal_key <$> ds) then None else db_meta (n_tx n) !! x) as Hmeta'.
  { intros x Hx Hne. rewrite (Hmeta x Hx), apply_changes_eq, drops_lookup. simpl. by rewrite lookup_insert_ne. }
  assert (forall a b, a ∈u 64 -> 0 <= b < MAX_BLOCKS_PER_LEVEL -> overlay_key (to_overlay_key a b)) as Hok by (intros a b ??; right; exists a, b; eauto).
  constructor; simpl; try done.
  - constructor.
    + rewrite (Hmeta _ (overlay_key_foreign _ (or_introl eq_refl))), apply_changes_eq, drops_lookup, decide_False; simpl.
      * rewrite lookup_insert_eq. unfold advance. rewrite list.last_snoc, length_app. simpl. do 3 f_equal.
        unfold front_of. destruct (last_canonicalized (overlay_of n)) as [[? ?]|]; fold hs; lia.
      * intros (a & b & Ha & Hb' & Heq)%Hkeys. symmetry in Heq. revert Heq. apply last_canonical_key; eauto.
    + rewrite first_number_advance in Hjr |- *. rewrite length_app, Nat2Z.inj_add. simpl. rewrite Z.add_assoc.
      apply (records_canonicalize content (db_meta (n_tx n)) (db_meta tx') _ _ hs hash _ ds); try done.
      * apply Hinv.
      * apply all_hashes, Hl.
      * rewrite Hds. unfold level_at. fold hs. rewrite list_lookup_fmap, Hlv, <-fmap_drop. done.
      * intros x Hx. destruct (Hkeys x Hx) as (a & b & Ha & Hb' & ->). rewrite Hmeta', decide_True; [done|done|by apply overlay_key_foreign, Hok|].
        apply last_canonical_key; eauto.
      * intros a b Ha Hb' Hnot. rewrite Hmeta', decide_False; [done|done|by apply overlay_key_foreign, Hok|]. apply last_canonical_key; eauto.
  - intros v. rewrite Hmeta' by (apply mode_key_foreign || (apply not_eq_sym, overlay_key_mode; by left)). case_decide; [done|apply Hmode].
Qed.

(** *** The end of a transaction *)
Lemma backed_commit n s0 w h ov' w' h' : linked n w h -> backed n s0 ->
  let n' := mkNode (mkStateDb (mode (n_sync n)) ov' (Some w') (sync_pinned (n_sync n))) (n_tx n) (n_tx n) in
  linked n' w' h' ->
  tree ov' = settled (parent_of (overlay_of n)) (pending_canonicalizations (overlay_of n)) (tree (overlay_of n)) ->
  last_canonicalized ov' = advance (last_canonicalized (overlay_of n)) (pending_canonicalizations (overlay_of n)) ->
  pending_canonicalizations ov' = [] -> pending_insertions ov' = [] ->
  Forall (fun o => parents ov' !! ov_hash o = parents (overlay_of n) !! ov_hash o) (all_blocks ov') -> backed n' ov'.
Proof.
  intros Hl Hb n' Hl' Htree Hlast Hc Hi Hpar. apply (backed_settled n'); simpl; try done; [apply Hl'|apply (ln_rooted _ _ _ _ _ _ _ Hl')| |apply Hb].
  rewrite Hlast. eapply journaled_ext; [by rewrite Htree| |apply (bk_tx _ _ Hb)]. rewrite <-Htree. by apply parent_of_agree.
Qed.

(** A transaction can be given up if it has inserted no block, or if no level is
    empty. *)
Definition abort_allowed n : Prop :=
  pending_insertions (overlay_of n) = [] \/ Forall (fun bs => bs <> []) (tree (overlay_of n)).

Lemma abort_revertible n s0 : backed n s0 -> abort_allowed n ->
  exists Q, revertible Q (reverse (pending_insertions (overlay_of n))) (tree (overlay_of n)) /\ forall ls, Q ls -> trim ls = trim (tree s0).
Proof.
  intros Hb. pose proof (rooted_dense _ _ _ (bk_rooted _ _ Hb)) as Hd. pose proof (bk_grown _ _ Hb) as Hg. intros [Hnil|Hne].
  - rewrite Hnil in *. apply grown_nil_inv in Hg as Hls. exists (fun ls => ls = tree s0). split; [done|]. by intros ls ->.
  - destruct (grown_revertible _ _ _ Hg Hd) as [_ Hr]. rewrite (trim_dense (tree (overlay_of n))) in Hr by done.
    eexists. split; [exact Hr|]. intros ls ->. by apply trim_dense.
Qed.

Lemma step_abort_backed n s0 w h : linked n w h -> backed n s0 -> abort_allowed n ->
  exists n' w' h', node_exec AbortTx n = Ok n' /\ linked n' w' h' /\ exists s1, backed n' s1.
Proof.
  intros Hl Hb Ha. destruct (abort_revertible n s0 Hb Ha) as (Q & Hrev & HQ).
  assert (forall o, o ∈ concat (tree s0) -> parent_of s0 (ov_hash o) = parent_of (overlay_of n) (ov_hash o)) as Hpar by apply parent_of_agree, Hb.
  assert (anchor s0 = anchor (overlay_of n)) as Hanc by (unfold SyncSpec.anchor; by rewrite (bk_last _ _ Hb)).
  destruct (step_abort content st root constraints Q n w h Hl Hrev) as (ov' & w' & h' & Hrun & Hl' & HQ' & Hlast & Hc & Hi & Hpar').
  { intros ls Hls%HQ. apply rooted_trim. rewrite Hls. apply rooted_trim. rewrite <-Hanc. eapply rooted_ext; [apply Hpar|apply Hb]. }
  apply HQ in HQ'. eexists _, w', h'. split; [exact Hrun|]. split; [exact Hl'|]. exists ov'.
  apply backed_settled; simpl; try done; [apply Hl'|apply (ln_rooted _ _ _ _ _ _ _ Hl')| |apply Hb].
  rewrite Hlast, <-(bk_last _ _ Hb). eapply journaled_ext; [| |apply (bk_disk _ _ Hb)].
  - intros i o. by rewrite <-(level_at_trim (tree ov')), HQ', level_at_trim.
  - intros o Ho. rewrite Hpar by done. apply (parent_of_agree _ _ _ Hpar'). unfold all_blocks. by rewrite <-concat_trim, HQ', concat_trim.
Qed.

(** *** Pins *)
Lemma backed_pinned n n' s0 : backed n s0 -> repinned content n n' -> backed n' s0.
Proof.
  intros [? ? Hlast Hpar Hg Hk ? Htx ? ?] (ov & pins & Hinv & [Kl Klv Kc Ki Kp] & ->).
  assert (forall o, o ∈ concat (tree (overlay_of n)) -> parent_of (overlay_of n) (ov_hash o) = parent_of ov (ov_hash o)) as Hp by (by apply parent_of_agree).
  constructor; simpl; try done; rewrite ?Kl, ?Klv, ?Kc, ?Ki; try done.
  - rewrite Forall_forall in *. intros o Ho. rewrite Kp; [by apply Hpar|]. by eapply grown_elem.
  - unfold front_of in *. by rewrite Kl.
  - rewrite <-(settled_parents _ _ _ _ Hp). eapply journaled_ext; [done| |exact Htx]. intros o Ho. apply Hp. by eapply settled_sub.
Qed.

(** *** Restarts *)

(** [StateDbSync::new] is implemented without a limit on memory, and reads the
    overlay only if there is a canonical block. *)
Definition restart_allowed n : Prop :=
  max_mem constraints = None /\
  (is_Some (db_meta (n_disk n) !! to_meta_key LAST_CANONICAL tt) \/ db_meta (n_disk n) = ∅).

Lemma backed_recoverable n s0 : backed n s0 ->
  is_Some (db_meta (n_disk n) !! to_meta_key LAST_CANONICAL tt) \/ db_meta (n_disk n) = ∅ -> recoverable (last_canonicalized s0) (tree s0).
Proof.
  intros Hb Hd. pose proof (bk_inv _ _ Hb) as Hinv. pose proof (bk_disk _ _ Hb) as [Hjl Hjr]. pose proof (oi_holds _ _ Hinv) as Hh.
  pose proof (numbered_front _ Hinv) as [Hf Hn]. constructor.
  - destruct Hd as [Hd|Hd]; [left|right].
    + rewrite Hjl in Hd. by destruct (last_canonicalized s0), Hd.
    + destruct (concat (tree s0)) as [|o os] eqn:Ho; [done|]. assert (o ∈ concat (tree s0)) as Hin by (rewrite Ho; by left).
      apply elem_of_concat_level in Hin as [i Hi]. pose proof (rc_found _ _ _ _ _ Hjr i o Hi) as Hm. by rewrite Hd, lookup_empty in Hm.
  - by eapply rooted_dense, (bk_rooted _ _ Hb).
  - done.
  - by rewrite length_fmap.
  - by apply all_hashes.
  - intros i. by apply level_indices.
  - pose proof (holds_small _ _ _ Hh) as Hs. rewrite length_app in Hs. unfold all_blocks in Hs. lia.
  - apply (holds_blocks _ _ _ Hh).
Qed.

(** The overlay that is read back has the blocks that are on disk. *)
Record restored s0 s1 : Prop := {
  rs_inv : inv s1;
  rs_last : last_canonicalized s1 = last_canonicalized s0;
  rs_levels : Forall2 (≡ₚ) (trim (tree s0)) (tree s1);
  rs_parents o : o ∈ all_blocks s0 -> parent_of s0 (ov_hash o) = parent_of s1 (ov_hash o);
  rs_pending : pending_canonicalizations s1 = [];
  rs_insertions : pending_insertions s1 = [] }.

Lemma restored_level s0 s1 i o : restored s0 s1 -> o ∈ level_at (tree s1) i <-> o ∈ level_at (tree s0) i.
Proof.
  intros Hr. rewrite <-(level_at_trim (tree s0)). pose proof (rs_levels _ _ Hr) as Hlv. unfold level_at.
  destruct (trim (tree s0) !! i) as [bs|] eqn:Hb.
  - destruct (Forall2_lookup_l _ _ _ _ _ Hlv Hb) as (bs' & -> & Hp). simpl. by rewrite Hp.
  - destruct (tree s1 !! i) as [bs'|] eqn:Hb'; [|done]. destruct (Forall2_lookup_r _ _ _ _ _ Hlv Hb') as (bs & Hb2 & _). congruence.
Qed.

Lemma concat_levels (ls ls' : list (list Overlay)) : Forall2 (≡ₚ) ls ls' -> concat ls ≡ₚ concat ls'.
Proof. induction 1 as [|bs bs' ls ls' Hb _ IH]; [done|]. simpl. by rewrite Hb, IH. Qed.

Lemma restored_blocks s0 s1 : restored s0 s1 -> all_blocks s1 ≡ₚ all_blocks s0.
Proof.
  intros Hr. unfold all_blocks. by rewrite <-(concat_trim (tree s0)), (concat_levels _ _ (rs_levels _ _ Hr)).
Qed.

Lemma restart_overlay n s0 : backed n s0 -> restart_allowed n ->
  exists s1, NonCanonicalOverlay_new (DbError := Empty_set) (S (size (db_meta (n_disk n)))) (meta_of (n_disk n)) = Ok s1 /\ restored s0 s1.
Proof.
  intros Hb [_ Hd]. pose proof (bk_inv _ _ Hb) as Hinv.
  destruct (overlay_new_run (E := Empty_set) content _ _ _ _ (bk_disk _ _ Hb) (backed_recoverable n s0 Hb Hd))
    as (s1 & Hrun & Hinv1 & Hlast & Hlv & Hk & Hc & Hi & _).
  { intros h k Hlast. pose proof (oi_numbered _ _ Hinv) as Hn. unfold numbered in Hn. rewrite Hlast in Hn. lia. }
  exists s1. split; [done|].
  assert (all_blocks s1 ≡ₚ all_blocks s0) as Hall.
  { unfold all_blocks. by rewrite <-(concat_trim (tree s0)), (concat_levels _ _ Hlv). }
  constructor; try done. intros o Ho. unfold known in Hk. rewrite Forall_forall in Hk. rewrite <-Hall in Ho. unfold parent_of at 2. by rewrite (Hk o Ho).
Qed.

Lemma check_meta_ok n : mode_recorded (db_meta (n_disk n)) ->
  check_meta (DbError := Empty_set) (Constrained constraints) (meta_of (n_disk n)) = Ok tt.
Proof.
  intros Hm. unfold check_meta, meta_of. cbn [map_err mbind res_mbind].
  destruct (db_meta (n_disk n) !! to_meta_key PRUNING_MODE tt) as [v|] eqn:Hv; [|done]. by rewrite bool_decide_eq_true_2 by auto.
Qed.

Lemma step_restart n s0 w h : linked n w h -> backed n s0 -> restart_allowed n ->
  exists s1 w', let n' := mkNode (mkStateDb (Constrained constraints) s1 (Some w') ∅) (n_disk n) (n_disk n) in
    node_exec RestartNode n = Ok n' /\ linked n' w' (track PruningSpec.Restart h) /\ backed n' s1 /\ restored s0 s1.
Proof.
  intros Hl Hb Ha. destruct (restart_overlay n s0 Hb Ha) as (s1 & Hov & Hres). pose proof Ha as [Hmm _].
  destruct (sim_restart content _ h (ln_sim _ _ _ _ _ _ _ Hl)) as (s' & Hperf & Hsim). simpl in Hperf.
  assert (count_insertions w = true) as Hcount by apply (imp_counting _ _ _ _ (sim_window _ _ _ (ln_sim _ _ _ _ _ _ _ Hl))). rewrite Hcount in Hperf.
  remember (S (size (db_meta (n_disk n)))) as fuel eqn:Hfuel.
  destruct (RefWindow_new fuel (meta_of (n_disk n)) true) as [w'|e|] eqn:Hw; [|done|done]. simpl in Hperf. injection Hperf as <-. exists s1, w'.
  assert (anchor s1 = anchor (overlay_of n)) as Hanc by (unfold SyncSpec.anchor; by rewrite (rs_last _ _ Hres), (bk_last _ _ Hb)).
  assert (anchor s0 = anchor s1) as Hanc0 by (unfold SyncSpec.anchor; by rewrite (rs_last _ _ Hres)).
  assert (rooted (parent_of s1) [anchor s1] (tree s1)) as Hroot.
  { apply (rooted_perm _ [anchor s0] _ (trim (tree s0))); [by rewrite Hanc0|apply Hres|]. apply rooted_trim.
    eapply rooted_ext; [|apply (bk_rooted _ _ Hb)]. apply Hres. }
  split; [|split; [|split]].
  - cbn [node_exec]. rewrite <-Hfuel. unfold StateDbSync_new. rewrite (ln_mode _ _ _ _ _ _ _ Hl), (check_meta_ok n) by apply Hb.
    cbn [mbind res_mbind]. rewrite Hov. cbn [mbind res_mbind]. destruct constraints as [mb [mm|]]; [done|]. by rewrite Hw.
  - constructor; simpl; try done; [apply Hres| | | | |].
    + by rewrite (rs_pending _ _ Hres), Nat.sub_0_r, drop_all.
    + rewrite (restored_blocks _ _ Hres). apply Forall_forall. intros o Ho. apply (good_ext st (parent_of (overlay_of n))).
      * rewrite <-(rs_parents _ _ Hres o Ho). symmetry. by apply (parent_of_agree s0 _ _ (bk_parents _ _ Hb)).
      * pose proof (ln_good _ _ _ _ _ _ _ Hl) as Hg. rewrite Forall_forall in Hg. apply Hg. eapply grown_elem; [apply (bk_grown _ _ Hb)|done].
    + unfold head. rewrite (rs_pending _ _ Hres). simpl. rewrite Hanc. apply (ln_anchor _ _ _ _ _ _ _ Hl).
    + rewrite Nat.sub_0_r, firstn_all, Hanc. apply (ln_anchor _ _ _ _ _ _ _ Hl).
    + intros i b [Hi Hlt]%lookup_take_Some. rewrite take_take, Nat.min_l by lia. by apply (ln_states _ _ _ _ _ _ _ Hl).
  - apply backed_settled; simpl; try done; [apply Hres|apply Hres|apply Hres| |apply Hb].
    rewrite (rs_last _ _ Hres). eapply journaled_ext; [| |apply (bk_disk _ _ Hb)].
    + intros i o. by apply restored_level.
    + apply Hres.
  - done.
Qed.

(** ** Reachable nodes *)
Definition node_allowed (op : NodeOp H Key) n : Prop :=
  match op with
  | InsertBlock hash number parent_hash changes => insert_allowed content st root n hash number parent_hash changes
  | CanonicalizeBlock hash => canonicalize_allowed n hash
  | AbortTx => abort_allowed n
  | PinBlock hash => pin_allowed n hash
  | RestartNode => restart_allowed n
  | CommitTx | UnpinBlock _ => True
  end.

Inductive node_reach (n0 : Node H Key) : Node H Key -> Prop :=
| node_refl : node_reach n0 n0
| node_step n op n' : node_reach n0 n -> node_allowed op n -> node_exec op n = Ok n' -> node_reach n0 n'.

Definition sound n : Prop := exists w h s0, linked n w h /\ backed n s0.

Context (Hmax : 0 <= default 0 (max_blocks constraints)) (Hmem : 0 <= default 0 (max_mem constraints)).

Lemma step_sound n op : sound n -> node_allowed op n -> exists n', node_exec op n = Ok n' /\ sound n'.
Proof.
  intros (w & h & s0 & Hl & Hb) Ha. destruct op as [hash number parent_hash changes|hash| | |hash|hash|].
  - destruct (exec_insert _ _ _ _ n w h hash number parent_hash changes Hl Ha) as [Hrun|(s' & c & i & ov & Hinv & Hone & Hlast & Hsome & Hrun)].
    { exists n. split; [done|]. by exists w, h, s0. }
    eexists. split; [exact Hrun|]. exists w, h, s0. split; [by eapply step_insert|by eapply backed_insert].
  - destruct (step_canonicalize _ _ _ _ Hmax Hmem n w h hash Hl Ha) as [Hrun|(w' & h' & l & ds & tx' & Hrun & Hl' & Hlv & Hds & Hmeta)].
    { exists n. split; [done|]. by exists w, h, s0. }
    eexists. split; [exact Hrun|]. exists w', h', s0. split; [done|]. eapply backed_canonicalize; try done. apply Hl'.
  - destruct (step_commit _ _ _ _ n w h Hl) as (ov' & w' & h' & Hrun & Hl' & Htree & Hlast & Hc & Hi & Hpar).
    eexists. split; [exact Hrun|]. exists w', h', ov'. split; [done|]. by eapply backed_commit.
  - destruct (step_abort_backed n s0 w h Hl Hb Ha) as (n' & w' & h' & Hrun & Hl' & s1 & Hb'). exists n'. split; [done|]. by exists w', h', s1.
  - destruct (step_pin _ _ _ _ n w h hash Hl Ha) as (n' & Hrun & Hl' & Hp). exists n'. split; [done|]. exists w, h, s0. split; [done|]. by eapply backed_pinned.
  - destruct (step_unpin _ _ _ _ n w h hash Hl) as (n' & Hrun & Hl' & Hp). exists n'. split; [done|]. exists w, h, s0. split; [done|]. by eapply backed_pinned.
  - destruct (step_restart n s0 w h Hl Hb Ha) as (s1 & w' & Hrun & Hl' & Hb' & _). eexists. split; [exact Hrun|]. by exists w', (track PruningSpec.Restart h), s1.
Qed.

(** The node that starts with a database of state nodes and no metadata. *)
Definition fresh_node (data : gmap Key bytes) : Node H Key :=
  mkNode (mkStateDb (Constrained constraints) (empty_overlay None) (Some (mkWindow [] ∅ 0 0 0 true)) ∅) (mkDb data ∅) (mkDb data ∅).

Lemma fresh_node_new data : max_mem constraints = None ->
  StateDbSync_new 1 (Constrained constraints) true (meta_of (DbError := Empty_set) (mkDb data ∅)) = Ok (n_sync (fresh_node data)).
Proof.
  intros Hm. assert (forall k, meta_of (DbError := Empty_set) (mkDb data ∅) k = Ok None) as Hnone by (intros; unfold meta_of; simpl; by rewrite lookup_empty).
  unfold StateDbSync_new, fresh_node. destruct constraints as [mb [m|]]; [done|].
  unfold check_meta, NonCanonicalOverlay_new, RefWindow_new, read_journal. by rewrite !Hnone.
Qed.

Lemma fresh_node_sound data : map_Forall (fun k v => v = content k) data -> dom data = st root ->
  sound (fresh_node data).
Proof.
  intros Hc Hst. exists (mkWindow [] ∅ 0 0 0 true), (start_hist data), (empty_overlay None). split; [|apply backed_fresh]. constructor; simpl; try done.
  - by apply (overlay_inv_new content None).
  - apply (start_sim content data Hc).
Qed.

Lemma reach_sound data n : map_Forall (fun k v => v = content k) data -> dom data = st root -> node_reach (fresh_node data) n -> sound n.
Proof.
  intros Hc Hst. induction 1 as [|n op n' _ Hs Ha Hrun]; [by apply fresh_node_sound|].
  destruct (step_sound n op Hs Ha) as (n1 & Hrun1 & Hs1). rewrite Hrun in Hrun1. by injection Hrun1 as ->.
Qed.

(** C3. The state database never loses a state it claims to have.  Start with an
    empty overlay and window, with pruning to a window, over a database that
    holds exactly the state of the root, and insert and canonicalize blocks, commit and give up transactions, pin and unpin blocks, with pruning
    after each canonicalization, and restart the node from its disk, as
    [node_allowed] admits: no operation panics, and after each of them every
    node of the state of each block in the overlay, and of each block in the
    pruning window, is found by [get], with its value, in the overlay or in the
    database on disk.  The conditions are:
    an inserted block is new (not in the overlay, nor kept there by a pin),
    its changes turn the state of its parent into its own, with values
    determined by their keys; it is placed on the last canonical block or on a
    block of the level below, the first of all has number 0, and while
    canonicalizations are pending it is on top of the last of them; there are
    fewer than 2^32 - 1 blocks and 2^32 keys, and numbers are below 2^64 - 2.
    While a canonicalization is pending, only a child of that block is
    canonicalized.  A transaction is given up only if it inserted no block or
    no level is empty.  A block is pinned fewer than 2^32 - 1 times.  The node
    is restarted only without a limit on memory (the code is unimplemented for
    one) and with a canonical block recorded on disk, or an empty disk.
    Outside them the code may panic or lose blocks (the examples below). *)
Theorem state_db_finds_states data n : map_Forall (fun k v => v = content k) data -> dom data = st root ->
  node_reach (fresh_node data) n ->
  (forall op, node_allowed op n -> exists n', node_exec op n = Ok n') /\
  (forall o k, o ∈ all_blocks (overlay_of n) -> k ∈ st (ov_hash o) -> found content n k) /\
  (forall w hash k, pruning (n_sync n) = Some w -> have_block w hash = true -> k ∈ st hash -> found content n k).
Proof.
  intros Hc Hst Hr. pose proof (reach_sound data n Hc Hst Hr) as Hs. split_and!.
  - intros op Ha. destruct (step_sound n op Hs Ha) as (n' & Hrun & _). eauto.
  - destruct Hs as (w & h & s0 & Hl & _). intros o k Ho Hk. by eapply found_levels.
  - destruct Hs as (w & h & s0 & Hl & _). intros w' hash k Hw Hh Hk. rewrite (ln_window _ _ _ _ _ _ _ Hl) in Hw. simplify_eq. by eapply found_window.
Qed.

Lemma window_hashes n w h : linked n w h -> row_hash <$> death_rows w = rec_hash <$> window h.
Proof.
  intros Hl. pose proof (sim_window _ _ _ (ln_sim _ _ _ _ _ _ _ Hl)) as Hw. simpl in Hw. apply list_eq. intros i. rewrite !list_lookup_fmap.
  destruct (death_rows w !! i) as [r|] eqn:Hr, (window h !! i) as [b|] eqn:Hb; simpl; try done.
  - by destruct (imp_row _ _ _ _ Hw i r b Hr Hb) as [-> _].
  - apply lookup_lt_Some in Hr. rewrite (imp_length _ _ _ _ Hw) in Hr. apply lookup_ge_None in Hb. lia.
  - apply lookup_lt_Some in Hb. rewrite <-(imp_length _ _ _ _ Hw) in Hb. apply lookup_ge_None in Hr. lia.
Qed.

(** C4. A restart between transactions loses no block, of a node reached as in
    C3 by operations that [node_allowed] admits, without a limit on memory, and
    with a canonical block recorded on disk or nothing at all
    ([restart_allowed]), when no insertion and no canonicalization is pending:
    the overlay read from the journal has the same last canonical block and the
    same blocks at the same numbers, with the same parents, and the pruning
    window the same blocks in the same order.  Without a canonical block on
    disk the journal is not read ([restart_without_canonical]), and a block
    inserted on a fork that is being discarded comes back
    ([restart_late_child]). *)
Theorem restart_restores_blocks data n : map_Forall (fun k v => v = content k) data -> dom data = st root ->
  node_reach (fresh_node data) n -> restart_allowed n ->
  pending_canonicalizations (overlay_of n) = [] -> pending_insertions (overlay_of n) = [] ->
  exists n', node_exec RestartNode n = Ok n' /\
    last_canonicalized (overlay_of n') = last_canonicalized (overlay_of n) /\
    (forall i o, o ∈ level_at (tree (overlay_of n')) i <-> o ∈ level_at (tree (overlay_of n)) i) /\
    (forall o, o ∈ all_blocks (overlay_of n) -> parent_of (overlay_of n') (ov_hash o) = parent_of (overlay_of n) (ov_hash o)) /\
    exists w w', pruning (n_sync n) = Some w /\ pruning (n_sync n') = Some w' /\ row_hash <$> death_rows w' = row_hash <$> death_rows w.
Proof.
  intros Hc Hst Hr Ha Hpc Hpi. destruct (reach_sound data n Hc Hst Hr) as (w & h & s0 & Hl & Hb).
  destruct (step_restart n s0 w h Hl Hb Ha) as (s1 & w' & Hrun & Hl' & _ & Hres). eexists. split; [exact Hrun|]. simpl.
  pose proof (bk_grown _ _ Hb) as Hg. rewrite Hpi in Hg. apply grown_nil_inv in Hg. split_and!.
  - by rewrite (rs_last _ _ Hres), (bk_last _ _ Hb).
  - intros i o. rewrite Hg. by apply restored_level.
  - intros o Ho. unfold all_blocks in Ho. rewrite Hg in Ho. rewrite <-(rs_parents _ _ Hres o Ho). by apply (parent_of_agree s0 _ _ (bk_parents _ _ Hb)).
  - exists w, w'. split_and!; [apply Hl|done|]. rewrite (window_hashes _ w _ Hl), (window_hashes _ w' _ Hl'). simpl.
    assert (fresh h = 0%nat) as ->.
    { pose proof (ln_fresh _ _ _ _ _ _ _ Hl) as Hf. rewrite Hpc in Hf. apply (f_equal length) in Hf. rewrite length_fmap, length_drop in Hf. simpl in Hf.
      pose proof (sim_fresh_le _ _ _ (ln_sim _ _ _ _ _ _ _ Hl)). lia. }
    by rewrite Nat.sub_0_r, firstn_all.
Qed.
End recovery.

(** ** An example

    A window of one block; block 10 is canonical first, then 11 on it, with the
    fork 12 and the block 13 on 11. *)
Module SyncDemo.
Import PruningSpec.Demo.
#[local] Instance checks : OverflowChecks := true.

(** A hash and a number, or two numbers, in sixteen bytes. *)
#[local] Instance pair_codec : Codec (Z * Z) :=
  {| encode p := p.1 :: replicate 7 0 ++ to_le 8 p.2; decode bs := match bs with a :: bs => Some (a, of_le (drop 7 bs)) | [] => None end |}.

Fixpoint put_entries (l : list (Z * bytes)) : bytes :=
  match l with [] => [] | (k, v) :: l => k :: Z.of_nat (length v) :: v ++ put_entries l end.

Fixpoint get_entries (n : nat) (bs : bytes) : option (list (Z * bytes) * bytes) :=
  match n, bs with
  | Datatypes.O, _ => Some ([], bs)
  | S n, k :: len :: bs =>
    '(l, rest) ← get_entries n (drop (Z.to_nat len) bs); Some ((k, take (Z.to_nat len) bs) :: l, rest)
  | _, _ => None
  end.

#[local] Instance overlay_record_codec : Codec (OverlayRecord Z Z) := {|
  encode r := or_hash r :: or_parent_hash r :: Z.of_nat (length (or_inserted r)) :: put_entries (or_inserted r) ++ or_deleted r;
  decode bs := match bs with
    | hash :: parent :: n :: bs => '(ins, del) ← get_entries (Z.to_nat n) bs; Some (mkOverlayRecord hash parent ins del)
    | _ => None
    end |}.

#[local] Instance pair_laws : PairCodec.
Proof. intros a b _ _. change (S (length (replicate 7 0 ++ to_le 8 b)) = 16%nat). by rewrite length_app, to_le_length. Qed.

Lemma pair_decode (a b : Z) : b ∈u 64 -> decode (encode (a, b)) = Some (a, b).
Proof. intros Hb. change (decode (encode (a, b))) with (Some (a, of_le (to_le 8 b))). by rewrite (of_to_le 8). Qed.

#[local] Instance hash_laws : CodecLaws (Z * Z) (fun e => e.2 ∈u 64).
Proof. intros [a b] Hb. by apply pair_decode. Qed.

#[local] Instance number_laws : CodecLaws (Z * Z) (fun e => e.1 ∈u 64 /\ e.2 ∈u 64).
Proof. intros [a b] [_ Hb]. by apply pair_decode. Qed.

Lemma get_put_entries l rest : get_entries (length l) (put_entries l ++ rest) = Some (l, rest).
Proof.
  induction l as [|[k v] l IH]; [by destruct rest|]. simpl. rewrite Nat2Z.id, <-app_assoc, drop_app_length, take_app_length, IH. done.
Qed.

#[local] Instance overlay_record_laws : CodecLaws (OverlayRecord Z Z) (fun _ => True).
Proof. intros [h p i d] _. simpl. by rewrite Nat2Z.id, get_put_entries. Qed.

Definition one_block : Constraints := mkConstraints (Some 1) None.

Definition block_changes (h : Z) : ChangeSet Z :=
  if h =? 10 then changes [3] [1] else if h =? 11 then changes [1] [2] else if h =? 12 then changes [4] [] else changes [2; 5] [3].

Definition st (h : Z) : gset Z :=
  if h =? 0 then {[1; 2]} else if h =? 10 then {[2; 3]} else if h =? 11 then {[1; 3]} else if h =? 12 then {[2; 3; 4]} else {[1; 2; 5]}.

Abbreviation N := (Node Z Z).

(** A test for the operations of the example. *)
Definition allowedb (op : NodeOp Z Z) (n : N) : bool :=
  let ov := non_canonical (n_sync n) in
  match op with
  | InsertBlock hash number parent_hash changes =>
    bool_decide (hash ∉ ov_hash <$> all_blocks ov) && bool_decide (pinned_insertions ov !! hash = None) &&
    bool_decide (Forall (fun e => e.2 = content e.1) (inserted changes)) &&
    (Z.of_nat (length (all_blocks ov)) <? 2 ^ 32 - 1) &&
    (Z.of_nat (length ((inserted changes).*1 ++ inserted_by (all_blocks ov) ++ pinned_keys ov)) <? 2 ^ 32) &&
    bool_decide (0 <= number < 2 ^ 64 - 2) && bool_decide (pending_canonicalizations ov = []) &&
    (bool_decide (is_Some (last_canonicalized ov)) || (number =? 0) && (parent_hash =? 0)) &&
    ((number <=? front_of ov) ||
     match levels ov !! Z.to_nat (number - front_of ov - 1) with Some l => bool_decide (parent_hash ∈ ov_hash <$> NonCanonical.blocks l) | None => false end) &&
    bool_decide (block_del (block_of hash changes) ⊆ st parent_hash) &&
    bool_decide (block_ins (block_of hash changes) ## block_del (block_of hash changes)) &&
    bool_decide (st hash = next_state (st parent_hash) (block_of hash changes))
  | CanonicalizeBlock hash =>
    bool_decide (pending_canonicalizations ov = []) &&
    match pruning (n_sync n) with Some w => pending_number w + Z.of_nat (length (death_rows w)) <? 2 ^ 64 - 2 | None => true end
  | PinBlock hash => bool_decide (sync_pinned (n_sync n) !! hash = None) && bool_decide (pinned ov !! hash = None)
  | AbortTx => bool_decide (Forall (fun bs => bs <> []) (NonCanonical.blocks <$> levels ov))
  | RestartNode => bool_decide (is_Some (db_meta (n_disk n) !! to_meta_key LAST_CANONICAL tt))
  | CommitTx | UnpinBlock _ => true
  end.

Lemma node_allowedb_spec op n : allowedb op n = true -> node_allowed content st 0 one_block op n.
Proof.
  destruct op as [hash number parent_hash changes|hash| | |hash|hash|]; simpl; try done.
  - rewrite !andb_true_iff, !bool_decide_eq_true, !Z.ltb_lt.
    intros (((((((((((? & ?) & ?) & ?) & ?) & ?) & Hpend) & Hl) & Hp) & ?) & ?) & ?). split_and!; [done| |done|done].
    split; [|split; [|by rewrite Hpend]].
    + intros Hnone. rewrite Hnone in Hl. apply orb_true_iff in Hl as [Hl|[Hz%Z.eqb_eq Hr%Z.eqb_eq]%andb_true_iff]; [by apply bool_decide_eq_true in Hl as []|].
      subst. split_and!; try done. unfold adjacent. rewrite Hnone. right. lia.
    + intros Hlt. apply orb_true_iff in Hp as [Hp%Z.leb_le|Hp]; [lia|]. destruct (levels _ !! _) as [l|] eqn:Hlv; [|done].
      apply bool_decide_eq_true in Hp. eauto.
  - rewrite !andb_true_iff, !bool_decide_eq_true. intros [Hp Hw]. split; [by rewrite Hp|].
    destruct (pruning (n_sync n)); [by apply Z.ltb_lt in Hw|done].
  - intros Hne%bool_decide_eq_true. by right.
  - rewrite !andb_true_iff, !bool_decide_eq_true. intros [Hp Hq]. split; intros r; [by rewrite Hp|by rewrite Hq].
  - intros Hd%bool_decide_eq_true. split; [done|by left].
Qed.

(** Runs the operations, each of them tested. *)
Fixpoint run (ops : list (NodeOp Z Z)) (n : N) : option N :=
  match ops with
  | [] => Some n
  | op :: ops => if allowedb op n then match node_exec op n with Ok n' => run ops n' | _ => None end else None
  end.

Lemma node_run_reach ops n0 n n' : node_reach content st 0 one_block n0 n -> run ops n = Some n' -> node_reach content st 0 one_block n0 n'.
Proof.
  revert n. induction ops as [|op ops IH]; intros n Hr; simpl; [by intros [= <-]|]. destruct (allowedb op n) eqn:Ha; [|done].
  destruct (node_exec op n) as [n1| |] eqn:Hrun; [|done..]. apply IH. econstructor; [done|by apply node_allowedb_spec|done].
Qed.

Definition insert_op (h number parent : Z) : NodeOp Z Z := InsertBlock h number parent (block_changes h).

Definition history : list (NodeOp Z Z) :=
  [insert_op 10 0 0; CanonicalizeBlock 10; CommitTx; insert_op 11 1 10; insert_op 12 1 10; CommitTx;
   insert_op 13 2 11; CommitTx; RestartNode; PinBlock 10; CanonicalizeBlock 11].

Definition start_node : N := fresh_node one_block data.

Definition node_after (ops : list (NodeOp Z Z)) : N := default start_node (run ops start_node).

Lemma reach_after ops : match run ops start_node with Some _ => true | None => false end = true -> node_reach content st 0 one_block start_node (node_after ops).
Proof.
  unfold node_after. destruct (run ops start_node) as [n|] eqn:Hrun; [|done]. intros _. by eapply node_run_reach; [apply node_refl|].
Qed.

Definition in_level (n : N) (i : nat) (hash : Z) : bool :=
  bool_decide (hash ∈ ov_hash <$> level_at (NonCanonical.blocks <$> levels (non_canonical (n_sync n))) i).

Definition in_window (n : N) (hash : Z) : bool := match pruning (n_sync n) with Some w => have_block w hash | None => false end.

(** After a restart block 11 became canonical, which is not yet written: block 10
    is pinned and so still in the window, and the states of 10 and 13 are
    found. *)
Lemma state_db_finds_states_witness : found content (node_after history) 5 /\ found content (node_after history) 2.
Proof.
  destruct (state_db_finds_states content st 0 one_block ltac:(done) ltac:(done) data (node_after history)) as (_ & Hlevels & Hwindow).
  - apply data_content.
  - by apply (bool_decide_unpack _); vm_compute.
  - apply reach_after. by vm_compute.
  - assert (in_level (node_after history) 1 13 = true) as Ho by (by vm_compute).
    assert (in_window (node_after history) 10 = true) as Hw by (by vm_compute).
    apply bool_decide_eq_true, list_elem_of_fmap in Ho as (o & Hh & Ho). unfold in_window in Hw. split.
    + apply (Hlevels o 5); [by eapply elem_of_level_at|]. rewrite <-Hh. by apply (bool_decide_unpack _); vm_compute.
    + destruct (pruning (n_sync (node_after history))) as [w|] eqn:Hpr; [|done].
      apply (Hwindow w 10 2 eq_refl Hw). by apply (bool_decide_unpack _); vm_compute.
Defined.

(** Both blocks of the fork and the block on top come back. *)
Lemma restart_restores_blocks_witness :
  exists n', node_exec RestartNode (node_after (take 8 history)) = Ok n' /\ in_level n' 0 12 = true /\ in_level n' 1 13 = true.
Proof.
  assert (in_level (node_after (take 8 history)) 0 12 = true) as H12 by (by vm_compute).
  assert (in_level (node_after (take 8 history)) 1 13 = true) as H13 by (by vm_compute).
  destruct (restart_restores_blocks content st 0 one_block ltac:(done) ltac:(done) data (node_after (take 8 history))) as (n' & Hrun & _ & Hlv & _).
  - apply data_content.
  - by apply (bool_decide_unpack _); vm_compute.
  - apply reach_after. by vm_compute.
  - apply (node_allowedb_spec RestartNode). by vm_compute.
  - by vm_compute.
  - by vm_compute.
  - exists n'. split; [exact Hrun|]. clear Hrun. unfold in_level in *. apply bool_decide_eq_true in H12, H13.
    split; apply bool_decide_eq_true; [revert H12|revert H13]; rewrite !list_elem_of_fmap; intros (o & Ho & Hin); exists o; (split; [done|by apply Hlv]).
Defined.

(** *** Where the journal and the overlay part

    Outside these rules a restart changes the overlay.  The operations here are
    not tested. *)
Fixpoint run_all (ops : list (NodeOp Z Z)) (n : N) : option N :=
  match ops with
  | [] => Some n
  | op :: ops => match node_exec op n with Ok n' => run_all ops n' | _ => None end
  end.

Definition overlay_hashes (n : N) : list Z := ov_hash <$> all_blocks (non_canonical (n_sync n)).

(** A first block that is written before a block is canonical is not read. *)
Lemma restart_without_canonical :
  (overlay_hashes <$> run_all [insert_op 10 0 0; CommitTx] start_node) = Some [10] /\
  (overlay_hashes <$> run_all [insert_op 10 0 0; CommitTx; RestartNode] start_node) = Some [].
Proof. split; by vm_compute. Qed.

(** A block inserted on top of a fork, in the transaction that discards the fork,
    is discarded with it, but its record stays and is read. *)
Definition late_child : list (NodeOp Z Z) :=
  take 6 history ++ [CanonicalizeBlock 11; InsertBlock 14 2 12 (changes [6] []); CommitTx].

Lemma restart_late_child :
  (overlay_hashes <$> run_all late_child start_node) = Some [] /\
  (overlay_hashes <$> run_all (late_child ++ [RestartNode]) start_node) = Some [14].
Proof. split; by vm_compute. Qed.
End SyncDemo.
