(* ===== verification/TxPool.v ===== *)
(** * The transaction pool

    Model of the graph of the transaction pool: the map with tracked sizes
    ([client/transaction-pool/src/graph/tracked_map.rs]), the queue of
    transactions that wait for tags ([future.rs]), the queue of ready
    transactions with the iterator over it ([ready.rs]) and the pool that moves
    transactions between them ([base_pool.rs]).

    The clock is an argument of the operations that read it.  The iteration
    order of hash maps and hash sets is unspecified: it is a parameter, any
    enumeration of their elements ([HashOrder]).  Machine words have 64 bits.
    The counters of satisfied tags are natural numbers: they count items of
    vectors in memory.  Logging is left out. *)

From Stdlib Require Import ZArith Lia.
From stdpp Require Import gmap fin_maps fin_sets option list.
From S2P Require Import Prelude.

Local Open Scope Z_scope.

(** ** Standard collections *)

(** A [BTreeSet] is its elements in ascending order of [Ord::cmp]; an element
    that is [Equal] to one of the set is not inserted. *)
Section btree_set.
Context {A : Type} (cmp : A -> A -> comparison).

Fixpoint bset_insert (x : A) (l : list A) : list A :=
  match l with
  | [] => [x]
  | y :: l' =>
    match cmp x y with
    | Lt => x :: l
    | Eq => l
    | Gt => y :: bset_insert x l'
    end
  end.

Fixpoint bset_remove (x : A) (l : list A) : list A :=
  match l with
  | [] => []
  | y :: l' => if cmp x y is Eq then l' else y :: bset_remove x l'
  end.
End btree_set.

(** [Ordering::then_with]. *)
Definition then_with (c d : comparison) : comparison := if c is Eq then d else c.

(** [Vec::pop] and [Vec::append] of a vector used as a stack: the list has the
    top first. *)
Definition push_all {A} (xs stack : list A) : list A := rev xs ++ stack.

(** ** Maps with tracked sizes *)

Class Size (V : Type) : Type := size_of : V -> Z.

(** A cast to [isize], and the wrapping arithmetic of [AtomicIsize]. *)
Definition as_isize (z : Z) : Z := (z + 2 ^ 63) mod 2 ^ 64 - 2 ^ 63.

Record TrackedMap (K V : Type) `{Countable K} : Type := mkTrackedMap {
  index : gmap K V;
  tm_bytes : Z;
  tm_length : Z }.

Arguments mkTrackedMap {K V _ _} index tm_bytes tm_length.
Arguments index {K V _ _} _.
Arguments tm_bytes {K V _ _} _.
Arguments tm_length {K V _ _} _.

Section tracked_map.
Context {K V : Type} `{Countable K} `{Size V}.
Implicit Types self : TrackedMap K V.

#[export] Instance TrackedMap_default : Default (TrackedMap K V) := mkTrackedMap ∅ 0 0.

Definition len self : Z := Z.max (tm_length self) 0.
Definition bytes self : Z := Z.max (tm_bytes self) 0.

(** [insert] of the map locked for writing. *)
Definition tm_insert (key : K) (val : V) self : TrackedMap K V * option V :=
  let new_bytes := size_of val in
  let bytes := as_isize (tm_bytes self + as_isize new_bytes) in
  let length := as_isize (tm_length self + 1) in
  match index self !! key with
  | Some old_val =>
    (mkTrackedMap (<[key := val]> (index self)) (as_isize (bytes - as_isize (size_of old_val))) (as_isize (length - 1)),
     Some old_val)
  | None => (mkTrackedMap (<[key := val]> (index self)) bytes length, None)
  end.

Definition tm_remove (key : K) self : TrackedMap K V * option V :=
  let val := index self !! key in
  match size_of <$> val with
  | Some size =>
    (mkTrackedMap (delete key (index self)) (as_isize (tm_bytes self - as_isize size)) (as_isize (tm_length self - 1)), val)
  | None => (mkTrackedMap (delete key (index self)) (tm_bytes self) (tm_length self), val)
  end.

(** A write through [get_mut]: the sizes are not tracked. *)
Definition tm_update (key : K) (val : V) self : TrackedMap K V :=
  mkTrackedMap (<[key := val]> (index self)) (tm_bytes self) (tm_length self).
End tracked_map.

(** ** Transactions *)

Definition Tag : Type := list Z.
#[export] Instance Tag_eq_dec : EqDecision Tag := _.
#[export] Instance Tag_countable : Countable Tag := _.

Inductive TransactionSource : Type := InBlock | Local | External.

Record Transaction (Hash Ex : Type) : Type := mkTransaction {
  data : Ex;
  tx_bytes : Z;
  hash : Hash;
  priority : Z;
  valid_till : Z;
  requires : list Tag;
  provides : list Tag;
  propagate : bool;
  source : TransactionSource }.

Arguments mkTransaction {Hash Ex} data tx_bytes hash priority valid_till requires provides propagate source.
Arguments data {Hash Ex} _.
Arguments tx_bytes {Hash Ex} _.
Arguments hash {Hash Ex} _.
Arguments priority {Hash Ex} _.
Arguments valid_till {Hash Ex} _.
Arguments requires {Hash Ex} _.
Arguments provides {Hash Ex} _.
Arguments propagate {Hash Ex} _.
Arguments source {Hash Ex} _.

Inductive InvalidTransaction : Type :=
| Call | Payment | InvalidFuture | Stale | BadProof | AncientBirthBlock
| ExhaustsResources | Custom (code : Z) | BadMandatory | MandatoryDispatch.

Inductive UnknownTransaction : Type :=
| CannotLookup | NoUnsignedValidator | UnknownCustom (code : Z).

(** The errors of the pool. *)
Inductive PoolError (Hash : Type) : Type :=
| UnknownTransactionError (e : UnknownTransaction)
| InvalidTransactionError (e : InvalidTransaction)
| NoTagsProvided
| TemporarilyBanned
| AlreadyImported (hash : Hash)
| TooLowPriority (old new : Z)
| CycleDetected
| ImmediatelyDropped
| Unactionable
| InvalidBlockId
| RejectedFutureTransaction.

Arguments UnknownTransactionError {Hash} e.
Arguments InvalidTransactionError {Hash} e.
Arguments NoTagsProvided {Hash}.
Arguments TemporarilyBanned {Hash}.
Arguments AlreadyImported {Hash} hash.
Arguments TooLowPriority {Hash} old new.
Arguments CycleDetected {Hash}.
Arguments ImmediatelyDropped {Hash}.
Arguments Unactionable {Hash}.
Arguments InvalidBlockId {Hash}.
Arguments RejectedFutureTransaction {Hash}.

(** ** The queue of waiting transactions *)

Record WaitingTransaction (Hash Ex : Type) : Type := mkWaiting {
  transaction : Transaction Hash Ex;
  missing_tags : gset Tag;
  imported_at : Z }.

Arguments mkWaiting {Hash Ex} transaction missing_tags imported_at.
Arguments transaction {Hash Ex} _.
Arguments missing_tags {Hash Ex} _.
Arguments imported_at {Hash Ex} _.

Record FutureTransactions (Hash Ex : Type) `{Countable Hash} : Type := mkFuture {
  wanted_tags : gmap Tag (gset Hash);
  waiting : gmap Hash (WaitingTransaction Hash Ex) }.

Arguments mkFuture {Hash Ex _ _} wanted_tags waiting.
Arguments wanted_tags {Hash Ex _ _} _.
Arguments waiting {Hash Ex _ _} _.

Section future.
Context {OC : OverflowChecks} {Hash Ex : Type} `{HashOrder Hash} `{!HashOrder Tag} {E : Type}.
Abbreviation Tx := (Transaction Hash Ex).
Abbreviation WaitingTx := (WaitingTransaction Hash Ex).
Abbreviation Future := (FutureTransactions Hash Ex).
Implicit Types self : Future.

#[export] Instance FutureTransactions_default : Default Future := mkFuture ∅ ∅.

Definition with_wanted (f : gmap Tag (gset Hash) -> gmap Tag (gset Hash)) self : Future := mkFuture (f (wanted_tags self)) (waiting self).
Definition with_waiting (f : gmap Hash WaitingTx -> gmap Hash WaitingTx) self : Future := mkFuture (wanted_tags self) (f (waiting self)).

(** A tag is provided by a transaction of the pool or was recently included. *)
Definition is_provided (provided : gmap Tag Hash) (recently_pruned : list (gset Tag)) (tag : Tag) : bool :=
  bool_decide (is_Some (provided !! tag)) || existsb (fun x => bool_decide (tag ∈ x)) recently_pruned.

Definition WaitingTransaction_new (tx : Tx) (provided : gmap Tag Hash) (recently_pruned : list (gset Tag)) (now : Z) : WaitingTx :=
  mkWaiting tx (list_to_set (filter (fun tag => is_provided provided recently_pruned tag = false) (requires tx))) now.

Definition satisfy_tag (tag : Tag) (tx : WaitingTx) : WaitingTx :=
  mkWaiting (transaction tx) (missing_tags tx ∖ {[tag]}) (imported_at tx).

Definition is_ready (tx : WaitingTx) : bool := bool_decide (missing_tags tx = ∅).

(** [entry(tag).or_insert_with(HashSet::new)] and the insertion into it. *)
Definition want (hash : Hash) (tag : Tag) (wanted : gmap Tag (gset Hash)) : gmap Tag (gset Hash) :=
  <[tag := {[hash]} ∪ default ∅ (wanted !! tag)]> wanted.

Definition future_import (tx : WaitingTx) : M Future E unit :=
  _ ← lift (assert_ (negb (is_ready tx)));
  waiting ← gets waiting;
  let hash := hash (transaction tx) in
  _ ← lift (assert_ (bool_decide (waiting !! hash = None)));
  _ ← for_each (fun tag => modify (with_wanted (want hash tag))) (hash_iter (missing_tags tx));
  modify (with_waiting <[hash := tx]>).

Definition future_contains (hash : Hash) self : bool := bool_decide (is_Some (waiting self !! hash)).

Definition future_by_hashes (hashes : list Hash) self : list (option Tx) :=
  (fun h => transaction <$> waiting self !! h) <$> hashes.

(** The body of the loops of [satisfy_tags], for one waiting transaction. *)
Definition satisfy_one (tag : Tag) (became_ready : list WaitingTx) (hash : Hash) : M Future E (list WaitingTx) :=
  waiting ← gets waiting;
  tx ← lift (expect (waiting !! hash));
  let tx := satisfy_tag tag tx in
  _ ← modify (with_waiting <[hash := tx]>);
  if is_ready tx then
    _ ← modify (with_waiting (delete hash));
    mret (became_ready ++ [tx])
  else mret became_ready.

(** And for all transactions that want one tag. *)
Definition satisfy_wanted (became_ready : list WaitingTx) (tag : Tag) : M Future E (list WaitingTx) :=
  wanted ← gets wanted_tags;
  match wanted !! tag with
  | Some hashes =>
    _ ← modify (with_wanted (delete tag));
    fold_each (satisfy_one tag) became_ready (hash_iter hashes)
  | None => mret became_ready
  end.

Definition satisfy_tags (tags : list Tag) : M Future E (list WaitingTx) := fold_each satisfy_wanted [] tags.

(** Forget that [hash] waits for [tag]. *)
Definition unwant (hash : Hash) (tag : Tag) (wanted : gmap Tag (gset Hash)) : gmap Tag (gset Hash) :=
  match wanted !! tag with
  | Some hashes =>
    let hashes := hashes ∖ {[hash]} in
    if bool_decide (hashes = ∅) then delete tag wanted else <[tag := hashes]> wanted
  | None => wanted
  end.

Definition remove_waiting (removed : list Tx) (hash : Hash) : M Future E (list Tx) :=
  waiting ← gets waiting;
  match waiting !! hash with
  | Some waiting_tx =>
    _ ← modify (with_waiting (delete hash));
    _ ← for_each (fun tag => modify (with_wanted (unwant hash tag))) (hash_iter (missing_tags waiting_tx));
    mret (removed ++ [transaction waiting_tx])
  | None => mret removed
  end.

Definition future_remove (hashes : list Hash) : M Future E (list Tx) := fold_each remove_waiting [] hashes.

Definition future_fold {R} (f : option R -> WaitingTx -> option R) self : option R := foldl f None (hash_values (waiting self)).

Definition future_all self : list Tx := transaction <$> hash_values (waiting self).

Definition future_clear : M Future E (list Tx) :=
  _ ← modify (with_wanted (fun _ => ∅));
  txs ← gets future_all;
  _ ← modify (with_waiting (fun _ => ∅));
  mret txs.

Definition future_len self : Z := Z.of_nat (size (waiting self)).

Definition future_bytes self : res E Z :=
  foldl (fun acc tx => a ← acc; uadd 64 a (tx_bytes (transaction tx))) (Ok 0) (hash_values (waiting self)).
End future.

(** ** The queue of ready transactions *)

Record TransactionRef (Hash Ex : Type) : Type := mkRef {
  ref_transaction : Transaction Hash Ex;
  ref_insertion_id : Z }.

Arguments mkRef {Hash Ex} ref_transaction ref_insertion_id.
Arguments ref_transaction {Hash Ex} _.
Arguments ref_insertion_id {Hash Ex} _.

Record ReadyTx (Hash Ex : Type) : Type := mkReadyTx {
  tx_ref : TransactionRef Hash Ex;
  unlocks : list Hash;
  requires_offset : nat }.

Arguments mkReadyTx {Hash Ex} tx_ref unlocks requires_offset.
Arguments tx_ref {Hash Ex} _.
Arguments unlocks {Hash Ex} _.
Arguments requires_offset {Hash Ex} _.

Record ReadyTransactions (Hash Ex : Type) `{Countable Hash} : Type := mkReady {
  insertion_id : Z;
  provided_tags : gmap Tag Hash;
  ready : TrackedMap Hash (ReadyTx Hash Ex);
  best : list (TransactionRef Hash Ex) }.

Arguments mkReady {Hash Ex _ _} insertion_id provided_tags ready best.
Arguments insertion_id {Hash Ex _ _} _.
Arguments provided_tags {Hash Ex _ _} _.
Arguments ready {Hash Ex _ _} _.
Arguments best {Hash Ex _ _} _.

(** [Ord for TransactionRef]: by priority, then those that expire sooner, then
    those that were inserted first. *)
Definition ref_cmp {Hash Ex} (self other : TransactionRef Hash Ex) : comparison :=
  then_with (then_with (priority (ref_transaction self) ?= priority (ref_transaction other))
    (valid_till (ref_transaction other) ?= valid_till (ref_transaction self)))
    (ref_insertion_id other ?= ref_insertion_id self).

#[export] Instance ReadyTx_size {Hash Ex} : Size (ReadyTx Hash Ex) := fun self => tx_bytes (ref_transaction (tx_ref self)).

(** [remove_item]: the first item equal to the given one leaves the vector, the
    last one takes its place. *)
Definition remove_item {A} `{EqDecision A} (item : A) (vec : list A) : list A :=
  match list_find (fun i => i = item) vec with
  | Some (idx, _) => if swap_remove (E := unit) idx vec is Ok (_, vec') then vec' else vec
  | None => vec
  end.

Section ready.
Context {OC : OverflowChecks} {Hash Ex : Type} `{HashOrder Hash}.
Abbreviation Tx := (Transaction Hash Ex).
Abbreviation Ref := (TransactionRef Hash Ex).
Abbreviation RTx := (ReadyTx Hash Ex).
Abbreviation Ready := (ReadyTransactions Hash Ex).
Implicit Types self : Ready.

#[export] Instance ReadyTransactions_default : Default Ready := mkReady 0 ∅ dflt [].

Definition with_insertion_id (f : Z -> Z) self : Ready := mkReady (f (insertion_id self)) (provided_tags self) (ready self) (best self).
Definition with_provided (f : gmap Tag Hash -> gmap Tag Hash) self : Ready := mkReady (insertion_id self) (f (provided_tags self)) (ready self) (best self).
Definition with_ready (f : TrackedMap Hash RTx -> TrackedMap Hash RTx) self : Ready := mkReady (insertion_id self) (provided_tags self) (f (ready self)) (best self).
Definition with_best (f : list Ref -> list Ref) self : Ready := mkReady (insertion_id self) (provided_tags self) (ready self) (f (best self)).

Definition tx_of (t : RTx) : Tx := ref_transaction (tx_ref t).
Definition with_unlocks (f : list Hash -> list Hash) (t : RTx) : RTx := mkReadyTx (tx_ref t) (f (unlocks t)) (requires_offset t).

(** [ready.remove(&hash)] on the tracked map. *)
Definition take_ready {E} (hash : Hash) : M Ready E (option RTx) :=
  val ← gets (fun self => (tm_remove hash (ready self)).2);
  _ ← modify (with_ready (fun m => (tm_remove hash m).1));
  mret val.

(** The tags that stay in the pool. *)
Definition stays (provides_tag_filter : option (gset Tag)) (tag : Tag) : bool :=
  if provides_tag_filter is Some tags then bool_decide (tag ∈ tags) else false.

(** The body of the loop of [remove_subtree_with_tag_filter] for a transaction
    that was taken out; it returns what is appended to the stack. *)
Definition drop_ready {E} (provides_tag_filter : option (gset Tag)) (tx : RTx) : M Ready E (list Hash) :=
  let invalidated := filter (fun tag => stays provides_tag_filter tag = false) (provides (tx_of tx)) in
  _ ← for_each (fun tag => modify (with_provided (delete tag))) invalidated;
  _ ← for_each (fun tag =>
        self ← get;
        match provided_tags self !! tag with
        | Some hash =>
          match index (ready self) !! hash with
          | Some tx => modify (with_ready (tm_update hash (with_unlocks (remove_item hash) tx)))
          | None => mret tt
          end
        | None => mret tt
        end) (requires (tx_of tx));
  _ ← modify (with_best (bset_remove ref_cmp (tx_ref tx)));
  mret (if invalidated is [] then [] else unlocks tx).

(** The loop: each transaction taken out uses one unit of fuel, the number of
    ready transactions. *)
Fixpoint remove_loop {E} (fuel : nat) (provides_tag_filter : option (gset Tag)) : list Hash -> list Tx -> M Ready E (list Tx) :=
  fix pop (to_remove : list Hash) (removed : list Tx) : M Ready E (list Tx) :=
    match to_remove with
    | [] => mret removed
    | hash :: to_remove =>
      tx ← take_ready hash;
      match tx with
      | Some tx =>
        match fuel with
        | O => lift Panic
        | S fuel =>
          pushed ← drop_ready provides_tag_filter tx;
          remove_loop fuel provides_tag_filter (push_all pushed to_remove) (removed ++ [tx_of tx])
        end
      | None => pop to_remove removed
      end
    end.

Definition remove_subtree_with_tag_filter {E} (to_remove : list Hash) (provides_tag_filter : option (gset Tag)) : M Ready E (list Tx) :=
  fuel ← gets (fun self => size (index (ready self)));
  remove_loop fuel provides_tag_filter (rev to_remove) [].

Definition ready_remove_subtree {E} (hashes : list Hash) : M Ready E (list Tx) := remove_subtree_with_tag_filter hashes None.

(** The hashes of the transactions that provide a tag of [tx]. *)
Definition replace_hashes (tx : Tx) self : gset Hash := list_to_set (omap (fun tag => provided_tags self !! tag) (provides tx)).

(** The ready transactions of a set of hashes, in the order of the set. *)
Definition ready_txs (hashes : gset Hash) self : list RTx := omap (fun hash => index (ready self) !! hash) (hash_iter hashes).

Definition replace_previous (tx : Tx) : M Ready (PoolError Hash) (list Tx * list Hash) :=
  self ← get;
  let hashes := replace_hashes tx self in
  if bool_decide (hashes = ∅) then mret ([], [])
  else
    let old_priority := foldl (fun total t => saturating_add 64 total (priority (tx_of t))) 0 (ready_txs hashes self) in
    if priority tx <=? old_priority then throw (TooLowPriority old_priority (priority tx))
    else
      let unlocks := mjoin (unlocks <$> ready_txs hashes self) in
      let new_provides := list_to_set (provides tx) in
      removed ← remove_subtree_with_tag_filter (hash_iter hashes) (Some new_provides);
      mret (removed, unlocks).

(** The loop of [import] over the required tags: the links to the transactions
    that provide them, and [goes_to_best] and [requires_offset]. *)
Definition link_tag {E} (hash : Hash) (local : bool * nat) (tag : Tag) : M Ready E (bool * nat) :=
  self ← get;
  match provided_tags self !! tag with
  | Some other =>
    tx ← lift (expect (index (ready self) !! other));
    _ ← modify (with_ready (tm_update other (with_unlocks (fun l => l ++ [hash]) tx)));
    mret (false, local.2)
  | None => mret (local.1, S local.2)
  end.

Definition ready_contains (hash : Hash) self : bool := bool_decide (is_Some (index (ready self) !! hash)).

(** The rest of [import], from the call of [replace_previous] on. *)
Definition insert_ready (transaction : Tx) (insertion_id : Z) : M Ready (PoolError Hash) (list Tx) :=
  let hash := hash transaction in
  '(replaced, unlocks) ← replace_previous transaction;
  '(goes_to_best, requires_offset) ← fold_each (link_tag hash) (true, 0%nat) (requires transaction);
  _ ← for_each (fun tag => modify (with_provided <[tag := hash]>)) (provides transaction);
  let tx_ref := mkRef transaction insertion_id in
  _ ← (if goes_to_best : bool then modify (with_best (bset_insert ref_cmp tx_ref)) else mret tt);
  _ ← modify (with_ready (fun m => (tm_insert hash (mkReadyTx tx_ref unlocks requires_offset) m).1));
  mret replaced.

Definition ready_import (tx : WaitingTransaction Hash Ex) : M Ready (PoolError Hash) (list Tx) :=
  _ ← lift (assert_ (is_ready tx));
  contained ← gets (ready_contains (hash (transaction tx)));
  _ ← lift (assert_ (negb contained));
  id ← gets insertion_id;
  insertion_id ← lift (uadd 64 id 1);
  _ ← modify (with_insertion_id (fun _ => insertion_id));
  insert_ready (transaction tx) insertion_id.

Definition ready_fold {R} (f : option R -> RTx -> option R) self : option R := foldl f None (hash_values (index (ready self))).

Definition ready_by_hashes (hashes : list Hash) self : list (option Tx) :=
  (fun hash => tx_of <$> index (ready self) !! hash) <$> hashes.

Definition ready_by_hash (hash : Hash) self : option Tx := default None (head (ready_by_hashes [hash] self)).

Definition ready_len self : Z := len (ready self).
Definition ready_bytes self : Z := bytes (ready self).

(** The closure [find_previous] of [prune_tags]: the provider of a tag no
    longer unlocks [hash]; its tags, if it unlocks nothing any more. *)
Definition find_previous {E} (hash : Hash) (tag : Tag) : M Ready E (option (list Tag)) :=
  self ← get;
  match provided_tags self !! tag with
  | Some prev_hash =>
    match index (ready self) !! prev_hash with
    | Some tx2 =>
      let tx2 := with_unlocks (remove_item hash) tx2 in
      _ ← modify (with_ready (tm_update prev_hash tx2));
      mret (if unlocks tx2 is [] then Some (provides (tx_of tx2)) else None)
    | None => mret None
    end
  | None => mret None
  end.

(** A transaction unlocked by a pruned one. *)
Definition unlock_ready {E} (hash : Hash) : M Ready E unit :=
  self ← get;
  match index (ready self) !! hash with
  | Some tx =>
    let tx := mkReadyTx (tx_ref tx) (unlocks tx) (S (requires_offset tx)) in
    _ ← modify (with_ready (tm_update hash tx));
    if bool_decide (requires_offset tx = length (requires (tx_of tx)))
    then modify (with_best (bset_insert ref_cmp (tx_ref tx)))
    else mret tt
  | None => mret tt
  end.

(** The body of the loop of [prune_tags] for a transaction that was taken out
    as the provider of [current_tag]; it returns what is appended to the
    stack. *)
Definition prune_ready {E} (current_tag : Tag) (t : RTx) : M Ready E (list Tag) :=
  _ ← modify (with_best (bset_remove ref_cmp (tx_ref t)));
  let tx := tx_of t in
  pushed ← fold_each (fun pushed tag =>
      tags_to_remove ← find_previous (hash tx) tag;
      mret (pushed ++ default [] tags_to_remove)) [] (requires tx);
  _ ← for_each unlock_ready (unlocks t);
  _ ← for_each (fun tag =>
      removed ← gets (fun self => provided_tags self !! tag);
      _ ← modify (with_provided (delete tag));
      lift (assert_ (bool_decide (removed = if decide (current_tag = tag) then None else Some (hash tx))))) (provides tx);
  mret pushed.

Fixpoint prune_loop {E} (fuel : nat) : list Tag -> list Tx -> M Ready E (list Tx) :=
  fix pop (to_remove : list Tag) (removed : list Tx) : M Ready E (list Tx) :=
    match to_remove with
    | [] => mret removed
    | tag :: to_remove =>
      provider ← gets (fun self => provided_tags self !! tag);
      _ ← modify (with_provided (delete tag));
      tx ← match provider with Some hash => take_ready hash | None => mret None end;
      match tx with
      | Some tx =>
        match fuel with
        | O => lift Panic
        | S fuel =>
          pushed ← prune_ready tag tx;
          prune_loop fuel (push_all pushed to_remove) (removed ++ [tx_of tx])
        end
      | None => pop to_remove removed
      end
    end.

Definition ready_prune_tags {E} (tag : Tag) : M Ready E (list Tx) :=
  fuel ← gets (fun self => size (index (ready self)));
  prune_loop fuel [tag] [].
End ready.

(** ** The iterator over ready transactions

    The iterator holds a lock on the ready map of the pool, which may change
    between two calls of [next]: the map is an argument. *)
Record BestIterator (Hash Ex : Type) `{Countable Hash} : Type := mkBestIterator {
  awaiting : gmap Hash (nat * TransactionRef Hash Ex);
  it_best : list (TransactionRef Hash Ex) }.

Arguments mkBestIterator {Hash Ex _ _} awaiting it_best.
Arguments awaiting {Hash Ex _ _} _.
Arguments it_best {Hash Ex _ _} _.

Section best_iterator.
Context {Hash Ex : Type} `{Countable Hash}.
Abbreviation Iter := (BestIterator Hash Ex).
Implicit Types self : Iter.
Implicit Types all : gmap Hash (ReadyTx Hash Ex).

(** [ReadyTransactions::get]. *)
Definition ready_get (self : ReadyTransactions Hash Ex) : Iter := mkBestIterator ∅ (best self).

Definition best_or_awaiting (satisfied : nat) (tx_ref : TransactionRef Hash Ex) self : Iter :=
  if (length (requires (ref_transaction tx_ref)) <=? satisfied)%nat
  then mkBestIterator (awaiting self) (bset_insert ref_cmp tx_ref (it_best self))
  else mkBestIterator (<[hash (ref_transaction tx_ref) := (satisfied, tx_ref)]> (awaiting self)) (it_best self).

(** The body of the loop of [next] over the transactions that just got
    unlocked. *)
Definition unlock_next all self (hash : Hash) : Iter :=
  match awaiting self !! hash with
  | Some (satisfied, tx_ref) =>
    best_or_awaiting (S satisfied) tx_ref (mkBestIterator (delete hash (awaiting self)) (it_best self))
  | None =>
    match all !! hash with
    | Some next => best_or_awaiting (S (requires_offset next)) (tx_ref next) self
    | None => self
    end
  end.

(** [next]; the fuel is the number of transactions in [best]. *)
Fixpoint next_loop (fuel : nat) all self : option (Transaction Hash Ex) * Iter :=
  match last (it_best self) with
  | None => (None, self)
  | Some best =>
    let self := mkBestIterator (awaiting self) (bset_remove ref_cmp best (it_best self)) in
    match all !! hash (ref_transaction best) with
    | Some ready => (Some (ref_transaction best), foldl (unlock_next all) self (unlocks ready))
    | None => if fuel is S fuel then next_loop fuel all self else (None, self)
    end
  end.

Definition next all self : option (Transaction Hash Ex) * Iter := next_loop (length (it_best self)) all self.

(** What [n] calls of [next] return, as long as the map does not change. *)
Fixpoint take_next (n : nat) all self : list (Transaction Hash Ex) * Iter :=
  match n with
  | O => ([], self)
  | S n =>
    match next all self with
    | (None, self) => ([], self)
    | (Some tx, self) => let '(txs, self) := take_next n all self in (tx :: txs, self)
    end
  end.
End best_iterator.

(** ** The pool *)

Inductive Imported (Hash Ex : Type) : Type :=
| ImportedReady (hash : Hash) (promoted failed : list Hash) (removed : list (Transaction Hash Ex))
| ImportedFuture (hash : Hash).

Arguments ImportedReady {Hash Ex} hash promoted failed removed.
Arguments ImportedFuture {Hash Ex} hash.

Record PruneStatus (Hash Ex : Type) : Type := mkPruneStatus {
  ps_promoted : list (Imported Hash Ex);
  ps_failed : list Hash;
  ps_pruned : list (Transaction Hash Ex) }.

Arguments mkPruneStatus {Hash Ex} ps_promoted ps_failed ps_pruned.
Arguments ps_promoted {Hash Ex} _.
Arguments ps_failed {Hash Ex} _.
Arguments ps_pruned {Hash Ex} _.

Definition RECENTLY_PRUNED_TAGS : nat := 2.

Record BasePool (Hash Ex : Type) `{Countable Hash} : Type := mkPool {
  reject_future_transactions : bool;
  pool_future : FutureTransactions Hash Ex;
  pool_ready : ReadyTransactions Hash Ex;
  recently_pruned : list (gset Tag);
  recently_pruned_index : nat }.

Arguments mkPool {Hash Ex _ _} reject_future_transactions pool_future pool_ready recently_pruned recently_pruned_index.
Arguments reject_future_transactions {Hash Ex _ _} _.
Arguments pool_future {Hash Ex _ _} _.
Arguments pool_ready {Hash Ex _ _} _.
Arguments recently_pruned {Hash Ex _ _} _.
Arguments recently_pruned_index {Hash Ex _ _} _.

Record PoolStatus : Type := mkPoolStatus {
  st_ready : Z;
  st_ready_bytes : Z;
  st_future : Z;
  st_future_bytes : Z }.

Record Limit : Type := mkLimit { count : Z; total_bytes : Z }.

Definition is_exceeded (self : Limit) (n bytes : Z) : bool := (count self <? n) || (total_bytes self <? bytes).

Section base_pool.
Context {OC : OverflowChecks} {Hash Ex : Type} `{HashOrder Hash} `{!HashOrder Tag}.
Abbreviation Tx := (Transaction Hash Ex).
Abbreviation WaitingTx := (WaitingTransaction Hash Ex).
Abbreviation Pool := (BasePool Hash Ex).
Implicit Types self : Pool.

Definition BasePool_new (reject : bool) : Pool := mkPool reject dflt dflt (replicate RECENTLY_PRUNED_TAGS ∅) 0.

#[export] Instance BasePool_default : Default Pool := BasePool_new false.

Definition with_reject (reject : bool) self : Pool :=
  mkPool reject (pool_future self) (pool_ready self) (recently_pruned self) (recently_pruned_index self).
Definition with_future (future : FutureTransactions Hash Ex) self : Pool :=
  mkPool (reject_future_transactions self) future (pool_ready self) (recently_pruned self) (recently_pruned_index self).
Definition with_pool_ready (ready : ReadyTransactions Hash Ex) self : Pool :=
  mkPool (reject_future_transactions self) (pool_future self) ready (recently_pruned self) (recently_pruned_index self).
Definition with_pruned (f : list (gset Tag) -> list (gset Tag)) (index : nat) self : Pool :=
  mkPool (reject_future_transactions self) (pool_future self) (pool_ready self) (f (recently_pruned self)) index.

Definition on_future {E A} (m : M (FutureTransactions Hash Ex) E A) : M Pool E A := zoom pool_future with_future m.
Definition on_ready {E A} (m : M (ReadyTransactions Hash Ex) E A) : M Pool E A := zoom pool_ready with_pool_ready m.

Definition imported_hash (self : Imported Hash Ex) : Hash :=
  match self with ImportedReady hash _ _ _ => hash | ImportedFuture hash => hash end.

Definition with_futures_enabled {E T} (closure : bool -> M Pool E T) : M Pool E T :=
  previous ← gets reject_future_transactions;
  _ ← modify (with_reject false);
  return_value ← closure previous;
  _ ← modify (with_reject previous);
  mret return_value.

Definition is_imported (tx_hash : Hash) self : bool :=
  future_contains tx_hash (pool_future self) || ready_contains tx_hash (pool_ready self).

(** The loop of [import_to_ready]: the fuel is the number of waiting
    transactions, each of which is imported at most once, plus one. *)
Fixpoint import_loop (fuel : nat) (first : bool) (to_import : list WaitingTx) (promoted failed : list Hash) (removed : list Tx) :
    M Pool (PoolError Hash) (list Hash * list Hash * list Tx) :=
  match to_import with
  | [] => mret (promoted, failed, removed)
  | tx :: to_import =>
    match fuel with
    | O => lift Panic
    | S fuel =>
      unlocked ← on_future (satisfy_tags (provides (transaction tx)));
      let to_import := push_all unlocked to_import in
      let current_hash := hash (transaction tx) in
      catch (on_ready (ready_import tx))
        (fun replaced => import_loop fuel false to_import (if first then promoted else promoted ++ [current_hash]) failed (removed ++ replaced))
        (fun e => if first then throw e else import_loop fuel false to_import promoted (failed ++ [current_hash]) removed)
    end
  end.

Definition import_to_ready (tx : WaitingTx) : M Pool (PoolError Hash) (Imported Hash Ex) :=
  let hash := hash (transaction tx) in
  fuel ← gets (fun self => S (size (waiting (pool_future self))));
  '(promoted, failed, removed) ← import_loop fuel true [tx] [] [] [];
  if existsb (fun tx => bool_decide (TxPool.hash tx = hash)) removed then
    _ ← on_ready (ready_remove_subtree promoted);
    throw CycleDetected
  else mret (ImportedReady hash promoted failed removed).

Definition import (tx : Tx) (now : Z) : M Pool (PoolError Hash) (Imported Hash Ex) :=
  imported ← gets (is_imported (hash tx));
  if imported : bool then throw (AlreadyImported (hash tx))
  else
    self ← get;
    let tx := WaitingTransaction_new tx (provided_tags (pool_ready self)) (recently_pruned self) now in
    if negb (is_ready tx) then
      if reject_future_transactions self then throw RejectedFutureTransaction
      else
        let hash := hash (transaction tx) in
        _ ← on_future (future_import tx);
        mret (ImportedFuture hash)
    else import_to_ready tx.

(** [ready], [futures], [by_hashes] and [ready_by_hash]. *)
Definition pool_get self : BestIterator Hash Ex := ready_get (pool_ready self).
Definition futures self : list Tx := future_all (pool_future self).
Definition by_hashes (hashes : list Hash) self : list (option Tx) :=
  zip_with (fun a b => if a is Some tx then Some tx else b)
    (ready_by_hashes hashes (pool_ready self)) (future_by_hashes hashes (pool_future self)).
Definition pool_ready_by_hash (hash : Hash) self : option Tx := ready_by_hash hash (pool_ready self).

Definition remove_subtree {E} (hashes : list Hash) : M Pool E (list Tx) :=
  removed ← on_ready (ready_remove_subtree hashes);
  removed_future ← on_future (future_remove hashes);
  mret (removed ++ removed_future).

(** The worst ready transaction: the one inserted first. *)
Definition worst_ready (minimal : option (TransactionRef Hash Ex)) (current : ReadyTx Hash Ex) : option (TransactionRef Hash Ex) :=
  match minimal with
  | None => Some (tx_ref current)
  | Some tx => if ref_insertion_id (tx_ref current) <? ref_insertion_id tx then Some (tx_ref current) else minimal
  end.

(** The worst waiting transaction: one imported first. *)
Definition worst_future (minimal : option WaitingTx) (current : WaitingTx) : option WaitingTx :=
  match minimal with
  | None => Some current
  | Some tx => if imported_at current <? imported_at tx then Some current else minimal
  end.

Fixpoint enforce_ready {E} (fuel : nat) (limit : Limit) (removed : list Tx) : M Pool E (list Tx) :=
  self ← get;
  if is_exceeded limit (ready_len (pool_ready self)) (ready_bytes (pool_ready self)) then
    match ready_fold worst_ready (pool_ready self) with
    | Some minimal =>
      match fuel with
      | O => lift Panic
      | S fuel =>
        txs ← remove_subtree [hash (ref_transaction minimal)];
        enforce_ready fuel limit (removed ++ txs)
      end
    | None => mret removed
    end
  else mret removed.

Fixpoint enforce_future {E} (fuel : nat) (limit : Limit) (removed : list Tx) : M Pool E (list Tx) :=
  self ← get;
  n ← lift (future_bytes (pool_future self));
  if is_exceeded limit (future_len (pool_future self)) n then
    match future_fold worst_future (pool_future self) with
    | Some minimal =>
      match fuel with
      | O => lift Panic
      | S fuel =>
        txs ← remove_subtree [hash (transaction minimal)];
        enforce_future fuel limit (removed ++ txs)
      end
    | None => mret removed
    end
  else mret removed.

(** Each round of a loop removes a transaction: the fuel is their number. *)
Definition enforce_limits {E} (ready_limit future_limit : Limit) : M Pool E (list Tx) :=
  fuel ← gets (fun self => size (index (ready (pool_ready self))));
  removed ← enforce_ready fuel ready_limit [];
  fuel ← gets (fun self => size (waiting (pool_future self)));
  enforce_future fuel future_limit removed.

Definition clear_future {E} : M Pool E (list Tx) := on_future future_clear.

Definition prune_tags {E} (tags : list Tag) : M Pool E (PruneStatus Hash Ex) :=
  self ← get;
  let index := recently_pruned_index self in
  _ ← lift (expect (recently_pruned self !! index));
  _ ← modify (with_pruned <[index := ∅]> ((index + 1) mod RECENTLY_PRUNED_TAGS));
  '(to_import, pruned) ← fold_each (fun local tag =>
      unlocked ← on_future (satisfy_tags [tag]);
      txs ← on_ready (ready_prune_tags tag);
      next ← gets recently_pruned_index;
      _ ← modify (with_pruned (alter (fun set => {[tag]} ∪ set) index) next);
      mret (local.1 ++ unlocked, local.2 ++ txs)) ([], []) tags;
  '(promoted, failed) ← fold_each (fun local tx =>
      catch (import_to_ready tx)
        (fun res => mret (local.1 ++ [res], local.2))
        (fun _ => mret (local.1, local.2 ++ [hash (transaction tx)]))) ([], []) to_import;
  mret (mkPruneStatus promoted failed pruned).

Definition status {E} self : res E PoolStatus :=
  n ← future_bytes (pool_future self);
  mret (mkPoolStatus (ready_len (pool_ready self)) (ready_bytes (pool_ready self)) (future_len (pool_future self)) n).
End base_pool.
