(* ===== verification/TxQueues.v ===== *)
(** * The collections of the transaction pool

    Lemmas on ordered sets, on vectors used as bags, and on maps with tracked
    sizes; and the behaviour of every operation of the queue of waiting
    transactions under its invariant. *)

From Stdlib Require Import ZArith Lia Sorted.
From stdpp Require Import gmap fin_maps fin_sets option list.
From S2P Require Import Prelude TxPool.

Local Open Scope Z_scope.

(** ** Ordered sets *)

Section bset.
Context {A : Type} (cmp : A -> A -> comparison).
Context (cmp_opp : forall x y, cmp y x = CompOpp (cmp x y))
        (cmp_trans : forall x y z, cmp x y = Lt -> cmp y z = Lt -> cmp x z = Lt)
        (cmp_eq : forall x y z, cmp x y = Eq -> cmp x z = cmp y z).
Abbreviation lt := (fun x y => cmp x y = Lt).
Abbreviation sorted := (StronglySorted lt).
Implicit Types l : list A.

Lemma cmp_refl x : cmp x x = Eq.
Proof. pose proof (cmp_opp x x) as Hx. by destruct (cmp x x). Qed.

Lemma cmp_gt x y : cmp x y = Gt <-> cmp y x = Lt.
Proof. rewrite (cmp_opp x y). by destruct (cmp x y). Qed.

Lemma elem_of_bset_insert x y l : (forall z, z ∈ l -> cmp y z = Eq -> z = y) ->
  x ∈ bset_insert cmp y l <-> x = y \/ x ∈ l.
Proof.
  clear cmp_opp cmp_trans cmp_eq.
  induction l as [|z l IH]; intros Heq; simpl; [set_solver|]. destruct (cmp y z) eqn:Hc.
  - assert (z = y) as -> by (apply Heq; set_solver). set_solver.
  - set_solver.
  - rewrite elem_of_cons, IH; set_solver.
Qed.

Lemma bset_insert_sorted x l : sorted l -> sorted (bset_insert cmp x l).
Proof.
  induction 1 as [|y l Hl IH Hy]; simpl; [by repeat constructor|]. destruct (cmp x y) eqn:Hc.
  - by constructor.
  - constructor; [by constructor|]. constructor; [done|]. eapply Forall_impl; [done|]. eauto.
  - constructor; [done|]. apply Forall_forall. intros z Hz.
    assert (z = x \/ z ∈ l) as [->|Hzl]; [|by apply cmp_gt|rewrite Forall_forall in Hy; auto].
    clear -Hz. induction l as [|w l IHl]; simpl in Hz; [set_solver|]. destruct (cmp x w); set_solver.
Qed.

Lemma sorted_not_eq x y l : sorted (y :: l) -> x ∈ l -> cmp y x = Lt.
Proof. intros Hs Hx. apply StronglySorted_inv in Hs as [_ Hf]. rewrite Forall_forall in Hf. auto. Qed.

Lemma elem_of_bset_remove x y l : sorted l -> x ∈ bset_remove cmp y l <-> x ∈ l /\ cmp y x <> Eq.
Proof.
  induction l as [|z l IH]; intros Hs; simpl; [set_solver|].
  assert (forall w, w ∈ l -> cmp y z = Eq -> cmp y w <> Eq) as Hne.
  { intros w Hw Hz. by rewrite (cmp_eq _ _ _ Hz), (sorted_not_eq w z l Hs Hw). }
  apply StronglySorted_inv in Hs as [Hl Hz].
  destruct (cmp y z) eqn:Hc; rewrite ?elem_of_cons, ?(IH Hl); naive_solver congruence.
Qed.

Lemma bset_remove_sorted y l : sorted l -> sorted (bset_remove cmp y l).
Proof.
  intros Hs. induction Hs as [|z l Hl IH Hz]; simpl; [constructor|].
  assert (sorted (z :: bset_remove cmp y l)); [|by destruct (cmp y z)].
  constructor; [done|]. apply Forall_forall. intros x Hx. apply elem_of_bset_remove in Hx as [Hx _]; [|done].
  rewrite Forall_forall in Hz. auto.
Qed.

Lemma bset_remove_length y l : y ∈ l -> (length (bset_remove cmp y l) < length l)%nat.
Proof.
  induction l as [|z l IH]; intros Hy; simpl; [set_solver|].
  destruct (cmp y z) eqn:Hc; simpl; try lia; apply elem_of_cons in Hy as [->|Hy]; try (rewrite cmp_refl in Hc; done); apply IH in Hy; lia.
Qed.

(** The last element is the greatest. *)
Lemma bset_last_max x y l : sorted l -> last l = Some x -> y ∈ l -> y = x \/ cmp y x = Lt.
Proof.
  clear cmp_opp cmp_trans cmp_eq. intros Hs Hx Hy. apply last_Some in Hx as [l' ->]. apply elem_of_app in Hy as [Hy|Hy]; [right|left; set_solver].
  induction l' as [|z l' IH]; [set_solver|]. simpl in Hs. apply StronglySorted_inv in Hs as [Hs Hz].
  rewrite Forall_forall in Hz. apply elem_of_cons in Hy as [->|Hy]; [apply Hz; set_solver|auto].
Qed.
End bset.

Section ref_order.
Context {Hash Ex : Type}.
Implicit Types x y z : TransactionRef Hash Ex.

Lemma ref_cmp_opp x y : ref_cmp y x = CompOpp (ref_cmp x y).
Proof.
  unfold ref_cmp, then_with.
  rewrite (Z.compare_antisym (priority (ref_transaction x))), (Z.compare_antisym (valid_till (ref_transaction y))), (Z.compare_antisym (ref_insertion_id y)).
  by destruct (_ ?= _), (_ ?= _), (_ ?= _).
Qed.

Lemma ref_cmp_Eq x y : ref_cmp x y = Eq <->
  priority (ref_transaction x) = priority (ref_transaction y) /\
  valid_till (ref_transaction x) = valid_till (ref_transaction y) /\ ref_insertion_id x = ref_insertion_id y.
Proof.
  unfold ref_cmp, then_with. repeat case_match; split; try (intros (?&?&?)); intros; simplify_eq/=;
    rewrite ?Z.compare_eq_iff, ?Z.compare_lt_iff, ?Z.compare_gt_iff in *; try lia.
Qed.

Lemma ref_cmp_Lt x y : ref_cmp x y = Lt <->
  priority (ref_transaction x) < priority (ref_transaction y) \/
  priority (ref_transaction x) = priority (ref_transaction y) /\
    (valid_till (ref_transaction y) < valid_till (ref_transaction x) \/
     valid_till (ref_transaction y) = valid_till (ref_transaction x) /\ ref_insertion_id y < ref_insertion_id x).
Proof.
  unfold ref_cmp, then_with. repeat case_match; simplify_eq/=;
    rewrite ?Z.compare_eq_iff, ?Z.compare_lt_iff, ?Z.compare_gt_iff in *; split; intros; try done; lia.
Qed.

Lemma ref_cmp_trans x y z : ref_cmp x y = Lt -> ref_cmp y z = Lt -> ref_cmp x z = Lt.
Proof. rewrite !ref_cmp_Lt. lia. Qed.

Lemma ref_cmp_subst x y z : ref_cmp x y = Eq -> ref_cmp x z = ref_cmp y z.
Proof. rewrite ref_cmp_Eq. intros (Hp & Hv & Hi). unfold ref_cmp. by rewrite Hp, Hv, Hi. Qed.
End ref_order.

#[export] Hint Resolve ref_cmp_opp ref_cmp_trans ref_cmp_subst : core.

(** ** Vectors as bags *)

(** How often [x] occurs in [l]. *)
Definition occ {A} `{EqDecision A} (x : A) (l : list A) : nat := length (filter (fun y => y = x) l).

Section bags.
Context {A : Type} `{EqDecision A}.
Implicit Types l k : list A.

Lemma occ_nil (x : A) : occ x [] = 0%nat.
Proof. done. Qed.

Lemma occ_cons x y l : occ x (y :: l) = ((if decide (y = x) then 1 else 0) + occ x l)%nat.
Proof. unfold occ. rewrite filter_cons. by case_decide. Qed.

Lemma occurs_app x l k : occ x (l ++ k) = (occ x l + occ x k)%nat.
Proof. unfold occ. by rewrite filter_app, length_app. Qed.

#[export] Instance occ_proper x : Proper ((≡ₚ) ==> (=)) (occ (A := A) x).
Proof. intros l k Hl. unfold occ. by rewrite Hl. Qed.

Lemma occurs_elem x l : x ∈ l <-> (0 < occ x l)%nat.
Proof.
  unfold occ. split.
  - intros Hx. assert (x ∈ filter (fun y => y = x) l) as Hf by by apply list_elem_of_filter.
    destruct (filter _ l); [set_solver|simpl; lia].
  - destruct (filter (fun y => y = x) l) as [|y f] eqn:Hf; [simpl; lia|]. intros _.
    assert (y ∈ filter (fun y => y = x) l) as Hy by (rewrite Hf; set_solver). apply list_elem_of_filter in Hy. naive_solver.
Qed.

Lemma occ_not_elem x l : x ∉ l <-> occ x l = 0%nat.
Proof. rewrite occurs_elem. lia. Qed.

Lemma remove_item_not_elem x l : x ∉ l -> remove_item x l = l.
Proof.
  intros Hx. unfold remove_item. destruct (list_find (fun i => i = x) l) as [[i y]|] eqn:Hf; [|done].
  apply list_find_Some in Hf as (Hl & -> & _). by apply list_elem_of_lookup_2 in Hl.
Qed.

Lemma remove_item_perm x l : x ∈ l -> l ≡ₚ x :: remove_item x l.
Proof.
  intros Hx. unfold remove_item. destruct (list_find (fun i => i = x) l) as [[i y]|] eqn:Hf.
  - apply list_find_Some in Hf as (Hl & -> & _). by destruct (swap_remove_spec (E := unit) i l x Hl) as (l' & -> & Hp & _).
  - apply list_find_None in Hf. rewrite Forall_forall in Hf. by destruct (Hf x Hx).
Qed.

Lemma occ_remove_item x y l : x <> y -> occ x (remove_item y l) = occ x l.
Proof.
  intros Hxy. destruct (decide (y ∈ l)) as [Hy|Hy]; [|by rewrite remove_item_not_elem].
  rewrite (remove_item_perm y l Hy) at 2. rewrite occ_cons. by case_decide.
Qed.

Lemma remove_item_subset x y l : x ∈ remove_item y l -> x ∈ l.
Proof.
  destruct (decide (y ∈ l)) as [Hy|Hy]; [|by rewrite remove_item_not_elem]. intros Hx.
  rewrite (remove_item_perm y l Hy). set_solver.
Qed.
End bags.

(** ** Maps with tracked sizes *)

Lemma as_isize_range z : - 2 ^ 63 <= as_isize z < 2 ^ 63.
Proof. unfold as_isize. pose proof (Z.mod_pos_bound (z + 2 ^ 63) (2 ^ 64)). lia. Qed.

Lemma as_isize_id z : - 2 ^ 63 <= z < 2 ^ 63 -> as_isize z = z.
Proof. intros Hz. unfold as_isize. rewrite Z.mod_small by lia. lia. Qed.

Lemma as_isize_congr a b : (a - b) mod 2 ^ 64 = 0 -> as_isize a = as_isize b.
Proof.
  intros Hab. unfold as_isize. f_equal. apply Z.mod_divide in Hab as [k Hk]; [|lia].
  replace (a + 2 ^ 63) with (b + 2 ^ 63 + k * 2 ^ 64) by lia. by rewrite Z.mod_add by lia.
Qed.

Lemma as_isize_diff a : exists k, as_isize a = a + k * 2 ^ 64.
Proof. exists (- ((a + 2 ^ 63) / 2 ^ 64)). unfold as_isize. pose proof (Z.div_mod (a + 2 ^ 63) (2 ^ 64)). lia. Qed.

Lemma as_isize_add a b : as_isize (as_isize a + b) = as_isize (a + b).
Proof.
  destruct (as_isize_diff a) as [k ->]. apply as_isize_congr.
  replace (a + k * 2 ^ 64 + b - (a + b)) with (k * 2 ^ 64) by lia. apply Z.mod_mul. lia.
Qed.

Lemma as_isize_add_r a b : as_isize (a + as_isize b) = as_isize (a + b).
Proof. by rewrite Z.add_comm, as_isize_add, Z.add_comm. Qed.

Lemma as_isize_sub_r a b : as_isize (a - as_isize b) = as_isize (a - b).
Proof.
  destruct (as_isize_diff b) as [k ->]. apply as_isize_congr.
  replace (a - (b + k * 2 ^ 64) - (a - b)) with ((- k) * 2 ^ 64) by lia. apply Z.mod_mul. lia.
Qed.

Lemma as_isize_sub a b : as_isize (as_isize a - b) = as_isize (a - b).
Proof. rewrite <-!Z.add_opp_r. apply as_isize_add. Qed.

Section tracked.
Context {K V : Type} `{Countable K} `{Size V}.
Implicit Types m : gmap K V.
Implicit Types self : TrackedMap K V.

Definition total_size m : Z := map_fold (fun _ v acc => size_of v + acc) 0 m.

Lemma total_size_insert m k v : m !! k = None -> total_size (<[k := v]> m) = size_of v + total_size m.
Proof. intros Hk. unfold total_size. rewrite map_fold_insert_L; [done| |done]. intros. lia. Qed.

Lemma total_size_delete m k v : m !! k = Some v -> total_size m = size_of v + total_size (delete k m).
Proof. intros Hk. rewrite <-(total_size_insert (delete k m) k v) by apply lookup_delete_eq. by rewrite insert_delete_id. Qed.

Lemma total_size_update m k v w : m !! k = Some v -> size_of w = size_of v -> total_size (<[k := w]> m) = total_size m.
Proof.
  intros Hk Hs. rewrite (total_size_delete _ _ _ Hk), (total_size_delete _ k w) by apply lookup_insert_eq.
  by rewrite delete_insert_eq, Hs.
Qed.

Lemma total_size_nonneg m : (forall k v, m !! k = Some v -> 0 <= size_of v) -> 0 <= total_size m.
Proof.
  induction m as [|k v m Hk IH] using map_ind; intros Hm; [unfold total_size; by rewrite map_fold_empty|].
  rewrite total_size_insert by done. pose proof (Hm k v (lookup_insert_eq _ _ _)).
  assert (0 <= total_size m); [|lia]. apply IH. intros j w Hj. apply (Hm j w). rewrite lookup_insert_ne by congruence. done.
Qed.

(** The counters are the number of entries and the sum of their sizes, up to
    the width of the counters. *)
Definition tracked self : Prop :=
  tm_bytes self = as_isize (total_size (index self)) /\ tm_length self = as_isize (Z.of_nat (size (index self))).

Lemma tracked_default : tracked (dflt : TrackedMap K V).
Proof. split; done. Qed.

Lemma tm_insert_tracked k v self : tracked self -> tracked (tm_insert k v self).1.
Proof.
  intros [Hb Hl]. unfold tm_insert. destruct (index self !! k) as [old|] eqn:Hk; unfold tracked; simpl; rewrite Hb, Hl.
  - rewrite !as_isize_add_r, !as_isize_sub_r, !as_isize_add, !as_isize_sub. rewrite map_size_insert_Some by eauto. split; f_equal; [|lia].
    rewrite (total_size_delete (<[k := v]> (index self)) k v (lookup_insert_eq _ _ _)), (total_size_delete _ _ _ Hk).
    rewrite delete_insert_eq. lia.
  - rewrite !as_isize_add_r, !as_isize_add, total_size_insert, map_size_insert_None by done. split; f_equal; lia.
Qed.

Lemma tm_remove_tracked k self : tracked self -> tracked (tm_remove k self).1.
Proof.
  intros [Hb Hl]. unfold tm_remove. destruct (index self !! k) as [v|] eqn:Hk; unfold tracked; simpl.
  - rewrite Hb, Hl, !as_isize_sub_r, !as_isize_sub. rewrite (total_size_delete _ _ _ Hk). rewrite map_size_delete_Some by eauto.
    assert (0 < size (index self))%nat.
    { destruct (decide (size (index self) = 0%nat)) as [Hz|]; [|lia]. apply map_size_empty_iff in Hz. rewrite Hz in Hk. by rewrite lookup_empty in Hk. }
    split; f_equal; lia.
  - by rewrite delete_id.
Qed.

Lemma tm_update_tracked k v old self : tracked self -> index self !! k = Some old -> size_of v = size_of old -> tracked (tm_update k v self).
Proof.
  intros [Hb Hl] Hk Hs. unfold tracked. simpl. rewrite map_size_insert_Some by eauto. by rewrite (total_size_update _ _ _ _ Hk Hs).
Qed.

Lemma index_insert k v self : index (tm_insert k v self).1 = <[k := v]> (index self).
Proof. unfold tm_insert. by destruct (index self !! k). Qed.

Lemma index_remove k self : index (tm_remove k self).1 = delete k (index self).
Proof. unfold tm_remove. by destruct (index self !! k). Qed.

Lemma removed_value k self : (tm_remove k self).2 = index self !! k.
Proof. unfold tm_remove. by destruct (index self !! k). Qed.

(** The reported length is the number of entries as long as it can be. *)
Lemma len_exact self : tracked self -> Z.of_nat (size (index self)) < 2 ^ 63 -> len self = Z.of_nat (size (index self)).
Proof. intros [_ Hl] Hs. unfold len. rewrite Hl, as_isize_id; lia. Qed.

Lemma bytes_exact self : tracked self -> (forall k v, index self !! k = Some v -> 0 <= size_of v) ->
  total_size (index self) < 2 ^ 63 -> bytes self = total_size (index self).
Proof. intros [Hb _] Hn Hs. unfold bytes. apply total_size_nonneg in Hn. rewrite Hb, as_isize_id; lia. Qed.

Lemma tracked_empty self : tracked self -> index self = ∅ -> len self = 0 /\ bytes self = 0.
Proof. intros [Hb Hl] He. unfold len, bytes. rewrite Hb, Hl, He. done. Qed.
End tracked.

(** ** Loops that only update *)

Lemma for_each_modify {S E A} (f : A -> S -> S) l s : for_each (E := E) (fun x => modify (f x)) l s = (foldl (fun s x => f x s) s l, Ok tt).
Proof. revert s. induction l as [|x l IH]; intros s; [done|]. simpl. apply IH. Qed.

(** ** Waiting transactions *)

Section future_spec.
Context {OC : OverflowChecks} {Hash Ex : Type} `{HashOrder Hash} `{!HashOrder Tag}.
Abbreviation Tx := (Transaction Hash Ex).
Abbreviation WaitingTx := (WaitingTransaction Hash Ex).
Abbreviation Future := (FutureTransactions Hash Ex).
Implicit Types f : Future.
Implicit Types w : WaitingTx.

Abbreviation wanting f tag := (default ∅ (wanted_tags f !! tag)).
Abbreviation whash w := (hash (transaction w)).

(** A transaction waits as long as a tag is missing, and is found by the tags
    it misses. *)
Record future_inv f : Prop := {
  fi_hash h w : waiting f !! h = Some w -> whash w = h;
  fi_missing h w : waiting f !! h = Some w -> missing_tags w <> ∅;
  fi_wanted tag h : h ∈ wanting f tag <-> exists w, waiting f !! h = Some w /\ tag ∈ missing_tags w;
  fi_nonempty tag X : wanted_tags f !! tag = Some X -> X <> ∅ }.

Lemma future_inv_default : future_inv dflt.
Proof. split; simpl; try done. set_solver. Qed.

Lemma fold_wanted g (l : list Tag) f : foldl (fun f tag => with_wanted (g tag) f) f l = with_wanted (fun m => foldl (fun m tag => g tag m) m l) f.
Proof. revert f. induction l as [|t l IH]; intros f; simpl; [by destruct f|]. by rewrite IH. Qed.

Lemma lookup_want h (l : list Tag) (m : gmap Tag (gset Hash)) tag :
  foldl (fun m t => want h t m) m l !! tag = if decide (tag ∈ l) then Some ({[h]} ∪ default ∅ (m !! tag)) else m !! tag.
Proof.
  revert m. induction l as [|t l IH]; intros m; cbn [foldl]; [by rewrite decide_False by set_solver|]. rewrite IH. unfold want.
  destruct (decide (t = tag)) as [->|Ht].
  - rewrite lookup_insert_eq, (decide_True (P := tag ∈ tag :: l)) by set_solver. case_decide; [simpl; f_equal; set_solver|done].
  - rewrite lookup_insert_ne by done. destruct (decide (tag ∈ l)); [rewrite decide_True by set_solver|rewrite decide_False by set_solver]; done.
Qed.

Lemma future_import_run {E} w f : future_inv f -> missing_tags w <> ∅ -> waiting f !! whash w = None ->
  exists f', future_import (E := E) w f = (f', Ok tt) /\ future_inv f' /\ waiting f' = <[whash w := w]> (waiting f).
Proof.
  intros Hi Hm Hf. unfold future_import. erewrite bind_Ok by (unfold is_ready; rewrite bool_decide_false by done; reflexivity).
  erewrite bind_Ok by reflexivity. erewrite bind_Ok by (rewrite bool_decide_true by done; reflexivity).
  erewrite bind_Ok by apply for_each_modify. cbn beta. rewrite (fold_wanted (want (whash w))). eexists. split; [reflexivity|]. split; [|done].
  split; simpl.
  - intros h x. destruct (decide (h = whash w)) as [->|Hh]; [rewrite lookup_insert_eq; congruence|].
    rewrite lookup_insert_ne by done. apply Hi.
  - intros h x. destruct (decide (h = whash w)) as [->|Hh]; [rewrite lookup_insert_eq; congruence|].
    rewrite lookup_insert_ne by done. apply Hi.
  - intros tag h. rewrite lookup_want. destruct (decide (h = whash w)) as [->|Hh].
    + rewrite lookup_insert_eq. assert (whash w ∉ wanting f tag) by (rewrite (fi_wanted f Hi); intros (x & Hx & _); congruence).
      destruct (decide (tag ∈ hash_iter (missing_tags w))) as [Ht|Ht]; rewrite elem_of_hash_iter in Ht; simpl; [set_solver|].
      split; [done|]. intros (x & Hx & Hxt). by simplify_eq.
    + rewrite lookup_insert_ne by done. rewrite <-(fi_wanted f Hi). case_decide; simpl; set_solver.
  - intros tag X. rewrite lookup_want. case_decide; [intros [= <-]; set_solver|apply Hi].
Qed.

(** What remains of a waiting transaction when the tags [T] are provided. *)
Definition still_waiting (T : gset Tag) w : option WaitingTx :=
  if decide (missing_tags w ⊆ T) then None else Some (mkWaiting (transaction w) (missing_tags w ∖ T) (imported_at w)).

Lemma still_waiting_keep T w : missing_tags w <> ∅ -> missing_tags w ## T -> still_waiting T w = Some w.
Proof.
  intros Hm HT. unfold still_waiting. rewrite decide_False by set_solver.
  replace (missing_tags w ∖ T) with (missing_tags w) by set_solver. by destruct w.
Qed.

Lemma still_waiting_union T T' w : still_waiting T w ≫= still_waiting T' = still_waiting (T ∪ T') w.
Proof.
  unfold still_waiting. destruct (decide (missing_tags w ⊆ T)); simpl; [by rewrite decide_True by set_solver|].
  destruct (decide (missing_tags w ∖ T ⊆ T')) as [HT|HT]; [rewrite decide_True; [done|]|rewrite decide_False; [do 2 f_equal; set_solver|]].
  - intros t Ht. destruct (decide (t ∈ T)); set_solver.
  - set_solver.
Qed.

(** The transaction as it leaves the queue. *)
Definition made_ready w : WaitingTx := mkWaiting (transaction w) ∅ (imported_at w).

Lemma satisfy_one_run {E} tag acc h w f : waiting f !! h = Some w ->
  satisfy_one (E := E) tag acc h f =
    (with_waiting (partial_alter (fun _ => still_waiting {[tag]} w) h) f, Ok (acc ++ if decide (missing_tags w ⊆ {[tag]}) then [made_ready w] else [])).
Proof.
  intros Hw. unfold satisfy_one. erewrite bind_Ok by reflexivity. erewrite bind_Ok by (rewrite Hw; reflexivity).
  erewrite bind_Ok by reflexivity. unfold is_ready, still_waiting. cbn [satisfy_tag missing_tags].
  destruct (decide (missing_tags w ⊆ {[tag]})) as [Hm|Hm].
  - rewrite bool_decide_true by set_solver. erewrite bind_Ok by reflexivity. unfold mret, M_mret, with_waiting, made_ready, satisfy_tag. simpl.
    rewrite delete_insert_eq. replace (missing_tags w ∖ {[tag]}) with (∅ : gset Tag) by set_solver. done.
  - rewrite bool_decide_false by (intros He; by apply Hm, empty_difference_subseteq_L). by rewrite app_nil_r.
Qed.

Lemma satisfy_hashes_run {E} tag hs acc f : NoDup hs -> (forall h, h ∈ hs -> is_Some (waiting f !! h)) ->
  exists f' ws, fold_each (E := E) (satisfy_one tag) acc hs f = (f', Ok (acc ++ ws)) /\ wanted_tags f' = wanted_tags f /\
    (forall h, waiting f' !! h = if decide (h ∈ hs) then waiting f !! h ≫= still_waiting {[tag]} else waiting f !! h) /\
    ws = omap (fun h => w ← waiting f !! h; if decide (missing_tags w ⊆ {[tag]}) then Some (made_ready w) else None) hs.
Proof.
  revert acc f. induction hs as [|h hs IH]; intros acc f Hnd Hhs.
  { exists f, []. rewrite app_nil_r. split_and!; [done..| |done]. intros h. by rewrite decide_False by set_solver. }
  apply NoDup_cons in Hnd as [Hh Hnd]. destruct (Hhs h ltac:(set_solver)) as [w Hw]. cbn [fold_each].
  erewrite bind_Ok by by apply satisfy_one_run.
  set (f1 := with_waiting _ f).
  assert (forall h', h' <> h -> waiting f1 !! h' = waiting f !! h') as Hf1 by (intros; simpl; by rewrite lookup_partial_alter_ne).
  edestruct (IH (acc ++ (if decide (missing_tags w ⊆ {[tag]}) then [made_ready w] else [])) f1 Hnd) as (f' & ws & Hrun & Hwt & Hlk & Hws).
  { intros h' Hh'. rewrite Hf1 by set_solver. apply Hhs. set_solver. }
  eexists f', _. split_and!; [rewrite Hrun; by rewrite <-app_assoc|done| |].
  - intros h'. rewrite Hlk. destruct (decide (h' = h)) as [->|Hne].
    + rewrite decide_False, decide_True by set_solver. simpl. rewrite lookup_partial_alter_eq. by rewrite Hw.
    + rewrite Hf1 by done. destruct (decide (h' ∈ hs)); [rewrite decide_True by set_solver|rewrite decide_False by set_solver]; done.
  - rewrite Hws. cbn [omap list_omap]. rewrite Hw. cbn [mbind option_bind].
    rewrite (list_omap_ext (fun h' => x ← waiting f1 !! h'; if decide (missing_tags x ⊆ {[tag]}) then Some (made_ready x) else None)
      (fun h' => x ← waiting f !! h'; if decide (missing_tags x ⊆ {[tag]}) then Some (made_ready x) else None) hs hs); [by case_decide|].
    apply Forall2_same_length_lookup. split; [done|]. intros i x y Hx Hy. simplify_eq.
    rewrite Hf1; [done|]. intros ->. by apply list_elem_of_lookup_2 in Hx.
Qed.

(** Providing the tags [T] takes out exactly the transactions that missed no
    other tag, and leaves the others with the tags they still miss. *)
Record satisfied (T : gset Tag) f (ws : list WaitingTx) f' : Prop := {
  sa_inv : future_inv f';
  sa_waiting : waiting f' = omap (still_waiting T) (waiting f);
  sa_ready w' : w' ∈ ws <-> exists h w, waiting f !! h = Some w /\ missing_tags w ⊆ T /\ w' = made_ready w;
  sa_nodup : NoDup ((fun w => whash w) <$> ws) }.

Lemma satisfied_lookup T f ws f' h w : satisfied T f ws f' -> waiting f' !! h = Some w <->
  exists w0, waiting f !! h = Some w0 /\ ~ missing_tags w0 ⊆ T /\ w = mkWaiting (transaction w0) (missing_tags w0 ∖ T) (imported_at w0).
Proof.
  intros Hs. rewrite (sa_waiting _ _ _ _ Hs), lookup_omap. unfold still_waiting. destruct (waiting f !! h) as [w0|]; simpl; [|naive_solver].
  case_decide; naive_solver.
Qed.

Lemma satisfied_hash T f ws f' w : future_inv f -> satisfied T f ws f' -> w ∈ ws ->
  exists w0, waiting f !! whash w = Some w0 /\ missing_tags w0 ⊆ T /\ w = made_ready w0.
Proof.
  intros Hi Hs Hw. apply (sa_ready _ _ _ _ Hs) in Hw as (h & w0 & Hh & Hm & ->). exists w0. cbn [made_ready transaction].
  by rewrite (fi_hash f Hi h w0 Hh).
Qed.

Lemma satisfied_gone T f ws f' w : future_inv f -> satisfied T f ws f' -> w ∈ ws -> waiting f' !! whash w = None.
Proof.
  intros Hi Hs Hw. destruct (satisfied_hash _ _ _ _ _ Hi Hs Hw) as (w0 & Hw0 & Hm & _).
  rewrite (sa_waiting _ _ _ _ Hs), lookup_omap, Hw0. simpl. unfold still_waiting. by rewrite decide_True.
Qed.

Lemma satisfied_app T T' f f1 f2 ws ws' : future_inv f -> satisfied T f ws f1 -> satisfied T' f1 ws' f2 -> satisfied (T ∪ T') f (ws ++ ws') f2.
Proof.
  intros Hi H1 H2. split.
  - apply H2.
  - rewrite (sa_waiting _ _ _ _ H2), (sa_waiting _ _ _ _ H1). apply map_eq. intros h. rewrite !lookup_omap.
    destruct (waiting f !! h) as [w|]; simpl; [apply still_waiting_union|done].
  - intros w'. rewrite elem_of_app, (sa_ready _ _ _ _ H1), (sa_ready _ _ _ _ H2). split.
    + intros [(h & w & Hw & Hm & ->)|(h & w & Hw & Hm & ->)]; [exists h, w; set_solver|].
      apply (satisfied_lookup _ _ _ _ _ _ H1) in Hw as (w0 & Hw0 & _ & ->). simpl in Hm. exists h, w0. split_and!; [done| |done].
      intros t Ht. destruct (decide (t ∈ T)); set_solver.
    + intros (h & w & Hw & Hm & ->). destruct (decide (missing_tags w ⊆ T)) as [HT|HT]; [left; eauto|right].
      exists h, (mkWaiting (transaction w) (missing_tags w ∖ T) (imported_at w)). split_and!; [|simpl; set_solver|done].
      apply (satisfied_lookup _ _ _ _ _ _ H1). eauto.
  - rewrite fmap_app. apply NoDup_app. split_and!; [apply H1| |apply H2]. intros h Hh Hh'.
    apply list_elem_of_fmap in Hh as (w & -> & Hw). apply list_elem_of_fmap in Hh' as (w' & Heq & Hw').
    pose proof (satisfied_gone _ _ _ _ _ Hi H1 Hw) as Hnone.
    destruct (satisfied_hash _ _ _ _ _ (sa_inv _ _ _ _ H1) H2 Hw') as (w0 & Hw0 & _). congruence.
Qed.

(** The number of transactions that leave the queue. *)
Lemma satisfied_size T f ws f' : future_inv f -> satisfied T f ws f' -> (size (waiting f') + length ws)%nat = size (waiting f).
Proof.
  intros Hi Hs. rewrite <-!size_dom. rewrite <-(length_fmap (fun w => whash w) ws), <-(size_list_to_set (C := gset Hash)) by apply Hs.
  rewrite <-size_union; [f_equal|].
  - apply set_eq. intros h. rewrite elem_of_union, elem_of_list_to_set, !elem_of_dom. split.
    + intros [[w Hw]|Hh]; [apply (satisfied_lookup _ _ _ _ _ _ Hs) in Hw; naive_solver|].
      apply list_elem_of_fmap in Hh as (w & -> & Hw). destruct (satisfied_hash _ _ _ _ _ Hi Hs Hw) as (w0 & Hw0 & _). eauto.
    + intros [w Hw]. destruct (decide (missing_tags w ⊆ T)).
      * right. apply list_elem_of_fmap. exists (made_ready w). split; [cbn [made_ready transaction]; symmetry; by apply (fi_hash f Hi)|]. apply Hs. eauto.
      * left. eexists. apply (satisfied_lookup _ _ _ _ _ _ Hs). eauto.
  - intros h Hd Hh. apply elem_of_list_to_set, list_elem_of_fmap in Hh as (w & -> & Hw).
    apply elem_of_dom in Hd as [w1 Hw1]. by rewrite (satisfied_gone _ _ _ _ _ Hi Hs Hw) in Hw1.
Qed.

Lemma satisfied_nil T f : future_inv f -> (forall h w, waiting f !! h = Some w -> missing_tags w ## T) -> satisfied T f [] f.
Proof.
  intros Hi HT. split; [done| | |constructor].
  - apply map_eq. intros h. rewrite lookup_omap. destruct (waiting f !! h) as [w|] eqn:Hw; [|done]. simpl.
    symmetry. apply still_waiting_keep; [by apply (fi_missing f Hi h)|by eapply HT].
  - intros w'. split; [set_solver|]. intros (h & w & Hw & Hm & _). specialize (HT h w Hw). by destruct (fi_missing f Hi h w Hw); set_solver.
Qed.

(** One tag of the loop of [satisfy_tags]. *)
Lemma satisfy_tag_run tag f f' X : future_inv f -> wanted_tags f !! tag = Some X -> wanted_tags f' = delete tag (wanted_tags f) ->
  (forall h, waiting f' !! h = if decide (h ∈ hash_iter X) then waiting f !! h ≫= still_waiting {[tag]} else waiting f !! h) ->
  satisfied {[tag]} f (omap (fun h => w ← waiting f !! h; if decide (missing_tags w ⊆ {[tag]}) then Some (made_ready w) else None) (hash_iter X)) f'.
Proof.
  intros Hi HX Hwt Hlk.
  assert (forall h, h ∈ X <-> exists w, waiting f !! h = Some w /\ tag ∈ missing_tags w) as HXw by (intros h; rewrite <-(fi_wanted f Hi), HX; done).
  assert (waiting f' = omap (still_waiting {[tag]}) (waiting f)) as Hm.
  { apply map_eq. intros h. rewrite Hlk, lookup_omap. case_decide as Hh; [done|]. rewrite elem_of_hash_iter, HXw in Hh.
    destruct (waiting f !! h) as [w|] eqn:Hw; [|done]. simpl. symmetry. apply still_waiting_keep; [by apply (fi_missing f Hi h)|set_solver]. }
  assert (forall h w, waiting f' !! h = Some w <-> exists w0, waiting f !! h = Some w0 /\ ~ missing_tags w0 ⊆ {[tag]} /\
    w = mkWaiting (transaction w0) (missing_tags w0 ∖ {[tag]}) (imported_at w0)) as Hw'.
  { intros h w. rewrite Hm, lookup_omap. unfold still_waiting. destruct (waiting f !! h) as [w0|]; simpl; [|naive_solver]. case_decide; naive_solver. }
  split; [|done| |].
  - split.
    + intros h w (w0 & Hw0 & _ & ->)%Hw'. exact (fi_hash f Hi h w0 Hw0).
    + intros h w (w0 & Hw0 & Hns & ->)%Hw'. simpl. intros He. by apply Hns, empty_difference_subseteq_L.
    + intros t h. rewrite Hwt. destruct (decide (t = tag)) as [->|Ht].
      * rewrite lookup_delete_eq. split; [simpl; set_solver|]. intros (w & (w0 & _ & _ & ->)%Hw' & Hin). simpl in Hin. set_solver.
      * rewrite lookup_delete_ne by done. rewrite (fi_wanted f Hi). split.
        -- intros (w & Hw & Hin). eexists. split; [apply Hw'; exists w; split_and!; [done|set_solver|done]|simpl; set_solver].
        -- intros (w & (w0 & Hw0 & _ & ->)%Hw' & Hin). exists w0. split; [done|]. simpl in Hin. set_solver.
    + intros t Y. rewrite Hwt, lookup_delete_Some. intros [_ HY]. by eapply fi_nonempty.
  - intros w'. rewrite list_elem_of_omap. split.
    + intros (h & Hh & Heq). destruct (waiting f !! h) as [w|] eqn:Hw; simpl in Heq; [|done]. case_decide; simplify_eq. eauto.
    + intros (h & w & Hw & Hs & ->). exists h. rewrite Hw. simpl. rewrite decide_True by done. split; [|done].
      apply elem_of_hash_iter, HXw. exists w. split; [done|]. pose proof (fi_missing f Hi h w Hw) as Hne. apply set_choose_L in Hne as [t Ht]. set_solver.
  - assert (forall l, NoDup l -> NoDup ((fun w => whash w) <$> omap (fun h => w ← waiting f !! h; if decide (missing_tags w ⊆ {[tag]}) then Some (made_ready w) else None) l)) as Hnd; [|apply Hnd, NoDup_hash_iter].
    induction 1 as [|h l Hh Hl IH]; [constructor|]. cbn [omap list_omap]. destruct (waiting f !! h) as [w|] eqn:Hw; [|done]. cbn [mbind option_bind].
    case_decide; [|done]. rewrite fmap_cons. constructor; [|done]. cbn [made_ready transaction]. rewrite (fi_hash f Hi h w Hw).
    intros Hin. apply list_elem_of_fmap in Hin as (w' & Heq & Hin). apply list_elem_of_omap in Hin as (h' & Hh' & Hsome).
    destruct (waiting f !! h') as [w1|] eqn:Hw1; simpl in Hsome; [|done]. case_decide; simplify_eq. cbn [made_ready transaction] in Hh.
    by rewrite (fi_hash f Hi h' w1 Hw1) in Hh.
Qed.

Lemma satisfy_tags_run {E} tags f : future_inv f ->
  exists f' ws, satisfy_tags (E := E) tags f = (f', Ok ws) /\ satisfied (list_to_set tags) f ws f'.
Proof.
  intros Hi. unfold satisfy_tags.
  assert (forall tags f0 acc T, satisfied T f acc f0 -> exists f' ws, fold_each (E := E) satisfy_wanted acc tags f0 = (f', Ok ws) /\
    satisfied (T ∪ list_to_set tags) f ws f') as Hloop.
  2: { destruct (Hloop tags f [] ∅) as (f' & ws & Hrun & Hs); [apply satisfied_nil; [done|set_solver]|].
    exists f', ws. split; [done|]. by rewrite union_empty_l_L in Hs. }
  clear tags. intros tags. induction tags as [|tag tags IH]; intros f0 acc T Hs.
  { exists f0, acc. split; [done|]. rewrite list_to_set_nil. by rewrite union_empty_r_L. }
  pose proof (sa_inv _ _ _ _ Hs) as Hi0. rewrite list_to_set_cons, union_assoc_L. cbn [fold_each].
  destruct (wanted_tags f0 !! tag) as [X|] eqn:HX.
  - destruct (satisfy_hashes_run (E := E) tag (hash_iter X) acc (with_wanted (delete tag) f0)) as (f' & ws & Hrun & Hwt & Hlk & Hws);
      [apply NoDup_hash_iter| |].
    { intros h Hh. apply elem_of_hash_iter in Hh. assert (h ∈ wanting f0 tag) as Hin by by rewrite HX.
      apply (fi_wanted f0 Hi0) in Hin as (w & Hw & _). cbn [with_wanted waiting]. eauto. }
    erewrite bind_Ok. 2: { unfold satisfy_wanted. erewrite bind_Ok by reflexivity. rewrite HX. erewrite bind_Ok by reflexivity. exact Hrun. }
    apply IH. eapply satisfied_app; [done|done|]. cbn [with_wanted waiting] in Hws. rewrite Hws. by apply satisfy_tag_run.
  - erewrite bind_Ok. 2: { unfold satisfy_wanted. erewrite bind_Ok by reflexivity. rewrite HX. reflexivity. }
    apply IH. rewrite <-(app_nil_r acc). eapply satisfied_app; [done|done|]. apply satisfied_nil; [done|].
    intros h w Hw t Ht Htag. apply elem_of_singleton in Htag as ->.
    assert (h ∈ wanting f0 tag) as Hin by (apply (fi_wanted f0 Hi0); eauto). by rewrite HX in Hin.
Qed.

Lemma lookup_unwant h (l : list Tag) (m : gmap Tag (gset Hash)) tag : (forall t X, m !! t = Some X -> X <> ∅) ->
  let m' := foldl (fun m t => unwant h t m) m l in
  default ∅ (m' !! tag) = (if decide (tag ∈ l) then default ∅ (m !! tag) ∖ {[h]} else default ∅ (m !! tag)) /\
  (forall t X, m' !! t = Some X -> X <> ∅).
Proof.
  revert m. induction l as [|t l IH]; intros m Hm; cbn [foldl]; [split; [by rewrite decide_False by set_solver|done]|].
  destruct (IH (unwant h t m)) as [Hlk Hne].
  { intros t' X. unfold unwant. destruct (m !! t) as [Y|] eqn:HY; [|apply Hm]. case_bool_decide; [rewrite lookup_delete_Some; naive_solver|].
    destruct (decide (t = t')) as [->|]; [rewrite lookup_insert_eq; congruence|rewrite lookup_insert_ne by done; apply Hm]. }
  split; [|done]. rewrite Hlk.
  assert (default ∅ (unwant h t m !! tag) = if decide (tag = t) then default ∅ (m !! tag) ∖ {[h]} else default ∅ (m !! tag)) as ->.
  { unfold unwant. destruct (decide (tag = t)) as [->|Ht].
    - destruct (m !! t) as [Y|] eqn:HY; [|rewrite HY; simpl; set_solver]. case_bool_decide as He; [rewrite lookup_delete_eq; simpl; set_solver|by rewrite lookup_insert_eq].
    - destruct (m !! t) as [Y|] eqn:HY; [|done]. case_bool_decide; [by rewrite lookup_delete_ne by done|by rewrite lookup_insert_ne by done]. }
  destruct (decide (tag ∈ l)), (decide (tag = t)); [rewrite decide_True by set_solver|rewrite decide_True by set_solver|rewrite decide_True by set_solver|rewrite decide_False by set_solver];
    set_solver.
Qed.

(** Removal of one transaction. *)
Lemma future_delete_inv h w f : future_inv f -> waiting f !! h = Some w ->
  future_inv (foldl (fun f tag => with_wanted (unwant h tag) f) (with_waiting (delete h) f) (hash_iter (missing_tags w))).
Proof.
  intros Hi Hw. rewrite (fold_wanted (unwant h)). destruct (lookup_unwant h (hash_iter (missing_tags w)) (wanted_tags f) [] (fi_nonempty f Hi)) as [_ Hne].
  split; simpl; [| | |done].
  - intros h' x. rewrite lookup_delete_Some. intros [_ Hx]. by apply (fi_hash f Hi).
  - intros h' x. rewrite lookup_delete_Some. intros [_ Hx]. by apply (fi_missing f Hi h').
  - intros tag h'. destruct (lookup_unwant h (hash_iter (missing_tags w)) (wanted_tags f) tag (fi_nonempty f Hi)) as [Hlk _]. rewrite Hlk. clear Hlk.
    pose proof (fi_wanted f Hi tag h') as Hfi. destruct (decide (h' = h)) as [->|Hh].
    + rewrite lookup_delete_eq. split; [|naive_solver]. case_decide as Hin; [set_solver|]. rewrite elem_of_hash_iter in Hin. rewrite Hfi. naive_solver.
    + rewrite lookup_delete_ne by done. rewrite <-Hfi. case_decide; set_solver.
Qed.

Lemma future_remove_run {E} hashes f : future_inv f ->
  exists f' txs, future_remove (E := E) hashes f = (f', Ok txs) /\ future_inv f' /\
    waiting f' = filter (fun p => p.1 ∉ hashes) (waiting f) /\
    (forall tx, tx ∈ txs <-> exists h w, h ∈ hashes /\ waiting f !! h = Some w /\ tx = transaction w).
Proof.
  intros Hi. unfold future_remove.
  assert (forall hashes before f0 acc, future_inv f0 -> waiting f0 = filter (fun p => p.1 ∉ before) (waiting f) ->
    (forall tx, tx ∈ acc <-> exists h w, h ∈ before /\ waiting f !! h = Some w /\ tx = transaction w) ->
    exists f' txs, fold_each (E := E) remove_waiting acc hashes f0 = (f', Ok txs) /\ future_inv f' /\
      waiting f' = filter (fun p => p.1 ∉ before ++ hashes) (waiting f) /\
      (forall tx, tx ∈ txs <-> exists h w, h ∈ before ++ hashes /\ waiting f !! h = Some w /\ tx = transaction w)) as Hloop.
  2: { apply (Hloop hashes [] f []); [done| |set_solver]. symmetry. apply map_filter_id. set_solver. }
  clear hashes. intros hashes. induction hashes as [|h hashes IH]; intros before f0 acc Hi0 Hf Ht.
  { exists f0, acc. rewrite app_nil_r. done. }
  cbn [fold_each]. rewrite cons_middle, app_assoc. pose proof (f_equal (lookup h) Hf) as Hlk. rewrite map_lookup_filter in Hlk.
  destruct (waiting f0 !! h) as [w|] eqn:Hw.
  - assert (waiting f !! h = Some w /\ h ∉ before) as [Hfw Hnd].
    { destruct (waiting f !! h) as [w1|]; simpl in Hlk; [|done]. case_guard; simpl in Hlk; naive_solver. }
    erewrite bind_Ok. 2: { unfold remove_waiting. erewrite bind_Ok by reflexivity. rewrite Hw. erewrite bind_Ok by reflexivity. erewrite bind_Ok by apply for_each_modify. reflexivity. }
    apply IH; [by apply future_delete_inv| |].
    + rewrite (fold_wanted (unwant h)). simpl. rewrite Hf. apply map_eq. intros h'. destruct (decide (h' = h)) as [->|Hh].
      * rewrite lookup_delete_eq. symmetry. apply map_lookup_filter_None. right. set_solver.
      * rewrite lookup_delete_ne by done. rewrite !map_lookup_filter. destruct (waiting f !! h'); simpl; [|done]. repeat case_guard; set_solver.
    + intros tx. rewrite elem_of_app, Ht. set_solver.
  - erewrite bind_Ok. 2: { unfold remove_waiting. erewrite bind_Ok by reflexivity. rewrite Hw. reflexivity. }
    assert (waiting f !! h = None \/ h ∈ before) as Hor.
    { destruct (waiting f !! h) as [w1|]; simpl in Hlk; [|by left]. right. case_guard; simpl in Hlk; [done|]. destruct (decide (h ∈ before)); naive_solver. }
    apply IH; [done| |].
    + rewrite Hf. apply map_eq. intros h'. rewrite !map_lookup_filter. destruct (waiting f !! h') as [w'|] eqn:Hw'; simpl; [|done].
      repeat case_guard; try done; set_solver.
    + intros tx. rewrite Ht. split; [set_solver|]. intros (h' & w & Hin & Hw' & ->). set_solver.
Qed.

Lemma elem_of_future_all f tx : tx ∈ future_all f <-> exists h w, waiting f !! h = Some w /\ tx = transaction w.
Proof.
  unfold future_all. rewrite list_elem_of_fmap. split.
  - intros (w & -> & Hw). apply elem_of_hash_values in Hw as [h Hw]. eauto.
  - intros (h & w & Hw & ->). exists w. split; [done|]. apply elem_of_hash_values. eauto.
Qed.

Lemma future_clear_run {E} f : future_clear (E := E) f = (dflt, Ok (future_all f)).
Proof. done. Qed.

#[export] Instance WaitingTransaction_size : Size WaitingTx := fun w => tx_bytes (transaction w).

Lemma hash_values_perm {V} (m : gmap Hash V) : hash_values m ≡ₚ (map_to_list m).*2.
Proof.
  unfold hash_values. rewrite hash_iter_perm.
  assert (elements (dom m) ≡ₚ (map_to_list m).*1) as ->.
  { apply NoDup_Permutation; [apply NoDup_elements|apply NoDup_fst_map_to_list|]. intros k. rewrite elem_of_elements, elem_of_dom, list_elem_of_fmap.
    split; [intros [v Hv]; exists (k, v); split; [done|by apply elem_of_map_to_list]|intros ([k' v] & -> & Hv); apply elem_of_map_to_list in Hv; eauto]. }
  assert (forall l, (forall p, p ∈ l -> m !! p.1 = Some p.2) -> omap (fun k => m !! k) l.*1 = l.*2) as Hl.
  { induction l as [|p l IH]; intros Hp; [done|]. rewrite !fmap_cons. cbn [omap list_omap]. rewrite (Hp p) by set_solver.
    f_equal. apply IH. set_solver. }
  rewrite Hl; [done|]. intros [k v] Hp. by apply elem_of_map_to_list in Hp.
Qed.

(** The size of the queue is the sum of the sizes, if it can be represented. *)
Lemma future_bytes_run {E} f : (forall h w, waiting f !! h = Some w -> 0 <= tx_bytes (transaction w)) ->
  total_size (waiting f) < 2 ^ 64 -> future_bytes (E := E) f = Ok (total_size (waiting f)).
Proof.
  intros Hn Hs. unfold future_bytes.
  assert (total_size (waiting f) = foldr Z.add 0 ((fun w => tx_bytes (transaction w)) <$> hash_values (waiting f))) as Ht.
  { assert (forall l k : list Z, l ≡ₚ k -> foldr Z.add 0 l = foldr Z.add 0 k) as Hp by (induction 1; simpl; lia).
    rewrite (Hp _ _ (fmap_Permutation _ _ _ (hash_values_perm (waiting f)))). unfold total_size. rewrite map_fold_foldr. clear.
    induction (map_to_list (waiting f)) as [|[h w] l IH]; [done|]. rewrite !fmap_cons. cbn [foldr uncurry]. by rewrite IH. }
  rewrite Ht in *. clear Ht.
  assert (Forall (fun w => 0 <= tx_bytes (transaction w)) (hash_values (waiting f))) as Hf.
  { apply Forall_forall. intros w Hw. apply elem_of_hash_values in Hw as [h Hw]. eauto. }
  enough (forall a l, 0 <= a -> Forall (fun w => 0 <= tx_bytes (transaction w)) l -> a + foldr Z.add 0 ((fun w => tx_bytes (transaction w)) <$> l) < 2 ^ 64 ->
    foldl (fun acc tx => a ← acc; uadd (E := E) 64 a (tx_bytes (transaction tx))) (Ok a) l = Ok (a + foldr Z.add 0 ((fun w => tx_bytes (transaction w)) <$> l))) as Hl
    by (apply (Hl 0); [lia|done|lia]).
  clear. intros a l. revert a. induction l as [|w l IH]; intros a Ha Hf Hs; [simpl; by rewrite Z.add_0_r|].
  apply Forall_cons in Hf as [Hw Hf]. rewrite fmap_cons in *. cbn [foldr foldl] in *.
  assert (0 <= foldr Z.add 0 ((fun w => tx_bytes (transaction w)) <$> l)) by (clear -Hf; induction Hf; [done|]; rewrite fmap_cons; cbn [foldr]; lia).
  cbn [mbind res_mbind]. rewrite uadd_ok by (unfold is_u; lia). rewrite IH; [f_equal; lia|lia|done|lia].
Qed.
End future_spec.
