(* ===== verification/TxReady.v ===== *)
(** * Ready transactions

    The invariant of the queue of ready transactions and its operations:
    removal of subtrees, replacement, import, and pruning of tags.  Under the
    invariant no assertion of the code fails, removal takes out exactly what
    depends on the given transactions, and the counters of satisfied
    requirements agree with the links between the transactions. *)

From Stdlib Require Import ZArith Lia Sorted.
From stdpp Require Import gmap fin_maps fin_sets option list relations.
From S2P Require Import Prelude TxPool TxQueues.

Local Open Scope Z_scope.

(** ** Links

    A ready transaction lists in [unlocks] those that wait for it, once for
    each tag. *)
Section links.
Context {Hash Ex : Type} `{Countable Hash}.
Abbreviation RTx := (ReadyTx Hash Ex).
Implicit Types m : gmap Hash RTx.

(** How many links lead to [h]. *)
Definition links m (h : Hash) : nat := map_fold (fun _ t n => (occ h (unlocks t) + n)%nat) 0%nat m.

Lemma links_empty h : links ∅ h = 0%nat.
Proof. done. Qed.

Lemma links_insert m k t h : m !! k = None -> links (<[k := t]> m) h = (occ h (unlocks t) + links m h)%nat.
Proof. intros Hk. unfold links. rewrite map_fold_insert_L; [done| |done]. intros. lia. Qed.

Lemma links_delete m k t h : m !! k = Some t -> links m h = (occ h (unlocks t) + links (delete k m) h)%nat.
Proof. intros Hk. rewrite <-(links_insert (delete k m) k t) by apply lookup_delete_eq. by rewrite insert_delete_id. Qed.

Lemma links_update m k t t' h : m !! k = Some t -> (links (<[k := t']> m) h + occ h (unlocks t) = links m h + occ h (unlocks t'))%nat.
Proof.
  intros Hk. rewrite (links_delete m k t h Hk), (links_delete (<[k := t']> m) k t' h (lookup_insert_eq _ _ _)).
  rewrite delete_insert_eq. lia.
Qed.

Lemma links_same m k t t' h : m !! k = Some t -> occ h (unlocks t') = occ h (unlocks t) -> links (<[k := t']> m) h = links m h.
Proof. intros Hk Ho. pose proof (links_update m k t t' h Hk). lia. Qed.

Lemma links_pos m h : (0 < links m h)%nat <-> exists k t, m !! k = Some t /\ h ∈ unlocks t.
Proof.
  induction m as [|k t m Hk IH] using map_ind.
  { rewrite links_empty. split; [lia|]. intros (k & t & Hk & _). by rewrite lookup_empty in Hk. }
  rewrite links_insert by done. destruct (decide (h ∈ unlocks t)) as [Hh|Hh].
  - pose proof (proj1 (occurs_elem h (unlocks t)) Hh). split; [|lia]. intros _. exists k, t. by rewrite lookup_insert_eq.
  - rewrite (proj1 (occ_not_elem h (unlocks t)) Hh), Nat.add_0_l, IH. split.
    + intros (k' & t' & Hk' & Ht'). exists k', t'. rewrite lookup_insert_ne by congruence. done.
    + intros (k' & t' & Hk' & Ht'). apply lookup_insert_Some in Hk' as [[-> ->]|[_ Hk']]; [done|eauto].
Qed.

Lemma links_zero m h : links m h = 0%nat <-> forall k t, m !! k = Some t -> h ∉ unlocks t.
Proof.
  pose proof (links_pos m h) as Hp. split.
  - intros Hz k t Hk Hh. enough (0 < links m h)%nat by lia. apply Hp. eauto.
  - intros Hn. destruct (decide (links m h = 0%nat)); [done|]. destruct (proj1 Hp ltac:(lia)) as (k & t & Hk & Ht). by destruct (Hn k t).
Qed.

Lemma links_filter_ext m (P Q : Hash -> Prop) `{!forall x, Decision (P x)} `{!forall x, Decision (Q x)} h :
  (forall k t, m !! k = Some t -> h ∈ unlocks t -> P k <-> Q k) ->
  links (filter (fun p => P p.1) m) h = links (filter (fun p => Q p.1) m) h.
Proof.
  induction m as [|k t m Hk IH] using map_ind; intros Hpq; [done|].
  assert (forall (R : Hash -> Prop) `{!forall x, Decision (R x)}, links (filter (fun p => R p.1) (<[k := t]> m)) h
    = ((if decide (R k) then occ h (unlocks t) else 0) + links (filter (fun p => R p.1) m) h)%nat) as Hstep.
  { intros R ?. destruct (decide (R k)) as [HR|HR].
    - rewrite map_filter_insert_True by done. apply links_insert. apply map_lookup_filter_None. by left.
    - by rewrite map_filter_insert_False, delete_id by done. }
  rewrite !Hstep, IH.
  - destruct (decide (h ∈ unlocks t)) as [Hh|Hh]; [|rewrite (proj1 (occ_not_elem _ _) Hh); by repeat case_decide].
    destruct (Hpq k t (lookup_insert_eq _ _ _) Hh). repeat case_decide; tauto || lia.
  - intros k' t' Hk' Ht'. apply (Hpq k' t'); [|done]. rewrite lookup_insert_ne by congruence. done.
Qed.

Lemma links_split m (P : Hash -> Prop) `{!forall x, Decision (P x)} h :
  links m h = (links (filter (fun p => P p.1) m) h + links (filter (fun p => ~ P p.1) m) h)%nat.
Proof.
  induction m as [|k t m Hk IH] using map_ind; [done|]. rewrite links_insert by done. destruct (decide (P k)).
  - rewrite map_filter_insert_True, links_insert, map_filter_insert_False, delete_id; [lia|done|naive_solver| |done].
    apply map_lookup_filter_None. by left.
  - rewrite map_filter_insert_False, delete_id, map_filter_insert_True, links_insert; [lia| |done..].
    apply map_lookup_filter_None. by left.
Qed.

Lemma links_filter_id m (P : Hash -> Prop) `{!forall x, Decision (P x)} h :
  (forall k t, m !! k = Some t -> h ∈ unlocks t -> P k) -> links (filter (fun p => P p.1) m) h = links m h.
Proof.
  intros HP. rewrite (links_filter_ext m P (fun _ => True)) by naive_solver. f_equal. by apply map_filter_id.
Qed.

(** The links of the transactions of a list, together. *)
Lemma occ_join m l h : NoDup l -> occ h (mjoin (unlocks <$> omap (fun k => m !! k) l)) = links (filter (fun p => p.1 ∈ l) m) h.
Proof.
  induction 1 as [|k l Hk Hl IH].
  { replace (filter (fun p => p.1 ∈ ([] : list Hash)) m) with (∅ : gmap Hash RTx); [done|].
    symmetry. apply map_empty. intros k. apply map_lookup_filter_None. right. set_solver. }
  assert (omap (fun k => m !! k) (k :: l) = match m !! k with Some t => t :: omap (fun k => m !! k) l | None => omap (fun k => m !! k) l end) as -> by done.
  destruct (m !! k) as [t|] eqn:Ht.
  - rewrite fmap_cons. change (mjoin (unlocks t :: ?l)) with (unlocks t ++ mjoin l). rewrite occurs_app, IH.
    replace (filter (fun p => p.1 ∈ k :: l) m) with (<[k := t]> (filter (fun p => p.1 ∈ l) m)).
    { rewrite links_insert; [done|]. apply map_lookup_filter_None. right. naive_solver. }
    apply map_eq. intros k'. destruct (decide (k' = k)) as [->|Hne].
    + rewrite lookup_insert_eq. symmetry. apply map_lookup_filter_Some. split; [done|set_solver].
    + rewrite lookup_insert_ne by done. rewrite !map_lookup_filter. destruct (m !! k'); simpl; [|done]. repeat case_guard; set_solver.
  - rewrite IH. apply (f_equal (fun m => links m h)). apply map_filter_ext. intros k' t' Hk'. simpl.
    rewrite elem_of_cons. naive_solver.
Qed.
End links.

(** A transaction whose tags are sound: none is provided twice, and none is
    both required and provided. *)
Definition tx_valid {Hash Ex} (tx : Transaction Hash Ex) : Prop :=
  NoDup (provides tx) /\ forall tag, tag ∈ provides tx -> tag ∉ requires tx.

Section ready_spec.
Context {OC : OverflowChecks} {Hash Ex : Type} `{HashOrder Hash}.
Abbreviation Tx := (Transaction Hash Ex).
Abbreviation Ref := (TransactionRef Hash Ex).
Abbreviation RTx := (ReadyTx Hash Ex).
Abbreviation Ready := (ReadyTransactions Hash Ex).
Implicit Types s : Ready.
Implicit Types m : gmap Hash RTx.
Implicit Types t : RTx.
Implicit Types flt : option (gset Tag).

Abbreviation txs s := (index (ready s)).
Abbreviation ref_lt := (fun x y : Ref => ref_cmp x y = Lt).
Abbreviation id_of t := (ref_insertion_id (tx_ref t)).
Abbreviation needs t := (length (requires (tx_of t))).

(** The graph: links follow tags, and each requirement of a transaction is
    either counted by its offset or by a link.  [used] are the hashes in the
    queue and in its links. *)
Record ready_graph (used : gset Hash) (provided : gmap Tag Hash) m : Prop := {
  rg_hash h t : m !! h = Some t -> hash (tx_of t) = h;
  rg_used h t : m !! h = Some t -> h ∈ used;
  rg_unlocks_used h t u : m !! h = Some t -> u ∈ unlocks t -> u ∈ used;
  rg_valid h t : m !! h = Some t -> tx_valid (tx_of t);
  rg_provided tag h : provided !! tag = Some h <-> exists t, m !! h = Some t /\ tag ∈ provides (tx_of t);
  rg_id_inj h t h' t' : m !! h = Some t -> m !! h' = Some t' -> id_of t = id_of t' -> h = h';
  rg_links h t : m !! h = Some t -> (requires_offset t + links m h)%nat = needs t;
  rg_deps h t u t' : m !! h = Some t -> u ∈ unlocks t -> m !! u = Some t' ->
    exists tag, tag ∈ provides (tx_of t) /\ tag ∈ requires (tx_of t');
  rg_older h t tag p t' : m !! h = Some t -> tag ∈ requires (tx_of t) -> provided !! tag = Some p -> m !! p = Some t' ->
    id_of t' < id_of t -> h ∈ unlocks t' }.

(** The transactions with nothing left to wait for are in [best], in order. *)
Record ready_best m (best : list Ref) : Prop := {
  rb_sorted : StronglySorted ref_lt best;
  rb_elem r : r ∈ best <-> exists h t, m !! h = Some t /\ r = tx_ref t /\ requires_offset t = needs t }.

Record ready_inv (used : gset Hash) s : Prop := {
  ri_graph : ready_graph used (provided_tags s) (txs s);
  ri_best : ready_best (txs s) (best s);
  ri_ids h t : txs s !! h = Some t -> 0 < id_of t <= insertion_id s;
  ri_id : 0 <= insertion_id s;
  ri_tracked : tracked (ready s) }.

Lemma ready_inv_default : ready_inv ∅ dflt.
Proof.
  split; [split|split| |done|apply tracked_default]; simpl; try (intros *; rewrite lookup_empty; done).
  - intros tag h. rewrite lookup_empty. split; [done|]. intros (t & Ht & _). by rewrite lookup_empty in Ht.
  - constructor.
  - intros r. split; [set_solver|]. intros (h & t & Ht & _). by rewrite lookup_empty in Ht.
Qed.

Section graph_facts.
Context {used : gset Hash} {provided : gmap Tag Hash} {m : gmap Hash RTx} (G : ready_graph used provided m).

(** No transaction unlocks itself. *)
Lemma no_self h t : m !! h = Some t -> h ∉ unlocks t.
Proof.
  intros Ht Hu. destruct (rg_deps _ _ _ G h t h t Ht Hu Ht) as (tag & Hp & Hr). by apply (proj2 (rg_valid _ _ _ G h t Ht)) in Hp.
Qed.

Lemma provides_unique tag h t h' t' : m !! h = Some t -> m !! h' = Some t' -> tag ∈ provides (tx_of t) -> tag ∈ provides (tx_of t') -> h = h'.
Proof.
  intros Ht Ht' Hp Hp'. assert (provided !! tag = Some h) as Hh by (apply G; eauto). assert (provided !! tag = Some h') as Hh' by (apply G; eauto).
  congruence.
Qed.

Lemma provider_of tag h t : m !! h = Some t -> tag ∈ provides (tx_of t) -> provided !! tag = Some h.
Proof. intros Ht Hp. apply G. eauto. Qed.

(** References determine their transactions. *)
Lemma ref_eq h t h' t' : m !! h = Some t -> m !! h' = Some t' -> ref_cmp (tx_ref t) (tx_ref t') = Eq -> h = h'.
Proof. intros Ht Ht' (_ & _ & Hid)%ref_cmp_Eq. by eapply (rg_id_inj _ _ _ G). Qed.

Lemma best_remove best h t : ready_best m best -> m !! h = Some t -> forall r, r ∈ bset_remove ref_cmp (tx_ref t) best <-> r ∈ best /\ hash (ref_transaction r) <> h.
Proof.
  intros B Ht r. rewrite elem_of_bset_remove by (eauto || apply B). split; intros [Hr Hne]; (split; [done|]).
  - apply (rb_elem _ _ B) in Hr as (h' & t' & Ht' & -> & _). fold (tx_of t'). rewrite (rg_hash _ _ _ G h' t' Ht'). intros ->. simplify_eq.
    apply Hne. by apply ref_cmp_Eq.
  - apply (rb_elem _ _ B) in Hr as (h' & t' & Ht' & -> & _). fold (tx_of t') in Hne. rewrite (rg_hash _ _ _ G h' t' Ht') in Hne.
    intros Heq. apply Hne. symmetry. by eapply ref_eq.
Qed.
End graph_facts.

(** ** Removal of subtrees *)

Lemma for_each_noop {S E A} (f : A -> M S E unit) l (s : S) : (forall x, x ∈ l -> f x s = (s, Ok tt)) -> for_each f l s = (s, Ok tt).
Proof.
  induction l as [|x l IH]; intros Hf; [done|]. cbn [for_each]. erewrite bind_Ok by (apply Hf; set_solver). apply IH. set_solver.
Qed.

Lemma fold_provided g (l : list Tag) s : foldl (fun s tag => with_provided (g tag) s) s l = with_provided (fun pt => foldl (fun pt tag => g tag pt) pt l) s.
Proof. revert s. induction l as [|t l IH]; intros s; simpl; [by destruct s|]. by rewrite IH. Qed.

Lemma lookup_delete_all (l : list Tag) (pt : gmap Tag Hash) tag :
  foldl (fun pt x => delete x pt) pt l !! tag = if decide (tag ∈ l) then None else pt !! tag.
Proof.
  revert pt. induction l as [|t l IH]; intros pt; cbn [foldl]; [by rewrite decide_False by set_solver|]. rewrite IH.
  destruct (decide (t = tag)) as [->|Ht].
  - rewrite lookup_delete_eq, (decide_True (P := tag ∈ tag :: l)) by set_solver. by case_decide.
  - rewrite lookup_delete_ne by done. destruct (decide (tag ∈ l)); [rewrite decide_True by set_solver|rewrite decide_False by set_solver]; done.
Qed.

Lemma take_ready_run {E} h s : take_ready (E := E) h s = (with_ready (fun r => (tm_remove h r).1) s, Ok (txs s !! h)).
Proof. unfold take_ready. erewrite bind_Ok by reflexivity. erewrite bind_Ok by reflexivity. by rewrite removed_value. Qed.

(** The tags of a removed transaction that go with it. *)
Definition invalidated flt t : list Tag := filter (fun tag => stays flt tag = false) (provides (tx_of t)).

Lemma drop_ready_run {E} flt t s : (forall h t', txs s !! h = Some t' -> h ∉ unlocks t') ->
  drop_ready (E := E) flt t s =
    (with_best (bset_remove ref_cmp (tx_ref t)) (with_provided (fun pt => foldl (fun pt tag => delete tag pt) pt (invalidated flt t)) s),
     Ok (if invalidated flt t is [] then [] else unlocks t)).
Proof.
  intros Hself. unfold drop_ready. fold (invalidated flt t). erewrite bind_Ok by apply for_each_modify. cbn beta.
  rewrite (fold_provided (fun tag => delete tag)). erewrite bind_Ok; [by erewrite bind_Ok by reflexivity|].
  apply for_each_noop. intros tag _. erewrite bind_Ok by reflexivity. case_match; [|done]. destruct (txs _ !! _) as [t'|] eqn:Ht'; [|done].
  unfold modify. f_equal. unfold with_ready, with_provided, tm_update. simpl in *. destruct s as [i p r b]. destruct r as [ix by_ le]. simpl in *.
  f_equal. f_equal. unfold with_unlocks. rewrite remove_item_not_elem by by eapply Hself. rewrite insert_id; [done|]. rewrite Ht'. by destruct t'.
Qed.

(** The transactions that are removed with [h]: those it unlocks, unless all
    its tags stay. *)
Definition drags m flt (h u : Hash) : Prop := exists t, m !! h = Some t /\ invalidated flt t <> [] /\ u ∈ unlocks t.

(** [s] is [s0] without the transactions [D]. *)
Record removed_from s0 flt (D : list Hash) s : Prop := {
  rf_txs : txs s = filter (fun p => p.1 ∉ D) (txs s0);
  rf_provided : provided_tags s = filter (fun p => p.2 ∈ D -> stays flt p.1 = true) (provided_tags s0);
  rf_id : insertion_id s = insertion_id s0;
  rf_sorted : StronglySorted ref_lt (best s);
  rf_best r : r ∈ best s <-> r ∈ best s0 /\ hash (ref_transaction r) ∉ D;
  rf_tracked : tracked (ready s) }.

(** The state of the loop: [D] is removed, [stack] is to be. *)
Record removing s0 flt (roots : list Hash) (D stack : list Hash) s : Prop := {
  rm_removed : removed_from s0 flt D s;
  rm_nodup : NoDup D;
  rm_ready h : h ∈ D -> is_Some (txs s0 !! h);
  rm_roots h : h ∈ roots -> is_Some (txs s0 !! h) -> h ∈ D \/ h ∈ stack;
  rm_closed h u : h ∈ D -> drags (txs s0) flt h u -> is_Some (txs s0 !! u) -> u ∈ D \/ u ∈ stack;
  rm_reach h : h ∈ D \/ h ∈ stack -> exists r, r ∈ roots /\ rtc (drags (txs s0) flt) r h }.

Lemma removing_start used s0 flt roots stack : ready_inv used s0 -> (forall h, h ∈ roots <-> h ∈ stack) -> removing s0 flt roots [] stack s0.
Proof.
  intros I Hs. split; [split| | | | |].
  - symmetry. apply map_filter_id. set_solver.
  - symmetry. apply map_filter_id. set_solver.
  - done.
  - apply I.
  - set_solver.
  - apply I.
  - constructor.
  - set_solver.
  - set_solver.
  - set_solver.
  - intros h Hh. exists h. split; [set_solver|apply rtc_refl].
Qed.

Lemma take_absent s h : txs s !! h = None -> with_ready (fun r => (tm_remove h r).1) s = s.
Proof.
  destruct s as [i p r b], r as [ix sz ln]. unfold with_ready, tm_remove. simpl. intros Hn. rewrite Hn. simpl. by rewrite delete_id.
Qed.

Lemma removing_skip s0 flt roots D h stack s : removing s0 flt roots D (h :: stack) s -> txs s !! h = None -> removing s0 flt roots D stack s.
Proof.
  intros R Hn. rewrite (rf_txs _ _ _ _ (rm_removed _ _ _ _ _ _ R)) in Hn. apply map_lookup_filter_None in Hn.
  assert (forall u, is_Some (txs s0 !! u) -> u ∈ D \/ u ∈ h :: stack -> u ∈ D \/ u ∈ stack) as Hu.
  { intros u [t Ht] [Hd|[->|Hs]%elem_of_cons]; [by left| |by right]. left. destruct Hn as [Hn|Hn]; [congruence|].
    destruct (decide (h ∈ D)); [done|]. by destruct (Hn t Ht). }
  split; [apply R|apply R|apply R| | |].
  - intros u Hr Hs. apply Hu; [done|]. by apply (rm_roots _ _ _ _ _ _ R).
  - intros k u Hk Hd Hs. apply Hu; [done|]. by eapply (rm_closed _ _ _ _ _ _ R).
  - intros u Hor. apply (rm_reach _ _ _ _ _ _ R). set_solver.
Qed.

Lemma elem_of_push_all {A} (x : A) xs stack : x ∈ push_all xs stack <-> x ∈ xs \/ x ∈ stack.
Proof. unfold push_all. by rewrite elem_of_app, <-(Permutation_rev xs). Qed.

(** The state after one transaction was removed. *)
Definition dropped_state flt (h : Hash) t s : Ready :=
  with_best (bset_remove ref_cmp (tx_ref t)) (with_provided (fun pt => foldl (fun pt tag => delete tag pt) pt (invalidated flt t)) (with_ready (fun r => (tm_remove h r).1) s)).

Lemma removed_one used s0 flt D h t s : ready_inv used s0 -> removed_from s0 flt D s -> txs s0 !! h = Some t -> h ∉ D ->
  removed_from s0 flt (D ++ [h]) (dropped_state flt h t s).
Proof.
  intros I R Ht Hd. pose proof (ri_graph _ _ I) as G. split; simpl.
  - rewrite index_remove, (rf_txs _ _ _ _ R). apply map_eq. intros k. destruct (decide (k = h)) as [->|Hk].
    + rewrite lookup_delete_eq. symmetry. apply map_lookup_filter_None. right. set_solver.
    + rewrite lookup_delete_ne, !map_lookup_filter by done. destruct (txs s0 !! k); simpl; [|done]. repeat case_guard; set_solver.
  - rewrite (rf_provided _ _ _ _ R). apply map_eq. intros tag. rewrite lookup_delete_all, !map_lookup_filter.
    destruct (provided_tags s0 !! tag) as [p|] eqn:Hp; simpl; [|by case_decide].
    assert (tag ∈ invalidated flt t <-> p = h /\ stays flt tag = false) as Hinv.
    { unfold invalidated. rewrite list_elem_of_filter. split.
      - intros [Hst Hin]. split; [|done]. rewrite (provider_of G tag h t Ht Hin) in Hp. congruence.
      - intros [-> Hst]. split; [done|]. apply (rg_provided _ _ _ G) in Hp as (t' & Ht' & Hin). congruence. }
    destruct (decide (tag ∈ invalidated flt t)) as [Hi|Hi]; rewrite Hinv in Hi.
    + destruct Hi as [-> Hst]. rewrite option_guard_False; [done|]. intros Hg. specialize (Hg ltac:(set_solver)). congruence.
    + simpl. assert ((p ∈ D -> stays flt tag = true) <-> (p ∈ D ++ [h] -> stays flt tag = true)) as Heq; [|repeat case_guard; tauto].
      rewrite elem_of_app, list_elem_of_singleton. destruct (stays flt tag); [done|]. naive_solver.
  - apply R.
  - apply bset_remove_sorted; eauto. apply R.
  - intros r. rewrite elem_of_bset_remove by (eauto || apply R). rewrite (rf_best _ _ _ _ R r).
    pose proof (best_remove G (best s0) h t (ri_best _ _ I) Ht r) as Hb. rewrite elem_of_bset_remove in Hb by (eauto || apply I). set_solver.
  - apply tm_remove_tracked, R.
Qed.

Lemma removing_step used s0 flt roots D h stack s t : ready_inv used s0 -> removing s0 flt roots D (h :: stack) s -> txs s !! h = Some t ->
  txs s0 !! h = Some t /\ (h ∉ D) /\
  removing s0 flt roots (D ++ [h]) (push_all (if invalidated flt t is [] then [] else unlocks t) stack) (dropped_state flt h t s).
Proof.
  intros I R Ht. rewrite (rf_txs _ _ _ _ (rm_removed _ _ _ _ _ _ R)) in Ht. apply map_lookup_filter_Some in Ht as [Ht Hd]. simpl in Hd.
  split_and!; [done..|].
  assert (forall u, drags (txs s0) flt h u <-> u ∈ (if invalidated flt t is [] then [] else unlocks t)) as Hdr.
  { intros u. unfold drags. destruct (invalidated flt t) eqn:Hi; split; try set_solver; try naive_solver. intros Hu. exists t. by rewrite Hi. }
  split.
  - eapply removed_one; eauto. apply R.
  - apply NoDup_app. split_and!; [apply R|set_solver|apply NoDup_singleton].
  - intros k. rewrite elem_of_app, list_elem_of_singleton. intros [Hk| ->]; [by apply (rm_ready _ _ _ _ _ _ R)|eauto].
  - intros k Hk Hs. destruct (rm_roots _ _ _ _ _ _ R k Hk Hs) as [|[->|]%elem_of_cons]; [set_solver|set_solver|]. right. apply elem_of_push_all. by right.
  - intros k u. rewrite elem_of_app, list_elem_of_singleton. intros [Hk| ->] Hu Hs.
    + destruct (rm_closed _ _ _ _ _ _ R k u Hk Hu Hs) as [|[->|]%elem_of_cons]; [set_solver|set_solver|]. right. apply elem_of_push_all. by right.
    + right. apply elem_of_push_all. left. by apply Hdr.
  - intros k. rewrite elem_of_app, list_elem_of_singleton, elem_of_push_all, <-Hdr.
    destruct (rm_reach _ _ _ _ _ _ R h ltac:(set_solver)) as (r & Hr & Hrh). intros [[Hk| ->]|[Hk|Hk]].
    + apply (rm_reach _ _ _ _ _ _ R). by left.
    + eauto.
    + exists r. split; [done|]. by eapply rtc_r.
    + apply (rm_reach _ _ _ _ _ _ R). set_solver.
Qed.

Lemma remove_loop_run {E} used s0 flt roots : ready_inv used s0 -> forall fuel D stack s out, removing s0 flt roots D stack s -> (size (txs s) <= fuel)%nat ->
  exists s' D', remove_loop (E := E) fuel flt stack out s = (s', Ok (out ++ omap (fun h => tx_of <$> txs s0 !! h) (drop (length D) D'))) /\
    D' = D ++ drop (length D) D' /\ removing s0 flt roots D' [] s'.
Proof.
  intros I. induction fuel as [|fuel IH]; intros D stack; induction stack as [|h stack IHs]; intros s out R Hf;
    try (exists s, D; cbn [remove_loop]; rewrite drop_all, !app_nil_r; done);
    cbn [remove_loop]; erewrite bind_Ok by apply take_ready_run; destruct (txs s !! h) as [t|] eqn:Ht.
  - exfalso. assert (size (txs s) = 0%nat) as Hz by lia. apply map_size_empty_iff in Hz. rewrite Hz in Ht. by rewrite lookup_empty in Ht.
  - rewrite take_absent by done. apply IHs; [by eapply removing_skip|done].
  - destruct (removing_step used s0 flt roots D h stack s t I R Ht) as (Ht0 & Hd & R').
    erewrite bind_Ok.
    2: { apply drop_ready_run. intros k t'. cbn [with_ready ready]. rewrite index_remove, (rf_txs _ _ _ _ (rm_removed _ _ _ _ _ _ R)).
      intros [_ Hk]%lookup_delete_Some. apply map_lookup_filter_Some in Hk as [Hk _]. by apply (no_self (ri_graph _ _ I)). }
    destruct (IH (D ++ [h]) _ _ (out ++ [tx_of t]) R') as (s' & D' & Hrun & HD & HR).
    { simpl. rewrite index_remove, map_size_delete_Some by eauto. lia. }
    assert (drop (length D) D' = h :: drop (length (D ++ [h])) D') as Hdrop.
    { rewrite HD at 1. rewrite <-app_assoc, drop_app_length. done. }
    exists s', D'. split_and!; [|rewrite HD at 1; by rewrite Hdrop, <-app_assoc|done].
    unfold dropped_state in Hrun. rewrite Hrun, Hdrop. cbn [omap list_omap]. rewrite Ht0. cbn [fmap option_fmap option_map]. by rewrite <-app_assoc.
  - rewrite take_absent by done. apply IHs; [by eapply removing_skip|done].
Qed.

(** What [remove_subtree_with_tag_filter] does: the transactions removed are
    the ready ones that are dragged along with the roots. *)
Lemma remove_subtree_run {E} used s flt roots : ready_inv used s ->
  exists s' D, remove_subtree_with_tag_filter (E := E) roots flt s = (s', Ok (omap (fun h => tx_of <$> txs s !! h) D)) /\
    removing s flt roots D [] s'.
Proof.
  intros I. unfold remove_subtree_with_tag_filter. erewrite bind_Ok by reflexivity.
  destruct (remove_loop_run (E := E) used s flt roots I (size (txs s)) [] (rev roots) s []) as (s' & D & Hrun & _ & HR).
  { eapply removing_start; [done|]. intros h. by rewrite <-(Permutation_rev roots). }
  { done. }
  exists s', D. split; [|done]. by rewrite Hrun.
Qed.

(** What is removed and still linked to something that stays has all its tags
    taken over. *)
Lemma removed_links used s0 flt roots D s d t u : ready_inv used s0 -> removing s0 flt roots D [] s ->
  d ∈ D -> txs s0 !! d = Some t -> u ∈ unlocks t -> u ∉ D -> is_Some (txs s0 !! u) ->
  provides (tx_of t) <> [] /\ Forall (fun tag => stays flt tag = true) (provides (tx_of t)).
Proof.
  intros I R Hd Ht Hu Hn Hs. split.
  - destruct Hs as [t' Ht']. destruct (rg_deps _ _ _ (ri_graph _ _ I) d t u t' Ht Hu Ht') as (tag & Hp & _). intros He. rewrite He in Hp. set_solver.
  - apply Forall_forall. intros tag Hp. destruct (stays flt tag) eqn:Hst; [done|]. exfalso.
    destruct (rm_closed _ _ _ _ _ _ R d u Hd) as [|]; [|done|done|set_solver]. exists t. split_and!; [done| |done].
    unfold invalidated. intros He. assert (tag ∈ filter (fun tag => stays flt tag = false) (provides (tx_of t))) as Hin by by apply list_elem_of_filter.
    rewrite He in Hin. set_solver.
Qed.

Lemma graph_filter used provided provided' m (D : list Hash) : ready_graph used provided m ->
  (forall tag h, provided' !! tag = Some h <-> provided !! tag = Some h /\ h ∉ D) ->
  (forall d t u, d ∈ D -> m !! d = Some t -> u ∈ unlocks t -> u ∉ D -> m !! u = None) ->
  ready_graph used provided' (filter (fun p => p.1 ∉ D) m).
Proof.
  intros G Hp Hc. assert (forall h t, filter (fun p => p.1 ∉ D) m !! h = Some t <-> m !! h = Some t /\ h ∉ D) as Hlk by (intros; apply map_lookup_filter_Some).
  split.
  - intros h t [Ht _]%Hlk. by apply G.
  - intros h t [Ht _]%Hlk. by eapply rg_used.
  - intros h t u [Ht _]%Hlk. by eapply rg_unlocks_used.
  - intros h t [Ht _]%Hlk. by eapply rg_valid.
  - intros tag h. rewrite Hp, (rg_provided _ _ _ G). setoid_rewrite Hlk. naive_solver.
  - intros h t h' t' [Ht _]%Hlk [Ht' _]%Hlk. by eapply (rg_id_inj _ _ _ G).
  - intros h t [Ht Hh]%Hlk. rewrite <-(rg_links _ _ _ G h t Ht). f_equal. refine (links_filter_id m (fun x => x ∉ D) h _). intros k t' Hk Hu Hd.
    by rewrite (Hc k t' h Hd Hk Hu Hh) in Ht.
  - intros h t u t' [Ht _]%Hlk Hu [Hu' _]%Hlk. by eapply (rg_deps _ _ _ G).
  - intros h t tag p t' [Ht _]%Hlk Htag [Hpt _]%Hp [Hp' _]%Hlk. by eapply (rg_older _ _ _ G).
Qed.

Lemma best_filter m best best' (D : list Hash) : (forall h t, m !! h = Some t -> hash (tx_of t) = h) -> ready_best m best ->
  StronglySorted ref_lt best' -> (forall r, r ∈ best' <-> r ∈ best /\ hash (ref_transaction r) ∉ D) ->
  ready_best (filter (fun p => p.1 ∉ D) m) best'.
Proof.
  intros Hh B Hs Hb. split; [done|]. intros r. rewrite Hb, (rb_elem _ _ B r). split.
  - intros [(h & t & Ht & -> & Ho) Hd]. exists h, t. split_and!; [|done..]. apply map_lookup_filter_Some. split; [done|].
    simpl. fold (tx_of t) in Hd. by rewrite (Hh h t Ht) in Hd.
  - intros (h & t & [Ht Hd]%map_lookup_filter_Some & -> & Ho). split; [eauto|]. fold (tx_of t). by rewrite (Hh h t Ht).
Qed.

(** Removing whole subtrees keeps the invariant. *)
Lemma removing_inv used s0 roots D s : ready_inv used s0 -> removing s0 None roots D [] s -> ready_inv used s.
Proof.
  intros I R. pose proof (rm_removed _ _ _ _ _ _ R) as F. pose proof (ri_graph _ _ I) as G. split.
  - rewrite (rf_txs _ _ _ _ F). eapply graph_filter; [done| |].
    + intros tag h. rewrite (rf_provided _ _ _ _ F), map_lookup_filter_Some. simpl. split; [|naive_solver].
      intros [Hp Hst]. split; [done|]. intros Hd. by specialize (Hst Hd).
    + intros d t u Hd Ht Hu Hn. destruct (txs s0 !! u) eqn:Hu'; [|done]. exfalso.
      destruct (removed_links used s0 None roots D s d t u I R Hd Ht Hu Hn) as [Hne Hall]; [eauto|].
      destruct (provides (tx_of t)); [done|]. by apply Forall_cons in Hall as [? _].
  - rewrite (rf_txs _ _ _ _ F). eapply best_filter; [apply G|apply I|apply F|apply F].
  - intros h t. rewrite (rf_txs _ _ _ _ F), (rf_id _ _ _ _ F). intros [Ht _]%map_lookup_filter_Some. by eapply ri_ids.
  - rewrite (rf_id _ _ _ _ F). apply I.
  - apply F.
Qed.

(** ** Import *)

Lemma elem_of_replace_hashes tx s h : h ∈ replace_hashes tx s <-> exists tag, tag ∈ provides tx /\ provided_tags s !! tag = Some h.
Proof. unfold replace_hashes. rewrite elem_of_list_to_set, list_elem_of_omap. done. Qed.

(** The transactions that [tx] replaces, and their joint priority. *)
Definition old_priority tx s : Z :=
  foldl (fun total t => saturating_add 64 total (priority (tx_of t))) 0 (ready_txs (replace_hashes tx s) s).

Definition replaces tx s : Prop := replace_hashes tx s <> ∅ -> old_priority tx s < priority tx.

Lemma replace_previous_fails tx s : ~ replaces tx s -> replace_previous tx s = (s, Err (TooLowPriority (old_priority tx s) (priority tx))).
Proof.
  intros Hr. unfold replaces in Hr. unfold replace_previous. erewrite bind_Ok by reflexivity. cbn beta zeta. fold (old_priority tx s).
  rewrite bool_decide_false by naive_solver. destruct (Z.leb_spec (priority tx) (old_priority tx s)); [done|naive_solver].
Qed.

Lemma replace_previous_run used tx s : ready_inv used s -> replaces tx s ->
  exists s' D, replace_previous tx s = (s', Ok (omap (fun h => tx_of <$> txs s !! h) D, mjoin (unlocks <$> ready_txs (replace_hashes tx s) s))) /\
    removing s (Some (list_to_set (provides tx))) (hash_iter (replace_hashes tx s)) D [] s'.
Proof.
  intros I Hr. unfold replaces in Hr. unfold replace_previous. rewrite (bind_Ok get _ s s s) by reflexivity. fold (old_priority tx s).
  destruct (decide (replace_hashes tx s = ∅)) as [He|Hne].
  - assert (hash_iter (replace_hashes tx s) = []) as Hi.
    { destruct (hash_iter (replace_hashes tx s)) as [|h l] eqn:Hl; [done|]. assert (h ∈ hash_iter (replace_hashes tx s)) as Hin by (rewrite Hl; set_solver).
      apply elem_of_hash_iter in Hin. rewrite He in Hin. set_solver. }
    exists s, []. unfold ready_txs. rewrite Hi. rewrite bool_decide_true by done. split; [done|]. by eapply removing_start.
  - rewrite bool_decide_false by done. destruct (Z.leb_spec (priority tx) (old_priority tx s)); [specialize (Hr Hne); lia|].
    destruct (remove_subtree_run (E := PoolError Hash) used s (Some (list_to_set (provides tx))) (hash_iter (replace_hashes tx s)) I) as (s' & D & Hrun & R).
    exists s', D. split; [|done]. by erewrite bind_Ok by exact Hrun.
Qed.

(** The state after the requirements [tags] of [h] were linked; [n] of them are
    provided. *)
Record linked (h : Hash) (tags : list Tag) s s' (n : nat) : Prop := {
  lk_provided : provided_tags s' = provided_tags s;
  lk_id : insertion_id s' = insertion_id s;
  lk_best : best s' = best s;
  lk_tracked : tracked (ready s) -> tracked (ready s');
  lk_fwd p t : txs s !! p = Some t -> exists t', txs s' !! p = Some t' /\ tx_ref t' = tx_ref t /\ requires_offset t' = requires_offset t /\
    forall u, u ∈ unlocks t' <-> u ∈ unlocks t \/ u = h /\ exists tag, tag ∈ tags /\ provided_tags s !! tag = Some p;
  lk_bwd p : is_Some (txs s' !! p) -> is_Some (txs s !! p);
  lk_links u : links (txs s') u = (links (txs s) u + if decide (u = h) then n else 0)%nat }.

Lemma linked_refl h s : linked h [] s s 0.
Proof.
  split; try done.
  - intros p t Ht. exists t. split_and!; [done..|]. set_solver.
  - intros u. case_decide; lia.
Qed.

Lemma linked_skip h tag tags s s' n : provided_tags s !! tag = None -> linked h tags s s' n -> linked h (tag :: tags) s s' n.
Proof.
  intros Hn L. split; try apply L. intros p t Ht. destruct (lk_fwd _ _ _ _ _ L p t Ht) as (t' & Ht' & Hr & Ho & Hu).
  exists t'. split_and!; [done..|]. intros u. rewrite Hu. apply or_iff_compat_l, and_iff_compat_l. split; [set_solver|].
  intros (tag' & [->|Hin]%elem_of_cons & Hp); [congruence|eauto].
Qed.

Lemma linked_add h tag tags s s' n p t : provided_tags s !! tag = Some p -> txs s !! p = Some t ->
  linked h tags (with_ready (tm_update p (with_unlocks (fun l => l ++ [h]) t)) s) s' n -> linked h (tag :: tags) s s' (S n).
Proof.
  intros Hp Ht L. split; [apply L..| | | |].
  - intros Htr. apply (lk_tracked _ _ _ _ _ L). simpl. by eapply tm_update_tracked.
  - intros q t0 Hq. destruct (decide (q = p)) as [->|Hne].
    + assert (t0 = t) as -> by congruence. destruct (lk_fwd _ _ _ _ _ L p (with_unlocks (fun l => l ++ [h]) t)) as (t' & Ht' & Hr & Ho & Hu); [apply lookup_insert_eq|].
      exists t'. split_and!; [done..|]. intros u. rewrite Hu. simpl. split; [set_solver|]. set_solver.
    + destruct (lk_fwd _ _ _ _ _ L q t0) as (t' & Ht' & Hr & Ho & Hu); [simpl; by rewrite lookup_insert_ne|].
      exists t'. split_and!; [done..|]. intros u. rewrite Hu. simpl. apply or_iff_compat_l, and_iff_compat_l. split; [set_solver|].
      intros (tag' & [->|Hin]%elem_of_cons & Hp'); [congruence|eauto].
  - intros q Hq. apply (lk_bwd _ _ _ _ _ L) in Hq. simpl in Hq. destruct (decide (q = p)) as [->|]; [eauto|]. by rewrite lookup_insert_ne in Hq.
  - intros u. rewrite (lk_links _ _ _ _ _ L). simpl.
    pose proof (links_update (txs s) p t (with_unlocks (fun l => l ++ [h]) t) u Ht) as Hl. simpl in Hl. rewrite occurs_app, occ_cons, occ_nil in Hl.
    destruct (decide (u = h)) as [->|Hne]; [rewrite decide_True in Hl by done|rewrite decide_False in Hl by congruence]; lia.
Qed.

Lemma link_tags_run {E} h tags s b k : (forall tag p, tag ∈ tags -> provided_tags s !! tag = Some p -> is_Some (txs s !! p)) ->
  exists s' n, fold_each (E := E) (link_tag h) (b, k) tags s = (s', Ok (b && (n =? 0)%nat, (k + (length tags - n))%nat)) /\
    (n <= length tags)%nat /\ linked h tags s s' n.
Proof.
  revert s b k. induction tags as [|tag tags IH]; intros s b k Hp.
  { exists s, 0%nat. split_and!; [simpl; by rewrite andb_true_r, Nat.add_0_r|done|apply linked_refl]. }
  cbn [fold_each]. destruct (provided_tags s !! tag) as [p|] eqn:Htag.
  - destruct (Hp tag p ltac:(set_solver) Htag) as [t Ht].
    erewrite bind_Ok. 2: { unfold link_tag. erewrite bind_Ok by reflexivity. rewrite Htag. erewrite bind_Ok by (rewrite Ht; reflexivity). reflexivity. }
    destruct (IH (with_ready (tm_update p (with_unlocks (fun l => l ++ [h]) t)) s) false k) as (s' & n & Hrun & Hn & L).
    { intros tag' q Hin Hq. simpl in *. destruct (decide (q = p)) as [->|]; [rewrite lookup_insert_eq; eauto|]. rewrite lookup_insert_ne by done. apply (Hp tag'); set_solver. }
    exists s', (S n). split_and!; [|simpl; lia|by eapply linked_add]. cbn [fst snd]. rewrite Hrun. simpl. by rewrite andb_false_r.
  - erewrite bind_Ok. 2: { unfold link_tag. erewrite bind_Ok by reflexivity. rewrite Htag. reflexivity. }
    destruct (IH s b (S k)) as (s' & n & Hrun & Hn & L); [intros tag' q Hin; apply (Hp tag'); set_solver|].
    exists s', n. split_and!; [|simpl; lia|by apply linked_skip]. cbn [fst snd]. rewrite Hrun. do 3 f_equal. simpl. destruct n; simpl; [lia|]. lia.
Qed.

Lemma lookup_insert_all (l : list Tag) (h : Hash) (pt : gmap Tag Hash) tag :
  foldl (fun pt x => <[x := h]> pt) pt l !! tag = if decide (tag ∈ l) then Some h else pt !! tag.
Proof.
  revert pt. induction l as [|x l IH]; intros pt; cbn [foldl]; [by rewrite decide_False by set_solver|]. rewrite IH.
  destruct (decide (x = tag)) as [->|Hx].
  - rewrite lookup_insert_eq, (decide_True (P := tag ∈ tag :: l)) by set_solver. by case_decide.
  - rewrite lookup_insert_ne by done. destruct (decide (tag ∈ l)); [rewrite decide_True by set_solver|rewrite decide_False by set_solver]; done.
Qed.

(** The import of [tx] after what it replaces was removed and what it requires
    was linked. *)
Section import_step.
Context (used : gset Hash) (s0 s2 s3 : Ready) (tx : Tx) (D : list Hash) (n : nat) (id : Z).
Abbreviation X := (replace_hashes tx s0).
Abbreviation F := (list_to_set (provides tx) : gset Tag).
Abbreviation h0 := (hash tx).
Context (I : ready_inv used s0) (R : removing s0 (Some F) (hash_iter X) D [] s2) (L : linked h0 (requires tx) s2 s3 n)
  (Hn : (n <= length (requires tx))%nat) (Hfresh : h0 ∉ used) (Hvalid : tx_valid tx)
  (Hids : forall h t, txs s0 !! h = Some t -> id_of t < id).

Abbreviation inherited := (mjoin (unlocks <$> ready_txs X s0)).
Definition new_tx : RTx := mkReadyTx (mkRef tx id) inherited (length (requires tx) - n).

Local Lemma G0 : ready_graph used (provided_tags s0) (txs s0).
Proof. apply I. Qed.

Lemma s2_lookup p t : txs s2 !! p = Some t <-> txs s0 !! p = Some t /\ (p ∉ D).
Proof. rewrite (rf_txs _ _ _ _ (rm_removed _ _ _ _ _ _ R)). apply map_lookup_filter_Some. Qed.

Lemma s2_provided tag p : tag ∉ provides tx -> provided_tags s2 !! tag = Some p <-> provided_tags s0 !! tag = Some p /\ (p ∉ D).
Proof.
  intros Ht. rewrite (rf_provided _ _ _ _ (rm_removed _ _ _ _ _ _ R)), map_lookup_filter_Some. simpl. rewrite bool_decide_eq_true, elem_of_list_to_set.
  naive_solver.
Qed.

(** A transaction of the linked state comes from one that was not removed. *)
Lemma s3_origin p t' : txs s3 !! p = Some t' -> exists t, txs s0 !! p = Some t /\ (p ∉ D) /\ tx_ref t' = tx_ref t /\ requires_offset t' = requires_offset t /\
  forall u, u ∈ unlocks t' <-> u ∈ unlocks t \/ u = h0 /\ exists tag, tag ∈ requires tx /\ provided_tags s2 !! tag = Some p.
Proof.
  intros Ht'. destruct (lk_bwd _ _ _ _ _ L p) as [t Ht]; [eauto|]. destruct (lk_fwd _ _ _ _ _ L p t Ht) as (t1 & Ht1 & Hr & Ho & Hu).
  simplify_eq. apply s2_lookup in Ht as [Ht Hd]. eauto 10.
Qed.

Lemma replaced_removed h : h ∈ X -> h ∈ D.
Proof.
  intros Hh. destruct (rm_roots _ _ _ _ _ _ R h) as [|]; [by apply elem_of_hash_iter| |done|set_solver].
  apply elem_of_replace_hashes in Hh as (tag & _ & Hp). apply (rg_provided _ _ _ G0) in Hp as (t & Ht & _). eauto.
Qed.

Lemma removed_replaced k t u : k ∈ D -> txs s0 !! k = Some t -> u ∈ unlocks t -> u ∉ D -> is_Some (txs s0 !! u) ->
  k ∈ X /\ forall tag, tag ∈ provides (tx_of t) -> tag ∈ provides tx.
Proof.
  intros Hk Ht Hu Hd Hs. destruct (removed_links _ _ _ _ _ _ _ _ _ I R Hk Ht Hu Hd Hs) as [Hne Hall]. rewrite Forall_forall in Hall.
  assert (forall tag, tag ∈ provides (tx_of t) -> tag ∈ provides tx) as Hsub.
  { intros tag Hin. specialize (Hall tag Hin). simpl in Hall. apply bool_decide_eq_true in Hall. by apply elem_of_list_to_set in Hall. }
  split; [|done]. destruct (provides (tx_of t)) as [|tag l] eqn:Hp; [done|]. apply elem_of_replace_hashes. exists tag. split; [apply Hsub; set_solver|].
  apply (provider_of G0 tag k t Ht). rewrite Hp. set_solver.
Qed.

Lemma inherited_elem u : u ∈ inherited <-> exists k t, k ∈ X /\ txs s0 !! k = Some t /\ u ∈ unlocks t.
Proof.
  rewrite list_elem_of_join. split.
  - intros (l & Hu & Hl). apply list_elem_of_fmap in Hl as (t & -> & Ht). unfold ready_txs in Ht. apply list_elem_of_omap in Ht as (k & Hk & Ht).
    rewrite elem_of_hash_iter in Hk. eauto.
  - intros (k & t & Hk & Ht & Hu). exists (unlocks t). split; [done|]. apply list_elem_of_fmap. exists t. split; [done|].
    apply list_elem_of_omap. exists k. rewrite elem_of_hash_iter. done.
Qed.

Lemma inherited_used u : u ∈ inherited -> u ∈ used.
Proof. intros (k & t & _ & Ht & Hu)%inherited_elem. by eapply (rg_unlocks_used _ _ _ G0). Qed.

Lemma fresh_absent : txs s3 !! h0 = None.
Proof.
  destruct (txs s3 !! h0) as [t'|] eqn:Ht'; [|done]. apply s3_origin in Ht' as (t & Ht & _). by apply (rg_used _ _ _ G0) in Ht.
Qed.

(** Links to a transaction that stays are kept, or inherited. *)
Lemma kept_links p t : txs s0 !! p = Some t -> p ∉ D -> (occ p inherited + links (txs s3) p = links (txs s0) p)%nat.
Proof.
  intros Ht Hd. unfold ready_txs. rewrite (occ_join (txs s0) (hash_iter X) p (NoDup_hash_iter _)). rewrite (lk_links _ _ _ _ _ L).
  rewrite decide_False by (intros ->; by apply (rg_used _ _ _ G0) in Ht). rewrite (rf_txs _ _ _ _ (rm_removed _ _ _ _ _ _ R)).
  rewrite (links_split (txs s0) (fun k => k ∈ D) p), Nat.add_0_r. f_equal.
  refine (links_filter_ext (txs s0) (fun k => k ∈ hash_iter X) (fun k => k ∈ D) p _). intros k t' Hk Hu. rewrite elem_of_hash_iter. split; [apply replaced_removed|].
  intros HkD. by apply (removed_replaced k t' p).
Qed.

Lemma new_links : (occ h0 inherited + links (txs s3) h0)%nat = n.
Proof.
  assert (h0 ∉ inherited) as Hi by (intros Hi; by apply inherited_used in Hi). rewrite (proj1 (occ_not_elem _ _) Hi).
  rewrite (lk_links _ _ _ _ _ L), decide_True by done. assert (links (txs s2) h0 = 0%nat) as ->; [|lia].
  apply links_zero. intros k t [Ht _]%s2_lookup Hu. by apply (rg_unlocks_used _ _ _ G0 k t) in Hu.
Qed.

Abbreviation m1 := (<[h0 := new_tx]> (txs s3)).

Lemma m1_lookup p t' : m1 !! p = Some t' -> p = h0 /\ t' = new_tx \/ p <> h0 /\
  exists t, txs s0 !! p = Some t /\ (p ∉ D) /\ tx_ref t' = tx_ref t /\ requires_offset t' = requires_offset t /\
    forall u, u ∈ unlocks t' <-> u ∈ unlocks t \/ u = h0 /\ exists tag, tag ∈ requires tx /\ provided_tags s2 !! tag = Some p.
Proof.
  intros [[<- <-]|[Hne Ht]]%lookup_insert_Some; [by left|]. right. split; [done|]. by apply s3_origin.
Qed.

Lemma m1_old p t : txs s0 !! p = Some t -> p ∉ D -> exists t', m1 !! p = Some t' /\ tx_ref t' = tx_ref t.
Proof.
  intros Ht Hd. destruct (lk_fwd _ _ _ _ _ L p t) as (t' & Ht' & Hr & _); [by apply s2_lookup|]. exists t'. split; [|done].
  rewrite lookup_insert_ne; [done|]. intros <-. by apply (rg_used _ _ _ G0) in Ht.
Qed.

Lemma import_provided tag p :
  foldl (fun pt x => <[x := h0]> pt) (provided_tags s3) (provides tx) !! tag = Some p <->
  tag ∈ provides tx /\ p = h0 \/ (tag ∉ provides tx) /\ provided_tags s0 !! tag = Some p /\ (p ∉ D).
Proof.
  rewrite lookup_insert_all, (lk_provided _ _ _ _ _ L). case_decide as Ht; [naive_solver|]. rewrite (s2_provided tag p Ht). naive_solver.
Qed.

Lemma import_provided_iff tag p :
  foldl (fun pt x => <[x := h0]> pt) (provided_tags s3) (provides tx) !! tag = Some p <-> exists t, m1 !! p = Some t /\ tag ∈ provides (tx_of t).
Proof.
  rewrite import_provided. split.
  - intros [[Ht ->]|(Ht & Hp & Hd)].
    + exists new_tx. by rewrite lookup_insert_eq.
    + apply (rg_provided _ _ _ G0) in Hp as (t & Hp & Hin). destruct (m1_old p t Hp Hd) as (t' & Ht' & Hr). exists t'. unfold tx_of. by rewrite Hr.
  - intros (t' & [[-> ->]|(Hne & t & Ht & Hd & Hr & _)]%m1_lookup & Hin); [by left|right]. unfold tx_of in Hin. rewrite Hr in Hin. fold (tx_of t) in Hin.
    pose proof (provider_of G0 tag p t Ht Hin) as Hp. split_and!; [|done..]. intros Htx. apply Hd, replaced_removed, elem_of_replace_hashes. eauto.
Qed.

Lemma import_deps h t u t' : m1 !! h = Some t -> u ∈ unlocks t -> m1 !! u = Some t' -> exists tag, tag ∈ provides (tx_of t) /\ tag ∈ requires (tx_of t').
Proof.
  intros [[-> ->]|(Hh & t1 & Ht1 & Hd & Hr & _ & Hul)]%m1_lookup Hu [[-> ->]|(Hune & t2 & Ht2 & Hd2 & Hr2 & _)]%m1_lookup.
  - by apply inherited_used in Hu.
  - apply inherited_elem in Hu as (k & tk & Hk & Htk & Hu). destruct (rg_deps _ _ _ G0 k tk u t2 Htk Hu Ht2) as (tag & Hp & Hq).
    exists tag. unfold tx_of at 2. rewrite Hr2. split; [|done].
    by apply (removed_replaced k tk u (replaced_removed k Hk) Htk Hu Hd2 ltac:(eauto)).
  - apply Hul in Hu as [Hu|(_ & tag & Hin & Hp)]; [by apply (rg_unlocks_used _ _ _ G0 h t1 h0 Ht1) in Hu|].
    exists tag. split; [|done]. unfold tx_of. rewrite Hr. fold (tx_of t1).
    assert (tag ∉ provides tx) as Hnp by (intros Hc; by apply Hvalid in Hc). apply (s2_provided tag h Hnp) in Hp as [Hp _].
    apply (rg_provided _ _ _ G0) in Hp as (t3 & Ht3 & Hin3). congruence.
  - unfold tx_of. rewrite Hr, Hr2. apply Hul in Hu as [Hu|[-> _]]; [|done]. by apply (rg_deps _ _ _ G0 h t1 u t2).
Qed.

Lemma import_older h t tag p t' : m1 !! h = Some t -> tag ∈ requires (tx_of t) ->
  foldl (fun pt x => <[x := h0]> pt) (provided_tags s3) (provides tx) !! tag = Some p -> m1 !! p = Some t' -> id_of t' < id_of t -> h ∈ unlocks t'.
Proof.
  intros [[-> ->]|(Hh & t1 & Ht1 & Hd & Hr & _ & Hul)]%m1_lookup Htag Hp [[-> ->]|(Hpne & t2 & Ht2 & Hd2 & Hr2 & _ & Hul2)]%m1_lookup Hid.
  - lia.
  - apply Hul2. right. split; [done|]. exists tag. split; [done|]. apply import_provided in Hp as [[Hc _]|(Hnp & Hp)]; [by apply Hvalid in Hc|]. by apply s2_provided.
  - rewrite Hr in Hid. pose proof (Hids h t1 Ht1). simpl in Hid. lia.
  - apply Hul2. left. apply import_provided in Hp as [[_ ->]|(Hnp & Hp & _)]; [done|]. rewrite Hr, Hr2 in Hid. unfold tx_of in Htag. rewrite Hr in Htag.
    by eapply (rg_older _ _ _ G0 h t1 tag p t2).
Qed.

Lemma import_links h t : m1 !! h = Some t -> (requires_offset t + links m1 h)%nat = needs t.
Proof.
  intros Ht. rewrite links_insert by apply fresh_absent. cbn [new_tx unlocks].
  apply m1_lookup in Ht as [[-> ->]|(Hh & t1 & Ht1 & Hd & Hr & Ho & _)].
  - rewrite new_links. cbn [new_tx requires_offset tx_of tx_ref ref_transaction]. lia.
  - rewrite (kept_links h t1 Ht1 Hd), Ho. unfold tx_of. rewrite Hr. by apply (rg_links _ _ _ G0).
Qed.

Lemma import_graph : ready_graph ({[h0]} ∪ used) (foldl (fun pt x => <[x := h0]> pt) (provided_tags s3) (provides tx)) m1.
Proof.
  split.
  - intros h t [[-> ->]|(Hh & t1 & Ht1 & Hd & Hr & _)]%m1_lookup; [done|]. unfold tx_of. rewrite Hr. by apply (rg_hash _ _ _ G0).
  - intros h t [[-> ->]|(Hh & t1 & Ht1 & _)]%m1_lookup; [set_solver|]. apply (rg_used _ _ _ G0) in Ht1. set_solver.
  - intros h t u [[-> ->]|(Hh & t1 & Ht1 & Hd & Hr & _ & Hul)]%m1_lookup Hu; [apply inherited_used in Hu; set_solver|].
    apply Hul in Hu as [Hu|[-> _]]; [|set_solver]. apply (rg_unlocks_used _ _ _ G0 h t1 u Ht1) in Hu. set_solver.
  - intros h t [[-> ->]|(Hh & t1 & Ht1 & Hd & Hr & _)]%m1_lookup; [done|]. unfold tx_of. rewrite Hr. by apply (rg_valid _ _ _ G0 h).
  - apply import_provided_iff.
  - intros h t h' t' Ht Ht' Hid. apply m1_lookup in Ht as [[-> ->]|(Hh & t1 & Ht1 & Hd & Hr & _)], Ht' as [[-> ->]|(Hh' & t2 & Ht2 & Hd' & Hr' & _)].
    + done.
    + pose proof (Hids h' t2 Ht2). rewrite Hr' in Hid. simpl in Hid. lia.
    + pose proof (Hids h t1 Ht1). rewrite Hr in Hid. simpl in Hid. lia.
    + rewrite Hr, Hr' in Hid. by eapply (rg_id_inj _ _ _ G0).
  - apply import_links.
  - apply import_deps.
  - apply import_older.
Qed.

Lemma import_best : ready_best m1 (if (n =? 0)%nat then bset_insert ref_cmp (tx_ref new_tx) (best s3) else best s3).
Proof.
  pose proof (rm_removed _ _ _ _ _ _ R) as RF.
  assert (forall r, r ∈ best s3 <-> exists h t, txs s3 !! h = Some t /\ r = tx_ref t /\ requires_offset t = needs t) as Hb.
  { intros r. rewrite (lk_best _ _ _ _ _ L), (rf_best _ _ _ _ RF), (rb_elem _ _ (ri_best _ _ I)). split.
    - intros [(h & t & Ht & -> & Ho) Hd]. fold (tx_of t) in Hd. rewrite (rg_hash _ _ _ G0 h t Ht) in Hd.
      destruct (lk_fwd _ _ _ _ _ L h t) as (t' & Ht' & Hr & Ho' & _); [by apply s2_lookup|]. exists h, t'. unfold tx_of. rewrite Hr, Ho'. done.
    - intros (h & t' & Ht' & -> & Ho). apply s3_origin in Ht' as (t & Ht & Hd & Hr & Ho' & _). unfold tx_of in Ho. rewrite Hr, Ho' in Ho.
      rewrite Hr. split; [eauto|]. fold (tx_of t). by rewrite (rg_hash _ _ _ G0 h t Ht). }
  assert (StronglySorted ref_lt (best s3)) as Hs by (rewrite (lk_best _ _ _ _ _ L); apply RF).
  assert (forall r, (exists h t, m1 !! h = Some t /\ r = tx_ref t /\ requires_offset t = needs t) <-> r ∈ best s3 \/ n = 0%nat /\ r = tx_ref new_tx) as Hm1.
  { intros r. rewrite Hb. split.
    - intros (h & t & [[<- <-]|[Hne Ht]]%lookup_insert_Some & -> & Ho); [right|left; eauto]. cbn [new_tx requires_offset tx_of tx_ref ref_transaction] in Ho. split; [lia|done].
    - intros [(h & t & Ht & -> & Ho)|[Hz ->]].
      + exists h, t. split; [|done]. rewrite lookup_insert_ne; [done|]. intros <-. by rewrite fresh_absent in Ht.
      + exists h0, new_tx. rewrite lookup_insert_eq. split_and!; [done..|]. cbn [new_tx requires_offset tx_of tx_ref ref_transaction]. lia. }
  destruct (Nat.eqb_spec n 0) as [Hz|Hz].
  - split; [apply bset_insert_sorted; eauto|]. intros r. rewrite Hm1, elem_of_bset_insert; [naive_solver|].
    intros z Hzin (_ & _ & Hid)%ref_cmp_Eq. apply Hb in Hzin as (h & t & Ht & -> & _). apply s3_origin in Ht as (t0 & Ht0 & _ & Hr & _).
    pose proof (Hids h t0 Ht0). rewrite Hr in Hid. simpl in Hid. lia.
  - split; [done|]. intros r. rewrite Hm1. naive_solver.
Qed.
End import_step.

(** What an import did to the queue: the transactions [D] are gone, [tx] is
    there and provides its tags. *)
Record ready_imported tx (D : list Hash) s s' : Prop := {
  ip_removing : exists s2, removing s (Some (list_to_set (provides tx))) (hash_iter (replace_hashes tx s)) D [] s2;
  ip_id : insertion_id s' = insertion_id s + 1;
  ip_refs h : tx_ref <$> txs s' !! h =
    if decide (h = hash tx) then Some (mkRef tx (insertion_id s + 1)) else if decide (h ∈ D) then None else tx_ref <$> txs s !! h;
  ip_provided tag p : provided_tags s' !! tag = Some p <->
    tag ∈ provides tx /\ p = hash tx \/ (tag ∉ provides tx) /\ provided_tags s !! tag = Some p /\ (p ∉ D) }.

Lemma bump_id_inv used s : ready_inv used s -> ready_inv used (with_insertion_id (fun _ => insertion_id s + 1) s).
Proof.
  intros I. split; [apply I|apply I| | |apply I].
  - intros h t Ht. pose proof (ri_ids _ _ I h t Ht). simpl. lia.
  - pose proof (ri_id _ _ I). simpl. lia.
Qed.

(** The checks at the start of an import. *)
Lemma ready_import_start used (w : WaitingTransaction Hash Ex) s :
  ready_inv used s -> missing_tags w = ∅ -> hash (transaction w) ∉ used -> insertion_id s + 1 < 2 ^ 64 ->
  ready_import w s = insert_ready (transaction w) (insertion_id s + 1) (with_insertion_id (fun _ => insertion_id s + 1) s).
Proof.
  intros I Hm Hf Hid. unfold ready_import. erewrite bind_Ok by (unfold is_ready; rewrite bool_decide_true by done; reflexivity). erewrite bind_Ok by reflexivity.
  erewrite bind_Ok.
  2: { unfold ready_contains. rewrite bool_decide_false; [reflexivity|]. intros [t Ht]. by apply (rg_used _ _ _ (ri_graph _ _ I)) in Ht. }
  erewrite bind_Ok by reflexivity. erewrite bind_Ok by (rewrite uadd_ok by (pose proof (ri_id _ _ I); unfold is_u; lia); reflexivity). done.
Qed.

Lemma ready_import_fails used (w : WaitingTransaction Hash Ex) s :
  ready_inv used s -> missing_tags w = ∅ -> hash (transaction w) ∉ used -> insertion_id s + 1 < 2 ^ 64 -> ~ replaces (transaction w) s ->
  ready_import w s = (with_insertion_id (fun _ => insertion_id s + 1) s, Err (TooLowPriority (old_priority (transaction w) s) (priority (transaction w)))).
Proof.
  intros I Hm Hf Hid Hr. rewrite (ready_import_start used w s I Hm Hf Hid). unfold insert_ready. cbn zeta.
  erewrite bind_Err; [done|].
  exact (replace_previous_fails (transaction w) (with_insertion_id (fun _ => insertion_id s + 1) s) Hr).
Qed.

Lemma insert_ready_run used tx s id : ready_inv used s -> hash tx ∉ used -> tx_valid tx -> replaces tx s ->
  exists s' s2 s3 D n, insert_ready tx id s = (s', Ok (omap (fun h => tx_of <$> txs s !! h) D)) /\
    removing s (Some (list_to_set (provides tx))) (hash_iter (replace_hashes tx s)) D [] s2 /\ linked (hash tx) (requires tx) s2 s3 n /\
    (n <= length (requires tx))%nat /\ insertion_id s' = insertion_id s /\
    txs s' = <[hash tx := new_tx s tx n id]> (txs s3) /\ (tracked (ready s3) -> tracked (ready s')) /\
    provided_tags s' = foldl (fun pt x => <[x := hash tx]> pt) (provided_tags s3) (provides tx) /\
    best s' = if (n =? 0)%nat then bset_insert ref_cmp (tx_ref (new_tx s tx n id)) (best s3) else best s3.
Proof.
  intros I Hf Hv Hr. destruct (replace_previous_run used tx s I Hr) as (s2 & D & Hrun & R).
  destruct (link_tags_run (E := PoolError Hash) (hash tx) (requires tx) s2 true 0) as (s3 & n & Hlink & Hn & L).
  { intros tag p Hin Hp. apply (s2_provided _ _ _ _ R) in Hp as [Hp Hd]; [|intros Hc; by apply Hv in Hc].
    apply (rg_provided _ _ _ (ri_graph _ _ I)) in Hp as (t & Ht & _). exists t. by apply (s2_lookup _ _ _ _ R). }
  unfold insert_ready. cbn zeta. erewrite bind_Ok by exact Hrun. cbn iota beta. erewrite bind_Ok by exact Hlink. cbn iota beta.
  erewrite bind_Ok by apply for_each_modify. cbn beta. rewrite (fold_provided (fun x => <[x := hash tx]>)).
  pose proof (rf_id _ _ _ _ (rm_removed _ _ _ _ _ _ R)) as Hid. pose proof (lk_id _ _ _ _ _ L) as Hid'.
  destruct (n =? 0)%nat eqn:Hz; cbn [andb]; (erewrite bind_Ok by reflexivity); (erewrite bind_Ok by reflexivity);
    eexists _, s2, s3, D, n; (split; [reflexivity|]); rewrite Hz; split_and!; try done; simpl; try congruence;
    try (rewrite index_insert; done); apply tm_insert_tracked.
Qed.

(** The import of a transaction whose hash is new. *)
Lemma ready_import_run used (w : WaitingTransaction Hash Ex) s :
  ready_inv used s -> missing_tags w = ∅ -> hash (transaction w) ∉ used -> tx_valid (transaction w) -> insertion_id s + 1 < 2 ^ 64 -> replaces (transaction w) s ->
  exists s' D, ready_import w s = (s', Ok (omap (fun h => tx_of <$> txs s !! h) D)) /\ ready_inv ({[hash (transaction w)]} ∪ used) s' /\
    ready_imported (transaction w) D s s'.
Proof.
  intros I Hm Hf Hv Hid Hr. rewrite (ready_import_start used w s I Hm Hf Hid). set (tx := transaction w) in *. pose proof (bump_id_inv used s I) as I1.
  set (s1 := with_insertion_id (fun _ => insertion_id s + 1) s) in *.
  assert (forall h t, txs s1 !! h = Some t -> id_of t < insertion_id s + 1) as Hids by (intros h t Ht; pose proof (ri_ids _ _ I h t Ht); lia).
  destruct (insert_ready_run used tx s1 (insertion_id s + 1) I1 Hf Hv Hr) as (s' & s2 & s3 & D & n & Hrun & R & L & Hn & Hid' & Htx & Htr & Hpr & Hb).
  exists s', D. split_and!; [exact Hrun| |].
  - split.
    + rewrite Htx, Hpr. by eapply import_graph.
    + rewrite Htx, Hb. by eapply import_best.
    + intros h t. rewrite Htx, Hid'. intros [[-> ->]|(_ & t1 & Ht1 & _ & Hr1 & _)]%(m1_lookup _ _ _ _ _ _ _ R L); simpl; [pose proof (ri_id _ _ I); lia|].
      rewrite Hr1. pose proof (ri_ids _ _ I1 h t1 Ht1). simpl in *. lia.
    + rewrite Hid'. apply I1.
    + apply Htr, (lk_tracked _ _ _ _ _ L), (rf_tracked _ _ _ _ (rm_removed _ _ _ _ _ _ R)).
  - split.
    + exists (with_insertion_id (fun _ => insertion_id s) s2). destruct R as [[? ? ? ? ? ?] ? ? ? ? ?]. split; [split|..]; first [assumption|reflexivity].
    + by rewrite Hid'.
    + intros h. rewrite Htx. case_decide as Hh; [subst h; by rewrite lookup_insert_eq|]. rewrite lookup_insert_ne by done.
      case_decide as Hd.
      * destruct (txs s3 !! h) as [t'|] eqn:Ht'; [|done]. apply (s3_origin _ _ _ _ _ _ R L) in Ht' as (_ & _ & Hnd & _). done.
      * destruct (txs s !! h) as [t|] eqn:Ht.
        -- destruct (lk_fwd _ _ _ _ _ L h t) as (t' & -> & Hr' & _); [by apply (s2_lookup _ _ _ _ R)|]. simpl. by rewrite Hr'.
        -- destruct (txs s3 !! h) as [t'|] eqn:Ht'; [|done]. apply (s3_origin _ _ _ _ _ _ R L) in Ht' as (t & Ht1 & _). cbn in Ht1. congruence.
    + intros tag p. rewrite Hpr. exact (import_provided _ _ _ _ _ _ R L tag p).
Qed.

(** ** Pruning *)

(** [h] is no longer linked from the providers of its requirements. *)
Record unlinked (h : Hash) s s' : Prop := {
  ul_provided : provided_tags s' = provided_tags s;
  ul_id : insertion_id s' = insertion_id s;
  ul_best : best s' = best s;
  ul_tracked : tracked (ready s) -> tracked (ready s');
  ul_fwd p t : txs s !! p = Some t -> exists t', txs s' !! p = Some t' /\ tx_ref t' = tx_ref t /\ requires_offset t' = requires_offset t /\
    forall u, u <> h -> occ u (unlocks t') = occ u (unlocks t);
  ul_bwd p : is_Some (txs s' !! p) -> is_Some (txs s !! p);
  ul_links u : u <> h -> links (txs s') u = links (txs s) u }.

Lemma unlinked_refl h s : unlinked h s s.
Proof. split; try done. intros p t Ht. eauto. Qed.

Lemma unlinked_trans h s1 s2 s3 : unlinked h s1 s2 -> unlinked h s2 s3 -> unlinked h s1 s3.
Proof.
  intros U V. split.
  - by rewrite (ul_provided _ _ _ V), (ul_provided _ _ _ U).
  - by rewrite (ul_id _ _ _ V), (ul_id _ _ _ U).
  - by rewrite (ul_best _ _ _ V), (ul_best _ _ _ U).
  - intros Ht. by apply V, U.
  - intros p t Ht. destruct (ul_fwd _ _ _ U p t Ht) as (t' & Ht' & Hr & Ho & Hu). destruct (ul_fwd _ _ _ V p t' Ht') as (t2 & Ht2 & Hr2 & Ho2 & Hu2).
    exists t2. split_and!; [done|congruence|congruence|]. intros u Hne. by rewrite Hu2, Hu.
  - intros p Hp. by apply U, V.
  - intros u Hne. by rewrite (ul_links _ _ _ V), (ul_links _ _ _ U).
Qed.

Lemma find_previous_run {E} h tag s : exists s' o, find_previous (E := E) h tag s = (s', Ok o) /\ unlinked h s s' /\
  forall tags, o = Some tags -> exists p t, provided_tags s !! tag = Some p /\ txs s !! p = Some t /\ tags = provides (tx_of t).
Proof.
  unfold find_previous. erewrite bind_Ok by reflexivity. destruct (provided_tags s !! tag) as [p|] eqn:Hp; [|eexists _, _; split_and!; [reflexivity|apply unlinked_refl|done]].
  destruct (txs s !! p) as [t|] eqn:Ht; [|eexists _, _; split_and!; [reflexivity|apply unlinked_refl|done]].
  erewrite bind_Ok by reflexivity. eexists _, _. split_and!; [reflexivity| |].
  - split; try done.
    + intros Htr. by eapply tm_update_tracked.
    + intros q t' Hq. destruct (decide (q = p)) as [->|Hne].
      * eexists. split; [apply lookup_insert_eq|]. assert (t' = t) as -> by congruence. split_and!; [done..|]. intros u Hu. simpl. by apply occ_remove_item.
      * exists t'. split; [simpl; by rewrite lookup_insert_ne|done].
    + intros q Hq. destruct (decide (q = p)) as [->|Hne]; [eauto|]. simpl in Hq. by rewrite lookup_insert_ne in Hq.
    + intros u Hu. simpl. apply (links_same _ _ t); [done|]. by apply occ_remove_item.
  - intros tags. cbn [with_unlocks unlocks]. destruct (remove_item h (unlocks t)); [|done]. intros [= <-]. eauto.
Qed.

Lemma find_all_run {E} h tags s acc : exists s' pushed,
  fold_each (E := E) (fun pushed tag => tags_to_remove ← find_previous h tag; mret (pushed ++ default [] tags_to_remove)) acc tags s = (s', Ok (acc ++ pushed)) /\
  unlinked h s s' /\ forall tag', tag' ∈ pushed -> exists tag p t, tag ∈ tags /\ provided_tags s !! tag = Some p /\ txs s !! p = Some t /\ tag' ∈ provides (tx_of t).
Proof.
  revert s acc. induction tags as [|tag tags IH]; intros s acc.
  { exists s, []. rewrite app_nil_r. split_and!; [done|apply unlinked_refl|set_solver]. }
  cbn [fold_each]. destruct (find_previous_run (E := E) h tag s) as (s1 & o & Hrun & U & Ho).
  erewrite bind_Ok. 2: { erewrite bind_Ok by exact Hrun. reflexivity. }
  destruct (IH s1 (acc ++ default [] o)) as (s2 & pushed & Hrun2 & U2 & Hp). exists s2, (default [] o ++ pushed).
  split_and!; [by rewrite Hrun2, <-app_assoc|by eapply unlinked_trans|].
  intros tag' [Hin|Hin]%elem_of_app.
  - destruct o as [l|]; simpl in Hin; [|set_solver]. destruct (Ho l eq_refl) as (p & t & Hpt & Ht & ->). exists tag, p, t. set_solver.
  - destruct (Hp tag' Hin) as (tag1 & p & t1 & Hin1 & Hp1 & Ht1 & Hin2). rewrite (ul_provided _ _ _ U) in Hp1.
    destruct (ul_bwd _ _ _ U p) as [t Ht]; [eauto|]. destruct (ul_fwd _ _ _ U p t Ht) as (t' & Ht' & Hr & _). simplify_eq.
    exists tag1, p, t. unfold tx_of in *. rewrite Hr in Hin2. set_solver.
Qed.

(** The transactions [us] have one more requirement satisfied, as often as they
    are listed. *)
Record unlocked (us : list Hash) s s' : Prop := {
  uk_provided : provided_tags s' = provided_tags s;
  uk_id : insertion_id s' = insertion_id s;
  uk_tracked : tracked (ready s) -> tracked (ready s');
  uk_fwd p t : txs s !! p = Some t -> txs s' !! p = Some (mkReadyTx (tx_ref t) (unlocks t) (requires_offset t + occ p us));
  uk_bwd p : is_Some (txs s' !! p) -> is_Some (txs s !! p);
  uk_links u : links (txs s') u = links (txs s) u;
  uk_sorted : StronglySorted ref_lt (best s) -> StronglySorted ref_lt (best s');
  uk_best r : r ∈ best s' <-> r ∈ best s \/ exists p t, txs s !! p = Some t /\ p ∈ us /\ r = tx_ref t /\ (requires_offset t + occ p us)%nat = needs t }.

(** What the loop over the unlocked transactions relies on. *)
Record unlockable (us : list Hash) s : Prop := {
  ua_best r : r ∈ best s -> exists p t, txs s !! p = Some t /\ r = tx_ref t;
  ua_inj p t p' t' : txs s !! p = Some t -> txs s !! p' = Some t' -> id_of t = id_of t' -> p = p';
  ua_offset p t : txs s !! p = Some t -> (requires_offset t + occ p us <= needs t)%nat }.

Lemma unlock_step {E} u us s t : unlockable (u :: us) s -> txs s !! u = Some t ->
  exists s1, unlock_ready (E := E) u s = (s1, Ok tt) /\ unlockable us s1 /\ forall s', unlocked us s1 s' -> unlocked (u :: us) s s'.
Proof.
  intros A Ht. unfold unlock_ready. erewrite bind_Ok by reflexivity. rewrite Ht. erewrite bind_Ok by reflexivity.
  set (t1 := mkReadyTx (tx_ref t) (unlocks t) (S (requires_offset t))).
  set (b1 := if decide (S (requires_offset t) = needs t) then bset_insert ref_cmp (tx_ref t) (best s) else best s).
  set (s1 := mkReady (insertion_id s) (provided_tags s) (tm_update u t1 (ready s)) b1).
  assert (forall r, r ∈ b1 <-> r ∈ best s \/ S (requires_offset t) = needs t /\ r = tx_ref t) as Hb1.
  { intros r. unfold b1. case_decide as Ho; [|naive_solver]. rewrite elem_of_bset_insert; [naive_solver|].
    intros z (p & t' & Ht' & ->)%(ua_best _ _ A) (_ & _ & Hid)%ref_cmp_Eq. assert (p = u) as -> by by eapply (ua_inj _ _ A). congruence. }
  assert (forall p t', txs s1 !! p = Some t' <-> p = u /\ t' = t1 \/ p <> u /\ txs s !! p = Some t') as Hlk.
  { intros p t'. simpl. rewrite lookup_insert_Some. naive_solver. }
  exists s1. split_and!.
  - unfold s1, b1. cbn [t1 requires_offset tx_of tx_ref]. fold (tx_of t). destruct (decide (S (requires_offset t) = needs t)) as [Ho|Ho];
      [rewrite bool_decide_true by exact Ho|rewrite bool_decide_false by exact Ho]; reflexivity.
  - split.
    + intros r [Hr|[_ ->]]%Hb1; [|exists u, t1; split; [apply Hlk; by left|done]]. destruct (ua_best _ _ A r Hr) as (p & t' & Ht' & ->).
      destruct (decide (p = u)) as [->|Hne]; [exists u, t1; split; [apply Hlk; by left|simplify_eq; done]|exists p, t'; split; [apply Hlk; by right|done]].
    + intros p t' p' t'' [[-> ->]|[Hne Hp]]%Hlk [[-> ->]|[Hne' Hp']]%Hlk Hid; [done|..]; [destruct Hne'; symmetry|destruct Hne|]; by eapply (ua_inj _ _ A).
    + intros p t' [[-> ->]|[Hne Hp]]%Hlk; [pose proof (ua_offset _ _ A u t Ht) as Ho|pose proof (ua_offset _ _ A p t' Hp) as Ho]; rewrite occ_cons in Ho.
      * rewrite decide_True in Ho by done. change (needs t1) with (needs t). cbn [t1 requires_offset]. lia.
      * case_decide; lia.
  - intros s' K. split.
    + by rewrite (uk_provided _ _ _ K).
    + by rewrite (uk_id _ _ _ K).
    + intros Htr. apply (uk_tracked _ _ _ K). by eapply tm_update_tracked.
    + intros p t' Hp. rewrite occ_cons. destruct (decide (p = u)) as [->|Hne].
      * rewrite decide_True by done. assert (t' = t) as -> by congruence. rewrite (uk_fwd _ _ _ K u t1) by (apply Hlk; by left). unfold t1. simpl. do 2 f_equal. lia.
      * rewrite decide_False by congruence. apply (uk_fwd _ _ _ K). apply Hlk. by right.
    + intros p Hp. apply (uk_bwd _ _ _ K) in Hp as [t' [[-> _]|[_ Hp]]%Hlk]; eauto.
    + intros v. rewrite (uk_links _ _ _ K). by apply (links_same _ _ t).
    + intros Hs. apply (uk_sorted _ _ _ K). simpl. unfold b1. case_decide; [apply bset_insert_sorted; eauto|done].
    + intros r. rewrite (uk_best _ _ _ K). simpl best. rewrite Hb1. pose proof (ua_offset _ _ A u t Ht) as Ho. rewrite occ_cons, decide_True in Ho by done. split.
      * intros [[Hr|[Heq ->]]|(p & t' & [[-> ->]|[Hne Hp]]%Hlk & Hin & -> & Heq)]; [by left|right..].
        -- exists u, t. split_and!; [done|set_solver|done|]. rewrite occ_cons, decide_True by done. lia.
        -- exists u, t. change (needs t1) with (needs t) in Heq. cbn [t1 requires_offset] in Heq. split_and!; [done|set_solver|done|]. rewrite occ_cons, decide_True by done. lia.
        -- exists p, t'. split_and!; [done|set_solver|done|]. rewrite occ_cons, decide_False by congruence. lia.
      * intros [Hr|(p & t' & Hp & Hin & -> & Heq)]; [by left; left|]. rewrite occ_cons in Heq. destruct (decide (p = u)) as [->|Hne].
        -- assert (t' = t) as -> by congruence. rewrite decide_True in Heq by done. destruct (decide (u ∈ us)) as [Hu|Hu].
           ++ right. exists u, t1. split_and!; [apply Hlk; by left|done|done|]. change (needs t1) with (needs t). cbn [t1 requires_offset]. lia.
           ++ left. right. apply occ_not_elem in Hu. split; [lia|done].
        -- rewrite decide_False in Heq by congruence. right. exists p, t'. split_and!; [apply Hlk; by right|set_solver|done|lia].
Qed.

Lemma unlocked_nil s : unlocked [] s s.
Proof.
  split; try done.
  - intros p t Ht. rewrite occ_nil, Nat.add_0_r, Ht. by destruct t.
  - intros r. split; [by left|]. intros [|(p & t & _ & Hin & _)]; [done|set_solver].
Qed.

Lemma unlocked_skip u us s s' : txs s !! u = None -> unlocked us s s' -> unlocked (u :: us) s s'.
Proof.
  intros Hu K. assert (forall p t, txs s !! p = Some t -> occ p (u :: us) = occ p us) as Ho.
  { intros p t Hp. rewrite occ_cons, decide_False by congruence. done. }
  split; try apply K.
  - intros p t Ht. rewrite (Ho p t Ht). by apply K.
  - intros r. rewrite (uk_best _ _ _ K). split; (intros [|(p & t & Hp & Hin & -> & Heq)]; [by left|right]); exists p, t.
    + rewrite (Ho p t Hp). set_solver.
    + rewrite (Ho p t Hp) in Heq. split_and!; [done| |done|done]. apply elem_of_cons in Hin as [->|]; congruence || done.
Qed.

Lemma unlock_all_run {E} us s : unlockable us s -> exists s', for_each (E := E) unlock_ready us s = (s', Ok tt) /\ unlocked us s s'.
Proof.
  revert s. induction us as [|u us IH]; intros s A; [exists s; split; [done|apply unlocked_nil]|]. cbn [for_each].
  destruct (txs s !! u) as [t|] eqn:Ht.
  - destruct (unlock_step (E := E) u us s t A Ht) as (s1 & Hrun & A1 & Hk). destruct (IH s1 A1) as (s' & Hrun' & K).
    exists s'. split; [by erewrite bind_Ok by exact Hrun|by apply Hk].
  - destruct (IH s) as (s' & Hrun' & K).
    { split; [apply A|apply A|]. intros p t Hp. pose proof (ua_offset _ _ A p t Hp) as Ho. rewrite occ_cons, decide_False in Ho by congruence. lia. }
    exists s'. split; [|by apply unlocked_skip]. erewrite bind_Ok; [exact Hrun'|]. unfold unlock_ready. erewrite bind_Ok by reflexivity. by rewrite Ht.
Qed.

(** The last loop: the tags of a pruned transaction are its own. *)
Lemma clear_tags_run {E} cur h l s : NoDup l -> (forall tag, tag ∈ l -> provided_tags s !! tag = if decide (cur = tag) then None else Some h) ->
  for_each (E := E) (fun tag =>
    removed ← gets (fun self => provided_tags self !! tag);
    _ ← modify (with_provided (delete tag));
    lift (assert_ (bool_decide (removed = if decide (cur = tag) then None else Some h)))) l s
  = (with_provided (fun pt => foldl (fun pt tag => delete tag pt) pt l) s, Ok tt).
Proof.
  intros Hnd. revert s. induction Hnd as [|tag l Hnin Hnd IH]; intros s Hl; [by destruct s|]. cbn [for_each].
  erewrite bind_Ok. 2: { erewrite bind_Ok by reflexivity. erewrite bind_Ok by reflexivity. rewrite bool_decide_true by (apply Hl; set_solver). reflexivity. }
  rewrite IH; [done|]. intros tag' Hin. simpl. rewrite lookup_delete_ne by set_solver. apply Hl. set_solver.
Qed.

(** The effect of pruning one transaction [h]. *)
Record pruned_one (h : Hash) t s s' (pushed : list Tag) : Prop := {
  po_id : insertion_id s' = insertion_id s;
  po_refs p : tx_ref <$> txs s' !! p = if decide (p = h) then None else tx_ref <$> txs s !! p;
  po_provided tag p : provided_tags s' !! tag = Some p <-> provided_tags s !! tag = Some p /\ p <> h;
  po_pushed tag' : tag' ∈ pushed -> exists tag p t', tag ∈ requires (tx_of t) /\ provided_tags s !! tag = Some p /\ txs s !! p = Some t' /\ p <> h /\ tag' ∈ provides (tx_of t') }.

(** The states of one round: [s1] without [h], [s2] without the links to it,
    [s3] with its links satisfied. *)
Section prune_step.
Context (used : gset Hash) (cur : Tag) (h : Hash) (t : RTx) (s s2 s3 : Ready).
Abbreviation s1 := (with_best (bset_remove ref_cmp (tx_ref t)) (with_ready (fun r => (tm_remove h r).1) (with_provided (delete cur) s))).
Context (I : ready_inv used s) (Hcur : provided_tags s !! cur = Some h) (Ht : txs s !! h = Some t)
  (U : unlinked h s1 s2) (K : unlocked (unlocks t) s2 s3).

Local Lemma Gp : ready_graph used (provided_tags s) (txs s).
Proof. apply I. Qed.

Lemma s1_txs : txs s1 = delete h (txs s).
Proof. simpl. by rewrite index_remove. Qed.

Lemma s1_links p : links (txs s) p = (occ p (unlocks t) + links (txs s1) p)%nat.
Proof. rewrite s1_txs. by apply links_delete. Qed.

Lemma prune_fwd p t0 : p <> h -> txs s !! p = Some t0 -> exists t2, txs s2 !! p = Some t2 /\ tx_ref t2 = tx_ref t0 /\
  requires_offset t2 = requires_offset t0 /\ (forall u, u <> h -> occ u (unlocks t2) = occ u (unlocks t0)) /\
  txs s3 !! p = Some (mkReadyTx (tx_ref t2) (unlocks t2) (requires_offset t2 + occ p (unlocks t))).
Proof.
  intros Hne Hp. destruct (ul_fwd _ _ _ U p t0) as (t2 & Ht2 & Hr & Ho & Hu); [rewrite s1_txs; by rewrite lookup_delete_ne|].
  exists t2. split_and!; [done..|]. by apply K.
Qed.

Lemma prune_bwd p t3 : txs s3 !! p = Some t3 -> p <> h /\ exists t0, txs s !! p = Some t0 /\ tx_ref t3 = tx_ref t0 /\
  requires_offset t3 = (requires_offset t0 + occ p (unlocks t))%nat /\ forall u, u <> h -> occ u (unlocks t3) = occ u (unlocks t0).
Proof.
  intros Hp. destruct (uk_bwd _ _ _ K p) as [t2 Ht2]; [eauto|]. destruct (ul_bwd _ _ _ U p) as [t0 Ht0]; [eauto|].
  rewrite s1_txs in Ht0. apply lookup_delete_Some in Ht0 as [Hne Ht0]. split; [congruence|]. exists t0. split; [done|].
  destruct (prune_fwd p t0 ltac:(congruence) Ht0) as (t2' & Ht2' & Hr & Ho & Hu & Ht3). simplify_eq. simpl. rewrite Ho. done.
Qed.

Lemma prune_unlocks p t3 t0 u : u <> h -> txs s !! p = Some t0 -> txs s3 !! p = Some t3 -> u ∈ unlocks t3 <-> u ∈ unlocks t0.
Proof.
  intros Hne Hp Hp3. apply prune_bwd in Hp3 as (_ & t0' & Ht0' & _ & _ & Hu). simplify_eq. by rewrite !occurs_elem, Hu.
Qed.

Lemma prune_links p : p <> h -> (links (txs s) p = occ p (unlocks t) + links (txs s3) p)%nat.
Proof. intros Hne. by rewrite (uk_links _ _ _ K), (ul_links _ _ _ U), s1_links. Qed.

Lemma prune_graph provided' : (forall tag p, provided' !! tag = Some p <-> provided_tags s !! tag = Some p /\ p <> h) ->
  ready_graph used provided' (txs s3).
Proof.
  intros Hpr. split.
  - intros p t3 (_ & t0 & Ht0 & Hr & _)%prune_bwd. unfold tx_of. rewrite Hr. by apply (rg_hash _ _ _ Gp).
  - intros p t3 (_ & t0 & Ht0 & _)%prune_bwd. by eapply (rg_used _ _ _ Gp).
  - intros p t3 u Hp Hu. destruct (decide (u = h)) as [->|Hne]; [by eapply (rg_used _ _ _ Gp)|].
    pose proof (prune_bwd p t3 Hp) as (_ & t0 & Ht0 & _). apply (prune_unlocks p t3 t0 u Hne Ht0 Hp) in Hu. by eapply (rg_unlocks_used _ _ _ Gp).
  - intros p t3 (_ & t0 & Ht0 & Hr & _)%prune_bwd. unfold tx_of. rewrite Hr. by apply (rg_valid _ _ _ Gp p).
  - intros tag p. rewrite Hpr, (rg_provided _ _ _ Gp). split.
    + intros [(t0 & Ht0 & Hin) Hne]. destruct (prune_fwd p t0 Hne Ht0) as (t2 & _ & Hr & _ & _ & Ht3). eexists. split; [exact Ht3|]. unfold tx_of. simpl. by rewrite Hr.
    + intros (t3 & (Hne & t0 & Ht0 & Hr & _)%prune_bwd & Hin). unfold tx_of in Hin. rewrite Hr in Hin. eauto.
  - intros p t3 p' t3' (_ & t0 & Ht0 & Hr & _)%prune_bwd (_ & t0' & Ht0' & Hr' & _)%prune_bwd. rewrite Hr, Hr'. by apply (rg_id_inj _ _ _ Gp).
  - intros p t3 (Hne & t0 & Ht0 & Hr & Ho & _)%prune_bwd. unfold tx_of. rewrite Hr, Ho. fold (tx_of t0).
    rewrite <-(rg_links _ _ _ Gp p t0 Ht0), (prune_links p Hne). lia.
  - intros p t3 u t3' Hp Hu Hu'. pose proof (prune_bwd p t3 Hp) as (_ & t0 & Ht0 & Hr & _). pose proof (prune_bwd u t3' Hu') as (Hne & t0' & Ht0' & Hr' & _).
    apply (prune_unlocks p t3 t0 u Hne Ht0 Hp) in Hu. unfold tx_of. rewrite Hr, Hr'. by apply (rg_deps _ _ _ Gp p t0 u t0').
  - intros p t3 tag q t3' Hp Hin [Hq _]%Hpr Hq' Hid. pose proof (prune_bwd p t3 Hp) as (Hne & t0 & Ht0 & Hr & _). pose proof (prune_bwd q t3' Hq') as (_ & t0' & Ht0' & Hr' & _).
    apply (prune_unlocks q t3' t0' p Hne Ht0' Hq'). unfold tx_of in Hin. rewrite Hr in Hin, Hid. rewrite Hr' in Hid. by apply (rg_older _ _ _ Gp p t0 tag q t0').
Qed.

Lemma prune_best : ready_best (txs s3) (best s3).
Proof.
  assert (forall r, r ∈ best s2 <-> r ∈ best s /\ hash (ref_transaction r) <> h) as Hb2.
  { intros r. rewrite (ul_best _ _ _ U). simpl. apply (best_remove Gp (best s) h t (ri_best _ _ I) Ht). }
  split; [apply (uk_sorted _ _ _ K); rewrite (ul_best _ _ _ U); apply bset_remove_sorted; eauto; apply I|].
  intros r. rewrite (uk_best _ _ _ K), Hb2, (rb_elem _ _ (ri_best _ _ I)). split.
  - intros [[(p & t0 & Ht0 & -> & Ho) Hne]|(p & t2 & Ht2 & Hin & -> & Ho)].
    + fold (tx_of t0) in Hne. rewrite (rg_hash _ _ _ Gp p t0 Ht0) in Hne. destruct (prune_fwd p t0 Hne Ht0) as (t2 & _ & Hr & Ho2 & _ & Ht3).
      eexists _, _. split_and!; [exact Ht3|done|]. unfold tx_of. simpl. rewrite Hr. fold (tx_of t0).
      pose proof (rg_links _ _ _ Gp p t0 Ht0). pose proof (prune_links p Hne). lia.
    + eexists _, _. split_and!; [by apply K|done|]. unfold tx_of in *. simpl. done.
  - intros (p & t3 & Hp & -> & Ho). pose proof (prune_bwd p t3 Hp) as (Hne & t0 & Ht0 & Hr & Ho3 & _). unfold tx_of in Ho. rewrite Hr in *. fold (tx_of t0) in Ho.
    destruct (prune_fwd p t0 Hne Ht0) as (t2 & Ht2 & Hr2 & Ho2 & _). destruct (decide (p ∈ unlocks t)) as [Hin|Hin].
    + right. exists p, t2. split_and!; [done..|]. unfold tx_of. rewrite Hr2. fold (tx_of t0). lia.
    + apply occ_not_elem in Hin. left. split; [exists p, t0; split_and!; [done..|lia]|]. fold (tx_of t0). by rewrite (rg_hash _ _ _ Gp p t0 Ht0).
Qed.
End prune_step.

Lemma prune_ready_run {E} used cur h t s : ready_inv used s -> provided_tags s !! cur = Some h -> txs s !! h = Some t ->
  exists s' pushed, prune_ready (E := E) cur t (with_ready (fun r => (tm_remove h r).1) (with_provided (delete cur) s)) = (s', Ok pushed) /\
    ready_inv used s' /\ pruned_one h t s s' pushed.
Proof.
  intros I Hcur Ht. pose proof (ri_graph _ _ I) as G. unfold prune_ready. erewrite bind_Ok by reflexivity.
  rewrite (rg_hash _ _ _ G h t Ht). set (s1 := with_best _ _).
  destruct (find_all_run (E := E) h (requires (tx_of t)) s1 []) as (s2 & pushed & Hrun & U & Hpushed). erewrite bind_Ok by exact Hrun.
  assert (forall p t2, txs s2 !! p = Some t2 -> p <> h /\ exists t0, txs s !! p = Some t0 /\ tx_ref t2 = tx_ref t0 /\ requires_offset t2 = requires_offset t0) as Hbwd.
  { intros p t2 Ht2. destruct (ul_bwd _ _ _ U p) as [t0 Ht0]; [eauto|]. destruct (ul_fwd _ _ _ U p t0 Ht0) as (t2' & Ht2' & Hr & Ho & _). simplify_eq.
    unfold s1 in Ht0. simpl in Ht0. rewrite index_remove in Ht0. apply lookup_delete_Some in Ht0 as [Hne Ht0]. split; [congruence|]. eauto. }
  destruct (unlock_all_run (E := E) (unlocks t) s2) as (s3 & Hrun3 & K).
  { split.
    - intros r. rewrite (ul_best _ _ _ U). simpl. intros Hr. apply (best_remove G (best s) h t (ri_best _ _ I) Ht) in Hr as [Hr Hne].
      apply (rb_elem _ _ (ri_best _ _ I)) in Hr as (p & t0 & Ht0 & -> & _). fold (tx_of t0) in Hne. rewrite (rg_hash _ _ _ G p t0 Ht0) in Hne.
      destruct (ul_fwd _ _ _ U p t0) as (t2 & Ht2 & Hr & _); [simpl; rewrite index_remove; by rewrite lookup_delete_ne|]. exists p, t2. by rewrite Hr.
    - intros p t2 p' t2' (_ & t0 & Ht0 & Hr & _)%Hbwd (_ & t0' & Ht0' & Hr' & _)%Hbwd. rewrite Hr, Hr'. by apply (rg_id_inj _ _ _ G).
    - intros p t2 (Hne & t0 & Ht0 & Hr & Ho)%Hbwd. unfold tx_of. rewrite Hr, Ho. fold (tx_of t0). pose proof (rg_links _ _ _ G p t0 Ht0).
      pose proof (links_delete (txs s) h t p Ht). lia. }
  erewrite bind_Ok by exact Hrun3.
  assert (provided_tags s3 = delete cur (provided_tags s)) as Hp3 by by rewrite (uk_provided _ _ _ K), (ul_provided _ _ _ U).
  assert (forall tag, tag ∈ provides (tx_of t) <-> provided_tags s !! tag = Some h) as Htags.
  { intros tag. split; [by apply (provider_of G)|]. intros Hp. apply (rg_provided _ _ _ G) in Hp as (t' & Ht' & Hin). congruence. }
  erewrite bind_Ok.
  2: { apply clear_tags_run; [by apply (rg_valid _ _ _ G h t)|]. intros tag Hin%Htags. rewrite Hp3. case_decide as Hc; [subst; by rewrite lookup_delete_eq|by rewrite lookup_delete_ne]. }
  assert (forall tag p, foldl (fun pt tag => delete tag pt) (provided_tags s3) (provides (tx_of t)) !! tag = Some p <-> provided_tags s !! tag = Some p /\ p <> h) as Hpr.
  { intros tag p. rewrite lookup_delete_all, Hp3. case_decide as Hin; rewrite Htags in Hin; [naive_solver|]. rewrite lookup_delete_Some. naive_solver. }
  eexists _, pushed. split_and!; [reflexivity| |].
  - split; simpl.
    + eapply prune_graph; [exact I|exact Ht|exact U|exact K|exact Hpr].
    + eapply prune_best; [exact I|exact Ht|exact U|exact K].
    + intros p t3 (_ & t0 & Ht0 & Hr & _)%(prune_bwd _ _ _ _ _ _ U K). rewrite Hr, (uk_id _ _ _ K), (ul_id _ _ _ U). by apply (ri_ids _ _ I p).
    + rewrite (uk_id _ _ _ K), (ul_id _ _ _ U). apply I.
    + apply (uk_tracked _ _ _ K), (ul_tracked _ _ _ U). simpl. apply tm_remove_tracked, I.
  - split; simpl; [by rewrite (uk_id _ _ _ K), (ul_id _ _ _ U)| |exact Hpr|].
    + intros p. case_decide as Hp.
      * subst p. destruct (txs s3 !! h) as [t3|] eqn:Ht3; [|done]. by apply (prune_bwd _ _ _ _ _ _ U K) in Ht3 as [? _].
      * destruct (txs s !! p) as [t0|] eqn:Ht0.
        -- destruct (prune_fwd _ _ _ _ _ _ U K p t0 Hp Ht0) as (t2 & _ & Hr & _ & _ & ->). simpl. by rewrite Hr.
        -- destruct (txs s3 !! p) as [t3|] eqn:Ht3; [|done]. apply (prune_bwd _ _ _ _ _ _ U K) in Ht3 as (_ & t0 & Ht0' & _). congruence.
    + intros tag' Hin. destruct (Hpushed tag' Hin) as (tag & p & t' & Hreq & Hp & Ht' & Hin'). simpl in Hp, Ht'. rewrite index_remove in Ht'.
      apply lookup_delete_Some in Ht' as [Hne Ht']. apply lookup_delete_Some in Hp as [_ Hp]. exists tag, p, t'. split_and!; [done..|congruence|done].
Qed.

(** [d] provides a tag that [e] requires. *)
Definition leads m (d e : Hash) : Prop := exists td te tag, m !! d = Some td /\ m !! e = Some te /\ tag ∈ provides (tx_of td) /\ tag ∈ requires (tx_of te).

(** [s] is [s0] without the pruned transactions [D]: the providers of [tags]
    and transactions that lead to them. *)
Record pruning s0 (tags : list Tag) (D : list Hash) (stack : list Tag) s : Prop := {
  pr_id : insertion_id s = insertion_id s0;
  pr_refs p : tx_ref <$> txs s !! p = if decide (p ∈ D) then None else tx_ref <$> txs s0 !! p;
  pr_provided tag p : provided_tags s !! tag = Some p <-> provided_tags s0 !! tag = Some p /\ (p ∉ D);
  pr_nodup : NoDup D;
  pr_tags tag : tag ∈ tags -> provided_tags s !! tag = None \/ tag ∈ stack;
  pr_stack tag p : tag ∈ stack -> provided_tags s0 !! tag = Some p -> exists r tag', tag' ∈ tags /\ provided_tags s0 !! tag' = Some r /\ rtc (leads (txs s0)) p r;
  pr_reach d : d ∈ D -> exists r tag', tag' ∈ tags /\ provided_tags s0 !! tag' = Some r /\ rtc (leads (txs s0)) d r }.

Lemma pruning_origin s0 tags D stack s p t : pruning s0 tags D stack s -> txs s !! p = Some t -> (p ∉ D) /\ exists t0, txs s0 !! p = Some t0 /\ tx_ref t = tx_ref t0.
Proof.
  intros P Ht. pose proof (pr_refs _ _ _ _ _ P p) as Hr. rewrite Ht in Hr. case_decide as Hd; [done|]. split; [done|].
  destruct (txs s0 !! p) as [t0|]; [|done]. simpl in Hr. exists t0. split; congruence.
Qed.

Lemma pruning_skip s0 tags D tag stack s : pruning s0 tags D (tag :: stack) s -> provided_tags s !! tag = None -> pruning s0 tags D stack s.
Proof.
  intros P Hn. split; try apply P.
  - intros tag' Hin. destruct (pr_tags _ _ _ _ _ P tag' Hin) as [|[->|]%elem_of_cons]; auto.
  - intros tag' p Hin. apply (pr_stack _ _ _ _ _ P). set_solver.
Qed.

Lemma pruning_step s0 used tags D tag stack s h t s' pushed : ready_inv used s -> pruning s0 tags D (tag :: stack) s -> provided_tags s !! tag = Some h -> txs s !! h = Some t ->
  pruned_one h t s s' pushed -> pruning s0 tags (D ++ [h]) (push_all pushed stack) s'.
Proof.
  intros I P Hp Ht O. destruct (pruning_origin _ _ _ _ _ _ _ P Ht) as (Hd & t0 & Ht0 & Hr0).
  apply (pr_provided _ _ _ _ _ P) in Hp as Hp0. destruct Hp0 as [Hp0 _].
  destruct (pr_stack _ _ _ _ _ P tag h ltac:(set_solver) Hp0) as (r & tag' & Hin' & Hr & Hreach).
  split.
  - by rewrite (po_id _ _ _ _ _ O), (pr_id _ _ _ _ _ P).
  - intros p. rewrite (po_refs _ _ _ _ _ O), (pr_refs _ _ _ _ _ P). repeat case_decide; set_solver.
  - intros tg p. rewrite (po_provided _ _ _ _ _ O), (pr_provided _ _ _ _ _ P), elem_of_app, list_elem_of_singleton. naive_solver.
  - apply NoDup_app. split_and!; [apply P|set_solver|apply NoDup_singleton].
  - intros tg Hin. destruct (provided_tags s' !! tg) as [p|] eqn:Hpt; [right|by left]. apply (po_provided _ _ _ _ _ O) in Hpt as [Hpt Hne].
    destruct (pr_tags _ _ _ _ _ P tg Hin) as [|[->|]%elem_of_cons]; [congruence|congruence|]. apply elem_of_push_all. by right.
  - intros tg p [Hin|Hin]%elem_of_push_all Hpt; [|by apply (pr_stack _ _ _ _ _ P tg p); [set_solver|]].
    destruct (po_pushed _ _ _ _ _ O tg Hin) as (tag1 & q & tq & Hreq & Hq & Htq & Hne & Htg).
    destruct (pruning_origin _ _ _ _ _ _ _ P Htq) as (Hdq & tq0 & Htq0 & Hrq).
    assert (provided_tags s !! tg = Some q) as Hq' by by apply (provider_of (ri_graph _ _ I) tg q tq).
    apply (pr_provided _ _ _ _ _ P) in Hq' as [Hq' _]. assert (q = p) as -> by congruence.
    exists r, tag'. split_and!; [done..|]. eapply rtc_l; [|done]. exists tq0, t0, tag1.
    pose proof (proj1 (rg_provided _ _ _ (ri_graph _ _ I) tag1 p) Hq) as (tp & Htp & Hin1). assert (tp = tq) as -> by congruence.
    unfold tx_of in *. rewrite <-Hrq, <-Hr0. done.
  - intros d [Hin|Hin]%elem_of_app; [by apply P|]. apply list_elem_of_singleton in Hin as ->. eauto.
Qed.

Lemma ready_prune_loop_run {E} used s0 tags : forall fuel stack D s out, ready_inv used s -> pruning s0 tags D stack s -> (size (txs s) <= fuel)%nat ->
  exists s' D', prune_loop (E := E) fuel stack out s = (s', Ok (out ++ omap (fun h => tx_of <$> txs s0 !! h) (drop (length D) D'))) /\
    D' = D ++ drop (length D) D' /\ ready_inv used s' /\ pruning s0 tags D' [] s'.
Proof.
  induction fuel as [|fuel IH]; intros stack; induction stack as [|tag stack IHs]; intros D s out I P Hf;
    try (exists s, D; cbn [prune_loop]; rewrite drop_all, !app_nil_r; done);
    cbn [prune_loop]; (erewrite bind_Ok by reflexivity); (erewrite bind_Ok by reflexivity); destruct (provided_tags s !! tag) as [h|] eqn:Hp.
  - destruct (proj1 (rg_provided _ _ _ (ri_graph _ _ I) tag h) Hp) as (t & Ht & _).
    exfalso. assert (size (txs s) = 0%nat) as Hz by lia. apply map_size_empty_iff in Hz. rewrite Hz in Ht. by rewrite lookup_empty in Ht.
  - assert (with_provided (delete tag) s = s) as -> by (destruct s; unfold with_provided; simpl in *; by rewrite delete_id).
    erewrite bind_Ok by reflexivity. apply IHs; [done|by eapply pruning_skip|done].
  - destruct (proj1 (rg_provided _ _ _ (ri_graph _ _ I) tag h) Hp) as (t & Ht & _).
    erewrite bind_Ok by apply take_ready_run. change (txs (with_provided (delete tag) s)) with (txs s). rewrite Ht.
    destruct (prune_ready_run (E := E) used tag h t s I Hp Ht) as (s1 & pushed & Hrun & I1 & O). erewrite bind_Ok by exact Hrun.
    destruct (pruning_origin _ _ _ _ _ _ _ P Ht) as (Hd & t0 & Ht0 & Hr0).
    destruct (IH (push_all pushed stack) (D ++ [h]) s1 (out ++ [tx_of t]) I1) as (s' & D' & Hrun' & HD & I' & P').
    { by apply (pruning_step s0 used tags D tag stack s h t s1 pushed). }
    { assert (size (txs s1) < size (txs s))%nat; [|lia]. rewrite <-!size_dom. apply subset_size. split.
      - intros p. rewrite !elem_of_dom. intros [t1 Ht1]. pose proof (po_refs _ _ _ _ _ O p) as Hr. rewrite Ht1 in Hr. case_decide; [done|]. destruct (txs s !! p); [eauto|done].
      - intros Hsub. assert (h ∈ dom (txs s1)) as Hin by (apply Hsub, elem_of_dom; eauto). apply elem_of_dom in Hin as [t1 Ht1].
        pose proof (po_refs _ _ _ _ _ O h) as Hr. rewrite Ht1, decide_True in Hr by done. done. }
    assert (drop (length D) D' = h :: drop (length (D ++ [h])) D') as Hdrop by (rewrite HD at 1; rewrite <-app_assoc, drop_app_length; done).
    exists s', D'. split_and!; [|rewrite HD at 1; by rewrite Hdrop, <-app_assoc|done|done].
    rewrite Hrun', Hdrop. cbn [omap list_omap]. rewrite Ht0. cbn [fmap option_fmap option_map]. unfold tx_of at 1. rewrite Hr0. by rewrite <-app_assoc.
  - assert (with_provided (delete tag) s = s) as -> by (destruct s; unfold with_provided; simpl in *; by rewrite delete_id).
    erewrite bind_Ok by reflexivity. apply IHs; [done|by eapply pruning_skip|done].
Qed.

Lemma ready_prune_tags_run {E} used tag s : ready_inv used s ->
  exists s' D, ready_prune_tags (E := E) tag s = (s', Ok (omap (fun h => tx_of <$> txs s !! h) D)) /\ ready_inv used s' /\ pruning s [tag] D [] s'.
Proof.
  intros I. unfold ready_prune_tags. erewrite bind_Ok by reflexivity.
  destruct (ready_prune_loop_run (E := E) used s [tag] (size (txs s)) [tag] [] s [] I) as (s' & D & Hrun & _ & I' & P); [|done|].
  { split; try done.
    - set_solver.
    - constructor.
    - intros tg Hin. by right.
    - intros tg p Hin Hp. exists p, tg. split_and!; [done..|apply rtc_refl].
    - set_solver. }
  exists s', D. by rewrite Hrun.
Qed.
End ready_spec.
