(* ===== verification/TxIter.v ===== *)
(** * The order of ready transactions

    The iterator over the ready transactions returns them greedily: at each
    step the best transaction whose links all come from transactions returned
    before.  It returns each transaction at most once and stops when every
    transaction left waits for another one that is left. *)

From Stdlib Require Import ZArith Lia Sorted.
From stdpp Require Import gmap fin_maps fin_sets option list.
From S2P Require Import Prelude TxPool TxQueues TxReady.

Local Open Scope Z_scope.

Section iterator.
Context {OC : OverflowChecks} {Hash Ex : Type} `{HashOrder Hash}.
Abbreviation Tx := (Transaction Hash Ex).
Abbreviation Ref := (TransactionRef Hash Ex).
Abbreviation RTx := (ReadyTx Hash Ex).
Abbreviation Iter := (BestIterator Hash Ex).
Abbreviation ref_lt := (fun x y : Ref => ref_cmp x y = Lt).
Abbreviation needs t := (length (requires (tx_of t))).
Implicit Types m dn : gmap Hash RTx.
Implicit Types t : RTx.
Implicit Types it : Iter.

(** [h] was not returned, and everything that unlocks it was. *)
Definition available m (out : gset Hash) (h : Hash) : Prop :=
  is_Some (m !! h) /\ (h ∉ out) /\ forall k t, m !! k = Some t -> h ∈ unlocks t -> k ∈ out.

(** The reference order: the best available transaction, until none is. *)
Inductive greedy m : gset Hash -> list Tx -> Prop :=
| greedy_nil out : (forall h, ~ available m out h) -> greedy m out []
| greedy_cons out h t l : m !! h = Some t -> available m out h ->
    (forall h' t', m !! h' = Some t' -> available m out h' -> h' = h \/ ref_cmp (tx_ref t') (tx_ref t) = Lt) ->
    greedy m ({[h]} ∪ out) l -> greedy m out (tx_of t :: l).

Lemma filter_dom m dn : dn ⊆ m -> filter (fun p => p.1 ∈ dom dn) m = dn.
Proof.
  intros Hs. apply map_eq. intros k. destruct (dn !! k) as [t|] eqn:Hk.
  - apply map_lookup_filter_Some. split; [by eapply lookup_weaken|]. apply elem_of_dom. eauto.
  - apply map_lookup_filter_None. right. intros t _ Hd. by apply not_elem_of_dom in Hk.
Qed.

Lemma links_sub m dn h : dn ⊆ m -> (links dn h <= links m h)%nat /\
  (links dn h = links m h -> forall k t, m !! k = Some t -> h ∈ unlocks t -> is_Some (dn !! k)).
Proof.
  intros Hs. rewrite (links_split m (fun k => k ∈ dom dn) h), (filter_dom m dn Hs). split; [lia|]. intros Heq k t Hk Hu.
  assert (links (filter (fun p => p.1 ∉ dom dn) m) h = 0%nat) as Hz by lia.
  destruct (decide (k ∈ dom dn)) as [Hd|Hd]; [by apply elem_of_dom|]. exfalso. eapply (proj1 (links_zero _ _) Hz k t); [|done].
  by apply map_lookup_filter_Some.
Qed.

Lemma links_all m dn h : dn ⊆ m -> (forall k t, m !! k = Some t -> h ∈ unlocks t -> is_Some (dn !! k)) -> links dn h = links m h.
Proof.
  intros Hs Hk. rewrite <-(links_filter_id m (fun k => k ∈ dom dn) h); [by rewrite (filter_dom m dn Hs)|].
  intros k t Ht Hu. apply elem_of_dom. by eapply Hk.
Qed.

Section steps.
Context (used : gset Hash) (provided : gmap Tag Hash) (m : gmap Hash RTx) (G : ready_graph used provided m).

Lemma available_iff dn h t : dn ⊆ m -> m !! h = Some t ->
  available m (dom dn) h <-> dn !! h = None /\ (requires_offset t + links dn h)%nat = needs t.
Proof.
  intros Hs Ht. rewrite <-(rg_links _ _ _ G h t Ht). unfold available. rewrite not_elem_of_dom. split.
  - intros (_ & Hn & Hk). split; [done|]. f_equal. apply links_all; [done|]. intros k tk Hkt Hu. apply elem_of_dom. by eapply Hk.
  - intros [Hn Hl]. split_and!; [eauto|done|]. intros k tk Hk Hu. apply elem_of_dom. eapply (proj2 (links_sub m dn h Hs)); [lia|done|done].
Qed.

(** The iterator after the transactions [dn] were returned, while the first
    transactions [us] unlocked by the last of them are being counted; [cur]
    maps the hash of that one. *)
Record iter_inv dn (cur : gmap Hash RTx) (us : list Hash) it : Prop := {
  ii_best r : r ∈ it_best it <-> exists h t, m !! h = Some t /\ dn !! h = None /\ cur !! h = None /\ r = tx_ref t /\
    (requires_offset t + links dn h + occ h us)%nat = needs t;
  ii_sorted : StronglySorted ref_lt (it_best it);
  ii_awaiting h k r : awaiting it !! h = Some (k, r) <-> exists t, m !! h = Some t /\ r = tx_ref t /\
    k = (requires_offset t + links dn h + occ h us)%nat /\ (0 < links dn h + occ h us)%nat /\ (k < needs t)%nat }.

(** One transaction unlocked. *)
Lemma unlock_next_inv dn h th us u it : m !! h = Some th -> iter_inv dn {[h := th]} us it ->
  (forall t, m !! u = Some t -> u <> h /\ dn !! u = None /\ (requires_offset t + links dn u + occ u (us ++ [u]) <= needs t)%nat) ->
  iter_inv dn {[h := th]} (us ++ [u]) (unlock_next m it u).
Proof.
  intros Hh J Hu. assert (forall h', h' <> u -> occ h' (us ++ [u]) = occ h' us) as Hocc.
  { intros h' Hne. rewrite occurs_app, occ_cons, decide_False, occ_nil by congruence. lia. }
  assert (occ u (us ++ [u]) = S (occ u us)) as Hocc_u by (rewrite occurs_app, occ_cons, decide_True, occ_nil by done; lia).
  destruct (m !! u) as [tu|] eqn:Htu.
  2: { assert (unlock_next m it u = it) as ->.
    { unfold unlock_next. rewrite Htu. destruct (awaiting it !! u) as [[k r]|] eqn:Ha; [|done]. apply (ii_awaiting _ _ _ _ J) in Ha as (t & Ht & _). congruence. }
    split; [|apply J|].
    - intros r. rewrite (ii_best _ _ _ _ J). split; intros (h' & t & Ht & Hr); exists h', t; rewrite Hocc in * by congruence; done.
    - intros h' k r. rewrite (ii_awaiting _ _ _ _ J). split; intros (t & Ht & Hr); exists t; rewrite Hocc in * by congruence; done. }
  destruct (Hu tu eq_refl) as (Hne & Hdn & Hle). rewrite Hocc_u in Hle.
  set (k := (requires_offset tu + links dn u + occ u us)%nat).
  assert (exists it0, unlock_next m it u = best_or_awaiting (S k) (tx_ref tu) it0 /\ it_best it0 = it_best it /\ awaiting it0 = delete u (awaiting it)) as (it0 & -> & Hb0 & Ha0).
  { unfold unlock_next. destruct (awaiting it !! u) as [[k' r]|] eqn:Ha.
    - apply (ii_awaiting _ _ _ _ J) in Ha as (t & Ht & -> & -> & _). assert (t = tu) as -> by congruence. by eexists.
    - rewrite Htu. exists it. split_and!; [|done|by rewrite delete_id]. do 2 f_equal. unfold k.
      destruct (decide (links dn u + occ u us = 0)%nat); [lia|]. exfalso.
      assert (awaiting it !! u = Some (k, tx_ref tu)) as Hc; [|congruence]. apply (ii_awaiting _ _ _ _ J). exists tu. split_and!; unfold k; done || lia. }
  assert (forall r, r ∈ it_best it -> r <> tx_ref tu /\ ref_cmp (tx_ref tu) r <> Eq) as Hnb.
  { intros r (h' & t & Ht & Hd & Hc & -> & Hs)%(ii_best _ _ _ _ J). assert (ref_cmp (tx_ref tu) (tx_ref t) <> Eq) as Hneq.
    { intros He. assert (u = h') as <- by by eapply (ref_eq G). assert (t = tu) as -> by congruence. lia. }
    split; [|done]. intros Heq. rewrite Heq in Hneq. apply Hneq. by apply ref_cmp_Eq. }
  assert (hash (tx_of tu) = u) as Hhash by by apply (rg_hash _ _ _ G).
  unfold best_or_awaiting. fold (tx_of tu). rewrite Hb0. destruct (Nat.leb_spec (needs tu) (S k)) as [Hge|Hlt]; split; simpl.
  - intros r. rewrite elem_of_bset_insert by (intros z Hz He; by destruct (Hnb z Hz)). rewrite (ii_best _ _ _ _ J). split.
    + intros [->|(h' & t & Ht & Hd & Hc & -> & Hs)].
      * exists u, tu. split_and!; [done|done|by rewrite lookup_singleton_ne|done|rewrite Hocc_u; unfold k in *; lia].
      * exists h', t. split_and!; [done..|]. rewrite Hocc; [done|]. intros ->. assert (t = tu) as -> by congruence. lia.
    + intros (h' & t & Ht & Hd & Hc & -> & Hs). destruct (decide (h' = u)) as [->|Hn]; [left; congruence|right]. rewrite Hocc in Hs by done. eauto 10.
  - apply bset_insert_sorted; eauto. apply J.
  - intros h' k' r. rewrite Ha0. destruct (decide (h' = u)) as [->|Hn].
    + rewrite lookup_delete_eq. split; [done|]. intros (t & Ht & _ & -> & _ & Hk). assert (t = tu) as -> by congruence. rewrite Hocc_u in Hk. unfold k in *. lia.
    + rewrite lookup_delete_ne by done. rewrite (ii_awaiting _ _ _ _ J). by rewrite Hocc.
  - intros r. rewrite (ii_best _ _ _ _ J). split; intros (h' & t & Ht & Hd & Hc & -> & Hs); exists h', t; (split_and!; [done..|]);
      (destruct (decide (h' = u)) as [->|Hn]; [|rewrite Hocc in * by done; done]); assert (t = tu) as -> by congruence; rewrite ?Hocc_u in *; unfold k in *; lia.
  - apply J.
  - intros h' k' r. rewrite Hhash, Ha0. destruct (decide (h' = u)) as [->|Hn].
    + rewrite lookup_insert_eq. split.
      * intros [= <- <-]. exists tu. rewrite Hocc_u. split_and!; unfold k; done || lia.
      * intros (t & Ht & -> & -> & _). assert (t = tu) as -> by congruence. rewrite Hocc_u. unfold k. do 2 f_equal. lia.
    + rewrite lookup_insert_ne, lookup_delete_ne by done. rewrite (ii_awaiting _ _ _ _ J). by rewrite Hocc.
Qed.

(** What was returned had all its requirements satisfied. *)
Definition settled dn : Prop := dn ⊆ m /\ forall h t, dn !! h = Some t -> (requires_offset t + links dn h)%nat = needs t.

Lemma unlock_all_inv dn h th it : settled dn -> m !! h = Some th -> dn !! h = None -> iter_inv dn {[h := th]} [] it ->
  iter_inv dn {[h := th]} (unlocks th) (foldl (unlock_next m) it (unlocks th)).
Proof.
  intros [Hs Hc] Hh Hd J.
  assert (forall rest us it, us ++ rest = unlocks th -> iter_inv dn {[h := th]} us it -> iter_inv dn {[h := th]} (unlocks th) (foldl (unlock_next m) it rest)) as Hl.
  2: { by apply (Hl (unlocks th) []). }
  clear J it. induction rest as [|u rest IH]; intros us it Heq J; [rewrite app_nil_r in Heq; by subst us|]. cbn [foldl].
  apply (IH (us ++ [u])); [by rewrite <-app_assoc|]. apply (unlock_next_inv dn h th us u it Hh J). intros t Ht.
  assert (u ∈ unlocks th) as Hin by (rewrite <-Heq; set_solver).
  assert (requires_offset t + links dn u + occ u (unlocks th) <= needs t)%nat as Hle.
  { rewrite <-(rg_links _ _ _ G u t Ht). pose proof (proj1 (links_sub m (<[h := th]> dn) u ltac:(by apply insert_subseteq_l))) as Hsub.
    rewrite links_insert in Hsub by done. lia. }
  split_and!.
  - intros ->. by apply (no_self G h th).
  - destruct (dn !! u) as [t'|] eqn:Hu; [|done]. exfalso. pose proof (lookup_weaken _ _ _ _ Hu Hs). assert (t' = t) as -> by congruence.
    pose proof (Hc u t Hu). apply occurs_elem in Hin. lia.
  - rewrite <-Heq, cons_middle, app_assoc, occurs_app in Hle. lia.
Qed.

Lemma iter_inv_commit dn h th it : dn !! h = None -> iter_inv dn {[h := th]} (unlocks th) it -> iter_inv (<[h := th]> dn) ∅ [] it.
Proof.
  intros Hd J. assert (forall u, links (<[h := th]> dn) u = (links dn u + occ u (unlocks th))%nat) as Hl by (intros; rewrite links_insert by done; lia).
  split; [|apply J|].
  - intros r. rewrite (ii_best _ _ _ _ J). split; intros (h' & t & Ht & Hn & Hn' & -> & Ho); exists h', t; rewrite Hl, occ_nil in *.
    + split_and!; [done| |apply lookup_empty|done|lia]. rewrite lookup_insert_ne; [done|]. intros ->. by rewrite lookup_singleton_eq in Hn'.
    + apply lookup_insert_None in Hn as [Hn Hne]. split_and!; [done|done|by apply lookup_singleton_None|done|lia].
  - intros h' k r. rewrite (ii_awaiting _ _ _ _ J), Hl, occ_nil. split; intros (t & Ht & Hr & Hk & Hp & Hlt); exists t; split_and!; done || lia.
Qed.

(** A call of [next] returns the best available transaction, or nothing if none
    is available. *)
Lemma next_run dn it : settled dn -> iter_inv dn ∅ [] it ->
  next m it = (None, it) /\ (forall h, ~ available m (dom dn) h) \/
  exists h t it', next m it = (Some (tx_of t), it') /\ m !! h = Some t /\ dn !! h = None /\ available m (dom dn) h /\
    (forall h' t', m !! h' = Some t' -> available m (dom dn) h' -> h' = h \/ ref_cmp (tx_ref t') (tx_ref t) = Lt) /\
    settled (<[h := t]> dn) /\ iter_inv (<[h := t]> dn) ∅ [] it'.
Proof.
  intros S J. destruct S as [Hs Hc]. pose proof (conj Hs Hc : settled dn) as S.
  assert (forall h t, m !! h = Some t -> available m (dom dn) h <-> tx_ref t ∈ it_best it) as Hav.
  { intros h t Ht. rewrite (available_iff dn h t Hs Ht), (ii_best _ _ _ _ J). split.
    - intros [Hn Ho]. exists h, t. rewrite occ_nil. split_and!; [done..|lia].
    - intros (h' & t' & Ht' & Hn & _ & Hr & Ho). assert (h' = h) as -> by (eapply (rg_id_inj _ _ _ G); [done..|by rewrite Hr]).
      assert (t' = t) as -> by congruence. rewrite occ_nil in Ho. split; [done|lia]. }
  unfold next. destruct (last (it_best it)) as [r|] eqn:Hlast.
  - right. assert (r ∈ it_best it) as Hr by (apply last_Some in Hlast as [l ->]; set_solver).
    destruct (proj1 (ii_best _ _ _ _ J r) Hr) as (h & t & Ht & Hn & _ & -> & Ho). rewrite occ_nil, Nat.add_0_r in Ho.
    set (it1 := mkBestIterator (awaiting it) (bset_remove ref_cmp (tx_ref t) (it_best it))).
    assert (iter_inv dn {[h := t]} [] it1) as J1.
    { split; simpl; [|apply bset_remove_sorted; eauto; apply J|apply J]. intros r'. rewrite elem_of_bset_remove by (eauto || apply J). rewrite (ii_best _ _ _ _ J). split.
      - intros [(h' & t' & Ht' & Hn' & _ & -> & Ho') Hne]. exists h', t'. split_and!; [done..| |done|done].
        apply lookup_singleton_ne. intros <-. assert (t' = t) as -> by congruence. apply Hne. by apply ref_cmp_Eq.
      - intros (h' & t' & Ht' & Hn' & Hs' & -> & Ho'). apply lookup_singleton_None in Hs'. split; [eauto 10|]. intros He. by apply Hs', (ref_eq G h t h' t'). }
    exists h, t, (foldl (unlock_next m) it1 (unlocks t)). split_and!; [|done|done|by apply (Hav h t)| | |].
    + destruct (length (it_best it)); cbn [next_loop]; rewrite Hlast; fold it1; fold (tx_of t); by rewrite (rg_hash _ _ _ G h t Ht), Ht.
    + intros h' t' Ht' Ha. apply (Hav h' t' Ht') in Ha. destruct (bset_last_max ref_cmp (tx_ref t) (tx_ref t') (it_best it)) as [Heq|]; [apply J|done|done| |by right].
      left. eapply (rg_id_inj _ _ _ G); [done..|by rewrite Heq].
    + split; [by apply insert_subseteq_l|]. intros h' t' Hl. rewrite links_insert by done. apply lookup_insert_Some in Hl as [[<- <-]|[Hne Hl]].
      * rewrite (proj1 (occ_not_elem h (unlocks t)) (no_self G h t Ht)). lia.
      * pose proof (Hc h' t' Hl) as Hh'. pose proof (lookup_weaken _ _ _ _ Hl Hs) as Hm'. rewrite <-(rg_links _ _ _ G h' t' Hm') in Hh' |- *.
        pose proof (proj1 (links_sub m (<[h := t]> dn) h' ltac:(by apply insert_subseteq_l))) as Hsub. rewrite links_insert in Hsub by done. lia.
    + apply iter_inv_commit; [done|]. by apply unlock_all_inv.
  - left. apply last_None in Hlast. split; [rewrite Hlast; simpl; by rewrite Hlast|]. intros h Ha. pose proof Ha as ([t Ht] & _).
    apply (Hav h t Ht) in Ha. rewrite Hlast in Ha. set_solver.
Qed.

Lemma take_next_run : forall n dn it, settled dn -> iter_inv dn ∅ [] it -> (size m <= size dn + n)%nat ->
  exists l it', take_next n m it = (l, it') /\ greedy m (dom dn) l /\ next m it' = (None, it').
Proof.
  induction n as [|n IH]; intros dn it S J Hn; destruct (next_run dn it S J) as [[Hrun Hno]|(h & t & it' & Hrun & Ht & Hd & Ha & Hmax & S' & J')].
  - exists [], it. split_and!; [done|by constructor|done].
  - exfalso. pose proof (map_subseteq_size (<[h := t]> dn) m (proj1 S')) as Hsz. rewrite map_size_insert_None in Hsz by done. lia.
  - exists [], it. simpl. rewrite Hrun. split_and!; [done|by constructor|done].
  - destruct (IH (<[h := t]> dn) it' S' J') as (l & it2 & Htake & Hg & Hlast); [rewrite map_size_insert_None by done; lia|].
    exists (tx_of t :: l), it2. simpl. rewrite Hrun, Htake. split_and!; [done| |done]. econstructor; [done..|]. by rewrite dom_insert_L in Hg.
Qed.
End steps.

(** ** What the reference order means *)

Section greedy_facts.
Context (m : gmap Hash RTx) (Hhash : forall h t, m !! h = Some t -> hash (tx_of t) = h).
Abbreviation hashes l := (list_to_set (hash <$> l) : gset Hash).

(** No transaction comes twice. *)
Lemma greedy_NoDup out l : greedy m out l -> NoDup (hash <$> l) /\ forall tx, tx ∈ l -> hash tx ∉ out.
Proof.
  induction 1 as [out Hno|out h t l Ht Ha _ _ [Hnd Hout]]; [split; [constructor|set_solver]|]. pose proof (Hhash h t Ht) as Hh. destruct Ha as (_ & Hn & _).
  rewrite fmap_cons, Hh. split.
  - constructor; [|done]. intros (tx & Heq & Hin)%list_elem_of_fmap. apply (Hout tx Hin). set_solver.
  - intros tx [->|Hin]%elem_of_cons; [by rewrite Hh|]. specialize (Hout tx Hin). set_solver.
Qed.

(** Each transaction is the best of those available when it is returned. *)
Lemma greedy_step out l i tx : greedy m out l -> l !! i = Some tx ->
  exists t, m !! hash tx = Some t /\ tx = tx_of t /\ available m (out ∪ hashes (take i l)) (hash tx) /\
    forall h' t', m !! h' = Some t' -> available m (out ∪ hashes (take i l)) h' -> h' = hash tx \/ ref_cmp (tx_ref t') (tx_ref t) = Lt.
Proof.
  intros Hg. revert i. induction Hg as [out Hno|out h t l Ht Ha Hmax _ IH]; intros i Hi; [done|]. destruct i as [|i].
  - injection Hi as <-. exists t. rewrite (Hhash h t Ht). cbn [take]. rewrite fmap_nil, list_to_set_nil, union_empty_r_L. split_and!; [done..|].
    intros h' t' Ht' Ha'. rewrite union_empty_r_L in Ha'. by apply Hmax.
  - cbn [take]. rewrite fmap_cons, list_to_set_cons, (Hhash h t Ht). rewrite union_assoc_L, (union_comm_L out). by apply IH.
Qed.

(** At the end nothing is available. *)
Lemma greedy_end out l h : greedy m out l -> ~ available m (out ∪ hashes l) h.
Proof.
  induction 1 as [out Hno|out k t l Ht Ha _ _ IH]; [rewrite fmap_nil, list_to_set_nil, union_empty_r_L; apply Hno|].
  rewrite fmap_cons, list_to_set_cons, (Hhash k t Ht), union_assoc_L, (union_comm_L out). done.
Qed.
End greedy_facts.

(** The iterator of a queue of ready transactions. *)
Lemma ready_get_run used (s : ReadyTransactions Hash Ex) : ready_inv used s ->
  exists l it, take_next (size (index (ready s))) (index (ready s)) (ready_get s) = (l, it) /\ greedy (index (ready s)) ∅ l /\ next (index (ready s)) it = (None, it).
Proof.
  intros I. pose proof (ri_graph _ _ I) as G.
  destruct (take_next_run used _ _ G (size (index (ready s))) ∅ (ready_get s)) as (l & it & Hrun & Hg & Hlast).
  - split; [apply map_empty_subseteq|]. intros h t Ht. by rewrite lookup_empty in Ht.
  - pose proof (ri_best _ _ I) as B. split; simpl.
    + intros r. rewrite (rb_elem _ _ B). split; intros (h & t & Ht & Hr); exists h, t; rewrite ?lookup_empty, links_empty, occ_nil, !Nat.add_0_r in *; naive_solver.
    + apply B.
    + intros h k r. rewrite lookup_empty. split; [done|]. intros (t & _ & _ & _ & Hp & _). rewrite links_empty, occ_nil in Hp. lia.
  - rewrite map_size_empty. lia.
  - exists l, it. rewrite dom_empty_L in Hg. done.
Qed.
End iterator.
