(* ===== verification/TxPoolSpec.v ===== *)
(** * What the transaction pool promises

    The pool over all sequences of its operations: nothing panics, every
    transaction is in at most one queue, waits only for tags that no ready
    transaction provides, and is accounted for when it leaves; the limits are
    enforced; and block authors get the ready transactions in an order that
    respects their dependencies.

    The operations may be called in any order, with one restriction: a hash
    that a ready transaction still lists among those it unlocks is not imported
    again.  The examples of [TxPoolReach] show that without it the order is
    wrong. *)

From Stdlib Require Import ZArith Lia Sorted.
From stdpp Require Import gmap fin_maps fin_sets option list relations.
From S2P Require Import Prelude TxPool TxQueues TxReady TxIter.

Local Open Scope Z_scope.

Section pool_spec.
Context {OC : OverflowChecks} {Hash Ex : Type} `{HashOrder Hash} `{!HashOrder Tag}.
Abbreviation Tx := (Transaction Hash Ex).
Abbreviation WaitingTx := (WaitingTransaction Hash Ex).
Abbreviation Pool := (BasePool Hash Ex).
Implicit Types p : Pool.
Implicit Types w : WaitingTx.

Abbreviation rtxs p := (index (ready (pool_ready p))).
Abbreviation wtxs p := (waiting (pool_future p)).
Abbreviation provided p := (provided_tags (pool_ready p)).
Abbreviation whash w := (hash (transaction w)).
Abbreviation whashes ws := (list_to_set ((fun w => whash w) <$> ws) : gset Hash).
Abbreviation thashes l := (list_to_set (hash <$> l) : gset Hash).

(** [used] are hashes that no waiting transaction has: those of ready
    transactions and those that these still list as unlocked by them. *)
Record pool_inv (used : gset Hash) p : Prop := {
  pi_ready : ready_inv used (pool_ready p);
  pi_future : future_inv (pool_future p);
  pi_new h w : wtxs p !! h = Some w -> h ∉ used;
  pi_valid h w : wtxs p !! h = Some w -> tx_valid (transaction w);
  pi_missing h w tag : wtxs p !! h = Some w -> tag ∈ missing_tags w -> tag ∈ requires (transaction w) /\ provided p !! tag = None;
  pi_pruned : length (recently_pruned p) = RECENTLY_PRUNED_TAGS /\ (recently_pruned_index p < RECENTLY_PRUNED_TAGS)%nat }.

Lemma pool_inv_new reject : pool_inv ∅ (BasePool_new reject).
Proof.
  split; simpl; try (intros *; rewrite lookup_empty; done).
  - apply ready_inv_default.
  - apply future_inv_default.
  - split; [done|]. unfold RECENTLY_PRUNED_TAGS. lia.
Qed.

(** The hashes that the ready queue names. *)
Definition named p : gset Hash := dom (rtxs p) ∪ list_to_set (mjoin (unlocks <$> (map_to_list (rtxs p)).*2)).

Lemma elem_of_named p h : h ∈ named p <-> h ∈ dom (rtxs p) \/ exists k t, rtxs p !! k = Some t /\ h ∈ unlocks t.
Proof.
  unfold named. rewrite elem_of_union, elem_of_list_to_set, list_elem_of_join. apply or_iff_compat_l. split.
  - intros (l & Hh & (t & -> & ([k t'] & -> & Ht%elem_of_map_to_list)%list_elem_of_fmap)%list_elem_of_fmap). eauto.
  - intros (k & t & Ht & Hh). exists (unlocks t). split; [done|]. apply list_elem_of_fmap_2. apply list_elem_of_fmap. exists (k, t). split; [done|by apply elem_of_map_to_list].
Qed.

Lemma pool_inv_named used p : pool_inv used p -> pool_inv (named p) p.
Proof.
  intros I. pose proof (pi_ready _ _ I) as R. pose proof (ri_graph _ _ R) as G. split; try apply I.
  - split; try apply R. destruct G. split; try done.
    + intros h t Ht. apply elem_of_named. left. by eapply elem_of_dom_2.
    + intros h t u Ht Hu. apply elem_of_named. eauto.
  - intros h w Hw [[t Ht]%elem_of_dom|(k & t & Ht & Hu)]%elem_of_named; eapply (pi_new _ _ I h w Hw); [by eapply rg_used|by eapply rg_unlocks_used].
Qed.

Lemma on_ready_run {E A} (c : M (ReadyTransactions Hash Ex) E A) p r' res : c (pool_ready p) = (r', res) -> on_ready c p = (with_pool_ready r' p, res).
Proof. intros Hc. unfold on_ready, zoom. by rewrite Hc. Qed.

Lemma on_future_run {E A} (c : M (FutureTransactions Hash Ex) E A) p f' res : c (pool_future p) = (f', res) -> on_future c p = (with_future f' p, res).
Proof. intros Hc. unfold on_future, zoom. by rewrite Hc. Qed.

(** Removal from the ready queue keeps the invariant of the pool. *)
Lemma with_ready_inv used used' p r' : pool_inv used p -> ready_inv used' r' -> (forall h w, wtxs p !! h = Some w -> h ∉ used') ->
  (forall h w tag, wtxs p !! h = Some w -> tag ∈ missing_tags w -> provided_tags r' !! tag = None) -> pool_inv used' (with_pool_ready r' p).
Proof.
  intros I R Hn Hm. split; simpl; try apply I; [done|done|]. intros h w tag Hw Ht. split; [by eapply (pi_missing _ _ I)|by eapply Hm].
Qed.

Lemma shrink_ready_inv used p r' : pool_inv used p -> ready_inv used r' -> (forall tag h, provided_tags r' !! tag = Some h -> provided p !! tag = Some h) ->
  pool_inv used (with_pool_ready r' p).
Proof.
  intros I R Hs. apply (with_ready_inv used); [done|done|apply I|]. intros h w tag Hw Ht. destruct (provided_tags r' !! tag) as [k|] eqn:Hk; [|done].
  apply Hs in Hk. destruct (pi_missing _ _ I h w tag Hw Ht). congruence.
Qed.

(** ** Import *)

(** Transactions about to be imported to the ready queue. *)
Record importable (used : gset Hash) p (ws : list WaitingTx) : Prop := {
  im_nodup : NoDup ((fun w => whash w) <$> ws);
  im_each w : w ∈ ws -> missing_tags w = ∅ /\ (whash w ∉ used) /\ wtxs p !! whash w = None /\ tx_valid (transaction w) }.

(** Enough insertion ids are left. *)
Definition ids_left p (n : nat) : Prop := insertion_id (pool_ready p) + Z.of_nat n < 2 ^ 64.

Lemma importable_perm used p ws ws' : ws ≡ₚ ws' -> importable used p ws -> importable used p ws'.
Proof. intros Hp Im. split; [rewrite <-Hp; apply Im|]. intros w Hw. rewrite <-Hp in Hw. by apply Im. Qed.

(** A waiting transaction may have fewer missing tags later. *)
Definition kept_waiting (w w' : WaitingTx) : Prop := transaction w' = transaction w /\ missing_tags w' ⊆ missing_tags w.

Lemma kept_waiting_trans w1 w2 w3 : kept_waiting w1 w2 -> kept_waiting w2 w3 -> kept_waiting w1 w3.
Proof. intros [] []. split; [congruence|by etrans]. Qed.

Lemma kept_waiting_refl w : kept_waiting w w.
Proof. done. Qed.

Hint Resolve kept_waiting_refl kept_waiting_trans : core.

(** Providing tags moves transactions from the queue of waiting ones to the
    list of those to import. *)
Lemma satisfy_importable used p (T : gset Tag) ws f' us : pool_inv used p -> importable used p ws -> satisfied T (pool_future p) us f' ->
  pool_inv used (with_future f' p) /\ importable used (with_future f' p) (us ++ ws) /\
  (forall h w tag, waiting f' !! h = Some w -> tag ∈ missing_tags w -> tag ∉ T) /\
  (forall h w, waiting f' !! h = Some w -> exists w0, wtxs p !! h = Some w0 /\ kept_waiting w0 w) /\
  dom (wtxs p) = dom (waiting f') ∪ whashes us.
Proof.
  intros I Im S. pose proof (pi_future _ _ I) as F.
  assert (forall h w', waiting f' !! h = Some w' -> exists w0, wtxs p !! h = Some w0 /\ transaction w' = transaction w0 /\ missing_tags w' = missing_tags w0 ∖ T) as Hf.
  { intros h w' Hw'. apply (satisfied_lookup _ _ _ _ _ _ S) in Hw' as (w0 & Hw0 & _ & ->). eauto. }
  split_and!.
  - split; simpl; [apply I|apply S| | | |apply I].
    + intros h w' (w0 & Hw0 & _)%Hf. by eapply (pi_new _ _ I).
    + intros h w' (w0 & Hw0 & -> & _)%Hf. by eapply (pi_valid _ _ I).
    + intros h w' tag (w0 & Hw0 & -> & ->)%Hf Ht. apply (pi_missing _ _ I h w0); [done|set_solver].
  - split.
    + rewrite fmap_app. apply NoDup_app. split_and!; [apply S| |apply Im]. intros h Hh Hh'. apply list_elem_of_fmap in Hh as (u & -> & Hu).
      apply list_elem_of_fmap in Hh' as (u' & Heq & Hu'). destruct (satisfied_hash _ _ _ _ _ F S Hu) as (w0 & Hw0 & _).
      destruct (im_each _ _ _ Im u' Hu') as (_ & _ & Hn & _). congruence.
    + intros w' [Hu|Hw']%elem_of_app.
      * simpl. destruct (satisfied_hash _ _ _ _ _ F S Hu) as (w0 & Hw0 & _ & ->). split_and!; [done|exact (pi_new _ _ I _ _ Hw0)| |exact (pi_valid _ _ I _ _ Hw0)].
        by apply (satisfied_gone _ _ _ _ _ F S).
      * destruct (im_each _ _ _ Im w' Hw') as (? & ? & Hn & ?). split_and!; [done..| |done].
        destruct (waiting f' !! whash w') as [w1|] eqn:Hw1; [|done]. apply Hf in Hw1 as (w0 & Hw0 & _). congruence.
  - intros h w' tag (w0 & _ & _ & ->)%Hf. set_solver.
  - intros h w' (w0 & Hw0 & Heq & Hmt)%Hf. exists w0. split; [done|]. split; [done|]. rewrite Hmt. set_solver.
  - apply set_eq. intros h. rewrite elem_of_union, elem_of_list_to_set, !elem_of_dom, list_elem_of_fmap. split.
    + intros [w0 Hw0]. destruct (decide (missing_tags w0 ⊆ T)) as [Hm|Hm].
      * right. exists (made_ready w0). split; [symmetry; exact (fi_hash _ F h w0 Hw0)|]. apply S. eauto.
      * left. eexists. apply (satisfied_lookup _ _ _ _ _ _ S). eauto.
    + intros [[w' Hw']|(u & -> & Hu)]; [apply Hf in Hw' as (w0 & Hw0 & _); eauto|].
      destruct (satisfied_hash _ _ _ _ _ F S Hu) as (w0 & Hw0 & _). eauto.
Qed.

(** The hashes of the transactions that a list of hashes names. *)
Lemma removed_hashes used (s : ReadyTransactions Hash Ex) (D : list Hash) : ready_inv used s -> (forall h, h ∈ D -> is_Some (index (ready s) !! h)) ->
  thashes (omap (fun h => tx_of <$> index (ready s) !! h) D) = list_to_set D.
Proof.
  intros I HD. apply set_eq. intros h. rewrite !elem_of_list_to_set, list_elem_of_fmap. split.
  - intros (tx & -> & Htx). apply list_elem_of_omap in Htx as (k & Hk & Ht). destruct (index (ready s) !! k) as [t|] eqn:Hkt; [|done].
    simpl in Ht. simplify_eq. by rewrite (rg_hash _ _ _ (ri_graph _ _ I) k t Hkt).
  - intros Hh. destruct (HD h Hh) as [t Ht]. exists (tx_of t). rewrite (rg_hash _ _ _ (ri_graph _ _ I) h t Ht). split; [done|].
    apply list_elem_of_omap. exists h. by rewrite Ht.
Qed.

(** What was not touched by moving transactions around. *)
Record same_config p p' : Prop := {
  sc_reject : reject_future_transactions p' = reject_future_transactions p;
  sc_pruned : recently_pruned p' = recently_pruned p;
  sc_index : recently_pruned_index p' = recently_pruned_index p }.

Lemma same_config_trans p1 p2 p3 : same_config p1 p2 -> same_config p2 p3 -> same_config p1 p3.
Proof. intros [] []. split; congruence. Qed.

(** The transactions of the pool, with those on their way. *)
Abbreviation everything p ws := (dom (rtxs p) ∪ dom (wtxs p) ∪ whashes ws).

(** The import of one transaction to the ready queue, after the tags it
    provides were satisfied. *)
Lemma import_one used p w ws : pool_inv used p -> importable used p (w :: ws) ->
  (forall h w' tag, wtxs p !! h = Some w' -> tag ∈ missing_tags w' -> tag ∉ provides (transaction w)) -> insertion_id (pool_ready p) + 1 < 2 ^ 64 ->
  exists r used' res, ready_import w (pool_ready p) = (r, res) /\ pool_inv used' (with_pool_ready r p) /\ importable used' (with_pool_ready r p) ws /\
    used ⊆ used' /\ used' ⊆ {[whash w]} ∪ used /\ insertion_id r = insertion_id (pool_ready p) + 1 /\
    match res with
    | Ok txs => replaces (transaction w) (pool_ready p) /\ dom (index (ready r)) ∪ thashes txs = {[whash w]} ∪ dom (rtxs p) /\ whash w ∈ dom (index (ready r)) /\
        dom (index (ready r)) ## thashes txs
    | Err e => ~ replaces (transaction w) (pool_ready p) /\ e = TooLowPriority (old_priority (transaction w) (pool_ready p)) (priority (transaction w)) /\
        index (ready r) = rtxs p
    | Panic => False
    end.
Proof.
  intros I Im Hm Hid. destruct (im_each _ _ _ Im w ltac:(set_solver)) as (Hmiss & Hnew & Hnw & Hval).
  pose proof (im_nodup _ _ _ Im) as Hnd. rewrite fmap_cons in Hnd. apply NoDup_cons in Hnd as [Hw Hnd].
  assert (forall w', w' ∈ ws -> whash w' <> whash w) as Hne.
  { intros w' Hw' Heq. apply Hw. apply list_elem_of_fmap. eauto. }
  destruct (decide (replace_hashes (transaction w) (pool_ready p) = ∅ \/ old_priority (transaction w) (pool_ready p) < priority (transaction w))) as [Hr|Hr].
  - assert (replaces (transaction w) (pool_ready p)) as Hrep by (unfold replaces; naive_solver).
    destruct (ready_import_run used w (pool_ready p) (pi_ready _ _ I) Hmiss Hnew Hval Hid Hrep) as (r & D & Hrun & Ir & Ip).
    exists r, ({[whash w]} ∪ used), (Ok (omap (fun h => tx_of <$> rtxs p !! h) D)). destruct (ip_removing _ _ _ _ Ip) as (s2 & R).
    split_and!; [done| | |set_solver|done|apply Ip|done| | |].
    + apply (with_ready_inv used); [done|done| |].
      * intros h w' Hw'. rewrite elem_of_union, elem_of_singleton. intros [->|Hu]; [congruence|]. by apply (pi_new _ _ I h w').
      * intros h w' tag Hw' Ht. destruct (provided_tags r !! tag) as [k|] eqn:Hk; [|done]. exfalso. apply (ip_provided _ _ _ _ Ip) in Hk as [[Hin _]|(_ & Hk & _)].
        -- by eapply Hm.
        -- destruct (pi_missing _ _ I h w' tag Hw' Ht). congruence.
    + split; [done|]. intros w' Hw'. destruct (im_each _ _ _ Im w' ltac:(set_solver)) as (? & ? & ? & ?). split_and!; [done| |done|done].
      pose proof (Hne w' Hw'). set_solver.
    + rewrite (removed_hashes used) by (apply I || apply R). apply set_eq. intros h. pose proof (ip_refs _ _ _ _ Ip h) as Href.
      rewrite !elem_of_union, elem_of_list_to_set, !elem_of_dom, elem_of_singleton. destruct (decide (h = whash w)) as [->|Hh].
      * destruct (index (ready r) !! whash w); [|done]. naive_solver.
      * case_decide as Hd; [pose proof (rm_ready _ _ _ _ _ _ R h Hd); tauto|].
        rewrite <-(fmap_is_Some tx_ref (index (ready r) !! h)), Href, fmap_is_Some. tauto.
    + apply elem_of_dom. pose proof (ip_refs _ _ _ _ Ip (whash w)) as Href. rewrite decide_True in Href by done.
      destruct (index (ready r) !! whash w); [eauto|done].
    + rewrite (removed_hashes used) by (apply I || apply R). intros h [t Ht]%elem_of_dom Hd%elem_of_list_to_set.
      pose proof (ip_refs _ _ _ _ Ip h) as Href. destruct (decide (h = whash w)) as [->|Hh].
      * destruct (rm_ready _ _ _ _ _ _ R _ Hd) as [t0 Ht0]. apply Hnew. by eapply (rg_used _ _ _ (ri_graph _ _ (pi_ready _ _ I))).
      * rewrite decide_True in Href by done. by rewrite Ht in Href.
  - assert (~ replaces (transaction w) (pool_ready p)) as Hrep.
    { unfold replaces. intros Hc. apply Hr. destruct (decide (replace_hashes (transaction w) (pool_ready p) = ∅)); [by left|right; auto]. }
    eexists _, used, (Err (TooLowPriority (old_priority (transaction w) (pool_ready p)) (priority (transaction w)))). split_and!; [exact (ready_import_fails used w (pool_ready p) (pi_ready _ _ I) Hmiss Hnew Hid Hrep)| | |done|set_solver|done|done|done|done].
    + apply shrink_ready_inv; [done|apply bump_id_inv, I|done].
    + split; [done|]. intros w' Hw'. by apply (im_each _ _ _ Im); set_solver.
Qed.

(** The pool after the transactions [ws] were imported.  Each of them, and each
    waiting transaction, is still waiting, or was promoted and is in [pr], or
    could not be and is in [fl]; each of those promoted, and each ready one, is
    still ready or was replaced and is in [rm]. *)
Record moved used p ws (pr fl : list Hash) (rm : list Tx) used' p' : Prop := {
  mv_inv : pool_inv used' p';
  mv_used : used ⊆ used' /\ used' ⊆ used ∪ dom (wtxs p) ∪ whashes ws;
  mv_waits : dom (wtxs p') ∪ list_to_set (pr ++ fl) = dom (wtxs p) ∪ whashes ws;
  mv_once : NoDup (pr ++ fl) /\ dom (wtxs p') ## list_to_set (pr ++ fl);
  mv_readies : dom (rtxs p') ∪ thashes rm = dom (rtxs p) ∪ list_to_set pr;
  mv_apart : dom (rtxs p') ## thashes rm;
  mv_ids : insertion_id (pool_ready p') + Z.of_nat (size (wtxs p')) = insertion_id (pool_ready p) + Z.of_nat (size (wtxs p) + length ws);
  mv_config : same_config p p';
  mv_waiting h w' : wtxs p' !! h = Some w' -> exists w, wtxs p !! h = Some w /\ kept_waiting w w' }.

Lemma moved_nil used p : pool_inv used p -> moved used p [] [] [] [] used p.
Proof. intros I. split; [done|set_solver|set_solver|split; [constructor|set_solver]|set_solver|set_solver|simpl; lia|done|eauto]. Qed.

Lemma mv_all used p ws pr fl rm used' p' : moved used p ws pr fl rm used' p' ->
  dom (rtxs p') ∪ dom (wtxs p') ∪ list_to_set fl ∪ thashes rm = everything p ws.
Proof.
  intros Mv. pose proof (mv_waits _ _ _ _ _ _ _ _ Mv) as Hw. pose proof (mv_readies _ _ _ _ _ _ _ _ Mv) as Hr. rewrite list_to_set_app_L in Hw.
  transitivity (dom (rtxs p') ∪ thashes rm ∪ (dom (wtxs p') ∪ list_to_set fl)); [clear; set_solver|]. rewrite Hr.
  transitivity (dom (rtxs p) ∪ (dom (wtxs p') ∪ (list_to_set pr ∪ list_to_set fl))); [clear; set_solver|]. rewrite Hw. clear. set_solver.
Qed.

(** The pool after an operation that only moves or drops transactions. *)
Record shrunk (new : gset Hash) used p used' p' : Prop := {
  sh_inv : pool_inv used' p';
  sh_used : used ⊆ used' /\ used' ⊆ used ∪ dom (wtxs p) ∪ new;
  sh_all : dom (rtxs p') ∪ dom (wtxs p') ⊆ dom (rtxs p) ∪ dom (wtxs p) ∪ new;
  sh_ids : insertion_id (pool_ready p') + Z.of_nat (size (wtxs p')) <= insertion_id (pool_ready p) + Z.of_nat (size (wtxs p) + size new);
  sh_reject : reject_future_transactions p' = reject_future_transactions p;
  sh_waiting h w' : wtxs p' !! h = Some w' -> exists w, wtxs p !! h = Some w /\ kept_waiting w w' }.

(** After [w] was tried, and promoted or not, with [us] left to import. *)
Lemma moved_step used used2 p p2 w ws us pr pr0 fl fl0 rm rm0 used' p' : pool_inv used p -> importable used p (w :: ws) -> moved used2 p2 us pr fl rm used' p' ->
  used ⊆ used2 -> used2 ⊆ {[whash w]} ∪ used -> dom (wtxs p2) ∪ whashes us = dom (wtxs p) ∪ whashes ws -> same_config p p2 ->
  (forall h w', wtxs p2 !! h = Some w' -> exists w0, wtxs p !! h = Some w0 /\ kept_waiting w0 w') ->
  insertion_id (pool_ready p2) + Z.of_nat (size (wtxs p2) + length us) = insertion_id (pool_ready p) + Z.of_nat (size (wtxs p) + length (w :: ws)) ->
  pr0 ++ fl0 = [whash w] -> dom (rtxs p2) ∪ thashes rm0 = dom (rtxs p) ∪ list_to_set pr0 -> dom (rtxs p2) ## thashes rm0 -> thashes rm0 ⊆ dom (rtxs p) ->
  moved used p (w :: ws) (pr0 ++ pr) (fl0 ++ fl) (rm0 ++ rm) used' p'.
Proof.
  intros I Im Mv Hu1 Hu2 Hall Hcfg Hf Hids Hone Heq Hap Hsub. pose proof (mv_waits _ _ _ _ _ _ _ _ Mv) as Hws. rewrite Hall in Hws.
  assert (whash w ∉ dom (wtxs p) ∪ whashes ws) as Hfresh.
  { destruct (im_each _ _ _ Im w ltac:(set_solver)) as (_ & _ & Hn & _). pose proof (im_nodup _ _ _ Im) as Hnd. rewrite fmap_cons in Hnd. apply NoDup_cons in Hnd as [Hnd _].
    rewrite elem_of_union, elem_of_list_to_set, elem_of_dom. intros [[? ?]|]; [congruence|done]. }
  pose proof (mv_once _ _ _ _ _ _ _ _ Mv) as [Ho1 Ho2]. pose proof (mv_readies _ _ _ _ _ _ _ _ Mv) as Hrd. pose proof (mv_apart _ _ _ _ _ _ _ _ Mv) as Hap2.
  assert ((pr0 ++ pr) ++ fl0 ++ fl ≡ₚ whash w :: pr ++ fl) as Hperm.
  { change (whash w :: pr ++ fl) with ([whash w] ++ pr ++ fl). rewrite <-Hone, <-!app_assoc. apply Permutation_app_head. by rewrite !(Permutation_app_comm fl0), <-app_assoc, (Permutation_app_comm fl fl0). }
  assert (list_to_set ((pr0 ++ pr) ++ fl0 ++ fl) = {[whash w]} ∪ list_to_set (pr ++ fl) :> gset Hash) as Hset by (by rewrite Hperm, list_to_set_cons).
  assert (dom (rtxs p) ## dom (wtxs p) ∪ whashes ws) as Hdj.
  { intros h [t Ht]%elem_of_dom Hh. assert (h ∈ used) as Hin by by eapply (rg_used _ _ _ (ri_graph _ _ (pi_ready _ _ I))). apply elem_of_union in Hh as [[w0 Hw0]%elem_of_dom|Hh].
    - by apply (pi_new _ _ I h w0).
    - apply elem_of_list_to_set, list_elem_of_fmap in Hh as (w0 & -> & Hw0). destruct (im_each _ _ _ Im w0 ltac:(set_solver)) as (_ & Hn & _). done. }
  split.
  - apply Mv.
  - pose proof (mv_used _ _ _ _ _ _ _ _ Mv) as [Ha Hb]. rewrite <-(assoc_L (∪)), Hall in Hb. rewrite fmap_cons, list_to_set_cons. split; [clear -Ha Hu1; set_solver|].
    intros h Hh. apply Hb in Hh. clear -Hh Hu2. set_solver.
  - rewrite Hset, fmap_cons, list_to_set_cons. transitivity ({[whash w]} ∪ (dom (wtxs p') ∪ list_to_set (pr ++ fl))); [clear; set_solver|]. rewrite Hws. clear. set_solver.
  - rewrite Hset, Hperm. split; [constructor; [|done]|]; clear -Hws Ho2 Hfresh; set_solver.
  - rewrite fmap_app, !list_to_set_app_L. transitivity (dom (rtxs p') ∪ thashes rm ∪ thashes rm0); [clear; set_solver|]. rewrite Hrd.
    transitivity (dom (rtxs p2) ∪ thashes rm0 ∪ list_to_set pr); [clear; set_solver|]. rewrite Heq. clear. set_solver.
  - rewrite fmap_app, list_to_set_app_L. rewrite list_to_set_app_L in Hws. clear -Hap Hap2 Hrd Hws Hdj Hsub. set_solver.
  - rewrite (mv_ids _ _ _ _ _ _ _ _ Mv). done.
  - eapply same_config_trans; [exact Hcfg|apply Mv].
  - intros h w' (w1 & Hw1 & Heq')%(mv_waiting _ _ _ _ _ _ _ _ Mv). apply Hf in Hw1 as (w0 & Hw0 & ?). eauto.
Qed.

(** One round of the loop of [import_to_ready]. *)
Lemma import_round used p w ws : pool_inv used p -> importable used p (w :: ws) -> ids_left p (size (wtxs p) + length (w :: ws)) ->
  exists f' us, satisfy_tags (E := PoolError Hash) (provides (transaction w)) (pool_future p) = (f', Ok us) /\
  exists r used2 res, ready_import w (pool_ready p) = (r, res) /\ let p2 := with_pool_ready r (with_future f' p) in
    pool_inv used2 p2 /\ importable used2 p2 (push_all us ws) /\ (size (wtxs p2) + length (push_all us ws) < size (wtxs p) + length (w :: ws))%nat /\
    ids_left p2 (size (wtxs p2) + length (push_all us ws)) /\ shrunk {[whash w]} used p used2 p2 /\
    dom (wtxs p2) ∪ whashes (push_all us ws) = dom (wtxs p) ∪ whashes ws /\
    (forall h, h ∈ dom (wtxs p2) <-> exists w0, wtxs p !! h = Some w0 /\ ~ missing_tags w0 ⊆ list_to_set (provides (transaction w))) /\
    match res with
    | Ok txs => replaces (transaction w) (pool_ready p) /\ whash w ∈ dom (rtxs p2) /\
        forall pr fl rm used' p', moved used2 p2 (push_all us ws) pr fl rm used' p' -> moved used p (w :: ws) (whash w :: pr) fl (txs ++ rm) used' p'
    | Err e => ~ replaces (transaction w) (pool_ready p) /\ e = TooLowPriority (old_priority (transaction w) (pool_ready p)) (priority (transaction w)) /\
        rtxs p2 = rtxs p /\ forall pr fl rm used' p', moved used2 p2 (push_all us ws) pr fl rm used' p' -> moved used p (w :: ws) pr (whash w :: fl) rm used' p'
    | Panic => False
    end.
Proof.
  intros I Im Hid. destruct (satisfy_tags_run (E := PoolError Hash) (provides (transaction w)) (pool_future p) (pi_future _ _ I)) as (f' & us & Hsat & S).
  exists f', us. split; [done|]. destruct (satisfy_importable used p _ (w :: ws) f' us I Im S) as (I1 & Im1 & Hm & Hf & Hdom).
  apply (importable_perm _ _ _ (w :: push_all us ws)) in Im1; [|unfold push_all; rewrite <-(Permutation_rev us); by rewrite <-Permutation_middle].
  destruct (import_one used (with_future f' p) w (push_all us ws) I1 Im1) as (r & used2 & res & Hrun & I2 & Im2 & Hu1 & Hu2 & Hidr & Hres).
  { intros h w' tag Hw' Ht Hin. by eapply Hm, elem_of_list_to_set. }
  { unfold ids_left in Hid. simpl in Hid |- *. lia. }
  pose proof (satisfied_size _ _ _ _ (pi_future _ _ I) S) as Hsz.
  assert (length (push_all us ws) = (length us + length ws)%nat) as Hlen by (unfold push_all; rewrite length_app, length_rev; done).
  assert (whashes (push_all us ws) = whashes us ∪ whashes ws) as Hwh.
  { unfold push_all. rewrite fmap_app, list_to_set_app_L. f_equal. apply set_eq. intros h. rewrite !elem_of_list_to_set, !list_elem_of_fmap. setoid_rewrite <-(Permutation_rev us). done. }
  exists r, used2, res. split; [exact Hrun|]. cbv zeta. unfold ids_left in *. simpl in Hid, Hidr |- *.
  assert (dom (waiting f') ∪ whashes (push_all us ws) = dom (wtxs p) ∪ whashes ws) as Hall by (rewrite Hwh, Hdom; clear; set_solver).
  assert (forall pr pr0 fl fl0 rm rm0 used' p', moved used2 (with_pool_ready r (with_future f' p)) (push_all us ws) pr fl rm used' p' ->
    pr0 ++ fl0 = [whash w] -> dom (index (ready r)) ∪ thashes rm0 = dom (rtxs p) ∪ list_to_set pr0 -> dom (index (ready r)) ## thashes rm0 -> thashes rm0 ⊆ dom (rtxs p) ->
    moved used p (w :: ws) (pr0 ++ pr) (fl0 ++ fl) (rm0 ++ rm) used' p') as Hmv.
  { intros pr pr0 fl fl0 rm rm0 used' p' Mv. apply (moved_step used used2 p _ w ws (push_all us ws) pr pr0 fl fl0 rm rm0 used' p' I Im Mv); [done|done|done|done|done|]. simpl. lia. }
  assert (shrunk {[whash w]} used p used2 (with_pool_ready r (with_future f' p))) as Sh.
  { split; cbn [with_pool_ready with_future pool_ready pool_future]; [done|split; [done|clear -Hu2; set_solver]| |rewrite size_singleton; lia|done|intros h w' Hw'; by apply Hf].
    rewrite Hdom. destruct res as [txs|e|]; [|destruct Hres as (_ & _ & Heq); simpl in Heq; rewrite Heq; clear; set_solver|done].
    destruct Hres as (_ & Heq & _). simpl in Heq. clear -Heq. set_solver. }
  split_and!; [done|done|lia|lia|done|done| |].
  { intros h. rewrite elem_of_dom. split; [intros [w' Hw']; apply (satisfied_lookup _ _ _ _ _ _ S) in Hw' as (w0 & ? & ? & _); eauto|].
    intros (w0 & Hw0 & Hn). eexists. apply (satisfied_lookup _ _ _ _ _ _ S). eauto. }
  destruct res as [txs|e|]; [| |done].
  - destruct Hres as (Hrep & Heq & Hin & Hap). split_and!; [done..|]. intros pr fl rm used' p' Mv. simpl in Heq.
    assert (thashes txs ⊆ dom (rtxs p)) as Hsub by (clear -Heq Hin Hap; set_solver).
    apply (Hmv pr [whash w] fl [] rm txs); [done|done|rewrite Heq; clear; set_solver|done|done].
  - destruct Hres as (Hrep & -> & Heq). split_and!; [done..|]. intros pr fl rm used' p' Mv. simpl in Heq.
    apply (Hmv pr [] fl [whash w] rm []); [done|done|rewrite Heq; clear; set_solver|clear; set_solver|clear; set_solver].
Qed.

Lemma import_loop_run : forall fuel used p ws promoted failed removed, pool_inv used p -> importable used p ws ->
  (size (wtxs p) + length ws <= fuel)%nat -> ids_left p (size (wtxs p) + length ws) ->
  exists p' used' pr fl rm, import_loop fuel false ws promoted failed removed p = (p', Ok (promoted ++ pr, failed ++ fl, removed ++ rm)) /\ moved used p ws pr fl rm used' p'.
Proof.
  induction fuel as [|fuel IH]; intros used p ws promoted failed removed I Im Hf Hid; destruct ws as [|w ws];
    try (exists p, used, [], [], []; rewrite !app_nil_r; split; [done|by apply moved_nil]); [simpl in Hf; lia|].
  destruct (import_round used p w ws I Im Hid) as (f' & us & Hsat & r & used2 & res & Hrun & I2 & Im2 & Hsz & Hid2 & Hsh & Hdm & _ & Hres).
  cbn [import_loop]. erewrite bind_Ok by (apply on_future_run; exact Hsat). unfold catch. erewrite on_ready_run by exact Hrun.
  destruct res as [txs|e|]; [| |done].
  - destruct (IH used2 _ (push_all us ws) (promoted ++ [whash w]) failed (removed ++ txs) I2 Im2 ltac:(lia) Hid2) as (p' & used' & pr & fl & rm & Hloop & Mv).
    exists p', used', (whash w :: pr), fl, (txs ++ rm). split; [|by apply Hres]. rewrite Hloop, <-!app_assoc. done.
  - destruct (IH used2 _ (push_all us ws) promoted (failed ++ [whash w]) removed I2 Im2 ltac:(lia) Hid2) as (p' & used' & pr & fl & rm & Hloop & Mv).
    exists p', used', pr, (whash w :: fl), rm. split; [|by apply Hres]. rewrite Hloop, <-!app_assoc. done.
Qed.

(** [h] unlocks the ready transaction [u]. *)
Definition unlocking p (h u : Hash) : Prop := exists t, rtxs p !! h = Some t /\ u ∈ unlocks t /\ is_Some (rtxs p !! u).

Lemma unlocking_live p h u : rtc (unlocking p) h u -> is_Some (rtxs p !! u) -> is_Some (rtxs p !! h).
Proof. intros [|x y z (t & Ht & _) _]; eauto. Qed.

(** What is dragged along when nothing stays is what is unlocked. *)
Lemma removed_iff used p hashes D s h : pool_inv used p -> removing (pool_ready p) None hashes D [] s -> is_Some (rtxs p !! h) ->
  h ∈ D <-> exists r, r ∈ hashes /\ rtc (unlocking p) r h.
Proof.
  intros I R Hh. pose proof (ri_graph _ _ (pi_ready _ _ I)) as G. split.
  - intros Hd. destruct (rm_reach _ _ _ _ _ _ R h ltac:(by left)) as (r & Hr & Hrtc). exists r. split; [done|]. clear Hr Hd.
    induction Hrtc as [x|x y z (t & Ht & _ & Hu) _ IH]; [apply rtc_refl|]. specialize (IH Hh). econstructor; [|exact IH].
    exists t. split_and!; [done..|]. by eapply unlocking_live.
  - intros (r & Hr & Hrtc). assert (r ∈ D) as HrD by (destruct (rm_roots _ _ _ _ _ _ R r Hr); [by eapply unlocking_live|done|set_solver]). clear Hr.
    induction Hrtc as [x|x y z (t & Ht & Hu & Hy) _ IH]; [done|]. apply (IH Hh).
    destruct (rm_closed _ _ _ _ _ _ R x y HrD) as [|]; [|done|done|set_solver]. exists t. split_and!; [done| |done].
    destruct Hy as [ty Hty]. destruct (rg_deps _ _ _ G x t y ty Ht Hu Hty) as (tag & Hp & _). intros Hnil.
    assert (tag ∈ invalidated None t) as Hin by by apply list_elem_of_filter. rewrite Hnil in Hin. set_solver.
Qed.

(** The import of [tx] to the ready queue and of what it unlocks, from [p] to
    [q].  Each transaction that was waiting is either still waiting, or in
    exactly one of [promoted] and [failed], once.  Each that was ready, or was
    promoted, and [tx] itself, is either ready or in [removed]. *)
Record imports (tx : Tx) p (q : Pool) (promoted failed : list Hash) (removed : list Tx) : Prop := {
  io_waits : dom (wtxs q) ∪ list_to_set (promoted ++ failed) = dom (wtxs p);
  io_once : NoDup (promoted ++ failed) /\ dom (wtxs q) ## list_to_set (promoted ++ failed);
  io_readies : dom (rtxs q) ∪ thashes removed = {[hash tx]} ∪ dom (rtxs p) ∪ list_to_set promoted;
  io_apart : dom (rtxs q) ## thashes removed }.

Lemma moved_imports used p w pr fl rm used' (q : Pool) : wtxs p !! whash w = None -> moved used p [w] (whash w :: pr) fl rm used' q -> imports (transaction w) p q pr fl rm.
Proof.
  intros Hn Mv. apply not_elem_of_dom in Hn. pose proof (mv_waits _ _ _ _ _ _ _ _ Mv) as Hw. pose proof (mv_once _ _ _ _ _ _ _ _ Mv) as [Ho Hd].
  pose proof (mv_readies _ _ _ _ _ _ _ _ Mv) as Hr. rewrite <-app_comm_cons, list_to_set_cons in Hw, Hd. rewrite list_to_set_cons in Hr.
  assert (whashes [w] = {[whash w]}) as Hone by apply list_to_set_singleton_L. rewrite Hone in Hw.
  rewrite <-app_comm_cons in Ho. apply NoDup_cons in Ho as [Hni Ho]. split; [|split; [done|clear -Hd; set_solver]|rewrite Hr; clear; set_solver|apply Mv].
  rewrite <-(elem_of_list_to_set (C := gset Hash)) in Hni. apply set_eq. intros h.
  assert (h ∈ dom (wtxs q) ∪ ({[whash w]} ∪ list_to_set (pr ++ fl)) <-> h ∈ dom (wtxs p) ∪ {[whash w]}) as Hiff by (by rewrite Hw).
  rewrite !elem_of_union, elem_of_singleton in Hiff. rewrite elem_of_union. destruct (decide (h = whash w)) as [->|Hne]; [|tauto].
  pose proof (Hd (whash w)) as Hdw. rewrite elem_of_union, elem_of_singleton in Hdw. tauto.
Qed.

Lemma io_all tx p q promoted failed removed : imports tx p q promoted failed removed ->
  dom (rtxs q) ∪ dom (wtxs q) ∪ list_to_set failed ∪ thashes removed = dom (rtxs p) ∪ dom (wtxs p) ∪ {[hash tx]}.
Proof.
  intros [Hw _ Hr _]. rewrite list_to_set_app_L in Hw.
  transitivity (dom (rtxs q) ∪ thashes removed ∪ (dom (wtxs q) ∪ list_to_set failed)); [clear; set_solver|]. rewrite Hr, <-Hw. clear. set_solver.
Qed.

Lemma io_promoted tx p q promoted failed removed : imports tx p q promoted failed removed -> list_to_set promoted ⊆ dom (wtxs p).
Proof. intros [Hw _ _ _]. rewrite <-Hw, list_to_set_app_L. clear. set_solver. Qed.

(** What an import to the ready queue reports.  If the priority is too low, the
    waiting transactions that would have been unlocked are lost; on a cycle,
    the promoted transactions and those that depend on them are removed. *)
Definition ready_report (tx : Tx) p p' (res : res (PoolError Hash) (Imported Hash Ex)) : Prop :=
  match res with
  | Ok (ImportedReady h promoted failed removed) =>
      h = hash tx /\ replaces tx (pool_ready p) /\ h ∈ dom (rtxs p') /\ imports tx p p' promoted failed removed
  | Ok (ImportedFuture _) => False
  | Err (TooLowPriority old new) => ~ replaces tx (pool_ready p) /\ old = old_priority tx (pool_ready p) /\ new = priority tx /\ rtxs p' = rtxs p /\
      forall h, h ∈ dom (wtxs p') <-> exists w, wtxs p !! h = Some w /\ ~ missing_tags w ⊆ list_to_set (provides tx)
  | Err CycleDetected => replaces tx (pool_ready p) /\ exists (q : Pool) promoted failed removed, imports tx p q promoted failed removed /\ hash tx ∈ thashes removed /\
      wtxs p' = wtxs q /\ forall h, h ∈ dom (rtxs p') <-> h ∈ dom (rtxs q) /\ ~ exists r, r ∈ promoted /\ rtc (unlocking q) r h
  | Err _ => False
  | Panic => False
  end.

Lemma import_to_ready_run used p w : pool_inv used p -> importable used p [w] -> ids_left p (size (wtxs p) + 1) ->
  exists p' used' res, import_to_ready w p = (p', res) /\ shrunk {[whash w]} used p used' p' /\ same_config p p' /\
    ready_report (transaction w) p p' res.
Proof.
  intros I Im Hid. unfold import_to_ready. erewrite bind_Ok by reflexivity. cbn [import_loop].
  destruct (import_round used p w [] I Im Hid) as (f' & us & Hsat & r & used2 & res & Hrun & I2 & Im2 & Hsz & Hid2 & Hsh & Hdm & Hlost & Hres).
  set (p2 := with_pool_ready r (with_future f' p)) in *. set (fuel := size (wtxs p)) in *.
  assert (on_future (satisfy_tags (E := PoolError Hash) (provides (transaction w))) p = (with_future f' p, Ok us)) as Hsat' by by apply on_future_run.
  destruct res as [txs|e|]; [| |done].
  2: { destruct Hres as (Hrep & -> & Heq & Hmv). erewrite bind_Err. 2: { erewrite bind_Ok by exact Hsat'. unfold catch. erewrite on_ready_run by exact Hrun. reflexivity. }
    exists p2, used2. eexists. split_and!; [reflexivity|done|done|]. by split_and!. }
  destruct Hres as (Hrep & Hin & Hmv). destruct (import_loop_run fuel used2 p2 (push_all us []) [] [] txs I2 Im2) as (p' & used' & pr & fl & rm & Hloop & Mv); [cbn [length] in Hsz; unfold fuel; lia|done|].
  specialize (Hmv _ _ _ _ _ Mv). pose proof (mv_all _ _ _ _ _ _ _ _ Hmv) as Hall. rewrite fmap_cons, fmap_nil, list_to_set_singleton_L in Hall.
  pose proof (mv_used _ _ _ _ _ _ _ _ Hmv) as [Hu1 Hu2]. rewrite fmap_cons, fmap_nil, list_to_set_singleton_L in Hu2.
  assert (imports (transaction w) p p' pr fl (txs ++ rm)) as Io by (eapply moved_imports; [apply (im_each _ _ _ Im); left|exact Hmv]).
  erewrite bind_Ok. 2: { erewrite bind_Ok by exact Hsat'. unfold catch. erewrite on_ready_run by exact Hrun. exact Hloop. } cbn beta iota.
  assert (shrunk {[whash w]} used p used' p') as Sh.
  { split; [apply Mv|done|rewrite <-Hall; clear; set_solver| |apply Hmv|apply Hmv]. rewrite size_singleton. pose proof (mv_ids _ _ _ _ _ _ _ _ Hmv) as Hi. simpl in Hi. lia. }
  pose proof (mv_config _ _ _ _ _ _ _ _ Hmv) as Hcfg.
  assert (existsb (fun tx => bool_decide (hash tx = whash w)) (txs ++ rm) = bool_decide (whash w ∈ thashes (txs ++ rm))) as ->.
  { apply eq_bool_prop_intro. rewrite !Is_true_true, existsb_exists, bool_decide_eq_true, elem_of_list_to_set, list_elem_of_fmap.
    setoid_rewrite bool_decide_eq_true. setoid_rewrite <-list_elem_of_In. naive_solver. }
  case_bool_decide as Hcyc.
  - destruct (remove_subtree_run (E := PoolError Hash) used' (pool_ready p') None ([] ++ pr) (pi_ready _ _ (mv_inv _ _ _ _ _ _ _ _ Mv))) as (r' & D & Hrm & Rm).
    erewrite bind_Ok by (apply on_ready_run; exact Hrm). eexists _, used', _. pose proof (rf_txs _ _ _ _ (rm_removed _ _ _ _ _ _ Rm)) as Htxs. split_and!; [reflexivity| | |].
    + assert (dom (index (ready r')) ⊆ dom (rtxs p')) as Hsub by (rewrite Htxs; apply dom_filter_subseteq).
      split; simpl; [|apply Sh| | |apply Sh|apply Sh].
      * apply shrink_ready_inv; [apply Mv|by eapply removing_inv; [apply Mv|]|]. intros tag h. rewrite (rf_provided _ _ _ _ (rm_removed _ _ _ _ _ _ Rm)). intros [Hp _]%map_lookup_filter_Some. done.
      * pose proof (sh_all _ _ _ _ _ Sh) as Hs. clear -Hs Hsub. set_solver.
      * rewrite (rf_id _ _ _ _ (rm_removed _ _ _ _ _ _ Rm)). apply Sh.
    + eapply same_config_trans; [exact Hcfg|done].
    + split; [done|]. exists p', pr, fl, (txs ++ rm). split_and!; [done..|]. intros h. cbn [with_pool_ready pool_ready]. rewrite Htxs.
      rewrite elem_of_dom. split.
      * intros [t [Ht Hd]%map_lookup_filter_Some]. split; [by eapply elem_of_dom_2|]. contradict Hd. by apply (removed_iff used' p' pr D r' h (mv_inv _ _ _ _ _ _ _ _ Mv) Rm).
      * intros [[t Ht]%elem_of_dom Hd]. exists t. apply map_lookup_filter_Some. split; [done|]. contradict Hd. by apply (removed_iff used' p' pr D r' h (mv_inv _ _ _ _ _ _ _ _ Mv) Rm).
  - exists p', used'. eexists. split_and!; [reflexivity|done|done|]. split_and!; [done|done| |done].
    pose proof (io_readies _ _ _ _ _ _ Io) as Hr. clear -Hr Hcyc. set_solver.
Qed.

(** A required tag that is neither provided nor recently pruned. *)
Definition unsatisfied p (tx : Tx) (tag : Tag) : Prop :=
  tag ∈ requires tx /\ is_provided (provided p) (recently_pruned p) tag = false.

(** What [import] reports. *)
Definition import_report (tx : Tx) p p' (res : res (PoolError Hash) (Imported Hash Ex)) : Prop :=
  match res with
  | Err (AlreadyImported h) => h = hash tx /\ h ∈ dom (rtxs p) ∪ dom (wtxs p) /\ p' = p
  | Err RejectedFutureTransaction => reject_future_transactions p = true /\ (exists tag, unsatisfied p tx tag) /\ p' = p
  | Ok (ImportedFuture h) => h = hash tx /\ (h ∉ dom (rtxs p) ∪ dom (wtxs p)) /\ (exists tag, unsatisfied p tx tag) /\
      pool_ready p' = pool_ready p /\ dom (wtxs p') = {[h]} ∪ dom (wtxs p)
  | _ => (hash tx ∉ dom (rtxs p) ∪ dom (wtxs p)) /\ (forall tag, ~ unsatisfied p tx tag) /\ ready_report tx p p' res
  end.

Lemma is_imported_spec h p : is_imported h p = true <-> h ∈ dom (rtxs p) ∪ dom (wtxs p).
Proof.
  unfold is_imported, future_contains, ready_contains. rewrite orb_true_iff, !bool_decide_eq_true, elem_of_union, !elem_of_dom. tauto.
Qed.

Lemma missing_spec tx p now tag : tag ∈ missing_tags (WaitingTransaction_new tx (provided p) (recently_pruned p) now) <-> unsatisfied p tx tag.
Proof. simpl. rewrite elem_of_list_to_set, list_elem_of_filter. unfold unsatisfied. tauto. Qed.

Lemma shrunk_refl used p new : pool_inv used p -> shrunk new used p used p.
Proof. intros I. split; [done|split; [done|]; set_solver|set_solver|lia|done|eauto]. Qed.

Lemma pool_import_run used p tx now : pool_inv used p -> tx_valid tx -> (hash tx ∈ used -> hash tx ∈ dom (rtxs p)) -> ids_left p (size (wtxs p) + 1) ->
  exists p' used' res, import tx now p = (p', res) /\ pool_inv used' p' /\ used ⊆ used' /\ used' ⊆ used ∪ dom (wtxs p) ∪ {[hash tx]} /\
    dom (rtxs p') ∪ dom (wtxs p') ⊆ dom (rtxs p) ∪ dom (wtxs p) ∪ {[hash tx]} /\
    (forall h w, wtxs p' !! h = Some w -> transaction w = tx \/ exists w0, wtxs p !! h = Some w0 /\ transaction w = transaction w0) /\
    import_report tx p p' res.
Proof.
  intros I Hv Hnew Hid. unfold import. erewrite bind_Ok by reflexivity. pose proof (is_imported_spec (hash tx) p) as Himp.
  destruct (is_imported (hash tx) p) eqn:Hi.
  { exists p, used. eexists. split_and!; [reflexivity|done|done|set_solver|set_solver|eauto|]. simpl. naive_solver. }
  assert (hash tx ∉ dom (rtxs p) ∪ dom (wtxs p)) as Hout by (rewrite <-Himp; done).
  assert (hash tx ∉ used) as Hu by (intros Hc; apply Hnew in Hc; set_solver).
  rewrite (bind_Ok get _ p p p) by reflexivity. cbn beta zeta. set (w := WaitingTransaction_new tx (provided p) (recently_pruned p) now).
  assert (forall tag, tag ∈ missing_tags w <-> unsatisfied p tx tag) as Hm by (intros; apply missing_spec).
  unfold is_ready. destruct (decide (missing_tags w = ∅)) as [He|Hne].
  - rewrite bool_decide_true by done. cbn [negb].
    destruct (import_to_ready_run used p w I) as (p' & used' & res & Hrun & Sh & _ & Hrep); [|done|].
    { split; [simpl; apply NoDup_singleton|]. intros w' Hw'. apply list_elem_of_singleton in Hw' as ->. split_and!; [done|done| |done].
      apply not_elem_of_dom. set_solver. }
    exists p', used', res. split_and!; [done|apply Sh|apply Sh|apply Sh|apply Sh| |].
    + intros h w' (w0 & Hw0 & Heq & _)%(sh_waiting _ _ _ _ _ Sh). eauto.
    + assert (forall tag, ~ unsatisfied p tx tag) as Hs by (intros tag; rewrite <-Hm, He; set_solver).
      destruct res as [[]|[]|]; simpl in Hrep |- *; done || (split_and!; done).
  - rewrite bool_decide_false by done. cbn [negb]. apply set_choose_L in Hne as Htag. destruct Htag as [tag Htag]. apply Hm in Htag.
    destruct (reject_future_transactions p) eqn:Hrej.
    { exists p, used. eexists. split_and!; [reflexivity|done|done|set_solver|set_solver|eauto|]. simpl. eauto. }
    destruct (future_import_run (E := PoolError Hash) w (pool_future p) (pi_future _ _ I) Hne) as (f' & Hrun & F' & Hw).
    { apply not_elem_of_dom. cbn [w WaitingTransaction_new transaction]. set_solver. }
    erewrite bind_Ok by (apply on_future_run; exact Hrun). change (whash w) with (hash tx) in Hw.
    assert (forall h w', waiting f' !! h = Some w' -> h = hash tx /\ w' = w \/ wtxs p !! h = Some w') as Hlk.
    { intros h w'. rewrite Hw, lookup_insert_Some. naive_solver. }
    eexists (with_future f' p), used, _. split_and!; [reflexivity| |done|set_solver| | |].
    + split; simpl; [apply I|done| | | |apply I].
      * intros h w' [[-> _]|Hw']%Hlk; [done|by eapply (pi_new _ _ I)].
      * intros h w' [[_ ->]|Hw']%Hlk; [done|by eapply (pi_valid _ _ I)].
      * intros h w' t [[_ ->]|Hw']%Hlk; [|by eapply (pi_missing _ _ I)]. intros [Hin Hp]%Hm. split; [done|].
        unfold is_provided in Hp. apply orb_false_iff in Hp as [Hp _]. apply bool_decide_eq_false in Hp. by apply eq_None_not_Some.
    + simpl. rewrite Hw, dom_insert_L. set_solver.
    + intros h w' [[_ ->]|Hw']%Hlk; [by left|right; eauto].
    + simpl. rewrite Hw, dom_insert_L. split_and!; eauto.
Qed.

(** ** Removal *)

Lemma remove_subtree_pool_run {E} used p hashes : pool_inv used p ->
  exists p' txs D, remove_subtree (E := E) hashes p = (p', Ok txs) /\ shrunk ∅ used p used p' /\ same_config p p' /\
    (exists s', removing (pool_ready p) None hashes D [] s' /\ pool_ready p' = s') /\
    wtxs p' = filter (fun kw => kw.1 ∉ hashes) (wtxs p) /\
    thashes txs = list_to_set D ∪ (list_to_set hashes ∩ dom (wtxs p)).
Proof.
  intros I. unfold remove_subtree, ready_remove_subtree.
  destruct (remove_subtree_run (E := E) used (pool_ready p) None hashes (pi_ready _ _ I)) as (r & D & Hrun & R).
  erewrite bind_Ok by (apply on_ready_run; exact Hrun). set (p1 := with_pool_ready r p).
  assert (pool_inv used p1) as I1.
  { apply shrink_ready_inv; [done|by eapply removing_inv; [apply I|]|]. intros tag h. rewrite (rf_provided _ _ _ _ (rm_removed _ _ _ _ _ _ R)). by intros [? _]%map_lookup_filter_Some. }
  destruct (future_remove_run (E := E) hashes (pool_future p1) (pi_future _ _ I1)) as (f' & txs & Hrunf & F' & Hw & Htx). simpl in Hw, Htx.
  erewrite bind_Ok by (apply on_future_run; exact Hrunf).
  assert (forall h w, waiting f' !! h = Some w -> wtxs p !! h = Some w) as Hsub by (intros h w; rewrite Hw; by intros [? _]%map_lookup_filter_Some).
  assert (dom (waiting f') ⊆ dom (wtxs p)) as Hdom by (rewrite Hw; apply dom_filter_subseteq).
  eexists (with_future f' p1), _, D. split_and!; [reflexivity| |done|by exists r|done|].
  - split; simpl.
    + split; simpl; [apply I1|done| | | |apply I1]; intros *; intros Hh%Hsub; [by eapply (pi_new _ _ I1)|by eapply (pi_valid _ _ I1)|by eapply (pi_missing _ _ I1)].
    + set_solver.
    + rewrite (rf_txs _ _ _ _ (rm_removed _ _ _ _ _ _ R)). pose proof (dom_filter_subseteq (D := gset Hash) (fun kt => kt.1 ∉ D) (rtxs p)). set_solver.
    + rewrite (rf_id _ _ _ _ (rm_removed _ _ _ _ _ _ R)). pose proof (subseteq_size _ _ Hdom) as Hsz. rewrite !size_dom in Hsz. lia.
    + done.
    + eauto.
  - rewrite fmap_app, list_to_set_app_L, (removed_hashes used) by (apply I || apply R). f_equal. apply set_eq. intros h.
    rewrite elem_of_list_to_set, list_elem_of_fmap, elem_of_intersection, elem_of_list_to_set, elem_of_dom. split.
    + intros (tx & -> & (k & w & Hk & Hkw & ->)%Htx). rewrite (fi_hash _ (pi_future _ _ I) k w Hkw). eauto.
    + intros [Hh [w Hhw]]. exists (transaction w). split; [symmetry; by apply (fi_hash _ (pi_future _ _ I))|]. apply Htx. eauto.
Qed.

(** ** Limits *)

Definition limit_ok (l : Limit) : Prop := 0 <= count l /\ 0 <= total_bytes l.

(** The queues are within their limits. *)
Definition ready_within (l : Limit) p : Prop := is_exceeded l (ready_len (pool_ready p)) (ready_bytes (pool_ready p)) = false.
Definition future_within (l : Limit) p : Prop := is_exceeded l (future_len (pool_future p)) (total_size (wtxs p)) = false.

Lemma fold_worst {A B} (f : option A -> B -> option A) (P : A -> Prop) l acc :
  (forall b, b ∈ l -> exists a, f None b = Some a /\ P a) -> (forall a b, b ∈ l -> P a -> exists a', f (Some a) b = Some a' /\ P a') ->
  (forall a, acc = Some a -> P a) ->
  match foldl f acc l with Some a => P a | None => acc = None /\ l = [] end.
Proof.
  revert acc. induction l as [|b l IH]; intros acc H1 H2 Ha; simpl; [destruct acc; auto|].
  assert (exists a, f acc b = Some a /\ P a) as (a & -> & HP) by (destruct acc as [a|]; [apply H2|apply H1]; set_solver).
  specialize (IH (Some a)). destruct (foldl f (Some a) l); [|destruct IH; [set_solver..|congruence|done]].
  apply IH; [set_solver|set_solver|congruence].
Qed.

Lemma worst_ready_fold p : match ready_fold worst_ready (pool_ready p) with
  | Some r => exists h t, rtxs p !! h = Some t /\ r = tx_ref t
  | None => rtxs p = ∅
  end.
Proof.
  unfold ready_fold. pose proof (fold_worst worst_ready (fun r => exists h t, rtxs p !! h = Some t /\ r = tx_ref t) (hash_values (rtxs p)) None) as Hf.
  destruct (foldl worst_ready None (hash_values (rtxs p))) as [r|].
  - apply Hf; [| |done].
    + intros t Ht. apply elem_of_hash_values in Ht as [h Ht]. simpl. eauto 10.
    + intros r' t Ht Hr'. apply elem_of_hash_values in Ht as [h Ht]. simpl. case_match; eauto 10.
  - destruct Hf as [_ Hnil]; [| |done|].
    + intros t Ht. apply elem_of_hash_values in Ht as [h Ht]. simpl. eauto 10.
    + intros r' t Ht Hr'. apply elem_of_hash_values in Ht as [h Ht]. simpl. case_match; eauto 10.
    + apply map_empty. intros h. destruct (rtxs p !! h) as [t|] eqn:Ht; [|done]. assert (t ∈ hash_values (rtxs p)) as Hin by (apply elem_of_hash_values; eauto).
      rewrite Hnil in Hin. set_solver.
Qed.

Lemma worst_future_fold p : match future_fold worst_future (pool_future p) with
  | Some w => exists h, wtxs p !! h = Some w
  | None => wtxs p = ∅
  end.
Proof.
  unfold future_fold. pose proof (fold_worst worst_future (fun w => exists h, wtxs p !! h = Some w) (hash_values (wtxs p)) None) as Hf.
  destruct (foldl worst_future None (hash_values (wtxs p))) as [w|].
  - apply Hf; [| |done].
    + intros w' Hw. apply elem_of_hash_values in Hw as [h Hw]. simpl. eauto.
    + intros r' w' Hw Hr'. apply elem_of_hash_values in Hw as [h Hw]. simpl. case_match; eauto.
  - destruct Hf as [_ Hnil]; [| |done|].
    + intros w' Hw. apply elem_of_hash_values in Hw as [h Hw]. simpl. eauto.
    + intros r' w' Hw Hr'. apply elem_of_hash_values in Hw as [h Hw]. simpl. case_match; eauto.
    + apply map_empty. intros h. destruct (wtxs p !! h) as [w|] eqn:Hw; [|done]. assert (w ∈ hash_values (wtxs p)) as Hin by (apply elem_of_hash_values; eauto).
      rewrite Hnil in Hin. set_solver.
Qed.

(** The transactions [txs] are those that left the pool. *)
Definition left_pool p p' (txs : list Tx) : Prop :=
  thashes txs = (dom (rtxs p) ∪ dom (wtxs p)) ∖ (dom (rtxs p') ∪ dom (wtxs p')) /\ dom (rtxs p') ⊆ dom (rtxs p) /\ dom (wtxs p') ⊆ dom (wtxs p).

Lemma queues_disjoint used p : pool_inv used p -> dom (rtxs p) ## dom (wtxs p).
Proof.
  intros I h [t Ht]%elem_of_dom [w Hw]%elem_of_dom. apply (pi_new _ _ I h w Hw). by eapply (rg_used _ _ _ (ri_graph _ _ (pi_ready _ _ I))).
Qed.

Lemma removal_left {E} used p hashes : pool_inv used p ->
  exists p' txs, remove_subtree (E := E) hashes p = (p', Ok txs) /\ pool_inv used p' /\ left_pool p p' txs /\
    (forall h, h ∈ hashes -> h ∉ dom (rtxs p') ∪ dom (wtxs p')) /\
    wtxs p' = filter (fun kw => kw.1 ∉ hashes) (wtxs p) /\
    (dom (rtxs p) ## list_to_set hashes -> rtxs p' = rtxs p).
Proof.
  intros I. destruct (remove_subtree_pool_run (E := E) used p hashes I) as (p' & txs & D & Hrun & Sh & _ & (r & R & Hr) & Hw & Htx).
  pose proof (rf_txs _ _ _ _ (rm_removed _ _ _ _ _ _ R)) as Hrt. rewrite <-Hr in Hrt. pose proof (queues_disjoint used p I) as Hdj.
  assert (forall h, h ∈ dom (rtxs p') <-> h ∈ dom (rtxs p) /\ (h ∉ D)) as Hdr.
  { intros h. rewrite Hrt, !elem_of_dom. unfold is_Some. setoid_rewrite map_lookup_filter_Some. naive_solver. }
  assert (forall h, h ∈ dom (wtxs p') <-> h ∈ dom (wtxs p) /\ (h ∉ hashes)) as Hdw.
  { intros h. rewrite Hw, !elem_of_dom. unfold is_Some. setoid_rewrite map_lookup_filter_Some. naive_solver. }
  assert (forall h, h ∈ D -> h ∈ dom (rtxs p)) as HD by (intros h Hh; by apply elem_of_dom, (rm_ready _ _ _ _ _ _ R)).
  assert (forall h, h ∈ hashes -> h ∈ dom (rtxs p) -> h ∈ D) as HH.
  { intros h Hh Hd. apply elem_of_dom in Hd. destruct (rm_roots _ _ _ _ _ _ R h Hh Hd); [done|set_solver]. }
  exists p', txs. split_and!; [done|apply Sh| | |done|].
  - split_and!; [|intros h; rewrite Hdr; tauto|intros h; rewrite Hdw; tauto]. rewrite Htx. apply set_eq. intros h. specialize (Hdj h).
    rewrite elem_of_difference, !elem_of_union, elem_of_intersection, !elem_of_list_to_set, Hdr, Hdw.
    destruct (decide (h ∈ D)); destruct (decide (h ∈ hashes)); destruct (decide (h ∈ dom (rtxs p))); naive_solver.
  - intros h Hh. rewrite elem_of_union, Hdr, Hdw. naive_solver.
  - intros Hno. assert (D = []) as ->.
    { destruct D as [|d D]; [done|exfalso]. destruct (rm_reach _ _ _ _ _ _ R d ltac:(set_solver)) as (r0 & Hr0 & Hrtc).
      assert (r0 ∈ dom (rtxs p)); [|set_solver]. inversion Hrtc as [|? y ? (t & Ht & _)]; subst; [apply HD; set_solver|]. apply elem_of_dom. eauto. }
    rewrite Hrt. apply map_filter_id. set_solver.
Qed.

Lemma left_pool_refl p : left_pool p p [].
Proof. split_and!; [simpl; set_solver|done..]. Qed.

Lemma left_pool_trans p1 p2 p3 l l' : left_pool p1 p2 l -> left_pool p2 p3 l' -> left_pool p1 p3 (l ++ l').
Proof.
  intros (H1 & H2 & H3) (H4 & H5 & H6). split_and!; [|set_solver..]. rewrite fmap_app, list_to_set_app_L, H1, H4. apply set_eq. intros h.
  specialize (H2 h). specialize (H3 h). specialize (H5 h). specialize (H6 h). rewrite !elem_of_union, !elem_of_difference, !elem_of_union.
  destruct (decide (h ∈ dom (rtxs p2))), (decide (h ∈ dom (wtxs p2))); tauto.
Qed.

Lemma filter_out_ready used p (hashes : list Hash) : pool_inv used p -> (forall h, h ∈ hashes -> h ∈ dom (rtxs p)) ->
  filter (fun kw : Hash * WaitingTx => kw.1 ∉ hashes) (wtxs p) = wtxs p.
Proof.
  intros I Hh. apply map_filter_id. intros h w Hw Hin. apply (queues_disjoint used p I h); [by apply Hh|]. apply elem_of_dom. eauto.
Qed.

Lemma enforce_ready_run {E} used l : limit_ok l -> forall fuel p removed, pool_inv used p -> (size (rtxs p) <= fuel)%nat ->
  exists p' txs, enforce_ready (E := E) fuel l removed p = (p', Ok (removed ++ txs)) /\ pool_inv used p' /\ left_pool p p' txs /\ ready_within l p' /\
    wtxs p' = wtxs p /\ (ready_within l p -> p' = p /\ txs = []).
Proof.
  intros Hl. induction fuel as [|fuel IH]; intros p removed I Hf; cbn [enforce_ready]; rewrite (bind_Ok get _ p p p) by reflexivity;
    (destruct (is_exceeded l (ready_len (pool_ready p)) (ready_bytes (pool_ready p))) eqn:Hex;
      [|exists p, []; rewrite app_nil_r; split_and!; [done|done|apply left_pool_refl|done|done|done]]);
    pose proof (worst_ready_fold p) as Hw; destruct (ready_fold worst_ready (pool_ready p)) as [r|].
  - destruct Hw as (h & t & Ht & _). assert (size (rtxs p) = 0%nat) as Hz by lia. apply map_size_empty_iff in Hz. rewrite Hz, lookup_empty in Ht. done.
  - destruct (tracked_empty (ready (pool_ready p)) (ri_tracked _ _ (pi_ready _ _ I)) Hw) as [Hl0 Hb0]. unfold is_exceeded, ready_len, ready_bytes in Hex. rewrite Hl0, Hb0 in Hex.
    destruct Hl. lia.
  - destruct Hw as (h & t & Ht & ->). fold (tx_of t). rewrite (rg_hash _ _ _ (ri_graph _ _ (pi_ready _ _ I)) h t Ht).
    assert (h ∈ dom (rtxs p)) as Hd by (apply elem_of_dom; eauto).
    destruct (removal_left (E := E) used p [h] I) as (p1 & txs1 & Hrun & I1 & HL & Hgone & Hw1 & _). erewrite bind_Ok by exact Hrun.
    destruct (IH p1 (removed ++ txs1) I1) as (p' & txs & Hloop & I' & HL' & Hin & Hw' & _).
    { assert (size (rtxs p1) < size (rtxs p))%nat; [|lia]. rewrite <-!size_dom. apply subset_size. split; [apply HL|]. intros Hsub. apply (Hgone h); set_solver. }
    exists p', (txs1 ++ txs). split_and!; [by rewrite app_assoc|done|by eapply left_pool_trans|done| |unfold ready_within; congruence].
    rewrite Hw', Hw1. apply (filter_out_ready used); [done|]. intros h' ->%list_elem_of_singleton. done.
  - destruct (tracked_empty (ready (pool_ready p)) (ri_tracked _ _ (pi_ready _ _ I)) Hw) as [Hl0 Hb0]. unfold is_exceeded, ready_len, ready_bytes in Hex. rewrite Hl0, Hb0 in Hex.
    destruct Hl. lia.
Qed.

(** The encodings in the queue of waiting transactions fit the address space. *)
Definition sizes_ok p : Prop := (forall h w, wtxs p !! h = Some w -> 0 <= tx_bytes (transaction w)) /\ total_size (wtxs p) < 2 ^ 64.

Lemma filter_one (m : gmap Hash WaitingTx) h : filter (fun kw => kw.1 ∉ [h]) m = delete h m.
Proof.
  apply map_eq. intros k. destruct (decide (k = h)) as [->|Hk].
  - rewrite lookup_delete_eq. apply map_lookup_filter_None. right. set_solver.
  - rewrite lookup_delete_ne by done. rewrite map_lookup_filter. destruct (m !! k); simpl; [|done]. rewrite option_guard_True by set_solver. done.
Qed.

Lemma sizes_ok_delete p p' h : sizes_ok p -> is_Some (wtxs p !! h) -> wtxs p' = delete h (wtxs p) -> sizes_ok p'.
Proof.
  intros [Hn Hs] [w Hw] Heq. unfold sizes_ok. rewrite Heq. split.
  - intros k w'. rewrite lookup_delete_Some. intros [_ Hk]. by eapply Hn.
  - pose proof (total_size_delete (wtxs p) h w Hw) as Ht. pose proof (Hn h w Hw). change (size_of w) with (tx_bytes (transaction w)) in Ht. lia.
Qed.

Lemma same_len (r r' : ReadyTransactions Hash Ex) : tracked (ready r) -> tracked (ready r') -> index (ready r') = index (ready r) ->
  ready_len r' = ready_len r /\ ready_bytes r' = ready_bytes r.
Proof. intros [Hb Hl] [Hb' Hl'] Heq. unfold ready_len, ready_bytes, len, bytes. by rewrite Hb, Hl, Hb', Hl', Heq. Qed.

Lemma enforce_future_run {E} used l : limit_ok l -> forall fuel p removed, pool_inv used p -> sizes_ok p -> (size (wtxs p) <= fuel)%nat ->
  exists p' txs, enforce_future (E := E) fuel l removed p = (p', Ok (removed ++ txs)) /\ pool_inv used p' /\ left_pool p p' txs /\ future_within l p' /\
    rtxs p' = rtxs p /\ wtxs p' ⊆ wtxs p /\ (future_within l p -> p' = p /\ txs = []).
Proof.
  intros Hl. induction fuel as [|fuel IH]; intros p removed I Hs Hf; cbn [enforce_future]; rewrite (bind_Ok get _ p p p) by reflexivity;
    (erewrite bind_Ok by (rewrite future_bytes_run by apply Hs; reflexivity));
    (destruct (is_exceeded l (future_len (pool_future p)) (total_size (wtxs p))) eqn:Hex;
      [|exists p, []; rewrite app_nil_r; split_and!; [done|done|apply left_pool_refl|done|done|done|done]]);
    pose proof (worst_future_fold p) as Hw; destruct (future_fold worst_future (pool_future p)) as [w|].
  - destruct Hw as [h Hw]. assert (size (wtxs p) = 0%nat) as Hz by lia. apply map_size_empty_iff in Hz. rewrite Hz, lookup_empty in Hw. done.
  - unfold is_exceeded, future_len in Hex. rewrite Hw, map_size_empty in Hex. change (total_size ∅) with 0 in Hex. destruct Hl.
    apply orb_true_iff in Hex as [Hex|Hex]; apply Z.ltb_lt in Hex; lia.
  - destruct Hw as [h Hw]. rewrite (fi_hash _ (pi_future _ _ I) h w Hw). assert (h ∈ dom (wtxs p)) as Hd by (apply elem_of_dom; eauto).
    destruct (removal_left (E := E) used p [h] I) as (p1 & txs1 & Hrun & I1 & HL & Hgone & Hw1 & Hr1). erewrite bind_Ok by exact Hrun. rewrite filter_one in Hw1.
    destruct (IH p1 (removed ++ txs1) I1) as (p' & txs & Hloop & I' & HL' & Hin & Hr' & Hw' & _).
    { by apply (sizes_ok_delete p p1 h); [|eauto|]. }
    { rewrite Hw1, map_size_delete_Some by eauto. lia. }
    exists p', (txs1 ++ txs). split_and!; [by rewrite app_assoc|done|by eapply left_pool_trans|done| | |unfold future_within; congruence].
    + rewrite Hr'. apply Hr1. pose proof (queues_disjoint used p I). set_solver.
    + etrans; [done|]. rewrite Hw1. apply delete_subseteq.
  - unfold is_exceeded, future_len in Hex. rewrite Hw, map_size_empty in Hex. change (total_size ∅) with 0 in Hex. destruct Hl.
    apply orb_true_iff in Hex as [Hex|Hex]; apply Z.ltb_lt in Hex; lia.
Qed.

Lemma enforce_limits_run {E} used lr lf p : limit_ok lr -> limit_ok lf -> pool_inv used p -> sizes_ok p ->
  exists p' txs, enforce_limits (E := E) lr lf p = (p', Ok txs) /\ pool_inv used p' /\ left_pool p p' txs /\ ready_within lr p' /\ future_within lf p' /\ wtxs p' ⊆ wtxs p /\
    (ready_within lr p -> future_within lf p -> p' = p /\ txs = []).
Proof.
  intros Hlr Hlf I Hs. unfold enforce_limits. erewrite bind_Ok by reflexivity.
  destruct (enforce_ready_run (E := E) used lr Hlr (size (rtxs p)) p [] I (Nat.le_refl _)) as (p1 & txs1 & Hrun & I1 & HL1 & Hin1 & Hw1 & Hid1).
  erewrite bind_Ok by exact Hrun. erewrite bind_Ok by reflexivity.
  destruct (enforce_future_run (E := E) used lf Hlf (size (wtxs p1)) p1 ([] ++ txs1) I1) as (p' & txs & Hrun2 & I' & HL' & Hin' & Hr' & Hw' & Hid'); [|done|].
  { unfold sizes_ok. by rewrite Hw1. }
  exists p', (txs1 ++ txs). split_and!; [done|done|by eapply left_pool_trans| |done|by rewrite <-Hw1|].
  - unfold ready_within. destruct (same_len (pool_ready p1) (pool_ready p')) as [-> ->]; [apply I1|apply I'|done|done].
  - intros Hr Hf. destruct (Hid1 Hr) as [-> ->]. destruct (Hid' Hf) as [-> ->]. done.
Qed.

(** ** Pruning *)

Lemma pruning_ready used (s s' : ReadyTransactions Hash Ex) tags D stack h : ready_inv used s -> pruning s tags D stack s' -> h ∈ D -> is_Some (index (ready s) !! h).
Proof.
  intros I Pr Hh. destruct (pr_reach _ _ _ _ _ Pr h Hh) as (r & tg & _ & Hr & Hrtc). inversion Hrtc as [|? y ? (t & ? & ? & Ht & _)]; subst; [|eauto].
  apply (rg_provided _ _ _ (ri_graph _ _ I)) in Hr as (t & Ht & _). eauto.
Qed.

(** The ready transactions [s] after [tags] were pruned from [s0]: without
    [txs], which are the providers of the tags and others that lead to them. *)
Record pruned_ready (s0 : ReadyTransactions Hash Ex) (tags : list Tag) (txs : list Tx) s : Prop := {
  pt_refs h : tx_ref <$> index (ready s) !! h = if decide (h ∈ thashes txs) then None else tx_ref <$> index (ready s0) !! h;
  pt_provided tag h : provided_tags s !! tag = Some h <-> provided_tags s0 !! tag = Some h /\ (h ∉ thashes txs);
  pt_done tag : tag ∈ tags -> provided_tags s !! tag = None;
  pt_reach h : h ∈ thashes txs -> exists tag h', tag ∈ tags /\ provided_tags s0 !! tag = Some h' /\ rtc (leads (index (ready s0))) h h' }.

Lemma pruned_ready_leads s0 tags txs s d e : pruned_ready s0 tags txs s -> rtc (leads (index (ready s))) d e -> rtc (leads (index (ready s0))) d e.
Proof.
  intros Pt. assert (forall h t, index (ready s) !! h = Some t -> exists t0, index (ready s0) !! h = Some t0 /\ tx_ref t = tx_ref t0) as Hr.
  { intros h t Ht. pose proof (pt_refs _ _ _ _ Pt h) as Href. rewrite Ht in Href. case_decide; [done|].
    destruct (index (ready s0) !! h) as [t0|]; [|done]. exists t0. split; [done|]. simpl in Href. congruence. }
  apply rtc_subrel. intros x y (tx & ty & tag & Hx & Hy & Hp & Hq). apply Hr in Hx as (tx0 & Hx & Ex0), Hy as (ty0 & Hy & Ey0).
  exists tx0, ty0, tag. unfold tx_of in *. by rewrite <-Ex0, <-Ey0.
Qed.

Lemma pruned_ready_step used s0 tags txs s tag D s' : ready_inv used s -> pruned_ready s0 tags txs s -> pruning s [tag] D [] s' ->
  pruned_ready s0 (tags ++ [tag]) (txs ++ omap (fun h => tx_of <$> index (ready s) !! h) D) s'.
Proof.
  intros I Pt Pr. assert (thashes (txs ++ omap (fun h => tx_of <$> index (ready s) !! h) D) = thashes txs ∪ list_to_set D) as Heq.
  { rewrite fmap_app, list_to_set_app_L, (removed_hashes used); [done|done|]. intros h. by eapply pruning_ready. }
  split; rewrite ?Heq.
  - intros h. rewrite (pr_refs _ _ _ _ _ Pr), (pt_refs _ _ _ _ Pt). repeat case_decide; set_solver.
  - intros tag' h. rewrite (pr_provided _ _ _ _ _ Pr), (pt_provided _ _ _ _ Pt). set_solver.
  - intros tag' [Hin| ->%list_elem_of_singleton]%elem_of_app.
    + destruct (provided_tags s' !! tag') as [h|] eqn:Hp; [|done]. apply (pr_provided _ _ _ _ _ Pr) in Hp as [Hp _]. by rewrite (pt_done _ _ _ _ Pt) in Hp.
    + destruct (pr_tags _ _ _ _ _ Pr tag ltac:(set_solver)); [done|set_solver].
  - intros h [Hh|Hh%elem_of_list_to_set]%elem_of_union.
    + destruct (pt_reach _ _ _ _ Pt h Hh) as (tag' & h' & ? & ? & ?). exists tag', h'. split_and!; [set_solver|done..].
    + destruct (pr_reach _ _ _ _ _ Pr h Hh) as (h' & tag' & ->%list_elem_of_singleton & Hp & Hrtc). exists tag, h'.
      split_and!; [set_solver|by apply (pt_provided _ _ _ _ Pt) in Hp as [? _]|by eapply pruned_ready_leads].
Qed.

(** The pool while [tags] are pruned: the transactions [ws] left the queue of
    waiting ones, [txs] the ready ones. *)
Record pruned_pool used p tags ws (txs : list Tx) p' : Prop := {
  pp_inv : pool_inv used p';
  pp_import : importable used p' ws;
  pp_size : (size (wtxs p') + length ws)%nat = size (wtxs p);
  pp_waiting : dom (wtxs p) = dom (wtxs p') ∪ whashes ws;
  pp_old h w' : wtxs p' !! h = Some w' -> exists w, wtxs p !! h = Some w /\ kept_waiting w w';
  pp_id : insertion_id (pool_ready p') = insertion_id (pool_ready p);
  pp_ready : dom (rtxs p') ∪ thashes txs = dom (rtxs p);
  pp_pruned : pruned_ready (pool_ready p) tags txs (pool_ready p');
  pp_missing h w' tag : wtxs p' !! h = Some w' -> tag ∈ tags -> tag ∉ missing_tags w';
  pp_recent : recently_pruned p' = <[recently_pruned_index p := list_to_set tags]> (recently_pruned p);
  pp_index : recently_pruned_index p' = ((recently_pruned_index p + 1) mod RECENTLY_PRUNED_TAGS)%nat;
  pp_reject : reject_future_transactions p' = reject_future_transactions p }.

Lemma alter_insert_same {A} (f : A -> A) (x : A) (l : list A) (i : nat) : alter f i (<[i := x]> l) = <[i := f x]> l.
Proof. revert i. induction l as [|y l IH]; intros [|i]; simpl; [done..|]. f_equal. apply IH. Qed.

(** One tag of the loop of [prune_tags]. *)
Lemma prune_one_tag {E} used p0 p tags ws txs tag : pool_inv used p0 -> pruned_pool used p0 tags ws txs p ->
  exists f' us r' l, satisfy_tags (E := E) [tag] (pool_future p) = (f', Ok us) /\ ready_prune_tags (E := E) tag (pool_ready p) = (r', Ok l) /\
    pruned_pool used p0 (tags ++ [tag]) (ws ++ us) (txs ++ l) (with_pruned (alter (fun set => {[tag]} ∪ set) (recently_pruned_index p0)) (recently_pruned_index p) (with_pool_ready r' (with_future f' p))).
Proof.
  intros I0 P. pose proof (pp_inv _ _ _ _ _ _ P) as I.
  destruct (satisfy_tags_run (E := E) [tag] (pool_future p) (pi_future _ _ I)) as (f' & us & Hsat & S).
  destruct (ready_prune_tags_run (E := E) used tag (pool_ready p) (pi_ready _ _ I)) as (r' & D & Hpr & Ir & Pr).
  exists f', us, r', (omap (fun h => tx_of <$> rtxs p !! h) D). split_and!; [done|done|].
  destruct (satisfy_importable used p _ ws f' us I (pp_import _ _ _ _ _ _ P) S) as (I1 & Im1 & Hm & Hf & Hdom).
  pose proof (satisfied_size _ _ _ _ (pi_future _ _ I) S) as Hsz.
  assert (pool_inv used (with_pool_ready r' (with_future f' p))) as I2.
  { apply shrink_ready_inv; [done|done|]. intros tg h Hp. by apply (pr_provided _ _ _ _ _ Pr) in Hp as [Hp _]. }
  assert (forall h, h ∈ D -> is_Some (rtxs p !! h)) as HD.
  { intros h. by eapply pruning_ready; [apply I|]. }
  split; simpl.
  - destruct I2. split; try done. simpl in *. rewrite length_alter. done.
  - eapply importable_perm; [apply Permutation_app_comm|]. split; [apply Im1|apply Im1].
  - rewrite length_app. pose proof (pp_size _ _ _ _ _ _ P). lia.
  - rewrite (pp_waiting _ _ _ _ _ _ P), Hdom, fmap_app, list_to_set_app_L. clear. set_solver.
  - intros h w' (w1 & Hw1 & Heq)%Hf. apply (pp_old _ _ _ _ _ _ P) in Hw1 as (w0 & Hw0 & Heq'). eauto.
  - rewrite (pr_id _ _ _ _ _ Pr). apply P.
  - rewrite fmap_app, list_to_set_app_L, (removed_hashes used) by (apply I || done). rewrite <-(pp_ready _ _ _ _ _ _ P).
    enough (dom (index (ready r')) ∪ list_to_set D = dom (rtxs p)) as Heq by (rewrite <-Heq; clear; set_solver).
    apply set_eq. intros h. rewrite elem_of_union, elem_of_list_to_set, !elem_of_dom. pose proof (pr_refs _ _ _ _ _ Pr h) as Hr.
    rewrite <-(fmap_is_Some tx_ref (index (ready r') !! h)), Hr. case_decide as Hd; [pose proof (HD h Hd); naive_solver|]. rewrite fmap_is_Some. tauto.
  - eapply pruned_ready_step; [apply I|apply P|done].
  - intros h w' tag' Hw' [Hin| ->%list_elem_of_singleton]%elem_of_app; [|intros Ht; by apply (Hm h w' tag Hw' Ht), elem_of_list_to_set, list_elem_of_singleton].
    apply Hf in Hw' as (w0 & Hw0 & _ & Hsub). pose proof (pp_missing _ _ _ _ _ _ P h w0 tag' Hw0 Hin). set_solver.
  - rewrite (pp_recent _ _ _ _ _ _ P). simpl. rewrite alter_insert_same. f_equal. rewrite list_to_set_app_L. set_solver.
  - apply P.
  - apply P.
Qed.

Lemma pruned_pool_start used p : pool_inv used p ->
  pruned_pool used p [] [] [] (with_pruned <[recently_pruned_index p := ∅]> ((recently_pruned_index p + 1) mod RECENTLY_PRUNED_TAGS) p).
Proof.
  intros I. split; cbn [with_pruned pool_future pool_ready].
  - destruct I. split; try done. cbn [with_pruned recently_pruned recently_pruned_index]. rewrite length_insert. split; [naive_solver|by apply Nat.mod_upper_bound].
  - split; [constructor|set_solver].
  - cbn [length]. lia.
  - set_solver.
  - eauto.
  - done.
  - set_solver.
  - split; set_solver.
  - set_solver.
  - done.
  - done.
  - done.
Qed.

Lemma shrunk_trans n1 n2 used1 p1 used2 p2 used3 p3 : n1 ## n2 -> shrunk n1 used1 p1 used2 p2 -> shrunk n2 used2 p2 used3 p3 -> shrunk (n1 ∪ n2) used1 p1 used3 p3.
Proof.
  intros Hd S1 S2. assert (dom (wtxs p2) ⊆ dom (wtxs p1)) as Hw.
  { intros h [w Hw]%elem_of_dom. apply (sh_waiting _ _ _ _ _ S1) in Hw as (w0 & Hw0 & _). apply elem_of_dom. eauto. }
  destruct (sh_used _ _ _ _ _ S1) as [Ha Hb], (sh_used _ _ _ _ _ S2) as [Hc He]. split.
  - apply S2.
  - split; [by etrans|]. intros h Hh. apply He in Hh. rewrite !elem_of_union in Hh. rewrite !elem_of_union. specialize (Hw h). destruct Hh as [[Hh|Hh]|Hh]; [|tauto|tauto].
    apply Hb in Hh. rewrite !elem_of_union in Hh. tauto.
  - intros h Hh. apply (sh_all _ _ _ _ _ S2) in Hh. rewrite !elem_of_union in Hh. rewrite !elem_of_union. destruct Hh as [Hh|Hh]; [|tauto].
    rewrite <-elem_of_union in Hh. apply (sh_all _ _ _ _ _ S1) in Hh. rewrite !elem_of_union in Hh. tauto.
  - pose proof (sh_ids _ _ _ _ _ S1). pose proof (sh_ids _ _ _ _ _ S2). rewrite size_union by done. lia.
  - rewrite (sh_reject _ _ _ _ _ S2). apply S1.
  - intros h w' (w & Hw' & Heq)%(sh_waiting _ _ _ _ _ S2). apply (sh_waiting _ _ _ _ _ S1) in Hw' as (w0 & Hw0 & Heq'). eauto.
Qed.

(** The transactions that pruning made ready are imported one after another. *)
Lemma import_each_run {E} used p ws local : pool_inv used p -> importable used p ws -> ids_left p (size (wtxs p) + length ws) ->
  exists p' used' local', fold_each (E := E) (fun local tx =>
      catch (import_to_ready tx)
        (fun res => mret (local.1 ++ [res], local.2))
        (fun _ => mret (local.1, local.2 ++ [hash (transaction tx)]))) local ws p = (p', Ok local') /\
    shrunk (whashes ws) used p used' p' /\ same_config p p' /\
    (length local'.1 + length local'.2 = length local.1 + length local.2 + length ws)%nat.
Proof.
  revert used p local. induction ws as [|w ws IH]; intros used p local I Im Hid.
  { exists p, used, local. split_and!; [done|by apply shrunk_refl|done|simpl; lia]. }
  pose proof (im_nodup _ _ _ Im) as Hnd. rewrite fmap_cons in Hnd. apply NoDup_cons in Hnd as [Hw Hnd].
  destruct (import_to_ready_run used p w I) as (p1 & used1 & res & Hrun & Sh & Hcfg & Hrep).
  { split; [apply NoDup_singleton|]. intros w' ->%list_elem_of_singleton. apply Im. set_solver. }
  { unfold ids_left in *. simpl in Hid. lia. }
  assert (importable used1 p1 ws) as Im1.
  { split; [done|]. intros w' Hw'. destruct (im_each _ _ _ Im w' ltac:(set_solver)) as (Hm & Hu & Hn & Hv).
    assert (whash w' <> whash w) as Hne by (intros Heq; apply Hw, list_elem_of_fmap; eauto). split_and!; [done| | |done].
    - intros Hin. apply (sh_used _ _ _ _ _ Sh) in Hin. rewrite !elem_of_union, elem_of_singleton in Hin. destruct Hin as [[?|Hd]|?]; [done| |done].
      by apply not_elem_of_dom in Hn.
    - destruct (wtxs p1 !! whash w') as [w1|] eqn:Hw1; [|done]. apply (sh_waiting _ _ _ _ _ Sh) in Hw1 as (w0 & Hw0 & _). congruence. }
  assert (ids_left p1 (size (wtxs p1) + length ws)) as Hid1.
  { pose proof (sh_ids _ _ _ _ _ Sh) as Hle. rewrite size_singleton in Hle. unfold ids_left in *. simpl in Hid. lia. }
  assert (whashes (w :: ws) = {[whash w]} ∪ whashes ws) as -> by by rewrite fmap_cons, list_to_set_cons.
  assert ({[whash w]} ## whashes ws) as Hdj by (apply disjoint_singleton_l; by rewrite elem_of_list_to_set).
  cbn [fold_each]. destruct res as [res|e|]; [| |done].
  - destruct (IH used1 p1 (local.1 ++ [res], local.2) (sh_inv _ _ _ _ _ Sh) Im1 Hid1) as (p' & used' & local' & Hloop & Sh' & Hcfg' & Hlen).
    exists p', used', local'. split_and!; [|by eapply shrunk_trans|by eapply same_config_trans|simpl in Hlen |- *; rewrite length_app in Hlen; simpl in Hlen; lia]. erewrite bind_Ok by (unfold catch; rewrite Hrun; reflexivity). done.
  - destruct (IH used1 p1 (local.1, local.2 ++ [whash w]) (sh_inv _ _ _ _ _ Sh) Im1 Hid1) as (p' & used' & local' & Hloop & Sh' & Hcfg' & Hlen).
    exists p', used', local'. split_and!; [|by eapply shrunk_trans|by eapply same_config_trans|simpl in Hlen |- *; rewrite length_app in Hlen; simpl in Hlen; lia]. erewrite bind_Ok by (unfold catch; rewrite Hrun; reflexivity). done.
Qed.

Lemma prune_each_run {E} used p0 : pool_inv used p0 -> forall tags done p ws txs, pruned_pool used p0 done ws txs p ->
  exists p' ws' txs', fold_each (E := E) (fun local tag =>
      unlocked ← on_future (satisfy_tags [tag]);
      l ← on_ready (ready_prune_tags tag);
      next ← gets recently_pruned_index;
      _ ← modify (with_pruned (alter (fun set => {[tag]} ∪ set) (recently_pruned_index p0)) next);
      mret (local.1 ++ unlocked, local.2 ++ l)) (ws, txs) tags p = (p', Ok (ws', txs')) /\ pruned_pool used p0 (done ++ tags) ws' txs' p'.
Proof.
  intros I0. induction tags as [|tag tags IH]; intros done p ws txs P; [exists p, ws, txs; by rewrite app_nil_r|]. cbn [fold_each].
  destruct (prune_one_tag (E := E) used p0 p done ws txs tag I0 P) as (f' & us & r' & l & Hsat & Hpr & P').
  erewrite bind_Ok.
  2: { erewrite bind_Ok by (apply on_future_run; exact Hsat). erewrite bind_Ok by (apply on_ready_run; exact Hpr).
    erewrite bind_Ok by reflexivity. erewrite bind_Ok by reflexivity. reflexivity. }
  destruct (IH _ _ _ _ P') as (p' & ws' & txs' & Hrun & P2). rewrite <-app_assoc in P2. by exists p', ws', txs'.
Qed.

(** What [prune_tags] did to the pool [p]. *)
Record prune_report p (tags : list Tag) (st : PruneStatus Hash Ex) p' : Prop := {
  rp_recent : recently_pruned p' = <[recently_pruned_index p := list_to_set tags]> (recently_pruned p);
  rp_index : recently_pruned_index p' = ((recently_pruned_index p + 1) mod RECENTLY_PRUNED_TAGS)%nat;
  rp_providers tag h : tag ∈ tags -> provided p !! tag = Some h -> h ∈ thashes (ps_pruned st);
  rp_reach h : h ∈ thashes (ps_pruned st) -> exists tag h', tag ∈ tags /\ provided p !! tag = Some h' /\ rtc (leads (rtxs p)) h h';
  rp_gone h : h ∈ thashes (ps_pruned st) -> h ∉ dom (rtxs p') ∪ dom (wtxs p');
  rp_missing h w tag : wtxs p' !! h = Some w -> tag ∈ tags -> tag ∉ missing_tags w;
  rp_rest : ps_promoted st = [] -> ps_failed st = [] ->
    forall h, tx_ref <$> rtxs p' !! h = if decide (h ∈ thashes (ps_pruned st)) then None else tx_ref <$> rtxs p !! h }.

Lemma prune_reported used p tags ws txs p1 used' p' pr fl : pool_inv used p -> pruned_pool used p tags ws txs p1 ->
  shrunk (whashes ws) used p1 used' p' -> same_config p1 p' -> (pr = [] -> fl = [] -> p' = p1) -> prune_report p tags (mkPruneStatus pr fl txs) p'.
Proof.
  intros I P Sh Hcfg Hsame. pose proof (pp_pruned _ _ _ _ _ _ P) as Pt. split; cbn [ps_pruned ps_promoted ps_failed].
  - rewrite (sc_pruned _ _ Hcfg). apply P.
  - rewrite (sc_index _ _ Hcfg). apply P.
  - intros tag h Htag Hp. destruct (decide (h ∈ thashes txs)); [done|].
    assert (provided p1 !! tag = Some h) as Hc by by apply (pt_provided _ _ _ _ Pt). by rewrite (pt_done _ _ _ _ Pt tag Htag) in Hc.
  - apply Pt.
  - intros h Hh Hin%(sh_all _ _ _ _ _ Sh). assert (h ∈ dom (rtxs p)) as Hr by (rewrite <-(pp_ready _ _ _ _ _ _ P); set_solver).
    pose proof (queues_disjoint used p I) as Hdj. rewrite (pp_waiting _ _ _ _ _ _ P) in Hdj.
    assert (h ∈ dom (rtxs p1)) as [t Ht]%elem_of_dom by (clear -Hin Hr Hdj; set_solver).
    pose proof (pt_refs _ _ _ _ Pt h) as Href. by rewrite Ht, decide_True in Href.
  - intros h w tag (w0 & Hw0 & _ & Hsub)%(sh_waiting _ _ _ _ _ Sh) Htag. pose proof (pp_missing _ _ _ _ _ _ P h w0 tag Hw0 Htag). set_solver.
  - intros Hp Hf. rewrite Hsame by done. apply Pt.
Qed.

Lemma prune_tags_run {E} used p tags : pool_inv used p -> ids_left p (size (wtxs p)) ->
  exists p' used' st, prune_tags (E := E) tags p = (p', Ok st) /\ shrunk ∅ used p used' p' /\ prune_report p tags st p'.
Proof.
  intros I Hid. unfold prune_tags. rewrite (bind_Ok get _ p p p) by reflexivity. cbv zeta. destruct (pi_pruned _ _ I) as [Hlen Hix].
  destruct (lookup_lt_is_Some_2 (recently_pruned p) (recently_pruned_index p)) as [X HX]; [rewrite Hlen; done|].
  erewrite bind_Ok by (rewrite HX; reflexivity). erewrite bind_Ok by reflexivity.
  destruct (prune_each_run (E := E) used p I tags [] _ [] [] (pruned_pool_start used p I)) as (p1 & ws & txs & Hrun & P).
  erewrite bind_Ok by exact Hrun. cbn beta iota.
  destruct (import_each_run (E := E) used p1 ws ([], []) (pp_inv _ _ _ _ _ _ P) (pp_import _ _ _ _ _ _ P)) as (p' & used' & [pr fl] & Hrun2 & Sh & Hcfg & Hcount).
  { unfold ids_left in *. rewrite (pp_size _ _ _ _ _ _ P), (pp_id _ _ _ _ _ _ P). done. }
  erewrite bind_Ok by exact Hrun2. exists p', used'. eexists. split; [reflexivity|]. split.
  2: { eapply prune_reported; [done..|]. intros -> ->. destruct ws; [|done]. simpl in Hrun2. by injection Hrun2. }
  pose proof (pp_waiting _ _ _ _ _ _ P) as Hw. destruct (sh_used _ _ _ _ _ Sh) as [Hu1 Hu2]. split.
  - apply Sh.
  - split; [done|]. rewrite Hw. clear -Hu2. set_solver.
  - pose proof (sh_all _ _ _ _ _ Sh) as Ha. pose proof (pp_ready _ _ _ _ _ _ P) as Hr. rewrite Hw, <-Hr. clear -Ha. set_solver.
  - pose proof (sh_ids _ _ _ _ _ Sh) as Hi. rewrite (size_list_to_set (C := gset Hash)), length_fmap in Hi by apply (pp_import _ _ _ _ _ _ P).
    rewrite (pp_id _ _ _ _ _ _ P) in Hi. rewrite size_empty. pose proof (pp_size _ _ _ _ _ _ P). lia.
  - rewrite (sh_reject _ _ _ _ _ Sh). apply P.
  - intros h w' (w1 & Hw1 & Heq)%(sh_waiting _ _ _ _ _ Sh). apply (pp_old _ _ _ _ _ _ P) in Hw1 as (w0 & Hw0 & Heq'). eauto.
Qed.
End pool_spec.
