(* ===== verification/TxPoolReach.v ===== *)
(** * The transaction pool over all executions

    Any sequence of operations of the pool, from an empty pool, with the
    restriction that a hash that a ready transaction still lists among those it
    unlocks is not imported again: the properties of the pool, and witnesses.  The examples at the end show what
    goes wrong without the restriction, and other departures of the code from
    its documentation. *)

From Stdlib Require Import ZArith Lia Sorted.
From stdpp Require Import gmap fin_maps fin_sets option list relations.
From S2P Require Import Prelude TxPool TxQueues TxReady TxIter TxPoolSpec.

Local Open Scope Z_scope.

Section pool_reach.
Context {OC : OverflowChecks} {Hash Ex : Type} `{HashOrder Hash} `{!HashOrder Tag}.
Abbreviation Tx := (Transaction Hash Ex).
Abbreviation Pool := (BasePool Hash Ex).
Abbreviation Error := (PoolError Hash).
Implicit Types p : Pool.

Abbreviation rtxs p := (index (ready (pool_ready p))).
Abbreviation wtxs p := (waiting (pool_future p)).
Abbreviation provided p := (provided_tags (pool_ready p)).
Abbreviation thashes l := (list_to_set (hash <$> l) : gset Hash).
Abbreviation id_of t := (ref_insertion_id (tx_ref t)).

Inductive PoolOp : Type :=
| ImportTx (tx : Tx) (now : Z)
| RemoveSubtree (hashes : list Hash)
| PruneTags (tags : list Tag)
| EnforceLimits (ready_limit future_limit : Limit)
| ClearFuture.

Definition run_op (op : PoolOp) : M Pool Error unit :=
  match op with
  | ImportTx tx now => _ ← import tx now; mret tt
  | RemoveSubtree hashes => _ ← remove_subtree hashes; mret tt
  | PruneTags tags => _ ← prune_tags tags; mret tt
  | EnforceLimits lr lf => _ ← enforce_limits lr lf; mret tt
  | ClearFuture => _ ← clear_future; mret tt
  end.

(** A transaction may be imported if its tags are sound, and its hash is in the
    pool or no ready transaction lists it as unlocked; there must be insertion
    ids left, and the sizes of the encodings must fit the address space. *)
Definition op_allowed (op : PoolOp) p : Prop :=
  match op with
  | ImportTx tx now => tx_valid tx /\ 0 <= tx_bytes tx /\ (hash tx ∈ named p -> hash tx ∈ dom (rtxs p) ∪ dom (wtxs p)) /\ ids_left p (size (wtxs p) + 1)
  | PruneTags tags => ids_left p (size (wtxs p))
  | EnforceLimits lr lf => limit_ok lr /\ limit_ok lf /\ total_size (wtxs p) < 2 ^ 64
  | RemoveSubtree _ | ClearFuture => True
  end.

(** The pools reached. *)
Inductive pool_reach : Pool -> Prop :=
| pool_start reject : pool_reach (BasePool_new reject)
| pool_step p op p' r : pool_reach p -> op_allowed op p -> run_op op p = (p', r) -> pool_reach p'.

Definition pool_sound p : Prop :=
  pool_inv (named p) p /\ forall h w, wtxs p !! h = Some w -> 0 <= tx_bytes (transaction w).

Lemma shrunk_sound new used p used' p' : pool_sound p -> shrunk new used p used' p' -> pool_sound p'.
Proof.
  intros [_ Hn] S. split; [by eapply pool_inv_named, S|]. intros h w (w0 & Hw0 & -> & _)%(sh_waiting _ _ _ _ _ S). by eapply Hn.
Qed.

Lemma import_sound p tx now : pool_sound p -> op_allowed (ImportTx tx now) p ->
  exists p' r, import tx now p = (p', r) /\ r <> Panic /\ pool_sound p' /\ import_report tx p p' r /\
    dom (rtxs p') ∪ dom (wtxs p') ⊆ dom (rtxs p) ∪ dom (wtxs p) ∪ {[hash tx]}.
Proof.
  intros [I Hn] (Hv & Hb & Hnew & Hid).
  destruct (pool_import_run (named p) p tx now I Hv) as (p' & used' & r & Hrun & I' & _ & _ & Hin & Hwt & Hrep); [|done|].
  { intros Hn'. specialize (Hnew Hn'). apply elem_of_union in Hnew as [|Hd]; [done|]. apply elem_of_dom in Hd as [w Hd]. by apply (pi_new _ _ I) in Hd. }
  exists p', r. split_and!; [done| | |done|done].
  - intros ->. by destruct Hrep as (_ & _ & []).
  - split; [by eapply pool_inv_named|]. intros h w [->|(w0 & Hw0 & ->)]%Hwt; [done|by eapply Hn].
Qed.

Lemma enforce_sound lr lf p : pool_sound p -> op_allowed (EnforceLimits lr lf) p ->
  exists p' txs, enforce_limits (E := Error) lr lf p = (p', Ok txs) /\ pool_sound p' /\ left_pool p p' txs /\ ready_within lr p' /\ future_within lf p' /\
    (ready_within lr p -> future_within lf p -> p' = p /\ txs = []).
Proof.
  intros [I Hn] (Hlr & Hlf & Hsz).
  destruct (enforce_limits_run (E := Error) (named p) lr lf p Hlr Hlf I (conj Hn Hsz)) as (p' & txs & Hrun & I' & HL & Hwr & Hwf & Hsub & Hid).
  exists p', txs. split_and!; [done| |done..]. split; [by eapply pool_inv_named|]. intros h w Hh. eapply Hn, lookup_weaken; done.
Qed.

Lemma clear_sound p : pool_sound p -> pool_sound (with_future dflt p).
Proof.
  intros [I _]. split; [|intros h w Hh; simpl in Hh; by rewrite lookup_empty in Hh]. eapply (pool_inv_named (named p)).
  destruct I. split; simpl; try done; try (intros *; by rewrite lookup_empty). apply future_inv_default.
Qed.

Lemma pool_step_sound p op : pool_sound p -> op_allowed op p ->
  exists p' r, run_op op p = (p', r) /\ r <> Panic /\ pool_sound p'.
Proof.
  intros Hs Ha. destruct op as [tx now|hs|tags|lr lf|]; cbn [run_op].
  - destruct (import_sound p tx now Hs Ha) as (p' & [a|e|] & Hrun & Hp & Hs' & _); [| |done].
    + eexists p', _. split_and!; [by erewrite bind_Ok by exact Hrun|done|done].
    + eexists p', _. split_and!; [by erewrite bind_Err by exact Hrun|done|done].
  - destruct (remove_subtree_pool_run (E := Error) _ p hs (proj1 Hs)) as (p' & txs & D & Hrun & S & _). eexists p', _.
    split_and!; [by erewrite bind_Ok by exact Hrun|done|exact (shrunk_sound _ _ _ _ _ Hs S)].
  - destruct (prune_tags_run (E := Error) _ p tags (proj1 Hs) Ha) as (p' & used' & st & Hrun & S & _). eexists p', _.
    split_and!; [by erewrite bind_Ok by exact Hrun|done|exact (shrunk_sound _ _ _ _ _ Hs S)].
  - destruct (enforce_sound lr lf p Hs Ha) as (p' & txs & Hrun & Hs' & _). eexists p', _. split_and!; [by erewrite bind_Ok by exact Hrun|done..].
  - eexists (with_future dflt p), _. split_and!; [reflexivity|done|by apply clear_sound].
Qed.

Lemma pool_new_sound reject : pool_sound (BasePool_new reject).
Proof. split; [eapply pool_inv_named, pool_inv_new|]. intros h w Hh. simpl in Hh. by rewrite lookup_empty in Hh. Qed.

Lemma pool_reach_sound p : pool_reach p -> pool_sound p.
Proof.
  induction 1 as [reject|p op p' r _ IH Ha Hrun]; [apply pool_new_sound|].
  destruct (pool_step_sound p op IH Ha) as (p1 & r1 & Hrun1 & _ & Hs). rewrite Hrun in Hrun1. by injection Hrun1 as -> ->.
Qed.

(** C5. Over every sequence of imports, removals, prunings, enforced limits and
    cleared queues that [op_allowed] admits, no assertion of the pool fails: the
    next operation does not panic, no transaction is in both queues, the table
    of provided tags names for each tag the one ready transaction that provides
    it, and a transaction waits in the future queue only for tags it requires
    and no ready transaction provides, and for at least one.  A transaction may
    be imported if it provides no tag twice and requires none that it provides
    (else the pool panics: [self_requirement_panics], [duplicate_tag_panics]),
    if its hash is in the pool already or no ready transaction lists it as
    unlocked (the code does not delist a transaction that leaves while its
    provider stays: [reimported_order]), its size is not negative and an
    insertion id below 2^64 is left; limits are not negative, and the sum of
    the sizes waiting when they are enforced is below 2^64. *)
Theorem transaction_pool_safe p : pool_reach p ->
  (forall op, op_allowed op p -> (run_op op p).2 <> Panic) /\
  dom (rtxs p) ## dom (wtxs p) /\
  (forall tag h, provided p !! tag = Some h <-> exists t, rtxs p !! h = Some t /\ tag ∈ provides (tx_of t)) /\
  (forall h w, wtxs p !! h = Some w -> missing_tags w <> ∅ /\
     forall tag, tag ∈ missing_tags w -> tag ∈ requires (transaction w) /\ forall h' t, rtxs p !! h' = Some t -> tag ∉ provides (tx_of t)).
Proof.
  intros Hr. pose proof (pool_reach_sound p Hr) as Hs. pose proof (proj1 Hs) as I. pose proof (ri_graph _ _ (pi_ready _ _ I)) as G. split_and!.
  - intros op Ha. destruct (pool_step_sound p op Hs Ha) as (p' & r & -> & Hp & _). done.
  - by eapply queues_disjoint.
  - apply G.
  - intros h w Hw. split; [by apply (fi_missing _ (pi_future _ _ I) h)|]. intros tag Ht. destruct (pi_missing _ _ I h w tag Hw Ht) as [Hreq Hnone].
    split; [done|]. intros h' t Ht' Hin. rewrite (provider_of G tag h' t Ht' Hin) in Hnone. done.
Qed.



(** [remove_subtree] removes exactly the given transactions and the ready
    ones that depend on them, directly or not, and returns them. *)
Theorem remove_subtree_spec p hashes : pool_reach p ->
  exists p' txs, remove_subtree (E := Error) hashes p = (p', Ok txs) /\
    (forall h, h ∈ dom (rtxs p') <-> h ∈ dom (rtxs p) /\ ~ exists r, r ∈ hashes /\ rtc (unlocking p) r h) /\
    wtxs p' = filter (fun kw => kw.1 ∉ hashes) (wtxs p) /\
    thashes txs = (dom (rtxs p) ∪ dom (wtxs p)) ∖ (dom (rtxs p') ∪ dom (wtxs p')).
Proof.
  intros Hr. destruct (pool_reach_sound p Hr) as [I _]. set (used := named p) in *. pose proof (ri_graph _ _ (pi_ready _ _ I)) as G.
  destruct (remove_subtree_pool_run (E := Error) used p hashes I) as (p' & txs & D & Hrun & _ & _ & (r & R & Hpr) & Hw & _).
  destruct (removal_left (E := Error) used p hashes I) as (p2 & txs2 & Hrun2 & _ & (HL & _) & _). rewrite Hrun in Hrun2. injection Hrun2 as <- <-.
  exists p', txs. split_and!; [done| |done|done]. intros h. rewrite Hpr, (rf_txs _ _ _ _ (rm_removed _ _ _ _ _ _ R)).
  assert (h ∈ dom (filter (fun kt => kt.1 ∉ D) (rtxs p)) <-> h ∈ dom (rtxs p) /\ (h ∉ D)) as ->.
  { rewrite !elem_of_dom. unfold is_Some. setoid_rewrite map_lookup_filter_Some. naive_solver. }
  split; intros [Hd Hn]; (split; [done|]); contradict Hn; apply elem_of_dom in Hd; by eapply (removed_iff used).
Qed.

(** [enforce_limits] terminates with both queues within their limits, returns
    exactly the transactions it removed, and removes nothing from a pool that is
    within the limits. *)
Theorem enforce_limits_spec p ready_limit future_limit : pool_reach p -> op_allowed (EnforceLimits ready_limit future_limit) p ->
  exists p' txs, enforce_limits (E := Error) ready_limit future_limit p = (p', Ok txs) /\ ready_within ready_limit p' /\ future_within future_limit p' /\
    thashes txs = (dom (rtxs p) ∪ dom (wtxs p)) ∖ (dom (rtxs p') ∪ dom (wtxs p')) /\
    (ready_within ready_limit p -> future_within future_limit p -> p' = p /\ txs = []).
Proof.
  intros Hr Ha. destruct (enforce_sound ready_limit future_limit p (pool_reach_sound p Hr) Ha) as (p' & txs & Hrun & _ & [HL _] & Hwr & Hwf & Hid).
  exists p', txs. done.
Qed.

(** [prune_tags] takes out of the pool the ready transactions that provide
    the tags, and besides only transactions that provide a tag required on the
    way to one of these; it remembers the tags in place of those of the round
    before last; afterwards no transaction waits for one of the tags.  If that
    made no waiting transaction ready, all other ready ones are untouched. *)
Theorem prune_tags_spec p tags : pool_reach p -> op_allowed (PruneTags tags) p ->
  exists p' st, prune_tags (E := Error) tags p = (p', Ok st) /\ prune_report p tags st p'.
Proof.
  intros Hr Ha. destruct (pool_reach_sound p Hr) as [I _]. set (used := named p) in *.
  destruct (prune_tags_run (E := Error) used p tags I Ha) as (p' & used' & st & Hrun & _ & Hrep). eauto.
Qed.

(** ** Checked executions *)

Definition tx_validb (tx : Tx) : bool := bool_decide (NoDup (provides tx)) && forallb (fun tag => bool_decide (tag ∉ requires tx)) (provides tx).

Definition op_allowedb (op : PoolOp) p : bool :=
  match op with
  | ImportTx tx now => tx_validb tx && (0 <=? tx_bytes tx) && (bool_decide (hash tx ∉ named p) || bool_decide (hash tx ∈ dom (rtxs p) ∪ dom (wtxs p))) &&
      (insertion_id (pool_ready p) + Z.of_nat (size (wtxs p) + 1) <? 2 ^ 64)
  | PruneTags tags => insertion_id (pool_ready p) + Z.of_nat (size (wtxs p)) <? 2 ^ 64
  | EnforceLimits lr lf => (0 <=? count lr) && (0 <=? total_bytes lr) && (0 <=? count lf) && (0 <=? total_bytes lf) && (total_size (wtxs p) <? 2 ^ 64)
  | RemoveSubtree _ | ClearFuture => true
  end.

Lemma op_allowedb_sound op p : op_allowedb op p = true -> op_allowed op p.
Proof.
  destruct op; cbn [op_allowedb op_allowed]; [|done|by rewrite Z.ltb_lt|unfold limit_ok; rewrite !andb_true_iff, Z.ltb_lt, !Z.leb_le; tauto|done].
  unfold tx_validb, tx_valid, ids_left. rewrite !andb_true_iff, orb_true_iff, !bool_decide_eq_true, forallb_forall, Z.leb_le, Z.ltb_lt. intros [[[[Hnd Hd] Hb] Hor] Hid].
  split_and!; [done| |done| |done].
  - intros tag Hin. apply list_elem_of_In, Hd in Hin. by apply bool_decide_eq_true in Hin.
  - intros Hin. by destruct Hor.
Qed.

Fixpoint run_ops (ops : list PoolOp) p : option Pool :=
  match ops with
  | [] => Some p
  | op :: ops => if op_allowedb op p then run_ops ops (run_op op p).1 else None
  end.

Lemma run_ops_reach ops p q : pool_reach p -> run_ops ops p = Some q -> pool_reach q.
Proof.
  revert p. induction ops as [|op ops IH]; intros p Hr Hrun; cbn [run_ops] in Hrun; [by injection Hrun as <-|].
  destruct (op_allowedb op p) eqn:Ha; [|done]. eapply IH; [|exact Hrun]. eapply pool_step; [done|by apply op_allowedb_sound|apply surjective_pairing].
Qed.

Definition pool_after (ops : list PoolOp) : Pool := default (BasePool_new false) (run_ops ops (BasePool_new false)).

Lemma pool_after_reach ops : pool_reach (pool_after ops).
Proof.
  unfold pool_after. destruct (run_ops ops (BasePool_new false)) as [q|] eqn:Hq; [|apply pool_start].
  eapply run_ops_reach; [apply pool_start|exact Hq].
Qed.
End pool_reach.

Module PoolDemo.
#[local] Instance debug_build : OverflowChecks := true.
#[local] Instance some_order K `{Countable K} : HashOrder K := {| hash_iter X := elements X; hash_iter_perm X := Permutation_refl _ |}.

Abbreviation DemoPool := (BasePool Z unit).

Definition tx (h prio : Z) (requires provides : list Tag) : Transaction Z unit := mkTransaction tt 10 h prio 64 requires provides true External.

Definition ready_hashes (p : DemoPool) : list Z := elements (dom (index (ready (pool_ready p)))).
Definition future_hashes (p : DemoPool) : list Z := elements (dom (waiting (pool_future p))).

(** The hashes that the first calls of the iterator return. *)
Definition order (p : DemoPool) : list Z := hash <$> (take_next 10 (index (ready (pool_ready p))) (pool_get p)).1.

(** 2 depends on 1, and 3 on both; 4 waits for a tag nobody provides; 6 replaces
    5. *)
Definition demo_ops : list (PoolOp (Hash := Z) (Ex := unit)) :=
  [ImportTx (tx 3 9 [[1]; [2]] [[3]]) 1; ImportTx (tx 1 5 [] [[1]]) 2; ImportTx (tx 4 7 [[99]] [[4]]) 3; ImportTx (tx 5 1 [] [[5]]) 4;
   ImportTx (tx 2 5 [[1]] [[2]]) 5; ImportTx (tx 6 8 [] [[5]]) 6].

Definition demo_pool : DemoPool := pool_after demo_ops.

Lemma demo_reach : pool_reach demo_pool.
Proof. apply pool_after_reach. Qed.

Example demo_order : order demo_pool = [6; 1; 2; 3] /\ future_hashes demo_pool = [4].
Proof. by vm_compute. Qed.

Lemma transaction_pool_safe_witness : pool_reach demo_pool /\ ready_hashes demo_pool <> [] /\ future_hashes demo_pool <> [] /\
  dom (index (ready (pool_ready demo_pool))) ## dom (waiting (pool_future demo_pool)) /\
  (run_op (ImportTx (tx 7 5 [[3]] [[7]]) 7) demo_pool).2 <> Panic.
Proof.
  destruct (transaction_pool_safe demo_pool demo_reach) as (Hop & Hdj & _).
  split; [exact demo_reach|split; [by vm_compute|split; [by vm_compute|split; [exact Hdj|]]]].
  apply Hop, op_allowedb_sound. by vm_compute.
Defined.


(** 7 has a higher priority than 6 and takes its tag. *)
Definition usurper : Transaction Z unit := tx 7 20 [] [[5]; [99]].


(** It replaces 6, and 4, which waited for its other tag, becomes ready. *)
Example import_demo : let '(p, r) := import usurper 7 demo_pool in
  (if r is Ok (ImportedReady h promoted failed removed) then (h, promoted, failed, hash <$> removed) else (0, [], [], [])) = (7, [4], [], [6]) /\
  order p = [7; 4; 1; 2; 3] /\ future_hashes p = [].
Proof. by vm_compute. Qed.

Lemma remove_subtree_spec_witness : pool_reach demo_pool /\
  exists p' txs, remove_subtree (E := PoolError Z) [2] demo_pool = (p', Ok txs) /\ waiting (pool_future p') = filter (fun kw => kw.1 ∉ [2]) (waiting (pool_future demo_pool)).
Proof.
  split; [exact demo_reach|]. destruct (remove_subtree_spec demo_pool [2] demo_reach) as (p' & txs & Hrun & _ & Hw & _).
  exists p', txs. split; [exact Hrun|exact Hw].
Defined.

Definition small : Limit := mkLimit 2 1000.

Lemma enforce_limits_spec_witness : op_allowed (EnforceLimits small small) demo_pool /\ ~ ready_within small demo_pool /\
  exists p' txs, enforce_limits (E := PoolError Z) small small demo_pool = (p', Ok txs) /\ ready_within small p' /\ future_within small p'.
Proof.
  assert (op_allowed (EnforceLimits small small) demo_pool) as Ha by (apply op_allowedb_sound; by vm_compute).
  split; [exact Ha|split; [by vm_compute|]].
  destruct (enforce_limits_spec demo_pool small small demo_reach Ha) as (p' & txs & Hrun & Hr & Hf & _).
  exists p', txs. split; [exact Hrun|split; [exact Hr|exact Hf]].
Defined.

Lemma prune_tags_spec_witness : op_allowed (PruneTags [[2]; [99]]) demo_pool /\
  exists p' st, prune_tags (E := PoolError Z) [[2]; [99]] demo_pool = (p', Ok st) /\ prune_report demo_pool [[2]; [99]] st p'.
Proof.
  assert (op_allowed (PruneTags [[2]; [99]]) demo_pool) as Ha by (apply op_allowedb_sound; by vm_compute).
  split; [exact Ha|]. exact (prune_tags_spec demo_pool [[2]; [99]] demo_reach Ha).
Defined.

(** 2 is pruned; 1, which led to it, is still needed by 3 and stays; 4 was
    waiting for the other tag. *)
Example prune_demo : let '(p, r) := prune_tags (E := PoolError Z) [[2]; [99]] demo_pool in
  (if r is Ok st then (hash <$> ps_pruned st, ps_failed st, length (ps_promoted st)) else ([], [], 0%nat)) = ([2], [], 1%nat) /\
  order p = [6; 4; 1; 3] /\ future_hashes p = [].
Proof. by vm_compute. Qed.

(** ** Where the code departs from its documentation *)

Definition import_all (txs : list (Transaction Z unit)) : M DemoPool (PoolError Z) unit := for_each (fun t => _ ← import t 0; mret tt) txs.

(** When a transaction is removed, [remove_subtree_with_tag_filter] takes from
    the list of what its provider unlocks the hash of the provider, not its own.
    Imported again, as a revalidated transaction is, it is listed twice, and
    counts as ready when one of its two requirements is satisfied: it comes
    before 2, on which it depends, and comes twice. *)
Example reimported_order :
  order (import_all [tx 1 5 [] [[1]]; tx 2 5 [] [[2]]; tx 3 9 [[1]; [2]] [[3]]] dflt).1 = [1; 2; 3] /\
  order ((_ ← import_all [tx 1 5 [] [[1]]; tx 2 5 [] [[2]]; tx 3 9 [[1]; [2]] [[3]]]; _ ← remove_subtree [3];
    import_all [tx 3 9 [[1]; [2]] [[3]]]) dflt).1 = [1; 3; 2; 3].
Proof. by vm_compute. Qed.

(** A transaction that requires and provides a tag of a transaction it replaces
    runs into the [expect] that calls every hash of [provided_tags] ready. *)
Example self_requirement_panics : (import_all [tx 1 5 [] [[1]]; tx 2 9 [[1]] [[1]]] dflt).2 = Panic.
Proof. by vm_compute. Qed.

(** A transaction that provides a tag twice fails an assertion when another of
    its tags is pruned. *)
Example duplicate_tag_panics : ((_ ← import_all [tx 1 5 [] [[1]; [2]; [2]]]; prune_tags [[1]]) dflt).2 = Panic.
Proof. by vm_compute. Qed.

(** An import that fails for its priority has already taken out of the future
    queue the transactions that its tags would have made ready: 3 is in neither
    queue, and no one is told. *)
Example failed_import_loses_future :
  let '(p, r) := import_all [tx 1 5 [] [[1]]; tx 3 9 [[2]] [[3]]; tx 2 4 [] [[1]; [2]]] dflt in
  r = Err (TooLowPriority 5 4) /\ ready_hashes p = [1] /\ future_hashes p = [].
Proof. by vm_compute. Qed.

(** The comment says that the transactions of a cycle are moved back to the
    future queue; they are dropped, also the one that was in the pool before. *)
Example cycle_drops_transactions :
  let '(p, r) := import_all [tx 2 9 [[1]] [[5]]; tx 1 5 [] [[1]; [5]]] dflt in
  r = Err CycleDetected /\ ready_hashes p = [] /\ future_hashes p = [].
Proof. by vm_compute. Qed.

(** A replacement can remove what provided its own requirement: 3 requires the
    tag of 2, which is removed with 1, and is returned all the same. *)
Example replacement_without_provider :
  let '(p, r) := import_all [tx 1 5 [] [[1]; [3]]; tx 2 5 [[1]] [[2]]; tx 3 9 [[2]] [[3]]] dflt in
  r = Ok tt /\ order p = [3] /\ provided_tags (pool_ready p) !! [2] = None.
Proof. by vm_compute. Qed.

(** A replacement can close a cycle of ready transactions, none of which is ever
    returned. *)
Example replacement_cycle :
  let '(p, r) := import_all [tx 1 5 [] [[1]]; tx 2 5 [[1]] [[2]]; tx 3 9 [[2]] [[1]]] dflt in
  r = Ok tt /\ length (ready_hashes p) = 2%nat /\ order p = [].
Proof. by vm_compute. Qed.
End PoolDemo.
