(* ===== verification/TxEvents.v ===== *)
(** * Bans and notifications of the transaction pool

    Model of the rotator, which bans transactions for a while
    ([client/transaction-pool/src/graph/rotator.rs]), of the senders of status
    events ([watcher.rs]) and of the listener that keeps a sender for each
    watched transaction ([listener.rs]), with what they promise.

    Time is an integer, in seconds.  A channel is a number; whether its receiver
    still exists when a message is sent is up to the receiver and a parameter
    ([listening]), and every attempt to send is recorded with its outcome.  The
    linked hash map is of another crate: a class with the documented behaviour
    of the methods used. *)

From Stdlib Require Import ZArith Lia.
From stdpp Require Import gmap fin_maps fin_sets option list strings.
From S2P Require Import Prelude TxPool.

Local Open Scope Z_scope.

(** ** The rotator *)

Definition EXPECTED_SIZE : Z := 2048.

Record PoolRotator (Hash : Type) `{Countable Hash} : Type := mkRotator {
  ban_time : Z;
  banned_until : gmap Hash Z }.

Arguments mkRotator {Hash _ _} ban_time banned_until.
Arguments ban_time {Hash _ _} _.
Arguments banned_until {Hash _ _} _.

Section rotator.
Context {Hash Ex : Type} `{HashOrder Hash}.
Abbreviation Rotator := (PoolRotator Hash).
Implicit Types self : Rotator.

#[export] Instance PoolRotator_default : Default Rotator := mkRotator (60 * 30) ∅.

Definition is_banned (hash : Hash) self : bool := bool_decide (is_Some (banned_until self !! hash)).

(** The loop that shrinks the table: the fuel is its size. *)
Fixpoint trim_loop (fuel : nat) (banned : gmap Hash Z) : gmap Hash Z :=
  if EXPECTED_SIZE <? Z.of_nat (size banned) then
    match fuel with
    | O => banned
    | S fuel =>
      match head (hash_iter (dom banned)) with
      | Some key => trim_loop fuel (delete key banned)
      | None => trim_loop fuel banned
      end
    end
  else banned.

Definition ban (now : Z) (hashes : list Hash) self : Rotator :=
  let banned := foldl (fun banned hash => <[hash := now + ban_time self]> banned) (banned_until self) hashes in
  mkRotator (ban_time self) (if 2 * EXPECTED_SIZE <? Z.of_nat (size banned) then trim_loop (size banned) banned else banned).

Definition ban_if_stale (now current_block : Z) (xt : Transaction Hash Ex) self : bool * Rotator :=
  if current_block <? valid_till xt then (false, self) else (true, ban now [hash xt] self).

Definition clear_timeouts (now : Z) self : Rotator :=
  mkRotator (ban_time self) (filter (fun ht => now <= ht.2) (banned_until self)).

(** *** The size of the table *)

Lemma trim_loop_spec fuel (banned : gmap Hash Z) : (size banned <= fuel)%nat ->
  trim_loop fuel banned ⊆ banned /\ Z.of_nat (size (trim_loop fuel banned)) = Z.min EXPECTED_SIZE (Z.of_nat (size banned)).
Proof.
  revert banned. induction fuel as [|fuel IH]; intros banned Hs; cbn [trim_loop].
  - case_match eqn:Hc; [apply Z.ltb_lt in Hc; unfold EXPECTED_SIZE in Hc; lia|]. apply Z.ltb_ge in Hc. split; [done|lia].
  - case_match eqn:Hc; [|apply Z.ltb_ge in Hc; split; [done|lia]]. apply Z.ltb_lt in Hc.
    destruct (hash_iter (dom banned)) as [|key l] eqn:Hk; simpl.
    { pose proof (hash_iter_perm (dom banned)) as Hp. rewrite Hk in Hp. apply Permutation_length in Hp.
      unfold EXPECTED_SIZE in Hc. rewrite <-size_dom in Hc. unfold size, set_size in Hc. simpl in Hp, Hc. lia. }
    assert (is_Some (banned !! key)) as [t Ht].
    { apply elem_of_dom, elem_of_elements. rewrite <-hash_iter_perm, Hk. set_solver. }
    assert (size (delete key banned) = pred (size banned)) as Hd by (apply map_size_delete_Some; eauto).
    destruct (IH (delete key banned)) as [Hsub Hsz]; [lia|].
    split; [etrans; [exact Hsub|apply delete_subseteq]|]. rewrite Hsz. lia.
Qed.

Lemma ban_lookup hashes (b : gmap Hash Z) (t : Z) h :
  foldl (fun banned hash => <[hash := t]> banned) b hashes !! h = if decide (h ∈ hashes) then Some t else b !! h.
Proof.
  revert b. induction hashes as [|k l IH]; intros b; [by rewrite decide_False by set_solver|]. cbn [foldl]. rewrite IH.
  destruct (decide (h ∈ l)) as [Hl|Hl]; [by rewrite decide_True by set_solver|]. destruct (decide (h = k)) as [->|Hk].
  - by rewrite lookup_insert_eq, decide_True by set_solver.
  - by rewrite lookup_insert_ne, decide_False by set_solver.
Qed.

Lemma ban_size hashes (b : gmap Hash Z) (t : Z) :
  (size (foldl (fun banned hash => <[hash := t]> banned) b hashes) <= size b + length hashes)%nat.
Proof.
  revert b. induction hashes as [|k l IH]; intros b; simpl; [lia|]. etrans; [apply IH|]. rewrite map_size_insert. case_match; simpl; lia.
Qed.

Lemma ban_sub now hashes self h t : banned_until (ban now hashes self) !! h = Some t ->
  h ∈ hashes /\ t = now + ban_time self \/ (h ∉ hashes) /\ banned_until self !! h = Some t.
Proof.
  intros Hh. assert (foldl (fun banned hash => <[hash := now + ban_time self]> banned) (banned_until self) hashes !! h = Some t) as Hl.
  { unfold ban in Hh. simpl in Hh. case_match; [|done]. eapply lookup_weaken; [exact Hh|]. by apply trim_loop_spec. }
  rewrite ban_lookup in Hl. case_decide; [left|right]; split; congruence.
Qed.

(** Unless the table was too large the hashes are banned, and no other. *)
Lemma ban_banned now hashes self h : Z.of_nat (size (banned_until self)) + Z.of_nat (length hashes) <= 2 * EXPECTED_SIZE ->
  is_banned h (ban now hashes self) = true <-> h ∈ hashes \/ is_banned h self = true.
Proof.
  intros Hs. unfold is_banned, ban. simpl. rewrite !bool_decide_eq_true. case_match eqn:Hc.
  - exfalso. apply Z.ltb_lt in Hc. pose proof (ban_size hashes (banned_until self) (now + ban_time self)). lia.
  - rewrite ban_lookup. case_decide; naive_solver.
Qed.
End rotator.

(** ** Senders *)

Inductive TransactionStatus (Hash BlockHash : Type) : Type :=
| FutureStatus
| ReadyStatus
| BroadcastStatus (peers : list string)
| InBlockStatus (block : BlockHash)
| RetractedStatus (block : BlockHash)
| FinalityTimeoutStatus (block : BlockHash)
| FinalizedStatus (block : BlockHash)
| UsurpedStatus (by_ : Hash)
| DroppedStatus
| InvalidStatus.

Arguments FutureStatus {Hash BlockHash}.
Arguments ReadyStatus {Hash BlockHash}.
Arguments BroadcastStatus {Hash BlockHash} peers.
Arguments InBlockStatus {Hash BlockHash} block.
Arguments RetractedStatus {Hash BlockHash} block.
Arguments FinalityTimeoutStatus {Hash BlockHash} block.
Arguments FinalizedStatus {Hash BlockHash} block.
Arguments UsurpedStatus {Hash BlockHash} by_.
Arguments DroppedStatus {Hash BlockHash}.
Arguments InvalidStatus {Hash BlockHash}.

(** An attempt to send: the channel, the message, and whether it arrived. *)
Record Attempt (Hash BlockHash : Type) : Type := mkAttempt {
  channel : nat;
  message : TransactionStatus Hash BlockHash;
  arrived : bool }.

Arguments mkAttempt {Hash BlockHash} channel message arrived.
Arguments channel {Hash BlockHash} _.
Arguments message {Hash BlockHash} _.
Arguments arrived {Hash BlockHash} _.

(** Whether the receiver of a channel still exists at the [n]-th attempt. *)
Class Receivers : Type := listening : nat -> nat -> bool.

Record Sender : Type := mkSender { receivers : list nat; is_finalized : bool }.

#[export] Instance Sender_default : Default Sender := mkSender [] false.

Section sender.
Context {RX : Receivers} {Hash BlockHash : Type}.
Abbreviation Status := (TransactionStatus Hash BlockHash).
Abbreviation Channels := (list (Attempt Hash BlockHash)).
Implicit Types (self : Sender) (ch : Channels) (status : Status).

(** [Vec::retain] with the attempts to send as its predicate. *)
Fixpoint retain_send status (rs : list nat) ch : list nat * Channels :=
  match rs with
  | [] => ([], ch)
  | r :: rs =>
    let ok := listening (length ch) r in
    let '(kept, ch) := retain_send status rs (ch ++ [mkAttempt r status ok]) in
    (if ok then r :: kept else kept, ch)
  end.

Definition send status self ch : Sender * Channels :=
  let '(kept, ch) := retain_send status (receivers self) ch in (mkSender kept (is_finalized self), ch).

Definition finalize (sc : Sender * Channels) : Sender * Channels := (mkSender (receivers sc.1) true, sc.2).

(** [new_watcher]; the new channel is given. *)
Definition new_watcher (receiver : nat) self : Sender := mkSender (receivers self ++ [receiver]) (is_finalized self).

Definition sender_ready := send ReadyStatus.
Definition sender_future := send FutureStatus.
Definition sender_usurped (hash : Hash) self ch := finalize (send (UsurpedStatus hash) self ch).
Definition sender_in_block (hash : BlockHash) := send (InBlockStatus hash).
Definition sender_finalized (hash : BlockHash) self ch := finalize (send (FinalizedStatus hash) self ch).
Definition sender_finality_timeout (hash : BlockHash) self ch := finalize (send (FinalityTimeoutStatus hash) self ch).
Definition sender_retracted (hash : BlockHash) := send (RetractedStatus hash).
Definition sender_invalid self ch := finalize (send InvalidStatus self ch).
Definition sender_dropped self ch := finalize (send DroppedStatus self ch).
Definition sender_broadcast (peers : list string) := send (BroadcastStatus peers).

Definition is_done self : bool := is_finalized self || bool_decide (receivers self = []).
End sender.

(** ** The listener *)

(** Rust's [linked_hash_map::LinkedHashMap]: a map whose items have the order of
    insertion; changing the value of a key does not move it. *)
Fixpoint upsert {K V} `{EqDecision K} (k : K) (v : V) (f : V -> V) (l : list (K * V)) : list (K * V) :=
  match l with
  | [] => [(k, f v)]
  | (k', v') :: l => if decide (k' = k) then (k', f v') :: l else (k', v') :: upsert k v f l
  end.

Fixpoint assoc {K V} `{EqDecision K} (k : K) (l : list (K * V)) : option V :=
  match l with
  | [] => None
  | (k', v) :: l => if decide (k' = k) then Some v else assoc k l
  end.

Class LinkedHashMap (K V T : Type) `{EqDecision K} : Type := {
  lhm_items : T -> list (K * V);
  lhm_default : T;
  lhm_len : T -> Z;
  lhm_entry : K -> V -> (V -> V) -> T -> T;
  lhm_pop_front : T -> option (K * V) * T;
  lhm_remove : K -> T -> option V * T;
  lhm_items_default : lhm_items lhm_default = [];
  lhm_len_items m : lhm_len m = Z.of_nat (length (lhm_items m));
  lhm_items_entry k v f m : lhm_items (lhm_entry k v f m) = upsert k v f (lhm_items m);
  lhm_items_pop m : (lhm_pop_front m).1 = head (lhm_items m) /\ lhm_items (lhm_pop_front m).2 = tail (lhm_items m);
  lhm_items_remove k m : (lhm_remove k m).1 = assoc k (lhm_items m) /\ lhm_items (lhm_remove k m).2 = filter (fun kv => kv.1 <> k) (lhm_items m) }.

Definition MAX_FINALITY_WATCHERS : Z := 512.

(** [next_channel] numbers the channels, [channels] records what was sent. *)
Record Listener (Hash BlockHash T : Type) `{Countable Hash} : Type := mkListener {
  watchers : gmap Hash Sender;
  finality_watchers : T;
  next_channel : nat;
  channels : list (Attempt Hash BlockHash) }.

Arguments mkListener {Hash BlockHash T _ _} watchers finality_watchers next_channel channels.
Arguments watchers {Hash BlockHash T _ _} _.
Arguments finality_watchers {Hash BlockHash T _ _} _.
Arguments next_channel {Hash BlockHash T _ _} _.
Arguments channels {Hash BlockHash T _ _} _.

Section listener.
Context {RX : Receivers} {Hash BlockHash T : Type} `{Countable Hash} `{LinkedHashMap BlockHash (list Hash) T}.
Abbreviation Listen := (Listener Hash BlockHash T).
Abbreviation Channels := (list (Attempt Hash BlockHash)).
Implicit Types self : Listen.

#[export] Instance Listener_default : Default Listen := mkListener ∅ lhm_default 0 [].

Definition with_watchers (f : gmap Hash Sender -> gmap Hash Sender) self : Listen :=
  mkListener (f (watchers self)) (finality_watchers self) (next_channel self) (channels self).
Definition with_channels (ch : Channels) self : Listen :=
  mkListener (watchers self) (finality_watchers self) (next_channel self) ch.
Definition with_finality (fw : T) self : Listen :=
  mkListener (watchers self) fw (next_channel self) (channels self).

Definition fire (hash : Hash) (fun_ : Sender -> Channels -> Sender * Channels) self : Listen :=
  match watchers self !! hash with
  | Some h =>
    let '(h, ch) := fun_ h (channels self) in
    let self := with_channels ch (with_watchers <[hash := h]> self) in
    if is_done h then with_watchers (delete hash) self else self
  | None => self
  end.

(** The receiver of a watcher is its channel. *)
Definition create_watcher (hash : Hash) self : nat * Listen :=
  let receiver := next_channel self in
  let sender := default dflt (watchers self !! hash) in
  (receiver, mkListener (<[hash := new_watcher receiver sender]> (watchers self)) (finality_watchers self) (S receiver) (channels self)).

Definition broadcasted (hash : Hash) (peers : list string) self : Listen := fire hash (sender_broadcast peers) self.

Definition listener_ready (tx : Hash) (old : option Hash) self : Listen :=
  let self := fire tx sender_ready self in
  match old with Some old => fire old (sender_usurped tx) self | None => self end.

Definition listener_future (tx : Hash) self : Listen := fire tx sender_future self.

Definition listener_dropped (tx : Hash) (by_ : option Hash) self : Listen :=
  fire tx (match by_ with Some t => sender_usurped t | None => sender_dropped end) self.

Definition listener_invalid (tx : Hash) self : Listen := fire tx sender_invalid self.

(** The loop of [pruned]: each round takes a block out of [finality_watchers],
    so that their number is enough fuel. *)
Fixpoint timeout_loop (fuel : nat) self : Listen :=
  if MAX_FINALITY_WATCHERS <? lhm_len (finality_watchers self) then
    match fuel with
    | O => self
    | S fuel =>
      let '(front, fw) := lhm_pop_front (finality_watchers self) in
      let self := with_finality fw self in
      timeout_loop fuel
        (match front with
         | Some (hash, txs) => foldl (fun self tx => fire tx (sender_finality_timeout hash) self) self txs
         | None => self
         end)
    end
  else self.

Definition listener_pruned (block_hash : BlockHash) (tx : Hash) self : Listen :=
  let self := fire tx (sender_in_block block_hash) self in
  let self := with_finality (lhm_entry block_hash [] (fun txs => txs ++ [tx]) (finality_watchers self)) self in
  timeout_loop (Z.to_nat (lhm_len (finality_watchers self))) self.

Definition listener_retracted (block_hash : BlockHash) self : Listen :=
  let '(removed, fw) := lhm_remove block_hash (finality_watchers self) in
  let self := with_finality fw self in
  match removed with
  | Some hashes => foldl (fun self hash => fire hash (sender_retracted block_hash) self) self hashes
  | None => self
  end.

Definition listener_finalized (block_hash : BlockHash) self : Listen :=
  let '(removed, fw) := lhm_remove block_hash (finality_watchers self) in
  let self := with_finality fw self in
  match removed with
  | Some hashes => foldl (fun self hash => fire hash (sender_finalized block_hash) self) self hashes
  | None => self
  end.

(** *** Channels

    A final status is the last one: after it the sender is dropped. *)

Definition final (status : TransactionStatus Hash BlockHash) : bool :=
  match status with
  | FinalityTimeoutStatus _ | FinalizedStatus _ | UsurpedStatus _ | DroppedStatus | InvalidStatus => true
  | _ => false
  end.

(** Nothing is sent after a final status, or to a receiver that is gone. *)
Definition closing (a : Attempt Hash BlockHash) : bool := final (message a) || negb (arrived a).

(** The end of a stream as the interface documents it: [Finalized] or
    [FinalityTimeout]; or its receiver has gone. *)
Definition ends_stream (a : Attempt Hash BlockHash) : bool :=
  match message a with
  | FinalizedStatus _ | FinalityTimeoutStatus _ => true
  | _ => negb (arrived a)
  end.

Lemma closing_ends a : closing a = false -> ends_stream a = false.
Proof. unfold closing, ends_stream. by destruct (message a). Qed.

(** The operations on senders: all send one status. *)
Definition sends status (f : Sender -> Channels -> Sender * Channels) : Prop :=
  forall s ch, f s ch = let '(kept, ch') := retain_send status (receivers s) ch in (mkSender kept (final status || is_finalized s), ch').

Lemma send_sends status : final status = false -> sends status (send status).
Proof. intros Hf s ch. unfold send. destruct (retain_send _ _ _). by rewrite Hf. Qed.

Lemma final_sends status : final status = true -> sends status (fun s ch => finalize (send status s ch)).
Proof. intros Hf s ch. unfold send, finalize. destruct (retain_send _ _ _). by rewrite Hf. Qed.

Lemma retain_send_spec status rs (ch : Channels) : exists new,
  retain_send status rs ch = (channel <$> filter (fun a => arrived a = true) new, ch ++ new) /\ channel <$> new = rs /\ Forall (fun a => message a = status) new.
Proof.
  revert ch. induction rs as [|r rs IH]; intros ch; cbn [retain_send]; [exists []; by rewrite app_nil_r|].
  destruct (IH (ch ++ [mkAttempt r status (listening (length ch) r)])) as (new & -> & Hc & Hm).
  exists (mkAttempt r status (listening (length ch) r) :: new). rewrite <-app_assoc, filter_cons. split_and!.
  - by destruct (listening (length ch) r).
  - by rewrite fmap_cons, Hc.
  - by constructor.
Qed.

(** What firing does to the sender and the record of what was sent. *)
Lemma fire_spec status f h self : sends status f ->
  match watchers self !! h with
  | None => fire h f self = self
  | Some s => exists new, channel <$> new = receivers s /\ Forall (fun a => message a = status) new /\
      let kept := channel <$> filter (fun a => arrived a = true) new in
      let s' := mkSender kept (final status || is_finalized s) in
      fire h f self = mkListener (if is_done s' then delete h (watchers self) else <[h := s']> (watchers self)) (finality_watchers self) (next_channel self) (channels self ++ new)
  end.
Proof.
  intros Hf. unfold fire. destruct (watchers self !! h) as [s|] eqn:Hs; [|done]. rewrite (Hf s).
  destruct (retain_send_spec status (receivers s) (channels self)) as (new & -> & Hc & Hm). exists new. split_and!; [done|done|]. cbv zeta.
  case_match; unfold with_watchers, with_channels; simpl; [by rewrite delete_insert_eq|done].
Qed.

Record listener_inv self : Prop := {
  li_live h s : watchers self !! h = Some s -> is_finalized s = false /\ receivers s <> [] /\ NoDup (receivers s);
  li_apart h s h' s' r : watchers self !! h = Some s -> watchers self !! h' = Some s' -> r ∈ receivers s -> r ∈ receivers s' -> h = h';
  li_fresh h s r : watchers self !! h = Some s -> r ∈ receivers s -> (r < next_channel self)%nat;
  li_sent a : a ∈ channels self -> (channel a < next_channel self)%nat;
  li_open h s a : watchers self !! h = Some s -> channel a ∈ receivers s -> a ∈ channels self -> closing a = false;
  li_last i j a b : (i < j)%nat -> channels self !! i = Some a -> channels self !! j = Some b -> channel a = channel b -> closing a = false }.

Lemma listener_inv_default : listener_inv dflt.
Proof. split; simpl; try (intros *; rewrite lookup_empty; done); intros *; [set_solver|by rewrite lookup_nil]. Qed.

Lemma listener_inv_finality fw self : listener_inv self -> listener_inv (with_finality fw self).
Proof. intros []. by split. Qed.

Lemma fire_inv status f h self : sends status f -> listener_inv self -> listener_inv (fire h f self).
Proof.
  intros Hf I. pose proof (fire_spec status f h self Hf) as Hfire. destruct (watchers self !! h) as [s|] eqn:Hs; [|by rewrite Hfire].
  destruct Hfire as (new & Hc & Hm & ->). cbv zeta. set (kept := channel <$> filter (fun a => arrived a = true) new).
  destruct (li_live _ I h s Hs) as (Hnf & Hne & Hnd). rewrite Hnf, orb_false_r.
  assert (forall r, r ∈ kept -> r ∈ receivers s) as Hsub.
  { intros r (a & -> & [_ Ha]%list_elem_of_filter)%list_elem_of_fmap. rewrite <-Hc. by apply list_elem_of_fmap_2. }
  assert (forall a, a ∈ new -> channel a ∈ receivers s /\ message a = status) as Hnew.
  { intros a Ha. rewrite <-Hc. split; [by apply list_elem_of_fmap_2|]. rewrite Forall_forall in Hm. by apply Hm. }
  assert (forall k sk, (if is_done (mkSender kept (final status)) then delete h (watchers self) else <[h := mkSender kept (final status)]> (watchers self)) !! k = Some sk ->
    k <> h /\ watchers self !! k = Some sk \/ k = h /\ sk = mkSender kept (final status) /\ final status = false /\ kept <> []) as Hw.
  { intros k sk. unfold is_done. simpl. destruct (final status || bool_decide (kept = [])) eqn:Hd.
    - intros [??]%lookup_delete_Some. left. done.
    - apply orb_false_iff in Hd as [? ?%bool_decide_eq_false]. intros [[<- <-]|[??]]%lookup_insert_Some; [right|left]; done. }
  split; simpl.
  - intros k sk [[_ Hk]|(-> & -> & Hfin & Hk)]%Hw; [by eapply li_live|]. split_and!; [done|done|]. simpl.
    eapply sublist_NoDup; [exact Hnd|]. rewrite <-Hc. apply fmap_sublist, sublist_filter.
  - intros k sk k' sk' r [[_ Hk]|(-> & -> & _)]%Hw [[_ Hk']|(-> & -> & _)]%Hw Hr Hr'; [by eapply (li_apart _ I k sk k' sk')| | |done].
    + by eapply (li_apart _ I k sk h s); [..|apply Hsub].
    + symmetry. by eapply (li_apart _ I k' sk' h s); [..|apply Hsub].
  - intros k sk r [[_ Hk]|(-> & -> & _)]%Hw Hr; [by eapply li_fresh|]. eapply li_fresh; [done..|]. by apply Hsub.
  - intros a [Ha|Ha]%elem_of_app; [by apply li_sent|]. eapply li_fresh; [done..|]. by apply Hnew.
  - intros k sk a Hk Hr Ha. apply Hw in Hk as [[Hne' Hk]|(-> & -> & Hfin & _)].
    + apply elem_of_app in Ha as [Ha|Ha]; [by eapply li_open|]. exfalso. apply Hne'. by eapply (li_apart _ I k sk h s); [..|apply Hnew].
    + apply elem_of_app in Ha as [Ha|Ha]; [eapply (li_open _ I h s); [done|by apply Hsub|done]|].
      simpl in Hr. apply list_elem_of_fmap in Hr as (b & Heq & [Hb Hbn]%list_elem_of_filter).
      assert (a = b) as ->. { rewrite <-Hc in Hnd. apply list_elem_of_lookup in Ha as [i Hi]. pose proof Hbn as [j Hj]%list_elem_of_lookup.
        assert (i = j) as ->; [|congruence]. eapply NoDup_lookup; [exact Hnd|rewrite list_lookup_fmap, Hi; done|rewrite list_lookup_fmap, Hj; simpl; congruence]. }
      unfold closing. destruct (Hnew b Hbn) as [_ ->]. by rewrite Hfin, Hb.
  - intros i j a b Hij Hi Hj Heq. apply lookup_app_Some in Hj as [Hj|[Hlen Hj]].
    + rewrite lookup_app_l in Hi by (apply lookup_lt_Some in Hj; lia). by eapply li_last.
    + assert (b ∈ new) as Hbn by by eapply list_elem_of_lookup_2. destruct (Hnew b Hbn) as [Hb _]. rewrite <-Heq in Hb.
      apply lookup_app_Some in Hi as [Hi|[Hlen' Hi]]; [eapply (li_open _ I h s); [done|done|by eapply list_elem_of_lookup_2]|].
      exfalso. rewrite <-Hc in Hnd. assert (i - length (channels self) = j - length (channels self))%nat; [|lia].
      eapply NoDup_lookup; [exact Hnd|rewrite list_lookup_fmap, Hi; done|rewrite list_lookup_fmap, Hj; simpl; congruence].
Qed.

(** The operations fire events, and change the blocks that wait for finality. *)
Inductive fires : Listen -> Listen -> Prop :=
| fires_refl self : fires self self
| fires_fire status f h self self' : sends status f -> fires self self' -> fires self (fire h f self')
| fires_finality fw self self' : fires self self' -> fires self (with_finality fw self').

Lemma fires_trans l1 l2 l3 : fires l1 l2 -> fires l2 l3 -> fires l1 l3.
Proof. intros H12 H23. induction H23 as [|? ? ? ? ? ? ? IH|? ? ? ? IH]; [done|eapply fires_fire; [done|by apply IH]|apply fires_finality; by apply IH]. Qed.

Lemma fires_one status f h self : sends status f -> fires self (fire h f self).
Proof. intros Hf. eapply fires_fire; [done|apply fires_refl]. Qed.

Lemma fires_foldl {A} (f : Listen -> A -> Listen) l self : (forall self x, fires self (f self x)) -> fires self (foldl f self l).
Proof. intros Hf. revert self. induction l as [|x l IH]; intros self; simpl; [apply fires_refl|]. eapply fires_trans; [apply Hf|apply IH]. Qed.

Lemma fires_inv self self' : fires self self' -> listener_inv self -> listener_inv self'.
Proof. induction 1; [done|by eauto using fire_inv|by eauto using listener_inv_finality]. Qed.

(** Each receiver of a sender is still served, or it was sent a last status. *)
Record advances self self' : Prop := {
  ad_channels : exists new, channels self' = channels self ++ new;
  ad_next : next_channel self' = next_channel self;
  ad_none h : watchers self !! h = None -> watchers self' !! h = None;
  ad_kept h s r : watchers self !! h = Some s -> r ∈ receivers s ->
    (exists s', watchers self' !! h = Some s' /\ r ∈ receivers s') \/
    exists a, a ∈ drop (length (channels self)) (channels self') /\ channel a = r /\ closing a = true }.

Lemma advances_refl self : advances self self.
Proof. split; [exists []; by rewrite app_nil_r|done|done|eauto]. Qed.

Lemma advances_trans l1 l2 l3 : advances l1 l2 -> advances l2 l3 -> advances l1 l3.
Proof.
  intros A1 A2. destruct (ad_channels _ _ A1) as [n1 Hc1], (ad_channels _ _ A2) as [n2 Hc2]. split.
  - exists (n1 ++ n2). by rewrite Hc2, Hc1, app_assoc.
  - rewrite (ad_next _ _ A2). apply A1.
  - intros h Hh. by apply A2, A1.
  - intros h s r Hs Hr. rewrite Hc2, Hc1, <-app_assoc, drop_app_length. destruct (ad_kept _ _ A1 h s r Hs Hr) as [(s' & Hs' & Hr')|(a & Ha & ?)].
    + destruct (ad_kept _ _ A2 h s' r Hs' Hr') as [?|(a & Ha & ?)]; [by left|right]. rewrite Hc2, drop_app_length in Ha. exists a. set_solver.
    + right. rewrite Hc1, drop_app_length in Ha. exists a. set_solver.
Qed.

Lemma fire_advances status f h self : sends status f -> listener_inv self -> advances self (fire h f self).
Proof.
  intros Hf I. pose proof (fire_spec status f h self Hf) as Hfire. destruct (watchers self !! h) as [s|] eqn:Hs; [|rewrite Hfire; apply advances_refl].
  destruct Hfire as (new & Hc & Hm & ->). cbv zeta. split; simpl; [eauto|done| |].
  - intros k Hk. assert (k <> h) by congruence. case_match; [by rewrite lookup_delete_ne|by rewrite lookup_insert_ne].
  - intros k sk r Hk Hr. destruct (decide (k = h)) as [->|Hne].
    2: { left. exists sk. split; [|done]. case_match; [by rewrite lookup_delete_ne|by rewrite lookup_insert_ne]. }
    assert (sk = s) as -> by congruence. rewrite drop_app_length. rewrite <-Hc in Hr. apply list_elem_of_fmap in Hr as (a & -> & Ha).
    pose proof (proj1 (Forall_forall _ _) Hm a Ha) as Hst. destruct (closing a) eqn:Hcl; [right; eauto|left]. unfold closing in Hcl. rewrite Hst in Hcl.
    apply orb_false_iff in Hcl as [Hfin Har%negb_false_iff].
    assert (channel a ∈ channel <$> filter (fun a => arrived a = true) new) as Hin by (apply list_elem_of_fmap_2, list_elem_of_filter; done).
    destruct (li_live _ I h s Hs) as [-> _]. unfold is_done. simpl. rewrite Hfin, bool_decide_false by (intros Hnil; rewrite Hnil in Hin; set_solver). simpl.
    rewrite lookup_insert_eq. eauto.
Qed.

Lemma fires_advances self self' : fires self self' -> listener_inv self -> advances self self'.
Proof.
  intros Hs I. induction Hs as [self|status f h self self' Hf Hs IH|fw self self' Hs IH]; [apply advances_refl| |].
  - eapply advances_trans; [by apply IH|]. eapply fire_advances; [done|by eapply fires_inv].
  - specialize (IH I). destruct IH. by split.
Qed.

(** A final status removes the sender, and nothing but a new watcher brings it
    back. *)
Lemma fire_final status f h self : sends status f -> final status = true -> watchers (fire h f self) !! h = None.
Proof.
  intros Hf Hfin. pose proof (fire_spec status f h self Hf) as Hfire. destruct (watchers self !! h) as [s|] eqn:Hs; [|by rewrite Hfire].
  destruct Hfire as (new & _ & _ & ->). unfold is_done. simpl. rewrite Hfin. simpl. by rewrite lookup_delete_eq.
Qed.

Lemma fire_none status f h k self : sends status f -> watchers self !! k = None -> watchers (fire h f self) !! k = None.
Proof.
  intros Hf Hk. pose proof (fire_spec status f h self Hf) as Hfire. destruct (watchers self !! h) as [s|] eqn:Hs; [|by rewrite Hfire].
  destruct Hfire as (new & _ & _ & ->). assert (h <> k) by congruence. simpl. case_match; [by rewrite lookup_delete_ne|by rewrite lookup_insert_ne].
Qed.

Lemma fires_none self self' k : fires self self' -> watchers self !! k = None -> watchers self' !! k = None.
Proof. induction 1; [done|eauto using fire_none|done]. Qed.

Hint Resolve send_sends final_sends fires_refl fires_one : core.

Lemma broadcasted_fires h peers self : fires self (broadcasted h peers self).
Proof. eapply fires_one, send_sends; done. Qed.

Lemma ready_fires tx old self : fires self (listener_ready tx old self).
Proof.
  unfold listener_ready. assert (fires self (fire tx sender_ready self)) as Hf by (eapply fires_one, send_sends; done).
  destruct old; [|done]. eapply fires_trans; [exact Hf|]. eapply fires_one, final_sends; done.
Qed.

Lemma future_fires tx self : fires self (listener_future tx self).
Proof. eapply fires_one, send_sends; done. Qed.

Lemma dropped_fires tx by_ self : fires self (listener_dropped tx by_ self).
Proof. unfold listener_dropped. destruct by_; eapply fires_one, final_sends; done. Qed.

Lemma invalid_fires tx self : fires self (listener_invalid tx self).
Proof. eapply fires_one, final_sends; done. Qed.

(** Dropped and invalid transactions have no sender any more. *)
Lemma dropped_none tx by_ self : watchers (listener_dropped tx by_ self) !! tx = None.
Proof. unfold listener_dropped. destruct by_; eapply fire_final; [apply final_sends|done| apply final_sends|done]; done. Qed.

Lemma invalid_none tx self : watchers (listener_invalid tx self) !! tx = None.
Proof. eapply fire_final; [by apply final_sends|done]. Qed.

Lemma foldl_none (f : Listen -> Hash -> Listen) hs self h : (forall h self, fires self (f self h)) -> (forall self, watchers (f self h) !! h = None) ->
  h ∈ hs -> watchers (foldl f self hs) !! h = None.
Proof.
  intros Hf Hn. revert self. induction hs as [|k hs IH]; intros self Hh; [set_solver|]. simpl. apply elem_of_cons in Hh as [<-|Hh]; [|by apply IH].
  eapply fires_none; [|apply (Hn self)]. apply fires_foldl. intros. apply Hf.
Qed.

(** *** Blocks that wait for finality *)

Lemma foldl_finality {A} (f : Listen -> A -> Listen) l self : (forall self x, finality_watchers (f self x) = finality_watchers self) ->
  finality_watchers (foldl f self l) = finality_watchers self.
Proof. intros Hf. revert self. induction l as [|x l IH]; intros self; simpl; [done|]. by rewrite IH. Qed.

Lemma fire_finality h f self : finality_watchers (fire h f self) = finality_watchers self.
Proof. unfold fire. case_match; [|done]. case_match. case_match; done. Qed.

Lemma upsert_keys (k : BlockHash) (v : list Hash) f l : (upsert k v f l).*1 = if decide (k ∈ l.*1) then l.*1 else l.*1 ++ [k].
Proof.
  induction l as [|[k' v'] l IH]; [done|]. cbn [upsert]. destruct (decide (k' = k)) as [->|Hne].
  - rewrite decide_True by set_solver. done.
  - rewrite !fmap_cons, IH. simpl. repeat case_decide; set_solver.
Qed.

(** The fuel suffices: at most 512 blocks are left, the last ones. *)
Lemma timeout_loop_spec fuel self : (length (lhm_items (finality_watchers self)) <= fuel + Z.to_nat MAX_FINALITY_WATCHERS)%nat ->
  fires self (timeout_loop fuel self) /\
  lhm_items (finality_watchers (timeout_loop fuel self)) = drop (length (lhm_items (finality_watchers self)) - Z.to_nat MAX_FINALITY_WATCHERS) (lhm_items (finality_watchers self)).
Proof.
  revert self. induction fuel as [|fuel IH]; intros self Hf; cbn [timeout_loop]; rewrite lhm_len_items; case_match eqn:Hc.
  - apply Z.ltb_lt in Hc. unfold MAX_FINALITY_WATCHERS in *. lia.
  - split; [apply fires_refl|]. apply Z.ltb_ge in Hc. rewrite (proj2 (Nat.sub_0_le _ _)) by (unfold MAX_FINALITY_WATCHERS in *; lia). done.
  - apply Z.ltb_lt in Hc. pose proof (lhm_items_pop (finality_watchers self)) as [Hp1 Hp2]. destruct (lhm_pop_front (finality_watchers self)) as [front fw]. simpl in Hp1, Hp2.
    destruct (lhm_items (finality_watchers self)) as [|[b txs] l] eqn:Hit; [simpl in Hc; unfold MAX_FINALITY_WATCHERS in Hc; lia|]. simpl in Hp1, Hp2. subst front.
    set (self' := foldl (fun self tx => fire tx (sender_finality_timeout b) self) (with_finality fw self) txs).
    assert (finality_watchers self' = fw) as Hfw by (unfold self'; rewrite foldl_finality; [done|intros; apply fire_finality]).
    destruct (IH self') as [Hfires Hitems]; [rewrite Hfw, Hp2; simpl in Hf; unfold MAX_FINALITY_WATCHERS in *; lia|]. rewrite Hfw, Hp2 in Hitems. split.
    + eapply fires_trans; [apply fires_finality, fires_refl|]. eapply fires_trans; [|exact Hfires]. apply fires_foldl. intros. eapply fires_one, final_sends; done.
    + rewrite Hitems. simpl length. rewrite Nat.sub_succ_l by (simpl in Hc; unfold MAX_FINALITY_WATCHERS in *; lia). done.
  - split; [apply fires_refl|]. apply Z.ltb_ge in Hc. rewrite (proj2 (Nat.sub_0_le _ _)) by (unfold MAX_FINALITY_WATCHERS in *; lia). done.
Qed.

Lemma pruned_spec b tx self : fires self (listener_pruned b tx self) /\
  let items := upsert b [] (fun txs => txs ++ [tx]) (lhm_items (finality_watchers self)) in
  lhm_items (finality_watchers (listener_pruned b tx self)) = drop (length items - Z.to_nat MAX_FINALITY_WATCHERS) items.
Proof.
  unfold listener_pruned. set (self1 := fire tx (sender_in_block b) self). set (self2 := with_finality _ self1).
  assert (lhm_items (finality_watchers self2) = upsert b [] (fun txs => txs ++ [tx]) (lhm_items (finality_watchers self))) as Hit.
  { unfold self2. simpl. rewrite lhm_items_entry. unfold self1. by rewrite fire_finality. }
  destruct (timeout_loop_spec (Z.to_nat (lhm_len (finality_watchers self2))) self2) as [Hf Hi]; [rewrite lhm_len_items; lia|].
  split; [|rewrite Hi, Hit; done]. eapply fires_trans; [|exact Hf]. apply fires_finality. eapply fires_one, send_sends; done.
Qed.

Lemma retracted_fires b self : fires self (listener_retracted b self).
Proof.
  unfold listener_retracted. destruct (lhm_remove b (finality_watchers self)) as [[hs|] fw]; [|apply fires_finality, fires_refl].
  eapply fires_trans; [apply fires_finality, fires_refl|]. apply fires_foldl. intros. eapply fires_one, send_sends; done.
Qed.

Lemma finalized_fires b self : fires self (listener_finalized b self).
Proof.
  unfold listener_finalized. destruct (lhm_remove b (finality_watchers self)) as [[hs|] fw]; [|apply fires_finality, fires_refl].
  eapply fires_trans; [apply fires_finality, fires_refl|]. apply fires_foldl. intros. eapply fires_one, final_sends; done.
Qed.

Lemma create_watcher_inv h self : listener_inv self -> listener_inv (create_watcher h self).2.
Proof.
  intros I. unfold create_watcher. simpl.
  assert (forall k sk, (<[h := new_watcher (next_channel self) (default dflt (watchers self !! h))]> (watchers self)) !! k = Some sk ->
    is_finalized sk = false /\ receivers sk <> [] /\ NoDup (receivers sk) /\
    forall r, r ∈ receivers sk -> r = next_channel self /\ k = h \/ exists s0, watchers self !! k = Some s0 /\ r ∈ receivers s0) as Hw.
  { intros k sk [[<- <-]|[Hne Hk]]%lookup_insert_Some; [|destruct (li_live _ I k sk Hk) as (? & ? & ?); split_and!; eauto].
    unfold new_watcher. simpl. destruct (watchers self !! h) as [s|] eqn:Hs; simpl.
    - destruct (li_live _ I h s Hs) as (Hf & _ & Hnd). split_and!; [done|by destruct (receivers s)| |].
      + apply NoDup_app. split_and!; [done| |apply NoDup_singleton]. intros r Hr ->%list_elem_of_singleton. pose proof (li_fresh _ I h s _ Hs Hr). lia.
      + intros r [Hr|Hr%list_elem_of_singleton]%elem_of_app; eauto.
    - split_and!; [done|done|apply NoDup_singleton|]. intros r ->%list_elem_of_singleton. by left. }
  assert (forall k sk r, watchers self !! k = Some sk -> r ∈ receivers sk -> r <> next_channel self) as Hold.
  { intros k sk r Hk Hr ->. pose proof (li_fresh _ I k sk _ Hk Hr). lia. }
  split; simpl.
  - intros k sk (? & ? & ? & _)%Hw. done.
  - intros k sk k' sk' r (_ & _ & _ & Hr)%Hw (_ & _ & _ & Hr')%Hw Hin Hin'. destruct (Hr r Hin) as [[Heq ->]|(s0 & Hs0 & Hr0)], (Hr' r Hin') as [[Heq' ->]|(s1 & Hs1 & Hr1)].
    + done.
    + exfalso. by eapply (Hold k' s1 r).
    + exfalso. by eapply (Hold k s0 r).
    + by eapply (li_apart _ I k s0 k' s1).
  - intros k sk r (_ & _ & _ & Hr)%Hw Hin. destruct (Hr r Hin) as [[-> _]|(s0 & Hs0 & Hr0)]; [lia|]. pose proof (li_fresh _ I k s0 r Hs0 Hr0). lia.
  - intros a Ha. pose proof (li_sent _ I a Ha). lia.
  - intros k sk a (_ & _ & _ & Hr)%Hw Hin Ha. destruct (Hr _ Hin) as [[Heq _]|(s0 & Hs0 & Hr0)]; [|by eapply (li_open _ I k s0)].
    pose proof (li_sent _ I a Ha). lia.
  - apply I.
Qed.

(** *** Executions of the listener *)

Inductive ListenerOp : Type :=
| CreateWatcher (h : Hash)
| Broadcasted (h : Hash) (peers : list string)
| ReadyEvent (tx : Hash) (old : option Hash)
| FutureEvent (tx : Hash)
| DroppedEvent (tx : Hash) (by_ : option Hash)
| InvalidEvent (tx : Hash)
| PrunedEvent (block : BlockHash) (tx : Hash)
| RetractedEvent (block : BlockHash)
| FinalizedEvent (block : BlockHash).

Definition listener_step (op : ListenerOp) self : Listen :=
  match op with
  | CreateWatcher h => (create_watcher h self).2
  | Broadcasted h peers => broadcasted h peers self
  | ReadyEvent tx old => listener_ready tx old self
  | FutureEvent tx => listener_future tx self
  | DroppedEvent tx by_ => listener_dropped tx by_ self
  | InvalidEvent tx => listener_invalid tx self
  | PrunedEvent block tx => listener_pruned block tx self
  | RetractedEvent block => listener_retracted block self
  | FinalizedEvent block => listener_finalized block self
  end.

Definition run_listener (ops : list ListenerOp) : Listen := foldl (fun self op => listener_step op self) dflt ops.

(** What a listener promises. *)
Record listener_ok self : Prop := {
  lo_inv : listener_inv self;
  lo_finality : lhm_len (finality_watchers self) <= MAX_FINALITY_WATCHERS }.

Lemma listener_step_fires op self : (forall h, op <> CreateWatcher h) -> fires self (listener_step op self).
Proof.
  intros Hop. destruct op; cbn [listener_step]; [by specialize (Hop h)|..];
    eauto using broadcasted_fires, ready_fires, future_fires, dropped_fires, invalid_fires, retracted_fires, finalized_fires. apply pruned_spec.
Qed.

Lemma removed_len b (fw : T) : lhm_len (lhm_remove b fw).2 <= lhm_len fw.
Proof. rewrite !lhm_len_items, (proj2 (lhm_items_remove b fw)). pose proof (length_filter (fun kv : BlockHash * list Hash => kv.1 <> b) (lhm_items fw)). lia. Qed.

Lemma listener_step_ok op self : listener_ok self -> listener_ok (listener_step op self).
Proof.
  intros [I Hf]. split.
  - destruct op as [h| | | | | | | |]; [by apply create_watcher_inv|..]; (eapply fires_inv; [by apply listener_step_fires|done]).
  - assert (forall b self', finality_watchers self' = (lhm_remove b (finality_watchers self)).2 -> lhm_len (finality_watchers self') <= MAX_FINALITY_WATCHERS) as Hrem.
    { intros b self' ->. pose proof (removed_len b (finality_watchers self)). lia. }
    destruct op; cbn [listener_step]; unfold broadcasted, listener_ready, listener_future, listener_dropped, listener_invalid, listener_retracted, listener_finalized; try (by rewrite ?fire_finality).
    + destruct old; by rewrite ?fire_finality.
    + pose proof (pruned_spec block tx self) as [_ Hit]. cbv zeta in Hit. rewrite lhm_len_items, Hit, length_drop. unfold MAX_FINALITY_WATCHERS. lia.
    + apply (Hrem block). destruct (lhm_remove block (finality_watchers self)) as [[hs|] fw]; [rewrite foldl_finality; [done|intros; apply fire_finality]|done].
    + apply (Hrem block). destruct (lhm_remove block (finality_watchers self)) as [[hs|] fw]; [rewrite foldl_finality; [done|intros; apply fire_finality]|done].
Qed.

Lemma run_listener_ok ops : listener_ok (run_listener ops).
Proof.
  unfold run_listener. assert (listener_ok dflt) as Hd.
  { split; [apply listener_inv_default|]. simpl. rewrite lhm_len_items, lhm_items_default. done. }
  revert Hd. generalize (dflt : Listen). induction ops as [|op ops IH]; intros self Hd; [done|]. apply IH. by apply listener_step_ok.
Qed.

Lemma listener_step_kept op self h s r : listener_inv self -> watchers self !! h = Some s -> r ∈ receivers s ->
  (exists s', watchers (listener_step op self) !! h = Some s' /\ r ∈ receivers s') \/
  exists a, a ∈ drop (length (channels self)) (channels (listener_step op self)) /\ channel a = r /\ closing a = true.
Proof.
  intros I Hs Hr. destruct op as [k| | | | | | | |]; [|eapply ad_kept; [|done|done]; eapply fires_advances; [by apply listener_step_fires|done]..].
  left. simpl. destruct (decide (k = h)) as [->|Hne]; [|rewrite lookup_insert_ne by done; eauto].
  rewrite lookup_insert_eq, Hs. eexists. split; [done|]. simpl. set_solver.
Qed.

(** C12. The protocol of the status events, over every sequence of operations of
    the listener and whatever the receivers do.  On each channel nothing is sent
    after [Finalized] or [FinalityTimeout], which the interface documents as the
    end of the stream, nor after the receiver has gone; and a sender is kept
    only while neither has happened.  An operation drops a receiver only as it
    sends it one of these two, or [Usurped], [Dropped] or [Invalid], or finds
    it gone.  At most 512 blocks wait for finality.  (That the senders drop a
    receiver with the three other statuses is not what the interface documents.) *)
Theorem watch_protocol ops : let self := run_listener ops in
  (forall i j a b, (i < j)%nat -> channels self !! i = Some a -> channels self !! j = Some b -> channel a = channel b -> ends_stream a = false) /\
  (forall h s a, watchers self !! h = Some s -> channel a ∈ receivers s -> a ∈ channels self -> ends_stream a = false) /\
  (forall op h s r, watchers self !! h = Some s -> r ∈ receivers s ->
     (exists s', watchers (listener_step op self) !! h = Some s' /\ r ∈ receivers s') \/
     exists a, a ∈ drop (length (channels self)) (channels (listener_step op self)) /\ channel a = r /\
       (ends_stream a = true \/ match message a with UsurpedStatus _ | DroppedStatus | InvalidStatus => True | _ => False end)) /\
  lhm_len (finality_watchers self) <= MAX_FINALITY_WATCHERS.
Proof.
  cbv zeta. destruct (run_listener_ok ops) as [I Hf]. split_and!; [| | |done].
  - intros i j a b Hij Ha Hb Hc. apply closing_ends. by apply (li_last _ I i j a b).
  - intros h s a Hs Hr Ha. apply closing_ends. by apply (li_open _ I h s a).
  - intros op h s r Hs Hr. destruct (listener_step_kept op _ h s r I Hs Hr) as [|(a & Ha & Hc & Hcl)]; [by left|right].
    exists a. split_and!; [done|done|]. unfold closing, ends_stream in *. destruct (message a); simpl in Hcl; auto.
Qed.
End listener.
