(* ===== verification/TxValidated.v ===== *)
(** * The validated transaction pool

    Model of [client/transaction-pool/src/graph/validated_pool.rs], which puts
    the pool, the rotator and the listener together and applies the limits, and
    of [pool.rs], which validates transactions before they are submitted.

    The runtime, the chain, the clock, the receivers of import notifications and
    the test whether the node is a validator are outside: their answers are
    parameters that may change with every question ([PoolEnv]; the state counts
    the questions).  A call of an asynchronous function runs to its end: other
    calls between its suspensions are not modelled, nor are the locks. *)

From Stdlib Require Import ZArith Lia.
From stdpp Require Import gmap fin_maps fin_sets option list strings.
From S2P Require Import Prelude TxPool TxEvents.

Local Open Scope Z_scope.

(** ** What is outside *)

Record ValidTransaction : Type := mkValidTransaction {
  v_priority : Z;
  v_requires : list Tag;
  v_provides : list Tag;
  v_longevity : Z;
  v_propagate : bool }.

Inductive TransactionValidityError : Type :=
| InvalidValidity (e : InvalidTransaction)
| UnknownValidity (e : UnknownTransaction).

(** [try_send] on a bounded channel. *)
Inductive SinkResult : Type := SinkOk | SinkFull | SinkDisconnected.

(** The answers of the environment to its [n]-th question, and the conversions
    of errors.  A Rust [Result] is a sum. *)
Class PoolEnv (Hash BlockHash Ex BlockId ChainError : Type) : Type := {
  instant_now : nat -> Z;
  is_validator : nat -> bool;
  try_send : nat -> nat -> SinkResult;
  hash_and_length : Ex -> Hash * Z;
  block_id_to_number : nat -> BlockId -> option Z + ChainError;
  block_id_to_hash : nat -> BlockId -> option BlockHash + ChainError;
  validate_transaction : nat -> BlockId -> TransactionSource -> Ex -> (ValidTransaction + TransactionValidityError) + ChainError;
  from_pool_error : PoolError Hash -> ChainError;
  into_pool_error : ChainError -> PoolError Hash + ChainError }.

Inductive ValidatedTransaction (Hash Ex ChainError : Type) : Type :=
| Valid (tx : Transaction Hash Ex)
| Invalid (hash : Hash) (err : ChainError)
| Unknown (hash : Hash) (err : ChainError).

Arguments Valid {Hash Ex ChainError} tx.
Arguments Invalid {Hash Ex ChainError} hash err.
Arguments Unknown {Hash Ex ChainError} hash err.

Definition valid_at {Hash Ex ChainError} (at_ : Z) (hash : Hash) (source : TransactionSource) (data : Ex) (bytes : Z) (validity : ValidTransaction) :
    ValidatedTransaction Hash Ex ChainError :=
  Valid (mkTransaction data bytes hash (v_priority validity) (saturating_add 64 at_ (v_longevity validity))
    (v_requires validity) (v_provides validity) (v_propagate validity) source).

Record Options : Type := mkOptions {
  ready_limit : Limit;
  future_limit : Limit;
  reject_future : bool }.

#[export] Instance Options_default : Default Options :=
  mkOptions (mkLimit 8192 (20 * 1024 * 1024)) (mkLimit 512 (1 * 1024 * 1024)) false.

(** ** The state *)

(** [ticks] counts the questions to the environment. *)
Record ValidatedPool (Hash BlockHash Ex T : Type) `{Countable Hash} : Type := mkValidated {
  options : Options;
  listener : Listener Hash BlockHash T;
  pool : BasePool Hash Ex;
  import_notification_sinks : list nat;
  rotator : PoolRotator Hash;
  next_sink : nat;
  ticks : nat }.

Arguments mkValidated {Hash BlockHash Ex T _ _} options listener pool import_notification_sinks rotator next_sink ticks.
Arguments options {Hash BlockHash Ex T _ _} _.
Arguments listener {Hash BlockHash Ex T _ _} _.
Arguments pool {Hash BlockHash Ex T _ _} _.
Arguments import_notification_sinks {Hash BlockHash Ex T _ _} _.
Arguments rotator {Hash BlockHash Ex T _ _} _.
Arguments next_sink {Hash BlockHash Ex T _ _} _.
Arguments ticks {Hash BlockHash Ex T _ _} _.

(** The [Status] of [resubmit]. *)
Inductive ResubmitStatus : Type := WasFuture | WasReady | WasFailed | WasDropped.

#[export] Instance ResubmitStatus_eq_dec : EqDecision ResubmitStatus.
Proof. solve_decision. Defined.

Section validated_pool.
Context {OC : OverflowChecks} {RX : Receivers} {Hash BlockHash Ex BlockId ChainError T : Type}.
Context `{HashOrder Hash} `{!HashOrder Tag} `{LinkedHashMap BlockHash (list Hash) T} {ENV : PoolEnv Hash BlockHash Ex BlockId ChainError}.
Abbreviation Tx := (Transaction Hash Ex).
Abbreviation VTx := (ValidatedTransaction Hash Ex ChainError).
Abbreviation VPool := (ValidatedPool Hash BlockHash Ex T).
Abbreviation VM := (M VPool ChainError).
Abbreviation Listen := (Listener Hash BlockHash T).
Implicit Types self : VPool.

Definition ValidatedPool_new (options : Options) : VPool :=
  mkValidated options dflt (BasePool_new (reject_future options)) [] dflt 0 0.

Definition with_listener (l : Listen) self : VPool :=
  mkValidated (options self) l (pool self) (import_notification_sinks self) (rotator self) (next_sink self) (ticks self).
Definition with_base (p : BasePool Hash Ex) self : VPool :=
  mkValidated (options self) (listener self) p (import_notification_sinks self) (rotator self) (next_sink self) (ticks self).
Definition with_sinks (sinks : list nat) (next : nat) self : VPool :=
  mkValidated (options self) (listener self) (pool self) sinks (rotator self) next (ticks self).
Definition with_rotator (r : PoolRotator Hash) self : VPool :=
  mkValidated (options self) (listener self) (pool self) (import_notification_sinks self) r (next_sink self) (ticks self).
Definition with_ticks (n : nat) self : VPool :=
  mkValidated (options self) (listener self) (pool self) (import_notification_sinks self) (rotator self) (next_sink self) n.

(** A question to the environment. *)
Definition ask {A} (answer : nat -> A) : VM A := fun self => (with_ticks (S (ticks self)) self, Ok (answer (ticks self))).

(** [?] on a [Result] of the environment. *)
Definition try_ {A} (r : A + ChainError) : VM A := match r with inl a => mret a | inr e => throw e end.

Definition on_listener (f : Listen -> Listen) : VM unit := modify (fun self => with_listener (f (listener self)) self).

(** A call of the base pool; its errors are converted. *)
Definition on_pool {A} (m : M (BasePool Hash Ex) (PoolError Hash) A) : VM A :=
  fun self => let '(p, r) := m (pool self) in (with_base p self, map_err from_pool_error r).

Definition ban_ (hashes : list Hash) : VM unit :=
  now ← ask instant_now; modify (fun self => with_rotator (ban now hashes (rotator self)) self).

(** ** Submission *)

Definition check_is_known (tx_hash : Hash) (ignore_banned : bool) self : unit + ChainError :=
  if negb ignore_banned && is_banned tx_hash (rotator self) then inr (from_pool_error TemporarilyBanned)
  else if is_imported tx_hash (pool self) then inr (from_pool_error (AlreadyImported tx_hash))
  else inl tt.

Definition fire_events (imported : Imported Hash Ex) (l : Listen) : Listen :=
  match imported with
  | ImportedReady hash promoted failed removed =>
    let l := listener_ready hash None l in
    let l := foldl (fun l f => listener_invalid f l) l failed in
    let l := foldl (fun l r => listener_dropped (TxPool.hash r) (Some hash) l) l removed in
    foldl (fun l p => listener_ready p None l) l promoted
  | ImportedFuture hash => listener_future hash l
  end.

(** [retain_mut] on the sinks of import notifications: a full one is kept. *)
Fixpoint retain_sinks (sinks : list nat) : VM (list nat) :=
  match sinks with
  | [] => mret []
  | sink :: sinks =>
    sent ← ask (fun tick => try_send tick sink);
    kept ← retain_sinks sinks;
    mret (match sent with SinkDisconnected => kept | _ => sink :: kept end)
  end.

Definition notify_imported : VM unit :=
  sinks ← gets import_notification_sinks;
  kept ← retain_sinks sinks;
  modify (fun self => with_sinks kept (next_sink self) self).

Definition submit_one (tx : VTx) : VM Hash :=
  match tx with
  | Valid tx =>
    actionable ← (if propagate tx then mret true else ask is_validator);
    if negb actionable then throw (from_pool_error Unactionable)
    else
      now ← ask instant_now;
      imported ← on_pool (import tx now);
      _ ← (match imported with ImportedReady _ _ _ _ => notify_imported | ImportedFuture _ => mret tt end);
      _ ← on_listener (fire_events imported);
      mret (imported_hash imported)
  | Invalid hash err => _ ← ban_ [hash]; throw err
  | Unknown hash err => _ ← on_listener (listener_invalid hash); throw err
  end.

Definition vp_enforce_limits : VM (gset Hash) :=
  self ← get;
  status ← lift (status (pool self));
  let ready_limit := ready_limit (options self) in
  let future_limit := future_limit (options self) in
  if is_exceeded ready_limit (st_ready status) (st_ready_bytes status) || is_exceeded future_limit (st_future status) (st_future_bytes status) then
    txs ← on_pool (enforce_limits ready_limit future_limit);
    let removed := list_to_set (hash <$> txs) : gset Hash in
    _ ← ban_ (hash_iter removed);
    _ ← on_listener (fun l => foldl (fun l h => listener_dropped h None l) l (hash_iter removed));
    mret removed
  else mret ∅.

(** The results of the single submissions, in their order. *)
Definition submit_next (results : list (Hash + ChainError)) (tx : VTx) : VM (list (Hash + ChainError)) :=
  catch (submit_one tx) (fun hash => mret (results ++ [inl hash])) (fun e => mret (results ++ [inr e])).

Definition submit_each (txs : list VTx) : VM (list (Hash + ChainError)) := fold_each submit_next [] txs.

Definition is_imported_result (r : Hash + ChainError) : bool := match r with inl _ => true | inr _ => false end.

Definition submit (txs : list VTx) : VM (list (Hash + ChainError)) :=
  results ← submit_each txs;
  removed ← (if existsb is_imported_result results then vp_enforce_limits else mret ∅);
  mret ((fun res =>
    match res with
    | inl hash => if decide (hash ∈ removed) then inr (from_pool_error ImmediatelyDropped) else res
    | inr _ => res
    end) <$> results).

(** The watcher is its channel. *)
Definition submit_and_watch (tx : VTx) : VM nat :=
  match tx with
  | Valid tx =>
    let hash := (hash_and_length (data tx)).1 in
    watcher ← (fun self => let '(watcher, l) := create_watcher hash (listener self) in (with_listener l self, Ok watcher));
    results ← submit [Valid tx];
    result ← lift (expect (last results));
    _ ← try_ result;
    mret watcher
  | Invalid hash err => _ ← ban_ [hash]; throw err
  | Unknown _ err => throw err
  end.

(** ** Resubmission *)

(** One round of the first loop of [resubmit]: the updated transactions that are
    left, the initial statuses and the transactions to submit again. *)
Definition take_out (local : gmap Hash VTx * gmap Hash ResubmitStatus * list (Hash * VTx)) (removed_tx : Tx) :
    gmap Hash VTx * gmap Hash ResubmitStatus * list (Hash * VTx) :=
  let '(updated, initial, txs) := local in
  let removed_hash := hash removed_tx in
  let tx := match updated !! removed_hash with Some updated_tx => updated_tx | None => Valid removed_tx end in
  (delete removed_hash updated, <[removed_hash := WasReady]> initial, txs ++ [(removed_hash, tx)]).

(** Each round removes a hash from the updated transactions: the fuel is their
    number. *)
Fixpoint take_out_loop (fuel : nat) (local : gmap Hash VTx * gmap Hash ResubmitStatus * list (Hash * VTx)) :
    M (BasePool Hash Ex) (PoolError Hash) (gmap Hash ResubmitStatus * list (Hash * VTx)) :=
  match hash_iter (dom local.1.1) with
  | [] => mret (local.1.2, local.2)
  | hash :: _ =>
    match fuel with
    | O => lift Panic
    | S fuel =>
      removed ← remove_subtree [hash];
      let '(updated, initial, txs) := foldl take_out local removed in
      take_out_loop fuel (delete hash updated, initial, txs)
    end
  end.

Definition import_statuses (hash : Hash) (imported : Imported Hash Ex) (final : gmap Hash ResubmitStatus) : gmap Hash ResubmitStatus :=
  match imported with
  | ImportedReady _ promoted failed removed =>
    let final := <[hash := WasReady]> final in
    let final := foldl (fun final h => <[h := WasReady]> final) final promoted in
    let final := foldl (fun final h => <[h := WasFailed]> final) final failed in
    foldl (fun final tx => <[TxPool.hash tx := WasDropped]> final) final removed
  | ImportedFuture _ => <[hash := WasFuture]> final
  end.

(** One transaction of the second loop; the clock is read by [import]. *)
Definition put_back (final : gmap Hash ResubmitStatus) (htx : Hash * VTx) : VM (gmap Hash ResubmitStatus) :=
  let '(hash, tx) := htx in
  match tx with
  | Valid tx =>
    now ← ask instant_now;
    catch (on_pool (import tx now))
      (fun imported => mret (import_statuses hash imported final))
      (fun _ => mret (<[hash := WasFailed]> final))
  | Invalid _ _ | Unknown _ _ => mret (<[hash := WasFailed]> final)
  end.

(** [with_futures_enabled] of the base pool around the second loop. *)
Definition resubmit_final (txs : list (Hash * VTx)) : VM (gmap Hash ResubmitStatus) :=
  reject_future_transactions ← gets (fun self => reject_future_transactions (pool self));
  _ ← on_pool (modify (with_reject false));
  final ← fold_each put_back ∅ txs;
  final ← (if reject_future_transactions : bool then
             future_txs ← on_pool clear_future;
             mret (foldl (fun final tx => <[hash tx := WasDropped]> final) final future_txs)
           else mret final);
  _ ← on_pool (modify (with_reject reject_future_transactions));
  mret final.

Definition notify_status (initial final : gmap Hash ResubmitStatus) (l : Listen) (hash : Hash) : Listen :=
  match final !! hash with
  | None => l
  | Some final_status =>
    if decide (initial !! hash = Some final_status) then l
    else
      match final_status with
      | WasFuture => listener_future hash l
      | WasReady => listener_ready hash None l
      | WasDropped => listener_dropped hash None l
      | WasFailed => listener_invalid hash l
      end
  end.

Definition resubmit (updated_transactions : gmap Hash VTx) : VM unit :=
  '(initial, txs_to_resubmit) ← on_pool (take_out_loop (size updated_transactions) (updated_transactions, ∅, []));
  final ← resubmit_final txs_to_resubmit;
  on_listener (fun l => foldl (notify_status initial final) l (hash_iter (dom final))).

(** ** Removal *)

Definition remove_invalid (hashes : list Hash) : VM (list Tx) :=
  match hashes with
  | [] => mret []
  | _ =>
    _ ← ban_ hashes;
    invalid ← on_pool (remove_subtree hashes);
    _ ← on_listener (fun l => foldl (fun l tx => listener_invalid (hash tx) l) l invalid);
    mret invalid
  end.

Definition vp_prune_tags (tags : list Tag) : VM (PruneStatus Hash Ex) :=
  status ← on_pool (prune_tags tags);
  _ ← on_listener (fun l => foldl (fun l promoted => fire_events promoted l) l (ps_promoted status));
  _ ← on_listener (fun l => foldl (fun l f => listener_dropped f None l) l (ps_failed status));
  mret status.

Definition extrinsics_tags (hashes : list Hash) self : list (option (list Tag)) :=
  (fun o : option Tx => provides <$> o) <$> by_hashes hashes (pool self).

Definition fire_each (header_hash : BlockHash) (local : gset Hash * Listen) (h : Hash) : gset Hash * Listen :=
  let '(set, l) := local in
  if decide (h ∈ set) then local else ({[h]} ∪ set, listener_pruned header_hash h l).

Definition fire_pruned (at_ : BlockId) (hashes : list Hash) : VM unit :=
  found ← ask (fun tick => block_id_to_hash tick at_) ≫= try_;
  header_hash ← lift (ok_or found (from_pool_error InvalidBlockId));
  on_listener (fun l => (foldl (fire_each header_hash) (∅, l) hashes).2).

(** The transactions that [ready] returns. *)
Definition ready_list (p : BasePool Hash Ex) : list Tx :=
  (take_next (size (index (ready (pool_ready p)))) (index (ready (pool_ready p))) (pool_get p)).1.

(** The hashes of the stale transactions; they are banned. *)
Definition ban_stale (now block_number : Z) (local : PoolRotator Hash * list Hash) (tx : Tx) : PoolRotator Hash * list Hash :=
  let '(stale, rotator) := ban_if_stale now block_number tx local.1 in
  (rotator, if stale : bool then local.2 ++ [hash tx] else local.2).

Definition clear_stale (at_ : BlockId) : VM unit :=
  found ← ask (fun tick => block_id_to_number tick at_) ≫= try_;
  number ← lift (ok_or found (from_pool_error InvalidBlockId));
  let block_number := Z.min number (2 ^ 64 - 1) in
  now ← ask instant_now;
  self ← get;
  let '(rotator, to_remove) := foldl (ban_stale now block_number) (rotator self, []) (ready_list (pool self)) in
  let '(rotator, futures_to_remove) := foldl (ban_stale now block_number) (rotator, []) (futures (pool self)) in
  _ ← modify (with_rotator rotator);
  _ ← remove_invalid to_remove;
  _ ← remove_invalid futures_to_remove;
  modify (fun self => with_rotator (clear_timeouts now (TxValidated.rotator self)) self).

(** The hashes of the transactions that are invalid by now: a result is matched
    with a hash by its index. *)
Definition pruned_for_good (pruned_hashes : list Hash) (results : list (Hash + ChainError)) : res ChainError (list Hash) :=
  foldr (fun ir hashes =>
    match ir.2 with
    | inr e =>
      match into_pool_error e with
      | inl (InvalidTransactionError _) => hash ← expect (pruned_hashes !! ir.1); hashes ← hashes; mret (hash :: hashes)
      | _ => hashes
      end
    | inl _ => hashes
    end) (mret []) (imap pair results).

Definition resubmit_pruned (at_ : BlockId) (known_imported_hashes pruned_hashes : list Hash) (pruned_xts : list VTx) : VM unit :=
  _ ← lift (debug_assert (length pruned_hashes =? length pruned_xts)%nat);
  results ← submit pruned_xts;
  hashes ← lift (pruned_for_good pruned_hashes results);
  _ ← fire_pruned at_ (hashes ++ known_imported_hashes);
  clear_stale at_.

(** ** Streams and notifications *)

Definition import_notification_stream : VM nat :=
  fun self => (with_sinks (import_notification_sinks self ++ [next_sink self]) (S (next_sink self)) self, Ok (next_sink self)).

Definition on_broadcasted (propagated : gmap Hash (list string)) : VM unit :=
  on_listener (fun l => foldl (fun l hash => broadcasted hash (default [] (propagated !! hash)) l) l (hash_iter (dom propagated))).

Definition on_block_finalized (block_hash : BlockHash) : VM unit := on_listener (listener_finalized block_hash).
Definition on_block_retracted (block_hash : BlockHash) : VM unit := on_listener (listener_retracted block_hash).

Definition vp_futures self : list (Hash * Ex) := (fun tx => (hash tx, data tx)) <$> futures (pool self).

(** ** Validation *)

Inductive CheckBannedBeforeVerify : Type := CheckYes | CheckNo.

Definition hash_of (xt : Ex) : Hash := (hash_and_length xt).1.

Definition resolve_block_number (at_ : BlockId) : VM Z :=
  found ← ask (fun tick => block_id_to_number tick at_) ≫= try_;
  lift (ok_or found (from_pool_error InvalidBlockId)).

Definition verify_one (block_id : BlockId) (block_number : Z) (source : TransactionSource) (xt : Ex) (check : CheckBannedBeforeVerify) : VM (Hash * VTx) :=
  let '(hash, bytes) := hash_and_length xt in
  let ignore_banned := match check with CheckNo => true | CheckYes => false end in
  known ← gets (check_is_known hash ignore_banned);
  match known with
  | inr err => mret (hash, Invalid hash err)
  | inl _ =>
    validation_result ← ask (fun tick => validate_transaction tick block_id source xt);
    mret (hash,
      match validation_result with
      | inr e => Invalid hash e
      | inl (inl validity) =>
        match v_provides validity with
        | [] => Invalid hash (from_pool_error NoTagsProvided)
        | _ => valid_at (Z.min block_number (2 ^ 64 - 1)) hash source xt bytes validity
        end
      | inl (inr (InvalidValidity e)) => Invalid hash (from_pool_error (InvalidTransactionError e))
      | inl (inr (UnknownValidity e)) => Unknown hash (from_pool_error (UnknownTransactionError e))
      end)
  end.

(** The results of the validations, collected in a hash map. *)
Definition verify_next (at_ : BlockId) (block_number : Z) (check : CheckBannedBeforeVerify) (res : gmap Hash VTx) (sxt : TransactionSource * Ex) : VM (gmap Hash VTx) :=
  '(hash, tx) ← verify_one at_ block_number sxt.1 sxt.2 check;
  mret (<[hash := tx]> res).

Definition verify (at_ : BlockId) (xts : list (TransactionSource * Ex)) (check : CheckBannedBeforeVerify) : VM (gmap Hash VTx) :=
  block_number ← resolve_block_number at_;
  fold_each (verify_next at_ block_number check) ∅ xts.

(** [into_iter] of the map, without its keys. *)
Definition verified_txs (m : gmap Hash VTx) : list VTx := hash_values m.

Definition submit_at (at_ : BlockId) (source : TransactionSource) (xts : list Ex) : VM (list (Hash + ChainError)) :=
  validated_transactions ← verify at_ ((fun xt => (source, xt)) <$> xts) CheckYes;
  submit (verified_txs validated_transactions).

Definition resubmit_at (at_ : BlockId) (source : TransactionSource) (xts : list Ex) : VM (list (Hash + ChainError)) :=
  validated_transactions ← verify at_ ((fun xt => (source, xt)) <$> xts) CheckNo;
  submit (verified_txs validated_transactions).

Definition pool_submit_one (at_ : BlockId) (source : TransactionSource) (xt : Ex) : VM Hash :=
  results ← submit_at at_ source [xt];
  res ← lift (expect (last results));
  try_ res.

Definition pool_submit_and_watch (at_ : BlockId) (source : TransactionSource) (xt : Ex) : VM nat :=
  block_number ← resolve_block_number at_;
  '(_, tx) ← verify_one at_ block_number source xt CheckYes;
  submit_and_watch tx.

Definition prune_known (at_ : BlockId) (hashes : list Hash) : VM unit :=
  in_pool_tags ← gets (extrinsics_tags hashes);
  prune_status ← vp_prune_tags (mjoin (omap id in_pool_tags));
  fire_pruned at_ (hashes ++ (hash <$> ps_pruned prune_status)).

Definition pool_prune_tags (at_ : BlockId) (tags : list Tag) (known_imported_hashes : list Hash) : VM unit :=
  prune_status ← vp_prune_tags tags;
  _ ← ban_ known_imported_hashes;
  let pruned_hashes := hash <$> ps_pruned prune_status in
  let pruned_transactions := (fun tx => (source tx, data tx)) <$> ps_pruned prune_status in
  reverified_transactions ← verify at_ pruned_transactions CheckYes;
  resubmit_pruned at_ known_imported_hashes pruned_hashes (verified_txs reverified_transactions).

Definition prune (at_ parent : BlockId) (extrinsics : list Ex) : VM unit :=
  let in_pool_hashes := hash_of <$> extrinsics in
  in_pool_tags ← gets (extrinsics_tags in_pool_hashes);
  future_tags ← fold_each (fun future_tags '(extrinsic, in_pool_tags) =>
    match in_pool_tags with
    | Some tags => mret (future_tags ++ tags)
    | None =>
      validity ← ask (fun tick => validate_transaction tick parent InBlock extrinsic);
      mret (match validity with inl (inl validity) => future_tags ++ v_provides validity | _ => future_tags end)
    end) [] (zip extrinsics in_pool_tags);
  pool_prune_tags at_ future_tags in_pool_hashes.
End validated_pool.
