(* ===== verification/TxValidatedSpec.v ===== *)
(** * What the validated pool promises

    The validated pool keeps the invariants of the pool and of the listener, and
    tells the watchers: a transaction that leaves the pool has no sender any
    more, which by the protocol of the listener means that its watchers were
    sent a last status.  Submission enforces the limits, old transactions are
    cleared, and a transaction that is banned or known is not validated.

    As for the pool below, an import is allowed when no ready transaction still
    lists the hash among those it unlocks. *)

From Stdlib Require Import ZArith Lia.
From stdpp Require Import gmap fin_maps fin_sets option list strings relations.
From S2P Require Import Prelude TxPool TxQueues TxReady TxIter TxPoolSpec TxPoolReach TxEvents TxValidated.

Local Open Scope Z_scope.

Section validated_spec.
Context {OC : OverflowChecks} {RX : Receivers} {Hash BlockHash Ex BlockId ChainError T : Type}.
Context `{HashOrder Hash} `{!HashOrder Tag} `{LinkedHashMap BlockHash (list Hash) T} {ENV : PoolEnv Hash BlockHash Ex BlockId ChainError}.
Abbreviation Tx := (Transaction Hash Ex).
Abbreviation VTx := (ValidatedTransaction Hash Ex ChainError).
Abbreviation VPool := (ValidatedPool Hash BlockHash Ex T).
Abbreviation Listen := (Listener Hash BlockHash T).
Implicit Types self : VPool.
Implicit Types p : BasePool Hash Ex.

Abbreviation rtxs p := (index (ready (pool_ready p))).
Abbreviation wtxs p := (waiting (pool_future p)).
Abbreviation in_pool p := (dom (rtxs p) ∪ dom (wtxs p)).
Abbreviation thashes l := (list_to_set (hash <$> l) : gset Hash).

(** ** The invariant, and steps that keep it *)

Record vp_sound self : Prop := {
  vs_pool : pool_sound (pool self);
  vs_listener : listener_inv (listener self);
  vs_limits : limit_ok (ready_limit (options self)) /\ limit_ok (future_limit (options self)) }.

Record vstep self self' : Prop := {
  st_sound : vp_sound self';
  st_fires : fires (listener self) (listener self');
  st_options : options self' = options self }.

(** The transactions [S] are in the pool, or have no sender any more. *)
Definition accounted (S : gset Hash) self : Prop := forall h, h ∈ S -> h ∈ in_pool (pool self) \/ watchers (listener self) !! h = None.

Lemma vstep_refl self : vp_sound self -> vstep self self.
Proof. intros Hs. split; [done|apply fires_refl|done]. Qed.

Lemma vstep_trans s1 s2 s3 : vstep s1 s2 -> vstep s2 s3 -> vstep s1 s3.
Proof. intros [_ F1 O1] [S2 F2 O2]. split; [done|by eapply fires_trans|congruence]. Qed.

Lemma accounted_refl self : accounted (in_pool (pool self)) self.
Proof. by left. Qed.

Lemma accounted_step S s1 s2 : accounted S s1 -> vstep s1 s2 -> accounted (in_pool (pool s1)) s2 -> accounted S s2.
Proof. intros A1 V A2 h Hh. destruct (A1 h Hh) as [|Hn]; [by apply A2|right]. eapply fires_none; [apply V|done]. Qed.

Lemma accounted_mono S S' self : S ⊆ S' -> accounted S' self -> accounted S self.
Proof. intros Hs A h Hh. apply A. set_solver. Qed.

(** A step that changes neither the pool nor the listener. *)
Lemma vstep_quiet self self' : vp_sound self -> pool self' = pool self -> listener self' = listener self -> options self' = options self -> vstep self self'.
Proof. intros [] Hp Hl Ho. split; [split; by rewrite ?Hp, ?Hl, ?Ho|rewrite Hl; apply fires_refl|done]. Qed.

Lemma vstep_listener self f : vp_sound self -> fires (listener self) (f (listener self)) -> vstep self (with_listener (f (listener self)) self).
Proof. intros [] Hf. split; [split; [done|by eapply fires_inv|done]|done|done]. Qed.

Lemma vstep_base self p' : vp_sound self -> pool_sound p' -> vstep self (with_base p' self).
Proof. intros [] Hp. split; [by split|apply fires_refl|done]. Qed.

Lemma on_pool_Ok {A} (m : M (BasePool Hash Ex) (PoolError Hash) A) self p' a : m (pool self) = (p', Ok a) -> on_pool m self = (with_base p' self, Ok a).
Proof. intros Hm. unfold on_pool. by rewrite Hm. Qed.

Lemma on_pool_Err {A} (m : M (BasePool Hash Ex) (PoolError Hash) A) self p' e : m (pool self) = (p', Err e) -> on_pool m self = (with_base p' self, Err (from_pool_error e)).
Proof. intros Hm. unfold on_pool. by rewrite Hm. Qed.

(** ** Removal *)

Lemma remove_invalid_some hashes : hashes <> [] -> (remove_invalid hashes : M VPool ChainError (list Tx)) = (
  _ ← ban_ hashes;
  invalid ← on_pool (remove_subtree hashes);
  _ ← on_listener (fun l => foldl (fun l tx => listener_invalid (hash tx) l) l invalid);
  mret invalid).
Proof. by destruct hashes. Qed.

Lemma remove_invalid_run hashes self : vp_sound self ->
  exists self' txs, remove_invalid hashes self = (self', Ok txs) /\ vstep self self' /\ accounted (in_pool (pool self)) self' /\
    left_pool (pool self) (pool self') txs /\ (forall h, h ∈ hashes -> h ∉ in_pool (pool self')) /\
    wtxs (pool self') = filter (fun kw => kw.1 ∉ hashes) (wtxs (pool self)) /\
    (exists r D, removing (pool_ready (pool self)) None hashes D [] r /\ pool_ready (pool self') = r) /\
    rotator self' = (if hashes is [] then rotator self else ban (instant_now (ticks self)) hashes (rotator self)).
Proof.
  intros Hs. pose proof (vs_pool _ Hs) as [I Hn].
  destruct (remove_subtree_pool_run (E := PoolError Hash) _ (pool self) hashes I) as (p' & txs & D & Hrun & Sh & _ & (r & R & Hpr) & Hw & _).
  destruct (removal_left (E := PoolError Hash) _ (pool self) hashes I) as (p2 & txs2 & Hrun2 & _ & HL & Hgone & _). rewrite Hrun in Hrun2. injection Hrun2 as <- <-.
  destruct hashes as [|h0 hs] eqn:Hh.
  { exists self, []. split_and!; [done|by apply vstep_refl|apply accounted_refl| |set_solver| | |done].
    - split; [|done]. simpl. set_solver.
    - symmetry. apply map_filter_id. set_solver.
    - exists (pool_ready (pool self)), []. split; [|done]. by apply (removing_start (named (pool self))); [apply I|]. }
  rewrite <-Hh in *. assert (remove_invalid hashes self = (
    let self1 := with_rotator (ban (instant_now (ticks self)) hashes (rotator self)) (with_ticks (S (ticks self)) self) in
    let self2 := with_base p' self1 in
    with_listener (foldl (fun l tx => listener_invalid (hash tx) l) (listener self2) txs) self2, Ok txs)) as ->.
  { rewrite remove_invalid_some by (by rewrite Hh). erewrite bind_Ok by reflexivity. erewrite bind_Ok by (apply on_pool_Ok; exact Hrun). reflexivity. }
  cbv zeta. eexists _, txs. split; [reflexivity|].
  assert (pool_sound p') as Hp' by (eapply shrunk_sound; [exact (vs_pool _ Hs)|exact Sh]). split_and!; simpl; try done.
  - eapply vstep_trans; [apply vstep_base; [exact Hs|exact Hp']|].
    assert (fires (listener self) (foldl (fun l tx => listener_invalid (hash tx) l) (listener self) txs)) as Hf by (apply fires_foldl; intros; apply invalid_fires).
    split; [split; [done|by eapply fires_inv; [|apply Hs]|apply Hs]|done|done].
  - intros h Hin. destruct (decide (h ∈ in_pool p')) as [|Hout]; [by left|right]. simpl.
    assert (h ∈ thashes txs) as Ht by (rewrite (proj1 HL); set_solver). apply elem_of_list_to_set in Ht.
    replace (foldl (fun l tx => listener_invalid (hash tx) l) (listener self) txs) with (foldl (fun l k => listener_invalid k l) (listener self) (hash <$> txs)) by apply foldl_fmap.
    by apply (foldl_none (fun l k => listener_invalid k l)); [intros; apply invalid_fires|intros; apply invalid_none|].
  - by exists r, D.
Qed.

(** ** Submission *)

(** An import that fails with these errors may lose waiting transactions. *)
Definition losing (e : PoolError Hash) : bool := match e with TooLowPriority _ _ | CycleDetected => true | _ => false end.

(** What leaves the pool with an import is reported by it. *)
Lemma import_left tx p p' (r : res (PoolError Hash) (Imported Hash Ex)) h : import_report tx p p' r -> (forall e, r = Err e -> losing e = false) ->
  h ∈ in_pool p -> h ∉ in_pool p' ->
  exists promoted failed removed, r = Ok (ImportedReady (hash tx) promoted failed removed) /\ (h ∈ failed \/ h ∈ hash <$> removed).
Proof.
  intros Hrep Hl Hin Hout. destruct r as [[k promoted failed removed|k]|e|]; simpl in Hrep.
  - destruct Hrep as (_ & _ & -> & _ & _ & Hall%io_all). exists promoted, failed, removed. split; [done|].
    assert (h ∈ dom (rtxs p') ∪ dom (wtxs p') ∪ list_to_set failed ∪ thashes removed) as Hu by (rewrite Hall; set_solver). set_solver.
  - destruct Hrep as (_ & _ & _ & Hr & Hw). rewrite Hr, Hw in Hout. set_solver.
  - specialize (Hl e eq_refl). destruct e; simpl in Hrep, Hl; try done; try (by destruct Hrep as (_ & _ & [])).
    + by destruct Hrep as (_ & _ & ->).
    + by destruct Hrep as (_ & _ & ->).
  - by destruct Hrep as (_ & _ & []).
Qed.

Lemma import_ok_in tx p p' (imported : Imported Hash Ex) : import_report tx p p' (Ok imported) -> imported_hash imported = hash tx /\ hash tx ∈ in_pool p'.
Proof.
  destruct imported as [k promoted failed removed|k]; simpl.
  - intros (_ & _ & -> & _ & ? & _). split; [done|set_solver].
  - intros (-> & _ & _ & _ & Hw). rewrite Hw. split; [done|set_solver].
Qed.

Lemma fire_events_fires (imported : Imported Hash Ex) (l : Listen) : fires l (fire_events imported l).
Proof.
  destruct imported as [k promoted failed removed|k]; cbn [fire_events]; [|apply future_fires].
  eapply fires_trans; [|apply fires_foldl; intros; apply ready_fires]. eapply fires_trans; [|apply fires_foldl; intros; apply dropped_fires].
  eapply fires_trans; [|apply fires_foldl; intros; apply invalid_fires]. apply ready_fires.
Qed.

Lemma fire_events_none k promoted failed (removed : list Tx) (l : Listen) h : h ∈ failed \/ h ∈ hash <$> removed ->
  watchers (fire_events (ImportedReady k promoted failed removed) l) !! h = None.
Proof.
  intros Hh. cbn [fire_events]. eapply fires_none; [apply fires_foldl; intros; apply ready_fires|]. destruct Hh as [Hh|Hh].
  - eapply fires_none; [apply fires_foldl; intros; apply dropped_fires|].
    by apply (foldl_none (fun l f => listener_invalid f l)); [intros; apply invalid_fires|intros; apply invalid_none|].
  - set (l1 := foldl _ _ failed). replace (foldl (fun l r => listener_dropped (hash r) (Some k) l) l1 removed) with (foldl (fun l r => listener_dropped r (Some k) l) l1 (hash <$> removed)) by apply foldl_fmap.
    by apply (foldl_none (fun l r => listener_dropped r (Some k) l)); [intros; apply dropped_fires|intros; apply dropped_none|].
Qed.

Lemma retain_sinks_run sinks self : exists kept n, retain_sinks sinks self = (with_ticks n self, Ok kept).
Proof.
  revert self. induction sinks as [|k sinks IH]; intros self; cbn [retain_sinks]; [exists [], (ticks self); by destruct self|].
  erewrite bind_Ok by reflexivity. destruct (IH (with_ticks (S (ticks self)) self)) as (kept & n & Hrun). erewrite bind_Ok by exact Hrun.
  eexists _, n. reflexivity.
Qed.

Lemma notify_imported_run self : exists self', notify_imported self = (self', Ok tt) /\ pool self' = pool self /\ listener self' = listener self /\ options self' = options self.
Proof.
  unfold notify_imported. erewrite bind_Ok by reflexivity. destruct (retain_sinks_run (import_notification_sinks self) self) as (kept & n & Hrun).
  erewrite bind_Ok by exact Hrun. eexists. split; [reflexivity|done].
Qed.

(** The import of a valid transaction may go on. *)
Definition allowed (tx : VTx) self : Prop := match tx with Valid tx => op_allowed (ImportTx tx 0) (pool self) | _ => True end.

(** The error of a transaction that is not valid. *)
Definition refused (tx : VTx) : option ChainError := match tx with Valid _ => None | Invalid _ e | Unknown _ e => Some e end.

Lemma submit_one_run tx self : vp_sound self -> allowed tx self ->
  exists self' r, submit_one tx self = (self', r) /\ r <> Panic /\ vstep self self' /\
    (accounted (in_pool (pool self)) self' \/ exists e, r = Err (from_pool_error e) /\ losing e = true) /\
    (forall h, r = Ok h -> exists t, tx = Valid t /\ h = hash t /\ h ∈ in_pool (pool self')) /\
    (forall h, h ∈ in_pool (pool self') -> h ∈ in_pool (pool self) \/ exists t, tx = Valid t /\ hash t = h) /\
    (forall e, refused tx = Some e -> r = Err e).
Proof.
  intros Hs Ha. destruct tx as [tx|h e|h e]; cbn [submit_one].
  2: { eexists _, (Err e). split_and!; [by erewrite bind_Ok by reflexivity|done|by apply vstep_quiet|left; intros k Hk; by left|done|by left|by intros ? [= ->]]. }
  2: { eexists _, (Err e). split_and!; [by erewrite bind_Ok by reflexivity|done| | |done|by left|by intros ? [= ->]].
    - apply (vstep_listener self (listener_invalid h)); [done|apply invalid_fires].
    - left. intros k Hk. by left. }
  assert (exists b n, (if propagate tx then mret true else ask is_validator : M VPool ChainError bool) self = (with_ticks n self, Ok b)) as (b & n & Hb).
  { destruct (propagate tx); [exists true, (ticks self); by destruct self|eexists _, _; reflexivity]. }
  erewrite bind_Ok by exact Hb. assert (vstep self (with_ticks n self)) as V0 by by apply vstep_quiet.
  destruct b; cbn [negb].
  2: { eexists _, _. split_and!; [reflexivity|done|done|left; intros k Hk; by left|done|by left|done]. }
  erewrite bind_Ok by reflexivity. set (now := instant_now _). set (self1 := with_ticks _ (with_ticks n self)).
  destruct (import_sound (pool self) tx now (vs_pool _ Hs) Ha) as (p' & r & Hrun & Hpan & Hp' & Hrep & Hent).
  assert (vp_sound (with_base p' self1)) as Hs1 by (destruct Hs; by split).
  destruct r as [imported|e|]; [| |done].
  - erewrite bind_Ok by (apply on_pool_Ok; exact Hrun).
    assert (exists self2, (match imported with ImportedReady _ _ _ _ => notify_imported | ImportedFuture _ => mret tt end : M VPool ChainError unit) (with_base p' self1) = (self2, Ok tt) /\
      pool self2 = p' /\ listener self2 = listener self /\ options self2 = options self) as (self2 & Hn & Hp2 & Hl2 & Ho2).
    { destruct imported; [|eexists; split; [reflexivity|done]]. destruct (notify_imported_run (with_base p' self1)) as (self2 & ? & ? & ? & ?). exists self2. done. }
    erewrite bind_Ok by exact Hn. erewrite bind_Ok by reflexivity. eexists _, _. split; [reflexivity|]. split; [done|].
    pose proof (fire_events_fires imported (listener self)) as Hf. split_and!.
    + split; simpl; [split; simpl; rewrite ?Hp2, ?Hl2, ?Ho2; [done|by eapply fires_inv; [|apply Hs]|apply Hs]|by rewrite Hl2|done].
    + left. intros h Hin. simpl. rewrite Hp2, Hl2. destruct (decide (h ∈ in_pool p')) as [|Hout]; [by left|right].
      destruct (import_left tx (pool self) p' _ h Hrep) as (promoted & failed & removed & [= ->] & Hh); [done..|]. by apply fire_events_none.
    + intros h [= <-]. exists tx. destruct (import_ok_in tx _ p' imported Hrep) as [-> Hin]. simpl. rewrite Hp2. done.
    + intros h Hh. simpl in Hh. rewrite Hp2 in Hh. apply Hent in Hh as [?| ->%elem_of_singleton]%elem_of_union; [by left|right; eauto].
    + done.
  - erewrite bind_Err by (apply on_pool_Err; exact Hrun). eexists _, _. split_and!; [reflexivity|done| | |done| |done].
    3: { intros h Hh. apply Hent in Hh as [?| ->%elem_of_singleton]%elem_of_union; [by left|right; eauto]. }
    + split; [done|apply fires_refl|done].
    + destruct (losing e) eqn:He; [right; eauto|left]. intros h Hin. left. simpl. destruct (decide (h ∈ in_pool p')) as [|Hout]; [done|exfalso].
      destruct (import_left tx (pool self) p' _ h Hrep) as (? & ? & ? & Heq & _); [intros e' [= <-]; done|done|done|done].
Qed.

Lemma vp_enforce_limits_run self : vp_sound self -> total_size (wtxs (pool self)) < 2 ^ 64 ->
  exists self' removed, vp_enforce_limits self = (self', Ok removed) /\ vstep self self' /\ accounted (in_pool (pool self)) self' /\
    ready_within (ready_limit (options self)) (pool self') /\ future_within (future_limit (options self)) (pool self') /\
    removed = in_pool (pool self) ∖ in_pool (pool self') /\ in_pool (pool self') ⊆ in_pool (pool self).
Proof.
  intros Hs Hsz. destruct (vs_limits _ Hs) as [Hlr Hlf]. pose proof (vs_pool _ Hs) as Hp. unfold vp_enforce_limits. rewrite (bind_Ok get _ self self self) by reflexivity.
  erewrite bind_Ok by (unfold lift, status; rewrite future_bytes_run by (apply Hp || done); reflexivity). cbn [st_ready st_ready_bytes st_future st_future_bytes].
  destruct (_ || _) eqn:Hex.
  2: { apply orb_false_iff in Hex as [Hr Hf]. exists self, ∅. split_and!; [done|by apply vstep_refl|apply accounted_refl|done|done|set_solver|done]. }
  destruct (enforce_sound (ready_limit (options self)) (future_limit (options self)) (pool self) Hp ltac:(done)) as (p' & txs & Hrun & Hp' & [HL [HLr HLw]] & Hr & Hf & _).
  erewrite bind_Ok by (apply on_pool_Ok; exact Hrun). erewrite bind_Ok by reflexivity. erewrite bind_Ok by reflexivity. eexists _, (thashes txs). split; [reflexivity|].
  set (l' := foldl (fun l h => listener_dropped h None l) (listener self) (hash_iter (thashes txs))).
  assert (fires (listener self) l') as Hfl by (apply fires_foldl; intros; apply dropped_fires). split_and!; simpl; [|intros h Hh|done|done|done|clear -HLr HLw; set_solver].
  - split; [split; simpl; [done|by eapply fires_inv; [|apply Hs]|done]|done|done].
  - simpl. destruct (decide (h ∈ in_pool p')) as [|Hout]; [by left|right].
    apply (foldl_none (fun l h => listener_dropped h None l)); [intros; apply dropped_fires|intros; apply dropped_none|].
    apply elem_of_hash_iter. rewrite HL. set_solver.
Qed.

(** Each submission of a batch may go on, and the sizes of what is left waiting
    fit the address space. *)
Fixpoint batch_allowed (txs : list VTx) self : Prop :=
  match txs with
  | [] => total_size (wtxs (pool self)) < 2 ^ 64
  | tx :: txs => allowed tx self /\ batch_allowed txs (submit_one tx self).1
  end.

(** A result that may have lost waiting transactions. *)
Definition lost (r : Hash + ChainError) : Prop := exists e, r = inr (from_pool_error e) /\ losing e = true.

Definition imported_of (rs : list (Hash + ChainError)) : gset Hash := list_to_set (omap (fun r => match r with inl h => Some h | inr _ => None end) rs).

Lemma imported_of_app rs rs' : imported_of (rs ++ rs') = imported_of rs ∪ imported_of rs'.
Proof. unfold imported_of. by rewrite omap_app, list_to_set_app_L. Qed.

Lemma submit_each_run txs : forall results self, vp_sound self -> batch_allowed txs self ->
  exists self' rs, fold_each submit_next results txs self = (self', Ok (results ++ rs)) /\
    vstep self self' /\ total_size (wtxs (pool self')) < 2 ^ 64 /\ length rs = length txs /\
    (accounted (in_pool (pool self) ∪ imported_of rs) self' \/ exists r, r ∈ rs /\ lost r) /\
    (forall i h, rs !! i = Some (inl h) -> exists t, txs !! i = Some (Valid t) /\ h = hash t) /\
    (forall h, h ∈ in_pool (pool self') -> h ∈ in_pool (pool self) \/ exists t, Valid t ∈ txs /\ hash t = h) /\
    (forall i tx e, txs !! i = Some tx -> refused tx = Some e -> rs !! i = Some (inr e)).
Proof.
  induction txs as [|tx txs IH]; intros results self Hs Ha.
  { exists self, []. rewrite app_nil_r. split_and!; [done|by apply vstep_refl|done|done| |done|by left|done]. left. intros h Hh. left. unfold imported_of in Hh. set_solver. }
  destruct Ha as [Ha Hrest]. destruct (submit_one_run tx self Hs Ha) as (self1 & r & Hrun & Hpan & V1 & Hacc & Hok & Hent & Hbad). rewrite Hrun in Hrest.
  set (r1 := match r with Ok h => inl h | Err e => inr e | Panic => inr (from_pool_error Unactionable) end : Hash + ChainError).
  cbn [fold_each]. assert (submit_next results tx self = (self1, Ok (results ++ [r1]))) as Hc.
  { unfold submit_next, catch. rewrite Hrun. by destruct r. }
  erewrite bind_Ok by exact Hc. destruct (IH (results ++ [r1]) self1 (st_sound _ _ V1) Hrest) as (self' & rs & Hrun' & V2 & Hsz & Hlen & Hacc' & Hok' & Hent' & Hbad').
  exists self', (r1 :: rs). split_and!.
  - by rewrite Hrun', <-app_assoc.
  - by eapply vstep_trans.
  - done.
  - simpl. lia.
  - destruct Hacc as [Hacc|(e & -> & He)]; [|right; exists r1; split; [set_solver|by exists e]].
    destruct Hacc' as [Hacc'|(r' & Hr' & Hl)]; [|right; exists r'; split; [set_solver|done]]. left.
    assert (imported_of (r1 :: rs) = imported_of [r1] ∪ imported_of rs) as -> by apply (imported_of_app [r1]).
    intros h Hh. apply elem_of_union in Hh as [Hh|Hh].
    + apply (accounted_step (in_pool (pool self)) self1); [done|done| |done]. intros k Hk. apply Hacc'. apply elem_of_union. by left.
    + apply elem_of_union in Hh as [Hh|Hh]; [|apply Hacc'; set_solver]. apply Hacc'. apply elem_of_union. left.
      destruct r as [k|e|]; simpl in Hh; unfold imported_of in Hh; simpl in Hh; [|set_solver|done]. assert (h = k) as -> by set_solver.
      by destruct (Hok k eq_refl) as (t & _ & _ & ?).
  - intros [|i] h Hi; simpl in Hi; [|by apply Hok']. injection Hi as Hi. destruct r as [k|e|]; [|done|done]. injection Hi as ->.
    destruct (Hok h eq_refl) as (t & -> & -> & _). exists t. done.
  - intros h Hh. apply Hent' in Hh as [Hh|(t & Ht & <-)]; [|right; exists t; split; [set_solver|done]].
    apply Hent in Hh as [?|(t & -> & <-)]; [by left|right; exists t; split; [set_solver|done]].
  - intros [|i] tx' e Hi He; simpl in Hi; [|by eapply Hbad']. injection Hi as <-. unfold r1. by rewrite (Hbad e He).
Qed.

(** What a batch promises. *)
Record submit_report (txs : list VTx) (rs : list (Hash + ChainError)) self self' : Prop := {
  sr_length : length rs = length txs;
  sr_imported i h : rs !! i = Some (inl h) -> exists t, txs !! i = Some (Valid t) /\ h = hash t;
  sr_entered h : h ∈ in_pool (pool self') -> h ∈ in_pool (pool self) \/ exists t, Valid t ∈ txs /\ hash t = h;
  sr_refused i tx e : txs !! i = Some tx -> refused tx = Some e -> rs !! i = Some (inr e);
  sr_told : accounted (in_pool (pool self) ∪ imported_of rs) self' \/ exists r, r ∈ rs /\ lost r;
  sr_limits : imported_of rs <> ∅ -> ready_within (ready_limit (options self)) (pool self') /\ future_within (future_limit (options self)) (pool self') }.

Lemma imported_of_elem rs h : h ∈ imported_of rs <-> inl h ∈ rs.
Proof.
  unfold imported_of. rewrite elem_of_list_to_set, list_elem_of_omap. split; [|eauto]. intros ([k|e] & Hin & Hk); [|done]. by simplify_eq.
Qed.

Lemma submit_run txs self : vp_sound self -> batch_allowed txs self ->
  exists self' rs, submit txs self = (self', Ok rs) /\ vstep self self' /\ submit_report txs rs self self'.
Proof.
  intros Hs Ha. unfold submit. destruct (submit_each_run txs [] self Hs Ha) as (self1 & rs & Hrun & V1 & Hsz & Hlen & Hacc & Hok & Hent & Hbad).
  erewrite bind_Ok by exact Hrun. cbn [app].
  assert (exists self2 removed, (if existsb is_imported_result rs then vp_enforce_limits else mret ∅ : M VPool ChainError (gset Hash)) self1 = (self2, Ok removed) /\
    vstep self1 self2 /\ accounted (in_pool (pool self1)) self2 /\ in_pool (pool self2) ⊆ in_pool (pool self1) /\
    (imported_of rs <> ∅ -> ready_within (ready_limit (options self)) (pool self2) /\ future_within (future_limit (options self)) (pool self2)))
    as (self2 & removed & Hrun2 & V2 & Hacc2 & Hle & Hlim).
  { destruct (existsb is_imported_result rs) eqn:Hex.
    - destruct (vp_enforce_limits_run self1 (st_sound _ _ V1) Hsz) as (self2 & removed & ? & ? & ? & Hr & Hf & _ & ?). rewrite (st_options _ _ V1) in Hr, Hf. exists self2, removed. done.
    - exists self1, ∅. split_and!; [done|by apply vstep_refl, V1|apply accounted_refl|done|]. intros [h Hh]%set_choose_L. apply imported_of_elem in Hh.
      apply not_true_iff_false in Hex. exfalso. apply Hex, existsb_exists. exists (inl h). split; [by apply list_elem_of_In|done]. }
  erewrite bind_Ok by exact Hrun2. set (f := fun res : Hash + ChainError => _). eexists self2, (f <$> rs). split; [reflexivity|]. split; [by eapply vstep_trans|].
  assert (forall r h, f r = inl h -> r = inl h) as Hf by (intros [k|e] h; unfold f; [case_decide; naive_solver|done]).
  assert (imported_of (f <$> rs) ⊆ imported_of rs) as Hsub.
  { intros h. rewrite !imported_of_elem, list_elem_of_fmap. intros (r & Hr & Hin). symmetry in Hr. by apply Hf in Hr as ->. }
  split.
  - by rewrite length_fmap.
  - intros i h. rewrite list_lookup_fmap. destruct (rs !! i) as [r|] eqn:Hi; simpl; [|done]. intros [= Hr%Hf]. subst r. by apply Hok in Hi.
  - intros h Hh. by apply Hent, Hle.
  - intros i tx e Hi He. rewrite list_lookup_fmap, (Hbad i tx e Hi He). done.
  - destruct Hacc as [Hacc|(r & Hr & e & -> & He)].
    + left. apply (accounted_step _ self1); [by eapply accounted_mono; [|exact Hacc]; set_solver|done|done].
    + right. exists (inr (from_pool_error e)). split; [|by exists e]. apply list_elem_of_fmap. by exists (inr (from_pool_error e)).
  - intros Hne. apply Hlim. set_solver.
Qed.

(** ** Old transactions *)

Lemma ban_stale_spec now n l : forall (r : PoolRotator Hash) hs,
  exists r', foldl (ban_stale now n) (r, hs) l = (r', hs ++ (hash <$> filter (fun tx : Tx => valid_till tx <= n) l)).
Proof.
  induction l as [|tx l IH]; intros r hs; [exists r; by rewrite app_nil_r|]. cbn [foldl]. unfold ban_stale at 2, ban_if_stale. simpl.
  rewrite filter_cons. destruct (n <? valid_till tx) eqn:Hn.
  - apply Z.ltb_lt in Hn. rewrite decide_False by lia. apply IH.
  - apply Z.ltb_ge in Hn. rewrite decide_True by done. destruct (IH (ban now [hash tx] r) (hs ++ [hash tx])) as [r' ->]. exists r'. by rewrite <-app_assoc.
Qed.

(** What [clear_stale] leaves: at block [n], no stale transaction waits, and
    none is ready that the iterator of the pool had returned. *)
Record cleared (n : Z) self self' : Prop := {
  cl_future h w : wtxs (pool self') !! h = Some w -> n < valid_till (transaction w);
  cl_ready h t : rtxs (pool self') !! h = Some t -> valid_till (tx_of t) <= n -> tx_of t ∉ ready_list (pool self);
  cl_left h : h ∈ in_pool (pool self') -> h ∈ in_pool (pool self);
  cl_gone h : h ∈ in_pool (pool self) -> h ∉ in_pool (pool self') -> exists h', rtc (unlocking (pool self)) h' h /\
    ((exists t, rtxs (pool self) !! h' = Some t /\ valid_till (tx_of t) <= n) \/ exists w, wtxs (pool self) !! h' = Some w /\ valid_till (transaction w) <= n);
  cl_told : accounted (in_pool (pool self)) self' }.

Lemma clear_stale_unknown at_ self :
  (forall e, block_id_to_number (ticks self) at_ = inr e -> clear_stale at_ self = (with_ticks (S (ticks self)) self, Err e)) /\
  (block_id_to_number (ticks self) at_ = inl None -> clear_stale at_ self = (with_ticks (S (ticks self)) self, Err (from_pool_error InvalidBlockId))).
Proof.
  unfold clear_stale. split; [intros e Hb|intros Hb].
  - erewrite bind_Err; [reflexivity|]. erewrite bind_Ok by reflexivity. by rewrite Hb.
  - erewrite bind_Ok; [|erewrite bind_Ok by reflexivity; rewrite Hb; reflexivity]. reflexivity.
Qed.

(** What a removal takes: ready transactions that depend on those given, and
    those given that wait. *)
Lemma removal_gone p p' hashes r D h : pool_sound p -> removing (pool_ready p) None hashes D [] r -> pool_ready p' = r ->
  wtxs p' = filter (fun kw => kw.1 ∉ hashes) (wtxs p) -> h ∈ in_pool p -> h ∉ in_pool p' ->
  is_Some (rtxs p !! h) /\ (exists k, k ∈ hashes /\ rtc (unlocking p) k h) \/ h ∈ hashes /\ h ∈ dom (wtxs p).
Proof.
  intros [I _] R Hr Hw [Hin|Hin]%elem_of_union Hout; apply not_elem_of_union in Hout as [Hor How].
  - left. pose proof Hin as Hsome%elem_of_dom. split; [done|]. apply (removed_iff (named p) p hashes D r h I R Hsome).
    destruct (decide (h ∈ D)) as [|Hd]; [done|]. exfalso. apply Hor. rewrite Hr, (rf_txs _ _ _ _ (rm_removed _ _ _ _ _ _ R)).
    destruct Hsome as [t Ht]. apply elem_of_dom. exists t. by apply map_lookup_filter_Some.
  - right. split; [|done]. destruct (decide (h ∈ hashes)) as [|Hh]; [done|]. exfalso. apply How. rewrite Hw. apply elem_of_dom in Hin as [w Hin].
    apply elem_of_dom. exists w. by apply map_lookup_filter_Some.
Qed.

Lemma ready_list_ready p tx : pool_sound p -> tx ∈ ready_list p -> exists t, rtxs p !! hash tx = Some t /\ tx_of t = tx.
Proof.
  intros [I _] Hin. unfold ready_list in Hin. destruct (ready_get_run (named p) (pool_ready p) (pi_ready _ _ I)) as (l & it & Hrun & Hg & _).
  change (pool_get p) with (ready_get (pool_ready p)) in Hin. rewrite Hrun in Hin. apply list_elem_of_lookup in Hin as [i Hi].
  destruct (greedy_step _ (rg_hash _ _ _ (ri_graph _ _ (pi_ready _ _ I))) ∅ l i tx Hg Hi) as (t & Ht & -> & _). eauto.
Qed.

Lemma elem_of_stale n (l : list Tx) h : h ∈ hash <$> filter (fun tx => valid_till tx <= n) l <-> exists tx, tx ∈ l /\ hash tx = h /\ valid_till tx <= n.
Proof. rewrite list_elem_of_fmap. setoid_rewrite list_elem_of_filter. naive_solver. Qed.

Lemma clear_stale_run at_ n self : vp_sound self -> block_id_to_number (ticks self) at_ = inl (Some n) ->
  exists self', clear_stale at_ self = (self', Ok tt) /\ vstep self self' /\ cleared (Z.min n (2 ^ 64 - 1)) self self'.
Proof.
  intros Hs Hb. unfold clear_stale. erewrite bind_Ok; [|erewrite bind_Ok by reflexivity; rewrite Hb; reflexivity].
  erewrite bind_Ok by reflexivity. cbv zeta. erewrite bind_Ok by reflexivity. set (now := instant_now _). set (m := Z.min n (2 ^ 64 - 1)).
  rewrite (bind_Ok get _ _ _ _ eq_refl). set (s0 := with_ticks _ _). assert (pool s0 = pool self /\ listener s0 = listener self /\ options s0 = options self) as (Hp0 & Hl0 & Ho0) by done.
  rewrite Hp0. destruct (ban_stale_spec now m (ready_list (pool self)) (rotator s0) []) as [r1 ->]. destruct (ban_stale_spec now m (futures (pool self)) r1 []) as [r2 ->].
  cbn [app]. set (H1s := hash <$> filter _ (ready_list (pool self))). set (H2s := hash <$> filter _ (futures (pool self))). erewrite bind_Ok by reflexivity.
  assert (vstep self (with_rotator r2 s0)) as V0 by by apply vstep_quiet.
  destruct (remove_invalid_run H1s (with_rotator r2 s0) (st_sound _ _ V0)) as (s1 & t1 & Hrun1 & V1 & A1 & [_ [HL1 HL1']] & G1 & W1 & (q1 & D1 & R1 & Q1) & _).
  erewrite bind_Ok by exact Hrun1.
  destruct (remove_invalid_run H2s s1 (st_sound _ _ V1)) as (s2 & t2 & Hrun2 & V2 & A2 & [_ [HL2 HL2']] & G2 & W2 & (q2 & D2 & R2 & Q2) & _).
  erewrite bind_Ok by exact Hrun2. eexists. split; [reflexivity|]. set (s3 := with_rotator _ s2). change (pool (with_rotator r2 s0)) with (pool self) in *.
  assert (vstep s2 s3) as V3 by (apply vstep_quiet; [apply V2|done..]).
  split; [eapply vstep_trans; [exact V0|]; eapply vstep_trans; [exact V1|]; by eapply vstep_trans|].
  pose proof (vs_pool _ Hs) as Hps. pose proof (queues_disjoint _ _ (proj1 Hps)) as Hdj.
  split; change (pool s3) with (pool s2).
  - intros h w Hw. rewrite W2 in Hw. apply map_lookup_filter_Some in Hw as [Hw Hn]. rewrite W1 in Hw. apply map_lookup_filter_Some in Hw as [Hw _].
    destruct (decide (valid_till (transaction w) <= m)) as [Hv|]; [|lia]. exfalso. apply Hn. apply elem_of_stale. exists (transaction w). split_and!; [|by apply (fi_hash _ (pi_future _ _ (proj1 Hps)))|done].
    apply elem_of_future_all. eauto.
  - intros h t Ht Hv Hin. apply (G1 h); [|apply elem_of_union; left; apply HL2; by eapply elem_of_dom_2]. apply elem_of_stale. exists (tx_of t). split_and!; [done| |done].
    apply (rg_hash _ _ _ (ri_graph _ _ (pi_ready _ _ (proj1 (vs_pool _ (st_sound _ _ V2))))) h t Ht).
  - intros h. clear -HL1 HL1' HL2 HL2'. set_solver.
  - intros h Hin Hout. destruct (decide (h ∈ in_pool (pool s1))) as [Hin1|Hout1].
    + destruct (removal_gone (pool s1) (pool s2) H2s q2 D2 h (vs_pool _ (st_sound _ _ V1)) R2 Q2 W2 Hin1 Hout) as [(Hsome & k & Hk & Hrtc)|[Hh _]].
      * exfalso. apply (unlocking_live _ _ _ Hrtc) in Hsome. apply elem_of_stale in Hk as (tx & (k' & w & Hw & ->)%elem_of_future_all & <- & _).
        rewrite (fi_hash _ (pi_future _ _ (proj1 Hps)) k' w Hw) in Hsome. apply (Hdj k'); [apply HL1; by apply elem_of_dom|by eapply elem_of_dom_2].
      * apply elem_of_stale in Hh as (tx & (k & w & Hw & ->)%elem_of_future_all & <- & Hv). exists k. rewrite (fi_hash _ (pi_future _ _ (proj1 Hps)) k w Hw). split; [apply rtc_refl|eauto].
    + destruct (removal_gone (pool self) (pool s1) H1s q1 D1 h Hps R1 Q1 W1 Hin Hout1) as [(_ & k & Hk & Hrtc)|[Hh Hw]].
      * exists k. split; [done|]. left. apply elem_of_stale in Hk as (tx & Htx & <- & Hv). destruct (ready_list_ready _ tx Hps Htx) as (t & Ht & <-). eauto.
      * exists h. split; [apply rtc_refl|]. left. apply elem_of_stale in Hh as (tx & Htx & <- & Hv). destruct (ready_list_ready _ tx Hps Htx) as (t & Ht & <-). eauto.
  - change (accounted (in_pool (pool self)) s2). by apply (accounted_step _ s1).
Qed.

(** ** Resubmission *)

Lemma take_out_spec (removed : list Tx) : forall updated initial (txs : list (Hash * VTx)),
  exists updated' initial' txs', foldl take_out (updated, initial, txs) removed = (updated', initial', txs') /\ updated' ⊆ updated /\
    (forall h, h ∈ txs'.*1 <-> h ∈ txs.*1 \/ h ∈ hash <$> removed) /\
    ((forall h st, initial !! h = Some st -> st = WasReady) -> forall h st, initial' !! h = Some st -> st = WasReady) /\
    (forall h t, (forall k t, updated !! k = Some (Valid t) -> hash t = k) -> (h, Valid t) ∈ txs' -> (h, Valid t) ∈ txs \/ hash t = h).
Proof.
  induction removed as [|tx removed IH]; intros updated initial txs; [exists updated, initial, txs; split_and!; [done|done|set_solver|done|auto]|].
  cbn [foldl]. unfold take_out at 2. set (v := match updated !! hash tx with Some u => u | None => Valid tx end).
  destruct (IH (delete (hash tx) updated) (<[hash tx := WasReady]> initial) (txs ++ [(hash tx, v)])) as (updated' & initial' & txs' & -> & Hsub & Hin & Hst & Hv).
  exists updated', initial', txs'. split_and!; [done|etrans; [exact Hsub|apply delete_subseteq]| | |].
  - intros h. rewrite Hin, fmap_app. set_solver.
  - intros Hi. apply Hst. intros h st [[_ <-]|[_ Hh]]%lookup_insert_Some; eauto.
  - intros h t Hu Hin'. destruct (Hv h t) as [[Hold|Hnew%list_elem_of_singleton]%elem_of_app|Heq]; [|done|by left| |by right].
    + intros k t' [_ Hk]%lookup_delete_Some. by apply Hu.
    + right. injection Hnew as -> Hvt. unfold v in Hvt. destruct (updated !! hash tx) as [u|] eqn:Hu'; [subst u; by apply Hu|by injection Hvt as ->].
Qed.

(** Every transaction that the loop takes out of the pool is in its list. *)
Lemma take_out_loop_run : forall fuel p updated initial (txs : list (Hash * VTx)), pool_sound p -> (size updated <= fuel)%nat ->
  (forall h st, initial !! h = Some st -> st = WasReady) -> (forall h t, updated !! h = Some (Valid t) -> hash t = h) -> (forall h t, (h, Valid t) ∈ txs -> hash t = h) ->
  exists p' initial' txs', take_out_loop fuel (updated, initial, txs) p = (p', Ok (initial', txs')) /\ pool_sound p' /\
    (forall h, h ∈ in_pool p -> h ∈ in_pool p' \/ h ∈ txs'.*1) /\ (forall h, h ∈ txs.*1 -> h ∈ txs'.*1) /\
    (forall h st, initial' !! h = Some st -> st = WasReady) /\ (forall h t, (h, Valid t) ∈ txs' -> hash t = h).
Proof.
  induction fuel as [|fuel IH]; intros p updated initial txs Hp Hf Hi Hu Ht; cbn [take_out_loop]; cbn [fst snd];
    (destruct (hash_iter (dom updated)) as [|k l] eqn:Hk; [exists p, initial, txs; split_and!; eauto; fail|]);
    (assert (k ∈ dom updated) as Hin by (apply elem_of_hash_iter; rewrite Hk; set_solver)).
  - rewrite <-size_dom in Hf. assert (dom updated = ∅) as He by (apply leibniz_equiv, size_empty_iff; lia). rewrite He in Hin. set_solver.
  - destruct (remove_subtree_pool_run (E := PoolError Hash) _ p [k] (proj1 Hp)) as (p1 & rm & D & Hrun & Sh & _).
    destruct (removal_left (E := PoolError Hash) _ p [k] (proj1 Hp)) as (p2 & rm2 & Hrun2 & _ & [HL _] & _). rewrite Hrun in Hrun2. injection Hrun2 as <- <-.
    erewrite bind_Ok by exact Hrun. destruct (take_out_spec rm updated initial txs) as (updated' & initial' & txs' & -> & Hsub & Hin' & Hst & Hv). cbn beta iota.
    assert (size (delete k updated') < size updated)%nat as Hsz.
    { rewrite <-!size_dom. apply subset_size. apply strict_spec_alt. apply subseteq_dom in Hsub as Hds. split; [rewrite dom_delete_L; set_solver|]. intros Heq. rewrite <-Heq, dom_delete_L in Hin. set_solver. }
    destruct (IH p1 (delete k updated') initial' txs') as (p' & i' & t' & Hloop & Hp' & Hall & Hmono & Hi' & Ht').
    + exact (shrunk_sound _ _ _ _ _ Hp Sh).
    + lia.
    + by apply Hst.
    + intros h t [_ Hh]%lookup_delete_Some. eapply Hu, lookup_weaken; done.
    + intros h t Hh. destruct (Hv h t Hu Hh); [by apply Ht|done].
    + exists p', i', t'. split_and!; [done|done| | |done|done].
      * intros h Hh. destruct (decide (h ∈ in_pool p1)) as [|Hout]; [by apply Hall|]. right. apply Hmono, Hin'. right.
        apply (elem_of_list_to_set (C := gset Hash)). rewrite HL. set_solver.
      * intros h Hh. apply Hmono, Hin'. by left.
Qed.

(** The imports of a resubmission may go on. *)
Fixpoint puts_allowed (txs : list (Hash * VTx)) self : Prop :=
  match txs with
  | [] => True
  | htx :: txs => allowed htx.2 self /\ puts_allowed txs (put_back ∅ htx self).1
  end.

(** None of them fails for its priority or closes a cycle. *)
Fixpoint puts_clean (txs : list (Hash * VTx)) self : Prop :=
  match txs with
  | [] => True
  | htx :: txs =>
    match htx.2 with
    | Valid t => forall e, (import t (instant_now (ticks self)) (pool self)).2 = Err e -> losing e = false
    | _ => True
    end /\ puts_clean txs (put_back ∅ htx self).1
  end.

Definition out (final : gmap Hash ResubmitStatus) h : Prop := final !! h = Some WasFailed \/ final !! h = Some WasDropped.

Lemma foldl_status {A} (key : A -> Hash) (st : ResubmitStatus) l (final : gmap Hash ResubmitStatus) h :
  foldl (fun final x => <[key x := st]> final) final l !! h = if decide (h ∈ key <$> l) then Some st else final !! h.
Proof.
  revert final. induction l as [|x l IH]; intros final; [by rewrite decide_False by set_solver|]. cbn [foldl]. rewrite IH, fmap_cons.
  destruct (decide (h ∈ key <$> l)); [by rewrite decide_True by set_solver|]. destruct (decide (h = key x)) as [->|].
  - by rewrite lookup_insert_eq, decide_True by set_solver.
  - by rewrite lookup_insert_ne, decide_False by set_solver.
Qed.

Lemma import_statuses_lookup k promoted failed (removed : list Tx) final h :
  import_statuses k (ImportedReady k promoted failed removed) final !! h =
    if decide (h ∈ hash <$> removed) then Some WasDropped else if decide (h ∈ failed) then Some WasFailed
    else if decide (h ∈ promoted) then Some WasReady else if decide (h = k) then Some WasReady else final !! h.
Proof.
  cbn [import_statuses]. rewrite (foldl_status hash). case_decide; [done|]. rewrite (foldl_status (fun h => h)), list_fmap_id. case_decide; [done|].
  rewrite (foldl_status (fun h => h)), list_fmap_id. case_decide; [done|]. case_decide as Hk; [subst; by rewrite lookup_insert_eq|by rewrite lookup_insert_ne].
Qed.

(** One transaction is put back: those of [S] are in the pool, are to be put
    back, or are marked as failed or dropped. *)
Lemma put_back_run htx self : vp_sound self -> allowed htx.2 self -> (forall t, htx.2 = Valid t -> hash t = htx.1) ->
  exists self', vstep self self' /\ listener self' = listener self /\
    forall final, exists final', put_back final htx self = (self', Ok final') /\
      ((forall t e, htx.2 = Valid t -> (import t (instant_now (ticks self)) (pool self)).2 = Err e -> losing e = false) ->
       forall h, h ∈ in_pool (pool self) \/ out final h \/ h = htx.1 -> h ∈ in_pool (pool self') \/ out final' h).
Proof.
  destruct htx as [k tx]. cbn [fst snd]. intros Hs Ha Hk. destruct tx as [t|k' e|k' e].
  2,3: (exists self; split; [by apply vstep_refl|split; [done|]]; intros final; eexists; split; [reflexivity|]; intros _ h Hh;
    destruct (decide (h = k)) as [->|Hne]; [right; left; by rewrite lookup_insert_eq|destruct Hh as [?|[Hh|?]]; [by left| |done]; right; unfold out; by rewrite lookup_insert_ne]).
  specialize (Hk t eq_refl). subst k. set (now := instant_now (ticks self)).
  destruct (import_sound (pool self) t now (vs_pool _ Hs) Ha) as (p' & r & Hrun & Hpan & Hp' & Hrep & Hent).
  set (self1 := with_ticks (S (ticks self)) self). exists (with_base p' self1).
  split; [split; [destruct Hs; by split|apply fires_refl|done]|]. split; [done|]. intros final.
  assert (forall f g, (catch (on_pool (import t now)) f g : M VPool ChainError (gmap Hash ResubmitStatus)) self1 =
    match r with Ok i => f i (with_base p' self1) | Err e => g (from_pool_error e) (with_base p' self1) | Panic => (with_base p' self1, Panic) end) as Hc.
  { intros f g. unfold catch, on_pool. change (pool self1) with (pool self). rewrite Hrun. by destruct r. }
  cbn [put_back]. erewrite bind_Ok by reflexivity. fold self1 now. rewrite Hc. destruct r as [imported|e|]; [| |done].
  - eexists. split; [reflexivity|]. intros _ h Hh. cbn [with_base pool]. destruct imported as [k promoted failed removed|k].
    + destruct Hrep as (_ & _ & -> & _ & Hin & Hio). pose proof (io_promoted _ _ _ _ _ _ Hio) as Hpr. pose proof (io_all _ _ _ _ _ _ Hio) as Hall. unfold out. rewrite import_statuses_lookup.
      destruct (decide (h ∈ hash <$> removed)); [by right; right|]. destruct (decide (h ∈ failed)); [by right; left|].
      destruct (decide (h ∈ in_pool (pool self))) as [Hip|Hip].
      { left. assert (h ∈ dom (rtxs p') ∪ dom (wtxs p') ∪ list_to_set failed ∪ thashes removed) as Hu by (rewrite Hall; set_solver). set_solver. }
      rewrite decide_False by (intros Hc'; apply Hip; apply elem_of_union; right; apply Hpr; by apply elem_of_list_to_set).
      destruct (decide (h = hash t)) as [->|]; [left; set_solver|]. destruct Hh as [|[?|]]; [done|by right|done].
    + destruct Hrep as (-> & _ & _ & Hr & Hw). rewrite Hr, Hw. unfold out. cbn [import_statuses]. destruct (decide (h = hash t)) as [->|Hne]; [left; set_solver|].
      rewrite lookup_insert_ne by done. destruct Hh as [|[?|]]; [left; set_solver|by right|done].
  - eexists. split; [reflexivity|]. intros Hcl h Hh. specialize (Hcl t e eq_refl). rewrite Hrun in Hcl. specialize (Hcl eq_refl). destruct (decide (h = hash t)) as [->|Hne]; [right; left; by rewrite lookup_insert_eq|].
    unfold out. rewrite lookup_insert_ne by done. cbn [with_base pool]. destruct Hh as [Hh|[?|]]; [left|by right|done].
    destruct (decide (h ∈ in_pool p')) as [|Hout]; [done|exfalso]. destruct (import_left t (pool self) p' _ h Hrep) as (? & ? & ? & Heq & _); [intros e' [= <-]; done|done|done|done].
Qed.

Lemma put_back_each : forall txs self final, vp_sound self -> puts_allowed txs self -> (forall h t, (h, Valid t) ∈ txs -> hash t = h) ->
  exists self' final', fold_each put_back final txs self = (self', Ok final') /\ vstep self self' /\ listener self' = listener self /\
    (puts_clean txs self -> forall h, h ∈ in_pool (pool self) \/ out final h \/ h ∈ txs.*1 -> h ∈ in_pool (pool self') \/ out final' h).
Proof.
  induction txs as [|htx txs IH]; intros self final Hs Ha Ht.
  { exists self, final. split_and!; [done|by apply vstep_refl|done|]. intros _ h. set_solver. }
  destruct Ha as [Ha Hrest]. destruct (put_back_run htx self Hs Ha) as (self1 & V1 & Hl1 & Hrun).
  { intros t Heq. apply Ht. rewrite <-Heq. destruct htx. set_solver. }
  assert ((put_back ∅ htx self).1 = self1) as Hs1 by (destruct (Hrun ∅) as (? & -> & _); done). rewrite Hs1 in Hrest. destruct (Hrun final) as (final1 & Hput & Hstep).
  destruct (IH self1 final1 (st_sound _ _ V1) Hrest) as (self' & final' & Hfold & V2 & Hl2 & Hall); [intros h t Hin; apply Ht; set_solver|].
  exists self', final'. split_and!; [cbn [fold_each]; by erewrite bind_Ok by exact Hput|by eapply vstep_trans|congruence|].
  intros [Hc Hcr] h Hh. rewrite Hs1 in Hcr. apply (Hall Hcr). rewrite fmap_cons in Hh.
  assert ((forall t e, htx.2 = Valid t -> (import t (instant_now (ticks self)) (pool self)).2 = Err e -> losing e = false)) as Hcl by (intros t e Heq; rewrite Heq in Hc; by apply Hc).
  destruct (decide (h ∈ txs.*1)); [by right; right|]. destruct (Hstep Hcl h) as [|]; [set_solver|by left|by right; left].
Qed.
End validated_spec.
