(* ===== verification/TxValidatedReach.v ===== *)
(** * The validated pool over all executions

    Resubmission of revalidated transactions, the sequences of operations of the
    validated pool, its properties and their witnesses.  The examples at the end
    show what its watchers and callers see of the departures of the pool from
    its documentation, and others of the validated pool itself. *)

From Stdlib Require Import ZArith Lia.
From stdpp Require Import gmap fin_maps fin_sets option list strings relations sorting.
From S2P Require Import Prelude TxPool TxQueues TxReady TxIter TxPoolSpec TxPoolReach TxEvents TxValidated TxValidatedSpec.

Local Open Scope Z_scope.

Section validated_reach.
Context {OC : OverflowChecks} {RX : Receivers} {Hash BlockHash Ex BlockId ChainError T : Type}.
Context `{HashOrder Hash} `{!HashOrder Tag} `{LinkedHashMap BlockHash (list Hash) T} {ENV : PoolEnv Hash BlockHash Ex BlockId ChainError}.
Abbreviation Tx := (Transaction Hash Ex).
Abbreviation VTx := (ValidatedTransaction Hash Ex ChainError).
Abbreviation VPool := (ValidatedPool Hash BlockHash Ex T).
Abbreviation Listen := (Listener Hash BlockHash T).
Implicit Types self : VPool.
Implicit Types p : BasePool Hash Ex.

Abbreviation rtxs p := (index (ready (pool_ready p))).
Abbreviation wtxs p := (waiting (pool_future p)).
Abbreviation in_pool p := (dom (rtxs p) ∪ dom (wtxs p)).

(** ** Resubmission *)

Lemma reject_sound b p : pool_sound p -> pool_sound (with_reject b p).
Proof. intros [I Hn]. split; [|done]. destruct I. by split. Qed.

Lemma resubmit_final_run txs self : vp_sound self -> puts_allowed txs (with_base (with_reject false (pool self)) self) -> (forall h t, (h, Valid t) ∈ txs -> hash t = h) ->
  exists self' final, resubmit_final txs self = (self', Ok final) /\ vstep self self' /\ listener self' = listener self /\
    (puts_clean txs (with_base (with_reject false (pool self)) self) -> forall h, h ∈ in_pool (pool self) \/ h ∈ txs.*1 -> h ∈ in_pool (pool self') \/ out final h).
Proof.
  intros Hs Ha Ht. unfold resubmit_final. erewrite bind_Ok by reflexivity. erewrite bind_Ok by reflexivity. set (b := reject_future_transactions (pool self)).
  set (self0 := with_base (with_reject false (pool self)) self) in *. assert (vstep self self0) as V0 by (apply vstep_base; [done|apply reject_sound, Hs]).
  destruct (put_back_each txs self0 ∅ (st_sound _ _ V0) Ha Ht) as (self1 & final1 & Hrun & V1 & Hl1 & Hall). erewrite bind_Ok by exact Hrun.
  set (self2 := if b then with_base (with_future dflt (pool self1)) self1 else self1).
  set (final2 := if b then foldl (fun final tx => <[hash tx := WasDropped]> final) final1 (futures (pool self1)) else final1).
  assert ((if b then future_txs ← on_pool clear_future; mret (foldl (fun final tx => <[hash tx := WasDropped]> final) final1 future_txs) else mret final1 : M VPool ChainError _) self1 =
    (self2, Ok final2)) as Hclear.
  { unfold self2, final2. destruct b; [|done]. erewrite bind_Ok; [reflexivity|]. apply on_pool_Ok. apply on_future_run, future_clear_run. }
  erewrite bind_Ok by exact Hclear. erewrite bind_Ok by reflexivity. eexists _, final2. split; [reflexivity|].
  assert (vstep self1 self2) as V2.
  { unfold self2. destruct b; [apply vstep_base; [apply V1|apply clear_sound, V1]|apply vstep_refl, V1]. }
  assert (vstep self2 (with_base (with_reject b (pool self2)) self2)) as V3 by (apply vstep_base; [apply V2|apply reject_sound, V2]).
  split; [by eapply vstep_trans; [|eapply vstep_trans; [|eapply vstep_trans]]|]. split; [simpl; unfold self2; by destruct b|].
  intros Hc h Hh. change (h ∈ in_pool (pool self2) \/ out final2 h).
  assert (h ∈ in_pool (pool self1) \/ out final1 h) as Hor by (apply (Hall Hc); destruct Hh; [by left|by right; right]).
  unfold self2, final2. destruct b; [|done]. cbn [with_base pool with_future pool_ready pool_future]. unfold out. rewrite (foldl_status hash).
  destruct (decide (h ∈ hash <$> futures (pool self1))) as [|Hnf]; [by right; right|]. destruct Hor as [[Hr|Hw]%elem_of_union|Hor]; [left; set_solver| |by right].
  exfalso. apply Hnf. apply elem_of_dom in Hw as [w Hw]. apply list_elem_of_fmap. exists (transaction w).
  split; [symmetry; by apply (fi_hash _ (pi_future _ _ (proj1 (vs_pool _ (st_sound _ _ V1)))))|]. apply elem_of_future_all. eauto.
Qed.

(** The transactions to put back, and the pool without them. *)
Definition taken_out (updated : gmap Hash VTx) self : option (VPool * list (Hash * VTx)) :=
  match take_out_loop (size updated) (updated, ∅, []) (pool self) with
  | (p, Ok (_, txs)) => Some (with_base (with_reject false p) self, txs)
  | _ => None
  end.

Definition resubmit_allowed (updated : gmap Hash VTx) self : Prop :=
  (forall h t, updated !! h = Some (Valid t) -> hash t = h) /\ match taken_out updated self with Some (self, txs) => puts_allowed txs self | None => True end.

Definition resubmit_clean (updated : gmap Hash VTx) self : Prop := match taken_out updated self with Some (self, txs) => puts_clean txs self | None => True end.

Lemma notify_status_fires initial final (l : Listen) h : fires l (notify_status initial final l h).
Proof.
  unfold notify_status. destruct (final !! h) as [st|]; [|apply fires_refl]. case_decide; [apply fires_refl|].
  destruct st; [apply future_fires|apply ready_fires|apply invalid_fires|apply dropped_fires].
Qed.

Lemma notify_status_none initial final (l : Listen) h : (forall h st, initial !! h = Some st -> st = WasReady) -> out final h ->
  watchers (notify_status initial final l h) !! h = None.
Proof.
  intros Hi Ho. unfold notify_status. destruct Ho as [->| ->]; (rewrite decide_False by (intros Hh; by apply Hi in Hh)); [apply invalid_none|apply dropped_none].
Qed.

Lemma resubmit_run updated self : vp_sound self -> resubmit_allowed updated self ->
  exists self', resubmit updated self = (self', Ok tt) /\ vstep self self' /\ (resubmit_clean updated self -> accounted (in_pool (pool self)) self').
Proof.
  intros Hs [Hu Ha]. unfold resubmit.
  destruct (take_out_loop_run (size updated) (pool self) updated ∅ [] (vs_pool _ Hs) (Nat.le_refl _)) as (p1 & initial & txs & Hrun & Hp1 & Hall & _ & Hi & Ht);
    [intros h st; by rewrite lookup_empty|done|set_solver|].
  unfold resubmit_clean, taken_out in *. rewrite Hrun in Ha |- *. erewrite bind_Ok by (apply on_pool_Ok; exact Hrun). cbn beta iota.
  assert (vstep self (with_base p1 self)) as V1 by by apply vstep_base.
  destruct (resubmit_final_run txs (with_base p1 self) (st_sound _ _ V1) Ha Ht) as (self2 & final & Hrun2 & V2 & Hl2 & Hacc).
  erewrite bind_Ok by exact Hrun2. eexists. split; [reflexivity|]. set (f := foldl (notify_status initial final)).
  assert (fires (listener self2) (f (listener self2) (hash_iter (dom final)))) as Hf by (apply fires_foldl; intros; apply notify_status_fires).
  split; [eapply vstep_trans; [exact V1|]; eapply vstep_trans; [exact V2|]; apply (vstep_listener self2 (fun l => f l (hash_iter (dom final)))); [apply V2|done]|].
  intros Hc h Hh. cbn [with_listener pool listener]. assert (h ∈ in_pool p1 \/ h ∈ txs.*1) as Hor by by apply Hall.
  destruct (Hacc Hc h Hor) as [|Ho]; [by left|right]. apply foldl_none; [intros; apply notify_status_fires|intros; by apply notify_status_none|].
  apply elem_of_hash_iter, elem_of_dom. destruct Ho as [-> | ->]; eauto.
Qed.

(** ** The other operations *)

Lemma vp_prune_tags_run tags self : vp_sound self -> ids_left (pool self) (size (wtxs (pool self))) ->
  exists self' st, vp_prune_tags tags self = (self', Ok st) /\ vstep self self' /\ prune_report (pool self) tags st (pool self').
Proof.
  intros Hs Hid. unfold vp_prune_tags.
  destruct (prune_tags_run (E := PoolError Hash) _ (pool self) tags (proj1 (vs_pool _ Hs)) Hid) as (p' & used' & st & Hrun & Sh & Hrep).
  erewrite bind_Ok by (apply on_pool_Ok; exact Hrun). erewrite bind_Ok by reflexivity. erewrite bind_Ok by reflexivity. eexists _, st. split; [reflexivity|].
  assert (vstep self (with_base p' self)) as V by (apply vstep_base; [done|exact (shrunk_sound _ _ _ _ _ (vs_pool _ Hs) Sh)]).
  split; [|done]. eapply vstep_trans; [exact V|]. set (f := fun l : Listen => foldl (fun l k => listener_dropped k None l) (foldl (fun l promoted => fire_events promoted l) l (ps_promoted st)) (ps_failed st)).
  apply (vstep_listener (with_base p' self) f); [apply V|]. unfold f. eapply fires_trans; [|apply fires_foldl; intros; apply dropped_fires].
  apply fires_foldl. intros. apply fire_events_fires.
Qed.

Lemma fire_each_fires b hashes : forall (seen : gset Hash) (l : Listen), fires l (foldl (fire_each b) (seen, l) hashes).2.
Proof.
  induction hashes as [|h hashes IH]; intros seen l; [apply fires_refl|]. cbn [foldl]. unfold fire_each at 2. case_decide; [apply IH|].
  eapply fires_trans; [apply (pruned_spec b h l)|apply IH].
Qed.

Lemma fire_pruned_run at_ hashes self : vp_sound self ->
  exists self' r, fire_pruned at_ hashes self = (self', r) /\ r <> Panic /\ vstep self self' /\ pool self' = pool self.
Proof.
  intros Hs. unfold fire_pruned. set (self1 := with_ticks (S (ticks self)) self). assert (vstep self self1) as V1 by by apply vstep_quiet.
  destruct (block_id_to_hash (ticks self) at_) as [[b|]|e] eqn:Hb.
  - erewrite bind_Ok; [|erewrite bind_Ok by reflexivity; rewrite Hb; reflexivity]. erewrite bind_Ok by reflexivity. eexists _, _. split_and!; [reflexivity|done| |done].
    eapply vstep_trans; [exact V1|]. apply (vstep_listener self1 (fun l => (foldl (fire_each b) (∅, l) hashes).2)); [apply V1|apply fire_each_fires].
  - exists self1, (Err (from_pool_error InvalidBlockId)). split_and!; [|done|done|done]. erewrite bind_Ok; [|erewrite bind_Ok by reflexivity; rewrite Hb; reflexivity]. reflexivity.
  - eexists self1, (Err e). split_and!; [|done|done|done]. erewrite bind_Err; [reflexivity|]. erewrite bind_Ok by reflexivity. by rewrite Hb.
Qed.

Lemma clear_stale_safe at_ self : vp_sound self -> exists self' r, clear_stale at_ self = (self', r) /\ r <> Panic /\ vstep self self'.
Proof.
  intros Hs. destruct (clear_stale_unknown at_ self) as [He Hn]. destruct (block_id_to_number (ticks self) at_) as [[n|]|e] eqn:Hb.
  - destruct (clear_stale_run at_ n self Hs Hb) as (self' & -> & V & _). by exists self', (Ok tt).
  - rewrite Hn by done. eexists _, _. split_and!; [reflexivity|done|by apply vstep_quiet].
  - rewrite (He e) by done. eexists _, _. split_and!; [reflexivity|done|by apply vstep_quiet].
Qed.

(** The state in which [submit_and_watch] submits. *)
Definition watching (tx : Tx) self : VPool := with_listener (create_watcher (hash_and_length (data tx)).1 (listener self)).2 self.

Definition watch_allowed (tx : VTx) self : Prop := match tx with Valid t => batch_allowed [Valid t] (watching t self) | _ => True end.

Lemma watching_sound tx self : vp_sound self -> vp_sound (watching tx self).
Proof. intros []. split; [done|by apply create_watcher_inv|done]. Qed.

Lemma submit_and_watch_safe tx self : vp_sound self -> watch_allowed tx self ->
  exists self' r, submit_and_watch tx self = (self', r) /\ r <> Panic /\ vp_sound self'.
Proof.
  intros Hs Ha. destruct tx as [t|h e|h e]; cbn [submit_and_watch].
  - erewrite bind_Ok by reflexivity. destruct (submit_run [Valid t] (watching t self) (watching_sound t self Hs) Ha) as (self' & rs & Hrun & V & Rep).
    erewrite bind_Ok by exact Hrun. pose proof (sr_length _ _ _ _ Rep) as Hlen. destruct rs as [|r [|]]; [done| |done]. erewrite bind_Ok by reflexivity.
    destruct r as [h|e]; [exists self', (Ok (next_channel (listener self)))|exists self', (Err e)]; (split_and!; [reflexivity|done|apply V]).
  - eexists _, (Err e). split_and!; [by erewrite bind_Ok by reflexivity|done|destruct Hs; by split].
  - by exists self, (Err e).
Qed.

Lemma pruned_for_good_run hashes : forall (rs : list (Hash + ChainError)) (f : nat -> nat), (forall i, (i < length rs)%nat -> (f i < length hashes)%nat) ->
  exists l, foldr (fun ir acc => match ir.2 with
      | inr e => match into_pool_error e with inl (InvalidTransactionError _) => hash ← expect (hashes !! ir.1); acc ← acc; mret (hash :: acc) | _ => acc end
      | inl _ => acc end) (mret []) (imap (fun i r => (f i, r)) rs) = (Ok l : res ChainError (list Hash)).
Proof.
  induction rs as [|r rs IH]; intros f Hf; [by exists []|]. destruct (IH (f ∘ S)) as [l Hl]; [intros i Hi; apply Hf; simpl; lia|].
  cbn [imap foldr]. change (fun i r => ((f ∘ S) i, r)) with ((fun i r => (f i, r)) ∘ S : nat -> Hash + ChainError -> nat * (Hash + ChainError)) in Hl. rewrite Hl. cbn [fst snd].
  destruct r as [h|e]; [eauto|]. destruct (into_pool_error e) as [[]|]; eauto. destruct (lookup_lt_is_Some_2 hashes (f 0%nat)) as [h Hh]; [apply Hf; simpl; lia|]. rewrite Hh. eauto.
Qed.

Lemma resubmit_pruned_safe at_ known hashes xts self : vp_sound self -> length hashes = length xts -> batch_allowed xts self ->
  exists self' r, resubmit_pruned at_ known hashes xts self = (self', r) /\ r <> Panic /\ vstep self self'.
Proof.
  intros Hs Hlen Ha. unfold resubmit_pruned. erewrite bind_Ok by (unfold lift, debug_assert; rewrite (proj2 (Nat.eqb_eq _ _) Hlen); by destruct overflow_checks).
  destruct (submit_run xts self Hs Ha) as (self1 & rs & Hrun & V1 & Rep). erewrite bind_Ok by exact Hrun.
  assert (exists l, pruned_for_good hashes rs = Ok l) as [l Hl] by (apply (pruned_for_good_run hashes rs (fun i => i)); rewrite (sr_length _ _ _ _ Rep), Hlen; done).
  erewrite bind_Ok by (unfold lift; rewrite Hl; reflexivity). destruct (fire_pruned_run at_ (l ++ known) self1 (st_sound _ _ V1)) as (self2 & r & Hf & Hp & V2 & _).
  assert (vstep self self2) as V by by eapply vstep_trans. destruct r as [[]|e|]; [| |done].
  - erewrite bind_Ok by exact Hf. destruct (clear_stale_safe at_ self2 (st_sound _ _ V2)) as (self3 & r & Hrun3 & Hp3 & V3). exists self3, r. split_and!; [done|done|by eapply vstep_trans].
  - erewrite bind_Err by exact Hf. by exists self2, (Err e).
Qed.

(** ** Validation *)

Lemma with_ticks_ticks n m self : with_ticks n (with_ticks m self) = with_ticks n self.
Proof. done. Qed.

(** What the validation of a transaction returns: if the transaction is banned
    or in the pool the runtime is not asked; else its answer to some question. *)
Definition verified (at_ : BlockId) (number : Z) (source : TransactionSource) (xt : Ex) (check : CheckBannedBeforeVerify) self (tx : VTx) : Prop :=
  let '(hash, bytes) := hash_and_length xt in
  match check_is_known hash (if check is CheckNo then true else false) self with
  | inr e => tx = Invalid hash e
  | inl _ => exists tick,
    match validate_transaction tick at_ source xt with
    | inl (inl v) => (v_provides v = [] -> tx = Invalid hash (from_pool_error NoTagsProvided)) /\
        (v_provides v <> [] -> tx = valid_at (Z.min number (2 ^ 64 - 1)) hash source xt bytes v)
    | inl (inr (InvalidValidity e)) => tx = Invalid hash (from_pool_error (InvalidTransactionError e))
    | inl (inr (UnknownValidity e)) => tx = Unknown hash (from_pool_error (UnknownTransactionError e))
    | inr e => tx = Invalid hash e
    end
  end.

Lemma verified_hash at_ number source xt check self t : verified at_ number source xt check self (Valid t) -> hash t = hash_of xt.
Proof.
  unfold verified, hash_of. destruct (hash_and_length xt) as [h b]. destruct (check_is_known _ _ _); [|done]. intros [tick Hv].
  destruct (validate_transaction tick at_ source xt) as [[v|[]]|]; [|done..]. destruct Hv as [Hnil Hv].
  destruct (v_provides v); [by specialize (Hnil eq_refl)|]. specialize (Hv ltac:(done)). by injection Hv as ->.
Qed.

Lemma verify_one_run at_ number source xt check self : exists n tx,
  verify_one at_ number source xt check self = (with_ticks n self, Ok (hash_of xt, tx)) /\ forall m, verified at_ number source xt check (with_ticks m self) tx.
Proof.
  unfold verify_one, verified, hash_of. destruct (hash_and_length xt) as [h b]. erewrite bind_Ok by reflexivity. cbn [fst].
  assert (forall m i, check_is_known h i (with_ticks m self) = check_is_known h i self) as Hk by done.
  destruct check; (destruct (check_is_known h _ self) as [[]|e] eqn:Hc;
    [|exists (ticks self); eexists; split; [by destruct self|intros m; by rewrite Hk, Hc]]);
    (erewrite bind_Ok by reflexivity; eexists _, _; split; [reflexivity|]; intros m; rewrite Hk, Hc; exists (ticks self);
     destruct (validate_transaction (ticks self) at_ source xt) as [[v|[]]|]; [by destruct (v_provides v)|done|done|done]).
Qed.

Lemma verify_each at_ number check xts : forall m0 self, exists n m, fold_each (verify_next at_ number check) m0 xts self = (with_ticks n self, Ok m) /\
  (forall source xt, (source, xt) ∈ xts -> is_Some (m !! hash_of xt)) /\ (forall h, is_Some (m0 !! h) -> is_Some (m !! h)) /\
  forall h tx, m !! h = Some tx -> m0 !! h = Some tx \/ exists source xt, (source, xt) ∈ xts /\ hash_of xt = h /\ forall k, verified at_ number source xt check (with_ticks k self) tx.
Proof.
  induction xts as [|[source xt] xts IH]; intros m0 self; [exists (ticks self), m0; split_and!; [by destruct self|set_solver|done|by left]|]. cbn [fold_each].
  destruct (verify_one_run at_ number source xt check self) as (n & tx & Hrun & Hv).
  destruct (IH (<[hash_of xt := tx]> m0) (with_ticks n self)) as (n' & m & Hfold & Hdom & Hmono & Hall). exists n', m. split_and!.
  - erewrite bind_Ok; [exact Hfold|]. unfold verify_next. by erewrite bind_Ok by exact Hrun.
  - intros source' xt' [[= -> ->]|Hin]%elem_of_cons; [|by eapply Hdom]. apply Hmono. rewrite lookup_insert_eq. eauto.
  - intros h Hh. apply Hmono. destruct (decide (h = hash_of xt)) as [->|]; [rewrite lookup_insert_eq; eauto|by rewrite lookup_insert_ne].
  - intros h tx' Hh. destruct (Hall h tx' Hh) as [Hi|(source' & xt' & Hin & Heq & Hv')].
    + apply lookup_insert_Some in Hi as [[<- <-]|[_ Hi]]; [right; exists source, xt; split_and!; [set_solver|done|done]|by left].
    + right. exists source', xt'. split_and!; [set_solver|done|]. intros k. apply (Hv' k).
Qed.

Lemma verify_unknown at_ xts check self :
  (forall e, block_id_to_number (ticks self) at_ = inr e -> verify at_ xts check self = (with_ticks (S (ticks self)) self, Err e)) /\
  (block_id_to_number (ticks self) at_ = inl None ->
     verify at_ xts check self = (with_ticks (S (ticks self)) self, Err (from_pool_error InvalidBlockId))).
Proof.
  unfold verify, resolve_block_number. split.
  - intros e Hb. erewrite bind_Err; [reflexivity|]. erewrite bind_Err; [reflexivity|]. erewrite bind_Ok by reflexivity. by rewrite Hb.
  - intros Hb. erewrite bind_Err; [reflexivity|]. erewrite bind_Ok; [|erewrite bind_Ok by reflexivity; rewrite Hb; reflexivity]. reflexivity.
Qed.

Lemma verify_run at_ xts check self : exists n r, verify at_ xts check self = (with_ticks n self, r) /\
  match r with
  | Ok m => exists number, block_id_to_number (ticks self) at_ = inl (Some number) /\ (forall source xt, (source, xt) ∈ xts -> is_Some (m !! hash_of xt)) /\
      forall h tx, m !! h = Some tx -> exists source xt, (source, xt) ∈ xts /\ hash_of xt = h /\ verified at_ number source xt check self tx
  | Err e => block_id_to_number (ticks self) at_ = inr e \/ block_id_to_number (ticks self) at_ = inl None /\ e = from_pool_error InvalidBlockId
  | Panic => False
  end.
Proof.
  unfold verify, resolve_block_number. destruct (block_id_to_number (ticks self) at_) as [[number|]|e] eqn:Hb.
  - destruct (verify_each at_ number check xts ∅ (with_ticks (S (ticks self)) self)) as (n & m & Hfold & Hdom & _ & Hall). exists n, (Ok m). split.
    + erewrite bind_Ok; [exact Hfold|]. erewrite bind_Ok; [|erewrite bind_Ok by reflexivity; rewrite Hb; reflexivity]. reflexivity.
    + exists number. split_and!; [done|done|]. intros h tx Hh. destruct (Hall h tx Hh) as [Hn|(source & xt & Hin & Heq & Hv)]; [by rewrite lookup_empty in Hn|].
      exists source, xt. split_and!; [done|done|]. specialize (Hv (ticks self)). by destruct self.
  - eexists (S (ticks self)), (Err (from_pool_error InvalidBlockId)). split; [by apply verify_unknown|by right].
  - eexists (S (ticks self)), (Err e). split; [by apply verify_unknown|by left].
Qed.

(** ** Executions *)

Inductive VOp : Type :=
| Submit (txs : list VTx)
| SubmitAndWatch (tx : VTx)
| Resubmit (updated : gmap Hash VTx)
| RemoveInvalid (hashes : list Hash)
| VPruneTags (tags : list Tag)
| FirePruned (at_ : BlockId) (hashes : list Hash)
| ClearStale (at_ : BlockId)
| ResubmitPruned (at_ : BlockId) (known pruned_hashes : list Hash) (pruned_xts : list VTx)
| ImportStream
| OnBroadcasted (propagated : gmap Hash (list string))
| OnFinalized (block : BlockHash)
| OnRetracted (block : BlockHash).

Definition run_vop (op : VOp) : M VPool ChainError unit :=
  match op with
  | Submit txs => _ ← submit txs; mret tt
  | SubmitAndWatch tx => _ ← submit_and_watch tx; mret tt
  | Resubmit updated => resubmit updated
  | RemoveInvalid hashes => _ ← remove_invalid hashes; mret tt
  | VPruneTags tags => _ ← vp_prune_tags tags; mret tt
  | FirePruned at_ hashes => fire_pruned at_ hashes
  | ClearStale at_ => clear_stale at_
  | ResubmitPruned at_ known hashes xts => resubmit_pruned at_ known hashes xts
  | ImportStream => _ ← import_notification_stream; mret tt
  | OnBroadcasted propagated => on_broadcasted propagated
  | OnFinalized block => on_block_finalized block
  | OnRetracted block => on_block_retracted block
  end.

Definition vop_allowed (op : VOp) self : Prop :=
  match op with
  | Submit txs => batch_allowed txs self
  | SubmitAndWatch tx => watch_allowed tx self
  | Resubmit updated => resubmit_allowed updated self
  | VPruneTags tags => ids_left (pool self) (size (wtxs (pool self)))
  | ResubmitPruned _ _ hashes xts => length hashes = length xts /\ batch_allowed xts self
  | _ => True
  end.

Definition options_ok (o : Options) : Prop := limit_ok (ready_limit o) /\ limit_ok (future_limit o).

Inductive vp_reach : VPool -> Prop :=
| vp_start options : options_ok options -> vp_reach (ValidatedPool_new options)
| vp_step self op self' r : vp_reach self -> vop_allowed op self -> run_vop op self = (self', r) -> vp_reach self'.

Lemma vop_sound op self : vp_sound self -> vop_allowed op self -> exists self' r, run_vop op self = (self', r) /\ r <> Panic /\ vp_sound self'.
Proof.
  intros Hs Ha. assert (forall f, (forall l : Listen, fires l (f l)) -> exists self' (r : res ChainError unit), on_listener f self = (self', r) /\ r <> Panic /\ vp_sound self') as Hl.
  { intros f Hf. eexists _, (Ok tt). split_and!; [reflexivity|done|]. apply (vstep_listener self f); [done|apply Hf]. }
  destruct op as [txs|tx|updated|hs|tags|at_ hs|at_|at_ known hs xts| |m|b|b]; cbn [run_vop vop_allowed] in *.
  - destruct (submit_run txs self Hs Ha) as (self' & rs & Hrun & V & _). exists self', (Ok tt). split_and!; [by erewrite bind_Ok by exact Hrun|done|apply V].
  - destruct (submit_and_watch_safe tx self Hs Ha) as (self' & [w|e|] & Hrun & Hp & V); [| |done].
    + exists self', (Ok tt). split_and!; [by erewrite bind_Ok by exact Hrun|done|done].
    + exists self', (Err e). split_and!; [by erewrite bind_Err by exact Hrun|done|done].
  - destruct (resubmit_run updated self Hs Ha) as (self' & Hrun & V & _). exists self', (Ok tt). split_and!; [done|done|apply V].
  - destruct (remove_invalid_run hs self Hs) as (self' & txs & Hrun & V & _). exists self', (Ok tt). split_and!; [by erewrite bind_Ok by exact Hrun|done|apply V].
  - destruct (vp_prune_tags_run tags self Hs Ha) as (self' & st & Hrun & V & _). exists self', (Ok tt). split_and!; [by erewrite bind_Ok by exact Hrun|done|apply V].
  - destruct (fire_pruned_run at_ hs self Hs) as (self' & r & Hrun & Hp & V & _). exists self', r. split_and!; [done|done|apply V].
  - destruct (clear_stale_safe at_ self Hs) as (self' & r & Hrun & Hp & V). exists self', r. split_and!; [done|done|apply V].
  - destruct Ha as [Hlen Ha]. destruct (resubmit_pruned_safe at_ known hs xts self Hs Hlen Ha) as (self' & r & Hrun & Hp & V). exists self', r. split_and!; [done|done|apply V].
  - eexists _, (Ok tt). split_and!; [reflexivity|done|]. destruct Hs. by split.
  - apply Hl. intros l. apply fires_foldl. intros. apply broadcasted_fires.
  - apply Hl. apply finalized_fires.
  - apply Hl. apply retracted_fires.
Qed.

Lemma vp_reach_sound self : vp_reach self -> vp_sound self.
Proof.
  induction 1 as [options Ho|self op self' r _ IH Ha Hrun].
  - split; [apply pool_new_sound|apply listener_inv_default|done].
  - destruct (vop_sound op self IH Ha) as (self1 & r1 & Hrun1 & _ & Hs). rewrite Hrun in Hrun1. by injection Hrun1 as -> ->.
Qed.

(** C8. The validated pool over every sequence of submissions, resubmissions,
    removals, prunings, clearings and notifications, whatever the chain, the
    clock and the receivers answer and whichever transactions the runtime finds
    valid, under [vop_allowed]: each transaction that is imported requires no
    tag that it provides and provides none twice (otherwise the pool panics:
    [self_requirement_panics], [duplicate_tag_panics]), has a size that is not
    negative, and is in the pool already or is not listed as unlocked by a ready
    transaction (which excludes putting back a transaction while one that
    provides a tag for it stays, as the code does not delist it); a transaction
    that is revalidated keeps its hash; insertion ids below 2^64 are left, the
    sizes waiting sum below 2^64, limits are not negative, and the lists of a
    resubmission after pruning have the same length.  Then the next operation does not panic; no transaction is in both queues; the table
    of provided tags names the ready providers; and on each channel of a watcher
    nothing is sent after [Finalized] or [FinalityTimeout], or after the
    receiver has gone. *)
Theorem validated_pool_safe self : vp_reach self ->
  (forall op, vop_allowed op self -> (run_vop op self).2 <> Panic) /\
  dom (rtxs (pool self)) ## dom (wtxs (pool self)) /\
  (forall tag h, provided_tags (pool_ready (pool self)) !! tag = Some h <-> exists t, rtxs (pool self) !! h = Some t /\ tag ∈ provides (tx_of t)) /\
  (forall i j a b, (i < j)%nat -> channels (listener self) !! i = Some a -> channels (listener self) !! j = Some b -> channel a = channel b -> ends_stream a = false).
Proof.
  intros Hr. pose proof (vp_reach_sound self Hr) as Hs. split_and!.
  - intros op Ha. by destruct (vop_sound op self Hs Ha) as (self' & r & -> & Hp & _).
  - eapply queues_disjoint. apply (vs_pool _ Hs).
  - apply (ri_graph _ _ (pi_ready _ _ (proj1 (vs_pool _ Hs)))).
  - intros i j a b Hij Ha Hb Hc. apply closing_ends. by apply (li_last _ (vs_listener _ Hs) i j a b).
Qed.

(** C9. A batch of validated transactions submitted to a pool reached as in C8,
    each of which may be imported when its turn comes ([batch_allowed]: its tags
    are sound, its hash is in the pool or not listed as unlocked by a ready
    transaction, ids and sizes fit).  Then there is a result for each, a
    transaction that was not valid gets its error, nothing enters the pool but
    the valid ones, the limits are kept if one was imported, and every
    transaction that was in the pool or was imported is still there or has no
    sender any more, unless an import failed for its priority or by a cycle. *)
Theorem submit_spec txs self : vp_reach self -> batch_allowed txs self ->
  exists self' rs, submit txs self = (self', Ok rs) /\ submit_report txs rs self self'.
Proof.
  intros Hr Ha. destruct (submit_run txs self (vp_reach_sound self Hr) Ha) as (self' & rs & Hrun & _ & Rep). eauto.
Qed.

(** The watchers of the transactions that left the pool were sent a last status. *)
Definition told self self' : Prop := forall h s r, watchers (listener self) !! h = Some s -> r ∈ receivers s ->
  h ∈ in_pool (pool self) -> h ∉ in_pool (pool self') ->
  exists a, a ∈ drop (length (channels (listener self))) (channels (listener self')) /\ channel a = r /\ closing a = true.

Lemma accounted_told self self' : vp_sound self -> vstep self self' -> accounted (in_pool (pool self)) self' -> told self self'.
Proof.
  intros Hs V A h s r Hh Hr Hin Hout. destruct (A h Hin) as [|Hn]; [done|]. pose proof (fires_advances _ _ (st_fires _ _ V) (vs_listener _ Hs)) as Ad.
  destruct (ad_kept _ _ Ad h s r Hh Hr) as [(s' & Hs' & _)|]; [congruence|done].
Qed.

(** C10. Leaving the pool is told.  In a pool reached as in C8, when transactions
    are removed as invalid or cleared as stale, then every receiver that watches
    a transaction that has left the pool was sent a last status, or had gone.
    So it is when revalidated transactions are put back, provided that each may
    be imported again ([resubmit_allowed]: the tags the runtime now gives are
    sound, the hash is as before, and no ready transaction lists it as unlocked,
    that is, none that provides a tag for it stays in the pool) and that none of
    these imports fails for its priority or by a cycle ([resubmit_clean]). *)
Theorem leaving_is_told self op self' r : vp_reach self -> vop_allowed op self -> run_vop op self = (self', r) ->
  match op with
  | RemoveInvalid _ | ClearStale _ => told self self'
  | Resubmit updated => resubmit_clean updated self -> told self self'
  | _ => True
  end.
Proof.
  intros Hr Ha Hrun. pose proof (vp_reach_sound self Hr) as Hs. destruct op as [| |updated|hs| | |at_| | | | |]; try done; cbn [run_vop] in Hrun.
  - intros Hc. destruct (resubmit_run updated self Hs Ha) as (self1 & Hrun1 & V & Hacc). rewrite Hrun in Hrun1. injection Hrun1 as -> ->. apply accounted_told; auto.
  - destruct (remove_invalid_run hs self Hs) as (self1 & txs & Hrun1 & V & Hacc & _). erewrite bind_Ok in Hrun by exact Hrun1. injection Hrun as <- <-. by apply accounted_told.
  - destruct (clear_stale_unknown at_ self) as [He Hn]. destruct (block_id_to_number (ticks self) at_) as [[n|]|e] eqn:Hb.
    + destruct (clear_stale_run at_ n self Hs Hb) as (self1 & Hrun1 & V & C). rewrite Hrun in Hrun1. injection Hrun1 as -> ->. apply accounted_told; [done|done|apply C].
    + rewrite Hn in Hrun by done. injection Hrun as <- <-. by intros h s k _ _ Hin Hout.
    + rewrite (He e) in Hrun by done. injection Hrun as <- <-. by intros h s k _ _ Hin Hout.
Qed.

(** [clear_stale] at a block: afterwards every waiting transaction is valid
    beyond the block, and so is every ready one that block authors were given;
    only stale transactions, and ready ones that depend on one, have left; their
    watchers are told.  If the block is unknown nothing happens. *)
Theorem clear_stale_spec at_ self : vp_reach self ->
  match block_id_to_number (ticks self) at_ with
  | inl (Some n) => exists self', clear_stale at_ self = (self', Ok tt) /\ cleared (Z.min n (2 ^ 64 - 1)) self self'
  | inl None => clear_stale at_ self = (with_ticks (S (ticks self)) self, Err (from_pool_error InvalidBlockId))
  | inr e => clear_stale at_ self = (with_ticks (S (ticks self)) self, Err e)
  end.
Proof.
  intros Hr. destruct (clear_stale_unknown at_ self) as [He Hn]. destruct (block_id_to_number (ticks self) at_) as [[n|]|e] eqn:Hb; [|by apply Hn|by apply He].
  destruct (clear_stale_run at_ n self (vp_reach_sound self Hr) Hb) as (self' & Hrun & _ & C). eauto.
Qed.

Lemma verified_list (m : gmap Hash VTx) tx : tx ∈ verified_txs m <-> exists h, m !! h = Some tx.
Proof. unfold verified_txs. apply elem_of_hash_values. Qed.

(** What [submit_at] answers and lets in at a block that is known. *)
Record submitted (at_ : BlockId) (source : TransactionSource) (xts : list Ex) (rs : list (Hash + ChainError)) self self' : Prop := {
  sb_banned xt : xt ∈ xts -> is_banned (hash_of xt) (rotator self) = true -> inr (from_pool_error TemporarilyBanned) ∈ rs;
  sb_known xt : xt ∈ xts -> is_banned (hash_of xt) (rotator self) = false -> hash_of xt ∈ in_pool (pool self) ->
    inr (from_pool_error (AlreadyImported (hash_of xt))) ∈ rs;
  sb_entered h : inl h ∈ rs \/ (h ∈ in_pool (pool self') /\ h ∉ in_pool (pool self)) -> exists xt tick v, xt ∈ xts /\ hash_of xt = h /\
    is_banned h (rotator self) = false /\ (h ∉ in_pool (pool self)) /\ validate_transaction tick at_ source xt = inl (inl v) /\ v_provides v <> [] }.

(** A transaction that the validation returns as valid was neither banned nor in
    the pool, and the runtime answered for it with a tag. *)
Lemma verified_valid at_ number source xt self t : verified at_ number source xt CheckYes self (Valid t) ->
  is_banned (hash_of xt) (rotator self) = false /\ (hash_of xt ∉ in_pool (pool self)) /\
  exists tick v, validate_transaction tick at_ source xt = inl (inl v) /\ v_provides v <> [].
Proof.
  unfold verified, hash_of. destruct (hash_and_length xt) as [h b]. cbn [fst]. unfold check_is_known.
  destruct (is_banned h (rotator self)) eqn:Hb; [done|]. cbn [negb andb]. destruct (is_imported h (pool self)) eqn:Hi; [done|].
  intros [tick Hver]. split_and!; [done| |].
  - intros Hin%is_imported_spec. congruence.
  - exists tick. destruct (validate_transaction tick at_ source xt) as [[v|[]]|]; [|done..]. exists v. split; [done|].
    intros Hp. by specialize (proj1 Hver Hp).
Qed.

(** C11. Submission of raw transactions.  At a known block it returns results: a
    transaction that is banned is refused with [TemporarilyBanned], one that is
    already in the pool with [AlreadyImported]; and whatever is answered as
    imported, or is in the pool afterwards and was not before, is the hash of a
    transaction of the call that was neither banned nor in the pool and that
    the runtime found valid with a tag to provide.  If the block is not known
    the call fails with [InvalidBlockId], and if the chain fails to resolve it
    with the error of the chain; nothing of the pool changes then, only the
    counter of the questions asked.  Assumed, besides a reachable pool, is that
    the transactions found valid may be imported ([batch_allowed], as in
    [submit_spec]). *)
Theorem submit_at_spec at_ source xts self : vp_reach self ->
  (forall n m, verify at_ ((fun xt => (source, xt)) <$> xts) CheckYes self = (with_ticks n self, Ok m) -> batch_allowed (verified_txs m) (with_ticks n self)) ->
  match block_id_to_number (ticks self) at_ with
  | inl (Some _) => exists self' rs, submit_at at_ source xts self = (self', Ok rs) /\ submitted at_ source xts rs self self'
  | inl None => submit_at at_ source xts self = (with_ticks (S (ticks self)) self, Err (from_pool_error InvalidBlockId))
  | inr e => submit_at at_ source xts self = (with_ticks (S (ticks self)) self, Err e)
  end.
Proof.
  intros Hr Ha. unfold submit_at. destruct (verify_run at_ ((fun xt => (source, xt)) <$> xts) CheckYes self) as (n & r & Hv & Hrep).
  destruct (block_id_to_number (ticks self) at_) as [[number0|]|e0] eqn:Hblock.
  2: { erewrite bind_Err; [reflexivity|]. by apply verify_unknown. }
  2: { erewrite bind_Err; [reflexivity|]. by apply verify_unknown. }
  destruct r as [m|e|]; [|by destruct Hrep as [|[? _]]|done].
  erewrite bind_Ok by exact Hv. destruct Hrep as (number & _ & Hdom & Hall). assert (vp_sound (with_ticks n self)) as Hs by (destruct (vp_reach_sound self Hr); by split).
  destruct (submit_run (verified_txs m) (with_ticks n self) Hs (Ha n m Hv)) as (self' & rs & Hrun & _ & Rep). exists self', rs. split; [done|].
  assert (forall xt e, xt ∈ xts -> check_is_known (hash_of xt) false self = inr e -> inr e ∈ rs) as Hrefused.
  { intros xt e Hxt Hk. destruct (Hdom source xt) as [tx Htx]; [by apply list_elem_of_fmap_2|]. destruct (Hall _ _ Htx) as (source' & xt' & _ & Heq & Hver).
    assert (tx = Invalid (hash_of xt) e) as ->.
    { unfold verified in Hver. unfold hash_of in *. destruct (hash_and_length xt') as [h b]. simpl in Heq. subst h. by rewrite Hk in Hver. }
    assert (Invalid (hash_of xt) e ∈ verified_txs m) as [j Hj]%list_elem_of_lookup by (apply verified_list; eauto).
    eapply list_elem_of_lookup_2. by apply (sr_refused _ _ _ _ Rep j _ e Hj). }
  split.
  - intros xt Hxt Hb. apply (Hrefused xt _ Hxt). unfold check_is_known. by rewrite Hb.
  - intros xt Hxt Hb Hin. apply (Hrefused xt _ Hxt). unfold check_is_known. rewrite Hb. by rewrite (proj2 (is_imported_spec _ _) Hin).
  - intros h Hh. assert (exists t, Valid t ∈ verified_txs m /\ hash t = h) as (t & Ht & <-).
    { destruct Hh as [[i Hi]%list_elem_of_lookup|[Hin Hout]].
      - destruct (sr_imported _ _ _ _ Rep i h Hi) as (t & Ht%list_elem_of_lookup_2 & ->). by exists t.
      - by apply (sr_entered _ _ _ _ Rep) in Hin as [Hin|]. }
    apply verified_list in Ht as [h Ht]. destruct (Hall h _ Ht) as (source' & xt & (xt0 & [= -> ->] & Hxt)%list_elem_of_fmap & _ & Hver).
    pose proof (verified_hash _ _ _ _ _ _ _ Hver) as Heq. destruct (verified_valid _ _ _ _ _ _ Hver) as (Hb & Hn & tick & v & Hval).
    exists xt0, tick, v. by rewrite Heq.
Qed.

(** *** Deciding what is allowed *)

Definition allowedb (tx : VTx) self : bool := match tx with Valid tx => op_allowedb (ImportTx tx 0) (pool self) | _ => true end.

Fixpoint batch_allowedb (txs : list VTx) self : bool :=
  match txs with
  | [] => total_size (wtxs (pool self)) <? 2 ^ 64
  | tx :: txs => allowedb tx self && batch_allowedb txs (submit_one tx self).1
  end.

Lemma batch_allowedb_sound txs : forall self, batch_allowedb txs self = true -> batch_allowed txs self.
Proof.
  induction txs as [|tx txs IH]; intros self; cbn [batch_allowedb batch_allowed]; [by rewrite Z.ltb_lt|].
  intros [Ha Hr]%andb_true_iff. split; [|by apply IH]. destruct tx; [|done..]. by apply op_allowedb_sound.
Qed.

Fixpoint puts_allowedb (txs : list (Hash * VTx)) self : bool :=
  match txs with
  | [] => true
  | htx :: txs => allowedb htx.2 self && puts_allowedb txs (put_back ∅ htx self).1
  end.

Definition cleanb (tx : VTx) self : bool :=
  match tx with
  | Valid t => match (import t (instant_now (ticks self)) (pool self)).2 with Err e => negb (losing e) | _ => true end
  | _ => true
  end.

Fixpoint puts_cleanb (txs : list (Hash * VTx)) self : bool :=
  match txs with
  | [] => true
  | htx :: txs => cleanb htx.2 self && puts_cleanb txs (put_back ∅ htx self).1
  end.

Definition resubmit_allowedb (updated : gmap Hash VTx) self : bool :=
  forallb (fun htx => match htx.2 with Valid t => bool_decide (hash t = htx.1) | _ => true end) (map_to_list updated) &&
  match taken_out updated self with Some (self, txs) => puts_allowedb txs self | None => true end.

Definition resubmit_cleanb (updated : gmap Hash VTx) self : bool :=
  match taken_out updated self with Some (self, txs) => puts_cleanb txs self | None => true end.

Lemma puts_allowedb_sound txs : forall self, puts_allowedb txs self = true -> puts_allowed txs self.
Proof.
  induction txs as [|[h tx] txs IH]; intros self; [done|]. cbn [puts_allowedb puts_allowed snd]. intros [Ha Hr]%andb_true_iff.
  split; [|by apply IH]. destruct tx; [|done..]. by apply op_allowedb_sound.
Qed.

Lemma puts_cleanb_sound txs : forall self, puts_cleanb txs self = true -> puts_clean txs self.
Proof.
  induction txs as [|[h tx] txs IH]; intros self; [done|]. cbn [puts_cleanb puts_clean snd]. intros [Ha Hr]%andb_true_iff.
  split; [|by apply IH]. destruct tx as [t| |]; [|done..]. intros e He. cbn [cleanb] in Ha. rewrite He in Ha. by apply negb_true_iff.
Qed.

Lemma resubmit_allowedb_sound updated self : resubmit_allowedb updated self = true -> resubmit_allowed updated self.
Proof.
  unfold resubmit_allowedb, resubmit_allowed. intros [Hk Ha]%andb_true_iff. split.
  - intros h t Ht%elem_of_map_to_list. rewrite forallb_forall in Hk. apply list_elem_of_In in Ht. specialize (Hk _ Ht). by apply bool_decide_eq_true in Hk.
  - destruct (taken_out updated self) as [[]|]; [|done]. by apply puts_allowedb_sound.
Qed.

Lemma resubmit_cleanb_sound updated self : resubmit_cleanb updated self = true -> resubmit_clean updated self.
Proof. unfold resubmit_cleanb, resubmit_clean. destruct (taken_out updated self) as [[]|]; [|done]. apply puts_cleanb_sound. Qed.

Definition vop_allowedb (op : VOp) self : bool :=
  match op with
  | Submit txs => batch_allowedb txs self
  | SubmitAndWatch (Valid t) => batch_allowedb [Valid t] (watching t self)
  | Resubmit updated => resubmit_allowedb updated self
  | VPruneTags tags => op_allowedb (PruneTags tags) (pool self)
  | ResubmitPruned _ _ hashes xts => (length hashes =? length xts)%nat && batch_allowedb xts self
  | _ => true
  end.

Lemma vop_allowedb_sound op self : vop_allowedb op self = true -> vop_allowed op self.
Proof.
  destruct op as [txs|[]|updated|hs|tags|at_ hs|at_|at_ known hs xts| |m|b|b]; intros Ha; try done; cbn [vop_allowedb vop_allowed] in *.
  - by apply batch_allowedb_sound.
  - by apply batch_allowedb_sound.
  - by apply resubmit_allowedb_sound.
  - by apply (op_allowedb_sound (PruneTags tags)).
  - apply andb_true_iff in Ha as [Hlen Ha]. split; [by apply Nat.eqb_eq|by apply batch_allowedb_sound].
Qed.

Fixpoint run_vops (ops : list VOp) self : option VPool :=
  match ops with
  | [] => Some self
  | op :: ops => if vop_allowedb op self then run_vops ops (run_vop op self).1 else None
  end.

Lemma run_vops_reach ops self self' : vp_reach self -> run_vops ops self = Some self' -> vp_reach self'.
Proof.
  revert self. induction ops as [|op ops IH]; intros self Hr Hrun; cbn [run_vops] in Hrun; [by injection Hrun as <-|].
  destruct (vop_allowedb op self) eqn:Ha; [|done]. eapply IH; [|exact Hrun]. eapply vp_step; [done|by apply vop_allowedb_sound|apply surjective_pairing].
Qed.

Definition vp_after (options : Options) (ops : list VOp) : VPool := default (ValidatedPool_new options) (run_vops ops (ValidatedPool_new options)).

Lemma vp_after_reach options ops : options_ok options -> vp_reach (vp_after options ops).
Proof.
  intros Ho. unfold vp_after. destruct (run_vops ops (ValidatedPool_new options)) as [self|] eqn:Hq; [|by apply vp_start].
  eapply run_vops_reach; [by apply vp_start|exact Hq].
Qed.
End validated_reach.

(** ** Concrete pools *)

Module ValidatedDemo.
#[local] Instance debug_build : OverflowChecks := true.
#[local] Instance some_order K `{Countable K} : HashOrder K := {| hash_iter X := elements X; hash_iter_perm X := Permutation_refl _ |}.

(** Every receiver listens, except that of channel 9. *)
#[local] Instance all_listen : Receivers := fun _ receiver => negb (receiver =? 9)%nat.

(** A linked hash map as the list of its items. *)
#[local] Instance list_lhm K V `{EqDecision K} : LinkedHashMap K V (list (K * V)).
Proof.
  refine {| lhm_items l := l; lhm_default := []; lhm_len l := Z.of_nat (length l); lhm_entry := upsert;
            lhm_pop_front l := (head l, tail l); lhm_remove k l := (assoc k l, filter (fun kv => kv.1 <> k) l) |}; done.
Defined.

(** The transaction 7 has two watchers, one of which has gone. *)
Definition demo_events : list (ListenerOp (Hash := Z) (BlockHash := Z)) :=
  repeat (CreateWatcher 5) 9 ++ [CreateWatcher 7; CreateWatcher 7; ReadyEvent 7 None; PrunedEvent 100 7; RetractedEvent 100; PrunedEvent 101 7].

Lemma watch_protocol_witness : let self := run_listener (T := list (Z * list Z)) demo_events in
  (exists s, watchers self !! 7 = Some s /\ receivers s = [10%nat]) /\ lhm_len (finality_watchers self) <= MAX_FINALITY_WATCHERS /\
  exists a, a ∈ drop (length (channels self)) (channels (listener_step (FinalizedEvent 101) self)) /\ channel a = 10%nat.
Proof.
  cbv zeta. destruct (watch_protocol (T := list (Z * list Z)) demo_events) as (_ & _ & Hkept & Hlen).
  assert (exists s, watchers (run_listener (T := list (Z * list Z)) demo_events) !! 7 = Some s /\ receivers s = [10%nat]) as (s & Hs & Hr) by (eexists; by vm_compute).
  split; [exists s; split; [exact Hs|exact Hr]|split; [exact Hlen|]].
  destruct (Hkept (FinalizedEvent 101) 7 s 10%nat Hs) as [(s' & Hs' & _)|Ha]; [rewrite Hr; apply list_elem_of_here| |].
  2: { destruct Ha as (a & Hin & Hc & _). exists a. split; [exact Hin|exact Hc]. }
  exfalso. vm_compute in Hs'. discriminate Hs'.
Defined.

(** An extrinsic: its hash, its priority, the last block at which it is valid,
    and the tags it requires and provides.  A block is its number, and -1 is not
    known. *)
Record Xt : Type := mkXt { xt_hash : Z; xt_prio : Z; xt_till : Z; xt_requires : list Tag; xt_provides : list Tag }.

#[local] Instance demo_env : PoolEnv Z Z Xt Z (PoolError Z) := {|
  instant_now tick := Z.of_nat tick;
  is_validator _ := true;
  try_send _ _ := SinkOk;
  hash_and_length xt := (xt_hash xt, 10);
  block_id_to_number _ block := inl (if block <? 0 then None else Some block);
  block_id_to_hash _ block := inl (if block <? 0 then None else Some (1000 + block));
  validate_transaction _ block _ xt := inl (if xt_till xt <? block then inr (InvalidValidity Stale) else
    inl (mkValidTransaction (xt_prio xt) (xt_requires xt) (xt_provides xt) (xt_till xt - block) true));
  from_pool_error e := e;
  into_pool_error e := inl e |}.

Abbreviation DemoVP := (ValidatedPool Z Z Xt (list (Z * list Z))).
Abbreviation DemoOp := (VOp (Hash := Z) (BlockHash := Z) (Ex := Xt) (BlockId := Z) (ChainError := PoolError Z)).

Definition valid (xt : Xt) : ValidatedTransaction Z Xt (PoolError Z) :=
  valid_at 0 (xt_hash xt) External xt 10 (mkValidTransaction (xt_prio xt) (xt_requires xt) (xt_provides xt) (xt_till xt) true).

(** 2 depends on 1; 3 waits for a tag; 4 is valid until block 5. *)
Definition x1 : Xt := mkXt 1 5 64 [] [[1]].
Definition x2 : Xt := mkXt 2 5 64 [[1]] [[2]].
Definition x3 : Xt := mkXt 3 9 64 [[9]] [[3]].
Definition x4 : Xt := mkXt 4 1 5 [] [[4]].

Definition roomy : Options := mkOptions (mkLimit 4 1000) (mkLimit 2 1000) false.

Lemma roomy_ok : options_ok roomy.
Proof. by vm_compute. Qed.

Definition demo_vops : list DemoOp := [ImportStream; SubmitAndWatch (valid x2); Submit [valid x1; valid x3]; SubmitAndWatch (valid x4)].
Definition demo_vp : DemoVP := vp_after roomy demo_vops.

Lemma demo_vp_reach : vp_reach demo_vp.
Proof. apply vp_after_reach, roomy_ok. Qed.

Definition ready_in (self : DemoVP) : list Z := merge_sort Z.le (elements (dom (index (ready (pool_ready (pool self)))))).
Definition waiting_in (self : DemoVP) : list Z := merge_sort Z.le (elements (dom (waiting (pool_future (pool self))))).
Definition banned_in (self : DemoVP) : list Z := merge_sort Z.le (elements (dom (banned_until (rotator self)))).
Definition watched_in (self : DemoVP) : list Z := merge_sort Z.le (elements (dom (watchers (listener self)))).
Definition sent_to (r : nat) (self : DemoVP) : list (TransactionStatus Z Z) :=
  message <$> filter (fun a : Attempt Z Z => channel a = r) (channels (listener self)).

Example demo_vp_state : ready_in demo_vp = [1; 2; 4] /\ waiting_in demo_vp = [3] /\ watched_in demo_vp = [2; 4] /\
  sent_to 0 demo_vp = [FutureStatus; ReadyStatus] /\ sent_to 1 demo_vp = [ReadyStatus].
Proof. by vm_compute. Qed.

Lemma validated_pool_safe_witness : vp_reach demo_vp /\ (run_vop (ClearStale 5) demo_vp).2 <> Panic /\
  (run_vop (Submit [valid (mkXt 5 7 64 [] [[4]; [9]])]) demo_vp).2 <> Panic /\
  dom (index (ready (pool_ready (pool demo_vp)))) ## dom (waiting (pool_future (pool demo_vp))).
Proof.
  destruct (validated_pool_safe demo_vp demo_vp_reach) as (Hop & Hdj & _). split; [exact demo_vp_reach|].
  split; [by apply Hop|split; [|exact Hdj]]. apply Hop, vop_allowedb_sound. by vm_compute.
Defined.

(** 5 replaces 4 and makes 3 ready; 6 is invalid. *)
Definition demo_batch : list (ValidatedTransaction Z Xt (PoolError Z)) :=
  [valid (mkXt 5 7 64 [] [[4]; [9]]); Invalid 6 NoTagsProvided; valid (mkXt 7 2 64 [] [[7]])].

Lemma submit_spec_witness : batch_allowed demo_batch demo_vp /\
  exists self' rs, submit demo_batch demo_vp = (self', Ok rs) /\ submit_report demo_batch rs demo_vp self'.
Proof.
  assert (batch_allowed demo_batch demo_vp) as Ha by (apply batch_allowedb_sound; by vm_compute).
  split; [exact Ha|]. exact (submit_spec demo_batch demo_vp demo_vp_reach Ha).
Defined.

(** The limit of four ready transactions drops 1, which was ready first, and 2,
    which depends on it. *)
Example submit_demo : let '(self, r) := submit demo_batch demo_vp in
  r = Ok [inl 5; inr NoTagsProvided; inl 7] /\ ready_in self = [3; 5; 7] /\ banned_in self = [1; 2; 6] /\
  sent_to 0 self = [FutureStatus; ReadyStatus; DroppedStatus] /\ sent_to 1 self = [ReadyStatus; UsurpedStatus 5].
Proof. by vm_compute. Qed.

(** 2 leaves with 1, on which it depends. *)
Example remove_demo : let self := (run_vop (RemoveInvalid [1]) demo_vp).1 in
  ready_in self = [4] /\ sent_to 0 self = [FutureStatus; ReadyStatus; InvalidStatus] /\ watched_in self = [4] /\ banned_in self = [1].
Proof. by vm_compute. Qed.

(** The revalidation of 1 and 4 finds 1 changed and 4 invalid: 2, which depends
    on 1, is put back with it. *)
Definition demo_updates : gmap Z (ValidatedTransaction Z Xt (PoolError Z)) := {[1 := valid (mkXt 1 8 64 [] [[1]]); 4 := Invalid 4 NoTagsProvided]}.

Lemma leaving_is_told_witness : told demo_vp (run_vop (RemoveInvalid [1]) demo_vp).1 /\ told demo_vp (run_vop (ClearStale 5) demo_vp).1 /\
  vop_allowed (Resubmit demo_updates) demo_vp /\ told demo_vp (run_vop (Resubmit demo_updates) demo_vp).1.
Proof.
  assert (vop_allowed (Resubmit demo_updates) demo_vp) as Ha by (apply vop_allowedb_sound; by vm_compute).
  split; [exact (leaving_is_told demo_vp (RemoveInvalid [1]) _ _ demo_vp_reach I (surjective_pairing _))|].
  split; [exact (leaving_is_told demo_vp (ClearStale 5) _ _ demo_vp_reach I (surjective_pairing _))|].
  split; [exact Ha|]. apply (leaving_is_told demo_vp (Resubmit demo_updates) _ _ demo_vp_reach Ha (surjective_pairing _)).
  apply resubmit_cleanb_sound. by vm_compute.
Defined.

Example resubmit_demo : let '(self, r) := run_vop (Resubmit demo_updates) demo_vp in
  r = Ok tt /\ ready_in self = [1; 2] /\ waiting_in self = [3] /\ watched_in self = [2] /\ sent_to 1 self = [ReadyStatus; InvalidStatus].
Proof. by vm_compute. Qed.

Lemma clear_stale_spec_witness : vp_reach demo_vp /\ exists self', clear_stale 5 demo_vp = (self', Ok tt) /\ cleared 5 demo_vp self'.
Proof. split; [exact demo_vp_reach|]. exact (clear_stale_spec 5 demo_vp demo_vp_reach). Defined.

Example clear_demo : let '(self, r) := clear_stale 5 demo_vp in
  r = Ok tt /\ ready_in self = [1; 2] /\ waiting_in self = [3] /\ banned_in self = [4] /\ sent_to 1 self = [ReadyStatus; InvalidStatus].
Proof. by vm_compute. Qed.

(** 1 is in the pool, 6 is invalid since block 2, 8 is new. *)
Definition demo_xts : list Xt := [x1; mkXt 6 5 2 [] [[6]]; mkXt 8 5 64 [] [[8]]].

Lemma submit_at_spec_witness : exists rs self', submit_at 3 External demo_xts demo_vp = (self', Ok rs) /\ inr (AlreadyImported 1) ∈ rs.
Proof.
  assert (exists n, block_id_to_number (ticks demo_vp) 3 = inl (Some n)) as [n Hn] by (eexists; by vm_compute).
  pose proof (submit_at_spec 3 External demo_xts demo_vp demo_vp_reach) as Hspec. rewrite Hn in Hspec.
  destruct Hspec as (self' & rs & Hrun & Hr).
  { intros k m Hv. apply batch_allowedb_sound. vm_compute in Hv. injection Hv as <- <-. by vm_compute. }
  exists rs, self'. split; [exact Hrun|]. apply (sb_known _ _ _ _ _ _ Hr x1); [apply list_elem_of_here|by vm_compute|by vm_compute].
Defined.

(** ** Where the code departs from its documentation *)

(** The results of a batch come in the order of a hash map, not in that of the
    extrinsics. *)
Example submit_at_order : (submit_at 3 External [mkXt 6 5 2 [] [[6]]; mkXt 11 5 64 [] [[11]]] demo_vp).2 =
  Ok [inl 11; inr (InvalidTransactionError Stale)].
Proof. by vm_compute. Qed.

(** Submitting a transaction that is in the pool bans it: [verify_one] returns
    it as invalid, and [submit_one] bans what is invalid. *)
Example known_is_banned : let '(self, r) := submit_at 3 External [x1] demo_vp in
  r = Ok [inr (AlreadyImported 1)] /\ ready_in self = [1; 2; 4] /\ banned_in self = [1] /\
  (submit_at 3 External [x1] self).2 = Ok [inr TemporarilyBanned].
Proof. by vm_compute. Qed.

(** A transaction that is pruned for its tag and is still valid goes back to the
    pool; one that was submitted twice is refused as banned. *)
Example banned_is_not_resubmitted :
  ready_in (pool_prune_tags 3 [[4]] [] demo_vp).1 = [1; 2; 4] /\
  ready_in ((_ ← submit_at 3 External [x4]; pool_prune_tags 3 [[4]] []) demo_vp).1 = [1; 2].
Proof. by vm_compute. Qed.

(** [submit_and_watch] creates the watcher before the import; when the import
    fails the sender stays in the table. *)
Example failed_watch_stays : let '(self, r) := pool_submit_and_watch 3 External (mkXt 5 0 64 [] [[4]]) demo_vp in
  r = Err (TooLowPriority 1 0) /\ watched_in self = [2; 4; 5] /\ ready_in self = [1; 2; 4].
Proof. by vm_compute. Qed.

(** The watcher of a waiting transaction that is lost by a failed import hears
    nothing. *)
Example lost_is_not_told :
  let '(self, _) := (_ ← pool_submit_and_watch 3 External (mkXt 5 5 64 [[7]] [[5]]); submit_at 3 External [mkXt 6 0 64 [] [[4]; [7]]]) demo_vp in
  ready_in self = [1; 2; 4] /\ waiting_in self = [3] /\ watched_in self = [2; 4; 5] /\ sent_to 2 self = [FutureStatus].
Proof. by vm_compute. Qed.

(** When pruned transactions are validated again, the results are matched by
    their index with hashes in another order: 2, which is back in the pool, is
    reported to be in the block, and 4, which is gone, is not. *)
Example wrong_in_block : let '(self, r) := pool_prune_tags 8 [[2]; [4]] [] demo_vp in
  r = Ok tt /\ ready_in self = [1; 2] /\ sent_to 0 self = [FutureStatus; ReadyStatus; FutureStatus; ReadyStatus; InBlockStatus 1008] /\
  sent_to 1 self = [ReadyStatus] /\ watched_in self = [2; 4].
Proof. by vm_compute. Qed.
End ValidatedDemo.
